(* ===== verification/_CoqProject ===== *)
-Q . S2P
Prelude.v
Bits.v
Bignum.v
BignumAdd.v
BignumMul.v
BignumDiv.v
BignumConv.v
BignumBitwise.v
BignumShift.v
BignumSpec.v
Object.v
Fixnum.v
Integer.v
IntPrim.v
Memory.v
BitCopy.v
BitString.v
BitStringSpec.v
BitStringConv.v
AvlTree.v
Gc.v
GcSpec.v
GcInv.v
GcScan.v
GcWeak.v
Collect.v
CollectSpec.v
CollectProps.v
Ephemeron.v
Heap.v
HeapArg.v
Symbol.v
Environment.v
EnvSpec.v
EnvInv.v
EnvAssign.v
EnvDefine.v
EnvCache.v
EnvNew.v
EnvOld.v
EnvProps.v
EnvPrim.v
SymbolSpec.v
SymbolTable.v
SymbolIntern.v
SymbolProps.v
Stack.v
History.v
Signal.v
Control.v
Interp.v
Direct.v
DirectSim.v
DirectEval.v
DirectApply.v
DirectPrims.v
DirectProps.v
ControlProps.v
Regex.v
RegexSpec.v
RegexMatch.v
RegexSearch.v
RegexFast.v
RegexProps.v
RegexExample.v
VectorPrim.v
VectorRun.v
HeapSafe.v
VectorSafe.v
VectorProps.v
Syntax.v
Bytes.v
ExtString.v
PrimTable.v
PrimTableProps.v
Transaction.v
TransactionProps.v
Fasl.v
FaslProps.v
FaslBand.v
