(* ===== verification/Prelude.v ===== *)
(** * MIT/GNU Scheme microcode: exact integers, bit strings, lists and vectors,
      tables of names, the garbage collector, environments, the interpreter,
      regular expressions, transactions and heap images

    The C program under src/src/microcode is the virtual machine of MIT/GNU
    Scheme: it represents objects as tagged words, and its primitives are the
    operations that Scheme code calls.  This library models the part of it
    that computes exact integers, from single words up to the primitives,
    together with components that use words in other ways: bit strings,
    which work on the words of the heap, the AVL tree that maps names of
    primitives to numbers, the copying garbage collector that moves the
    heap's objects, the symbol table and the environments, where the values of
    variables are found, and the interpreter with its stack, its errors and
    interrupts and the primitives that work on its registers, the matcher
    of regular expressions, the scanners with which the editor reads the syntax
    of a text, the primitives on lists and vectors, the strings
    that live outside of the heap, the table of primitives on top of the AVL
    tree, the dynamic stack with its transactions, and the files in which a
    whole heap is dumped and loaded at another address.  Every definition follows one C function, macro or
    loop and keeps its name; loops are fixpoints on a list, on a counter or on
    fuel.

    ** The parts and how they interact

    A fixnum is an integer in the datum of a word; a bignum is a block of
    62-bit digits.  A primitive checks its arguments (utils.c), calls a
    generic integer operation (artutl.c), which takes the fixnum path when it
    can and otherwise converts to bignums, calls bignum.c and converts the
    result back to a fixnum if it fits.  Bit strings convert to and from both
    kinds of integer.

    - Prelude.v: machine integers and their notations, the option monad,
      tactics, bits of integers, population count, trailing zeros.
    - Bits.v (bits.h): bit count, length and first set bit of a word.
    - Bignum.v (bignmint.h; allocation, canonical form and comparison of
      bignum.c): the record [bignum] is a header word and its digits.
    - BignumAdd.v, BignumMul.v, BignumDiv.v, BignumConv.v, BignumBitwise.v,
      BignumShift.v: the rest of bignum.c: addition and subtraction;
      multiplication; long division with its half-digit steps; words, tests
      of fit and digit streams; bitwise operations; shifts and bit metrics.
    - BignumSpec.v (bignum.h): the class [BignumOps] of the operations that
      bignum.c exports and the class [BignumLaws] of what they promise, with
      the instances that bignum.c gives.
    - Object.v (object.h, utils.c): tagging, fixnum macros, the results and
      errors of a primitive.
    - Fixnum.v (fixnum.c, fixnum.h, mul.c): the fixnum primitives.
    - Integer.v (artutl.c, object.h): generic integers over any instance of
      the bignum classes.
    - IntPrim.v (intprm.c, bigprm.c, utils.c): argument decoding and the
      integer and bignum primitives.
    - Memory.v (object.h, memmag.h, vector.c): word-addressed memory, the free
      pointer and allocation; memory as a line of bits.
    - BitCopy.v, BitString.v, BitStringSpec.v, BitStringConv.v (bitstr.c,
      bitstr.h): [copy_bits]; the primitives; what they do; the conversions
      to and from integers.
    - AvlTree.v (avltree.c, avltree.h, [strcmp_ci] of primutl.c): the tree of
      names.
    - Gc.v (gcloop.c, gc.h, object.h, sdata.h): the collector's spaces, the
      table of handlers, forwarding and transport, the scan loop, weak pairs
      and ephemerons, in a monad of state and fatal errors.  GcSpec.v: heaps
      of blocks, what is live, what forwarding means.  GcInv.v: the invariant
      of a collection and the transport of one block.  GcScan.v: the scan
      loop.  GcWeak.v: the weak chain.
    - Collect.v (memmag.c): the registers, [std_gc_pt1], [std_gc_pt2] and a
      whole collection.  CollectSpec.v: the specification [collected] and the
      proof that both parts meet it.  CollectProps.v: the theorems and a
      small heap.  Ephemeron.v: ephemerons that make the collector hang.

    - Heap.v (object.h, list.c): objects that point to blocks of words, and a
      monad for code that reads and writes the machine of Memory.v.
    - Symbol.v (intern.c): the symbol table.  SymbolSpec.v: a table as a map
      from strings to symbols.  SymbolTable.v: well-formed tables.
      SymbolIntern.v: the search of a bucket, which takes dropped symbols out,
      new symbols, and the strength of a symbol.
      SymbolProps.v: the theorems and a small table.
    - Environment.v (lookup.c, trap.h, sdata.h, scode.h): reference,
      assignment, definition, linking and removal of variables.
    - EnvSpec.v: an environment as a list of association lists, and the search
      of it.  EnvInv.v: well-formed heaps of environments, and what does not
      change when parts of them do.  EnvAssign.v: values replaced.
      EnvDefine.v: new blocks, extensions and a new pair in one.  EnvCache.v: caches.  EnvNew.v and EnvOld.v: definition of a
      name that the frame has not got, and of one that it has.  EnvProps.v:
      the theorems and a small heap.  EnvPrim.v (lookprm.c): the primitives.

    - Stack.v (stack.h, interp.h, extern.h, intrpt.h): the interpreter's
      registers and stack, and its monad.  History.v (history.h, utils.c): the
      history that the debugger reads.  Signal.v (utils.c): errors and
      interrupts become the application of a handler.  Control.v (hooks.c):
      the primitives on the stack and the registers, which return or abort to
      the interpreter with a code.
    - Interp.v (interp.c): the interpreter, as a step from label to label.
      Variables are looked up by Environment.v; an error of a primitive comes
      back as in Control.v.  The table of primitives is a parameter.
    - Direct.v: the direct evaluator, the specification of the interpreter.
      DirectSim.v: the simulation, and the class [Primitives] of what the
      primitives promise to both.  DirectEval.v, DirectApply.v: evaluation;
      application, errors and interrupts.  DirectPrims.v: primitives of
      Control.v that keep the promise.  DirectProps.v: the theorems and two
      programs.  ControlProps.v: catch and throw.

    - Regex.v (regex.c, regex.h, syntax.h): compiled patterns and [re_match],
      an interpreter of patterns on bytes with a stack of failure points.
      RegexSpec.v: regular expressions, their patterns as rgxcmp.scm lays them
      out, a matcher by recursion on the expression, and the language of an
      expression, which that matcher decides.  RegexMatch.v: the simulation of
      the one by the other.
    - RegexSearch.v (regex.c): the scan of a pattern for the characters that a
      match can begin with, and the searches.  RegexFast.v: the scan is
      right.  RegexProps.v: the theorems, and RegexExample.v: a text with a
      gap, and patterns and texts on which the code goes wrong.

    - Syntax.v (syntax.c, syntax.h, edwin.h): syntax tables, the scanners for
      words, lists and expressions, and the partial parser as a machine that
      goes from label to label; its state as a vector, and what it does.
    - HeapArg.v (utils.c): integer arguments whose digits are in the heap.
      VectorPrim.v (list.c, vector.c): the primitives on pairs, lists, vectors
      and records.  VectorRun.v: their loops in closed form.  HeapSafe.v:
      well-typed heaps, and a rule of reasoning about actions that keep them.
      VectorSafe.v: every primitive keeps them.  VectorProps.v: what the
      primitives do to the elements.
    - Bytes.v (object.h): bytes in words.  ExtString.v (string.c): the hash
      table of strings outside of the heap, what it stands for, and the
      strings, of either kind, that primitives take as arguments.
    - PrimTable.v (primutl.c, prename.h): the table of primitives, which
      AvlTree.v makes searchable by name, and its form in a dumped image.
      PrimTableProps.v: well-formed tables, their initialization, and the
      primitives of an image that is loaded by another microcode.
    - Fasl.v (fasl.c, fasl.h, fasdump.c, fasload.c, memmag.c): the header of a
      dumped file, DUMP-BAND, the relocation of the handlers of the
      collector's table (Gc.v) and LOAD-BAND, which imports the primitives
      with PrimTable.v and makes room for ephemerons as Collect.v does.
      FaslProps.v: the header read back, and the relocation of an image.
      FaslBand.v: a band dumped and loaded.
    - Transaction.v (wind.c, transact.c, dstack.h): the dynamic stack and
      transactions.  TransactionProps.v: the specification as a list of
      entries, and the simulation.

    ** How the state and the behaviour of C are represented

    The target is an LP64 machine with little-endian bytes, 64-bit words, six
    bits of type code and 62-bit bignum digits.  A C value is a [Z]; the
    scopes [%SL] and [%UL] reduce an operation to [long] and [unsigned long],
    and [uint] to [unsigned int], wherever C stores the result in that type,
    so that overflow is part of the model and its absence is proved.  Where C
    leaves signed overflow undefined, two's complement is meant.

    Operations on bignum blocks return [None] where an assertion
    ([BIGNUM_ASSERT]) fails or a shift is undefined; the theorems show that
    this does not happen, or when it does.  Fresh blocks hold the words that
    the parameter [Heap] says, so no result depends on uninitialized memory.
    Functions that update blocks in place return the new block: each block
    has a single owner while it is being built.  A primitive returns
    [PRIMITIVE_RETURN] or [PRIMITIVE_ERROR], with the error and the number of
    the argument, or the request for a garbage collection.  Bit strings share
    one memory, with aliasing between arguments, and every load sees the
    stores before it.  In AvlTree.v the behaviour of [malloc] is a parameter.

    The collector's static variables are the record [gc_state], with the
    memory in [gmem]; what does not change during a collection is the record
    [layout], and the interpreter's registers that it reads or sets are the
    record [registers].  An operation returns [Done] with the new state,
    [std_gc_death] where the code calls that function, or [Out_of_fuel].
    Tospace is part of the same memory as the heap, so writing past its end
    would show.  The block a heap address starts is given by a function
    [blk] in the theorems only; the code finds it from type codes.

    In Heap.v an action gives a value and the machine after it, or an exit:
    a fatal termination, an error of a primitive, a failed assertion.  A
    function of lookup.c returns its code and what it stores through its last
    argument.  The interrupt registers belong to the interpreter, so a request
    for a collection in lookup.c is part of the code [PRIM_INTERRUPT n], and
    the interpreter makes it before it does anything else ([requesting] in
    Interp.v).  An environment in a well-formed heap ([wf], [state]) has frames
    and names that depend only on the structure words of its blocks; the words
    that hold values of variables are told apart from these ([value_word]).
    In the model of vector.c addresses do not wrap around, which only lengths
    above 2^58 would show.

    The table of external strings and the table of primitives are records of
    their own; a pointer that [malloc] returns is the number of the block, and
    [malloc] may fail at any call.  A chunk of the dynamic stack is an entry
    of a table for each of the types that C stores in chunks; [obstack_alloc]
    and the procedures of the users are parameters.  An open file is the list
    of the words not read yet; the spaces of the heap are a record, and an
    error in a load is a value.

    ** What the theorems show

    [repr b z] says that the block [b] is the canonical bignum of [z], and
    [int_repr n z] that the object [n] is the canonical integer [z]: a fixnum
    exactly when it fits.

    - [interpreter_refines_direct] (DirectProps.v): the interpreter, which the
      comment at the head of interp.c says to be the continuation-passing form
      of the straightforward evaluator, does what that evaluator does: it
      gives the same values, terminates where it does, and runs on where it
      runs on; [Interpret_returns] is the same for a call from C.  In particular the
      stack above a subproblem is left alone, and the body of a procedure is
      evaluated at the depth of its application.  The evaluator is total; it
      answers [Leaves] where control does not come back in direct style, and
      there the theorem says nothing.  What the primitives do is assumed by
      the class [Primitives], which those of DirectPrims.v satisfy.
    - [catch_then_throw] (ControlProps.v): applying a control point puts back
      the stack that call-with-current-continuation moved into it.
    - [garbage_collect_implements_collected] (CollectProps.v): a collection
      implements the specification [collected]: exactly the live blocks are
      copied, packed without overlap, and every reference is forwarded.
      [std_gc_pt1_safe]: in such a collection tracing writes to the roots, to
      fromspace and to tospace only, and never overruns tospace, which the
      code does not test.  [twins_hang]
      (Ephemeron.v): two ephemerons copied before their key make it hang.
    - [lookup_variable_correct], [assign_variable_correct],
      [define_variable_correct] (EnvProps.v) and [environment_primitives]
      (EnvPrim.v): what a reference to a variable gives, which variables an
      assignment changes, what a definition makes and what it leaves as it
      was, for every environment of the heap.
    - [string_to_symbol_correct], [symbol_strength] (SymbolProps.v): a string
      has one symbol, found or made, and changing the strength of a symbol
      changes that of no other.
    - [re_match_backtracks] (RegexProps.v): on the pattern of an expression
      the matcher does what the recursive one does, registers included,
      though it rewrites jumps and drops failure points as it goes;
      [re_match_decides]: it decides the language.
      [re_search_forward_first], [re_search_backward_last]: the searches find
      the first and the last match, though they only try some places.  All
      four ask that no repeated expression can match nothing ([wf]), that the
      gap is inside the text when words are tested ([gap_inside]), and that
      the pattern is small; the searches ask for [ready_to_search] as well.
      RegexExample.v shows what goes wrong without these conditions.
    - [scan_sexps_forward_resumes] (Syntax.v): the vector that the partial
      parser returns is enough for it to go on, in the tables and at the
      places that the theorem says; the Scheme mode's table is one of them.
    - [primitives_type_safe] (VectorSafe.v): no primitive of list.c or
      vector.c makes an ill-typed object, or writes outside of its vector, when
      what the unchecked ones take for granted is so ([trusted]);
      [list_vector_round_trip], [subvector_move_correct] (VectorProps.v): what
      conversions and moves do, overlapping ones included.
    - [external_strings_refine_map] (ExtString.v): the hash table is a map,
      through all its growing and shrinking.
    - [initialize_primitives_correct], [primitive_renumbering_round_trip],
      [primitives_load_elsewhere] (PrimTableProps.v): the tables that the
      microcode starts with, and the primitives of an image in the same and
      in another microcode.
    - [band_round_trip] (FaslBand.v): what LOAD-BAND reads is the world that
      DUMP-BAND wrote, at other addresses and with other primitives.
    - [transactions_refine], [transaction_runs_actions],
      [dstack_set_position_correct] (TransactionProps.v): commands on the
      dynamic stack do what they do to a list of entries, which actions a
      commit and an abort run, and what unwinding undoes, when the procedures
      in the entries return and keep the stack ([procedures_ok]).
    - The theorems of Integer.v are about the generic integers: exact
      arithmetic with canonical results, division, comparison, bitwise
      operations, shifts, bit metrics.  They are proved from [BignumLaws]
      alone, and those of the Bignum files discharge it.  Bits.v is about
      bits of words.
    - Fixnum.v: arithmetic with overflow errors, division, gcd with its
      termination.
    - IntPrim.v: argument errors and results of the primitives, the round trip
      between bignums and lists of digits, shifts.
    - BitStringSpec.v and BitStringConv.v: moving bits at any alignment,
      single bits, whole strings, queries and search, transfers from and to
      memory, and the round trip with integers.
    - AvlTree.v: insertion and building keep a balanced search tree that
      stands for the right map.

    Some theorems state what the code does where this differs from what it
    means to do ([define_variable_correct], [twins_hang],
    [bignum_fits_in_word_characterization], [gcd_fixnum_correct],
    [integer_shifts], [shift_primitives], [read_write_bits],
    [unsigned_integer_bit_string], [environment_primitives]), and the last section of several files has
    concrete inputs on which it goes wrong.

    ** Bounds and fuel

    [capacity] is the number of bits for which all operations have room:
    62 * (2^32 - 4), since lengths pass through [unsigned int].  The fuel of
    each loop is enough by a theorem: 117 tests for the gcd of fixnums,
    62 shifts to normalize a digit, one round per bit and per digit for
    digit streams ([digit_stream_fuel]), 8 rounds for the tricks on
    words, one round per word in [copy_bits] and in the search for a bit, 64
    for [ulong_significant_bits], depth 64 for [tree_build], and
    [rounds] of the layout, the words of fromspace, stack and constant space
    and a few more, for every loop of a collection, and the number of
    frames of an environment for a search ([environment]).

    For the matcher and the searches, that enough fuel gives a result is part
    of the theorems.  A match of [r] in [n] characters needs room for [depth r
    n] failure points ([stack_room]), of which 512 are there from the start;
    the scan for first characters has an array for 512 places, and the
    theorems on searches ask that there be fewer choices ([ready_to_search]).

    The interpreter has no fuel: a run is any number of steps.  The direct
    evaluator has the depth of its calls, and what it says for every depth
    determines the run.  The walks of lookup.c and of the histories inside a
    step have the parameter [fuel], and end in a halt of their own.

    The growth of a table of external strings and the unwinding of the dynamic
    stack end within the number of their entries, and the relocation of an
    image within its words; names of primitives have the parameter [fuel],
    which [readable_tables] says to be above their lengths.  The partial parser
    takes at most four steps for each character; the other scanners of Syntax.v
    have fuel and no theorem about it.

    ** What is not modelled

    Floating point (double_to_bignum and its inverse, flonum primitives), the
    big-endian layout of bit strings, [tree_free], the collector's handlers
    for compiled code, its debugging tools and purification, compiled code,
    and everything that is input, output or operating system: these need a
    model of IEEE arithmetic, of machine code or of the system.  The theorems
    on collections are about heaps without ephemerons.  Of lookup.c, the code
    that serves compiled code is left out; definitions in the global
    environment, links and removals are modelled without theorems.  Of hooks.c,
    SET-FIXED-OBJECTS-VECTOR! is left out.  Back references are in the model
    of the matcher but in none of its theorems.  Of fasdump.c and fasload.c,
    the dump and the load of a single object are left out: the one copies with
    a table of handlers and fixups of its own, the other interns symbols while
    it scans.  The primitives on characters, strings in the heap and
    bytevectors are left out.  The interpreter and the collector have memories
    of their own shape and are not put together: a request for a collection is
    an interrupt, [INT_GC], with the number of words asked for. *)

From Stdlib Require Import ZArith List Lia Bool.
Import ListNotations.
#[global] Open Scope Z_scope.

(** ** Machine integers

    The microcode is modelled on an LP64 target: [long] and
    [unsigned long] are 64 bits wide, [int] is 32.  A C value is a [Z];
    [slong] and [ulong] reduce a mathematical result to the range of the C
    type it is stored in (two's complement). *)

Definition WORD : Z := 2 ^ 64.
Definition ulong (z : Z) : Z := z mod 18446744073709551616.
Definition slong (z : Z) : Z :=
  (z + 9223372036854775808) mod 18446744073709551616 - 9223372036854775808.
Definition uint (z : Z) : Z := z mod 4294967296.

Declare Scope slong_scope.
Delimit Scope slong_scope with SL.
Declare Scope ulong_scope.
Delimit Scope ulong_scope with UL.

(** Arithmetic whose result is converted to [long] ... *)
Notation "x + y" := (slong (Z.add x y)) : slong_scope.
Notation "x - y" := (slong (Z.sub x y)) : slong_scope.
Notation "x * y" := (slong (Z.mul x y)) : slong_scope.
Notation "- x" := (slong (Z.opp x)) : slong_scope.
Notation "x << y" := (slong (Z.shiftl x y)) (at level 55) : slong_scope.

(** ... and to [unsigned long]. *)
Notation "x + y" := (ulong (Z.add x y)) : ulong_scope.
Notation "x - y" := (ulong (Z.sub x y)) : ulong_scope.
Notation "x * y" := (ulong (Z.mul x y)) : ulong_scope.
Notation "x << y" := (ulong (Z.shiftl x y)) (at level 55) : ulong_scope.

(** Operators that cannot leave the range of their arguments. *)
Notation "x >>> y" := (Z.shiftr x y) (at level 55) : Z_scope.
Notation "x & y" := (Z.land x y) (at level 56) : Z_scope.
Notation "x .| y" := (Z.lor x y) (at level 58) : Z_scope.
Notation "x ^^ y" := (Z.lxor x y) (at level 57) : Z_scope.
Notation "x &~ y" := (Z.ldiff x y) (at level 56) : Z_scope.

Definition is_ulong (z : Z) : Prop := 0 <= z < 18446744073709551616.
Definition is_slong (z : Z) : Prop :=
  -9223372036854775808 <= z < 9223372036854775808.

(** ** The option monad: [None] is a failed [BIGNUM_ASSERT] or a C error
    exit. *)

Definition obind {A B} (o : option A) (f : A -> option B) : option B :=
  match o with Some a => f a | None => None end.

Declare Scope option_scope.
Delimit Scope option_scope with option.
Notation "'let*' x := e 'in' k" := (obind e (fun x => k))
  (at level 10, x pattern, e at level 200, k at level 200) : Z_scope.
Notation "'assert*' b 'in' k" := (if b then k else None)
  (at level 10, b at level 200, k at level 200, only parsing) : Z_scope.

Lemma obind_some {A B} (o : option A) (a : A) (f : A -> option B) :
  o = Some a -> obind o f = f a.
Proof. now intros ->. Qed.

(** ** Tactics *)

(** Split on the boolean tests of the goal, leaving arithmetic facts. *)
Ltac reflect_bools :=
  repeat match goal with
  | H : (_ <? _) = true |- _ => apply Z.ltb_lt in H
  | H : (_ <? _) = false |- _ => apply Z.ltb_ge in H
  | H : (_ <=? _) = true |- _ => apply Z.leb_le in H
  | H : (_ <=? _) = false |- _ => apply Z.leb_gt in H
  | H : (_ =? _) = true |- _ => apply Z.eqb_eq in H
  | H : (_ =? _) = false |- _ => apply Z.eqb_neq in H
  | H : negb _ = true |- _ => apply negb_true_iff in H
  | H : negb _ = false |- _ => apply negb_false_iff in H
  | H : (_ && _)%bool = true |- _ => apply andb_true_iff in H; destruct H
  end.

Ltac case_if :=
  match goal with
  | |- context [if ?b then _ else _] =>
      lazymatch b with
      | context [if _ then _ else _] => fail
      | _ => destruct b eqn:?; reflect_bools
      end
  end.

(** Remove the conversions whose argument is visibly in range. *)
Lemma ulong_small z : 0 <= z < 18446744073709551616 -> ulong z = z.
Proof. apply Z.mod_small. Qed.

Lemma slong_small z :
  -9223372036854775808 <= z < 9223372036854775808 -> slong z = z.
Proof. intros H. unfold slong. rewrite Z.mod_small; lia. Qed.

Lemma uint_small z : 0 <= z < 4294967296 -> uint z = z.
Proof. apply Z.mod_small. Qed.

Lemma ulong_range z : is_ulong (ulong z).
Proof. apply Z.mod_pos_bound; lia. Qed.

Lemma slong_range z : is_slong (slong z).
Proof.
  unfold is_slong, slong.
  pose proof (Z.mod_pos_bound (z + 9223372036854775808) 18446744073709551616).
  lia.
Qed.

Lemma mul_range a b m n : 0 <= a < m -> 0 <= b < n -> 0 <= a * b < m * n.
Proof. nia. Qed.

Ltac unwrap_by tac :=
  repeat match goal with
  | |- context [slong ?z] =>
      lazymatch z with
      | context [slong _] => fail
      | context [ulong _] => fail
      | _ => rewrite (slong_small z) by tac
      end
  | |- context [ulong ?z] =>
      lazymatch z with
      | context [slong _] => fail
      | context [ulong _] => fail
      | _ => rewrite (ulong_small z) by tac
      end
  end.

Ltac unwrap := unwrap_by lia.

(** ** Bits of integers *)

Create Rewrite HintDb zbits.
#[export] Hint Rewrite Z.lor_spec Z.land_spec Z.lxor_spec Z.ldiff_spec
  Z.bits_0 orb_false_r orb_false_l andb_false_r andb_false_l andb_true_r
  andb_true_l xorb_false_r xorb_false_l : zbits.
#[export] Hint Rewrite Z.shiftr_spec Z.lnot_spec Z.shiftl_spec Z.bits_m1
  using lia : zbits.

Lemma testbit_high z k i : 0 <= z < 2 ^ k -> k <= i -> Z.testbit z i = false.
Proof.
  intros H Hk. destruct (Z.eqb_spec z 0) as [-> | Hz]; [apply Z.bits_0 |].
  assert (Hlog : Z.log2 z < k) by (apply Z.log2_lt_pow2; lia).
  apply Z.bits_above_log2; lia.
Qed.

Lemma shiftl_lor_add h l k :
  0 <= k -> 0 <= l < 2 ^ k -> Z.lor (Z.shiftl h k) l = h * 2 ^ k + l.
Proof.
  intros Hk Hl. rewrite <- Z.shiftl_mul_pow2 by lia.
  assert (D : Z.land (Z.shiftl h k) l = 0).
  { apply Z.bits_inj'. intros i Hi. autorewrite with zbits.
    destruct (Z.ltb_spec i k).
    - rewrite (Z.testbit_neg_r h) by lia. reflexivity.
    - rewrite (testbit_high l k) by lia. apply andb_false_r. }
  rewrite <- Z.lxor_lor, Z.add_nocarry_lxor by exact D. reflexivity.
Qed.

Lemma testbit_split lo hi k i :
  0 <= k -> 0 <= lo < 2 ^ k -> 0 <= i ->
  Z.testbit (lo + 2 ^ k * hi) i =
  if i <? k then Z.testbit lo i else Z.testbit hi (i - k).
Proof.
  intros Hk Hlo Hi.
  replace (lo + 2 ^ k * hi) with (hi * 2 ^ k + lo) by ring.
  rewrite <- shiftl_lor_add by lia. autorewrite with zbits.
  destruct (Z.ltb_spec i k).
  - rewrite (Z.testbit_neg_r hi) by lia. reflexivity.
  - rewrite (testbit_high lo k) by lia. apply orb_false_r.
Qed.

Lemma nonneg_bits z k :
  0 <= k -> (forall i, k <= i -> Z.testbit z i = false) -> 0 <= z < 2 ^ k.
Proof.
  intros Hk H.
  assert (E : z = Z.land z (Z.ones k)).
  { apply Z.bits_inj'. intros i Hi. autorewrite with zbits.
    destruct (Z.ltb_spec i k).
    - rewrite Z.ones_spec_low by lia. now rewrite andb_true_r.
    - rewrite H by lia. reflexivity. }
  rewrite E, Z.land_ones by lia. apply Z.mod_pos_bound. lia.
Qed.

(** A bitwise operator acts on low and high parts separately. *)
Section Bitop.
Variable op : Z -> Z -> Z.
Variable f : bool -> bool -> bool.
Hypothesis op_spec : forall a b i, Z.testbit (op a b) i = f (Z.testbit a i) (Z.testbit b i).
Hypothesis f00 : f false false = false.

Lemma bitop_range a b k :
  0 <= k -> 0 <= a < 2 ^ k -> 0 <= b < 2 ^ k -> 0 <= op a b < 2 ^ k.
Proof using op_spec f00.
  intros Hk Ha Hb. apply nonneg_bits; [lia |]. intros i Hi.
  now rewrite op_spec, (testbit_high a k), (testbit_high b k) by lia.
Qed.

Lemma bitop_split lo1 hi1 lo2 hi2 k :
  0 <= k -> 0 <= lo1 < 2 ^ k -> 0 <= lo2 < 2 ^ k ->
  op (lo1 + 2 ^ k * hi1) (lo2 + 2 ^ k * hi2)
  = op lo1 lo2 + 2 ^ k * op hi1 hi2.
Proof using op_spec f00.
  intros Hk H1 H2. apply Z.bits_inj'. intros i Hi.
  rewrite op_spec, !testbit_split by (try apply bitop_range; lia).
  destruct (i <? k); now rewrite op_spec.
Qed.
End Bitop.

Definition land_split := bitop_split Z.land andb Z.land_spec eq_refl.
Definition lor_split := bitop_split Z.lor orb Z.lor_spec eq_refl.
Definition lxor_split := bitop_split Z.lxor xorb Z.lxor_spec eq_refl.
Definition ldiff_split :=
  bitop_split Z.ldiff (fun a b => a && negb b)%bool Z.ldiff_spec eq_refl.
Definition land_range := bitop_range Z.land andb Z.land_spec eq_refl.
Definition lor_range := bitop_range Z.lor orb Z.lor_spec eq_refl.
Definition lxor_range := bitop_range Z.lxor xorb Z.lxor_spec eq_refl.
Definition ldiff_range :=
  bitop_range Z.ldiff (fun a b => a && negb b)%bool Z.ldiff_spec eq_refl.

Lemma land_mask z k : 0 <= k -> Z.land z (2 ^ k - 1) = z mod 2 ^ k.
Proof.
  intros. rewrite <- Z.land_ones by lia. f_equal. rewrite Z.ones_equiv. lia.
Qed.

Lemma shiftr_div z k : 0 <= k -> Z.shiftr z k = z / 2 ^ k.
Proof. intros. now apply Z.shiftr_div_pow2. Qed.

(** ** Population count *)

Fixpoint pos_bits (p : positive) : Z :=
  match p with
  | xH => 1
  | xO q => pos_bits q
  | xI q => 1 + pos_bits q
  end.

(** Number of one bits of a nonnegative integer. *)
Definition popcount (z : Z) : Z :=
  match z with Zpos p => pos_bits p | _ => 0 end.

Lemma popcount_double z : popcount (2 * z) = popcount z.
Proof. now destruct z. Qed.

Lemma popcount_succ_double z : 0 <= z -> popcount (2 * z + 1) = 1 + popcount z.
Proof. intros H. destruct z as [| p | p]; [reflexivity | reflexivity | lia]. Qed.

Lemma popcount_step z : 0 <= z -> popcount z = z mod 2 + popcount (z / 2).
Proof.
  intros H. pose proof (Z.mod_pos_bound z 2).
  rewrite (Z.div_mod z 2) at 1 by lia.
  assert (0 <= z / 2) by (apply Z.div_pos; lia).
  destruct (Z.eqb_spec (z mod 2) 0) as [-> | ].
  - rewrite Z.add_0_r. apply popcount_double.
  - replace (z mod 2) with 1 by lia. now apply popcount_succ_double.
Qed.

Lemma popcount_nonneg z : 0 <= popcount z.
Proof.
  destruct z as [| p | p]; [reflexivity | | reflexivity].
  cbn [popcount]. induction p; cbn [pos_bits]; lia.
Qed.

Lemma popcount_split k : forall lo hi,
  0 <= lo < 2 ^ Z.of_nat k -> 0 <= hi ->
  popcount (lo + 2 ^ Z.of_nat k * hi) = popcount lo + popcount hi.
Proof.
  induction k as [|k IH]; intros lo hi Hlo Hhi.
  - change (2 ^ Z.of_nat 0) with 1 in *. replace lo with 0 by lia.
    change (popcount 0) with 0. rewrite Z.mul_1_l. reflexivity.
  - rewrite Nat2Z.inj_succ, Z.pow_succ_r in * by lia.
    set (B := 2 ^ Z.of_nat k) in *.
    assert (HB : 0 < B) by (apply Z.pow_pos_nonneg; lia).
    rewrite (popcount_step lo), (popcount_step (lo + _)) by nia.
    replace (lo + 2 * B * hi) with (lo + (B * hi) * 2) by ring.
    rewrite Z.mod_add, Z.div_add by lia.
    rewrite IH; [lia | | lia].
    split; [apply Z.div_pos; lia | apply Z.div_lt_upper_bound; lia].
Qed.

Lemma popcount_ones k : popcount (Z.ones (Z.of_nat k)) = Z.of_nat k.
Proof.
  induction k as [|k IH]; [reflexivity |].
  rewrite Z.ones_equiv in *. rewrite Nat2Z.inj_succ, Z.pow_succ_r by lia.
  pose proof (Z.pow_pos_nonneg 2 (Z.of_nat k)).
  replace (Z.pred (2 * 2 ^ Z.of_nat k)) with (2 * Z.pred (2 ^ Z.of_nat k) + 1) by lia.
  rewrite popcount_succ_double by lia. lia.
Qed.

(** ** Trailing zeros *)

Fixpoint pos_trailing_zeros (p : positive) : Z :=
  match p with xO q => 1 + pos_trailing_zeros q | _ => 0 end.

(** Index of the least significant one bit; -1 for 0. *)
Definition trailing_zeros (z : Z) : Z :=
  match z with
  | Z0 => -1
  | Zpos p | Zneg p => pos_trailing_zeros p
  end.

Lemma pos_trailing_zeros_spec p :
  0 <= pos_trailing_zeros p /\
  exists m, Z.pos p = 2 ^ pos_trailing_zeros p * (2 * m + 1).
Proof.
  induction p as [p _ | p [H0 [m Hm]] |]; cbn [pos_trailing_zeros].
  - split; [lia |]. exists (Z.pos p). lia.
  - split; [lia |]. exists m. rewrite Z.pow_add_r by lia. lia.
  - split; [lia |]. exists 0. lia.
Qed.

Lemma trailing_zeros_spec z :
  z <> 0 -> 0 <= trailing_zeros z /\ exists m, z = 2 ^ trailing_zeros z * (2 * m + 1).
Proof.
  destruct z as [| p | p]; [easy | |]; intros _; cbn [trailing_zeros];
    destruct (pos_trailing_zeros_spec p) as [H0 [m Hm]]; (split; [exact H0 |]).
  - now exists m.
  - exists (- m - 1). lia.
Qed.

Lemma lxor_pred_odd r m :
  0 <= r -> Z.lxor (2 ^ r * (2 * m + 1)) (2 ^ r * (2 * m + 1) - 1) = Z.ones (r + 1).
Proof.
  intros Hr. assert (0 < 2 ^ r) by (apply Z.pow_pos_nonneg; lia).
  replace (2 ^ r * (2 * m + 1)) with (0 + 2 ^ r * (2 * m + 1)) at 1 by ring.
  replace (2 ^ r * (2 * m + 1) - 1) with ((2 ^ r - 1) + 2 ^ r * (2 * m)) by ring.
  rewrite lxor_split by lia. rewrite Z.lxor_0_l.
  replace (2 * m + 1) with (1 + 2 ^ 1 * m) by lia.
  replace (2 * m) with (0 + 2 ^ 1 * m) by lia.
  rewrite lxor_split by lia. rewrite Z.lxor_nilpotent.
  change (Z.lxor 1 0) with 1. rewrite Z.ones_equiv, Z.pow_add_r by lia. lia.
Qed.

(** The word [z ^ (z - 1)] is a block of ones up to the first set bit. *)
Lemma lxor_pred_ones z : z <> 0 -> Z.lxor z (z - 1) = Z.ones (trailing_zeros z + 1).
Proof.
  intros Hz. destruct (trailing_zeros_spec z Hz) as [H0 [m Hm]].
  rewrite Hm at 1 2. now apply lxor_pred_odd.
Qed.

Lemma ones_shiftr1 n : 0 <= n -> Z.shiftr (Z.ones (n + 1)) 1 = Z.ones n.
Proof.
  intros Hn. apply Z.bits_inj'. intros i Hi. rewrite Z.shiftr_spec by lia.
  destruct (Z.ltb_spec i n).
  - now rewrite !Z.ones_spec_low by lia.
  - now rewrite !Z.ones_spec_high by lia.
Qed.

(** What "index of the first set bit" means, bit by bit. *)
Lemma trailing_zeros_bits z :
  z <> 0 ->
  Z.testbit z (trailing_zeros z) = true /\
  forall i, i < trailing_zeros z -> Z.testbit z i = false.
Proof.
  intros Hz. destruct (trailing_zeros_spec z Hz) as [H0 [m Hm]].
  set (r := trailing_zeros z) in *. rewrite Hm, (Z.mul_comm (2 ^ r)). split.
  - rewrite Z.mul_pow2_bits, Z.sub_diag by lia. apply Z.testbit_odd_0.
  - intros i Hi. rewrite Z.mul_pow2_bits by lia. apply Z.testbit_neg_r. lia.
Qed.

Lemma trailing_zeros_lt z k : 0 < z < 2 ^ k -> trailing_zeros z < k.
Proof.
  intros Hz. destruct (trailing_zeros_bits z) as [H _]; [lia |].
  destruct (Z.ltb_spec (trailing_zeros z) k); [assumption |].
  now rewrite (testbit_high z k) in H by lia.
Qed.
