(* ===== verification/Bits.v ===== *)
(** * Bit twiddling on machine words (src/src/microcode/bits.h)

    [ulong_bit_count] is the branch-free population count,
    [ulong_length_in_bits] the position of the most significant set bit and
    [ulong_first_set_bit] that of the least significant one, for the
    64-bit [unsigned long] (and [uintmax_t], which has the same width). *)

From Stdlib Require Import ZArith List Lia Bool.
From S2P Require Import Prelude.
Import ListNotations.

(** ** Definitions *)

Definition two_bit_mask : Z := 18446744073709551615 / (1 + Z.shiftl 1 1).
Definition four_bit_mask : Z := 18446744073709551615 / (1 + Z.shiftl 1 2).
Definition eight_bit_mask : Z := 18446744073709551615 / (1 + Z.shiftl 1 4).
Definition final_mask : Z := Z.shiftl 64 1 - 1.

(** [for (i = 8; i < 64; i <<= 1) x += (x >> i);] *)
Fixpoint bit_count_loop (fuel : nat) (i x : Z) : Z :=
  match fuel with
  | O => x
  | S fuel =>
      if i <? 64 then bit_count_loop fuel (Z.shiftl i 1) (x + (x >>> i))%UL
      else x
  end.

Definition ulong_bit_count (x : Z) : Z :=
  let x := (x - ((x >>> 1) & two_bit_mask))%UL in
  let x := (((x >>> 2) & four_bit_mask) + (x & four_bit_mask))%UL in
  let x := ((x >>> 4) + x)%UL & eight_bit_mask in
  let x := bit_count_loop 8 8 x in
  x & final_mask.

(** [for (i = 0x40; i < limit; i <<= 1) x |= (x >> i);] *)
Fixpoint length_fill_loop (fuel : nat) (i limit x : Z) : Z :=
  match fuel with
  | O => x
  | S fuel =>
      if i <? limit
      then length_fill_loop fuel (Z.shiftl i 1) limit (x .| (x >>> i))
      else x
  end.

Definition ulong_length_in_bits (x : Z) : Z :=
  let limit := 64 in
  let x := if 1 <? limit then x .| (x >>> 1) else x in
  let x := if 2 <? limit then x .| (x >>> 2) else x in
  let x := if 4 <? limit then x .| (x >>> 4) else x in
  let x := if 8 <? limit then x .| (x >>> 8) else x in
  let x := if 16 <? limit then x .| (x >>> 16) else x in
  let x := if 32 <? limit then x .| (x >>> 32) else x in
  let x := length_fill_loop 8 64 limit x in
  ulong_bit_count x.

Definition ulong_first_set_bit (x : Z) : Z :=
  if x =? 0 then -1 else ulong_length_in_bits ((x ^^ (x - 1)%UL) >>> 1).

(** ** Population count *)

(** A word as its list of bytes, least significant first. *)
Fixpoint word_of_bytes (bs : list Z) : Z :=
  match bs with [] => 0 | b :: bs => b + 2 ^ 8 * word_of_bytes bs end.

Fixpoint bytes_of_word (n : nat) (x : Z) : list Z :=
  match n with O => [] | S n => x mod 2 ^ 8 :: bytes_of_word n (x / 2 ^ 8) end.

Definition bytes_ok (bs : list Z) : Prop := Forall (fun b => 0 <= b < 2 ^ 8) bs.

Lemma bytes_of_word_ok n : forall x, bytes_ok (bytes_of_word n x).
Proof.
  induction n; intros x; cbn [bytes_of_word]; constructor.
  - apply Z.mod_pos_bound. lia.
  - apply IHn.
Qed.

Lemma word_of_bytes_of_word n : forall x,
  0 <= x < 2 ^ (8 * Z.of_nat n) -> word_of_bytes (bytes_of_word n x) = x.
Proof.
  induction n as [|n IH]; intros x Hx; cbn [bytes_of_word word_of_bytes].
  - change (8 * Z.of_nat 0) with 0 in Hx. lia.
  - rewrite IH.
    + pose proof (Z.div_mod x (2 ^ 8)). lia.
    + replace (8 * Z.of_nat (S n)) with (8 + 8 * Z.of_nat n) in Hx by lia.
      rewrite Z.pow_add_r in Hx by lia.
      split; [apply Z.div_pos; lia | apply Z.div_lt_upper_bound; lia].
Qed.

Lemma word_of_bytes_range bs :
  bytes_ok bs -> 0 <= word_of_bytes bs < 2 ^ (8 * Z.of_nat (length bs)).
Proof.
  induction 1 as [|b bs Hb _ IH]; cbn [word_of_bytes length].
  - cbn. lia.
  - replace (8 * Z.of_nat (S (length bs))) with (8 + 8 * Z.of_nat (length bs)) by lia.
    rewrite Z.pow_add_r by lia. lia.
Qed.

(** A mask that repeats the byte [a]. *)
Definition rep_mask (a : Z) (n : nat) : Z := word_of_bytes (repeat a n).

Lemma shiftr_land_split lo hi a m j :
  0 <= j <= 8 -> 0 <= lo < 2 ^ 8 -> 0 <= a < 2 ^ (8 - j) ->
  Z.land (Z.shiftr (lo + 2 ^ 8 * hi) j) (a + 2 ^ 8 * m)
  = Z.land (Z.shiftr lo j) a + 2 ^ 8 * Z.land (Z.shiftr hi j) m.
Proof.
  intros Hj Hlo Ha.
  assert (Ha8 : 0 <= a < 2 ^ 8).
  { assert (2 ^ (8 - j) <= 2 ^ 8) by (apply Z.pow_le_mono_r; lia). lia. }
  assert (Hr : 0 <= Z.land (Z.shiftr lo j) a < 2 ^ 8).
  { apply land_range; [lia | | exact Ha8]. rewrite shiftr_div by lia.
    assert (0 < 2 ^ j) by (apply Z.pow_pos_nonneg; lia).
    split; [apply Z.div_pos; lia |].
    apply Z.le_lt_trans with lo; [| lia]. apply Z.div_le_upper_bound; nia. }
  apply Z.bits_inj'. intros i Hi. rewrite testbit_split by lia.
  autorewrite with zbits. rewrite !testbit_split by lia.
  destruct (Z.ltb_spec i 8); autorewrite with zbits.
  - destruct (Z.ltb_spec (i + j) 8); [reflexivity |].
    rewrite (testbit_high a (8 - j)) by lia. now rewrite !andb_false_r.
  - destruct (Z.ltb_spec (i + j) 8); [lia |].
    replace (i + j - 8) with (i - 8 + j) by ring. reflexivity.
Qed.

(** One masked shift, byte by byte. *)
Lemma shiftr_mask_bytes j a bs :
  0 <= j <= 8 -> 0 <= a < 2 ^ (8 - j) -> bytes_ok bs ->
  Z.land (Z.shiftr (word_of_bytes bs) j) (rep_mask a (length bs))
  = word_of_bytes (map (fun b => Z.land (Z.shiftr b j) a) bs).
Proof.
  intros Hj Ha. induction 1 as [|b bs Hb _ IH]; cbn [length map].
  - apply Z.land_0_r.
  - unfold rep_mask in *. cbn [repeat word_of_bytes].
    now rewrite shiftr_land_split, IH by lia.
Qed.

Definition byte_step1 b := b - Z.land (Z.shiftr b 1) 85.
Definition byte_step2 b := Z.land (Z.shiftr b 2) 51 + Z.land (Z.shiftr b 0) 51.
Definition byte_step3 b := Z.land (Z.shiftr b 4 + b) 15.

Definition all_bytes : list Z := map Z.of_nat (seq 0 256).

Lemma all_bytes_spec (P : Z -> bool) :
  forallb P all_bytes = true -> forall b, 0 <= b < 2 ^ 8 -> P b = true.
Proof.
  intros H b Hb. rewrite forallb_forall in H. apply H.
  unfold all_bytes. rewrite in_map_iff. exists (Z.to_nat b).
  split; [lia |]. apply in_seq. lia.
Qed.

Lemma byte_step1_ok b : 0 <= b < 2 ^ 8 -> 0 <= byte_step1 b < 2 ^ 8.
Proof.
  intros Hb.
  assert (E := all_bytes_spec
    (fun b => (0 <=? byte_step1 b) && (byte_step1 b <? 256)) eq_refl b Hb).
  cbv beta in E. reflect_bools. lia.
Qed.

(** Both halves of a byte are small enough to be added without carry. *)
Definition nibbles_ok (b : Z) : Prop := 0 <= b < 2 ^ 8 /\ b / 16 <= 7 /\ b mod 16 <= 7.

Lemma byte_steps_popcount b :
  0 <= b < 2 ^ 8 ->
  byte_step3 (byte_step2 (byte_step1 b)) = popcount b /\
  nibbles_ok (byte_step2 (byte_step1 b)) /\ 0 <= popcount b <= 8.
Proof.
  intros Hb. unfold nibbles_ok.
  assert (E := all_bytes_spec
    (fun b => let s := byte_step2 (byte_step1 b) in
       (byte_step3 s =? popcount b) &&
       ((0 <=? s) && ((s <? 2 ^ 8) && ((s / 16 <=? 7) && ((s mod 16 <=? 7) &&
         ((0 <=? popcount b) && (popcount b <=? 8))))))) eq_refl b Hb).
  cbv beta zeta in E. reflect_bools. lia.
Qed.

Lemma step3_split b X m :
  nibbles_ok b -> X mod 16 <= 7 ->
  Z.land (Z.shiftr (b + 2 ^ 8 * X) 4 + (b + 2 ^ 8 * X)) (15 + 2 ^ 8 * m)
  = byte_step3 b + 2 ^ 8 * Z.land (Z.shiftr X 4 + X) m.
Proof.
  intros [Hb [Hh Hl]] HX. unfold byte_step3. rewrite !shiftr_div by lia.
  change (2 ^ 4) with 16 in *. change (2 ^ 8) with 256 in *.
  pose proof (Z.div_mod X 16). pose proof (Z.mod_pos_bound X 16).
  pose proof (Z.div_mod b 16). pose proof (Z.mod_pos_bound b 16).
  assert (E1 : (b + 256 * X) / 16 = b / 16 + 16 * X).
  { replace (b + 256 * X) with (b + (16 * X) * 16) by ring. apply Z.div_add. lia. }
  set (low := b / 16 + b + 16 * (X mod 16)).
  replace ((b + 256 * X) / 16 + (b + 256 * X)) with (low + 2 ^ 8 * (X / 16 + X))
    by (change (2 ^ 8) with 256; subst low; lia).
  change 256 with (2 ^ 8) at 1. rewrite land_split by (change (2 ^ 8) with 256; subst low; lia).
  change (2 ^ 8) with 256. f_equal. subst low.
  change 15 with (2 ^ 4 - 1). rewrite !land_mask by lia. change (2 ^ 4) with 16.
  replace (b / 16 + b + 16 * (X mod 16)) with (b / 16 + b + (X mod 16) * 16) by ring.
  apply Z.mod_add. lia.
Qed.

Lemma word_mod16 bs : Forall nibbles_ok bs -> word_of_bytes bs mod 16 <= 7.
Proof.
  destruct 1 as [|b bs [Hb [Hh Hl]] _]; cbn [word_of_bytes]; [cbn; lia |].
  replace (b + 2 ^ 8 * word_of_bytes bs) with (b + (16 * word_of_bytes bs) * 16) by ring.
  rewrite Z.mod_add by lia. exact Hl.
Qed.

Lemma step3_bytes bs :
  Forall nibbles_ok bs ->
  Z.land (Z.shiftr (word_of_bytes bs) 4 + word_of_bytes bs) (rep_mask 15 (length bs))
  = word_of_bytes (map byte_step3 bs).
Proof.
  induction 1 as [|b bs Hb Hbs IH]; [reflexivity |].
  unfold rep_mask in *. cbn [length repeat map word_of_bytes].
  rewrite step3_split, IH; [reflexivity | exact Hb | now apply word_mod16].
Qed.

Lemma word_of_bytes_map_op (op : Z -> Z -> Z) (f g : Z -> Z) bs :
  (forall a b c d, op (a + 2 ^ 8 * c) (b + 2 ^ 8 * d) = op a b + 2 ^ 8 * op c d) ->
  op 0 0 = 0 ->
  op (word_of_bytes (map f bs)) (word_of_bytes (map g bs))
  = word_of_bytes (map (fun b => op (f b) (g b)) bs).
Proof.
  intros Hop H0. induction bs as [|b bs IH]; cbn [map word_of_bytes]; [exact H0 |].
  now rewrite Hop, IH.
Qed.

Lemma popcount_bytes bs :
  bytes_ok bs ->
  popcount (word_of_bytes bs) = fold_right Z.add 0 (map popcount bs).
Proof.
  induction 1 as [|b bs Hb Hbs IH]; [reflexivity |].
  cbn [word_of_bytes map fold_right].
  pose proof (word_of_bytes_range bs Hbs).
  change (2 ^ 8) with (2 ^ Z.of_nat 8).
  rewrite popcount_split, IH; [reflexivity | exact Hb | lia].
Qed.

Lemma div_low lo hi B : 0 <= lo < B -> (lo + B * hi) / B = hi.
Proof. intros H. symmetry. apply Z.div_unique with lo; lia. Qed.

(** The shifted additions leave the sum of the bytes in the low byte. *)
Lemma sum_bytes bs :
  length bs = 8%nat -> Forall (fun b => 0 <= b <= 8) bs ->
  Z.land (bit_count_loop 8 8 (word_of_bytes bs)) final_mask = fold_right Z.add 0 bs.
Proof.
  intros Hlen Hbs.
  destruct bs as [|a [|b [|c [|d [|e [|f [|g [|h [|]]]]]]]]]; try discriminate.
  repeat match goal with H : Forall _ (_ :: _) |- _ => inversion_clear H end.
  cbn [word_of_bytes fold_right]. clear Hlen.
  set (x := a + 2 ^ 8 * _). set (cnt := bit_count_loop 8 8 x).
  assert (E : cnt = ulong (ulong (ulong (x + x / 256) + ulong (x + x / 256) / 65536)
      + ulong (ulong (x + x / 256) + ulong (x + x / 256) / 65536) / 4294967296)).
  { subst cnt. cbn -[Z.pow Z.add ulong Z.div Z.shiftr]. now rewrite !shiftr_div by lia. }
  set (h1 := b + 256 * (c + 256 * (d + 256 * (e + 256 * (f + 256 * (g + 256 * h)))))).
  set (h2 := c + 256 * (d + 256 * (e + 256 * (f + 256 * (g + 256 * h))))).
  set (h3 := d + 256 * (e + 256 * (f + 256 * (g + 256 * h)))).
  set (h4 := e + 256 * (f + 256 * (g + 256 * h))).
  set (h5 := f + 256 * (g + 256 * h)).
  set (h6 := g + 256 * h).
  assert (E1 : x = a + 256 * h1) by (subst x h1; lia).
  assert (D1 : x / 256 = h1) by (rewrite E1; apply div_low; lia).
  assert (D2 : (x + h1) / 65536 = h2 + h3).
  { replace (x + h1) with ((a + b + 256 * (b + c)) + 65536 * (h2 + h3))
      by (subst x h1 h2 h3; lia). apply div_low. lia. }
  assert (D3 : (x + h1 + (h2 + h3)) / 4294967296 = h4 + h5 + h6 + h).
  { replace (x + h1 + (h2 + h3)) with
      ((a + b + c + d) + 256 * (b + c + d + e) + 65536 * (c + d + e + f)
       + 16777216 * (d + e + f + g) + 4294967296 * (h4 + h5 + h6 + h))
      by (subst x h1 h2 h3 h4 h5 h6; lia).
    apply div_low. lia. }
  rewrite D1 in E.
  rewrite (ulong_small (x + h1)) in E by (subst x h1; lia).
  rewrite D2, (ulong_small (x + h1 + (h2 + h3))) in E by (subst x h1 h2 h3; lia).
  rewrite D3, ulong_small in E by (subst x h1 h2 h3 h4 h5 h6; lia).
  rewrite E. change final_mask with (2 ^ 7 - 1). rewrite land_mask by lia.
  replace (x + h1 + (h2 + h3) + (h4 + h5 + h6 + h)) with
    ((a + b + c + d + e + f + g + h) +
     (2 * ((h1 + h2 + h3 + h4) + (h5 + h6 + h))) * 2 ^ 7)
    by (subst x h1 h2 h3 h4 h5 h6; lia).
  rewrite Z.mod_add, Z.mod_small by lia. lia.
Qed.

Lemma word_of_bytes_le bs m :
  Forall (fun b => 0 <= b <= m) bs ->
  0 <= 255 * word_of_bytes bs <= m * (2 ^ (8 * Z.of_nat (length bs)) - 1).
Proof.
  induction 1 as [|b bs Hb _ IH]; cbn [word_of_bytes length]; [cbn; lia |].
  replace (8 * Z.of_nat (S (length bs))) with (8 + 8 * Z.of_nat (length bs)) by lia.
  rewrite Z.pow_add_r by lia. lia.
Qed.

Lemma step1_bytes bs :
  length bs = 8%nat -> bytes_ok bs ->
  ulong (word_of_bytes bs - Z.land (Z.shiftr (word_of_bytes bs) 1) two_bit_mask)
  = word_of_bytes (map byte_step1 bs).
Proof.
  intros Hlen Hbs.
  change two_bit_mask with (rep_mask 85 8). rewrite <- Hlen.
  rewrite shiftr_mask_bytes by (assumption || lia).
  rewrite <- (map_id bs) at 1.
  rewrite (word_of_bytes_map_op Z.sub) by (intros; lia).
  change (map (fun b => b - Z.land (Z.shiftr b 1) 85) bs) with (map byte_step1 bs).
  apply ulong_small.
  assert (Hok : bytes_ok (map byte_step1 bs)).
  { apply Forall_map. eapply Forall_impl; [| exact Hbs]. apply byte_step1_ok. }
  pose proof (word_of_bytes_range _ Hok) as R. rewrite length_map, Hlen in R. exact R.
Qed.

Lemma step2_bytes bs :
  length bs = 8%nat -> bytes_ok bs ->
  bytes_ok (map byte_step2 bs) ->
  ulong (Z.land (Z.shiftr (word_of_bytes bs) 2) four_bit_mask
         + Z.land (word_of_bytes bs) four_bit_mask)
  = word_of_bytes (map byte_step2 bs).
Proof.
  intros Hlen Hbs Hok.
  change four_bit_mask with (rep_mask 51 8). rewrite <- Hlen.
  rewrite <- (Z.shiftr_0_r (word_of_bytes bs)) at 2.
  rewrite !shiftr_mask_bytes by (assumption || lia).
  rewrite (word_of_bytes_map_op Z.add) by (intros; lia).
  change (map _ bs) with (map byte_step2 bs).
  apply ulong_small.
  pose proof (word_of_bytes_range _ Hok) as R. rewrite length_map, Hlen in R. exact R.
Qed.

Lemma step3_word bs :
  length bs = 8%nat -> Forall nibbles_ok bs ->
  Z.land (ulong (Z.shiftr (word_of_bytes bs) 4 + word_of_bytes bs)) eight_bit_mask
  = word_of_bytes (map byte_step3 bs).
Proof.
  intros Hlen Hbs. rewrite <- step3_bytes, Hlen by assumption.
  rewrite ulong_small; [reflexivity |].
  assert (H : Forall (fun b => 0 <= b <= 119) bs).
  { eapply Forall_impl; [| exact Hbs]. intros b [Hb [H1 H2]].
    pose proof (Z.div_mod b 16). lia. }
  pose proof (word_of_bytes_le bs 119 H) as R. rewrite Hlen in R.
  change (2 ^ (8 * Z.of_nat 8)) with 18446744073709551616 in R.
  rewrite shiftr_div by lia. change (2 ^ 4) with 16.
  pose proof (Z.div_mod (word_of_bytes bs) 16).
  pose proof (Z.mod_pos_bound (word_of_bytes bs) 16). lia.
Qed.

Lemma ulong_bit_count_popcount x :
  is_ulong x -> ulong_bit_count x = popcount x.
Proof.
  intros Hx. set (bs := bytes_of_word 8 x).
  assert (Ex : word_of_bytes bs = x) by (apply word_of_bytes_of_word; exact Hx).
  assert (Hlen : length bs = 8%nat) by reflexivity.
  assert (Hbs : bytes_ok bs) by apply bytes_of_word_ok.
  rewrite <- Ex, popcount_bytes by exact Hbs.
  assert (H1 : bytes_ok (map byte_step1 bs)).
  { apply Forall_map. eapply Forall_impl; [| exact Hbs]. apply byte_step1_ok. }
  assert (H2 : Forall nibbles_ok (map byte_step2 (map byte_step1 bs))).
  { rewrite map_map. apply Forall_map. eapply Forall_impl; [| exact Hbs].
    intros b Hb. now apply byte_steps_popcount. }
  unfold ulong_bit_count. cbv zeta.
  rewrite step1_bytes, step2_bytes, step3_word; rewrite ?length_map; trivial.
  2:{ eapply Forall_impl; [| exact H2]. intros b [Hb _]. exact Hb. }
  rewrite !map_map.
  rewrite (map_ext_in _ popcount).
  2:{ intros b Hb. apply byte_steps_popcount. exact (proj1 (Forall_forall _ _) Hbs b Hb). }
  apply sum_bytes; [now rewrite length_map |].
  apply Forall_map. eapply Forall_impl; [| exact Hbs].
  intros b Hb. now apply byte_steps_popcount.
Qed.

(** ** Length in bits *)

(** After the shift by [k/2], the [k] bits below and including the top bit
    are set. *)
Definition filled (k n x : Z) : Prop :=
  0 <= x < 2 ^ (n + 1) /\ forall i, n - k < i <= n -> 0 <= i -> Z.testbit x i = true.

Lemma filled_double k n x :
  0 <= n -> 0 <= k -> filled k n x -> filled (2 * k) n (Z.lor x (Z.shiftr x k)).
Proof.
  intros Hn Hk [Hx Hbits]. split.
  - apply lor_range; [lia | exact Hx |]. rewrite shiftr_div by lia.
    assert (0 < 2 ^ k) by (apply Z.pow_pos_nonneg; lia).
    split; [apply Z.div_pos; lia |].
    apply Z.le_lt_trans with x; [| lia]. apply Z.div_le_upper_bound; nia.
  - intros i Hi Hi0. autorewrite with zbits.
    destruct (Z.ltb_spec (n - k) i).
    + now rewrite Hbits by lia.
    + rewrite (Hbits (i + k)) by lia. apply orb_true_r.
Qed.

Lemma filled_ones k n x :
  0 <= n -> n < k -> filled k n x -> x = Z.ones (n + 1).
Proof.
  intros Hn Hk [Hx Hbits]. apply Z.bits_inj'. intros i Hi.
  destruct (Z.ltb_spec i (n + 1)).
  - rewrite Hbits, Z.ones_spec_low by lia. reflexivity.
  - rewrite (testbit_high x (n + 1)), Z.ones_spec_high by lia. reflexivity.
Qed.

Lemma ulong_length_in_bits_log2 x :
  is_ulong x ->
  ulong_length_in_bits x = if x =? 0 then 0 else Z.log2 x + 1.
Proof.
  intros Hx. destruct (Z.eqb_spec x 0) as [-> | Hnz]; [reflexivity |].
  red in Hx. set (n := Z.log2 x).
  assert (Hn : 0 <= n) by apply Z.log2_nonneg.
  assert (Hn64 : n < 64) by (apply Z.log2_lt_pow2; lia).
  assert (F : filled 1 n x).
  { split.
    - pose proof (Z.log2_spec x). subst n. replace (Z.log2 x + 1) with (Z.succ (Z.log2 x)) by lia. lia.
    - intros i Hi _. replace i with n by lia. apply Z.bit_log2. lia. }
  do 6 apply filled_double in F; try lia.
  apply filled_ones in F; [| lia | lia].
  unfold ulong_length_in_bits. cbv zeta.
  change (length_fill_loop 8 64 64) with (fun x : Z => x). cbn [Z.ltb Z.compare Pos.compare Pos.compare_cont].
  cbn [Z.mul Pos.mul] in F. rewrite F.
  assert (R : is_ulong (Z.ones (n + 1))).
  { red. rewrite Z.ones_equiv. assert (0 < 2 ^ (n + 1) <= 2 ^ 64).
    { split; [apply Z.pow_pos_nonneg; lia | apply Z.pow_le_mono_r; lia]. }
    lia. }
  rewrite ulong_bit_count_popcount by exact R.
  replace (n + 1) with (Z.of_nat (Z.to_nat (n + 1))) by lia.
  rewrite popcount_ones. lia.
Qed.

(** ** First set bit *)

Lemma popcount_Zones n : 0 <= n -> popcount (Z.ones n) = n.
Proof. intros. replace n with (Z.of_nat (Z.to_nat n)) by lia. rewrite popcount_ones. lia. Qed.

Lemma ones_is_ulong n : 0 <= n <= 64 -> is_ulong (Z.ones n).
Proof.
  intros. red. rewrite Z.ones_equiv. assert (0 < 2 ^ n <= 2 ^ 64).
  { split; [apply Z.pow_pos_nonneg; lia | apply Z.pow_le_mono_r; lia]. }
  lia.
Qed.

Lemma ulong_first_set_bit_trailing x :
  is_ulong x -> ulong_first_set_bit x = trailing_zeros x.
Proof.
  intros Hx. unfold ulong_first_set_bit.
  destruct (Z.eqb_spec x 0) as [-> | Hnz]; [reflexivity |]. red in Hx.
  destruct (trailing_zeros_spec x Hnz) as [H0 _].
  pose proof (trailing_zeros_lt x 64).
  rewrite ulong_small, lxor_pred_ones, ones_shiftr1 by lia.
  rewrite ulong_length_in_bits_log2 by (apply ones_is_ulong; lia).
  destruct (Z.eqb_spec (trailing_zeros x) 0) as [-> | Hr]; [reflexivity |].
  destruct (Z.eqb_spec (Z.ones (trailing_zeros x)) 0) as [E | _].
  - rewrite Z.ones_equiv in E. assert (2 ^ 1 <= 2 ^ trailing_zeros x) by (apply Z.pow_le_mono_r; lia). lia.
  - rewrite Z.ones_equiv, Z.log2_pred_pow2 by lia. lia.
Qed.

(** ** Properties *)

(** the branch-free bit tricks of bits.h are exact on every 64-bit word:
    [ulong_bit_count] is the number of one bits, [ulong_length_in_bits] the
    number of bits needed to write the word, and [ulong_first_set_bit] the
    index of the lowest one bit (every lower bit being 0), or -1 for 0. *)
Theorem word_bit_tricks x :
  is_ulong x ->
  ulong_bit_count x = popcount x
  /\ 0 <= ulong_length_in_bits x <= 64
  /\ x < 2 ^ ulong_length_in_bits x
  /\ (x <> 0 -> 2 ^ (ulong_length_in_bits x - 1) <= x)
  /\ (x = 0 -> ulong_first_set_bit x = -1)
  /\ (x <> 0 -> Z.testbit x (ulong_first_set_bit x) = true
        /\ forall i, i < ulong_first_set_bit x -> Z.testbit x i = false).
Proof.
  intros Hx. rewrite ulong_bit_count_popcount, ulong_length_in_bits_log2,
    ulong_first_set_bit_trailing by exact Hx. red in Hx.
  destruct (Z.eqb_spec x 0) as [-> | N].
  - do 4 (split; [first [reflexivity | lia] |]). split; [reflexivity | lia].
  - pose proof (Z.log2_spec x ltac:(lia)). pose proof (Z.log2_nonneg x).
    assert (Z.log2 x < 64) by (apply Z.log2_lt_pow2; lia).
    replace (Z.log2 x + 1 - 1) with (Z.log2 x) by lia.
    do 5 (split; [lia |]).
    intros _. now apply trailing_zeros_bits.
Qed.

Lemma word_bit_tricks_witness :
  is_ulong 9223372036854775848 /\ ulong_bit_count 9223372036854775848 = 3
  /\ ulong_length_in_bits 9223372036854775848 <= 64
  /\ Z.testbit 9223372036854775848 (ulong_first_set_bit 9223372036854775848) = true.
Proof.
  assert (H : is_ulong 9223372036854775848) by (red; lia).
  destruct (word_bit_tricks 9223372036854775848 H) as (C & L & _ & _ & _ & F).
  split; [exact H |]. split; [exact C |]. split; [apply L |]. apply F. lia.
Defined.
