(* ===== verification/Bignum.v ===== *)
(** * Bignums: representation, allocation, comparison
    (src/src/microcode/bignum.c, bignmint.h)

    A bignum is a block of words: a header holding the length and the sign,
    then the digits, least significant first, in radix 2^62.  This file has
    the block itself, its allocation, trimming and copying, the two
    comparisons, and the abstraction [repr] that relates a canonical block to
    the integer it denotes, on which every other bignum file is stated. *)

From Stdlib Require Import ZArith List Lia Bool.
From S2P Require Import Prelude Bits.
Import ListNotations.

(** ** Constants (bignmint.h) *)

Notation BIGNUM_DIGIT_LENGTH := 62.
Notation BIGNUM_HALF_DIGIT_LENGTH := 31.
(** 2^62 *)
Notation BIGNUM_RADIX := 4611686018427387904.
(** 2^31 *)
Notation BIGNUM_RADIX_ROOT := 2147483648.
Notation BIGNUM_DIGIT_MASK := 4611686018427387903.
Notation BIGNUM_HALF_DIGIT_MASK := 2147483647.

Definition BIGNUM_LENGTH_MAX : Z := BIGNUM_RADIX / BIGNUM_DIGIT_LENGTH - BIGNUM_DIGIT_LENGTH.

Definition HD_LOW (digit : Z) : Z := digit & BIGNUM_HALF_DIGIT_MASK.
Definition HD_HIGH (digit : Z) : Z := digit >>> BIGNUM_HALF_DIGIT_LENGTH.
Definition HD_CONS (high low : Z) : Z := (high << BIGNUM_HALF_DIGIT_LENGTH)%SL .| low.

Definition BIGNUM_BITS_TO_DIGITS (n : Z) : Z :=
  (n + (BIGNUM_DIGIT_LENGTH - 1)) / BIGNUM_DIGIT_LENGTH.

Definition BIGNUM_DIGIT_ONES (n : Z) : Z := Z.lnot (Z.lnot 0 << n)%SL.

(** ** Blocks *)

(** Words of freshly allocated memory are unspecified: every theorem holds
    for every [Heap], so no result depends on them. *)
Class Heap := fresh_word : nat -> Z.

Record bignum := mk_bignum { bn_header : Z; bn_digits : list Z }.

Definition BIGNUM_SET_HEADER (b : bignum) (length : Z) (negative_p : bool) : bignum :=
  mk_bignum (length .| (if negative_p then BIGNUM_RADIX else 0)) (bn_digits b).

Definition BIGNUM_LENGTH (b : bignum) : Z := bn_header b & BIGNUM_DIGIT_MASK.

Definition BIGNUM_NEGATIVE_P (b : bignum) : bool :=
  negb ((bn_header b & BIGNUM_RADIX) =? 0).

Definition BIGNUM_ZERO_P (b : bignum) : bool := BIGNUM_LENGTH b =? 0.

Definition BIGNUM_REF (b : bignum) (index : Z) : Z := nth (Z.to_nat index) (bn_digits b) 0.

(** The digits a scan from [BIGNUM_START_PTR] to the end of the bignum meets. *)
Definition digits_of (b : bignum) : list Z :=
  firstn (Z.to_nat (BIGNUM_LENGTH b)) (bn_digits b).

(** [*scan++ = d] for each [d] of [ds], from the first digit on. *)
Definition store_digits (b : bignum) (ds : list Z) : bignum :=
  mk_bignum (bn_header b) (ds ++ skipn (length ds) (bn_digits b)).

(** Give back all but the first [length] digits of the block. *)
Definition BIGNUM_REDUCE_LENGTH (b : bignum) (length : Z) : bignum :=
  mk_bignum (bn_header b) (firstn (Z.to_nat length) (bn_digits b)).

Inductive bignum_comparison :=
  bignum_comparison_equal | bignum_comparison_less | bignum_comparison_greater.

Section Allocation.
Context {heap : Heap}.

Definition BIGNUM_ALLOCATE (length : Z) : bignum :=
  mk_bignum (fresh_word 0) (map fresh_word (seq 1 (Z.to_nat length))).

Definition bignum_allocate (length : Z) (negative_p : bool) : option bignum :=
  assert* (0 <=? length) && (length <=? BIGNUM_LENGTH_MAX) in
  Some (BIGNUM_SET_HEADER (BIGNUM_ALLOCATE length) length negative_p).

Definition bignum_allocate_zeroed (length : Z) (negative_p : bool) : option bignum :=
  assert* (0 <=? length) && (length <=? BIGNUM_LENGTH_MAX) in
  Some (store_digits (BIGNUM_SET_HEADER (BIGNUM_ALLOCATE length) length negative_p)
          (repeat 0 (Z.to_nat length))).

Definition bignum_shorten_length (b : bignum) (length : Z) : option bignum :=
  let current_length := BIGNUM_LENGTH b in
  assert* (0 <=? length) && (length <=? current_length) in
  if length <? current_length then
    Some (BIGNUM_REDUCE_LENGTH
            (BIGNUM_SET_HEADER b length (negb (length =? 0) && BIGNUM_NEGATIVE_P b)) length)
  else Some b.

(** The [while] loop that steps [scan] down over zero digits, where
    [scan - start] is [n]: the value of [scan - start] when it stops.  At [start] the
    loop reads the header and stops just below it whatever it holds. *)
Fixpoint trim_scan (ds : list Z) (n : nat) : Z :=
  match n with
  | O => -1
  | S n => if nth n ds 0 =? 0 then trim_scan ds n else Z.of_nat n
  end.

Definition bignum_trim (b : bignum) : bignum :=
  let scan := trim_scan (bn_digits b) (Z.to_nat (BIGNUM_LENGTH b)) + 1 in
  if scan <? BIGNUM_LENGTH b then
    let length := scan in
    BIGNUM_REDUCE_LENGTH
      (BIGNUM_SET_HEADER b length (negb (length =? 0) && BIGNUM_NEGATIVE_P b)) length
  else b.

Definition bignum_destructive_copy (source target : bignum) : bignum :=
  store_digits target (digits_of source).

Definition bignum_copy (source : bignum) : option bignum :=
  let* target := bignum_allocate (BIGNUM_LENGTH source) (BIGNUM_NEGATIVE_P source) in
  Some (bignum_destructive_copy source target).

Definition bignum_new_sign (b : bignum) (negative_p : bool) : option bignum :=
  let* result := bignum_allocate (BIGNUM_LENGTH b) negative_p in
  Some (bignum_destructive_copy b result).

Definition bignum_maybe_new_sign (b : bignum) (negative_p : bool) : option bignum :=
  if (if BIGNUM_NEGATIVE_P b then negative_p else negb negative_p) then Some b
  else
    let* result := bignum_allocate (BIGNUM_LENGTH b) negative_p in
    Some (bignum_destructive_copy b result).

Definition bignum_make_zero : bignum := BIGNUM_SET_HEADER (BIGNUM_ALLOCATE 0) 0 false.

Definition bignum_make_one (negative_p : bool) : bignum :=
  store_digits (BIGNUM_SET_HEADER (BIGNUM_ALLOCATE 1) 1 negative_p) [1].

Definition bignum_digit_to_bignum (digit : Z) (negative_p : bool) : option bignum :=
  if digit =? 0 then Some bignum_make_zero
  else
    let* result := bignum_allocate 1 negative_p in
    Some (store_digits result [digit]).

End Allocation.

(** ** Comparison *)

Fixpoint equal_scan (xs ys : list Z) : bool :=
  match xs, ys with
  | x :: xs, y :: ys => if negb (x =? y) then false else equal_scan xs ys
  | _, _ => true
  end.

Definition bignum_equal_p_unsigned (x y : bignum) : bool :=
  let length := BIGNUM_LENGTH x in
  if negb (length =? BIGNUM_LENGTH y) then false
  else equal_scan (digits_of x) (digits_of y).

Definition bignum_equal_p (x y : bignum) : bool :=
  if BIGNUM_ZERO_P x then BIGNUM_ZERO_P y
  else negb (BIGNUM_ZERO_P y)
       && (if BIGNUM_NEGATIVE_P x then BIGNUM_NEGATIVE_P y else negb (BIGNUM_NEGATIVE_P y))
       && bignum_equal_p_unsigned x y.

(** The scan runs from the most significant digit down. *)
Fixpoint compare_scan (xs ys : list Z) : bignum_comparison :=
  match xs, ys with
  | digit_x :: xs, digit_y :: ys =>
      if digit_x <? digit_y then bignum_comparison_less
      else if digit_y <? digit_x then bignum_comparison_greater
      else compare_scan xs ys
  | _, _ => bignum_comparison_equal
  end.

Definition bignum_compare_unsigned (x y : bignum) : bignum_comparison :=
  let x_length := BIGNUM_LENGTH x in
  let y_length := BIGNUM_LENGTH y in
  if x_length <? y_length then bignum_comparison_less
  else if y_length <? x_length then bignum_comparison_greater
  else compare_scan (rev (digits_of x)) (rev (digits_of y)).

Definition bignum_test (b : bignum) : bignum_comparison :=
  if BIGNUM_ZERO_P b then bignum_comparison_equal
  else if BIGNUM_NEGATIVE_P b then bignum_comparison_less
  else bignum_comparison_greater.

Definition bignum_compare (x y : bignum) : bignum_comparison :=
  if BIGNUM_ZERO_P x then
    if BIGNUM_ZERO_P y then bignum_comparison_equal
    else if BIGNUM_NEGATIVE_P y then bignum_comparison_greater
    else bignum_comparison_less
  else if BIGNUM_ZERO_P y then
    if BIGNUM_NEGATIVE_P x then bignum_comparison_less else bignum_comparison_greater
  else if BIGNUM_NEGATIVE_P x then
    if BIGNUM_NEGATIVE_P y then bignum_compare_unsigned y x else bignum_comparison_less
  else
    if BIGNUM_NEGATIVE_P y then bignum_comparison_greater else bignum_compare_unsigned x y.

(** ** The integer a bignum denotes *)

Fixpoint eval (ds : list Z) : Z :=
  match ds with [] => 0 | d :: ds => d + BIGNUM_RADIX * eval ds end.

Definition is_digit (d : Z) : Prop := 0 <= d < BIGNUM_RADIX.
Notation digits_ok := (Forall is_digit).

#[export] Hint Constructors Forall : core.

(** No leading zeros: the most significant digit is not 0. *)
Definition trimmed (ds : list Z) : Prop := last ds 1 <> 0.

Definition sign (negative_p : bool) (z : Z) : Z := if negative_p then - z else z.

(** The block with these digits and this sign. *)
Definition block (negative_p : bool) (ds : list Z) : bignum :=
  mk_bignum (Z.of_nat (length ds) .| (if negative_p then BIGNUM_RADIX else 0)) ds.

Definition fits (ds : list Z) : Prop := Z.of_nat (length ds) <= BIGNUM_LENGTH_MAX.

(** A well-formed block that denotes [z]; leading zeros allowed. *)
Definition denotes (b : bignum) (z : Z) : Prop :=
  exists neg ds, b = block neg ds /\ digits_ok ds /\ fits ds /\ z = sign neg (eval ds).

(** A canonical bignum that denotes [z]. *)
Definition repr (b : bignum) (z : Z) : Prop :=
  exists neg ds, b = block neg ds /\ digits_ok ds /\ fits ds /\ trimmed ds
    /\ (ds = [] -> neg = false) /\ z = sign neg (eval ds).

(** There is room for [k] more digits than [b] has. *)
Definition room (b : bignum) (k : Z) : Prop := BIGNUM_LENGTH b + k <= BIGNUM_LENGTH_MAX.

(** *** Half digits *)

Lemma HD_LOW_mod d : HD_LOW d = d mod BIGNUM_RADIX_ROOT.
Proof. apply (land_mask d 31). lia. Qed.

Lemma HD_HIGH_div d : HD_HIGH d = d / BIGNUM_RADIX_ROOT.
Proof. apply (shiftr_div d 31). lia. Qed.

Lemma HD_CONS_add h l :
  -4294967296 <= h < 4294967296 -> 0 <= l < BIGNUM_RADIX_ROOT ->
  HD_CONS h l = h * BIGNUM_RADIX_ROOT + l.
Proof.
  intros Hh Hl. unfold HD_CONS. rewrite slong_small.
  - now rewrite (shiftl_lor_add h l 31) by lia.
  - rewrite Z.shiftl_mul_pow2 by lia. lia.
Qed.

Lemma HD_split d : d = HD_HIGH d * BIGNUM_RADIX_ROOT + HD_LOW d.
Proof. rewrite HD_LOW_mod, HD_HIGH_div. pose proof (Z.div_mod d BIGNUM_RADIX_ROOT). lia. Qed.

Lemma HD_LOW_range d : 0 <= HD_LOW d < BIGNUM_RADIX_ROOT.
Proof. rewrite HD_LOW_mod. apply Z.mod_pos_bound. lia. Qed.

Lemma HD_HIGH_range d : is_digit d -> 0 <= HD_HIGH d < BIGNUM_RADIX_ROOT.
Proof. intros H. red in H. pose proof (HD_split d). pose proof (HD_LOW_range d). lia. Qed.

(** *** Digit lists *)

Lemma eval_app ds es : eval (ds ++ es) = eval ds + BIGNUM_RADIX ^ Z.of_nat (length ds) * eval es.
Proof.
  induction ds as [|d ds IH]; cbn [app eval length].
  - rewrite Z.pow_0_r. lia.
  - rewrite IH, Nat2Z.inj_succ, Z.pow_succ_r by lia. ring.
Qed.

Lemma radix_pow_pos n : 0 < BIGNUM_RADIX ^ Z.of_nat n.
Proof. apply Z.pow_pos_nonneg; lia. Qed.

Lemma eval_range ds : digits_ok ds -> 0 <= eval ds < BIGNUM_RADIX ^ Z.of_nat (length ds).
Proof.
  induction 1 as [|d ds Hd _ IH]; cbn [eval length].
  - rewrite Z.pow_0_r. lia.
  - red in Hd. rewrite Nat2Z.inj_succ, Z.pow_succ_r by lia. lia.
Qed.

Lemma eval_nonneg ds : digits_ok ds -> 0 <= eval ds.
Proof. intros H. now apply eval_range. Qed.

Lemma eval_repeat0 n : eval (repeat 0 n) = 0.
Proof. induction n; cbn [repeat eval]; lia. Qed.

Lemma eval_snoc ds d : eval (ds ++ [d]) = eval ds + BIGNUM_RADIX ^ Z.of_nat (length ds) * d.
Proof. rewrite eval_app. cbn [eval]. lia. Qed.

Lemma trimmed_snoc ds d : trimmed (ds ++ [d]) <-> d <> 0.
Proof. unfold trimmed. now rewrite last_last. Qed.

Lemma trimmed_inv ds : trimmed ds -> ds = [] \/ exists ds' d, ds = ds' ++ [d] /\ d <> 0.
Proof.
  intros H. destruct ds as [|d0 ds0]; [now left |]. right.
  destruct (exists_last (l := d0 :: ds0)) as [ds' [d E]]; [discriminate |].
  rewrite E in *. exists ds', d. now rewrite trimmed_snoc in H.
Qed.

(** The value of a trimmed list determines its length. *)
Lemma eval_trimmed_lower ds :
  digits_ok ds -> trimmed ds -> ds <> [] ->
  BIGNUM_RADIX ^ (Z.of_nat (length ds) - 1) <= eval ds.
Proof.
  intros Hok Ht Hne. destruct (trimmed_inv ds Ht) as [-> | [ds' [d [-> Hd]]]]; [easy |].
  apply Forall_app in Hok as [Hok Hd0]. inversion_clear Hd0 as [|? ? Hdd _]. red in Hdd.
  rewrite eval_snoc, length_app. cbn [length].
  replace (Z.of_nat (length ds' + 1) - 1) with (Z.of_nat (length ds')) by lia.
  pose proof (eval_nonneg ds' Hok). pose proof (radix_pow_pos (length ds')). nia.
Qed.

Lemma eval_trimmed_pos ds : digits_ok ds -> trimmed ds -> ds <> [] -> 0 < eval ds.
Proof.
  intros Hok Ht Hne. eapply Z.lt_le_trans; [| now apply eval_trimmed_lower].
  destruct ds; [easy |]. apply Z.pow_pos_nonneg; cbn [length]; lia.
Qed.

Lemma eval_length_lt xs ys :
  digits_ok xs -> digits_ok ys -> trimmed ys -> (length xs < length ys)%nat ->
  eval xs < eval ys.
Proof.
  intros Hx Hy Ht Hlt.
  assert (ys <> []) by (intros ->; cbn in Hlt; lia).
  pose proof (eval_range xs Hx). pose proof (eval_trimmed_lower ys Hy Ht).
  assert (BIGNUM_RADIX ^ Z.of_nat (length xs) <= BIGNUM_RADIX ^ (Z.of_nat (length ys) - 1)).
  { apply Z.pow_le_mono_r; lia. }
  intuition lia.
Qed.

Lemma eval_inj xs : forall ys,
  digits_ok xs -> digits_ok ys -> length xs = length ys -> eval xs = eval ys -> xs = ys.
Proof.
  induction xs as [|x xs IH]; intros [|y ys] Hx Hy Hl E; try discriminate; [reflexivity |].
  inversion_clear Hx as [|? ? Hx1 Hxs]. inversion_clear Hy as [|? ? Hy1 Hys].
  red in Hx1, Hy1. cbn [eval length] in *.
  assert (x = y /\ eval xs = eval ys) as [-> E'] by lia.
  f_equal. apply IH; auto.
Qed.

(** *** Headers and blocks *)

Lemma header_add n (negative_p : bool) :
  0 <= n < BIGNUM_RADIX ->
  Z.lor n (if negative_p then BIGNUM_RADIX else 0) = n + 2 ^ 62 * Z.b2z negative_p.
Proof.
  intros Hn. destruct negative_p; cbn [Z.b2z].
  - rewrite Z.lor_comm. change BIGNUM_RADIX with (Z.shiftl 1 62).
    rewrite shiftl_lor_add; lia.
  - rewrite Z.lor_0_r. lia.
Qed.

Lemma fits_lt_radix ds : fits ds -> 0 <= Z.of_nat (length ds) < BIGNUM_RADIX.
Proof.
  unfold fits. change BIGNUM_LENGTH_MAX with 74382032555280388. lia.
Qed.

Lemma BIGNUM_LENGTH_block neg ds :
  fits ds -> BIGNUM_LENGTH (block neg ds) = Z.of_nat (length ds).
Proof.
  intros H%fits_lt_radix. unfold BIGNUM_LENGTH, block. cbn [bn_header].
  rewrite header_add by lia. change BIGNUM_DIGIT_MASK with (2 ^ 62 - 1).
  rewrite land_mask, Z.mul_comm, Z.mod_add, Z.mod_small; lia.
Qed.

Lemma BIGNUM_NEGATIVE_P_block neg ds :
  fits ds -> BIGNUM_NEGATIVE_P (block neg ds) = neg.
Proof.
  intros H%fits_lt_radix. unfold BIGNUM_NEGATIVE_P, block. cbn [bn_header].
  rewrite header_add by lia.
  replace BIGNUM_RADIX with (0 + 2 ^ 62 * 1) at 1 by reflexivity.
  rewrite land_split, Z.land_0_r by lia. now destruct neg.
Qed.

Lemma BIGNUM_ZERO_P_block neg ds :
  fits ds -> BIGNUM_ZERO_P (block neg ds) = (Z.of_nat (length ds) =? 0).
Proof. intros H. unfold BIGNUM_ZERO_P. now rewrite BIGNUM_LENGTH_block. Qed.

Lemma BIGNUM_REF_block neg ds i : BIGNUM_REF (block neg ds) (Z.of_nat i) = nth i ds 0.
Proof. unfold BIGNUM_REF. now rewrite Nat2Z.id. Qed.

Lemma digits_of_block neg ds : fits ds -> digits_of (block neg ds) = ds.
Proof.
  intros F. unfold digits_of. rewrite BIGNUM_LENGTH_block by exact F.
  rewrite Nat2Z.id. apply firstn_all.
Qed.

Create Rewrite HintDb bignum.
#[export] Hint Rewrite BIGNUM_LENGTH_block BIGNUM_NEGATIVE_P_block
  BIGNUM_ZERO_P_block digits_of_block using (assumption) : bignum.

Lemma fits_firstn ds n : fits ds -> fits (firstn n ds).
Proof. unfold fits. rewrite length_firstn. lia. Qed.

Lemma store_digits_block neg ds ws :
  length ws = length ds -> store_digits (block neg ds) ws = block neg ws.
Proof.
  intros E. unfold store_digits, block. cbn [bn_header bn_digits].
  rewrite E, skipn_all, app_nil_r. reflexivity.
Qed.

(** Writing all the digits but the last [k]. *)
Lemma store_digits_prefix neg ds ws n :
  (length ws <= length ds)%nat -> (n <= length ws)%nat ->
  exists es, store_digits (block neg ds) ws = block neg es
    /\ length es = length ds /\ firstn n es = firstn n ws.
Proof.
  intros Hl Hn. exists (ws ++ skipn (length ws) ds).
  assert (length (ws ++ skipn (length ws) ds) = length ds) as E
    by (rewrite length_app, length_skipn; lia).
  unfold store_digits, block. cbn [bn_header bn_digits]. rewrite E.
  repeat split. rewrite firstn_app. replace (n - length ws)%nat with 0%nat by lia.
  cbn [firstn]. apply app_nil_r.
Qed.

Section AllocationFacts.
Context {heap : Heap}.

Definition fresh (n : Z) : list Z := map fresh_word (seq 1 (Z.to_nat n)).

Lemma length_fresh n : length (fresh n) = Z.to_nat n.
Proof. unfold fresh. now rewrite length_map, length_seq. Qed.

Lemma bignum_allocate_some n neg :
  0 <= n <= BIGNUM_LENGTH_MAX -> bignum_allocate n neg = Some (block neg (fresh n)).
Proof.
  intros H. unfold bignum_allocate, block.
  rewrite (proj2 (Z.leb_le 0 n)), (proj2 (Z.leb_le n BIGNUM_LENGTH_MAX)) by lia.
  cbn [andb]. rewrite length_fresh, Z2Nat.id by lia. reflexivity.
Qed.

(** Allocate a block and write all of it. *)
Lemma bignum_allocate_store n neg ws :
  Z.of_nat (length ws) = n -> fits ws ->
  (let* r := bignum_allocate n neg in Some (store_digits r ws)) = Some (block neg ws).
Proof.
  intros E F. red in F. rewrite bignum_allocate_some by lia. cbn [obind].
  rewrite store_digits_block; [reflexivity |]. rewrite length_fresh. lia.
Qed.

Lemma bignum_allocate_zeroed_some n neg :
  0 <= n <= BIGNUM_LENGTH_MAX ->
  bignum_allocate_zeroed n neg = Some (block neg (repeat 0 (Z.to_nat n))).
Proof.
  intros H. rewrite <- (bignum_allocate_store n neg) by (unfold fits; rewrite repeat_length; lia).
  unfold bignum_allocate_zeroed, bignum_allocate. now case_if.
Qed.

Lemma bignum_make_zero_block : bignum_make_zero = block false [].
Proof. reflexivity. Qed.

Lemma bignum_make_one_block neg : bignum_make_one neg = block neg [1].
Proof. reflexivity. Qed.

Lemma bignum_shorten_length_block neg ds n :
  fits ds -> 0 < n <= Z.of_nat (length ds) ->
  bignum_shorten_length (block neg ds) n = Some (block neg (firstn (Z.to_nat n) ds)).
Proof.
  intros F Hn. unfold bignum_shorten_length. autorewrite with bignum.
  rewrite (proj2 (Z.leb_le 0 n)), (proj2 (Z.leb_le n _)) by lia. cbn [andb].
  destruct (Z.ltb_spec n (Z.of_nat (length ds))).
  - destruct (Z.eqb_spec n 0); [lia |]. cbn [negb andb].
    unfold BIGNUM_REDUCE_LENGTH, BIGNUM_SET_HEADER, block. cbn [bn_header bn_digits].
    do 3 f_equal. rewrite length_firstn. lia.
  - rewrite firstn_all2 by lia. reflexivity.
Qed.

(** *** Trimming *)

Fixpoint trim (ds : list Z) : list Z :=
  match ds with
  | [] => []
  | d :: ds =>
      match trim ds with
      | [] => if d =? 0 then [] else [d]
      | es => d :: es
      end
  end.

Lemma trim_snoc ds d : trim (ds ++ [d]) = if d =? 0 then trim ds else ds ++ [d].
Proof.
  induction ds as [|x ds IH]; cbn [app trim]; [reflexivity |].
  rewrite IH. destruct (Z.eqb_spec d 0); [reflexivity |]. now destruct ds.
Qed.

Lemma eval_trim ds : eval (trim ds) = eval ds.
Proof.
  induction ds as [|d ds IH]; cbn [trim eval]; [reflexivity |]. rewrite <- IH.
  destruct (trim ds); cbn [eval]; [| reflexivity].
  destruct (Z.eqb_spec d 0) as [-> |]; cbn [eval]; lia.
Qed.

Lemma trim_prefix ds : exists k, ds = trim ds ++ repeat 0 k.
Proof.
  induction ds as [|d ds [k IH]]; cbn [trim]; [now exists 0%nat |].
  destruct (trim ds) as [|e es] eqn:E.
  - destruct (Z.eqb_spec d 0) as [-> |].
    + exists (S k). cbn [repeat app] in *. now rewrite IH.
    + exists k. cbn [app] in *. now rewrite IH.
  - exists k. rewrite IH. reflexivity.
Qed.

Lemma trimmed_trim ds : trimmed (trim ds).
Proof.
  induction ds as [|d ds IH]; cbn [trim]; [unfold trimmed; cbn; lia |].
  destruct (trim ds) as [|e es].
  - destruct (Z.eqb_spec d 0); unfold trimmed; cbn; lia.
  - exact IH.
Qed.

Lemma trim_id ds : trimmed ds -> trim ds = ds.
Proof.
  intros H. destruct (trimmed_inv ds H) as [-> | [ds' [d [-> Hd]]]]; [reflexivity |].
  rewrite trim_snoc. now destruct (Z.eqb_spec d 0).
Qed.

Lemma digits_ok_trim ds : digits_ok ds -> digits_ok (trim ds).
Proof.
  intros H. destruct (trim_prefix ds) as [k E]. rewrite E in H.
  now apply Forall_app in H.
Qed.

Lemma fits_trim ds : fits ds -> fits (trim ds).
Proof.
  intros H. destruct (trim_prefix ds) as [k E]. unfold fits in *.
  apply (f_equal (@length Z)) in E. rewrite length_app in E. lia.
Qed.

Lemma trim_scan_trim ds : trim_scan ds (length ds) + 1 = Z.of_nat (length (trim ds)).
Proof.
  assert (G : forall n, (n <= length ds)%nat ->
    trim_scan ds n + 1 = Z.of_nat (length (trim (firstn n ds)))).
  { induction n as [|n IH]; intros Hn; [reflexivity |]. cbn [trim_scan].
    assert (E : firstn (S n) ds = firstn n ds ++ [nth n ds 0]).
    { rewrite <- (firstn_skipn n ds) at 1. rewrite firstn_app, length_firstn.
      replace (S n - Nat.min n (length ds))%nat with 1%nat by lia.
      rewrite firstn_firstn, Nat.min_r by lia. f_equal.
      destruct (skipn n ds) as [|e es] eqn:Es.
      - apply (f_equal (@length Z)) in Es. rewrite length_skipn in Es. cbn in Es. lia.
      - cbn [firstn]. f_equal.
        rewrite <- (Nat.add_0_r n), <- nth_skipn, Es. reflexivity. }
    rewrite E, trim_snoc. destruct (nth n ds 0 =? 0); [apply IH; lia |].
    rewrite length_app, length_firstn. cbn [length]. lia. }
  specialize (G (length ds) (le_n _)). now rewrite firstn_all in G.
Qed.

Lemma bignum_trim_block neg ds :
  fits ds -> (ds = [] -> neg = false) ->
  bignum_trim (block neg ds) = block (negb (Z.of_nat (length (trim ds)) =? 0) && neg) (trim ds).
Proof.
  intros F Hneg. unfold bignum_trim. autorewrite with bignum.
  rewrite Nat2Z.id. cbn [bn_digits block]. rewrite trim_scan_trim.
  destruct (trim_prefix ds) as [k E].
  destruct (Z.ltb_spec (Z.of_nat (length (trim ds))) (Z.of_nat (length ds))) as [L | L].
  - unfold BIGNUM_REDUCE_LENGTH, BIGNUM_SET_HEADER, block. cbn [bn_header bn_digits].
    rewrite Nat2Z.id. f_equal.
    transitivity (firstn (length (trim ds)) (trim ds ++ repeat 0 k)); [now rewrite <- E |].
    rewrite firstn_app, firstn_all, Nat.sub_diag. cbn [firstn]. apply app_nil_r.
  - assert (k = 0%nat) as ->.
    { apply (f_equal (@length Z)) in E. rewrite length_app, repeat_length in E. lia. }
    cbn [repeat] in E. rewrite app_nil_r in E. rewrite <- E.
    destruct ds; cbn [length]; [now rewrite Hneg |].
    destruct (Z.eqb_spec (Z.of_nat (S (length ds))) 0); [lia | reflexivity].
Qed.

Lemma sign_zero neg : sign neg 0 = 0.
Proof. now destruct neg. Qed.

Lemma trim_repr neg ds :
  digits_ok ds -> fits ds -> (ds = [] -> neg = false) ->
  repr (bignum_trim (block neg ds)) (sign neg (eval ds)).
Proof.
  intros Hok F Hneg. rewrite bignum_trim_block by assumption.
  eexists _, _. split; [reflexivity |].
  repeat split; auto using digits_ok_trim, fits_trim, trimmed_trim.
  - intros ->. reflexivity.
  - rewrite eval_trim. destruct (Z.eqb_spec (Z.of_nat (length (trim ds))) 0) as [E |]; cbn [negb andb]; [| reflexivity].
    assert (Z0 : eval ds = 0).
    { rewrite <- eval_trim. destruct (trim ds); [reflexivity | cbn in E; lia]. }
    rewrite Z0. apply sign_zero.
Qed.

End AllocationFacts.

Lemma repr_block neg ds :
  digits_ok ds -> fits ds -> trimmed ds -> (ds = [] -> neg = false) ->
  repr (block neg ds) (sign neg (eval ds)).
Proof. intros. exists neg, ds. auto 6. Qed.

Lemma repr_digit neg d : 0 < d < BIGNUM_RADIX -> repr (block neg [d]) (sign neg d).
Proof.
  intros Hd. replace d with (eval [d]) at 2 by (cbn [eval]; lia).
  apply repr_block; try easy; [| unfold trimmed; cbn; lia].
  constructor; [red; lia | auto].
Qed.

Lemma repr_nil : repr (block false []) 0.
Proof. apply (repr_block false []); auto; [easy | unfold trimmed; cbn; lia]. Qed.

Section CopyFacts.
Context {heap : Heap}.

Lemma bignum_destructive_copy_block neg1 ds neg2 es :
  fits ds -> (length ds <= length es)%nat ->
  bignum_destructive_copy (block neg1 ds) (block neg2 es)
  = block neg2 (ds ++ skipn (length ds) es).
Proof.
  intros F L. unfold bignum_destructive_copy. autorewrite with bignum.
  unfold store_digits, block. cbn [bn_header bn_digits]. do 3 f_equal.
  rewrite length_app, length_skipn. lia.
Qed.

Lemma bignum_new_sign_block neg ds neg' :
  fits ds -> bignum_new_sign (block neg ds) neg' = Some (block neg' ds).
Proof.
  intros F. unfold bignum_new_sign. autorewrite with bignum.
  rewrite bignum_allocate_some by (red in F; lia). cbn [obind].
  rewrite bignum_destructive_copy_block by (rewrite ?length_fresh; auto; lia).
  rewrite skipn_all2, app_nil_r by (rewrite length_fresh; lia). reflexivity.
Qed.

Lemma bignum_copy_block neg ds : fits ds -> bignum_copy (block neg ds) = Some (block neg ds).
Proof.
  intros F. rewrite <- (bignum_new_sign_block neg ds neg F) at 1.
  unfold bignum_copy, bignum_new_sign. now autorewrite with bignum.
Qed.

Lemma bignum_maybe_new_sign_block neg ds neg' :
  fits ds -> bignum_maybe_new_sign (block neg ds) neg' = Some (block neg' ds).
Proof.
  intros F. unfold bignum_maybe_new_sign.
  change (let* result := bignum_allocate (BIGNUM_LENGTH (block neg ds)) neg' in
    Some (bignum_destructive_copy (block neg ds) result)) with (bignum_new_sign (block neg ds) neg').
  rewrite bignum_new_sign_block by assumption. autorewrite with bignum.
  now destruct neg, neg'.
Qed.

Lemma bignum_digit_to_bignum_repr d neg :
  is_digit d -> exists r, bignum_digit_to_bignum d neg = Some r /\ repr r (sign neg d).
Proof.
  intros Hd. unfold bignum_digit_to_bignum. destruct (Z.eqb_spec d 0) as [-> |].
  - eexists. split; [reflexivity |]. rewrite sign_zero. apply repr_nil.
  - rewrite bignum_allocate_store by (unfold fits; cbn; lia).
    eexists. split; [reflexivity |]. apply repr_digit. red in Hd. lia.
Qed.

End CopyFacts.

#[export] Hint Rewrite @bignum_new_sign_block @bignum_copy_block
  @bignum_maybe_new_sign_block using assumption : bignum.

(** ** Facts about [repr] *)

Lemma repr_zero_inv ds : digits_ok ds -> trimmed ds -> eval ds = 0 -> ds = [].
Proof.
  intros Hok Ht E. destruct ds as [|d ds]; [reflexivity |].
  pose proof (eval_trimmed_pos (d :: ds) Hok Ht ltac:(discriminate)). lia.
Qed.

Lemma repr_ZERO_P b z : repr b z -> BIGNUM_ZERO_P b = (z =? 0).
Proof.
  intros (neg & ds & -> & Hok & F & Ht & Hneg & ->). autorewrite with bignum.
  destruct ds as [|d ds]; [now rewrite Hneg |].
  assert (0 < eval (d :: ds)) by (apply eval_trimmed_pos; auto; discriminate).
  destruct (Z.eqb_spec (Z.of_nat (length (d :: ds))) 0); [cbn in *; lia |].
  destruct (Z.eqb_spec (sign neg (eval (d :: ds))) 0); [| reflexivity].
  destruct neg; cbn [sign] in *; lia.
Qed.

Lemma repr_NEGATIVE_P b z : repr b z -> BIGNUM_NEGATIVE_P b = (z <? 0).
Proof.
  intros (neg & ds & -> & Hok & F & Ht & Hneg & ->). autorewrite with bignum.
  destruct ds as [|d ds]; [now rewrite Hneg |].
  assert (0 < eval (d :: ds)) by (apply eval_trimmed_pos; auto; discriminate).
  destruct (Z.ltb_spec (sign neg (eval (d :: ds))) 0); destruct neg; cbn [sign] in *; lia.
Qed.

Lemma trimmed_lower ds :
  digits_ok ds -> BIGNUM_RADIX ^ (Z.of_nat (length ds) - 1) <= eval ds -> trimmed ds.
Proof.
  intros Hok Hle. destruct ds as [|d0 ds0]; [unfold trimmed; cbn; lia |].
  destruct (exists_last (l := d0 :: ds0)) as [ds [d E]]; [discriminate |].
  rewrite E in *. apply trimmed_snoc. intros ->.
  apply Forall_app in Hok as [Hok _]. pose proof (eval_range ds Hok).
  rewrite eval_snoc, length_app in Hle. cbn [length] in Hle.
  replace (Z.of_nat (length ds + 1) - 1) with (Z.of_nat (length ds)) in Hle by lia. lia.
Qed.

(** Two canonical bignums with the same value are the same block. *)
Lemma repr_unique b b' z : repr b z -> repr b' z -> b = b'.
Proof.
  intros (neg & ds & -> & Hok & F & Ht & Hneg & ->)
    (neg' & ds' & -> & Hok' & F' & Ht' & Hneg' & E).
  pose proof (eval_nonneg ds Hok). pose proof (eval_nonneg ds' Hok').
  assert (Ev : eval ds = eval ds') by (destruct neg, neg'; cbn [sign] in E; lia).
  assert (El : length ds = length ds').
  { destruct (Nat.lt_trichotomy (length ds) (length ds')) as [L | [L | L]]; [| exact L |].
    - pose proof (eval_length_lt ds ds' Hok Hok' Ht' L). lia.
    - pose proof (eval_length_lt ds' ds Hok' Hok Ht L). lia. }
  assert (ds = ds') as <- by (now apply eval_inj). f_equal.
  destruct ds as [|d ds]; [now rewrite Hneg, Hneg' |].
  assert (0 < eval (d :: ds)) by (apply eval_trimmed_pos; auto; discriminate).
  destruct neg, neg'; cbn [sign] in *; auto; lia.
Qed.

Lemma repr_fun b z z' : repr b z -> repr b z' -> z = z'.
Proof.
  intros (neg & ds & -> & _ & F & _ & _ & ->) (neg' & ds' & E & _ & F' & _ & _ & ->).
  assert (neg = neg') as <-.
  { rewrite <- (BIGNUM_NEGATIVE_P_block neg ds F), E. now apply BIGNUM_NEGATIVE_P_block. }
  unfold block in E. now injection E as _ ->.
Qed.

(** ** Comparison *)

Definition comparison_of (x y : Z) : bignum_comparison :=
  match x ?= y with
  | Eq => bignum_comparison_equal
  | Lt => bignum_comparison_less
  | Gt => bignum_comparison_greater
  end.

Lemma comparison_of_spec x y (P : bignum_comparison -> Prop) :
  (x = y -> P bignum_comparison_equal) ->
  (x < y -> P bignum_comparison_less) ->
  (y < x -> P bignum_comparison_greater) ->
  P (comparison_of x y).
Proof. intros. unfold comparison_of. destruct (Z.compare_spec x y); auto. Qed.

Lemma equal_scan_spec xs : forall ys,
  length xs = length ys -> equal_scan xs ys = true <-> xs = ys.
Proof.
  induction xs as [|x xs IH]; intros [|y ys] L; try discriminate; cbn [equal_scan]; [tauto |].
  destruct (Z.eqb_spec x y) as [-> | N]; cbn [negb].
  - rewrite IH by (cbn in L; lia). split; [now intros -> | now intros [= ->]].
  - split; [discriminate | now intros [= ? _]].
Qed.

Lemma compare_scan_app xs x y : forall ys,
  length xs = length ys ->
  compare_scan (xs ++ [x]) (ys ++ [y])
  = match compare_scan xs ys with
    | bignum_comparison_equal => compare_scan [x] [y]
    | c => c
    end.
Proof.
  induction xs as [|a xs IH]; intros [|b ys] L; try discriminate; cbn [app]; [reflexivity |].
  cbn [compare_scan]. rewrite IH by now injection L.
  destruct (a <? b); [reflexivity |]. destruct (b <? a); reflexivity.
Qed.

Lemma compare_scan_eval xs : forall ys,
  digits_ok xs -> digits_ok ys -> length xs = length ys ->
  compare_scan (rev xs) (rev ys) = comparison_of (eval xs) (eval ys).
Proof.
  induction xs as [|x xs IH]; intros [|y ys] Hx Hy L; try discriminate; [reflexivity |].
  inversion_clear Hx as [|? ? Hx1 Hxs]. inversion_clear Hy as [|? ? Hy1 Hys].
  cbn [rev length eval] in *. rewrite compare_scan_app by (rewrite !length_rev; lia).
  rewrite IH by (auto; lia). red in Hx1, Hy1. cbn [compare_scan].
  unfold comparison_of.
  destruct (Z.compare_spec (eval xs) (eval ys)) as [E | E | E];
    destruct (Z.compare_spec (x + BIGNUM_RADIX * eval xs) (y + BIGNUM_RADIX * eval ys));
    try lia; repeat case_if; auto; lia.
Qed.

Lemma bignum_compare_unsigned_block neg xs neg' ys :
  digits_ok xs -> fits xs -> trimmed xs -> digits_ok ys -> fits ys -> trimmed ys ->
  bignum_compare_unsigned (block neg xs) (block neg' ys) = comparison_of (eval xs) (eval ys).
Proof.
  intros Hx Fx Tx Hy Fy Ty. unfold bignum_compare_unsigned. autorewrite with bignum.
  destruct (Z.ltb_spec (Z.of_nat (length xs)) (Z.of_nat (length ys))).
  - assert (eval xs < eval ys) by (apply eval_length_lt; auto; lia).
    unfold comparison_of. now destruct (Z.compare_spec (eval xs) (eval ys)); try lia.
  - destruct (Z.ltb_spec (Z.of_nat (length ys)) (Z.of_nat (length xs))).
    + assert (eval ys < eval xs) by (apply eval_length_lt; auto; lia).
      unfold comparison_of. now destruct (Z.compare_spec (eval xs) (eval ys)); try lia.
    + apply compare_scan_eval; auto; lia.
Qed.

Lemma bignum_test_repr b z : repr b z -> bignum_test b = comparison_of z 0.
Proof.
  intros H. unfold bignum_test. rewrite (repr_ZERO_P b z H), (repr_NEGATIVE_P b z H).
  apply comparison_of_spec; intros; repeat case_if; auto; lia.
Qed.

Lemma bignum_compare_repr x y a b :
  repr x a -> repr y b -> bignum_compare x y = comparison_of a b.
Proof.
  intros Hx Hy. unfold bignum_compare.
  rewrite (repr_ZERO_P x a Hx), (repr_NEGATIVE_P x a Hx), (repr_ZERO_P y b Hy), (repr_NEGATIVE_P y b Hy).
  destruct Hx as (n1 & xs & -> & Okx & Fx & Tx & Nx & ->).
  destruct Hy as (n2 & ys & -> & Oky & Fy & Ty & Ny & ->).
  rewrite !bignum_compare_unsigned_block by assumption.
  pose proof (eval_nonneg xs Okx). pose proof (eval_nonneg ys Oky).
  unfold comparison_of, sign.
  destruct n1, n2; repeat case_if;
    repeat match goal with |- context [?u ?= ?v] => destruct (Z.compare_spec u v) end;
    auto; lia.
Qed.

Lemma bignum_equal_p_repr x y a b :
  repr x a -> repr y b -> bignum_equal_p x y = (a =? b).
Proof.
  intros Hx Hy.
  assert (E : bignum_equal_p x y = true <-> x = y).
  { unfold bignum_equal_p, bignum_equal_p_unsigned.
    destruct Hx as (n1 & xs & -> & Okx & Fx & Tx & Nx & _).
    destruct Hy as (n2 & ys & -> & Oky & Fy & Ty & Ny & _).
    autorewrite with bignum.
    destruct (Z.eqb_spec (Z.of_nat (length xs)) 0) as [L0 | L0].
    - destruct xs; [| cbn in L0; lia]. rewrite Nx by auto.
      destruct (Z.eqb_spec (Z.of_nat (length ys)) 0) as [L1 | L1].
      + destruct ys; [| cbn in L1; lia]. now rewrite Ny by auto.
      + split; [discriminate |]. unfold block. now intros [= _ <-].
    - destruct (Z.eqb_spec (Z.of_nat (length ys)) 0) as [L1 | L1]; cbn [negb andb].
      + split; [discriminate |]. unfold block. intros [= _ ->]. lia.
      + destruct (Z.eqb_spec (Z.of_nat (length xs)) (Z.of_nat (length ys))) as [L | L]; cbn [negb].
        * rewrite andb_true_iff, equal_scan_spec by lia. split.
          -- intros [N ->]. f_equal. now destruct n1, n2.
          -- intros B. assert (Dn := f_equal BIGNUM_NEGATIVE_P B).
             rewrite !BIGNUM_NEGATIVE_P_block in Dn by assumption.
             unfold block in B. injection B as _ ->. now destruct n1; subst.
        * rewrite andb_false_r. split; [discriminate |]. unfold block. intros [= _ ->]. lia. }
  destruct (Z.eqb_spec a b) as [-> | N].
  - apply E. eapply repr_unique; eassumption.
  - apply not_true_is_false. rewrite E. intros ->. apply N. eapply repr_fun; eassumption.
Qed.

(** ** Concrete blocks *)

Ltac concrete_digits := repeat (apply Forall_cons; [unfold is_digit; lia |]); apply Forall_nil.

(** A literal block denotes the value of its digits. *)
Ltac concrete_repr :=
  lazymatch goal with
  | |- repr (block ?n ?ds) ?z =>
      change z with (sign n (eval ds)); apply repr_block;
      [ concrete_digits | unfold fits; vm_compute; discriminate
      | unfold trimmed; cbn [last]; lia | discriminate ]
  end.

Ltac concrete_room := unfold room; vm_compute; discriminate.

(** ** Properties *)

(** on canonical bignums [bignum_compare], [bignum_test] and
    [bignum_equal_p] decide the order and the equality of the integers they
    denote, and an integer has one canonical block only. *)
Theorem bignum_comparisons x y a b :
  repr x a -> repr y b ->
  (bignum_compare x y = bignum_comparison_less <-> a < b)
  /\ (bignum_compare x y = bignum_comparison_equal <-> a = b)
  /\ (bignum_compare x y = bignum_comparison_greater <-> b < a)
  /\ (bignum_test x = bignum_comparison_less <-> a < 0)
  /\ (bignum_test x = bignum_comparison_equal <-> a = 0)
  /\ (bignum_equal_p x y = true <-> a = b)
  /\ (a = b <-> x = y).
Proof.
  intros Hx Hy. rewrite (bignum_compare_repr x y a b), (bignum_test_repr x a),
    (bignum_equal_p_repr x y a b), Z.eqb_eq by assumption.
  assert (U : a = b <-> x = y)
    by (split; intros; subst; [eapply repr_unique | eapply repr_fun]; eassumption).
  unfold comparison_of.
  destruct (Z.compare_spec a b), (Z.compare_spec a 0); repeat split; intros; try easy;
    try lia; now apply U.
Qed.

Lemma bignum_comparisons_witness :
  repr (block true [3; 7]) (- (3 + BIGNUM_RADIX * 7)) /\ repr (block false [9]) 9
  /\ bignum_compare (block true [3; 7]) (block false [9]) = bignum_comparison_less.
Proof.
  assert (Hx : repr (block true [3; 7]) (- (3 + BIGNUM_RADIX * 7))) by concrete_repr.
  assert (Hy : repr (block false [9]) 9) by concrete_repr.
  split; [exact Hx |]. split; [exact Hy |].
  apply (bignum_comparisons _ _ _ _ Hx Hy). lia.
Defined.

(** C29: [bignum_trim] turns any well-formed block, whatever leading zeros it
    has, into the canonical block of the same integer; on a canonical block it
    changes nothing. *)
Theorem bignum_trim_canonical b z :
  denotes b z -> (BIGNUM_LENGTH b = 0 -> BIGNUM_NEGATIVE_P b = false) ->
  repr (bignum_trim b) z /\ (repr b z -> bignum_trim b = b).
Proof.
  intros (neg & ds & -> & O & F & ->) H0. rewrite BIGNUM_LENGTH_block, BIGNUM_NEGATIVE_P_block in H0 by exact F.
  assert (R : repr (bignum_trim (block neg ds)) (sign neg (eval ds))).
  { apply trim_repr; auto. intros ->. now apply H0. }
  split; [exact R |]. intros C. eapply repr_unique; eassumption.
Qed.

Lemma bignum_trim_canonical_witness :
  denotes (block true [5; 0; 0]) (-5) /\ repr (bignum_trim (block true [5; 0; 0])) (-5).
Proof.
  assert (D : denotes (block true [5; 0; 0]) (-5)).
  { exists true, [5; 0; 0]. split; [reflexivity |]. split; [concrete_digits |].
    split; [unfold fits; vm_compute; discriminate | reflexivity]. }
  split; [exact D |]. apply (bignum_trim_canonical _ _ D). vm_compute. discriminate.
Defined.
