(* ===== verification/BignumAdd.v ===== *)
(** * Bignum addition, subtraction and negation (src/src/microcode/bignum.c)

    The digit loops of [bignum_add_unsigned] and [bignum_subtract_unsigned]
    with their carry and borrow propagation, and the signed operations built
    on them. *)

From Stdlib Require Import ZArith List Lia Bool.
From S2P Require Import Prelude Bits Bignum.
Import ListNotations.

(** ** Definitions *)

(** The loop over the digits of [y].  Result: the digits written, what is
    left of [x], the carry.  ([y] is never longer than [x].) *)
Fixpoint add_digits (xs ys : list Z) (carry : Z) : list Z * list Z * Z :=
  match ys, xs with
  | y :: ys, x :: xs =>
      let sum := ((x + y)%SL + carry)%SL in
      let '(digit, carry) :=
        if ulong sum <? BIGNUM_RADIX then (sum, 0) else ((sum - BIGNUM_RADIX)%SL, 1) in
      let '(rs, rest, carry) := add_digits xs ys carry in
      (digit :: rs, rest, carry)
  | _, _ => ([], xs, carry)
  end.

(** The loop that propagates a carry of 1 into the rest of [x]. *)
Fixpoint add_carry (xs : list Z) : list Z * list Z * Z :=
  match xs with
  | [] => ([], [], 1)
  | x :: xs =>
      let sum := (x + 1)%SL in
      if ulong sum <? BIGNUM_RADIX then ([sum], xs, 0)
      else let '(rs, rest, carry) := add_carry xs in
           ((sum - BIGNUM_RADIX)%SL :: rs, rest, carry)
  end.

Fixpoint subtract_digits (xs ys : list Z) (borrow : Z) : list Z * list Z * Z :=
  match ys, xs with
  | y :: ys, x :: xs =>
      let difference := ((x - y)%SL - borrow)%SL in
      let '(digit, borrow) :=
        if difference <? 0 then ((difference + BIGNUM_RADIX)%SL, 1) else (difference, 0) in
      let '(rs, rest, borrow) := subtract_digits xs ys borrow in
      (digit :: rs, rest, borrow)
  | _, _ => ([], xs, borrow)
  end.

Fixpoint subtract_borrow (xs : list Z) (borrow : Z) : list Z * list Z * Z :=
  match xs with
  | [] => ([], [], borrow)
  | x :: xs =>
      let difference := (x - borrow)%SL in
      if difference <? 0 then
        let '(rs, rest, borrow) := subtract_borrow xs borrow in
        ((difference + BIGNUM_RADIX)%SL :: rs, rest, borrow)
      else ([difference], xs, 0)
  end.

Section Operations.
Context {heap : Heap}.

Definition bignum_add_unsigned (x y : bignum) (negative_p : bool) : option bignum :=
  let '(x, y) := if BIGNUM_LENGTH x <? BIGNUM_LENGTH y then (y, x) else (x, y) in
  let x_length := BIGNUM_LENGTH x in
  let* r := bignum_allocate (x_length + 1)%SL negative_p in
  let '(rs1, xs, carry) := add_digits (digits_of x) (digits_of y) 0 in
  let '(rs2, xs, carry) :=
    if negb (carry =? 0) then add_carry xs else ([], xs, carry) in
  let rs := rs1 ++ rs2 ++ xs in
  if negb (carry =? 0) then Some (store_digits r (rs ++ [1]))
  else bignum_shorten_length (store_digits r rs) x_length.

Definition bignum_subtract_unsigned (x y : bignum) : option bignum :=
  match bignum_compare_unsigned x y with
  | bignum_comparison_equal => Some bignum_make_zero
  | c =>
      let '(x, y, negative_p) :=
        match c with
        | bignum_comparison_less => (y, x, true)
        | _ => (x, y, false)
        end in
      let x_length := BIGNUM_LENGTH x in
      let* r := bignum_allocate x_length negative_p in
      let '(rs1, xs, borrow) := subtract_digits (digits_of x) (digits_of y) 0 in
      let '(rs2, xs, borrow) :=
        if negb (borrow =? 0) then subtract_borrow xs borrow else ([], xs, borrow) in
      assert* borrow =? 0 in
      Some (bignum_trim (store_digits r (rs1 ++ rs2 ++ xs)))
  end.

Definition bignum_add (x y : bignum) : option bignum :=
  if BIGNUM_ZERO_P x then Some y
  else if BIGNUM_ZERO_P y then Some x
  else if BIGNUM_NEGATIVE_P x then
    if BIGNUM_NEGATIVE_P y then bignum_add_unsigned x y true
    else bignum_subtract_unsigned y x
  else
    if BIGNUM_NEGATIVE_P y then bignum_subtract_unsigned x y
    else bignum_add_unsigned x y false.

Definition bignum_subtract (x y : bignum) : option bignum :=
  if BIGNUM_ZERO_P x then
    if BIGNUM_ZERO_P y then Some y
    else bignum_new_sign y (negb (BIGNUM_NEGATIVE_P y))
  else if BIGNUM_ZERO_P y then Some x
  else if BIGNUM_NEGATIVE_P x then
    if BIGNUM_NEGATIVE_P y then bignum_subtract_unsigned y x
    else bignum_add_unsigned x y true
  else
    if BIGNUM_NEGATIVE_P y then bignum_add_unsigned x y false
    else bignum_subtract_unsigned x y.

Definition bignum_negate (x : bignum) : option bignum :=
  if BIGNUM_ZERO_P x then Some x
  else bignum_new_sign x (negb (BIGNUM_NEGATIVE_P x)).

(** In the bitwise section of bignum.c: [~ x = -1 - x]. *)
Definition bignum_bitwise_not (b : bignum) : option bignum :=
  bignum_subtract (bignum_make_one true) b.

End Operations.

(** ** The digit loops *)

Lemma add_digits_spec xs : forall ys carry,
  digits_ok xs -> digits_ok ys -> (length ys <= length xs)%nat -> 0 <= carry <= 1 ->
  let '(rs, rest, c) := add_digits xs ys carry in
  digits_ok rs /\ digits_ok rest /\ 0 <= c <= 1
  /\ length rs = length ys /\ (length rest = length xs - length ys)%nat
  /\ eval rs + BIGNUM_RADIX ^ Z.of_nat (length rs) * (eval rest + c)
     = eval xs + eval ys + carry.
Proof.
  induction xs as [|x xs IH]; intros [|y ys] carry Hx Hy L Hc; try (cbn in L; lia);
    cbn [add_digits].
  1,2: cbn [length eval]; change (Z.of_nat 0) with 0; rewrite Z.pow_0_r; repeat split; auto; lia.
  inversion_clear Hx as [|? ? Hx1 Hxs]. inversion_clear Hy as [|? ? Hy1 Hys].
  cbn [length] in L. red in Hx1, Hy1. unwrap.
  destruct (Z.ltb_spec (x + y + carry) BIGNUM_RADIX) as [H | H].
  - specialize (IH ys 0 Hxs Hys ltac:(lia) ltac:(lia)).
    destruct (add_digits xs ys 0) as [[rs rest] c].
    destruct IH as (I1 & I2 & I3 & I4 & I5 & I6).
    cbn [length eval]. rewrite Nat2Z.inj_succ, Z.pow_succ_r by lia.
    repeat split; auto; try lia. constructor; auto. red. lia.
  - specialize (IH ys 1 Hxs Hys ltac:(lia) ltac:(lia)).
    destruct (add_digits xs ys 1) as [[rs rest] c].
    destruct IH as (I1 & I2 & I3 & I4 & I5 & I6).
    cbn [length eval]. rewrite Nat2Z.inj_succ, Z.pow_succ_r by lia. unwrap.
    repeat split; auto; try lia. constructor; auto. red. lia.
Qed.

Lemma add_carry_spec xs :
  digits_ok xs ->
  let '(rs, rest, c) := add_carry xs in
  digits_ok rs /\ digits_ok rest /\ length (rs ++ rest) = length xs
  /\ (c = 0 \/ c = 1)
  /\ eval (rs ++ rest) + BIGNUM_RADIX ^ Z.of_nat (length xs) * c = eval xs + 1.
Proof.
  induction 1 as [|x xs Hx Hxs IH]; cbn [add_carry].
  - cbn. auto 6.
  - red in Hx. unwrap. destruct (Z.ltb_spec (x + 1) BIGNUM_RADIX) as [H | H].
    + cbn [app eval length]. repeat split; auto; try lia.
      constructor; [red; lia | auto].
    + destruct (add_carry xs) as [[rs rest] c]. destruct IH as (I1 & I2 & I3 & I4 & I5).
      cbn [app length eval]. rewrite Nat2Z.inj_succ, Z.pow_succ_r by lia. unwrap.
      repeat split; auto; try lia. constructor; auto. red. lia.
Qed.

Lemma subtract_digits_spec xs : forall ys borrow,
  digits_ok xs -> digits_ok ys -> (length ys <= length xs)%nat -> 0 <= borrow <= 1 ->
  let '(rs, rest, b) := subtract_digits xs ys borrow in
  digits_ok rs /\ digits_ok rest /\ (b = 0 \/ b = 1)
  /\ length rs = length ys /\ (length rest = length xs - length ys)%nat
  /\ eval rs + BIGNUM_RADIX ^ Z.of_nat (length rs) * (eval rest - b)
     = eval xs - eval ys - borrow.
Proof.
  induction xs as [|x xs IH]; intros [|y ys] borrow Hx Hy L Hc; try (cbn in L; lia);
    cbn [subtract_digits].
  1,2: cbn [length eval]; change (Z.of_nat 0) with 0; rewrite Z.pow_0_r; repeat split; auto; lia.
  inversion_clear Hx as [|? ? Hx1 Hxs]. inversion_clear Hy as [|? ? Hy1 Hys].
  cbn [length] in L. red in Hx1, Hy1. unwrap.
  destruct (Z.ltb_spec (x - y - borrow) 0) as [H | H].
  - specialize (IH ys 1 Hxs Hys ltac:(lia) ltac:(lia)).
    destruct (subtract_digits xs ys 1) as [[rs rest] b].
    destruct IH as (I1 & I2 & I3 & I4 & I5 & I6).
    cbn [length eval]. rewrite Nat2Z.inj_succ, Z.pow_succ_r by lia. unwrap.
    repeat split; auto; try lia. constructor; auto. red. lia.
  - specialize (IH ys 0 Hxs Hys ltac:(lia) ltac:(lia)).
    destruct (subtract_digits xs ys 0) as [[rs rest] b].
    destruct IH as (I1 & I2 & I3 & I4 & I5 & I6).
    cbn [length eval]. rewrite Nat2Z.inj_succ, Z.pow_succ_r by lia.
    repeat split; auto; try lia. constructor; auto. red. lia.
Qed.

Lemma subtract_borrow_spec xs :
  digits_ok xs ->
  let '(rs, rest, b) := subtract_borrow xs 1 in
  digits_ok rs /\ digits_ok rest /\ length (rs ++ rest) = length xs
  /\ (b = 0 \/ b = 1)
  /\ eval (rs ++ rest) - BIGNUM_RADIX ^ Z.of_nat (length xs) * b = eval xs - 1.
Proof.
  induction 1 as [|x xs Hx Hxs IH]; cbn [subtract_borrow].
  - cbn. auto 6.
  - red in Hx. unwrap. destruct (Z.ltb_spec (x - 1) 0) as [H | H].
    + destruct (subtract_borrow xs 1) as [[rs rest] b]. destruct IH as (I1 & I2 & I3 & I4 & I5).
      cbn [app length eval]. rewrite Nat2Z.inj_succ, Z.pow_succ_r by lia. unwrap.
      repeat split; auto; try lia. constructor; auto. red. lia.
    + cbn [app eval length]. repeat split; auto; try lia.
      constructor; [red; lia | auto].
Qed.

(** The whole of the addition, as a function on digit lists. *)
Lemma add_loops_spec xs ys :
  digits_ok xs -> digits_ok ys -> (length ys <= length xs)%nat ->
  let '(rs1, rest, c1) := add_digits xs ys 0 in
  let '(rs2, rest, c) := if negb (c1 =? 0) then add_carry rest else ([], rest, c1) in
  let rs := rs1 ++ rs2 ++ rest in
  digits_ok rs /\ length rs = length xs /\ (c = 0 \/ c = 1)
  /\ eval rs + BIGNUM_RADIX ^ Z.of_nat (length xs) * c = eval xs + eval ys.
Proof.
  intros Hx Hy L. pose proof (add_digits_spec xs ys 0 Hx Hy L ltac:(lia)) as S1.
  destruct (add_digits xs ys 0) as [[rs1 rest] c1].
  destruct S1 as (O1 & O2 & Hc1 & L1 & L2 & E1).
  assert (Lx : Z.of_nat (length xs) = Z.of_nat (length rs1) + Z.of_nat (length rest)) by lia.
  destruct (Z.eqb_spec c1 0) as [-> | Hn]; cbn [negb].
  - cbn [app]. rewrite eval_app, length_app. repeat split; auto; try lia.
    apply Forall_app; auto.
  - pose proof (add_carry_spec rest O2) as S2. destruct (add_carry rest) as [[rs2 rest'] c].
    destruct S2 as (O3 & O4 & L3 & Hc & E2).
    rewrite eval_app, !length_app, Lx, Z.pow_add_r by lia.
    rewrite length_app in L3. repeat split; try lia.
    + rewrite !Forall_app. auto.
    + replace c1 with 1 in E1 by lia. rewrite <- E2 in E1. lia.
Qed.

Lemma subtract_loops_spec xs ys :
  digits_ok xs -> digits_ok ys -> (length ys <= length xs)%nat -> eval ys < eval xs ->
  let '(rs1, rest, b1) := subtract_digits xs ys 0 in
  let '(rs2, rest, b) := if negb (b1 =? 0) then subtract_borrow rest b1 else ([], rest, b1) in
  let rs := rs1 ++ rs2 ++ rest in
  digits_ok rs /\ length rs = length xs /\ b = 0 /\ eval rs = eval xs - eval ys.
Proof.
  intros Hx Hy L Hlt. pose proof (subtract_digits_spec xs ys 0 Hx Hy L ltac:(lia)) as S1.
  destruct (subtract_digits xs ys 0) as [[rs1 rest] b1].
  destruct S1 as (O1 & O2 & Hb1 & L1 & L2 & E1).
  destruct (Z.eqb_spec b1 0) as [-> | Hn]; cbn [negb].
  - cbn [app]. rewrite eval_app, length_app. repeat split; auto; try lia.
    apply Forall_app; auto.
  - replace b1 with 1 in * by lia.
    pose proof (subtract_borrow_spec rest O2) as S2.
    destruct (subtract_borrow rest 1) as [[rs2 rest'] b].
    destruct S2 as (O3 & O4 & L3 & Hb & E2).
    assert (O5 : digits_ok (rs2 ++ rest')) by (apply Forall_app; auto).
    pose proof (eval_range _ O1) as R1. pose proof (eval_range _ O5) as R5.
    rewrite L3 in R5. rewrite eval_app, length_app, L3.
    assert (b = 0) as ->.
    { destruct Hb as [-> | ->]; [reflexivity | exfalso].
      rewrite <- E2 in E1. nia. }
    repeat split; try lia. apply Forall_app; auto.
Qed.

(** ** The operations *)

Section OperationFacts.
Context {heap : Heap}.

Lemma room_block neg ds k : fits ds -> room (block neg ds) k -> Z.of_nat (length ds) + k <= BIGNUM_LENGTH_MAX.
Proof. intros F. unfold room. now rewrite BIGNUM_LENGTH_block. Qed.

Lemma length_max_long : BIGNUM_LENGTH_MAX < BIGNUM_RADIX.
Proof. reflexivity. Qed.

Lemma eval_grow_trimmed xs rs k :
  digits_ok xs -> trimmed xs -> xs <> [] -> digits_ok rs -> length rs = length xs ->
  0 <= k -> eval rs = eval xs + k -> trimmed rs.
Proof.
  intros Hx Tx Nx Hr L Hk E. apply trimmed_lower; [assumption |].
  pose proof (eval_trimmed_lower xs Hx Tx Nx). rewrite L, E. lia.
Qed.

Lemma add_unsigned_ordered n1 xs n2 ys neg :
  digits_ok xs -> digits_ok ys -> trimmed xs -> xs <> [] ->
  fits xs -> fits ys -> (length ys <= length xs)%nat ->
  Z.of_nat (length xs) + 1 <= BIGNUM_LENGTH_MAX ->
  exists r, bignum_add_unsigned (block n1 xs) (block n2 ys) neg = Some r
    /\ repr r (sign neg (eval xs + eval ys)).
Proof.
  intros Hx Hy Tx Nx Fx Fy L Room. unfold bignum_add_unsigned.
  autorewrite with bignum. pose proof length_max_long.
  destruct (Z.ltb_spec (Z.of_nat (length xs)) (Z.of_nat (length ys))); [lia |].
  autorewrite with bignum. unwrap.
  rewrite bignum_allocate_some by lia. cbn [obind].
  pose proof (add_loops_spec xs ys Hx Hy L) as S.
  destruct (add_digits xs ys 0) as [[rs1 rest1] c1].
  destruct (if negb (c1 =? 0) then add_carry rest1 else ([], rest1, c1)) as [[rs2 rest] c].
  cbv zeta in S. destruct S as (O & Lr & Hc & E).
  set (rs := rs1 ++ rs2 ++ rest) in *.
  pose proof (eval_nonneg ys Hy). pose proof (radix_pow_pos (length xs)).
  destruct Hc as [-> | ->]; cbn [Z.eqb negb].
  - destruct (store_digits_prefix neg (fresh (Z.of_nat (length xs) + 1)) rs (length xs))
      as (es & -> & Les & Ees); try (rewrite length_fresh); try lia.
    rewrite length_fresh in Les.
    rewrite bignum_shorten_length_block; [| unfold fits; lia |].
    2:{ destruct xs; [easy | cbn [length] in *; lia]. }
    eexists. split; [reflexivity |]. rewrite Nat2Z.id, Ees, <- Lr, firstn_all.
    rewrite <- E, Z.mul_0_r, Z.add_0_r. apply repr_block; auto.
    + unfold fits. lia.
    + apply (eval_grow_trimmed xs rs (eval ys)); auto; lia.
    + intros Er. rewrite Er in Lr. destruct xs; easy.
  - eexists. split; [reflexivity |].
    rewrite store_digits_block by (rewrite length_app, length_fresh; cbn [length]; lia).
    rewrite <- E, <- Lr, Z.mul_comm, Z.mul_1_l, <- (Z.mul_1_r (_ ^ _)), <- eval_snoc.
    apply repr_block.
    + apply Forall_app. split; [exact O |]. repeat constructor; lia.
    + unfold fits. rewrite length_app. cbn [length]. lia.
    + apply trimmed_snoc. lia.
    + destruct rs; discriminate.
Qed.

Lemma bignum_add_unsigned_block n1 xs n2 ys neg :
  digits_ok xs -> digits_ok ys -> trimmed xs -> trimmed ys -> xs <> [] -> ys <> [] ->
  fits xs -> fits ys -> room (block n1 xs) 1 -> room (block n2 ys) 1 ->
  exists r, bignum_add_unsigned (block n1 xs) (block n2 ys) neg = Some r
    /\ repr r (sign neg (eval xs + eval ys)).
Proof.
  intros Hx Hy Tx Ty Nx Ny Fx Fy Rx%room_block Ry%room_block; try assumption.
  destruct (Nat.le_gt_cases (length ys) (length xs)) as [L | L].
  - now apply add_unsigned_ordered.
  - destruct (add_unsigned_ordered n2 ys n1 xs neg) as (r & Er & Hr); auto; [lia |].
    exists r. rewrite Z.add_comm. split; [| exact Hr]. rewrite <- Er.
    unfold bignum_add_unsigned. autorewrite with bignum.
    destruct (Z.ltb_spec (Z.of_nat (length xs)) (Z.of_nat (length ys))); [| lia].
    destruct (Z.ltb_spec (Z.of_nat (length ys)) (Z.of_nat (length xs))); [lia | reflexivity].
Qed.

(** The digit loops of the subtraction when the first argument is larger. *)
Lemma subtract_store xs ys neg :
  digits_ok xs -> digits_ok ys -> trimmed xs -> fits xs -> eval ys < eval xs ->
  (length ys <= length xs)%nat ->
  exists r,
    (let* r := bignum_allocate (Z.of_nat (length xs)) neg in
     let '(rs1, rest, borrow) := subtract_digits xs ys 0 in
     let '(rs2, rest, borrow) :=
       if negb (borrow =? 0) then subtract_borrow rest borrow else ([], rest, borrow) in
     assert* borrow =? 0 in
     Some (bignum_trim (store_digits r (rs1 ++ rs2 ++ rest)))) = Some r
    /\ repr r (sign neg (eval xs - eval ys)).
Proof.
  intros Hx Hy Tx Fx Hlt L. pose proof (subtract_loops_spec xs ys Hx Hy L Hlt) as S.
  rewrite bignum_allocate_some by (red in Fx; lia). cbn [obind].
  destruct (subtract_digits xs ys 0) as [[rs1 rest1] b1].
  destruct (if negb (b1 =? 0) then subtract_borrow rest1 b1 else ([], rest1, b1)) as [[rs2 rest] b].
  destruct S as (O & Lr & -> & E). eexists. split; [reflexivity |].
  rewrite store_digits_block by (rewrite length_fresh; lia). rewrite <- E.
  apply trim_repr; auto.
  - unfold fits in *. lia.
  - intros Er. rewrite Er in Lr. destruct xs; [| discriminate].
    pose proof (eval_nonneg ys Hy). cbn [eval] in Hlt. lia.
Qed.

Lemma repr_make_zero : repr bignum_make_zero 0.
Proof. apply repr_nil. Qed.

Lemma repr_make_one neg : repr (bignum_make_one neg) (if neg then -1 else 1).
Proof.
  rewrite bignum_make_one_block. pose proof (repr_digit neg 1 ltac:(lia)) as H.
  now destruct neg.
Qed.

Lemma bignum_subtract_unsigned_block n1 xs n2 ys :
  digits_ok xs -> digits_ok ys -> trimmed xs -> trimmed ys -> fits xs -> fits ys ->
  exists r, bignum_subtract_unsigned (block n1 xs) (block n2 ys) = Some r
    /\ repr r (eval xs - eval ys).
Proof.
  intros Hx Hy Tx Ty Fx Fy.
  assert (Len : forall us vs, digits_ok us -> digits_ok vs -> trimmed us ->
    eval vs < eval us -> trimmed vs -> (length vs <= length us)%nat).
  { intros us vs Hu Hv Tu Hlt Tv. destruct (Nat.le_gt_cases (length vs) (length us)); auto.
    pose proof (eval_length_lt us vs Hu Hv Tv ltac:(assumption)). lia. }
  unfold bignum_subtract_unsigned. rewrite bignum_compare_unsigned_block by assumption.
  unfold comparison_of. destruct (Z.compare_spec (eval xs) (eval ys)) as [E | E | E].
  - eexists. split; [reflexivity |]. rewrite E, Z.sub_diag. apply repr_make_zero.
  - autorewrite with bignum.
    destruct (subtract_store ys xs true) as (r & Er & Hr); auto.
    exists r. split; [exact Er |]. cbn [sign] in Hr. replace (eval xs - eval ys) with (- (eval ys - eval xs)) by ring. exact Hr.
  - autorewrite with bignum.
    destruct (subtract_store xs ys false) as (r & Er & Hr); auto. now exists r.
Qed.

(** [bignum_add] computes the sum, canonically. *)
Lemma bignum_add_repr x y a b :
  repr x a -> repr y b -> room x 1 -> room y 1 ->
  exists r, bignum_add x y = Some r /\ repr r (a + b).
Proof.
  intros Hx Hy Rx Ry. unfold bignum_add.
  rewrite (repr_ZERO_P x a Hx), (repr_ZERO_P y b Hy).
  destruct (Z.eqb_spec a 0) as [-> | Na]; [now exists y |].
  destruct (Z.eqb_spec b 0) as [-> | Nb]; [rewrite Z.add_0_r; now exists x |].
  destruct Hx as (n1 & xs & -> & Ox & Fx & Tx & Nx & ->).
  destruct Hy as (n2 & ys & -> & Oy & Fy & Ty & Ny & ->).
  assert (xs <> []) by (intros ->; now rewrite sign_zero in Na).
  assert (ys <> []) by (intros ->; now rewrite sign_zero in Nb).
  autorewrite with bignum. destruct n1, n2; cbn [sign].
  - destruct (bignum_add_unsigned_block true xs true ys true) as (r & E & Hr); auto.
    exists r. split; [exact E |]. cbn [sign] in Hr. now rewrite Z.opp_add_distr in Hr.
  - rewrite Z.add_comm. now apply bignum_subtract_unsigned_block.
  - now apply bignum_subtract_unsigned_block.
  - now apply bignum_add_unsigned_block.
Qed.

Lemma repr_new_sign x a neg :
  repr x a -> a <> 0 ->
  exists r, bignum_new_sign x neg = Some r /\ repr r (sign neg (Z.abs a)).
Proof.
  intros (n & ds & -> & O & F & T & N & ->) Na. autorewrite with bignum.
  eexists. split; [reflexivity |]. pose proof (eval_nonneg ds O).
  replace (Z.abs (sign n (eval ds))) with (eval ds) by (destruct n; cbn [sign]; lia).
  apply repr_block; auto. intros ->. now rewrite sign_zero in Na.
Qed.

Lemma bignum_negate_repr x a :
  repr x a -> exists r, bignum_negate x = Some r /\ repr r (- a).
Proof.
  intros Hx. unfold bignum_negate. rewrite (repr_ZERO_P x a Hx), (repr_NEGATIVE_P x a Hx).
  destruct (Z.eqb_spec a 0) as [-> | Na]; [now exists x |].
  destruct (repr_new_sign x a (negb (a <? 0)) Hx Na) as (r & E & Hr).
  exists r. split; [exact E |].
  destruct (Z.ltb_spec a 0); cbn [negb sign] in Hr.
  - now rewrite Z.abs_neq in Hr by lia.
  - now rewrite Z.abs_eq in Hr by lia.
Qed.

Lemma bignum_subtract_repr x y a b :
  repr x a -> repr y b -> room x 1 -> room y 1 ->
  exists r, bignum_subtract x y = Some r /\ repr r (a - b).
Proof.
  intros Hx Hy Rx Ry. unfold bignum_subtract.
  rewrite (repr_ZERO_P x a Hx), (repr_ZERO_P y b Hy).
  destruct (Z.eqb_spec a 0) as [-> | Na].
  { destruct (Z.eqb_spec b 0) as [-> | Nb]; [now exists y |].
    destruct (bignum_negate_repr y b Hy) as (r & E & Hr). exists r.
    unfold bignum_negate in E. rewrite (repr_ZERO_P y b Hy) in E.
    destruct (Z.eqb_spec b 0); [easy | now split]. }
  destruct (Z.eqb_spec b 0) as [-> | Nb]; [rewrite Z.sub_0_r; now exists x |].
  destruct Hx as (n1 & xs & -> & Ox & Fx & Tx & Nx & ->).
  destruct Hy as (n2 & ys & -> & Oy & Fy & Ty & Ny & ->).
  assert (xs <> []) by (intros ->; now rewrite sign_zero in Na).
  assert (ys <> []) by (intros ->; now rewrite sign_zero in Nb).
  autorewrite with bignum. destruct n1, n2; cbn [sign].
  - replace (- eval xs - - eval ys) with (eval ys - eval xs) by ring.
    now apply bignum_subtract_unsigned_block.
  - destruct (bignum_add_unsigned_block true xs false ys true) as (r & E & Hr); auto.
    exists r. split; [exact E |]. cbn [sign] in Hr.
    now replace (- eval xs - eval ys) with (- (eval xs + eval ys)) by ring.
  - replace (eval xs - - eval ys) with (eval xs + eval ys) by ring.
    now apply bignum_add_unsigned_block.
  - now apply bignum_subtract_unsigned_block.
Qed.

Lemma room_make_one neg : room (bignum_make_one neg) 1.
Proof. rewrite bignum_make_one_block. unfold room. rewrite BIGNUM_LENGTH_block by (unfold fits; cbn; lia). cbn. lia. Qed.

Lemma bignum_bitwise_not_repr x a :
  repr x a -> room x 1 -> exists r, bignum_bitwise_not x = Some r /\ repr r (Z.lnot a).
Proof.
  intros Hx Rx. unfold bignum_bitwise_not.
  destruct (bignum_subtract_repr (bignum_make_one true) x (-1) a) as (r & E & Hr);
    auto using room_make_one. { apply (repr_make_one true). }
  exists r. split; [exact E |]. now replace (Z.lnot a) with (-1 - a) by (unfold Z.lnot; lia).
Qed.

End OperationFacts.

(** ** Properties *)

(** C28: [bignum_add], [bignum_subtract] and [bignum_negate] never fail an
    assertion on canonical bignums with room for a carry, and return the
    canonical bignum of the exact sum, difference and opposite, whatever the
    signs and lengths of the operands and whatever the fresh memory holds. *)
Theorem bignum_addition {heap : Heap} x y a b :
  repr x a -> repr y b -> room x 1 -> room y 1 ->
  (exists r, bignum_add x y = Some r /\ repr r (a + b))
  /\ (exists r, bignum_subtract x y = Some r /\ repr r (a - b))
  /\ (exists r, bignum_negate x = Some r /\ repr r (- a)).
Proof.
  intros Hx Hy Rx Ry. split; [| split].
  - now apply bignum_add_repr.
  - now apply bignum_subtract_repr.
  - now apply bignum_negate_repr.
Qed.

Lemma bignum_addition_witness :
  let heap : Heap := fun _ => 77 in
  exists r, bignum_subtract (block false [0; 0; 1]) (block false [1]) = Some r
    /\ repr r (BIGNUM_RADIX * (BIGNUM_RADIX * 1) - 1).
Proof.
  intros heap.
  apply (bignum_addition (heap := heap) (block false [0; 0; 1]) (block false [1])
    (BIGNUM_RADIX * (BIGNUM_RADIX * 1)) 1);
    (concrete_repr || concrete_room).
Defined.
