(* ===== verification/BignumMul.v ===== *)
(** * Bignum multiplication (src/src/microcode/bignum.c)

    The schoolbook product on 62-bit digits computed with 31-bit half
    digits, the product by a half digit, and the in-place scaling and
    addition used when digits are read in another radix. *)

From Stdlib Require Import ZArith List Lia Bool.
From S2P Require Import Prelude Bits Bignum.
Import ListNotations.

(** ** Definitions *)

(** The loop over the digits of [y] for one digit of [x]; [rs] is the part
    of the result from [start_r] on. *)
Fixpoint multiply_row (x_digit_low x_digit_high : Z) (ys rs : list Z) (carry : Z) : list Z :=
  match rs with
  | [] => []
  | r :: rs =>
      match ys with
      | y_digit :: ys =>
          let y_digit_low := HD_LOW y_digit in
          let y_digit_high := HD_HIGH y_digit in
          let product_low :=
            ((r + (x_digit_low * y_digit_low)%SL)%SL + HD_LOW carry)%SL in
          let product_high :=
            ((((x_digit_high * y_digit_low)%SL + (x_digit_low * y_digit_high)%SL)%SL
              + HD_HIGH product_low)%SL + HD_HIGH carry)%SL in
          let digit := HD_CONS (HD_LOW product_high) (HD_LOW product_low) in
          let carry := ((x_digit_high * y_digit_high)%SL + HD_HIGH product_high)%SL in
          digit :: multiply_row x_digit_low x_digit_high ys rs carry
      | [] => (r + carry)%SL :: rs
      end
  end.

(** The loop over the digits of [x]; [start_r] moves up one digit each time. *)
Fixpoint multiply_rows (xs ys rs : list Z) : list Z :=
  match xs with
  | [] => rs
  | x_digit :: xs =>
      match multiply_row (HD_LOW x_digit) (HD_HIGH x_digit) ys rs 0 with
      | [] => []
      | r :: rs => r :: multiply_rows xs ys rs
      end
  end.

(** The digits written and the final carry. *)
Fixpoint scale_up_digits (factor : Z) (ds : list Z) (carry : Z) : list Z * Z :=
  match ds with
  | [] => ([], carry)
  | two_digits :: ds =>
      let product_low := ((factor * HD_LOW two_digits)%SL + HD_LOW carry)%SL in
      let product_high :=
        (((factor * HD_HIGH two_digits)%SL + HD_HIGH product_low)%SL + HD_HIGH carry)%SL in
      let '(es, carry) := scale_up_digits factor ds (HD_HIGH product_high) in
      (HD_CONS (HD_LOW product_high) (HD_LOW product_low) :: es, carry)
  end.

Definition bignum_destructive_scale_up (b : bignum) (factor : Z) : option bignum :=
  assert* (1 <? factor) && (ulong factor <? BIGNUM_RADIX_ROOT) in
  let '(es, carry) := scale_up_digits factor (digits_of b) 0 in
  assert* carry =? 0 in
  Some (store_digits b es).

(** The [while (1)] loop adding a carry of 1; [None] if it runs off the end. *)
Fixpoint increment_digits (ds : list Z) : option (list Z) :=
  match ds with
  | [] => None
  | d :: ds =>
      let digit := (d + 1)%SL in
      if ulong digit <? BIGNUM_RADIX then Some (digit :: ds)
      else let* es := increment_digits ds in Some ((digit - BIGNUM_RADIX)%SL :: es)
  end.

Definition bignum_destructive_add (b : bignum) (n : Z) : option bignum :=
  match digits_of b with
  | [] => None
  | d :: ds =>
      let digit := (d + n)%SL in
      if ulong digit <? BIGNUM_RADIX then Some (store_digits b (digit :: ds))
      else
        let* es := increment_digits ds in
        Some (store_digits b ((digit - BIGNUM_RADIX)%SL :: es))
  end.

Section Operations.
Context {heap : Heap}.

Definition bignum_multiply_unsigned (x y : bignum) (negative_p : bool) : option bignum :=
  let '(x, y) := if BIGNUM_LENGTH x <? BIGNUM_LENGTH y then (y, x) else (x, y) in
  let x_length := BIGNUM_LENGTH x in
  let y_length := BIGNUM_LENGTH y in
  let* r := bignum_allocate_zeroed (x_length + y_length)%SL negative_p in
  Some (bignum_trim (store_digits r (multiply_rows (digits_of x) (digits_of y) (digits_of r)))).

Definition bignum_multiply_unsigned_small_factor (x : bignum) (y : Z) (negative_p : bool)
  : option bignum :=
  let length_x := BIGNUM_LENGTH x in
  let* p := bignum_allocate (length_x + 1)%SL negative_p in
  let p := bignum_destructive_copy x p in
  let p := store_digits p (firstn (Z.to_nat length_x) (digits_of p) ++ [0]) in
  let* p := bignum_destructive_scale_up p y in
  Some (bignum_trim p).

(** The two tests on a one-digit factor, the same for [x] and for [y]. *)
Definition multiply_by_digit (digit : Z) (other : bignum) (negative_p : bool)
    (general : option bignum) : option bignum :=
  if digit =? 1 then bignum_maybe_new_sign other negative_p
  else if ulong digit <? BIGNUM_RADIX_ROOT then
    bignum_multiply_unsigned_small_factor other digit negative_p
  else general.

Definition bignum_multiply (x y : bignum) : option bignum :=
  let x_length := BIGNUM_LENGTH x in
  let y_length := BIGNUM_LENGTH y in
  let negative_p :=
    if BIGNUM_NEGATIVE_P x then negb (BIGNUM_NEGATIVE_P y) else BIGNUM_NEGATIVE_P y in
  if BIGNUM_ZERO_P x then Some x
  else if BIGNUM_ZERO_P y then Some y
  else
    let general :=
      if y_length =? 1 then
        multiply_by_digit (BIGNUM_REF y 0) x negative_p
          (bignum_multiply_unsigned x y negative_p)
      else bignum_multiply_unsigned x y negative_p in
    if x_length =? 1 then multiply_by_digit (BIGNUM_REF x 0) y negative_p general
    else general.

End Operations.

(** ** One digit times one digit *)

Lemma half_product a b :
  0 <= a < BIGNUM_RADIX_ROOT -> 0 <= b < BIGNUM_RADIX_ROOT ->
  0 <= a * b <= 4611686014132420609.
Proof. nia. Qed.

(** A sum of half-digit products, split in halves again. *)
Section MultiplyStep.
Variables xl xh yl yh r c : Z.
Hypothesis Hxl : 0 <= xl < BIGNUM_RADIX_ROOT.
Hypothesis Hxh : 0 <= xh < BIGNUM_RADIX_ROOT.
Hypothesis Hyl : 0 <= yl < BIGNUM_RADIX_ROOT.
Hypothesis Hyh : 0 <= yh < BIGNUM_RADIX_ROOT.
Hypothesis Hr : is_digit r.
Hypothesis Hc : is_digit c.

Let pl := ((r + (xl * yl)%SL)%SL + HD_LOW c)%SL.
Let ph := ((((xh * yl)%SL + (xl * yh)%SL)%SL + HD_HIGH pl)%SL + HD_HIGH c)%SL.
Let digit := HD_CONS (HD_LOW ph) (HD_LOW pl).
Let carry := ((xh * yh)%SL + HD_HIGH ph)%SL.

(** No intermediate value overflows, and the pair of digits is exact. *)
Lemma multiply_step :
  is_digit digit /\ is_digit carry /\
  digit + BIGNUM_RADIX * carry
  = (xh * BIGNUM_RADIX_ROOT + xl) * (yh * BIGNUM_RADIX_ROOT + yl) + r + c.
Proof using Hxl Hxh Hyl Hyh Hr Hc.
  pose proof (half_product xl yl Hxl Hyl). pose proof (half_product xl yh Hxl Hyh).
  pose proof (half_product xh yl Hxh Hyl). pose proof (half_product xh yh Hxh Hyh).
  pose proof (HD_LOW_range c). pose proof (HD_HIGH_range c Hc). pose proof (HD_split c).
  red in Hr, Hc. unfold is_digit.
  assert (Epl : pl = r + xl * yl + HD_LOW c) by (subst pl; unwrap; reflexivity).
  pose proof (HD_LOW_range pl). pose proof (HD_split pl).
  assert (0 <= HD_HIGH pl < 4294967296) by lia.
  assert (Eph : ph = xh * yl + xl * yh + HD_HIGH pl + HD_HIGH c)
    by (subst ph; unwrap; reflexivity).
  pose proof (HD_LOW_range ph). pose proof (HD_split ph).
  assert (0 <= HD_HIGH ph < 4294967296) by lia.
  assert (Ed : digit = HD_LOW ph * BIGNUM_RADIX_ROOT + HD_LOW pl)
    by (subst digit; apply HD_CONS_add; lia).
  assert (Ec : carry = xh * yh + HD_HIGH ph) by (subst carry; unwrap; reflexivity).
  clearbody carry digit ph pl.
  assert (E : digit + BIGNUM_RADIX * carry
    = (xh * BIGNUM_RADIX_ROOT + xl) * (yh * BIGNUM_RADIX_ROOT + yl) + r + c) by lia.
  repeat split; try lia.
Qed.
End MultiplyStep.

Lemma multiply_row_spec xl xh : 0 <= xl < BIGNUM_RADIX_ROOT -> 0 <= xh < BIGNUM_RADIX_ROOT ->
  forall ys lo k carry,
  digits_ok ys -> digits_ok lo -> length lo = length ys -> is_digit carry ->
  exists lo', multiply_row xl xh ys (lo ++ repeat 0 (S k)) carry = lo' ++ repeat 0 k
    /\ length lo' = S (length ys) /\ digits_ok lo'
    /\ eval lo' = eval lo + (xh * BIGNUM_RADIX_ROOT + xl) * eval ys + carry.
Proof.
  intros Hxl Hxh. induction ys as [|y ys IH]; intros lo k carry Hy Hlo L Hc.
  - destruct lo; [| discriminate]. cbn [app repeat multiply_row eval length].
    red in Hc. exists [carry]. unwrap. cbn [app eval length]. repeat split; auto; lia.
  - destruct lo as [|r lo]; [discriminate |].
    inversion_clear Hy as [|? ? Hy1 Hys]. inversion_clear Hlo as [|? ? Hr Hlo'].
    cbn [app multiply_row].
    pose proof (multiply_step xl xh (HD_LOW y) (HD_HIGH y) r carry Hxl Hxh
      (HD_LOW_range y) (HD_HIGH_range y Hy1) Hr Hc) as (D & C & E). cbv zeta in E.
    match goal with |- context [multiply_row _ _ ys _ ?c'] => set (carry' := c') in * end.
    match goal with |- context [HD_CONS ?h ?l :: _] => set (digit := HD_CONS h l) in * end.
    destruct (IH lo k carry' Hys Hlo' ltac:(cbn in L; lia) C) as (lo' & Elo & Ll & Ol & Ev).
    rewrite Elo. exists (digit :: lo'). cbn [app length eval].
    repeat split; auto.
    rewrite Ev. rewrite <- HD_split in E. clearbody digit carry'. lia.
Qed.

Lemma multiply_rows_spec ys : digits_ok ys -> forall xs lo,
  digits_ok xs -> digits_ok lo -> length lo = length ys ->
  let rs := multiply_rows xs ys (lo ++ repeat 0 (length xs)) in
  length rs = (length ys + length xs)%nat /\ digits_ok rs
  /\ eval rs = eval lo + eval xs * eval ys.
Proof.
  intros Hy. induction xs as [|x xs IH]; intros lo Hx Hlo L; cbn [multiply_rows length].
  - cbn [repeat eval]. rewrite app_nil_r. repeat split; auto; lia.
  - inversion_clear Hx as [|? ? Hx1 Hxs].
    destruct (multiply_row_spec (HD_LOW x) (HD_HIGH x) (HD_LOW_range x) (HD_HIGH_range x Hx1)
      ys lo (length xs) 0 Hy Hlo L ltac:(red; lia)) as (lo' & E & Ll & Ol & Ev).
    rewrite E. destruct lo' as [|r lo']; [discriminate |].
    inversion_clear Ol as [|? ? Or Olo]. cbn [app].
    specialize (IH lo' Hxs Olo ltac:(cbn in Ll; lia)). cbv zeta in IH.
    destruct IH as (I1 & I2 & I3). cbn [length eval]. rewrite I1.
    rewrite <- HD_split in Ev. cbn [eval] in Ev.
    repeat split; auto; rewrite ?I3; lia.
Qed.

(** ** Scaling up *)

Lemma scale_step f d c :
  0 <= f < BIGNUM_RADIX_ROOT -> is_digit d -> 0 <= c < BIGNUM_RADIX_ROOT ->
  let pl := ((f * HD_LOW d)%SL + HD_LOW c)%SL in
  let ph := (((f * HD_HIGH d)%SL + HD_HIGH pl)%SL + HD_HIGH c)%SL in
  let digit := HD_CONS (HD_LOW ph) (HD_LOW pl) in
  is_digit digit /\ 0 <= HD_HIGH ph < BIGNUM_RADIX_ROOT
  /\ digit + BIGNUM_RADIX * HD_HIGH ph = f * d + c.
Proof.
  intros Hf Hd Hc pl ph digit.
  pose proof (half_product f (HD_LOW d) Hf (HD_LOW_range d)).
  pose proof (half_product f (HD_HIGH d) Hf (HD_HIGH_range d Hd)).
  pose proof (HD_LOW_range c). pose proof (HD_HIGH_range c ltac:(red; lia)).
  pose proof (HD_split c). pose proof (HD_split d). red in Hd. unfold is_digit.
  assert (Epl : pl = f * HD_LOW d + HD_LOW c) by (subst pl; unwrap; reflexivity).
  pose proof (HD_LOW_range pl). pose proof (HD_split pl).
  assert (0 <= HD_HIGH pl < 4294967296) by lia.
  assert (Eph : ph = f * HD_HIGH d + HD_HIGH pl + HD_HIGH c)
    by (subst ph; unwrap; reflexivity).
  pose proof (HD_LOW_range ph). pose proof (HD_split ph).
  assert (0 <= HD_HIGH ph < 4294967296) by lia.
  assert (Ed : digit = HD_LOW ph * BIGNUM_RADIX_ROOT + HD_LOW pl)
    by (subst digit; apply HD_CONS_add; lia).
  clearbody digit ph pl.
  assert (E : digit + BIGNUM_RADIX * HD_HIGH ph = f * d + c)
    by (replace (f * d) with (f * (HD_HIGH d * BIGNUM_RADIX_ROOT + HD_LOW d)) by (f_equal; lia); lia).
  assert (f * d <= 2147483647 * 4611686018427387903) by nia.
  repeat split; lia.
Qed.

Lemma scale_up_digits_spec f : 0 <= f < BIGNUM_RADIX_ROOT -> forall ds carry,
  digits_ok ds -> 0 <= carry < BIGNUM_RADIX_ROOT ->
  let '(es, c) := scale_up_digits f ds carry in
  digits_ok es /\ length es = length ds /\ 0 <= c < BIGNUM_RADIX_ROOT
  /\ eval es + BIGNUM_RADIX ^ Z.of_nat (length ds) * c = f * eval ds + carry.
Proof.
  intros Hf. induction ds as [|d ds IH]; intros carry Hds Hc; cbn [scale_up_digits].
  - cbn [eval length]. change (Z.of_nat 0) with 0. rewrite Z.pow_0_r. repeat split; auto; lia.
  - inversion_clear Hds as [|? ? Hd Hds'].
    destruct (scale_step f d carry Hf Hd Hc) as (D & C & E).
    match type of C with 0 <= ?c' < _ => set (carry' := c') in * end.
    match type of D with is_digit ?x => set (digit := x) in * end.
    specialize (IH carry' Hds' C). destruct (scale_up_digits f ds carry') as [es c].
    destruct IH as (I1 & I2 & I3 & I4). clearbody digit carry'.
    cbn [length eval]. rewrite Nat2Z.inj_succ, Z.pow_succ_r by lia.
    repeat split; auto; lia.
Qed.

Lemma bignum_destructive_scale_up_block neg ds f :
  1 < f < BIGNUM_RADIX_ROOT -> digits_ok ds -> fits ds ->
  f * eval ds < BIGNUM_RADIX ^ Z.of_nat (length ds) ->
  exists es, bignum_destructive_scale_up (block neg ds) f = Some (block neg es)
    /\ digits_ok es /\ length es = length ds /\ eval es = f * eval ds.
Proof.
  intros Hf Hds F Hlt. unfold bignum_destructive_scale_up. autorewrite with bignum.
  unwrap. rewrite (proj2 (Z.ltb_lt 1 f)), (proj2 (Z.ltb_lt f _)) by lia. cbn [andb].
  pose proof (scale_up_digits_spec f ltac:(lia) ds 0 Hds ltac:(lia)) as S.
  destruct (scale_up_digits f ds 0) as [es c]. destruct S as (O & L & Hc & E).
  pose proof (eval_nonneg es O).
  assert (c = 0) as -> by nia. cbn [Z.eqb].
  exists es. rewrite store_digits_block by exact L. repeat split; auto. lia.
Qed.

Lemma increment_digits_spec ds :
  digits_ok ds -> eval ds + 1 < BIGNUM_RADIX ^ Z.of_nat (length ds) ->
  exists es, increment_digits ds = Some es
    /\ digits_ok es /\ length es = length ds /\ eval es = eval ds + 1.
Proof.
  induction 1 as [|d ds Hd Hds IH]; cbn [increment_digits eval length].
  - rewrite Z.pow_0_r. lia.
  - rewrite Nat2Z.inj_succ, Z.pow_succ_r by lia. intros Hlt. red in Hd. unwrap.
    destruct (Z.ltb_spec (d + 1) BIGNUM_RADIX).
    + eexists. split; [reflexivity |]. cbn [eval length].
      repeat split; auto; [| lia]. constructor; [red; lia | auto].
    + destruct IH as (es & -> & O & L & E); [lia |]. cbn [obind].
      eexists. split; [reflexivity |]. unwrap. cbn [eval length].
      repeat split; auto; [| lia]. constructor; [red; lia | auto].
Qed.

Lemma bignum_destructive_add_block neg ds n :
  digits_ok ds -> fits ds -> is_digit n -> ds <> [] ->
  eval ds + n < BIGNUM_RADIX ^ Z.of_nat (length ds) ->
  exists es, bignum_destructive_add (block neg ds) n = Some (block neg es)
    /\ digits_ok es /\ length es = length ds /\ eval es = eval ds + n.
Proof.
  intros Hds F Hn Hne Hlt. unfold bignum_destructive_add. autorewrite with bignum.
  destruct ds as [|d ds]; [easy |]. inversion_clear Hds as [|? ? Hd Hds'].
  red in Hd, Hn. cbn [eval length] in Hlt.
  rewrite Nat2Z.inj_succ, Z.pow_succ_r in Hlt by lia. unwrap.
  destruct (Z.ltb_spec (d + n) BIGNUM_RADIX).
  - exists (d + n :: ds). rewrite store_digits_block by reflexivity. cbn [eval length].
    repeat split; auto; [| lia]. constructor; [red; lia | auto].
  - destruct (increment_digits_spec ds Hds') as (es & -> & O & L & E); [lia |].
    cbn [obind]. unwrap. exists (d + n - BIGNUM_RADIX :: es).
    rewrite store_digits_block by (cbn [length]; lia). cbn [eval length].
    repeat split; auto; [| lia]. constructor; [red; lia | auto].
Qed.

(** ** Products *)

Section OperationFacts.
Context {heap : Heap}.

Lemma digits_ok_zeros n : digits_ok (repeat 0 n).
Proof. induction n; cbn [repeat]; constructor; auto. red. lia. Qed.

Lemma multiply_unsigned_ordered n1 xs n2 ys neg :
  digits_ok xs -> digits_ok ys -> xs <> [] -> fits xs -> fits ys ->
  (length ys <= length xs)%nat ->
  Z.of_nat (length xs) + Z.of_nat (length ys) <= BIGNUM_LENGTH_MAX ->
  exists r, bignum_multiply_unsigned (block n1 xs) (block n2 ys) neg = Some r
    /\ repr r (sign neg (eval xs * eval ys)).
Proof.
  intros Hx Hy Nx Fx Fy L Room. unfold bignum_multiply_unsigned. autorewrite with bignum.
  destruct (Z.ltb_spec (Z.of_nat (length xs)) (Z.of_nat (length ys))); [lia |].
  autorewrite with bignum. change BIGNUM_LENGTH_MAX with 74382032555280388 in Room. unwrap.
  rewrite bignum_allocate_zeroed_some by (change BIGNUM_LENGTH_MAX with 74382032555280388; lia).
  cbn [obind]. set (n := Z.to_nat (Z.of_nat (length xs) + Z.of_nat (length ys))).
  assert (Fz : fits (repeat 0 n)).
  { unfold fits. rewrite repeat_length. change BIGNUM_LENGTH_MAX with 74382032555280388. lia. }
  destruct (multiply_rows_spec ys Hy xs (repeat 0 (length ys)) Hx (digits_ok_zeros _)
    (repeat_length _ _)) as (Lr & O & E).
  rewrite <- repeat_app in *. replace (length ys + length xs)%nat with n in * by lia.
  autorewrite with bignum. set (rs := multiply_rows xs ys (repeat 0 n)) in *.
  rewrite store_digits_block by (rewrite repeat_length; exact Lr).
  eexists. split; [reflexivity |].
  replace (eval xs * eval ys) with (eval rs) by (rewrite E, eval_repeat0; ring).
  apply trim_repr; auto.
  - unfold fits. change BIGNUM_LENGTH_MAX with 74382032555280388. lia.
  - intros E0. rewrite E0 in Lr. destruct xs; cbn [length] in *; [easy | lia].
Qed.

Lemma bignum_multiply_unsigned_block n1 xs n2 ys neg :
  digits_ok xs -> digits_ok ys -> xs <> [] -> ys <> [] -> fits xs -> fits ys ->
  Z.of_nat (length xs) + Z.of_nat (length ys) <= BIGNUM_LENGTH_MAX ->
  exists r, bignum_multiply_unsigned (block n1 xs) (block n2 ys) neg = Some r
    /\ repr r (sign neg (eval xs * eval ys)).
Proof.
  intros Hx Hy Nx Ny Fx Fy Room.
  destruct (Nat.le_gt_cases (length ys) (length xs)) as [L | L].
  - now apply multiply_unsigned_ordered.
  - destruct (multiply_unsigned_ordered n2 ys n1 xs neg) as (r & Er & Hr); auto; try lia.
    exists r. rewrite Z.mul_comm. split; [| exact Hr]. rewrite <- Er.
    unfold bignum_multiply_unsigned. autorewrite with bignum.
    destruct (Z.ltb_spec (Z.of_nat (length xs)) (Z.of_nat (length ys))); [| lia].
    destruct (Z.ltb_spec (Z.of_nat (length ys)) (Z.of_nat (length xs))); [lia | reflexivity].
Qed.

Lemma bignum_multiply_unsigned_small_factor_block n1 xs d neg :
  digits_ok xs -> fits xs -> 1 < d < BIGNUM_RADIX_ROOT ->
  Z.of_nat (length xs) + 1 <= BIGNUM_LENGTH_MAX ->
  exists r, bignum_multiply_unsigned_small_factor (block n1 xs) d neg = Some r
    /\ repr r (sign neg (eval xs * d)).
Proof.
  intros Hx Fx Hd Room. unfold bignum_multiply_unsigned_small_factor.
  autorewrite with bignum. pose proof Room as Room'.
  change BIGNUM_LENGTH_MAX with 74382032555280388 in Room'. unwrap.
  rewrite bignum_allocate_some by lia. cbn [obind].
  rewrite bignum_destructive_copy_block by (rewrite ?length_fresh; auto; lia).
  set (rest := skipn (length xs) (fresh (Z.of_nat (length xs) + 1))).
  assert (Lrest : length rest = 1%nat) by (subst rest; rewrite length_skipn, length_fresh; lia).
  assert (F1 : fits (xs ++ rest)) by (unfold fits; rewrite length_app; lia).
  rewrite digits_of_block by exact F1. rewrite Nat2Z.id, firstn_app, firstn_all, Nat.sub_diag.
  cbn [firstn]. rewrite app_nil_r.
  rewrite store_digits_block by (rewrite !length_app; cbn [length]; lia).
  assert (O : digits_ok (xs ++ [0])) by (apply Forall_app; split; auto; repeat constructor; lia).
  assert (F : fits (xs ++ [0])) by (unfold fits; rewrite length_app; cbn [length]; lia).
  assert (Ev : eval (xs ++ [0]) = eval xs) by (rewrite eval_snoc; lia).
  destruct (bignum_destructive_scale_up_block neg (xs ++ [0]) d Hd O F) as (es & -> & Oe & Le & Ee).
  { rewrite Ev, length_app, Nat2Z.inj_add, Z.pow_add_r by lia. cbn [length Z.of_nat Pos.of_succ_nat].
    rewrite Z.pow_1_r. pose proof (eval_range xs Hx). nia. }
  cbn [obind]. eexists. split; [reflexivity |].
  replace (eval xs * d) with (eval es) by (rewrite Ee, Ev; ring).
  apply trim_repr; auto.
  - unfold fits in *. lia.
  - intros ->. rewrite length_app in Le. cbn in Le. lia.
Qed.

Lemma multiply_by_digit_repr d n ds neg k :
  0 < d < BIGNUM_RADIX -> digits_ok ds -> fits ds -> trimmed ds -> ds <> [] ->
  Z.of_nat (length ds) + 1 <= BIGNUM_LENGTH_MAX ->
  (exists r, k = Some r /\ repr r (sign neg (eval ds * d))) ->
  exists r, multiply_by_digit d (block n ds) neg k = Some r
    /\ repr r (sign neg (eval ds * d)).
Proof.
  intros Hd Od Fd Td Nd Ld Hk. unfold multiply_by_digit. unwrap.
  destruct (Z.eqb_spec d 1) as [-> | N1].
  - autorewrite with bignum. eexists. split; [reflexivity |]. rewrite Z.mul_1_r.
    apply repr_block; auto. now intros ->.
  - destruct (Z.ltb_spec d BIGNUM_RADIX_ROOT); [| exact Hk].
    apply bignum_multiply_unsigned_small_factor_block; auto. lia.
Qed.

(** The only digit of a one-digit number. *)
Lemma single_digit n ds :
  digits_ok ds -> trimmed ds -> Z.of_nat (length ds) = 1 ->
  0 < BIGNUM_REF (block n ds) 0 < BIGNUM_RADIX /\ eval ds = BIGNUM_REF (block n ds) 0.
Proof.
  intros O T L. destruct ds as [|d [|]]; cbn [length] in L; try lia.
  inversion_clear O as [|? ? Hd _]. red in Hd. unfold trimmed in T. cbn in T.
  unfold BIGNUM_REF. cbn [block bn_digits eval nth Z.to_nat]. lia.
Qed.

(** [bignum_multiply] computes the product, canonically. *)
Lemma bignum_multiply_repr x y a b :
  repr x a -> repr y b -> room x (BIGNUM_LENGTH y) ->
  exists r, bignum_multiply x y = Some r /\ repr r (a * b).
Proof.
  intros Hx Hy Rm. unfold bignum_multiply.
  rewrite (repr_ZERO_P x a Hx), (repr_ZERO_P y b Hy).
  destruct (Z.eqb_spec a 0) as [-> | Na]; [now exists x |].
  destruct (Z.eqb_spec b 0) as [-> | Nb]; [rewrite Z.mul_0_r; now exists y |].
  destruct Hx as (n1 & xs & -> & Ox & Fx & Tx & _ & ->).
  destruct Hy as (n2 & ys & -> & Oy & Fy & Ty & _ & ->).
  assert (xs <> []) by (intros ->; now rewrite sign_zero in Na).
  assert (ys <> []) by (intros ->; now rewrite sign_zero in Nb).
  unfold room in Rm. autorewrite with bignum in *. cbv zeta.
  set (neg := if n1 then negb n2 else n2).
  replace (sign n1 (eval xs) * sign n2 (eval ys)) with (sign neg (eval xs * eval ys))
    by (subst neg; destruct n1, n2; cbn [negb sign]; ring).
  assert (General : exists r,
    (if Z.of_nat (length ys) =? 1 then
       multiply_by_digit (BIGNUM_REF (block n2 ys) 0) (block n1 xs) neg
         (bignum_multiply_unsigned (block n1 xs) (block n2 ys) neg)
     else bignum_multiply_unsigned (block n1 xs) (block n2 ys) neg) = Some r
    /\ repr r (sign neg (eval xs * eval ys))).
  { assert (Base : exists r, bignum_multiply_unsigned (block n1 xs) (block n2 ys) neg = Some r
      /\ repr r (sign neg (eval xs * eval ys))) by now apply bignum_multiply_unsigned_block.
    destruct (Z.eqb_spec (Z.of_nat (length ys)) 1); [| exact Base].
    destruct (single_digit n2 ys) as [Hd E]; auto. rewrite E in *.
    apply multiply_by_digit_repr; auto; lia. }
  destruct (Z.eqb_spec (Z.of_nat (length xs)) 1); [| exact General].
  destruct (single_digit n1 xs) as [Hd E]; auto. rewrite (Z.mul_comm (eval xs)), E in *.
  apply multiply_by_digit_repr; auto; lia.
Qed.

End OperationFacts.

(** ** Properties *)

(** C27: [bignum_multiply], which works on 31-bit half digits with carries in
    machine words, returns the canonical bignum of the exact product for all
    canonical operands whose lengths together fit. *)
Theorem bignum_multiplication {heap : Heap} x y a b :
  repr x a -> repr y b -> room x (BIGNUM_LENGTH y) ->
  exists r, bignum_multiply x y = Some r /\ repr r (a * b).
Proof. apply bignum_multiply_repr. Qed.

Lemma bignum_multiplication_witness :
  let heap : Heap := fun _ => 77 in
  exists r, bignum_multiply (block true [4611686018427387903; 4611686018427387903])
      (block false [5; 6; 7]) = Some r
    /\ repr r ((1 - BIGNUM_RADIX * BIGNUM_RADIX) * (5 + BIGNUM_RADIX * (6 + BIGNUM_RADIX * 7))).
Proof.
  intros heap.
  apply (bignum_multiplication (heap := heap) (block true [4611686018427387903; 4611686018427387903])
    (block false [5; 6; 7]) (1 - BIGNUM_RADIX * BIGNUM_RADIX)
    (5 + BIGNUM_RADIX * (6 + BIGNUM_RADIX * 7)));
    (concrete_repr || concrete_room).
Defined.
