(* ===== verification/BignumDiv.v ===== *)
(** * Bignum division (src/src/microcode/bignum.c)

    Knuth's algorithm D on 62-bit digits, with its inner two-by-one-digit
    division on 31-bit half digits, the single-digit denominators, and the
    signed operations [bignum_divide], [bignum_quotient] and
    [bignum_remainder]. *)

From Stdlib Require Import ZArith List Lia Bool.
From S2P Require Import Prelude Bits Bignum BignumAdd BignumMul.
Import ListNotations.

(** ** Two digits by one digit: [bignum_digit_divide] *)

(** [BDDS_MULSUB (vn, un, carry_in)]: the new [un] and [carry]. *)
Definition BDDS_MULSUB (guess vn un carry_in : Z) : Z * Z :=
  let product := ((vn * guess)%SL + carry_in)%SL in
  let diff := (un - HD_LOW product)%SL in
  if diff <? 0 then ((diff + BIGNUM_RADIX_ROOT)%SL, (HD_HIGH product + 1)%SL)
  else (diff, HD_HIGH product).

(** [BDDS_ADD (vn, un, carry_in)]: the new [un] and [carry]. *)
Definition BDDS_ADD (vn un carry_in : Z) : Z * Z :=
  let sum := ((vn + un)%SL + carry_in)%SL in
  if ulong sum <? BIGNUM_RADIX_ROOT then (sum, 0)
  else ((sum - BIGNUM_RADIX_ROOT)%SL, 1).

(** The quotient half digit and the new [u[0]], [u[1]], [u[2]]. *)
Definition bignum_digit_divide_subtract (v1 v2 guess u0 u1 u2 : Z) : Z * (Z * Z * Z) :=
  let '(u2, carry) := BDDS_MULSUB guess v2 u2 0 in
  let '(u1, carry) := BDDS_MULSUB guess v1 u1 carry in
  if carry =? 0 then (guess, (u0, u1, u2))
  else
    let diff := (u0 - carry)%SL in
    if diff <? 0 then
      let u0 := (diff + BIGNUM_RADIX)%SL in
      let '(u2, carry) := BDDS_ADD v2 u2 0 in
      let '(u1, carry) := BDDS_ADD v1 u1 carry in
      let u0 := if carry =? 1 then (u0 + 1)%SL else u0 in
      ((guess - 1)%SL, (u0, u1, u2))
    else (guess, (diff, u1, u2)).

(** The [while] loop of [BDD_STEP], at most [fuel] tests. *)
Fixpoint bdd_adjust (fuel : nat) (v1 v2 guess comparand : Z) : option Z :=
  match fuel with
  | O => None
  | S fuel =>
      if comparand <? (guess * v2)%SL then
        let guess := (guess - 1)%SL in
        let comparand := (comparand + (v1 << BIGNUM_HALF_DIGIT_LENGTH)%SL)%SL in
        if BIGNUM_RADIX <=? ulong comparand then Some guess
        else bdd_adjust fuel v1 v2 guess comparand
      else Some guess
  end.

(** [BDD_STEP (qn, j)] on [u[j]], [u[j+1]], [u[j+2]]. *)
Definition BDD_STEP (v1 v2 u0 u1 u2 : Z) : option (Z * (Z * Z * Z)) :=
  let uj := u0 in
  let '(guess, comparand) :=
    if negb (uj =? v1) then
      let uj_uj1 := HD_CONS uj u1 in
      (Z.quot uj_uj1 v1, HD_CONS (Z.rem uj_uj1 v1) u2)
    else (BIGNUM_RADIX_ROOT - 1, HD_CONS (u1 + v1)%SL u2) in
  let* guess := bdd_adjust 2 v1 v2 guess comparand in
  Some (bignum_digit_divide_subtract v1 v2 guess u0 u1 u2).

(** The quotient stored through [q] and the remainder returned. *)
Definition bignum_digit_divide (uh ul v : Z) : option (Z * Z) :=
  if (uh =? 0) && (ul <? v) then Some (0, ul)
  else if (uh =? 0) && (ul =? v) then Some (1, 0)
  else
    let u0 := HD_HIGH uh in
    let u1 := HD_LOW uh in
    let u2 := HD_HIGH ul in
    let u3 := HD_LOW ul in
    let v1 := HD_HIGH v in
    let v2 := HD_LOW v in
    let* (q1, (u0, u1, u2)) := BDD_STEP v1 v2 u0 u1 u2 in
    let* (q2, (u1, u2, u3)) := BDD_STEP v1 v2 u1 u2 u3 in
    Some (HD_CONS q1 q2, HD_CONS u2 u3).

(** ** Several digits by one digit or more *)

(** The [while] loop of [bignum_divide_subtract]: the digits written over
    [u], the words of [u] not reached, the carry. *)
Fixpoint divide_subtract_digits (gl gh : Z) (vs us : list Z) (carry : Z)
  : list Z * list Z * Z :=
  match vs, us with
  | v :: vs, u :: us =>
      let vl := HD_LOW v in
      let vh := HD_HIGH v in
      let pl := ((vl * gl)%SL + HD_LOW carry)%SL in
      let ph := ((((vl * gh)%SL + (vh * gl)%SL)%SL + HD_HIGH pl)%SL + HD_HIGH carry)%SL in
      let diff := (u - HD_CONS (HD_LOW ph) (HD_LOW pl))%SL in
      let '(d, carry) :=
        if diff <? 0 then
          ((diff + BIGNUM_RADIX)%SL, (((vh * gh)%SL + HD_HIGH ph)%SL + 1)%SL)
        else (diff, ((vh * gh)%SL + HD_HIGH ph)%SL) in
      let '(ds, rest, carry) := divide_subtract_digits gl gh vs us carry in
      (d :: ds, rest, carry)
  | _, _ => ([], us, carry)
  end.

(** The loop that adds [v] back. *)
Fixpoint add_back_digits (vs us : list Z) (carry : Z) : list Z * Z :=
  match vs, us with
  | v :: vs, u :: us =>
      let sum := ((v + u)%SL + carry)%SL in
      let '(d, carry) :=
        if ulong sum <? BIGNUM_RADIX then (sum, 0) else ((sum - BIGNUM_RADIX)%SL, 1) in
      let '(ds, carry) := add_back_digits vs us carry in
      (d :: ds, carry)
  | _, _ => ([], carry)
  end.

(** The quotient digit and the words from [u_start] on; [None] if [u] ends
    before the digit above [v]. *)
Definition bignum_divide_subtract (vs : list Z) (guess : Z) (us : list Z)
  : option (Z * list Z) :=
  if guess =? 0 then Some (0, us)
  else
    let '(ds, rest, carry) := divide_subtract_digits (HD_LOW guess) (HD_HIGH guess) vs us 0 in
    if carry =? 0 then Some (guess, ds ++ rest)
    else
      match rest with
      | [] => None
      | u :: rest =>
          let diff := (u - carry)%SL in
          if diff <? 0 then
            let u := (diff + BIGNUM_RADIX)%SL in
            let '(ds, carry) := add_back_digits vs ds 0 in
            let u :=
              if carry =? 1 then
                let sum := (u + carry)%SL in
                if ulong sum <? BIGNUM_RADIX then sum else (sum - BIGNUM_RADIX)%SL
              else u in
            Some ((guess - 1)%SL, ds ++ u :: rest)
          else Some (guess, ds ++ diff :: rest)
      end.

(** The [while (1)] loop that corrects the guess, at most [fuel] rounds; the
    comparand is the pair of digits [ch], [cl]. *)
Fixpoint correct_guess (fuel : nat) (v1 v2 guess ch cl : Z) : option Z :=
  match fuel with
  | O => None
  | S fuel =>
      let v2l := HD_LOW v2 in
      let v2h := HD_HIGH v2 in
      let gl := HD_LOW guess in
      let gh := HD_HIGH guess in
      let pl := (v2l * gl)%SL in
      let ph := (((v2l * gh)%SL + (v2h * gl)%SL)%SL + HD_HIGH pl)%SL in
      let pl := HD_CONS (HD_LOW ph) (HD_LOW pl) in
      let ph := ((v2h * gh)%SL + HD_HIGH ph)%SL in
      if (ph <? ch) || (ch =? ph) && (pl <=? cl) then Some guess
      else
        let guess := (guess - 1)%SL in
        let ch := (ch + v1)%SL in
        if BIGNUM_RADIX <=? ulong ch then Some guess
        else correct_guess fuel v1 v2 guess ch cl
  end.

(** The loop of [bignum_divide_unsigned_normalized] with [u_scan_start] at
    [u_start + k]; [qs] are the quotient digits already stored, most
    significant first to be computed. *)
Fixpoint divide_digits (k : nat) (vs us qs : list Z) : option (list Z * list Z) :=
  match k with
  | O => Some (us, qs)
  | S k =>
      let v1 := nth (length vs - 1) vs 0 in
      let v2 := nth (length vs - 2) vs 0 in
      let u_scan := (k + length vs)%nat in
      let uj := nth u_scan us 0 in
      let cl := nth (u_scan - 2) us 0 in
      let* (guess, ch) :=
        if negb (uj =? v1) then bignum_digit_divide uj (nth (u_scan - 1) us 0) v1
        else Some (BIGNUM_RADIX - 1, (nth (u_scan - 1) us 0 + v1)%SL) in
      let* guess := correct_guess 2 v1 v2 guess ch cl in
      let* (qj, ws) := bignum_divide_subtract vs guess (skipn k us) in
      divide_digits k vs (firstn k us ++ ws) (qj :: qs)
  end.

(** The new [u] and [q]; [q] is [None] when it is [BIGNUM_OUT_OF_BAND]. *)
Definition bignum_divide_unsigned_normalized (u v : bignum) (q : option bignum)
  : option (bignum * option bignum) :=
  let* (us, qs) :=
    divide_digits (Z.to_nat (BIGNUM_LENGTH u - BIGNUM_LENGTH v)) (digits_of v) (digits_of u) [] in
  Some (store_digits u us, option_map (fun q => store_digits q qs) q).

(** The digits written and the carry. *)
Fixpoint normalize_digits (shift_left : Z) (ds : list Z) (carry : Z) : list Z * Z :=
  match ds with
  | [] => ([], carry)
  | digit :: ds =>
      let shift_right := BIGNUM_DIGIT_LENGTH - shift_left in
      let mask := ((1 << shift_right) - 1)%UL in
      let '(es, c) := normalize_digits shift_left ds (digit >>> shift_right) in
      (((digit & mask) << shift_left)%SL .| carry :: es, c)
  end.

Definition bignum_destructive_normalization (source target : bignum) (shift_left : Z)
  : option bignum :=
  let '(ds, carry) := normalize_digits shift_left (digits_of source) 0 in
  if BIGNUM_LENGTH source <? BIGNUM_LENGTH target then Some (store_digits target (ds ++ [carry]))
  else assert* carry =? 0 in Some (store_digits target ds).

(** The scan runs from the most significant digit down. *)
Fixpoint unnormalize_digits (shift_right : Z) (ds : list Z) : list Z * Z :=
  match ds with
  | [] => ([], 0)
  | digit :: ds =>
      let '(es, carry) := unnormalize_digits shift_right ds in
      let shift_left := BIGNUM_DIGIT_LENGTH - shift_right in
      let mask := ((1 << shift_right) - 1)%UL in
      ((digit >>> shift_right) .| carry :: es, ((digit & mask) << shift_left)%SL)
  end.

Definition bignum_destructive_unnormalization (b : bignum) (shift_right : Z) : option bignum :=
  let '(ds, carry) := unnormalize_digits shift_right (digits_of b) in
  assert* carry =? 0 in Some (store_digits b ds).

(** The loop that shifts a digit up until its top bit is set, at most [fuel]
    tests: the shifted digit and the shift count. *)
Fixpoint normalize_digit (fuel : nat) (v shift : Z) : option (Z * Z) :=
  match fuel with
  | O => None
  | S fuel =>
      if ulong v <? BIGNUM_RADIX / 2 then normalize_digit fuel (v << 1)%SL (shift + 1)
      else Some (v, shift)
  end.

(** The loop of the medium denominator, most significant digit first. *)
Fixpoint divide_by_digit (ds : list Z) (denominator : Z) : option (list Z * Z) :=
  match ds with
  | [] => Some ([], 0)
  | d :: ds =>
      let* (qs, r) := divide_by_digit ds denominator in
      let* (qj, r) := bignum_digit_divide r d denominator in
      Some (qj :: qs, r)
  end.

(** The loop of [bignum_destructive_scale_down], most significant digit first. *)
Fixpoint scale_down_digits (ds : list Z) (denominator : Z) : list Z * Z :=
  match ds with
  | [] => ([], 0)
  | two_digits :: ds =>
      let '(qs, remainder) := scale_down_digits ds denominator in
      let numerator := HD_CONS remainder (HD_HIGH two_digits) in
      let quotient_high := Z.quot numerator denominator in
      let numerator := HD_CONS (Z.rem numerator denominator) (HD_LOW two_digits) in
      (HD_CONS quotient_high (Z.quot numerator denominator) :: qs, Z.rem numerator denominator)
  end.

Fixpoint remainder_digits (ds : list Z) (d : Z) : Z :=
  match ds with
  | [] => 0
  | two_digits :: ds =>
      let r := remainder_digits ds d in
      Z.rem (HD_CONS (Z.rem (HD_CONS r (HD_HIGH two_digits)) d) (HD_LOW two_digits)) d
  end.

Definition bignum_destructive_scale_down (b : bignum) (denominator : Z)
  : option (bignum * Z) :=
  assert* (1 <? denominator) && (ulong denominator <? BIGNUM_RADIX_ROOT) in
  let '(qs, remainder) := scale_down_digits (digits_of b) denominator in
  Some (store_digits b qs, remainder).

(** *** The three denominators

    [quotient] and [remainder] tell which of the two result pointers is not
    null; a result that is not wanted is [None]. *)

(** The optional remainder of the one-digit cases. *)
Definition want {A} (wanted : bool) (o : option A) : option (option A) :=
  if wanted then option_map Some o else Some None.

Section Operations.
Context {heap : Heap}.

Definition bignum_divide_unsigned_large_denominator (numerator denominator : bignum)
    (quotient remainder q_negative_p r_negative_p : bool)
  : option (option bignum * option bignum) :=
  let length_n := (BIGNUM_LENGTH numerator + 1)%SL in
  let length_d := BIGNUM_LENGTH denominator in
  let* q := want quotient (bignum_allocate (length_n - length_d)%SL q_negative_p) in
  let* u := bignum_allocate length_n r_negative_p in
  assert* 1 <? length_d in
  let* (_, shift) := normalize_digit 62 (BIGNUM_REF denominator (length_d - 1)) 0 in
  let* (u, q) :=
    if shift =? 0 then
      let u := bignum_destructive_copy numerator u in
      let u := store_digits u (firstn (Z.to_nat (length_n - 1)) (digits_of u) ++ [0]) in
      bignum_divide_unsigned_normalized u denominator q
    else
      let* v := bignum_allocate length_d false in
      let* u := bignum_destructive_normalization numerator u shift in
      let* v := bignum_destructive_normalization denominator v shift in
      let* (u, q) := bignum_divide_unsigned_normalized u v q in
      if remainder then
        let* u := bignum_destructive_unnormalization u shift in Some (u, q)
      else Some (u, q) in
  Some (option_map bignum_trim q, if remainder then Some (bignum_trim u) else None).

Definition bignum_divide_unsigned_medium_denominator (numerator : bignum) (denominator : Z)
    (quotient remainder q_negative_p r_negative_p : bool)
  : option (option bignum * option bignum) :=
  let length_n := BIGNUM_LENGTH numerator in
  let* (denominator, shift) := normalize_digit 62 denominator 0 in
  let* q :=
    if shift =? 0 then
      let* q := bignum_allocate length_n q_negative_p in
      Some (bignum_destructive_copy numerator q)
    else
      let* q := bignum_allocate (length_n + 1)%SL q_negative_p in
      bignum_destructive_normalization numerator q shift in
  let* (qs, r) := divide_by_digit (digits_of q) denominator in
  let r := if negb (shift =? 0) then r >>> shift else r in
  let* rem := want remainder (bignum_digit_to_bignum r r_negative_p) in
  Some (if quotient then Some (bignum_trim (store_digits q qs)) else None, rem).

Definition bignum_divide_unsigned_small_denominator (numerator : bignum) (denominator : Z)
    (remainder q_negative_p r_negative_p : bool)
  : option (option bignum * option bignum) :=
  let* q := bignum_new_sign numerator q_negative_p in
  let* (q, r) := bignum_destructive_scale_down q denominator in
  let* rem := want remainder (bignum_digit_to_bignum r r_negative_p) in
  Some (Some (bignum_trim q), rem).

Definition bignum_remainder_unsigned_small_denominator (n : bignum) (d : Z)
    (negative_p : bool) : option bignum :=
  assert* (1 <? d) && (ulong d <? BIGNUM_RADIX_ROOT) in
  bignum_digit_to_bignum (remainder_digits (digits_of n) d) negative_p.

(** *** The signed operations

    The inner [None] is the error return of the C code: the code 1 of
    [bignum_divide], [BIGNUM_OUT_OF_BAND] of the other two. *)

(** Both results were wanted. *)
Definition both (qr : option bignum * option bignum) : option (option (bignum * bignum)) :=
  match qr with (Some q, Some r) => Some (Some (q, r)) | _ => None end.

Definition bignum_divide (numerator denominator : bignum)
  : option (option (bignum * bignum)) :=
  if BIGNUM_ZERO_P denominator then Some None
  else if BIGNUM_ZERO_P numerator then Some (Some (numerator, numerator))
  else
    let r_negative_p := BIGNUM_NEGATIVE_P numerator in
    let q_negative_p :=
      if BIGNUM_NEGATIVE_P denominator then negb r_negative_p else r_negative_p in
    match bignum_compare_unsigned numerator denominator with
    | bignum_comparison_equal =>
        Some (Some (bignum_make_one q_negative_p, bignum_make_zero))
    | bignum_comparison_less => Some (Some (bignum_make_zero, numerator))
    | bignum_comparison_greater =>
        if BIGNUM_LENGTH denominator =? 1 then
          let digit := BIGNUM_REF denominator 0 in
          if digit =? 1 then
            let* q := bignum_maybe_new_sign numerator q_negative_p in
            Some (Some (q, bignum_make_zero))
          else if ulong digit <? BIGNUM_RADIX_ROOT then
            let* qr := bignum_divide_unsigned_small_denominator numerator digit
              true q_negative_p r_negative_p in both qr
          else
            let* qr := bignum_divide_unsigned_medium_denominator numerator digit
              true true q_negative_p r_negative_p in both qr
        else
          let* qr := bignum_divide_unsigned_large_denominator numerator denominator
            true true q_negative_p r_negative_p in both qr
    end.

Definition bignum_quotient (numerator denominator : bignum) : option (option bignum) :=
  if BIGNUM_ZERO_P denominator then Some None
  else if BIGNUM_ZERO_P numerator then Some (Some numerator)
  else
    let q_negative_p :=
      if BIGNUM_NEGATIVE_P denominator then negb (BIGNUM_NEGATIVE_P numerator)
      else BIGNUM_NEGATIVE_P numerator in
    match bignum_compare_unsigned numerator denominator with
    | bignum_comparison_equal => Some (Some (bignum_make_one q_negative_p))
    | bignum_comparison_less => Some (Some bignum_make_zero)
    | bignum_comparison_greater =>
        if BIGNUM_LENGTH denominator =? 1 then
          let digit := BIGNUM_REF denominator 0 in
          if digit =? 1 then want true (bignum_maybe_new_sign numerator q_negative_p)
          else if ulong digit <? BIGNUM_RADIX_ROOT then
            let* (quotient, _) := bignum_divide_unsigned_small_denominator numerator digit
              false q_negative_p false in want true quotient
          else
            let* (quotient, _) := bignum_divide_unsigned_medium_denominator numerator digit
              true false q_negative_p false in want true quotient
        else
          let* (quotient, _) := bignum_divide_unsigned_large_denominator numerator denominator
            true false q_negative_p false in want true quotient
    end.

Definition bignum_remainder (numerator denominator : bignum) : option (option bignum) :=
  if BIGNUM_ZERO_P denominator then Some None
  else if BIGNUM_ZERO_P numerator then Some (Some numerator)
  else
    match bignum_compare_unsigned numerator denominator with
    | bignum_comparison_equal => Some (Some bignum_make_zero)
    | bignum_comparison_less => Some (Some numerator)
    | bignum_comparison_greater =>
        let negative_p := BIGNUM_NEGATIVE_P numerator in
        if BIGNUM_LENGTH denominator =? 1 then
          let digit := BIGNUM_REF denominator 0 in
          if (digit & (digit - 1)%SL) =? 0 then
            if BIGNUM_LENGTH numerator =? 0 then Some (Some bignum_make_zero)
            else
              let unsigned_remainder := (digit - 1)%SL & BIGNUM_REF numerator 0 in
              if unsigned_remainder =? 0 then Some (Some bignum_make_zero)
              else want true (bignum_digit_to_bignum unsigned_remainder negative_p)
          else if ulong digit <? BIGNUM_RADIX_ROOT then
            want true (bignum_remainder_unsigned_small_denominator numerator digit negative_p)
          else
            let* (_, remainder) := bignum_divide_unsigned_medium_denominator numerator digit
              false true false negative_p in want true remainder
        else
          let* (_, remainder) := bignum_divide_unsigned_large_denominator numerator denominator
            false true false negative_p in want true remainder
    end.

End Operations.

(** ** Estimating a quotient digit

    The argument of Knuth's Theorem 4.3.1B, in radix [B], for the division
    of [U] by [V] where [v1], [v2] are the top digits of [V], [uj], [uj1],
    [uj2] those of [U], and [W] is the weight of [v2]. *)
Section Estimate.
Variables B v1 v2 W Vl uj uj1 uj2 Ul : Z.
Hypothesis HB : 2 <= B.
Hypothesis Hv1 : B <= 2 * v1.
Hypothesis Hv1B : v1 < B.
Hypothesis Hv2 : 0 <= v2 < B.
Hypothesis HW : 0 < W.
Hypothesis HVl : 0 <= Vl < W.
Hypothesis Huj : 0 <= uj.
Hypothesis Huj1 : 0 <= uj1 < B.
Hypothesis Huj2 : 0 <= uj2 < B.
Hypothesis HUl : 0 <= Ul < W.

Let V := (v1 * B + v2) * W + Vl.
Let U3 := (uj * B + uj1) * B + uj2.
Let U := U3 * W + Ul.
Hypothesis HUV : U < B * V.
Let q := U / V.

Lemma estimate_V_pos : 0 < V.
Proof. subst V. nia. Qed.

Lemma estimate_q : 0 <= q < B /\ q * V <= U < (q + 1) * V.
Proof.
  pose proof estimate_V_pos. pose proof (Z.div_mod U V). pose proof (Z.mod_pos_bound U V).
  assert (0 <= U) by (subst U U3; nia).
  assert (0 <= q) by (apply Z.div_pos; lia).
  assert (q < B) by (apply Z.div_lt_upper_bound; lia). subst q. nia.
Qed.

Lemma estimate_uj : uj <= v1.
Proof.
  assert (uj * B * B * W <= U) by (subst U U3; nia).
  assert (V < (v1 + 1) * B * W) by (subst V; nia).
  assert (uj * (B * B * W) < (v1 + 1) * (B * B * W)) by nia. nia.
Qed.

(** The true digit against the three top digits of [U]. *)
Lemma estimate_q3 : q * (v1 * B + v2) <= U3.
Proof.
  destruct estimate_q as [Hq HqV].
  assert (q * (v1 * B + v2) * W < (U3 + 1) * W) by (subst V U; nia). nia.
Qed.

Lemma estimate_q2 : q * v1 <= uj * B + uj1.
Proof.
  destruct estimate_q as [Hq HqV]. pose proof estimate_q3.
  assert (q * v1 * B < (uj * B + uj1 + 1) * B) by (subst U3; nia). nia.
Qed.

(** The state of the correction loop: [rh] is the partial remainder. *)
Definition estimating (g rh : Z) : Prop :=
  q <= g < B /\ 0 <= rh /\ rh = uj * B + uj1 - g * v1.

Lemma estimate_init_div :
  uj <> v1 -> estimating ((uj * B + uj1) / v1) ((uj * B + uj1) mod v1).
Proof.
  intros N. pose proof estimate_uj. pose proof estimate_q2. destruct estimate_q as [Hq _].
  pose proof (Z.div_mod (uj * B + uj1) v1). pose proof (Z.mod_pos_bound (uj * B + uj1) v1).
  unfold estimating. repeat split; try lia.
  - apply Z.div_le_lower_bound; lia.
  - apply Z.div_lt_upper_bound; nia.
Qed.

Lemma estimate_init_top : uj = v1 -> estimating (B - 1) (uj1 + v1).
Proof.
  intros E. destruct estimate_q as [Hq _]. unfold estimating. repeat split; lia.
Qed.

(** A guess that fails the test is too large. *)
Lemma estimate_step g rh :
  estimating g rh -> rh * B + uj2 < g * v2 -> estimating (g - 1) (rh + v1).
Proof.
  intros (Hg & Hrh & E) T. pose proof estimate_q3.
  assert (L : q * (v1 * B + v2) < g * (v1 * B + v2)) by (subst U3 rh; lia).
  apply Z.mul_lt_mono_pos_r in L; [| nia]. unfold estimating. repeat split; lia.
Qed.

(** The state in which the loop is left. *)
Definition estimated (g : Z) : Prop := q <= g <= q + 1 /\ g < B.

Lemma estimate_exit g rh :
  estimating g rh -> B <= rh \/ g * v2 <= rh * B + uj2 -> estimated g.
Proof.
  intros (Hg & Hrh & E) T. destruct estimate_q as [Hq [_ HqV]].
  assert (g * v2 <= rh * B + uj2) by (destruct T; nia).
  assert (G3 : g * (v1 * B + v2) <= U3) by (subst U3 rh; lia).
  apply (Z.mul_le_mono_nonneg_r _ _ W) in G3; [| lia].
  assert (GV : g * V <= U + g * Vl) by (subst V U; lia).
  assert (g * Vl <= (B - 1) * (W - 1)) by (apply Z.mul_le_mono_nonneg; lia).
  assert (0 <= v2 * W) by (apply Z.mul_nonneg_nonneg; lia).
  assert (1 * (B * W) <= v1 * (B * W))
    by (apply Z.mul_le_mono_nonneg_r; [apply Z.mul_nonneg_nonneg |]; lia).
  assert (B * W <= V) by (subst V; lia).
  assert (L : g * V < (q + 2) * V) by lia.
  apply Z.mul_lt_mono_pos_r in L; [| apply estimate_V_pos].
  unfold estimated. repeat split; lia.
Qed.
End Estimate.

(** Dividing three half digits by two: the guess, then the subtraction. *)
Section HalfDigits.
Variables v1 v2 uj uj1 uj2 : Z.
Hypothesis Hv1 : BIGNUM_RADIX_ROOT <= 2 * v1.
Hypothesis Hv1B : v1 < BIGNUM_RADIX_ROOT.
Hypothesis Hv2 : 0 <= v2 < BIGNUM_RADIX_ROOT.
Hypothesis Huj : 0 <= uj.
Hypothesis Huj1 : 0 <= uj1 < BIGNUM_RADIX_ROOT.
Hypothesis Huj2 : 0 <= uj2 < BIGNUM_RADIX_ROOT.

Let V := v1 * BIGNUM_RADIX_ROOT + v2.
Let U := (uj * BIGNUM_RADIX_ROOT + uj1) * BIGNUM_RADIX_ROOT + uj2.
Hypothesis HUV : U < BIGNUM_RADIX_ROOT * V.

Let estimating_half := estimating BIGNUM_RADIX_ROOT v1 v2 1 0 uj uj1 uj2 0.
Let estimated_half := estimated BIGNUM_RADIX_ROOT v1 v2 1 0 uj uj1 uj2 0.

Lemma half_UV1 : U * 1 + 0 < BIGNUM_RADIX_ROOT * (V * 1 + 0).
Proof. lia. Qed.

Lemma half_quotient : ((uj * BIGNUM_RADIX_ROOT + uj1) * BIGNUM_RADIX_ROOT + uj2) * 1 + 0 = U
  /\ (v1 * BIGNUM_RADIX_ROOT + v2) * 1 + 0 = V.
Proof. lia. Qed.

Lemma half_estimated g : estimated_half g <-> U / V <= g <= U / V + 1 /\ g < BIGNUM_RADIX_ROOT.
Proof.
  unfold estimated_half, estimated. destruct half_quotient as [-> ->]. reflexivity.
Qed.

Lemma bdd_adjust_spec : forall fuel g rh,
  estimating_half g rh -> rh < 4294967296 ->
  (0 < fuel)%nat -> BIGNUM_RADIX_ROOT <= rh + Z.of_nat fuel * v1 ->
  exists g', bdd_adjust fuel v1 v2 g (rh * BIGNUM_RADIX_ROOT + uj2) = Some g'
    /\ estimated_half g'.
Proof.
  assert (Q : 0 <= U / V).
  { apply Z.div_pos; subst U V; lia. }
  pose proof half_UV1 as HUV1.
  induction fuel as [|fuel IH]; intros g rh I Hrh F M; [lia |]. cbn [bdd_adjust].
  pose proof I as (Hg & Hrh0 & Erh). destruct half_quotient as [EU EV].
  rewrite EU, EV in Hg.
  pose proof (half_product g v2 ltac:(lia) Hv2). rewrite (Z.shiftl_mul_pow2 v1 31) by lia.
  change (2 ^ 31) with BIGNUM_RADIX_ROOT. unwrap.
  destruct (Z.ltb_spec (rh * BIGNUM_RADIX_ROOT + uj2) (g * v2)) as [T | T].
  - assert (I' : estimating_half (g - 1) (rh + v1)) by (apply estimate_step; auto; lia).
    unwrap. destruct (Z.leb_spec BIGNUM_RADIX (rh * BIGNUM_RADIX_ROOT + uj2 + v1 * BIGNUM_RADIX_ROOT)).
    + eexists. split; [reflexivity |]. eapply estimate_exit; eauto; lia.
    + replace (rh * BIGNUM_RADIX_ROOT + uj2 + v1 * BIGNUM_RADIX_ROOT)
        with ((rh + v1) * BIGNUM_RADIX_ROOT + uj2) by lia.
      apply IH; auto; lia.
  - eexists. split; [reflexivity |]. eapply estimate_exit; eauto; lia.
Qed.
End HalfDigits.

Lemma BDDS_MULSUB_spec g vn un c :
  0 <= g < BIGNUM_RADIX_ROOT -> 0 <= vn < BIGNUM_RADIX_ROOT ->
  0 <= un < BIGNUM_RADIX_ROOT -> 0 <= c < BIGNUM_RADIX_ROOT ->
  let '(un', c') := BDDS_MULSUB g vn un c in
  0 <= un' < BIGNUM_RADIX_ROOT /\ 0 <= c' < BIGNUM_RADIX_ROOT
  /\ un' - BIGNUM_RADIX_ROOT * c' = un - vn * g - c.
Proof.
  intros Hg Hv Hu Hc. unfold BDDS_MULSUB. pose proof (half_product vn g Hv Hg). unwrap.
  pose proof (HD_LOW_range (vn * g + c)). pose proof (HD_split (vn * g + c)).
  assert (vn * g <= 2147483647 * 2147483647) by nia.
  assert (0 <= HD_HIGH (vn * g + c) < 4294967296) by lia. unwrap.
  destruct (Z.ltb_spec (un - HD_LOW (vn * g + c)) 0); unwrap; lia.
Qed.

Lemma BDDS_ADD_spec vn un c :
  0 <= vn < BIGNUM_RADIX_ROOT -> 0 <= un < BIGNUM_RADIX_ROOT -> 0 <= c <= 1 ->
  let '(un', c') := BDDS_ADD vn un c in
  0 <= un' < BIGNUM_RADIX_ROOT /\ 0 <= c' <= 1
  /\ un' + BIGNUM_RADIX_ROOT * c' = un + vn + c.
Proof.
  intros Hv Hu Hc. unfold BDDS_ADD. unwrap.
  destruct (Z.ltb_spec (vn + un + c) BIGNUM_RADIX_ROOT); unwrap; lia.
Qed.

Lemma bignum_digit_divide_subtract_spec v1 v2 g u0 u1 u2 :
  0 < v1 < BIGNUM_RADIX_ROOT -> 0 <= v2 < BIGNUM_RADIX_ROOT ->
  0 <= u0 < BIGNUM_RADIX_ROOT -> 0 <= u1 < BIGNUM_RADIX_ROOT -> 0 <= u2 < BIGNUM_RADIX_ROOT ->
  let U := (u0 * BIGNUM_RADIX_ROOT + u1) * BIGNUM_RADIX_ROOT + u2 in
  let V := v1 * BIGNUM_RADIX_ROOT + v2 in
  U / V <= g <= U / V + 1 -> g < BIGNUM_RADIX_ROOT ->
  exists u0' u1' u2',
    bignum_digit_divide_subtract v1 v2 g u0 u1 u2 = (U / V, (u0', u1', u2'))
    /\ 0 <= u1' < BIGNUM_RADIX_ROOT /\ 0 <= u2' < BIGNUM_RADIX_ROOT
    /\ u1' * BIGNUM_RADIX_ROOT + u2' = U mod V.
Proof.
  intros Hv1 Hv2 Hu0 Hu1 Hu2 U V Hg HgB.
  pose proof (Z.div_mod U V). pose proof (Z.mod_pos_bound U V).
  assert (0 <= U / V) by (apply Z.div_pos; lia).
  set (q := U / V) in *. set (r := U mod V) in *.
  assert (G : g = q \/ g = q + 1) by lia.
  unfold bignum_digit_divide_subtract.
  pose proof (BDDS_MULSUB_spec g v2 u2 0) as M2.
  destruct (BDDS_MULSUB g v2 u2 0) as [u2' c2]. destruct M2 as (? & ? & M2); try lia.
  pose proof (BDDS_MULSUB_spec g v1 u1 c2) as M1.
  destruct (BDDS_MULSUB g v1 u1 c2) as [u1' c1]. destruct M1 as (? & ? & M1); try lia.
  assert (E : (u0 - c1) * BIGNUM_RADIX + u1' * BIGNUM_RADIX_ROOT + u2' = r + (q - g) * V)
    by (subst U V; nia).
  unwrap. clearbody q r. destruct (Z.eqb_spec c1 0); [| destruct (Z.ltb_spec (u0 - c1) 0)].
  - exists u0, u1', u2'. destruct G as [-> | ->]; [| lia]. repeat split; lia.
  - destruct G as [-> | ->]; [lia |].
    pose proof (BDDS_ADD_spec v2 u2' 0) as A2. destruct (BDDS_ADD v2 u2' 0) as [u2'' k2].
    destruct A2 as (? & ? & A2); try lia.
    pose proof (BDDS_ADD_spec v1 u1' k2) as A1. destruct (BDDS_ADD v1 u1' k2) as [u1'' k1].
    destruct A1 as (? & ? & A1); try lia. unwrap.
    eexists _, u1'', u2''. repeat split; try lia. do 2 f_equal. lia.
  - eexists _, u1', u2'. destruct G as [-> | ->]; [| lia]. repeat split; lia.
Qed.

Lemma BDD_STEP_spec v1 v2 u0 u1 u2 :
  BIGNUM_RADIX_ROOT <= 2 * v1 -> v1 < BIGNUM_RADIX_ROOT -> 0 <= v2 < BIGNUM_RADIX_ROOT ->
  0 <= u0 -> 0 <= u1 < BIGNUM_RADIX_ROOT -> 0 <= u2 < BIGNUM_RADIX_ROOT ->
  let U := (u0 * BIGNUM_RADIX_ROOT + u1) * BIGNUM_RADIX_ROOT + u2 in
  let V := v1 * BIGNUM_RADIX_ROOT + v2 in
  U < BIGNUM_RADIX_ROOT * V ->
  exists u0' u1' u2', BDD_STEP v1 v2 u0 u1 u2 = Some (U / V, (u0', u1', u2'))
    /\ 0 <= u1' < BIGNUM_RADIX_ROOT /\ 0 <= u2' < BIGNUM_RADIX_ROOT
    /\ u1' * BIGNUM_RADIX_ROOT + u2' = U mod V.
Proof.
  intros Hv1 Hv1B Hv2 Hu0 Hu1 Hu2 U V HUV.
  assert (Hu0v : u0 <= v1) by (subst U V; lia).
  assert (I : let '(g, c) :=
      if negb (u0 =? v1) then (Z.quot (HD_CONS u0 u1) v1, HD_CONS (Z.rem (HD_CONS u0 u1) v1) u2)
      else (BIGNUM_RADIX_ROOT - 1, HD_CONS (u1 + v1)%SL u2) in
    exists rh, c = rh * BIGNUM_RADIX_ROOT + u2 /\ rh < 4294967296
      /\ estimating BIGNUM_RADIX_ROOT v1 v2 1 0 u0 u1 u2 0 g rh).
  { unwrap. destruct (Z.eqb_spec u0 v1) as [-> | N]; cbn [negb].
    - exists (u1 + v1). rewrite HD_CONS_add by lia. split; [lia |]. split; [lia |]. apply estimate_init_top; lia.
    - rewrite (HD_CONS_add u0 u1) by lia. rewrite Z.quot_div_nonneg, Z.rem_mod_nonneg by lia.
      pose proof (Z.mod_pos_bound (u0 * BIGNUM_RADIX_ROOT + u1) v1).
      rewrite HD_CONS_add by lia. eexists. split; [reflexivity |]. split; [lia |].
      apply estimate_init_div; lia. }
  unfold BDD_STEP. cbv zeta.
  destruct (if negb (u0 =? v1) then _ else _) as [g c]. destruct I as (rh & -> & Hrh & I).
  destruct (bdd_adjust_spec v1 v2 u0 u1 u2) with (fuel := 2%nat) (g := g) (rh := rh)
    as (g' & -> & Hg'); try assumption; try lia.
  { destruct I as (_ & ? & _). lia. }
  apply half_estimated in Hg'; try lia. destruct Hg' as [Hg1 Hg2]. cbn [obind].
  destruct (bignum_digit_divide_subtract_spec v1 v2 g' u0 u1 u2) as (u0' & u1' & u2' & E & R); try lia.
  rewrite E. exists u0', u1', u2'. split; [reflexivity |]. exact R.
Qed.

(** The two-by-one-digit division is exact for a normalized denominator. *)
Lemma bignum_digit_divide_spec uh ul v :
  BIGNUM_RADIX <= 2 * v -> v < BIGNUM_RADIX -> 0 <= uh < v -> is_digit ul ->
  bignum_digit_divide uh ul v
  = Some ((uh * BIGNUM_RADIX + ul) / v, (uh * BIGNUM_RADIX + ul) mod v).
Proof.
  intros Hv HvB Huh Hul. unfold bignum_digit_divide. red in Hul.
  destruct ((uh =? 0) && (ul <? v))%bool eqn:E1; reflect_bools.
  { subst uh. rewrite Z.mul_0_l, Z.add_0_l, Z.div_small, Z.mod_small by lia. reflexivity. }
  destruct ((uh =? 0) && (ul =? v))%bool eqn:E2; reflect_bools.
  { subst uh ul. rewrite Z.mul_0_l, Z.add_0_l, Z.div_same, Z.mod_same by lia. reflexivity. }
  clear E1 E2. pose proof (HD_split uh). pose proof (HD_split ul). pose proof (HD_split v).
  pose proof (HD_LOW_range uh). pose proof (HD_LOW_range ul). pose proof (HD_LOW_range v).
  pose proof (HD_HIGH_range uh ltac:(red; lia)). pose proof (HD_HIGH_range ul Hul).
  pose proof (HD_HIGH_range v ltac:(red; lia)).
  set (v1 := HD_HIGH v) in *. set (v2 := HD_LOW v) in *.
  set (h1 := HD_HIGH uh) in *. set (h2 := HD_LOW uh) in *.
  set (l1 := HD_HIGH ul) in *. set (l2 := HD_LOW ul) in *. cbv zeta.
  destruct (BDD_STEP_spec v1 v2 h1 h2 l1) as (x & r1 & r2 & -> & Hr1 & Hr2 & R1); try lia.
  cbn [obind].
  set (V := v1 * BIGNUM_RADIX_ROOT + v2) in *.
  set (U := (h1 * BIGNUM_RADIX_ROOT + h2) * BIGNUM_RADIX_ROOT + l1) in *.
  pose proof (Z.mod_pos_bound U V ltac:(lia)). pose proof (Z.div_mod U V ltac:(lia)).
  destruct (BDD_STEP_spec v1 v2 r1 r2 l2) as (y & s1 & s2 & -> & Hs1 & Hs2 & S1); try lia.
  fold V in S1 |- *.
  cbn [obind]. set (U2 := (r1 * BIGNUM_RADIX_ROOT + r2) * BIGNUM_RADIX_ROOT + l2) in *.
  pose proof (Z.mod_pos_bound U2 V ltac:(lia)). pose proof (Z.div_mod U2 V ltac:(lia)).
  assert (0 <= U / V) by (apply Z.div_pos; lia).
  assert (U / V < BIGNUM_RADIX_ROOT) by (apply Z.div_lt_upper_bound; lia).
  assert (0 <= U2 / V) by (apply Z.div_pos; lia).
  assert (U2 / V < BIGNUM_RADIX_ROOT) by (apply Z.div_lt_upper_bound; lia).
  rewrite !HD_CONS_add by lia.
  assert (uh * BIGNUM_RADIX + ul
    = v * (U / V * BIGNUM_RADIX_ROOT + U2 / V) + (s1 * BIGNUM_RADIX_ROOT + s2)) by lia.
  do 2 f_equal; [eapply Z.div_unique_pos | eapply Z.mod_unique_pos]; [| eassumption | | eassumption]; lia.
Qed.

(** ** Subtracting a multiple of the denominator *)

Lemma slong_idem z : slong (slong z) = slong z.
Proof. apply slong_small, slong_range. Qed.

(** A half-digit product as the division writes it, with a carry in. *)
Lemma divide_product v g c : is_digit v -> is_digit g -> is_digit c ->
  let pl := ((HD_LOW v * HD_LOW g)%SL + HD_LOW c)%SL in
  let ph := ((((HD_LOW v * HD_HIGH g)%SL + (HD_HIGH v * HD_LOW g)%SL)%SL
    + HD_HIGH pl)%SL + HD_HIGH c)%SL in
  let digit := HD_CONS (HD_LOW ph) (HD_LOW pl) in
  let carry := ((HD_HIGH v * HD_HIGH g)%SL + HD_HIGH ph)%SL in
  is_digit digit /\ is_digit carry /\ digit + BIGNUM_RADIX * carry = v * g + c.
Proof.
  intros Hv Hg Hc. pose proof (multiply_step (HD_LOW g) (HD_HIGH g) (HD_LOW v) (HD_HIGH v) 0 c
    (HD_LOW_range g) (HD_HIGH_range g Hg) (HD_LOW_range v) (HD_HIGH_range v Hv)
    ltac:(red; lia) Hc) as M. cbv zeta in M |- *.
  rewrite Z.add_0_l, slong_idem, <- !HD_split, (Z.mul_comm (HD_LOW g)),
    (Z.mul_comm (HD_LOW g)), !(Z.mul_comm (HD_HIGH g)) in M.
  rewrite Z.add_0_r, (Z.mul_comm g v) in M. exact M.
Qed.

Lemma divide_subtract_digits_spec g : is_digit g -> forall vs lo rest carry,
  digits_ok vs -> digits_ok lo -> length lo = length vs -> is_digit carry ->
  exists ds c, divide_subtract_digits (HD_LOW g) (HD_HIGH g) vs (lo ++ rest) carry = (ds, rest, c)
    /\ digits_ok ds /\ length ds = length vs /\ is_digit c
    /\ eval ds - BIGNUM_RADIX ^ Z.of_nat (length vs) * c = eval lo - g * eval vs - carry.
Proof.
  intros Hg. induction vs as [|v vs IH]; intros [|u lo] rest carry Hv Hlo L Hc; try discriminate.
  - exists [], carry. cbn [divide_subtract_digits app length eval].
    red in Hc. rewrite Z.pow_0_r. repeat split; auto; lia.
  - inversion_clear Hv as [|? ? Hv1 Hvs]. inversion_clear Hlo as [|? ? Hu Hlo'].
    cbn [divide_subtract_digits app].
    pose proof (divide_product v g carry Hv1 Hg Hc) as (D & C & E). cbv zeta in E.
    match type of C with is_digit ?x => set (c' := x) in * end.
    match type of D with is_digit ?x => set (p := x) in * end. clearbody c' p.
    assert (c' < BIGNUM_RADIX - 1 \/ p = 0) by (red in Hv1, Hg, Hc, D, C; nia).
    pose proof Hu as Hu'. pose proof D as D'. pose proof C as C'. red in Hu', D', C'. unwrap.
    destruct (Z.ltb_spec (u - p) 0).
    + destruct (IH lo rest (c' + 1) Hvs Hlo' ltac:(cbn in L; lia) ltac:(red; lia))
        as (ds & c & -> & O & Ld & Hc1 & Ev).
      exists (u - p + BIGNUM_RADIX :: ds), c. cbn [length eval].
      rewrite Nat2Z.inj_succ, Z.pow_succ_r by lia.
      red in Hc1. repeat split; auto; try lia. constructor; [red; lia | auto].
    + destruct (IH lo rest c' Hvs Hlo' ltac:(cbn in L; lia) C) as (ds & c & -> & O & Ld & Hc1 & Ev).
      exists (u - p :: ds), c. cbn [length eval].
      rewrite Nat2Z.inj_succ, Z.pow_succ_r by lia.
      red in Hc1. repeat split; auto; try lia. constructor; [red; lia | auto].
Qed.

Lemma add_back_digits_spec : forall vs us carry,
  digits_ok vs -> digits_ok us -> length us = length vs -> 0 <= carry <= 1 ->
  exists ds c, add_back_digits vs us carry = (ds, c)
    /\ digits_ok ds /\ length ds = length vs /\ 0 <= c <= 1
    /\ eval ds + BIGNUM_RADIX ^ Z.of_nat (length vs) * c = eval us + eval vs + carry.
Proof.
  induction vs as [|v vs IH]; intros [|u us] carry Hv Hu L Hc; try discriminate.
  - exists [], carry. cbn [add_back_digits length eval].
    rewrite Z.pow_0_r. repeat split; auto; lia.
  - inversion_clear Hv as [|? ? Hv1 Hvs]. inversion_clear Hu as [|? ? Hu1 Hus].
    cbn [add_back_digits length] in *. red in Hv1, Hu1. unwrap.
    destruct (Z.ltb_spec (v + u + carry) BIGNUM_RADIX).
    + destruct (IH us 0 Hvs Hus ltac:(lia) ltac:(lia)) as (ds & c & -> & O & Ld & Hc1 & Ev).
      eexists _, c. split; [reflexivity |]. cbn [length eval].
      rewrite Nat2Z.inj_succ, Z.pow_succ_r by lia.
      repeat split; auto; try lia. constructor; [red; lia | auto].
    + destruct (IH us 1 Hvs Hus ltac:(lia) ltac:(lia)) as (ds & c & -> & O & Ld & Hc1 & Ev).
      eexists _, c. split; [reflexivity |]. cbn [length eval].
      rewrite Nat2Z.inj_succ, Z.pow_succ_r by lia.
      repeat split; auto; try lia. constructor; [red; lia | auto].
Qed.

Lemma carry_zero a p x r : a + p * x = r -> 0 <= a < p -> 0 <= r < p -> x = 0.
Proof. nia. Qed.

(** One round of the division: the digit stored and the partial remainder
    left in place of the window, whose top digit becomes 0. *)
Lemma bignum_divide_subtract_spec vs g lo top rest :
  let U := eval lo + BIGNUM_RADIX ^ Z.of_nat (length vs) * top in
  let V := eval vs in
  digits_ok vs -> digits_ok lo -> length lo = length vs -> is_digit top -> is_digit g ->
  0 < V -> U / V <= g <= U / V + 1 ->
  exists w, bignum_divide_subtract vs g (lo ++ top :: rest) = Some (U / V, w ++ 0 :: rest)
    /\ digits_ok w /\ length w = length vs /\ eval w = U mod V.
Proof.
  intros U V Hvs Hlo L Htop Hg HV HgU.
  pose proof (eval_range vs Hvs) as RV. pose proof (eval_range lo Hlo) as Rlo. rewrite L in Rlo.
  pose proof (Z.div_mod U V ltac:(lia)) as DM. pose proof (Z.mod_pos_bound U V HV) as MB.
  set (P := BIGNUM_RADIX ^ Z.of_nat (length vs)) in *. fold V in RV. red in Htop.
  assert (HU : 0 <= U) by (subst U; nia).
  assert (Hq : 0 <= U / V) by (apply Z.div_pos; lia).
  set (q := U / V) in *. set (r := U mod V) in *. clearbody q r.
  unfold bignum_divide_subtract. destruct (Z.eqb_spec g 0) as [-> | Ng].
  { assert (q = 0) as -> by lia. assert (U = r) by lia.
    assert (top = 0) as -> by (subst U; nia). exists lo.
    repeat split; auto; lia. }
  destruct (divide_subtract_digits_spec g Hg vs lo (top :: rest) 0 Hvs Hlo L ltac:(red; lia))
    as (ds & c & -> & O & Ld & Hc & E). fold P V in E.
  pose proof (eval_range ds O) as Rds. rewrite Ld in Rds. fold P in Rds.
  assert (E' : eval ds + P * (top - c) = r + (q - g) * V) by (subst U; lia). clear E.
  red in Hc, Hg. unwrap.
  assert (G : g = q \/ g = q + 1) by lia.
  destruct (Z.eqb_spec c 0) as [-> | Nc]; [| destruct (Z.ltb_spec (top - c) 0)].
  - assert (g = q) as -> by (destruct G; [assumption | subst g; nia]).
    assert (top = 0) as -> by nia. exists ds. repeat split; auto. lia.
  - destruct G as [-> | ->]; [pose proof (carry_zero (eval ds) P (top - c) r); lia |].
    destruct (add_back_digits_spec vs ds 0 Hvs O Ld ltac:(lia)) as (es & k & -> & Oe & Le & Hk & Ee).
    pose proof (eval_range es Oe) as Res. rewrite Le in Res. fold P V in Ee, Res.
    assert (eval es + P * (top - c + k) = r) by lia.
    assert (top - c + k = 0) by (apply (carry_zero (eval es) P _ r); lia). assert (k = 1) as -> by lia. cbn [Z.eqb Pos.eqb].
    unwrap. destruct (Z.ltb_spec (top - c + BIGNUM_RADIX + 1) BIGNUM_RADIX); [lia |].
    exists es. repeat split; auto; [| nia]. do 2 f_equal; [lia |]. do 2 f_equal. lia.
  - assert (g = q) as -> by (destruct G; [assumption | subst g; nia]).
    assert (top - c = 0) as Ez by (apply (carry_zero (eval ds) P _ r); lia). exists ds. rewrite Ez. repeat split; auto. lia.
Qed.

(** ** The quotient digits *)

Section GuessDigit.
Variables v1 v2 W Vl uj uj1 uj2 Ul : Z.
Hypothesis Hv1 : BIGNUM_RADIX <= 2 * v1.
Hypothesis Hv1B : v1 < BIGNUM_RADIX.
Hypothesis Hv2 : is_digit v2.
Hypothesis HW : 0 < W.
Hypothesis HVl : 0 <= Vl < W.
Hypothesis Huj : 0 <= uj.
Hypothesis Huj1 : is_digit uj1.
Hypothesis Huj2 : is_digit uj2.
Hypothesis HUl : 0 <= Ul < W.

Let V := (v1 * BIGNUM_RADIX + v2) * W + Vl.
Let U := ((uj * BIGNUM_RADIX + uj1) * BIGNUM_RADIX + uj2) * W + Ul.
Hypothesis HUV : U < BIGNUM_RADIX * V.

Let estimating_digit := estimating BIGNUM_RADIX v1 v2 W Vl uj uj1 uj2 Ul.

Lemma correct_guess_spec : forall fuel g rh,
  estimating_digit g rh -> rh < 9223372036854775808 ->
  (0 < fuel)%nat -> BIGNUM_RADIX <= rh + Z.of_nat fuel * v1 ->
  exists g', correct_guess fuel v1 v2 g rh uj2 = Some g'
    /\ U / V <= g' <= U / V + 1 /\ is_digit g'.
Proof.
  pose proof (estimate_q BIGNUM_RADIX v1 v2 W Vl uj uj1 uj2 Ul) as Q.
  unfold is_digit in Hv2, Huj1, Huj2.
  fold V U in Q. destruct Q as [Q _]; auto; try lia.
  assert (Exit : forall g rh, estimating_digit g rh ->
    BIGNUM_RADIX <= rh \/ g * v2 <= rh * BIGNUM_RADIX + uj2 ->
    U / V <= g <= U / V + 1 /\ is_digit g).
  { intros g rh I T. unfold estimating_digit in I. unfold is_digit.
    apply estimate_exit in I; auto; try lia. red in I. fold V U in I. lia. }
  induction fuel as [|fuel IH]; intros g rh I Hrh F M; [lia |]. cbn [correct_guess].
  pose proof I as (Hg & Hrh0 & Erh). fold V U in Hg.
  pose proof (divide_product v2 g 0 Hv2 ltac:(red; lia) ltac:(red; lia)) as P.
  cbv zeta in P. change (HD_LOW 0) with 0 in P. change (HD_HIGH 0) with 0 in P.
  rewrite !Z.add_0_r, !slong_idem in P.
  destruct P as (Dl & Dh & E).
  match type of Dh with is_digit ?x => set (ph := x) in * end.
  match type of Dl with is_digit ?x => set (pl := x) in * end. clearbody ph pl.
  red in Dl, Dh.
  destruct ((ph <? rh) || (rh =? ph) && (pl <=? uj2))%bool eqn:T.
  - apply orb_true_iff in T. eexists. split; [reflexivity |]. apply (Exit g rh); auto.
    destruct T as [T | T]; reflect_bools; lia.
  - apply orb_false_iff in T as [T1 T2]. apply andb_false_iff in T2.
    assert (I' : estimating_digit (g - 1) (rh + v1)).
    { apply estimate_step; auto; try lia. }
    assert (rh <= ph) by (reflect_bools; lia). unwrap.
    destruct (Z.leb_spec BIGNUM_RADIX (rh + v1)).
    + eexists. split; [reflexivity |]. eapply Exit; eauto.
    + apply IH; auto; lia.
Qed.

(** The guess of one round, from its two cases. *)
Lemma guess_spec :
  exists g ch g', (if negb (uj =? v1) then bignum_digit_divide uj uj1 v1
    else Some (BIGNUM_RADIX - 1, (uj1 + v1)%SL)) = Some (g, ch)
    /\ correct_guess 2 v1 v2 g ch uj2 = Some g'
    /\ U / V <= g' <= U / V + 1 /\ is_digit g'.
Proof.
  pose proof Hv2 as Hv2'. pose proof Huj1 as Huj1'. pose proof Huj2 as Huj2'.
  red in Hv2', Huj1', Huj2'.
  pose proof (estimate_uj BIGNUM_RADIX v1 v2 W Vl uj uj1 uj2 Ul) as L.
  fold V U in L. specialize (L ltac:(lia) ltac:(lia) ltac:(lia) ltac:(lia) ltac:(lia)
    ltac:(lia) ltac:(lia) ltac:(lia) ltac:(lia) ltac:(lia) HUV).
  destruct (Z.eqb_spec uj v1) as [E | N]; cbn [negb].
  - unwrap. destruct (correct_guess_spec 2 (BIGNUM_RADIX - 1) (uj1 + v1)) as (g' & H); try lia.
    { apply estimate_init_top; auto; lia. }
    eexists _, _, g'. split; [reflexivity |]. exact H.
  - rewrite bignum_digit_divide_spec by (auto; lia).
    pose proof (Z.mod_pos_bound (uj * BIGNUM_RADIX + uj1) v1).
    destruct (correct_guess_spec 2 ((uj * BIGNUM_RADIX + uj1) / v1)
      ((uj * BIGNUM_RADIX + uj1) mod v1)) as (g' & H'); try lia.
    { apply estimate_init_div; auto; lia. }
    eexists _, _, g'. split; [reflexivity |]. exact H'.
Qed.
End GuessDigit.

Lemma last_digits (k : nat) (ds : list Z) :
  (k <= length ds)%nat -> exists lo hi, ds = lo ++ hi /\ length hi = k.
Proof.
  intros L. exists (firstn (length ds - k) ds), (skipn (length ds - k) ds).
  rewrite firstn_skipn, length_skipn. split; [reflexivity | lia].
Qed.

Lemma nth_at (lo hi : list Z) (a : Z) (n : nat) : n = length lo -> nth n (lo ++ a :: hi) 0 = a.
Proof. intros ->. apply nth_middle. Qed.

(** The guess of one round from the digits of the lists. *)
Lemma round_guess vl v2 v1 x uj2 uj1 uj :
  let V := eval (vl ++ [v2; v1]) in
  let U := eval (x ++ [uj2; uj1; uj]) in
  digits_ok (vl ++ [v2; v1]) -> digits_ok (x ++ [uj2; uj1; uj]) -> length x = length vl ->
  BIGNUM_RADIX <= 2 * v1 -> U < BIGNUM_RADIX * V ->
  exists g ch g', (if negb (uj =? v1) then bignum_digit_divide uj uj1 v1
      else Some (BIGNUM_RADIX - 1, (uj1 + v1)%SL)) = Some (g, ch)
    /\ correct_guess 2 v1 v2 g ch uj2 = Some g'
    /\ U / V <= g' <= U / V + 1 /\ is_digit g'.
Proof.
  intros V U Ov Ou Lx Hv1 HUV. subst U V.
  rewrite eval_app in HUV |- *. rewrite (eval_app vl) in HUV |- *. rewrite Lx in *.
  apply Forall_app in Ou as [Ox Ot]. apply Forall_app in Ov as [Ovl Ov].
  pose proof (eval_range vl Ovl) as RV. pose proof (eval_range x Ox) as RU. rewrite Lx in RU.
  pose proof (radix_pow_pos (length vl)) as HP.
  set (P := BIGNUM_RADIX ^ Z.of_nat (length vl)) in *. cbn [eval] in HUV |- *.
  inversion_clear Ov as [|? ? Dv2 Ov']. inversion_clear Ov' as [|? ? Dv1 _].
  inversion_clear Ot as [|? ? Du2 Ot']. inversion_clear Ot' as [|? ? Du1 Ot].
  inversion_clear Ot as [|? ? Du0 _]. red in Dv1, Du0.
  destruct (guess_spec v1 v2 P (eval vl) uj uj1 uj2 (eval x)) as (g & ch & g' & H); auto; try lia.
  exists g, ch, g'.
  replace (eval vl + P * (v2 + BIGNUM_RADIX * (v1 + BIGNUM_RADIX * 0)))
    with ((v1 * BIGNUM_RADIX + v2) * P + eval vl) by ring.
  replace (eval x + P * (uj2 + BIGNUM_RADIX * (uj1 + BIGNUM_RADIX * (uj + BIGNUM_RADIX * 0))))
    with (((uj * BIGNUM_RADIX + uj1) * BIGNUM_RADIX + uj2) * P + eval x) by ring.
  exact H.
Qed.

(** The words a round reads from [u]. *)
Lemma window_reads lo x uj2 uj1 uj rest n :
  let us := lo ++ (x ++ [uj2; uj1; uj]) ++ rest in
  n = (length x + 2)%nat ->
  nth (length lo + n) us 0 = uj /\ nth (length lo + n - 1) us 0 = uj1
  /\ nth (length lo + n - 2) us 0 = uj2
  /\ firstn (length lo) us = lo /\ skipn (length lo) us = (x ++ [uj2; uj1]) ++ uj :: rest.
Proof.
  intros us ->.
  assert (E0 : us = (lo ++ x ++ [uj2; uj1]) ++ uj :: rest) by (subst us; now rewrite <- !app_assoc).
  assert (E1 : us = (lo ++ x ++ [uj2]) ++ uj1 :: uj :: rest) by (subst us; now rewrite <- !app_assoc).
  assert (E2 : us = (lo ++ x) ++ uj2 :: uj1 :: uj :: rest) by (subst us; now rewrite <- !app_assoc).
  repeat split.
  - rewrite E0. apply nth_at. rewrite !length_app. cbn [length]. lia.
  - rewrite E1. apply nth_at. rewrite !length_app. cbn [length]. lia.
  - rewrite E2. apply nth_at. rewrite !length_app. lia.
  - subst us. rewrite firstn_app, Nat.sub_diag, firstn_all. apply app_nil_r.
  - rewrite E0, <- app_assoc, skipn_app, Nat.sub_diag, skipn_all. reflexivity.
Qed.

(** One round of the loop: [d :: w] is the partial remainder with the next
    digit of [u] shifted in. *)
Lemma divide_digits_round vs lo d w rest qs :
  let U := eval (d :: w) in
  let V := eval vs in
  digits_ok vs -> digits_ok w -> is_digit d -> (2 <= length vs)%nat ->
  BIGNUM_RADIX <= 2 * nth (length vs - 1) vs 0 ->
  length w = length vs -> eval w < V ->
  exists w', divide_digits (S (length lo)) vs (lo ++ (d :: w) ++ rest) qs
      = divide_digits (length lo) vs (lo ++ w' ++ 0 :: rest) (U / V :: qs)
    /\ digits_ok w' /\ length w' = length vs /\ eval w' = U mod V.
Proof.
  intros U V Hvs Hw Hd Hn Hv1 L Hlt. pose proof (eval_nonneg w Hw).
  destruct (last_digits 2 vs Hn) as (vl & hi & E & Lh).
  destruct hi as [|v2 [|v1 [|]]]; try discriminate.
  assert (E' : vs = (vl ++ [v2]) ++ [v1]) by (rewrite E; now rewrite <- app_assoc).
  assert (Lv : length vs = (length vl + 2)%nat) by (rewrite E, length_app; reflexivity).
  assert (N1 : nth (length vs - 1) vs 0 = v1)
    by (rewrite E' at 2; apply nth_at; rewrite length_app; cbn [length]; lia).
  assert (N2 : nth (length vs - 2) vs 0 = v2) by (rewrite E at 2; apply nth_at; lia).
  destruct (last_digits 3 (d :: w)) as (x & top & Et & Lt); [cbn [length]; lia |].
  destruct top as [|uj2 [|uj1 [|uj [|]]]]; try discriminate.
  assert (Ox : digits_ok (x ++ [uj2; uj1; uj])) by (rewrite <- Et; auto).
  assert (Lx : length x = length vl).
  { apply (f_equal (@length Z)) in Et. rewrite length_app in Et. cbn [length] in *. lia. }
  assert (HUV : U < BIGNUM_RADIX * V) by (subst U; cbn [eval]; red in Hd; lia).
  assert (EU : U = eval (x ++ [uj2; uj1]) + BIGNUM_RADIX ^ Z.of_nat (length vs) * uj).
  { subst U. rewrite Et. replace (x ++ [uj2; uj1; uj]) with ((x ++ [uj2; uj1]) ++ [uj])
      by now rewrite <- app_assoc. now rewrite eval_snoc, length_app, Lx, Lv. }
  destruct (round_guess vl v2 v1 x uj2 uj1 uj) as (g & ch & g' & Hg & Hc & Hq & Dg);
    rewrite <- ?E, <- ?Et; auto; try congruence.
  rewrite <- E, <- Et in Hq. fold U V in Hq.
  apply Forall_app in Ox as [Ox Ot].
  inversion_clear Ot as [|? ? Du2 Ot']. inversion_clear Ot' as [|? ? Du1 Ot].
  inversion_clear Ot as [|? ? Du0 _].
  destruct (bignum_divide_subtract_spec vs g' (x ++ [uj2; uj1]) uj rest) as (w' & Hs & Hw');
    auto; try lia.
  { apply Forall_app. auto. }
  { rewrite length_app, Lx, Lv. reflexivity. }
  { rewrite <- EU. exact Hq. }
  rewrite <- EU in Hs, Hw'. fold V in Hs, Hw'.
  exists w'. split; [| exact Hw']. cbn [divide_digits]. rewrite N1, N2.
  rewrite Et.
  destruct (window_reads lo x uj2 uj1 uj rest (length vs)) as (-> & -> & -> & -> & ->); [lia |].
  rewrite Hg. cbn [obind]. rewrite Hc. cbn [obind]. now rewrite Hs.
Qed.

(** The whole loop, from a partial remainder [w] below the denominator. *)
Lemma divide_digits_spec vs :
  digits_ok vs -> (2 <= length vs)%nat -> BIGNUM_RADIX <= 2 * nth (length vs - 1) vs 0 ->
  forall k lo w m qs, digits_ok lo -> length lo = k ->
  digits_ok w -> length w = length vs -> eval w < eval vs ->
  exists qs' w', divide_digits k vs (lo ++ w ++ repeat 0 m) qs
      = Some (w' ++ repeat 0 (k + m), qs' ++ qs)
    /\ digits_ok qs' /\ length qs' = k /\ digits_ok w' /\ length w' = length vs
    /\ eval w' < eval vs /\ eval (lo ++ w) = eval qs' * eval vs + eval w'.
Proof.
  intros Hvs Hn Hv1. induction k as [|k IH]; intros lo w m qs Hlo Lk Hw L Hlt.
  - destruct lo; [| discriminate]. exists [], w. cbn [divide_digits app eval length].
    repeat split; auto.
  - destruct (last_digits 1 lo) as (lo' & hi & -> & Lh); [lia |].
    destruct hi as [|d [|]]; try discriminate. rewrite length_app in Lk. cbn [length] in Lk.
    assert (k = length lo') as -> by lia.
    apply Forall_app in Hlo as [Hlo Hd]. inversion_clear Hd as [|? ? Hd1 _].
    rewrite <- app_assoc. cbn [app].
    destruct (divide_digits_round vs lo' d w (repeat 0 m) qs) as (w' & E & Ow & Lw & Ew); auto.
    change (d :: w ++ repeat 0 m) with ((d :: w) ++ repeat 0 m). rewrite E. clear E.
    pose proof (eval_nonneg w Hw).
    pose proof (Z.mod_pos_bound (eval (d :: w)) (eval vs) ltac:(lia)).
    pose proof (Z.div_mod (eval (d :: w)) (eval vs) ltac:(lia)) as DM.
    destruct (IH lo' w' (S m) (eval (d :: w) / eval vs :: qs))
      as (qs' & w'' & E & Oq & Lq & Ow' & Lw' & Hlt' & Ev); auto; try lia.
    change (0 :: repeat 0 m) with (repeat 0 (S m)). rewrite E.
    exists (qs' ++ [eval (d :: w) / eval vs]), w''. rewrite <- app_assoc, length_app. cbn [app length].
    replace (length lo' + S m)%nat with (S (length lo') + m)%nat by lia.
    repeat split; auto; try lia.
    + apply Forall_app. split; [exact Oq |]. constructor; [| constructor].
      assert (eval (d :: w) < BIGNUM_RADIX * eval vs) by (cbn [eval]; red in Hd1; lia).
      split; [apply Z.div_pos; [apply eval_nonneg; auto | lia] | apply Z.div_lt_upper_bound; lia].
    + rewrite <- app_assoc. change ([d] ++ w) with (d :: w).
      rewrite eval_app, eval_snoc, Lq in *. rewrite Ew in Ev. nia.
Qed.

(** ** Normalization *)

Lemma ulong_mask k : 0 <= k <= 63 -> ((1 << k) - 1)%UL = 2 ^ k - 1.
Proof.
  intros Hk. rewrite Z.shiftl_1_l.
  assert (0 < 2 ^ k) by (apply Z.pow_pos_nonneg; lia).
  assert (2 ^ k <= 2 ^ 63) by (apply Z.pow_le_mono_r; lia).
  change (2 ^ 63) with 9223372036854775808 in *. now unwrap.
Qed.

(** A digit cut at bit [62 - s]. *)
Section CutDigit.
Variables s d : Z.
Hypothesis Hs : 0 <= s < 62.
Hypothesis Hd : is_digit d.

Lemma pow_shift : 2 ^ s * 2 ^ (62 - s) = BIGNUM_RADIX.
Proof. rewrite <- Z.pow_add_r by lia. now replace (s + (62 - s)) with 62 by lia. Qed.

Lemma pow_shift_pos : 0 < 2 ^ s /\ 0 < 2 ^ (62 - s).
Proof. split; apply Z.pow_pos_nonneg; lia. Qed.

Lemma normalize_step c : 0 <= c < 2 ^ s ->
  let e := ((d & ((1 << (62 - s)) - 1)%UL) << s)%SL .| c in
  is_digit e /\ 0 <= d >>> (62 - s) < 2 ^ s
  /\ e + BIGNUM_RADIX * (d >>> (62 - s)) = 2 ^ s * d + c.
Proof.
  intros Hc e. subst e. pose proof pow_shift as P. destruct pow_shift_pos as [Ps Pr].
  rewrite ulong_mask, land_mask, shiftr_div by lia.
  pose proof (Z.mod_pos_bound d (2 ^ (62 - s)) Pr) as M.
  pose proof (Z.div_mod d (2 ^ (62 - s)) ltac:(lia)) as D. red in Hd.
  set (hi := d / 2 ^ (62 - s)) in *. set (lo := d mod 2 ^ (62 - s)) in *.
  set (A := 2 ^ s) in *. set (B := 2 ^ (62 - s)) in *. clearbody hi lo.
  assert (0 <= lo * A <= BIGNUM_RADIX - A) by nia.
  rewrite slong_small by (rewrite Z.shiftl_mul_pow2 by lia; fold A; lia).
  rewrite shiftl_lor_add by (try fold A; lia). fold A. unfold is_digit. nia.
Qed.

Lemma unnormalize_step x : 0 <= x ->
  let c := x mod 2 ^ s * 2 ^ (62 - s) in
  let e := (d >>> s) .| c in
  is_digit e /\ ((d & ((1 << s) - 1)%UL) << (62 - s))%SL
    = (d + BIGNUM_RADIX * x) mod 2 ^ s * 2 ^ (62 - s)
  /\ e + BIGNUM_RADIX * (x / 2 ^ s) = (d + BIGNUM_RADIX * x) / 2 ^ s.
Proof.
  intros Hx c e. subst c e. pose proof pow_shift as P. destruct pow_shift_pos as [Ps Pr].
  rewrite ulong_mask, land_mask, shiftr_div by lia. rewrite <- P.
  replace (d + 2 ^ s * 2 ^ (62 - s) * x) with (d + (2 ^ (62 - s) * x) * 2 ^ s) by ring.
  rewrite Z.mod_add, Z.div_add by lia. red in Hd.
  pose proof (Z.mod_pos_bound x (2 ^ s) Ps). pose proof (Z.div_mod x (2 ^ s) ltac:(lia)).
  pose proof (Z.mod_pos_bound d (2 ^ s) Ps). pose proof (Z.div_mod d (2 ^ s) ltac:(lia)).
  assert (0 <= d / 2 ^ s < 2 ^ (62 - s)).
  { split; [apply Z.div_pos; lia | apply Z.div_lt_upper_bound; lia]. }
  rewrite Z.lor_comm, <- Z.shiftl_mul_pow2, shiftl_lor_add by lia.
  set (A := 2 ^ s) in *. set (B := 2 ^ (62 - s)) in *.
  assert (0 <= d mod A * B <= BIGNUM_RADIX) by nia.
  assert (0 <= x mod A * B <= BIGNUM_RADIX - B) by nia.
  rewrite (Z.shiftl_mul_pow2 (d mod A)) by lia. fold B. unwrap. unfold is_digit.
  repeat split; try lia.
Qed.
End CutDigit.

Lemma normalize_digits_spec s : 0 <= s < 62 -> forall ds carry,
  digits_ok ds -> 0 <= carry < 2 ^ s ->
  exists es c, normalize_digits s ds carry = (es, c)
    /\ digits_ok es /\ length es = length ds /\ 0 <= c < 2 ^ s
    /\ eval es + BIGNUM_RADIX ^ Z.of_nat (length ds) * c = 2 ^ s * eval ds + carry.
Proof.
  intros Hs. induction ds as [|d ds IH]; intros carry Hds Hc; cbn [normalize_digits].
  - exists [], carry. cbn [eval length]. rewrite Z.pow_0_r. repeat split; auto; lia.
  - inversion_clear Hds as [|? ? Hd Hds'].
    destruct (normalize_step s d Hs Hd carry Hc) as (D & C & E).
    destruct (IH (d >>> (62 - s)) Hds' C) as (es & c & -> & O & L & Hc' & Ev).
    match type of D with is_digit ?x => set (e := x) in * end.
    exists (e :: es), c. cbn [eval length]. rewrite Nat2Z.inj_succ, Z.pow_succ_r by lia.
    repeat split; auto; try lia.
Qed.

Lemma unnormalize_digits_spec s : 0 <= s < 62 -> forall ds,
  digits_ok ds ->
  exists es, unnormalize_digits s ds = (es, eval ds mod 2 ^ s * 2 ^ (62 - s))
    /\ digits_ok es /\ length es = length ds /\ eval es = eval ds / 2 ^ s.
Proof.
  intros Hs. induction 1 as [|d ds Hd Hds IH]; cbn [unnormalize_digits eval length].
  - exists []. rewrite Zmod_0_l, Zdiv_0_l. auto.
  - destruct IH as (es & -> & O & L & E).
    destruct (unnormalize_step s d Hs Hd (eval ds) (eval_nonneg ds Hds)) as (D & C & Ev).
    eexists. split; [rewrite C; reflexivity |]. cbn [eval length]. rewrite E.
    repeat split; auto.
Qed.

Lemma normalize_digit_spec : forall fuel v shift,
  0 < v < BIGNUM_RADIX -> BIGNUM_RADIX <= v * 2 ^ Z.of_nat fuel ->
  exists k, normalize_digit fuel v shift = Some (v * 2 ^ k, shift + k)
    /\ 0 <= k < Z.of_nat fuel /\ BIGNUM_RADIX <= 2 * (v * 2 ^ k) /\ v * 2 ^ k < BIGNUM_RADIX.
Proof.
  induction fuel as [|fuel IH]; intros v shift Hv HF; [cbn in HF; lia |].
  cbn [normalize_digit]. unwrap. change (BIGNUM_RADIX / 2) with 2305843009213693952.
  destruct (Z.ltb_spec v 2305843009213693952).
  - rewrite Z.shiftl_mul_pow2 by lia. change (2 ^ 1) with 2. unwrap.
    rewrite Nat2Z.inj_succ, Z.pow_succ_r in HF by lia.
    destruct (IH (v * 2) (shift + 1)) as (k & -> & Hk & H1 & H2); [lia | lia |].
    exists (k + 1). rewrite Z.pow_add_r by lia. change (2 ^ 1) with 2.
    rewrite Nat2Z.inj_succ. repeat split; try lia. do 2 f_equal; lia.
  - exists 0. rewrite Z.pow_0_r, Z.mul_1_r, Z.add_0_r. repeat split; lia.
Qed.

(** ** The three denominators *)

Lemma eval_top_lt us vs n :
  digits_ok us -> digits_ok vs -> length us = S n -> length vs = S n ->
  nth n us 0 < nth n vs 0 -> eval us < eval vs.
Proof.
  intros Hu Hv Lu Lv.
  destruct (last_digits 1 us) as (us' & hu & -> & L1); [lia |].
  destruct (last_digits 1 vs) as (vs' & hv & -> & L2); [lia |].
  destruct hu as [|u [|]]; try discriminate. destruct hv as [|v [|]]; try discriminate.
  rewrite length_app in Lu, Lv. cbn [length] in Lu, Lv.
  rewrite (nth_at us'), (nth_at vs'), !eval_snoc by lia. replace (length vs') with (length us') by lia.
  apply Forall_app in Hu as [Hu _]. apply Forall_app in Hv as [Hv _].
  pose proof (eval_range us' Hu). pose proof (eval_nonneg vs' Hv). intros. nia.
Qed.

Lemma nth_skipn_top us k n : length us = (k + S n)%nat -> nth n (skipn k us) 0 = nth (length us - 1) us 0.
Proof. intros L. rewrite nth_skipn. f_equal. lia. Qed.

Lemma bignum_divide_unsigned_normalized_block n1 us n2 vs nq fq (quotient : bool) k :
  digits_ok us -> digits_ok vs -> fits us -> fits vs -> (2 <= length vs)%nat ->
  BIGNUM_RADIX <= 2 * nth (length vs - 1) vs 0 ->
  length us = (k + length vs)%nat -> length fq = k ->
  nth (length us - 1) us 0 < nth (length vs - 1) vs 0 ->
  exists qs ws, bignum_divide_unsigned_normalized (block n1 us) (block n2 vs)
      (if quotient then Some (block nq fq) else None)
      = Some (block n1 ws, if quotient then Some (block nq qs) else None)
    /\ digits_ok qs /\ length qs = k /\ digits_ok ws /\ length ws = length us
    /\ eval us = eval qs * eval vs + eval ws /\ eval ws < eval vs.
Proof.
  intros Hu Hv Fu Fv Hn Hv1 Lu Lq Htop. unfold bignum_divide_unsigned_normalized.
  autorewrite with bignum.
  replace (Z.to_nat (Z.of_nat (length us) - Z.of_nat (length vs))) with k by lia.
  pose proof (firstn_skipn k us) as E.
  assert (Lf : length (firstn k us) = k) by (rewrite length_firstn; lia).
  assert (Ls : length (skipn k us) = length vs) by (rewrite length_skipn; lia).
  assert (O : digits_ok (firstn k us) /\ digits_ok (skipn k us))
    by (apply Forall_app; now rewrite E).
  assert (Hlt : eval (skipn k us) < eval vs).
  { apply (eval_top_lt _ _ (length vs - 1)); try tauto; try lia.
    rewrite (nth_skipn_top us k (length vs - 1)); lia. }
  destruct (divide_digits_spec vs Hv Hn Hv1 k (firstn k us) (skipn k us) 0 []) as
    (qs & w & D & Oq & Lq' & Ow & Lw & Hw & Ev); try tauto.
  cbn [repeat] in D. rewrite !app_nil_r, E, Nat.add_0_r in D. rewrite E in Ev. rewrite D. cbn [obind].
  assert (Lws : length (w ++ repeat 0 k) = length us) by (rewrite length_app, repeat_length; lia).
  assert (Ews : eval (w ++ repeat 0 k) = eval w) by (rewrite eval_app, eval_repeat0; lia).
  exists qs, (w ++ repeat 0 k). rewrite store_digits_block by exact Lws. rewrite Ews.
  repeat split; auto.
  - destruct quotient; cbn [option_map]; [| reflexivity]. now rewrite store_digits_block by lia.
  - apply Forall_app. split; [exact Ow | apply digits_ok_zeros].
Qed.

(** A source shifted into a target with one more digit, or as long. *)
Lemma bignum_destructive_normalization_longer n1 ds n2 ts s :
  0 <= s < 62 -> digits_ok ds -> fits ds -> fits ts -> length ts = S (length ds) ->
  exists es, bignum_destructive_normalization (block n1 ds) (block n2 ts) s = Some (block n2 es)
    /\ digits_ok es /\ length es = length ts /\ eval es = 2 ^ s * eval ds
    /\ nth (length ds) es 0 < 2 ^ s.
Proof.
  intros Hs Hd Fd Ft L. unfold bignum_destructive_normalization. autorewrite with bignum.
  destruct (pow_shift_pos s Hs).
  destruct (normalize_digits_spec s Hs ds 0 Hd) as (es & c & -> & O & Le & Hc & E); [lia |].
  destruct (Z.ltb_spec (Z.of_nat (length ds)) (Z.of_nat (length ts))); [| lia].
  exists (es ++ [c]). rewrite store_digits_block by (rewrite length_app; cbn [length]; lia).
  rewrite eval_snoc, length_app, Le. cbn [length]. rewrite nth_at by lia.
  assert (2 ^ s <= 2 ^ 61) by (apply Z.pow_le_mono_r; lia).
  repeat split; auto; try lia. apply Forall_app. split; [exact O |].
  constructor; [red; lia | auto].
Qed.

Lemma bignum_destructive_normalization_same n1 ds n2 ts s :
  0 <= s < 62 -> digits_ok ds -> fits ds -> fits ts -> length ts = length ds ->
  2 ^ s * eval ds < BIGNUM_RADIX ^ Z.of_nat (length ds) ->
  exists es, bignum_destructive_normalization (block n1 ds) (block n2 ts) s = Some (block n2 es)
    /\ digits_ok es /\ length es = length ts /\ eval es = 2 ^ s * eval ds.
Proof.
  intros Hs Hd Fd Ft L Hlt. unfold bignum_destructive_normalization. autorewrite with bignum.
  destruct (pow_shift_pos s Hs).
  destruct (normalize_digits_spec s Hs ds 0 Hd) as (es & c & -> & O & Le & Hc & E); [lia |].
  destruct (Z.ltb_spec (Z.of_nat (length ds)) (Z.of_nat (length ts))); [lia |].
  pose proof (eval_nonneg es O). assert (c = 0) as -> by nia. cbn [Z.eqb].
  exists es. rewrite store_digits_block by lia. repeat split; auto; lia.
Qed.

Lemma bignum_destructive_unnormalization_block neg ds s :
  0 <= s < 62 -> digits_ok ds -> fits ds -> eval ds mod 2 ^ s = 0 ->
  exists es, bignum_destructive_unnormalization (block neg ds) s = Some (block neg es)
    /\ digits_ok es /\ length es = length ds /\ eval es = eval ds / 2 ^ s.
Proof.
  intros Hs Hd F M. unfold bignum_destructive_unnormalization. autorewrite with bignum.
  destruct (unnormalize_digits_spec s Hs ds Hd) as (es & -> & O & L & E).
  rewrite M, Z.mul_0_l. cbn [Z.eqb]. exists es. rewrite store_digits_block by lia. auto.
Qed.

Lemma top_digit_lower ds n x :
  digits_ok ds -> length ds = S n -> x * BIGNUM_RADIX ^ Z.of_nat n <= eval ds -> x <= nth n ds 0.
Proof.
  intros Hd L Hx. destruct (last_digits 1 ds) as (ds' & h & -> & L1); [lia |].
  destruct h as [|d [|]]; try discriminate. rewrite length_app in L. cbn [length] in L.
  rewrite nth_at by lia. apply Forall_app in Hd as [Hd _].
  pose proof (eval_range ds' Hd) as R. rewrite eval_snoc in Hx.
  replace (length ds') with n in * by lia.
  pose proof (radix_pow_pos n). nia.
Qed.

Lemma top_digit_upper ds n :
  digits_ok ds -> length ds = S n ->
  nth n ds 0 * BIGNUM_RADIX ^ Z.of_nat n <= eval ds
  /\ eval ds < (nth n ds 0 + 1) * BIGNUM_RADIX ^ Z.of_nat n.
Proof.
  intros Hd L. destruct (last_digits 1 ds) as (ds' & h & -> & L1); [lia |].
  destruct h as [|d [|]]; try discriminate. rewrite length_app in L. cbn [length] in L.
  rewrite nth_at by lia. apply Forall_app in Hd as [Hd _].
  pose proof (eval_range ds' Hd) as R. rewrite eval_snoc.
  replace (length ds') with n in * by lia. lia.
Qed.

Lemma trimmed_top ds n :
  digits_ok ds -> trimmed ds -> length ds = S n -> 0 < nth n ds 0 < BIGNUM_RADIX.
Proof.
  intros Hd T L. destruct (last_digits 1 ds) as (ds' & h & -> & L1); [lia |].
  destruct h as [|d [|]]; try discriminate. rewrite length_app in L. cbn [length] in L.
  rewrite nth_at by lia. unfold trimmed in T. rewrite last_last in T.
  apply Forall_app in Hd as [_ Hd]. inversion_clear Hd as [|? ? D _]. red in D. lia.
Qed.

Lemma normalize_denominator neg ys n :
  digits_ok ys -> fits ys -> length ys = S n -> 0 < nth n ys 0 ->
  exists v s, normalize_digit 62 (BIGNUM_REF (block neg ys) (Z.of_nat (length ys) - 1)) 0 = Some (v, s)
    /\ 0 <= s < 62 /\ (s = 0 -> BIGNUM_RADIX <= 2 * nth n ys 0)
    /\ forall neg' ts, length ts = length ys -> fits ts ->
       exists vs, bignum_destructive_normalization (block neg ys) (block neg' ts) s = Some (block neg' vs)
         /\ digits_ok vs /\ length vs = length ys /\ eval vs = 2 ^ s * eval ys
         /\ BIGNUM_RADIX <= 2 * nth n vs 0.
Proof.
  intros Hy F L Ht. replace (Z.of_nat (length ys) - 1) with (Z.of_nat n) by lia.
  rewrite BIGNUM_REF_block. destruct (top_digit_upper ys n Hy L) as [U1 U2].
  assert (D : is_digit (nth n ys 0)).
  { rewrite Forall_forall in Hy. apply Hy, nth_In. lia. }
  red in D. destruct (normalize_digit_spec 62 (nth n ys 0) 0) as (s & E & Hs & N1 & N2); [lia | |].
  { change (2 ^ Z.of_nat 62) with BIGNUM_RADIX. lia. }
  set (t := nth n ys 0) in *. rewrite E. exists (t * 2 ^ s), s.
  change (Z.of_nat 62) with 62 in Hs.
  split; [reflexivity |]. split; [lia |]. split.
  { intros ->. lia. }
  intros neg' ts Lt Ft. pose proof (pow_shift s Hs) as P. destruct (pow_shift_pos s Hs).
  pose proof (radix_pow_pos n) as Pn.
  assert (t < 2 ^ (62 - s)) by (apply (Z.mul_lt_mono_pos_r (2 ^ s)); lia).
  pose proof (Z.mul_le_mono_nonneg_r (t + 1) (2 ^ (62 - s)) (2 ^ s)).
  assert (Lt2 : (t + 1) * 2 ^ s <= BIGNUM_RADIX) by lia.
  destruct (bignum_destructive_normalization_same neg ys neg' ts s) as (vs & Ev & O & Lv & Evs); auto.
  { rewrite L, Nat2Z.inj_succ, Z.pow_succ_r by lia. nia. }
  exists vs. repeat split; auto; try lia.
  assert (t * 2 ^ s <= nth n vs 0); [| lia].
  apply top_digit_lower; auto; [lia |]. rewrite Evs. nia.
Qed.

Section OperationFacts.
Context {heap : Heap}.

Lemma div_scaled a b q r k :
0 < k -> 0 < b -> k * a = q * (k * b) + r -> 0 <= r < k * b ->
q = a / b /\ r = k * (a mod b).
Proof.
intros Hk Hb E Hr.
assert (q = k * a / (k * b)) as -> by (apply (Z.div_unique_pos _ _ _ r); lia).
rewrite Z.div_mul_cancel_l in * by lia. split; [reflexivity |].
rewrite <- Z.mul_mod_distr_l by lia. apply (Z.mod_unique_pos _ _ (a / b)); lia.
Qed.

(** The large denominator when its top digit needs no shift ... *)
Lemma large_denominator_unshifted n1 xs n2 ys qn rn (quotient : bool) fq fu :
digits_ok xs -> digits_ok ys -> fits xs -> fits ys -> fits fu -> (2 <= length ys <= length xs)%nat ->
length fu = S (length xs) -> length fq = (S (length xs) - length ys)%nat ->
BIGNUM_RADIX <= 2 * nth (length ys - 1) ys 0 -> 0 < eval ys ->
exists us qs,
  (let u := bignum_destructive_copy (block n1 xs) (block rn fu) in
   let u := store_digits u (firstn (length xs) (digits_of u) ++ [0]) in
   bignum_divide_unsigned_normalized u (block n2 ys) (if quotient then Some (block qn fq) else None))
  = Some (block rn us, if quotient then Some (block qn qs) else None)
  /\ digits_ok qs /\ length qs = length fq /\ eval qs = eval xs / eval ys
  /\ digits_ok us /\ length us = length fu /\ eval us = eval xs mod eval ys.
Proof.
intros Hx Hy Fx Fy Fu Ln Lu Lq S0 Pos. cbv zeta.
assert (Fu' : forall l, length l = length fu -> fits l) by (unfold fits in *; lia).
rewrite bignum_destructive_copy_block by (auto; lia).
set (rest := skipn (length xs) fu).
assert (Lr : length (xs ++ rest) = length fu) by (subst rest; rewrite length_app, length_skipn; lia).
rewrite digits_of_block by now apply Fu'.
rewrite firstn_app, firstn_all, Nat.sub_diag. cbn [firstn]. rewrite app_nil_r.
assert (Lz : length (xs ++ [0]) = length fu) by (rewrite length_app; cbn [length]; lia).
rewrite store_digits_block by lia.
destruct (bignum_divide_unsigned_normalized_block rn (xs ++ [0]) n2 ys qn fq quotient
  (length fq)) as (qs & ws & E & Oq & Lq' & Ow & Lw & Ev & Hlt); auto; try lia.
{ apply Forall_app; split; [exact Hx | apply (digits_ok_zeros 1)]. }
{ rewrite nth_at by lia. lia. }
exists ws, qs. rewrite eval_snoc in Ev. pose proof (eval_nonneg ws Ow).
destruct (div_scaled (eval xs) (eval ys) (eval qs) (eval ws) 1) as [E1 E2]; try lia.
repeat split; auto; lia.
Qed.

(** ... and when it does. *)
Lemma large_denominator_shifted n1 xs n2 ys qn rn (quotient remainder : bool) fq fu s :
digits_ok xs -> digits_ok ys -> fits xs -> fits ys -> fits fu -> (2 <= length ys <= length xs)%nat ->
length fu = S (length xs) -> length fq = (S (length xs) - length ys)%nat -> 0 <= s < 62 ->
(forall neg' ts, length ts = length ys -> fits ts ->
 exists vs, bignum_destructive_normalization (block n2 ys) (block neg' ts) s = Some (block neg' vs)
   /\ digits_ok vs /\ length vs = length ys /\ eval vs = 2 ^ s * eval ys
   /\ BIGNUM_RADIX <= 2 * nth (length ys - 1) vs 0) -> 0 < eval ys ->
exists us qs,
  (let* v := bignum_allocate (Z.of_nat (length ys)) false in
   let* u := bignum_destructive_normalization (block n1 xs) (block rn fu) s in
   let* v := bignum_destructive_normalization (block n2 ys) v s in
   let* (u, q) := bignum_divide_unsigned_normalized u v (if quotient then Some (block qn fq) else None) in
   if remainder then
     let* u := bignum_destructive_unnormalization u s in Some (u, q)
   else Some (u, q))
  = Some (block rn us, if quotient then Some (block qn qs) else None)
  /\ digits_ok qs /\ length qs = length fq /\ eval qs = eval xs / eval ys
  /\ (remainder = true ->
      digits_ok us /\ length us = length fu /\ eval us = eval xs mod eval ys).
Proof.
intros Hx Hy Fx Fy Fu Ln Lu Lq Hs Sv Pos.
rewrite bignum_allocate_some by (unfold fits in Fy; lia). cbn [obind].
destruct (bignum_destructive_normalization_longer n1 xs rn fu s) as (us & -> & Ou & Lus & Eu & Tu);
  auto; try lia. cbn [obind].
destruct (Sv false (fresh (Z.of_nat (length ys)))) as (vs & -> & Ov & Lv & Evs & Tv);
  [rewrite length_fresh; lia | unfold fits in *; rewrite length_fresh; lia |].
cbn [obind]. destruct (pow_shift_pos s Hs) as [Ps _].
assert (2 ^ s <= 2 ^ 61) by (apply Z.pow_le_mono_r; lia).
destruct (bignum_divide_unsigned_normalized_block rn us false vs qn fq quotient
  (length fq)) as (qs & ws & -> & Oq & Lq' & Ow & Lw & Ev & Hlt);
  rewrite ?Lv; auto; try (unfold fits in *; lia).
{ replace (length us - 1)%nat with (length xs) by lia. lia. }
cbn [obind]. rewrite Eu, Evs in Ev. rewrite Evs in Hlt. pose proof (eval_nonneg ws Ow).
destruct (div_scaled (eval xs) (eval ys) (eval qs) (eval ws) (2 ^ s)) as [E1 E2]; try lia.
destruct remainder.
- destruct (bignum_destructive_unnormalization_block rn ws s) as (rs & -> & Or & Lr & Er); auto.
  { unfold fits in *. lia. } { rewrite E2, Z.mul_comm. apply Z_mod_mult. }
  cbn [obind]. exists rs, qs. rewrite Er, E2, Z.mul_comm, Z_div_mult by lia.
  repeat split; auto; lia.
- exists ws, qs. repeat split; auto; try lia; discriminate.
Qed.

(** What the three routines compute: the wanted results, canonical. *)
Definition division_result (quotient remainder qn rn : bool) (x y : Z)
  (o : option (option bignum * option bignum)) : Prop :=
exists q r, o = Some (if quotient then Some q else None, if remainder then Some r else None)
  /\ repr q (sign qn (x / y)) /\ (remainder = true -> repr r (sign rn (x mod y))).

Lemma want_allocate (w : bool) n neg :
0 <= n <= BIGNUM_LENGTH_MAX ->
want w (bignum_allocate n neg) = Some (if w then Some (block neg (fresh n)) else None).
Proof. intros H. rewrite bignum_allocate_some by lia. now destruct w. Qed.

Lemma bignum_divide_large_block n1 xs n2 ys (quotient remainder qn rn : bool) :
digits_ok xs -> digits_ok ys -> fits xs -> fits ys -> trimmed ys ->
(2 <= length ys <= length xs)%nat -> Z.of_nat (length xs) + 1 <= BIGNUM_LENGTH_MAX ->
division_result quotient remainder qn rn (eval xs) (eval ys)
  (bignum_divide_unsigned_large_denominator (block n1 xs) (block n2 ys) quotient remainder qn rn).
Proof.
intros Hx Hy Fx Fy Ty Ln Room. unfold bignum_divide_unsigned_large_denominator.
autorewrite with bignum. pose proof Room as Room'.
change BIGNUM_LENGTH_MAX with 74382032555280388 in Room'. unwrap.
rewrite want_allocate, bignum_allocate_some by lia. cbn [obind].
destruct (Z.ltb_spec 1 (Z.of_nat (length ys))); [| lia].
assert (Pos : 0 < eval ys) by (apply eval_trimmed_pos; auto; intros ->; cbn in Ln; lia).
destruct (normalize_denominator n2 ys (length ys - 1)) as (v & s & -> & Hs & S0 & Sv);
  auto; [lia | |].
{ apply (trimmed_top ys); auto; lia. }
cbn [obind]. rewrite Z.add_simpl_r, Nat2Z.id.
set (fu := fresh (Z.of_nat (length xs) + 1)).
set (fq := fresh (Z.of_nat (length xs) + 1 - Z.of_nat (length ys))).
assert (Lu : length fu = S (length xs)) by (subst fu; rewrite length_fresh; lia).
assert (Lq : length fq = (S (length xs) - length ys)%nat) by (subst fq; rewrite length_fresh; lia).
assert (Fu : fits fu) by (unfold fits; lia). clearbody fu fq.
match goal with |- context [obind (if s =? 0 then ?a else ?b) _] =>
  assert (C : exists us qs, (if s =? 0 then a else b)
    = Some (block rn us, if quotient then Some (block qn qs) else None)
  /\ digits_ok qs /\ length qs = length fq /\ eval qs = eval xs / eval ys
  /\ (remainder = true ->
      digits_ok us /\ length us = length fu /\ eval us = eval xs mod eval ys)) end.
{ destruct (Z.eqb_spec s 0) as [Es | Ns].
  - destruct (large_denominator_unshifted n1 xs n2 ys qn rn quotient fq fu) as (us & qs & H');
      auto. exists us, qs. tauto.
  - apply large_denominator_shifted; auto. }
destruct C as (us & qs & -> & Oq & Lq' & Eq & Hr). cbn [obind].
exists (bignum_trim (block qn qs)), (bignum_trim (block rn us)).
split; [now destruct quotient, remainder |]. split.
- rewrite <- Eq. apply trim_repr; auto; [unfold fits in *; lia | intros ->; cbn in Lq'; lia].
- intros Er. destruct (Hr Er) as (Ou & Lus & <-).
  apply trim_repr; auto; [unfold fits in *; lia | intros ->; cbn in Lus; lia].
Qed.

Lemma divide_by_digit_spec v : BIGNUM_RADIX <= 2 * v -> v < BIGNUM_RADIX -> forall ds,
digits_ok ds ->
exists qs, divide_by_digit ds v = Some (qs, eval ds mod v)
  /\ digits_ok qs /\ length qs = length ds /\ eval qs = eval ds / v.
Proof.
intros Hv HvB. induction 1 as [|d ds Hd Hds IH]; cbn [divide_by_digit eval length].
- exists []. rewrite Zmod_0_l, Zdiv_0_l. auto.
- destruct IH as (qs & -> & O & L & E). cbn [obind].
  pose proof (Z.mod_pos_bound (eval ds) v ltac:(lia)).
  pose proof (Z.div_mod (eval ds) v ltac:(lia)).
  set (q := eval ds / v) in *. set (r := eval ds mod v) in *.
  rewrite bignum_digit_divide_spec by (auto; lia). cbn [obind].
  pose proof (Z.mod_pos_bound (r * BIGNUM_RADIX + d) v ltac:(lia)).
  pose proof (Z.div_mod (r * BIGNUM_RADIX + d) v ltac:(lia)). red in Hd.
  assert (is_digit ((r * BIGNUM_RADIX + d) / v)).
  { split; [apply Z.div_pos; lia | apply Z.div_lt_upper_bound; lia]. }
  eexists. split; [do 2 f_equal; apply (Z.mod_unique_pos _ _ (q * BIGNUM_RADIX + (r * BIGNUM_RADIX + d) / v)); lia |].
  cbn [eval length]. rewrite E. repeat split; auto.
  apply (Z.div_unique_pos _ _ _ ((r * BIGNUM_RADIX + d) mod v)); lia.
Qed.

Lemma bignum_divide_medium_block n1 xs y (quotient remainder qn rn : bool) :
digits_ok xs -> fits xs -> xs <> [] -> 0 < y < BIGNUM_RADIX ->
Z.of_nat (length xs) + 1 <= BIGNUM_LENGTH_MAX ->
division_result quotient remainder qn rn (eval xs) y
  (bignum_divide_unsigned_medium_denominator (block n1 xs) y quotient remainder qn rn).
Proof.
intros Hx Fx Nx Hy Room. unfold bignum_divide_unsigned_medium_denominator.
autorewrite with bignum. pose proof Room as Room'.
change BIGNUM_LENGTH_MAX with 74382032555280388 in Room'. unwrap.
destruct (normalize_digit_spec 62 y 0 Hy) as (s & E & Hs & N1 & N2).
{ change (2 ^ Z.of_nat 62) with BIGNUM_RADIX. lia. }
rewrite E. cbn [obind]. rewrite Z.add_0_l. change (Z.of_nat 62) with 62 in Hs.
match goal with |- context [obind (if s =? 0 then ?a else ?b) _] =>
  assert (C : exists qs, (if s =? 0 then a else b) = Some (block qn qs)
    /\ digits_ok qs /\ fits qs /\ qs <> [] /\ eval qs = 2 ^ s * eval xs) end.
{ destruct (Z.eqb_spec s 0) as [-> | Ns].
  - exists xs. split; [| repeat split; auto; lia].
    rewrite bignum_allocate_some by (unfold fits in *; lia). cbn [obind].
    rewrite bignum_destructive_copy_block by (rewrite ?length_fresh; auto; lia).
    rewrite skipn_all2, app_nil_r by (rewrite length_fresh; lia). reflexivity.
  - rewrite bignum_allocate_some by lia. cbn [obind].
    destruct (bignum_destructive_normalization_longer n1 xs qn
      (fresh (Z.of_nat (length xs) + 1)) s) as (es & -> & O & L & Ev & _);
      auto; try (unfold fits in *; rewrite length_fresh; lia).
    rewrite length_fresh in L. exists es. repeat split; auto; [unfold fits; lia |].
    intros ->. cbn in L. lia. }
destruct C as (ds & -> & Od & Fd & Nd & Ed). cbn [obind]. autorewrite with bignum.
destruct (divide_by_digit_spec (y * 2 ^ s) N1 N2 ds Od) as (qs & -> & Oq & Lq & Eq).
cbn [obind]. destruct (pow_shift_pos s Hs) as [Ps _].
pose proof (Z.mod_pos_bound (eval xs) y ltac:(lia)).
assert (Er : (if negb (s =? 0) then eval ds mod (y * 2 ^ s) >>> s else eval ds mod (y * 2 ^ s))
  = eval xs mod y).
{ rewrite Ed, (Z.mul_comm y), Z.mul_mod_distr_l by lia.
  destruct (Z.eqb_spec s 0) as [-> |]; cbn [negb]; [lia |].
  rewrite shiftr_div, Z.mul_comm by lia. apply Z_div_mult. lia. }
rewrite Er. destruct (bignum_digit_to_bignum_repr (eval xs mod y) rn) as (r & Hr & Rr);
  [red; lia |].
rewrite Hr, store_digits_block by lia.
exists (bignum_trim (block qn qs)), r. split; [now destruct quotient, remainder |].
split; [| auto].
rewrite Ed, (Z.mul_comm y), Z.div_mul_cancel_l in Eq by lia. rewrite <- Eq.
apply trim_repr; auto; [unfold fits in *; lia |]. intros ->. now destruct ds.
Qed.


Lemma scale_down_digits_spec v : 1 < v < BIGNUM_RADIX_ROOT -> forall ds,
digits_ok ds ->
exists qs, scale_down_digits ds v = (qs, eval ds mod v)
  /\ digits_ok qs /\ length qs = length ds /\ eval qs = eval ds / v
  /\ remainder_digits ds v = eval ds mod v.
Proof.
intros Hv. induction 1 as [|d ds Hd Hds IH]; cbn [scale_down_digits remainder_digits eval length].
- exists []. rewrite Zmod_0_l, Zdiv_0_l. auto.
- destruct IH as (qs & -> & O & L & E & ->).
  pose proof (Z.mod_pos_bound (eval ds) v ltac:(lia)).
  pose proof (Z.div_mod (eval ds) v ltac:(lia)).
  set (q := eval ds / v) in *. set (r := eval ds mod v) in *. clearbody q r.
  pose proof (HD_LOW_range d). pose proof (HD_HIGH_range d Hd). pose proof (HD_split d).
  set (lo := HD_LOW d) in *. set (hi := HD_HIGH d) in *. clearbody lo hi.
  rewrite (HD_CONS_add r hi), Z.quot_div_nonneg, Z.rem_mod_nonneg by lia.
  set (n1 := r * BIGNUM_RADIX_ROOT + hi) in *.
  pose proof (Z.mod_pos_bound n1 v ltac:(lia)). pose proof (Z.div_mod n1 v ltac:(lia)).
  rewrite (HD_CONS_add (n1 mod v) lo), Z.quot_div_nonneg, Z.rem_mod_nonneg by lia.
  set (n2 := n1 mod v * BIGNUM_RADIX_ROOT + lo) in *.
  pose proof (Z.mod_pos_bound n2 v ltac:(lia)) as M2. pose proof (Z.div_mod n2 v ltac:(lia)).
  assert (0 <= n1 / v < BIGNUM_RADIX_ROOT).
  { split; [apply Z.div_pos; lia | apply Z.div_lt_upper_bound; lia]. }
  assert (0 <= n2 / v < BIGNUM_RADIX_ROOT).
  { split; [apply Z.div_pos; lia | apply Z.div_lt_upper_bound; lia]. }
  rewrite HD_CONS_add by lia. red in Hd.
  assert (V : d + BIGNUM_RADIX * eval ds
    = v * (n1 / v * BIGNUM_RADIX_ROOT + n2 / v + BIGNUM_RADIX * q) + n2 mod v) by lia.
  pose proof (Z.mod_unique_pos _ _ _ _ M2 V) as <-.
  pose proof (Z.div_unique_pos _ _ _ _ M2 V) as <-.
  eexists. split; [reflexivity |]. cbn [eval length]. rewrite E.
  repeat split; auto; try lia. constructor; [red; lia | auto].
Qed.

Lemma bignum_divide_small_block n1 xs y (remainder qn rn : bool) :
digits_ok xs -> fits xs -> xs <> [] -> 1 < y < BIGNUM_RADIX_ROOT ->
division_result true remainder qn rn (eval xs) y
  (bignum_divide_unsigned_small_denominator (block n1 xs) y remainder qn rn).
Proof.
intros Hx Fx Nx Hy. unfold bignum_divide_unsigned_small_denominator.
autorewrite with bignum. cbn [obind]. unfold bignum_destructive_scale_down.
autorewrite with bignum. unwrap.
rewrite (proj2 (Z.ltb_lt 1 y)), (proj2 (Z.ltb_lt y _)) by lia. cbn [andb].
destruct (scale_down_digits_spec y Hy xs Hx) as (qs & -> & O & L & E & _). cbn [obind].
pose proof (Z.mod_pos_bound (eval xs) y ltac:(lia)).
destruct (bignum_digit_to_bignum_repr (eval xs mod y) rn) as (r & Hr & Rr); [red; lia |].
rewrite Hr, store_digits_block by lia. exists (bignum_trim (block qn qs)), r.
split; [now destruct remainder |]. split; [| auto]. rewrite <- E.
apply trim_repr; auto; [unfold fits in *; lia |]. intros ->. now destruct xs.
Qed.

Lemma bignum_remainder_small_block n1 xs y neg :
digits_ok xs -> fits xs -> 1 < y < BIGNUM_RADIX_ROOT ->
exists r, bignum_remainder_unsigned_small_denominator (block n1 xs) y neg = Some r
  /\ repr r (sign neg (eval xs mod y)).
Proof.
intros Hx Fx Hy. unfold bignum_remainder_unsigned_small_denominator.
autorewrite with bignum. unwrap.
rewrite (proj2 (Z.ltb_lt 1 y)), (proj2 (Z.ltb_lt y _)) by lia. cbn [andb].
destruct (scale_down_digits_spec y Hy xs Hx) as (qs & _ & _ & _ & _ & ->).
pose proof (Z.mod_pos_bound (eval xs) y ltac:(lia)).
apply bignum_digit_to_bignum_repr. red. lia.
Qed.

(** ** The signed operations *)

Lemma quot_sign n1 n2 a b :
0 <= a -> 0 < b ->
Z.quot (sign n1 a) (sign n2 b) = sign (if n2 then negb n1 else n1) (a / b).
Proof.
intros Ha Hb. rewrite <- Z.quot_div_nonneg by lia.
destruct n1, n2; cbn [sign negb]; rewrite ?Z.quot_opp_l, ?Z.quot_opp_r; lia.
Qed.

Lemma rem_sign n1 n2 a b :
0 <= a -> 0 < b -> Z.rem (sign n1 a) (sign n2 b) = sign n1 (a mod b).
Proof.
intros Ha Hb. rewrite <- Z.rem_mod_nonneg by lia.
destruct n1, n2; cbn [sign]; rewrite ?Z.rem_opp_l, ?Z.rem_opp_r; lia.
Qed.

(** The two lengths when the numerator is the greater. *)
Lemma length_of_greater xs ys :
digits_ok xs -> digits_ok ys -> trimmed ys -> eval ys < eval xs -> (length ys <= length xs)%nat.
Proof.
intros Hx Hy Ty L. destruct (Nat.le_gt_cases (length ys) (length xs)) as [|G]; [assumption |].
pose proof (eval_length_lt xs ys Hx Hy Ty G). lia.
Qed.

Lemma land_pred_power d : 0 < d -> d & (d - 1) = 0 -> exists k, 0 <= k /\ d = 2 ^ k.
Proof.
intros Hd E. destruct (trailing_zeros_spec d) as [Hr [m Hm]]; [lia |].
set (r := trailing_zeros d) in *. exists r. split; [exact Hr |].
assert (0 < 2 ^ r) by (apply Z.pow_pos_nonneg; lia).
replace (d - 1) with ((2 ^ r - 1) + 2 ^ r * (2 * m)) in E by lia.
replace d with (0 + 2 ^ r * (2 * m + 1)) in E by lia.
rewrite land_split, Z.land_0_l in E by lia.
replace (2 * m + 1) with (1 + 2 ^ 1 * m) in E by lia.
replace (2 * m) with (0 + 2 ^ 1 * m) in E by lia.
rewrite land_split, Z.land_diag in E by lia. change (Z.land 1 0) with 0 in E. nia.
Qed.


(** What the one-digit and many-digit cases have in common, once zero and
  the comparison of the magnitudes are out of the way. *)
Section Greater.
Variables (n1 n2 : bool) (xs ys : list Z).
Hypothesis Hx : digits_ok xs.
Hypothesis Hy : digits_ok ys.
Hypothesis Fx : fits xs.
Hypothesis Fy : fits ys.
Hypothesis Tx : trimmed xs.
Hypothesis Ty : trimmed ys.
Hypothesis Ny : ys <> [].
Hypothesis Hgt : eval ys < eval xs.
Hypothesis Room : Z.of_nat (length xs) + 1 <= BIGNUM_LENGTH_MAX.

Lemma greater_nonempty : xs <> [].
Proof. intros ->. pose proof (eval_nonneg ys Hy). cbn [eval] in Hgt. lia. Qed.

Lemma greater_lengths : (1 <= length ys <= length xs)%nat.
Proof.
  split; [destruct ys; [easy | cbn; lia] | now apply length_of_greater].
Qed.

Lemma greater_large quotient remainder qn rn :
  Z.of_nat (length ys) <> 1 ->
  division_result quotient remainder qn rn (eval xs) (eval ys)
    (bignum_divide_unsigned_large_denominator (block n1 xs) (block n2 ys) quotient remainder qn rn).
Proof.
  intros N. pose proof greater_lengths. apply bignum_divide_large_block; auto; lia.
Qed.

Lemma greater_medium quotient remainder qn rn :
  Z.of_nat (length ys) = 1 ->
  division_result quotient remainder qn rn (eval xs) (eval ys)
    (bignum_divide_unsigned_medium_denominator (block n1 xs) (BIGNUM_REF (block n2 ys) 0)
       quotient remainder qn rn).
Proof.
  intros L. destruct (single_digit n2 ys Hy Ty L) as [D ->].
  apply bignum_divide_medium_block; auto using greater_nonempty.
Qed.

Lemma greater_small remainder qn rn :
  Z.of_nat (length ys) = 1 -> BIGNUM_REF (block n2 ys) 0 <> 1 ->
  ulong (BIGNUM_REF (block n2 ys) 0) < BIGNUM_RADIX_ROOT ->
  division_result true remainder qn rn (eval xs) (eval ys)
    (bignum_divide_unsigned_small_denominator (block n1 xs) (BIGNUM_REF (block n2 ys) 0)
       remainder qn rn).
Proof.
  intros L N U. destruct (single_digit n2 ys Hy Ty L) as [D ->].
  rewrite ulong_small in U by lia.
  apply bignum_divide_small_block; auto using greater_nonempty. lia.
Qed.

Lemma greater_one qn :
  Z.of_nat (length ys) = 1 -> BIGNUM_REF (block n2 ys) 0 = 1 ->
  repr (block qn xs) (sign qn (eval xs / eval ys)) /\ eval xs mod eval ys = 0.
Proof.
  intros L E. destruct (single_digit n2 ys Hy Ty L) as [_ ->]. rewrite E, Z.div_1_r, Z.mod_1_r.
  split; [| reflexivity]. apply repr_block; auto.
  intros Ex. exfalso. now apply greater_nonempty.
Qed.
End Greater.

(** [bignum_divide] truncates toward zero, the remainder takes the sign of
  the numerator; a zero denominator is the error return. *)
Lemma bignum_divide_repr x y a b :
repr x a -> repr y b -> room x 1 ->
if b =? 0 then bignum_divide x y = Some None
else exists q r, bignum_divide x y = Some (Some (q, r))
  /\ repr q (Z.quot a b) /\ repr r (Z.rem a b).
Proof.
intros Hx Hy Rm. unfold bignum_divide.
rewrite (repr_ZERO_P x a Hx), (repr_ZERO_P y b Hy).
destruct (Z.eqb_spec b 0) as [-> | Nb]; [reflexivity |].
destruct (Z.eqb_spec a 0) as [-> | Na].
{ exists x, x. rewrite Z.quot_0_l, Z.rem_0_l by lia. auto. }
pose proof Hx as Rx.
destruct Hx as (n1 & xs & -> & Ox & Fx & Tx & _ & ->).
destruct Hy as (n2 & ys & -> & Oy & Fy & Ty & _ & ->).
apply room_block in Rm; [| exact Fx].
assert (Ny : ys <> []) by (intros ->; now rewrite sign_zero in Nb).
pose proof (eval_trimmed_pos ys Oy Ty Ny). pose proof (eval_nonneg xs Ox).
rewrite quot_sign, rem_sign by lia. autorewrite with bignum. cbv zeta.
rewrite bignum_compare_unsigned_block by assumption.
set (qn := if n2 then negb n1 else n1).
apply comparison_of_spec; intros Hc.
- rewrite Hc, Z.div_same, Z.mod_same, sign_zero by lia. eexists _, _. split; [reflexivity |].
  split; [pose proof (repr_make_one qn); now destruct qn | apply repr_make_zero].
- rewrite Z.div_small, Z.mod_small, sign_zero by lia. eexists _, _. split; [reflexivity |].
  split; [apply repr_make_zero | exact Rx].
- assert (D : forall o, division_result true true qn n1 (eval xs) (eval ys) o ->
    exists q r, obind o both = Some (Some (q, r))
      /\ repr q (sign qn (eval xs / eval ys)) /\ repr r (sign n1 (eval xs mod eval ys))).
  { intros o (q & r & -> & Hq & Hr). exists q, r. auto. }
  destruct (Z.eqb_spec (Z.of_nat (length ys)) 1); [| now apply D, greater_large].
  destruct (Z.eqb_spec (BIGNUM_REF (block n2 ys) 0) 1).
  + destruct (greater_one n2 xs ys) with (qn := qn) as [Hq E]; auto.
    eexists _, _. split; [reflexivity |]. rewrite E, sign_zero. split; [exact Hq | apply repr_make_zero].
  + destruct (Z.ltb_spec (ulong (BIGNUM_REF (block n2 ys) 0)) BIGNUM_RADIX_ROOT).
    * now apply D, greater_small.
    * now apply D, greater_medium.
Qed.


(** The quotient alone ... *)
Lemma bignum_quotient_repr x y a b :
repr x a -> repr y b -> room x 1 ->
if b =? 0 then bignum_quotient x y = Some None
else exists q, bignum_quotient x y = Some (Some q) /\ repr q (Z.quot a b).
Proof.
intros Hx Hy Rm. unfold bignum_quotient.
rewrite (repr_ZERO_P x a Hx), (repr_ZERO_P y b Hy).
destruct (Z.eqb_spec b 0) as [-> | Nb]; [reflexivity |].
destruct (Z.eqb_spec a 0) as [-> | Na]; [exists x; rewrite Z.quot_0_l by lia; auto |].
destruct Hx as (n1 & xs & -> & Ox & Fx & Tx & _ & ->).
destruct Hy as (n2 & ys & -> & Oy & Fy & Ty & _ & ->).
apply room_block in Rm; [| exact Fx].
assert (Ny : ys <> []) by (intros ->; now rewrite sign_zero in Nb).
pose proof (eval_trimmed_pos ys Oy Ty Ny). pose proof (eval_nonneg xs Ox).
rewrite quot_sign by lia. autorewrite with bignum. cbv zeta.
rewrite bignum_compare_unsigned_block by assumption.
set (qn := if n2 then negb n1 else n1).
apply comparison_of_spec; intros Hc.
- rewrite Hc, Z.div_same by lia. eexists. split; [reflexivity |].
  pose proof (repr_make_one qn). now destruct qn.
- rewrite Z.div_small, sign_zero by lia. eexists. split; [reflexivity | apply repr_make_zero].
- assert (D : forall o, division_result true false qn false (eval xs) (eval ys) o ->
    exists q, (let* (quotient, _) := o in want true quotient) = Some (Some q)
      /\ repr q (sign qn (eval xs / eval ys))).
  { intros o (q & r & -> & Hq & _). exists q. auto. }
  destruct (Z.eqb_spec (Z.of_nat (length ys)) 1); [| now apply D, greater_large].
  destruct (Z.eqb_spec (BIGNUM_REF (block n2 ys) 0) 1).
  + destruct (greater_one n2 xs ys) with (qn := qn) as [Hq _]; auto.
    autorewrite with bignum. eexists. split; [reflexivity | exact Hq].
  + destruct (Z.ltb_spec (ulong (BIGNUM_REF (block n2 ys) 0)) BIGNUM_RADIX_ROOT).
    * now apply D, greater_small.
    * now apply D, greater_medium.
Qed.

(** The remainder by a power of two reads the lowest digit only. *)
Lemma remainder_power_of_two xs y (neg : bool) :
digits_ok xs -> xs <> [] -> 0 < y < BIGNUM_RADIX -> y & (y - 1) = 0 ->
(y - 1) & nth 0 xs 0 = eval xs mod y.
Proof.
intros Ox Nx Hy E. destruct (land_pred_power y) as (k & Hk & ->); [lia | exact E |].
destruct xs as [|x xs]; [easy |]. cbn [nth eval].
rewrite Z.land_comm, land_mask by lia.
assert (k < 62) by (apply (Z.pow_lt_mono_r_iff 2); lia).
rewrite <- (pow_shift k) by lia.
replace (x + 2 ^ k * 2 ^ (62 - k) * eval xs) with (x + (2 ^ (62 - k) * eval xs) * 2 ^ k) by ring.
rewrite Z.mod_add by lia. reflexivity.
Qed.

(** ... and the remainder alone. *)
Lemma bignum_remainder_repr x y a b :
repr x a -> repr y b -> room x 1 ->
if b =? 0 then bignum_remainder x y = Some None
else exists r, bignum_remainder x y = Some (Some r) /\ repr r (Z.rem a b).
Proof.
intros Hx Hy Rm. unfold bignum_remainder.
rewrite (repr_ZERO_P x a Hx), (repr_ZERO_P y b Hy).
destruct (Z.eqb_spec b 0) as [-> | Nb]; [reflexivity |].
destruct (Z.eqb_spec a 0) as [-> | Na]; [exists x; rewrite Z.rem_0_l by lia; auto |].
pose proof Hx as Rx. destruct Hx as (n1 & xs & -> & Ox & Fx & Tx & _ & ->).
destruct Hy as (n2 & ys & -> & Oy & Fy & Ty & _ & ->).
apply room_block in Rm; [| exact Fx].
assert (Ny : ys <> []) by (intros ->; now rewrite sign_zero in Nb).
pose proof (eval_trimmed_pos ys Oy Ty Ny). pose proof (eval_nonneg xs Ox).
rewrite rem_sign by lia. autorewrite with bignum. cbv zeta.
rewrite bignum_compare_unsigned_block by assumption.
apply comparison_of_spec; intros Hc.
- rewrite Hc, Z.mod_same, sign_zero by lia. eexists. split; [reflexivity | apply repr_make_zero].
- rewrite Z.mod_small by lia. eexists. split; [reflexivity | exact Rx].
- assert (D : forall o, division_result false true false n1 (eval xs) (eval ys) o ->
    exists r, (let* (_, remainder) := o in want true remainder) = Some (Some r)
      /\ repr r (sign n1 (eval xs mod eval ys))).
  { intros o (q & r & -> & _ & Hr). exists r. auto. }
  assert (W : forall o, (exists r, o = Some r /\ repr r (sign n1 (eval xs mod eval ys))) ->
    exists r, want true o = Some (Some r) /\ repr r (sign n1 (eval xs mod eval ys))).
  { intros o (r & -> & Hr). exists r. auto. }
  assert (Nx : xs <> []) by (intros ->; cbn [eval] in Hc; lia).
  destruct (Z.eqb_spec (Z.of_nat (length ys)) 1) as [L |]; [| now apply D, greater_large].
  destruct (single_digit n2 ys Oy Ty L) as [Hd Ed]. rewrite slong_small by lia.
  destruct (Z.eqb_spec (BIGNUM_REF (block n2 ys) 0 & (BIGNUM_REF (block n2 ys) 0 - 1)) 0) as [P | P].
  + destruct (Z.eqb_spec (Z.of_nat (length xs)) 0); [destruct xs; [easy | cbn in *; lia] |].
    unfold BIGNUM_REF at 2 4. cbn [Z.to_nat bn_digits block].
    rewrite remainder_power_of_two, <- Ed by auto. cbv zeta.
    destruct (Z.eqb_spec (eval xs mod eval ys) 0) as [-> |].
    * rewrite sign_zero. eexists. split; [reflexivity | apply repr_make_zero].
    * apply W, bignum_digit_to_bignum_repr.
      pose proof (Z.mod_pos_bound (eval xs) (eval ys)). red. lia.
  + destruct (Z.ltb_spec (ulong (BIGNUM_REF (block n2 ys) 0)) BIGNUM_RADIX_ROOT) as [U | U].
    * rewrite ulong_small in U by lia. apply W. rewrite Ed. apply bignum_remainder_small_block; auto.
      destruct (Z.eqb_spec (BIGNUM_REF (block n2 ys) 0) 1) as [E1 |]; [rewrite E1 in P; easy | lia].
    * now apply D, greater_medium.
Qed.

End OperationFacts.

(** ** Properties *)

(** C26: [bignum_divide], [bignum_quotient] and [bignum_remainder] report a
    zero divisor; otherwise every path (compare, one small digit, one digit,
    long division) returns the canonical quotient truncated toward zero and
    the remainder with the sign of the numerator. *)
Theorem bignum_division {heap : Heap} x y a b :
  repr x a -> repr y b -> room x 1 ->
  (b = 0 -> bignum_divide x y = Some None /\ bignum_quotient x y = Some None
     /\ bignum_remainder x y = Some None)
  /\ (b <> 0 -> exists q r, bignum_divide x y = Some (Some (q, r))
        /\ bignum_quotient x y = Some (Some q) /\ bignum_remainder x y = Some (Some r)
        /\ repr q (Z.quot a b) /\ repr r (Z.rem a b)
        /\ a = b * Z.quot a b + Z.rem a b /\ Z.abs (Z.rem a b) < Z.abs b).
Proof.
  intros Hx Hy R. pose proof (bignum_divide_repr x y a b Hx Hy R) as D.
  pose proof (bignum_quotient_repr x y a b Hx Hy R) as Q.
  pose proof (bignum_remainder_repr x y a b Hx Hy R) as M.
  destruct (Z.eqb_spec b 0) as [E | N]; [tauto |]. split; [tauto |]. intros _.
  destruct D as (q & r & D & Dq & Dr). destruct Q as (q' & Q & Hq). destruct M as (r' & M & Hr).
  rewrite (repr_unique q' q _ Hq Dq) in Q. rewrite (repr_unique r' r _ Hr Dr) in M.
  exists q, r. do 5 (split; [assumption |]).
  split; [apply Z.quot_rem' | now apply Z.rem_bound_abs].
Qed.

Lemma bignum_division_witness :
  let heap : Heap := fun _ => 77 in
  exists q r, bignum_divide (block true [1; 2; 3]) (block false [4; 5]) = Some (Some (q, r))
    /\ repr r (Z.rem (- (1 + BIGNUM_RADIX * (2 + BIGNUM_RADIX * 3))) (4 + BIGNUM_RADIX * 5)).
Proof.
  intros heap.
  destruct (bignum_division (heap := heap) (block true [1; 2; 3]) (block false [4; 5])
    (- (1 + BIGNUM_RADIX * (2 + BIGNUM_RADIX * 3))) (4 + BIGNUM_RADIX * 5)) as [_ H];
    [concrete_repr | concrete_repr | concrete_room |].
  destruct H as (q & r & E & _ & _ & _ & Hr & _); [lia |]. exists q, r. split; [exact E | exact Hr].
Defined.

(** [bignum_digit_divide] divides two digits by one normalized digit with
    31-bit estimates that it corrects at most twice; for every numerator below
    the divisor's range it returns the exact quotient digit and remainder. *)
Theorem bignum_digit_divide_exact uh ul v :
  BIGNUM_RADIX <= 2 * v -> v < BIGNUM_RADIX -> 0 <= uh < v -> is_digit ul ->
  exists q r, bignum_digit_divide uh ul v = Some (q, r)
    /\ uh * BIGNUM_RADIX + ul = v * q + r /\ 0 <= r < v /\ is_digit q.
Proof.
  intros Hv HvB Hu Hl. exists ((uh * BIGNUM_RADIX + ul) / v), ((uh * BIGNUM_RADIX + ul) mod v).
  split; [now apply bignum_digit_divide_spec |]. red in Hl.
  split; [apply Z.div_mod; lia |]. split; [apply Z.mod_pos_bound; lia |].
  split; [apply Z.div_pos; lia | apply Z.div_lt_upper_bound; lia].
Qed.

Lemma bignum_digit_divide_exact_witness :
  exists q r, bignum_digit_divide 2305843009213693951 4611686018427387903 2305843009213693952 = Some (q, r)
    /\ 2305843009213693951 * BIGNUM_RADIX + 4611686018427387903 = 2305843009213693952 * q + r
    /\ 0 <= r < 2305843009213693952 /\ is_digit q.
Proof. apply bignum_digit_divide_exact; unfold is_digit; lia. Defined.
