(* ===== verification/BignumConv.v ===== *)
(** * Bignum conversions (src/src/microcode/bignum.c, object.h)

    Between bignums and machine words, the word-size test, and the digit
    streams by which numbers are read and printed in any radix. *)

From Stdlib Require Import ZArith List Lia Bool.
From S2P Require Import Prelude Bits Bignum BignumMul BignumDiv.
Import ListNotations.

(** ** Definitions *)

Definition BIGNUM_POSITIVE_P (b : bignum) : bool :=
  match bignum_test b with bignum_comparison_greater => true | _ => false end.

(** The [do ... while] loop that cuts a word into digits.  The C array has
    [BIGNUM_DIGITS_FOR_TYPE] = 2 elements: [None] if it were overrun. *)
Fixpoint word_digits (array : nat) (accumulator : Z) : option (list Z) :=
  match array with
  | O => None
  | S array =>
      let digit := accumulator & BIGNUM_DIGIT_MASK in
      let accumulator := accumulator >>> BIGNUM_DIGIT_LENGTH in
      if negb (accumulator =? 0) then
        let* digits := word_digits array accumulator in Some (digit :: digits)
      else Some [digit]
  end.

(** [accumulator = (accumulator << BIGNUM_DIGIT_LENGTH) + digit], from the
    most significant digit down. *)
Fixpoint accumulate (ds : list Z) : Z :=
  match ds with
  | [] => 0
  | d :: ds => ((accumulate ds << BIGNUM_DIGIT_LENGTH)%UL + d)%UL
  end.

(** [DEFINE_BIGNUM_TO_INT] *)
Definition BIGNUM_TO_INT (b : bignum) : Z :=
  if BIGNUM_ZERO_P b then 0
  else
    let accumulator := accumulate (digits_of b) in
    if BIGNUM_NEGATIVE_P b then (- slong accumulator)%SL else slong accumulator.

Definition bignum_to_long := BIGNUM_TO_INT.
Definition bignum_to_intmax := BIGNUM_TO_INT.

(** [DEFINE_BIGNUM_TO_UINT] *)
Definition BIGNUM_TO_UINT (b : bignum) : option Z :=
  if BIGNUM_ZERO_P b then Some 0
  else assert* BIGNUM_POSITIVE_P b in Some (accumulate (digits_of b)).

Definition bignum_to_ulong := BIGNUM_TO_UINT.
Definition bignum_to_uintmax := BIGNUM_TO_UINT.

(** The tests on the magnitude, once [n_bits] is known. *)
Definition fits_in_bits_p (b : bignum) (n_bits : Z) (twos_complement_p : bool) : option bool :=
  assert* 0 <? n_bits in
  let length := BIGNUM_LENGTH b in
  let max_digits := uint (BIGNUM_BITS_TO_DIGITS n_bits) in
  if uint length <? max_digits then Some true
  else if max_digits <? uint length then Some false
  else
    let msd := BIGNUM_REF b (length - 1) in
    let max := slong (1 << (n_bits - (length - 1) * BIGNUM_DIGIT_LENGTH))%UL in
    Some ((msd <? max) || (twos_complement_p && (msd =? max) && BIGNUM_NEGATIVE_P b)).

Definition bignum_fits_in_word_p (b : bignum) (word_length : Z) (twos_complement_p : bool)
  : option bool :=
  if twos_complement_p then fits_in_bits_p b (uint (word_length - 1)) twos_complement_p
  else if BIGNUM_NEGATIVE_P b then Some false
  else fits_in_bits_p b (uint word_length) twos_complement_p.

Definition BIGNUM_TO_LONG_P (b : bignum) : option bool := bignum_fits_in_word_p b 64 true.
Definition BIGNUM_TO_ULONG_P (b : bignum) : option bool := bignum_fits_in_word_p b 64 false.

Section Operations.
Context {heap : Heap}.

Definition bignum_from_digits (digits : list Z) (negative_p : bool) : option bignum :=
  let* result := bignum_allocate (Z.of_nat (length digits)) negative_p in
  Some (store_digits result digits).

(** [DEFINE_INT_TO_BIGNUM] *)
Definition INT_TO_BIGNUM (n : Z) : option bignum :=
  if n =? 0 then Some bignum_make_zero
  else if n =? 1 then Some (bignum_make_one false)
  else if n =? -1 then Some (bignum_make_one true)
  else
    let negative_p := n <? 0 in
    let accumulator := ulong (if negative_p then (- n)%SL else n) in
    let* digits := word_digits 2 accumulator in
    bignum_from_digits digits negative_p.

Definition long_to_bignum := INT_TO_BIGNUM.
Definition intmax_to_bignum := INT_TO_BIGNUM.

(** [DEFINE_UINT_TO_BIGNUM] *)
Definition UINT_TO_BIGNUM (n : Z) : option bignum :=
  if n =? 0 then Some bignum_make_zero
  else if n =? 1 then Some (bignum_make_one false)
  else
    let* digits := word_digits 2 n in
    bignum_from_digits digits false.

Definition ulong_to_bignum := UINT_TO_BIGNUM.
Definition uintmax_to_bignum := UINT_TO_BIGNUM.

(** *** Digit streams

    The caller's [producer] and [consumer] are functions on the caller's
    context, whose type is [C]. *)

(** [BIGNUM_BITS_TO_DIGITS (n_digits * (ulong_length_in_bits (radix)))]; both
    factors are [unsigned int]. *)
Definition digit_stream_length (n_digits radix : Z) : Z :=
  BIGNUM_BITS_TO_DIGITS (uint (n_digits * ulong_length_in_bits radix)).

Section Streams.
Context {C : Type}.

(** The loop of [digit_stream_to_bignum]. *)
Fixpoint produce_digits (n_digits : nat) (producer : C -> Z * C) (context : C) (radix : Z)
    (result : bignum) : option (bignum * C) :=
  match n_digits with
  | O => Some (result, context)
  | S n_digits =>
      let* result := bignum_destructive_scale_up result radix in
      let '(digit, context) := producer context in
      let* result := bignum_destructive_add result digit in
      produce_digits n_digits producer context radix result
  end.

(** The bignum and the context the producer leaves. *)
Definition digit_stream_to_bignum (n_digits : Z) (producer : C -> Z * C) (context : C)
    (radix : Z) (negative_p : bool) : option (bignum * C) :=
  assert* (1 <? radix) && (radix <=? BIGNUM_RADIX_ROOT) in
  if n_digits =? 0 then Some (bignum_make_zero, context)
  else if n_digits =? 1 then
    let '(digit, context) := producer context in
    let* result := long_to_bignum (if negative_p then (- digit)%SL else digit) in
    Some (result, context)
  else
    let* result := bignum_allocate_zeroed (digit_stream_length n_digits radix) negative_p in
    let* (result, context) :=
      produce_digits (Z.to_nat n_digits) producer context radix result in
    Some (bignum_trim result, context).

(** The loop of [bignum_to_digit_stream], [scan] counted in digits from
    [start], at most [fuel] tests. *)
Fixpoint consume_digits (fuel : nat) (consumer : C -> Z -> C) (context : C) (radix : Z)
    (working_copy : bignum) (scan : nat) : option C :=
  match fuel with
  | O => None
  | S fuel =>
      match scan with
      | O => Some context
      | S scan' =>
          if BIGNUM_REF working_copy (Z.of_nat scan') =? 0 then
            consume_digits fuel consumer context radix working_copy scan'
          else
            let* (working_copy, digit) := bignum_destructive_scale_down working_copy radix in
            consume_digits fuel consumer (consumer context digit) radix working_copy scan
      end
  end.

(** The context the consumer leaves. *)
Definition bignum_to_digit_stream (fuel : nat) (b : bignum) (radix : Z)
    (consumer : C -> Z -> C) (context : C) : option C :=
  assert* (1 <? radix) && (radix <=? BIGNUM_RADIX_ROOT) in
  if negb (BIGNUM_ZERO_P b) then
    let* working_copy := bignum_copy b in
    consume_digits fuel consumer context radix working_copy (Z.to_nat (BIGNUM_LENGTH working_copy))
  else Some context.

End Streams.
End Operations.

Definition bignum_max_digit_stream_radix : Z := BIGNUM_RADIX_ROOT.

(** ** Words *)

Lemma slong_eq_mod x y :
  x mod 18446744073709551616 = y mod 18446744073709551616 -> slong x = slong y.
Proof.
  intros H. unfold slong. f_equal.
  rewrite (Z.add_mod x), (Z.add_mod y), H by lia. reflexivity.
Qed.

Lemma slong_mod z : slong z mod 18446744073709551616 = z mod 18446744073709551616.
Proof.
  unfold slong. rewrite Zminus_mod_idemp_l. f_equal. lia.
Qed.

Lemma slong_ulong z : slong (ulong z) = slong z.
Proof. apply slong_eq_mod. unfold ulong. apply Z.mod_mod. lia. Qed.

Lemma slong_opp z : slong (- slong z) = slong (- z).
Proof.
  apply slong_eq_mod. rewrite <- !(Z.sub_0_l (_)).
  now rewrite Zminus_mod, slong_mod, <- Zminus_mod.
Qed.

Lemma accumulate_eval ds : accumulate ds = ulong (eval ds).
Proof.
  induction ds as [|d ds IH]; cbn [accumulate eval]; [reflexivity |].
  rewrite IH. unfold ulong. rewrite Z.shiftl_mul_pow2 by lia. change (2 ^ 62) with BIGNUM_RADIX.
  rewrite Zplus_mod_idemp_l, <- Zplus_mod_idemp_l, Zmult_mod_idemp_l, Zplus_mod_idemp_l.
  f_equal. lia.
Qed.

Lemma word_digits_S array acc :
  word_digits (S array) acc
  = if acc / BIGNUM_RADIX =? 0 then Some [acc mod BIGNUM_RADIX]
    else let* digits := word_digits array (acc / BIGNUM_RADIX) in
         Some (acc mod BIGNUM_RADIX :: digits).
Proof.
  cbn [word_digits]. change BIGNUM_DIGIT_MASK with (2 ^ 62 - 1).
  rewrite (shiftr_div acc 62), (land_mask acc 62) by lia. change (2 ^ 62) with BIGNUM_RADIX.
  now destruct (acc / BIGNUM_RADIX =? 0).
Qed.

Lemma word_digits_spec : forall array acc,
  0 <= acc < BIGNUM_RADIX ^ Z.of_nat array -> (0 < array)%nat ->
  exists ds, word_digits array acc = Some ds
    /\ digits_ok ds /\ (1 <= length ds <= array)%nat /\ eval ds = acc
    /\ (acc <> 0 -> trimmed ds).
Proof.
  induction array as [|array IH]; intros acc H HA; [lia |].
  rewrite Nat2Z.inj_succ, Z.pow_succ_r in H by lia. rewrite word_digits_S.
  pose proof (Z.mod_pos_bound acc BIGNUM_RADIX ltac:(lia)) as M.
  pose proof (Z.div_mod acc BIGNUM_RADIX ltac:(lia)) as D.
  destruct (Z.eqb_spec (acc / BIGNUM_RADIX) 0) as [E | N].
  - exists [acc mod BIGNUM_RADIX]. unfold trimmed. cbn [length eval last].
    repeat split; auto; try lia.
  - assert (R : 0 <= acc / BIGNUM_RADIX < BIGNUM_RADIX ^ Z.of_nat array).
    { split; [apply Z.div_pos; lia | apply Z.div_lt_upper_bound; lia]. }
    destruct (IH (acc / BIGNUM_RADIX) R) as (ds & -> & O & L & Ev & T).
    { destruct array; [cbn in R; lia | lia]. }
    exists (acc mod BIGNUM_RADIX :: ds). cbn [obind length eval]. rewrite Ev.
    repeat split; auto; try lia. intros _. specialize (T N).
    unfold trimmed in *. destruct ds; [cbn in L; lia | exact T].
Qed.

(** A word cut into digits is a canonical bignum. *)
Lemma word_to_bignum {heap : Heap} n neg :
  0 < n < 18446744073709551616 ->
  exists b, (let* digits := word_digits 2 n in bignum_from_digits digits neg) = Some b
    /\ repr b (sign neg n).
Proof.
  intros Hn. destruct (word_digits_spec 2 n) as (ds & -> & O & L & E & T); [cbn; lia | lia |].
  assert (F : fits ds) by (unfold fits; change BIGNUM_LENGTH_MAX with 74382032555280388; lia).
  cbn [obind]. unfold bignum_from_digits. rewrite bignum_allocate_store by auto.
  eexists. split; [reflexivity |]. rewrite <- E. apply repr_block; auto; [apply T; lia |].
  intros ->. cbn in L. lia.
Qed.

Lemma BIGNUM_TO_INT_repr b z : repr b z -> BIGNUM_TO_INT b = slong z.
Proof.
  intros H. unfold BIGNUM_TO_INT. rewrite (repr_ZERO_P b z H), (repr_NEGATIVE_P b z H).
  destruct (Z.eqb_spec z 0) as [-> | N]; [reflexivity |].
  destruct H as (neg & ds & -> & O & F & T & _ & ->). autorewrite with bignum.
  rewrite accumulate_eval, slong_ulong. pose proof (eval_nonneg ds O).
  destruct (Z.ltb_spec (sign neg (eval ds)) 0); destruct neg; cbn [sign] in *; try lia;
    solve [apply slong_opp | reflexivity].
Qed.

Lemma repr_POSITIVE_P b z : repr b z -> BIGNUM_POSITIVE_P b = (0 <? z).
Proof.
  intros H. unfold BIGNUM_POSITIVE_P. rewrite (bignum_test_repr b z H).
  apply comparison_of_spec; intros; destruct (Z.ltb_spec 0 z); auto; lia.
Qed.

Lemma BIGNUM_TO_UINT_repr b z :
  repr b z -> BIGNUM_TO_UINT b = if 0 <=? z then Some (ulong z) else None.
Proof.
  intros H. unfold BIGNUM_TO_UINT. rewrite (repr_ZERO_P b z H), (repr_POSITIVE_P b z H).
  destruct (Z.eqb_spec z 0) as [-> | N]; [reflexivity |].
  destruct H as (neg & ds & -> & O & F & T & _ & ->). autorewrite with bignum.
  rewrite accumulate_eval. pose proof (eval_nonneg ds O).
  destruct (Z.ltb_spec 0 (sign neg (eval ds))), (Z.leb_spec 0 (sign neg (eval ds)));
    destruct neg; cbn [sign] in *; auto; lia.
Qed.

Lemma INT_TO_BIGNUM_repr {heap : Heap} n :
  is_slong n -> exists b, INT_TO_BIGNUM n = Some b /\ repr b n.
Proof.
  intros Hn. red in Hn. unfold INT_TO_BIGNUM.
  destruct (Z.eqb_spec n 0) as [-> |]; [eexists; split; [reflexivity | apply repr_nil] |].
  destruct (Z.eqb_spec n 1) as [-> |]; [eexists; split; [reflexivity | apply (repr_digit false 1); lia] |].
  destruct (Z.eqb_spec n (-1)) as [-> |]; [eexists; split; [reflexivity | apply (repr_digit true 1); lia] |].
  cbv zeta. destruct (Z.ltb_spec n 0).
  - replace (ulong (- n)%SL) with (- n).
    { destruct (word_to_bignum (- n) true) as (b & -> & Hb); [lia |]. exists b.
      split; [reflexivity |]. cbn [sign] in Hb. now rewrite Z.opp_involutive in Hb. }
    unfold ulong. rewrite slong_mod. symmetry. apply Z.mod_small. lia.
  - rewrite ulong_small by lia. apply word_to_bignum. lia.
Qed.

Lemma UINT_TO_BIGNUM_repr {heap : Heap} n :
  is_ulong n -> exists b, UINT_TO_BIGNUM n = Some b /\ repr b n.
Proof.
  intros Hn. red in Hn. unfold UINT_TO_BIGNUM.
  destruct (Z.eqb_spec n 0) as [-> |]; [eexists; split; [reflexivity | apply repr_nil] |].
  destruct (Z.eqb_spec n 1) as [-> |]; [eexists; split; [reflexivity | apply (repr_digit false 1); lia] |].
  apply (word_to_bignum n false). lia.
Qed.

(** ** The word-size test *)

(** How far below [- 2^n] the two's-complement test still answers yes: it
    compares the top digit only. *)
Definition twos_complement_slack (n : Z) : Z :=
  if n mod 62 =? 0 then 0 else BIGNUM_RADIX ^ (n / 62).

Lemma radix_pow k : 0 <= k -> BIGNUM_RADIX ^ k = 2 ^ (62 * k).
Proof. intros Hk. rewrite Z.pow_mul_r by lia. reflexivity. Qed.

(** [n] bits are [e] bits of the top digit above [k - 1] digits. *)
Lemma bits_split n :
  0 < n ->
  let k := BIGNUM_BITS_TO_DIGITS n in
  exists e, 1 <= k /\ 1 <= e <= 62 /\ n = 62 * (k - 1) + e
    /\ 2 ^ n = BIGNUM_RADIX ^ (k - 1) * 2 ^ e
    /\ twos_complement_slack n = if e =? 62 then 0 else BIGNUM_RADIX ^ (k - 1).
Proof.
  intros Hn k. exists (n - 62 * (k - 1)).
  assert (Hk : 1 <= k /\ 1 <= n - 62 * (k - 1) <= 62).
  { unfold k, BIGNUM_BITS_TO_DIGITS.
    pose proof (Z.div_mod (n + 61) 62 ltac:(lia)). pose proof (Z.mod_pos_bound (n + 61) 62).
    change (62 - 1) with 61. lia. }
  clearbody k. repeat split; try lia.
  - rewrite radix_pow, <- Z.pow_add_r by lia. f_equal. lia.
  - unfold twos_complement_slack. destruct (Z.eqb_spec (n - 62 * (k - 1)) 62) as [E | E].
    + replace n with (k * 62) by lia. now rewrite Z_mod_mult.
    + assert (D : n / 62 = k - 1 /\ n mod 62 = n - 62 * (k - 1)).
      { split; symmetry.
        - apply (Z.div_unique_pos _ _ _ (n - 62 * (k - 1))); lia.
        - apply (Z.mod_unique_pos _ _ (k - 1)); lia. }
      destruct D as [-> ->]. destruct (Z.eqb_spec (n - 62 * (k - 1)) 0); [lia | reflexivity].
Qed.

(** The answer for a magnitude [x] and a sign. *)
Definition fits_bound (x n : Z) (tc negative : bool) : bool :=
  (x <? 2 ^ n) || (tc && negative && (x <? 2 ^ n + twos_complement_slack n)).

Lemma fits_fewer_digits x n tc neg :
  0 < n -> 0 <= x < BIGNUM_RADIX ^ (BIGNUM_BITS_TO_DIGITS n - 1) -> fits_bound x n tc neg = true.
Proof.
  intros Hn Hx. unfold fits_bound. destruct (bits_split n Hn) as (e & Hk & He & _ & -> & _).
  pose proof (Z.pow_pos_nonneg 2 e).
  now rewrite (proj2 (Z.ltb_lt x _)) by nia.
Qed.

Lemma fits_more_digits x n tc neg :
  0 < n -> BIGNUM_RADIX ^ BIGNUM_BITS_TO_DIGITS n <= x -> fits_bound x n tc neg = false.
Proof.
  intros Hn Hx. unfold fits_bound. destruct (bits_split n Hn) as (e & Hk & He & _ & -> & ->).
  set (k := BIGNUM_BITS_TO_DIGITS n) in *. clearbody k.
  replace k with (k - 1 + 1) in Hx by lia. rewrite Z.pow_add_r, Z.pow_1_r in Hx by lia.
  assert (Pk : 0 < BIGNUM_RADIX ^ (k - 1)) by (apply Z.pow_pos_nonneg; lia).
  set (K := BIGNUM_RADIX ^ (k - 1)) in *.
  assert (Up : K * 2 ^ e + (if e =? 62 then 0 else K) <= K * BIGNUM_RADIX).
  { destruct (Z.eqb_spec e 62) as [-> | Ne]; [change (2 ^ 62) with BIGNUM_RADIX; lia |].
    assert (K * 2 ^ e <= K * 2 ^ 61) by (apply Z.mul_le_mono_nonneg_l; [lia | apply Z.pow_le_mono_r; lia]).
    lia. }
  rewrite (proj2 (Z.ltb_ge x (K * 2 ^ e))) by (destruct (e =? 62); lia).
  rewrite (proj2 (Z.ltb_ge x _)) by lia. apply andb_false_r.
Qed.

Lemma fits_top_digit x n m tc neg :
  0 < n -> let k := BIGNUM_BITS_TO_DIGITS n in
  m * BIGNUM_RADIX ^ (k - 1) <= x < (m + 1) * BIGNUM_RADIX ^ (k - 1) -> is_digit m ->
  let max := slong (1 << (n - (k - 1) * BIGNUM_DIGIT_LENGTH))%UL in
  (m <? max) || (tc && (m =? max) && neg) = fits_bound x n tc neg.
Proof.
  intros Hn k Hx Hm. red in Hm. unfold fits_bound.
  destruct (bits_split n Hn) as (e & Hk & He & En & -> & ->).
  fold k in Hk, En |- *. clearbody k. replace (n - (k - 1) * 62) with e by lia.
  assert (Pk : 0 < BIGNUM_RADIX ^ (k - 1)) by (apply Z.pow_pos_nonneg; lia).
  set (K := BIGNUM_RADIX ^ (k - 1)) in *.
  assert (2 ^ e <= 2 ^ 62) by (apply Z.pow_le_mono_r; lia). change (2 ^ 62) with BIGNUM_RADIX in *.
  pose proof (Z.pow_pos_nonneg 2 e). rewrite Z.shiftl_1_l, ulong_small, slong_small by lia. cbv zeta.
  destruct (Z.ltb_spec m (2 ^ e)); [now rewrite (proj2 (Z.ltb_lt x (K * 2 ^ e))) by nia |].
  rewrite (proj2 (Z.ltb_ge x (K * 2 ^ e))) by nia. cbn [orb].
  destruct (Z.eqb_spec e 62) as [-> | Ne]; [change (2 ^ 62) with BIGNUM_RADIX in *; lia |].
  destruct (Z.eqb_spec m (2 ^ e)), (Z.ltb_spec x (K * 2 ^ e + K));
    try nia; now destruct tc, neg.
Qed.

Lemma fits_in_bits_p_repr b z n tc :
  repr b z -> BIGNUM_LENGTH b < 4294967296 -> 0 < n < 4294967296 ->
  fits_in_bits_p b n tc = Some (fits_bound (Z.abs z) n tc (z <? 0)).
Proof.
  intros H HL Hn. unfold fits_in_bits_p. rewrite (proj2 (Z.ltb_lt 0 n)) by lia. cbv zeta.
  rewrite (repr_NEGATIVE_P b z H).
  destruct H as (neg & ds & -> & O & F & T & Nn & ->). autorewrite with bignum in *.
  pose proof (eval_range ds O) as R.
  replace (Z.abs (sign neg (eval ds))) with (eval ds) by (destruct neg; cbn [sign]; lia).
  destruct (bits_split n) as (e & Hk & He & En & _ & _); [lia |].
  set (L := Z.of_nat (length ds)) in *. rewrite !uint_small by lia.
  destruct (Z.ltb_spec L (BIGNUM_BITS_TO_DIGITS n)) as [Lt | Ge].
  { rewrite fits_fewer_digits; [reflexivity | lia |].
    assert (BIGNUM_RADIX ^ L <= BIGNUM_RADIX ^ (BIGNUM_BITS_TO_DIGITS n - 1))
      by (apply Z.pow_le_mono_r; lia). lia. }
  destruct (Z.ltb_spec (BIGNUM_BITS_TO_DIGITS n) L) as [Gt | Le].
  { rewrite fits_more_digits; [reflexivity | lia |].
    assert (Lo : BIGNUM_RADIX ^ (L - 1) <= eval ds)
      by (apply eval_trimmed_lower; auto; intros ->; cbn in L; lia).
    assert (BIGNUM_RADIX ^ BIGNUM_BITS_TO_DIGITS n <= BIGNUM_RADIX ^ (L - 1))
      by (apply Z.pow_le_mono_r; lia). lia. }
  assert (EL : length ds = S (length ds - 1)) by lia.
  destruct (top_digit_upper ds (length ds - 1) O EL) as [U1 U2].
  pose proof (trimmed_top ds (length ds - 1) O T EL).
  assert (E : Z.of_nat (length ds - 1) = L - 1) by lia.
  assert (EB : BIGNUM_REF (block neg ds) (L - 1) = nth (length ds - 1) ds 0)
    by (rewrite <- E; apply BIGNUM_REF_block).
  rewrite EB, E in *.
  replace L with (BIGNUM_BITS_TO_DIGITS n) in * by lia.
  now rewrite <- (fits_top_digit (eval ds) n (nth (length ds - 1) ds 0)) by (unfold is_digit; lia).
Qed.

(** The unsigned test is exact; the signed one is exact up to one digit and
    accepts too much beyond. *)
Lemma bignum_fits_in_word_p_repr b z w (tc : bool) :
  repr b z -> BIGNUM_LENGTH b < 4294967296 ->
  (if tc then 1 else 0) < w < 4294967296 ->
  bignum_fits_in_word_p b w tc
  = Some (if tc then (- (2 ^ (w - 1) + Z.max 1 (twos_complement_slack (w - 1))) <? z)
                     && (z <? 2 ^ (w - 1)) && negb ((z =? - 2 ^ (w - 1)) && ((w - 1) mod 62 =? 0))
          else (0 <=? z) && (z <? 2 ^ w)).
Proof.
  intros H HL Hw. unfold bignum_fits_in_word_p. rewrite (repr_NEGATIVE_P b z H). destruct tc.
  - rewrite uint_small by lia. rewrite (fits_in_bits_p_repr b z) by (auto; lia).
    f_equal. unfold fits_bound, twos_complement_slack.
    assert (0 < 2 ^ (w - 1)) by (apply Z.pow_pos_nonneg; lia).
    assert (0 < BIGNUM_RADIX ^ ((w - 1) / 62)).
    { apply Z.pow_pos_nonneg; [lia | apply Z.div_pos; lia]. }
    destruct (Z.eqb_spec ((w - 1) mod 62) 0); lia.
  - destruct (Z.ltb_spec z 0); [f_equal; lia |]. rewrite uint_small by lia.
    rewrite (fits_in_bits_p_repr b z) by (auto; lia). f_equal. unfold fits_bound. cbn [andb].
    lia.
Qed.

(** ** Digit streams *)

(** The first [n] digits a producer gives, and the context it leaves. *)
Fixpoint stream {C} (n : nat) (producer : C -> Z * C) (context : C) : list Z * C :=
  match n with
  | O => ([], context)
  | S n =>
      let '(d, context) := producer context in
      let '(ds, context) := stream n producer context in
      (d :: ds, context)
  end.

(** The number written by digits, most significant first, after [v]. *)
Definition horner (radix v : Z) (ds : list Z) : Z :=
  fold_left (fun a d => a * radix + d) ds v.

(** The number written by digits, least significant first. *)
Fixpoint radix_eval (radix : Z) (ds : list Z) : Z :=
  match ds with [] => 0 | d :: ds => d + radix * radix_eval radix ds end.

Notation radix_digits radix := (Forall (fun d => 0 <= d < radix)).

Lemma length_bits_pow r : 1 < r < BIGNUM_RADIX_ROOT ->
  1 <= ulong_length_in_bits r <= 31 /\ r < 2 ^ ulong_length_in_bits r.
Proof.
  intros Hr. rewrite ulong_length_in_bits_log2 by (red; lia).
  destruct (Z.eqb_spec r 0); [lia |]. pose proof (Z.log2_spec r ltac:(lia)) as [_ U].
  pose proof (Z.log2_nonneg r). assert (Z.log2 r < 31) by (apply Z.log2_lt_pow2; lia).
  repeat split; lia.
Qed.

Lemma digit_stream_length_enough n r :
  0 < n -> 1 < r < BIGNUM_RADIX_ROOT -> n * ulong_length_in_bits r < 4294967296 ->
  0 < digit_stream_length n r <= BIGNUM_LENGTH_MAX
  /\ r ^ n <= BIGNUM_RADIX ^ digit_stream_length n r.
Proof.
  intros Hn Hr Hw. destruct (length_bits_pow r Hr) as [Hb Hp].
  set (w := ulong_length_in_bits r) in *. unfold digit_stream_length. fold w.
  rewrite uint_small by nia.
  destruct (bits_split (n * w)) as (e & Hk & He & En & _ & _); [nia |].
  set (k := BIGNUM_BITS_TO_DIGITS (n * w)) in *. clearbody k.
  change BIGNUM_LENGTH_MAX with 74382032555280388. split; [lia |].
  rewrite radix_pow by lia. transitivity (2 ^ (w * n)).
  - rewrite Z.pow_mul_r by lia. apply Z.pow_le_mono_l. lia.
  - apply Z.pow_le_mono_r; lia.
Qed.

Section StreamFacts.
Context {heap : Heap} {C : Type}.
Variable radix : Z.
Hypothesis Hradix : 1 < radix < BIGNUM_RADIX_ROOT.

Lemma produce_digits_spec neg producer : forall n (c : C) ds,
  digits_ok ds -> fits ds -> ds <> [] ->
  radix_digits radix (fst (stream n producer c)) ->
  (eval ds + 1) * radix ^ Z.of_nat n <= BIGNUM_RADIX ^ Z.of_nat (length ds) ->
  exists es, produce_digits n producer c radix (block neg ds)
      = Some (block neg es, snd (stream n producer c))
    /\ digits_ok es /\ length es = length ds
    /\ eval es = horner radix (eval ds) (fst (stream n producer c)).
Proof.
  induction n as [|n IH]; intros c ds O F N Hs Hle; cbn [produce_digits stream] in *.
  - exists ds. auto.
  - rewrite Nat2Z.inj_succ, Z.pow_succ_r in Hle by lia.
    assert (Pn : 0 < radix ^ Z.of_nat n) by (apply Z.pow_pos_nonneg; lia).
    pose proof (eval_nonneg ds O).
    assert (B : (eval ds * radix + radix) * radix ^ Z.of_nat n
      <= BIGNUM_RADIX ^ Z.of_nat (length ds)) by lia.
    destruct (producer c) as [d c1] eqn:Ep. destruct (stream n producer c1) as [ss c2] eqn:Es.
    cbn [fst snd] in *. inversion_clear Hs as [|? ? Hd Hss].
    destruct (bignum_destructive_scale_up_block neg ds radix) as (es & -> & O1 & L1 & E1);
      auto; [nia |]. cbn [obind].
    assert (N1 : es <> []) by (intros ->; now destruct ds).
    assert (F1 : fits es) by (unfold fits in *; lia).
    destruct (bignum_destructive_add_block neg es d) as (fs & -> & O2 & L2 & E2);
      auto; [red; lia | rewrite L1, E1; nia |]. cbn [obind].
    destruct (IH c1 fs) as (gs & E & O3 & L3 & E3); auto.
    { unfold fits in *. lia. } { intros ->. now destruct es. } { now rewrite Es. }
    { rewrite L2, L1, E2, E1. nia. }
    rewrite Es in E, E3. exists gs. rewrite E. repeat split; auto; [lia |].
    rewrite E3, E2, E1. cbn [fst horner fold_left]. f_equal. lia.
Qed.

(** Reading [n_digits] digits gives the number they write. *)
Lemma digit_stream_to_bignum_repr n producer (c : C) neg :
  0 <= n -> n * ulong_length_in_bits radix < 4294967296 ->
  radix_digits radix (fst (stream (Z.to_nat n) producer c)) ->
  exists b, digit_stream_to_bignum n producer c radix neg
      = Some (b, snd (stream (Z.to_nat n) producer c))
    /\ repr b (sign neg (horner radix 0 (fst (stream (Z.to_nat n) producer c)))).
Proof.
  intros Hn Hw Hs. unfold digit_stream_to_bignum.
  rewrite (proj2 (Z.ltb_lt 1 radix)), (proj2 (Z.leb_le radix _)) by lia. cbn [andb].
  destruct (Z.eqb_spec n 0) as [-> | N0].
  { eexists. split; [reflexivity |]. rewrite sign_zero. apply repr_nil. }
  destruct (Z.eqb_spec n 1) as [-> | N1].
  { change (Z.to_nat 1) with 1%nat in *. cbn [stream] in *.
    destruct (producer c) as [d c1]. cbn [fst snd] in *. inversion_clear Hs as [|? ? Hd _].
    destruct (INT_TO_BIGNUM_repr (sign neg d)) as (b & E & Hb).
    { red. destruct neg; cbn [sign]; lia. }
    exists b. unwrap. unfold long_to_bignum.
    replace (if neg then - d else d) with (sign neg d) by now destruct neg.
    rewrite E. split; [reflexivity | exact Hb]. }
  destruct (digit_stream_length_enough n radix) as [HL HP]; auto; [lia |].
  rewrite bignum_allocate_zeroed_some by lia. cbn [obind].
  set (L := digit_stream_length n radix) in *.
  assert (LL : length (repeat 0 (Z.to_nat L)) = Z.to_nat L) by apply repeat_length.
  destruct (produce_digits_spec neg producer (Z.to_nat n) c (repeat 0 (Z.to_nat L)))
    as (es & -> & O & Le & E); auto using digits_ok_zeros.
  { unfold fits. lia. } { intros E. rewrite E in LL. cbn in LL. lia. }
  { rewrite LL, eval_repeat0, !Z2Nat.id by lia. lia. }
  cbn [obind]. eexists. split; [reflexivity |].
  rewrite eval_repeat0 in E. rewrite <- E. apply trim_repr; auto.
  - unfold fits. lia.
  - intros ->. cbn in Le. lia.
Qed.

(** A digit of the list is a digit of the number. *)
Lemma top_digit_zero ds k :
  digits_ok ds -> eval ds < BIGNUM_RADIX ^ Z.of_nat (S k) -> nth k ds 0 = 0 ->
  eval ds < BIGNUM_RADIX ^ Z.of_nat k.
Proof.
  revert k. induction ds as [|d ds IH]; intros k O Hlt Hz; [apply radix_pow_pos |].
  inversion_clear O as [|? ? Hd O']. red in Hd. cbn [eval] in *.
  rewrite Nat2Z.inj_succ, Z.pow_succ_r in Hlt by lia.
  pose proof (eval_nonneg ds O'). destruct k as [|k]; cbn [nth] in Hz.
  - change (Z.of_nat 0) with 0 in *. rewrite Z.pow_0_r in *. lia.
  - rewrite Nat2Z.inj_succ, Z.pow_succ_r by lia.
    specialize (IH k O' ltac:(lia) Hz). lia.
Qed.

Lemma consume_digits_spec neg (consumer : C -> Z -> C) : forall fuel m scan ds c,
  digits_ok ds -> fits ds -> eval ds < BIGNUM_RADIX ^ Z.of_nat scan ->
  eval ds < 2 ^ Z.of_nat m -> (m + scan < fuel)%nat ->
  exists zs, consume_digits fuel consumer c radix (block neg ds) scan = Some (fold_left consumer zs c)
    /\ radix_digits radix zs /\ radix_eval radix zs = eval ds /\ last zs 1 <> 0.
Proof.
  induction fuel as [|fuel IH]; intros m scan ds c O F Hlt Hm Hf; [lia |].
  cbn [consume_digits]. pose proof (eval_nonneg ds O). destruct scan as [|scan].
  { exists []. cbn in Hlt. cbn [fold_left radix_eval last]. repeat split; auto; lia. }
  rewrite BIGNUM_REF_block. destruct (Z.eqb_spec (nth scan ds 0) 0) as [E | Nz].
  - apply (IH m); auto; [now apply top_digit_zero | lia].
  - assert (Pos : 0 < eval ds).
    { destruct (Z.eq_dec (eval ds) 0) as [E0 |]; [| lia]. exfalso. apply Nz. clear - O E0.
      revert scan. induction O as [|d ds Hd O IH]; intros scan; [now destruct scan |].
      red in Hd. cbn [eval] in E0. pose proof (eval_nonneg ds O).
      destruct scan; cbn [nth]; [lia | apply IH; lia]. }
    destruct m as [|m]; [cbn in Hm; lia |].
    rewrite Nat2Z.inj_succ, Z.pow_succ_r in Hm by lia.
    unfold bignum_destructive_scale_down. autorewrite with bignum. unwrap.
    rewrite (proj2 (Z.ltb_lt 1 radix)), (proj2 (Z.ltb_lt radix _)) by lia. cbn [andb].
    destruct (scale_down_digits_spec radix Hradix ds O) as (qs & -> & O1 & L1 & E1 & _).
    rewrite store_digits_block by lia. cbn [obind].
    pose proof (Z.div_mod (eval ds) radix ltac:(lia)). pose proof (Z.mod_pos_bound (eval ds) radix ltac:(lia)).
    assert (0 <= eval ds / radix) by (apply Z.div_pos; lia).
    destruct (IH m (S scan) qs (consumer c (eval ds mod radix))) as (zs & -> & R & Ev & La); auto.
    { unfold fits in *. lia. } { rewrite E1. nia. } { rewrite E1. nia. } { lia. }
    exists (eval ds mod radix :: zs). cbn [fold_left radix_eval].
    repeat split; auto; [rewrite Ev, E1; lia |].
    destruct zs as [|z zs]; [cbn [radix_eval last] in *; lia | exact La].
Qed.

(** Fuel for a bignum of [length] digits: at most one round per bit and one
    per digit. *)
Definition digit_stream_fuel (length : Z) : nat := Z.to_nat (63 * length + 1).

(** Printing gives the digits of the magnitude, least significant first, with
    no leading zero, and the loop terminates. *)
Lemma bignum_to_digit_stream_repr b z (consumer : C -> Z -> C) c :
  repr b z ->
  exists zs, bignum_to_digit_stream (digit_stream_fuel (BIGNUM_LENGTH b)) b radix consumer c
      = Some (fold_left consumer zs c)
    /\ radix_digits radix zs /\ radix_eval radix zs = Z.abs z /\ last zs 1 <> 0.
Proof.
  intros H. unfold bignum_to_digit_stream. rewrite (repr_ZERO_P b z H).
  rewrite (proj2 (Z.ltb_lt 1 radix)), (proj2 (Z.leb_le radix _)) by lia. cbn [andb].
  destruct (Z.eqb_spec z 0) as [-> | Nz]; cbn [negb].
  { exists []. cbn [fold_left radix_eval last]. repeat split; auto; lia. }
  destruct H as (neg & ds & -> & O & F & T & _ & ->). autorewrite with bignum. cbn [obind].
  autorewrite with bignum. rewrite Nat2Z.id. pose proof (eval_range ds O).
  destruct (consume_digits_spec neg consumer (digit_stream_fuel (Z.of_nat (length ds)))
    (62 * length ds) (length ds) ds c) as (zs & E & R & Ev & La); auto; try lia.
  { rewrite Nat2Z.inj_mul. change (Z.of_nat 62) with 62. rewrite <- radix_pow by lia. lia. }
  { unfold digit_stream_fuel. lia. }
  exists zs. repeat split; auto. rewrite Ev. destruct neg; cbn [sign]; lia.
Qed.

End StreamFacts.

(** *** Streams over lists *)

Lemma stream_list ds : stream (length ds) (fun l => (hd 0 l, tl l)) ds = (ds, []).
Proof. induction ds as [|d ds IH]; [reflexivity |]. cbn [length stream hd tl]. now rewrite IH. Qed.

Lemma fold_left_cons (zs : list Z) : forall acc,
  fold_left (fun l d => d :: l) zs acc = rev zs ++ acc.
Proof.
  induction zs as [|z zs IH]; intros acc; [reflexivity |]. cbn [fold_left rev].
  rewrite IH, <- app_assoc. reflexivity.
Qed.

Lemma horner_app radix v xs ys : horner radix v (xs ++ ys) = horner radix (horner radix v xs) ys.
Proof. apply fold_left_app. Qed.

Lemma horner_rev radix ds : horner radix 0 (rev ds) = radix_eval radix ds.
Proof.
  induction ds as [|d ds IH]; [reflexivity |].
  cbn [rev radix_eval]. rewrite horner_app, IH. unfold horner. cbn [fold_left]. ring.
Qed.

(** ** Properties *)

(** converting a machine word to a bignum and back is the identity, for
    [long] and for [unsigned long]; and for any bignum, [bignum_to_long] is the
    value reduced to 64 bits while [bignum_to_ulong] accepts exactly the
    nonnegative ones. *)
Theorem word_conversions {heap : Heap} :
  (forall n, is_slong n -> exists b, long_to_bignum n = Some b /\ repr b n /\ bignum_to_long b = n)
  /\ (forall n, is_ulong n -> exists b, ulong_to_bignum n = Some b /\ repr b n
        /\ bignum_to_ulong b = Some n)
  /\ (forall b z, repr b z -> bignum_to_long b = slong z
        /\ bignum_to_ulong b = if 0 <=? z then Some (ulong z) else None).
Proof.
  split; [| split].
  - intros n Hn. destruct (INT_TO_BIGNUM_repr n Hn) as (b & E & R). exists b.
    split; [exact E |]. split; [exact R |]. unfold bignum_to_long.
    rewrite (BIGNUM_TO_INT_repr b n R). now apply slong_small.
  - intros n Hn. destruct (UINT_TO_BIGNUM_repr n Hn) as (b & E & R). exists b.
    split; [exact E |]. split; [exact R |]. unfold bignum_to_ulong.
    rewrite (BIGNUM_TO_UINT_repr b n R). red in Hn.
    destruct (Z.leb_spec 0 n); [now rewrite ulong_small by lia | lia].
  - intros b z R. split; [now apply BIGNUM_TO_INT_repr | now apply BIGNUM_TO_UINT_repr].
Qed.

(** [bignum_fits_in_word_p] characterized for every word length: exact
    for unsigned words and for positive numbers; for negative numbers it looks
    at the top digit only, so below [- 2^(w-1)] it still accepts everything
    with the same top digit, and it refuses [- 2^(w-1)] itself when [w - 1] is
    a multiple of the digit length.  It is exact for the 58-bit fixnums. *)
Theorem bignum_fits_in_word_characterization b z :
  repr b z -> BIGNUM_LENGTH b < 4294967296 ->
  (forall w, 0 < w < 4294967296 ->
     bignum_fits_in_word_p b w false = Some ((0 <=? z) && (z <? 2 ^ w)))
  /\ (forall w, 1 < w < 4294967296 -> 0 <= z ->
        bignum_fits_in_word_p b w true = Some (z <? 2 ^ (w - 1)))
  /\ (forall w, 1 < w < 4294967296 -> z < 0 -> (w - 1) mod 62 <> 0 ->
        bignum_fits_in_word_p b w true
        = Some (- z <? 2 ^ (w - 1) + BIGNUM_RADIX ^ ((w - 1) / 62)))
  /\ (forall w, 1 < w < 4294967296 -> z < 0 -> (w - 1) mod 62 = 0 ->
        bignum_fits_in_word_p b w true = Some (- z <? 2 ^ (w - 1)))
  /\ bignum_fits_in_word_p b 58 true = Some ((- 2 ^ 57 <=? z) && (z <? 2 ^ 57)).
Proof.
  intros R L.
  assert (Neg : forall w, 1 < w -> 0 < 2 ^ (w - 1)) by (intros; apply Z.pow_pos_nonneg; lia).
  split; [| split; [| split; [| split]]].
  - intros w Hw. exact (bignum_fits_in_word_p_repr b z w false R L Hw).
  - intros w Hw Hz. rewrite (bignum_fits_in_word_p_repr b z w true R L Hw). apply f_equal.
    specialize (Neg w ltac:(lia)). destruct (Z.eqb_spec z (- 2 ^ (w - 1))); [lia |].
    destruct (Z.ltb_spec (- (2 ^ (w - 1) + Z.max 1 (twos_complement_slack (w - 1)))) z); [| lia].
    cbn [andb negb]. apply andb_true_r.
  - intros w Hw Hz E. rewrite (bignum_fits_in_word_p_repr b z w true R L Hw). apply f_equal.
    specialize (Neg w ltac:(lia)). unfold twos_complement_slack.
    destruct (Z.eqb_spec ((w - 1) mod 62) 0); [lia |].
    assert (0 < BIGNUM_RADIX ^ ((w - 1) / 62))
      by (apply Z.pow_pos_nonneg; [lia | apply Z.div_pos; lia]).
    rewrite andb_false_r, Z.max_r by lia. cbn [negb]. rewrite andb_true_r.
    rewrite (proj2 (Z.ltb_lt z (2 ^ (w - 1)))) by lia. rewrite andb_true_r.
    apply eq_true_iff_eq. rewrite !Z.ltb_lt. lia.
  - intros w Hw Hz E. rewrite (bignum_fits_in_word_p_repr b z w true R L Hw). apply f_equal.
    specialize (Neg w ltac:(lia)). unfold twos_complement_slack. rewrite E. cbn [Z.eqb].
    rewrite andb_true_r, (proj2 (Z.ltb_lt z (2 ^ (w - 1)))) by lia. rewrite andb_true_r.
    apply eq_true_iff_eq. rewrite andb_true_iff, negb_true_iff, Z.eqb_neq, !Z.ltb_lt. lia.
  - rewrite (bignum_fits_in_word_p_repr b z 58 true R L ltac:(lia)). apply f_equal.
    change (Z.max 1 (twos_complement_slack (58 - 1))) with 1. change ((58 - 1) mod 62 =? 0) with false.
    change (58 - 1) with 57. rewrite andb_false_r. cbn [negb]. rewrite andb_true_r. f_equal.
    apply eq_true_iff_eq. rewrite Z.ltb_lt, Z.leb_le. lia.
Qed.

Lemma bignum_fits_in_word_characterization_witness :
  repr (block true [5; 2]) (- (5 + BIGNUM_RADIX * 2))
  /\ bignum_fits_in_word_p (block true [5; 2]) 64 true = Some true
  /\ bignum_fits_in_word_p (block true [5; 2]) 58 true = Some false.
Proof.
  assert (R : repr (block true [5; 2]) (- (5 + BIGNUM_RADIX * 2))) by concrete_repr.
  destruct (bignum_fits_in_word_characterization _ _ R) as (_ & _ & N & _ & F); [reflexivity |].
  split; [exact R |]. split; [| exact F].
  rewrite (N 64) by (try lia; vm_compute; discriminate). reflexivity.
Defined.

(** The two's-complement test says that -2^63 - 5 fits in a [long]; the
    conversion then returns another number. *)
Theorem BIGNUM_TO_LONG_P_unsound :
  exists b z, repr b z /\ ~ is_slong z /\ BIGNUM_TO_LONG_P b = Some true /\ bignum_to_long b <> z.
Proof.
  exists (block true [5; 2]), (- (5 + BIGNUM_RADIX * 2)). split; [concrete_repr |].
  split; [unfold is_slong; lia |]. split; [reflexivity |]. vm_compute. discriminate.
Qed.

(** reading and writing in a radix.  [digit_stream_to_bignum] returns the
    canonical signed integer that the digits it pulls from the producer write,
    most significant first, and consumes exactly those digits;
    [bignum_to_digit_stream] pushes the digits of the magnitude, least
    significant first and with no leading zero, and terminates within the
    given fuel; reading back what was written gives the same bignum. *)
Theorem digit_streams {heap : Heap} radix :
  1 < radix < BIGNUM_RADIX_ROOT ->
  (forall ds (neg : bool), radix_digits radix ds ->
     Z.of_nat (length ds) * ulong_length_in_bits radix < 4294967296 ->
     exists b, digit_stream_to_bignum (Z.of_nat (length ds)) (fun l => (hd 0 l, tl l)) ds radix neg
         = Some (b, [])
       /\ repr b (sign neg (horner radix 0 ds)))
  /\ (forall b z, repr b z ->
     exists zs, bignum_to_digit_stream (digit_stream_fuel (BIGNUM_LENGTH b)) b radix (fun l d => d :: l) []
         = Some (rev zs)
       /\ radix_digits radix zs /\ radix_eval radix zs = Z.abs z /\ last zs 1 <> 0
       /\ (Z.of_nat (length zs) * ulong_length_in_bits radix < 4294967296 ->
           digit_stream_to_bignum (Z.of_nat (length zs)) (fun l => (hd 0 l, tl l)) (rev zs) radix (z <? 0)
           = Some (b, []))).
Proof.
  intros Hr.
  assert (Rd : forall ds (neg : bool), radix_digits radix ds ->
     Z.of_nat (length ds) * ulong_length_in_bits radix < 4294967296 ->
     exists b, digit_stream_to_bignum (Z.of_nat (length ds)) (fun l => (hd 0 l, tl l)) ds radix neg
         = Some (b, []) /\ repr b (sign neg (horner radix 0 ds))).
  { intros ds neg Hs Hl.
    destruct (digit_stream_to_bignum_repr radix Hr (Z.of_nat (length ds)) (fun l => (hd 0 l, tl l)) ds neg)
      as (b & E & R); [lia | exact Hl | rewrite Nat2Z.id, stream_list; exact Hs |].
    rewrite Nat2Z.id, stream_list in E, R. eauto. }
  split; [exact Rd |]. intros b z R.
  destruct (bignum_to_digit_stream_repr radix Hr b z (fun l d => d :: l) [] R) as (zs & E & Hs & Ev & La).
  exists zs. rewrite fold_left_cons in E. rewrite app_nil_r in E. do 4 (split; [assumption |]). intros Hl.
  rewrite <- length_rev in Hl |- *.
  destruct (Rd (rev zs) (z <? 0) ltac:(now apply Forall_rev) Hl) as (b' & -> & R').
  rewrite horner_rev, Ev in R'. apply (f_equal (fun x => Some (x, []))).
  apply (repr_unique b' b z); [| exact R].
  replace z with (sign (z <? 0) (Z.abs z)); [exact R' |].
  destruct (Z.ltb_spec z 0); cbn [sign]; lia.
Qed.

Lemma digit_streams_witness :
  let heap : Heap := fun _ => 77 in
  exists b, digit_stream_to_bignum 3 (fun l => (hd 0 l, tl l)) [4; 0; 7] 10 true = Some (b, [])
    /\ repr b (-407).
Proof.
  intros heap. destruct (digit_streams (heap := heap) 10) as [H _]; [lia |].
  apply (H [4; 0; 7] true); [| vm_compute; reflexivity].
  repeat (apply Forall_cons; [lia |]). apply Forall_nil.
Defined.

(** The length of the block that is allocated for a digit stream wraps: 2^30
    decimal digits are given no room at all. *)
Theorem digit_stream_length_wraps : digit_stream_length (2 ^ 30) 10 = 0.
Proof. reflexivity. Qed.

Lemma word_conversions_witness :
  let heap : Heap := fun _ => 77 in
  exists b, long_to_bignum (-9223372036854775808) = Some b /\ repr b (-9223372036854775808)
    /\ bignum_to_long b = -9223372036854775808.
Proof.
  intros heap. destruct (word_conversions (heap := heap)) as (H & _). apply H. red; lia.
Defined.
