(* ===== verification/BignumBitwise.v ===== *)
(** * Bitwise operations on bignums (src/src/microcode/bignum.c)

    The ten binary operations on the infinite two's-complement
    representation.  [DEFINE_BITWISE_UNSIGNED] is a digit loop on
    magnitudes; [DEFINE_BITWISE] reduces each of the four sign combinations
    to one of the unsigned loops. *)

From Stdlib Require Import ZArith List Lia Bool.
From S2P Require Import Prelude Bits Bignum BignumAdd BignumDiv BignumConv.
Import ListNotations.

(** ** Definitions *)

Definition BITWISE_AND (x y : Z) : Z := x & y.
Definition BITWISE_ANDC2 (x y : Z) : Z := x &~ y.
Definition BITWISE_ANDC1 (x y : Z) : Z := y &~ x.
Definition BITWISE_XOR (x y : Z) : Z := x ^^ y.
Definition BITWISE_IOR (x y : Z) : Z := x .| y.

(** The two loops: over the digits of [y], then over the rest of [x]. *)
Fixpoint bitwise_digits (op : Z -> Z -> Z) (xs ys : list Z) : list Z :=
  match xs, ys with
  | x :: xs, y :: ys => op x y :: bitwise_digits op xs ys
  | x :: xs, [] => op x 0 :: bitwise_digits op xs []
  | [], _ => []
  end.

Section Operations.
Context {heap : Heap}.

(** [DEFINE_BITWISE_UNSIGNED], the part after [COMMUTE]. *)
Definition BITWISE_UNSIGNED (op : Z -> Z -> Z) (postop : bignum -> option bignum)
    (x y : bignum) : option bignum :=
  let x_length := BIGNUM_LENGTH x in
  let y_length := BIGNUM_LENGTH y in
  let* r := bignum_allocate x_length false in
  assert* y_length <=? x_length in
  postop (bignum_trim (store_digits r (bitwise_digits op (digits_of x) (digits_of y)))).

(** With [SWAP] for [COMMUTE]. *)
Definition BITWISE_SWAP (op : Z -> Z -> Z) (postop : bignum -> option bignum)
    (x y : bignum) : option bignum :=
  let '(x, y) := if BIGNUM_LENGTH x <? BIGNUM_LENGTH y then (y, x) else (x, y) in
  BITWISE_UNSIGNED op postop x y.

Definition bignum_bitwise_and_unsigned := BITWISE_SWAP BITWISE_AND Some.
Definition bignum_bitwise_xor_unsigned := BITWISE_SWAP BITWISE_XOR Some.
Definition bignum_bitwise_ior_unsigned := BITWISE_SWAP BITWISE_IOR Some.
Definition bignum_bitwise_nor_unsigned := BITWISE_SWAP BITWISE_IOR bignum_bitwise_not.
Definition bignum_bitwise_eqv_unsigned := BITWISE_SWAP BITWISE_XOR bignum_bitwise_not.
Definition bignum_bitwise_nand_unsigned := BITWISE_SWAP BITWISE_AND bignum_bitwise_not.

(** With [COMMUTE (andc1)] and [COMMUTE (andc2)]: the function called on the
    swapped arguments does not commute again. *)
Definition bignum_bitwise_andc2_unsigned (x y : bignum) : option bignum :=
  if BIGNUM_LENGTH x <? BIGNUM_LENGTH y then BITWISE_UNSIGNED BITWISE_ANDC1 Some y x
  else BITWISE_UNSIGNED BITWISE_ANDC2 Some x y.
Definition bignum_bitwise_andc1_unsigned (x y : bignum) : option bignum :=
  if BIGNUM_LENGTH x <? BIGNUM_LENGTH y then BITWISE_UNSIGNED BITWISE_ANDC2 Some y x
  else BITWISE_UNSIGNED BITWISE_ANDC1 Some x y.

(** [DEFINE_BITWISE] *)
Definition BITWISE (X0 Y0 : option bignum) (PP PN NP NN : bignum -> bignum -> option bignum)
    (x y : bignum) : option bignum :=
  if BIGNUM_ZERO_P x then Y0
  else if BIGNUM_ZERO_P y then X0
  else if BIGNUM_POSITIVE_P x then
    if BIGNUM_POSITIVE_P y then PP x y
    else let* y := bignum_bitwise_not y in PN x y
  else
    if BIGNUM_POSITIVE_P y then let* x := bignum_bitwise_not x in NP x y
    else
      let* x := bignum_bitwise_not x in
      let* y := bignum_bitwise_not y in NN x y.

Definition bignum_bitwise_and (x y : bignum) : option bignum :=
  BITWISE (Some bignum_make_zero) (Some bignum_make_zero)
    bignum_bitwise_and_unsigned bignum_bitwise_andc2_unsigned
    bignum_bitwise_andc1_unsigned bignum_bitwise_nor_unsigned x y.

Definition bignum_bitwise_andc2 (x y : bignum) : option bignum :=
  BITWISE (Some x) (Some bignum_make_zero)
    bignum_bitwise_andc2_unsigned bignum_bitwise_and_unsigned
    bignum_bitwise_nor_unsigned bignum_bitwise_andc1_unsigned x y.

Definition bignum_bitwise_andc1 (x y : bignum) : option bignum :=
  BITWISE (Some bignum_make_zero) (Some y)
    bignum_bitwise_andc1_unsigned bignum_bitwise_nor_unsigned
    bignum_bitwise_and_unsigned bignum_bitwise_andc2_unsigned x y.

Definition bignum_bitwise_xor (x y : bignum) : option bignum :=
  BITWISE (Some x) (Some y)
    bignum_bitwise_xor_unsigned bignum_bitwise_eqv_unsigned
    bignum_bitwise_eqv_unsigned bignum_bitwise_xor_unsigned x y.

Definition bignum_bitwise_orc2_unsigned (x y : bignum) : option bignum :=
  let* r := bignum_bitwise_andc1 x y in bignum_bitwise_not r.

Definition bignum_bitwise_orc1_unsigned (x y : bignum) : option bignum :=
  let* r := bignum_bitwise_andc2 x y in bignum_bitwise_not r.

Definition bignum_bitwise_ior (x y : bignum) : option bignum :=
  BITWISE (Some x) (Some y)
    bignum_bitwise_ior_unsigned bignum_bitwise_orc2_unsigned
    bignum_bitwise_orc1_unsigned bignum_bitwise_nand_unsigned x y.

Definition bignum_bitwise_nor (x y : bignum) : option bignum :=
  BITWISE (bignum_bitwise_not x) (bignum_bitwise_not y)
    bignum_bitwise_nor_unsigned bignum_bitwise_andc1_unsigned
    bignum_bitwise_andc2_unsigned bignum_bitwise_and_unsigned x y.

Definition bignum_bitwise_eqv (x y : bignum) : option bignum :=
  BITWISE (bignum_bitwise_not x) (bignum_bitwise_not y)
    bignum_bitwise_eqv_unsigned bignum_bitwise_xor_unsigned
    bignum_bitwise_xor_unsigned bignum_bitwise_eqv_unsigned x y.

Definition bignum_bitwise_orc2 (x y : bignum) : option bignum :=
  BITWISE (Some (bignum_make_one true)) (bignum_bitwise_not y)
    bignum_bitwise_orc2_unsigned bignum_bitwise_ior_unsigned
    bignum_bitwise_nand_unsigned bignum_bitwise_orc1_unsigned x y.

Definition bignum_bitwise_orc1 (x y : bignum) : option bignum :=
  BITWISE (bignum_bitwise_not x) (Some (bignum_make_one true))
    bignum_bitwise_orc1_unsigned bignum_bitwise_nand_unsigned
    bignum_bitwise_ior_unsigned bignum_bitwise_orc2_unsigned x y.

Definition bignum_bitwise_nand (x y : bignum) : option bignum :=
  BITWISE (Some (bignum_make_one true)) (Some (bignum_make_one true))
    bignum_bitwise_nand_unsigned bignum_bitwise_orc1_unsigned
    bignum_bitwise_orc2_unsigned bignum_bitwise_ior_unsigned x y.

End Operations.

(** ** Lengths *)

Lemma repr_length_bound b z n :
  repr b z -> 0 <= n -> Z.abs z < BIGNUM_RADIX ^ n -> BIGNUM_LENGTH b <= n.
Proof.
  intros (neg & ds & -> & O & F & T & _ & ->) Hn Hz. autorewrite with bignum.
  destruct (Z.le_gt_cases (Z.of_nat (length ds)) n) as [| G]; [assumption |]. exfalso.
  assert (Lo : BIGNUM_RADIX ^ (Z.of_nat (length ds) - 1) <= eval ds)
    by (apply eval_trimmed_lower; auto; intros ->; cbn in G; lia).
  assert (BIGNUM_RADIX ^ n <= BIGNUM_RADIX ^ (Z.of_nat (length ds) - 1)) by (apply Z.pow_le_mono_r; lia).
  destruct neg; cbn [sign] in Hz; lia.
Qed.

Lemma repr_upper b z :
  repr b z -> 0 <= BIGNUM_LENGTH b <= BIGNUM_LENGTH_MAX /\ Z.abs z < BIGNUM_RADIX ^ BIGNUM_LENGTH b.
Proof.
  intros (neg & ds & -> & O & F & T & _ & ->). autorewrite with bignum.
  pose proof (eval_range ds O). red in F. destruct neg; cbn [sign]; lia.
Qed.

Lemma repr_length_le x y a b :
  repr x a -> repr y b -> Z.abs a <= Z.abs b -> BIGNUM_LENGTH x <= BIGNUM_LENGTH y.
Proof.
  intros Hx Hy L. destruct (repr_upper y b Hy). apply (repr_length_bound x a); auto; lia.
Qed.

Lemma room_le x y a b k :
  repr x a -> repr y b -> Z.abs a <= Z.abs b -> room y k -> room x k.
Proof. intros Hx Hy L R. unfold room in *. pose proof (repr_length_le x y a b Hx Hy L). lia. Qed.

(** ** The unsigned loops *)

Section Loop.
Context {heap : Heap}.
Variable op : Z -> Z -> Z.
Variable f : bool -> bool -> bool.
Hypothesis op_spec : forall a b i, Z.testbit (op a b) i = f (Z.testbit a i) (Z.testbit b i).
Hypothesis f00 : f false false = false.

Lemma bitwise_digits_spec : forall xs ys,
  digits_ok xs -> digits_ok ys -> (length ys <= length xs)%nat ->
  digits_ok (bitwise_digits op xs ys) /\ length (bitwise_digits op xs ys) = length xs
  /\ eval (bitwise_digits op xs ys) = op (eval xs) (eval ys).
Proof.
  assert (Op0 : op 0 0 = 0).
  { apply Z.bits_inj'. intros i _. now rewrite op_spec, Z.bits_0. }
  assert (R : forall a b, is_digit a -> is_digit b -> is_digit (op a b)).
  { intros a b Ha Hb. apply (bitop_range op f op_spec f00 a b 62); unfold is_digit in *; lia. }
  assert (S : forall a b x y, is_digit a -> is_digit b ->
    op (a + BIGNUM_RADIX * x) (b + BIGNUM_RADIX * y) = op a b + BIGNUM_RADIX * op x y).
  { intros a b x y Ha Hb. apply (bitop_split op f op_spec f00 a x b y 62); unfold is_digit in *; lia. }
  assert (D0 : is_digit 0) by (red; lia).
  induction xs as [|x xs IH]; intros [|y ys] Hx Hy L; cbn [length] in L; try lia;
    cbn [bitwise_digits eval length].
  - auto.
  - inversion_clear Hx as [|? ? Hx1 Hxs]. destruct (IH [] Hxs) as (O & E1 & E2); auto; try (cbn; lia).
    repeat split; auto.
    rewrite E2. cbn [eval]. rewrite <- S by auto. f_equal.
  - inversion_clear Hx as [|? ? Hx1 Hxs]. inversion_clear Hy as [|? ? Hy1 Hys].
    destruct (IH ys Hxs Hys) as (O & E1 & E2); [lia |].
    repeat split; auto. now rewrite E2, S.
Qed.

Lemma BITWISE_UNSIGNED_spec postop F x y a b :
  repr x a -> repr y b -> 0 <= a -> 0 <= b -> BIGNUM_LENGTH y <= BIGNUM_LENGTH x -> room x 1 ->
  (forall r c, repr r c -> room r 1 -> exists r', postop r = Some r' /\ repr r' (F c)) ->
  exists r, BITWISE_UNSIGNED op postop x y = Some r /\ repr r (F (op a b)).
Proof.
  intros Hx Hy Ha Hb L Rx Post. unfold BITWISE_UNSIGNED.
  destruct Hx as (n1 & xs & -> & Ox & Fx & Tx & Nx & ->).
  destruct Hy as (n2 & ys & -> & Oy & Fy & Ty & Ny & ->).
  assert (forall n ds, digits_ok ds -> trimmed ds -> 0 <= sign n (eval ds) ->
    (ds = [] -> n = false) -> sign n (eval ds) = eval ds) as Pos.
  { intros n ds Hd T H N. destruct n; [| reflexivity]. destruct ds as [|d ds]; [now rewrite N |].
    pose proof (eval_trimmed_pos (d :: ds) Hd T ltac:(discriminate)). cbn [sign] in H. lia. }
  rewrite !Pos by auto. unfold room in Rx. autorewrite with bignum in *.
  rewrite bignum_allocate_some by (unfold fits in *; lia). cbn [obind].
  rewrite (proj2 (Z.leb_le _ _) L).
  destruct (bitwise_digits_spec xs ys Ox Oy) as (O & Ld & E); [lia |].
  rewrite store_digits_block by (rewrite length_fresh; lia). rewrite <- E.
  assert (Fr : fits (bitwise_digits op xs ys)) by (unfold fits in *; lia).
  assert (Rr : repr (bignum_trim (block false (bitwise_digits op xs ys)))
    (eval (bitwise_digits op xs ys))) by (apply (trim_repr false); auto).
  apply Post; [exact Rr |]. unfold room.
  pose proof (eval_range _ O). pose proof (repr_length_bound _ _ (Z.of_nat (length xs)) Rr).
  rewrite Ld in *. lia.
Qed.

End Loop.

(** ** Specifications

    [unsigned_spec u F]: the unsigned routine [u] computes [F] on
    nonnegative bignums; [signed_spec s F]: [s] computes it on all. *)

Ltac bitwise :=
  apply Z.bits_inj'; intros ? ?; autorewrite with zbits;
  repeat match goal with |- context [Z.testbit ?z ?i] => destruct (Z.testbit z i) end;
  reflexivity.

Section Specs.
Context {heap : Heap}.

Definition unsigned_spec (u : bignum -> bignum -> option bignum) (F : Z -> Z -> Z) : Prop :=
  forall x y a b, repr x a -> repr y b -> 0 <= a -> 0 <= b -> room x 1 -> room y 1 ->
  exists r, u x y = Some r /\ repr r (F a b).

Definition signed_spec (s : bignum -> bignum -> option bignum) (F : Z -> Z -> Z) : Prop :=
  forall x y a b, repr x a -> repr y b -> room x 1 -> room y 1 ->
  exists r, s x y = Some r /\ repr r (F a b).

Lemma unsigned_ext u F G :
  (forall a b, F a b = G a b) -> unsigned_spec u F -> unsigned_spec u G.
Proof. intros E H x y a b. rewrite <- E. apply H. Qed.

Lemma post_id r c : repr r c -> room r 1 -> exists r', Some r = Some r' /\ repr r' c.
Proof. eauto. Qed.

Lemma swap_spec op f postop F :
  (forall a b i, Z.testbit (op a b) i = f (Z.testbit a i) (Z.testbit b i)) ->
  f false false = false -> (forall a b, op a b = op b a) ->
  (forall r c, repr r c -> room r 1 -> exists r', postop r = Some r' /\ repr r' (F c)) ->
  unsigned_spec (BITWISE_SWAP op postop) (fun a b => F (op a b)).
Proof.
  intros Hop f00 Hc Post x y a b Hx Hy Ha Hb Rx Ry. unfold BITWISE_SWAP.
  destruct (Z.ltb_spec (BIGNUM_LENGTH x) (BIGNUM_LENGTH y)).
  - rewrite Hc. eapply BITWISE_UNSIGNED_spec; eauto. lia.
  - eapply BITWISE_UNSIGNED_spec; eauto.
Qed.

Lemma and_unsigned : unsigned_spec bignum_bitwise_and_unsigned Z.land.
Proof. apply (swap_spec _ andb Some (fun c => c)); auto using Z.land_spec, Z.land_comm, post_id. Qed.

Lemma xor_unsigned : unsigned_spec bignum_bitwise_xor_unsigned Z.lxor.
Proof. apply (swap_spec _ xorb Some (fun c => c)); auto using Z.lxor_spec, Z.lxor_comm, post_id. Qed.

Lemma ior_unsigned : unsigned_spec bignum_bitwise_ior_unsigned Z.lor.
Proof. apply (swap_spec _ orb Some (fun c => c)); auto using Z.lor_spec, Z.lor_comm, post_id. Qed.

Lemma nor_unsigned : unsigned_spec bignum_bitwise_nor_unsigned (fun a b => Z.lnot (Z.lor a b)).
Proof.
  apply (swap_spec _ orb _ Z.lnot); auto using Z.lor_spec, Z.lor_comm, bignum_bitwise_not_repr.
Qed.

Lemma eqv_unsigned : unsigned_spec bignum_bitwise_eqv_unsigned (fun a b => Z.lnot (Z.lxor a b)).
Proof.
  apply (swap_spec _ xorb _ Z.lnot); auto using Z.lxor_spec, Z.lxor_comm, bignum_bitwise_not_repr.
Qed.

Lemma nand_unsigned : unsigned_spec bignum_bitwise_nand_unsigned (fun a b => Z.lnot (Z.land a b)).
Proof.
  apply (swap_spec _ andb _ Z.lnot); auto using Z.land_spec, Z.land_comm, bignum_bitwise_not_repr.
Qed.

Lemma andc2_loop x y a b :
  repr x a -> repr y b -> 0 <= a -> 0 <= b -> BIGNUM_LENGTH y <= BIGNUM_LENGTH x -> room x 1 ->
  exists r, BITWISE_UNSIGNED BITWISE_ANDC2 Some x y = Some r /\ repr r (Z.ldiff a b).
Proof.
  intros. eapply (BITWISE_UNSIGNED_spec BITWISE_ANDC2 (fun a b => a && negb b)%bool)
    with (F := fun c => c); eauto using Z.ldiff_spec.
Qed.

Lemma andc1_loop x y a b :
  repr x a -> repr y b -> 0 <= a -> 0 <= b -> BIGNUM_LENGTH y <= BIGNUM_LENGTH x -> room x 1 ->
  exists r, BITWISE_UNSIGNED BITWISE_ANDC1 Some x y = Some r /\ repr r (Z.ldiff b a).
Proof.
  intros. eapply (BITWISE_UNSIGNED_spec BITWISE_ANDC1 (fun a b => b && negb a)%bool)
    with (F := fun c => c); eauto. intros. apply Z.ldiff_spec.
Qed.

Lemma andc2_unsigned : unsigned_spec bignum_bitwise_andc2_unsigned Z.ldiff.
Proof.
  intros x y a b Hx Hy Ha Hb Rx Ry. unfold bignum_bitwise_andc2_unsigned.
  destruct (Z.ltb_spec (BIGNUM_LENGTH x) (BIGNUM_LENGTH y)).
  - apply andc1_loop; auto. lia.
  - apply andc2_loop; auto.
Qed.

Lemma andc1_unsigned : unsigned_spec bignum_bitwise_andc1_unsigned (fun a b => Z.ldiff b a).
Proof.
  intros x y a b Hx Hy Ha Hb Rx Ry. unfold bignum_bitwise_andc1_unsigned.
  destruct (Z.ltb_spec (BIGNUM_LENGTH x) (BIGNUM_LENGTH y)).
  - apply andc2_loop; auto. lia.
  - apply andc1_loop; auto.
Qed.

(** A negative operand goes in as its complement, which is no longer. *)
Lemma bitwise_not_negative x a :
  repr x a -> room x 1 -> a < 0 ->
  exists r, bignum_bitwise_not x = Some r /\ repr r (Z.lnot a) /\ 0 <= Z.lnot a /\ room r 1.
Proof.
  intros Hx Rx Ha. destruct (bignum_bitwise_not_repr x a Hx Rx) as (r & E & Hr).
  exists r. repeat split; auto; [unfold Z.lnot; lia |].
  apply (room_le r x (Z.lnot a) a); auto. unfold Z.lnot. lia.
Qed.

Section Signed.
Variables (X0 Y0 : bignum -> bignum -> option bignum).
Variables (PP PN NP NN : bignum -> bignum -> option bignum) (F : Z -> Z -> Z).
Hypothesis HX0 : forall x y a, repr x a -> room x 1 -> exists r, X0 x y = Some r /\ repr r (F a 0).
Hypothesis HY0 : forall x y b, repr y b -> room y 1 -> exists r, Y0 x y = Some r /\ repr r (F 0 b).
Hypothesis HPP : unsigned_spec PP F.
Hypothesis HPN : unsigned_spec PN (fun a b => F a (Z.lnot b)).
Hypothesis HNP : unsigned_spec NP (fun a b => F (Z.lnot a) b).
Hypothesis HNN : unsigned_spec NN (fun a b => F (Z.lnot a) (Z.lnot b)).

Lemma BITWISE_spec : signed_spec (fun x y => BITWISE (X0 x y) (Y0 x y) PP PN NP NN x y) F.
Proof.
  intros x y a b Hx Hy Rx Ry. unfold BITWISE.
  rewrite (repr_ZERO_P x a Hx), (repr_ZERO_P y b Hy), (repr_POSITIVE_P x a Hx), (repr_POSITIVE_P y b Hy).
  destruct (Z.eqb_spec a 0) as [-> |]; [auto |].
  destruct (Z.eqb_spec b 0) as [-> |]; [auto |].
  destruct (Z.ltb_spec 0 a), (Z.ltb_spec 0 b).
  - apply HPP; auto; lia.
  - destruct (bitwise_not_negative y b) as (y' & -> & Hy' & P & R); auto; [lia |].
    destruct (HPN x y' a (Z.lnot b)) as (r & E & Hr); auto; [lia |].
    rewrite Z.lnot_involutive in Hr. eauto.
  - destruct (bitwise_not_negative x a) as (x' & -> & Hx' & P & R); auto; [lia |].
    destruct (HNP x' y (Z.lnot a) b) as (r & E & Hr); auto; [lia |].
    rewrite Z.lnot_involutive in Hr. eauto.
  - destruct (bitwise_not_negative x a) as (x' & -> & Hx' & P & R); auto; [lia |].
    destruct (bitwise_not_negative y b) as (y' & Ey & Hy' & P' & R'); auto; [lia |].
    cbn [obind]. rewrite Ey.
    destruct (HNN x' y' (Z.lnot a) (Z.lnot b)) as (r & E & Hr); auto.
    rewrite !Z.lnot_involutive in Hr. eauto.
Qed.
End Signed.

(** ** The ten operations *)

Lemma make_zero_spec z : z = 0 -> exists r, Some bignum_make_zero = Some r /\ repr r z.
Proof. intros ->. eauto using repr_make_zero. Qed.

Lemma make_minus_one_spec z : z = -1 -> exists r, Some (bignum_make_one true) = Some r /\ repr r z.
Proof. intros ->. eexists. split; [reflexivity | apply (repr_make_one true)]. Qed.

Lemma self_spec x a z : repr x a -> a = z -> exists r, Some x = Some r /\ repr r z.
Proof. intros H <-. eauto. Qed.

Lemma not_spec x a z :
  repr x a -> room x 1 -> Z.lnot a = z -> exists r, bignum_bitwise_not x = Some r /\ repr r z.
Proof. intros H R <-. now apply bignum_bitwise_not_repr. Qed.

(** The results for a zero operand. *)
Ltac zero_operand :=
  intros; first
    [ apply make_zero_spec; bitwise
    | apply make_minus_one_spec; bitwise
    | eapply self_spec; [eassumption | bitwise]
    | eapply not_spec; [eassumption | eassumption | bitwise] ].

(** The unsigned routine of each sign combination. *)
Ltac unsigned lem := eapply unsigned_ext; [| exact lem]; intros; cbv beta; bitwise.

(** One operation from its four unsigned routines. *)
Ltac signed pp pn np nn :=
  apply BITWISE_spec;
    [zero_operand | zero_operand | unsigned pp | unsigned pn | unsigned np | unsigned nn].

Lemma bitwise_and_spec : signed_spec bignum_bitwise_and Z.land.
Proof. signed and_unsigned andc2_unsigned andc1_unsigned nor_unsigned. Qed.

Lemma bitwise_andc2_spec : signed_spec bignum_bitwise_andc2 Z.ldiff.
Proof. signed andc2_unsigned and_unsigned nor_unsigned andc1_unsigned. Qed.

Lemma bitwise_andc1_spec : signed_spec bignum_bitwise_andc1 (fun a b => Z.ldiff b a).
Proof. signed andc1_unsigned nor_unsigned and_unsigned andc2_unsigned. Qed.

Lemma bitwise_xor_spec : signed_spec bignum_bitwise_xor Z.lxor.
Proof. signed xor_unsigned eqv_unsigned eqv_unsigned xor_unsigned. Qed.

(** [x | ~ y] and [~ x | y] as complements of a signed operation. *)
Lemma complement_spec s F u :
  signed_spec s F -> (forall x y, u x y = let* r := s x y in bignum_bitwise_not r) ->
  (forall a b, 0 <= a -> 0 <= b -> 0 <= F a b <= Z.max a b) ->
  unsigned_spec u (fun a b => Z.lnot (F a b)).
Proof.
  intros Hs Hu Hb x y a b Hx Hy Ha Hb0 Rx Ry. rewrite Hu.
  destruct (Hs x y a b Hx Hy Rx Ry) as (r & -> & Hr). cbn [obind].
  apply bignum_bitwise_not_repr; [exact Hr |]. specialize (Hb a b Ha Hb0).
  destruct (Z.max_spec a b) as [[_ E] | [_ E]]; rewrite E in Hb.
  - apply (room_le r y (F a b) b); auto. lia.
  - apply (room_le r x (F a b) a); auto. lia.
Qed.

Lemma ldiff_bound a b : 0 <= a -> 0 <= Z.ldiff a b <= a.
Proof.
  intros Ha. assert (0 <= Z.ldiff a b) by (apply Z.ldiff_nonneg; auto).
  assert (E : a = Z.land a b + Z.ldiff a b).
  { rewrite Z.add_nocarry_lxor by bitwise. bitwise. }
  assert (0 <= Z.land a b) by (apply Z.land_nonneg; auto). lia.
Qed.

Lemma orc2_unsigned : unsigned_spec bignum_bitwise_orc2_unsigned (fun a b => Z.lor a (Z.lnot b)).
Proof.
  eapply unsigned_ext; [| apply (complement_spec bignum_bitwise_andc1 _ _ bitwise_andc1_spec)];
    [intros; cbv beta; bitwise | reflexivity |].
  intros a b Ha Hb. pose proof (ldiff_bound b a Hb). lia.
Qed.

Lemma orc1_unsigned : unsigned_spec bignum_bitwise_orc1_unsigned (fun a b => Z.lor (Z.lnot a) b).
Proof.
  eapply unsigned_ext; [| apply (complement_spec bignum_bitwise_andc2 _ _ bitwise_andc2_spec)];
    [intros; cbv beta; bitwise | reflexivity |].
  intros a b Ha Hb. pose proof (ldiff_bound a b Ha). lia.
Qed.

Lemma bitwise_ior_spec : signed_spec bignum_bitwise_ior Z.lor.
Proof. signed ior_unsigned orc2_unsigned orc1_unsigned nand_unsigned. Qed.

Lemma bitwise_nor_spec : signed_spec bignum_bitwise_nor (fun a b => Z.lnot (Z.lor a b)).
Proof. signed nor_unsigned andc1_unsigned andc2_unsigned and_unsigned. Qed.

Lemma bitwise_eqv_spec : signed_spec bignum_bitwise_eqv (fun a b => Z.lnot (Z.lxor a b)).
Proof. signed eqv_unsigned xor_unsigned xor_unsigned eqv_unsigned. Qed.

Lemma bitwise_orc2_spec : signed_spec bignum_bitwise_orc2 (fun a b => Z.lor a (Z.lnot b)).
Proof. signed orc2_unsigned ior_unsigned nand_unsigned orc1_unsigned. Qed.

Lemma bitwise_orc1_spec : signed_spec bignum_bitwise_orc1 (fun a b => Z.lor (Z.lnot a) b).
Proof. signed orc1_unsigned nand_unsigned ior_unsigned orc2_unsigned. Qed.

Lemma bitwise_nand_spec : signed_spec bignum_bitwise_nand (fun a b => Z.lnot (Z.land a b)).
Proof. signed nand_unsigned orc1_unsigned orc2_unsigned ior_unsigned. Qed.

End Specs.
