(* ===== verification/BignumShift.v ===== *)
(** * Shifts, lengths and bit counts of bignums (src/src/microcode/bignum.c) *)

From Stdlib Require Import ZArith List Lia Bool.
From S2P Require Import Prelude Bits Bignum BignumAdd BignumMul BignumDiv BignumConv BignumBitwise.
Import ListNotations.

(** ** Lengths and counts *)

Definition bignum_length_in_bits (b : bignum) : Z :=
  if BIGNUM_ZERO_P b then 0
  else
    let index := BIGNUM_LENGTH b - 1 in
    (ulong_length_in_bits (BIGNUM_REF b index) + (BIGNUM_DIGIT_LENGTH * index)%UL)%UL.

(** The [while] loop over all digits but the last: is one of them not 0? *)
Fixpoint nonzero_below (ds : list Z) : bool :=
  match ds with
  | [] | [_] => false
  | d :: ds => if negb (0 =? d) then true else nonzero_below ds
  end.

Definition bignum_integer_length (b : bignum) : Z :=
  let length_in_bits := bignum_length_in_bits b in
  if BIGNUM_ZERO_P b || BIGNUM_POSITIVE_P b then length_in_bits
  else if nonzero_below (digits_of b) then length_in_bits
  else
    let end_ := BIGNUM_REF b (BIGNUM_LENGTH b - 1) in
    (length_in_bits - (if 0 =? (end_ & (end_ - 1)%SL) then 1 else 0))%UL.

(** The first digit that is not 0 and its index, counted from [index]. *)
Fixpoint first_nonzero (ds : list Z) (index : Z) : option (Z * Z) :=
  match ds with
  | [] => None
  | d :: ds => if negb (d =? 0) then Some (d, index) else first_nonzero ds (index + 1)
  end.

Definition bignum_first_set_bit (b : bignum) : option Z :=
  if BIGNUM_ZERO_P b then Some (-1)
  else
    let* (d, index) := first_nonzero (digits_of b) 0 in
    Some (slong (ulong_bit_count (ulong ((d ^^ (d - 1)%SL) >>> 1)) + index * BIGNUM_DIGIT_LENGTH)).

(** [digits_bit_count] on the digits from [*scan_loc] on. *)
Fixpoint digits_bit_count (ds : list Z) (bit_count : Z) : Z :=
  match ds with
  | [] => bit_count
  | d :: ds => digits_bit_count ds (bit_count + ulong_bit_count d)%UL
  end.

(** [digits_hamming_distance] over the digits of [ys]: the distance and what
    is left of [xs]. *)
Fixpoint digits_hamming_distance (xs ys : list Z) (distance : Z) : Z * list Z :=
  match xs, ys with
  | x :: xs, y :: ys => digits_hamming_distance xs ys (distance + ulong_bit_count (x ^^ y))%UL
  | _, _ => (distance, xs)
  end.

Definition bignum_positive_hamming_distance (x y : bignum) : option Z :=
  assert* negb (BIGNUM_ZERO_P x) && negb (BIGNUM_ZERO_P y) in
  assert* BIGNUM_POSITIVE_P x && BIGNUM_POSITIVE_P y in
  let '(x, y) := if BIGNUM_LENGTH x <? BIGNUM_LENGTH y then (y, x) else (x, y) in
  let '(hamming_distance, rest) := digits_hamming_distance (digits_of x) (digits_of y) 0 in
  Some (hamming_distance + digits_bit_count rest 0)%UL.

Definition bignum_bit_count_unsigned (x : bignum) : Z := digits_bit_count (digits_of x) 0.

(** ** Shifts *)

(** The loop of [bignum_shift_right_unsigned] with its final store. *)
Fixpoint shift_right_digits (bits extra : Z) (ds : list Z) : list Z :=
  match ds with
  | [] => if negb (extra =? 0) then [extra] else []
  | digit :: ds =>
      let mask := BIGNUM_DIGIT_ONES bits in
      let shift := BIGNUM_DIGIT_LENGTH - bits in
      ((digit & mask) << shift)%SL .| extra :: shift_right_digits bits (digit >>> bits) ds
  end.

(** The loop of [bignum_shift_left] with its final store. *)
Fixpoint shift_left_digits (shift temp : Z) (ds : list Z) : list Z :=
  match ds with
  | [] => if negb (temp =? 0) then [temp] else []
  | digit :: ds =>
      ((digit << shift)%SL & BIGNUM_DIGIT_MASK) .| temp
        :: shift_left_digits shift (digit >>> (BIGNUM_DIGIT_LENGTH - shift)) ds
  end.

(** The [while (n > 0)] loop of [unsigned_long_to_shifted_bignum], at most
    [fuel] rounds. *)
Fixpoint rest_digits (fuel : nat) (n : Z) : option (list Z) :=
  if 0 <? n then
    match fuel with
    | O => None
    | S fuel =>
        let* ds := rest_digits fuel (n >>> BIGNUM_DIGIT_LENGTH) in
        Some (n & BIGNUM_DIGIT_MASK :: ds)
    end
  else Some [].

Section Operations.
Context {heap : Heap}.

Definition bignum_negative_hamming_distance (x y : bignum) : option Z :=
  let* x := bignum_bitwise_not x in
  let* y := bignum_bitwise_not y in
  if BIGNUM_ZERO_P x then Some (bignum_bit_count_unsigned y)
  else if BIGNUM_ZERO_P y then Some (bignum_bit_count_unsigned x)
  else bignum_positive_hamming_distance x y.

Definition bignum_bit_count (x : bignum) : option Z :=
  if BIGNUM_ZERO_P x then Some 0
  else if BIGNUM_NEGATIVE_P x then
    let* x := bignum_bitwise_not x in Some (bignum_bit_count_unsigned x)
  else Some (bignum_bit_count_unsigned x).

(** [same_p] is the C test [x == y]: the two arguments are one object. *)
Definition bignum_hamming_distance (same_p : bool) (x y : bignum) : option Z :=
  if same_p then Some 0
  else if BIGNUM_ZERO_P x then
    if BIGNUM_NEGATIVE_P y then Some (-1) else Some (slong (bignum_bit_count_unsigned y))
  else if BIGNUM_ZERO_P y then
    if BIGNUM_NEGATIVE_P x then Some (-1) else Some (slong (bignum_bit_count_unsigned x))
  else if BIGNUM_POSITIVE_P x then
    if BIGNUM_POSITIVE_P y then option_map slong (bignum_positive_hamming_distance x y)
    else Some (-1)
  else
    if BIGNUM_POSITIVE_P y then Some (-1)
    else option_map slong (bignum_negative_hamming_distance x y).

(** [past] is the word of memory after the last digit of [n].  With
    [bits <> 0] the C code reads [*n_scan] before it compares [n_scan] with
    [n_end]. *)
Definition bignum_shift_right_unsigned (past : Z) (n : bignum) (digits bits : Z)
  : option bignum :=
  let n_length := BIGNUM_LENGTH n in
  let n_digits := skipn (Z.to_nat digits) (digits_of n) in
  let r_length :=
    n_length - digits
    - (if (0 <? n_length) && (0 =? (BIGNUM_REF n (n_length - 1) >>> bits)) then 1 else 0) in
  let* r := bignum_allocate r_length false in
  if bits =? 0 then Some (store_digits r n_digits)
  else
    let rs :=
      match n_digits with
      | [] => shift_right_digits bits (past >>> bits) []
      | digit :: n_digits => shift_right_digits bits (digit >>> bits) n_digits
      end in
    assert* Z.of_nat (length rs) =? r_length in
    Some (store_digits r rs).

Definition bignum_shift_right (past : Z) (n : bignum) (m : Z) : option bignum :=
  let digits := m / BIGNUM_DIGIT_LENGTH in
  let bits := m mod BIGNUM_DIGIT_LENGTH in
  if BIGNUM_LENGTH n <=? digits then
    Some (if BIGNUM_NEGATIVE_P n then bignum_make_one true else bignum_make_zero)
  else if BIGNUM_NEGATIVE_P n then
    let* n := bignum_bitwise_not n in
    let* r := bignum_shift_right_unsigned past n digits bits in
    bignum_bitwise_not r
  else bignum_shift_right_unsigned past n digits bits.

Definition bignum_shift_left (n : bignum) (m : Z) : option bignum :=
  let ln := BIGNUM_LENGTH n in
  if (m =? 0) || BIGNUM_ZERO_P n then Some n
  else
    let delta := ulong_length_in_bits (BIGNUM_REF n (ln - 1)) in
    let zeroes := m / BIGNUM_DIGIT_LENGTH in
    let shift := m mod BIGNUM_DIGIT_LENGTH in
    let ln2 :=
      (((ln - 1)%UL + (delta + m)%UL / BIGNUM_DIGIT_LENGTH)%UL
       + (if negb ((delta + m)%UL mod BIGNUM_DIGIT_LENGTH =? 0) then 1 else 0))%UL in
    let* result := bignum_allocate (slong ln2) (BIGNUM_NEGATIVE_P n) in
    Some (store_digits result
            (repeat 0 (Z.to_nat zeroes)
             ++ (if shift =? 0 then digits_of n else shift_left_digits shift 0 (digits_of n)))).

Definition bignum_nonnegative_one_bits (size position : Z) : option bignum :=
  let* r := bignum_shift_left (bignum_make_one true) size in
  let* r := bignum_bitwise_not r in
  bignum_shift_left r position.

Definition bignum_negative_zero_bits (n m : Z) : option bignum :=
  let* r := bignum_nonnegative_one_bits n m in
  bignum_bitwise_not r.

Definition unsigned_long_to_shifted_bignum (n m : Z) (sign : bool) : option bignum :=
  if n =? 0 then Some bignum_make_zero
  else
    let delta := ulong_length_in_bits n in
    let zeroes := m / BIGNUM_DIGIT_LENGTH in
    let shift := m mod BIGNUM_DIGIT_LENGTH in
    let ln :=
      ((delta + m)%UL / BIGNUM_DIGIT_LENGTH
       + (if negb ((delta + m)%UL mod BIGNUM_DIGIT_LENGTH =? 0) then 1 else 0))%UL in
    let* result := bignum_allocate (slong ln) sign in
    let* ds := rest_digits 2 (n >>> (BIGNUM_DIGIT_LENGTH - shift)) in
    Some (store_digits result
            (repeat 0 (Z.to_nat zeroes) ++ ((n << shift)%UL & BIGNUM_DIGIT_MASK) :: ds)).

End Operations.

(** ** Bit lengths *)

(** Number of bits of a nonnegative integer. *)
Definition bit_length (z : Z) : Z := if z =? 0 then 0 else Z.log2 z + 1.

Lemma bit_length_nonneg z : 0 <= bit_length z.
Proof. unfold bit_length. destruct (z =? 0); pose proof (Z.log2_nonneg z); lia. Qed.

Lemma log2_scaled x k t :
  t * 2 ^ k <= x < (t + 1) * 2 ^ k -> 0 <= k -> 0 < t -> Z.log2 x = Z.log2 t + k.
Proof.
  intros Hx Hk Ht. pose proof (Z.log2_spec t Ht) as [L U]. pose proof (Z.log2_nonneg t).
  assert (0 < 2 ^ k) by (apply Z.pow_pos_nonneg; lia).
  apply Z.log2_unique; [lia |]. rewrite <- Z.add_succ_l, !Z.pow_add_r by lia. nia.
Qed.

(** The top digit of a canonical bignum. *)
Lemma top_digit_scaled ds n :
  digits_ok ds -> trimmed ds -> length ds = S n ->
  0 < nth n ds 0 < BIGNUM_RADIX
  /\ nth n ds 0 * 2 ^ (62 * Z.of_nat n) <= eval ds < (nth n ds 0 + 1) * 2 ^ (62 * Z.of_nat n).
Proof.
  intros O T L. destruct (top_digit_upper ds n O L). pose proof (trimmed_top ds n O T L).
  rewrite <- radix_pow by lia. lia.
Qed.

(** The bits of a magnitude from those of its top digit. *)
Lemma top_digit_bits neg ds :
  digits_ok ds -> trimmed ds -> ds <> [] ->
  let delta := ulong_length_in_bits (BIGNUM_REF (block neg ds) (Z.of_nat (length ds) - 1)) in
  1 <= delta <= 62 /\ bit_length (eval ds) = delta + 62 * (Z.of_nat (length ds) - 1).
Proof.
  intros O T N. pose proof (eval_trimmed_pos ds O T N).
  assert (L : length ds = S (length ds - 1)) by (destruct ds; [easy | cbn; lia]).
  replace (Z.of_nat (length ds) - 1) with (Z.of_nat (length ds - 1)) by lia.
  rewrite BIGNUM_REF_block. destruct (top_digit_scaled ds _ O T L) as [Ht Hx].
  unfold bit_length. destruct (Z.eqb_spec (eval ds) 0); [lia |].
  rewrite (log2_scaled _ _ _ Hx) by lia.
  rewrite ulong_length_in_bits_log2 by (red; lia). destruct (Z.eqb_spec (nth (length ds - 1) ds 0) 0); [lia |].
  assert (Z.log2 (nth (length ds - 1) ds 0) < 62) by (apply Z.log2_lt_pow2; lia).
  pose proof (Z.log2_nonneg (nth (length ds - 1) ds 0)). cbv zeta. lia.
Qed.

Lemma bignum_length_in_bits_repr b z : repr b z -> bignum_length_in_bits b = bit_length (Z.abs z).
Proof.
  intros H. unfold bignum_length_in_bits. rewrite (repr_ZERO_P b z H).
  destruct (Z.eqb_spec z 0) as [-> | Nz]; [reflexivity |].
  destruct H as (neg & ds & -> & O & F & T & _ & ->). autorewrite with bignum.
  assert (N : ds <> []) by (intros ->; now rewrite sign_zero in Nz).
  pose proof (eval_trimmed_pos ds O T N).
  replace (Z.abs (sign neg (eval ds))) with (eval ds) by (destruct neg; cbn [sign]; lia).
  destruct (top_digit_bits neg ds O T N) as [D ->].
  assert (1 <= Z.of_nat (length ds)) by (destruct ds; [easy | cbn; lia]).
  red in F. change BIGNUM_LENGTH_MAX with 74382032555280388 in F. unwrap. lia.
Qed.

Lemma nonzero_below_spec ds n :
  digits_ok ds -> length ds = S n ->
  nonzero_below ds = negb (eval ds =? nth n ds 0 * BIGNUM_RADIX ^ Z.of_nat n).
Proof.
  revert n. induction ds as [|d ds IH]; intros n O L; [discriminate |].
  inversion_clear O as [|? ? Hd O']. red in Hd. pose proof (eval_nonneg ds O').
  destruct ds as [|e ds].
  { destruct n; [| discriminate]. cbn [nonzero_below nth eval].
    change (Z.of_nat 0) with 0. rewrite Z.pow_0_r. symmetry.
    apply negb_false_iff, Z.eqb_eq. lia. }
  destruct n as [|n]; [discriminate |]. specialize (IH n O' ltac:(cbn in *; lia)).
  change (nonzero_below (d :: e :: ds)) with (if negb (0 =? d) then true else nonzero_below (e :: ds)).
  change (nth (S n) (d :: e :: ds) 0) with (nth n (e :: ds) 0).
  change (eval (d :: e :: ds)) with (d + BIGNUM_RADIX * eval (e :: ds)).
  rewrite IH, Nat2Z.inj_succ, Z.pow_succ_r by lia.
  set (t := nth n (e :: ds) 0 * BIGNUM_RADIX ^ Z.of_nat n).
  replace (nth n (e :: ds) 0 * (BIGNUM_RADIX * BIGNUM_RADIX ^ Z.of_nat n))
    with (BIGNUM_RADIX * t) by (subst t; ring).
  destruct (Z.eqb_spec 0 d), (Z.eqb_spec (eval (e :: ds)) t),
    (Z.eqb_spec (d + BIGNUM_RADIX * eval (e :: ds)) (BIGNUM_RADIX * t)); cbn [negb]; auto; lia.
Qed.

Lemma bit_length_pred x :
  0 < x -> bit_length (x - 1) = if x =? 2 ^ Z.log2 x then Z.log2 x else bit_length x.
Proof.
  intros Hx. unfold bit_length. pose proof (Z.log2_spec x Hx) as [L U]. pose proof (Z.log2_nonneg x).
  destruct (Z.eqb_spec x (2 ^ Z.log2 x)) as [E | N].
  - destruct (Z.eqb_spec (x - 1) 0) as [E1 | N1]; [replace x with 1 by lia; reflexivity |].
    rewrite E at 1. rewrite Z.sub_1_r, Z.log2_pred_pow2; [lia |].
    destruct (Z.eqb_spec (Z.log2 x) 0) as [E0 |]; [| lia]. rewrite E0 in E. lia.
  - destruct (Z.eqb_spec x 0); [lia |]. destruct (Z.eqb_spec (x - 1) 0); [replace x with 1 in N by lia; now cbn in N |].
    f_equal. apply Z.log2_unique; lia.
Qed.

(** A magnitude is a power of two iff its low digits are 0 and its top digit
    is a power of two. *)
Lemma power_of_two_digits x t k :
  t * 2 ^ k <= x < (t + 1) * 2 ^ k -> 0 <= k -> 0 < t ->
  (x =? 2 ^ Z.log2 x) = (x =? t * 2 ^ k) && (0 =? (t & (t - 1))).
Proof.
  intros Hx Hk Ht. assert (0 < 2 ^ k) by (apply Z.pow_pos_nonneg; lia).
  pose proof (log2_scaled x k t Hx Hk Ht) as E. pose proof (Z.log2_nonneg t).
  assert (P : 2 ^ Z.log2 x = 2 ^ Z.log2 t * 2 ^ k) by (rewrite E; apply Z.pow_add_r; lia).
  rewrite P. pose proof (Z.log2_spec t Ht) as [L _].
  destruct (Z.eqb_spec 0 (t & (t - 1))) as [Z0 | N0].
  - destruct (land_pred_power t Ht (eq_sym Z0)) as (j & Hj & ->).
    rewrite Z.log2_pow2 by lia. now rewrite andb_true_r.
  - rewrite andb_false_r. apply Z.eqb_neq. intros Ex. apply N0.
    assert (t = 2 ^ Z.log2 t) as -> by nia. rewrite land_mask by lia.
    symmetry. apply Z_mod_same_full.
Qed.

Lemma bignum_integer_length_repr b z :
  repr b z -> bignum_integer_length b = bit_length (if z <? 0 then Z.lnot z else z).
Proof.
  intros H. unfold bignum_integer_length.
  rewrite (bignum_length_in_bits_repr b z H), (repr_ZERO_P b z H), (repr_POSITIVE_P b z H).
  destruct ((z =? 0) || (0 <? z))%bool eqn:Es.
  { destruct (Z.ltb_spec z 0); [| f_equal]; lia. }
  destruct (Z.ltb_spec z 0); [| lia].
  destruct H as (neg & ds & -> & O & F & T & _ & ->).
  assert (neg = true) as -> by (destruct neg; [reflexivity | pose proof (eval_nonneg ds O); cbn [sign] in *; lia]).
  cbn [sign] in *. rewrite Z.abs_neq, Z.opp_involutive by lia.
  replace (Z.lnot (- eval ds)) with (eval ds - 1) by (unfold Z.lnot; lia).
  rewrite bit_length_pred by lia. autorewrite with bignum.
  assert (L : length ds = S (length ds - 1)) by (destruct ds; cbn in *; lia).
  replace (Z.of_nat (length ds) - 1) with (Z.of_nat (length ds - 1)) by lia.
  rewrite BIGNUM_REF_block, (nonzero_below_spec ds (length ds - 1) O L).
  destruct (top_digit_scaled ds _ O T L) as [Ht Hx]. rewrite radix_pow by lia.
  rewrite (power_of_two_digits _ _ _ Hx) by lia. rewrite (slong_small (_ - 1)) by lia.
  unfold bit_length. destruct (Z.eqb_spec (eval ds) 0); [lia |].
  assert (Z.log2 (eval ds) < 9223372036854775808).
  { apply Z.log2_lt_pow2; [lia |]. eapply Z.lt_le_trans; [apply (eval_range ds O) |].
    rewrite radix_pow by lia. apply Z.pow_le_mono_r; [lia |].
    red in F. change BIGNUM_LENGTH_MAX with 74382032555280388 in F. lia. }
  pose proof (Z.log2_nonneg (eval ds)).
  set (t := nth (length ds - 1) ds 0) in *.
  destruct (Z.eqb_spec (eval ds) (t * 2 ^ (62 * Z.of_nat (length ds - 1)))); cbn [negb andb]; [| reflexivity].
  destruct (0 =? (t & (t - 1))); unwrap; lia.
Qed.

(** ** The first set bit *)

Lemma trailing_zeros_unique z r m : 0 <= r -> z = 2 ^ r * (2 * m + 1) -> trailing_zeros z = r.
Proof.
  intros Hr E. assert (0 < 2 ^ r) by (apply Z.pow_pos_nonneg; lia).
  assert (Nz : z <> 0) by (intros ->; assert (2 * m + 1 <> 0) by lia; nia).
  destruct (trailing_zeros_bits z Nz) as [B1 B2].
  assert (T : forall i, Z.testbit z i = Z.testbit (2 * m + 1) (i - r)).
  { intros i. rewrite E, Z.mul_comm. now apply Z.mul_pow2_bits. }
  destruct (Z.lt_trichotomy (trailing_zeros z) r) as [L | [L | L]]; [| exact L |].
  - rewrite T, Z.testbit_neg_r in B1 by lia. discriminate.
  - specialize (B2 r L). rewrite T, Z.sub_diag, Z.testbit_odd_0 in B2. discriminate.
Qed.

Lemma trailing_zeros_opp z : trailing_zeros (- z) = trailing_zeros z.
Proof. now destruct z. Qed.

Lemma first_nonzero_spec ds : forall index,
  digits_ok ds -> eval ds <> 0 ->
  exists d i, first_nonzero ds index = Some (d, index + i)
    /\ 0 < d < BIGNUM_RADIX /\ 0 <= i < Z.of_nat (length ds)
    /\ exists x, eval ds = BIGNUM_RADIX ^ i * (d + BIGNUM_RADIX * x).
Proof.
  induction ds as [|d ds IH]; intros index O N; [easy |].
  inversion_clear O as [|? ? Hd O']. red in Hd. cbn [first_nonzero eval length] in *.
  destruct (Z.eqb_spec d 0) as [-> | Nd]; cbn [negb].
  - destruct (IH (index + 1) O') as (e & i & -> & He & Hi & x & E); [lia |].
    exists e, (i + 1). split; [do 2 f_equal; lia |]. repeat split; try lia.
    exists x. rewrite E, Z.pow_add_r by lia. ring.
  - exists d, 0. rewrite Z.add_0_r. repeat split; try lia. exists (eval ds). ring.
Qed.

Lemma bignum_first_set_bit_repr b z :
  repr b z -> bignum_first_set_bit b = Some (trailing_zeros z).
Proof.
  intros H. unfold bignum_first_set_bit. rewrite (repr_ZERO_P b z H).
  destruct (Z.eqb_spec z 0) as [-> | Nz]; [reflexivity |].
  destruct H as (neg & ds & -> & O & F & T & _ & ->). autorewrite with bignum.
  replace (trailing_zeros (sign neg (eval ds))) with (trailing_zeros (eval ds))
    by (destruct neg; cbn [sign]; [now rewrite trailing_zeros_opp | reflexivity]).
  destruct (first_nonzero_spec ds 0 O) as (d & i & -> & Hd & Hi & x & E).
  { intros E. now rewrite E, sign_zero in Nz. }
  cbn [obind]. rewrite Z.add_0_l. unwrap.
  destruct (trailing_zeros_spec d) as [Hr [m Hm]]; [lia |].
  assert (trailing_zeros d < 62) by (apply trailing_zeros_lt; lia).
  set (r := trailing_zeros d) in *.
  rewrite lxor_pred_ones by lia. fold r. rewrite ones_shiftr1 by lia.
  rewrite ulong_small by (apply ones_is_ulong; lia).
  rewrite ulong_bit_count_popcount, popcount_Zones by (try apply ones_is_ulong; lia).
  red in F. change BIGNUM_LENGTH_MAX with 74382032555280388 in F. unwrap. f_equal. symmetry.
  apply (trailing_zeros_unique _ _ (m + 2 ^ (61 - r) * x)); [lia |].
  rewrite E, radix_pow, Hm by lia.
  replace (r + i * 62) with (62 * i + r) by lia. rewrite Z.pow_add_r by lia.
  assert (P : BIGNUM_RADIX = 2 ^ r * (2 * 2 ^ (61 - r))).
  { rewrite <- Z.pow_succ_r, <- Z.pow_add_r by lia. replace (r + Z.succ (61 - r)) with 62 by lia. reflexivity. }
  rewrite P. ring.
Qed.

(** ** Bit counts *)

Lemma popcount_bound n : forall z, 0 <= z < 2 ^ Z.of_nat n -> popcount z <= Z.of_nat n.
Proof.
  induction n as [|n IH]; intros z Hz.
  - replace z with 0 by (cbn in Hz; lia). cbn. lia.
  - rewrite Nat2Z.inj_succ, Z.pow_succ_r in * by lia. rewrite popcount_step by lia.
    assert (popcount (z / 2) <= Z.of_nat n).
    { apply IH. split; [apply Z.div_pos; lia | apply Z.div_lt_upper_bound; lia]. }
    pose proof (Z.mod_pos_bound z 2). lia.
Qed.

Lemma popcount_digit d x :
  is_digit d -> 0 <= x -> popcount (d + BIGNUM_RADIX * x) = popcount d + popcount x.
Proof. intros Hd Hx. apply (popcount_split 62); auto. Qed.

Lemma popcount_eval_bound ds :
  digits_ok ds -> 0 <= popcount (eval ds) <= 62 * Z.of_nat (length ds).
Proof.
  intros O. split; [apply popcount_nonneg |]. pose proof (eval_range ds O) as R.
  pose proof (popcount_bound (62 * length ds) (eval ds)) as B.
  rewrite Nat2Z.inj_mul in B. change (Z.of_nat 62) with 62 in B.
  rewrite radix_pow in R by lia. auto.
Qed.

(** No bit count of a bignum leaves the range of [long]. *)
Definition countable (ds : list Z) : Prop := 62 * Z.of_nat (length ds) < BIGNUM_RADIX.

Lemma fits_countable ds : fits ds -> countable ds.
Proof.
  unfold fits, countable. change BIGNUM_LENGTH_MAX with 74382032555280388. lia.
Qed.

Lemma digits_bit_count_spec ds : forall acc,
  digits_ok ds -> 0 <= acc -> acc + 62 * Z.of_nat (length ds) < 18446744073709551616 ->
  digits_bit_count ds acc = acc + popcount (eval ds).
Proof.
  induction ds as [|d ds IH]; intros acc O Ha Hb; cbn [digits_bit_count eval length] in *.
  - change (popcount 0) with 0. lia.
  - inversion_clear O as [|? ? Hd O']. pose proof Hd as Hd'. red in Hd'.
    rewrite popcount_digit by auto using eval_nonneg.
    rewrite ulong_bit_count_popcount by (red; lia).
    pose proof (popcount_bound 62 d ltac:(cbn; lia)). pose proof (popcount_nonneg d).
    unwrap. rewrite IH by (auto; lia). lia.
Qed.

Lemma lxor_digit x y a b :
  is_digit x -> is_digit y ->
  Z.lxor (x + BIGNUM_RADIX * a) (y + BIGNUM_RADIX * b) = Z.lxor x y + BIGNUM_RADIX * Z.lxor a b.
Proof. intros Hx Hy. apply (lxor_split x a y b 62); unfold is_digit in *; lia. Qed.

Lemma digits_hamming_spec xs : forall ys acc,
  digits_ok xs -> digits_ok ys -> (length ys <= length xs)%nat -> 0 <= acc ->
  acc + 62 * Z.of_nat (length xs) < 18446744073709551616 ->
  exists h rest, digits_hamming_distance xs ys acc = (h, rest)
    /\ digits_ok rest /\ (length rest <= length xs)%nat /\ 0 <= h
    /\ h + 62 * Z.of_nat (length rest) <= acc + 62 * Z.of_nat (length xs)
    /\ h + popcount (eval rest) = acc + popcount (Z.lxor (eval xs) (eval ys)).
Proof.
  induction xs as [|x xs IH]; intros [|y ys] acc Ox Oy L Ha Hb; cbn [length] in *; try lia;
    cbn [digits_hamming_distance].
  1,2: eexists _, _; split; [reflexivity |]; cbn [eval length]; rewrite Z.lxor_0_r;
       repeat split; auto; lia.
  inversion_clear Ox as [|? ? Hx Oxs]. inversion_clear Oy as [|? ? Hy Oys].
  assert (Hxy : is_digit (Z.lxor x y)) by (apply (lxor_range x y 62); unfold is_digit in *; lia).
  pose proof Hxy as Hxy'. red in Hxy'.
  rewrite ulong_bit_count_popcount by (red; lia).
  pose proof (popcount_bound 62 _ Hxy'). pose proof (popcount_nonneg (Z.lxor x y)). unwrap.
  destruct (IH ys (acc + popcount (Z.lxor x y)) Oxs Oys ltac:(lia) ltac:(lia) ltac:(lia))
    as (h & rest & -> & O & Lr & Hh & Hb' & E).
  exists h, rest. cbn [eval]. rewrite lxor_digit by auto.
  rewrite popcount_digit; [repeat split; auto; lia | auto |].
  apply Z.lxor_nonneg. pose proof (eval_nonneg xs Oxs). pose proof (eval_nonneg ys Oys). lia.
Qed.

Lemma repr_nonneg_digits b z :
  repr b z -> 0 <= z -> digits_ok (digits_of b) /\ eval (digits_of b) = z
    /\ fits (digits_of b) /\ Z.of_nat (length (digits_of b)) = BIGNUM_LENGTH b.
Proof.
  intros (neg & ds & -> & O & F & T & N & ->) Hz. autorewrite with bignum.
  repeat split; auto. destruct neg; [| reflexivity]. destruct ds as [|d ds]; [now rewrite N |].
  pose proof (eval_trimmed_pos (d :: ds) O T ltac:(discriminate)). cbn [sign] in Hz. lia.
Qed.

Lemma bit_count_unsigned_repr b z :
  repr b z -> 0 <= z ->
  bignum_bit_count_unsigned b = popcount z /\ 0 <= popcount z < BIGNUM_RADIX.
Proof.
  intros H Hz. destruct (repr_nonneg_digits b z H Hz) as (O & E & F & _).
  apply fits_countable in F. red in F. pose proof (popcount_eval_bound _ O).
  unfold bignum_bit_count_unsigned. rewrite digits_bit_count_spec by (auto; lia). rewrite E in *. lia.
Qed.

Lemma positive_hamming_repr x y a b :
  repr x a -> repr y b -> 0 < a -> 0 < b ->
  bignum_positive_hamming_distance x y = Some (popcount (Z.lxor a b))
  /\ 0 <= popcount (Z.lxor a b) < BIGNUM_RADIX.
Proof.
  intros Hx Hy Ha Hb. unfold bignum_positive_hamming_distance.
  rewrite (repr_ZERO_P x a Hx), (repr_ZERO_P y b Hy), (repr_POSITIVE_P x a Hx), (repr_POSITIVE_P y b Hy).
  rewrite (proj2 (Z.eqb_neq a 0)), (proj2 (Z.eqb_neq b 0)), (proj2 (Z.ltb_lt 0 a)), (proj2 (Z.ltb_lt 0 b)) by lia.
  cbn [negb andb].
  assert (G : forall u v c d, repr u c -> repr v d -> 0 < c -> 0 < d -> BIGNUM_LENGTH v <= BIGNUM_LENGTH u ->
    (let '(h, rest) := digits_hamming_distance (digits_of u) (digits_of v) 0 in
     Some (h + digits_bit_count rest 0)%UL) = Some (popcount (Z.lxor c d))
    /\ 0 <= popcount (Z.lxor c d) < BIGNUM_RADIX).
  { intros u v c d Hu Hv Hc Hd L.
    destruct (repr_nonneg_digits u c Hu) as (Ou & Eu & Fu & Lu); [lia |].
    destruct (repr_nonneg_digits v d Hv) as (Ov & Ev & Fv & Lv); [lia |].
    pose proof (fits_countable _ Fu) as Cu. red in Cu.
    destruct (digits_hamming_spec (digits_of u) (digits_of v) 0) as (h & rest & -> & O & Lr & Hh & Hb' & E);
      auto; try lia. rewrite Eu, Ev in E.
    pose proof (popcount_eval_bound rest O).
    rewrite digits_bit_count_spec by (auto; lia). unwrap. split; [f_equal; lia | lia]. }
  destruct (Z.ltb_spec (BIGNUM_LENGTH x) (BIGNUM_LENGTH y)).
  - rewrite Z.lxor_comm. apply G; auto. lia.
  - apply G; auto.
Qed.

Section CountFacts.
Context {heap : Heap}.

Lemma bignum_bit_count_repr x a :
  repr x a -> room x 1 ->
  bignum_bit_count x = Some (popcount (if a <? 0 then Z.lnot a else a)).
Proof.
  intros Hx Rx. unfold bignum_bit_count. rewrite (repr_ZERO_P x a Hx), (repr_NEGATIVE_P x a Hx).
  destruct (Z.eqb_spec a 0) as [-> | N]; [reflexivity |]. destruct (Z.ltb_spec a 0).
  - destruct (bitwise_not_negative x a) as (r & -> & Hr & P & _); auto. cbn [obind].
    now destruct (bit_count_unsigned_repr r _ Hr P) as [-> _].
  - now destruct (bit_count_unsigned_repr x a Hx) as [-> _].
Qed.

Lemma lxor_lnot a b : Z.lxor (Z.lnot a) (Z.lnot b) = Z.lxor a b.
Proof.
  rewrite <- !Z.lxor_m1_r, (Z.lxor_comm b), <- Z.lxor_assoc, (Z.lxor_assoc a).
  now rewrite Z.lxor_nilpotent, Z.lxor_0_r.
Qed.

Lemma negative_hamming_repr x y a b :
  repr x a -> repr y b -> room x 1 -> room y 1 -> a < 0 -> b < 0 ->
  bignum_negative_hamming_distance x y = Some (popcount (Z.lxor a b))
  /\ 0 <= popcount (Z.lxor a b) < BIGNUM_RADIX.
Proof.
  intros Hx Hy Rx Ry Ha Hb. unfold bignum_negative_hamming_distance.
  destruct (bitwise_not_negative x a) as (x' & -> & Hx' & Px & _); auto.
  destruct (bitwise_not_negative y b) as (y' & Ey & Hy' & Py & _); auto. cbn [obind].
  rewrite Ey. cbn [obind]. rewrite <- (lxor_lnot a b).
  rewrite (repr_ZERO_P _ _ Hx'), (repr_ZERO_P _ _ Hy').
  destruct (Z.eqb_spec (Z.lnot a) 0) as [-> |].
  { rewrite Z.lxor_0_l. destruct (bit_count_unsigned_repr _ _ Hy' Py) as [-> ?]. auto. }
  destruct (Z.eqb_spec (Z.lnot b) 0) as [-> |].
  { rewrite Z.lxor_0_r. destruct (bit_count_unsigned_repr _ _ Hx' Px) as [-> ?]. auto. }
  apply positive_hamming_repr; auto; lia.
Qed.

(** The Hamming distance, or -1 between numbers of different signs, which
    differ in infinitely many bits. *)
Lemma bignum_hamming_distance_repr (same_p : bool) x y a b :
  repr x a -> repr y b -> room x 1 -> room y 1 -> (same_p = true -> x = y) ->
  bignum_hamming_distance same_p x y
  = Some (if xorb (a <? 0) (b <? 0) then -1 else popcount (Z.lxor a b)).
Proof.
  intros Hx Hy Rx Ry Same. unfold bignum_hamming_distance. destruct same_p.
  { rewrite (Same eq_refl) in Hx. rewrite (repr_fun y a b Hx Hy), xorb_nilpotent, Z.lxor_nilpotent.
    reflexivity. }
  rewrite (repr_ZERO_P x a Hx), (repr_ZERO_P y b Hy), (repr_NEGATIVE_P x a Hx),
    (repr_NEGATIVE_P y b Hy), (repr_POSITIVE_P x a Hx), (repr_POSITIVE_P y b Hy).
  destruct (Z.eqb_spec a 0) as [-> | Na].
  { change (0 <? 0) with false. rewrite xorb_false_l, Z.lxor_0_l.
    destruct (Z.ltb_spec b 0); [reflexivity |].
    destruct (bit_count_unsigned_repr y b Hy) as [-> ?]; auto. now unwrap. }
  destruct (Z.eqb_spec b 0) as [-> | Nb].
  { change (0 <? 0) with false. rewrite xorb_false_r, Z.lxor_0_r.
    destruct (Z.ltb_spec a 0); [reflexivity |].
    destruct (bit_count_unsigned_repr x a Hx) as [-> ?]; auto. now unwrap. }
  destruct (Z.ltb_spec 0 a), (Z.ltb_spec 0 b), (Z.ltb_spec a 0), (Z.ltb_spec b 0); try lia;
    cbn [xorb]; try reflexivity.
  - destruct (positive_hamming_repr x y a b) as [-> ?]; auto. cbn [option_map]. now unwrap.
  - destruct (negative_hamming_repr x y a b) as [-> ?]; auto. cbn [option_map]. now unwrap.
Qed.

End CountFacts.

(** ** Shifting right *)

Lemma DIGIT_ONES_mask n : 0 <= n < 63 -> BIGNUM_DIGIT_ONES n = 2 ^ n - 1.
Proof.
  intros Hn. unfold BIGNUM_DIGIT_ONES. change (Z.lnot 0) with (-1).
  rewrite Z.shiftl_mul_pow2 by lia. assert (0 < 2 ^ n) by (apply Z.pow_pos_nonneg; lia).
  assert (2 ^ n <= 2 ^ 62) by (apply Z.pow_le_mono_r; lia).
  rewrite slong_small by lia. unfold Z.lnot. lia.
Qed.

Lemma eval_skipn k : forall ds, digits_ok ds -> eval (skipn k ds) = eval ds / BIGNUM_RADIX ^ Z.of_nat k.
Proof.
  induction k as [|k IH]; intros ds O; [cbn [skipn]; now rewrite Z.pow_0_r, Z.div_1_r |].
  destruct ds as [|d ds]; [cbn [skipn eval]; now rewrite Zdiv_0_l |].
  inversion_clear O as [|? ? Hd O']. cbn [skipn eval]. red in Hd.
  rewrite Nat2Z.inj_succ, Z.pow_succ_r, <- Z.div_div, IH by (auto; try apply radix_pow_pos; lia).
  f_equal. apply (Z.div_unique_pos _ _ _ d); lia.
Qed.

Lemma trimmed_skipn k ds : trimmed ds -> (k < length ds)%nat -> trimmed (skipn k ds).
Proof.
  intros T L. destruct (trimmed_inv ds T) as [-> | (ds' & d & -> & Hd)]; [cbn in L; lia |].
  rewrite length_app in L. cbn [length] in L. rewrite skipn_app.
  replace (k - length ds')%nat with 0%nat by lia. cbn [skipn]. now apply trimmed_snoc.
Qed.

Lemma last_default (ds : list Z) : forall e x y, last (e :: ds) x = last (e :: ds) y.
Proof. induction ds as [|d ds IH]; intros e x y; [reflexivity |]. apply (IH d). Qed.

(** The loop: [extra] is what the lower digits leave, the result is their
    value shifted. *)
Lemma shift_right_digits_spec bits : 0 < bits < 62 -> forall ds extra,
  digits_ok ds -> trimmed ds -> 0 <= extra < 2 ^ (62 - bits) ->
  let rs := shift_right_digits bits extra ds in
  digits_ok rs /\ eval rs = extra + 2 ^ (62 - bits) * eval ds /\ (ds <> [] \/ extra <> 0 -> trimmed rs)
  /\ Z.of_nat (length rs) = Z.of_nat (length ds)
     + (if 0 =? (last ds (extra * 2 ^ bits) >>> bits) then 0 else 1).
Proof.
  intros Hb. assert (Hb' : 0 <= 62 - bits < 62) by lia.
  pose proof (pow_shift (62 - bits) Hb') as P. destruct (pow_shift_pos (62 - bits) Hb') as [P1 P2].
  replace (62 - (62 - bits)) with bits in * by lia.
  induction ds as [|d ds IH]; intros extra O T He; cbn [shift_right_digits].
  - cbn [last eval length]. rewrite shiftr_div, Z.div_mul by lia.
    rewrite (Z.eqb_sym 0). destruct (Z.eqb_spec extra 0) as [-> | N]; cbn [negb length eval].
    + repeat split; auto; lia.
    + unfold trimmed. cbn [last length]. repeat split; auto; try lia.
      constructor; [red; nia | auto].
  - inversion_clear O as [|? ? Hd O']. pose proof Hd as Hd'. red in Hd'.
    rewrite DIGIT_ONES_mask, land_mask, shiftr_div by lia.
    pose proof (Z.mod_pos_bound d (2 ^ bits) P2). pose proof (Z.div_mod d (2 ^ bits) ltac:(lia)).
    set (lo := d mod 2 ^ bits) in *. set (hi := d / 2 ^ bits) in *.
    assert (Hlo : 0 <= lo * 2 ^ (62 - bits) <= BIGNUM_RADIX - 2 ^ (62 - bits)) by nia.
    assert (Hhi : 0 <= hi < 2 ^ (62 - bits)).
    { subst hi. split; [apply Z.div_pos; lia | apply Z.div_lt_upper_bound; lia]. }
    rewrite slong_small by (rewrite Z.shiftl_mul_pow2 by lia; lia).
    rewrite shiftl_lor_add by lia.
    assert (T' : trimmed ds) by (destruct ds; [unfold trimmed; cbn; lia | exact T]).
    destruct (IH hi O' T' Hhi) as (Or & Er & Tr & Lr).
    assert (El : last ds (hi * 2 ^ bits) >>> bits = last (d :: ds) (extra * 2 ^ bits) >>> bits).
    { destruct ds as [|e ds]; [| now rewrite (last_default ds e _ (extra * 2 ^ bits))].
      cbn [last]. rewrite !shiftr_div, Z.div_mul by lia. reflexivity. }
    rewrite El in Lr. cbn [length eval]. rewrite Er, Nat2Z.inj_succ, Lr.
    repeat split; auto; try lia.
    + constructor; [red; nia | auto].
    + rewrite <- P. nia.
    + intros _. destruct (shift_right_digits bits hi ds) as [|r rs] eqn:E.
      * cbn [eval length] in Er, Lr. unfold trimmed. cbn [last].
        assert (ds = []) as -> by (destruct ds; [reflexivity | cbn [length] in Lr; destruct (0 =? _); lia]).
        cbn [eval] in Er. assert (hi = 0) by lia. unfold trimmed in T. cbn [last] in T. nia.
      * change (trimmed (r :: rs)). apply Tr. destruct ds; [right | left; discriminate].
        intros ->. cbn in E. discriminate.
Qed.

Lemma last_nth (ds : list Z) n x : length ds = S n -> last ds x = nth n ds 0.
Proof.
  intros L. destruct (last_digits 1 ds) as (ds' & h & -> & L1); [lia |].
  destruct h as [|d [|]]; try discriminate. rewrite length_app in L. cbn [length] in L.
  rewrite last_last, nth_at by lia. reflexivity.
Qed.

Section ShiftFacts.
Context {heap : Heap}.

(** The digits written for the words from [n_scan] on. *)
Lemma shift_right_words bits d rest :
  0 < bits < 62 -> digits_ok (d :: rest) -> trimmed (d :: rest) ->
  let rs := shift_right_digits bits (d >>> bits) rest in
  digits_ok rs /\ trimmed rs /\ eval rs = eval (d :: rest) / 2 ^ bits
  /\ Z.of_nat (length rs) = Z.of_nat (length (d :: rest))
     - (if 0 =? last (d :: rest) 0 >>> bits then 1 else 0).
Proof.
  intros Hb O Tw rs. inversion_clear O as [|? ? Hd Or]. red in Hd.
  assert (P2 : 0 < 2 ^ bits) by (apply Z.pow_pos_nonneg; lia).
  assert (Pb : 2 ^ (62 - bits) * 2 ^ bits = BIGNUM_RADIX)
    by (rewrite <- Z.pow_add_r by lia; now replace (62 - bits + bits) with 62 by lia).
  assert (He : 0 <= d >>> bits < 2 ^ (62 - bits)).
  { rewrite shiftr_div by lia. split; [apply Z.div_pos | apply Z.div_lt_upper_bound]; lia. }
  assert (Tr : trimmed rest) by (destruct rest; [unfold trimmed; cbn; lia | exact Tw]).
  destruct (shift_right_digits_spec bits Hb rest (d >>> bits) Or Tr He) as (Ors & Ers & Trs & Lrs).
  assert (El : last rest ((d >>> bits) * 2 ^ bits) >>> bits = last (d :: rest) 0 >>> bits).
  { destruct rest as [|e rest]; [| now rewrite (last_default rest e _ 0)].
    cbn [last]. rewrite !shiftr_div, Z.div_mul by lia. reflexivity. }
  rewrite El in Lrs. fold rs in Ors, Ers, Trs, Lrs. repeat split; auto.
  - destruct rest; [| apply Trs; left; discriminate]. subst rs. cbn [shift_right_digits].
    destruct (Z.eqb_spec (d >>> bits) 0); unfold trimmed; cbn; lia.
  - cbn [eval]. rewrite Ers, shiftr_div, <- Pb by lia.
    replace (d + 2 ^ (62 - bits) * 2 ^ bits * eval rest)
      with (d + (2 ^ (62 - bits) * eval rest) * 2 ^ bits) by ring.
    now rewrite Z.div_add by lia.
  - rewrite Lrs. cbn [length]. destruct (0 =? _); lia.
Qed.

Lemma shift_right_unsigned_inside past neg ds k bits :
  digits_ok ds -> fits ds -> trimmed ds -> (k < length ds)%nat -> 0 <= bits < 62 ->
  exists r, bignum_shift_right_unsigned past (block neg ds) (Z.of_nat k) bits = Some r
    /\ repr r (eval ds / BIGNUM_RADIX ^ Z.of_nat k / 2 ^ bits).
Proof.
  intros O F T Hk Hb. unfold bignum_shift_right_unsigned. autorewrite with bignum. cbv zeta.
  rewrite Nat2Z.id, <- (eval_skipn k ds O).
  assert (L : length ds = S (length ds - 1)) by lia.
  replace (Z.of_nat (length ds) - 1) with (Z.of_nat (length ds - 1)) by lia. rewrite BIGNUM_REF_block.
  pose proof (trimmed_top ds _ O T L) as Ht.
  pose proof (trimmed_skipn k ds T Hk) as Tw.
  assert (Ow : digits_ok (skipn k ds)) by (rewrite <- (firstn_skipn k ds) in O; now apply Forall_app in O).
  assert (Lw : length (skipn k ds) = (length ds - k)%nat) by apply length_skipn.
  assert (Top : last (skipn k ds) 0 = nth (length ds - 1) ds 0).
  { rewrite (last_nth _ (length ds - k - 1)), nth_skipn by lia. f_equal. lia. }
  rewrite <- Top in *. set (ws := skipn k ds) in *.
  rewrite (proj2 (Z.ltb_lt 0 (Z.of_nat (length ds)))) by lia. cbn [andb]. red in F.
  assert (Fw : forall l : list Z, (length l <= length ds)%nat -> fits l) by (unfold fits; lia).
  destruct (Z.eqb_spec bits 0) as [-> | Nb].
  - rewrite Z.shiftr_0_r, Z.pow_0_r, Z.div_1_r.
    destruct (Z.eqb_spec 0 (last ws 0)); [lia |].
    rewrite bignum_allocate_some by lia. cbn [obind].
    rewrite store_digits_block by (rewrite length_fresh; lia).
    eexists. split; [reflexivity |]. apply (repr_block false); auto. apply Fw. lia.
  - destruct ws as [|d rest]; [cbn in Lw; lia |].
    destruct (shift_right_words bits d rest) as (Ors & Trs & Ers & Lrs); auto; [lia |].
    set (rs := shift_right_digits bits (d >>> bits) rest) in *.
    rewrite Lw, Nat2Z.inj_sub in Lrs by lia. rewrite <- Lrs, <- Ers.
    rewrite bignum_allocate_some by (destruct (0 =? _); lia).
    cbn [obind]. rewrite Z.eqb_refl, store_digits_block by (rewrite length_fresh; lia).
    eexists. split; [reflexivity |].
    apply (repr_block false); auto. apply Fw. destruct (0 =? _); lia.
Qed.

(** The complement of a negative power of the radix has one digit less: the
    scan starts at its end. *)
Lemma shift_right_unsigned_at_end neg ds bits :
  digits_ok ds -> fits ds -> 0 <= bits < 62 ->
  eval ds = BIGNUM_RADIX ^ Z.of_nat (length ds) - 1 ->
  bignum_shift_right_unsigned 0 (block neg ds) (Z.of_nat (length ds)) bits = Some (block false []).
Proof.
  intros O F Hb E. unfold bignum_shift_right_unsigned. autorewrite with bignum. cbv zeta.
  rewrite Nat2Z.id, skipn_all, Z.sub_diag.
  assert (Top : (0 <? Z.of_nat (length ds)) && (0 =? BIGNUM_REF (block neg ds) (Z.of_nat (length ds) - 1) >>> bits) = false).
  { destruct (Z.ltb_spec 0 (Z.of_nat (length ds))); [| reflexivity]. cbn [andb].
    replace (Z.of_nat (length ds) - 1) with (Z.of_nat (length ds - 1)) by lia. rewrite BIGNUM_REF_block.
    assert (L : length ds = S (length ds - 1)) by lia.
    assert (Ht : BIGNUM_RADIX - 1 <= nth (length ds - 1) ds 0).
    { apply top_digit_lower; auto. rewrite E.
      replace (Z.of_nat (length ds)) with (Z.succ (Z.of_nat (length ds - 1))) by lia.
      rewrite Z.pow_succ_r by lia. pose proof (radix_pow_pos (length ds - 1)). lia. }
    apply Z.eqb_neq. rewrite shiftr_div by lia.
    assert (0 < 2 ^ bits) by (apply Z.pow_pos_nonneg; lia).
    assert (2 ^ bits <= 2 ^ 61) by (apply Z.pow_le_mono_r; lia).
    pose proof (Z.div_le_lower_bound (nth (length ds - 1) ds 0) (2 ^ bits) 1). lia. }
  rewrite Top, Z.sub_0_r. change BIGNUM_LENGTH_MAX with 74382032555280388 in *.
  rewrite bignum_allocate_some by (change BIGNUM_LENGTH_MAX with 74382032555280388; lia).
  cbn [obind]. destruct (bits =? 0); [reflexivity |].
  cbn [shift_right_digits]. now rewrite Z.shiftr_0_l.
Qed.

Lemma pow_split m : 0 <= m -> 2 ^ m = BIGNUM_RADIX ^ (m / 62) * 2 ^ (m mod 62).
Proof.
  intros Hm. pose proof (Z.div_mod m 62 ltac:(lia)). pose proof (Z.mod_pos_bound m 62 ltac:(lia)).
  assert (0 <= m / 62) by (apply Z.div_pos; lia).
  rewrite radix_pow, <- Z.pow_add_r by lia. f_equal. lia.
Qed.

Lemma shiftr_lnot z m : 0 <= m -> Z.lnot (Z.shiftr (Z.lnot z) m) = Z.shiftr z m.
Proof. intros Hm. bitwise. Qed.

Lemma shiftr_out z m : Z.abs z < 2 ^ m -> 0 <= m -> Z.shiftr z m = if z <? 0 then -1 else 0.
Proof.
  intros Hz Hm. rewrite shiftr_div by lia. destruct (Z.ltb_spec z 0).
  - symmetry. apply (Z.div_unique_pos _ _ _ (z + 2 ^ m)); lia.
  - apply Z.div_small. lia.
Qed.

Lemma shift_right_unsigned_repr x c k bits :
  repr x c -> 0 <= c -> Z.of_nat k < BIGNUM_LENGTH x -> 0 <= bits < 62 ->
  exists r, bignum_shift_right_unsigned 0 x (Z.of_nat k) bits = Some r
    /\ repr r (c / BIGNUM_RADIX ^ Z.of_nat k / 2 ^ bits).
Proof.
  intros (neg & ds & -> & O & F & T & N & ->) Hc L Hb. autorewrite with bignum in L.
  assert (sign neg (eval ds) = eval ds) as ->
    by (pose proof (eval_nonneg ds O); destruct neg; cbn [sign] in *; lia).
  apply shift_right_unsigned_inside; auto. lia.
Qed.

(** The complement of a negative number, shifted by fewer digits than the
    number has. *)
Lemma shift_right_complement n z y k bits :
  repr n z -> z < 0 -> repr y (Z.lnot z) -> Z.of_nat k < BIGNUM_LENGTH n -> 0 <= bits < 62 ->
  exists r, bignum_shift_right_unsigned 0 y (Z.of_nat k) bits = Some r
    /\ repr r (Z.lnot z / BIGNUM_RADIX ^ Z.of_nat k / 2 ^ bits).
Proof.
  intros Hn Hz Hy In Hb.
  destruct (Z.lt_ge_cases (Z.of_nat k) (BIGNUM_LENGTH y)) as [L | L].
  { apply shift_right_unsigned_repr; auto. unfold Z.lnot. lia. }
  destruct Hn as (neg & ds & -> & O & F & T & N & ->). autorewrite with bignum in In.
  destruct Hy as (neg' & es & -> & O' & F' & T' & N' & E'). autorewrite with bignum in L.
  assert (Lo : BIGNUM_RADIX ^ (Z.of_nat (length ds) - 1) <= eval ds)
    by (apply eval_trimmed_lower; auto; intros ->; cbn in In; lia).
  assert (BIGNUM_RADIX ^ Z.of_nat k <= BIGNUM_RADIX ^ (Z.of_nat (length ds) - 1)) by (apply Z.pow_le_mono_r; lia).
  assert (neg = true) as -> by (destruct neg; [reflexivity | cbn [sign] in *; lia]).
  pose proof (eval_range es O') as R'. cbn [sign] in *.
  assert (Ev : Z.lnot (- eval ds) = eval es) by (unfold Z.lnot in *; destruct neg'; cbn [sign] in *; lia).
  assert (BIGNUM_RADIX ^ Z.of_nat (length es) <= BIGNUM_RADIX ^ Z.of_nat k) by (apply Z.pow_le_mono_r; lia).
  assert (Eq : eval es = BIGNUM_RADIX ^ Z.of_nat k - 1) by (unfold Z.lnot in Ev; lia).
  assert (Lk : Z.of_nat (length es) = Z.of_nat k).
  { apply Z.le_antisymm; [lia |]. apply (Z.pow_le_mono_r_iff BIGNUM_RADIX); lia. }
  rewrite <- Lk in *. rewrite shift_right_unsigned_at_end by auto.
  eexists. split; [reflexivity |].
  rewrite Ev, (Z.div_small (eval es)), Zdiv_0_l by lia. apply repr_nil.
Qed.

(** [bignum_shift_right] is the arithmetic shift, floor division by a power
    of two. *)
Lemma bignum_shift_right_repr n z m :
  repr n z -> room n 1 -> 0 <= m ->
  exists r, bignum_shift_right 0 n m = Some r /\ repr r (Z.shiftr z m).
Proof.
  intros Hn Rn Hm. unfold bignum_shift_right.
  rewrite (repr_NEGATIVE_P n z Hn). pose proof (pow_split m Hm) as P.
  assert (Hb : 0 <= m mod 62 < 62) by (apply Z.mod_pos_bound; lia).
  assert (Hk : 0 <= m / 62) by (apply Z.div_pos; lia).
  destruct (repr_upper n z Hn) as [HL HU].
  assert (Pb : 0 < 2 ^ (m mod 62)) by (apply Z.pow_pos_nonneg; lia).
  assert (Pk : 0 < BIGNUM_RADIX ^ (m / 62)) by (apply Z.pow_pos_nonneg; lia).
  set (k := m / 62) in *. set (bits := m mod 62) in *.
  destruct (Z.leb_spec (BIGNUM_LENGTH n) k) as [Out | In].
  { assert (BIGNUM_RADIX ^ BIGNUM_LENGTH n <= BIGNUM_RADIX ^ k) by (apply Z.pow_le_mono_r; lia).
    rewrite shiftr_out by (auto; nia). eexists. split; [reflexivity |].
    destruct (z <? 0); [apply (repr_make_one true) | apply repr_make_zero]. }
  assert (Sh : forall c, Z.shiftr c m = c / BIGNUM_RADIX ^ k / 2 ^ bits)
    by (intros; rewrite shiftr_div, P, <- Z.div_div by lia; reflexivity).
  replace k with (Z.of_nat (Z.to_nat k)) in * by lia.
  destruct (Z.ltb_spec z 0); [| rewrite Sh; now apply shift_right_unsigned_repr].
  destruct (bitwise_not_negative n z) as (y & -> & Hy & Py & Ry); auto. cbn [obind].
  destruct (shift_right_complement n z y (Z.to_nat k) bits) as (r & -> & Hr); auto.
  rewrite <- Sh in Hr. cbn [obind]. rewrite <- shiftr_lnot by lia.
  apply bignum_bitwise_not_repr; [exact Hr |].
  apply (room_le r n _ z 1 Hr Hn); auto. rewrite shiftr_div by lia.
  pose proof (Z.div_pos (Z.lnot z) (2 ^ m) Py). pose proof (Z.div_le_upper_bound (Z.lnot z) (2 ^ m) (Z.lnot z)).
  unfold Z.lnot in *. nia.
Qed.

End ShiftFacts.

(** ** Shifting left *)

(** The number of digits of a canonical bignum from its number of bits. *)
Lemma trimmed_length ds :
  digits_ok ds -> trimmed ds -> ds <> [] ->
  Z.of_nat (length ds) = BIGNUM_BITS_TO_DIGITS (bit_length (eval ds)).
Proof.
  intros O T N. pose proof (eval_trimmed_lower ds O T N) as Lo. pose proof (eval_range ds O) as R.
  pose proof (eval_trimmed_pos ds O T N). unfold bit_length, BIGNUM_BITS_TO_DIGITS.
  destruct (Z.eqb_spec (eval ds) 0); [lia |].
  assert (1 <= Z.of_nat (length ds)) by (destruct ds; [easy | cbn; lia]).
  rewrite radix_pow in Lo, R by lia.
  assert (62 * (Z.of_nat (length ds) - 1) <= Z.log2 (eval ds)) by (apply Z.log2_le_pow2; lia).
  assert (Z.log2 (eval ds) < 62 * Z.of_nat (length ds)) by (apply Z.log2_lt_pow2; lia).
  apply (Z.div_unique_pos _ _ _ (Z.log2 (eval ds) + 62 - 62 * Z.of_nat (length ds))); lia.
Qed.

Lemma ceil_digits x :
  0 <= x -> x / 62 + (if negb (x mod 62 =? 0) then 1 else 0) = BIGNUM_BITS_TO_DIGITS x.
Proof.
  intros Hx. unfold BIGNUM_BITS_TO_DIGITS. change (62 - 1) with 61.
  pose proof (Z.div_mod x 62 ltac:(lia)). pose proof (Z.mod_pos_bound x 62 ltac:(lia)).
  destruct (Z.eqb_spec (x mod 62) 0); cbn [negb].
  - apply (Z.div_unique_pos _ _ _ 61); lia.
  - apply (Z.div_unique_pos _ _ _ (x mod 62 - 1)); lia.
Qed.

Lemma bit_length_shift x m : 0 < x -> 0 <= m -> bit_length (x * 2 ^ m) = bit_length x + m.
Proof.
  intros Hx Hm. assert (0 < 2 ^ m) by (apply Z.pow_pos_nonneg; lia). unfold bit_length.
  destruct (Z.eqb_spec (x * 2 ^ m) 0), (Z.eqb_spec x 0); try nia.
  rewrite Z.log2_mul_pow2 by lia. lia.
Qed.

(** The low 62 bits do not see the conversion to a word. *)
Lemma land_mask_wrap x k :
  (x + k * 18446744073709551616) & BIGNUM_DIGIT_MASK = x mod BIGNUM_RADIX.
Proof.
  change BIGNUM_DIGIT_MASK with (2 ^ 62 - 1). rewrite land_mask by lia.
  change (2 ^ 62) with BIGNUM_RADIX.
  replace (x + k * 18446744073709551616) with (x + (k * 4) * BIGNUM_RADIX) by lia.
  apply Z.mod_add. lia.
Qed.

Lemma land_mask_slong x : slong x & BIGNUM_DIGIT_MASK = x mod BIGNUM_RADIX.
Proof.
  pose proof (Z.div_mod (x + 9223372036854775808) 18446744073709551616 ltac:(lia)).
  replace (slong x) with (x + (- ((x + 9223372036854775808) / 18446744073709551616)) * 18446744073709551616)
    by (unfold slong; lia).
  apply land_mask_wrap.
Qed.

Lemma land_mask_ulong x : ulong x & BIGNUM_DIGIT_MASK = x mod BIGNUM_RADIX.
Proof.
  pose proof (Z.div_mod x 18446744073709551616 ltac:(lia)).
  replace (ulong x) with (x + (- (x / 18446744073709551616)) * 18446744073709551616)
    by (unfold ulong; lia).
  apply land_mask_wrap.
Qed.

(** The loop is the normalization loop of the division. *)
Lemma shift_left_digits_normalize s ds : 0 < s < 62 -> digits_ok ds -> forall temp,
  shift_left_digits s temp ds
  = let '(es, c) := normalize_digits s ds temp in es ++ (if negb (c =? 0) then [c] else []).
Proof.
  intros Hs. induction 1 as [|d ds Hd O IH]; intros temp; [reflexivity |].
  cbn [shift_left_digits normalize_digits]. rewrite IH.
  destruct (normalize_digits s ds (d >>> (62 - s))) as [es c]. cbn [app]. f_equal. f_equal.
  rewrite land_mask_slong, ulong_mask, land_mask by lia.
  assert (P : 2 ^ s * 2 ^ (62 - s) = BIGNUM_RADIX) by (apply pow_shift; lia).
  destruct (pow_shift_pos s ltac:(lia)) as [P1 P2]. red in Hd.
  pose proof (Z.mod_pos_bound d (2 ^ (62 - s)) P2).
  rewrite !Z.shiftl_mul_pow2 by lia. rewrite slong_small by nia.
  rewrite <- P, (Z.mul_comm (2 ^ s)). apply Z.mul_mod_distr_r; lia.
Qed.

Lemma shift_left_digits_spec s ds :
  0 < s < 62 -> digits_ok ds -> trimmed ds -> ds <> [] ->
  let rs := shift_left_digits s 0 ds in
  digits_ok rs /\ trimmed rs /\ rs <> [] /\ eval rs = eval ds * 2 ^ s.
Proof.
  intros Hs O T N. cbv zeta. rewrite shift_left_digits_normalize by auto.
  assert (P1 : 0 < 2 ^ s) by (apply Z.pow_pos_nonneg; lia).
  destruct (normalize_digits_spec s ltac:(lia) ds 0 O) as (es & c & -> & Oe & Le & Hc & E); [lia |].
  pose proof (eval_trimmed_lower ds O T N).
  assert (2 ^ s <= 2 ^ 61) by (apply Z.pow_le_mono_r; lia).
  assert (es <> []) by (intros ->; now destruct ds).
  destruct (Z.eqb_spec c 0) as [-> | Nc]; cbn [negb].
  - rewrite app_nil_r. repeat split; auto; [| lia].
    apply trimmed_lower; auto. rewrite Le. nia.
  - repeat split.
    + apply Forall_app. split; [exact Oe |]. constructor; [red; lia | auto].
    + now apply trimmed_snoc.
    + now destruct es.
    + rewrite eval_snoc, Le. lia.
Qed.

Lemma zeros_prefix k ds :
  digits_ok ds -> trimmed ds -> ds <> [] ->
  digits_ok (repeat 0 k ++ ds) /\ trimmed (repeat 0 k ++ ds)
  /\ eval (repeat 0 k ++ ds) = BIGNUM_RADIX ^ Z.of_nat k * eval ds /\ repeat 0 k ++ ds <> [].
Proof.
  intros O T N. repeat split.
  - apply Forall_app. auto using digits_ok_zeros.
  - destruct (trimmed_inv ds T) as [-> | (ds' & d & -> & Hd)]; [easy |].
    rewrite app_assoc. now apply trimmed_snoc.
  - rewrite eval_app, eval_repeat0, repeat_length. lia.
  - intros E. apply app_eq_nil in E. tauto.
Qed.

(** A block allocated by its number of bits and filled with the digits of a
    canonical bignum. *)
Lemma allocate_bits {heap : Heap} l neg n :
  digits_ok l -> trimmed l -> l <> [] ->
  n = BIGNUM_BITS_TO_DIGITS (bit_length (eval l)) -> n <= BIGNUM_LENGTH_MAX ->
  (let* result := bignum_allocate n neg in Some (store_digits result l)) = Some (block neg l)
  /\ repr (block neg l) (sign neg (eval l)).
Proof.
  intros O T N -> Hn. pose proof (trimmed_length l O T N) as L.
  assert (F : fits l) by (unfold fits; lia).
  rewrite bignum_allocate_store by auto. split; [reflexivity |]. apply repr_block; auto. now intros ->.
Qed.

Lemma bits_to_digits_max x :
  0 <= x <= 62 * BIGNUM_LENGTH_MAX -> 0 <= BIGNUM_BITS_TO_DIGITS x <= BIGNUM_LENGTH_MAX.
Proof.
  intros H. unfold BIGNUM_BITS_TO_DIGITS. change (62 - 1) with 61.
  pose proof (Z.div_mod (x + 61) 62 ltac:(lia)). pose proof (Z.mod_pos_bound (x + 61) 62 ltac:(lia)).
  lia.
Qed.

Section LeftFacts.
Context {heap : Heap}.

(** The length computed for the result, from the top digit. *)
Lemma shift_left_length neg ds m :
  digits_ok ds -> trimmed ds -> ds <> [] -> 0 <= m ->
  bit_length (eval ds) + m <= 62 * BIGNUM_LENGTH_MAX ->
  let ln := Z.of_nat (length ds) in
  let delta := ulong_length_in_bits (BIGNUM_REF (block neg ds) (ln - 1)) in
  slong (((ln - 1)%UL + (delta + m)%UL / BIGNUM_DIGIT_LENGTH)%UL
         + (if negb ((delta + m)%UL mod BIGNUM_DIGIT_LENGTH =? 0) then 1 else 0))%UL
  = BIGNUM_BITS_TO_DIGITS (bit_length (eval ds * 2 ^ m)).
Proof.
  intros O T N Hm Hb ln delta. destruct (top_digit_bits neg ds O T N) as [D BP].
  fold ln in D, BP. fold delta in D, BP. clearbody delta.
  assert (1 <= ln) by (subst ln; destruct ds; [easy | cbn; lia]).
  pose proof (eval_trimmed_pos ds O T N).
  change BIGNUM_LENGTH_MAX with 74382032555280388 in *.
  assert (C : ln - 1 + (delta + m) / 62 + (if negb ((delta + m) mod 62 =? 0) then 1 else 0)
     = BIGNUM_BITS_TO_DIGITS (bit_length (eval ds * 2 ^ m))).
  { rewrite <- Z.add_assoc, ceil_digits, bit_length_shift, BP by lia. unfold BIGNUM_BITS_TO_DIGITS.
    rewrite <- Z.div_add_l by lia. f_equal. lia. }
  pose proof (bits_to_digits_max (bit_length (eval ds * 2 ^ m))) as BM.
  rewrite bit_length_shift in * by lia.
  change BIGNUM_LENGTH_MAX with 74382032555280388 in BM.
  pose proof (Z.div_pos (delta + m) 62 ltac:(lia)).
  rewrite (ulong_small (delta + m)), (ulong_small (ln - 1)) by lia.
  rewrite (ulong_small (_ + _ / 62)), ulong_small, slong_small by (destruct (negb _); lia).
  exact C.
Qed.

(** [bignum_shift_left] multiplies by a power of two; the block is exactly as
    long as the result. *)
Lemma bignum_shift_left_repr n z m :
  repr n z -> 0 <= m -> bit_length (Z.abs z) + m <= 62 * BIGNUM_LENGTH_MAX ->
  exists r, bignum_shift_left n m = Some r /\ repr r (Z.shiftl z m).
Proof.
  intros Hn Hm Hb. unfold bignum_shift_left. rewrite (repr_ZERO_P n z Hn), Z.shiftl_mul_pow2 by lia.
  destruct (Z.eqb_spec m 0) as [-> | Nm]; [exists n; now rewrite Z.pow_0_r, Z.mul_1_r |].
  destruct (Z.eqb_spec z 0) as [-> | Nz]; [now exists n |]. cbn [orb].
  destruct Hn as (neg & ds & -> & O & F & T & _ & ->). autorewrite with bignum.
  assert (N : ds <> []) by (intros ->; now rewrite sign_zero in Nz).
  pose proof (eval_trimmed_pos ds O T N).
  replace (Z.abs (sign neg (eval ds))) with (eval ds) in Hb by (destruct neg; cbn [sign]; lia).
  pose proof (Z.div_pos m 62 Hm). pose proof (Z.mod_pos_bound m 62 ltac:(lia)) as Hs.
  cbv zeta. rewrite shift_left_length by auto.
  set (ws := if m mod 62 =? 0 then ds else shift_left_digits (m mod 62) 0 ds).
  assert (W : digits_ok ws /\ trimmed ws /\ ws <> [] /\ eval ws = eval ds * 2 ^ (m mod 62)).
  { subst ws. destruct (Z.eqb_spec (m mod 62) 0) as [-> |].
    - repeat split; auto. rewrite Z.pow_0_r. lia.
    - apply shift_left_digits_spec; auto. lia. }
  destruct W as (Ow & Tw & Nw & Ew).
  destruct (zeros_prefix (Z.to_nat (m / 62)) ws Ow Tw Nw) as (Ol & Tl & El & Nl).
  assert (Ev : eval (repeat 0 (Z.to_nat (m / 62)) ++ ws) = eval ds * 2 ^ m).
  { rewrite El, Ew, Z2Nat.id, (pow_split m) by lia. ring. }
  rewrite <- Ev. destruct (allocate_bits _ neg _ Ol Tl Nl eq_refl) as [-> R].
  { apply bits_to_digits_max. rewrite Ev, bit_length_shift by lia. pose proof (bit_length_nonneg (eval ds)). lia. }
  eexists. split; [reflexivity |]. rewrite Ev in R.
  replace (sign neg (eval ds) * 2 ^ m) with (sign neg (eval ds * 2 ^ m)) by (destruct neg; cbn [sign]; ring).
  exact R.
Qed.

Lemma rest_digits_spec : forall fuel n,
  0 <= n < BIGNUM_RADIX ^ Z.of_nat fuel ->
  exists ds, rest_digits fuel n = Some ds /\ digits_ok ds /\ eval ds = n /\ trimmed ds.
Proof.
  induction fuel as [|fuel IH]; intros n Hn.
  - assert (n = 0) as -> by (cbn in Hn; lia). exists []. unfold trimmed. cbn. repeat split; auto; lia.
  - rewrite Nat2Z.inj_succ, Z.pow_succ_r in Hn by lia. cbn [rest_digits].
    destruct (Z.ltb_spec 0 n).
    + change BIGNUM_DIGIT_MASK with (2 ^ 62 - 1). rewrite (shiftr_div n 62), (land_mask n 62) by lia.
      change (2 ^ 62) with BIGNUM_RADIX.
      pose proof (Z.mod_pos_bound n BIGNUM_RADIX ltac:(lia)). pose proof (Z.div_mod n BIGNUM_RADIX ltac:(lia)).
      destruct (IH (n / BIGNUM_RADIX)) as (ds & -> & O & E & T).
      { split; [apply Z.div_pos | apply Z.div_lt_upper_bound]; lia. }
      exists (n mod BIGNUM_RADIX :: ds). cbn [obind eval]. rewrite E. repeat split; auto; [lia |].
      destruct ds; [| exact T]. cbn [eval] in E. unfold trimmed. cbn [last]. lia.
    + exists []. unfold trimmed. cbn. repeat split; auto; lia.
Qed.

Lemma unsigned_long_to_shifted_bignum_repr n m neg :
  is_ulong n -> 0 <= m -> bit_length n + m <= 62 * BIGNUM_LENGTH_MAX ->
  exists r, unsigned_long_to_shifted_bignum n m neg = Some r /\ repr r (sign neg (Z.shiftl n m)).
Proof.
  intros Hn Hm Hb. red in Hn. unfold unsigned_long_to_shifted_bignum.
  rewrite (Z.shiftl_mul_pow2 n m) by lia.
  destruct (Z.eqb_spec n 0) as [-> | Nn].
  { eexists. split; [reflexivity |]. rewrite Z.mul_0_l, sign_zero. apply repr_make_zero. }
  rewrite ulong_length_in_bits_log2 by (red; lia). fold (bit_length n).
  pose proof (bit_length_nonneg n).
  destruct (bits_to_digits_max (bit_length n + m)) as [B0 BM]; [lia |].
  pose proof (Z.div_pos (bit_length n + m) 62 ltac:(lia)).
  pose proof (Z.mod_pos_bound m 62 ltac:(lia)) as Hs. pose proof (Z.div_pos m 62 Hm).
  change BIGNUM_LENGTH_MAX with 74382032555280388 in *. cbv zeta.
  rewrite (ulong_small (bit_length n + m)), ceil_digits by lia.
  rewrite <- bit_length_shift in B0, BM |- * by lia.
  rewrite (ulong_small (BIGNUM_BITS_TO_DIGITS _)), slong_small by lia.
  set (s := m mod 62) in *. rewrite land_mask_ulong, Z.shiftl_mul_pow2, shiftr_div by lia.
  assert (P : 2 ^ s * 2 ^ (62 - s) = BIGNUM_RADIX) by (apply pow_shift; lia).
  destruct (pow_shift_pos s Hs) as [P1 P2].
  assert (Q : n * 2 ^ s = BIGNUM_RADIX * (n / 2 ^ (62 - s)) + (n * 2 ^ s) mod BIGNUM_RADIX).
  { replace (n / 2 ^ (62 - s)) with (n * 2 ^ s / BIGNUM_RADIX); [apply Z.div_mod; lia |].
    rewrite <- P, (Z.mul_comm n). apply Z.div_mul_cancel_l; lia. }
  pose proof (Z.mod_pos_bound (n * 2 ^ s) BIGNUM_RADIX ltac:(lia)).
  destruct (rest_digits_spec 2 (n / 2 ^ (62 - s))) as (ds & -> & O & E & T).
  { split; [apply Z.div_pos; lia | apply Z.div_lt_upper_bound; [lia |]].
    change (BIGNUM_RADIX ^ Z.of_nat 2) with 21267647932558653966460912964485513216. nia. }
  assert (Tl : trimmed ((n * 2 ^ s) mod BIGNUM_RADIX :: ds)).
  { destruct ds; [| exact T]. cbn [eval] in E. unfold trimmed. cbn [last]. nia. }
  destruct (zeros_prefix (Z.to_nat (m / 62)) ((n * 2 ^ s) mod BIGNUM_RADIX :: ds)) as (Ol & Tl' & El & Nl); auto;
    [discriminate |].
  cbn [eval] in El. rewrite E, Z.add_comm, <- Q, Z2Nat.id in El by lia.
  replace (BIGNUM_RADIX ^ (m / 62) * (n * 2 ^ s)) with (n * 2 ^ m) in El
    by (rewrite (pow_split m) by lia; subst s; ring).
  cbn [obind]. rewrite <- El in *. apply (allocate_bits _ neg _ Ol Tl' Nl) in BM as [-> R]; auto.
  eauto.
Qed.

(** Room for one more digit, from the number of bits. *)
Lemma room_bits b z n :
  repr b z -> 0 <= n -> Z.abs z <= 2 ^ n -> n + 124 <= 62 * BIGNUM_LENGTH_MAX -> room b 1.
Proof.
  intros H Hn Hz Hm. unfold room.
  pose proof (Z.div_mod n 62 ltac:(lia)). pose proof (Z.mod_pos_bound n 62 ltac:(lia)).
  assert (BIGNUM_LENGTH b <= n / 62 + 1).
  { apply (repr_length_bound b z); auto; [pose proof (Z.div_pos n 62); lia |].
    rewrite radix_pow by (pose proof (Z.div_pos n 62); lia).
    eapply Z.le_lt_trans; [exact Hz |]. apply Z.pow_lt_mono_r; lia. }
  lia.
Qed.

Lemma bignum_nonnegative_one_bits_repr size position :
  0 <= size -> 0 <= position -> size + position + 124 <= 62 * BIGNUM_LENGTH_MAX ->
  exists r, bignum_nonnegative_one_bits size position = Some r
    /\ repr r (Z.shiftl (Z.ones size) position).
Proof.
  intros Hs Hp Hb. unfold bignum_nonnegative_one_bits.
  destruct (bignum_shift_left_repr (bignum_make_one true) (-1) size) as (r & -> & Hr); auto.
  { apply (repr_make_one true). } { change (bit_length (Z.abs (-1))) with 1. lia. }
  cbn [obind]. rewrite Z.shiftl_mul_pow2 in Hr by lia.
  assert (0 < 2 ^ size) by (apply Z.pow_pos_nonneg; lia).
  destruct (bignum_bitwise_not_repr r (-1 * 2 ^ size)) as (r' & -> & Hr'); auto.
  { apply (room_bits r _ size Hr); lia. }
  cbn [obind].
  assert (Eo : Z.lnot (-1 * 2 ^ size) = Z.ones size) by (rewrite Z.ones_equiv; unfold Z.lnot; lia).
  rewrite Eo in Hr'.
  apply bignum_shift_left_repr; auto.
  assert (bit_length (Z.abs (Z.ones size)) <= size); [| lia].
  rewrite Z.ones_equiv, Z.abs_eq by lia. unfold bit_length.
  destruct (Z.eqb_spec (Z.pred (2 ^ size)) 0); [lia |].
  assert (Z.log2 (Z.pred (2 ^ size)) < size) by (apply Z.log2_lt_pow2; lia). lia.
Qed.

Lemma bignum_negative_zero_bits_repr n m :
  0 <= n -> 0 <= m -> n + m + 124 <= 62 * BIGNUM_LENGTH_MAX ->
  exists r, bignum_negative_zero_bits n m = Some r
    /\ repr r (Z.lnot (Z.shiftl (Z.ones n) m)).
Proof.
  intros Hn Hm Hb. unfold bignum_negative_zero_bits.
  destruct (bignum_nonnegative_one_bits_repr n m) as (r & -> & Hr); auto. cbn [obind].
  apply bignum_bitwise_not_repr; auto.
  apply (room_bits r _ (n + m) Hr); try lia.
  rewrite Z.shiftl_mul_pow2, Z.ones_equiv, Z.pow_add_r by lia.
  assert (0 < 2 ^ n) by (apply Z.pow_pos_nonneg; lia).
  assert (0 < 2 ^ m) by (apply Z.pow_pos_nonneg; lia). nia.
Qed.

End LeftFacts.

(** ** Properties *)

(** [bignum_shift_left] multiplies by a power of two,
    [bignum_shift_right] divides by one rounding down (negative numbers too),
    [unsigned_long_to_shifted_bignum] builds a shifted word with a sign, and
    the mask constructors build a block of ones or of zeros at any position;
    all results are canonical and no assertion fails while they fit. *)
Theorem bignum_shifts {heap : Heap} :
  (forall n z m, repr n z -> 0 <= m -> bit_length (Z.abs z) + m <= 62 * BIGNUM_LENGTH_MAX ->
     exists r, bignum_shift_left n m = Some r /\ repr r (z * 2 ^ m))
  /\ (forall n z m, repr n z -> room n 1 -> 0 <= m ->
     exists r, bignum_shift_right 0 n m = Some r /\ repr r (z / 2 ^ m))
  /\ (forall n m (neg : bool), is_ulong n -> 0 <= m -> bit_length n + m <= 62 * BIGNUM_LENGTH_MAX ->
     exists r, unsigned_long_to_shifted_bignum n m neg = Some r /\ repr r (sign neg (n * 2 ^ m)))
  /\ (forall n m, 0 <= n -> 0 <= m -> n + m + 124 <= 62 * BIGNUM_LENGTH_MAX ->
     (exists r, bignum_nonnegative_one_bits n m = Some r /\ repr r ((2 ^ n - 1) * 2 ^ m))
     /\ (exists r, bignum_negative_zero_bits n m = Some r /\ repr r (- ((2 ^ n - 1) * 2 ^ m) - 1))).
Proof.
  split; [| split; [| split]].
  - intros n z m Hn Hm Hb. rewrite <- Z.shiftl_mul_pow2 by lia. now apply bignum_shift_left_repr.
  - intros n z m Hn R Hm. rewrite <- shiftr_div by lia. now apply bignum_shift_right_repr.
  - intros n m neg Hn Hm Hb. rewrite <- Z.shiftl_mul_pow2 by lia.
    now apply unsigned_long_to_shifted_bignum_repr.
  - intros n m Hn Hm Hb.
    assert (E : (2 ^ n - 1) * 2 ^ m = Z.shiftl (Z.ones n) m)
      by (rewrite Z.shiftl_mul_pow2, Z.ones_equiv by lia; reflexivity).
    rewrite E. split; [now apply bignum_nonnegative_one_bits_repr |].
    replace (- Z.shiftl (Z.ones n) m - 1) with (Z.lnot (Z.shiftl (Z.ones n) m)) by (unfold Z.lnot; lia).
    now apply bignum_negative_zero_bits_repr.
Qed.

(** the bit metrics of a bignum: [bignum_length_in_bits] is the length of
    the magnitude, [bignum_integer_length] the two's-complement length,
    [bignum_first_set_bit] the index of the lowest one bit, [bignum_bit_count]
    the number of bits that differ from the sign, and
    [bignum_hamming_distance] the number of differing bits, -1 when the signs
    differ. *)
Theorem bignum_bit_metrics {heap : Heap} x y a b (same_p : bool) :
  repr x a -> repr y b -> room x 1 -> room y 1 -> (same_p = true -> x = y) ->
  bignum_length_in_bits x = bit_length (Z.abs a)
  /\ bignum_integer_length x = bit_length (if a <? 0 then Z.lnot a else a)
  /\ bignum_first_set_bit x = Some (trailing_zeros a)
  /\ bignum_bit_count x = Some (popcount (if a <? 0 then Z.lnot a else a))
  /\ bignum_hamming_distance same_p x y
     = Some (if xorb (a <? 0) (b <? 0) then -1 else popcount (Z.lxor a b)).
Proof.
  intros Hx Hy Rx Ry S.
  rewrite (bignum_length_in_bits_repr x a), (bignum_integer_length_repr x a),
    (bignum_first_set_bit_repr x a), (bignum_bit_count_repr x a),
    (bignum_hamming_distance_repr same_p x y a b) by assumption.
  repeat split.
Qed.

Lemma bignum_bit_metrics_witness :
  let heap : Heap := fun _ => 77 in
  bignum_integer_length (block true [0; 16]) = 66
  /\ bignum_first_set_bit (block true [0; 16]) = Some 66
  /\ bignum_hamming_distance false (block true [0; 16]) (block true [1]) = Some 66.
Proof.
  intros heap.
  destruct (bignum_bit_metrics (heap := heap) (block true [0; 16]) (block true [1])
    (- (0 + BIGNUM_RADIX * 16)) (-1) false) as (_ & L & F & _ & H);
    [concrete_repr | concrete_repr | concrete_room | concrete_room | discriminate |].
  split; [exact L |]. split; [exact F | exact H].
Defined.

Lemma bignum_shifts_witness :
  let heap : Heap := fun _ => 77 in
  exists r, bignum_shift_right 0 (block true [1; 1]) 61 = Some r
    /\ repr r ((- (1 + BIGNUM_RADIX * 1)) / 2 ^ 61).
Proof.
  intros heap. destruct (bignum_shifts (heap := heap)) as (_ & H & _).
  apply H; [concrete_repr | concrete_room | lia].
Defined.
