(* ===== verification/BignumSpec.v ===== *)
(** * What the bignum component promises (src/src/microcode/bignum.h)

    [BignumOps] is the list of functions that the generic integer layer
    (artutl.c) calls; [BignumLaws] states what they compute, over an abstract
    type of bignums.  The generic integers are verified against these two
    classes.  The instance at the end, discharged by the theorems of the
    bignum files, is the implementation. *)

From Stdlib Require Import ZArith List Lia Bool.
From S2P Require Import Prelude Bits Bignum BignumAdd BignumMul BignumDiv.
From S2P Require Import BignumConv BignumBitwise BignumShift.
Import ListNotations.

(** ** Interface *)

(** The ten bitwise operations. *)
Inductive bitop := op_and | op_andc2 | op_andc1 | op_xor | op_ior
  | op_nor | op_eqv | op_orc2 | op_orc1 | op_nand.

Definition bitop_Z (op : bitop) (a b : Z) : Z :=
  match op with
  | op_and => Z.land a b
  | op_andc2 => Z.ldiff a b
  | op_andc1 => Z.ldiff b a
  | op_xor => Z.lxor a b
  | op_ior => Z.lor a b
  | op_nor => Z.lnot (Z.lor a b)
  | op_eqv => Z.lnot (Z.lxor a b)
  | op_orc2 => Z.lor a (Z.lnot b)
  | op_orc1 => Z.lor (Z.lnot a) b
  | op_nand => Z.lnot (Z.land a b)
  end.

Class BignumOps (B : Type) := {
  bn_test : B -> bignum_comparison;
  bn_compare : B -> B -> bignum_comparison;
  bn_equal_p : B -> B -> bool;
  bn_negate : B -> option B;
  bn_add : B -> B -> option B;
  bn_subtract : B -> B -> option B;
  bn_multiply : B -> B -> option B;
  bn_divide : B -> B -> option (option (B * B));
  bn_quotient : B -> B -> option (option B);
  bn_remainder : B -> B -> option (option B);
  bn_from_long : Z -> option B;
  bn_from_ulong : Z -> option B;
  bn_to_long : B -> Z;
  bn_to_ulong : B -> option Z;
  bn_fits_in_word_p : B -> Z -> bool -> option bool;
  bn_length_in_bits : B -> Z;
  bn_integer_length : B -> Z;
  bn_first_set_bit : B -> option Z;
  bn_bit_count : B -> option Z;
  bn_hamming_distance : bool -> B -> B -> option Z;
  bn_bitwise_not : B -> option B;
  bn_bitwise : bitop -> B -> B -> option B;
  bn_nonnegative_one_bits : Z -> Z -> option B;
  bn_negative_zero_bits : Z -> Z -> option B;
  bn_from_shifted_ulong : Z -> Z -> bool -> option B;
  bn_shift_left : B -> Z -> option B;
  bn_shift_right : B -> Z -> option B
}.

(** The laws hold for integers of fewer than 2^32 - 4 digits, some 34
    gigabytes each: above that the allocator refuses or the [unsigned int]
    casts of [bignum_fits_in_word_p] wrap. *)
Lemma capacity_sig : { c : Z | c = 62 * 4294967292 }.
Proof. now exists (62 * 4294967292). Qed.

(** Kept opaque: [2 ^ capacity] must never be computed. *)
Definition capacity : Z := proj1_sig capacity_sig.

Lemma capacity_eq : capacity = 266287972104.
Proof. exact (proj2_sig capacity_sig). Qed.

Definition within (z : Z) : Prop := Z.abs z < 2 ^ capacity.

(** The sum of two such integers is still small enough to be tested. *)
Definition within_sum (z : Z) : Prop := Z.abs z < 2 ^ (capacity + 62).

(** A computation that succeeds with a bignum of the given value. *)
Definition yields {B} (R : B -> Z -> Prop) (o : option B) (z : Z) : Prop :=
  exists r, o = Some r /\ R r z.

Class BignumLaws (B : Type) {ops : BignumOps B} := {
  bn_denotes : B -> Z -> Prop;
  law_test x a : bn_denotes x a -> bn_test x = comparison_of a 0;
  law_compare x y a b : bn_denotes x a -> bn_denotes y b -> bn_compare x y = comparison_of a b;
  law_equal_p x y a b : bn_denotes x a -> bn_denotes y b -> bn_equal_p x y = (a =? b);
  law_negate x a : bn_denotes x a -> yields bn_denotes (bn_negate x) (- a);
  law_add x y a b : bn_denotes x a -> bn_denotes y b -> within a -> within b ->
    yields bn_denotes (bn_add x y) (a + b);
  law_subtract x y a b : bn_denotes x a -> bn_denotes y b -> within a -> within b ->
    yields bn_denotes (bn_subtract x y) (a - b);
  law_multiply x y a b : bn_denotes x a -> bn_denotes y b -> within a -> within b ->
    yields bn_denotes (bn_multiply x y) (a * b);
  law_divide x y a b : bn_denotes x a -> bn_denotes y b -> within a ->
    if b =? 0 then bn_divide x y = Some None
    else exists q r, bn_divide x y = Some (Some (q, r))
      /\ bn_denotes q (Z.quot a b) /\ bn_denotes r (Z.rem a b);
  law_quotient x y a b : bn_denotes x a -> bn_denotes y b -> within a ->
    if b =? 0 then bn_quotient x y = Some None
    else exists q, bn_quotient x y = Some (Some q) /\ bn_denotes q (Z.quot a b);
  law_remainder x y a b : bn_denotes x a -> bn_denotes y b -> within a ->
    if b =? 0 then bn_remainder x y = Some None
    else exists r, bn_remainder x y = Some (Some r) /\ bn_denotes r (Z.rem a b);
  law_from_long n : is_slong n -> yields bn_denotes (bn_from_long n) n;
  law_from_ulong n : is_ulong n -> yields bn_denotes (bn_from_ulong n) n;
  law_to_long x a : bn_denotes x a -> bn_to_long x = slong a;
  law_to_ulong x a : bn_denotes x a -> bn_to_ulong x = if 0 <=? a then Some (ulong a) else None;
  law_fits x a w (tc : bool) : bn_denotes x a -> within_sum a -> (if tc then 1 else 0) < w < 4294967296 ->
    bn_fits_in_word_p x w tc
    = Some (if tc then (- (2 ^ (w - 1) + Z.max 1 (twos_complement_slack (w - 1))) <? a)
                       && (a <? 2 ^ (w - 1)) && negb ((a =? - 2 ^ (w - 1)) && ((w - 1) mod 62 =? 0))
            else (0 <=? a) && (a <? 2 ^ w));
  law_length_in_bits x a : bn_denotes x a -> bn_length_in_bits x = bit_length (Z.abs a);
  law_integer_length x a : bn_denotes x a ->
    bn_integer_length x = bit_length (if a <? 0 then Z.lnot a else a);
  law_first_set_bit x a : bn_denotes x a -> bn_first_set_bit x = Some (trailing_zeros a);
  law_bit_count x a : bn_denotes x a -> within a ->
    bn_bit_count x = Some (popcount (if a <? 0 then Z.lnot a else a));
  law_hamming_distance (same_p : bool) x y a b : bn_denotes x a -> bn_denotes y b -> within a -> within b ->
    (same_p = true -> x = y) ->
    bn_hamming_distance same_p x y
    = Some (if xorb (a <? 0) (b <? 0) then -1 else popcount (Z.lxor a b));
  law_bitwise_not x a : bn_denotes x a -> within a -> yields bn_denotes (bn_bitwise_not x) (Z.lnot a);
  law_bitwise op x y a b : bn_denotes x a -> bn_denotes y b -> within a -> within b ->
    yields bn_denotes (bn_bitwise op x y) (bitop_Z op a b);
  law_nonnegative_one_bits n m : 0 <= n -> 0 <= m -> n + m <= capacity ->
    yields bn_denotes (bn_nonnegative_one_bits n m) (Z.shiftl (Z.ones n) m);
  law_negative_zero_bits n m : 0 <= n -> 0 <= m -> n + m <= capacity ->
    yields bn_denotes (bn_negative_zero_bits n m) (Z.lnot (Z.shiftl (Z.ones n) m));
  law_from_shifted_ulong n m neg : is_ulong n -> 0 <= m <= capacity ->
    yields bn_denotes (bn_from_shifted_ulong n m neg) (sign neg (Z.shiftl n m));
  law_shift_left x a m : bn_denotes x a -> within a -> 0 <= m <= capacity ->
    yields bn_denotes (bn_shift_left x m) (Z.shiftl a m);
  law_shift_right x a m : bn_denotes x a -> within a -> 0 <= m ->
    yields bn_denotes (bn_shift_right x m) (Z.shiftr a m)
}.

(** ** Implementation *)

Section Implementation.
Context {heap : Heap}.

Definition bignum_bitwise (op : bitop) : bignum -> bignum -> option bignum :=
  match op with
  | op_and => bignum_bitwise_and
  | op_andc2 => bignum_bitwise_andc2
  | op_andc1 => bignum_bitwise_andc1
  | op_xor => bignum_bitwise_xor
  | op_ior => bignum_bitwise_ior
  | op_nor => bignum_bitwise_nor
  | op_eqv => bignum_bitwise_eqv
  | op_orc2 => bignum_bitwise_orc2
  | op_orc1 => bignum_bitwise_orc1
  | op_nand => bignum_bitwise_nand
  end.

(** The word after the digits of a trimmed block is the [SHARP_F] that
    [BIGNUM_REDUCE_LENGTH] stores there, which is 0. *)
#[export] Instance bignum_ops : BignumOps bignum := {|
  bn_test := bignum_test;
  bn_compare := bignum_compare;
  bn_equal_p := bignum_equal_p;
  bn_negate := bignum_negate;
  bn_add := bignum_add;
  bn_subtract := bignum_subtract;
  bn_multiply := bignum_multiply;
  bn_divide := bignum_divide;
  bn_quotient := bignum_quotient;
  bn_remainder := bignum_remainder;
  bn_from_long := long_to_bignum;
  bn_from_ulong := ulong_to_bignum;
  bn_to_long := bignum_to_long;
  bn_to_ulong := bignum_to_ulong;
  bn_fits_in_word_p := bignum_fits_in_word_p;
  bn_length_in_bits := bignum_length_in_bits;
  bn_integer_length := bignum_integer_length;
  bn_first_set_bit := bignum_first_set_bit;
  bn_bit_count := bignum_bit_count;
  bn_hamming_distance := bignum_hamming_distance;
  bn_bitwise_not := bignum_bitwise_not;
  bn_bitwise := bignum_bitwise;
  bn_nonnegative_one_bits := bignum_nonnegative_one_bits;
  bn_negative_zero_bits := bignum_negative_zero_bits;
  bn_from_shifted_ulong := unsigned_long_to_shifted_bignum;
  bn_shift_left := bignum_shift_left;
  bn_shift_right := bignum_shift_right 0
|}.

Lemma within_length b z : repr b z -> within z -> 0 <= BIGNUM_LENGTH b <= 4294967292.
Proof.
  intros H W. split; [apply (repr_upper b z H) |].
  apply (repr_length_bound b z 4294967292 H); [lia |]. rewrite radix_pow by lia.
  replace (62 * 4294967292) with capacity by (pose proof capacity_eq; lia). exact W.
Qed.

Lemma within_sum_length b z : repr b z -> within_sum z -> 0 <= BIGNUM_LENGTH b <= 4294967293.
Proof.
  intros H W. split; [apply (repr_upper b z H) |].
  apply (repr_length_bound b z 4294967293 H); [lia |]. rewrite radix_pow by lia.
  replace (62 * 4294967293) with (capacity + 62) by (pose proof capacity_eq; lia). exact W.
Qed.

Lemma within_room b z : repr b z -> within z -> room b 1.
Proof.
  intros H W. pose proof (within_length b z H W). unfold room.
  change BIGNUM_LENGTH_MAX with 74382032555280388. lia.
Qed.

Lemma within_bits z : within z -> bit_length (Z.abs z) <= capacity.
Proof.
  intros W. red in W. unfold bit_length. pose proof capacity_eq. destruct (Z.eqb_spec (Z.abs z) 0); [lia |].
  assert (Z.log2 (Z.abs z) < capacity) by (apply Z.log2_lt_pow2; [lia | exact W]). lia.
Qed.

Lemma bit_length_ulong n : is_ulong n -> bit_length n <= 64.
Proof.
  intros H. red in H. unfold bit_length. destruct (Z.eqb_spec n 0); [lia |].
  assert (Z.log2 n < 64) by (apply Z.log2_lt_pow2; lia). lia.
Qed.

Lemma within_room2 x y a b : repr x a -> repr y b -> within a -> within b -> room x (BIGNUM_LENGTH y).
Proof.
  intros Hx Hy Wa Wb. pose proof (within_length x a Hx Wa). pose proof (within_length y b Hy Wb).
  unfold room. change BIGNUM_LENGTH_MAX with 74382032555280388. lia.
Qed.

Lemma bignum_bitwise_spec op : signed_spec (bignum_bitwise op) (bitop_Z op).
Proof.
  destruct op; cbn [bignum_bitwise bitop_Z].
  - apply bitwise_and_spec.
  - apply bitwise_andc2_spec.
  - apply bitwise_andc1_spec.
  - apply bitwise_xor_spec.
  - apply bitwise_ior_spec.
  - apply bitwise_nor_spec.
  - apply bitwise_eqv_spec.
  - apply bitwise_orc2_spec.
  - apply bitwise_orc1_spec.
  - apply bitwise_nand_spec.
Qed.

Lemma within_max n : n <= 3 * capacity -> n + 124 <= 62 * BIGNUM_LENGTH_MAX.
Proof. rewrite capacity_eq. change BIGNUM_LENGTH_MAX with 74382032555280388. lia. Qed.

#[export] Instance bignum_laws : BignumLaws bignum.
Proof.
  refine {| bn_denotes := repr |}.
  - exact bignum_test_repr.
  - exact bignum_compare_repr.
  - exact bignum_equal_p_repr.
  - exact bignum_negate_repr.
  - intros x y a b Hx Hy Wa Wb. apply bignum_add_repr; eauto using within_room.
  - intros x y a b Hx Hy Wa Wb. apply bignum_subtract_repr; eauto using within_room.
  - intros x y a b Hx Hy Wa Wb. apply bignum_multiply_repr; eauto using within_room2.
  - intros x y a b Hx Hy Wa. apply bignum_divide_repr; eauto using within_room.
  - intros x y a b Hx Hy Wa. apply bignum_quotient_repr; eauto using within_room.
  - intros x y a b Hx Hy Wa. apply bignum_remainder_repr; eauto using within_room.
  - exact INT_TO_BIGNUM_repr.
  - exact UINT_TO_BIGNUM_repr.
  - exact BIGNUM_TO_INT_repr.
  - exact BIGNUM_TO_UINT_repr.
  - intros x a w tc Hx Wa Hw. refine (bignum_fits_in_word_p_repr x a w tc Hx _ Hw).
    pose proof (within_sum_length x a Hx Wa). lia.
  - exact bignum_length_in_bits_repr.
  - exact bignum_integer_length_repr.
  - exact bignum_first_set_bit_repr.
  - intros x a Hx Wa. apply bignum_bit_count_repr; eauto using within_room.
  - intros same_p x y a b Hx Hy Wa Wb. apply bignum_hamming_distance_repr; eauto using within_room.
  - intros x a Hx Wa. apply bignum_bitwise_not_repr; eauto using within_room.
  - intros op x y a b Hx Hy Wa Wb. apply bignum_bitwise_spec; eauto using within_room.
  - intros n m Hn Hm Hb. apply bignum_nonnegative_one_bits_repr; auto. apply within_max.
    pose proof capacity_eq. lia.
  - intros n m Hn Hm Hb. apply bignum_negative_zero_bits_repr; auto. apply within_max.
    pose proof capacity_eq. lia.
  - intros n m neg Hn Hm. apply unsigned_long_to_shifted_bignum_repr; auto; [lia |].
    pose proof (bit_length_ulong n Hn). pose proof (within_max (bit_length n + m)). pose proof capacity_eq. lia.
  - intros x a m Hx Wa Hm. apply bignum_shift_left_repr; auto; [lia |].
    pose proof (within_bits a Wa). pose proof (within_max (bit_length (Z.abs a) + m)). pose proof capacity_eq. lia.
  - intros x a m Hx Wa Hm. apply bignum_shift_right_repr; eauto using within_room.
Defined.
End Implementation.

(** ** Properties *)

(** The truth table of a bitwise operation. *)
Definition bitop_bool (op : bitop) (p q : bool) : bool :=
  match op with
  | op_and => p && q
  | op_andc2 => p && negb q
  | op_andc1 => negb p && q
  | op_xor => xorb p q
  | op_ior => p || q
  | op_nor => negb (p || q)
  | op_eqv => negb (xorb p q)
  | op_orc2 => p || negb q
  | op_orc1 => negb p || q
  | op_nand => negb (p && q)
  end.

Lemma bitop_Z_spec op a b i :
  0 <= i -> Z.testbit (bitop_Z op a b) i = bitop_bool op (Z.testbit a i) (Z.testbit b i).
Proof.
  intros Hi. destruct op; cbn [bitop_Z bitop_bool]; autorewrite with zbits; auto.
  apply andb_comm.
Qed.

(** C30: the ten bitwise operations, computed on sign and magnitude, give the
    canonical bignum of the two's-complement result: every bit of the result
    is the truth table of the operation applied to the bits of the operands. *)
Theorem bignum_bitwise_operations {heap : Heap} x y a b op :
  repr x a -> repr y b -> room x 1 -> room y 1 ->
  exists r z, bignum_bitwise op x y = Some r /\ repr r z
    /\ forall i, 0 <= i -> Z.testbit z i = bitop_bool op (Z.testbit a i) (Z.testbit b i).
Proof.
  intros Hx Hy Rx Ry. destruct (bignum_bitwise_spec op x y a b Hx Hy Rx Ry) as (r & E & Hr).
  exists r, (bitop_Z op a b). split; [exact E |]. split; [exact Hr |].
  intros i Hi. now apply bitop_Z_spec.
Qed.

Lemma bignum_bitwise_operations_witness :
  let heap : Heap := fun _ => 77 in
  exists r z, bignum_bitwise op_nor (block true [5; 9]) (block false [12]) = Some r /\ repr r z
    /\ forall i, 0 <= i ->
       Z.testbit z i = bitop_bool op_nor (Z.testbit (- (5 + BIGNUM_RADIX * 9)) i) (Z.testbit 12 i).
Proof.
  intros heap.
  apply (bignum_bitwise_operations (heap := heap) (block true [5; 9]) (block false [12])
    (- (5 + BIGNUM_RADIX * 9)) 12 op_nor);
    (concrete_repr || concrete_room).
Defined.
