(* ===== verification/Object.v ===== *)
(** * Tagged objects and fixnums (src/src/microcode/object.h, 64-bit words)

    A [SCHEME_OBJECT] is an [unsigned long]: six bits of type code above 58
    bits of datum.  A fixnum holds a 58-bit two's-complement integer in its
    datum.  The file also has the result type of a primitive. *)

From Stdlib Require Import ZArith List Lia Bool.
From S2P Require Import Prelude.
Import ListNotations.

(** ** Constants *)

Notation DATUM_LENGTH := 58.
Notation FIXNUM_LENGTH := 57.
(** 0x03FFFFFFFFFFFFFF *)
Notation DATUM_MASK := 288230376151711743.
(** 0x0200000000000000 *)
Notation FIXNUM_SIGN_BIT := 144115188075855872.
(** 0xFE00000000000000 *)
Notation SIGN_MASK := 18302628885633695744.
Notation SMALLEST_FIXNUM := (-144115188075855872).
Notation BIGGEST_FIXNUM := 144115188075855871.

Notation TC_FALSE := 0.
Notation TC_CONSTANT := 8.
Notation TC_BIG_FIXNUM := 14.
Notation TC_FIXNUM := 26.

(** ** Objects *)

Definition OBJECT_TYPE (object : Z) : Z := object >>> DATUM_LENGTH.
Definition OBJECT_DATUM (object : Z) : Z := object & DATUM_MASK.
Definition MAKE_OBJECT (type datum : Z) : Z := (type << DATUM_LENGTH)%UL .| datum.

Definition SHARP_F : Z := MAKE_OBJECT TC_FALSE 0.
Definition SHARP_T : Z := MAKE_OBJECT TC_CONSTANT 0.
Definition BOOLEAN_TO_OBJECT (expression : bool) : Z := if expression then SHARP_T else SHARP_F.

(** ** Fixnums *)

Definition FIXNUM_P (object : Z) : bool := OBJECT_TYPE object =? TC_FIXNUM.
Definition FIXNUM_ZERO_P (fixnum : Z) : bool := OBJECT_DATUM fixnum =? 0.
Definition FIXNUM_NEGATIVE_P (fixnum : Z) : bool := negb ((fixnum & FIXNUM_SIGN_BIT) =? 0).
Definition UNSIGNED_FIXNUM_P (x : Z) : bool := FIXNUM_P x && negb (FIXNUM_NEGATIVE_P x).
Definition FIXNUM_EQUAL_P (x y : Z) : bool := OBJECT_DATUM x =? OBJECT_DATUM y.
Definition FIXNUM_POSITIVE_P (fixnum : Z) : bool :=
  negb (FIXNUM_ZERO_P fixnum || FIXNUM_NEGATIVE_P fixnum).

Definition UNSIGNED_FIXNUM_TO_LONG (fixnum : Z) : Z := slong (OBJECT_DATUM fixnum).
Definition LONG_TO_UNSIGNED_FIXNUM (n : Z) : Z := MAKE_OBJECT TC_FIXNUM (ulong n).
Definition LONG_TO_FIXNUM_P (n : Z) : bool :=
  ((ulong n & SIGN_MASK) =? 0) || ((ulong n & SIGN_MASK) =? SIGN_MASK).
Definition LONG_TO_FIXNUM (n : Z) : Z := MAKE_OBJECT TC_FIXNUM (ulong n & DATUM_MASK).
Definition FIXNUM_TO_LONG (fixnum : Z) : Z :=
  slong (ulong ((fixnum ^^ FIXNUM_SIGN_BIT)
                - ((TC_FIXNUM << DATUM_LENGTH)%UL .| FIXNUM_SIGN_BIT))).
Definition FIXNUM_LESS_P (x y : Z) : bool := FIXNUM_TO_LONG x <? FIXNUM_TO_LONG y.

Definition ULONG_TO_FIXNUM_P (n : Z) : bool := (n & SIGN_MASK) =? 0.
Definition ULONG_TO_FIXNUM (n : Z) : Z := MAKE_OBJECT TC_FIXNUM n.
Definition FIXNUM_TO_ULONG_P (fixnum : Z) : bool := (OBJECT_DATUM fixnum & SIGN_MASK) =? 0.
Definition FIXNUM_TO_ULONG (fixnum : Z) : Z := OBJECT_DATUM fixnum.
Definition FIXNUM_ZERO : Z := ULONG_TO_FIXNUM 0.

(** ** Primitives *)

(** The other exits of a primitive: a wrong-type or bad-range argument, the
    error that a failed bignum assertion signals (also used where C leaves the
    result undefined), or the interrupt that asks for a garbage collection of
    [n] words before the primitive is run again. *)
Inductive prim_error :=
  | error_wrong_type_arg (n : Z)
  | error_bad_range_arg (n : Z)
  | error_external_return
  | Primitive_GC (n : Z).

Inductive prim (A : Type) := PRIMITIVE_RETURN (a : A) | PRIMITIVE_ERROR (e : prim_error).
Arguments PRIMITIVE_RETURN {A}.
Arguments PRIMITIVE_ERROR {A}.

Definition pbind {A B} (p : prim A) (f : A -> prim B) : prim B :=
  match p with PRIMITIVE_RETURN a => f a | PRIMITIVE_ERROR e => PRIMITIVE_ERROR e end.

Notation "'let!' x := e 'in' k" := (pbind e (fun x => k))
  (at level 10, x pattern, e at level 200, k at level 200) : Z_scope.

(** A computation that stops at a failed assertion. *)
Definition lift {A} (o : option A) : prim A :=
  match o with Some a => PRIMITIVE_RETURN a | None => PRIMITIVE_ERROR error_external_return end.

(** ** Facts *)

Definition fixnum_range (n : Z) : Prop := SMALLEST_FIXNUM <= n <= BIGGEST_FIXNUM.

(** The fixnum object of [n]. *)
Definition fixnum (n : Z) : Z := TC_FIXNUM * 2 ^ 58 + n mod 2 ^ 58.

Lemma MAKE_OBJECT_add type datum :
  0 <= type < 64 -> 0 <= datum < 2 ^ 58 -> MAKE_OBJECT type datum = type * 2 ^ 58 + datum.
Proof.
  intros Ht Hd. unfold MAKE_OBJECT. rewrite ulong_small by (rewrite Z.shiftl_mul_pow2 by lia; lia).
  apply shiftl_lor_add; lia.
Qed.

Lemma OBJECT_DATUM_mod o : OBJECT_DATUM o = o mod 2 ^ 58.
Proof. apply (land_mask o 58). lia. Qed.

Lemma OBJECT_TYPE_div o : OBJECT_TYPE o = o / 2 ^ 58.
Proof. apply shiftr_div. lia. Qed.

(** The parts of an object are the ones it was made of. *)
Lemma MAKE_OBJECT_parts type datum :
  0 <= type < 64 -> 0 <= datum < 2 ^ 58 ->
  OBJECT_TYPE (MAKE_OBJECT type datum) = type /\ OBJECT_DATUM (MAKE_OBJECT type datum) = datum.
Proof.
  intros Ht Hd. rewrite MAKE_OBJECT_add, OBJECT_TYPE_div, OBJECT_DATUM_mod by auto. split.
  - symmetry. apply (Z.div_unique_pos _ _ _ datum); lia.
  - symmetry. apply (Z.mod_unique_pos _ _ type); lia.
Qed.

Lemma mod58 n : 0 <= n mod 2 ^ 58 < 2 ^ 58.
Proof. apply Z.mod_pos_bound. lia. Qed.

Lemma LONG_TO_FIXNUM_fixnum n : LONG_TO_FIXNUM n = fixnum n.
Proof.
  unfold LONG_TO_FIXNUM. change DATUM_MASK with (2 ^ 58 - 1). rewrite land_mask by lia.
  rewrite MAKE_OBJECT_add by (try apply mod58; lia). unfold fixnum. f_equal.
  unfold ulong. change 18446744073709551616 with (2 ^ 58 * 64).
  rewrite Z.rem_mul_r by lia. rewrite Z.add_mod, Z.mod_mod by lia.
  rewrite (Z.mul_comm (2 ^ 58)), Z_mod_mult, Z.add_0_r, Z.mod_mod by lia. reflexivity.
Qed.

Lemma fixnum_P n : FIXNUM_P (fixnum n) = true.
Proof.
  unfold FIXNUM_P, fixnum. rewrite OBJECT_TYPE_div. apply Z.eqb_eq. symmetry.
  apply (Z.div_unique_pos _ _ _ (n mod 2 ^ 58)); [apply mod58 | ring].
Qed.

Lemma fixnum_datum n : OBJECT_DATUM (fixnum n) = n mod 2 ^ 58.
Proof.
  rewrite OBJECT_DATUM_mod. unfold fixnum. symmetry.
  apply (Z.mod_unique_pos _ _ TC_FIXNUM); [apply mod58 | ring].
Qed.

(** The datum of a fixnum, by sign. *)
Lemma fixnum_mod n :
  fixnum_range n -> n mod 2 ^ 58 = if n <? 0 then n + 2 ^ 58 else n.
Proof.
  intros H. red in H. destruct (Z.ltb_spec n 0).
  - symmetry. apply (Z.mod_unique_pos _ _ (-1)); lia.
  - apply Z.mod_small. lia.
Qed.

Lemma testbit57 d : 0 <= d < 2 ^ 58 -> Z.testbit d 57 = (2 ^ 57 <=? d).
Proof.
  intros Hd. rewrite Z.testbit_eqb by lia.
  pose proof (Z.div_mod d (2 ^ 57) ltac:(lia)). pose proof (Z.mod_pos_bound d (2 ^ 57) ltac:(lia)).
  destruct (Z.leb_spec (2 ^ 57) d).
  - replace (d / 2 ^ 57) with 1; [reflexivity |]. apply (Z.div_unique_pos _ _ _ (d - 2 ^ 57)); lia.
  - rewrite Z.div_small by lia. reflexivity.
Qed.

Lemma land_sign_bit w : (w & FIXNUM_SIGN_BIT) = if Z.testbit w 57 then FIXNUM_SIGN_BIT else 0.
Proof.
  change FIXNUM_SIGN_BIT with (2 ^ 57). apply Z.bits_inj'. intros i Hi. autorewrite with zbits.
  destruct (Z.eqb_spec i 57) as [-> | N].
  - rewrite Z.pow2_bits_true by lia. rewrite andb_true_r.
    destruct (Z.testbit w 57); [now rewrite Z.pow2_bits_true by lia | now rewrite Z.bits_0].
  - rewrite Z.pow2_bits_false by lia. rewrite andb_false_r.
    destruct (Z.testbit w 57); [now rewrite Z.pow2_bits_false by lia | now rewrite Z.bits_0].
Qed.

Lemma fixnum_testbit n : fixnum_range n -> Z.testbit (fixnum n) 57 = (n <? 0).
Proof.
  intros H. unfold fixnum. rewrite Z.add_comm, Z.mul_comm.
  rewrite testbit_split by (try apply mod58; lia).
  change (57 <? 58) with true. cbv iota. rewrite testbit57 by apply mod58.
  rewrite fixnum_mod by exact H. red in H.
  destruct (Z.ltb_spec n 0); destruct (Z.leb_spec (2 ^ 57) (if n <? 0 then n + 2 ^ 58 else n)); 
    destruct (Z.ltb_spec n 0); auto; lia.
Qed.

Lemma fixnum_NEGATIVE_P n : fixnum_range n -> FIXNUM_NEGATIVE_P (fixnum n) = (n <? 0).
Proof.
  intros H. unfold FIXNUM_NEGATIVE_P. rewrite land_sign_bit, fixnum_testbit by exact H.
  now destruct (n <? 0).
Qed.

Lemma fixnum_ZERO_P n : fixnum_range n -> FIXNUM_ZERO_P (fixnum n) = (n =? 0).
Proof.
  intros H. unfold FIXNUM_ZERO_P. rewrite fixnum_datum, fixnum_mod by exact H. red in H.
  destruct (Z.ltb_spec n 0), (Z.eqb_spec n 0); auto; apply Z.eqb_neq || apply Z.eqb_eq; lia.
Qed.

Lemma fixnum_POSITIVE_P n : fixnum_range n -> FIXNUM_POSITIVE_P (fixnum n) = (0 <? n).
Proof.
  intros H. unfold FIXNUM_POSITIVE_P. rewrite fixnum_ZERO_P, fixnum_NEGATIVE_P by exact H.
  destruct (Z.eqb_spec n 0), (Z.ltb_spec n 0), (Z.ltb_spec 0 n); auto; lia.
Qed.

Lemma fixnum_TO_LONG n : fixnum_range n -> FIXNUM_TO_LONG (fixnum n) = n.
Proof.
  intros H. unfold FIXNUM_TO_LONG.
  assert (E : fixnum n ^^ FIXNUM_SIGN_BIT = TC_FIXNUM * 2 ^ 58 + (n + 2 ^ 57)).
  { change FIXNUM_SIGN_BIT with (2 ^ 57 + 2 ^ 58 * 0). unfold fixnum.
    rewrite Z.add_comm, (Z.mul_comm TC_FIXNUM), lxor_split by (try apply mod58; lia).
    rewrite Z.lxor_0_r, (fixnum_mod n H). red in H.
    assert (X : forall d, 0 <= d < 2 ^ 57 -> Z.lxor d (2 ^ 57) = d + 2 ^ 57
      /\ Z.lxor (d + 2 ^ 57) (2 ^ 57) = d).
    { intros d Hd. split.
      - rewrite <- Z.add_nocarry_lxor; [reflexivity |]. change (2 ^ 57) with FIXNUM_SIGN_BIT.
        rewrite land_sign_bit, (testbit_high d 57) by lia. reflexivity.
      - replace (d + 2 ^ 57) with (d + 2 ^ 57 * 1) by lia.
        replace (2 ^ 57) with (0 + 2 ^ 57 * 1) at 2 by lia.
        rewrite lxor_split, Z.lxor_nilpotent, Z.lxor_0_r by lia. lia. }
    destruct (Z.ltb_spec n 0).
    - replace (n + 2 ^ 58) with ((n + 2 ^ 57) + 2 ^ 57) by lia.
      rewrite (proj2 (X (n + 2 ^ 57) ltac:(lia))). lia.
    - rewrite (proj1 (X n ltac:(lia))). lia. }
  rewrite E. change ((TC_FIXNUM << DATUM_LENGTH)%UL .| FIXNUM_SIGN_BIT) with (TC_FIXNUM * 2 ^ 58 + 2 ^ 57).
  replace (TC_FIXNUM * 2 ^ 58 + (n + 2 ^ 57) - (TC_FIXNUM * 2 ^ 58 + 2 ^ 57)) with n by lia.
  red in H. unfold slong, ulong.
  rewrite Z.add_mod_idemp_l, Z.mod_small by lia. lia.
Qed.

(** Every fixnum object is the object of the integer it holds. *)
Lemma fixnum_inv w : FIXNUM_P w = true ->
  exists n, fixnum_range n /\ w = fixnum n /\ FIXNUM_TO_LONG w = n.
Proof.
  unfold FIXNUM_P. rewrite OBJECT_TYPE_div. intros H%Z.eqb_eq.
  pose proof (Z.div_mod w (2 ^ 58) ltac:(lia)). pose proof (mod58 w).
  set (d := w mod 2 ^ 58) in *. set (n := if d <? 2 ^ 57 then d else d - 2 ^ 58).
  assert (R : fixnum_range n) by (unfold fixnum_range; subst n; destruct (Z.ltb_spec d (2 ^ 57)); lia).
  assert (E : w = fixnum n).
  { unfold fixnum. rewrite fixnum_mod by exact R. subst n.
    destruct (Z.ltb_spec d (2 ^ 57)); [destruct (Z.ltb_spec d 0) | destruct (Z.ltb_spec (d - 2 ^ 58) 0)]; lia. }
  exists n. repeat split; try apply R; auto. rewrite E. now apply fixnum_TO_LONG.
Qed.

Lemma land_SIGN_MASK u : is_ulong u -> u & SIGN_MASK = (u / 2 ^ 57) * 2 ^ 57.
Proof.
  intros Hu. red in Hu.
  assert (E : SIGN_MASK = 0 + 2 ^ 57 * (2 ^ 7 - 1)) by reflexivity. rewrite E.
  rewrite (Z.div_mod u (2 ^ 57)) at 1 by lia. rewrite Z.add_comm.
  rewrite land_split, Z.land_0_r, land_mask by (try apply Z.mod_pos_bound; lia).
  rewrite Z.mod_small; [lia |].
  split; [apply Z.div_pos | apply Z.div_lt_upper_bound]; lia.
Qed.

Lemma LONG_TO_FIXNUM_P_range n :
  is_slong n -> LONG_TO_FIXNUM_P n = (SMALLEST_FIXNUM <=? n) && (n <=? BIGGEST_FIXNUM).
Proof.
  intros Hn. red in Hn. unfold LONG_TO_FIXNUM_P. rewrite !land_SIGN_MASK by apply ulong_range.
  assert (U : ulong n = if n <? 0 then n + 18446744073709551616 else n).
  { unfold ulong. destruct (Z.ltb_spec n 0); symmetry;
      [apply (Z.mod_unique_pos _ _ (-1)) | apply (Z.mod_unique_pos _ _ 0)]; lia. }
  rewrite U. set (u := if n <? 0 then _ else n) in *.
  pose proof (Z.div_mod u (2 ^ 57) ltac:(lia)). pose proof (Z.mod_pos_bound u (2 ^ 57) ltac:(lia)).
  subst u. destruct (Z.ltb_spec n 0), (Z.leb_spec SMALLEST_FIXNUM n), (Z.leb_spec n BIGGEST_FIXNUM); lia.
Qed.

Lemma LONG_TO_FIXNUM_P_true n : is_slong n -> LONG_TO_FIXNUM_P n = true <-> fixnum_range n.
Proof.
  intros Hn. rewrite LONG_TO_FIXNUM_P_range by exact Hn. unfold fixnum_range.
  rewrite andb_true_iff, !Z.leb_le. reflexivity.
Qed.

(** ** Properties *)

(** Fixnum objects: [LONG_TO_FIXNUM] followed by [FIXNUM_TO_LONG] is the
    identity exactly on the 58-bit integers, which [LONG_TO_FIXNUM_P]
    recognizes; the object carries the fixnum type code, its sign tests agree
    with the integer, and every object with that type code arises this way. *)
Theorem fixnum_encoding :
  (forall n, is_slong n -> (LONG_TO_FIXNUM_P n = true <-> FIXNUM_TO_LONG (LONG_TO_FIXNUM n) = n))
  /\ (forall n, fixnum_range n ->
        OBJECT_TYPE (LONG_TO_FIXNUM n) = TC_FIXNUM
        /\ FIXNUM_ZERO_P (LONG_TO_FIXNUM n) = (n =? 0)
        /\ FIXNUM_NEGATIVE_P (LONG_TO_FIXNUM n) = (n <? 0)
        /\ FIXNUM_POSITIVE_P (LONG_TO_FIXNUM n) = (0 <? n))
  /\ (forall w, FIXNUM_P w = true ->
        fixnum_range (FIXNUM_TO_LONG w) /\ LONG_TO_FIXNUM (FIXNUM_TO_LONG w) = w).
Proof.
  assert (Inv : forall w, FIXNUM_P w = true ->
    fixnum_range (FIXNUM_TO_LONG w) /\ LONG_TO_FIXNUM (FIXNUM_TO_LONG w) = w).
  { intros w H. destruct (fixnum_inv w H) as (n & R & -> & ->).
    split; [exact R | apply LONG_TO_FIXNUM_fixnum]. }
  split; [| split; [| exact Inv]].
  - intros n Hn. rewrite LONG_TO_FIXNUM_P_true, LONG_TO_FIXNUM_fixnum by exact Hn.
    split; [apply fixnum_TO_LONG |]. intros E. rewrite <- E. apply Inv, fixnum_P.
  - intros n R. rewrite LONG_TO_FIXNUM_fixnum.
    rewrite fixnum_ZERO_P, fixnum_NEGATIVE_P, fixnum_POSITIVE_P by exact R.
    split; [apply Z.eqb_eq, fixnum_P | auto].
Qed.
