(* ===== verification/Fixnum.v ===== *)
(** * Fixnum primitives (src/src/microcode/fixnum.c, fixnum.h, mul.c)

    Arithmetic on fixnums with overflow detection, division truncating
    toward zero, the greatest common divisor, and the bitwise operations on
    58-bit datums.  A primitive takes the argument objects as words; where C
    leaves the order of evaluation open, arguments are checked from left to
    right.  A pair that [cons] returns is a pair of objects. *)

From Stdlib Require Import ZArith List Lia Bool.
From S2P Require Import Prelude Object.
Import ListNotations.

(** ** Macros of fixnum.h *)

Notation MAX_BIT_SHIFT := DATUM_LENGTH.

Definition RIGHT_SHIFT_UNSIGNED (source number : Z) : Z :=
  if MAX_BIT_SHIFT <? number then 0 else (ulong source & DATUM_MASK) >>> number.

Definition LEFT_SHIFT (source number : Z) : Z :=
  if MAX_BIT_SHIFT <? number then 0 else (source << number)%UL.

Definition FIXNUM_LSH (source number : Z) : Z :=
  if 0 <=? number then LEFT_SHIFT source number
  else RIGHT_SHIFT_UNSIGNED source (- number)%SL.

Definition FIXNUM_REMAINDER (source1 source2 : Z) : Z :=
  if 0 <? source2 then
    if 0 <=? source1 then Z.rem source1 source2
    else (- Z.rem (- source1)%SL source2)%SL
  else
    if 0 <=? source1 then Z.rem source1 (- source2)%SL
    else (- Z.rem (- source1)%SL (- source2)%SL)%SL.

Definition FIXNUM_QUOTIENT (source1 source2 : Z) : Z :=
  if 0 <? source2 then
    if 0 <=? source1 then Z.quot source1 source2
    else (- Z.quot (- source1)%SL source2)%SL
  else
    if 0 <=? source1 then (- Z.quot source1 (- source2)%SL)%SL
    else Z.quot (- source1)%SL (- source2)%SL.

(** ** Multiplication (mul.c, the portable version) *)

Notation HALF_WORD_SIZE := 32.
Notation HALF_WORD_MASK := 4294967295.
(** [ONE << ((DATUM_LENGTH - 1) - HALF_WORD_SIZE)] *)
Notation MAX_MIDDLE := 33554432.
(** [ONE << DATUM_LENGTH] *)
Notation MAX_FIXNUM := 288230376151711744.

Definition ABS (x : Z) : Z := if x <? 0 then (- x)%SL else x.

(** The product object, or [SHARP_F]. *)
Definition Mul (Arg1 Arg2 : Z) : Z :=
  let A := FIXNUM_TO_LONG Arg1 in
  let B := FIXNUM_TO_LONG Arg2 in
  let Sign := Bool.eqb (A <? 0) (B <? 0) in
  let A := ABS A in
  let B := ABS B in
  let Hi_A := (A >>> HALF_WORD_SIZE) & HALF_WORD_MASK in
  let Hi_B := (B >>> HALF_WORD_SIZE) & HALF_WORD_MASK in
  if (0 <? Hi_A) && (0 <? Hi_B) then SHARP_F
  else
    let Lo_A := A & HALF_WORD_MASK in
    let Lo_B := B & HALF_WORD_MASK in
    let Lo_C := (Lo_A * Lo_B)%UL in
    if FIXNUM_SIGN_BIT <=? Lo_C then SHARP_F
    else
      let Middle_C := ((Lo_A * Hi_B)%UL + (Hi_A * Lo_B)%UL)%UL in
      if MAX_MIDDLE <=? Middle_C then SHARP_F
      else
        let C := slong (Lo_C + (Middle_C << HALF_WORD_SIZE)%UL)%UL in
        if LONG_TO_FIXNUM_P C then
          if Sign || (C =? 0) then LONG_TO_UNSIGNED_FIXNUM C
          else LONG_TO_UNSIGNED_FIXNUM (MAX_FIXNUM - C)%UL
        else SHARP_F.

(** ** Primitives *)

Definition arg_fixnum (n argument : Z) : prim Z :=
  if negb (FIXNUM_P argument) then PRIMITIVE_ERROR (error_wrong_type_arg n)
  else PRIMITIVE_RETURN (FIXNUM_TO_LONG argument).

Definition arg_unsigned_fixnum (n argument : Z) : prim Z :=
  if negb (FIXNUM_P argument) then PRIMITIVE_ERROR (error_wrong_type_arg n)
  else PRIMITIVE_RETURN (OBJECT_DATUM argument).

Definition BOOLEAN_RESULT (expr : bool) : prim Z := PRIMITIVE_RETURN (BOOLEAN_TO_OBJECT expr).

Definition Prim_zero_fixnum_p (arg1 : Z) : prim Z := BOOLEAN_RESULT (FIXNUM_P arg1).
Definition Prim_index_fixnum_p (arg1 : Z) : prim Z := BOOLEAN_RESULT (UNSIGNED_FIXNUM_P arg1).

Definition Prim_zero_fixnum (arg1 : Z) : prim Z :=
  let! x := arg_fixnum 1 arg1 in BOOLEAN_RESULT (x =? 0).
Definition Prim_negative_fixnum (arg1 : Z) : prim Z :=
  let! x := arg_fixnum 1 arg1 in BOOLEAN_RESULT (x <? 0).
Definition Prim_positive_fixnum (arg1 : Z) : prim Z :=
  let! x := arg_fixnum 1 arg1 in BOOLEAN_RESULT (0 <? x).
Definition Prim_equal_fixnum (arg1 arg2 : Z) : prim Z :=
  let! x := arg_fixnum 1 arg1 in let! y := arg_fixnum 2 arg2 in BOOLEAN_RESULT (x =? y).
Definition Prim_less_fixnum (arg1 arg2 : Z) : prim Z :=
  let! x := arg_fixnum 1 arg1 in let! y := arg_fixnum 2 arg2 in BOOLEAN_RESULT (x <? y).
Definition Prim_greater_fixnum (arg1 arg2 : Z) : prim Z :=
  let! x := arg_fixnum 1 arg1 in let! y := arg_fixnum 2 arg2 in BOOLEAN_RESULT (y <? x).

Definition FIXNUM_RESULT (result : Z) : prim Z :=
  if negb (LONG_TO_FIXNUM_P result) then PRIMITIVE_ERROR (error_bad_range_arg 1)
  else PRIMITIVE_RETURN (LONG_TO_FIXNUM result).

Definition Prim_one_plus_fixnum (arg1 : Z) : prim Z :=
  let! x := arg_fixnum 1 arg1 in FIXNUM_RESULT (x + 1)%SL.
Definition Prim_m_1_plus_fixnum (arg1 : Z) : prim Z :=
  let! x := arg_fixnum 1 arg1 in FIXNUM_RESULT (x - 1)%SL.
Definition Prim_plus_fixnum (arg1 arg2 : Z) : prim Z :=
  let! x := arg_fixnum 1 arg1 in let! y := arg_fixnum 2 arg2 in FIXNUM_RESULT (x + y)%SL.
Definition Prim_minus_fixnum (arg1 arg2 : Z) : prim Z :=
  let! x := arg_fixnum 1 arg1 in let! y := arg_fixnum 2 arg2 in FIXNUM_RESULT (x - y)%SL.
Definition Prim_fixnum_negate (arg1 : Z) : prim Z :=
  let! x := arg_fixnum 1 arg1 in FIXNUM_RESULT (- x)%SL.

Definition Prim_multiply_fixnum (arg1 arg2 : Z) : prim Z :=
  if negb (FIXNUM_P arg1) then PRIMITIVE_ERROR (error_wrong_type_arg 1)
  else if negb (FIXNUM_P arg2) then PRIMITIVE_ERROR (error_wrong_type_arg 2)
  else
    let result := Mul arg1 arg2 in
    if result =? SHARP_F then PRIMITIVE_ERROR (error_bad_range_arg 1)
    else PRIMITIVE_RETURN result.

(** The sign analysis around [/] and [%]: quotient and remainder. *)
Definition divide_longs (numerator denominator : Z) : Z * Z :=
  if numerator <? 0 then
    let numerator := (- numerator)%SL in
    let '(denominator, quotient) :=
      if denominator <? 0 then
        let denominator := (- denominator)%SL in
        (denominator, Z.quot numerator denominator)
      else (denominator, (- Z.quot numerator denominator)%SL) in
    (quotient, (- Z.rem numerator denominator)%SL)
  else
    let '(denominator, quotient) :=
      if denominator <? 0 then
        let denominator := (- denominator)%SL in
        (denominator, (- Z.quot numerator denominator)%SL)
      else (denominator, Z.quot numerator denominator) in
    (quotient, Z.rem numerator denominator).

Definition Prim_divide_fixnum (arg1 arg2 : Z) : prim (Z * Z) :=
  let! numerator := arg_fixnum 1 arg1 in
  let! denominator := arg_fixnum 2 arg2 in
  if denominator =? 0 then PRIMITIVE_ERROR (error_bad_range_arg 2)
  else
    let '(quotient, remainder) := divide_longs numerator denominator in
    if negb (LONG_TO_FIXNUM_P quotient) then PRIMITIVE_ERROR (error_bad_range_arg 1)
    else PRIMITIVE_RETURN (LONG_TO_FIXNUM quotient, LONG_TO_FIXNUM remainder).

Definition Prim_fixnum_quotient (arg1 arg2 : Z) : prim Z :=
  let! numerator := arg_fixnum 1 arg1 in
  let! denominator := arg_fixnum 2 arg2 in
  if denominator =? 0 then PRIMITIVE_ERROR (error_bad_range_arg 2)
  else FIXNUM_RESULT (FIXNUM_QUOTIENT numerator denominator).

Definition Prim_fixnum_remainder (arg1 arg2 : Z) : prim Z :=
  let! numerator := arg_fixnum 1 arg1 in
  let! denominator := arg_fixnum 2 arg2 in
  if denominator =? 0 then PRIMITIVE_ERROR (error_bad_range_arg 2)
  else FIXNUM_RESULT (FIXNUM_REMAINDER numerator denominator).

(** The Euclidean loop, at most [fuel] tests. *)
Fixpoint gcd_loop (fuel : nat) (x y : Z) : option Z :=
  match fuel with
  | O => None
  | S fuel => if negb (y =? 0) then gcd_loop fuel y (Z.rem x y) else Some x
  end.

(** Enough for any two fixnums. *)
Notation gcd_fuel := 117%nat.

Definition Prim_gcd_fixnum (arg1 arg2 : Z) : option (prim Z) :=
  match arg_fixnum 1 arg1, arg_fixnum 2 arg2 with
  | PRIMITIVE_ERROR e, _ => Some (PRIMITIVE_ERROR e)
  | _, PRIMITIVE_ERROR e => Some (PRIMITIVE_ERROR e)
  | PRIMITIVE_RETURN x, PRIMITIVE_RETURN y =>
      let x := if x <? 0 then (- x)%SL else x in
      let y := if y <? 0 then (- y)%SL else y in
      let* x := gcd_loop gcd_fuel x y in
      Some (PRIMITIVE_RETURN (LONG_TO_FIXNUM x))
  end.

Definition LOGICAL_RESULT (fixnum : Z) : prim Z :=
  PRIMITIVE_RETURN (MAKE_OBJECT TC_FIXNUM (fixnum & DATUM_MASK)).

Definition BINARY_LOGICAL_OP (operation : Z -> Z -> Z) (arg1 arg2 : Z) : prim Z :=
  let! x := arg_unsigned_fixnum 1 arg1 in
  let! y := arg_unsigned_fixnum 2 arg2 in
  LOGICAL_RESULT (operation x y).

Definition Prim_fixnum_andc := BINARY_LOGICAL_OP Z.ldiff.
Definition Prim_fixnum_and := BINARY_LOGICAL_OP Z.land.
Definition Prim_fixnum_or := BINARY_LOGICAL_OP Z.lor.
Definition Prim_fixnum_xor := BINARY_LOGICAL_OP Z.lxor.

Definition Prim_fixnum_not (arg1 : Z) : prim Z :=
  let! x := arg_unsigned_fixnum 1 arg1 in LOGICAL_RESULT (ulong (Z.lnot x)).

Definition Prim_fixnum_lsh (arg1 arg2 : Z) : prim Z :=
  let! x := arg_unsigned_fixnum 1 arg1 in
  let! y := arg_fixnum 2 arg2 in
  LOGICAL_RESULT (FIXNUM_LSH x y).

(** ** Multiplication *)

Lemma ABS_abs a : fixnum_range a -> ABS a = Z.abs a.
Proof.
  intros H. red in H. unfold ABS. destruct (Z.ltb_spec a 0); unwrap; lia.
Qed.

Lemma half_word z :
  0 <= z <= 2 ^ 57 ->
  (z >>> HALF_WORD_SIZE) & HALF_WORD_MASK = z / 2 ^ 32
  /\ z & HALF_WORD_MASK = z mod 2 ^ 32
  /\ 0 <= z / 2 ^ 32 <= 2 ^ 25 /\ 0 <= z mod 2 ^ 32 < 2 ^ 32
  /\ z = 2 ^ 32 * (z / 2 ^ 32) + z mod 2 ^ 32.
Proof.
  intros Hz. change HALF_WORD_MASK with (2 ^ 32 - 1). rewrite !land_mask, shiftr_div by lia.
  pose proof (Z.div_mod z (2 ^ 32) ltac:(lia)). pose proof (Z.mod_pos_bound z (2 ^ 32) ltac:(lia)).
  rewrite (Z.mod_small (z / 2 ^ 32)) by lia. repeat split; lia.
Qed.

Lemma LONG_TO_UNSIGNED_FIXNUM_small n :
  0 <= n < 2 ^ 58 -> LONG_TO_UNSIGNED_FIXNUM n = fixnum n.
Proof.
  intros Hn. unfold LONG_TO_UNSIGNED_FIXNUM. rewrite ulong_small, MAKE_OBJECT_add by lia.
  unfold fixnum. now rewrite Z.mod_small by lia.
Qed.

(** The last step: the sign is put on a product that fits. *)
Lemma signed_product a b :
  fixnum_range a -> fixnum_range b -> Z.abs a * Z.abs b <= BIGGEST_FIXNUM ->
  (if Bool.eqb (a <? 0) (b <? 0) || (Z.abs a * Z.abs b =? 0)
   then LONG_TO_UNSIGNED_FIXNUM (Z.abs a * Z.abs b)
   else LONG_TO_UNSIGNED_FIXNUM (MAX_FIXNUM - Z.abs a * Z.abs b)%UL) = fixnum (a * b).
Proof.
  intros Ha Hb H. rewrite <- Z.abs_mul in *. pose proof (Z.abs_nonneg (a * b)).
  assert (S : a * b = if Bool.eqb (a <? 0) (b <? 0) then Z.abs (a * b) else - Z.abs (a * b)).
  { rewrite Z.abs_mul. destruct (Z.ltb_spec a 0), (Z.ltb_spec b 0); cbn [Bool.eqb]; nia. }
  set (p := Z.abs (a * b)) in *. rewrite S. clear S. unwrap.
  destruct (Bool.eqb (a <? 0) (b <? 0)); cbn [orb].
  - apply LONG_TO_UNSIGNED_FIXNUM_small. lia.
  - destruct (Z.eqb_spec p 0) as [E | N].
    + rewrite LONG_TO_UNSIGNED_FIXNUM_small by lia. now rewrite E.
    + rewrite LONG_TO_UNSIGNED_FIXNUM_small by lia. unfold fixnum. f_equal.
      replace (- p) with (MAX_FIXNUM - p + (-1) * 2 ^ 58) by lia. now rewrite Z.mod_add by lia.
Qed.

(** [Mul] gives the product when its magnitude fits in 57 bits, [SHARP_F]
    otherwise. *)
Lemma Mul_spec a b :
  fixnum_range a -> fixnum_range b ->
  Mul (fixnum a) (fixnum b)
  = if Z.abs (a * b) <=? BIGGEST_FIXNUM then fixnum (a * b) else SHARP_F.
Proof.
  intros Ha Hb. unfold Mul. rewrite !fixnum_TO_LONG, !ABS_abs by assumption. cbv zeta.
  rewrite Z.abs_mul. pose proof (signed_product a b Ha Hb) as SP.
  red in Ha, Hb.
  destruct (half_word (Z.abs a)) as (-> & -> & Hha & Hla & Ea); [lia |].
  destruct (half_word (Z.abs b)) as (-> & -> & Hhb & Hlb & Eb); [lia |].
  set (x := Z.abs a) in *. set (y := Z.abs b) in *.
  set (xh := x / 2 ^ 32) in *. set (xl := x mod 2 ^ 32) in *.
  set (yh := y / 2 ^ 32) in *. set (yl := y mod 2 ^ 32) in *.
  assert (P : x * y = xl * yl + (xl * yh + xh * yl) * 2 ^ 32 + xh * yh * 2 ^ 64) by nia.
  destruct ((0 <? xh) && (0 <? yh))%bool eqn:T.
  { apply andb_true_iff in T as [T1%Z.ltb_lt T2%Z.ltb_lt].
    destruct (Z.leb_spec (x * y) BIGGEST_FIXNUM); [nia | reflexivity]. }
  assert (Z0 : xh * yh = 0) 
    by (apply andb_false_iff in T as [T%Z.ltb_ge | T%Z.ltb_ge]; apply Z.eq_mul_0; lia).
  pose proof (mul_range xl yl (2 ^ 32) (2 ^ 32) Hla Hlb).
  pose proof (mul_range xl yh (2 ^ 32) (2 ^ 26) Hla ltac:(lia)).
  pose proof (mul_range xh yl (2 ^ 26) (2 ^ 32) ltac:(lia) Hlb).
  rewrite Z0 in P. rewrite (ulong_small (xl * yl)) by lia.
  destruct (Z.leb_spec FIXNUM_SIGN_BIT (xl * yl)).
  { destruct (Z.leb_spec (x * y) BIGGEST_FIXNUM); [lia | reflexivity]. }
  rewrite (ulong_small (xl * yh)), (ulong_small (xh * yl)), (ulong_small (_ + _)) by lia.
  destruct (Z.leb_spec MAX_MIDDLE (xl * yh + xh * yl)).
  { destruct (Z.leb_spec (x * y) BIGGEST_FIXNUM); [lia | reflexivity]. }
  rewrite Z.shiftl_mul_pow2, (ulong_small (_ * 2 ^ 32)), ulong_small, slong_small by lia.
  replace (xl * yl + (xl * yh + xh * yl) * 2 ^ 32) with (x * y) by lia.
  rewrite LONG_TO_FIXNUM_P_range by (red; lia).
  destruct (Z.leb_spec SMALLEST_FIXNUM (x * y)); [| lia]. cbn [andb].
  destruct (Z.leb_spec (x * y) BIGGEST_FIXNUM); [auto | reflexivity].
Qed.

(** ** Arithmetic *)

Lemma arg_fixnum_fixnum i n : fixnum_range n -> arg_fixnum i (fixnum n) = PRIMITIVE_RETURN n.
Proof. intros H. unfold arg_fixnum. now rewrite fixnum_P, fixnum_TO_LONG. Qed.

Lemma arg_unsigned_fixnum_fixnum i n :
  arg_unsigned_fixnum i (fixnum n) = PRIMITIVE_RETURN (n mod 2 ^ 58).
Proof. unfold arg_unsigned_fixnum. now rewrite fixnum_P, fixnum_datum. Qed.

(** What a primitive that checks its result returns for the integer [z]. *)
Definition checked (z : Z) : prim Z :=
  if (SMALLEST_FIXNUM <=? z) && (z <=? BIGGEST_FIXNUM) then PRIMITIVE_RETURN (fixnum z)
  else PRIMITIVE_ERROR (error_bad_range_arg 1).

Lemma FIXNUM_RESULT_checked z : is_slong z -> FIXNUM_RESULT z = checked z.
Proof.
  intros H. unfold FIXNUM_RESULT, checked. rewrite LONG_TO_FIXNUM_P_range by exact H.
  rewrite LONG_TO_FIXNUM_fixnum. now destruct (_ && _)%bool.
Qed.

Lemma quot_rem_bound a b :
  fixnum_range a -> b <> 0 -> Z.abs (Z.quot a b) <= Z.abs a /\ Z.abs (Z.rem a b) <= Z.abs a.
Proof.
  intros Ha Nb. pose proof (Z.quot_rem' a b).
  assert (Q : Z.abs (Z.quot a b) <= Z.abs a).
  { rewrite <- Z.quot_abs by exact Nb. apply Z.quot_le_upper_bound; [lia |].
    pose proof (Z.abs_nonneg a). nia. }
  split; [exact Q |]. rewrite <- Z.rem_abs by exact Nb.
  pose proof (Z.rem_le (Z.abs a) (Z.abs b) (Z.abs_nonneg a) ltac:(lia)).
  pose proof (Z.rem_nonneg (Z.abs a) (Z.abs b) ltac:(lia) (Z.abs_nonneg a)). lia.
Qed.

Ltac quot_signs :=
  rewrite ?Z.quot_opp_l, ?Z.quot_opp_r, ?Z.rem_opp_l, ?Z.rem_opp_r, ?Z.opp_involutive by lia.

Lemma FIXNUM_QUOTIENT_quot a b :
  fixnum_range a -> fixnum_range b -> b <> 0 -> FIXNUM_QUOTIENT a b = Z.quot a b.
Proof.
  intros Ha Hb Nb. pose proof (quot_rem_bound a b Ha Nb). red in Ha, Hb. unfold FIXNUM_QUOTIENT.
  destruct (Z.ltb_spec 0 b), (Z.leb_spec 0 a); unwrap; quot_signs; unwrap; quot_signs; lia.
Qed.

Lemma FIXNUM_REMAINDER_rem a b :
  fixnum_range a -> fixnum_range b -> b <> 0 -> FIXNUM_REMAINDER a b = Z.rem a b.
Proof.
  intros Ha Hb Nb. pose proof (quot_rem_bound a b Ha Nb). red in Ha, Hb. unfold FIXNUM_REMAINDER.
  destruct (Z.ltb_spec 0 b), (Z.leb_spec 0 a); unwrap; quot_signs; unwrap; quot_signs; lia.
Qed.

Lemma divide_longs_spec a b :
  fixnum_range a -> fixnum_range b -> b <> 0 -> divide_longs a b = (Z.quot a b, Z.rem a b).
Proof.
  intros Ha Hb Nb. pose proof (quot_rem_bound a b Ha Nb). red in Ha, Hb. unfold divide_longs.
  destruct (Z.ltb_spec a 0), (Z.ltb_spec b 0); unwrap; quot_signs; unwrap; quot_signs; f_equal; lia.
Qed.

(** ** Greatest common divisor *)

(** Two rounds halve [y]. *)
Lemma gcd_loop_spec : forall n x y,
  0 <= x -> 0 <= y < 2 ^ Z.of_nat n -> gcd_loop (2 * n + 1) x y = Some (Z.gcd x y).
Proof.
  induction n as [|n IH]; intros x y Hx Hy.
  - assert (y = 0) as -> by (cbn in Hy; lia). cbn [Nat.mul Nat.add gcd_loop Z.eqb negb].
    rewrite Z.gcd_0_r, Z.abs_eq; auto.
  - replace (2 * S n + 1)%nat with (S (S (2 * n + 1))) by lia. cbn [gcd_loop].
    rewrite Nat2Z.inj_succ, Z.pow_succ_r in Hy by lia.
    destruct (Z.eqb_spec y 0) as [-> | Ny]; cbn [negb]; [rewrite Z.gcd_0_r, Z.abs_eq; auto |].
    rewrite Z.rem_mod_nonneg by lia. pose proof (Z.mod_pos_bound x y ltac:(lia)).
    assert (G : Z.gcd x y = Z.gcd y (x mod y)) by (rewrite (Z.gcd_comm y), Z.gcd_mod by lia; apply Z.gcd_comm).
    destruct (Z.eqb_spec (x mod y) 0) as [E | N]; cbn [negb].
    + rewrite G, E, Z.gcd_0_r, Z.abs_eq; auto; lia.
    + set (r := x mod y) in *. rewrite Z.rem_mod_nonneg by lia.
      pose proof (Z.mod_pos_bound y r ltac:(lia)). pose proof (Z.div_mod y r ltac:(lia)).
      assert (1 <= y / r) by (apply Z.div_le_lower_bound; lia).
      assert (2 * (y mod r) < y) by nia.
      rewrite IH by lia. f_equal. rewrite G, (Z.gcd_comm r), Z.gcd_mod by lia. apply Z.gcd_comm.
Qed.

(** The object [GCD-FIXNUM] returns; the greatest common divisor of the most
    negative fixnum with itself or with zero is no fixnum, and wraps. *)
Lemma gcd_fixnum_spec a b :
  fixnum_range a -> fixnum_range b ->
  Prim_gcd_fixnum (fixnum a) (fixnum b) = Some (PRIMITIVE_RETURN (fixnum (Z.gcd a b))).
Proof.
  intros Ha Hb. unfold Prim_gcd_fixnum. rewrite !arg_fixnum_fixnum by assumption.
  change (if a <? 0 then (- a)%SL else a) with (ABS a).
  change (if b <? 0 then (- b)%SL else b) with (ABS b). rewrite !ABS_abs by assumption.
  rewrite (gcd_loop_spec 58) by (red in Ha, Hb; cbn; lia).
  cbn [obind]. rewrite LONG_TO_FIXNUM_fixnum, Z.gcd_abs_l, Z.gcd_abs_r. reflexivity.
Qed.

(** ** Bitwise operations *)

Section Logical.
Variable op : Z -> Z -> Z.
Variable f : bool -> bool -> bool.
Hypothesis op_spec : forall a b i, Z.testbit (op a b) i = f (Z.testbit a i) (Z.testbit b i).
Hypothesis f00 : f false false = false.

Lemma logical_mod a b k :
  0 <= k -> op (a mod 2 ^ k) (b mod 2 ^ k) = op a b mod 2 ^ k.
Proof.
  intros Hk. apply Z.bits_inj'. intros i Hi. rewrite op_spec.
  destruct (Z.lt_ge_cases i k).
  - rewrite !Z.mod_pow2_bits_low by lia. now rewrite op_spec.
  - rewrite !Z.mod_pow2_bits_high by lia. exact f00.
Qed.

Lemma LOGICAL_RESULT_fixnum z : LOGICAL_RESULT z = PRIMITIVE_RETURN (fixnum z).
Proof.
  unfold LOGICAL_RESULT. change DATUM_MASK with (2 ^ 58 - 1). rewrite land_mask by lia.
  now rewrite MAKE_OBJECT_add by (try apply mod58; lia).
Qed.

Lemma fixnum_mod58 z : fixnum (z mod 2 ^ 58) = fixnum z.
Proof. unfold fixnum. now rewrite Z.mod_mod by lia. Qed.

Lemma BINARY_LOGICAL_OP_spec a b :
  BINARY_LOGICAL_OP op (fixnum a) (fixnum b) = PRIMITIVE_RETURN (fixnum (op a b)).
Proof.
  unfold BINARY_LOGICAL_OP. rewrite !arg_unsigned_fixnum_fixnum. cbn [pbind].
  rewrite LOGICAL_RESULT_fixnum, logical_mod, fixnum_mod58 by lia. reflexivity.
Qed.
End Logical.

Lemma Prim_fixnum_not_spec a :
  Prim_fixnum_not (fixnum a) = PRIMITIVE_RETURN (fixnum (Z.lnot a)).
Proof.
  unfold Prim_fixnum_not. rewrite arg_unsigned_fixnum_fixnum. cbn [pbind].
  rewrite LOGICAL_RESULT_fixnum. unfold fixnum. do 2 f_equal.
  unfold ulong. change 18446744073709551616 with (2 ^ 64). apply Z.bits_inj'. intros i Hi.
  destruct (Z.lt_ge_cases i 58).
  - rewrite !Z.mod_pow2_bits_low, !Z.lnot_spec, Z.mod_pow2_bits_low by lia. reflexivity.
  - now rewrite !Z.mod_pow2_bits_high by lia.
Qed.

Lemma Prim_fixnum_lsh_spec a y :
  fixnum_range y ->
  Prim_fixnum_lsh (fixnum a) (fixnum y)
  = PRIMITIVE_RETURN (fixnum (if 0 <=? y then Z.shiftl a y else Z.shiftr (a mod 2 ^ 58) (- y))).
Proof.
  intros Hy. unfold Prim_fixnum_lsh. rewrite arg_unsigned_fixnum_fixnum, arg_fixnum_fixnum by exact Hy.
  cbn [pbind]. rewrite LOGICAL_RESULT_fixnum. red in Hy. apply f_equal. unfold FIXNUM_LSH.
  destruct (Z.leb_spec 0 y).
  - unfold LEFT_SHIFT, fixnum. apply (f_equal (Z.add _)). rewrite !Z.shiftl_mul_pow2 by lia.
    destruct (Z.ltb_spec 58 y).
    + replace (2 ^ y) with (2 ^ (y - 58) * 2 ^ 58) by (rewrite <- Z.pow_add_r by lia; f_equal; lia).
      rewrite Z.mul_assoc, Z_mod_mult. reflexivity.
    + unfold ulong. change 18446744073709551616 with (2 ^ 64). apply Z.bits_inj'. intros i Hi.
      destruct (Z.lt_ge_cases i 58).
      * rewrite !Z.mod_pow2_bits_low, !Z.mul_pow2_bits by lia.
        destruct (Z.lt_ge_cases (i - y) 0); [now rewrite !Z.testbit_neg_r by lia |].
        now rewrite Z.mod_pow2_bits_low by lia.
      * now rewrite !Z.mod_pow2_bits_high by lia.
  - unwrap. apply f_equal. unfold RIGHT_SHIFT_UNSIGNED. pose proof (mod58 a) as M.
    change DATUM_MASK with (2 ^ 58 - 1). rewrite ulong_small, land_mask, Z.mod_mod by lia.
    destruct (Z.ltb_spec 58 (- y)); [| reflexivity].
    rewrite shiftr_div, Z.div_small by (try (assert (2 ^ 58 < 2 ^ (- y)) by (apply Z.pow_lt_mono_r; lia)); lia).
    reflexivity.
Qed.

(** *** Ranges of the results *)

Lemma quotient_range a b :
  fixnum_range a -> b <> 0 ->
  ((a =? SMALLEST_FIXNUM) && (b =? -1) = false -> fixnum_range (Z.quot a b))
  /\ fixnum_range (Z.rem a b).
Proof.
  intros Ha Nb. pose proof (quot_rem_bound a b Ha Nb) as [Q R]. pose proof (Z.quot_rem' a b) as E.
  pose proof (Z.rem_bound_abs a b Nb) as Rb. red in Ha. unfold fixnum_range. split.
  - intros T. assert (Z.quot a b = 144115188075855872 -> False); [| lia]. intros Eq. rewrite Eq in *.
    assert (a = SMALLEST_FIXNUM) by lia. assert (b = -1) by lia. subst. discriminate.
  - assert (Z.rem a b = 144115188075855872 -> False); [| lia]. intros Er.
    pose proof (Z.rem_sign_nz a b Nb ltac:(lia)). rewrite Er in *. cbn [Z.sgn] in *. lia.
Qed.

Lemma gcd_bound a b : fixnum_range a -> fixnum_range b -> 0 <= Z.gcd a b <= 2 ^ 57.
Proof.
  intros Ha Hb. red in Ha, Hb. split; [apply Z.gcd_nonneg |].
  destruct (Z.eq_dec a 0) as [-> | Na]; [rewrite Z.gcd_0_l; lia |].
  pose proof (Z.divide_pos_le (Z.gcd a b) (Z.abs a) ltac:(lia)
    ltac:(apply Z.divide_abs_r, Z.gcd_divide_l)). lia.
Qed.

(** ** Properties *)

(** C31: the checked fixnum primitives add, subtract, negate and step exactly
    and signal a bad-range error when the result is no fixnum; the portable
    multiplication of mul.c, done on 32-bit halves, returns the product
    whenever its magnitude fits in 57 bits and the error otherwise (so it also
    refuses -2^57, which is a fixnum). *)
Theorem fixnum_arithmetic a b :
  fixnum_range a -> fixnum_range b ->
  Prim_plus_fixnum (fixnum a) (fixnum b) = checked (a + b)
  /\ Prim_minus_fixnum (fixnum a) (fixnum b) = checked (a - b)
  /\ Prim_fixnum_negate (fixnum a) = checked (- a)
  /\ Prim_one_plus_fixnum (fixnum a) = checked (a + 1)
  /\ Prim_m_1_plus_fixnum (fixnum a) = checked (a - 1)
  /\ Prim_multiply_fixnum (fixnum a) (fixnum b)
     = (if Z.abs (a * b) <=? BIGGEST_FIXNUM then PRIMITIVE_RETURN (fixnum (a * b))
        else PRIMITIVE_ERROR (error_bad_range_arg 1)).
Proof.
  intros Ha Hb. unfold Prim_plus_fixnum, Prim_minus_fixnum, Prim_fixnum_negate,
    Prim_one_plus_fixnum, Prim_m_1_plus_fixnum, Prim_multiply_fixnum.
  rewrite !arg_fixnum_fixnum, !fixnum_P, Mul_spec by assumption. red in Ha, Hb. cbn [pbind negb].
  unwrap. rewrite !FIXNUM_RESULT_checked by (red; lia). repeat (split; [reflexivity |]).
  destruct (Z.leb_spec (Z.abs (a * b)) BIGGEST_FIXNUM); [| reflexivity].
  destruct (Z.eqb_spec (fixnum (a * b)) SHARP_F) as [E |]; [| reflexivity].
  unfold fixnum in E. change SHARP_F with 0 in E. pose proof (mod58 (a * b)). lia.
Qed.

Lemma fixnum_arithmetic_witness :
  fixnum_range BIGGEST_FIXNUM /\ fixnum_range 5
  /\ Prim_plus_fixnum (fixnum BIGGEST_FIXNUM) (fixnum 5) = PRIMITIVE_ERROR (error_bad_range_arg 1)
  /\ Prim_minus_fixnum (fixnum BIGGEST_FIXNUM) (fixnum 5) = PRIMITIVE_RETURN (fixnum (BIGGEST_FIXNUM - 5)).
Proof.
  assert (Ha : fixnum_range BIGGEST_FIXNUM) by (red; lia).
  assert (Hb : fixnum_range 5) by (red; lia).
  destruct (fixnum_arithmetic BIGGEST_FIXNUM 5 Ha Hb) as (P & M & _).
  split; [exact Ha |]. split; [exact Hb |]. split; [exact P | exact M].
Defined.

(** fixnum division truncates toward zero on all sign combinations and
    signals a bad-range error on argument 2 for a zero divisor; only the
    quotient of the most negative fixnum by -1 is out of range. *)
Theorem fixnum_division a b :
  fixnum_range a -> fixnum_range b ->
  if b =? 0 then
    Prim_divide_fixnum (fixnum a) (fixnum b) = PRIMITIVE_ERROR (error_bad_range_arg 2)
    /\ Prim_fixnum_quotient (fixnum a) (fixnum b) = PRIMITIVE_ERROR (error_bad_range_arg 2)
    /\ Prim_fixnum_remainder (fixnum a) (fixnum b) = PRIMITIVE_ERROR (error_bad_range_arg 2)
  else
    Prim_fixnum_quotient (fixnum a) (fixnum b) = checked (Z.quot a b)
    /\ Prim_fixnum_remainder (fixnum a) (fixnum b) = PRIMITIVE_RETURN (fixnum (Z.rem a b))
    /\ Prim_divide_fixnum (fixnum a) (fixnum b)
       = (if (a =? SMALLEST_FIXNUM) && (b =? -1) then PRIMITIVE_ERROR (error_bad_range_arg 1)
          else PRIMITIVE_RETURN (fixnum (Z.quot a b), fixnum (Z.rem a b))).
Proof.
  intros Ha Hb. unfold Prim_divide_fixnum, Prim_fixnum_quotient, Prim_fixnum_remainder.
  rewrite !arg_fixnum_fixnum by assumption. cbn [pbind].
  destruct (Z.eqb_spec b 0) as [-> | Nb]; [auto |].
  rewrite FIXNUM_QUOTIENT_quot, FIXNUM_REMAINDER_rem, divide_longs_spec by assumption.
  destruct (quotient_range a b Ha Nb) as [Q R]. pose proof (quot_rem_bound a b Ha Nb).
  pose proof Ha as Ha'. red in Ha'.
  rewrite !FIXNUM_RESULT_checked by (red; lia). split; [reflexivity |].
  rewrite !LONG_TO_FIXNUM_fixnum, LONG_TO_FIXNUM_P_range by (red; lia). unfold checked. split.
  - unfold fixnum_range in R. rewrite (proj2 (Z.leb_le _ _) (proj1 R)), (proj2 (Z.leb_le _ _) (proj2 R)).
    reflexivity.
  - destruct ((a =? SMALLEST_FIXNUM) && (b =? -1))%bool eqn:E.
    + reflect_bools. subst. reflexivity.
    + specialize (Q eq_refl). red in Q.
      rewrite (proj2 (Z.leb_le _ _) (proj1 Q)), (proj2 (Z.leb_le _ _) (proj2 Q)). reflexivity.
Qed.

Lemma fixnum_division_witness :
  fixnum_range (-7) /\ fixnum_range 2
  /\ Prim_fixnum_quotient (fixnum (-7)) (fixnum 2) = PRIMITIVE_RETURN (fixnum (-3))
  /\ Prim_fixnum_remainder (fixnum (-7)) (fixnum 2) = PRIMITIVE_RETURN (fixnum (-1)).
Proof.
  assert (Ha : fixnum_range (-7)) by (red; lia).
  assert (Hb : fixnum_range 2) by (red; lia).
  destruct (fixnum_division (-7) 2 Ha Hb) as (Q & R & _).
  split; [exact Ha |]. split; [exact Hb |]. split; [exact Q | exact R].
Defined.

(** C32: the Euclidean loop of [GCD-FIXNUM] terminates within 117 tests for
    all fixnums and returns the greatest common divisor, except that a
    divisor of 2^57 (the most negative fixnum with itself or with zero) comes
    back as -2^57. *)
Theorem gcd_fixnum_correct a b :
  fixnum_range a -> fixnum_range b ->
  exists w, Prim_gcd_fixnum (fixnum a) (fixnum b) = Some (PRIMITIVE_RETURN w)
    /\ FIXNUM_P w = true
    /\ FIXNUM_TO_LONG w = (if Z.gcd a b =? 2 ^ 57 then - 2 ^ 57 else Z.gcd a b).
Proof.
  intros Ha Hb. exists (fixnum (Z.gcd a b)). split; [now apply gcd_fixnum_spec |].
  split; [apply fixnum_P |]. pose proof (gcd_bound a b Ha Hb) as G.
  destruct (Z.eqb_spec (Z.gcd a b) (2 ^ 57)) as [-> | N]; [reflexivity |].
  apply fixnum_TO_LONG. red. lia.
Qed.

Lemma gcd_fixnum_correct_witness :
  exists w, Prim_gcd_fixnum (fixnum (-84)) (fixnum 36) = Some (PRIMITIVE_RETURN w)
    /\ FIXNUM_P w = true /\ FIXNUM_TO_LONG w = 12.
Proof. apply (gcd_fixnum_correct (-84) 36); red; lia. Defined.

(** The bitwise fixnum primitives act on the 58-bit two's-complement
    datum as the mathematical operations do on the integers, and
    [FIXNUM-LSH] shifts left dropping the high bits or right filling with
    zeros, for any fixnum count. *)
Theorem fixnum_logical a b :
  fixnum_range b ->
  Prim_fixnum_and (fixnum a) (fixnum b) = PRIMITIVE_RETURN (fixnum (Z.land a b))
  /\ Prim_fixnum_andc (fixnum a) (fixnum b) = PRIMITIVE_RETURN (fixnum (Z.ldiff a b))
  /\ Prim_fixnum_or (fixnum a) (fixnum b) = PRIMITIVE_RETURN (fixnum (Z.lor a b))
  /\ Prim_fixnum_xor (fixnum a) (fixnum b) = PRIMITIVE_RETURN (fixnum (Z.lxor a b))
  /\ Prim_fixnum_not (fixnum a) = PRIMITIVE_RETURN (fixnum (Z.lnot a))
  /\ Prim_fixnum_lsh (fixnum a) (fixnum b)
     = PRIMITIVE_RETURN (fixnum (if 0 <=? b then Z.shiftl a b else Z.shiftr (a mod 2 ^ 58) (- b))).
Proof.
  intros Hb. repeat split.
  - exact (BINARY_LOGICAL_OP_spec Z.land andb Z.land_spec eq_refl a b).
  - exact (BINARY_LOGICAL_OP_spec Z.ldiff (fun p q => p && negb q)%bool Z.ldiff_spec eq_refl a b).
  - exact (BINARY_LOGICAL_OP_spec Z.lor orb Z.lor_spec eq_refl a b).
  - exact (BINARY_LOGICAL_OP_spec Z.lxor xorb Z.lxor_spec eq_refl a b).
  - apply Prim_fixnum_not_spec.
  - now apply Prim_fixnum_lsh_spec.
Qed.

Lemma fixnum_logical_witness :
  fixnum_range (-3) /\ Prim_fixnum_lsh (fixnum (-1)) (fixnum (-3)) = PRIMITIVE_RETURN (fixnum (2 ^ 55 - 1)).
Proof.
  assert (Hb : fixnum_range (-3)) by (red; lia). split; [exact Hb |].
  apply (fixnum_logical (-1) (-3) Hb).
Defined.
