(* ===== verification/Integer.v ===== *)
(** * Generic exact integers (src/src/microcode/artutl.c)

    An exact integer is a fixnum object or a pointer to a bignum block.  Each
    operation tries machine arithmetic on two fixnums and otherwise converts
    its arguments to bignums, calls the bignum operation and normalizes the
    result: the integers that fit in 58 bits are always fixnums.

    The operations call the bignum component through [BignumOps]; the lemmas
    use [BignumLaws] only. *)

From Stdlib Require Import ZArith List Lia Bool.
From S2P Require Import Prelude Bits Bignum BignumConv BignumShift BignumSpec Object Fixnum.
Import ListNotations.

(** ** Objects *)

(** An immediate object, or a pointer to a bignum. *)
Inductive object (B : Type) := Immediate (word : Z) | Big (b : B).
Arguments Immediate {B}.
Arguments Big {B}.

Section Operations.
Context {B : Type} {ops : BignumOps B}.
Notation SCHEME_OBJECT := (object B).

(** [FIXNUM_P], with the word of the fixnum. *)
Definition as_fixnum (n : SCHEME_OBJECT) : option Z :=
  match n with
  | Immediate w => if FIXNUM_P w then Some w else None
  | Big _ => None
  end.

(** The block of an object used as a bignum; for another object the C code
    would read memory at random, here it stops. *)
Definition as_bignum (n : SCHEME_OBJECT) : option B :=
  match n with Immediate _ => None | Big b => Some b end.

(** *** Macros of object.h *)

Definition BIGNUM_ZERO_P (b : B) : bool :=
  match bn_test b with bignum_comparison_equal => true | _ => false end.
Definition BIGNUM_NEGATIVE_P (b : B) : bool :=
  match bn_test b with bignum_comparison_less => true | _ => false end.
Definition BIGNUM_POSITIVE_P (b : B) : bool :=
  match bn_test b with bignum_comparison_greater => true | _ => false end.
Definition BIGNUM_LESS_P (x y : B) : bool :=
  match bn_compare x y with bignum_comparison_less => true | _ => false end.

Definition BIGNUM_TO_LONG_P (b : B) : option bool := bn_fits_in_word_p b 64 true.
Definition BIGNUM_TO_ULONG_P (b : B) : option bool := bn_fits_in_word_p b 64 false.
Definition BIGNUM_TO_FIXNUM_P (b : B) : option bool := bn_fits_in_word_p b (FIXNUM_LENGTH + 1) true.

Definition FIXNUM_TO_BIGNUM (w : Z) : option B := bn_from_long (FIXNUM_TO_LONG w).
Definition BIGNUM_TO_FIXNUM (b : B) : Z := LONG_TO_FIXNUM (bn_to_long b).

(** [(FIXNUM_P (n)) ? (FIXNUM_TO_BIGNUM (n)) : n] *)
Definition to_bignum (n : SCHEME_OBJECT) : option B :=
  match as_fixnum n with
  | Some w => FIXNUM_TO_BIGNUM w
  | None => as_bignum n
  end.

(** *** Conversions between Scheme and C types *)

Definition integer_to_long_p (n : SCHEME_OBJECT) : option bool :=
  match as_fixnum n with
  | Some _ => Some true
  | None => let* b := as_bignum n in BIGNUM_TO_LONG_P b
  end.

Definition integer_to_long (n : SCHEME_OBJECT) : option Z :=
  match as_fixnum n with
  | Some w => Some (FIXNUM_TO_LONG w)
  | None => let* b := as_bignum n in Some (bn_to_long b)
  end.

Definition big (o : option B) : option SCHEME_OBJECT := let* b := o in Some (Big b).

Definition long_to_integer (number : Z) : option SCHEME_OBJECT :=
  if LONG_TO_FIXNUM_P number then Some (Immediate (LONG_TO_FIXNUM number))
  else big (bn_from_long number).

Definition LONG_MIN : Z := -9223372036854775808.
Definition LONG_MAX : Z := 9223372036854775807.
Definition ULONG_MAX : Z := 18446744073709551615.

(** [intmax_t] is [long]. *)
Definition intmax_to_integer (number : Z) : option SCHEME_OBJECT :=
  if (LONG_MIN <=? number) && (number <=? LONG_MAX) then long_to_integer number
  else big (bn_from_long number).

Definition integer_to_ulong_p (n : SCHEME_OBJECT) : option bool :=
  match as_fixnum n with
  | Some w => Some (negb (FIXNUM_NEGATIVE_P w))
  | None => let* b := as_bignum n in BIGNUM_TO_ULONG_P b
  end.

Definition integer_to_ulong (n : SCHEME_OBJECT) : option Z :=
  match as_fixnum n with
  | Some w => Some (ulong (FIXNUM_TO_LONG w))
  | None => let* b := as_bignum n in bn_to_ulong b
  end.

Definition ulong_to_integer (number : Z) : option SCHEME_OBJECT :=
  let s_number := slong number in
  if 0 <=? s_number then
    if LONG_TO_FIXNUM_P s_number then Some (Immediate (LONG_TO_FIXNUM s_number))
    else big (bn_from_long s_number)
  else big (bn_from_ulong number).

Definition uintmax_to_integer (number : Z) : option SCHEME_OBJECT :=
  if number <=? ULONG_MAX then ulong_to_integer number else big (bn_from_ulong number).

Definition integer_to_intmax_p := integer_to_long_p.
Definition integer_to_intmax := integer_to_long.
Definition integer_to_uintmax_p := integer_to_ulong_p.
Definition integer_to_uintmax := integer_to_ulong.

(** *** Normalization *)

Definition bignum_to_fixnum (b : B) : option SCHEME_OBJECT :=
  let* p := BIGNUM_TO_FIXNUM_P b in
  Some (Immediate (if (p : bool) then BIGNUM_TO_FIXNUM b else SHARP_F)).

Definition bignum_to_integer (b : B) : option SCHEME_OBJECT :=
  let* p := BIGNUM_TO_FIXNUM_P b in
  Some (if (p : bool) then Immediate (BIGNUM_TO_FIXNUM b) else Big b).

(** *** Predicates *)

Definition integer_zero_p (n : SCHEME_OBJECT) : option bool :=
  match as_fixnum n with
  | Some w => Some (FIXNUM_ZERO_P w)
  | None => let* b := as_bignum n in Some (BIGNUM_ZERO_P b)
  end.

Definition integer_negative_p (n : SCHEME_OBJECT) : option bool :=
  match as_fixnum n with
  | Some w => Some (FIXNUM_NEGATIVE_P w)
  | None => let* b := as_bignum n in Some (BIGNUM_NEGATIVE_P b)
  end.

Definition integer_positive_p (n : SCHEME_OBJECT) : option bool :=
  match as_fixnum n with
  | Some w => Some (FIXNUM_POSITIVE_P w)
  | None => let* b := as_bignum n in Some (BIGNUM_POSITIVE_P b)
  end.

(** The shape the binary operations share: [fast] on two fixnums, [slow] on
    bignums. *)
Definition binary {R} (fast : Z -> Z -> option R) (slow : B -> B -> option R)
  (n m : SCHEME_OBJECT) : option R :=
  match as_fixnum n, as_fixnum m with
  | Some n, Some m => fast n m
  | _, _ => let* x := to_bignum n in let* y := to_bignum m in slow x y
  end.

Definition integer_equal_p : SCHEME_OBJECT -> SCHEME_OBJECT -> option bool :=
  binary (fun n m => Some (FIXNUM_EQUAL_P n m)) (fun x y => Some (bn_equal_p x y)).

Definition integer_less_p : SCHEME_OBJECT -> SCHEME_OBJECT -> option bool :=
  binary (fun n m => Some (FIXNUM_LESS_P n m)) (fun x y => Some (BIGNUM_LESS_P x y)).

(** *** Arithmetic *)

Definition integer_negate (n : SCHEME_OBJECT) : option SCHEME_OBJECT :=
  match as_fixnum n with
  | Some w => long_to_integer (- FIXNUM_TO_LONG w)%SL
  | None => let* b := as_bignum n in let* r := bn_negate b in bignum_to_integer r
  end.

Definition integer_add : SCHEME_OBJECT -> SCHEME_OBJECT -> option SCHEME_OBJECT :=
  binary (fun n m => long_to_integer (FIXNUM_TO_LONG n + FIXNUM_TO_LONG m)%SL)
         (fun x y => let* r := bn_add x y in bignum_to_integer r).

Definition integer_add_1 (n : SCHEME_OBJECT) : option SCHEME_OBJECT :=
  match as_fixnum n with
  | Some w => long_to_integer (FIXNUM_TO_LONG w + 1)%SL
  | None =>
      let* b := as_bignum n in let* one := bn_from_long 1 in
      let* r := bn_add b one in bignum_to_integer r
  end.

Definition integer_subtract : SCHEME_OBJECT -> SCHEME_OBJECT -> option SCHEME_OBJECT :=
  binary (fun n m => long_to_integer (FIXNUM_TO_LONG n - FIXNUM_TO_LONG m)%SL)
         (fun x y => let* r := bn_subtract x y in bignum_to_integer r).

Definition integer_subtract_1 (n : SCHEME_OBJECT) : option SCHEME_OBJECT :=
  match as_fixnum n with
  | Some w => long_to_integer (FIXNUM_TO_LONG w - 1)%SL
  | None =>
      let* b := as_bignum n in let* one := bn_from_long 1 in
      let* r := bn_subtract b one in bignum_to_integer r
  end.

Definition multiply_bignums (x y : B) : option SCHEME_OBJECT :=
  let* r := bn_multiply x y in bignum_to_integer r.

Definition integer_multiply : SCHEME_OBJECT -> SCHEME_OBJECT -> option SCHEME_OBJECT :=
  binary (fun n m =>
            let result := Mul n m in
            if negb (result =? SHARP_F) then Some (Immediate result)
            else
              let* x := FIXNUM_TO_BIGNUM n in let* y := FIXNUM_TO_BIGNUM m in
              multiply_bignums x y)
         multiply_bignums.

(** *** Division

    [Some None] is the result [true] of [integer_divide]: division by zero.
    [integer_quotient] and [integer_remainder] return [SHARP_F] then. *)

Definition integer_divide
  : SCHEME_OBJECT -> SCHEME_OBJECT -> option (option (SCHEME_OBJECT * SCHEME_OBJECT)) :=
  binary (fun n d =>
            let lx := FIXNUM_TO_LONG n in
            let ly := FIXNUM_TO_LONG d in
            if ly =? 0 then Some None
            else
              let '(quotient, remainder) := divide_longs lx ly in
              let* q := long_to_integer quotient in
              Some (Some (q, Immediate (LONG_TO_FIXNUM remainder))))
         (fun n d =>
            let* qr := bn_divide n d in
            match qr with
            | None => Some None
            | Some (quotient, remainder) =>
                let* q := bignum_to_integer quotient in
                let* r := bignum_to_integer remainder in
                Some (Some (q, r))
            end).

(** A bignum result, or [SHARP_F]. *)
Definition normalize_result (result : option (option B)) : option SCHEME_OBJECT :=
  let* result := result in
  match result with
  | None => Some (Immediate SHARP_F)
  | Some b => bignum_to_integer b
  end.

Definition integer_quotient : SCHEME_OBJECT -> SCHEME_OBJECT -> option SCHEME_OBJECT :=
  binary (fun n d =>
            let lx := FIXNUM_TO_LONG n in
            let ly := FIXNUM_TO_LONG d in
            if ly =? 0 then Some (Immediate SHARP_F)
            else long_to_integer
              (if lx <? 0 then
                 if ly <? 0 then Z.quot (- lx)%SL (- ly)%SL
                 else (- Z.quot (- lx)%SL ly)%SL
               else
                 if ly <? 0 then (- Z.quot lx (- ly)%SL)%SL
                 else Z.quot lx ly))
         (fun n d => normalize_result (bn_quotient n d)).

Definition integer_remainder : SCHEME_OBJECT -> SCHEME_OBJECT -> option SCHEME_OBJECT :=
  binary (fun n d =>
            let lx := FIXNUM_TO_LONG n in
            let ly := FIXNUM_TO_LONG d in
            if ly =? 0 then Some (Immediate SHARP_F)
            else long_to_integer
              (if lx <? 0 then (- Z.rem (- lx)%SL (if ly <? 0 then (- ly)%SL else ly))%SL
               else Z.rem lx (if ly <? 0 then (- ly)%SL else ly)))
         (fun n d => normalize_result (bn_remainder n d)).

(** *** Length and bit counts *)

Definition integer_length_in_bits (n : SCHEME_OBJECT) : option SCHEME_OBJECT :=
  match as_fixnum n with
  | Some w =>
      let n1 := FIXNUM_TO_LONG w in
      Some (Immediate (ULONG_TO_FIXNUM
        (ulong_length_in_bits (ulong (if n1 <? 0 then (- n1)%SL else n1)))))
  | None => let* b := as_bignum n in ulong_to_integer (bn_length_in_bits b)
  end.

Definition integer_length (n : SCHEME_OBJECT) : option SCHEME_OBJECT :=
  match as_fixnum n with
  | Some w =>
      let n1 := FIXNUM_TO_LONG w in
      Some (Immediate (ULONG_TO_FIXNUM
        (ulong_length_in_bits (ulong (if n1 <? 0 then Z.lnot n1 else n1)))))
  | None => let* b := as_bignum n in ulong_to_integer (bn_integer_length b)
  end.

Definition integer_first_set_bit (n : SCHEME_OBJECT) : option SCHEME_OBJECT :=
  match as_fixnum n with
  | Some w =>
      let n1 := FIXNUM_TO_LONG w in
      Some (Immediate (LONG_TO_FIXNUM (ulong_first_set_bit
        (if n1 <? 0 then ulong (Z.lnot (ulong (Z.lnot n1))) else ulong n1))))
  | None =>
      let* b := as_bignum n in let* r := bn_first_set_bit b in long_to_integer r
  end.

Definition integer_bit_count (n : SCHEME_OBJECT) : option SCHEME_OBJECT :=
  match as_fixnum n with
  | Some w =>
      let n1 := FIXNUM_TO_LONG w in
      Some (Immediate (ULONG_TO_FIXNUM
        (ulong_bit_count (ulong (if n1 <? 0 then Z.lnot n1 else n1)))))
  | None =>
      let* b := as_bignum n in let* r := bn_bit_count b in ulong_to_integer r
  end.

(** [same_p]: the two arguments are the same pointer. *)
Definition integer_hamming_distance (same_p : bool) (n m : SCHEME_OBJECT) : option SCHEME_OBJECT :=
  binary (fun n m =>
            let x := FIXNUM_TO_LONG n ^^ FIXNUM_TO_LONG m in
            Some (Immediate (if x <? 0 then LONG_TO_FIXNUM (-1)
                             else ULONG_TO_FIXNUM (ulong_bit_count (ulong x)))))
         (fun x y =>
            let* r := bn_hamming_distance same_p x y in long_to_integer r) n m.

(** *** Bitwise operations *)

Definition integer_bitwise_not (n : SCHEME_OBJECT) : option SCHEME_OBJECT :=
  match as_fixnum n with
  | Some w => Some (Immediate (LONG_TO_FIXNUM (Z.lnot (FIXNUM_TO_LONG w))))
  | None => let* b := as_bignum n in big (bn_bitwise_not b)
  end.

(** [BITWISE_and] ... [BITWISE_nand]; none leaves the range of [long]. *)
Definition BITWISE (op : bitop) (x y : Z) : Z :=
  match op with
  | op_and => x & y
  | op_andc2 => x & Z.lnot y
  | op_andc1 => y & Z.lnot x
  | op_xor => x ^^ y
  | op_ior => x .| y
  | op_nor => Z.lnot (x .| y)
  | op_eqv => Z.lnot (x ^^ y)
  | op_orc2 => x .| Z.lnot y
  | op_orc1 => y .| Z.lnot x
  | op_nand => Z.lnot (x & y)
  end.

(** [DEFINE_BITWISE] *)
Definition integer_bitwise (op : bitop) : SCHEME_OBJECT -> SCHEME_OBJECT -> option SCHEME_OBJECT :=
  binary (fun n m =>
            Some (Immediate (LONG_TO_FIXNUM (BITWISE op (FIXNUM_TO_LONG n) (FIXNUM_TO_LONG m)))))
         (fun x y => let* r := bn_bitwise op x y in bignum_to_integer r).

(** A C shift by the word length or more is undefined: it stops. *)
Definition shift_ok (m : Z) : bool := m <? 64.

(** [(~ ((~ ((unsigned long) 0)) << n)) << m] *)
Definition one_bits (n m : Z) : option Z :=
  assert* shift_ok n && shift_ok m in
  Some (ulong (Z.lnot (ulong (Z.lnot 0) << n)%UL) << m)%UL.

Definition integer_nonnegative_one_bits (n m : Z) : option SCHEME_OBJECT :=
  if n =? 0 then Some (Immediate (LONG_TO_FIXNUM 0))
  else if (n + m)%UL <=? FIXNUM_LENGTH then
    let* ones := one_bits n m in Some (Immediate (ULONG_TO_FIXNUM ones))
  else big (bn_nonnegative_one_bits n m).

Definition integer_negative_zero_bits (n m : Z) : option SCHEME_OBJECT :=
  if n =? 0 then Some (Immediate (LONG_TO_FIXNUM (-1)))
  else if (n + m)%UL <=? FIXNUM_LENGTH then
    let* ones := one_bits n m in Some (Immediate (LONG_TO_FIXNUM (Z.lnot (slong ones))))
  else big (bn_negative_zero_bits n m).

(** *** Shifts *)

Definition integer_shift_left (n : SCHEME_OBJECT) (m : Z) : option SCHEME_OBJECT :=
  if m =? 0 then Some n
  else
    match as_fixnum n with
    | Some w =>
        let n1 := FIXNUM_TO_LONG w in
        if n1 <? 0 then
          if (m + ulong_length_in_bits (ulong (Z.lnot n1)))%UL <=? FIXNUM_LENGTH then
            assert* shift_ok m in
            Some (Immediate (LONG_TO_FIXNUM (- ((- n1)%SL << m)%SL)%SL))
          else
            let* r := bn_from_shifted_ulong (ulong (- n1)%SL) m false in
            big (bn_negate r)
        else if 0 <? n1 then
          if (m + ulong_length_in_bits (ulong n1))%UL <=? FIXNUM_LENGTH then
            assert* shift_ok m in
            Some (Immediate (LONG_TO_FIXNUM (n1 << m)%SL))
          else big (bn_from_shifted_ulong (ulong n1) m false)
        else Some (Immediate (LONG_TO_FIXNUM 0))
    | None => let* b := as_bignum n in big (bn_shift_left b m)
    end.

Definition integer_shift_right (n : SCHEME_OBJECT) (m : Z) : option SCHEME_OBJECT :=
  if m =? 0 then Some n
  else
    match as_fixnum n with
    | Some w =>
        let n1 := FIXNUM_TO_LONG w in
        assert* shift_ok m in
        Some (Immediate (LONG_TO_FIXNUM
          (if n1 <? 0 then Z.lnot (Z.lnot n1 >>> m) else n1 >>> m)))
    | None =>
        let* b := as_bignum n in let* r := bn_shift_right b m in bignum_to_integer r
    end.
End Operations.

Definition integer_bitwise_and {B} {ops : BignumOps B} := integer_bitwise op_and.
Definition integer_bitwise_andc2 {B} {ops : BignumOps B} := integer_bitwise op_andc2.
Definition integer_bitwise_andc1 {B} {ops : BignumOps B} := integer_bitwise op_andc1.
Definition integer_bitwise_xor {B} {ops : BignumOps B} := integer_bitwise op_xor.
Definition integer_bitwise_ior {B} {ops : BignumOps B} := integer_bitwise op_ior.
Definition integer_bitwise_nor {B} {ops : BignumOps B} := integer_bitwise op_nor.
Definition integer_bitwise_eqv {B} {ops : BignumOps B} := integer_bitwise op_eqv.
Definition integer_bitwise_orc2 {B} {ops : BignumOps B} := integer_bitwise op_orc2.
Definition integer_bitwise_orc1 {B} {ops : BignumOps B} := integer_bitwise op_orc1.
Definition integer_bitwise_nand {B} {ops : BignumOps B} := integer_bitwise op_nand.

(** ** What an object stands for *)

Definition fixnum_rangeb (z : Z) : bool := (SMALLEST_FIXNUM <=? z) && (z <=? BIGGEST_FIXNUM).

Lemma fixnum_rangeb_spec z : fixnum_rangeb z = true <-> fixnum_range z.
Proof. unfold fixnum_rangeb, fixnum_range. rewrite andb_true_iff, !Z.leb_le. reflexivity. Qed.

Lemma fixnum_rangeb_false z : fixnum_rangeb z = false <-> ~ fixnum_range z.
Proof. rewrite <- fixnum_rangeb_spec. now destruct (fixnum_rangeb z). Qed.

Section Facts.
Context {B : Type} {ops : BignumOps B} {laws : BignumLaws B}.
Notation SCHEME_OBJECT := (object B).

(** The canonical object of [z]: a fixnum whenever it fits. *)
Definition int_repr (n : SCHEME_OBJECT) (z : Z) : Prop :=
  if fixnum_rangeb z then n = Immediate (fixnum z)
  else exists b, n = Big b /\ bn_denotes b z.

(** The canonical object is unique up to the bignum block. *)
Lemma int_repr_fixnum z : fixnum_range z -> int_repr (Immediate (fixnum z)) z.
Proof. intros H%fixnum_rangeb_spec. unfold int_repr. now rewrite H. Qed.

Lemma int_repr_big b z : ~ fixnum_range z -> bn_denotes b z -> int_repr (Big b) z.
Proof. intros H%fixnum_rangeb_false D. unfold int_repr. rewrite H. eauto. Qed.

Lemma int_repr_cases n z :
  int_repr n z ->
  (fixnum_range z /\ n = Immediate (fixnum z) /\ as_fixnum n = Some (fixnum z))
  \/ (~ fixnum_range z /\ exists b, n = Big b /\ bn_denotes b z /\ as_fixnum n = None).
Proof.
  unfold int_repr. destruct (fixnum_rangeb z) eqn:E.
  - intros ->. left. split; [now apply fixnum_rangeb_spec |]. split; [reflexivity |].
    cbn [as_fixnum]. now rewrite fixnum_P.
  - intros (b & -> & D). right. split; [now apply fixnum_rangeb_false |]. eauto.
Qed.

Lemma fixnum_range_slong z : fixnum_range z -> is_slong z.
Proof. unfold fixnum_range, is_slong. lia. Qed.

Lemma FIXNUM_TO_BIGNUM_repr z :
  fixnum_range z -> yields bn_denotes (FIXNUM_TO_BIGNUM (fixnum z)) z.
Proof.
  intros H. unfold FIXNUM_TO_BIGNUM. rewrite fixnum_TO_LONG by exact H.
  apply law_from_long, fixnum_range_slong, H.
Qed.

Lemma to_bignum_repr n z : int_repr n z -> yields bn_denotes (to_bignum n) z.
Proof.
  intros [(R & -> & E) | (R & b & -> & D & E)]%int_repr_cases; unfold to_bignum; rewrite E.
  - now apply FIXNUM_TO_BIGNUM_repr.
  - exists b. auto.
Qed.

Lemma long_to_integer_repr z : is_slong z -> yields int_repr (long_to_integer z) z.
Proof.
  intros H. unfold long_to_integer. destruct (LONG_TO_FIXNUM_P z) eqn:E.
  - apply LONG_TO_FIXNUM_P_true in E; [| exact H]. eexists. split; [reflexivity |].
    rewrite LONG_TO_FIXNUM_fixnum. now apply int_repr_fixnum.
  - destruct (law_from_long z H) as (b & -> & D). eexists. split; [reflexivity |].
    apply int_repr_big; [| exact D]. rewrite <- LONG_TO_FIXNUM_P_true by exact H. congruence.
Qed.

Lemma ulong_to_integer_repr z : is_ulong z -> yields int_repr (ulong_to_integer z) z.
Proof.
  intros H. pose proof H as H'. red in H'. unfold ulong_to_integer.
  assert (S : slong z = if z <? 9223372036854775808 then z else z - 18446744073709551616).
  { unfold slong. destruct (Z.ltb_spec z 9223372036854775808).
    - rewrite Z.mod_small; lia.
    - replace (z + _) with (z - 9223372036854775808 + 1 * 18446744073709551616) by lia.
      rewrite Z.mod_add, Z.mod_small by lia. lia. }
  cbv zeta. rewrite S. destruct (Z.ltb_spec z 9223372036854775808).
  - destruct (Z.leb_spec 0 z); [| lia]. apply long_to_integer_repr. red; lia.
  - destruct (Z.leb_spec 0 (z - 18446744073709551616)); [lia |].
    destruct (law_from_ulong z H) as (b & -> & D). eexists. split; [reflexivity |].
    apply int_repr_big; [| exact D]. unfold fixnum_range. lia.
Qed.

(** *** Normalization *)

Lemma within_within_sum z : within z -> within_sum z.
Proof.
  unfold within, within_sum. intros H. pose proof capacity_eq.
  eapply Z.lt_le_trans; [exact H |]. apply Z.pow_le_mono_r; lia.
Qed.

Lemma within_sum_add a b : within a -> within b -> within_sum (a + b) /\ within_sum (a - b).
Proof.
  unfold within, within_sum. intros Ha Hb. pose proof capacity_eq.
  assert (P : 4 * 2 ^ capacity <= 2 ^ (capacity + 62)).
  { rewrite <- (Z.pow_add_r 2 2) by lia. apply Z.pow_le_mono_r; lia. }
  lia.
Qed.

Lemma BIGNUM_TO_FIXNUM_P_repr b z :
  bn_denotes b z -> within_sum z -> BIGNUM_TO_FIXNUM_P b = Some (fixnum_rangeb z).
Proof.
  intros D W. unfold BIGNUM_TO_FIXNUM_P. rewrite (law_fits b z (FIXNUM_LENGTH + 1) true D W) by lia.
  apply f_equal. change (Z.max 1 (twos_complement_slack (FIXNUM_LENGTH + 1 - 1))) with 1.
  change (2 ^ (FIXNUM_LENGTH + 1 - 1)) with 144115188075855872.
  change ((FIXNUM_LENGTH + 1 - 1) mod 62 =? 0) with false. unfold fixnum_rangeb.
  rewrite andb_false_r. cbn [negb]. rewrite andb_true_r.
  apply eq_true_iff_eq. rewrite !andb_true_iff, !Z.ltb_lt, !Z.leb_le. lia.
Qed.

Lemma bignum_to_integer_repr b z :
  bn_denotes b z -> within_sum z -> yields int_repr (bignum_to_integer b) z.
Proof.
  intros D W. unfold bignum_to_integer. rewrite (BIGNUM_TO_FIXNUM_P_repr b z D W). cbn [obind].
  eexists. split; [reflexivity |]. destruct (fixnum_rangeb z) eqn:E; unfold int_repr; rewrite E; eauto.
  apply fixnum_rangeb_spec in E. unfold BIGNUM_TO_FIXNUM. rewrite (law_to_long b z D).
  rewrite slong_small by (apply fixnum_range_slong; exact E). now rewrite LONG_TO_FIXNUM_fixnum.
Qed.

Lemma normalize_yields o z :
  yields bn_denotes o z -> within_sum z ->
  yields int_repr (let* r := o in bignum_to_integer r) z.
Proof. intros (b & -> & D) W. cbn [obind]. now apply bignum_to_integer_repr. Qed.

(** *** Binary operations *)

Lemma within_fixnum z : fixnum_range z -> within z.
Proof.
  unfold fixnum_range, within. intros H. pose proof capacity_eq.
  assert (2 ^ 58 <= 2 ^ capacity) by (apply Z.pow_le_mono_r; lia). lia.
Qed.

(** A binary operation meets a specification when its two paths do. *)
Lemma binary_spec {R} (P : option R -> Prop) fast slow n m a b :
  int_repr n a -> int_repr m b ->
  (fixnum_range a -> fixnum_range b -> P (fast (fixnum a) (fixnum b))) ->
  (forall x y, bn_denotes x a -> bn_denotes y b -> P (slow x y)) ->
  P (binary fast slow n m).
Proof.
  intros Hn Hm Hf Hs.
  assert (S : P (let* x := to_bignum n in let* y := to_bignum m in slow x y)).
  { destruct (to_bignum_repr n a Hn) as (x & -> & Dx).
    destruct (to_bignum_repr m b Hm) as (y & -> & Dy). cbn [obind]. auto. }
  unfold binary.
  destruct (int_repr_cases n a Hn) as [(Ra & En & ->) | (Ra & x & En & Dx & ->)]; [| exact S].
  destruct (int_repr_cases m b Hm) as [(Rb & Em & ->) | (Rb & y & Em & Dy & ->)]; auto.
Qed.

(** Split a unary operation into its two paths. *)
Ltac unary H :=
  destruct (int_repr_cases _ _ H) as [(R & -> & E) | (R & blk & -> & D & E)]; rewrite E;
  cbn [as_bignum obind]; rewrite ?fixnum_TO_LONG by exact R.

Lemma integer_to_long_repr n z : int_repr n z -> integer_to_long n = Some (slong z).
Proof.
  intros H. unfold integer_to_long. unary H.
  - rewrite slong_small; [reflexivity | apply fixnum_range_slong, R].
  - now rewrite (law_to_long blk z D).
Qed.

Lemma integer_to_ulong_repr n z : int_repr n z -> 0 <= z -> integer_to_ulong n = Some (ulong z).
Proof.
  intros H Hz. unfold integer_to_ulong. unary H; [reflexivity |].
  rewrite (law_to_ulong blk z D). destruct (Z.leb_spec 0 z); [reflexivity | lia].
Qed.

Lemma integer_to_ulong_p_repr n z :
  int_repr n z -> within z ->
  integer_to_ulong_p n = Some ((0 <=? z) && (z <? 18446744073709551616)).
Proof.
  intros H W. unfold integer_to_ulong_p. unary H.
  - rewrite fixnum_NEGATIVE_P by exact R. red in R. f_equal.
    destruct (Z.ltb_spec z 0), (Z.leb_spec 0 z), (Z.ltb_spec z 18446744073709551616); auto; lia.
  - apply (law_fits blk z 64 false D); [now apply within_within_sum | lia].
Qed.

Lemma integer_to_long_p_repr n z :
  int_repr n z -> within z ->
  integer_to_long_p n
  = Some ((-13835058055282163712 <? z) && (z <? 9223372036854775808)).
Proof.
  intros H W. unfold integer_to_long_p. unary H.
  - red in R. apply f_equal. symmetry. apply andb_true_iff. rewrite !Z.ltb_lt. lia.
  - unfold BIGNUM_TO_LONG_P. rewrite (law_fits blk z 64 true D (within_within_sum z W)) by lia.
    change (64 - 1) with 63. change (Z.max 1 (twos_complement_slack 63)) with 4611686018427387904.
    change (2 ^ 63) with 9223372036854775808. change (63 mod 62 =? 0) with false.
    rewrite andb_false_r. cbn [negb]. now rewrite andb_true_r.
Qed.

(** *** Predicates *)

Lemma integer_sign_repr n z :
  int_repr n z ->
  integer_zero_p n = Some (z =? 0) /\ integer_negative_p n = Some (z <? 0)
  /\ integer_positive_p n = Some (0 <? z).
Proof.
  intros H. unfold integer_zero_p, integer_negative_p, integer_positive_p. unary H.
  - rewrite fixnum_ZERO_P, fixnum_NEGATIVE_P, fixnum_POSITIVE_P by exact R. auto.
  - unfold BIGNUM_ZERO_P, BIGNUM_NEGATIVE_P, BIGNUM_POSITIVE_P. rewrite (law_test blk z D).
    unfold comparison_of. destruct (Z.compare_spec z 0), (Z.eqb_spec z 0), (Z.ltb_spec z 0), (Z.ltb_spec 0 z);
      auto; lia.
Qed.

Lemma FIXNUM_EQUAL_P_repr a b :
  fixnum_range a -> fixnum_range b -> FIXNUM_EQUAL_P (fixnum a) (fixnum b) = (a =? b).
Proof.
  intros Ha Hb. unfold FIXNUM_EQUAL_P. rewrite !fixnum_datum, !fixnum_mod by assumption.
  red in Ha, Hb. apply eq_true_iff_eq. rewrite !Z.eqb_eq.
  destruct (Z.ltb_spec a 0), (Z.ltb_spec b 0); lia.
Qed.

Lemma integer_equal_p_repr n m a b :
  int_repr n a -> int_repr m b -> integer_equal_p n m = Some (a =? b).
Proof.
  intros Hn Hm. apply (binary_spec (fun o => o = _) _ _ n m a b Hn Hm).
  - intros. now rewrite FIXNUM_EQUAL_P_repr.
  - intros. now rewrite (law_equal_p x y a b).
Qed.

Lemma integer_less_p_repr n m a b :
  int_repr n a -> int_repr m b -> integer_less_p n m = Some (a <? b).
Proof.
  intros Hn Hm. apply (binary_spec (fun o => o = _) _ _ n m a b Hn Hm).
  - intros. unfold FIXNUM_LESS_P. now rewrite !fixnum_TO_LONG.
  - intros. unfold BIGNUM_LESS_P. rewrite (law_compare x y a b) by assumption. apply f_equal.
    unfold comparison_of. destruct (Z.compare_spec a b), (Z.ltb_spec a b); auto; lia.
Qed.

(** *** Arithmetic *)

(** The fast paths stay in the range of [long]. *)
Lemma fast_long (op : Z -> Z -> Z) a b :
  is_slong (op a b) -> yields int_repr (long_to_integer (slong (op a b))) (op a b).
Proof. intros H. rewrite slong_small by exact H. now apply long_to_integer_repr. Qed.

Lemma integer_add_repr n m a b :
  int_repr n a -> int_repr m b -> within a -> within b ->
  yields int_repr (integer_add n m) (a + b).
Proof.
  intros Hn Hm Wa Wb. apply (binary_spec (fun o => yields int_repr o _) _ _ n m a b Hn Hm).
  - intros Ra Rb. rewrite !fixnum_TO_LONG by assumption. apply fast_long.
    unfold fixnum_range, is_slong in *. lia.
  - intros x y Dx Dy. apply normalize_yields; [now apply law_add | now apply within_sum_add].
Qed.

Lemma integer_subtract_repr n m a b :
  int_repr n a -> int_repr m b -> within a -> within b ->
  yields int_repr (integer_subtract n m) (a - b).
Proof.
  intros Hn Hm Wa Wb. apply (binary_spec (fun o => yields int_repr o _) _ _ n m a b Hn Hm).
  - intros Ra Rb. rewrite !fixnum_TO_LONG by assumption. apply fast_long.
    unfold fixnum_range, is_slong in *. lia.
  - intros x y Dx Dy. apply normalize_yields; [now apply law_subtract | now apply within_sum_add].
Qed.

Lemma within_one : within 1.
Proof. apply within_fixnum. unfold fixnum_range. lia. Qed.

Lemma integer_add_1_repr n a :
  int_repr n a -> within a -> yields int_repr (integer_add_1 n) (a + 1).
Proof.
  intros H W. unfold integer_add_1. unary H.
  - apply (fast_long Z.add). unfold fixnum_range, is_slong in *. lia.
  - destruct (law_from_long 1 ltac:(unfold is_slong; lia)) as (one & -> & D1). cbn [obind].
    apply normalize_yields; [apply law_add | apply within_sum_add]; auto using within_one.
Qed.

Lemma integer_subtract_1_repr n a :
  int_repr n a -> within a -> yields int_repr (integer_subtract_1 n) (a - 1).
Proof.
  intros H W. unfold integer_subtract_1. unary H.
  - apply (fast_long Z.sub). unfold fixnum_range, is_slong in *. lia.
  - destruct (law_from_long 1 ltac:(unfold is_slong; lia)) as (one & -> & D1). cbn [obind].
    apply normalize_yields; [apply law_subtract | apply within_sum_add]; auto using within_one.
Qed.

Lemma within_opp a : within a -> within (- a).
Proof. unfold within. now rewrite Z.abs_opp. Qed.

Lemma integer_negate_repr n a :
  int_repr n a -> within a -> yields int_repr (integer_negate n) (- a).
Proof.
  intros H W. unfold integer_negate. unary H.
  - apply (fast_long (fun a _ => - a) a 0). unfold fixnum_range, is_slong in *. lia.
  - apply normalize_yields; [now apply law_negate | now apply within_within_sum, within_opp].
Qed.

Lemma multiply_bignums_repr x y a b :
  bn_denotes x a -> bn_denotes y b -> within a -> within b -> within (a * b) ->
  yields int_repr (multiply_bignums x y) (a * b).
Proof.
  intros. apply normalize_yields; [now apply law_multiply | now apply within_within_sum].
Qed.

Lemma fixnum_not_SHARP_F z : (fixnum z =? SHARP_F) = false.
Proof.
  apply Z.eqb_neq. unfold fixnum. change SHARP_F with 0. pose proof (mod58 z). lia.
Qed.

Lemma integer_multiply_repr n m a b :
  int_repr n a -> int_repr m b -> within a -> within b -> within (a * b) ->
  yields int_repr (integer_multiply n m) (a * b).
Proof.
  intros Hn Hm Wa Wb Wp. apply (binary_spec (fun o => yields int_repr o _) _ _ n m a b Hn Hm).
  - intros Ra Rb. cbv zeta. rewrite Mul_spec by assumption.
    destruct (Z.leb_spec (Z.abs (a * b)) BIGGEST_FIXNUM).
    + rewrite fixnum_not_SHARP_F. eexists. split; [reflexivity |]. apply int_repr_fixnum.
      unfold fixnum_range. lia.
    + rewrite Z.eqb_refl. cbn [negb].
      destruct (FIXNUM_TO_BIGNUM_repr a Ra) as (x & -> & Dx).
      destruct (FIXNUM_TO_BIGNUM_repr b Rb) as (y & -> & Dy). cbn [obind].
      now apply multiply_bignums_repr.
  - intros x y Dx Dy. now apply multiply_bignums_repr.
Qed.

(** *** Division *)

Lemma within_le a b : Z.abs a <= Z.abs b -> within b -> within a.
Proof. unfold within. lia. Qed.

Lemma quot_rem_le a b :
  b <> 0 -> Z.abs (Z.quot a b) <= Z.abs a /\ Z.abs (Z.rem a b) <= Z.abs a.
Proof.
  intros Nb. split.
  - rewrite <- Z.quot_abs by exact Nb. apply Z.quot_le_upper_bound; [lia |].
    pose proof (Z.abs_nonneg a). nia.
  - rewrite <- Z.rem_abs by exact Nb.
    pose proof (Z.rem_le (Z.abs a) (Z.abs b) (Z.abs_nonneg a) ltac:(lia)).
    pose proof (Z.rem_nonneg (Z.abs a) (Z.abs b) ltac:(lia) (Z.abs_nonneg a)). lia.
Qed.

Lemma within_quot_rem a b :
  b <> 0 -> within a -> within_sum (Z.quot a b) /\ within_sum (Z.rem a b).
Proof.
  intros Nb W. destruct (quot_rem_le a b Nb).
  split; apply within_within_sum; eapply within_le; eauto.
Qed.

Lemma fixnum_quot_rem a b :
  fixnum_range a -> b <> 0 ->
  is_slong (Z.quot a b) /\ fixnum_range (Z.rem a b).
Proof.
  intros Ra Nb. pose proof (Z.rem_bound_abs a b Nb). destruct (quot_rem_le a b Nb).
  assert (Z.rem a b <> 144115188075855872 \/ a < 0) as S.
  { destruct (Z.lt_ge_cases a 0); [auto | left]. unfold fixnum_range in Ra. lia. }
  pose proof (Z.rem_sign_nz a b Nb). unfold fixnum_range, is_slong in *.
  destruct (Z.eq_dec (Z.rem a b) 0) as [-> | N]; [lia |]. specialize (H2 N). lia.
Qed.

Lemma integer_divide_repr n m a b :
  int_repr n a -> int_repr m b -> within a ->
  if b =? 0 then integer_divide n m = Some None
  else exists q r, integer_divide n m = Some (Some (q, r))
    /\ int_repr q (Z.quot a b) /\ int_repr r (Z.rem a b).
Proof.
  intros Hn Hm Wa.
  apply (binary_spec (fun o => if b =? 0 then o = Some None
    else exists q r, o = Some (Some (q, r)) /\ int_repr q (Z.quot a b) /\ int_repr r (Z.rem a b))
    _ _ n m a b Hn Hm).
  - intros Ra Rb. rewrite !fixnum_TO_LONG by assumption. cbv zeta.
    destruct (Z.eqb_spec b 0) as [-> | Nb]; [reflexivity |].
    rewrite divide_longs_spec by assumption. destruct (fixnum_quot_rem a b Ra Nb) as [Q R].
    destruct (long_to_integer_repr _ Q) as (q & -> & Hq). cbn [obind].
    exists q. eexists. split; [reflexivity |]. split; [exact Hq |].
    rewrite LONG_TO_FIXNUM_fixnum. now apply int_repr_fixnum.
  - intros x y Dx Dy. pose proof (law_divide x y a b Dx Dy Wa) as L.
    destruct (Z.eqb_spec b 0) as [-> | Nb]; [now rewrite L |].
    destruct L as (q & r & -> & Dq & Dr). cbn [obind].
    destruct (within_quot_rem a b Nb Wa) as [Wq Wr].
    destruct (bignum_to_integer_repr q _ Dq Wq) as (q' & -> & Hq).
    destruct (bignum_to_integer_repr r _ Dr Wr) as (r' & -> & Hr). cbn [obind]. eauto.
Qed.

Lemma integer_quotient_repr n m a b :
  int_repr n a -> int_repr m b -> within a ->
  if b =? 0 then integer_quotient n m = Some (Immediate SHARP_F)
  else yields int_repr (integer_quotient n m) (Z.quot a b).
Proof.
  intros Hn Hm Wa.
  apply (binary_spec (fun o => if b =? 0 then o = Some (Immediate SHARP_F)
    else yields int_repr o (Z.quot a b)) _ _ n m a b Hn Hm).
  - intros Ra Rb. rewrite !fixnum_TO_LONG by assumption. cbv zeta.
    destruct (Z.eqb_spec b 0) as [-> | Nb]; [reflexivity |].
    destruct (fixnum_quot_rem a b Ra Nb) as [Q _].
    replace (if a <? 0 then _ else _) with (Z.quot a b); [now apply long_to_integer_repr |].
    unfold fixnum_range, is_slong in Ra, Rb, Q.
    destruct (Z.ltb_spec a 0), (Z.ltb_spec b 0); unwrap; quot_signs; unwrap; quot_signs; lia.
  - intros x y Dx Dy. pose proof (law_quotient x y a b Dx Dy Wa) as L.
    destruct (Z.eqb_spec b 0) as [-> | Nb]; [now rewrite L |].
    destruct L as (q & -> & Dq). destruct (within_quot_rem a b Nb Wa) as [Wq _].
    now apply bignum_to_integer_repr.
Qed.

Lemma integer_remainder_repr n m a b :
  int_repr n a -> int_repr m b -> within a ->
  if b =? 0 then integer_remainder n m = Some (Immediate SHARP_F)
  else yields int_repr (integer_remainder n m) (Z.rem a b).
Proof.
  intros Hn Hm Wa.
  apply (binary_spec (fun o => if b =? 0 then o = Some (Immediate SHARP_F)
    else yields int_repr o (Z.rem a b)) _ _ n m a b Hn Hm).
  - intros Ra Rb. rewrite !fixnum_TO_LONG by assumption. cbv zeta.
    destruct (Z.eqb_spec b 0) as [-> | Nb]; [reflexivity |].
    destruct (fixnum_quot_rem a b Ra Nb) as [_ R].
    replace (if a <? 0 then _ else _) with (Z.rem a b);
      [now apply long_to_integer_repr, fixnum_range_slong |].
    unfold fixnum_range, is_slong in Ra, Rb, R.
    destruct (Z.ltb_spec a 0), (Z.ltb_spec b 0); unwrap; quot_signs; unwrap; quot_signs; lia.
  - intros x y Dx Dy. pose proof (law_remainder x y a b Dx Dy Wa) as L.
    destruct (Z.eqb_spec b 0) as [-> | Nb]; [now rewrite L |].
    destruct L as (q & -> & Dq). destruct (within_quot_rem a b Nb Wa) as [_ Wr].
    now apply bignum_to_integer_repr.
Qed.

(** *** Lengths and counts *)

Lemma small_fixnum n : 0 <= n <= 64 -> int_repr (Immediate (ULONG_TO_FIXNUM n)) n.
Proof.
  intros H. unfold ULONG_TO_FIXNUM. rewrite MAKE_OBJECT_add by lia.
  replace (TC_FIXNUM * 2 ^ 58 + n) with (fixnum n).
  - apply int_repr_fixnum. unfold fixnum_range. lia.
  - unfold fixnum. now rewrite Z.mod_small by lia.
Qed.

(** The magnitude whose bits are counted. *)
Definition magnitude (z : Z) : Z := if z <? 0 then Z.lnot z else z.

Lemma magnitude_fixnum z : fixnum_range z -> 0 <= magnitude z < 2 ^ 57.
Proof. unfold fixnum_range, magnitude, Z.lnot. intros H. destruct (Z.ltb_spec z 0); lia. Qed.

Lemma bit_length_bound z k : 0 <= k -> 0 <= z < 2 ^ k -> 0 <= bit_length z <= k.
Proof.
  intros Hk Hz. unfold bit_length. destruct (Z.eqb_spec z 0); [lia |].
  pose proof (Z.log2_nonneg z). assert (Z.log2 z < k) by (apply Z.log2_lt_pow2; lia). lia.
Qed.

Lemma bit_length_within z : within z -> is_ulong (bit_length (Z.abs z)).
Proof.
  intros W. pose proof (within_bits z W). pose proof (bit_length_nonneg (Z.abs z)).
  pose proof capacity_eq. red. lia.
Qed.

Lemma magnitude_within z : within z -> within (magnitude z).
Proof. intros W. apply (within_le _ z); [| exact W]. unfold magnitude, Z.lnot. destruct (Z.ltb_spec z 0); lia. Qed.

Lemma magnitude_nonneg z : 0 <= magnitude z.
Proof. unfold magnitude, Z.lnot. destruct (Z.ltb_spec z 0); lia. Qed.

Lemma integer_length_in_bits_repr n z :
  int_repr n z -> within z -> yields int_repr (integer_length_in_bits n) (bit_length (Z.abs z)).
Proof.
  intros H W. unfold integer_length_in_bits. unary H.
  - replace (ulong _) with (Z.abs z)
      by (red in R; destruct (Z.ltb_spec z 0); unwrap; lia).
    rewrite ulong_length_in_bits_log2 by (red in R; red; lia).
    eexists. split; [reflexivity |]. apply small_fixnum.
    pose proof (bit_length_bound (Z.abs z) 58 ltac:(lia) ltac:(red in R; lia)). unfold bit_length in *. lia.
  - rewrite (law_length_in_bits blk z D). now apply ulong_to_integer_repr, bit_length_within.
Qed.

Lemma integer_length_repr n z :
  int_repr n z -> within z -> yields int_repr (integer_length n) (bit_length (magnitude z)).
Proof.
  intros H W. unfold integer_length. unary H.
  - pose proof (magnitude_fixnum z R). fold (magnitude z). rewrite ulong_small by lia.
    rewrite ulong_length_in_bits_log2 by (red; lia).
    eexists. split; [reflexivity |]. apply small_fixnum.
    pose proof (bit_length_bound (magnitude z) 57 ltac:(lia) ltac:(lia)). unfold bit_length in *. lia.
  - rewrite (law_integer_length blk z D). fold (magnitude z). apply ulong_to_integer_repr.
    rewrite <- (Z.abs_eq (magnitude z)) by apply magnitude_nonneg.
    now apply bit_length_within, magnitude_within.
Qed.

Lemma trailing_zeros_abs z k : z <> 0 -> Z.abs z < 2 ^ k -> 0 <= trailing_zeros z < k.
Proof.
  intros Nz H. split; [now apply trailing_zeros_spec |].
  replace (trailing_zeros z) with (trailing_zeros (Z.abs z)); [apply trailing_zeros_lt; lia |].
  destruct (Z.abs_eq_or_opp z) as [-> | ->]; [reflexivity | apply trailing_zeros_opp].
Qed.

Lemma trailing_zeros_ulong z :
  z <> 0 -> Z.abs z < 2 ^ 63 -> trailing_zeros (ulong z) = trailing_zeros z.
Proof.
  intros Nz H. pose proof (trailing_zeros_abs z 63 Nz H) as T.
  destruct (trailing_zeros_spec z Nz) as [_ [m Hm]]. set (r := trailing_zeros z) in *.
  assert (P : 2 ^ 64 = 2 ^ r * (2 * 2 ^ (63 - r))).
  { replace (2 ^ r * (2 * 2 ^ (63 - r))) with (2 ^ 1 * (2 ^ r * 2 ^ (63 - r))) by ring.
    rewrite <- Z.pow_add_r by lia. replace (r + (63 - r)) with 63 by lia. reflexivity. }
  apply (trailing_zeros_unique _ r (m - 2 ^ (63 - r) * (z / 2 ^ 64))); [lia |].
  unfold ulong. change 18446744073709551616 with (2 ^ 64). rewrite Z.mod_eq by lia.
  rewrite Hm at 1. rewrite P at 1. ring.
Qed.

Lemma integer_first_set_bit_repr n z :
  int_repr n z -> within z -> yields int_repr (integer_first_set_bit n) (trailing_zeros z).
Proof.
  intros H W. unfold integer_first_set_bit. unary H.
  - replace (if z <? 0 then _ else _) with (ulong z).
    2:{ red in R. unfold ulong, Z.lnot.
        destruct (Z.ltb_spec z 0); [| reflexivity]. rewrite (Z.mod_small (Z.pred (- z))) by lia.
        f_equal. lia. }
    rewrite ulong_first_set_bit_trailing by apply ulong_range.
    eexists. split; [reflexivity |]. rewrite LONG_TO_FIXNUM_fixnum.
    destruct (Z.eq_dec z 0) as [-> | Nz]; [apply int_repr_fixnum; cbv; split; discriminate |].
    rewrite trailing_zeros_ulong by (red in R; lia). apply int_repr_fixnum.
    pose proof (trailing_zeros_abs z 63 Nz ltac:(red in R; lia)). red; lia.
  - rewrite (law_first_set_bit blk z D). cbn [obind]. apply long_to_integer_repr.
    assert (Nz : z <> 0) by (intros ->; apply R; cbv; split; discriminate).
    pose proof (trailing_zeros_abs z capacity Nz W). pose proof capacity_eq. red; lia.
Qed.

Lemma popcount_within z : 0 <= z -> within z -> 0 <= popcount z <= capacity.
Proof.
  intros Hz W. red in W. split; [apply popcount_nonneg |]. pose proof capacity_eq.
  rewrite <- (Z2Nat.id capacity) by lia. apply popcount_bound. rewrite Z2Nat.id by lia. lia.
Qed.

Lemma ulong_bit_count_small x :
  0 <= x < 2 ^ 64 -> ulong_bit_count x = popcount x /\ 0 <= popcount x <= 64.
Proof.
  intros Hx. split; [apply ulong_bit_count_popcount; red; lia |].
  split; [apply popcount_nonneg | exact (popcount_bound 64 x Hx)].
Qed.

Lemma integer_bit_count_repr n z :
  int_repr n z -> within z -> yields int_repr (integer_bit_count n) (popcount (magnitude z)).
Proof.
  intros H W. unfold integer_bit_count. unary H.
  - pose proof (magnitude_fixnum z R). fold (magnitude z). rewrite ulong_small by lia.
    destruct (ulong_bit_count_small (magnitude z)) as [-> P]; [lia |].
    eexists. split; [reflexivity |]. now apply small_fixnum.
  - rewrite (law_bit_count blk z D W). cbn [obind]. fold (magnitude z). apply ulong_to_integer_repr.
    pose proof (popcount_within _ (magnitude_nonneg z) (magnitude_within z W)).
    pose proof capacity_eq. red; lia.
Qed.

(** *** Bitwise operations *)

(** [z] is a two's-complement integer of [k] bits and a sign. *)
Lemma shiftr_sign z k : 0 <= k -> - 2 ^ k <= z < 2 ^ k <-> (z >>> k = 0 \/ z >>> k = -1).
Proof.
  intros Hk. assert (0 < 2 ^ k) by (apply Z.pow_pos_nonneg; lia). rewrite shiftr_div by lia.
  pose proof (Z.div_mod z (2 ^ k) ltac:(lia)). pose proof (Z.mod_pos_bound z (2 ^ k) ltac:(lia)).
  split; [| nia]. intros Hz.
  assert (-1 <= z / 2 ^ k < 1); [| lia].
  split; [apply Z.div_le_lower_bound | apply Z.div_lt_upper_bound]; lia.
Qed.

Lemma lnot_shiftr z k : 0 <= k -> Z.lnot z >>> k = Z.lnot (z >>> k).
Proof.
  intros Hk. apply Z.bits_inj'. intros i Hi. now rewrite Z.shiftr_spec, !Z.lnot_spec, Z.shiftr_spec by lia.
Qed.

Lemma bitop_bound op a b k :
  0 <= k -> - 2 ^ k <= a < 2 ^ k -> - 2 ^ k <= b < 2 ^ k ->
  - 2 ^ k <= bitop_Z op a b < 2 ^ k.
Proof.
  intros Hk Ha Hb. apply shiftr_sign; [exact Hk |].
  apply shiftr_sign in Ha; [| exact Hk]. apply shiftr_sign in Hb; [| exact Hk].
  destruct op; cbn [bitop_Z];
    rewrite ?lnot_shiftr, ?Z.shiftr_land, ?Z.shiftr_ldiff, ?Z.shiftr_lxor, ?Z.shiftr_lor, ?lnot_shiftr by exact Hk;
    destruct Ha as [-> | ->]; destruct Hb as [-> | ->]; cbv; auto.
Qed.

Lemma BITWISE_bitop op a b : BITWISE op a b = bitop_Z op a b.
Proof.
  destruct op; cbn [BITWISE bitop_Z]; auto; rewrite ?Z.ldiff_land; auto. apply Z.lor_comm.
Qed.

Lemma integer_bitwise_repr op n m a b :
  int_repr n a -> int_repr m b -> within a -> within b ->
  yields int_repr (integer_bitwise op n m) (bitop_Z op a b).
Proof.
  intros Hn Hm Wa Wb. apply (binary_spec (fun o => yields int_repr o _) _ _ n m a b Hn Hm).
  - intros Ra Rb. rewrite !fixnum_TO_LONG, BITWISE_bitop, LONG_TO_FIXNUM_fixnum by assumption.
    eexists. split; [reflexivity |]. apply int_repr_fixnum. unfold fixnum_range in *.
    pose proof (bitop_bound op a b 57 ltac:(lia) ltac:(lia) ltac:(lia)). lia.
  - intros x y Dx Dy. apply normalize_yields; [now apply law_bitwise |].
    unfold within, within_sum in *. pose proof capacity_eq.
    pose proof (bitop_bound op a b capacity ltac:(lia) ltac:(lia) ltac:(lia)).
    assert (2 ^ capacity < 2 ^ (capacity + 62)) by (apply Z.pow_lt_mono_r; lia). lia.
Qed.

Lemma integer_bitwise_not_repr n a :
  int_repr n a -> within a -> yields int_repr (integer_bitwise_not n) (Z.lnot a).
Proof.
  intros H W. unfold integer_bitwise_not. unary H.
  - eexists. split; [reflexivity |]. rewrite LONG_TO_FIXNUM_fixnum. apply int_repr_fixnum.
    unfold fixnum_range, Z.lnot in *. lia.
  - destruct (law_bitwise_not blk a D W) as (r & -> & Dr). eexists. split; [reflexivity |].
    apply int_repr_big; [| exact Dr]. unfold fixnum_range, Z.lnot in *. lia.
Qed.

Lemma integer_hamming_distance_repr (same_p : bool) n m a b :
  int_repr n a -> int_repr m b -> within a -> within b -> (same_p = true -> n = m) ->
  yields int_repr (integer_hamming_distance same_p n m)
    (if xorb (a <? 0) (b <? 0) then -1 else popcount (Z.lxor a b)).
Proof.
  intros Hn Hm Wa Wb Same. pose proof capacity_eq.
  assert (Slow : yields int_repr (let* x := to_bignum n in let* y := to_bignum m in
      let* r := bn_hamming_distance same_p x y in long_to_integer r)
      (if xorb (a <? 0) (b <? 0) then -1 else popcount (Z.lxor a b))).
  { destruct (to_bignum_repr n a Hn) as (x & Ex & Dx). destruct (to_bignum_repr m b Hm) as (y & Ey & Dy).
    rewrite Ex, Ey. cbn [obind]. rewrite (law_hamming_distance same_p x y a b) by (auto; intros; 
      specialize (Same H0); congruence).
    cbn [obind]. apply long_to_integer_repr.
    destruct (xorb (a <? 0) (b <? 0)) eqn:X; [red; lia |].
    pose proof (bitop_bound op_xor a b capacity ltac:(lia)) as P. cbn [bitop_Z] in P.
    unfold within in *. specialize (P ltac:(lia) ltac:(lia)).
    assert (0 <= Z.lxor a b).
    { apply Z.lxor_nonneg. destruct (Z.ltb_spec a 0), (Z.ltb_spec b 0); try discriminate; lia. }
    pose proof (popcount_within (Z.lxor a b) ltac:(lia) ltac:(unfold within; lia)). red; lia. }
  unfold integer_hamming_distance, binary.
  destruct (int_repr_cases n a Hn) as [(Ra & En & ->) | (Ra & x & En & Dx & ->)]; [| exact Slow].
  destruct (int_repr_cases m b Hm) as [(Rb & Em & ->) | (Rb & y & Em & Dy & ->)]; [| exact Slow].
  rewrite !fixnum_TO_LONG by assumption. eexists. split; [reflexivity |]. red in Ra, Rb.
  pose proof (Z.lxor_nonneg a b) as S.
  destruct (Z.ltb_spec (Z.lxor a b) 0).
  - replace (xorb (a <? 0) (b <? 0)) with true
      by (destruct (Z.ltb_spec a 0), (Z.ltb_spec b 0); cbn [xorb]; auto; lia).
    rewrite LONG_TO_FIXNUM_fixnum. apply int_repr_fixnum. red; lia.
  - replace (xorb (a <? 0) (b <? 0)) with false
      by (destruct (Z.ltb_spec a 0), (Z.ltb_spec b 0); cbn [xorb]; auto; lia).
    pose proof (bitop_bound op_xor a b 57 ltac:(lia) ltac:(lia) ltac:(lia)) as P. cbn [bitop_Z] in P.
    rewrite ulong_small by lia. destruct (ulong_bit_count_small (Z.lxor a b)) as [-> Q]; [lia |].
    now apply small_fixnum.
Qed.

Lemma pow2_bounds n k : 0 <= n <= k -> 1 <= 2 ^ n <= 2 ^ k.
Proof.
  intros H. split; [| apply Z.pow_le_mono_r; lia].
  pose proof (Z.pow_pos_nonneg 2 n). lia.
Qed.

Lemma one_bits_spec n m :
  0 < n -> 0 <= m -> n + m <= 57 -> one_bits n m = Some ((2 ^ n - 1) * 2 ^ m).
Proof.
  intros Hn Hm H. unfold one_bits, shift_ok.
  destruct (Z.ltb_spec n 64), (Z.ltb_spec m 64); try lia. cbn [andb]. apply f_equal.
  pose proof (pow2_bounds n 57 ltac:(lia)). pose proof (pow2_bounds m 57 ltac:(lia)).
  pose proof (pow2_bounds (n + m) 57 ltac:(lia)) as P. rewrite Z.pow_add_r in P by lia.
  change (ulong (Z.lnot 0)) with 18446744073709551615. rewrite !Z.shiftl_mul_pow2 by lia.
  replace (ulong (18446744073709551615 * 2 ^ n)) with (18446744073709551616 - 2 ^ n).
  2:{ unfold ulong. apply (Z.mod_unique_pos _ _ (2 ^ n - 1)); lia. }
  replace (ulong (Z.lnot (18446744073709551616 - 2 ^ n))) with (2 ^ n - 1).
  2:{ unfold ulong, Z.lnot. apply (Z.mod_unique_pos _ _ (-1)); lia. }
  apply ulong_small. rewrite Z.mul_sub_distr_r. nia.
Qed.

(** A mask of [n] ones that does not fit in 57 bits is no fixnum. *)
Lemma mask_bound n m :
  0 < n -> 0 <= m ->
  Z.shiftl (Z.ones n) m = (2 ^ n - 1) * 2 ^ m
  /\ (n + m <= 57 -> 0 <= Z.shiftl (Z.ones n) m < 2 ^ 57)
  /\ (57 < n + m -> 2 ^ 57 <= Z.shiftl (Z.ones n) m).
Proof.
  intros Hn Hm. rewrite Z.shiftl_mul_pow2, Z.ones_equiv by lia.
  replace (Z.pred (2 ^ n)) with (2 ^ n - 1) by lia.
  assert (P : 1 <= 2 ^ m) by (apply (pow2_bounds m m); lia).
  assert (Q : 2 ^ n = 2 * 2 ^ (n - 1)) by (rewrite <- Z.pow_succ_r by lia; f_equal; lia).
  assert (R : 1 <= 2 ^ (n - 1)) by (apply (pow2_bounds (n - 1) (n - 1)); lia).
  split; [reflexivity |]. split; intros H.
  - pose proof (pow2_bounds (n + m) 57 ltac:(lia)) as Bd. rewrite Z.pow_add_r in Bd by lia.
    rewrite Z.mul_sub_distr_r. nia.
  - assert (Bd : 2 ^ 57 <= 2 ^ (n - 1 + m)) by (apply Z.pow_le_mono_r; lia).
    rewrite Z.pow_add_r in Bd by lia. rewrite Q. nia.
Qed.

Lemma ULONG_TO_FIXNUM_repr z : 0 <= z < 2 ^ 57 -> int_repr (Immediate (ULONG_TO_FIXNUM z)) z.
Proof.
  intros H. unfold ULONG_TO_FIXNUM. rewrite MAKE_OBJECT_add by lia.
  replace (TC_FIXNUM * 2 ^ 58 + z) with (fixnum z).
  - apply int_repr_fixnum. unfold fixnum_range. lia.
  - unfold fixnum. now rewrite Z.mod_small by lia.
Qed.

Lemma integer_nonnegative_one_bits_repr n m :
  0 <= n -> 0 <= m -> n + m <= capacity ->
  yields int_repr (integer_nonnegative_one_bits n m) (Z.shiftl (Z.ones n) m).
Proof.
  intros Hn Hm H. pose proof capacity_eq. unfold integer_nonnegative_one_bits.
  destruct (Z.eqb_spec n 0) as [-> | Nn].
  { eexists. split; [reflexivity |]. change (Z.ones 0) with 0. rewrite Z.shiftl_0_l.
    rewrite LONG_TO_FIXNUM_fixnum. apply int_repr_fixnum. red; lia. }
  rewrite ulong_small by lia. destruct (mask_bound n m) as (E & Lo & Hi); [lia | lia |].
  destruct (Z.leb_spec (n + m) FIXNUM_LENGTH).
  - rewrite one_bits_spec, <- E by lia. eexists. split; [reflexivity |].
    apply ULONG_TO_FIXNUM_repr; auto.
  - destruct (law_nonnegative_one_bits n m) as (b & -> & D); auto.
    eexists. split; [reflexivity |]. apply int_repr_big; [| exact D]. unfold fixnum_range. lia.
Qed.

Lemma integer_negative_zero_bits_repr n m :
  0 <= n -> 0 <= m -> n + m <= capacity ->
  yields int_repr (integer_negative_zero_bits n m) (Z.lnot (Z.shiftl (Z.ones n) m)).
Proof.
  intros Hn Hm H. pose proof capacity_eq. unfold integer_negative_zero_bits.
  destruct (Z.eqb_spec n 0) as [-> | Nn].
  { eexists. split; [reflexivity |]. change (Z.ones 0) with 0. rewrite Z.shiftl_0_l. change (Z.lnot 0) with (-1).
    rewrite LONG_TO_FIXNUM_fixnum. apply int_repr_fixnum. red; lia. }
  rewrite ulong_small by lia. destruct (mask_bound n m) as (E & Lo & Hi); [lia | lia |].
  destruct (Z.leb_spec (n + m) FIXNUM_LENGTH).
  - rewrite one_bits_spec, <- E by lia. eexists. split; [reflexivity |].
    rewrite slong_small, LONG_TO_FIXNUM_fixnum by lia.
    apply int_repr_fixnum. unfold fixnum_range, Z.lnot. lia.
  - destruct (law_negative_zero_bits n m) as (b & -> & D); auto.
    eexists. split; [reflexivity |]. apply int_repr_big; [| exact D].
    unfold fixnum_range, Z.lnot. lia.
Qed.

(** *** Shifts *)

(** [x << m] fits when the length of [x] plus [m] does. *)
Lemma shift_fits x m k :
  0 <= x -> 0 <= m -> 0 <= k ->
  (m + bit_length x <= k -> x * 2 ^ m < 2 ^ k) /\ (0 < x -> k < m + bit_length x -> 2 ^ k <= x * 2 ^ m).
Proof.
  intros Hx Hm Hk. unfold bit_length. assert (P : 0 < 2 ^ m) by (apply Z.pow_pos_nonneg; lia).
  destruct (Z.eqb_spec x 0) as [-> | Nx].
  { pose proof (Z.pow_pos_nonneg 2 k). lia. }
  pose proof (Z.log2_spec x ltac:(lia)) as [L U]. pose proof (Z.log2_nonneg x). split; intros.
  - apply Z.lt_le_trans with (2 ^ (Z.log2 x + 1 + m)); [| apply Z.pow_le_mono_r; lia].
    rewrite (Z.pow_add_r 2 _ m) by lia. unfold Z.succ in U. nia.
  - apply Z.le_trans with (2 ^ (Z.log2 x + m)); [apply Z.pow_le_mono_r; lia |].
    rewrite Z.pow_add_r by lia. nia.
Qed.

(** The fast and the slow path of a shift, for a positive fixnum ... *)
Lemma shift_left_positive z m :
  0 < z -> fixnum_range z -> 0 < m <= capacity ->
  yields int_repr
    (if (m + ulong_length_in_bits (ulong z))%UL <=? FIXNUM_LENGTH then
       assert* shift_ok m in Some (Immediate (LONG_TO_FIXNUM (z << m)%SL))
     else big (bn_from_shifted_ulong (ulong z) m false)) (Z.shiftl z m).
Proof.
  intros Hz R Hm. pose proof capacity_eq. red in R. rewrite (ulong_small z) by lia.
  destruct (shift_fits z m 57) as [Lo Hi]; try lia.
  pose proof (bit_length_bound z 57 ltac:(lia) ltac:(lia)) as BL.
  rewrite ulong_length_in_bits_log2 by (red; lia). fold (bit_length z).
  rewrite (ulong_small (m + _)), Z.shiftl_mul_pow2 by lia.
  assert (0 < 2 ^ m) by (apply Z.pow_pos_nonneg; lia).
  destruct (Z.leb_spec (m + bit_length z) FIXNUM_LENGTH) as [L | G].
  - unfold shift_ok. destruct (Z.ltb_spec m 64); [| lia]. eexists. split; [reflexivity |].
    specialize (Lo L). assert (0 < z * 2 ^ m) by (apply Z.mul_pos_pos; lia).
    rewrite slong_small, LONG_TO_FIXNUM_fixnum by lia. apply int_repr_fixnum. unfold fixnum_range. lia.
  - destruct (law_from_shifted_ulong z m false) as (r & -> & Dr); [red; lia | lia |].
    rewrite Z.shiftl_mul_pow2 in Dr by lia.
    eexists. split; [reflexivity |]. apply int_repr_big; [| exact Dr].
    specialize (Hi ltac:(lia) G). unfold fixnum_range. lia.
Qed.

(** A negative number fits when its complement does. *)
Lemma shift_fits_negative x m :
  0 <= x -> 0 < m -> (m + bit_length x <= 57 <-> (x + 1) * 2 ^ m <= 2 ^ 57).
Proof.
  intros Hx Hm. unfold bit_length. assert (P : 0 < 2 ^ m) by (apply Z.pow_pos_nonneg; lia).
  destruct (Z.eqb_spec x 0) as [-> | Nx].
  - rewrite Z.add_0_l, Z.mul_1_l, Z.add_0_r. symmetry. symmetry. apply Z.pow_le_mono_r_iff; lia.
  - pose proof (Z.log2_spec x ltac:(lia)) as [L U]. pose proof (Z.log2_nonneg x).
    unfold Z.succ in U. split; intros G.
    + apply Z.le_trans with (2 ^ (Z.log2 x + 1 + m)); [| apply Z.pow_le_mono_r; lia].
      rewrite (Z.pow_add_r 2 _ m) by lia. apply Z.mul_le_mono_nonneg_r; lia.
    + assert (2 ^ (Z.log2 x + m) < 2 ^ 57); [| apply Z.pow_lt_mono_r_iff in H0; lia].
      rewrite Z.pow_add_r by lia. nia.
Qed.

(** ... and for a negative one. *)
Lemma shift_left_negative z m :
  z < 0 -> fixnum_range z -> 0 < m <= capacity ->
  yields int_repr
    (if (m + ulong_length_in_bits (ulong (Z.lnot z)))%UL <=? FIXNUM_LENGTH then
       assert* shift_ok m in Some (Immediate (LONG_TO_FIXNUM (- ((- z)%SL << m)%SL)%SL))
     else
       let* r := bn_from_shifted_ulong (ulong (- z)%SL) m false in
       big (bn_negate r)) (Z.shiftl z m).
Proof.
  intros Hz R Hm. pose proof capacity_eq. red in R. unfold Z.lnot.
  rewrite (ulong_small (Z.pred (- z))), (slong_small (- z)) by lia.
  pose proof (shift_fits_negative (Z.pred (- z)) m ltac:(lia) ltac:(lia)) as F.
  pose proof (bit_length_bound (Z.pred (- z)) 57 ltac:(lia) ltac:(lia)) as BL.
  rewrite ulong_length_in_bits_log2 by (red; lia). fold (bit_length (Z.pred (- z))).
  rewrite (ulong_small (m + _)), Z.shiftl_mul_pow2 by lia.
  assert (0 < 2 ^ m) by (apply Z.pow_pos_nonneg; lia).
  replace (Z.pred (- z) + 1) with (- z) in F by lia.
  rewrite Z.shiftl_mul_pow2 by lia. replace (z * 2 ^ m) with (- (- z * 2 ^ m)) by ring.
  assert (0 < - z * 2 ^ m) by (apply Z.mul_pos_pos; lia).
  destruct (Z.leb_spec (m + bit_length (Z.pred (- z))) FIXNUM_LENGTH) as [L | G].
  - unfold shift_ok. destruct (Z.ltb_spec m 64); [| lia]. eexists. split; [reflexivity |].
    rewrite (slong_small (- z * _)), slong_small, LONG_TO_FIXNUM_fixnum by lia.
    apply int_repr_fixnum. unfold fixnum_range. lia.
  - rewrite ulong_small by lia.
    destruct (law_from_shifted_ulong (- z) m false) as (r & -> & Dr); [red; lia | lia |].
    cbn [obind]. destruct (law_negate r _ Dr) as (r' & -> & Dr').
    cbn [sign] in Dr'. rewrite Z.shiftl_mul_pow2 in Dr' by lia.
    eexists. split; [reflexivity |]. apply int_repr_big; [unfold fixnum_range; lia | exact Dr'].
Qed.

Lemma integer_shift_left_repr n z m :
  int_repr n z -> within z -> 0 <= m <= capacity ->
  yields int_repr (integer_shift_left n m) (Z.shiftl z m).
Proof.
  intros H W Hm. unfold integer_shift_left.
  destruct (Z.eqb_spec m 0) as [-> | Nm]; [exists n; split; auto; now rewrite Z.shiftl_0_r |].
  unary H.
  - destruct (Z.ltb_spec z 0); [apply shift_left_negative; auto; lia |].
    destruct (Z.ltb_spec 0 z); [apply shift_left_positive; auto; lia |].
    replace z with 0 by lia. rewrite Z.shiftl_0_l. eexists. split; [reflexivity |].
    rewrite LONG_TO_FIXNUM_fixnum. apply int_repr_fixnum. red; lia.
  - destruct (law_shift_left blk z m D W Hm) as (r & -> & Dr). eexists. split; [reflexivity |].
    apply int_repr_big; [| exact Dr]. rewrite Z.shiftl_mul_pow2 by lia.
    assert (P : 2 <= 2 ^ m) by (apply (Z.pow_le_mono_r 2 1 m); lia).
    unfold fixnum_range in *. nia.
Qed.

(** A fixnum shifted right by less than the word length, any bignum. *)
Lemma integer_shift_right_repr n z m :
  int_repr n z -> within z -> 0 <= m ->
  if fixnum_rangeb z && negb (shift_ok m) then integer_shift_right n m = None
  else yields int_repr (integer_shift_right n m) (Z.shiftr z m).
Proof.
  intros H W Hm. unfold integer_shift_right.
  destruct (Z.eqb_spec m 0) as [-> | Nm].
  { change (shift_ok 0) with true. rewrite andb_false_r. exists n. split; auto. }
  assert (P : 2 <= 2 ^ m) by (apply (Z.pow_le_mono_r 2 1 m); lia).
  assert (A : Z.abs (Z.shiftr z m) <= Z.abs z).
  { rewrite shiftr_div by lia. pose proof (Z.div_mod z (2 ^ m) ltac:(lia)).
    pose proof (Z.mod_pos_bound z (2 ^ m) ltac:(lia)). nia. }
  destruct (int_repr_cases _ _ H) as [(R & -> & E) | (R & blk & -> & D & E)]; rewrite E.
  - rewrite (proj2 (fixnum_rangeb_spec z) R). rewrite fixnum_TO_LONG by exact R. cbn [andb].
    destruct (shift_ok m); [| reflexivity]. cbn [negb]. eexists. split; [reflexivity |].
    rewrite LONG_TO_FIXNUM_fixnum, lnot_shiftr, Z.lnot_involutive by lia.
    replace (if z <? 0 then _ else _) with (Z.shiftr z m) by now destruct (z <? 0).
    apply int_repr_fixnum. unfold fixnum_range in *.
    pose proof (Z.shiftr_nonneg z m). lia.
  - rewrite (proj2 (fixnum_rangeb_false z) R). cbn [andb as_bignum obind].
    apply normalize_yields; [now apply law_shift_right |].
    now apply within_within_sum, (within_le _ z).
Qed.
End Facts.

(** ** Properties of the implementation

    The generic integers over the bignums of bignum.c. *)

(** Small integers and one-block bignums are within the capacity. *)
Lemma within_pow z k : 0 <= k <= 1000 -> Z.abs z < 2 ^ k -> within z.
Proof.
  intros Hk Hz. unfold within. pose proof capacity_eq.
  assert (2 ^ k <= 2 ^ capacity) by (apply Z.pow_le_mono_r; lia). lia.
Qed.

Section Implementation.
Context {heap : Heap}.

Notation repr_integer := (int_repr (laws := bignum_laws)).

(** The object of a bignum block that is no fixnum. *)
Lemma big_repr b z : repr b z -> fixnum_rangeb z = false -> repr_integer (Big b) z.
Proof. intros R F. apply int_repr_big; [now apply fixnum_rangeb_false | exact R]. Qed.

(** C7: exact arithmetic on generic integers: for all canonical integers,
    fixnum or bignum in any combination, [integer_add], [integer_subtract],
    [integer_multiply], [integer_negate], [integer_add_1] and
    [integer_subtract_1] return the canonical object of the exact result: a
    fixnum whenever it fits in 58 bits, a trimmed bignum otherwise. *)
Theorem integer_arithmetic n m a b :
  repr_integer n a -> repr_integer m b -> within a -> within b ->
  yields repr_integer (integer_add n m) (a + b)
  /\ yields repr_integer (integer_subtract n m) (a - b)
  /\ (within (a * b) -> yields repr_integer (integer_multiply n m) (a * b))
  /\ yields repr_integer (integer_negate n) (- a)
  /\ yields repr_integer (integer_add_1 n) (a + 1)
  /\ yields repr_integer (integer_subtract_1 n) (a - 1).
Proof.
  intros Hn Hm Wa Wb. split; [now apply integer_add_repr |]. split; [now apply integer_subtract_repr |].
  split; [intros; now apply integer_multiply_repr |]. split; [now apply integer_negate_repr |].
  split; [now apply integer_add_1_repr | now apply integer_subtract_1_repr].
Qed.

(** C8: [integer_divide], [integer_quotient] and [integer_remainder] report a
    zero divisor ([SHARP_F] for the last two); otherwise they return the
    canonical quotient truncated toward zero and the remainder that takes the
    sign of the numerator, whatever the representation of the operands. *)
Theorem integer_division n m a b :
  repr_integer n a -> repr_integer m b -> within a ->
  (b = 0 -> integer_divide n m = Some None
     /\ integer_quotient n m = Some (Immediate SHARP_F)
     /\ integer_remainder n m = Some (Immediate SHARP_F))
  /\ (b <> 0 ->
     (exists q r, integer_divide n m = Some (Some (q, r))
        /\ repr_integer q (Z.quot a b) /\ repr_integer r (Z.rem a b))
     /\ yields repr_integer (integer_quotient n m) (Z.quot a b)
     /\ yields repr_integer (integer_remainder n m) (Z.rem a b)).
Proof.
  intros Hn Hm W. pose proof (integer_divide_repr n m a b Hn Hm W) as D.
  pose proof (integer_quotient_repr n m a b Hn Hm W) as Q.
  pose proof (integer_remainder_repr n m a b Hn Hm W) as R.
  destruct (Z.eqb_spec b 0); tauto.
Qed.

(** the predicates decide the order of the integers, not of their
    representations: zero, negative and positive tests, equality and less-than
    agree with the integers across fixnums and bignums. *)
Theorem integer_predicates n m a b :
  repr_integer n a -> repr_integer m b ->
  integer_zero_p n = Some (a =? 0)
  /\ integer_negative_p n = Some (a <? 0)
  /\ integer_positive_p n = Some (0 <? a)
  /\ integer_equal_p n m = Some (a =? b)
  /\ integer_less_p n m = Some (a <? b)
  /\ (integer_equal_p n m = Some true <-> n = m).
Proof.
  intros Hn Hm. destruct (integer_sign_repr n a Hn) as (-> & -> & ->).
  rewrite (integer_equal_p_repr n m a b Hn Hm), (integer_less_p_repr n m a b Hn Hm).
  do 5 (split; [reflexivity |]). split.
  - intros [= ->%Z.eqb_eq]. unfold int_repr in Hn, Hm.
    destruct (fixnum_rangeb b); [congruence |].
    destruct Hn as (x & -> & Dx). destruct Hm as (y & -> & Dy). f_equal. eapply repr_unique; eassumption.
  - intros ->. apply f_equal. apply Z.eqb_eq. unfold int_repr in Hn, Hm.
    destruct (fixnum_rangeb a) eqn:Ea, (fixnum_rangeb b) eqn:Eb.
    + apply fixnum_rangeb_spec in Ea. apply fixnum_rangeb_spec in Eb.
      rewrite <- (fixnum_TO_LONG a Ea), <- (fixnum_TO_LONG b Eb). congruence.
    + destruct Hm as (y & E & _). congruence.
    + destruct Hn as (y & E & _). congruence.
    + destruct Hn as (x & -> & Dx). destruct Hm as (y & E & Dy). injection E as <-.
      eapply repr_fun; eassumption.
Qed.

(** the ten generic bitwise operations and the complement give the
    canonical integer whose two's-complement bits are the truth table of the
    operation applied to the bits of the operands. *)
Theorem integer_bitwise_operations n m a b op :
  repr_integer n a -> repr_integer m b -> within a -> within b ->
  (exists r z, integer_bitwise op n m = Some r /\ repr_integer r z
     /\ forall i, 0 <= i -> Z.testbit z i = bitop_bool op (Z.testbit a i) (Z.testbit b i))
  /\ (exists r z, integer_bitwise_not n = Some r /\ repr_integer r z
     /\ forall i, 0 <= i -> Z.testbit z i = negb (Z.testbit a i)).
Proof.
  intros Hn Hm Wa Wb. split.
  - destruct (integer_bitwise_repr op n m a b Hn Hm Wa Wb) as (r & E & Hr).
    exists r, (bitop_Z op a b). split; [exact E |]. split; [exact Hr |]. intros. now apply bitop_Z_spec.
  - destruct (integer_bitwise_not_repr n a Hn Wa) as (r & E & Hr).
    exists r, (Z.lnot a). split; [exact E |]. split; [exact Hr |]. intros. now apply Z.lnot_spec.
Qed.

(** [integer_shift_left] multiplies by a power of two and
    [integer_shift_right] divides by one rounding down, with canonical
    results; the only inputs without a defined result are fixnums shifted
    right by 64 or more, where the C shift is undefined. *)
Theorem integer_shifts n z m :
  repr_integer n z -> within z -> 0 <= m ->
  (m <= capacity -> yields repr_integer (integer_shift_left n m) (z * 2 ^ m))
  /\ (m < 64 \/ ~ fixnum_range z -> yields repr_integer (integer_shift_right n m) (z / 2 ^ m))
  /\ (64 <= m -> fixnum_range z -> integer_shift_right n m = None).
Proof.
  intros H W Hm. rewrite <- Z.shiftl_mul_pow2, <- shiftr_div by lia.
  pose proof (integer_shift_right_repr n z m H W Hm) as R. unfold shift_ok in R.
  split; [intros; apply integer_shift_left_repr; auto |].
  split.
  - intros [L | N].
    + rewrite (proj2 (Z.ltb_lt m 64) L), andb_false_r in R. exact R.
    + apply fixnum_rangeb_false in N. rewrite N in R. exact R.
  - intros G F. apply fixnum_rangeb_spec in F. rewrite F, (proj2 (Z.ltb_ge m 64) G) in R. exact R.
Qed.

(** lengths, lowest set bit, bit count and Hamming distance of generic
    integers are the two's-complement ones, returned as canonical integers,
    and the mask constructors build the block of ones, or its complement. *)
Theorem integer_bit_metrics n m a b (same_p : bool) :
  repr_integer n a -> repr_integer m b -> within a -> within b -> (same_p = true -> n = m) ->
  yields repr_integer (integer_length_in_bits n) (bit_length (Z.abs a))
  /\ yields repr_integer (integer_length n) (bit_length (magnitude a))
  /\ yields repr_integer (integer_first_set_bit n) (trailing_zeros a)
  /\ yields repr_integer (integer_bit_count n) (popcount (magnitude a))
  /\ yields repr_integer (integer_hamming_distance same_p n m)
       (if xorb (a <? 0) (b <? 0) then -1 else popcount (Z.lxor a b))
  /\ forall p q, 0 <= p -> 0 <= q -> p + q <= capacity ->
       yields repr_integer (integer_nonnegative_one_bits p q) (Z.shiftl (Z.ones p) q)
       /\ yields repr_integer (integer_negative_zero_bits p q) (Z.lnot (Z.shiftl (Z.ones p) q)).
Proof.
  intros Hn Hm Wa Wb S. split; [now apply integer_length_in_bits_repr |].
  split; [now apply integer_length_repr |]. split; [now apply integer_first_set_bit_repr |].
  split; [now apply integer_bit_count_repr |]. split; [now apply integer_hamming_distance_repr |].
  intros p q Hp Hq Hpq.
  split; [now apply integer_nonnegative_one_bits_repr | now apply integer_negative_zero_bits_repr].
Qed.

(** [long_to_integer] and [ulong_to_integer] make the canonical integer
    of a word and [integer_to_long], [integer_to_ulong] give it back; on any
    canonical integer [integer_to_ulong_p] is exact, while
    [integer_to_long_p] also accepts the integers from -2^63 down to
    -(2^63 + 2^62) exclusive. *)
Theorem integer_word_conversions :
  (forall w, is_slong w -> exists n, long_to_integer w = Some n /\ repr_integer n w
     /\ integer_to_long n = Some w)
  /\ (forall w, is_ulong w -> exists n, ulong_to_integer w = Some n /\ repr_integer n w
     /\ integer_to_ulong n = Some w)
  /\ (forall n z, repr_integer n z -> within z ->
     integer_to_ulong_p n = Some ((0 <=? z) && (z <? 2 ^ 64))
     /\ integer_to_long_p n = Some ((- (2 ^ 63 + 2 ^ 62) <? z) && (z <? 2 ^ 63))).
Proof.
  split; [| split].
  - intros w Hw. destruct (long_to_integer_repr (laws := bignum_laws) w Hw) as (n & E & H).
    exists n. rewrite (integer_to_long_repr n w H), slong_small by exact Hw. auto.
  - intros w Hw. destruct (ulong_to_integer_repr (laws := bignum_laws) w Hw) as (n & E & H).
    exists n. rewrite (integer_to_ulong_repr n w H), ulong_small by (red in Hw; lia). auto.
  - intros n z H W. rewrite (integer_to_ulong_p_repr n z H W), (integer_to_long_p_repr n z H W). auto.
Qed.
End Implementation.

(** *** Witnesses *)

Ltac concrete_big := apply big_repr; [concrete_repr | reflexivity].
Ltac concrete_fixnum := apply int_repr_fixnum; unfold fixnum_range; lia.
Ltac concrete_within := apply (within_pow _ 200); vm_compute; intuition congruence.

Lemma integer_arithmetic_witness :
  let heap : Heap := fun _ => 77 in
  yields (int_repr (laws := bignum_laws))
    (integer_subtract (Big (block false [0; 1])) (Immediate (fixnum 3))) (BIGNUM_RADIX * 1 - 3).
Proof.
  intros heap.
  apply (integer_arithmetic (heap := heap) (Big (block false [0; 1])) (Immediate (fixnum 3))
    (BIGNUM_RADIX * 1) 3); (concrete_big || concrete_fixnum || concrete_within).
Defined.

Lemma integer_division_witness :
  let heap : Heap := fun _ => 77 in
  yields (int_repr (laws := bignum_laws))
    (integer_quotient (Big (block true [1; 2])) (Immediate (fixnum 7)))
    (Z.quot (- (1 + BIGNUM_RADIX * 2)) 7).
Proof.
  intros heap.
  destruct (integer_division (heap := heap) (Big (block true [1; 2])) (Immediate (fixnum 7))
    (- (1 + BIGNUM_RADIX * 2)) 7) as [_ H]; [concrete_big | concrete_fixnum | concrete_within |].
  apply H. lia.
Defined.

Lemma integer_predicates_witness :
  let heap : Heap := fun _ => 77 in
  integer_less_p (Immediate (fixnum 3)) (Big (block true [1; 2])) = Some false.
Proof.
  intros heap.
  apply (integer_predicates (heap := heap) (Immediate (fixnum 3)) (Big (block true [1; 2]))
    3 (- (1 + BIGNUM_RADIX * 2))); [concrete_fixnum | concrete_big].
Defined.

Lemma integer_bitwise_operations_witness :
  let heap : Heap := fun _ => 77 in
  exists r z, integer_bitwise op_eqv (Immediate (fixnum (-3))) (Big (block true [1; 2])) = Some r
    /\ int_repr (laws := bignum_laws) r z
    /\ forall i, 0 <= i ->
       Z.testbit z i = bitop_bool op_eqv (Z.testbit (-3) i) (Z.testbit (- (1 + BIGNUM_RADIX * 2)) i).
Proof.
  intros heap.
  apply (integer_bitwise_operations (heap := heap) (Immediate (fixnum (-3))) (Big (block true [1; 2]))
    (-3) (- (1 + BIGNUM_RADIX * 2)) op_eqv); (concrete_big || concrete_fixnum || concrete_within).
Defined.

Lemma integer_shifts_witness :
  let heap : Heap := fun _ => 77 in
  yields (int_repr (laws := bignum_laws)) (integer_shift_right (Immediate (fixnum (-7))) 1) ((-7) / 2 ^ 1).
Proof.
  intros heap.
  apply (integer_shifts (heap := heap) (Immediate (fixnum (-7))) (-7) 1);
    [concrete_fixnum | concrete_within | lia | lia].
Defined.

Lemma integer_bit_metrics_witness :
  let heap : Heap := fun _ => 77 in
  yields (int_repr (laws := bignum_laws)) (integer_length (Immediate (fixnum (-8)))) 3.
Proof.
  intros heap.
  apply (integer_bit_metrics (heap := heap) (Immediate (fixnum (-8))) (Immediate (fixnum 5)) (-8) 5 false);
    (concrete_fixnum || concrete_within || discriminate).
Defined.
