(* ===== verification/IntPrim.v ===== *)
(** * Integer and bignum primitives (src/src/microcode/intprm.c, bigprm.c and
      the argument checks of utils.c)

    The entry points that Scheme code calls: each checks the types and ranges
    of its arguments, calls the generic integer or bignum operation and
    returns an object or signals an error.  The primitives that convert to or
    from flonums are not here. *)

From Stdlib Require Import ZArith List Lia Bool.
From S2P Require Import Prelude Bits Bignum BignumAdd BignumMul BignumDiv BignumConv.
From S2P Require Import BignumBitwise BignumShift BignumSpec Object Fixnum Integer.
Import ListNotations.

Section Primitives.
Context {B : Type} {ops : BignumOps B}.
Notation SCHEME_OBJECT := (object B).

(** ** Arguments *)

Definition is_fixnum (n : SCHEME_OBJECT) : bool :=
  match as_fixnum n with Some _ => true | None => false end.
Definition BIGNUM_P (n : SCHEME_OBJECT) : bool :=
  match n with Big _ => true | Immediate _ => false end.
Definition INTEGER_P (n : SCHEME_OBJECT) : bool := is_fixnum n || BIGNUM_P n.

Definition CHECK_ARG (n : Z) (type_p : SCHEME_OBJECT -> bool) (argument : SCHEME_OBJECT) : prim unit :=
  if negb (type_p argument) then PRIMITIVE_ERROR (error_wrong_type_arg n) else PRIMITIVE_RETURN tt.

Definition arg_integer (n : Z) (argument : SCHEME_OBJECT) : prim Z :=
  let! _ := CHECK_ARG n INTEGER_P argument in
  let! p := lift (integer_to_long_p argument) in
  if negb p then PRIMITIVE_ERROR (error_bad_range_arg n) else lift (integer_to_long argument).

Definition arg_nonnegative_integer (n : Z) (argument : SCHEME_OBJECT) : prim Z :=
  let! result := arg_integer n argument in
  if result <? 0 then PRIMITIVE_ERROR (error_bad_range_arg n) else PRIMITIVE_RETURN result.

Definition arg_index_integer (n : Z) (argument : SCHEME_OBJECT) (upper_limit : Z) : prim Z :=
  let! result := arg_integer n argument in
  if (result <? 0) || (upper_limit <=? result) then PRIMITIVE_ERROR (error_bad_range_arg n)
  else PRIMITIVE_RETURN result.

Definition arg_integer_in_range (n : Z) (argument : SCHEME_OBJECT) (lower_limit upper_limit : Z)
  : prim Z :=
  let! result := arg_integer n argument in
  if (result <? lower_limit) || (upper_limit <=? result) then PRIMITIVE_ERROR (error_bad_range_arg n)
  else PRIMITIVE_RETURN result.

Definition arg_ulong_integer (n : Z) (argument : SCHEME_OBJECT) : prim Z :=
  let! _ := CHECK_ARG n INTEGER_P argument in
  let! p := lift (integer_to_ulong_p argument) in
  if negb p then PRIMITIVE_ERROR (error_bad_range_arg n) else lift (integer_to_ulong argument).

Definition arg_ulong_index_integer (n : Z) (argument : SCHEME_OBJECT) (upper_limit : Z) : prim Z :=
  let! result := arg_ulong_integer n argument in
  if upper_limit <=? result then PRIMITIVE_ERROR (error_bad_range_arg n) else PRIMITIVE_RETURN result.

Definition arg_ulong_integer_in_range (n : Z) (argument : SCHEME_OBJECT) (lower_limit upper_limit : Z)
  : prim Z :=
  let! result := arg_ulong_integer n argument in
  if negb ((lower_limit <=? result) && (result <? upper_limit))
  then PRIMITIVE_ERROR (error_bad_range_arg n) else PRIMITIVE_RETURN result.

(** ** Generic integers (intprm.c) *)

Definition boolean (b : bool) : SCHEME_OBJECT := Immediate (BOOLEAN_TO_OBJECT b).

Definition INTEGER_TEST (test : SCHEME_OBJECT -> option bool) (arg1 : SCHEME_OBJECT)
  : prim SCHEME_OBJECT :=
  let! _ := CHECK_ARG 1 INTEGER_P arg1 in
  let! b := lift (test arg1) in PRIMITIVE_RETURN (boolean b).

Definition Prim_integer_zero_p := INTEGER_TEST integer_zero_p.
Definition Prim_integer_negative_p := INTEGER_TEST integer_negative_p.
Definition Prim_integer_positive_p := INTEGER_TEST integer_positive_p.

Definition INTEGER_COMPARISON (comparison : SCHEME_OBJECT -> SCHEME_OBJECT -> option bool)
  (arg1 arg2 : SCHEME_OBJECT) : prim SCHEME_OBJECT :=
  let! _ := CHECK_ARG 1 INTEGER_P arg1 in
  let! _ := CHECK_ARG 2 INTEGER_P arg2 in
  let! b := lift (comparison arg1 arg2) in PRIMITIVE_RETURN (boolean b).

Definition Prim_integer_equal_p := INTEGER_COMPARISON integer_equal_p.
Definition Prim_integer_less_p := INTEGER_COMPARISON integer_less_p.
Definition Prim_integer_greater_p := INTEGER_COMPARISON (fun arg1 arg2 => integer_less_p arg2 arg1).

Definition INTEGER_BINARY_OPERATION
  (operator : SCHEME_OBJECT -> SCHEME_OBJECT -> option SCHEME_OBJECT)
  (arg1 arg2 : SCHEME_OBJECT) : prim SCHEME_OBJECT :=
  let! _ := CHECK_ARG 1 INTEGER_P arg1 in
  let! _ := CHECK_ARG 2 INTEGER_P arg2 in
  lift (operator arg1 arg2).

Definition Prim_integer_add := INTEGER_BINARY_OPERATION integer_add.
Definition Prim_integer_subtract := INTEGER_BINARY_OPERATION integer_subtract.
Definition Prim_integer_multiply := INTEGER_BINARY_OPERATION integer_multiply.
Definition Prim_integer_hamming_distance (same_p : bool) :=
  INTEGER_BINARY_OPERATION (integer_hamming_distance same_p).
Definition Prim_integer_bitwise (op : bitop) := INTEGER_BINARY_OPERATION (integer_bitwise op).

Definition INTEGER_UNARY_OPERATION (operator : SCHEME_OBJECT -> option SCHEME_OBJECT)
  (arg1 : SCHEME_OBJECT) : prim SCHEME_OBJECT :=
  let! _ := CHECK_ARG 1 INTEGER_P arg1 in lift (operator arg1).

Definition Prim_integer_negate := INTEGER_UNARY_OPERATION integer_negate.
Definition Prim_integer_add_1 := INTEGER_UNARY_OPERATION integer_add_1.
Definition Prim_integer_subtract_1 := INTEGER_UNARY_OPERATION integer_subtract_1.
Definition Prim_integer_length_in_bits := INTEGER_UNARY_OPERATION integer_length_in_bits.
Definition Prim_integer_length := INTEGER_UNARY_OPERATION integer_length.
Definition Prim_integer_first_set_bit := INTEGER_UNARY_OPERATION integer_first_set_bit.
Definition Prim_integer_bit_count := INTEGER_UNARY_OPERATION integer_bit_count.
Definition Prim_integer_bitwise_not := INTEGER_UNARY_OPERATION integer_bitwise_not.

(** [cons (quotient, remainder)] is a pair. *)
Definition Prim_integer_divide (arg1 arg2 : SCHEME_OBJECT) : prim (SCHEME_OBJECT * SCHEME_OBJECT) :=
  let! _ := CHECK_ARG 1 INTEGER_P arg1 in
  let! _ := CHECK_ARG 2 INTEGER_P arg2 in
  let! qr := lift (integer_divide arg1 arg2) in
  match qr with
  | None => PRIMITIVE_ERROR (error_bad_range_arg 2)
  | Some qr => PRIMITIVE_RETURN qr
  end.

Definition is_SHARP_F (n : SCHEME_OBJECT) : bool :=
  match n with Immediate w => w =? SHARP_F | Big _ => false end.

Definition INTEGER_QR (operator : SCHEME_OBJECT -> SCHEME_OBJECT -> option SCHEME_OBJECT)
  (arg1 arg2 : SCHEME_OBJECT) : prim SCHEME_OBJECT :=
  let! _ := CHECK_ARG 1 INTEGER_P arg1 in
  let! _ := CHECK_ARG 2 INTEGER_P arg2 in
  let! result := lift (operator arg1 arg2) in
  if is_SHARP_F result then PRIMITIVE_ERROR (error_bad_range_arg 2) else PRIMITIVE_RETURN result.

Definition Prim_integer_quotient := INTEGER_QR integer_quotient.
Definition Prim_integer_remainder := INTEGER_QR integer_remainder.

Definition Prim_integer_p (arg1 : SCHEME_OBJECT) : prim SCHEME_OBJECT :=
  PRIMITIVE_RETURN (boolean (INTEGER_P arg1)).

Definition Prim_integer_nonnegative_one_bits (arg1 arg2 : SCHEME_OBJECT) : prim SCHEME_OBJECT :=
  let! n := arg_ulong_integer 1 arg1 in
  let! m := arg_ulong_integer 2 arg2 in
  lift (integer_nonnegative_one_bits n m).

Definition Prim_integer_negative_zero_bits (arg1 arg2 : SCHEME_OBJECT) : prim SCHEME_OBJECT :=
  let! n := arg_ulong_integer 1 arg1 in
  let! m := arg_ulong_integer 2 arg2 in
  lift (integer_negative_zero_bits n m).

Definition Prim_integer_shift_left (arg1 arg2 : SCHEME_OBJECT) : prim SCHEME_OBJECT :=
  let! _ := CHECK_ARG 1 INTEGER_P arg1 in
  let! m := arg_ulong_integer 2 arg2 in
  lift (integer_shift_left arg1 m).

Definition Prim_integer_shift_right (n m : SCHEME_OBJECT) : prim SCHEME_OBJECT :=
  let! _ := CHECK_ARG 1 INTEGER_P n in
  match as_fixnum m with
  | Some m =>
      if FIXNUM_NEGATIVE_P m then PRIMITIVE_ERROR (error_bad_range_arg 2)
      else lift (integer_shift_right n (FIXNUM_TO_ULONG m))
  | None =>
      match m with
      | Big m =>
          if BIGNUM_NEGATIVE_P m then PRIMITIVE_ERROR (error_bad_range_arg 2)
          else PRIMITIVE_RETURN (Immediate FIXNUM_ZERO)
      | Immediate _ => PRIMITIVE_ERROR (error_wrong_type_arg 2)
      end
  end.

(** ** Bignums (bigprm.c) *)

(** [CHECK_ARG (n, BIGNUM_P)], and the block. *)
Definition arg_bignum (n : Z) (argument : SCHEME_OBJECT) : prim B :=
  let! _ := CHECK_ARG n BIGNUM_P argument in lift (as_bignum argument).

Definition BIGNUM_TEST (predicate : B -> bool) (arg1 : SCHEME_OBJECT) : prim SCHEME_OBJECT :=
  let! b := arg_bignum 1 arg1 in PRIMITIVE_RETURN (boolean (predicate b)).

Definition Prim_bignum_zero_p := BIGNUM_TEST BIGNUM_ZERO_P.
Definition Prim_bignum_negative_p := BIGNUM_TEST BIGNUM_NEGATIVE_P.
Definition Prim_bignum_positive_p := BIGNUM_TEST BIGNUM_POSITIVE_P.

Definition BIGNUM_COMPARISON (predicate : B -> B -> bool) (arg1 arg2 : SCHEME_OBJECT)
  : prim SCHEME_OBJECT :=
  let! x := arg_bignum 1 arg1 in let! y := arg_bignum 2 arg2 in
  PRIMITIVE_RETURN (boolean (predicate x y)).

Definition Prim_bignum_equal_p := BIGNUM_COMPARISON bn_equal_p.
Definition Prim_bignum_less_p := BIGNUM_COMPARISON BIGNUM_LESS_P.

Definition BIGNUM_BINARY (operator : B -> B -> option B) (arg1 arg2 : SCHEME_OBJECT)
  : prim SCHEME_OBJECT :=
  let! x := arg_bignum 1 arg1 in let! y := arg_bignum 2 arg2 in lift (big (operator x y)).

Definition Prim_bignum_add := BIGNUM_BINARY bn_add.
Definition Prim_bignum_subtract := BIGNUM_BINARY bn_subtract.
Definition Prim_bignum_multiply := BIGNUM_BINARY bn_multiply.

Definition Prim_bignum_divide (arg1 arg2 : SCHEME_OBJECT) : prim (SCHEME_OBJECT * SCHEME_OBJECT) :=
  let! x := arg_bignum 1 arg1 in let! y := arg_bignum 2 arg2 in
  let! qr := lift (bn_divide x y) in
  match qr with
  | None => PRIMITIVE_ERROR (error_bad_range_arg 2)
  | Some (quotient, remainder) => PRIMITIVE_RETURN (Big quotient, Big remainder)
  end.

Definition BIGNUM_QR (operator : B -> B -> option (option B)) (arg1 arg2 : SCHEME_OBJECT)
  : prim SCHEME_OBJECT :=
  let! x := arg_bignum 1 arg1 in let! y := arg_bignum 2 arg2 in
  let! result := lift (operator x y) in
  match result with
  | None => PRIMITIVE_ERROR (error_bad_range_arg 2)
  | Some result => PRIMITIVE_RETURN (Big result)
  end.

Definition Prim_bignum_quotient := BIGNUM_QR bn_quotient.
Definition Prim_bignum_remainder := BIGNUM_QR bn_remainder.

Definition Prim_fixnum_to_bignum (arg1 : SCHEME_OBJECT) : prim SCHEME_OBJECT :=
  match as_fixnum arg1 with
  | None => PRIMITIVE_ERROR (error_wrong_type_arg 1)
  | Some w => lift (big (FIXNUM_TO_BIGNUM w))
  end.

Definition Prim_bignum_to_fixnum (arg1 : SCHEME_OBJECT) : prim SCHEME_OBJECT :=
  let! b := arg_bignum 1 arg1 in lift (bignum_to_fixnum b).

(** The length itself, not a fixnum that holds it, is the object returned. *)
Definition Prim_bignum_length_in_bits (arg1 : SCHEME_OBJECT) : prim SCHEME_OBJECT :=
  let! b := arg_bignum 1 arg1 in PRIMITIVE_RETURN (Immediate (bn_length_in_bits b)).
End Primitives.

(** ** Lists of digits *)

(** A Scheme list, with the object that ends it. *)
Inductive slist (B : Type) :=
  | Pair (car : object B) (cdr : slist B)
  | EMPTY_LIST
  | Improper.
Arguments Pair {B}.
Arguments EMPTY_LIST {B}.
Arguments Improper {B}.

Section Lists.
Context {heap : Heap}.
Notation SCHEME_OBJECT := (object bignum).

(** Only called on a list that [check_digits] accepted; [context] is the rest
    of the list. *)
Definition list_to_integer_producer (context : slist bignum) : Z * slist bignum :=
  match context with
  | Pair (Immediate car) cdr => (uint (slong (OBJECT_DATUM car)), cdr)
  | _ => (0, context)
  end.

(** The loop that counts the digits. *)
Fixpoint check_digits (scan : slist bignum) (radix n_digits : Z) : prim Z :=
  match scan with
  | Pair digit cdr =>
      match as_fixnum digit with
      | None => PRIMITIVE_ERROR (error_wrong_type_arg 1)
      | Some w =>
          if FIXNUM_NEGATIVE_P w then PRIMITIVE_ERROR (error_wrong_type_arg 1)
          else if radix <=? ulong (slong (OBJECT_DATUM w)) then PRIMITIVE_ERROR (error_bad_range_arg 1)
          else
            let n_digits := uint (n_digits + 1) in
            match cdr with
            | EMPTY_LIST => PRIMITIVE_RETURN n_digits
            | _ => check_digits cdr radix n_digits
            end
      end
  | EMPTY_LIST | Improper => PRIMITIVE_ERROR (error_wrong_type_arg 1)
  end.

Definition Prim_list_to_integer (digits : slist bignum) (arg2 : SCHEME_OBJECT) (negative_p : bool)
  : prim SCHEME_OBJECT :=
  match digits with
  | Pair _ _ =>
      let! radix := arg_ulong_integer 2 arg2 in
      if (radix <? 2) || (bignum_max_digit_stream_radix <=? radix)
      then PRIMITIVE_ERROR (error_bad_range_arg 2)
      else
        let! n_digits := check_digits digits radix 0 in
        let! (b, _) :=
          lift (digit_stream_to_bignum n_digits list_to_integer_producer digits radix negative_p) in
        lift (bignum_to_integer b)
  | _ => PRIMITIVE_ERROR (error_wrong_type_arg 1)
  end.

Definition listify_bignum_consumer (previous_cdr : slist bignum) (digit : Z) : slist bignum :=
  Pair (Immediate (LONG_TO_UNSIGNED_FIXNUM digit)) previous_cdr.

(** [fuel]: see [bignum_to_digit_stream]. *)
Definition Prim_listify_bignum (fuel : nat) (arg1 arg2 : SCHEME_OBJECT) : prim (slist bignum) :=
  let! b := arg_bignum 1 arg1 in
  let! radix := arg_integer_in_range 2 arg2 2 bignum_max_digit_stream_radix in
  if BIGNUM_ZERO_P b then
    PRIMITIVE_RETURN (Pair (Immediate (LONG_TO_UNSIGNED_FIXNUM 0)) EMPTY_LIST)
  else
    let! previous_cdr := lift (bignum_to_digit_stream fuel b radix listify_bignum_consumer EMPTY_LIST) in
    PRIMITIVE_RETURN previous_cdr.
End Lists.

(** ** Facts *)

Section Facts.
Context {B : Type} {ops : BignumOps B} {laws : BignumLaws B}.

Lemma int_repr_INTEGER_P (n : object B) z : int_repr n z -> INTEGER_P n = true.
Proof.
  intros [(R & -> & E) | (R & b & -> & D & E)]%int_repr_cases; unfold INTEGER_P, is_fixnum;
    rewrite E; reflexivity.
Qed.

Lemma CHECK_ARG_integer i (n : object B) z :
  int_repr n z -> CHECK_ARG i INTEGER_P n = PRIMITIVE_RETURN tt.
Proof. intros H. unfold CHECK_ARG. now rewrite (int_repr_INTEGER_P n z H). Qed.

(** What [arg_ulong_integer] returns for an integer. *)
Lemma arg_ulong_integer_repr i (n : object B) z :
  int_repr n z -> within z ->
  arg_ulong_integer i n
  = if (0 <=? z) && (z <? 18446744073709551616) then PRIMITIVE_RETURN z
    else PRIMITIVE_ERROR (error_bad_range_arg i).
Proof.
  intros H W. unfold arg_ulong_integer. rewrite (CHECK_ARG_integer i n z H). cbn [pbind].
  rewrite (integer_to_ulong_p_repr n z H W). cbn [lift pbind].
  destruct ((0 <=? z) && (z <? 18446744073709551616))%bool eqn:E; cbn [negb]; [| reflexivity].
  reflect_bools. rewrite (integer_to_ulong_repr n z H) by lia. cbn [lift].
  now rewrite ulong_small by lia.
Qed.

(** A primitive on two integers returns what the operation yields. *)
Lemma binary_primitive operator (n m : object B) a b z :
  int_repr n a -> int_repr m b -> yields int_repr (operator n m) z ->
  exists r, INTEGER_BINARY_OPERATION operator n m = PRIMITIVE_RETURN r /\ int_repr r z.
Proof.
  intros Hn Hm (r & E & Hr). exists r. unfold INTEGER_BINARY_OPERATION.
  rewrite (CHECK_ARG_integer 1 n a Hn), (CHECK_ARG_integer 2 m b Hm). cbn [pbind]. now rewrite E.
Qed.

Lemma unary_primitive operator (n : object B) a z :
  int_repr n a -> yields int_repr (operator n) z ->
  exists r, INTEGER_UNARY_OPERATION operator n = PRIMITIVE_RETURN r /\ int_repr r z.
Proof.
  intros Hn (r & E & Hr). exists r. unfold INTEGER_UNARY_OPERATION.
  rewrite (CHECK_ARG_integer 1 n a Hn). cbn [pbind]. now rewrite E.
Qed.

Lemma test_primitive test (n : object B) a b :
  int_repr n a -> test n = Some b -> INTEGER_TEST test n = PRIMITIVE_RETURN (boolean b).
Proof.
  intros Hn E. unfold INTEGER_TEST. rewrite (CHECK_ARG_integer 1 n a Hn). cbn [pbind]. now rewrite E.
Qed.

Lemma comparison_primitive comparison (n m : object B) a b r :
  int_repr n a -> int_repr m b -> comparison n m = Some r ->
  INTEGER_COMPARISON comparison n m = PRIMITIVE_RETURN (boolean r).
Proof.
  intros Hn Hm E. unfold INTEGER_COMPARISON.
  rewrite (CHECK_ARG_integer 1 n a Hn), (CHECK_ARG_integer 2 m b Hm). cbn [pbind]. now rewrite E.
Qed.

(** Arguments that are no integers are refused, the first one first. *)
Lemma binary_wrong_type operator (n m : object B) :
  INTEGER_P n && INTEGER_P m = false ->
  INTEGER_BINARY_OPERATION operator n m
  = PRIMITIVE_ERROR (error_wrong_type_arg (if INTEGER_P n then 2 else 1)).
Proof.
  unfold INTEGER_BINARY_OPERATION, CHECK_ARG.
  destruct (INTEGER_P n), (INTEGER_P m); cbn [andb negb pbind]; congruence.
Qed.

Lemma qr_wrong_type operator (n m : object B) :
  INTEGER_P n && INTEGER_P m = false ->
  INTEGER_QR operator n m
  = PRIMITIVE_ERROR (error_wrong_type_arg (if INTEGER_P n then 2 else 1)).
Proof.
  unfold INTEGER_QR, CHECK_ARG.
  destruct (INTEGER_P n), (INTEGER_P m); cbn [andb negb pbind]; congruence.
Qed.

Lemma int_repr_not_SHARP_F (n : object B) z : int_repr n z -> is_SHARP_F n = false.
Proof.
  intros [(R & -> & E) | (R & b & -> & D & E)]%int_repr_cases; [apply fixnum_not_SHARP_F | reflexivity].
Qed.

Lemma qr_primitive operator (F : Z -> Z -> Z) (n m : object B) a b :
  int_repr n a -> int_repr m b ->
  (if b =? 0 then operator n m = Some (Immediate SHARP_F)
   else yields int_repr (operator n m) (F a b)) ->
  if b =? 0 then INTEGER_QR operator n m = PRIMITIVE_ERROR (error_bad_range_arg 2)
  else exists r, INTEGER_QR operator n m = PRIMITIVE_RETURN r /\ int_repr r (F a b).
Proof.
  intros Hn Hm. unfold INTEGER_QR.
  rewrite (CHECK_ARG_integer 1 n a Hn), (CHECK_ARG_integer 2 m b Hm). cbn [pbind].
  destruct (b =? 0); [now intros -> |]. intros (r & -> & Hr). exists r. cbn [lift pbind].
  now rewrite (int_repr_not_SHARP_F r _ Hr).
Qed.

Lemma divide_primitive (n m : object B) a b :
  int_repr n a -> int_repr m b -> within a ->
  if b =? 0 then Prim_integer_divide n m = PRIMITIVE_ERROR (error_bad_range_arg 2)
  else exists q r, Prim_integer_divide n m = PRIMITIVE_RETURN (q, r)
    /\ int_repr q (Z.quot a b) /\ int_repr r (Z.rem a b).
Proof.
  intros Hn Hm W. pose proof (integer_divide_repr n m a b Hn Hm W) as L. unfold Prim_integer_divide.
  rewrite (CHECK_ARG_integer 1 n a Hn), (CHECK_ARG_integer 2 m b Hm). cbn [pbind].
  destruct (b =? 0); [now rewrite L |]. destruct L as (q & r & -> & H). exists q, r. auto.
Qed.
End Facts.

(** *** Lists of digits *)

(** The Scheme list of the fixnums [ds]. *)
Definition digit_list (ds : list Z) : slist bignum :=
  fold_right (fun d l => Pair (Immediate (fixnum d)) l) EMPTY_LIST ds.

Section ListFacts.
Context {heap : Heap}.
Variable radix : Z.
Hypothesis Hradix : 1 < radix < BIGNUM_RADIX_ROOT.

Lemma digit_datum d : 0 <= d < radix -> OBJECT_DATUM (fixnum d) = d /\ FIXNUM_NEGATIVE_P (fixnum d) = false.
Proof using Hradix.
  intros Hd. rewrite fixnum_datum, Z.mod_small, fixnum_NEGATIVE_P by (unfold fixnum_range; lia).
  split; [reflexivity |]. apply Z.ltb_ge. lia.
Qed.

Lemma check_digits_ok ds : forall n,
  ds <> [] -> radix_digits radix ds -> 0 <= n -> n + Z.of_nat (length ds) < 4294967296 ->
  check_digits (digit_list ds) radix n = PRIMITIVE_RETURN (n + Z.of_nat (length ds)).
Proof using Hradix.
  induction ds as [|d ds IH]; intros n N Hs Hn Hl; [easy |].
  inversion_clear Hs as [|? ? Hd Hs']. cbn [digit_list fold_right check_digits as_fixnum].
  rewrite fixnum_P. destruct (digit_datum d Hd) as [-> ->].
  rewrite slong_small, ulong_small by lia. destruct (Z.leb_spec radix d); [lia |].
  cbn [length] in *. rewrite uint_small by lia.
  destruct ds as [|d' ds]; [reflexivity |].
  change (fold_right _ EMPTY_LIST (d' :: ds)) with (digit_list (d' :: ds)).
  rewrite IH; [| easy | auto | lia | lia]. cbn [digit_list fold_right]. f_equal. lia.
Qed.

(** Only proper lists of digits pass. *)
Lemma check_digits_inv l : forall n k,
  check_digits l radix n = PRIMITIVE_RETURN k ->
  exists ds, l = digit_list ds /\ ds <> [] /\ radix_digits radix ds.
Proof using Hradix.
  induction l as [car cdr IH | |]; intros n k; cbn [check_digits]; try discriminate.
  destruct (as_fixnum car) as [w |] eqn:E; [| discriminate].
  assert (F : car = Immediate w /\ FIXNUM_P w = true).
  { destruct car as [v | b]; cbn [as_fixnum] in E; [| discriminate].
    destruct (FIXNUM_P v) eqn:P; [| discriminate]. injection E as ->. auto. }
  destruct F as [-> F]. destruct (fixnum_inv w F) as (d & R & -> & _).
  rewrite fixnum_NEGATIVE_P, fixnum_datum, fixnum_mod by exact R. red in R.
  destruct (Z.ltb_spec d 0); [discriminate |]. rewrite slong_small, ulong_small by lia.
  destruct (Z.leb_spec radix d); [discriminate |]. intros H1.
  assert (T : cdr = EMPTY_LIST \/ exists n, check_digits cdr radix n = PRIMITIVE_RETURN k).
  { destruct cdr; [right; eexists; exact H1 | now left | right; eexists; exact H1]. }
  destruct T as [-> | (n' & T)].
  - exists [d]. split; [reflexivity |]. split; [discriminate |]. constructor; [lia | constructor].
  - destruct (IH n' k T) as (ds & -> & N & Hs). exists (d :: ds). split; [reflexivity |]. split; [discriminate |].
    constructor; [lia | exact Hs].
Qed.

Lemma stream_digit_list ds :
  radix_digits radix ds ->
  stream (length ds) list_to_integer_producer (digit_list ds) = (ds, EMPTY_LIST).
Proof using Hradix.
  induction ds as [|d ds IH]; intros Hs; [reflexivity |].
  inversion_clear Hs as [|? ? Hd Hs'].
  cbn [length stream digit_list fold_right list_to_integer_producer].
  change (fold_right _ EMPTY_LIST ds) with (digit_list ds). rewrite IH by exact Hs'.
  destruct (digit_datum d Hd) as [-> _]. rewrite slong_small, uint_small by lia. reflexivity.
Qed.

Lemma horner_range ds : forall v,
  0 <= v -> radix_digits radix ds ->
  0 <= horner radix v ds < (v + 1) * radix ^ Z.of_nat (length ds).
Proof using Hradix.
  induction ds as [|d ds IH]; intros v Hv Hs; unfold horner in *; cbn [fold_left length].
  - rewrite Z.pow_0_r. lia.
  - inversion_clear Hs as [|? ? Hd Hs']. rewrite Nat2Z.inj_succ, Z.pow_succ_r by lia.
    assert (0 < radix ^ Z.of_nat (length ds)) by (apply Z.pow_pos_nonneg; lia).
    specialize (IH (v * radix + d) ltac:(nia) Hs'). nia.
Qed.

Lemma horner_within ds :
  radix_digits radix ds -> Z.of_nat (length ds) * ulong_length_in_bits radix < 4294967296 ->
  within (horner radix 0 ds).
Proof using Hradix.
  intros Hs Hl. pose proof (horner_range ds 0 ltac:(lia) Hs) as R.
  destruct (length_bits_pow radix Hradix) as [L U]. pose proof capacity_eq. unfold within.
  assert (P : radix ^ Z.of_nat (length ds) <= 2 ^ (ulong_length_in_bits radix * Z.of_nat (length ds))).
  { rewrite Z.pow_mul_r by lia. apply Z.pow_le_mono_l. lia. }
  assert (2 ^ (ulong_length_in_bits radix * Z.of_nat (length ds)) <= 2 ^ capacity)
    by (apply Z.pow_le_mono_r; lia). lia.
Qed.

Lemma sign_within neg z : within z -> within (sign neg z).
Proof. unfold within. destruct neg; cbn [sign]; rewrite ?Z.abs_opp; auto. Qed.

(** Reading a list of digits gives the canonical integer. *)
Lemma list_to_integer_repr ds (neg : bool) :
  ds <> [] -> radix_digits radix ds ->
  Z.of_nat (length ds) * ulong_length_in_bits radix < 4294967296 ->
  exists r, Prim_list_to_integer (digit_list ds) (Immediate (fixnum radix)) neg = PRIMITIVE_RETURN r
    /\ int_repr r (sign neg (horner radix 0 ds)).
Proof using Hradix.
  intros N Hs Hl. unfold Prim_list_to_integer. destruct ds as [|d ds]; [easy |].
  set (l := d :: ds) in *. change (digit_list l) with (Pair (Immediate (fixnum d)) (digit_list ds)).
  assert (Rr : fixnum_range radix) by (unfold fixnum_range; lia).
  rewrite (arg_ulong_integer_repr 2 _ radix (int_repr_fixnum radix Rr) (within_fixnum radix Rr)).
  rewrite (proj2 (Z.leb_le 0 radix)), (proj2 (Z.ltb_lt radix _)) by lia. cbn [andb pbind].
  destruct (Z.ltb_spec radix 2); [lia |]. unfold bignum_max_digit_stream_radix.
  destruct (Z.leb_spec BIGNUM_RADIX_ROOT radix); [lia |]. cbn [orb].
  change (Pair (Immediate (fixnum d)) (digit_list ds)) with (digit_list l).
  destruct (length_bits_pow radix Hradix) as [L U].
  assert (0 <= Z.of_nat (length l) < 4294967296) by nia.
  rewrite check_digits_ok by (auto; lia). cbn [pbind]. rewrite Z.add_0_l.
  destruct (digit_stream_to_bignum_repr radix Hradix (Z.of_nat (length l)) list_to_integer_producer
    (digit_list l) neg) as (b & E & D); [lia | lia | |].
  { rewrite Nat2Z.id, stream_digit_list by exact Hs. exact Hs. }
  rewrite Nat2Z.id, stream_digit_list in E, D by exact Hs. rewrite E. cbn [fst lift pbind] in *.
  destruct (bignum_to_integer_repr (laws := bignum_laws) b _ D) as (r & -> & Hr).
  { apply within_within_sum, sign_within, horner_within; auto. }
  exists r. auto.
Qed.

Lemma fold_consumer zs : forall acc,
  radix_digits radix zs ->
  fold_left listify_bignum_consumer zs (digit_list acc) = digit_list (rev zs ++ acc).
Proof using Hradix.
  induction zs as [|z zs IH]; intros acc Hs; [reflexivity |].
  inversion_clear Hs as [|? ? Hz Hs']. cbn [fold_left rev]. unfold listify_bignum_consumer at 2.
  rewrite LONG_TO_UNSIGNED_FIXNUM_small by lia.
  change (Pair (Immediate (fixnum z)) (digit_list acc)) with (digit_list (z :: acc)).
  rewrite IH by exact Hs'. now rewrite <- app_assoc.
Qed.

(** Writing a bignum gives its digits, most significant first. *)
Lemma listify_bignum_repr b z :
  repr b z ->
  exists ds, Prim_listify_bignum (digit_stream_fuel (BIGNUM_LENGTH b)) (Big b) (Immediate (fixnum radix))
      = PRIMITIVE_RETURN (digit_list ds)
    /\ ds <> [] /\ radix_digits radix ds /\ horner radix 0 ds = Z.abs z
    /\ (z <> 0 -> hd 0 ds <> 0).
Proof using Hradix.
  intros H. unfold Prim_listify_bignum, arg_bignum, CHECK_ARG. cbn [BIGNUM_P negb pbind as_bignum lift].
  unfold arg_integer_in_range, arg_integer.
  assert (Rr : fixnum_range radix) by (unfold fixnum_range; lia).
  pose proof (int_repr_fixnum radix Rr) as Hr.
  rewrite (CHECK_ARG_integer 2 _ radix Hr). cbn [pbind].
  unfold integer_to_long_p. cbn [as_fixnum]. rewrite fixnum_P. cbn [lift pbind negb].
  rewrite (integer_to_long_repr _ radix Hr), slong_small by lia. cbn [lift pbind].
  destruct (Z.ltb_spec radix 2); [lia |]. unfold bignum_max_digit_stream_radix.
  destruct (Z.leb_spec BIGNUM_RADIX_ROOT radix); [lia |]. cbn [orb pbind].
  unfold BIGNUM_ZERO_P. rewrite (law_test (BignumLaws := bignum_laws) b z H). unfold comparison_of.
  destruct (Z.compare_spec z 0) as [-> | |].
  { exists [0]. rewrite LONG_TO_UNSIGNED_FIXNUM_small by lia. repeat split; try easy.
    constructor; [lia | constructor]. }
  all: destruct (bignum_to_digit_stream_repr radix Hradix b z listify_bignum_consumer EMPTY_LIST H)
    as (zs & -> & Hs & Ev & La); cbn [lift pbind]; exists (rev zs);
    change EMPTY_LIST with (digit_list []); rewrite fold_consumer by exact Hs;
    rewrite app_nil_r, horner_rev; repeat split; auto;
    [ intros Z0; apply (f_equal (@rev Z)) in Z0; rewrite rev_involutive in Z0; subst zs; cbn in Ev; lia
    | now apply Forall_rev
    | intros _; destruct zs as [|x zs] using rev_ind; [cbn in Ev; lia |];
      rewrite rev_app_distr; cbn [rev app hd]; now rewrite last_last in La ].
Qed.
End ListFacts.

(** ** Properties *)

Section Properties.
Context {heap : Heap}.
Notation repr_integer := (int_repr (laws := bignum_laws)).

(** the integer primitives check their arguments and are total: an
    argument that is no integer gives a wrong-type error that names the first
    bad argument, a zero divisor gives a bad-range error on argument 2, and
    otherwise the canonical exact result comes back. *)
Theorem integer_primitives (n m : object bignum) :
  (INTEGER_P n && INTEGER_P m = false ->
     let e := error_wrong_type_arg (if INTEGER_P n then 2 else 1) in
     Prim_integer_add n m = PRIMITIVE_ERROR e /\ Prim_integer_subtract n m = PRIMITIVE_ERROR e
     /\ Prim_integer_multiply n m = PRIMITIVE_ERROR e
     /\ Prim_integer_quotient n m = PRIMITIVE_ERROR e
     /\ Prim_integer_remainder n m = PRIMITIVE_ERROR e)
  /\ (forall a b, repr_integer n a -> repr_integer m b -> within a -> within b ->
     (exists r, Prim_integer_add n m = PRIMITIVE_RETURN r /\ repr_integer r (a + b))
     /\ (exists r, Prim_integer_subtract n m = PRIMITIVE_RETURN r /\ repr_integer r (a - b))
     /\ (within (a * b) ->
         exists r, Prim_integer_multiply n m = PRIMITIVE_RETURN r /\ repr_integer r (a * b))
     /\ (if b =? 0 then Prim_integer_quotient n m = PRIMITIVE_ERROR (error_bad_range_arg 2)
         else exists r, Prim_integer_quotient n m = PRIMITIVE_RETURN r /\ repr_integer r (Z.quot a b))
     /\ (if b =? 0 then Prim_integer_remainder n m = PRIMITIVE_ERROR (error_bad_range_arg 2)
         else exists r, Prim_integer_remainder n m = PRIMITIVE_RETURN r /\ repr_integer r (Z.rem a b))
     /\ (if b =? 0 then Prim_integer_divide n m = PRIMITIVE_ERROR (error_bad_range_arg 2)
         else exists q r, Prim_integer_divide n m = PRIMITIVE_RETURN (q, r)
           /\ repr_integer q (Z.quot a b) /\ repr_integer r (Z.rem a b))).
Proof.
  split.
  - intros E e. unfold Prim_integer_add, Prim_integer_subtract, Prim_integer_multiply.
    rewrite !binary_wrong_type by exact E. do 3 (split; [reflexivity |]).
    split; now apply qr_wrong_type.
  - intros a b Hn Hm Wa Wb.
    split; [apply (binary_primitive _ n m a b _ Hn Hm); now apply integer_add_repr |].
    split; [apply (binary_primitive _ n m a b _ Hn Hm); now apply integer_subtract_repr |].
    split; [intros; apply (binary_primitive _ n m a b _ Hn Hm); now apply integer_multiply_repr |].
    split; [apply qr_primitive; auto; now apply integer_quotient_repr |].
    split; [apply qr_primitive; auto; now apply integer_remainder_repr |].
    now apply divide_primitive.
Qed.

(** writing a bignum in a radix and reading it back: for every canonical
    bignum and every radix the primitives accept, [LISTIFY-BIGNUM] returns a
    nonempty proper list of digits, most significant first and without a
    leading zero (except for 0), and [LIST->INTEGER] turns that list back into
    the canonical integer; [LIST->INTEGER] accepts nothing but proper lists of
    digits of the radix. *)
Theorem listify_list_to_integer radix b z :
  1 < radix < BIGNUM_RADIX_ROOT -> repr b z ->
  (exists ds, Prim_listify_bignum (digit_stream_fuel (BIGNUM_LENGTH b)) (Big b) (Immediate (fixnum radix))
      = PRIMITIVE_RETURN (digit_list ds)
    /\ ds <> [] /\ radix_digits radix ds /\ (z <> 0 -> hd 0 ds <> 0)
    /\ (Z.of_nat (length ds) * ulong_length_in_bits radix < 4294967296 ->
        exists r, Prim_list_to_integer (digit_list ds) (Immediate (fixnum radix)) (z <? 0) = PRIMITIVE_RETURN r
          /\ repr_integer r z))
  /\ (forall l neg r, Prim_list_to_integer l (Immediate (fixnum radix)) neg = PRIMITIVE_RETURN r ->
        exists ds, l = digit_list ds /\ ds <> [] /\ radix_digits radix ds).
Proof.
  intros Hr R. split.
  - destruct (listify_bignum_repr radix Hr b z R) as (ds & E & N & Hs & Ho & Hd). exists ds.
    do 4 (split; [assumption |]). intros Hl.
    destruct (list_to_integer_repr radix Hr ds (z <? 0) N Hs Hl) as (r & E' & H). exists r.
    split; [exact E' |]. rewrite Ho in H. replace z with (sign (z <? 0) (Z.abs z)); [exact H |].
    destruct (Z.ltb_spec z 0); cbn [sign]; lia.
  - intros l neg r. unfold Prim_list_to_integer. destruct l as [car cdr | |]; try discriminate.
    assert (Rr : fixnum_range radix) by (unfold fixnum_range; lia).
    rewrite (arg_ulong_integer_repr 2 _ radix (int_repr_fixnum radix Rr) (within_fixnum radix Rr)).
    rewrite (proj2 (Z.leb_le 0 radix)), (proj2 (Z.ltb_lt radix _)) by lia. cbn [andb pbind].
    destruct (_ || _)%bool; [discriminate |].
    destruct (check_digits (Pair car cdr) radix 0) eqn:C; cbn [pbind]; [| discriminate].
    intros _. eapply check_digits_inv; eassumption.
Qed.
(** the shift primitives on every kind of count.  A count that is no
    integer is a wrong-type error and a negative one a bad-range error, both
    on argument 2; [INTEGER-SHIFT-LEFT] by a small enough count multiplies by
    the power of two; [INTEGER-SHIFT-RIGHT] by a fixnum count below 64 is floor
    division by the power of two; by a positive bignum count it returns 0,
    which is the floor for nonnegative numbers only. *)
Theorem shift_primitives (n m : object bignum) z :
  repr_integer n z -> within z ->
  (INTEGER_P m = false ->
     Prim_integer_shift_left n m = PRIMITIVE_ERROR (error_wrong_type_arg 2)
     /\ Prim_integer_shift_right n m = PRIMITIVE_ERROR (error_wrong_type_arg 2))
  /\ (forall k, repr_integer m k -> within k ->
     (k < 0 -> Prim_integer_shift_left n m = PRIMITIVE_ERROR (error_bad_range_arg 2)
        /\ Prim_integer_shift_right n m = PRIMITIVE_ERROR (error_bad_range_arg 2))
     /\ (0 <= k <= capacity ->
        exists r, Prim_integer_shift_left n m = PRIMITIVE_RETURN r /\ repr_integer r (z * 2 ^ k))
     /\ (0 <= k < 64 ->
        exists r, Prim_integer_shift_right n m = PRIMITIVE_RETURN r /\ repr_integer r (z / 2 ^ k))
     /\ (0 <= k -> ~ fixnum_range k ->
        Prim_integer_shift_right n m = PRIMITIVE_RETURN (Immediate (fixnum 0)))).
Proof.
  intros Hn W. unfold Prim_integer_shift_left, Prim_integer_shift_right.
  rewrite (CHECK_ARG_integer 1 n z Hn). cbn [pbind]. split.
  - unfold INTEGER_P, is_fixnum, arg_ulong_integer, CHECK_ARG. intros E.
    apply orb_false_iff in E as [E1 E2]. unfold INTEGER_P, is_fixnum.
    destruct m as [w | b]; [| discriminate]. cbn [as_fixnum] in *.
    destruct (FIXNUM_P w); [discriminate |]. split; reflexivity.
  - intros k Hm Wk. rewrite (arg_ulong_integer_repr 2 m k Hm Wk). pose proof capacity_eq.
    destruct (int_repr_cases m k Hm) as [(R & -> & ->) | (R & b & -> & D & ->)].
    + rewrite fixnum_NEGATIVE_P by exact R. unfold FIXNUM_TO_ULONG.
      rewrite fixnum_datum, fixnum_mod by exact R. pose proof R as Rk. red in Rk.
      split; [| split; [| split; [| tauto]]]; intros Hk.
      * destruct (Z.leb_spec 0 k), (Z.ltb_spec k 0); try lia. split; reflexivity.
      * destruct (Z.leb_spec 0 k), (Z.ltb_spec k 18446744073709551616); try lia. cbn [andb pbind].
        destruct (integer_shift_left_repr n z k Hn W Hk) as (r & -> & Hr). exists r.
        rewrite <- Z.shiftl_mul_pow2 by lia. auto.
      * destruct (Z.ltb_spec k 0); [lia |].
        pose proof (integer_shift_right_repr n z k Hn W ltac:(lia)) as S. unfold shift_ok in S.
        destruct (Z.ltb_spec k 64); [| lia]. rewrite andb_false_r in S.
        destruct S as (r & -> & Hr). exists r. rewrite <- shiftr_div by lia. auto.
    + unfold BIGNUM_NEGATIVE_P. rewrite (law_test (BignumLaws := bignum_laws) b k D). unfold comparison_of.
      unfold fixnum_range in R. split; [| split; [| split]]; intros Hk.
      * destruct (Z.leb_spec 0 k); [lia |].
        destruct (Z.compare_spec k 0) as [E | E | E]; [lia | split; reflexivity | lia].
      * lia.
      * lia.
      * intros _. destruct (Z.compare_spec k 0); [reflexivity | lia | reflexivity].
Qed.
End Properties.

Lemma integer_primitives_witness :
  let heap : Heap := fun _ => 77 in
  exists q r, Prim_integer_divide (Immediate (fixnum (-7))) (Immediate (fixnum 2)) = PRIMITIVE_RETURN (q, r)
    /\ int_repr (laws := bignum_laws) q (-3) /\ int_repr (laws := bignum_laws) r (-1).
Proof.
  intros heap.
  destruct (integer_primitives (heap := heap) (Immediate (fixnum (-7))) (Immediate (fixnum 2))) as [_ H].
  apply (H (-7) 2); (concrete_fixnum || concrete_within).
Defined.

Lemma listify_list_to_integer_witness :
  let heap : Heap := fun _ => 77 in
  exists ds, Prim_listify_bignum (digit_stream_fuel 2) (Big (block true [1; 2])) (Immediate (fixnum 10))
      = PRIMITIVE_RETURN (digit_list ds)
    /\ ds <> [] /\ radix_digits 10 ds.
Proof.
  intros heap.
  destruct (listify_list_to_integer (heap := heap) 10 (block true [1; 2]) (- (1 + BIGNUM_RADIX * 2)))
    as [(ds & E & N & Hs & _) _]; [lia | concrete_repr |].
  exists ds. split; [exact E |]. split; assumption.
Defined.

Lemma shift_primitives_witness :
  let heap : Heap := fun _ => 77 in
  exists r, Prim_integer_shift_right (Immediate (fixnum (-7))) (Immediate (fixnum 1)) = PRIMITIVE_RETURN r
    /\ int_repr (laws := bignum_laws) r ((-7) / 2 ^ 1).
Proof.
  intros heap.
  destruct (shift_primitives (heap := heap) (Immediate (fixnum (-7))) (Immediate (fixnum 1)) (-7))
    as [_ H]; [concrete_fixnum | concrete_within |].
  apply (H 1); [concrete_fixnum | concrete_within | lia].
Defined.

(** ** Where the primitives go wrong *)

(** [INTEGER-SHIFT-RIGHT] by a bignum count answers 0 even for a negative
    number, whose shifts are all negative. *)
Theorem shift_right_by_bignum_is_zero :
  let heap : Heap := fun _ => 77 in
  Prim_integer_shift_right (Immediate (fixnum (-1))) (Big (block false [0; 1]))
  = PRIMITIVE_RETURN (Immediate FIXNUM_ZERO)
  /\ Z.shiftr (-1) (2 ^ 62) = -1.
Proof.
  intros heap. split; [reflexivity |].
  apply Z.bits_inj'. intros i Hi. rewrite Z.shiftr_spec by exact Hi.
  rewrite !Z.bits_m1; auto. apply Z.add_nonneg_nonneg; auto. lia.
Qed.

(** [BIGNUM-LENGTH-IN-BITS] returns a bare word: for a bignum of 63 bits, an
    object of type [TC_FALSE]. *)
Theorem bignum_length_in_bits_is_no_integer :
  let heap : Heap := fun _ => 77 in
  exists w, Prim_bignum_length_in_bits (Big (block false [0; 1])) = PRIMITIVE_RETURN (Immediate w)
    /\ FIXNUM_P w = false /\ OBJECT_TYPE w = TC_FALSE.
Proof. intros heap. exists 63. repeat split. Qed.

(** [GCD-FIXNUM] of the most negative fixnum and 0 is negative. *)
Theorem gcd_fixnum_wraps :
  Prim_gcd_fixnum (fixnum SMALLEST_FIXNUM) (fixnum 0) = Some (PRIMITIVE_RETURN (fixnum SMALLEST_FIXNUM)).
Proof. reflexivity. Qed.

(** [INTEGER-SHIFT-RIGHT] of a fixnum by 64 reaches an undefined C shift. *)
Theorem shift_right_by_64_undefined :
  let heap : Heap := fun _ => 77 in
  integer_shift_right (Immediate (fixnum 5)) 64 = None.
Proof. reflexivity. Qed.
