(* ===== verification/Memory.v ===== *)
(** * Word-addressed memory (src/src/microcode/object.h, memmag.h, vector.c)

    The heap as the primitives on unboxed vectors see it: a function from word
    addresses to 64-bit words, the [Free] pointer and the allocation limit.
    An address counts words, so [ptr + 1] is C's [ptr + 1].  The file also has
    the view of memory as a line of bits, least significant bit of each word
    first, in which the bit string operations are specified. *)

From Stdlib Require Import ZArith List Lia Bool.
From S2P Require Import Prelude Object.
Import ListNotations.

Definition memory := Z -> Z.

(** [*a = v] *)
Definition store (m : memory) (a v : Z) : memory := fun b => if b =? a then v else m b.

(** [GC_ENABLED_P] says whether the garbage collection interrupt is enabled. *)
Record machine := mk_machine {
  mem : memory;
  Free : Z;
  heap_start : Z;
  heap_alloc_limit : Z;
  GC_ENABLED_P : bool
}.

Definition set_mem (s : machine) (m : memory) : machine :=
  mk_machine m (Free s) (heap_start s) (heap_alloc_limit s) (GC_ENABLED_P s).

Definition FREE_OK_P (s : machine) : bool :=
  (heap_start s <=? Free s) && (Free s <? heap_alloc_limit s).

Definition HEAP_AVAILABLE_P (s : machine) (n_words : Z) : bool :=
  FREE_OK_P s && (Free s + n_words <=? heap_alloc_limit s).

Definition GC_NEEDED_P (s : machine) (n_words : Z) : bool :=
  negb (HEAP_AVAILABLE_P s n_words) && GC_ENABLED_P s.

Definition MEMORY_REF (m : memory) (obj i : Z) : Z := m (obj + i).
Definition MEMORY_SET (m : memory) (obj i value : Z) : memory := store m (obj + i) value.
Definition VECTOR_LENGTH (m : memory) (v : Z) : Z := OBJECT_DATUM (MEMORY_REF m v 0).

Notation TC_MANIFEST_NM_VECTOR := 39.
Notation TC_MANIFEST_VECTOR := TC_FALSE.

(** The new object is given by its address. *)
Definition allocate_vector (manifest_type length : Z) (s : machine) : Z * machine :=
  let result := Free s in
  let m := store (mem s) (Free s) (MAKE_OBJECT manifest_type length) in
  (result, mk_machine m (Free s + 1 + length) (heap_start s) (heap_alloc_limit s) (GC_ENABLED_P s)).

Definition allocate_non_marked_vector (length : Z) (gc_check_p : bool) (s : machine)
  : prim (Z * machine) :=
  if gc_check_p && GC_NEEDED_P s (1 + length)%UL then PRIMITIVE_ERROR (Primitive_GC (1 + length)%UL)
  else PRIMITIVE_RETURN (allocate_vector TC_MANIFEST_NM_VECTOR length s).

(** The fill loop of [make_vector]. *)
Fixpoint fill (m : memory) (a : Z) (n : nat) (contents : Z) : memory :=
  match n with O => m | S n => fill (store m a contents) (a + 1) n contents end.

Definition fill_vector (length contents : Z) (s : machine) : Z * machine :=
  let result := Free s in
  let m := store (mem s) (Free s) (MAKE_OBJECT TC_MANIFEST_VECTOR length) in
  (result, mk_machine (fill m (Free s + 1) (Z.to_nat length) contents) (Free s + 1 + length)
             (heap_start s) (heap_alloc_limit s) (GC_ENABLED_P s)).

Definition make_vector (length contents : Z) (gc_check_p : bool) (s : machine) : prim (Z * machine) :=
  if gc_check_p && GC_NEEDED_P s (length + 1)%UL then PRIMITIVE_ERROR (Primitive_GC (length + 1)%UL)
  else PRIMITIVE_RETURN (fill_vector length contents s).

(** ** Facts *)

Lemma fill_spec n contents : forall m a x,
  fill m a n contents x = if (a <=? x) && (x <? a + Z.of_nat n) then contents else m x.
Proof.
  induction n as [|n IH]; intros m a x; cbn [fill].
  - destruct (Z.leb_spec a x), (Z.ltb_spec x (a + Z.of_nat 0)); auto; lia.
  - rewrite IH. unfold store.
    destruct (Z.leb_spec (a + 1) x), (Z.ltb_spec x (a + 1 + Z.of_nat n)), (Z.leb_spec a x),
      (Z.ltb_spec x (a + Z.of_nat (S n))), (Z.eqb_spec x a); cbn [andb]; auto; lia.
Qed.

(** Memory holds 64-bit words. *)
Definition words (m : memory) : Prop := forall a, is_ulong (m a).

Lemma words_store m a v : words m -> is_ulong v -> words (store m a v).
Proof. intros H Hv b. unfold store. destruct (b =? a); auto. Qed.

Lemma store_same m a v : store m a v a = v.
Proof. unfold store. now rewrite Z.eqb_refl. Qed.

Lemma store_other m a v b : b <> a -> store m a v b = m b.
Proof. intros H. unfold store. destruct (Z.eqb_spec b a); congruence. Qed.

(** *** Bits of memory *)

(** Bit [p] of memory: bit [p mod 64] of word [p / 64]. *)
Definition mem_bit (m : memory) (p : Z) : bool := Z.testbit (m (p / 64)) (p mod 64).

Lemma bit_address w i : 0 <= i < 64 -> (64 * w + i) / 64 = w /\ (64 * w + i) mod 64 = i.
Proof.
  intros H. split.
  - symmetry. apply (Z.div_unique_pos _ _ _ i); lia.
  - symmetry. apply (Z.mod_unique_pos _ _ w); lia.
Qed.

Lemma mem_bit_at m w i : 0 <= i < 64 -> mem_bit m (64 * w + i) = Z.testbit (m w) i.
Proof. intros H. unfold mem_bit. now destruct (bit_address w i H) as [-> ->]. Qed.

Lemma split_address p : exists w i, 0 <= i < 64 /\ p = 64 * w + i.
Proof.
  exists (p / 64), (p mod 64). split; [apply Z.mod_pos_bound; lia | apply Z.div_mod; lia].
Qed.

Lemma mem_bit_store m a v w i :
  0 <= i < 64 ->
  mem_bit (store m a v) (64 * w + i) = if w =? a then Z.testbit v i else mem_bit m (64 * w + i).
Proof.
  intros H. rewrite !mem_bit_at by exact H. unfold store. now destruct (w =? a).
Qed.

Lemma word_testbit_high m a i : words m -> 64 <= i -> Z.testbit (m a) i = false.
Proof. intros W H. apply (testbit_high (m a) 64); [apply W | exact H]. Qed.

(** [m'] is [m] with [n] bits copied from below bit address [e1] to below
    [e2]. *)
Definition bits_copied (m m' : memory) (e1 e2 n : Z) : Prop :=
  words m' /\
  forall p, mem_bit m' p
    = if (e2 - n <=? p) && (p <? e2) then mem_bit m (p - e2 + e1) else mem_bit m p.

Lemma bits_copied_none m e1 e2 : words m -> bits_copied m m e1 e2 0.
Proof.
  intros W. split; [exact W |]. intros p.
  destruct (Z.leb_spec (e2 - 0) p), (Z.ltb_spec p e2); cbn [andb]; auto; lia.
Qed.

(** A copy from the top down can be done in chunks when the source does not
    lie above the destination and overlap it. *)
Lemma bits_copied_app m m1 m2 e1 e2 k n :
  0 <= k -> 0 <= n -> e1 <= e2 \/ e2 <= e1 - (k + n) ->
  bits_copied m m1 e1 e2 k -> bits_copied m1 m2 (e1 - k) (e2 - k) n ->
  bits_copied m m2 e1 e2 (k + n).
Proof.
  intros Hk Hn Ov [_ H1] [W H2]. split; [exact W |]. intros p. rewrite H2.
  replace (p - (e2 - k) + (e1 - k)) with (p - e2 + e1) by lia.
  destruct (Z.leb_spec (e2 - k - n) p), (Z.ltb_spec p (e2 - k)); cbn [andb].
  - rewrite H1. destruct (Z.leb_spec (e2 - k) (p - e2 + e1)), (Z.ltb_spec (p - e2 + e1) e2);
      cbn [andb]; destruct (Z.leb_spec (e2 - (k + n)) p), (Z.ltb_spec p e2); cbn [andb]; auto; lia.
  - rewrite H1. destruct (Z.leb_spec (e2 - k) p), (Z.ltb_spec p e2), (Z.leb_spec (e2 - (k + n)) p);
      cbn [andb]; auto; lia.
  - rewrite H1. destruct (Z.leb_spec (e2 - k) p), (Z.ltb_spec p e2), (Z.leb_spec (e2 - (k + n)) p);
      cbn [andb]; auto; lia.
  - lia.
Qed.

(** One word written, and what a copy of [n] bits inside it must do. *)
Lemma bits_copied_word m d v e1 e2 n :
  words m -> is_ulong v ->
  64 * d <= e2 - n -> 0 <= n -> e2 <= 64 * d + 64 ->
  (forall i, 0 <= i < 64 ->
     Z.testbit v i = if (e2 - n - 64 * d <=? i) && (i <? e2 - 64 * d)
                     then mem_bit m (64 * d + i - e2 + e1) else Z.testbit (m d) i) ->
  bits_copied m (store m d v) e1 e2 n.
Proof.
  intros W Hv Hlo Hn Hhi H. split; [now apply words_store |].
  intros p. destruct (split_address p) as (w & i & Hi & ->).
  rewrite mem_bit_store by exact Hi. destruct (Z.eqb_spec w d) as [-> | N].
  - rewrite H, mem_bit_at by exact Hi.
    destruct (Z.leb_spec (e2 - n - 64 * d) i), (Z.leb_spec (e2 - n) (64 * d + i)); try lia;
      destruct (Z.ltb_spec i (e2 - 64 * d)), (Z.ltb_spec (64 * d + i) e2); try lia; reflexivity.
  - destruct (Z.leb_spec (e2 - n) (64 * w + i)), (Z.ltb_spec (64 * w + i) e2); cbn [andb]; auto; lia.
Qed.

(** *** Words from words *)

Create HintDb words discriminated.

Lemma is_ulong_land x y : is_ulong x -> is_ulong (x & y).
Proof.
  intros H. apply (nonneg_bits _ 64); [lia |]. intros i Hi.
  rewrite Z.land_spec, (testbit_high x 64) by (exact H || exact Hi). reflexivity.
Qed.

Lemma is_ulong_ldiff x y : is_ulong x -> is_ulong (x &~ y).
Proof.
  intros H. apply (nonneg_bits _ 64); [lia |]. intros i Hi.
  rewrite Z.ldiff_spec, (testbit_high x 64) by (exact H || exact Hi). reflexivity.
Qed.

Lemma is_ulong_lor x y : is_ulong x -> is_ulong y -> is_ulong (x .| y).
Proof. intros Hx Hy. apply (lor_range x y 64); (lia || assumption). Qed.

Lemma is_ulong_lxor x y : is_ulong x -> is_ulong y -> is_ulong (x ^^ y).
Proof. intros Hx Hy. apply (lxor_range x y 64); (lia || assumption). Qed.

Lemma is_ulong_shiftr x k : 0 <= k -> is_ulong x -> is_ulong (x >>> k).
Proof.
  intros Hk H. apply (nonneg_bits _ 64); [lia |]. intros i Hi.
  rewrite Z.shiftr_spec by lia. apply (testbit_high x 64); [exact H | lia].
Qed.

Lemma words_word m a : words m -> is_ulong (m a).
Proof. auto. Qed.

#[export] Hint Resolve is_ulong_land is_ulong_ldiff is_ulong_lor is_ulong_lxor is_ulong_shiftr
  words_word words_store ulong_range : words.
#[export] Hint Extern 2 (0 <= _) => lia : words.
#[export] Hint Extern 3 (is_ulong 0) => (split; reflexivity || discriminate) : words.

Lemma mem_bit_eq m p w j : p = 64 * w + j -> 0 <= j < 64 -> mem_bit m p = Z.testbit (m w) j.
Proof. intros -> H. now apply mem_bit_at. Qed.

(** A word is determined by its bits. *)
Lemma word_ext m m' a :
  words m -> words m' -> (forall i, 0 <= i < 64 -> mem_bit m' (64 * a + i) = mem_bit m (64 * a + i)) ->
  m' a = m a.
Proof.
  intros W W' H. apply Z.bits_inj'. intros i Hi. destruct (Z.ltb_spec i 64).
  - specialize (H i ltac:(lia)). now rewrite !mem_bit_at in H by lia.
  - rewrite (testbit_high (m a) 64), (testbit_high (m' a) 64); auto; (apply W || apply W').
Qed.
