(* ===== verification/BitCopy.v ===== *)
(** * Copying bits (src/src/microcode/bitstr.c [copy_bits], bitstr.h)

    [copy_bits] moves a run of bits from one place in memory to another, word
    by word and from the most significant end down, in one of three ways that
    depend on how the two runs lie relative to word boundaries.  A pointer
    [ptr] stands for the word below it ([BIT_STRING_WORD]), so the run with
    offset [o] at [ptr] ends just below bit [64 * ptr - o] of memory.  Every
    load is from the memory that the stores before it have left. *)

From Stdlib Require Import ZArith List Lia Bool.
From S2P Require Import Prelude BignumConv Object Memory.
Import ListNotations.

(** ** Masks (bitstr.h) *)

Notation OBJECT_LENGTH := 64.

Definition LOW_MASK (nbits : Z) : Z := ((1 << nbits)%SL - 1)%SL.
Definition ANY_MASK (nbits offset : Z) : Z := (LOW_MASK nbits << offset)%SL.

Definition BIT_STRING_WORD (m : memory) (ptr : Z) : Z := m (ptr - 1).

(** An assignment to [BIT_STRING_WORD (ptr)]. *)
Definition set_BIT_STRING_WORD (m : memory) (ptr v : Z) : memory := store m (ptr - 1) v.

(** [MASKED_TRANSFER] *)
Definition MASKED_TRANSFER (m : memory) (source destination nbits offset : Z) : memory :=
  let mask := ANY_MASK nbits offset in
  set_BIT_STRING_WORD m destination
    ((BIT_STRING_WORD m source & mask) .| (BIT_STRING_WORD m destination &~ mask)).

(** ** The three loops

    Each returns the memory, the two pointers and the number of bits left. *)

Fixpoint copy_aligned (fuel : nat) (m : memory) (source destination nbits : Z)
  : option (memory * Z * Z * Z) :=
  if OBJECT_LENGTH <=? nbits then
    match fuel with
    | O => None
    | S fuel =>
        let m := store m (destination - 1) (m (source - 1)) in
        copy_aligned fuel m (source - 1) (destination - 1) (nbits - OBJECT_LENGTH)
    end
  else Some (m, source, destination, nbits).

Fixpoint copy_down (fuel : nat) (m : memory) (source destination nbits offset1 offset2 : Z)
  : option (memory * Z * Z * Z) :=
  if OBJECT_LENGTH <=? nbits then
    match fuel with
    | O => None
    | S fuel =>
        let i := ((BIT_STRING_WORD m source & LOW_MASK offset1) << offset2)%SL in
        let source := source - 1 in
        let m := store m (destination - 1)
          (((BIT_STRING_WORD m source >>> offset1) & LOW_MASK offset2) .| ulong i) in
        copy_down fuel m source (destination - 1) (nbits - OBJECT_LENGTH) offset1 offset2
    end
  else Some (m, source, destination, nbits).

(** The loop for a source offset above the destination offset also carries
    [dest_buffer]. *)
Fixpoint copy_up (fuel : nat) (m : memory) (source destination nbits offset1 offset2 dest_buffer : Z)
  : option (memory * Z * Z * Z * Z) :=
  if OBJECT_LENGTH <=? nbits then
    match fuel with
    | O => None
    | S fuel =>
        let m := store m (destination - 1)
          (ulong dest_buffer .| ((BIT_STRING_WORD m source >>> offset2) & LOW_MASK offset1)) in
        let dest_buffer := (BIT_STRING_WORD m source << offset1)%SL in
        copy_up fuel m (source - 1) (destination - 1) (nbits - OBJECT_LENGTH) offset1 offset2 dest_buffer
    end
  else Some (m, source, destination, nbits, dest_buffer).

Definition word_count (nbits : Z) : nat := Z.to_nat (nbits / OBJECT_LENGTH).

(** ** [copy_bits] *)

(** [source_offset == destination_offset] *)
Definition copy_bits_aligned (m : memory) (source destination source_offset nbits : Z) : option memory :=
  let head := OBJECT_LENGTH - source_offset in
  let '(m, source, destination, nbits) :=
    if negb (source_offset =? 0) then
      if nbits <=? head then (MASKED_TRANSFER m source destination nbits (head - nbits), source, destination, 0)
      else
        let mask := LOW_MASK head in
        let temp := BIT_STRING_WORD m destination in
        (store m (destination - 1) ((m (source - 1) & mask) .| (temp &~ mask)),
         source - 1, destination - 1, nbits - head)
    else (m, source, destination, nbits) in
  let* (m, source, destination, nbits) := copy_aligned (word_count nbits) m source destination nbits in
  if 0 <? nbits then Some (MASKED_TRANSFER m source destination nbits (OBJECT_LENGTH - nbits))
  else Some m.

(** [source_offset < destination_offset] *)
Definition copy_bits_down (m : memory) (source source_offset destination destination_offset nbits : Z)
  : option memory :=
  let offset1 := destination_offset - source_offset in
  let offset2 := OBJECT_LENGTH - offset1 in
  let head := OBJECT_LENGTH - destination_offset in
  if nbits <=? head then
    let mask := ANY_MASK nbits (head - nbits) in
    Some (set_BIT_STRING_WORD m destination
            (((BIT_STRING_WORD m source >>> offset1) & mask) .| (BIT_STRING_WORD m destination &~ mask)))
  else
    let mask1 := LOW_MASK offset1 in
    let mask := LOW_MASK head in
    let temp := BIT_STRING_WORD m destination in
    let m := store m (destination - 1)
      (((BIT_STRING_WORD m source >>> offset1) & mask) .| (temp &~ mask)) in
    let* (m, source, destination, nbits) :=
      copy_down (word_count (nbits - head)) m source (destination - 1) (nbits - head) offset1 offset2 in
    if 0 <? nbits then
      let dest_tail := BIT_STRING_WORD m destination & LOW_MASK (OBJECT_LENGTH - nbits) in
      if nbits <=? offset1 then
        Some (set_BIT_STRING_WORD m destination
          (((BIT_STRING_WORD m source & ANY_MASK nbits (offset1 - nbits)) << offset2)%UL .| dest_tail))
      else
        let i := ((BIT_STRING_WORD m source & mask1) << offset2)%SL in
        let source := source - 1 in
        let j := nbits - offset1 in
        Some (set_BIT_STRING_WORD m destination
          ((((BIT_STRING_WORD m source & ANY_MASK j (OBJECT_LENGTH - j)) >>> offset1) .| ulong i)
           .| dest_tail))
    else Some m.

(** [source_offset > destination_offset] *)
Definition copy_bits_up (m : memory) (source source_offset destination destination_offset nbits : Z)
  : option memory :=
  let offset1 := source_offset - destination_offset in
  let offset2 := OBJECT_LENGTH - offset1 in
  let head := OBJECT_LENGTH - source_offset in
  if nbits <=? head then
    let mask := ANY_MASK nbits (offset1 + (head - nbits)) in
    Some (set_BIT_STRING_WORD m destination
            (((BIT_STRING_WORD m source << offset1)%UL & mask) .| (BIT_STRING_WORD m destination &~ mask)))
  else
    let mask1 := LOW_MASK offset1 in
    let dest_buffer :=
      if head + offset1 <? OBJECT_LENGTH
      then slong (BIT_STRING_WORD m destination &~ LOW_MASK (head + offset1)) else 0 in
    let dest_buffer := slong (ulong dest_buffer .| ((BIT_STRING_WORD m source & LOW_MASK head) << offset1)%UL) in
    let* (m, source, destination, nbits, dest_buffer) :=
      copy_up (word_count (nbits - head)) m (source - 1) destination (nbits - head) offset1 offset2 dest_buffer in
    if nbits <=? offset1 then
      Some (set_BIT_STRING_WORD m destination
        ((ulong dest_buffer .| (BIT_STRING_WORD m destination & LOW_MASK (offset1 - nbits)))
         .| ((BIT_STRING_WORD m source >>> offset2) & ANY_MASK nbits (offset1 - nbits))))
    else
      let m := store m (destination - 1)
        (ulong dest_buffer .| ((BIT_STRING_WORD m source >>> offset2) & mask1)) in
      let destination := destination - 1 in
      let nbits := nbits - offset1 in
      let mask := LOW_MASK (OBJECT_LENGTH - nbits) in
      Some (set_BIT_STRING_WORD m destination
        ((BIT_STRING_WORD m destination & mask) .| ((BIT_STRING_WORD m source << offset1)%UL &~ mask))).

Definition copy_bits (m : memory) (source source_offset destination destination_offset nbits : Z)
  : option memory :=
  if nbits =? 0 then Some m
  else if source_offset =? destination_offset
  then copy_bits_aligned m source destination source_offset nbits
  else if source_offset <? destination_offset
  then copy_bits_down m source source_offset destination destination_offset nbits
  else copy_bits_up m source source_offset destination destination_offset nbits.

(** ** Bits of the words stored *)

Lemma BIT_STRING_WORD_ulong m ptr : words m -> is_ulong (BIT_STRING_WORD m ptr).
Proof. intros W. apply W. Qed.
#[export] Hint Resolve BIT_STRING_WORD_ulong : words.

Lemma ulong_testbit z i : 0 <= i -> Z.testbit (ulong z) i = (i <? 64) && Z.testbit z i.
Proof.
  intros H. unfold ulong. change 18446744073709551616 with (2 ^ 64). destruct (Z.ltb_spec i 64).
  - now rewrite Z.mod_pow2_bits_low by lia.
  - now rewrite Z.mod_pow2_bits_high by lia.
Qed.

Lemma slong_testbit z i : 0 <= i < 64 -> Z.testbit (slong z) i = Z.testbit z i.
Proof.
  intros H. rewrite <- (Z.mod_pow2_bits_low (slong z) 64), <- (Z.mod_pow2_bits_low z 64) by lia.
  f_equal. apply slong_mod.
Qed.

Lemma ulong_slong z : ulong (slong z) = ulong z.
Proof. apply slong_mod. Qed.

Lemma LOW_MASK_ones n : 0 <= n < 64 -> LOW_MASK n = Z.ones n.
Proof.
  intros H. unfold LOW_MASK. rewrite Z.ones_equiv, Z.shiftl_1_l. destruct (Z.eqb_spec n 63) as [-> | N].
  - reflexivity.
  - assert (0 < 2 ^ n <= 2 ^ 62) by (split; [apply Z.pow_pos_nonneg | apply Z.pow_le_mono_r]; lia).
    unwrap. lia.
Qed.

Lemma ones_testbit n i : 0 <= n -> 0 <= i -> Z.testbit (Z.ones n) i = (i <? n).
Proof.
  intros Hn Hi. destruct (Z.ltb_spec i n); [apply Z.ones_spec_low | apply Z.ones_spec_high]; lia.
Qed.

Lemma LOW_MASK_testbit n i : 0 <= n < 64 -> 0 <= i -> Z.testbit (LOW_MASK n) i = (i <? n).
Proof. intros Hn Hi. rewrite LOW_MASK_ones by exact Hn. apply ones_testbit; lia. Qed.

Lemma ANY_MASK_testbit n o i :
  0 <= n < 64 -> 0 <= o -> 0 <= i < 64 -> Z.testbit (ANY_MASK n o) i = (o <=? i) && (i <? o + n).
Proof.
  intros Hn Ho Hi. unfold ANY_MASK. rewrite slong_testbit, Z.shiftl_spec by lia.
  destruct (Z.leb_spec o i); cbn [andb].
  - rewrite LOW_MASK_testbit by lia. destruct (Z.ltb_spec (i - o) n), (Z.ltb_spec i (o + n)); auto; lia.
  - apply Z.testbit_neg_r. lia.
Qed.

(** Decide a goal about bit [i] of a stored word: expand the operators, then
    split on the position of [i]. *)
Ltac expand_bits :=
  repeat first
    [ rewrite Z.lor_spec | rewrite Z.land_spec | rewrite Z.ldiff_spec
    | rewrite ulong_slong | rewrite ulong_testbit by lia | rewrite slong_testbit by lia
    | rewrite Z.shiftr_spec by lia | rewrite Z.shiftl_spec by lia
    | rewrite ANY_MASK_testbit by lia | rewrite LOW_MASK_testbit by lia | rewrite Z.bits_0 ].

Ltac split_bits :=
  repeat match goal with
  | |- context [?a <? ?b] => destruct (Z.ltb_spec a b); try lia
  | |- context [?a <=? ?b] => destruct (Z.leb_spec a b); try lia
  end;
  cbn [andb orb negb];
  rewrite ?andb_true_r, ?andb_false_r, ?orb_false_r, ?orb_true_r.

(** Put the index of every bit in the range of a word, or outside it. *)
Ltac place_bits :=
  repeat match goal with
  | |- context [Z.testbit _ ?i] => rewrite (Z.testbit_neg_r _ i) by lia
  | |- context [Z.testbit (?m ?a) ?i] => rewrite (word_testbit_high m a i) by (assumption || lia)
  | |- context [Z.testbit _ ?i] =>
      tryif first [assert (0 <= i < 64) by lia | assert (64 <= i) by lia] then fail
      else destruct (Z.ltb_spec i 0); [try lia | destruct (Z.ltb_spec i 64); try lia]
  end.

Ltac word_bits :=
  unfold BIT_STRING_WORD; expand_bits; split_bits; place_bits; expand_bits; split_bits.

(** The goals that are left: the bits of one word at two ways to write an
    index, or a bit of memory. *)
Ltac same_bit :=
  repeat match goal with
  | |- context [Z.testbit _ ?i] => rewrite (Z.testbit_neg_r _ i) by lia
  end;
  rewrite ?orb_false_r, ?orb_false_l, ?andb_false_r, ?andb_false_l;
  try reflexivity;
  try match goal with
  | |- Z.testbit (?m ?w) ?i = mem_bit ?m ?p => symmetry; apply mem_bit_eq; lia
  | |- Z.testbit ?w ?i = Z.testbit ?w ?j => f_equal; lia
  end.

(** One word stored is a chunk of the copy. *)
Ltac copy_word :=
  unfold MASKED_TRANSFER, set_BIT_STRING_WORD;
  apply bits_copied_word;
    [ auto with words | auto 10 with words | lia | lia | lia
    | let i := fresh "i" in intros i ?; word_bits; same_bit ].

(** ** Chunks *)

(** Copying from the top down is safe. *)
Definition no_clobber (e1 e2 n : Z) : Prop := e1 <= e2 \/ e2 <= e1 - n.

Lemma sub_sub a b c : a - b - c = a - (c + b).
Proof. lia. Qed.

Lemma sub_mul n k : n - 64 - 64 * k = n - 64 * (k + 1).
Proof. lia. Qed.

Lemma word_count_small n : 64 <= n -> (1 <= word_count n)%nat.
Proof. intros H. unfold word_count. pose proof (Z.div_le_lower_bound n 64 1). lia. Qed.

Lemma word_count_step n fuel : (word_count n <= S fuel)%nat -> (word_count (n - 64) <= fuel)%nat.
Proof.
  unfold word_count. replace (n - 64) with (n + (-1) * 64) by lia. rewrite Z.div_add by lia. lia.
Qed.

(** A word, then [k] words. *)
Lemma bits_copied_words m m1 m' e1 e2 e1' e2' k :
  0 <= k -> no_clobber e1 e2 (64 * (k + 1)) -> e1' = e1 - 64 -> e2' = e2 - 64 ->
  bits_copied m m1 e1 e2 64 -> bits_copied m1 m' e1' e2' (64 * k) ->
  bits_copied m m' e1 e2 (64 * (k + 1)).
Proof.
  unfold no_clobber. intros Hk Ov -> ->. replace (64 * (k + 1)) with (64 + 64 * k) in * by lia.
  apply bits_copied_app; lia.
Qed.

(** A head, then the rest of [n] bits. *)
Lemma bits_copied_head m m1 m' e1 e2 e1' e2' h n :
  0 <= h <= n -> no_clobber e1 e2 n -> e1' = e1 - h -> e2' = e2 - h ->
  bits_copied m m1 e1 e2 h -> bits_copied m1 m' e1' e2' (n - h) -> bits_copied m m' e1 e2 n.
Proof.
  unfold no_clobber. intros Hk Ov -> ->. replace n with (h + (n - h)) at 2 by lia.
  apply bits_copied_app; lia.
Qed.

(** ** The aligned case *)

Lemma MASKED_TRANSFER_copied m source destination n offset e1 e2 :
  words m -> 0 < n < 64 -> 0 <= offset -> offset + n <= 64 ->
  e1 = 64 * (source - 1) + offset + n -> e2 = 64 * (destination - 1) + offset + n ->
  bits_copied m (MASKED_TRANSFER m source destination n offset) e1 e2 n.
Proof. intros W Hn Ho Hon -> ->. copy_word. Qed.

Lemma copy_aligned_copied fuel : forall m source destination nbits,
  words m -> 0 <= nbits -> (word_count nbits <= fuel)%nat ->
  no_clobber (64 * source) (64 * destination) nbits ->
  exists m' k, copy_aligned fuel m source destination nbits
      = Some (m', source - k, destination - k, nbits - 64 * k)
    /\ 0 <= k /\ 0 <= nbits - 64 * k < 64
    /\ bits_copied m m' (64 * source) (64 * destination) (64 * k).
Proof.
  unfold no_clobber.
  induction fuel as [|fuel IH]; intros m source destination nbits W Hn Hf Ov; cbn [copy_aligned].
  all: destruct (Z.leb_spec 64 nbits);
    [| exists m, 0; rewrite !Z.sub_0_r; repeat split; (lia || apply bits_copied_none || idtac); auto].
  - pose proof (word_count_small nbits). lia.
  - set (m1 := store m (destination - 1) (m (source - 1))).
    assert (C : bits_copied m m1 (64 * source) (64 * destination) 64) by copy_word.
    destruct (IH m1 (source - 1) (destination - 1) (nbits - 64)) as (m' & k & E & Hk & Hr & C');
      [apply C | lia | now apply word_count_step | lia |].
    exists m', (k + 1). rewrite E, (sub_sub source 1 k), (sub_sub destination 1 k), (sub_mul nbits k).
    split; [reflexivity |]. split; [lia |]. split; [lia |].
    apply (bits_copied_words m m1 m' _ _ (64 * (source - 1)) (64 * (destination - 1)));
      auto; (unfold no_clobber; lia).
Qed.

(** What follows the head: whole words, then a tail. *)
Definition aligned_rest (m : memory) (source destination nbits : Z) : option memory :=
  let* (m, source, destination, nbits) := copy_aligned (word_count nbits) m source destination nbits in
  if 0 <? nbits then Some (MASKED_TRANSFER m source destination nbits (OBJECT_LENGTH - nbits))
  else Some m.

Lemma aligned_rest_copied m s d n :
  words m -> 0 <= n -> no_clobber (64 * s) (64 * d) n ->
  exists m', aligned_rest m s d n = Some m' /\ bits_copied m m' (64 * s) (64 * d) n.
Proof.
  intros W Hn Ov. unfold aligned_rest.
  destruct (copy_aligned_copied (word_count n) m s d n W Hn ltac:(reflexivity) Ov)
    as (m1 & k & -> & Hk & Hr & C).
  cbn [obind]. destruct (Z.ltb_spec 0 (n - 64 * k)).
  - eexists. split; [reflexivity |].
    apply (bits_copied_head m m1 _ _ _ (64 * (s - k)) (64 * (d - k)) (64 * k)); auto; try lia.
    apply MASKED_TRANSFER_copied; [apply C | ..]; lia.
  - exists m1. split; [reflexivity |]. now replace n with (64 * k) by lia.
Qed.

Lemma copy_bits_aligned_copied m source destination o nbits :
  words m -> 0 <= o < 64 -> 0 < nbits ->
  no_clobber (64 * source - o) (64 * destination - o) nbits ->
  exists m', copy_bits_aligned m source destination o nbits = Some m'
    /\ bits_copied m m' (64 * source - o) (64 * destination - o) nbits.
Proof.
  intros W Ho Hn Ov.
  assert (E : copy_bits_aligned m source destination o nbits
    = if negb (o =? 0) then
        if nbits <=? 64 - o
        then aligned_rest (MASKED_TRANSFER m source destination nbits (64 - o - nbits)) source destination 0
        else aligned_rest (store m (destination - 1)
               ((m (source - 1) & LOW_MASK (64 - o)) .| (BIT_STRING_WORD m destination &~ LOW_MASK (64 - o))))
               (source - 1) (destination - 1) (nbits - (64 - o))
      else aligned_rest m source destination nbits).
  { unfold copy_bits_aligned. now destruct (negb (o =? 0)), (nbits <=? 64 - o). }
  rewrite E. destruct (Z.eqb_spec o 0) as [-> | No]; cbn [negb].
  { rewrite !Z.sub_0_r in *. now apply aligned_rest_copied; [| lia |]. }
  destruct (Z.leb_spec nbits (64 - o)).
  - eexists. split; [reflexivity |]. apply MASKED_TRANSFER_copied; (assumption || lia).
  - set (m1 := store _ _ _).
    assert (C : bits_copied m m1 (64 * source - o) (64 * destination - o) (64 - o)) by copy_word.
    destruct (aligned_rest_copied m1 (source - 1) (destination - 1) (nbits - (64 - o))) as (m' & E' & C');
      [apply C | lia | red in Ov |- *; lia |].
    exists m'. split; [exact E' |]. revert C C'. apply bits_copied_head; auto; lia.
Qed.

(** ** A source offset below the destination offset *)

Lemma copy_down_copied offset1 fuel : 0 < offset1 < 64 -> forall m source destination nbits,
  words m -> 0 <= nbits -> (word_count nbits <= fuel)%nat ->
  no_clobber (64 * (source - 1) + offset1) (64 * destination) nbits ->
  exists m' k, copy_down fuel m source destination nbits offset1 (64 - offset1)
      = Some (m', source - k, destination - k, nbits - 64 * k)
    /\ 0 <= k /\ 0 <= nbits - 64 * k < 64
    /\ bits_copied m m' (64 * (source - 1) + offset1) (64 * destination) (64 * k).
Proof.
  intros Ho. unfold no_clobber.
  induction fuel as [|fuel IH]; intros m source destination nbits W Hn Hf Ov; cbn [copy_down].
  all: destruct (Z.leb_spec 64 nbits);
    [| exists m, 0; rewrite !Z.sub_0_r; repeat split; (lia || apply bits_copied_none || idtac); auto].
  - pose proof (word_count_small nbits). lia.
  - set (m1 := store m (destination - 1) _).
    assert (C : bits_copied m m1 (64 * (source - 1) + offset1) (64 * destination) 64) by copy_word.
    destruct (IH m1 (source - 1) (destination - 1) (nbits - 64)) as (m' & k & E & Hk & Hr & C');
      [apply C | lia | now apply word_count_step | lia |].
    exists m', (k + 1). rewrite E, (sub_sub source 1 k), (sub_sub destination 1 k), (sub_mul nbits k).
    split; [reflexivity |]. split; [lia |]. split; [lia |].
    apply (bits_copied_words m m1 m' _ _ (64 * (source - 1 - 1) + offset1) (64 * (destination - 1)));
      auto; (unfold no_clobber; lia).
Qed.

Lemma copy_bits_down_copied m source so destination d nbits :
  words m -> 0 <= so -> so < d -> d < 64 -> 0 < nbits ->
  no_clobber (64 * source - so) (64 * destination - d) nbits ->
  exists m', copy_bits_down m source so destination d nbits = Some m'
    /\ bits_copied m m' (64 * source - so) (64 * destination - d) nbits.
Proof.
  intros W Hs Hd Hd' Hn Ov. unfold copy_bits_down.
  destruct (Z.leb_spec nbits (64 - d)).
  { eexists. split; [reflexivity |]. copy_word. }
  set (m1 := store m _ _).
  assert (C1 : bits_copied m m1 (64 * source - so) (64 * destination - d) (64 - d)) by copy_word.
  destruct (copy_down_copied (d - so) (word_count (nbits - (64 - d))) ltac:(lia) m1 source
    (destination - 1) (nbits - (64 - d))) as (m2 & k & -> & Hk & Hr & C2);
    [apply C1 | lia | reflexivity | red in Ov |- *; lia |].
  cbn [obind]. set (n := nbits - (64 - d) - 64 * k) in *.
  assert (C12 : bits_copied m m2 (64 * source - so) (64 * destination - d) (nbits - n)).
  { replace (64 * k) with (nbits - n - (64 - d)) in C2 by lia. revert C1 C2.
    apply bits_copied_head; try lia. red in Ov |- *. lia. }
  assert (Hn' : 0 <= n < 64 /\ n + 64 * k = nbits - (64 - d)) by lia. clearbody m1 n. clear C1 C2.
  assert (W2 : words m2) by apply C12.
  destruct (Z.ltb_spec 0 n).
  2: { exists m2. split; [reflexivity |]. now replace nbits with (nbits - n) by lia. }
  assert (Tail : forall m', bits_copied m2 m' (64 * (source - k - 1) + (d - so)) (64 * (destination - 1 - k)) n ->
    bits_copied m m' (64 * source - so) (64 * destination - d) nbits).
  { intros m' C'. replace n with (nbits - (nbits - n)) in C' by lia. revert C12 C'.
    apply bits_copied_head; auto; lia. }
  destruct (Z.leb_spec n (d - so)); eexists; (split; [reflexivity |]); apply Tail; copy_word.
Qed.

(** ** A source offset above the destination offset *)

(** [dest_buffer] holds the finished bits of the destination word, from
    [offset1] up; the rest of it is clear. *)
Definition buffered (m : memory) (destination offset1 dest_buffer e1 e2 : Z) : Prop :=
  forall i, 0 <= i < 64 ->
    Z.testbit dest_buffer i
    = (offset1 <=? i) &&
      (if 64 * (destination - 1) + i <? e2
       then mem_bit m (64 * (destination - 1) + i - e2 + e1) else Z.testbit (m (destination - 1)) i).

(** The word completed with the high bits of the next source word. *)
Lemma buffered_word m source destination offset1 buf e1 e2 :
  words m -> 0 < offset1 < 64 -> buffered m destination offset1 buf e1 e2 ->
  64 * (destination - 1) + offset1 <= e2 <= 64 * destination ->
  e1 - e2 + 64 * (destination - 1) + offset1 = 64 * source ->
  bits_copied m (store m (destination - 1)
      (ulong buf .| ((BIT_STRING_WORD m source >>> (64 - offset1)) & LOW_MASK offset1)))
    e1 e2 (e2 - 64 * (destination - 1)).
Proof.
  intros W Ho Hb He Hs. apply bits_copied_word; [auto with words | | lia | lia | lia |].
  { auto 10 with words. }
  intros i Hi. rewrite Z.lor_spec, ulong_testbit, Hb by lia. word_bits; same_bit.
Qed.

Lemma copy_up_copied offset1 fuel : 0 < offset1 < 64 ->
  forall m source destination nbits buf e1 e2,
  words m -> 0 <= nbits -> (word_count nbits <= fuel)%nat ->
  buffered m destination offset1 buf e1 e2 ->
  64 * (destination - 1) + offset1 <= e2 <= 64 * destination ->
  e1 - e2 + 64 * (destination - 1) + offset1 = 64 * source ->
  no_clobber e1 e2 (e2 - (64 * (destination - 1) + offset1) + nbits) ->
  exists m' k buf' f1 f2,
    copy_up fuel m source destination nbits offset1 (64 - offset1) buf
      = Some (m', source - k, destination - k, nbits - 64 * k, buf')
    /\ 0 <= k /\ 0 <= nbits - 64 * k < 64
    /\ e1 - f1 = e2 - f2 /\ buffered m' (destination - k) offset1 buf' f1 f2
    /\ 64 * (destination - k - 1) + offset1 <= f2 <= 64 * (destination - k) /\ f2 <= e2
    /\ bits_copied m m' e1 e2 (e2 - f2).
Proof.
  intros Ho. unfold no_clobber.
  induction fuel as [|fuel IH]; intros m source destination nbits buf e1 e2 W Hn Hf Hb He Hs Ov;
    cbn [copy_up].
  all: destruct (Z.leb_spec 64 nbits);
    [| exists m, 0, buf, e1, e2; rewrite !Z.sub_0_r, (Z.sub_diag e2); split; [reflexivity |];
       do 3 (split; [lia |]); split; [exact Hb |]; do 2 (split; [lia |]); now apply bits_copied_none].
  - pose proof (word_count_small nbits). lia.
  - pose proof (buffered_word m source destination offset1 buf e1 e2 W Ho Hb He Hs) as C.
    set (m1 := store m (destination - 1) _) in *.
    set (h := e2 - 64 * (destination - 1)) in *.
    destruct (IH m1 (source - 1) (destination - 1) (nbits - 64)
      (BIT_STRING_WORD m1 source << offset1)%SL (e1 - h) (e2 - h))
      as (m' & k & buf' & f1 & f2 & E & Hk & Hr & Hd & Hb' & Hf2 & Hle & C');
      [apply C | lia | now apply word_count_step | | lia | lia | lia |].
    { intros i Hi. assert (words m1) by apply C. word_bits; same_bit. }
    exists m', (k + 1), buf', f1, f2.
    rewrite E, (sub_sub source 1 k), (sub_sub destination 1 k), (sub_mul nbits k).
    rewrite (sub_sub destination 1 k) in Hb', Hf2.
    split; [reflexivity |]. split; [lia |]. split; [lia |]. split; [lia |]. split; [exact Hb' |].
    split; [lia |]. split; [lia |].
    replace (e2 - h - f2) with (e2 - f2 - h) in C' by lia. revert C C'.
    apply bits_copied_head; (lia || red; lia).
Qed.

(** The last one or two words. *)
Definition up_tail (m : memory) (source destination nbits offset1 dest_buffer : Z) : memory :=
  if nbits <=? offset1 then
    set_BIT_STRING_WORD m destination
      ((ulong dest_buffer .| (BIT_STRING_WORD m destination & LOW_MASK (offset1 - nbits)))
       .| ((BIT_STRING_WORD m source >>> (64 - offset1)) & ANY_MASK nbits (offset1 - nbits)))
  else
    let m := store m (destination - 1)
      (ulong dest_buffer .| ((BIT_STRING_WORD m source >>> (64 - offset1)) & LOW_MASK offset1)) in
    let mask := LOW_MASK (64 - (nbits - offset1)) in
    set_BIT_STRING_WORD m (destination - 1)
      ((BIT_STRING_WORD m (destination - 1) & mask) .| ((BIT_STRING_WORD m source << offset1)%UL &~ mask)).

Lemma up_tail_copied m source destination nbits offset1 buf e1 e2 :
  words m -> 0 < offset1 < 64 -> 0 <= nbits < 64 -> buffered m destination offset1 buf e1 e2 ->
  64 * (destination - 1) + offset1 <= e2 <= 64 * destination ->
  e1 - e2 + 64 * (destination - 1) + offset1 = 64 * source ->
  no_clobber e1 e2 (e2 - (64 * (destination - 1) + offset1) + nbits) ->
  bits_copied m (up_tail m source destination nbits offset1 buf) e1 e2
    (e2 - (64 * (destination - 1) + offset1) + nbits).
Proof.
  intros W Ho Hn Hb He Hs Ov. unfold up_tail, set_BIT_STRING_WORD. destruct (Z.leb_spec nbits offset1).
  - apply bits_copied_word; [auto with words | auto 10 with words | lia | lia | lia |].
    intros i Hi. rewrite !Z.lor_spec, ulong_testbit, Hb by lia. word_bits; same_bit.
  - pose proof (buffered_word m source destination offset1 buf e1 e2 W Ho Hb He Hs) as C.
    set (m1 := store m (destination - 1) _) in *.
    set (n := e2 - (64 * (destination - 1) + offset1) + nbits) in *.
    apply (bits_copied_head m m1 _ e1 e2 (64 * (source - 1) + (64 - offset1)) (64 * (destination - 1))
      (e2 - 64 * (destination - 1))); auto; try lia.
    assert (words m1) by apply C. replace (n - _) with (nbits - offset1) by lia. copy_word.
Qed.

Lemma copy_bits_up_copied m source so destination d nbits :
  words m -> 0 <= d -> d < so -> so < 64 -> 0 < nbits ->
  no_clobber (64 * source - so) (64 * destination - d) nbits ->
  exists m', copy_bits_up m source so destination d nbits = Some m'
    /\ bits_copied m m' (64 * source - so) (64 * destination - d) nbits.
Proof.
  intros W Hd Hs Hs' Hn Ov. unfold copy_bits_up.
  destruct (Z.leb_spec nbits (64 - so)).
  { eexists. split; [reflexivity |]. copy_word. }
  set (buf := slong (ulong _ .| _)).
  assert (Hb : buffered m destination (so - d) buf (64 * source - so) (64 * destination - d)).
  { intros i Hi. subst buf. destruct (Z.ltb_spec (64 - so + (so - d)) 64); word_bits; same_bit. }
  clearbody buf.
  destruct (copy_up_copied (so - d) (word_count (nbits - (64 - so))) ltac:(lia) m (source - 1)
    destination (nbits - (64 - so)) buf (64 * source - so) (64 * destination - d))
    as (m1 & k & buf' & f1 & f2 & -> & Hk & Hr & He & Hb' & Hf & Hle & C);
    auto; [lia | lia | lia | red in Ov |- *; lia |].
  cbn [obind]. exists (up_tail m1 (source - 1 - k) (destination - k) (nbits - (64 - so) - 64 * k) (so - d) buf').
  split.
  { unfold up_tail. now destruct (_ <=? so - d). }
  pose proof (up_tail_copied m1 (source - 1 - k) (destination - k) (nbits - (64 - so) - 64 * k)
    (so - d) buf' f1 f2 ltac:(apply C) ltac:(lia) Hr Hb' Hf ltac:(lia)) as T.
  replace (f2 - (64 * (destination - k - 1) + (so - d)) + (nbits - (64 - so) - 64 * k))
    with (nbits - (64 * destination - d - f2)) in T by lia.
  specialize (T ltac:(red in Ov |- *; lia)). revert C T. apply bits_copied_head; auto; lia.
Qed.

(** ** [copy_bits] *)

(** Total, and a copy of memory whatever the alignment. *)
Lemma copy_bits_copied m source so destination d nbits :
  words m -> 0 <= so < 64 -> 0 <= d < 64 -> 0 <= nbits ->
  no_clobber (64 * source - so) (64 * destination - d) nbits ->
  exists m', copy_bits m source so destination d nbits = Some m'
    /\ bits_copied m m' (64 * source - so) (64 * destination - d) nbits.
Proof.
  intros W Hs Hd Hn Ov. unfold copy_bits. destruct (Z.eqb_spec nbits 0) as [-> | N].
  { exists m. split; [reflexivity |]. now apply bits_copied_none. }
  destruct (Z.eqb_spec so d) as [-> | N'].
  { apply copy_bits_aligned_copied; (assumption || lia). }
  destruct (Z.ltb_spec so d); [apply copy_bits_down_copied | apply copy_bits_up_copied];
    (assumption || lia).
Qed.
