(* ===== verification/BitString.v ===== *)
(** * Bit strings (src/src/microcode/bitstr.c, bitstr.h)

    A bit string is an object in [memory]: a header word with the number of
    words that follow, the length in bits, and the data words, least
    significant first.  Here are the primitives except those that convert
    integers (BitStringConv.v); [copy_bits] is in BitCopy.v.  Operations that
    do not allocate act on a [memory], the others on a [machine]. *)

From Stdlib Require Import ZArith List Lia Bool.
From S2P Require Import Prelude Bignum BignumConv BignumSpec Object Integer IntPrim.
From S2P Require Import Memory BitCopy.
Import ListNotations.

(** ** Layout (bitstr.h, the little-endian version) *)

(** [MEMORY_LOC (bit_string, i)] is [bit_string + i]. *)
Notation BIT_STRING_LENGTH_OFFSET := 1.
Notation BIT_STRING_FIRST_WORD := 2.

(** [BIT_STRING_LENGTH_TO_GC_LENGTH] of an [unsigned long] and of a [long]. *)
Definition ulong_LENGTH_TO_GC_LENGTH (bits : Z) : Z := (bits + 63)%UL / OBJECT_LENGTH.
Definition BIT_STRING_LENGTH_TO_GC_LENGTH (bits : Z) : Z := Z.quot (bits + 63)%SL OBJECT_LENGTH.

Definition BIT_STRING_LENGTH (m : memory) (bit_string : Z) : Z :=
  slong (MEMORY_REF m bit_string BIT_STRING_LENGTH_OFFSET).
Definition BIT_STRING_HIGH_PTR (m : memory) (bit_string : Z) : Z :=
  bit_string + (VECTOR_LENGTH m bit_string + 1).
Definition BIT_STRING_LOW_PTR (bit_string : Z) : Z := bit_string + BIT_STRING_FIRST_WORD.
Definition BIT_STRING_INDEX_TO_WORD (index : Z) : Z :=
  (BIT_STRING_FIRST_WORD + 1) + Z.quot index OBJECT_LENGTH.
Definition BIT_STRING_INDEX_PAIR_TO_INDEX (word bit : Z) : Z :=
  (word - (BIT_STRING_FIRST_WORD + 1)) * OBJECT_LENGTH + bit.
Definition BIT_STRING_MSW (m : memory) (bit_string : Z) : Z :=
  BIT_STRING_WORD m (BIT_STRING_HIGH_PTR m bit_string).
Definition BIT_STRING_LSW_PTR (bit_string : Z) : Z := bit_string + BIT_STRING_INDEX_TO_WORD 0.

Definition READ_BITS_PTR (object offset end_ : Z) : Z :=
  object + BIT_STRING_LENGTH_TO_GC_LENGTH (offset + end_ - 1)%SL.
Definition COMPUTE_READ_BITS_OFFSET (offset end_ : Z) : Z :=
  let offset := Z.rem (offset + end_)%SL OBJECT_LENGTH in
  if negb (offset =? 0) then OBJECT_LENGTH - offset else offset.

(** ** Objects and arguments *)

(** An argument: an object of the integer model, or the bit string at an
    address. *)
Inductive sobj := Obj (o : object bignum) | Bit_string (address : Z).

Definition UNSPECIFIC : sobj := Obj (Immediate (MAKE_OBJECT TC_CONSTANT 1)).
Definition Boolean (b : bool) : sobj := Obj (boolean b).
Definition OBJECT_TO_BOOLEAN (x : sobj) : bool :=
  match x with Obj (Immediate w) => negb (w =? SHARP_F) | _ => true end.

Definition BIT_STRING_P (x : sobj) : bool :=
  match x with Bit_string _ => true | Obj _ => false end.

(** [CHECK_ARG (n, BIT_STRING_P)], and the address. *)
Definition arg_bit_string (n : Z) (x : sobj) : prim Z :=
  match x with
  | Bit_string a => PRIMITIVE_RETURN a
  | Obj _ => PRIMITIVE_ERROR (error_wrong_type_arg n)
  end.

(** The argument functions of utils.c refuse a bit string. *)
Definition on_object {A} (arg : Z -> object bignum -> prim A) (n : Z) (x : sobj) : prim A :=
  match x with
  | Obj o => arg n o
  | Bit_string _ => PRIMITIVE_ERROR (error_wrong_type_arg n)
  end.

Section Operations.
Context {heap : Heap}.

Definition arg_nonnegative (n : Z) (x : sobj) : prim Z := on_object arg_nonnegative_integer n x.
Definition arg_ulong (n : Z) (x : sobj) : prim Z := on_object arg_ulong_integer n x.

(** ** Allocation and filling *)

Definition allocate_bit_string (length : Z) (s : machine) : prim (Z * machine) :=
  let total_pointers := 1 + ulong_LENGTH_TO_GC_LENGTH length in
  let! (result, s) := allocate_non_marked_vector total_pointers true s in
  PRIMITIVE_RETURN (result, set_mem s (MEMORY_SET (mem s) result BIT_STRING_LENGTH_OFFSET length)).

(** [i] stores at [*--scanner]. *)
Fixpoint fill_words (i : nat) (m : memory) (scanner filler : Z) : memory :=
  match i with
  | O => m
  | S i => fill_words i (store m (scanner - 1) filler) (scanner - 1) filler
  end.

Definition fill_bit_string (m : memory) (bit_string : Z) (sense : bool) : memory :=
  let filler := ulong (if sense then -1 else 0) in
  fill_words (Z.to_nat (BIT_STRING_LENGTH_TO_GC_LENGTH (BIT_STRING_LENGTH m bit_string)))
    m (BIT_STRING_HIGH_PTR m bit_string) filler.

Definition clear_bit_string (m : memory) (bit_string : Z) : memory :=
  fill_words (Z.to_nat (BIT_STRING_LENGTH_TO_GC_LENGTH (BIT_STRING_LENGTH m bit_string)))
    m (BIT_STRING_HIGH_PTR m bit_string) 0.

Definition Prim_bit_string_allocate (arg1 : sobj) (s : machine) : prim (sobj * machine) :=
  let! length := arg_ulong 1 arg1 in
  let! (result, s) := allocate_bit_string length s in
  PRIMITIVE_RETURN (Bit_string result, s).

Definition Prim_bit_string_p (arg1 : sobj) : prim sobj := PRIMITIVE_RETURN (Boolean (BIT_STRING_P arg1)).

Definition Prim_make_bit_string (arg1 arg2 : sobj) (s : machine) : prim (sobj * machine) :=
  let! length := arg_ulong 1 arg1 in
  let! (result, s) := allocate_bit_string length s in
  PRIMITIVE_RETURN (Bit_string result, set_mem s (fill_bit_string (mem s) result (OBJECT_TO_BOOLEAN arg2))).

Definition Prim_bit_string_fill_x (m : memory) (arg1 arg2 : sobj) : prim (sobj * memory) :=
  let! bit_string := arg_bit_string 1 arg1 in
  PRIMITIVE_RETURN (UNSPECIFIC, fill_bit_string m bit_string (OBJECT_TO_BOOLEAN arg2)).

Definition Prim_bit_string_length (m : memory) (arg1 : sobj) : prim sobj :=
  let! bit_string := arg_bit_string 1 arg1 in
  PRIMITIVE_RETURN (Obj (Immediate (LONG_TO_UNSIGNED_FIXNUM (BIT_STRING_LENGTH m bit_string)))).

(** ** One bit *)

(** The pointer and the mask of the indexed bit. *)
Definition REF_INITIALIZATION (m : memory) (arg1 arg2 : sobj) : prim (Z * Z) :=
  let! bit_string := arg_bit_string 1 arg1 in
  let! index := arg_nonnegative 2 arg2 in
  if BIT_STRING_LENGTH m bit_string <=? index then PRIMITIVE_ERROR (error_bad_range_arg 2)
  else
    PRIMITIVE_RETURN (bit_string + BIT_STRING_INDEX_TO_WORD index,
                      (1 << Z.rem index OBJECT_LENGTH)%SL).

Definition Prim_bit_string_ref (m : memory) (arg1 arg2 : sobj) : prim sobj :=
  let! (ptr, mask) := REF_INITIALIZATION m arg1 arg2 in
  PRIMITIVE_RETURN (Boolean (negb ((BIT_STRING_WORD m ptr & mask) =? 0))).

Definition Prim_bit_string_clear_x (m : memory) (arg1 arg2 : sobj) : prim (sobj * memory) :=
  let! (ptr, mask) := REF_INITIALIZATION m arg1 arg2 in
  if (BIT_STRING_WORD m ptr & mask) =? 0 then PRIMITIVE_RETURN (Boolean false, m)
  else PRIMITIVE_RETURN (Boolean true, set_BIT_STRING_WORD m ptr (BIT_STRING_WORD m ptr &~ mask)).

Definition Prim_bit_string_set_x (m : memory) (arg1 arg2 : sobj) : prim (sobj * memory) :=
  let! (ptr, mask) := REF_INITIALIZATION m arg1 arg2 in
  if negb ((BIT_STRING_WORD m ptr & mask) =? 0) then PRIMITIVE_RETURN (Boolean true, m)
  else PRIMITIVE_RETURN (Boolean false, set_BIT_STRING_WORD m ptr (BIT_STRING_WORD m ptr .| ulong mask)).

(** The same for C callers, without checks. *)
Definition bit_string_set (m : memory) (bitstr index : Z) (value : bool) : memory :=
  let ptr := bitstr + BIT_STRING_INDEX_TO_WORD index in
  let mask := ulong (1 << Z.rem index OBJECT_LENGTH)%SL in
  if negb value then set_BIT_STRING_WORD m ptr (BIT_STRING_WORD m ptr &~ mask)
  else set_BIT_STRING_WORD m ptr (BIT_STRING_WORD m ptr .| mask).

(** ** Tests *)

(** [i] tests of [*--scan]. *)
Fixpoint ZERO_SECTION_P (i : nat) (m : memory) (scan : Z) : bool :=
  match i with
  | O => true
  | S i => if negb (m (scan - 1) =? 0) then false else ZERO_SECTION_P i m (scan - 1)
  end.

(** [LOW_MASK] of a negative length is an undefined shift. *)
Definition Prim_bit_string_zero_p (m : memory) (arg1 : sobj) : prim sobj :=
  let! bit_string := arg_bit_string 1 arg1 in
  let length := BIT_STRING_LENGTH m bit_string in
  let odd_bits := Z.rem length OBJECT_LENGTH in
  let scan := BIT_STRING_HIGH_PTR m bit_string in
  let sections := Z.to_nat (Z.quot length OBJECT_LENGTH) in
  if odd_bits =? 0 then PRIMITIVE_RETURN (Boolean (ZERO_SECTION_P sections m scan))
  else if odd_bits <? 0 then PRIMITIVE_ERROR error_external_return
  else if negb ((BIT_STRING_WORD m scan & LOW_MASK odd_bits) =? 0) then PRIMITIVE_RETURN (Boolean false)
  else PRIMITIVE_RETURN (Boolean (ZERO_SECTION_P sections m (scan - 1))).

Fixpoint EQUAL_SECTIONS_P (i : nat) (m : memory) (scan1 scan2 : Z) : bool :=
  match i with
  | O => true
  | S i =>
      if negb (m (scan1 - 1) =? m (scan2 - 1)) then false
      else EQUAL_SECTIONS_P i m (scan1 - 1) (scan2 - 1)
  end.

Definition Prim_bit_string_equal_p (m : memory) (arg1 arg2 : sobj) : prim sobj :=
  let! bit_string_1 := arg_bit_string 1 arg1 in
  let! bit_string_2 := arg_bit_string 2 arg2 in
  let length := BIT_STRING_LENGTH m bit_string_1 in
  if negb (length =? BIT_STRING_LENGTH m bit_string_2) then PRIMITIVE_RETURN (Boolean false)
  else
    let scan1 := BIT_STRING_HIGH_PTR m bit_string_1 in
    let scan2 := BIT_STRING_HIGH_PTR m bit_string_2 in
    let odd_bits := Z.rem length OBJECT_LENGTH in
    let sections := Z.to_nat (Z.quot length OBJECT_LENGTH) in
    if odd_bits =? 0 then PRIMITIVE_RETURN (Boolean (EQUAL_SECTIONS_P sections m scan1 scan2))
    else if odd_bits <? 0 then PRIMITIVE_ERROR error_external_return
    else
      let mask := LOW_MASK odd_bits in
      if negb ((BIT_STRING_MSW m bit_string_1 & mask) =? (BIT_STRING_MSW m bit_string_2 & mask))
      then PRIMITIVE_RETURN (Boolean false)
      else PRIMITIVE_RETURN (Boolean (EQUAL_SECTIONS_P sections m (scan1 - 1) (scan2 - 1))).

(** ** Bitwise operations *)

(** The assignment operators [=], [=~], [|=], [&=], [&=~] and [^=]. *)
Inductive assignment := MOVE | MOVEC | OR | AND | ANDC | XOR.

Definition action (op : assignment) (x y : Z) : Z :=
  match op with
  | MOVE => y
  | MOVEC => ulong (Z.lnot y)
  | OR => x .| y
  | AND => x & y
  | ANDC => x &~ y
  | XOR => x ^^ y
  end.

Fixpoint bitwise_words (i : nat) (op : assignment) (m : memory) (scan1 scan2 : Z) : memory :=
  match i with
  | O => m
  | S i =>
      bitwise_words i op (store m (scan1 - 1) (action op (m (scan1 - 1)) (m (scan2 - 1))))
        (scan1 - 1) (scan2 - 1)
  end.

(** The arguments are used as pointers without a type check, so they are
    given by their addresses. *)
Definition BITWISE_OP (op : assignment) (m : memory) (bit_string_1 bit_string_2 : Z)
  : prim (sobj * memory) :=
  if negb (BIT_STRING_LENGTH m bit_string_1 =? BIT_STRING_LENGTH m bit_string_2)
  then PRIMITIVE_ERROR (error_bad_range_arg 1)
  else
    let scan1 := BIT_STRING_HIGH_PTR m bit_string_1 in
    let scan2 := BIT_STRING_HIGH_PTR m bit_string_2 in
    let i := slong (VECTOR_LENGTH m bit_string_1 - 1)%UL in
    PRIMITIVE_RETURN (UNSPECIFIC, bitwise_words (Z.to_nat i) op m scan1 scan2).

(** ** Moving bits *)

(** The offset that goes with a pointer to the word of the last bit. *)
Definition end_offset (end_mod : Z) : Z := if end_mod =? 0 then 0 else OBJECT_LENGTH - end_mod.

Definition Prim_bit_substring_move_right_x (m : memory) (arg1 arg2 arg3 arg4 arg5 : sobj)
  : prim (sobj * memory) :=
  let! bit_string_1 := arg_bit_string 1 arg1 in
  let! start1 := arg_nonnegative 2 arg2 in
  let! end1 := arg_nonnegative 3 arg3 in
  let! bit_string_2 := arg_bit_string 4 arg4 in
  let! start2 := arg_nonnegative 5 arg5 in
  let nbits := (end1 - start1)%SL in
  let end2 := (start2 + nbits)%SL in
  if (start1 <? 0) || (end1 <? start1) then PRIMITIVE_ERROR (error_bad_range_arg 2)
  else if BIT_STRING_LENGTH m bit_string_1 <? end1 then PRIMITIVE_ERROR (error_bad_range_arg 3)
  else if (start2 <? 0) || (BIT_STRING_LENGTH m bit_string_2 <? end2)
  then PRIMITIVE_ERROR (error_bad_range_arg 5)
  else
    let end1_mod := Z.rem end1 OBJECT_LENGTH in
    let end2_mod := Z.rem end2 OBJECT_LENGTH in
    let! m := lift (copy_bits m
        (bit_string_1 + BIT_STRING_INDEX_TO_WORD (end1 - 1)%SL) (end_offset end1_mod)
        (bit_string_2 + BIT_STRING_INDEX_TO_WORD (end2 - 1)%SL) (end_offset end2_mod) nbits) in
    PRIMITIVE_RETURN (UNSPECIFIC, m).

(** The first argument of the next two is used as an address. *)
Definition READ_BITS_INITIALIZE (m : memory) (arg1 : Z) (arg2 arg3 : sobj) : prim (Z * Z * Z * Z * Z) :=
  let! bit_string := arg_bit_string 3 arg3 in
  let end_ := BIT_STRING_LENGTH m bit_string in
  let end_mod := Z.rem end_ OBJECT_LENGTH in
  let! offset := arg_nonnegative 2 arg2 in
  PRIMITIVE_RETURN
    (bit_string, end_, end_mod, READ_BITS_PTR arg1 offset end_, COMPUTE_READ_BITS_OFFSET offset end_).

Definition Prim_read_bits_x (m : memory) (arg1 : Z) (arg2 arg3 : sobj) : prim (sobj * memory) :=
  let! (bit_string, end_, end_mod, start, offset) := READ_BITS_INITIALIZE m arg1 arg2 arg3 in
  let! m := lift (copy_bits m start offset
      (bit_string + BIT_STRING_INDEX_TO_WORD (end_ - 1)%SL) (end_offset end_mod) end_) in
  PRIMITIVE_RETURN (UNSPECIFIC, m).

Definition Prim_write_bits_x (m : memory) (arg1 : Z) (arg2 arg3 : sobj) : prim (sobj * memory) :=
  let! (bit_string, end_, end_mod, start, offset) := READ_BITS_INITIALIZE m arg1 arg2 arg3 in
  let! m := lift (copy_bits m
      (bit_string + BIT_STRING_INDEX_TO_WORD (end_ - 1)%SL) (end_offset end_mod) start offset end_) in
  PRIMITIVE_RETURN (UNSPECIFIC, m).

(** ** Search *)

(** Looks for a bit of the word from [bit] up; [None] past the word, where C
    would not stop. *)
Fixpoint FIND_NEXT_SET_LOOP (fuel : nat) (word bit mask : Z) : option Z :=
  match fuel with
  | O => None
  | S fuel =>
      if negb ((word & mask) =? 0) then Some bit
      else FIND_NEXT_SET_LOOP fuel word (bit + 1) (mask << 1)%SL
  end.

Definition find_in_word (word init_bit : Z) : option Z :=
  FIND_NEXT_SET_LOOP (Z.to_nat (OBJECT_LENGTH - init_bit)) word init_bit (1 << init_bit)%SL.

(** The loop over whole words: the word where it stopped, and whether that
    word has a bit set. *)
Fixpoint find_word (fuel : nat) (m : memory) (scan word end_word : Z) : option (bool * Z * Z) :=
  if word =? end_word then Some (false, scan, word)
  else
    match fuel with
    | O => None
    | S fuel =>
        if negb (m scan =? 0) then Some (true, scan + 1, word)
        else find_word fuel m (scan + 1) (word + 1) end_word
    end.

Definition win (word : Z) (bit : option Z) : prim sobj :=
  let! bit := lift bit in
  PRIMITIVE_RETURN (Obj (Immediate (LONG_TO_UNSIGNED_FIXNUM (BIT_STRING_INDEX_PAIR_TO_INDEX word bit)))).

Definition Prim_bitstr_find_next_set_bit (m : memory) (arg1 arg2 arg3 : sobj) : prim sobj :=
  let! bit_string := arg_bit_string 1 arg1 in
  let! start := arg_nonnegative 2 arg2 in
  let! end_ := arg_nonnegative 3 arg3 in
  if BIT_STRING_LENGTH m bit_string <? end_ then PRIMITIVE_ERROR (error_bad_range_arg 3)
  else if end_ <? start then PRIMITIVE_ERROR (error_bad_range_arg 2)
  else if start =? end_ then PRIMITIVE_RETURN (Boolean false)
  else
    let word := BIT_STRING_INDEX_TO_WORD start in
    let bit := Z.rem start OBJECT_LENGTH in
    let end_word := BIT_STRING_INDEX_TO_WORD (end_ - 1)%SL in
    let end_bit := Z.rem (end_ - 1)%SL OBJECT_LENGTH + 1 in
    let scan := bit_string + word in
    let first := BIT_STRING_WORD m scan in
    if word =? end_word then
      if ((end_bit - bit =? OBJECT_LENGTH) && negb (first =? 0))
         || negb ((first & ANY_MASK (end_bit - bit) bit) =? 0)
      then win word (find_in_word first bit)
      else PRIMITIVE_RETURN (Boolean false)
    else if negb ((first & (if bit =? 0 then ulong (-1) else ANY_MASK (OBJECT_LENGTH - bit) bit)) =? 0)
    then win word (find_in_word first bit)
    else
      let! (found, scan, word) :=
        lift (find_word (Z.to_nat (end_word - (word + 1))) m scan (word + 1) end_word) in
      if found then win word (find_in_word (BIT_STRING_WORD m scan) 0)
      else if negb ((m scan & (if end_bit =? OBJECT_LENGTH then ulong (-1) else LOW_MASK end_bit)) =? 0)
      then win word (find_in_word (BIT_STRING_WORD m (scan + 1)) 0)
      else PRIMITIVE_RETURN (Boolean false).
End Operations.

(** ** Facts *)

(** A bit string of [n] bits at [a]. *)
Record bit_string_at (m : memory) (a n : Z) : Prop := {
  bs_words : words m;
  bs_length : 0 <= n <= 9223372036854775744;
  bs_header : VECTOR_LENGTH m a = 1 + (n + 63) / 64;
  bs_stored : m (a + 1) = n
}.

(** Bit [i] of the bit string at [a]. *)
Definition bs_bit (m : memory) (a i : Z) : bool := mem_bit m (64 * (a + 2) + i).

(** The number of data words. *)
Definition n_words (n : Z) : Z := (n + 63) / 64.

Lemma n_words_bounds n : 64 * n_words n - 63 <= n <= 64 * n_words n.
Proof.
  unfold n_words. pose proof (Z.div_mod (n + 63) 64). pose proof (Z.mod_pos_bound (n + 63) 64). lia.
Qed.

Lemma quot_rem_64 i : 0 <= i -> Z.quot i 64 = i / 64 /\ Z.rem i 64 = i mod 64.
Proof. intros H. split; [apply Z.quot_div_nonneg | apply Z.rem_mod_nonneg]; lia. Qed.

Lemma div_mod_64 i : i = 64 * (i / 64) + i mod 64 /\ 0 <= i mod 64 < 64.
Proof. pose proof (Z.div_mod i 64). pose proof (Z.mod_pos_bound i 64). lia. Qed.

Section Layout.
Variables (m : memory) (a n : Z).
Hypothesis H : bit_string_at m a n.

Lemma bs_LENGTH : BIT_STRING_LENGTH m a = n.
Proof using H.
  unfold BIT_STRING_LENGTH, MEMORY_REF. pose proof (bs_length _ _ _ H).
  rewrite (bs_stored _ _ _ H). apply slong_small. lia.
Qed.

Lemma bs_GC_LENGTH : BIT_STRING_LENGTH_TO_GC_LENGTH n = n_words n.
Proof using H.
  unfold BIT_STRING_LENGTH_TO_GC_LENGTH. pose proof (bs_length _ _ _ H).
  rewrite slong_small by lia. apply quot_rem_64. lia.
Qed.

Lemma bs_HIGH_PTR : BIT_STRING_HIGH_PTR m a = a + 2 + n_words n.
Proof using H. unfold BIT_STRING_HIGH_PTR. rewrite (bs_header _ _ _ H). unfold n_words. lia. Qed.

Lemma n_words_nonneg : 0 <= n_words n.
Proof using H. pose proof (n_words_bounds n). pose proof (bs_length _ _ _ H). lia. Qed.
End Layout.

(** A bit string survives changes to other bits. *)
Lemma bit_string_at_frame m m' a n :
  bit_string_at m a n -> words m' ->
  (forall p, 64 * a <= p < 64 * (a + 2) -> mem_bit m' p = mem_bit m p) -> bit_string_at m' a n.
Proof.
  intros H W' E. destruct H as [W L Hd St].
  assert (E0 : m' a = m a) by (apply word_ext; auto; intros i Hi; apply E; lia).
  assert (E1 : m' (a + 1) = m (a + 1)) by (apply word_ext; auto; intros i Hi; apply E; lia).
  split; auto; [| congruence].
  unfold VECTOR_LENGTH, MEMORY_REF in *. rewrite Z.add_0_r in *. now rewrite E0.
Qed.

(** *** Arguments *)

Section Arguments.
Context {heap : Heap}.
Notation repr_integer := (int_repr (laws := bignum_laws)).

(** An index argument: an exact integer that is no less than the least
    [long]. *)
Definition is_index (x : sobj) (z : Z) : Prop :=
  exists o, x = Obj o /\ repr_integer o z /\ within z /\ -9223372036854775808 <= z.

Lemma arg_nonnegative_repr k x z :
  is_index x z ->
  arg_nonnegative k x
  = if (0 <=? z) && (z <? 9223372036854775808) then PRIMITIVE_RETURN z
    else PRIMITIVE_ERROR (error_bad_range_arg k).
Proof.
  intros (o & -> & R & W & Hz). unfold arg_nonnegative, on_object, arg_nonnegative_integer, arg_integer.
  rewrite (CHECK_ARG_integer k o z R). cbn [pbind].
  rewrite (integer_to_long_p_repr o z R W), (integer_to_long_repr o z R). cbn [lift pbind].
  destruct (Z.ltb_spec (-13835058055282163712) z); [| lia].
  destruct (Z.ltb_spec z 9223372036854775808);
    cbn [andb negb pbind lift]; rewrite ?andb_false_r; [| reflexivity].
  rewrite slong_small by lia. rewrite andb_true_r. cbn [pbind].
  destruct (Z.ltb_spec z 0), (Z.leb_spec 0 z); (reflexivity || lia).
Qed.

Lemma arg_nonnegative_small k x z :
  is_index x z -> 0 <= z < 9223372036854775808 -> arg_nonnegative k x = PRIMITIVE_RETURN z.
Proof.
  intros H Hz. rewrite (arg_nonnegative_repr k x z H).
  destruct (Z.leb_spec 0 z), (Z.ltb_spec z 9223372036854775808); (reflexivity || lia).
Qed.

(** *** One bit *)

Definition bit_address_of (a i : Z) : Z := 64 * (a + 2) + i.

(** The pointer and the mask of bit [i]. *)
Lemma REF_INITIALIZATION_spec m a n x i :
  bit_string_at m a n -> is_index x i ->
  REF_INITIALIZATION m (Bit_string a) x
  = if (0 <=? i) && (i <? n) then PRIMITIVE_RETURN (a + 3 + i / 64, (1 << (i mod 64))%SL)
    else PRIMITIVE_ERROR (error_bad_range_arg 2).
Proof.
  intros H Hi. unfold REF_INITIALIZATION. cbn [arg_bit_string pbind].
  rewrite (arg_nonnegative_repr 2 x i Hi), (bs_LENGTH m a n H). pose proof (bs_length _ _ _ H).
  destruct (Z.leb_spec 0 i), (Z.ltb_spec i n), (Z.ltb_spec i 9223372036854775808); cbn [andb pbind];
    try reflexivity; try lia.
  - destruct (Z.leb_spec n i); [lia |]. unfold BIT_STRING_INDEX_TO_WORD.
    destruct (quot_rem_64 i) as [-> ->]; [lia |].
    now replace (a + (2 + 1 + i / 64)) with (a + 3 + i / 64) by lia.
  - destruct (Z.leb_spec n i); [reflexivity | lia].
Qed.

Lemma mask_testbit k i : 0 <= k < 64 -> 0 <= i < 64 -> Z.testbit (1 << k)%SL i = (i =? k).
Proof.
  intros Hk Hi. rewrite slong_testbit, Z.shiftl_spec by lia.
  destruct (Z.eqb_spec i k) as [-> | N].
  - now rewrite Z.sub_diag.
  - destruct (Z.ltb_spec i k); [now rewrite Z.testbit_neg_r by lia |].
    apply (testbit_high 1 1); lia.
Qed.

(** Testing with the mask of bit [k]. *)
Lemma mask_test w k :
  is_ulong w -> 0 <= k < 64 -> negb ((w & (1 << k)%SL) =? 0) = Z.testbit w k.
Proof.
  intros W Hk.
  assert (E : forall i, 0 <= i -> Z.testbit (w & (1 << k)%SL) i = (i =? k) && Z.testbit w i).
  { intros i Hi. rewrite Z.land_spec. destruct (Z.ltb_spec i 64).
    - rewrite mask_testbit by lia. apply andb_comm.
    - rewrite (testbit_high w 64) by (auto; lia). now rewrite andb_false_r. }
  destruct (Z.eqb_spec (w & (1 << k)%SL) 0) as [E0 | N]; cbn [negb].
  - specialize (E k ltac:(lia)). rewrite E0, Z.bits_0, Z.eqb_refl in E. now symmetry.
  - destruct (Z.testbit w k) eqn:T; [reflexivity |]. exfalso. apply N.
    apply Z.bits_inj'. intros i Hi. rewrite E, Z.bits_0 by lia.
    destruct (Z.eqb_spec i k) as [-> |]; [now rewrite T | reflexivity].
Qed.

(** Memory with one bit changed. *)
Definition bit_updated (m m' : memory) (p : Z) (v : bool) : Prop :=
  words m' /\ forall q, mem_bit m' q = if q =? p then v else mem_bit m q.

Lemma bit_updated_same m p : words m -> bit_updated m m p (mem_bit m p).
Proof. intros W. split; [exact W |]. intros q. now destruct (Z.eqb_spec q p) as [-> |]. Qed.

Lemma bit_updated_word m w k v (b : bool) :
  words m -> 0 <= k < 64 -> is_ulong v ->
  (forall i, 0 <= i < 64 -> Z.testbit v i = if i =? k then b else Z.testbit (m w) i) ->
  bit_updated m (store m w v) (64 * w + k) b.
Proof.
  intros W Hk Hv E. split; [now apply words_store |]. intros q.
  destruct (split_address q) as (w' & i & Hi & ->). rewrite mem_bit_store by exact Hi.
  destruct (Z.eqb_spec w' w) as [-> | N].
  - rewrite E, mem_bit_at by exact Hi. destruct (Z.eqb_spec i k), (Z.eqb_spec (64 * w + i) (64 * w + k)); (reflexivity || lia).
  - destruct (Z.eqb_spec (64 * w' + i) (64 * w + k)); (reflexivity || lia).
Qed.

Lemma bs_bit_word m a i : bs_bit m a i = Z.testbit (m (a + 2 + i / 64)) (i mod 64).
Proof. destruct (div_mod_64 i) as [E R]. unfold bs_bit. apply mem_bit_eq; lia. Qed.

Lemma set_word_bit m a i (v : bool) :
  words m ->
  bit_updated m
    (set_BIT_STRING_WORD m (a + 3 + i / 64)
       (if v then BIT_STRING_WORD m (a + 3 + i / 64) .| ulong (1 << (i mod 64))%SL
        else BIT_STRING_WORD m (a + 3 + i / 64) &~ (1 << (i mod 64))%SL))
    (64 * (a + 2) + i) v.
Proof.
  intros W. destruct (div_mod_64 i) as [E R].
  replace (64 * (a + 2) + i) with (64 * (a + 3 + i / 64 - 1) + i mod 64) by lia.
  unfold set_BIT_STRING_WORD. apply bit_updated_word; auto.
  - destruct v; auto with words.
  - intros j Hj. unfold BIT_STRING_WORD.
    destruct v; rewrite ?Z.lor_spec, ?Z.ldiff_spec, ?ulong_testbit, mask_testbit by lia;
      destruct (Z.ltb_spec j 64); try lia; destruct (j =? i mod 64); cbn [andb negb];
      rewrite ?orb_true_r, ?orb_false_r, ?andb_true_r, ?andb_false_r; reflexivity.
Qed.
End Arguments.

(** *** Runs of words *)

Lemma fill_words_spec i : forall m s f b,
  fill_words i m s f b = if (s - Z.of_nat i <=? b) && (b <? s) then f else m b.
Proof.
  induction i as [|i IH]; intros m s f b; cbn [fill_words].
  - destruct (Z.leb_spec (s - Z.of_nat 0) b), (Z.ltb_spec b s); (reflexivity || lia).
  - rewrite IH, Nat2Z.inj_succ. unfold store.
    destruct (Z.leb_spec (s - 1 - Z.of_nat i) b), (Z.ltb_spec b (s - 1)),
      (Z.leb_spec (s - Z.succ (Z.of_nat i)) b), (Z.ltb_spec b s), (Z.eqb_spec b (s - 1));
      cbn [andb]; (reflexivity || lia).
Qed.

Lemma bitwise_words_spec op i : forall m s1 s2,
  s2 <= s1 \/ s1 <= s2 - Z.of_nat i ->
  forall b, bitwise_words i op m s1 s2 b
    = if (s1 - Z.of_nat i <=? b) && (b <? s1) then action op (m b) (m (b - s1 + s2)) else m b.
Proof.
  induction i as [|i IH]; intros m s1 s2 Ov b; cbn [bitwise_words].
  - destruct (Z.leb_spec (s1 - Z.of_nat 0) b), (Z.ltb_spec b s1); (reflexivity || lia).
  - rewrite Nat2Z.inj_succ in *. rewrite IH by lia. unfold store.
    replace (b - (s1 - 1) + (s2 - 1)) with (b - s1 + s2) by lia.
    destruct (Z.leb_spec (s1 - 1 - Z.of_nat i) b), (Z.ltb_spec b (s1 - 1)),
      (Z.leb_spec (s1 - Z.succ (Z.of_nat i)) b), (Z.ltb_spec b s1), (Z.eqb_spec b (s1 - 1)),
      (Z.eqb_spec (b - s1 + s2) (s1 - 1)); cbn [andb]; try reflexivity; try lia.
    all: replace (b - s1 + s2) with (s2 - 1) by lia; now replace b with (s1 - 1) by lia.
Qed.

Lemma EQUAL_SECTIONS_P_spec i : forall m s1 s2,
  EQUAL_SECTIONS_P i m s1 s2 = true
  <-> forall k, 0 <= k < Z.of_nat i -> m (s1 - 1 - k) = m (s2 - 1 - k).
Proof.
  induction i as [|i IH]; intros m s1 s2; cbn [EQUAL_SECTIONS_P].
  - split; [intros _ k Hk; lia | reflexivity].
  - rewrite Nat2Z.inj_succ. destruct (Z.eqb_spec (m (s1 - 1)) (m (s2 - 1))) as [E | N]; cbn [negb].
    + rewrite IH. split; intros H k Hk.
      * destruct (Z.eqb_spec k 0) as [-> | N]; [now rewrite !Z.sub_0_r |].
        specialize (H (k - 1) ltac:(lia)).
        replace (s1 - 1 - k) with (s1 - 1 - 1 - (k - 1)) by lia.
        now replace (s2 - 1 - k) with (s2 - 1 - 1 - (k - 1)) by lia.
      * specialize (H (k + 1) ltac:(lia)).
        replace (s1 - 1 - 1 - k) with (s1 - 1 - (k + 1)) by lia.
        now replace (s2 - 1 - 1 - k) with (s2 - 1 - (k + 1)) by lia.
    + split; [discriminate | intros H]. exfalso. apply N.
      specialize (H 0 ltac:(lia)). now rewrite !Z.sub_0_r in H.
Qed.

(** Testing for zero is comparing with words that are zero. *)
Lemma ZERO_SECTION_P_spec i : forall m s,
  ZERO_SECTION_P i m s = true <-> forall k, 0 <= k < Z.of_nat i -> m (s - 1 - k) = 0.
Proof.
  induction i as [|i IH]; intros m s; cbn [ZERO_SECTION_P].
  - split; [intros _ k Hk; lia | reflexivity].
  - rewrite Nat2Z.inj_succ. destruct (Z.eqb_spec (m (s - 1)) 0) as [E | N]; cbn [negb].
    + rewrite IH. split; intros H k Hk.
      * destruct (Z.eqb_spec k 0) as [-> | N]; [now rewrite Z.sub_0_r |].
        specialize (H (k - 1) ltac:(lia)). now replace (s - 1 - k) with (s - 1 - 1 - (k - 1)) by lia.
      * specialize (H (k + 1) ltac:(lia)). now replace (s - 1 - 1 - k) with (s - 1 - (k + 1)) by lia.
    + split; [discriminate | intros H]. exfalso. apply N.
      specialize (H 0 ltac:(lia)). now rewrite Z.sub_0_r in H.
Qed.

(** All bits below [n]: those of the whole words, and the odd ones. *)
Lemma all_bits_split n (P : Z -> Prop) :
  0 <= n ->
  (forall i, 0 <= i < n -> P i)
  <-> (forall k, 0 <= k < n / 64 -> forall j, 0 <= j < 64 -> P (64 * k + j))
      /\ (forall j, 0 <= j < n mod 64 -> P (64 * (n / 64) + j)).
Proof.
  intros Hn. destruct (div_mod_64 n) as [En Rn]. split.
  - intros H. split; intros; apply H; nia.
  - intros [Hw Ho] i Hi. destruct (div_mod_64 i) as [Ei Ri]. rewrite Ei.
    destruct (Z.ltb_spec (i / 64) (n / 64)); [apply Hw; [|lia]; split; [apply Z.div_pos|]; lia |].
    replace (i / 64) with (n / 64) by nia. apply Ho. nia.
Qed.

Lemma words_equal x y :
  is_ulong x -> is_ulong y -> x = y <-> forall j, 0 <= j < 64 -> Z.testbit x j = Z.testbit y j.
Proof.
  intros Hx Hy. split; [now intros -> |]. intros H. apply Z.bits_inj'. intros i Hi.
  destruct (Z.ltb_spec i 64); [apply H; lia |].
  now rewrite (testbit_high x 64), (testbit_high y 64) by (auto; lia).
Qed.

Lemma masked_equal x y o :
  0 <= o < 64 ->
  (x & LOW_MASK o) = (y & LOW_MASK o) <-> forall j, 0 <= j < o -> Z.testbit x j = Z.testbit y j.
Proof.
  intros Ho. split.
  - intros E j Hj. apply (f_equal (fun z => Z.testbit z j)) in E.
    rewrite !Z.land_spec, LOW_MASK_testbit in E by lia.
    rewrite (proj2 (Z.ltb_lt j o)), !andb_true_r in E by lia. exact E.
  - intros H. apply Z.bits_inj'. intros j Hj. rewrite !Z.land_spec, LOW_MASK_testbit by lia.
    destruct (Z.ltb_spec j o); [rewrite H by lia; reflexivity | now rewrite !andb_false_r].
Qed.

Lemma bs_bit_at m a k j : 0 <= j < 64 -> bs_bit m a (64 * k + j) = Z.testbit (m (a + 2 + k)) j.
Proof. intros Hj. unfold bs_bit. apply mem_bit_eq; lia. Qed.

(** A test of whole words and a masked word, bit by bit. *)
Lemma sections_spec (n : Z) (sections : bool) (X Y : Z -> Z) :
  0 <= n -> (forall k, is_ulong (X k)) -> (forall k, is_ulong (Y k)) ->
  (sections = true <-> forall k, 0 <= k < n / 64 -> X k = Y k) ->
  (if n mod 64 =? 0 then sections
   else if negb ((X (n / 64) & LOW_MASK (n mod 64)) =? (Y (n / 64) & LOW_MASK (n mod 64))) then false
   else sections) = true
  <-> forall i, 0 <= i < n -> Z.testbit (X (i / 64)) (i mod 64) = Z.testbit (Y (i / 64)) (i mod 64).
Proof.
  intros Hn HX HY HS. destruct (div_mod_64 n) as [En Rn].
  rewrite (all_bits_split n _ Hn).
  assert (Ix : forall k j, 0 <= j < 64 -> (64 * k + j) / 64 = k /\ (64 * k + j) mod 64 = j)
    by apply bit_address.
  assert (W : sections = true <-> forall k, 0 <= k < n / 64 -> forall j, 0 <= j < 64 ->
    Z.testbit (X ((64 * k + j) / 64)) ((64 * k + j) mod 64)
    = Z.testbit (Y ((64 * k + j) / 64)) ((64 * k + j) mod 64)).
  { rewrite HS. split; intros H k Hk.
    - intros j Hj. destruct (Ix k j Hj) as [-> ->]. now rewrite H.
    - apply words_equal; auto. intros j Hj. specialize (H k Hk j Hj).
      destruct (Ix k j Hj) as [E1 E2]. now rewrite E1, E2 in H. }
  assert (O : (X (n / 64) & LOW_MASK (n mod 64)) = (Y (n / 64) & LOW_MASK (n mod 64))
    <-> forall j, 0 <= j < n mod 64 ->
      Z.testbit (X ((64 * (n / 64) + j) / 64)) ((64 * (n / 64) + j) mod 64)
      = Z.testbit (Y ((64 * (n / 64) + j) / 64)) ((64 * (n / 64) + j) mod 64)).
  { rewrite masked_equal by exact Rn. split; intros H j Hj; specialize (H j Hj);
      destruct (Ix (n / 64) j ltac:(lia)) as [E1 E2]; now rewrite E1, E2 in *. }
  rewrite <- W, <- O. destruct (Z.eqb_spec (n mod 64) 0) as [E0 | N0].
  - split; [intros ->; split; [reflexivity |] | tauto].
    rewrite E0. change (LOW_MASK 0) with 0. now rewrite !Z.land_0_r.
  - destruct (Z.eqb_spec (X (n / 64) & LOW_MASK (n mod 64)) (Y (n / 64) & LOW_MASK (n mod 64)));
      cbn [negb]; intuition congruence.
Qed.

Section QueryFacts.
Context {heap : Heap}.

Lemma zero_p_spec m a n :
  bit_string_at m a n ->
  exists b, Prim_bit_string_zero_p m (Bit_string a) = PRIMITIVE_RETURN (Boolean b)
    /\ (b = true <-> forall i, 0 <= i < n -> bs_bit m a i = false).
Proof.
  intros H. pose proof (bs_length _ _ _ H) as Hn. pose proof (n_words_bounds n) as Nw.
  destruct (div_mod_64 n) as [En Rn]. unfold Prim_bit_string_zero_p. cbn [arg_bit_string pbind].
  rewrite (bs_LENGTH m a n H), (bs_HIGH_PTR m a n H).
  destruct (quot_rem_64 n) as [-> ->]; [lia |].
  assert (Hq : 0 <= n / 64) by (apply Z.div_pos; lia).
  set (top := a + 2 + n / 64).
  assert (S : ZERO_SECTION_P (Z.to_nat (n / 64)) m top = true
    <-> forall k, 0 <= k < n / 64 -> m (a + 2 + k) = 0).
  { rewrite ZERO_SECTION_P_spec, Z2Nat.id by lia. subst top.
    split; intros E k Hk; specialize (E (n / 64 - 1 - k) ltac:(lia));
      [replace (a + 2 + k) with (a + 2 + n / 64 - 1 - (n / 64 - 1 - k)) by lia; exact E |
       replace (a + 2 + n / 64 - 1 - k) with (a + 2 + (n / 64 - 1 - k)) by lia; exact E]. }
  pose proof (sections_spec n (ZERO_SECTION_P (Z.to_nat (n / 64)) m top) (fun k => m (a + 2 + k))
    (fun _ => 0) ltac:(lia) ltac:(intros; apply (bs_words _ _ _ H)) ltac:(unfold is_ulong; lia) S) as Sp.
  cbv beta in Sp. rewrite Z.land_0_l in Sp.
  assert (Bits : (forall i, 0 <= i < n -> bs_bit m a i = false) <->
    forall i, 0 <= i < n -> Z.testbit (m (a + 2 + i / 64)) (i mod 64) = Z.testbit 0 (i mod 64)).
  { split; intros E i Hi; specialize (E i Hi); rewrite Z.bits_0, <- bs_bit_word in *; exact E. }
  setoid_rewrite Bits. setoid_rewrite <- Sp. unfold BIT_STRING_WORD.
  destruct (Z.eqb_spec (n mod 64) 0) as [E0 | N0].
  - replace (a + 2 + n_words n) with top by lia. eexists. split; [reflexivity | tauto].
  - destruct (Z.ltb_spec (n mod 64) 0); [lia |].
    replace (a + 2 + n_words n - 1) with top by lia. unfold top at 1 2.
    destruct (negb _); eexists; (split; [reflexivity | tauto]).
Qed.

Lemma equal_p_spec m a1 a2 n1 n2 :
  bit_string_at m a1 n1 -> bit_string_at m a2 n2 ->
  exists b, Prim_bit_string_equal_p m (Bit_string a1) (Bit_string a2) = PRIMITIVE_RETURN (Boolean b)
    /\ (b = true <-> n1 = n2 /\ forall i, 0 <= i < n1 -> bs_bit m a1 i = bs_bit m a2 i).
Proof.
  intros H H2. pose proof (bs_length _ _ _ H) as Hn. pose proof (n_words_bounds n1) as Nw.
  unfold Prim_bit_string_equal_p. cbn [arg_bit_string pbind].
  rewrite (bs_LENGTH m a1 n1 H), (bs_LENGTH m a2 n2 H2).
  destruct (Z.eqb_spec n1 n2) as [<- | N]; cbn [negb].
  2: { exists false. split; [reflexivity |]. split; [discriminate | tauto]. }
  unfold BIT_STRING_MSW, BIT_STRING_WORD.
  rewrite (bs_HIGH_PTR m a1 n1 H), (bs_HIGH_PTR m a2 n1 H2).
  destruct (div_mod_64 n1) as [En Rn]. destruct (quot_rem_64 n1) as [-> ->]; [lia |].
  assert (Hq : 0 <= n1 / 64) by (apply Z.div_pos; lia).
  set (top1 := a1 + 2 + n1 / 64). set (top2 := a2 + 2 + n1 / 64).
  assert (S : EQUAL_SECTIONS_P (Z.to_nat (n1 / 64)) m top1 top2 = true
    <-> forall k, 0 <= k < n1 / 64 -> m (a1 + 2 + k) = m (a2 + 2 + k)).
  { rewrite EQUAL_SECTIONS_P_spec, Z2Nat.id by lia. subst top1 top2.
    split; intros E k Hk; specialize (E (n1 / 64 - 1 - k) ltac:(lia)).
    - replace (a1 + 2 + k) with (a1 + 2 + n1 / 64 - 1 - (n1 / 64 - 1 - k)) by lia.
      now replace (a2 + 2 + k) with (a2 + 2 + n1 / 64 - 1 - (n1 / 64 - 1 - k)) by lia.
    - replace (a1 + 2 + n1 / 64 - 1 - k) with (a1 + 2 + (n1 / 64 - 1 - k)) by lia.
      now replace (a2 + 2 + n1 / 64 - 1 - k) with (a2 + 2 + (n1 / 64 - 1 - k)) by lia. }
  pose proof (sections_spec n1 (EQUAL_SECTIONS_P (Z.to_nat (n1 / 64)) m top1 top2)
    (fun k => m (a1 + 2 + k)) (fun k => m (a2 + 2 + k)) ltac:(lia)
    ltac:(intros; apply (bs_words _ _ _ H)) ltac:(intros; apply (bs_words _ _ _ H)) S) as Sp.
  cbv beta in Sp.
  assert (Bits : (n1 = n1 /\ forall i, 0 <= i < n1 -> bs_bit m a1 i = bs_bit m a2 i) <->
    forall i, 0 <= i < n1 ->
      Z.testbit (m (a1 + 2 + i / 64)) (i mod 64) = Z.testbit (m (a2 + 2 + i / 64)) (i mod 64)).
  { split; [intros [_ E] | intros E; split; [reflexivity |]]; intros i Hi; specialize (E i Hi);
      rewrite <- !bs_bit_word in *; exact E. }
  setoid_rewrite Bits. setoid_rewrite <- Sp. destruct (Z.eqb_spec (n1 mod 64) 0) as [E0 | N0].
  - replace (a1 + 2 + n_words n1) with top1 by lia. replace (a2 + 2 + n_words n1) with top2 by lia.
    eexists. split; [reflexivity | tauto].
  - destruct (Z.ltb_spec (n1 mod 64) 0); [lia |].
    replace (a1 + 2 + n_words n1 - 1) with top1 by lia. replace (a2 + 2 + n_words n1 - 1) with top2 by lia.
    unfold top1 at 1, top2 at 1. destruct (negb _); eexists; (split; [reflexivity | tauto]).
Qed.
End QueryFacts.
