(* ===== verification/BitStringSpec.v ===== *)
(** * What the bit string primitives do (src/src/microcode/bitstr.c)

    Theorems about BitString.v, stated on the bits of memory: the primitives on
    one bit, the transfers, the operations on whole bit strings and the
    search. *)

From Stdlib Require Import ZArith List Lia Bool.
From S2P Require Import Prelude Bignum BignumConv BignumSpec Object Fixnum Integer IntPrim.
From S2P Require Import Memory BitCopy BitString.
Import ListNotations.

(** ** Allocation and filling *)

Section Allocation.
Context {heap : Heap}.

(** Room for a bit string of [n] bits. *)
Definition bit_string_room (s : machine) (n : Z) : Prop :=
  words (mem s) /\ 0 <= n <= 9223372036854775744
  /\ GC_NEEDED_P s (1 + (1 + n_words n)) = false.

Lemma words_of_ulong n : 0 <= n <= 9223372036854775744 -> ulong_LENGTH_TO_GC_LENGTH n = n_words n.
Proof. intros H. unfold ulong_LENGTH_TO_GC_LENGTH, n_words. now rewrite ulong_small by lia. Qed.

Lemma allocate_bit_string_spec s n :
  bit_string_room s n ->
  exists s', allocate_bit_string n s = PRIMITIVE_RETURN (Free s, s')
    /\ bit_string_at (mem s') (Free s) n /\ Free s' = Free s + (2 + n_words n)
    /\ forall b, b <> Free s -> b <> Free s + 1 -> mem s' b = mem s b.
Proof.
  intros (W & Hn & G). pose proof (n_words_bounds n) as B.
  unfold allocate_bit_string, allocate_non_marked_vector. rewrite words_of_ulong by exact Hn.
  rewrite ulong_small by lia. rewrite G. cbn [andb pbind allocate_vector set_mem mem Free].
  eexists. split; [reflexivity |]. cbn [set_mem mem Free]. unfold MEMORY_SET.
  set (m1 := store (mem s) (Free s) _).
  assert (Hh : is_ulong (MAKE_OBJECT TC_MANIFEST_NM_VECTOR (1 + n_words n))).
  { rewrite MAKE_OBJECT_add by lia. red. lia. }
  split; [| split; [lia |]].
  - assert (Nw : store m1 (Free s + 1) n (Free s) = MAKE_OBJECT TC_MANIFEST_NM_VECTOR (1 + n_words n)).
    { rewrite store_other by lia. apply store_same. }
    split; [| exact Hn | | apply store_same].
    + apply words_store; [now apply words_store | red; lia].
    + unfold VECTOR_LENGTH, MEMORY_REF. rewrite Z.add_0_r, Nw.
      rewrite (proj2 (MAKE_OBJECT_parts TC_MANIFEST_NM_VECTOR (1 + n_words n) ltac:(lia) ltac:(lia))).
      reflexivity.
  - intros b N0 N1. subst m1. rewrite !store_other by lia. reflexivity.
Qed.

Lemma allocate_bit_string_gc s n :
  0 <= n <= 9223372036854775744 -> GC_NEEDED_P s (1 + (1 + n_words n)) = true ->
  allocate_bit_string n s = PRIMITIVE_ERROR (Primitive_GC (1 + (1 + n_words n))).
Proof.
  intros Hn G. pose proof (n_words_bounds n).
  unfold allocate_bit_string, allocate_non_marked_vector. rewrite words_of_ulong by exact Hn.
  rewrite ulong_small by lia. now rewrite G.
Qed.

(** The data words of a bit string. *)
Definition data_word (a n b : Z) : bool := (a + 2 <=? b) && (b <? a + 2 + n_words n).

Lemma filled m a n f :
  bit_string_at m a n -> is_ulong f ->
  let m' := fill_words (Z.to_nat (BIT_STRING_LENGTH_TO_GC_LENGTH (BIT_STRING_LENGTH m a))) m
              (BIT_STRING_HIGH_PTR m a) f in
  (forall b, m' b = if data_word a n b then f else m b) /\ bit_string_at m' a n.
Proof.
  intros H Hf m'. pose proof (n_words_nonneg m a n H) as Nn.
  assert (E : forall b, m' b = if data_word a n b then f else m b).
  { intros b. subst m'. rewrite (bs_LENGTH m a n H), (bs_GC_LENGTH m a n H), (bs_HIGH_PTR m a n H).
    rewrite fill_words_spec, Z2Nat.id by exact Nn. unfold data_word.
    now replace (a + 2 + n_words n - n_words n) with (a + 2) by lia. }
  split; [exact E |]. destruct H as [W L Hd St].
  assert (E01 : m' a = m a /\ m' (a + 1) = m (a + 1)).
  { rewrite !E. unfold data_word.
    destruct (Z.leb_spec (a + 2) a), (Z.leb_spec (a + 2) (a + 1)); try lia. split; reflexivity. }
  destruct E01 as [E0 E1]. split; auto.
  - intros b. rewrite E. destruct (data_word a n b); auto.
  - unfold VECTOR_LENGTH, MEMORY_REF in *. rewrite Z.add_0_r in *. now rewrite E0.
  - now rewrite E1.
Qed.

(** Bit [i] of a bit string is in one of its data words. *)
Lemma data_word_bit a n i : 0 <= i < n -> data_word a n (a + 2 + i / 64) = true.
Proof.
  intros Hi. pose proof (n_words_bounds n). destruct (div_mod_64 i).
  unfold data_word. apply andb_true_iff. rewrite Z.leb_le, Z.ltb_lt. lia.
Qed.

Lemma filler_bit (sense : bool) j : 0 <= j < 64 -> Z.testbit (ulong (if sense then -1 else 0)) j = sense.
Proof.
  intros Hj. rewrite ulong_testbit by lia. destruct (Z.ltb_spec j 64); [| lia]. cbn [andb].
  destruct sense; [apply Z.bits_m1; lia | apply Z.bits_0].
Qed.

Lemma fill_bit_string_spec m a n sense :
  bit_string_at m a n ->
  let m' := fill_bit_string m a sense in
  bit_string_at m' a n /\ (forall i, 0 <= i < n -> bs_bit m' a i = sense)
  /\ forall b, data_word a n b = false -> m' b = m b.
Proof.
  intros H m'. destruct (filled m a n (ulong (if sense then -1 else 0)) H) as [E H'];
    [apply ulong_range |]. fold (fill_bit_string m a sense) in E, H'. fold m' in E, H'.
  split; [exact H' |]. split.
  - intros i Hi. rewrite bs_bit_word, E, data_word_bit by exact Hi. apply filler_bit, div_mod_64.
  - intros b Hb. now rewrite E, Hb.
Qed.

(** [clear_bit_string] is filling with zeros. *)
Lemma clear_fill m a : clear_bit_string m a = fill_bit_string m a false.
Proof. reflexivity. Qed.
End Allocation.

(** ** Bitwise operations *)

(** Two bit strings are the same object or do not overlap. *)
Definition apart (a1 n1 a2 n2 : Z) : Prop :=
  a1 = a2 \/ a1 + 2 + n_words n1 <= a2 \/ a2 + 2 + n_words n2 <= a1.

Definition action_bool (op : assignment) (x y : bool) : bool :=
  match op with
  | MOVE => y
  | MOVEC => negb y
  | OR => x || y
  | AND => x && y
  | ANDC => x && negb y
  | XOR => xorb x y
  end.

Lemma action_ulong op x y : is_ulong x -> is_ulong y -> is_ulong (action op x y).
Proof. destruct op; cbn [action]; auto with words. Qed.

Lemma action_testbit op x y j :
  0 <= j < 64 -> Z.testbit (action op x y) j = action_bool op (Z.testbit x j) (Z.testbit y j).
Proof.
  intros Hj. destruct op; cbn [action action_bool];
    rewrite ?ulong_testbit, ?Z.lnot_spec, ?Z.lor_spec, ?Z.land_spec, ?Z.ldiff_spec, ?Z.lxor_spec by lia;
    try reflexivity.
  destruct (Z.ltb_spec j 64); [reflexivity | lia].
Qed.

Lemma BITWISE_OP_spec op m a1 a2 n :
  bit_string_at m a1 n -> bit_string_at m a2 n -> apart a1 n a2 n ->
  exists m', BITWISE_OP op m a1 a2 = PRIMITIVE_RETURN (UNSPECIFIC, m')
    /\ bit_string_at m' a1 n
    /\ (forall i, 0 <= i < n -> bs_bit m' a1 i = action_bool op (bs_bit m a1 i) (bs_bit m a2 i))
    /\ forall b, data_word a1 n b = false -> m' b = m b.
Proof.
  intros H1 H2 Ap. pose proof (n_words_nonneg m a1 n H1) as Nn. pose proof (n_words_bounds n) as Nb.
  pose proof (bs_length _ _ _ H1) as Hn. red in Ap. unfold BITWISE_OP.
  rewrite (bs_LENGTH m a1 n H1), (bs_LENGTH m a2 n H2), Z.eqb_refl. cbn [negb].
  rewrite (bs_HIGH_PTR m a1 n H1), (bs_HIGH_PTR m a2 n H2), (bs_header _ _ _ H1).
  change ((n + 63) / 64) with (n_words n). replace (1 + n_words n - 1) with (n_words n) by lia.
  rewrite ulong_small, slong_small by lia. set (m' := bitwise_words _ _ _ _ _).
  assert (E : forall b, m' b = if data_word a1 n b then action op (m b) (m (b - a1 + a2)) else m b).
  { intros b. subst m'. rewrite bitwise_words_spec by lia. rewrite Z2Nat.id by lia. unfold data_word.
    replace (a1 + 2 + n_words n - n_words n) with (a1 + 2) by lia.
    now replace (b - (a1 + 2 + n_words n) + (a2 + 2 + n_words n)) with (b - a1 + a2) by lia. }
  exists m'. split; [reflexivity |].
  assert (W : words m) by apply H1.
  assert (W' : words m').
  { intros b. rewrite E. destruct (data_word a1 n b); [apply action_ulong |]; apply W. }
  split; [| split].
  - apply (bit_string_at_frame m); auto. intros p Hp. unfold mem_bit. rewrite E. unfold data_word.
    destruct (div_mod_64 p). destruct (Z.leb_spec (a1 + 2) (p / 64)); [lia | reflexivity].
  - intros i Hi. rewrite !bs_bit_word, E, data_word_bit by exact Hi.
    rewrite action_testbit by apply div_mod_64.
    now replace (a1 + 2 + i / 64 - a1 + a2) with (a2 + 2 + i / 64) by lia.
  - intros b Hb. now rewrite E, Hb.
Qed.

(** ** Transfers *)

(** The end of a run of bits, as the pointer and offset for [copy_bits]. *)
Lemma end_pointer a e :
  0 < e -> 64 * (a + BIT_STRING_INDEX_TO_WORD (e - 1)) - end_offset (Z.rem e 64) = 64 * (a + 2) + e.
Proof.
  intros He. unfold BIT_STRING_INDEX_TO_WORD, end_offset.
  destruct (quot_rem_64 (e - 1)) as [-> _]; [lia |]. destruct (quot_rem_64 e) as [_ ->]; [lia |].
  destruct (div_mod_64 e), (div_mod_64 (e - 1)). destruct (Z.eqb_spec (e mod 64) 0); lia.
Qed.

Lemma end_offset_range e : 0 <= e -> 0 <= end_offset (Z.rem e 64) < 64.
Proof.
  intros He. unfold end_offset. destruct (quot_rem_64 e) as [_ ->]; [lia |]. destruct (div_mod_64 e).
  destruct (Z.eqb_spec (e mod 64) 0); lia.
Qed.

(** Where [READ-BITS!] and [WRITE-BITS!] look for the bits at [offset] from
    address [p]: a word too low when the run ends one bit into a word. *)
Definition read_bits_slip (offset n : Z) : Z := if (offset + n) mod 64 =? 1 then 64 else 0.

Lemma read_bits_pointer p offset n :
  0 <= offset -> 0 < n -> offset + n <= 9223372036854775744 ->
  64 * READ_BITS_PTR p offset n - COMPUTE_READ_BITS_OFFSET offset n
  = 64 * p + offset + n - read_bits_slip offset n.
Proof.
  intros Ho Hn Hs. unfold READ_BITS_PTR, COMPUTE_READ_BITS_OFFSET, BIT_STRING_LENGTH_TO_GC_LENGTH, read_bits_slip.
  rewrite !slong_small by (rewrite ?slong_small by lia; lia).
  destruct (quot_rem_64 (offset + n - 1 + 63)) as [-> _]; [lia |].
  destruct (quot_rem_64 (offset + n)) as [_ ->]; [lia |].
  destruct (div_mod_64 (offset + n)), (div_mod_64 (offset + n - 1 + 63)).
  destruct (Z.eqb_spec ((offset + n) mod 64) 0), (Z.eqb_spec ((offset + n) mod 64) 1); cbn [negb]; lia.
Qed.

Lemma COMPUTE_READ_BITS_OFFSET_range offset n :
  0 <= offset -> 0 < n -> offset + n <= 9223372036854775744 ->
  0 <= COMPUTE_READ_BITS_OFFSET offset n < 64.
Proof.
  intros Ho Hn Hs. unfold COMPUTE_READ_BITS_OFFSET. rewrite slong_small by lia.
  destruct (quot_rem_64 (offset + n)) as [_ ->]; [lia |]. destruct (div_mod_64 (offset + n)).
  destruct (Z.eqb_spec ((offset + n) mod 64) 0); cbn [negb]; lia.
Qed.

Section Moving.
Context {heap : Heap}.

(** The transfer when all the range checks pass. *)
Lemma move_right_spec m a1 n1 a2 n2 x1 x2 x3 start1 end1 start2 :
  bit_string_at m a1 n1 -> bit_string_at m a2 n2 ->
  is_index x1 start1 -> is_index x2 end1 -> is_index x3 start2 ->
  0 <= start1 <= end1 -> end1 <= n1 -> 0 <= start2 -> start2 + (end1 - start1) <= n2 ->
  no_clobber (64 * (a1 + 2) + end1) (64 * (a2 + 2) + (start2 + (end1 - start1))) (end1 - start1) ->
  exists m', Prim_bit_substring_move_right_x m (Bit_string a1) x1 x2 (Bit_string a2) x3
      = PRIMITIVE_RETURN (UNSPECIFIC, m')
    /\ bits_copied m m' (64 * (a1 + 2) + end1) (64 * (a2 + 2) + (start2 + (end1 - start1)))
         (end1 - start1).
Proof.
  intros H1 H2 I1 I2 I3 Hs He Hs2 He2 Ov.
  pose proof (bs_length _ _ _ H1). pose proof (bs_length _ _ _ H2).
  unfold Prim_bit_substring_move_right_x. cbn [arg_bit_string pbind].
  rewrite (arg_nonnegative_small 2 x1 start1 I1), (arg_nonnegative_small 3 x2 end1 I2) by lia.
  cbn [pbind]. rewrite (arg_nonnegative_small 5 x3 start2 I3) by lia. cbn [pbind].
  rewrite (bs_LENGTH m a1 n1 H1), (bs_LENGTH m a2 n2 H2). unwrap.
  set (nbits := end1 - start1) in *.
  destruct (Z.ltb_spec start1 0); [lia |]. destruct (Z.ltb_spec end1 start1); [lia |].
  destruct (Z.ltb_spec n1 end1); [lia |]. destruct (Z.ltb_spec start2 0); [lia |].
  destruct (Z.ltb_spec n2 (start2 + nbits)); [lia |]. cbn [orb].
  destruct (Z.eqb_spec nbits 0) as [Z0 | N0].
  { unfold copy_bits. rewrite Z0. cbn [Z.eqb lift pbind]. exists m. split; [reflexivity |].
    apply bits_copied_none, H1. }
  rewrite <- (end_pointer a1 end1), <- (end_pointer a2 (start2 + nbits)) in * by lia.
  destruct (copy_bits_copied m
    (a1 + BIT_STRING_INDEX_TO_WORD (end1 - 1)) (end_offset (Z.rem end1 64))
    (a2 + BIT_STRING_INDEX_TO_WORD (start2 + nbits - 1)) (end_offset (Z.rem (start2 + nbits) 64)) nbits)
    as (m' & -> & C); auto; try (apply end_offset_range; lia); try lia; [apply H1 |].
  exists m'. split; [reflexivity | exact C].
Qed.

(** Moving bits inside the data of one bit string leaves every other bit
    string what it was. *)
Lemma bits_copied_frame m m' e1 a2 n2 start2 nbits a n :
  bits_copied m m' e1 (64 * (a2 + 2) + (start2 + nbits)) nbits ->
  0 <= start2 -> 0 <= nbits -> start2 + nbits <= n2 -> apart a n a2 n2 ->
  bit_string_at m a n -> bit_string_at m' a n.
Proof.
  intros [W C] Hs Hn He Ap H. apply (bit_string_at_frame m); auto. intros p Hp. rewrite C.
  pose proof (n_words_bounds n2). pose proof (n_words_bounds n). pose proof (bs_length _ _ _ H).
  red in Ap.
  destruct (Z.leb_spec (64 * (a2 + 2) + (start2 + nbits) - nbits) p),
    (Z.ltb_spec p (64 * (a2 + 2) + (start2 + nbits))); cbn [andb]; try reflexivity; lia.
Qed.
End Moving.

(** ** Search *)

Lemma shifted_mask b : 0 <= b < 63 -> ((1 << b)%SL << 1)%SL = (1 << (b + 1))%SL.
Proof.
  intros Hb. rewrite !Z.shiftl_1_l, Z.shiftl_mul_pow2 by lia.
  assert (0 < 2 ^ b <= 2 ^ 62) by (split; [apply Z.pow_pos_nonneg | apply Z.pow_le_mono_r]; lia).
  rewrite (slong_small (2 ^ b)) by lia. f_equal. rewrite Z.pow_add_r by lia. reflexivity.
Qed.

(** The loop finds the first bit, if there is one. *)
Lemma FIND_NEXT_SET_LOOP_spec w : is_ulong w -> forall fuel b,
  0 <= b -> b + Z.of_nat fuel = 64 -> (exists j, b <= j < 64 /\ Z.testbit w j = true) ->
  exists j, FIND_NEXT_SET_LOOP fuel w b (1 << b)%SL = Some j
    /\ b <= j < 64 /\ Z.testbit w j = true /\ forall i, b <= i < j -> Z.testbit w i = false.
Proof.
  intros W. induction fuel as [|fuel IH]; intros b Hb Hf (j & Hj & T); [lia |].
  rewrite Nat2Z.inj_succ in Hf. cbn [FIND_NEXT_SET_LOOP]. rewrite mask_test by (auto; lia).
  destruct (Z.testbit w b) eqn:Tb.
  - exists b. repeat split; auto; lia.
  - assert (b <> j) by congruence. rewrite shifted_mask by lia.
    destruct (IH (b + 1)) as (k & -> & Hk & Tk & Below); [lia | lia | exists j; split; [lia | exact T] |].
    exists k. repeat split; auto; try lia. intros i Hi.
    destruct (Z.eqb_spec i b) as [-> |]; [exact Tb | apply Below; lia].
Qed.

Lemma find_in_word_spec w b :
  is_ulong w -> 0 <= b < 64 -> (exists j, b <= j < 64 /\ Z.testbit w j = true) ->
  exists j, find_in_word w b = Some j
    /\ b <= j < 64 /\ Z.testbit w j = true /\ forall i, b <= i < j -> Z.testbit w i = false.
Proof. intros W Hb E. apply FIND_NEXT_SET_LOOP_spec; auto; lia. Qed.

(** Whether a masked word is zero. *)
Lemma masked_word w mask lo hi :
  is_ulong w -> 0 <= lo -> hi <= 64 ->
  (forall j, 0 <= j < 64 -> Z.testbit mask j = (lo <=? j) && (j <? hi)) ->
  if (w & mask) =? 0 then forall j, lo <= j < hi -> Z.testbit w j = false
  else exists j, lo <= j < hi /\ Z.testbit w j = true.
Proof.
  intros W Hlo Hhi M. destruct (Z.eqb_spec (w & mask) 0) as [E | N].
  - intros j Hj. apply (f_equal (fun z => Z.testbit z j)) in E.
    rewrite Z.land_spec, Z.bits_0, M in E by lia.
    destruct (Z.leb_spec lo j), (Z.ltb_spec j hi); try lia. now rewrite andb_true_r in E.
  - assert (Hu : is_ulong (w & mask)) by auto with words. red in Hu.
    set (x := w & mask) in *. exists (Z.log2 x).
    assert (T : Z.testbit x (Z.log2 x) = true) by (apply Z.bit_log2; lia).
    assert (L : 0 <= Z.log2 x < 64).
    { split; [apply Z.log2_nonneg |]. apply Z.log2_lt_pow2; lia. }
    unfold x at 1 in T. rewrite Z.land_spec, M in T by lia. apply andb_true_iff in T as [T1 T2].
    apply andb_true_iff in T2 as [T2 T3]. reflect_bools. split; [lia | exact T1].
Qed.

(** The loop over whole words. *)
Lemma find_word_spec m fuel : forall scan word end_word,
  words m -> word + Z.of_nat fuel = end_word ->
  exists found scan' word', find_word fuel m scan word end_word = Some (found, scan', word')
    /\ word <= word' <= end_word
    /\ (forall k, 0 <= k < word' - word -> m (scan + k) = 0)
    /\ if found then word' < end_word /\ scan' = scan + (word' - word) + 1 /\ m (scan' - 1) <> 0
       else word' = end_word /\ scan' = scan + (word' - word).
Proof.
  induction fuel as [|fuel IH]; intros scan word end_word W Hf; cbn [find_word].
  - rewrite (proj2 (Z.eqb_eq word end_word)) by lia. exists false, scan, word.
    repeat split; try lia. all: intros; lia.
  - rewrite Nat2Z.inj_succ in Hf. rewrite (proj2 (Z.eqb_neq word end_word)) by lia.
    destruct (Z.eqb_spec (m scan) 0) as [E | N]; cbn [negb].
    + destruct (IH (scan + 1) (word + 1) end_word W ltac:(lia)) as (found & s & w & -> & Hw & Hz & Hfd).
      exists found, s, w. split; [reflexivity |]. split; [lia |]. split.
      * intros k Hk. destruct (Z.eqb_spec k 0) as [-> | Nk]; [now rewrite Z.add_0_r |].
        specialize (Hz (k - 1) ltac:(lia)). now replace (scan + k) with (scan + 1 + (k - 1)) by lia.
      * destruct found; [repeat split; try lia; apply Hfd | lia].
    + exists true, (scan + 1), word. split; [reflexivity |]. split; [lia |]. split; [intros; lia |].
      split; [lia |]. split; [lia |]. now replace (scan + 1 - 1) with scan by lia.
Qed.

(** What a search from [start] to [end_] may answer: the first bit set, or
    false when there is none. *)
Definition first_set (m : memory) (a start end_ : Z) (r : sobj) : Prop :=
  (exists i, start <= i < end_ /\ r = Obj (Immediate (fixnum i)) /\ bs_bit m a i = true
     /\ forall j, start <= j < i -> bs_bit m a j = false)
  \/ (r = Boolean false /\ forall j, start <= j < end_ -> bs_bit m a j = false).

Section Searching.
Variables (m : memory) (a : Z).
Hypothesis W : words m.

Lemma word_bs k j : 0 <= j < 64 -> Z.testbit (m (a + 2 + k)) j = bs_bit m a (64 * k + j).
Proof using. intros Hj. symmetry. now apply bs_bit_at. Qed.

(** The index that is returned for a word with a bit set. *)
Lemma win_spec k b start end_ :
  0 <= k -> 64 * k + 64 <= 2 ^ 58 -> 0 <= b < 64 -> start <= 64 * k + b ->
  (forall j, start <= j < 64 * k + b -> bs_bit m a j = false) ->
  (exists j, b <= j < 64 /\ 64 * k + j < end_ /\ bs_bit m a (64 * k + j) = true) ->
  exists r, win (3 + k) (find_in_word (m (a + 2 + k)) b) = PRIMITIVE_RETURN r /\ first_set m a start end_ r.
Proof using W.
  intros Hk Hs Hb Hst Below (j & Hj & He & T). rewrite <- word_bs in T by lia.
  destruct (find_in_word_spec (m (a + 2 + k)) b (W _) Hb) as (i & -> & Hi & Ti & Bi);
    [exists j; split; [lia | exact T] |].
  unfold win. cbn [lift pbind]. eexists. split; [reflexivity |]. left. exists (64 * k + i).
  unfold BIT_STRING_INDEX_PAIR_TO_INDEX.
  replace ((3 + k - (2 + 1)) * 64 + i) with (64 * k + i) by lia.
  rewrite LONG_TO_UNSIGNED_FIXNUM_small by lia. rewrite word_bs in Ti by lia.
  assert (i <= j) by (destruct (Z.leb_spec i j); [lia | rewrite Bi in T by lia; discriminate]).
  repeat split; auto; try lia. intros x Hx.
  destruct (Z.ltb_spec x (64 * k + b)); [apply Below; lia |].
  replace x with (64 * k + (x - 64 * k)) by lia. rewrite <- word_bs by lia. apply Bi. lia.
Qed.

(** The masks of the search. *)
Lemma any_mask_word w b h :
  is_ulong w -> 0 <= b < h -> h <= 64 ->
  if ((h - b =? 64) && negb (w =? 0)) || negb ((w & ANY_MASK (h - b) b) =? 0)
  then exists j, b <= j < h /\ Z.testbit w j = true
  else forall j, b <= j < h -> Z.testbit w j = false.
Proof using.
  intros Hw Hb Hh. destruct (Z.eqb_spec (h - b) 64) as [E | N].
  - replace b with 0 by lia. replace h with 64 by lia. change (ANY_MASK (64 - 0) 0) with (-1).
    rewrite Z.land_m1_r. cbn [andb]. rewrite orb_diag.
    pose proof (masked_word w (-1) 0 64 Hw ltac:(lia) ltac:(lia)) as M. rewrite Z.land_m1_r in M.
    destruct (w =? 0); cbn [negb]; apply M; intros j Hj; rewrite Z.bits_m1 by lia;
      destruct (Z.leb_spec 0 j), (Z.ltb_spec j 64); (reflexivity || lia).
  - cbn [andb orb]. pose proof (masked_word w (ANY_MASK (h - b) b) b h Hw ltac:(lia) Hh) as M.
    destruct (_ =? 0); cbn [negb]; apply M; intros j Hj; rewrite ANY_MASK_testbit by lia;
      now replace (b + (h - b)) with h by lia.
Qed.

Lemma head_mask_word w b :
  is_ulong w -> 0 <= b < 64 ->
  if negb ((w & (if b =? 0 then ulong (-1) else ANY_MASK (64 - b) b)) =? 0)
  then exists j, b <= j < 64 /\ Z.testbit w j = true
  else forall j, b <= j < 64 -> Z.testbit w j = false.
Proof using.
  intros Hw Hb.
  set (mask := if b =? 0 then _ else _). pose proof (masked_word w mask b 64 Hw ltac:(lia) ltac:(lia)) as M.
  match type of M with context [if ?t then _ else _] => destruct t end; cbn [negb]; apply M; intros j Hj; subst mask;
    (destruct (Z.eqb_spec b 0) as [-> |];
     [rewrite (filler_bit true j) by lia | rewrite ANY_MASK_testbit by lia]);
    destruct (Z.leb_spec 0 j), (Z.ltb_spec j 64); try lia; try reflexivity.
  all: destruct (Z.ltb_spec j (b + (64 - b))); (lia || reflexivity).
Qed.

Lemma tail_mask_word w h :
  is_ulong w -> 0 < h <= 64 ->
  if negb ((w & (if h =? 64 then ulong (-1) else LOW_MASK h)) =? 0)
  then exists j, 0 <= j < h /\ Z.testbit w j = true
  else forall j, 0 <= j < h -> Z.testbit w j = false.
Proof using.
  intros Hw Hb.
  set (mask := if h =? 64 then _ else _). pose proof (masked_word w mask 0 h Hw ltac:(lia) ltac:(lia)) as M.
  match type of M with context [if ?t then _ else _] => destruct t end; cbn [negb]; apply M; intros j Hj; subst mask;
    (destruct (Z.eqb_spec h 64) as [-> |];
     [rewrite (filler_bit true j) by lia | rewrite LOW_MASK_testbit by lia]);
    destruct (Z.leb_spec 0 j); try lia; destruct (Z.ltb_spec j 64), (Z.ltb_spec j h); (lia || reflexivity).
Qed.
End Searching.

Section Finding.
Context {heap : Heap}.
Variables (m : memory) (a : Z).
Hypothesis W : words m.

(** The search once the first word has no bit: whole words, then the last. *)
Lemma find_rest q qe eb start end_ :
  0 <= q < qe -> 0 < eb <= 64 -> end_ = 64 * qe + eb -> start <= 64 * q + 64 -> end_ <= 2 ^ 57 ->
  (forall j, start <= j < 64 * q + 64 -> bs_bit m a j = false) ->
  exists r,
    (let! (found, scan, word) :=
       lift (find_word (Z.to_nat (3 + qe - (3 + q + 1))) m (a + (3 + q)) (3 + q + 1) (3 + qe)) in
     if found then win word (find_in_word (BIT_STRING_WORD m scan) 0)
     else if negb ((m scan & (if eb =? 64 then ulong (-1) else LOW_MASK eb)) =? 0)
     then win word (find_in_word (BIT_STRING_WORD m (scan + 1)) 0)
     else PRIMITIVE_RETURN (Boolean false)) = PRIMITIVE_RETURN r
    /\ first_set m a start end_ r.
Proof using W.
  intros Hq He -> Hs Hn Below.
  destruct (find_word_spec m (Z.to_nat (3 + qe - (3 + q + 1))) (a + (3 + q)) (3 + q + 1) (3 + qe) W ltac:(lia))
    as (found & scan & word & -> & Hw & Hz & Hf).
  cbn [lift pbind]. set (k := word - 3) in *.
  (* Nothing below word [k]. *)
  assert (None' : forall j, start <= j < 64 * k -> bs_bit m a j = false).
  { intros j Hj. destruct (Z.ltb_spec j (64 * q + 64)); [apply Below; lia |].
    destruct (div_mod_64 j) as [Ej Rj]. rewrite Ej, <- word_bs by lia.
    specialize (Hz (j / 64 - (q + 1)) ltac:(lia)).
    replace (a + 2 + j / 64) with (a + (3 + q) + (j / 64 - (q + 1))) by lia. now rewrite Hz, Z.bits_0. }
  replace word with (3 + k) in * by lia. unfold BIT_STRING_WORD. destruct found.
  - destruct Hf as (Hlt & -> & Nz). replace (_ + 1 - 1) with (a + 2 + k) in * by lia.
    apply (win_spec m a W); try lia.
    { intros j Hj. apply None'. lia. }
    destruct (Z.eq_dec (m (a + 2 + k)) 0) as [|_]; [easy |].
    pose proof (masked_word (m (a + 2 + k)) (-1) 0 64 (W _) ltac:(lia) ltac:(lia)) as M.
    rewrite Z.land_m1_r in M. destruct (Z.eqb_spec (m (a + 2 + k)) 0); [easy |].
    destruct M as (j & Hj & T).
    { intros j Hj. rewrite Z.bits_m1 by lia. destruct (Z.leb_spec 0 j), (Z.ltb_spec j 64); (reflexivity || lia). }
    exists j. rewrite <- word_bs by lia. split; [lia |]. split; [lia | exact T].
  - destruct Hf as (Ek & ->). assert (k = qe) by lia.
    replace (a + (3 + q) + (3 + k - (3 + q + 1))) with (a + 2 + k) in * by lia.
    pose proof (tail_mask_word (m (a + 2 + k)) eb (W _) He) as M.
    replace (a + 2 + k + 1 - 1) with (a + 2 + k) by lia. destruct (negb _).
    + destruct M as (j & Hj & T). apply (win_spec m a W); try lia.
      { intros i Hi. apply None'. lia. }
      exists j. rewrite <- word_bs by lia. split; [lia |]. split; [lia | exact T].
    + eexists. split; [reflexivity |]. right. split; [reflexivity |]. intros j Hj.
      destruct (Z.ltb_spec j (64 * k)); [apply None'; lia |].
      replace j with (64 * k + (j - 64 * k)) by lia. rewrite <- word_bs by lia. apply M. lia.
Qed.

Lemma find_next_spec n x1 x2 start end_ :
  bit_string_at m a n -> is_index x1 start -> is_index x2 end_ ->
  0 <= start < end_ -> end_ <= n -> n <= 2 ^ 57 ->
  exists r, Prim_bitstr_find_next_set_bit m (Bit_string a) x1 x2 = PRIMITIVE_RETURN r
    /\ first_set m a start end_ r.
Proof using W.
  intros H I1 I2 Hs He Hn. unfold Prim_bitstr_find_next_set_bit. cbn [arg_bit_string pbind].
  rewrite (arg_nonnegative_small 2 x1 start I1), (arg_nonnegative_small 3 x2 end_ I2) by lia.
  cbn [pbind]. rewrite (bs_LENGTH m a n H).
  destruct (Z.ltb_spec n end_); [lia |]. destruct (Z.ltb_spec end_ start); [lia |].
  destruct (Z.eqb_spec start end_); [lia |]. rewrite slong_small by lia. unfold BIT_STRING_INDEX_TO_WORD, BIT_STRING_WORD.
  destruct (quot_rem_64 start) as [-> ->]; [lia |]. destruct (quot_rem_64 (end_ - 1)) as [-> ->]; [lia |].
  destruct (div_mod_64 start) as [Es Rs], (div_mod_64 (end_ - 1)) as [Ee Re].
  set (q := start / 64) in *. set (b := start mod 64) in *.
  set (qe := (end_ - 1) / 64) in *. set (eb := (end_ - 1) mod 64 + 1) in *.
  change (2 + 1) with 3. replace (a + (3 + q) - 1) with (a + 2 + q) by lia.
  destruct (Z.eqb_spec (3 + q) (3 + qe)) as [Eq | Nq].
  - pose proof (any_mask_word (m (a + 2 + q)) b eb (W _) ltac:(lia) ltac:(lia)) as M.
    destruct (_ || _)%bool.
    + destruct M as (j & Hj & T). apply (win_spec m a W); try lia.
      exists j. rewrite <- word_bs by lia. split; [lia |]. split; [lia | exact T].
    + eexists. split; [reflexivity |]. right. split; [reflexivity |]. intros j Hj.
      replace j with (64 * q + (j - 64 * q)) by lia. rewrite <- word_bs by lia. apply M. lia.
  - pose proof (head_mask_word (m (a + 2 + q)) b (W _) ltac:(lia)) as M.
    destruct (negb _).
    + destruct M as (j & Hj & T). apply (win_spec m a W); try lia.
      exists j. rewrite <- word_bs by lia. split; [lia |]. split; [lia | exact T].
    + apply (find_rest q qe eb start end_); try lia.
      intros j Hj. replace j with (64 * q + (j - 64 * q)) by lia. rewrite <- word_bs by lia. apply M. lia.
Qed.
End Finding.

(** ** Properties *)

Section Properties.
Context {heap : Heap}.
Notation repr_integer := (int_repr (laws := bignum_laws)).

(** C33: [BIT-SUBSTRING-MOVE-RIGHT!] at every alignment, for indices that are
    so small that the end in the target is less than 2^63.  It checks its
    ranges, those of the source first, and otherwise copies exactly the bits
    [start1 .. end1) of the source to [start2] on, changes no other bit of
    memory, and leaves both objects well formed.  The objects are apart or the
    same; in the same one the parts may overlap if the bits do not move
    down. *)
Theorem bit_substring_move_right m a1 n1 a2 n2 x1 x2 x3 start1 end1 start2 :
  bit_string_at m a1 n1 -> bit_string_at m a2 n2 -> apart a1 n1 a2 n2 ->
  is_index x1 start1 -> is_index x2 end1 -> is_index x3 start2 ->
  0 <= start1 < 2 ^ 63 -> 0 <= end1 < 2 ^ 63 -> 0 <= start2 -> start2 + Z.max 0 (end1 - start1) < 2 ^ 63 ->
  let end2 := start2 + (end1 - start1) in
  let r := Prim_bit_substring_move_right_x m (Bit_string a1) x1 x2 (Bit_string a2) x3 in
  (end1 < start1 -> r = PRIMITIVE_ERROR (error_bad_range_arg 2))
  /\ (start1 <= end1 -> n1 < end1 -> r = PRIMITIVE_ERROR (error_bad_range_arg 3))
  /\ (start1 <= end1 <= n1 -> n2 < end2 -> r = PRIMITIVE_ERROR (error_bad_range_arg 5))
  /\ (start1 <= end1 <= n1 -> end2 <= n2 -> (a1 = a2 -> start1 <= start2 \/ end2 <= start1) ->
      exists m', r = PRIMITIVE_RETURN (UNSPECIFIC, m')
        /\ bit_string_at m' a1 n1 /\ bit_string_at m' a2 n2
        /\ (forall i, start2 <= i < end2 -> bs_bit m' a2 i = bs_bit m a1 (i - start2 + start1))
        /\ (forall p, ~ (64 * (a2 + 2) + start2 <= p < 64 * (a2 + 2) + end2) ->
              mem_bit m' p = mem_bit m p)).
Proof.
  intros H1 H2 Ap I1 I2 I3 Hs He Hs2 Hb end2.
  pose proof (bs_length _ _ _ H1). pose proof (bs_length _ _ _ H2).
  assert (Fail' : ~ (start1 <= end1 <= n1 /\ end2 <= n2) ->
    Prim_bit_substring_move_right_x m (Bit_string a1) x1 x2 (Bit_string a2) x3
    = PRIMITIVE_ERROR (error_bad_range_arg (if end1 <? start1 then 2 else if n1 <? end1 then 3 else 5))).
  { intros N. unfold Prim_bit_substring_move_right_x. cbn [arg_bit_string pbind].
    rewrite (arg_nonnegative_small 2 x1 start1 I1), (arg_nonnegative_small 3 x2 end1 I2) by lia.
    cbn [pbind]. rewrite (arg_nonnegative_small 5 x3 start2 I3) by lia. cbn [pbind].
    rewrite (bs_LENGTH m a1 n1 H1), (bs_LENGTH m a2 n2 H2). unwrap. fold end2.
    destruct (Z.ltb_spec start1 0), (Z.ltb_spec end1 start1), (Z.ltb_spec n1 end1),
      (Z.ltb_spec start2 0), (Z.ltb_spec n2 end2); cbn [orb]; (reflexivity || lia). }
  split; [| split; [| split]].
  - intros. cbv zeta. rewrite Fail' by lia. destruct (Z.ltb_spec end1 start1); [reflexivity | lia].
  - intros. cbv zeta. rewrite Fail' by lia.
    destruct (Z.ltb_spec end1 start1), (Z.ltb_spec n1 end1); (reflexivity || lia).
  - intros. cbv zeta. rewrite Fail' by lia.
    destruct (Z.ltb_spec end1 start1), (Z.ltb_spec n1 end1); (reflexivity || lia).
  - intros Hr Hr2 Sh.
    pose proof (n_words_bounds n1). pose proof (n_words_bounds n2).
    assert (Ov : no_clobber (64 * (a1 + 2) + end1) (64 * (a2 + 2) + end2) (end1 - start1)).
    { destruct Ap as [-> | Ap]; [specialize (Sh eq_refl)|]; red; lia. }
    destruct (move_right_spec m a1 n1 a2 n2 x1 x2 x3 start1 end1 start2) as (m' & E & C); auto; try lia.
    exists m'. split; [exact E |]. fold end2 in C.
    split; [refine (bits_copied_frame m m' _ a2 n2 start2 _ a1 n1 C _ _ _ Ap H1); lia |].
    split; [refine (bits_copied_frame m m' _ a2 n2 start2 _ a2 n2 C _ _ _ _ H2); (now left) || lia |].
    destruct C as [_ C]. unfold bs_bit. split; [intros i Hi | intros p Hp]; rewrite C.
    + destruct (Z.leb_spec (64 * (a2 + 2) + end2 - (end1 - start1)) (64 * (a2 + 2) + i)),
        (Z.ltb_spec (64 * (a2 + 2) + i) (64 * (a2 + 2) + end2)); try lia. cbn [andb]. f_equal. lia.
    + destruct (Z.leb_spec (64 * (a2 + 2) + end2 - (end1 - start1)) p),
        (Z.ltb_spec p (64 * (a2 + 2) + end2)); cbn [andb]; (reflexivity || lia).
Qed.

(** the primitives on one bit.  An index in range reads, sets or clears
    exactly that bit of memory and returns what the bit was; an index out of
    range is a bad-range error on argument 2 and an object that is no bit
    string a wrong-type error on argument 1. *)
Theorem bit_string_one_bit m x i :
  is_index x i ->
  (forall a n, bit_string_at m a n ->
     if (0 <=? i) && (i <? n) then
       Prim_bit_string_ref m (Bit_string a) x = PRIMITIVE_RETURN (Boolean (bs_bit m a i))
       /\ (exists m', Prim_bit_string_set_x m (Bit_string a) x = PRIMITIVE_RETURN (Boolean (bs_bit m a i), m')
             /\ bit_updated m m' (bit_address_of a i) true /\ bit_string_at m' a n)
       /\ (exists m', Prim_bit_string_clear_x m (Bit_string a) x = PRIMITIVE_RETURN (Boolean (bs_bit m a i), m')
             /\ bit_updated m m' (bit_address_of a i) false /\ bit_string_at m' a n)
       /\ (forall v, bit_updated m (bit_string_set m a i v) (bit_address_of a i) v)
     else
       Prim_bit_string_ref m (Bit_string a) x = PRIMITIVE_ERROR (error_bad_range_arg 2)
       /\ Prim_bit_string_set_x m (Bit_string a) x = PRIMITIVE_ERROR (error_bad_range_arg 2)
       /\ Prim_bit_string_clear_x m (Bit_string a) x = PRIMITIVE_ERROR (error_bad_range_arg 2))
  /\ (forall o, Prim_bit_string_ref m (Obj o) x = PRIMITIVE_ERROR (error_wrong_type_arg 1)
       /\ Prim_bit_string_set_x m (Obj o) x = PRIMITIVE_ERROR (error_wrong_type_arg 1)
       /\ Prim_bit_string_clear_x m (Obj o) x = PRIMITIVE_ERROR (error_wrong_type_arg 1)).
Proof.
  intros Hi. split; [| intros o; repeat split].
  intros a n H. pose proof (REF_INITIALIZATION_spec m a n x i H Hi) as R.
  unfold Prim_bit_string_ref, Prim_bit_string_set_x, Prim_bit_string_clear_x.
  destruct ((0 <=? i) && (i <? n))%bool eqn:In; [| rewrite R; repeat split].
  apply andb_true_iff in In as [I0 In]. reflect_bools. destruct (div_mod_64 i) as [_ Rk].
  assert (W : words m) by apply H.
  assert (T : negb ((BIT_STRING_WORD m (a + 3 + i / 64) & (1 << (i mod 64))%SL) =? 0) = bs_bit m a i).
  { rewrite mask_test by (auto with words; lia). rewrite bs_bit_word. unfold BIT_STRING_WORD.
    now replace (a + 3 + i / 64 - 1) with (a + 2 + i / 64) by lia. }
  assert (Up : forall v, exists m', m' = set_BIT_STRING_WORD m (a + 3 + i / 64)
       (if v : bool then BIT_STRING_WORD m (a + 3 + i / 64) .| ulong (1 << (i mod 64))%SL
        else BIT_STRING_WORD m (a + 3 + i / 64) &~ (1 << (i mod 64))%SL)
     /\ bit_updated m m' (bit_address_of a i) v) by (intros v; eexists; split; [reflexivity | now apply set_word_bit]).
  assert (Fr : forall m' v, bit_updated m m' (bit_address_of a i) v -> bit_string_at m' a n).
  { intros m' v [W' E]. apply (bit_string_at_frame m); auto. intros p Hp. rewrite E. unfold bit_address_of.
    destruct (Z.eqb_spec p (64 * (a + 2) + i)); [lia | reflexivity]. }
  assert (Same : bit_updated m m (bit_address_of a i) (bs_bit m a i)) by now apply bit_updated_same.
  rewrite R. cbn [pbind]. rewrite T. split; [reflexivity |]. split; [| split].
  - destruct (Up true) as (m' & E & U). destruct (bs_bit m a i).
    + exists m. split; [reflexivity |]. split; [exact Same | exact H].
    + exists m'. rewrite E in *. split; [reflexivity |]. split; [exact U | now apply (Fr _ true)].
  - destruct (Up false) as (m' & E & U). apply (f_equal negb) in T. rewrite negb_involutive in T. rewrite T.
    destruct (bs_bit m a i); cbn [negb].
    + exists m'. rewrite E in *. split; [reflexivity |]. split; [exact U | now apply (Fr _ false)].
    + exists m. split; [reflexivity |]. split; [exact Same | exact H].
  - intros v. unfold bit_string_set, BIT_STRING_INDEX_TO_WORD. destruct (quot_rem_64 i) as [-> ->]; [lia |].
    replace (a + (2 + 1 + i / 64)) with (a + 3 + i / 64) by lia.
    destruct (Up v) as (m' & E & U). rewrite E in U. destruct v; [exact U |]. cbn [negb].
    assert (Eq : BIT_STRING_WORD m (a + 3 + i / 64) &~ ulong (1 << (i mod 64))%SL
      = BIT_STRING_WORD m (a + 3 + i / 64) &~ (1 << (i mod 64))%SL).
    { apply words_equal; auto with words. intros j Hj. rewrite !Z.ldiff_spec, ulong_testbit by lia.
      destruct (Z.ltb_spec j 64); [reflexivity | lia]. }
    now rewrite Eq.
Qed.

(** whole bit strings.  [MAKE-BIT-STRING] allocates, when there is room,
    a fresh bit string of the size asked for with every bit as asked, and asks
    for a garbage collection otherwise; [BIT-STRING-FILL!] sets every bit; the
    six bitwise operations combine two bit strings of the same size bit by bit
    into the first, also when both are one object, and refuse two sizes. *)
Theorem bit_string_whole :
  (forall s x arg2 n, repr_integer x n -> within n -> words (mem s) -> 0 <= n <= 2 ^ 63 - 64 ->
     let r := Prim_make_bit_string (Obj x) arg2 s in
     if GC_NEEDED_P s (2 + n_words n)
     then r = PRIMITIVE_ERROR (Primitive_GC (2 + n_words n))
     else exists s', r = PRIMITIVE_RETURN (Bit_string (Free s), s')
       /\ bit_string_at (mem s') (Free s) n /\ Free s' = Free s + (2 + n_words n)
       /\ (forall i, 0 <= i < n -> bs_bit (mem s') (Free s) i = OBJECT_TO_BOOLEAN arg2)
       /\ (forall b, b < Free s \/ Free s' <= b -> mem s' b = mem s b))
  /\ (forall m a n arg2, bit_string_at m a n ->
     exists m', Prim_bit_string_fill_x m (Bit_string a) arg2 = PRIMITIVE_RETURN (UNSPECIFIC, m')
       /\ bit_string_at m' a n /\ (forall i, 0 <= i < n -> bs_bit m' a i = OBJECT_TO_BOOLEAN arg2)
       /\ (forall b, data_word a n b = false -> m' b = m b))
  /\ (forall op m a1 n1 a2 n2, bit_string_at m a1 n1 -> bit_string_at m a2 n2 -> apart a1 n1 a2 n2 ->
     if n1 =? n2 then
       exists m', BITWISE_OP op m a1 a2 = PRIMITIVE_RETURN (UNSPECIFIC, m')
         /\ bit_string_at m' a1 n1
         /\ (forall i, 0 <= i < n1 -> bs_bit m' a1 i = action_bool op (bs_bit m a1 i) (bs_bit m a2 i))
         /\ (forall b, data_word a1 n1 b = false -> m' b = m b)
     else BITWISE_OP op m a1 a2 = PRIMITIVE_ERROR (error_bad_range_arg 1)).
Proof.
  split; [| split].
  - intros s x arg2 n Rx Wn Ws Hn. cbv zeta. unfold Prim_make_bit_string, arg_ulong, on_object.
    rewrite (arg_ulong_integer_repr 1 x n Rx Wn).
    destruct (Z.leb_spec 0 n), (Z.ltb_spec n 18446744073709551616); try lia. cbn [andb pbind].
    replace (2 + n_words n) with (1 + (1 + n_words n)) by lia.
    destruct (GC_NEEDED_P s (1 + (1 + n_words n))) eqn:G.
    { rewrite allocate_bit_string_gc by (auto; lia). reflexivity. }
    destruct (allocate_bit_string_spec s n) as (s1 & -> & H1 & F1 & Fr); [split; [|split]; auto; lia |].
    cbn [pbind]. eexists. split; [reflexivity |]. cbn [set_mem mem Free].
    destruct (fill_bit_string_spec (mem s1) (Free s) n (OBJECT_TO_BOOLEAN arg2) H1) as (H2 & Bits & Fr2).
    split; [exact H2 |]. split; [lia |]. split; [exact Bits |]. intros b Hb.
    pose proof (n_words_bounds n). rewrite F1 in Hb.
    rewrite Fr2; [apply Fr; lia |]. unfold data_word.
    destruct (Z.leb_spec (Free s + 2) b), (Z.ltb_spec b (Free s + 2 + n_words n)); (reflexivity || lia).
  - intros m a n arg2 H. eexists. split; [reflexivity |]. now apply fill_bit_string_spec.
  - intros op m a1 n1 a2 n2 H1 H2 Ap. destruct (Z.eqb_spec n1 n2) as [<- | N].
    + now apply BITWISE_OP_spec.
    + unfold BITWISE_OP. rewrite (bs_LENGTH m a1 n1 H1), (bs_LENGTH m a2 n2 H2).
      now rewrite (proj2 (Z.eqb_neq n1 n2) N).
Qed.

(** the queries.  [BIT-STRING-ZERO?] and [BIT-STRING=?] look at exactly
    the bits of their arguments, whatever the unused bits of the last word
    hold, and [BIT-SUBSTRING-FIND-NEXT-SET-BIT] terminates with the index of
    the first bit set in its range, or false when there is none. *)
Theorem bit_string_queries m a n :
  bit_string_at m a n ->
  (exists b, Prim_bit_string_zero_p m (Bit_string a) = PRIMITIVE_RETURN (Boolean b)
     /\ (b = true <-> forall i, 0 <= i < n -> bs_bit m a i = false))
  /\ (forall a2 n2, bit_string_at m a2 n2 ->
     exists b, Prim_bit_string_equal_p m (Bit_string a) (Bit_string a2) = PRIMITIVE_RETURN (Boolean b)
       /\ (b = true <-> n = n2 /\ forall i, 0 <= i < n -> bs_bit m a i = bs_bit m a2 i))
  /\ (forall x1 x2 start end_, is_index x1 start -> is_index x2 end_ ->
     0 <= start < 2 ^ 63 -> 0 <= end_ < 2 ^ 63 ->
     let r := Prim_bitstr_find_next_set_bit m (Bit_string a) x1 x2 in
     (n < end_ -> r = PRIMITIVE_ERROR (error_bad_range_arg 3))
     /\ (end_ <= n -> end_ < start -> r = PRIMITIVE_ERROR (error_bad_range_arg 2))
     /\ (start <= end_ <= n -> n <= 2 ^ 57 ->
         exists v, r = PRIMITIVE_RETURN v /\ first_set m a start end_ v)).
Proof.
  intros H. split; [now apply zero_p_spec |]. split; [intros; now apply equal_p_spec |].
  intros x1 x2 start end_ I1 I2 Hs He r.
  assert (E : r = if n <? end_ then PRIMITIVE_ERROR (error_bad_range_arg 3)
    else if end_ <? start then PRIMITIVE_ERROR (error_bad_range_arg 2)
    else if start =? end_ then PRIMITIVE_RETURN (Boolean false) else r).
  { subst r. unfold Prim_bitstr_find_next_set_bit. cbn [arg_bit_string pbind].
    rewrite (arg_nonnegative_small 2 x1 start I1), (arg_nonnegative_small 3 x2 end_ I2) by lia.
    cbn [pbind]. rewrite (bs_LENGTH m a n H).
    now destruct (n <? end_), (end_ <? start), (start =? end_). }
  split; [| split].
  - intros Hn. rewrite E. destruct (Z.ltb_spec n end_); [reflexivity | lia].
  - intros Hn Hlt. rewrite E. destruct (Z.ltb_spec n end_), (Z.ltb_spec end_ start); (reflexivity || lia).
  - intros Hr Hn. destruct (Z.eqb_spec start end_) as [<- | N].
    + exists (Boolean false). rewrite E.
      destruct (Z.ltb_spec n start), (Z.ltb_spec start start); try lia.
      split; [reflexivity |]. right. split; [reflexivity |]. intros; lia.
    + apply (find_next_spec m a ltac:(apply H) n); (assumption || lia).
Qed.

(** [READ-BITS!] and [WRITE-BITS!] exchange the bits of a bit string with
    the same number of bits of memory, [offset] bits above a pointer, except
    that the run lies a whole word below the place asked for when
    [offset + length] is one more than a multiple of the word size. *)
Theorem read_write_bits m a n x p offset :
  bit_string_at m a n -> is_index x offset -> 0 < n -> 0 <= offset -> offset + n <= 2 ^ 63 - 64 ->
  let place := 64 * p + offset + n - (if (offset + n) mod 64 =? 1 then 64 else 0) in
  (no_clobber place (64 * (a + 2) + n) n ->
     exists m', Prim_read_bits_x m p x (Bit_string a) = PRIMITIVE_RETURN (UNSPECIFIC, m')
       /\ bits_copied m m' place (64 * (a + 2) + n) n)
  /\ (no_clobber (64 * (a + 2) + n) place n ->
     exists m', Prim_write_bits_x m p x (Bit_string a) = PRIMITIVE_RETURN (UNSPECIFIC, m')
       /\ bits_copied m m' (64 * (a + 2) + n) place n).
Proof.
  intros H Hx Hn Ho Hb place. assert (W : words m) by apply H.
  assert (I : READ_BITS_INITIALIZE m p x (Bit_string a)
    = PRIMITIVE_RETURN (a, n, Z.rem n 64, READ_BITS_PTR p offset n, COMPUTE_READ_BITS_OFFSET offset n)).
  { unfold READ_BITS_INITIALIZE. cbn [arg_bit_string pbind].
    rewrite (bs_LENGTH m a n H), (arg_nonnegative_small 2 x offset Hx) by lia. reflexivity. }
  pose proof (read_bits_pointer p offset n Ho Hn ltac:(lia)) as P. fold (read_bits_slip offset n) in place.
  pose proof (COMPUTE_READ_BITS_OFFSET_range offset n Ho Hn ltac:(lia)) as Rg.
  pose proof (end_offset_range n ltac:(lia)) as Rn.
  unfold Prim_read_bits_x, Prim_write_bits_x. rewrite I. cbn [pbind]. rewrite slong_small by lia.
  subst place. rewrite <- P, <- (end_pointer a n) by exact Hn.
  split; intros Ov.
  - destruct (copy_bits_copied m (READ_BITS_PTR p offset n) (COMPUTE_READ_BITS_OFFSET offset n)
      (a + BIT_STRING_INDEX_TO_WORD (n - 1)) (end_offset (Z.rem n 64)) n W Rg Rn ltac:(lia) Ov) as (m' & -> & C).
    exists m'. split; [reflexivity | exact C].
  - destruct (copy_bits_copied m (a + BIT_STRING_INDEX_TO_WORD (n - 1)) (end_offset (Z.rem n 64))
      (READ_BITS_PTR p offset n) (COMPUTE_READ_BITS_OFFSET offset n) n W Rn Rg ltac:(lia) Ov) as (m' & -> & C).
    exists m'. split; [reflexivity | exact C].
Qed.
End Properties.

(** ** Concrete inputs *)

(** A memory with a bit string of 10 bits, the low ones of [w], at address 0
    and another of 5 bits at address 8. *)
Definition sample (w : Z) : memory := fun b =>
  if b =? 0 then MAKE_OBJECT TC_MANIFEST_NM_VECTOR 2 else if b =? 1 then 10 else if b =? 2 then w
  else if b =? 8 then MAKE_OBJECT TC_MANIFEST_NM_VECTOR 2 else if b =? 9 then 5
  else if b =? 10 then 21 else 0.

Lemma sample_words w : is_ulong w -> words (sample w).
Proof.
  intros Hw b. unfold sample. repeat destruct (_ =? _); try exact Hw; split; (reflexivity || discriminate).
Qed.

Lemma sample_0 w : is_ulong w -> bit_string_at (sample w) 0 10.
Proof. intros Hw. split; [now apply sample_words | lia | reflexivity | reflexivity]. Qed.

Lemma sample_8 w : is_ulong w -> bit_string_at (sample w) 8 5.
Proof. intros Hw. split; [now apply sample_words | lia | reflexivity | reflexivity]. Qed.

Lemma index_fixnum {heap : Heap} i : fixnum_range i -> is_index (Obj (Immediate (fixnum i))) i.
Proof.
  intros R. exists (Immediate (fixnum i)). split; [reflexivity |].
  split; [now apply int_repr_fixnum |]. split; [now apply within_fixnum |]. red in R. lia.
Qed.

Ltac concrete_index := apply index_fixnum; unfold fixnum_range; lia.
Ltac concrete_word := unfold is_ulong; lia.

Lemma bit_substring_move_right_witness :
  let heap : Heap := fun _ => 77 in
  exists m', Prim_bit_substring_move_right_x (sample 5) (Bit_string 0) (Obj (Immediate (fixnum 0)))
      (Obj (Immediate (fixnum 4))) (Bit_string 0) (Obj (Immediate (fixnum 2))) = PRIMITIVE_RETURN (UNSPECIFIC, m')
    /\ bs_bit m' 0 4 = true.
Proof.
  intros heap. destruct (bit_substring_move_right (heap := heap) (sample 5) 0 10 0 10
    (Obj (Immediate (fixnum 0))) (Obj (Immediate (fixnum 4))) (Obj (Immediate (fixnum 2))) 0 4 2)
    as (_ & _ & _ & S);
    [apply sample_0; concrete_word | apply sample_0; concrete_word | now left
    | concrete_index | concrete_index | concrete_index | lia | lia | lia | lia |].
  destruct S as (m' & E & _ & _ & B & _); [lia | lia | lia |].
  exists m'. split; [exact E |]. rewrite B by lia. reflexivity.
Defined.

Lemma bit_string_one_bit_witness :
  let heap : Heap := fun _ => 77 in
  Prim_bit_string_ref (sample 5) (Bit_string 0) (Obj (Immediate (fixnum 2))) = PRIMITIVE_RETURN (Boolean true).
Proof.
  intros heap.
  destruct (bit_string_one_bit (heap := heap) (sample 5) (Obj (Immediate (fixnum 2))) 2) as [S _]; [concrete_index |].
  exact (proj1 (S 0 10 (sample_0 5 ltac:(concrete_word)))).
Defined.

Lemma bit_string_whole_witness :
  let heap : Heap := fun _ => 77 in
  exists m', BITWISE_OP XOR (sample 5) 0 0 = PRIMITIVE_RETURN (UNSPECIFIC, m') /\ bs_bit m' 0 2 = false.
Proof.
  intros heap. destruct (bit_string_whole (heap := heap)) as (_ & _ & S).
  destruct (S XOR (sample 5) 0 10 0 10) as (m' & E & _ & B & _);
    [apply sample_0; concrete_word | apply sample_0; concrete_word | now left |].
  exists m'. split; [exact E |]. rewrite B by lia. reflexivity.
Defined.

Lemma bit_string_queries_witness :
  let heap : Heap := fun _ => 77 in
  exists v, Prim_bitstr_find_next_set_bit (sample 20) (Bit_string 0) (Obj (Immediate (fixnum 0)))
      (Obj (Immediate (fixnum 10))) = PRIMITIVE_RETURN v /\ first_set (sample 20) 0 0 10 v.
Proof.
  intros heap.
  destruct (bit_string_queries (heap := heap) (sample 20) 0 10) as (_ & _ & S);
    [apply sample_0; concrete_word |].
  destruct (S (Obj (Immediate (fixnum 0))) (Obj (Immediate (fixnum 10))) 0 10) as (_ & _ & F);
    [concrete_index | concrete_index | lia | lia |].
  apply F; lia.
Defined.

Lemma read_write_bits_witness :
  let heap : Heap := fun _ => 77 in
  exists m', Prim_write_bits_x (sample 5) 10 (Obj (Immediate (fixnum 0))) (Bit_string 0)
      = PRIMITIVE_RETURN (UNSPECIFIC, m')
    /\ bits_copied (sample 5) m' 138 650 10.
Proof.
  intros heap.
  destruct (read_write_bits (heap := heap) (sample 5) 0 10 (Obj (Immediate (fixnum 0))) 10 0) as [_ S];
    [apply sample_0; concrete_word | concrete_index | lia | lia | lia |].
  apply S. left. vm_compute. discriminate.
Defined.

(** ** Where the primitives go wrong *)

(** [BIT-SUBSTRING-MOVE-RIGHT!] with a start index of 2^63 - 1: the end index
    wraps to a negative [long], passes the check, and the bits go to an
    address far below the bit string, here one of 128 bits. *)
Definition long_sample : memory := fun b =>
  if b =? 0 then MAKE_OBJECT TC_MANIFEST_NM_VECTOR 3 else if b =? 1 then 128 else if b =? 2 then 3 else 0.

Theorem move_right_index_wraps :
  let heap : Heap := fun _ => 77 in
  exists m', Prim_bit_substring_move_right_x long_sample (Bit_string 0) (Obj (Immediate (fixnum 0)))
      (Obj (Immediate (fixnum 65))) (Bit_string 0) (Obj (Big (block false [BIGNUM_RADIX - 1; 1])))
    = PRIMITIVE_RETURN (UNSPECIFIC, m')
  /\ long_sample (-144115188075855869) = 0 /\ m' (-144115188075855869) = 1.
Proof. intros heap. eexists. split; [vm_compute; reflexivity |]. split; vm_compute; reflexivity. Qed.

(** [MAKE-BIT-STRING] of 2^64 - 1 bits: the number of words wraps to zero and
    the result has a negative length. *)
Theorem make_bit_string_wraps :
  let heap : Heap := fun _ => 77 in
  exists s', allocate_bit_string 18446744073709551615 (mk_machine (fun _ => 0) 16 0 1000 true)
      = PRIMITIVE_RETURN (16, s')
    /\ VECTOR_LENGTH (mem s') 16 = 1 /\ BIT_STRING_LENGTH (mem s') 16 = -1.
Proof. intros heap. eexists. split; [reflexivity |]. split; vm_compute; reflexivity. Qed.
