(* ===== verification/BitStringConv.v ===== *)
(** * Bit strings and integers (src/src/microcode/bitstr.c)

    [UNSIGNED-INTEGER->BIT-STRING] and [BIT-STRING->UNSIGNED-INTEGER].  The
    bignum paths read and write the data words one byte at a time, on a
    machine that stores the least significant byte of a word first; a byte
    address is eight times a word address plus the byte's number. *)

From Stdlib Require Import ZArith List Lia Bool.
From S2P Require Import Prelude Bits Bignum BignumConv BignumSpec Object Fixnum Integer IntPrim.
From S2P Require Import Memory BitCopy BitString BitStringSpec.
Import ListNotations.

(** ** Bytes of memory *)

Definition byte_ref (m : memory) (q : Z) : Z := (m (q / 8) >>> (8 * (q mod 8))) & 255.

Definition byte_set (m : memory) (q v : Z) : memory :=
  store m (q / 8) ((m (q / 8) &~ Z.shiftl 255 (8 * (q mod 8))) .| Z.shiftl v (8 * (q mod 8))).

(** ** Integer to bit string *)

(** [None] after [fuel] rounds; [nbits] is an [unsigned int]. *)
Fixpoint significant_bits_loop (fuel : nat) (number limit nbits : Z) : option Z :=
  match fuel with
  | O => None
  | S fuel =>
      if number <=? limit then Some nbits
      else significant_bits_loop fuel number (limit * 2 + 1)%UL (uint (nbits + 1))
  end.

Definition ulong_significant_bits (number : Z) : option Z := significant_bits_loop 64 number 1 1.

Section Operations.
Context {heap : Heap}.

Definition zero_to_bit_string (length : Z) (s : machine) : prim (Z * machine) :=
  let! (result, s) := allocate_bit_string length s in
  PRIMITIVE_RETURN (result, set_mem s (clear_bit_string (mem s) result)).

Definition ulong_to_bit_string (length number : Z) (s : machine) : prim (Z * machine) :=
  if number =? 0 then zero_to_bit_string length s
  else
    let! bits := lift (ulong_significant_bits number) in
    if length <? bits then PRIMITIVE_ERROR (error_bad_range_arg 2)
    else
      let! (result, s) := zero_to_bit_string length s in
      PRIMITIVE_RETURN (result, set_mem s (set_BIT_STRING_WORD (mem s) (BIT_STRING_LSW_PTR result) number)).

(** The context is memory and the byte pointer. *)
Definition btbs_consumer (result_ptr : memory * Z) (digit : Z) : memory * Z :=
  let '(m, ptr) := result_ptr in (byte_set m ptr (digit mod 256), ptr + 1).

(** [fuel]: see [bignum_to_digit_stream]. *)
Definition bignum_to_bit_string (fuel : nat) (length : Z) (b : bignum) (s : machine) : prim (Z * machine) :=
  match bignum_test b with
  | bignum_comparison_equal => zero_to_bit_string length s
  | bignum_comparison_less => PRIMITIVE_ERROR (error_bad_range_arg 2)
  | bignum_comparison_greater =>
      let! fits := lift (bignum_fits_in_word_p b (slong length) false) in
      if negb fits then PRIMITIVE_ERROR (error_bad_range_arg 2)
      else
        let! (result, s) := zero_to_bit_string length s in
        let! (m, _) := lift (bignum_to_digit_stream fuel b 256 btbs_consumer
                               (mem s, 8 * BIT_STRING_LOW_PTR result)) in
        PRIMITIVE_RETURN (result, set_mem s m)
  end.

Definition Prim_unsigned_to_bit_string (fuel : nat) (arg1 arg2 : sobj) (s : machine)
  : prim (sobj * machine) :=
  let! length := arg_ulong 1 arg1 in
  match arg2 with
  | Bit_string _ => PRIMITIVE_ERROR (error_wrong_type_arg 2)
  | Obj object =>
      match as_fixnum object with
      | Some object =>
          if negb (FIXNUM_TO_ULONG_P object) then PRIMITIVE_ERROR (error_bad_range_arg 2)
          else
            let! (result, s) := ulong_to_bit_string length (FIXNUM_TO_ULONG object) s in
            PRIMITIVE_RETURN (Bit_string result, s)
      | None =>
          match object with
          | Big b =>
              let! (result, s) := bignum_to_bit_string fuel length b s in
              PRIMITIVE_RETURN (Bit_string result, s)
          | Immediate _ => PRIMITIVE_ERROR (error_wrong_type_arg 2)
          end
      end
  end.

(** ** Bit string to integer *)

Record bitstr_to_bignm_context := mk_context { source_ptr : Z; mask : Z }.

Definition bstb_producer (m : memory) (c : bitstr_to_bignm_context) : Z * bitstr_to_bignm_context :=
  (mask c & byte_ref m (source_ptr c - 1), mk_context (source_ptr c - 1) (uint (LOW_MASK 8))).

Definition bit_string_to_bignum (m : memory) (nbits bitstr : Z) : option bignum :=
  let ndigits := (nbits + 7)%UL / 8 in
  let mask := uint (LOW_MASK ((nbits - 1)%UL mod 8 + 1)) in
  let ptr := 8 * (bitstr + ((BIT_STRING_FIRST_WORD + 1) + (nbits - 1)%UL / OBJECT_LENGTH)) in
  let ptr := if negb (ndigits =? 0) then ptr - (8 - ((ndigits - 1) mod 8 + 1)) else ptr in
  let* (b, _) := digit_stream_to_bignum (uint ndigits) (bstb_producer m) (mk_context ptr mask) 256 false in
  Some b.

(** The loop that skips zero words from the top, and its last word. *)
Fixpoint significant_words (nwords : nat) (m : memory) (scan word : Z) : nat * Z :=
  match nwords with
  | O => (O, word)
  | S n => if negb (word =? 0) then (nwords, word) else significant_words n m (scan - 1) (m (scan - 1))
  end.

(** [LOW_MASK] of a negative length is an undefined shift. *)
Definition Prim_bit_string_to_unsigned (m : memory) (arg1 : sobj) : prim sobj :=
  let! bit_string := arg_bit_string 1 arg1 in
  let scan := BIT_STRING_HIGH_PTR m bit_string in
  let nbits := ulong (Z.rem (BIT_STRING_LENGTH m bit_string) OBJECT_LENGTH) in
  if OBJECT_LENGTH <=? nbits then PRIMITIVE_ERROR error_external_return
  else
    let word := if 0 <? nbits then m (scan - 1) & LOW_MASK nbits else m (scan - 1) in
    let '(nwords, word) :=
      significant_words (Z.to_nat (VECTOR_LENGTH m bit_string - 1)%UL) m (scan - 1) word in
    match nwords with
    | O => PRIMITIVE_RETURN (Obj (Immediate (LONG_TO_UNSIGNED_FIXNUM 0)))
    | _ =>
        let! bits := lift (ulong_significant_bits word) in
        let nbits := ((Z.of_nat nwords - 1) * OBJECT_LENGTH + bits)%UL in
        if nbits <=? FIXNUM_LENGTH then PRIMITIVE_RETURN (Obj (Immediate (LONG_TO_UNSIGNED_FIXNUM word)))
        else
          let! b := lift (bit_string_to_bignum m nbits bit_string) in
          PRIMITIVE_RETURN (Obj (Big b))
    end.
End Operations.

(** ** Facts *)

(** The bit string at [a] holds the integer [z]. *)
Definition holds (m : memory) (a n z : Z) : Prop :=
  0 <= z < 2 ^ n /\ forall i, 0 <= i < n -> bs_bit m a i = Z.testbit z i.

(** *** Words of an integer *)

Definition zword (z k : Z) : Z := (z / 2 ^ (64 * k)) mod 2 ^ 64.

Lemma zword_ulong z k : is_ulong (zword z k).
Proof. apply Z.mod_pos_bound. lia. Qed.

Lemma zword_testbit z k j : 0 <= k -> 0 <= j < 64 -> Z.testbit (zword z k) j = Z.testbit z (64 * k + j).
Proof.
  intros Hk Hj. unfold zword. rewrite Z.mod_pow2_bits_low, Z.div_pow2_bits by lia. f_equal. lia.
Qed.

(** The top word that is not zero, as a number of its own. *)
Lemma zword_top z k :
  0 <= k -> 0 <= z < 2 ^ (64 * (k + 1)) -> zword z k = z / 2 ^ (64 * k).
Proof.
  intros Hk Hz. unfold zword. apply Z.mod_small.
  assert (0 < 2 ^ (64 * k)) by (apply Z.pow_pos_nonneg; lia).
  split; [apply Z.div_pos; lia |]. apply Z.div_lt_upper_bound; [lia |].
  rewrite <- Z.pow_add_r by lia. now replace (64 * k + 64) with (64 * (k + 1)) by lia.
Qed.

Lemma zword_zero z k : 0 <= k -> 0 <= z < 2 ^ (64 * (k + 1)) -> zword z k = 0 -> z < 2 ^ (64 * k).
Proof.
  intros Hk Hz E. rewrite zword_top in E by assumption.
  apply Z.div_small_iff in E; [| apply Z.pow_nonzero; lia]. lia.
Qed.

Section Reading.
Variables (m : memory) (a n z : Z).
Hypothesis H : bit_string_at m a n.
Hypothesis Hz : holds m a n z.

Lemma holds_word k : 0 <= k -> 64 * (k + 1) <= n -> m (a + 2 + k) = zword z k.
Proof using H Hz.
  intros Hk Hn. apply words_equal; [apply (bs_words _ _ _ H) | apply zword_ulong |].
  intros j Hj. rewrite zword_testbit, <- (proj2 Hz) by lia. symmetry. apply bs_bit_at. exact Hj.
Qed.

Lemma holds_high i : n <= i -> Z.testbit z i = false.
Proof using Hz. intros Hi. apply (testbit_high z n); [apply Hz | exact Hi]. Qed.

Lemma holds_masked_word k :
  0 <= k -> 64 * k <= n < 64 * (k + 1) -> (m (a + 2 + k) & LOW_MASK (n - 64 * k)) = zword z k.
Proof using H Hz.
  intros Hk Hn. apply words_equal; [apply is_ulong_land, (bs_words _ _ _ H) | apply zword_ulong |].
  intros j Hj. rewrite zword_testbit, Z.land_spec, LOW_MASK_testbit by lia.
  destruct (Z.ltb_spec j (n - 64 * k)).
  - rewrite andb_true_r, <- (proj2 Hz) by lia. symmetry. apply bs_bit_at. exact Hj.
  - rewrite andb_false_r. symmetry. apply holds_high. lia.
Qed.

Lemma significant_words_spec c : forall word,
  z < 2 ^ (64 * Z.of_nat c) -> Z.of_nat c <= n_words n ->
  (c <> O -> word = zword z (Z.of_nat c - 1)) ->
  exists k w, significant_words c m (a + 2 + Z.of_nat c - 1) word = (k, w)
    /\ if Nat.eqb k 0 then z = 0
       else (k <= c)%nat /\ w <> 0 /\ w = zword z (Z.of_nat k - 1) /\ z < 2 ^ (64 * Z.of_nat k).
Proof using H Hz.
  induction c as [|c IH]; intros word Hlt Hc Hw; cbn [significant_words].
  - exists O, word. split; [reflexivity |]. cbn in Hlt |- *. pose proof (proj1 Hz). lia.
  - specialize (Hw ltac:(discriminate)). rewrite Nat2Z.inj_succ in *.
    replace (Z.succ (Z.of_nat c) - 1) with (Z.of_nat c) in Hw by lia.
    destruct (Z.eqb_spec word 0) as [E | N]; cbn [negb].
    + destruct (IH (m (a + 2 + Z.of_nat c - 1))) as (k & w & E' & R).
      * apply zword_zero; [lia | | congruence]. pose proof (proj1 Hz).
        replace (64 * (Z.of_nat c + 1)) with (64 * Z.succ (Z.of_nat c)) by lia. lia.
      * lia.
      * intros Nc. pose proof (n_words_bounds n).
        replace (a + 2 + Z.of_nat c - 1) with (a + 2 + (Z.of_nat c - 1)) by lia. apply holds_word; lia.
      * exists k, w. replace (a + 2 + Z.succ (Z.of_nat c) - 1 - 1) with (a + 2 + Z.of_nat c - 1) by lia.
        split; [exact E' |]. destruct (Nat.eqb k 0); [exact R |]. split; [lia | apply R].
    + exists (S c), word. split; [reflexivity |]. cbn [Nat.eqb]. rewrite Nat2Z.inj_succ.
      replace (Z.succ (Z.of_nat c) - 1) with (Z.of_nat c) by lia. auto.
Qed.

(** *** Bytes *)

Lemma byte_ref_range q : 0 <= byte_ref m q < 256.
Proof using. unfold byte_ref. change 255 with (2 ^ 8 - 1). rewrite land_mask by lia. apply Z.mod_pos_bound. lia. Qed.

Lemma byte_ref_testbit q j : 0 <= j < 8 -> Z.testbit (byte_ref m q) j = mem_bit m (8 * q + j).
Proof using.
  intros Hj. unfold byte_ref. change 255 with (2 ^ 8 - 1). rewrite land_mask by lia.
  pose proof (Z.mod_pos_bound q 8 ltac:(lia)). pose proof (Z.div_mod q 8 ltac:(lia)).
  rewrite Z.mod_pow2_bits_low, Z.shiftr_spec by lia. symmetry. apply mem_bit_eq; lia.
Qed.

Definition zbyte (q : Z) : Z := (z / 256 ^ q) mod 256.

Lemma zbyte_testbit q j : 0 <= q -> 0 <= j < 8 -> Z.testbit (zbyte q) j = Z.testbit z (8 * q + j).
Proof using.
  intros Hq Hj. unfold zbyte. change 256 with (2 ^ 8). rewrite <- Z.pow_mul_r by lia.
  rewrite Z.mod_pow2_bits_low, Z.div_pow2_bits by lia. f_equal. lia.
Qed.

Lemma zbyte_range q : 0 <= zbyte q < 256.
Proof using. apply Z.mod_pos_bound. lia. Qed.

Lemma bytes_equal x y :
  0 <= x < 256 -> 0 <= y < 256 -> (forall j, 0 <= j < 8 -> Z.testbit x j = Z.testbit y j) -> x = y.
Proof using.
  intros Hx Hy E. apply Z.bits_inj'. intros i Hi. destruct (Z.ltb_spec i 8); [apply E; lia |].
  now rewrite (testbit_high x 8), (testbit_high y 8) by lia.
Qed.

Lemma holds_byte q : 0 <= q -> 8 * (q + 1) <= n -> byte_ref m (8 * (a + 2) + q) = zbyte q.
Proof using Hz.
  intros Hq Hn. apply bytes_equal; [apply byte_ref_range | apply zbyte_range |].
  intros j Hj. rewrite byte_ref_testbit, zbyte_testbit, <- (proj2 Hz) by lia.
  unfold bs_bit. f_equal. lia.
Qed.

(** The top byte of [nbits] bits, masked. *)
Lemma holds_top_byte q o nbits :
  0 <= q -> 0 < o <= 8 -> nbits = 8 * q + o -> nbits <= n -> z < 2 ^ nbits ->
  (uint (LOW_MASK o) & byte_ref m (8 * (a + 2) + q)) = zbyte q.
Proof using Hz.
  intros Hq Ho -> Hn Hb. rewrite Z.land_comm. pose proof (byte_ref_range (8 * (a + 2) + q)) as Rb.
  assert (Hu : uint (LOW_MASK o) = LOW_MASK o).
  { apply uint_small. rewrite LOW_MASK_ones, Z.ones_equiv by lia.
    assert (0 < 2 ^ o <= 2 ^ 8) by (split; [apply Z.pow_pos_nonneg | apply Z.pow_le_mono_r]; lia). lia. }
  rewrite Hu. apply bytes_equal; [| apply zbyte_range |].
  - rewrite LOW_MASK_ones by lia. rewrite Z.land_ones by lia.
    pose proof (Z.mod_pos_bound (byte_ref m (8 * (a + 2) + q)) (2 ^ o) ltac:(apply Z.pow_pos_nonneg; lia)).
    pose proof (Z.mod_le (byte_ref m (8 * (a + 2) + q)) (2 ^ o) ltac:(lia) ltac:(apply Z.pow_pos_nonneg; lia)).
    lia.
  - intros j Hj. rewrite Z.land_spec, LOW_MASK_testbit, zbyte_testbit, byte_ref_testbit by lia.
    destruct (Z.ltb_spec j o).
    + rewrite andb_true_r, <- (proj2 Hz) by lia. unfold bs_bit. f_equal. lia.
    + rewrite andb_false_r. symmetry. apply (testbit_high z (8 * q + o)); [split; [apply Hz | exact Hb] | lia].
Qed.

Lemma stream_S {C} k (p : C -> Z * C) c :
  fst (stream (S k) p c) = fst (p c) :: fst (stream k p (snd (p c))).
Proof using. cbn [stream]. destruct (p c) as [d c1]. cbn [fst snd]. now destruct (stream k p c1). Qed.

(** The digits the producer gives below the top one. *)
Lemma producer_digits k : forall v,
  8 * Z.of_nat k <= n ->
  let ds := fst (stream k (bstb_producer m) (mk_context (8 * (a + 2) + Z.of_nat k) 255)) in
  radix_digits 256 ds /\ horner 256 v ds = v * 256 ^ Z.of_nat k + z mod 256 ^ Z.of_nat k.
Proof using Hz.
  induction k as [|k IH]; intros v Hk; cbv zeta.
  - cbn [stream fst horner fold_left]. split; [constructor |].
    change (256 ^ Z.of_nat 0) with 1. rewrite Z.mod_1_r. lia.
  - assert (P : bstb_producer m (mk_context (8 * (a + 2) + Z.of_nat (S k)) 255)
      = (zbyte (Z.of_nat k), mk_context (8 * (a + 2) + Z.of_nat k) 255)).
    { unfold bstb_producer. cbn [source_ptr mask]. rewrite Nat2Z.inj_succ in *.
      replace (8 * (a + 2) + Z.succ (Z.of_nat k) - 1) with (8 * (a + 2) + Z.of_nat k) by lia.
      rewrite holds_byte by lia. rewrite Z.land_comm. change 255 with (2 ^ 8 - 1) at 1.
      rewrite land_mask, Z.mod_small by (lia || apply zbyte_range). reflexivity. }
    rewrite stream_S, P. cbn [fst snd]. rewrite Nat2Z.inj_succ in *.
    destruct (IH (v * 256 + zbyte (Z.of_nat k)) ltac:(lia)) as [R Ho].
    split; [constructor; [apply zbyte_range | exact R] |].
    unfold horner in *. cbn [fold_left]. rewrite Ho. unfold zbyte.
    assert (0 < 256 ^ Z.of_nat k) by (apply Z.pow_pos_nonneg; lia).
    rewrite Z.pow_succ_r, (Z.mul_comm 256 (256 ^ _)), Z.rem_mul_r by lia. ring.
Qed.
End Reading.

(** *** Significant bits *)

Lemma significant_bits_loop_spec number : 1 <= number < 2 ^ 64 -> forall fuel b,
  1 <= b -> b + Z.of_nat fuel = 65 -> 2 ^ (b - 1) <= number ->
  exists k, significant_bits_loop fuel number (2 ^ b - 1) b = Some k
    /\ 1 <= k <= 64 /\ 2 ^ (k - 1) <= number < 2 ^ k.
Proof.
  intros Hn. induction fuel as [|fuel IH]; intros b Hb Hf Hl; cbn [significant_bits_loop].
  - replace b with 65 in Hl by lia. lia.
  - rewrite Nat2Z.inj_succ in Hf. destruct (Z.leb_spec number (2 ^ b - 1)).
    + exists b. split; [reflexivity |]. lia.
    + assert (b <> 64) by (intros ->; lia).
      assert (P : 2 ^ (b + 1) = 2 * 2 ^ b) by (rewrite Z.pow_add_r by lia; lia).
      assert (2 ^ (b + 1) <= 2 ^ 64) by (apply Z.pow_le_mono_r; lia).
      assert (0 < 2 ^ b) by (apply Z.pow_pos_nonneg; lia).
      rewrite uint_small, ulong_small by lia.
      replace ((2 ^ b - 1) * 2 + 1) with (2 ^ (b + 1) - 1) by lia.
      apply IH; try lia. replace (b + 1 - 1) with b by lia. lia.
Qed.

Lemma ulong_significant_bits_spec number :
  1 <= number < 2 ^ 64 ->
  exists k, ulong_significant_bits number = Some k /\ 1 <= k <= 64 /\ 2 ^ (k - 1) <= number < 2 ^ k.
Proof. intros Hn. apply (significant_bits_loop_spec number Hn 64 1); [lia | reflexivity | exact (proj1 Hn)]. Qed.

Section Conversion.
Context {heap : Heap}.
Notation repr_integer := (int_repr (laws := bignum_laws)).

(** *** From a bit string *)

Lemma bit_string_to_bignum_spec m a n z nbits :
  bit_string_at m a n -> holds m a n z -> 0 < nbits <= n -> nbits < 2 ^ 31 -> z < 2 ^ nbits ->
  exists b, bit_string_to_bignum m nbits a = Some b /\ repr b z.
Proof.
  intros H Hz Hb Hl Hlt. unfold bit_string_to_bignum.
  rewrite !ulong_small by lia.
  set (q := (nbits - 1) / 8). set (o := (nbits - 1) mod 8 + 1).
  assert (Q : nbits = 8 * q + o /\ 0 < o <= 8 /\ 0 <= q).
  { subst q o. pose proof (Z.div_mod (nbits - 1) 8 ltac:(lia)).
    pose proof (Z.mod_pos_bound (nbits - 1) 8 ltac:(lia)).
    split; [lia |]. split; [lia |]. apply Z.div_pos; lia. }
  destruct Q as (En & Ho & Hq).
  assert (Nd : (nbits + 7) / 8 = q + 1) by (symmetry; apply (Z.div_unique_pos _ _ _ (o - 1)); lia).
  assert (Nw : (nbits - 1) / 64 = q / 8).
  { unfold q. now rewrite Z.div_div by lia. }
  rewrite Nd, Nw, (proj2 (Z.eqb_neq (q + 1) 0)), uint_small by lia. cbn [negb].
  replace (q + 1 - 1) with q by lia. pose proof (Z.div_mod q 8 ltac:(lia)) as Dq.
  replace (8 * (a + (2 + 1 + q / 8)) - (8 - (q mod 8 + 1))) with (8 * (a + 2) + (q + 1)) by lia.
  set (c := mk_context (8 * (a + 2) + (q + 1)) (uint (LOW_MASK o))).
  assert (P : bstb_producer m c = (zbyte z q, mk_context (8 * (a + 2) + q) 255)).
  { unfold bstb_producer, c. cbn [source_ptr mask].
    replace (8 * (a + 2) + (q + 1) - 1) with (8 * (a + 2) + q) by lia.
    now rewrite (holds_top_byte m a n z Hz q o nbits) by lia. }
  destruct (producer_digits m a n z Hz (Z.to_nat q) (zbyte z q)) as [Rd Hr]; [lia |].
  rewrite Z2Nat.id in Rd, Hr by lia.
  assert (S : fst (stream (Z.to_nat (q + 1)) (bstb_producer m) c)
    = zbyte z q :: fst (stream (Z.to_nat q) (bstb_producer m) (mk_context (8 * (a + 2) + q) 255))).
  { replace (Z.to_nat (q + 1)) with (Datatypes.S (Z.to_nat q)) by lia. now rewrite stream_S, P. }
  destruct (digit_stream_to_bignum_repr 256 ltac:(lia) (q + 1) (bstb_producer m) c false) as (b & E & R).
  { lia. } { change (ulong_length_in_bits 256) with 9. lia. }
  { rewrite S. constructor; [apply zbyte_range | exact Rd]. }
  rewrite E. cbn [obind]. exists b. split; [reflexivity |].
  rewrite S in R. cbn [sign] in R. unfold horner in *. cbn [fold_left] in R.
  rewrite Z.mul_0_l, Z.add_0_l, Hr in R. replace z with (zbyte z q * 256 ^ q + z mod 256 ^ q); [exact R |].
  assert (0 < 256 ^ q) by (apply Z.pow_pos_nonneg; lia).
  unfold zbyte. rewrite (Z.mod_small (z / 256 ^ q)).
  - rewrite Z.mul_comm. symmetry. apply Z.div_mod. lia.
  - split; [apply Z.div_pos; [apply Hz | lia] |]. apply Z.div_lt_upper_bound; [lia |].
    change 256 with (2 ^ 8) at 2. change 256 with (2 ^ 8). rewrite <- Z.pow_mul_r, <- Z.pow_add_r by lia.
    eapply Z.lt_le_trans; [exact Hlt |]. apply Z.pow_le_mono_r; lia.
Qed.

Lemma bit_string_to_unsigned_spec m a n z :
  bit_string_at m a n -> holds m a n z -> n < 2 ^ 31 ->
  exists o, Prim_bit_string_to_unsigned m (Bit_string a) = PRIMITIVE_RETURN (Obj o) /\ repr_integer o z.
Proof.
  intros H Hz Hl. unfold Prim_bit_string_to_unsigned. cbn [arg_bit_string pbind].
  pose proof (bs_length _ _ _ H) as Hn. pose proof (n_words_bounds n) as Nb. destruct (div_mod_64 n) as [En Rn].
  rewrite (bs_LENGTH m a n H), (bs_HIGH_PTR m a n H), (bs_header _ _ _ H).
  destruct (quot_rem_64 n) as [_ ->]; [lia |]. change ((n + 63) / 64) with (n_words n).
  rewrite (ulong_small (n mod 64)), ulong_small by lia.
  destruct (Z.leb_spec 64 (n mod 64)); [lia |]. replace (1 + n_words n - 1) with (n_words n) by lia.
  set (word := if 0 <? n mod 64 then _ else _).
  destruct (significant_words_spec m a n z H Hz (Z.to_nat (n_words n)) word) as (k & w & E & R).
  { rewrite Z2Nat.id by lia. eapply Z.lt_le_trans; [apply Hz |]. apply Z.pow_le_mono_r; lia. }
  { lia. }
  { intros N. rewrite Z2Nat.id by lia. subst word.
    replace (a + 2 + n_words n - 1) with (a + 2 + (n_words n - 1)) by lia.
    destruct (Z.ltb_spec 0 (n mod 64)).
    - replace (n mod 64) with (n - 64 * (n_words n - 1)) by lia. apply (holds_masked_word m a n z H Hz); lia.
    - apply (holds_word m a n z H Hz); lia. }
  rewrite Z2Nat.id in E by lia. rewrite E. destruct k as [|k]; cbn [Nat.eqb] in R.
  { subst z. exists (Immediate (fixnum 0)). rewrite LONG_TO_UNSIGNED_FIXNUM_small by lia.
    split; [reflexivity |]. apply int_repr_fixnum. unfold fixnum_range. lia. }
  destruct R as (Hk & Nz & Ew & Hlt). rewrite Nat2Z.inj_succ in *.
  replace (Z.succ (Z.of_nat k) - 1) with (Z.of_nat k) in * by lia. set (K := Z.of_nat k) in *.
  assert (Hw : is_ulong w) by (rewrite Ew; apply zword_ulong).
  destruct (ulong_significant_bits_spec w) as (s & -> & Hs & Bs); [red in Hw; lia |].
  cbn [lift pbind]. rewrite zword_top in Ew
    by (try (split; [apply Hz |]; replace (64 * (K + 1)) with (64 * Z.succ K) by lia); lia).
  assert (P : 0 < 2 ^ (64 * K)) by (apply Z.pow_pos_nonneg; lia).
  pose proof (Z.div_mod z (2 ^ (64 * K)) ltac:(lia)) as D.
  pose proof (Z.mod_pos_bound z (2 ^ (64 * K)) P) as M. rewrite <- Ew in D.
  assert (Up : z < 2 ^ (K * 64 + s)).
  { replace (K * 64 + s) with (64 * K + s) by lia. rewrite Z.pow_add_r by lia. nia. }
  assert (Lo : 2 ^ (K * 64 + s - 1) <= z).
  { replace (K * 64 + s - 1) with (64 * K + (s - 1)) by lia. rewrite Z.pow_add_r by lia. nia. }
  assert (Ln : K * 64 + s <= n).
  { destruct (Z.leb_spec (K * 64 + s) n); [assumption |].
    assert (2 ^ n <= 2 ^ (K * 64 + s - 1)) by (apply Z.pow_le_mono_r; lia). pose proof (proj1 Hz). lia. }
  rewrite ulong_small by lia. destruct (Z.leb_spec (K * 64 + s) 57).
  - assert (K = 0) as K0 by lia. rewrite K0 in *. change (2 ^ (64 * 0)) with 1 in *.
    assert (z < 2 ^ 57) by (eapply Z.lt_le_trans; [exact Up |]; apply Z.pow_le_mono_r; lia).
    rewrite Z.mod_1_r in D. replace w with z by lia. exists (Immediate (fixnum z)). pose proof (proj1 Hz).
    rewrite LONG_TO_UNSIGNED_FIXNUM_small by lia.
    split; [reflexivity |]. apply int_repr_fixnum. unfold fixnum_range. lia.
  - destruct (bit_string_to_bignum_spec m a n z (K * 64 + s)) as (b & -> & R); auto; try lia.
    cbn [lift pbind]. exists (Big b). split; [reflexivity |]. apply int_repr_big; [| exact R].
    assert (2 ^ 57 <= 2 ^ (K * 64 + s - 1)) by (apply Z.pow_le_mono_r; lia). unfold fixnum_range. lia.
Qed.
End Conversion.

(** *** To a bit string *)

Lemma byte_set_spec m q v :
  words m -> 0 <= v < 256 ->
  words (byte_set m q v)
  /\ forall p, mem_bit (byte_set m q v) p
       = if (8 * q <=? p) && (p <? 8 * q + 8) then Z.testbit v (p - 8 * q) else mem_bit m p.
Proof.
  intros W Hv. unfold byte_set. pose proof (Z.div_mod q 8 ltac:(lia)) as D.
  pose proof (Z.mod_pos_bound q 8 ltac:(lia)) as B. set (e := q mod 8) in *. set (d := q / 8) in *.
  split.
  - apply words_store; [exact W |]. apply is_ulong_lor; [auto with words |].
    assert (0 < 2 ^ (8 * e) <= 2 ^ 56) by (split; [apply Z.pow_pos_nonneg | apply Z.pow_le_mono_r]; lia).
    rewrite Z.shiftl_mul_pow2 by lia. red. nia.
  - intros p. destruct (split_address p) as (w & i & Hi & ->). rewrite mem_bit_store by exact Hi.
    destruct (Z.eqb_spec w d) as [-> | N].
    + rewrite Z.lor_spec, Z.ldiff_spec, !Z.shiftl_spec, mem_bit_at by lia.
      change 255 with (Z.ones 8). destruct (Z.ltb_spec i (8 * e)).
      * rewrite !(Z.testbit_neg_r _ (i - 8 * e)) by lia. cbn [negb]. rewrite andb_true_r, orb_false_r.
        destruct (Z.leb_spec (8 * q) (64 * d + i)); [lia | reflexivity].
      * rewrite ones_testbit by lia. destruct (Z.ltb_spec (i - 8 * e) 8); cbn [negb];
          rewrite ?andb_false_r, ?andb_true_r, ?orb_false_l;
          destruct (Z.leb_spec (8 * q) (64 * d + i)), (Z.ltb_spec (64 * d + i) (8 * q + 8)); try lia; cbn [andb].
        -- f_equal. lia.
        -- rewrite (testbit_high v 8) by lia. apply orb_false_r.
    + destruct (Z.leb_spec (8 * q) (64 * w + i)), (Z.ltb_spec (64 * w + i) (8 * q + 8)); cbn [andb];
        (reflexivity || lia).
Qed.

Lemma btbs_consumer_fold zs : forall m q,
  words m -> radix_digits 256 zs ->
  exists m', fold_left btbs_consumer zs (m, q) = (m', q + Z.of_nat (length zs))
    /\ words m'
    /\ forall p, mem_bit m' p
         = if (8 * q <=? p) && (p <? 8 * (q + Z.of_nat (length zs)))
           then Z.testbit (radix_eval 256 zs) (p - 8 * q) else mem_bit m p.
Proof.
  induction zs as [|z zs IH]; intros m q W R; cbn [fold_left length radix_eval].
  - exists m. change (Z.of_nat 0) with 0. rewrite Z.add_0_r. split; [reflexivity |]. split; [exact W |].
    intros p. destruct (Z.leb_spec (8 * q) p), (Z.ltb_spec p (8 * q)); (reflexivity || lia).
  - inversion_clear R as [|? ? Hz R']. unfold btbs_consumer at 2. rewrite Z.mod_small by lia.
    destruct (byte_set_spec m q z W Hz) as [W1 B1].
    destruct (IH (byte_set m q z) (q + 1) W1 R') as (m' & -> & W' & B').
    rewrite Nat2Z.inj_succ. exists m'. split; [f_equal; lia |]. split; [exact W' |].
    intros p. rewrite B', B1.
    destruct (Z.leb_spec (8 * (q + 1)) p), (Z.ltb_spec p (8 * (q + 1 + Z.of_nat (length zs)))),
      (Z.leb_spec (8 * q) p), (Z.ltb_spec p (8 * (q + Z.succ (Z.of_nat (length zs))))),
      (Z.ltb_spec p (8 * q + 8)); try lia; cbn [andb]; try reflexivity.
    all: change (z + 256 * radix_eval 256 zs) with (z + 2 ^ 8 * radix_eval 256 zs); rewrite testbit_split by lia;
      destruct (Z.ltb_spec (p - 8 * q) 8); try lia; try reflexivity.
    f_equal. lia.
Qed.

(** Digits without a leading zero are as few as possible. *)
Lemma radix_eval_lower zs :
  radix_digits 256 zs -> zs <> [] -> last zs 1 <> 0 -> 256 ^ (Z.of_nat (length zs) - 1) <= radix_eval 256 zs.
Proof.
  induction zs as [|z zs IH]; intros R N L; [easy |]. inversion_clear R as [|? ? Hz R'].
  cbn [length radix_eval]. rewrite Nat2Z.inj_succ. destruct zs as [|z' zs].
  - cbn [last radix_eval length] in *. change (Z.succ (Z.of_nat 0) - 1) with 0. rewrite Z.pow_0_r. lia.
  - specialize (IH R' ltac:(discriminate) L). cbn [length] in *. rewrite Nat2Z.inj_succ in *.
    replace (Z.succ (Z.succ (Z.of_nat (length zs))) - 1) with (Z.succ (Z.succ (Z.of_nat (length zs)) - 1)) by lia.
    rewrite Z.pow_succ_r by lia. lia.
Qed.

Section ToBits.
Context {heap : Heap}.
Notation repr_integer := (int_repr (laws := bignum_laws)).

(** The new bit string and the words of memory it does not touch. *)
Definition new_bit_string (s s' : machine) (n z : Z) : Prop :=
  bit_string_at (mem s') (Free s) n /\ Free s' = Free s + (2 + n_words n)
  /\ holds (mem s') (Free s) n z
  /\ forall b, b < Free s \/ Free s' <= b -> mem s' b = mem s b.

Lemma zero_to_bit_string_spec s n :
  bit_string_room s n ->
  exists s', zero_to_bit_string n s = PRIMITIVE_RETURN (Free s, s') /\ new_bit_string s s' n 0
    /\ forall b, data_word (Free s) n b = true -> mem s' b = 0.
Proof.
  intros R. unfold zero_to_bit_string. destruct (allocate_bit_string_spec s n R) as (s1 & -> & H1 & F1 & Fr).
  pose proof (n_words_bounds n). assert (Hn : 0 <= n) by apply R.
  cbn [pbind]. rewrite clear_fill. eexists. split; [reflexivity |].
  unfold new_bit_string. cbn [set_mem mem Free].
  destruct (fill_bit_string_spec (mem s1) (Free s) n false H1) as (H2 & Bits & Fr2).
  split; [split; [exact H2 |]; split; [exact F1 |]; split |].
  - split; [split; [lia | apply Z.pow_pos_nonneg; lia] |]. intros i Hi. rewrite Bits by exact Hi. now rewrite Z.bits_0.
  - intros b Hb. rewrite F1 in Hb. rewrite Fr2; [apply Fr; lia |]. unfold data_word.
    destruct (Z.leb_spec (Free s + 2) b), (Z.ltb_spec b (Free s + 2 + n_words n)); (reflexivity || lia).
  - intros b Hb. destruct (filled (mem s1) (Free s) n 0 H1 ltac:(red; lia)) as [E _].
    unfold fill_bit_string. change (ulong 0) with 0. now rewrite E, Hb.
Qed.

Lemma zero_to_bit_string_gc s n :
  0 <= n <= 9223372036854775744 -> GC_NEEDED_P s (1 + (1 + n_words n)) = true ->
  zero_to_bit_string n s = PRIMITIVE_ERROR (Primitive_GC (1 + (1 + n_words n))).
Proof. intros Hn G. unfold zero_to_bit_string. now rewrite allocate_bit_string_gc. Qed.

(** What a conversion answers when there is no garbage collection. *)
Definition converts (r : prim (Z * machine)) (s : machine) (n z : Z) : Prop :=
  if (0 <=? z) && (z <? 2 ^ n) then
    if GC_NEEDED_P s (1 + (1 + n_words n)) then r = PRIMITIVE_ERROR (Primitive_GC (1 + (1 + n_words n)))
    else exists s', r = PRIMITIVE_RETURN (Free s, s') /\ new_bit_string s s' n z
  else r = PRIMITIVE_ERROR (error_bad_range_arg 2).

(** Storing bits into a new, clear bit string. *)
Lemma new_bit_string_set s s1 n z m :
  new_bit_string s s1 n 0 -> 0 <= z < 2 ^ n -> words m ->
  (forall p, 64 * (Free s + 2) <= p < 64 * (Free s + 2 + n_words n) ->
     mem_bit m p = Z.testbit z (p - 64 * (Free s + 2))) ->
  (forall p, ~ (64 * (Free s + 2) <= p < 64 * (Free s + 2 + n_words n)) -> mem_bit m p = mem_bit (mem s1) p) ->
  new_bit_string s (set_mem s1 m) n z.
Proof.
  intros (H1 & F1 & _ & Fr) Hz W B1 B2. unfold new_bit_string. cbn [set_mem mem Free].
  pose proof (n_words_bounds n). pose proof (bs_length _ _ _ H1).
  split; [| split; [exact F1 | split]].
  - apply (bit_string_at_frame (mem s1)); auto. intros p Hp. apply B2. lia.
  - split; [exact Hz |]. intros i Hi. unfold bs_bit. rewrite B1 by lia. f_equal. lia.
  - intros b Hb. rewrite <- Fr by exact Hb. rewrite F1 in Hb. apply word_ext; [apply H1 | exact W |].
    intros i Hi. apply B2. lia.
Qed.

Lemma ulong_to_bit_string_spec s n z :
  words (mem s) -> 0 <= n <= 9223372036854775744 -> 0 <= z < 2 ^ 64 ->
  converts (ulong_to_bit_string n z s) s n z.
Proof.
  intros W Hn Hz. unfold converts, ulong_to_bit_string. rewrite (proj2 (Z.leb_le 0 z)) by lia. cbn [andb].
  destruct (Z.eqb_spec z 0) as [-> | Nz].
  { rewrite (proj2 (Z.ltb_lt 0 (2 ^ n))) by (apply Z.pow_pos_nonneg; lia).
    destruct (GC_NEEDED_P _ _) eqn:G; [now apply zero_to_bit_string_gc |].
    destruct (zero_to_bit_string_spec s n) as (s' & E & N & _); [now split |]. eauto. }
  destruct (ulong_significant_bits_spec z) as (k & -> & Hk & Bk); [lia |]. cbn [lift pbind].
  destruct (Z.ltb_spec n k), (Z.ltb_spec z (2 ^ n)).
  - assert (2 ^ n <= 2 ^ (k - 1)) by (apply Z.pow_le_mono_r; lia). lia.
  - reflexivity.
  - destruct (GC_NEEDED_P _ _) eqn:G; [now rewrite zero_to_bit_string_gc |].
    destruct (zero_to_bit_string_spec s n) as (s1 & -> & N & Z0); [now split |]. cbn [pbind].
    eexists. split; [reflexivity |]. pose proof (n_words_bounds n). assert (W1 : words (mem s1)) by apply N.
    unfold set_BIT_STRING_WORD, BIT_STRING_LSW_PTR, BIT_STRING_INDEX_TO_WORD.
    change (Z.quot 0 64) with 0. replace (Free s + (2 + 1 + 0) - 1) with (Free s + 2) by lia.
    apply new_bit_string_set; auto; try lia.
    + apply words_store; [exact W1 | red; lia].
    + intros p Hp. destruct (split_address p) as (w & i & Hi & ->). rewrite mem_bit_store by exact Hi.
      destruct (Z.eqb_spec w (Free s + 2)) as [-> | Nw]; [f_equal; lia |].
      rewrite mem_bit_at, Z0 by (try (unfold data_word; apply andb_true_iff; rewrite Z.leb_le, Z.ltb_lt); lia).
      rewrite Z.bits_0. symmetry. apply (testbit_high z 64); lia.
    + intros p Hp. destruct (split_address p) as (w & i & Hi & ->). rewrite mem_bit_store by exact Hi.
      destruct (Z.eqb_spec w (Free s + 2)); [lia | reflexivity].
  - assert (2 ^ k <= 2 ^ n) by (apply Z.pow_le_mono_r; lia). lia.
Qed.

(** The bytes of a number below [2 ^ n] fit in the data words. *)
Lemma bytes_fit n z zs :
  0 <= n -> 0 < z < 2 ^ n -> radix_digits 256 zs -> radix_eval 256 zs = z -> last zs 1 <> 0 ->
  8 * Z.of_nat (length zs) <= 64 * n_words n /\ z < 2 ^ (8 * Z.of_nat (length zs)).
Proof.
  intros Hn Hz R E L. pose proof (n_words_bounds n). split.
  - destruct zs as [|d zs']; [cbn in E; lia |]. set (zs := d :: zs') in *.
    pose proof (radix_eval_lower zs R ltac:(discriminate) L) as Lo. rewrite E in Lo.
    destruct (Z.leb_spec (8 * Z.of_nat (length zs)) (64 * n_words n)); [assumption | exfalso].
    assert (2 ^ n <= 2 ^ (8 * (Z.of_nat (length zs) - 1))) by (apply Z.pow_le_mono_r; lia).
    rewrite Z.pow_mul_r in * by lia. change (2 ^ 8) with 256 in *. lia.
  - rewrite <- E. clear - R. induction R as [|d zs Hd R IH]; [reflexivity |].
    cbn [radix_eval length]. rewrite Nat2Z.inj_succ.
    replace (8 * Z.succ (Z.of_nat (length zs))) with (8 + 8 * Z.of_nat (length zs)) by lia.
    rewrite Z.pow_add_r by lia. change (2 ^ 8) with 256. lia.
Qed.

Lemma bignum_to_bit_string_spec s n b z :
  words (mem s) -> 0 < n < 4294967296 -> repr b z -> within z ->
  converts (bignum_to_bit_string (digit_stream_fuel (BIGNUM_LENGTH b)) n b s) s n z.
Proof.
  intros W Hn R Wz. unfold converts, bignum_to_bit_string.
  change (bignum_test b) with (bn_test b). rewrite (law_test (BignumLaws := bignum_laws) b z R). unfold comparison_of.
  destruct (Z.compare_spec z 0) as [-> | Lt | Gt].
  - rewrite (proj2 (Z.ltb_lt 0 (2 ^ n))) by (apply Z.pow_pos_nonneg; lia).
    change (0 <=? 0) with true. cbn [andb].
    destruct (GC_NEEDED_P _ _) eqn:G; [apply zero_to_bit_string_gc; auto; lia |].
    destruct (zero_to_bit_string_spec s n) as (s' & E & N & _); [split; [|split]; auto; lia |]. eauto.
  - destruct (Z.leb_spec 0 z); [lia | reflexivity].
  - rewrite slong_small by lia.
    change (bignum_fits_in_word_p b n false) with (bn_fits_in_word_p b n false).
    rewrite (law_fits (BignumLaws := bignum_laws) b z n false R (within_within_sum z Wz)) by lia.
    cbn [lift pbind]. destruct ((0 <=? z) && (z <? 2 ^ n))%bool eqn:F; [| reflexivity]. cbn [negb].
    apply andb_true_iff in F as [F1 F2]. reflect_bools.
    destruct (GC_NEEDED_P _ _) eqn:G; [now rewrite zero_to_bit_string_gc by (auto; lia) |].
    destruct (zero_to_bit_string_spec s n) as (s1 & -> & N & Z0); [split; [|split]; auto; lia |]. cbn [pbind].
    destruct (bignum_to_digit_stream_repr 256 ltac:(lia) b z btbs_consumer
      (mem s1, 8 * BIT_STRING_LOW_PTR (Free s)) R) as (zs & -> & Rd & Ev & La).
    rewrite Z.abs_eq in Ev by lia. assert (W1 : words (mem s1)) by apply N.
    destruct (btbs_consumer_fold zs (mem s1) (8 * BIT_STRING_LOW_PTR (Free s)) W1 Rd) as (m & -> & Wm & B).
    cbn [lift pbind]. eexists. split; [reflexivity |].
    destruct (bytes_fit n z zs) as [Fit Hi]; auto; try lia. unfold BIT_STRING_LOW_PTR in B. rewrite Ev in B.
    apply new_bit_string_set; auto; try lia.
    + intros p Hp. rewrite B. replace (p - 8 * (8 * (Free s + 2))) with (p - 64 * (Free s + 2)) by lia.
      destruct (Z.leb_spec (8 * (8 * (Free s + 2))) p),
        (Z.ltb_spec p (8 * (8 * (Free s + 2) + Z.of_nat (length zs)))); try lia; cbn [andb]; [reflexivity |].
      rewrite (testbit_high z (8 * Z.of_nat (length zs))) by lia.
      destruct (split_address p) as (w & i & Hi' & ->). rewrite mem_bit_at, Z0 by
        (try (unfold data_word; apply andb_true_iff; rewrite Z.leb_le, Z.ltb_lt); lia). apply Z.bits_0.
    + intros p Hp. rewrite B. destruct (Z.leb_spec (8 * (8 * (Free s + 2))) p),
        (Z.ltb_spec p (8 * (8 * (Free s + 2) + Z.of_nat (length zs)))); try lia; reflexivity.
Qed.
(** For no bits [BIGNUM_ASSERT (n_bits > 0)] fails. *)
Lemma bignum_to_no_bits fuel s b z : repr b z -> ~ fixnum_range z ->
  bignum_to_bit_string fuel 0 b s = PRIMITIVE_ERROR (if 0 <? z then error_external_return else error_bad_range_arg 2).
Proof.
  intros R N. unfold bignum_to_bit_string. change (bignum_test b) with (bn_test b).
  rewrite (law_test (BignumLaws := bignum_laws) b z R). unfold comparison_of, bignum_fits_in_word_p. rewrite (repr_NEGATIVE_P b z R).
  destruct (Z.compare_spec z 0) as [-> | Lt | Gt]; [exfalso; apply N; unfold fixnum_range; lia | |];
    destruct (Z.ltb_spec 0 z), (Z.ltb_spec z 0); reflexivity || lia.
Qed.
End ToBits.

Lemma FIXNUM_TO_ULONG_P_fixnum z : fixnum_range z -> FIXNUM_TO_ULONG_P (fixnum z) = (0 <=? z).
Proof.
  intros R. unfold FIXNUM_TO_ULONG_P. rewrite fixnum_datum, fixnum_mod by exact R. red in R.
  rewrite land_SIGN_MASK by (unfold is_ulong; destruct (Z.ltb_spec z 0); lia).
  destruct (Z.ltb_spec z 0), (Z.leb_spec 0 z); try lia.
  - apply Z.eqb_neq. pose proof (Z.div_le_lower_bound (z + 2 ^ 58) (2 ^ 57) 1). lia.
  - apply Z.eqb_eq. rewrite Z.div_small by lia. reflexivity.
Qed.

(** ** Properties *)

Definition conversion_fuel (o : object bignum) : nat :=
  match o with Big b => digit_stream_fuel (BIGNUM_LENGTH b) | Immediate _ => O end.

Section Properties.
Context {heap : Heap}.
Notation repr_integer := (int_repr (laws := bignum_laws)).

(** C34: integers and bit strings of less than 2^31 bits.
    [UNSIGNED-INTEGER->BIT-STRING] refuses an integer that is negative or does
    not fit in [n] bits, asks for a garbage collection when there is no room,
    and otherwise returns a new bit string of [n] bits that holds the integer
    and touches nothing else; but for no bits and a positive bignum an
    assertion fails where it should refuse.  [BIT-STRING->UNSIGNED-INTEGER]
    terminates with the canonical integer that a bit string holds, and so
    inverts it. *)
Theorem unsigned_integer_bit_string :
  (forall s x n o z, repr_integer x n -> repr_integer o z -> within z -> words (mem s) ->
     0 <= n < 2 ^ 31 ->
     let r := Prim_unsigned_to_bit_string (conversion_fuel o) (Obj x) (Obj o) s in
     if (n =? 0) && (2 ^ 57 <=? z) then r = PRIMITIVE_ERROR error_external_return
     else if (0 <=? z) && (z <? 2 ^ n) then
       if GC_NEEDED_P s (2 + n_words n) then r = PRIMITIVE_ERROR (Primitive_GC (2 + n_words n))
       else exists s', r = PRIMITIVE_RETURN (Bit_string (Free s), s') /\ new_bit_string s s' n z
         /\ exists o', Prim_bit_string_to_unsigned (mem s') (Bit_string (Free s)) = PRIMITIVE_RETURN (Obj o')
              /\ repr_integer o' z
     else r = PRIMITIVE_ERROR (error_bad_range_arg 2))
  /\ (forall m a n z, bit_string_at m a n -> holds m a n z -> n < 2 ^ 31 ->
     exists o, Prim_bit_string_to_unsigned m (Bit_string a) = PRIMITIVE_RETURN (Obj o) /\ repr_integer o z).
Proof.
  split; [| apply bit_string_to_unsigned_spec].
  intros s x n o z Rx Ro Wz Ws Hn. cbv zeta. unfold Prim_unsigned_to_bit_string, arg_ulong, on_object.
  assert (Fn : fixnum_range n) by (unfold fixnum_range; lia).
  rewrite (arg_ulong_integer_repr 1 x n Rx (within_fixnum n Fn)).
  destruct (Z.leb_spec 0 n), (Z.ltb_spec n 18446744073709551616); try lia. cbn [andb pbind].
  (* Both kinds of integer convert in the same way. *)
  assert (Conv : forall r, converts r s n z ->
    let r := pbind r (fun '(result, s) => PRIMITIVE_RETURN (Bit_string result, s)) in
    if (0 <=? z) && (z <? 2 ^ n) then
      if GC_NEEDED_P s (2 + n_words n) then r = PRIMITIVE_ERROR (Primitive_GC (2 + n_words n))
      else exists s', r = PRIMITIVE_RETURN (Bit_string (Free s), s') /\ new_bit_string s s' n z
        /\ exists o', Prim_bit_string_to_unsigned (mem s') (Bit_string (Free s)) = PRIMITIVE_RETURN (Obj o')
             /\ repr_integer o' z
    else r = PRIMITIVE_ERROR (error_bad_range_arg 2)).
  { intros r C. unfold converts in C. replace (2 + n_words n) with (1 + (1 + n_words n)) by lia.
    destruct ((0 <=? z) && (z <? 2 ^ n))%bool; [| now rewrite C].
    destruct (GC_NEEDED_P _ _); [now rewrite C |]. destruct C as (s' & -> & Nb). exists s'.
    split; [reflexivity |]. split; [exact Nb |].
    apply (bit_string_to_unsigned_spec (mem s') (Free s) n z); [apply Nb | apply Nb | lia]. }
  destruct (int_repr_cases o z Ro) as [(R & -> & ->) | (R & b & -> & D & ->)].
  - rewrite FIXNUM_TO_ULONG_P_fixnum by exact R. unfold FIXNUM_TO_ULONG.
    rewrite fixnum_datum, fixnum_mod by exact R. pose proof R as R'. red in R'.
    rewrite (proj2 (Z.leb_gt (2 ^ 57) z)), andb_false_r by lia.
    destruct (Z.leb_spec 0 z); cbn [negb andb]; [| reflexivity].
    destruct (Z.ltb_spec z 0); [lia |].
    pose proof (Conv _ (ulong_to_bit_string_spec s n z Ws ltac:(lia) ltac:(lia))) as C.
    exact C.
  - destruct (Z.eqb_spec n 0) as [-> | N]; cbn [andb]; [|apply Conv, bignum_to_bit_string_spec; auto; lia].
    rewrite (bignum_to_no_bits _ s b z D R). cbn [pbind]. unfold fixnum_range in R.
    destruct (Z.leb_spec (2 ^ 57) z), (Z.ltb_spec 0 z); try reflexivity; try lia.
    destruct (Z.leb_spec 0 z), (Z.ltb_spec z (2 ^ 0)); try reflexivity; lia.
Qed.
End Properties.

(** The bignum 2^62 in 70 bits and back, and its refusal for no bits. *)
Lemma unsigned_integer_bit_string_witness :
  let heap : Heap := fun _ => 77 in
  let o := Big (block false [0; 1]) in
  let s := mk_machine (fun _ => 0) 16 0 1000 true in
  (exists s' o', Prim_unsigned_to_bit_string (conversion_fuel o) (Obj (Immediate (fixnum 70))) (Obj o) s
      = PRIMITIVE_RETURN (Bit_string 16, s')
    /\ new_bit_string s s' 70 (BIGNUM_RADIX * 1)
    /\ Prim_bit_string_to_unsigned (mem s') (Bit_string 16) = PRIMITIVE_RETURN (Obj o')
    /\ int_repr (laws := bignum_laws) o' (BIGNUM_RADIX * 1))
  /\ Prim_unsigned_to_bit_string (conversion_fuel o) (Obj (Immediate (fixnum 0))) (Obj o) s = PRIMITIVE_ERROR error_external_return
  /\ exists o', Prim_bit_string_to_unsigned (sample 5) (Bit_string 0) = PRIMITIVE_RETURN (Obj o')
    /\ int_repr (laws := bignum_laws) o' 5.
Proof.
  intros heap o s. destruct (unsigned_integer_bit_string (heap := heap)) as [To From].
  assert (Ro : int_repr (laws := bignum_laws) o (BIGNUM_RADIX * 1)) by concrete_big.
  assert (Ws : words (mem s)) by (intros a; cbn; concrete_word).
  split; [|split].
  - destruct (To s (Immediate (fixnum 70)) 70 o (BIGNUM_RADIX * 1) ltac:(concrete_fixnum) Ro ltac:(concrete_within) Ws ltac:(lia))
      as (s' & E & N & o' & E' & R'). exists s', o'. auto.
  - exact (To s (Immediate (fixnum 0)) 0 o (BIGNUM_RADIX * 1) ltac:(concrete_fixnum) Ro ltac:(concrete_within) Ws ltac:(lia)).
  - apply (From (sample 5) 0 10 5); [apply sample_0; concrete_word | | lia].
    split; [lia |]. intros i Hi.
    assert (E : forall k, (k < 10)%nat -> bs_bit (sample 5) 0 (Z.of_nat k) = Z.testbit 5 (Z.of_nat k)).
    { intros k Hk. do 10 (destruct k as [|k]; [reflexivity |]). lia. }
    specialize (E (Z.to_nat i) ltac:(lia)). now rewrite Z2Nat.id in E by lia.
Defined.
