(* ===== verification/AvlTree.v ===== *)
(** * AVL trees of names (src/src/microcode/avltree.c, strcmp_ci of primutl.c)

    The tree that maps the names of primitives to their numbers.  A tree owns
    its nodes, so a node that C updates in place is here a new value of the
    node.  The state holds the static variables and counts the calls of
    [malloc]; which of these fail is a parameter.  [None] is a dereferenced
    null pointer or an access past the table of names. *)

From Stdlib Require Import ZArith List Lia Bool Sorting.Sorted.
From S2P Require Import Prelude.
Import ListNotations.

(** ** Names *)

(** The bytes of a C string, without the null that ends it. *)
Definition name := list Z.

(** [toupper] of the C locale. *)
Definition toupper (c : Z) : Z := if (97 <=? c) && (c <=? 122) then c - 32 else c.

Fixpoint strcmp_ci (s1 s2 : name) : Z :=
  match s1, s2 with
  | [], [] => 0
  | [], _ :: _ => -1
  | _ :: _, [] => 1
  | c1 :: s1, c2 :: s2 =>
      let c1 := toupper c1 in
      let c2 := toupper c2 in
      if c1 <? c2 then -1 else if c2 <? c1 then 1 else strcmp_ci s1 s2
  end.

(** ** Trees *)

Inductive tree_node :=
  | NULL
  | Node (height : Z) (left_ rite : tree_node) (nm : name) (value : Z).

Definition BRANCH_HEIGHT (tree : tree_node) : Z :=
  match tree with NULL => 0 | Node height _ _ _ _ => height end.

Inductive tree_error := leaf_make_malloc_failed | tree_insert_duplicate (nm : name).

(** [bias] is the static variable of [tree_build]. *)
Record state := mk_state {
  malloc_calls : nat;
  tree_error_message : option tree_error;
  bias : Z
}.

Definition set_error (e : tree_error) (s : state) : state := mk_state (malloc_calls s) (Some e) (bias s).
Definition set_bias (b : Z) (s : state) : state := mk_state (malloc_calls s) (tree_error_message s) b.

(** *** Balancing *)

Definition update_height (tree : tree_node) : option tree_node :=
  match tree with
  | NULL => None
  | Node _ left_ rite nm value =>
      Some (Node (1 + Z.max (BRANCH_HEIGHT left_) (BRANCH_HEIGHT rite)) left_ rite nm value)
  end.

Definition rotate_left (tree : tree_node) : option tree_node :=
  match tree with
  | Node h left_ (Node h' beta r nm' value') nm value =>
      let* tree := update_height (Node h left_ beta nm value) in
      update_height (Node h' tree r nm' value')
  | _ => None
  end.

Definition rotate_rite (tree : tree_node) : option tree_node :=
  match tree with
  | Node h (Node h' l beta nm' value') rite nm value =>
      let* tree := update_height (Node h beta rite nm value) in
      update_height (Node h' l tree nm' value')
  | _ => None
  end.

Definition rebalance_left (tree : tree_node) : option tree_node :=
  match tree with
  | NULL => None
  | Node h left_ rite nm value =>
      if BRANCH_HEIGHT left_ <=? 1 + BRANCH_HEIGHT rite then update_height tree
      else
        match left_ with
        | NULL => None
        | Node _ ql qr _ _ =>
            let* left_ := if BRANCH_HEIGHT ql <? BRANCH_HEIGHT qr then rotate_left left_ else Some left_ in
            rotate_rite (Node h left_ rite nm value)
        end
  end.

Definition rebalance_rite (tree : tree_node) : option tree_node :=
  match tree with
  | NULL => None
  | Node h left_ rite nm value =>
      if BRANCH_HEIGHT rite <=? 1 + BRANCH_HEIGHT left_ then update_height tree
      else
        match rite with
        | NULL => None
        | Node _ ql qr _ _ =>
            let* rite := if BRANCH_HEIGHT qr <? BRANCH_HEIGHT ql then rotate_rite rite else Some rite in
            rotate_left (Node h left_ rite nm value)
        end
  end.

(** *** Operations *)

Fixpoint tree_lookup (tree : tree_node) (nm : name) : tree_node :=
  match tree with
  | NULL => NULL
  | Node _ left_ rite nm' _ =>
      let c := strcmp_ci nm nm' in
      if c =? 0 then tree else if c =? -1 then tree_lookup left_ nm else tree_lookup rite nm
  end.

Section Allocating.
(** Whether the n-th call of [malloc] succeeds. *)
Variable malloc : nat -> bool.

Definition leaf_make (nm : name) (value : Z) (s : state) : tree_node * state :=
  let s' := mk_state (S (malloc_calls s)) (tree_error_message s) (bias s) in
  if malloc (malloc_calls s) then (Node 1 NULL NULL nm value, s')
  else (NULL, set_error leaf_make_malloc_failed s').

Fixpoint tree_insert (tree : tree_node) (nm : name) (value : Z) (s : state)
  : option (tree_node * state) :=
  match tree with
  | NULL => Some (leaf_make nm value s)
  | Node h left_ rite nm' value' =>
      let c := strcmp_ci nm nm' in
      if c =? 0 then Some (tree, set_error (tree_insert_duplicate nm) s)
      else if c =? -1 then
        let* (left_, s) := tree_insert left_ nm value s in
        let* tree := rebalance_left (Node h left_ rite nm' value') in
        Some (tree, s)
      else
        let* (rite, s) := tree_insert rite nm value s in
        let* tree := rebalance_rite (Node h left_ rite nm' value') in
        Some (tree, s)
  end.

(** [fuel] bounds the depth of the calls. *)
Fixpoint tree_build (fuel : nat) (high : Z) (names : list name) (value : Z) (s : state)
  : option (tree_node * state) :=
  if 1 <? high then
    match fuel with
    | O => None
    | S fuel =>
        let middle := high / 2 in
        let '(middle, s) :=
          if (high & 1) =? 0 then (middle - bias s, set_bias (1 - bias s) s) else (middle, s) in
        let next := middle + 1 in
        let* nm := nth_error names (Z.to_nat middle) in
        let '(tree, s) := leaf_make nm (value + middle)%UL s in
        match tree with
        | NULL => None
        | Node h _ _ nm value' =>
            let* (left_, s) := tree_build fuel middle names value s in
            let* (rite, s) := tree_build fuel (high - next) (skipn (Z.to_nat next) names) (value + next)%UL s in
            let* tree := update_height (Node h left_ rite nm value') in
            Some (tree, s)
        end
    end
  else if high =? 1 then
    let* nm := nth_error names 0 in
    Some (leaf_make nm value s)
  else Some (NULL, s).
End Allocating.

(** ** Comparing names *)

(** Names are compared by their upper case. *)
Definition upper (n : name) : name := map toupper n.

Fixpoint lex (a b : list Z) : Z :=
  match a, b with
  | [], [] => 0
  | [], _ :: _ => -1
  | _ :: _, [] => 1
  | x :: a, y :: b => if x <? y then -1 else if y <? x then 1 else lex a b
  end.

Lemma strcmp_lex a : forall b, strcmp_ci a b = lex (upper a) (upper b).
Proof. induction a as [|x a IH]; intros [|y b]; cbn; try reflexivity. now rewrite IH. Qed.

Lemma lex_cases a : forall b, lex a b = -1 \/ lex a b = 0 \/ lex a b = 1.
Proof. induction a as [|x a IH]; intros [|y b]; cbn; auto. destruct (x <? y), (y <? x); auto. Qed.

Lemma lex_eq a : forall b, lex a b = 0 <-> a = b.
Proof.
  induction a as [|x a IH]; intros [|y b]; cbn; try easy.
  destruct (Z.ltb_spec x y), (Z.ltb_spec y x); try lia.
  - split; [lia | intros E; injection E; lia].
  - split; [lia | intros E; injection E; lia].
  - rewrite IH. assert (x = y) as -> by lia. split; [now intros -> | intros E; now injection E].
Qed.

Lemma lex_opp a : forall b, lex b a = - lex a b.
Proof.
  induction a as [|x a IH]; intros [|y b]; cbn; try reflexivity.
  destruct (Z.ltb_spec x y), (Z.ltb_spec y x); try lia. apply IH.
Qed.

Lemma lex_trans a : forall b c, lex a b = -1 -> lex b c = -1 -> lex a c = -1.
Proof.
  induction a as [|x a IH]; intros [|y b] [|z c]; cbn; try lia.
  destruct (Z.ltb_spec x y), (Z.ltb_spec y x), (Z.ltb_spec y z), (Z.ltb_spec z y), (Z.ltb_spec x z),
    (Z.ltb_spec z x); try lia. apply IH.
Qed.

(** [lt_ci a b]: [a] comes before [b]. *)
Definition lt_ci (a b : name) : Prop := strcmp_ci a b = -1.

Lemma strcmp_cases a b : strcmp_ci a b = -1 \/ strcmp_ci a b = 0 \/ strcmp_ci a b = 1.
Proof. rewrite strcmp_lex. apply lex_cases. Qed.

Lemma strcmp_gt a b : strcmp_ci a b = 1 <-> lt_ci b a.
Proof. unfold lt_ci. rewrite !strcmp_lex, lex_opp. lia. Qed.

Lemma strcmp_refl a : strcmp_ci a a = 0.
Proof. rewrite strcmp_lex. now apply lex_eq. Qed.

Lemma lt_ci_trans a b c : lt_ci a b -> lt_ci b c -> lt_ci a c.
Proof. unfold lt_ci. rewrite !strcmp_lex. apply lex_trans. Qed.

(** Names that compare equal compare alike with all names. *)
Lemma strcmp_eq_l a b c : strcmp_ci a b = 0 -> strcmp_ci a c = strcmp_ci b c.
Proof. rewrite !strcmp_lex. intros E%lex_eq. now rewrite E. Qed.

Lemma strcmp_eq_sym a b : strcmp_ci a b = 0 -> strcmp_ci b a = 0.
Proof. rewrite !strcmp_lex, lex_opp. lia. Qed.

(** ** The map a tree stands for *)

(** The entries in order. *)
Fixpoint entries (t : tree_node) : list (name * Z) :=
  match t with
  | NULL => []
  | Node _ l r nm v => entries l ++ (nm, v) :: entries r
  end.

Definition names_of (es : list (name * Z)) : list name := map fst es.

Definition search_tree (t : tree_node) : Prop := StronglySorted lt_ci (names_of (entries t)).

(** Balance, with the heights that are stored. *)
Fixpoint balanced (t : tree_node) : Prop :=
  match t with
  | NULL => True
  | Node h l r _ _ =>
      h = 1 + Z.max (BRANCH_HEIGHT l) (BRANCH_HEIGHT r)
      /\ -1 <= BRANCH_HEIGHT l - BRANCH_HEIGHT r <= 1
      /\ balanced l /\ balanced r
  end.

(** Lookup in a list of entries. *)
Definition lookup (es : list (name * Z)) (nm : name) : option Z :=
  option_map snd (find (fun e => strcmp_ci nm (fst e) =? 0) es).

(** What a node found says. *)
Definition node_value (t : tree_node) : option Z :=
  match t with NULL => None | Node _ _ _ _ v => Some v end.

Lemma lookup_app es es' nm :
  lookup (es ++ es') nm = match lookup es nm with Some v => Some v | None => lookup es' nm end.
Proof.
  induction es as [|[k v] es IH]; [reflexivity |]. unfold lookup in *. cbn [app find fst].
  destruct (strcmp_ci nm k =? 0); [reflexivity | exact IH].
Qed.

Lemma lookup_cons k v es nm :
  lookup ((k, v) :: es) nm = if strcmp_ci nm k =? 0 then Some v else lookup es nm.
Proof. unfold lookup. cbn [find fst]. now destruct (strcmp_ci nm k =? 0). Qed.

Lemma lookup_equal es a b : strcmp_ci a b = 0 -> lookup es a = lookup es b.
Proof.
  intros E. unfold lookup. f_equal. induction es as [|e es IH]; [reflexivity |]. cbn [find].
  now rewrite (strcmp_eq_l a b (fst e) E), IH.
Qed.

(** A name below or above all the entries is not among them. *)
Lemma lookup_none es nm :
  Forall (fun k => strcmp_ci nm k <> 0) (names_of es) -> lookup es nm = None.
Proof.
  induction es as [|[k v] es IH]; intros H; [reflexivity |]. inversion_clear H as [|? ? Hk H'].
  rewrite lookup_cons. cbn [fst] in Hk. now rewrite (proj2 (Z.eqb_neq _ _) Hk), IH.
Qed.

Lemma sorted_split es k v es' :
  StronglySorted lt_ci (names_of (es ++ (k, v) :: es')) ->
  StronglySorted lt_ci (names_of es) /\ StronglySorted lt_ci (names_of es')
  /\ Forall (fun x => lt_ci x k) (names_of es) /\ Forall (lt_ci k) (names_of es').
Proof.
  induction es as [|[x w] es IH]; cbn [app names_of map fst]; intros H; inversion_clear H as [|? ? S F].
  - repeat split; auto; constructor.
  - destruct (IH S) as (S1 & S2 & F1 & F2). fold (names_of es) in *. fold (names_of (es ++ (k, v) :: es')) in F.
    unfold names_of in F at 1. rewrite map_app, Forall_app in F. destruct F as [Fa Fb].
    inversion_clear Fb as [|? ? Fk _]. repeat split; auto; constructor; auto.
Qed.

Lemma sorted_join es k v es' :
  StronglySorted lt_ci (names_of es) -> StronglySorted lt_ci (names_of es') ->
  Forall (fun x => lt_ci x k) (names_of es) -> Forall (lt_ci k) (names_of es') ->
  StronglySorted lt_ci (names_of (es ++ (k, v) :: es')).
Proof.
  induction es as [|[x w] es IH]; cbn [app names_of map fst]; intros S1 S2 F1 F2.
  - now constructor.
  - inversion_clear S1 as [|? ? S F]. inversion_clear F1 as [|? ? Fx F1']. constructor; [now apply IH |].
    rewrite map_app. apply Forall_app. split; [exact F |]. cbn [map fst]. constructor; [exact Fx |].
    eapply Forall_impl; [| exact F2]. intros y Hy. cbv beta in Hy. eapply lt_ci_trans; eassumption.
Qed.

(** A name that differs from [k] is looked for on one side of it only. *)
Lemma lookup_sides es k v es' nm :
  StronglySorted lt_ci (names_of (es ++ (k, v) :: es')) ->
  lookup (es ++ (k, v) :: es') nm
  = if strcmp_ci nm k =? 0 then Some v
    else if strcmp_ci nm k =? -1 then lookup es nm else lookup es' nm.
Proof.
  intros H. destruct (sorted_split es k v es' H) as (_ & _ & F1 & F2).
  rewrite lookup_app, lookup_cons. destruct (strcmp_cases nm k) as [E | [E | E]]; rewrite E; cbn [Z.eqb].
  - assert (N : lookup es' nm = None).
    { apply lookup_none. eapply Forall_impl; [| exact F2]. intros y Hy. cbv beta in Hy.
      pose proof (lt_ci_trans nm k y E Hy) as L. red in L. lia. }
    rewrite N. now destruct (lookup es nm).
  - rewrite lookup_none; [reflexivity |]. eapply Forall_impl; [| exact F1]. intros y Hy. cbv beta in Hy.
    rewrite (strcmp_eq_l nm k y E). apply strcmp_gt in Hy. lia.
  - rewrite lookup_none; [reflexivity |]. eapply Forall_impl; [| exact F1]. intros y Hy. cbv beta in Hy.
    apply strcmp_gt in E. pose proof (lt_ci_trans y k nm Hy E) as L. apply strcmp_gt in L. lia.
Qed.

Lemma tree_lookup_spec t nm : search_tree t -> node_value (tree_lookup t nm) = lookup (entries t) nm.
Proof.
  unfold search_tree. induction t as [|h l IHl r IHr k v]; intros H; [reflexivity |].
  cbn [entries tree_lookup] in *. rewrite lookup_sides by exact H.
  destruct (sorted_split _ _ _ _ H) as (Sl & Sr & _). cbv zeta.
  destruct (strcmp_ci nm k =? 0); [reflexivity |]. destruct (strcmp_ci nm k =? -1); auto.
Qed.

(** ** Balance *)

Lemma balanced_height t : balanced t -> 0 <= BRANCH_HEIGHT t.
Proof.
  induction t as [|h l IHl r IHr k v]; cbn [balanced BRANCH_HEIGHT]; [lia |].
  intros (-> & B & Bl & Br). specialize (IHl Bl). lia.
Qed.

(** Pose that the heights of the balanced trees at hand are not negative. *)
Ltac heights :=
  repeat match goal with
  | H : balanced ?t |- _ =>
      lazymatch goal with
      | _ : 0 <= BRANCH_HEIGHT t |- _ => fail
      | _ => pose proof (balanced_height t H)
      end
  end.

(** A tree as it comes back from an update that may have grown it. *)
Definition grown (h : Z) (es : list (name * Z)) (t : tree_node) : Prop :=
  balanced t /\ h <= BRANCH_HEIGHT t <= h + 1 /\ entries t = es.

Lemma rebalance_left_spec h l r k v hl :
  balanced l -> balanced r -> hl <= BRANCH_HEIGHT l <= hl + 1 ->
  h = 1 + Z.max hl (BRANCH_HEIGHT r) -> -1 <= hl - BRANCH_HEIGHT r <= 1 ->
  exists t, rebalance_left (Node h l r k v) = Some t /\ grown h (entries l ++ (k, v) :: entries r) t.
Proof.
  intros Bl Br Hl Hh Hb. unfold rebalance_left, grown. heights.
  destruct (Z.leb_spec (BRANCH_HEIGHT l) (1 + BRANCH_HEIGHT r)).
  { eexists. split; [reflexivity |]. cbn [balanced BRANCH_HEIGHT entries]. repeat split; auto; lia. }
  destruct l as [|h' ql qr k' v']; cbn [BRANCH_HEIGHT] in *; [lia |].
  destruct Bl as (Eh & Bq & Bql & Bqr). heights.
  destruct (Z.ltb_spec (BRANCH_HEIGHT ql) (BRANCH_HEIGHT qr)).
  - destruct qr as [|h'' b1 b2 k'' v'']; cbn [BRANCH_HEIGHT] in *; [lia |].
    destruct Bqr as (Eh' & Bq' & Bb1 & Bb2). heights.
    cbn [rotate_left update_height obind rotate_rite]. eexists. split; [reflexivity |].
    cbn [balanced BRANCH_HEIGHT entries]. rewrite <- !app_assoc. cbn [app]. rewrite <- !app_assoc.
    repeat split; auto; lia.
  - cbn [obind rotate_rite update_height]. eexists. split; [reflexivity |].
    cbn [balanced BRANCH_HEIGHT entries]. rewrite <- !app_assoc. cbn [app]. repeat split; auto; lia.
Qed.

Lemma rebalance_rite_spec h l r k v hr :
  balanced l -> balanced r -> hr <= BRANCH_HEIGHT r <= hr + 1 ->
  h = 1 + Z.max (BRANCH_HEIGHT l) hr -> -1 <= BRANCH_HEIGHT l - hr <= 1 ->
  exists t, rebalance_rite (Node h l r k v) = Some t /\ grown h (entries l ++ (k, v) :: entries r) t.
Proof.
  intros Bl Br Hl Hh Hb. unfold rebalance_rite, grown. heights.
  destruct (Z.leb_spec (BRANCH_HEIGHT r) (1 + BRANCH_HEIGHT l)).
  { eexists. split; [reflexivity |]. cbn [balanced BRANCH_HEIGHT entries]. repeat split; auto; lia. }
  destruct r as [|h' ql qr k' v']; cbn [BRANCH_HEIGHT] in *; [lia |].
  destruct Br as (Eh & Bq & Bql & Bqr). heights.
  destruct (Z.ltb_spec (BRANCH_HEIGHT qr) (BRANCH_HEIGHT ql)).
  - destruct ql as [|h'' b1 b2 k'' v'']; cbn [BRANCH_HEIGHT] in *; [lia |].
    destruct Bql as (Eh' & Bq' & Bb1 & Bb2). heights.
    cbn [rotate_rite update_height obind rotate_left]. eexists. split; [reflexivity |].
    cbn [balanced BRANCH_HEIGHT entries]. rewrite <- !app_assoc. cbn [app]. repeat split; auto; lia.
  - cbn [obind rotate_left update_height]. eexists. split; [reflexivity |].
    cbn [balanced BRANCH_HEIGHT entries]. rewrite <- !app_assoc. cbn [app]. repeat split; auto; lia.
Qed.

(** ** Insertion *)

(** Insertion into a list of entries. *)
Fixpoint list_insert (es : list (name * Z)) (nm : name) (v : Z) : list (name * Z) :=
  match es with
  | [] => [(nm, v)]
  | (k, w) :: es =>
      let c := strcmp_ci nm k in
      if c =? 0 then (k, w) :: es
      else if c =? -1 then (nm, v) :: (k, w) :: es
      else (k, w) :: list_insert es nm v
  end.

Lemma list_insert_below es es' nm v :
  Forall (fun k => lt_ci k nm) (names_of es) -> list_insert (es ++ es') nm v = es ++ list_insert es' nm v.
Proof.
  induction es as [|[k w] es IH]; intros F; [reflexivity |]. inversion_clear F as [|? ? Hk F'].
  cbn [fst] in Hk. apply strcmp_gt in Hk. cbn [app list_insert]. rewrite Hk. cbn [Z.eqb]. now rewrite IH.
Qed.

Lemma list_insert_above es k w es' nm v :
  strcmp_ci nm k = -1 -> list_insert (es ++ (k, w) :: es') nm v = list_insert es nm v ++ (k, w) :: es'.
Proof.
  intros E. induction es as [|[x y] es IH]; cbn [app list_insert].
  - now rewrite E.
  - cbv zeta. destruct (strcmp_ci nm x =? 0); [reflexivity |].
    destruct (strcmp_ci nm x =? -1); [reflexivity |]. now rewrite IH.
Qed.

Lemma list_insert_names es nm v (P : name -> Prop) :
  P nm -> Forall P (names_of es) -> Forall P (names_of (list_insert es nm v)).
Proof.
  intros Pn. induction es as [|[k w] es IH]; intros F; cbn [list_insert]; [constructor; [exact Pn | constructor] |].
  inversion_clear F as [|? ? Hk F']. cbv zeta.
  destruct (_ =? 0); [now constructor |]. destruct (_ =? -1); constructor; auto.
Qed.

Lemma list_insert_sorted es nm v :
  StronglySorted lt_ci (names_of es) -> StronglySorted lt_ci (names_of (list_insert es nm v)).
Proof.
  induction es as [|[k w] es IH]; intros H; cbn [list_insert]; [repeat constructor |].
  inversion_clear H as [|? ? S F]. cbv zeta. destruct (strcmp_cases nm k) as [E | [E | E]]; rewrite E; cbn [Z.eqb].
  - constructor; [now constructor |]. constructor; [exact E |].
    eapply Forall_impl; [| exact F]. intros y Hy. eapply lt_ci_trans; eassumption.
  - now constructor.
  - constructor; [now apply IH |]. apply list_insert_names; [now apply strcmp_gt | exact F].
Qed.

Lemma lookup_list_insert es nm v m :
  StronglySorted lt_ci (names_of es) ->
  lookup (list_insert es nm v) m
  = match lookup es m with Some w => Some w | None => if strcmp_ci m nm =? 0 then Some v else None end.
Proof.
  induction es as [|[k w] es IH]; intros H; cbn [list_insert].
  { rewrite lookup_cons. reflexivity. }
  inversion_clear H as [|? ? S F]. cbv zeta.
  destruct (Z.eqb_spec (strcmp_ci nm k) 0) as [E | N].
  { rewrite !lookup_cons. destruct (Z.eqb_spec (strcmp_ci m k) 0); [reflexivity |].
    destruct (lookup es m); [reflexivity |]. destruct (Z.eqb_spec (strcmp_ci m nm) 0) as [E' |]; [| reflexivity].
    pose proof (strcmp_eq_l m nm k E'). lia. }
  destruct (Z.eqb_spec (strcmp_ci nm k) (-1)) as [L | G].
  - rewrite (lookup_cons nm). destruct (Z.eqb_spec (strcmp_ci m nm) 0) as [E |].
    + rewrite lookup_none; [reflexivity |]. cbn [names_of map fst]. constructor.
      * rewrite (strcmp_eq_l m nm k E). lia.
      * eapply Forall_impl; [| exact F]. intros y Hy. cbv beta in Hy.
        pose proof (lt_ci_trans nm k y L Hy) as T. red in T. rewrite (strcmp_eq_l m nm y E). lia.
    + now destruct (lookup ((k, w) :: es) m).
  - rewrite !lookup_cons. destruct (strcmp_ci m k =? 0); [reflexivity |]. now apply IH.
Qed.

Section Inserting.
Variable malloc : nat -> bool.

(** Insertion, when [malloc] succeeds and when it does not. *)
Lemma tree_insert_spec nm v t : forall s,
  balanced t -> search_tree t ->
  exists t' s', tree_insert malloc t nm v s = Some (t', s')
    /\ match lookup (entries t) nm with
       | Some _ => t' = t /\ s' = set_error (tree_insert_duplicate nm) s
       | None =>
           s' = snd (leaf_make malloc nm v s)
           /\ grown (BRANCH_HEIGHT t)
                (if malloc (malloc_calls s) then list_insert (entries t) nm v else entries t) t'
       end.
Proof.
  unfold search_tree. induction t as [|h l IHl r IHr k w]; intros s B S.
  - cbn [tree_insert]. destruct (leaf_make malloc nm v s) as [t' s'] eqn:E. exists t', s'.
    split; [reflexivity |]. cbn [entries lookup find option_map]. split; [reflexivity |].
    unfold leaf_make in E. destruct (malloc (malloc_calls s)); injection E as <- <-; unfold grown;
      cbn [balanced BRANCH_HEIGHT entries list_insert app]; repeat split; lia.
  - cbn [tree_insert entries] in *. pose proof (lookup_sides _ _ _ _ nm S) as L. rewrite L.
    destruct (sorted_split _ _ _ _ S) as (Sl & Sr & Fl & Fr). cbn [balanced] in B.
    destruct B as (Eh & Bd & Bl & Br). cbv zeta.
    destruct (strcmp_cases nm k) as [E | [E | E]]; rewrite E; cbn [Z.eqb].
    + destruct (IHl s Bl Sl) as (l' & s' & -> & P). cbn [obind].
      destruct (lookup (entries l) nm).
      * destruct P as [-> ->].
        destruct (rebalance_left_spec h l r k w (BRANCH_HEIGHT l)) as (t' & E' & G); auto; [lia |].
        exists t', (set_error (tree_insert_duplicate nm) s). rewrite E'. split; [reflexivity |].
        split; [| reflexivity]. unfold rebalance_left in E'.
        destruct (Z.leb_spec (BRANCH_HEIGHT l) (1 + BRANCH_HEIGHT r)); [| lia].
        cbn [update_height] in E'. injection E' as <-. now rewrite Eh.
      * destruct P as [-> (Bl' & Hl' & El')].
        destruct (rebalance_left_spec h l' r k w (BRANCH_HEIGHT l)) as (t' & -> & G); auto.
        exists t', (snd (leaf_make malloc nm v s)). split; [reflexivity |]. split; [reflexivity |].
        cbn [BRANCH_HEIGHT]. rewrite El' in G. rewrite list_insert_above by exact E.
        now destruct (malloc (malloc_calls s)).
    + exists (Node h l r k w), (set_error (tree_insert_duplicate nm) s). auto.
    + assert (Fn : Forall (fun x => lt_ci x nm) (names_of (entries l))).
      { pose proof (proj1 (strcmp_gt nm k) E) as L'. eapply Forall_impl; [| exact Fl].
        intros y Hy. exact (lt_ci_trans y k nm Hy L'). }
      destruct (IHr s Br Sr) as (r' & s' & -> & P). cbn [obind].
      destruct (lookup (entries r) nm).
      * destruct P as [-> ->].
        destruct (rebalance_rite_spec h l r k w (BRANCH_HEIGHT r)) as (t' & E' & G); auto; [lia |].
        exists t', (set_error (tree_insert_duplicate nm) s). rewrite E'. split; [reflexivity |].
        split; [| reflexivity]. unfold rebalance_rite in E'.
        destruct (Z.leb_spec (BRANCH_HEIGHT r) (1 + BRANCH_HEIGHT l)); [| lia].
        cbn [update_height] in E'. injection E' as <-. now rewrite Eh.
      * destruct P as [-> (Br' & Hr' & Er')].
        destruct (rebalance_rite_spec h l r' k w (BRANCH_HEIGHT r)) as (t' & -> & G); auto.
        exists t', (snd (leaf_make malloc nm v s)). split; [reflexivity |]. split; [reflexivity |].
        cbn [BRANCH_HEIGHT]. rewrite Er' in G. rewrite list_insert_below by exact Fn.
        cbn [list_insert]. rewrite E. cbn [Z.eqb]. now destruct (malloc (malloc_calls s)).
Qed.
End Inserting.

(** ** Height *)

Fixpoint fib (n : nat) : Z :=
  match n with
  | O => 0
  | S m => match m with O => 1 | S k => fib m + fib k end
  end.

Lemma fib_SS n : fib (S (S n)) = fib (S n) + fib n.
Proof. reflexivity. Qed.

Lemma fib_nonneg n : 0 <= fib n /\ 0 <= fib (S n).
Proof. induction n as [|n [IH1 IH2]]; [cbn; lia |]. rewrite fib_SS. lia. Qed.

Lemma fib_mono m n : (m <= n)%nat -> (1 <= m)%nat -> fib m <= fib n.
Proof.
  intros H H1. induction H as [|n H IH]; [lia |]. destruct n as [|n]; [lia |]. rewrite fib_SS.
  pose proof (fib_nonneg n). lia.
Qed.

(** The least number of entries of a balanced tree grows with its height as
    the Fibonacci numbers do. *)
Lemma balanced_fib t :
  balanced t -> fib (Z.to_nat (BRANCH_HEIGHT t) + 2) <= Z.of_nat (length (entries t)) + 1.
Proof.
  induction t as [|h l IHl r IHr k v]; intros B; [cbn; lia |].
  cbn [balanced BRANCH_HEIGHT entries] in *. destruct B as (-> & Bd & Bl & Br). heights.
  specialize (IHl Bl). specialize (IHr Br). rewrite length_app. cbn [length].
  set (a := Z.to_nat (BRANCH_HEIGHT l)) in *. set (b := Z.to_nat (BRANCH_HEIGHT r)) in *.
  replace (Z.to_nat (1 + Z.max (BRANCH_HEIGHT l) (BRANCH_HEIGHT r)) + 2)%nat
    with (S (S (Nat.max a b + 1))) by lia.
  rewrite fib_SS. replace (S (Nat.max a b + 1)) with (Nat.max a b + 2)%nat by lia.
  destruct (Nat.max_spec a b) as [[L ->] | [L ->]].
  - pose proof (fib_mono (b + 1) (a + 2)). lia.
  - pose proof (fib_mono (a + 1) (b + 2)). lia.
Qed.

(** ** Building *)

(** The entries of a table of names numbered from [value]. *)
Fixpoint numbered (names : list name) (value : Z) : list (name * Z) :=
  match names with
  | [] => []
  | nm :: names => (nm, ulong value) :: numbered names (value + 1)
  end.

Lemma numbered_app ns ns' v : numbered (ns ++ ns') v = numbered ns v ++ numbered ns' (v + Z.of_nat (length ns)).
Proof.
  revert v. induction ns as [|n ns IH]; intros v; cbn [numbered app length].
  - change (Z.of_nat 0) with 0. now rewrite Z.add_0_r.
  - rewrite IH, Nat2Z.inj_succ. do 3 f_equal. lia.
Qed.

Lemma numbered_ulong ns : forall v w, ulong v = ulong w -> numbered ns v = numbered ns w.
Proof.
  induction ns as [|n ns IH]; intros v w E; cbn [numbered]; [reflexivity |].
  rewrite E. f_equal. apply IH. unfold ulong in *. rewrite Z.add_mod, E, <- Z.add_mod by lia. reflexivity.
Qed.

Lemma numbered_names ns v : names_of (numbered ns v) = ns.
Proof. revert v. induction ns as [|n ns IH]; intros v; cbn; [reflexivity |]. f_equal. apply IH. Qed.

Lemma lookup_numbered ns : forall v i,
  StronglySorted lt_ci ns -> (i < length ns)%nat -> lookup (numbered ns v) (nth i ns []) = Some (ulong (v + Z.of_nat i)).
Proof.
  induction ns as [|n ns IH]; intros v i S Hi; cbn [length] in Hi; [lia |].
  inversion_clear S as [|? ? S' F]. cbn [numbered nth]. rewrite lookup_cons. destruct i as [|i].
  - rewrite strcmp_refl. cbn [Z.eqb]. change (Z.of_nat 0) with 0. now rewrite Z.add_0_r.
  - assert (L : lt_ci n (nth i ns [])) by (apply (proj1 (Forall_forall _ _) F), nth_In; lia).
    apply strcmp_gt in L. rewrite L. cbn [Z.eqb]. rewrite IH by (auto; lia).
    rewrite Nat2Z.inj_succ. do 2 f_equal. lia.
Qed.

(** The number of bits of [n]: the height of a tree of [n] nodes. *)
Definition bits_of (n : Z) : Z := if n =? 0 then 0 else Z.log2 n + 1.

Lemma bits_of_half n : 1 <= n -> bits_of n = 1 + bits_of (n / 2).
Proof.
  intros Hn. unfold bits_of. rewrite (proj2 (Z.eqb_neq n 0)) by lia.
  destruct (Z.eqb_spec (n / 2) 0) as [E | N].
  - apply Z.div_small_iff in E; [| lia]. replace n with 1 by lia. reflexivity.
  - assert (0 <= n / 2) by (apply Z.div_pos; lia).
    pose proof (Z.div_mod n 2 ltac:(lia)) as D. pose proof (Z.mod_pos_bound n 2 ltac:(lia)).
    rewrite D at 1. destruct (Z.eqb_spec (n mod 2) 0) as [-> |].
    + rewrite Z.add_0_r, Z.log2_double by lia. lia.
    + replace (n mod 2) with 1 by lia. rewrite Z.log2_succ_double by lia. lia.
Qed.

Lemma bits_of_mono m n : 0 <= m <= n -> 0 <= bits_of m <= bits_of n.
Proof.
  intros H. unfold bits_of. pose proof (Z.log2_nonneg m). pose proof (Z.log2_le_mono m n ltac:(lia)).
  destruct (Z.eqb_spec m 0), (Z.eqb_spec n 0); lia.
Qed.

(** Halves that differ by one make a balanced node. *)
Lemma bits_of_balance high m n :
  1 < high -> m + n = high - 1 -> -1 <= m - n <= 1 ->
  bits_of high = 1 + Z.max (bits_of m) (bits_of n) /\ -1 <= bits_of m - bits_of n <= 1.
Proof.
  intros Hh E D.
  assert (X : forall x, 1 <= x -> bits_of x - 1 <= bits_of (x - 1) <= bits_of x).
  { intros x Hx. pose proof (bits_of_mono (x - 1) x ltac:(lia)). split; [| lia].
    destruct (Z.eqb_spec x 1) as [-> |]; [cbn; lia |]. rewrite bits_of_half by lia.
    pose proof (Z.div_le_upper_bound x 2 (x - 1) ltac:(lia) ltac:(lia)).
    pose proof (bits_of_mono (x / 2) (x - 1) ltac:(split; [apply Z.div_pos; lia | lia])). lia. }
  assert (M : high / 2 = Z.max m n).
  { symmetry. destruct (Z.eqb_spec m n); [apply (Z.div_unique_pos _ _ _ 1); lia |].
    apply (Z.div_unique_pos _ _ _ 0); lia. }
  rewrite bits_of_half, M by lia.
  destruct (Z.max_spec m n) as [[L ->] | [L ->]].
  - pose proof (X n ltac:(lia)). replace (n - 1) with m in * by lia. lia.
  - destruct (Z.eqb_spec m n) as [-> | N]; [lia |].
    pose proof (X m ltac:(lia)). replace (m - 1) with n in * by lia. lia.
Qed.

Lemma firstn_middle {A} (l : list A) m k x :
  nth_error l m = Some x -> firstn (m + S k) l = firstn m l ++ x :: firstn k (skipn (S m) l).
Proof.
  revert l. induction m as [|m IH]; intros [|y l] E; try discriminate; cbn in *.
  - now injection E as ->.
  - now rewrite (IH l E).
Qed.

Section Building.
Variable malloc : nat -> bool.
Hypothesis malloc_ok : forall n, malloc n = true.

Lemma tree_build_spec fuel : forall high names value s,
  0 <= high < 2 * 2 ^ Z.of_nat fuel -> high <= Z.of_nat (length names) -> is_ulong value ->
  0 <= bias s <= 1 ->
  exists t s', tree_build malloc fuel high names value s = Some (t, s')
    /\ tree_error_message s' = tree_error_message s /\ 0 <= bias s' <= 1
    /\ balanced t /\ BRANCH_HEIGHT t = bits_of high
    /\ entries t = numbered (firstn (Z.to_nat high) names) value.
Proof using malloc_ok.
  induction fuel as [|fuel IH]; intros high names value s Hh Hl Hv Hb; cbn [tree_build].
  all: destruct (Z.ltb_spec 1 high) as [L | L];
    [| destruct (Z.eqb_spec high 1) as [-> | N];
       [destruct names as [|nm names]; [cbn in Hl; lia |]; cbn [nth_error obind]; unfold leaf_make;
        rewrite malloc_ok; eexists _, _; split; [reflexivity |];
        change (Z.to_nat 1) with 1%nat;
        cbn [firstn numbered entries balanced BRANCH_HEIGHT tree_error_message bias app];
        rewrite ulong_small by exact Hv; repeat split; lia
       |replace high with 0 by lia; eexists _, _; split; [reflexivity |]; cbn; repeat split; lia]].
  - cbn in Hh. lia.
  - rewrite Nat2Z.inj_succ, Z.pow_succ_r in Hh by lia. cbv zeta.
    set (p := if (high & 1) =? 0 then _ else _).
    assert (Sp : exists m s1, p = (m, s1) /\ tree_error_message s1 = tree_error_message s
      /\ 0 <= bias s1 <= 1 /\ 0 <= m < high /\ -1 <= m - (high - (m + 1)) <= 1 /\ m < 2 * 2 ^ Z.of_nat fuel
      /\ high - (m + 1) < 2 * 2 ^ Z.of_nat fuel).
    { subst p. change 1 with (2 ^ 1 - 1) at 1. rewrite land_mask by lia. change (2 ^ 1) with 2.
      pose proof (Z.div_mod high 2 ltac:(lia)). pose proof (Z.mod_pos_bound high 2 ltac:(lia)).
      destruct (Z.eqb_spec (high mod 2) 0); eexists _, _; (split; [reflexivity |]);
        cbn [set_bias tree_error_message bias]; repeat split; lia. }
    destruct Sp as (m & s1 & -> & Em & Hb1 & Hm & Hd & Hf1 & Hf2).
    destruct (nth_error names (Z.to_nat m)) as [nm|] eqn:En; [| apply nth_error_None in En; lia].
    cbn [obind]. unfold leaf_make. rewrite malloc_ok. set (s2 := mk_state _ _ _).
    destruct (IH m names value s2) as (l & s3 & -> & E3 & B3 & Bl & Hl' & El); [lia | lia | exact Hv | exact Hb1 |].
    cbn [obind].
    destruct (IH (high - (m + 1)) (skipn (Z.to_nat (m + 1)) names) (value + (m + 1))%UL s3)
      as (r & s4 & -> & E4 & B4 & Br & Hr & Er); [lia | rewrite length_skipn; lia | apply ulong_range | exact B3 |].
    cbn [obind update_height]. eexists _, s4. split; [reflexivity |].
    split; [rewrite E4, E3; exact Em |]. split; [exact B4 |].
    destruct (bits_of_balance high m (high - (m + 1)) L ltac:(lia) Hd) as [Eb Bb].
    cbn [balanced BRANCH_HEIGHT entries]. rewrite Hl', Hr.
    split; [split; [reflexivity | split; [exact Bb | split; assumption]] |].
    split; [symmetry; exact Eb |].
    rewrite El, Er. replace (Z.to_nat high) with (Z.to_nat m + S (Z.to_nat (high - (m + 1))))%nat by lia.
    rewrite (firstn_middle names _ _ nm En). replace (S (Z.to_nat m)) with (Z.to_nat (m + 1)) by lia.
    rewrite numbered_app, length_firstn, Nat.min_l, Z2Nat.id by lia. cbn [numbered].
    do 2 f_equal. apply numbered_ulong. unfold ulong. rewrite Z.mod_mod by lia. f_equal. lia.
Qed.
End Building.

(** ** Properties *)

(** C35: insertion into the table of names.  On a balanced search tree
    [tree_insert] never dereferences a null pointer and returns a balanced
    search tree that is at most one level higher and in which the new name has
    the new value and every other name, up to case, what it had; a name that is
    already there, or a [malloc] that fails, leaves the tree's entries alone
    and sets the error message.  The number of entries of a balanced tree
    bounds its height by the Fibonacci numbers, so lookups are logarithmic. *)
Theorem tree_insert_correct malloc t nm v s :
  balanced t -> search_tree t ->
  fib (Z.to_nat (BRANCH_HEIGHT t) + 2) <= Z.of_nat (length (entries t)) + 1
  /\ exists t' s', tree_insert malloc t nm v s = Some (t', s')
    /\ balanced t' /\ search_tree t' /\ BRANCH_HEIGHT t <= BRANCH_HEIGHT t' <= BRANCH_HEIGHT t + 1
    /\ (forall m, node_value (tree_lookup t' m)
          = match node_value (tree_lookup t m) with
            | Some w => Some w
            | None => if (strcmp_ci m nm =? 0) && malloc (malloc_calls s) then Some v else None
            end)
    /\ match tree_lookup t nm with
       | Node _ _ _ _ _ => t' = t /\ tree_error_message s' = Some (tree_insert_duplicate nm)
       | NULL => tree_error_message s'
           = if malloc (malloc_calls s) then tree_error_message s else Some leaf_make_malloc_failed
       end.
Proof.
  intros B S. split; [now apply balanced_fib |].
  destruct (tree_insert_spec malloc nm v t s B S) as (t' & s' & E & P). exists t', s'. split; [exact E |].
  pose proof (tree_lookup_spec t nm S) as L.
  destruct (lookup (entries t) nm) as [w|] eqn:Lk.
  - destruct P as [-> ->]. split; [exact B |]. split; [exact S |]. split; [lia |]. split.
    + intros m. destruct (node_value (tree_lookup t m)) eqn:Lm; [reflexivity |].
      destruct (Z.eqb_spec (strcmp_ci m nm) 0) as [Em |]; [| reflexivity]. exfalso.
      rewrite tree_lookup_spec in Lm by exact S.
      rewrite (lookup_equal _ m nm Em) in Lm. congruence.
    + destruct (tree_lookup t nm); [discriminate | auto].
  - destruct P as [-> (B' & H' & E')].
    assert (S' : search_tree t').
    { unfold search_tree. rewrite E'. destruct (malloc _); [now apply list_insert_sorted | exact S]. }
    split; [exact B' |]. split; [exact S' |]. split; [exact H' |]. split.
    + intros m. rewrite !tree_lookup_spec by assumption. rewrite E'.
      destruct (malloc (malloc_calls s)).
      * rewrite lookup_list_insert by exact S. rewrite andb_true_r. reflexivity.
      * rewrite andb_false_r. now destruct (lookup (entries t) m).
    + destruct (tree_lookup t nm); [| discriminate]. unfold leaf_make.
      now destruct (malloc (malloc_calls s)).
Qed.

(** building the table.  From names in strictly increasing order up to
    case, and when no [malloc] fails, [tree_build] ends within the fuel given
    and makes a balanced search tree of the least possible height in which the
    [i]-th name is found with the value [value + i], whatever its case, and no
    other name is found. *)
Theorem tree_build_correct malloc high names value s :
  (forall n, malloc n = true) -> 0 <= high < 2 ^ 64 -> high <= Z.of_nat (length names) ->
  is_ulong value -> 0 <= bias s <= 1 -> StronglySorted lt_ci (firstn (Z.to_nat high) names) ->
  exists t s', tree_build malloc 64 high names value s = Some (t, s')
    /\ tree_error_message s' = tree_error_message s /\ 0 <= bias s' <= 1
    /\ balanced t /\ search_tree t /\ high < 2 ^ BRANCH_HEIGHT t <= 2 * high + 1
    /\ (forall i nm, (i < Z.to_nat high)%nat -> strcmp_ci nm (nth i names []) = 0 ->
          node_value (tree_lookup t nm) = Some (value + Z.of_nat i)%UL)
    /\ (forall nm, (forall i, (i < Z.to_nat high)%nat -> strcmp_ci nm (nth i names []) <> 0) ->
          tree_lookup t nm = NULL).
Proof.
  intros Ok Hh Hl Hv Hb S.
  destruct (tree_build_spec malloc Ok 64 high names value s) as (t & s' & E & Em & Hb' & B & Ht & Ee); auto.
  { change (2 * 2 ^ Z.of_nat 64) with (2 ^ 65). lia. }
  assert (St : search_tree t) by (unfold search_tree; rewrite Ee, numbered_names; exact S).
  exists t, s'. do 4 (split; [assumption |]). split; [exact St |].
  assert (Nth : forall i, (i < Z.to_nat high)%nat ->
    nth i (firstn (Z.to_nat high) names) [] = nth i names []).
  { intros i Hi. rewrite nth_firstn. destruct (Nat.ltb_spec i (Z.to_nat high)); [reflexivity | lia]. }
  split; [| split].
  - rewrite Ht. unfold bits_of. destruct (Z.eqb_spec high 0) as [-> | N]; [cbn; lia |].
    pose proof (Z.log2_spec high ltac:(lia)) as [L1 L2]. pose proof (Z.log2_nonneg high).
    rewrite Z.pow_succ_r in L2 by lia. rewrite Z.pow_add_r by lia. lia.
  - intros i nm Hi Ec. rewrite tree_lookup_spec by exact St.
    rewrite (lookup_equal _ nm _ Ec), Ee, <- Nth by exact Hi. apply lookup_numbered; [exact S |].
    rewrite length_firstn. lia.
  - intros nm Hn. pose proof (tree_lookup_spec t nm St) as L. rewrite lookup_none in L.
    + now destruct (tree_lookup t nm).
    + rewrite Ee, numbered_names. apply Forall_forall. intros k Hk.
      apply (In_nth _ _ []) in Hk as (i & Hi & <-). rewrite length_firstn in Hi.
      rewrite Nth by lia. apply Hn. lia.
Qed.

Lemma tree_insert_correct_witness :
  exists t' s', tree_insert (fun _ => true) (Node 1 NULL NULL [98] 7) [65] 8 (mk_state 0 None 0) = Some (t', s')
    /\ balanced t' /\ search_tree t'.
Proof.
  destruct (tree_insert_correct (fun _ => true) (Node 1 NULL NULL [98] 7) [65] 8 (mk_state 0 None 0))
    as (_ & t' & s' & E & B & S & _).
  - cbn. lia.
  - unfold search_tree. cbn. repeat constructor.
  - exists t', s'. split; [exact E |]. split; [exact B | exact S].
Defined.

Lemma tree_build_correct_witness :
  exists t s', tree_build (fun _ => true) 64 2 [[65]; [98]] 0 (mk_state 0 None 0) = Some (t, s')
    /\ node_value (tree_lookup t [66]) = Some 1.
Proof.
  destruct (tree_build_correct (fun _ => true) 2 [[65]; [98]] 0 (mk_state 0 None 0))
    as (t & s' & E & _ & _ & _ & _ & _ & L & _);
    [reflexivity | lia | cbn; lia | split; (reflexivity || discriminate) | cbn; lia | repeat constructor |].
  exists t, s'. split; [exact E |]. apply (L 1%nat [66]); [cbn; lia | reflexivity].
Defined.

(** ** Where the code goes wrong *)

(** [tree_build] uses the node that [leaf_make] returns without checking that
    [malloc] gave one. *)
Theorem tree_build_dereferences_null :
  tree_build (fun _ => false) 64 2 [[65]; [66]] 0 (mk_state 0 None 0) = None.
Proof. reflexivity. Qed.
