(* ===== verification/Gc.v ===== *)
(** * The garbage collector (src/src/microcode/gcloop.c, gc.h, gccode.h)

    A one-space copying collector: objects are copied from fromspace into a
    temporary tospace while pointers are updated to where tospace will be
    copied at the end, newspace.  This file has the collector's data, the
    operations on tospace, the handlers of the table, the scan loop, and the
    extra passes for ephemerons and weak pairs.

    The configuration is the one without compiled code ([CC_SUPPORT_P] not
    defined), without [ENABLE_GC_DEBUGGING_TOOLS], and with the heap not in
    low memory, so that an object's datum is the distance of its address from
    [memory_base] in words.  An address counts words; 0 is the null pointer.
    [fuel] bounds every loop; running out of it is the outcome [Out_of_fuel],
    which no run of the program has. *)

From Stdlib Require Import ZArith List Lia Bool.
From S2P Require Import Prelude.
From S2P Require Import Object.
From S2P Require Import Memory.
Import ListNotations.

(** ** Type codes (types.h) and constants *)

Notation TC_LIST := 1.
Notation TC_BIG_FLONUM := 6.
Notation TC_VECTOR := 10.
Notation TC_MANIFEST_CLOSURE := 13.
Notation TC_HUNK3_A := 32.
Notation TC_BROKEN_HEART := 34.
Notation TC_EPHEMERON := 43.
Notation TC_REFERENCE_TRAP := 50.
Notation TC_WEAK_CONS := 55.
Notation TC_LINKAGE_SECTION := 57.
Notation TC_COMPILED_CODE_BLOCK := 61.
Notation UNMARKED_HISTORY_TYPE := TC_HUNK3_A.
Notation N_TYPE_CODES := 64.
Notation TRAP_MAX_IMMEDIATE := 9.
Notation CONS_CDR := 1.

Notation EPHEMERON_KEY := 1.
Notation EPHEMERON_DATUM := 2.
Notation EPHEMERON_LIST := 3.
Notation EPHEMERON_NEXT := 4.
Notation EPHEMERON_SIZE := 5.

Definition MARKED_EPHEMERON_MANIFEST : Z := MAKE_OBJECT TC_MANIFEST_VECTOR (EPHEMERON_SIZE - 1).
Definition UNMARKED_EPHEMERON_MANIFEST : Z :=
  MAKE_OBJECT TC_MANIFEST_NM_VECTOR (EPHEMERON_SIZE - 1).

Definition BROKEN_HEART_P (object : Z) : bool := OBJECT_TYPE object =? TC_BROKEN_HEART.
Definition EPHEMERON_P (object : Z) : bool := OBJECT_TYPE object =? TC_EPHEMERON.
Definition REFERENCE_TRAP_P (object : Z) : bool := OBJECT_TYPE object =? TC_REFERENCE_TRAP.

Definition OBJECT_NEW_TYPE (type datum_object : Z) : Z := MAKE_OBJECT type (OBJECT_DATUM datum_object).
Definition OBJECT_NEW_DATUM (type_object datum : Z) : Z := MAKE_OBJECT (OBJECT_TYPE type_object) datum.
Definition MAKE_OBJECT_FROM_OBJECTS (type_object datum_object : Z) : Z :=
  MAKE_OBJECT (OBJECT_TYPE type_object) (OBJECT_DATUM datum_object).

(** ** How the collector sees each type code *)

Inductive gc_type_t :=
  | GC_COMPILED | GC_VECTOR | GC_SPECIAL | GC_UNDEFINED | GC_NON_POINTER
  | GC_CELL | GC_PAIR | GC_TRIPLE | GC_QUADRUPLE.

Inductive gc_ptr_type_t := GC_POINTER_NORMAL | GC_POINTER_COMPILED | GC_POINTER_NOT.

Definition gc_type_map : list gc_type_t := [
  GC_NON_POINTER; GC_PAIR; GC_NON_POINTER; GC_PAIR;
  GC_UNDEFINED; GC_PAIR; GC_VECTOR; GC_UNDEFINED;
  GC_NON_POINTER; GC_PAIR; GC_VECTOR; GC_NON_POINTER;
  GC_UNDEFINED; GC_SPECIAL; GC_VECTOR; GC_PAIR;
  GC_PAIR; GC_PAIR; GC_VECTOR; GC_PAIR;
  GC_TRIPLE; GC_PAIR; GC_VECTOR; GC_PAIR;
  GC_NON_POINTER; GC_PAIR; GC_NON_POINTER; GC_VECTOR;
  GC_VECTOR; GC_PAIR; GC_VECTOR; GC_PAIR;
  GC_TRIPLE; GC_PAIR; GC_SPECIAL; GC_PAIR;
  GC_TRIPLE; GC_PAIR; GC_VECTOR; GC_SPECIAL;
  GC_COMPILED; GC_PAIR; GC_UNDEFINED; GC_VECTOR;
  GC_TRIPLE; GC_NON_POINTER; GC_PAIR; GC_VECTOR;
  GC_UNDEFINED; GC_VECTOR; GC_SPECIAL; GC_VECTOR;
  GC_TRIPLE; GC_PAIR; GC_CELL; GC_PAIR;
  GC_QUADRUPLE; GC_SPECIAL; GC_PAIR; GC_NON_POINTER;
  GC_PAIR; GC_VECTOR; GC_VECTOR; GC_UNDEFINED ].

Definition gc_type_code (type_code : Z) : gc_type_t :=
  nth (Z.to_nat type_code) gc_type_map GC_UNDEFINED.

Definition GC_TYPE (object : Z) : gc_type_t := gc_type_code (OBJECT_TYPE object).

Definition gc_ptr_type (object : Z) : gc_ptr_type_t :=
  match GC_TYPE object with
  | GC_SPECIAL =>
      if REFERENCE_TRAP_P object && (TRAP_MAX_IMMEDIATE <=? OBJECT_DATUM object)
      then GC_POINTER_NORMAL else GC_POINTER_NOT
  | GC_CELL | GC_PAIR | GC_TRIPLE | GC_QUADRUPLE | GC_VECTOR => GC_POINTER_NORMAL
  | GC_COMPILED => GC_POINTER_COMPILED
  | GC_UNDEFINED | GC_NON_POINTER => GC_POINTER_NOT
  end.

(** The handlers, by name; the table is what [initialize_gc_table]
    fills in.  [None] is the call of [std_gc_death] for an unknown special
    type. *)
Inductive gc_handler_t :=
  | gc_handle_non_pointer | gc_handle_cell | gc_handle_pair | gc_handle_triple
  | gc_handle_quadruple | gc_handle_weak_pair | gc_handle_ephemeron | gc_handle_cc_entry
  | gc_handle_aligned_vector | gc_handle_unaligned_vector | gc_handle_broken_heart
  | gc_handle_nmv | gc_handle_reference_trap | gc_handle_linkage_section
  | gc_handle_manifest_closure | gc_handle_undefined.

Definition special_handler (i : Z) : option gc_handler_t :=
  if i =? TC_BROKEN_HEART then Some gc_handle_broken_heart
  else if i =? TC_REFERENCE_TRAP then Some gc_handle_reference_trap
  else if i =? TC_LINKAGE_SECTION then Some gc_handle_linkage_section
  else if i =? TC_MANIFEST_CLOSURE then Some gc_handle_manifest_closure
  else if i =? TC_MANIFEST_NM_VECTOR then Some gc_handle_nmv
  else None.

Definition initialize_gc_table (i : Z) : option gc_handler_t :=
  if i =? TC_WEAK_CONS then Some gc_handle_weak_pair
  else if i =? TC_EPHEMERON then Some gc_handle_ephemeron
  else if i =? TC_BIG_FLONUM then Some gc_handle_aligned_vector
  else if i =? TC_COMPILED_CODE_BLOCK then Some gc_handle_aligned_vector
  else
    match gc_type_code i with
    | GC_NON_POINTER => Some gc_handle_non_pointer
    | GC_CELL => Some gc_handle_cell
    | GC_PAIR => Some gc_handle_pair
    | GC_TRIPLE => Some gc_handle_triple
    | GC_QUADRUPLE => Some gc_handle_quadruple
    | GC_VECTOR => Some gc_handle_unaligned_vector
    | GC_COMPILED => Some gc_handle_cc_entry
    | GC_UNDEFINED => Some gc_handle_undefined
    | GC_SPECIAL => special_handler i
    end.

(** ** The collector's state

    What does not change between [open_tospace] and the end of a collection:
    where the spaces are ([*p_fromspace_start] is [heap_start] and
    [*p_fromspace_end] is [Free]) and the hash table of ephemerons. *)
Record layout := mk_layout {
  memory_base : Z;
  fromspace_start : Z;
  fromspace_end : Z;
  tospace_start : Z;
  tospace_end : Z;
  newspace_start : Z;
  newspace_end : Z;
  ephemeron_array : Z
}.

Record gc_state := mk_gc {
  gmem : memory;
  tospace_next : Z;
  newspace_next : Z;
  weak_chain : Z;
  ephemeron_list : Z;
  ephemeron_queue : Z;
  ephemeron_count : Z;
  scanning_ephemerons_p : bool
}.

Definition set_gmem (s : gc_state) (m : memory) : gc_state :=
  mk_gc m (tospace_next s) (newspace_next s) (weak_chain s) (ephemeron_list s)
    (ephemeron_queue s) (ephemeron_count s) (scanning_ephemerons_p s).
Definition set_next (s : gc_state) (tnext nnext : Z) : gc_state :=
  mk_gc (gmem s) tnext nnext (weak_chain s) (ephemeron_list s)
    (ephemeron_queue s) (ephemeron_count s) (scanning_ephemerons_p s).
Definition set_weak_chain (s : gc_state) (w : Z) : gc_state :=
  mk_gc (gmem s) (tospace_next s) (newspace_next s) w (ephemeron_list s)
    (ephemeron_queue s) (ephemeron_count s) (scanning_ephemerons_p s).
Definition set_ephemeron_list (s : gc_state) (o : Z) : gc_state :=
  mk_gc (gmem s) (tospace_next s) (newspace_next s) (weak_chain s) o
    (ephemeron_queue s) (ephemeron_count s) (scanning_ephemerons_p s).
Definition set_ephemeron_queue (s : gc_state) (o : Z) : gc_state :=
  mk_gc (gmem s) (tospace_next s) (newspace_next s) (weak_chain s) (ephemeron_list s)
    o (ephemeron_count s) (scanning_ephemerons_p s).
Definition set_ephemeron_count (s : gc_state) (n : Z) : gc_state :=
  mk_gc (gmem s) (tospace_next s) (newspace_next s) (weak_chain s) (ephemeron_list s)
    (ephemeron_queue s) n (scanning_ephemerons_p s).
Definition set_scanning (s : gc_state) (b : bool) : gc_state :=
  mk_gc (gmem s) (tospace_next s) (newspace_next s) (weak_chain s) (ephemeron_list s)
    (ephemeron_queue s) (ephemeron_count s) b.

(** ** The monad: state, and the exits of [std_gc_death] *)

Inductive gc_death :=
  | broken_heart_in_scan (object : Z)
  | gc_no_cc_support
  | gc_bad_type (object : Z)
  | non_pointer_weak_reference
  | unknown_special_type (type : Z)
  | tospace_closed
  | tospace_open.

Inductive outcome (A : Type) :=
  | Done (a : A) (s : gc_state)
  | std_gc_death (d : gc_death)
  | Out_of_fuel.
Arguments Done {A}.
Arguments std_gc_death {A}.
Arguments Out_of_fuel {A}.

Definition gc (A : Type) : Type := gc_state -> outcome A.

Definition ret {A} (a : A) : gc A := fun s => Done a s.
Definition die {A} (d : gc_death) : gc A := fun _ => std_gc_death d.
Definition out_of_fuel {A} : gc A := fun _ => Out_of_fuel.
Definition gbind {A B} (e : gc A) (k : A -> gc B) : gc B := fun s =>
  match e s with
  | Done a s' => k a s'
  | std_gc_death d => std_gc_death d
  | Out_of_fuel => Out_of_fuel
  end.
Definition get : gc gc_state := fun s => Done s s.
Definition put (s : gc_state) : gc unit := fun _ => Done tt s.
Definition modify (f : gc_state -> gc_state) : gc unit := fun s => Done tt (f s).

Declare Scope gc_scope.
Delimit Scope gc_scope with gc.
Notation "x <- e ;; k" := (gbind e (fun x => k))
  (at level 61, e at next level, right associativity) : gc_scope.
Notation "e ;; k" := (gbind e (fun _ => k)) (at level 61, right associativity) : gc_scope.

(** [*a] and [*a = v] *)
Definition read (a : Z) : gc Z := fun s => Done (gmem s a) s.
Definition write (a v : Z) : gc unit := modify (fun s => set_gmem s (store (gmem s) a v)).

(** ** Addresses and objects *)

Section Collector.
Local Open Scope gc_scope.
Variable L : layout.
Variable fuel : nat.

Definition DATUM_TO_ADDRESS (datum : Z) : Z := datum + memory_base L.
Definition ADDRESS_TO_DATUM (address : Z) : Z := ulong (address - memory_base L).
Definition OBJECT_ADDRESS (object : Z) : Z := DATUM_TO_ADDRESS (OBJECT_DATUM object).
Definition MAKE_POINTER_OBJECT (type address : Z) : Z := MAKE_OBJECT type (ADDRESS_TO_DATUM address).
Definition OBJECT_NEW_ADDRESS (object address : Z) : Z :=
  OBJECT_NEW_DATUM object (ADDRESS_TO_DATUM address).
Definition MAKE_BROKEN_HEART (address : Z) : Z := MAKE_POINTER_OBJECT TC_BROKEN_HEART address.

Definition ADDRESS_IN_FROMSPACE_P (addr : Z) : bool :=
  (fromspace_start L <=? addr) && (addr <? fromspace_end L).
Definition TOSPACE_TO_NEWSPACE (p : Z) : Z := p - tospace_start L + newspace_start L.
Definition NEWSPACE_TO_TOSPACE (p : Z) : Z := p - newspace_start L + tospace_start L.
Definition READ_TOSPACE (addr : Z) : gc Z := read (NEWSPACE_TO_TOSPACE addr).
Definition WRITE_TOSPACE (addr obj : Z) : gc unit := write (NEWSPACE_TO_TOSPACE addr) obj.

Definition GUARANTEE_TOSPACE_OPEN : gc unit :=
  s <- get ;; if tospace_next s =? 0 then die tospace_closed else ret tt.
Definition GUARANTEE_TOSPACE_CLOSED : gc unit :=
  s <- get ;; if negb (tospace_next s =? 0) then die tospace_open else ret tt.

(** The word size in bytes and [FLOATING_ALIGNMENT], which is 0 on a machine
    that does not define it. *)
Notation SIZEOF_SCHEME_OBJECT := 8.
Notation FLOATING_ALIGNMENT := 0.
Definition FLOATING_ALIGNED_P (ptr : Z) : bool :=
  ((SIZEOF_SCHEME_OBJECT * (ptr + 1)) & FLOATING_ALIGNMENT) =? 0.

(** ** Operations on tospace *)

(** [*tospace_next++ = object; newspace_next += 1] *)
Definition push_tospace (object : Z) : gc unit :=
  s <- get ;;
  write (tospace_next s) object ;;
  modify (fun s => set_next s (tospace_next s + 1) (newspace_next s + 1)).

Definition tospace_available_p (n_words : Z) : gc bool :=
  GUARANTEE_TOSPACE_OPEN ;;
  s <- get ;; ret (n_words <=? tospace_end L - tospace_next s).

Definition add_to_tospace (object : Z) : gc unit := GUARANTEE_TOSPACE_OPEN ;; push_tospace object.

Definition read_tospace (addr : Z) : gc Z := GUARANTEE_TOSPACE_OPEN ;; READ_TOSPACE addr.

Definition write_tospace (addr object : Z) : gc unit :=
  GUARANTEE_TOSPACE_OPEN ;; WRITE_TOSPACE addr object.

Definition increment_tospace_ptr (n_words : Z) : gc unit :=
  GUARANTEE_TOSPACE_OPEN ;;
  modify (fun s => set_next s (tospace_next s + n_words) (newspace_next s + n_words)).

Definition get_newspace_ptr : gc Z := s <- get ;; ret (newspace_next s).

Definition tospace_to_newspace (addr : Z) : Z :=
  if (tospace_start L <=? addr) && (addr <=? tospace_end L)
  then addr - tospace_start L + newspace_start L else addr.

Definition newspace_to_tospace (addr : Z) : Z :=
  if (newspace_start L <=? addr) && (addr <=? newspace_end L)
  then addr - newspace_start L + tospace_start L else addr.

(** [proc] is applied to the bounds of what tospace holds.  [CLOSE_TOSPACE]
    also clears the bounds of newspace, which nothing reads until the next
    [open_tospace]. *)
Definition save_tospace (proc : Z -> Z -> gc bool) : gc bool :=
  GUARANTEE_TOSPACE_OPEN ;;
  s <- get ;;
  ok <- proc (tospace_start L) (tospace_next s) ;;
  modify (fun s => set_next s 0 0) ;;
  ret ok.

Definition discard_tospace : gc unit :=
  GUARANTEE_TOSPACE_OPEN ;; modify (fun s => set_next s 0 0).

(** ** Weak references *)

Definition weak_referent_address (object : Z) : gc Z :=
  match gc_ptr_type object with
  | GC_POINTER_NORMAL => ret (OBJECT_ADDRESS object)
  | GC_POINTER_COMPILED => die gc_no_cc_support
  | GC_POINTER_NOT => ret 0
  end.

Definition weak_referent_forward (object : Z) : gc Z :=
  match gc_ptr_type object with
  | GC_POINTER_NORMAL =>
      w <- read (OBJECT_ADDRESS object) ;;
      ret (if BROKEN_HEART_P w then MAKE_OBJECT_FROM_OBJECTS object w else SHARP_F)
  | GC_POINTER_COMPILED => die gc_no_cc_support
  | GC_POINTER_NOT => die non_pointer_weak_reference
  end.

(** The hash table of ephemerons is a Scheme vector. *)
Definition ephemeron_array_length : gc Z :=
  w <- read (OBJECT_ADDRESS (ephemeron_array L)) ;; ret (OBJECT_DATUM w).
Definition ephemeron_bucket (addr : Z) : gc Z :=
  n <- ephemeron_array_length ;;
  ret (OBJECT_ADDRESS (ephemeron_array L) + ((SIZEOF_SCHEME_OBJECT * addr) mod n + 1)).

(** The walk along a bucket from [entry_loc]. *)
Fixpoint queue_ephemerons_loop (n : nat) (addr entry_loc : Z) : gc unit :=
  match n with
  | O => out_of_fuel
  | S n =>
      entry <- read entry_loc ;;
      if EPHEMERON_P entry then
        let entry_addr := OBJECT_ADDRESS entry in
        let next_loc := NEWSPACE_TO_TOSPACE (entry_addr + EPHEMERON_NEXT) in
        key <- READ_TOSPACE (entry_addr + EPHEMERON_KEY) ;;
        key_addr <- weak_referent_address key ;;
        (if addr =? key_addr then
           next <- read next_loc ;;
           write entry_loc next ;;
           s <- get ;;
           write next_loc (ephemeron_queue s) ;;
           modify (fun s => set_ephemeron_queue s entry)
         else ret tt) ;;
        queue_ephemerons_loop n addr next_loc
      else ret tt
  end.

Definition queue_ephemerons_for_key (addr : Z) : gc unit :=
  entry_loc <- ephemeron_bucket addr ;; queue_ephemerons_loop fuel addr entry_loc.

(** ** Forwarding and transport *)

Definition gc_precheck_from (from : Z) : gc Z :=
  if negb (ADDRESS_IN_FROMSPACE_P from) then ret from
  else
    w <- read from ;;
    if BROKEN_HEART_P w then ret (OBJECT_ADDRESS w)
    else
      s <- get ;;
      (if scanning_ephemerons_p s then queue_ephemerons_for_key from else ret tt) ;;
      ret 0.

Fixpoint align_newspace (n : nat) : gc unit :=
  match n with
  | O => out_of_fuel
  | S n =>
      s <- get ;;
      if negb (FLOATING_ALIGNED_P (newspace_next s))
      then push_tospace (MAKE_OBJECT TC_MANIFEST_NM_VECTOR 0) ;; align_newspace n
      else ret tt
  end.

(** The copy loop of [gc_transport_words], [n] words. *)
Fixpoint transport_loop (n : nat) (from : Z) : gc unit :=
  match n with
  | O => ret tt
  | S n => w <- read from ;; push_tospace w ;; transport_loop n (from + 1)
  end.

Definition gc_transport_words (from n_words : Z) (align_p : bool) : gc Z :=
  GUARANTEE_TOSPACE_OPEN ;;
  (if align_p then align_newspace fuel else ret tt) ;;
  s <- get ;;
  let new_address := newspace_next s in
  transport_loop (Z.to_nat n_words) from ;;
  write from (MAKE_BROKEN_HEART new_address) ;;
  ret new_address.

(** The entries of a table that does not transport (fasload.c). *)
Definition gc_precheck_from_no_transport (from : Z) : gc Z := ret from.
Definition gc_no_transport_words (from n_words : Z) (align_p : bool) : gc Z := die tospace_closed.

(** The loop of [gc_tuple] that transports the cdrs of a list eagerly. *)
Fixpoint transport_cdrs (n : nat) (cdr : Z) : gc unit :=
  match n with
  | O => out_of_fuel
  | S n =>
      if OBJECT_TYPE cdr =? TC_LIST then
        p <- gc_precheck_from (OBJECT_ADDRESS cdr) ;;
        if p =? 0 then
          new_address <- gc_transport_words (OBJECT_ADDRESS cdr) 2 false ;;
          cdr <- READ_TOSPACE (new_address + CONS_CDR) ;;
          transport_cdrs n cdr
        else ret tt
      else ret tt
  end.

Definition gc_tuple (tuple n_words : Z) : gc Z :=
  let from := OBJECT_ADDRESS tuple in
  new_address <- gc_precheck_from from ;;
  new_address <-
    (if new_address =? 0 then
       new_address <- gc_transport_words from n_words false ;;
       (if n_words =? 2 then
          cdr <- READ_TOSPACE (new_address + CONS_CDR) ;; transport_cdrs fuel cdr
        else ret tt) ;;
       ret new_address
     else ret new_address) ;;
  ret (OBJECT_NEW_ADDRESS tuple new_address).

Definition gc_vector (vector : Z) (align_p : bool) : gc Z :=
  let from := OBJECT_ADDRESS vector in
  new_address <- gc_precheck_from from ;;
  new_address <-
    (if negb (new_address =? 0) then ret new_address
     else w <- read from ;; gc_transport_words from (1 + OBJECT_DATUM w) align_p) ;;
  ret (OBJECT_NEW_ADDRESS vector new_address).

(** [NULL == 0] for [weak_chain]. *)
Definition gc_transport_weak_pair (pair : Z) : gc Z :=
  let old_addr := OBJECT_ADDRESS pair in
  new_addr <- gc_transport_words old_addr 2 false ;;
  old_car <- READ_TOSPACE new_addr ;;
  caddr <- weak_referent_address old_car ;;
  (if negb (caddr =? 0) && ADDRESS_IN_FROMSPACE_P caddr then
     WRITE_TOSPACE new_addr (OBJECT_NEW_TYPE TC_FALSE old_car) ;;
     s <- get ;;
     write (old_addr + 1)
       (if weak_chain s =? 0 then MAKE_OBJECT (OBJECT_TYPE old_car) 0
        else MAKE_POINTER_OBJECT (OBJECT_TYPE old_car) (weak_chain s)) ;;
     modify (fun s => set_weak_chain s old_addr)
   else ret tt) ;;
  ret (OBJECT_NEW_ADDRESS pair new_addr).

Definition gc_transport_ephemeron (old_ephemeron : Z) : gc Z :=
  let old_addr := OBJECT_ADDRESS old_ephemeron in
  new_addr <- gc_transport_words old_addr EPHEMERON_SIZE false ;;
  let new_ephemeron := OBJECT_NEW_ADDRESS old_ephemeron new_addr in
  old_key <- READ_TOSPACE (new_addr + EPHEMERON_KEY) ;;
  old_key_addr <- weak_referent_address old_key ;;
  modify (fun s => set_ephemeron_count s (ephemeron_count s + 1)) ;;
  live <-
    (if (old_key_addr =? 0) || negb (ADDRESS_IN_FROMSPACE_P old_key_addr) then ret true
     else o <- weak_referent_forward old_key ;; ret (negb (SHARP_F =? o))) ;;
  if live then
    WRITE_TOSPACE new_addr MARKED_EPHEMERON_MANIFEST ;; ret new_ephemeron
  else
    WRITE_TOSPACE new_addr UNMARKED_EPHEMERON_MANIFEST ;;
    bucket <- ephemeron_bucket old_key_addr ;;
    entry <- read bucket ;;
    WRITE_TOSPACE (new_addr + EPHEMERON_NEXT) entry ;;
    write bucket new_ephemeron ;;
    s <- get ;;
    WRITE_TOSPACE (new_addr + EPHEMERON_LIST) (ephemeron_list s) ;;
    modify (fun s => set_ephemeron_list s new_ephemeron) ;;
    ret new_ephemeron.

(** ** The handlers: from the address of an object and the object itself to
    the next address to scan *)

Definition handle_tuple (scan object n_words : Z) : gc Z :=
  o <- gc_tuple object n_words ;; write scan o ;; ret (scan + 1).
Definition handle_vector (scan object : Z) (align_p : bool) : gc Z :=
  o <- gc_vector object align_p ;; write scan o ;; ret (scan + 1).
Definition handle_chained (transport : Z -> gc Z) (scan object : Z) : gc Z :=
  new_address <- gc_precheck_from (OBJECT_ADDRESS object) ;;
  o <- (if negb (new_address =? 0) then ret (OBJECT_NEW_ADDRESS object new_address)
        else transport object) ;;
  write scan o ;;
  ret (scan + 1).

Definition gc_handle (h : gc_handler_t) (scan object : Z) : gc Z :=
  match h with
  | gc_handle_non_pointer => ret (scan + 1)
  | gc_handle_cell => handle_tuple scan object 1
  | gc_handle_pair => handle_tuple scan object 2
  | gc_handle_triple => handle_tuple scan object 3
  | gc_handle_quadruple => handle_tuple scan object 4
  | gc_handle_weak_pair => handle_chained gc_transport_weak_pair scan object
  | gc_handle_ephemeron => handle_chained gc_transport_ephemeron scan object
  | gc_handle_cc_entry => die gc_no_cc_support
  | gc_handle_aligned_vector => handle_vector scan object true
  | gc_handle_unaligned_vector => handle_vector scan object false
  | gc_handle_broken_heart => die (broken_heart_in_scan object)
  | gc_handle_nmv => ret (scan + 1 + OBJECT_DATUM object)
  | gc_handle_reference_trap =>
      if OBJECT_DATUM object <=? TRAP_MAX_IMMEDIATE
      then write scan object ;; ret (scan + 1)
      else handle_tuple scan object 2
  | gc_handle_linkage_section => die gc_no_cc_support
  | gc_handle_manifest_closure => die gc_no_cc_support
  | gc_handle_undefined => die (gc_bad_type object)
  end.

Definition scan_object (scan object : Z) : gc Z :=
  match initialize_gc_table (OBJECT_TYPE object) with
  | Some h => gc_handle h scan object
  | None => die (unknown_special_type (OBJECT_TYPE object))
  end.

(** [pend] is read again after every object: [&tospace_next] moves. *)
Fixpoint run_gc_loop (n : nat) (scan : Z) (pend : gc_state -> Z) : gc unit :=
  match n with
  | O => out_of_fuel
  | S n =>
      s <- get ;;
      if scan <? pend s then
        object <- read scan ;;
        scan <- scan_object scan object ;;
        run_gc_loop n scan pend
      else ret tt
  end.

Definition gc_scan_oldspace (scan end_ : Z) : gc unit := run_gc_loop fuel scan (fun _ => end_).

Definition gc_scan_tospace (scan end_ : Z) : gc unit :=
  if end_ =? 0 then run_gc_loop fuel (NEWSPACE_TO_TOSPACE scan) tospace_next
  else run_gc_loop fuel (NEWSPACE_TO_TOSPACE scan) (fun _ => NEWSPACE_TO_TOSPACE end_).

(** ** Ephemerons and weak pairs after the scan *)

Definition scan_newspace_addr (addr : Z) : gc unit :=
  let scan := NEWSPACE_TO_TOSPACE addr in
  object <- read scan ;; _ <- scan_object scan object ;; ret tt.

Fixpoint scan_ephemeron_list (n : nat) (ephemeron : Z) : gc unit :=
  match n with
  | O => out_of_fuel
  | S n =>
      if EPHEMERON_P ephemeron then
        let ephemeron_addr := OBJECT_ADDRESS ephemeron in
        old_key <- READ_TOSPACE (ephemeron_addr + EPHEMERON_KEY) ;;
        next <- READ_TOSPACE (ephemeron_addr + EPHEMERON_LIST) ;;
        o <- weak_referent_forward old_key ;;
        (if negb (SHARP_F =? o)
         then a <- weak_referent_address old_key ;; queue_ephemerons_for_key a
         else ret tt) ;;
        scan_ephemeron_list n next
      else ret tt
  end.

Fixpoint scan_ephemeron_queue (n : nat) : gc unit :=
  match n with
  | O => out_of_fuel
  | S n =>
      s <- get ;;
      let ephemeron := ephemeron_queue s in
      if EPHEMERON_P ephemeron then
        let ephemeron_addr := OBJECT_ADDRESS ephemeron in
        next <- READ_TOSPACE (ephemeron_addr + EPHEMERON_NEXT) ;;
        modify (fun s => set_ephemeron_queue s next) ;;
        saved_newspace_next <- get_newspace_ptr ;;
        scan_newspace_addr (ephemeron_addr + EPHEMERON_DATUM) ;;
        gc_scan_tospace saved_newspace_next 0 ;;
        scan_ephemeron_queue n
      else ret tt
  end.

Definition scan_ephemerons : gc unit :=
  s <- get ;;
  let ephemeron := ephemeron_list s in
  modify (fun s => set_scanning s true) ;;
  scan_ephemeron_list fuel ephemeron ;;
  scan_ephemeron_queue fuel ;;
  modify (fun s => set_scanning s false).

Definition initialize_weak_chain : gc unit := modify (fun s => set_weak_chain s 0).

Fixpoint update_ephemerons_loop (n : nat) (ephemeron : Z) : gc unit :=
  match n with
  | O => out_of_fuel
  | S n =>
      if EPHEMERON_P ephemeron then
        let ephemeron_addr := OBJECT_ADDRESS ephemeron in
        let key_loc := ephemeron_addr + EPHEMERON_KEY in
        old_key <- READ_TOSPACE key_loc ;;
        new_key <- weak_referent_forward old_key ;;
        WRITE_TOSPACE ephemeron_addr MARKED_EPHEMERON_MANIFEST ;;
        WRITE_TOSPACE key_loc new_key ;;
        next <- READ_TOSPACE (ephemeron_addr + EPHEMERON_LIST) ;;
        WRITE_TOSPACE (ephemeron_addr + EPHEMERON_LIST) SHARP_F ;;
        WRITE_TOSPACE (ephemeron_addr + EPHEMERON_NEXT) SHARP_F ;;
        (if new_key =? SHARP_F
         then WRITE_TOSPACE (ephemeron_addr + EPHEMERON_DATUM) SHARP_F else ret tt) ;;
        update_ephemerons_loop n next
      else ret tt
  end.

Definition update_ephemerons : gc unit :=
  s <- get ;;
  update_ephemerons_loop fuel (ephemeron_list s) ;;
  modify (fun s => set_ephemeron_list s SHARP_F).

Fixpoint update_weak_pairs_loop (n : nat) : gc unit :=
  match n with
  | O => out_of_fuel
  | S n =>
      s <- get ;;
      let chain := weak_chain s in
      if negb (chain =? 0) then
        heart <- read chain ;;
        let new_addr := OBJECT_ADDRESS heart in
        obj <- read (chain + 1) ;;
        w <- READ_TOSPACE new_addr ;;
        let old_car := OBJECT_NEW_TYPE (OBJECT_TYPE obj) w in
        new_car <- weak_referent_forward old_car ;;
        WRITE_TOSPACE new_addr new_car ;;
        modify (fun s => set_weak_chain s (if OBJECT_DATUM obj =? 0 then 0 else OBJECT_ADDRESS obj)) ;;
        update_weak_pairs_loop n
      else ret tt
  end.

Definition update_weak_pairs : gc unit := update_weak_pairs_loop fuel.

Definition update_weak_pointers : gc unit :=
  scan_ephemerons ;; update_ephemerons ;; update_weak_pairs.

End Collector.
