(* ===== verification/GcSpec.v ===== *)
(** * What the garbage collector must do (for Gc.v)

    Heaps as the collector sees them: blocks in fromspace, the words of a
    block that are scanned, the objects that are live, and what it means that
    a list of words is the scanned copy of another.  Then the invariant of a
    collection and what the basic steps do to it. *)

From Stdlib Require Import ZArith List Lia Bool.
From S2P Require Import Prelude.
From S2P Require Import Object.
From S2P Require Import Memory.
From S2P Require Import Gc.
Import ListNotations.

(** ** Words in a row *)

Fixpoint words_at (m : memory) (a : Z) (n : nat) : list Z :=
  match n with O => [] | S n => m a :: words_at m (a + 1) n end.

Lemma words_at_length m n : forall a, length (words_at m a n) = n.
Proof. induction n; intros; cbn [words_at length]; auto. Qed.

Lemma words_at_ext m m' n : forall a b,
  (forall i, 0 <= i < Z.of_nat n -> m (a + i) = m' (b + i)) -> words_at m a n = words_at m' b n.
Proof.
  induction n as [|n IH]; intros a b H; [reflexivity |]. cbn [words_at]. f_equal.
  - specialize (H 0 ltac:(lia)). now rewrite !Z.add_0_r in H.
  - apply IH. intros i Hi. specialize (H (i + 1) ltac:(lia)).
    replace (a + 1 + i) with (a + (i + 1)) by lia. replace (b + 1 + i) with (b + (i + 1)) by lia.
    exact H.
Qed.

Lemma words_at_app m n k : forall a,
  words_at m a (n + k) = words_at m a n ++ words_at m (a + Z.of_nat n) k.
Proof.
  induction n as [|n IH]; intros a.
  - cbn [Nat.add words_at app]. now rewrite Z.add_0_r.
  - cbn [Nat.add words_at app]. rewrite IH.
    now replace (a + 1 + Z.of_nat n) with (a + Z.of_nat (S n)) by lia.
Qed.

(** A row of words is known when its list is. *)
Lemma words_at_inv m n : forall a b m',
  words_at m a n = words_at m' b n -> forall i, 0 <= i < Z.of_nat n -> m (a + i) = m' (b + i).
Proof.
  induction n as [|n IH]; intros a b m' H i Hi; [lia |]. cbn [words_at] in H. injection H as H0 H.
  destruct (Z.eq_dec i 0) as [-> | N]; [now rewrite !Z.add_0_r |].
  specialize (IH _ _ _ H (i - 1) ltac:(lia)).
  now replace (a + 1 + (i - 1)) with (a + i) in IH by lia;
    replace (b + 1 + (i - 1)) with (b + i) in IH by lia.
Qed.

(** ** Objects *)

(** The kinds of blocks, and the block an object refers to, by its handler. *)
Inductive block_kind := Tuple (n : Z) | Vector | Weak_pair | Ephemeron.

Definition reference (o : Z) : option block_kind :=
  match initialize_gc_table (OBJECT_TYPE o) with
  | Some gc_handle_cell => Some (Tuple 1)
  | Some gc_handle_pair => Some (Tuple 2)
  | Some gc_handle_triple => Some (Tuple 3)
  | Some gc_handle_quadruple => Some (Tuple 4)
  | Some gc_handle_aligned_vector | Some gc_handle_unaligned_vector => Some Vector
  | Some gc_handle_weak_pair => Some Weak_pair
  | Some gc_handle_ephemeron => Some Ephemeron
  | Some gc_handle_reference_trap =>
      if OBJECT_DATUM o <=? TRAP_MAX_IMMEDIATE then None else Some (Tuple 2)
  | _ => None
  end.

(** Objects that may occur in a live block: no compiled code, no undefined
    type codes, no manifests or broken hearts. *)
Definition plain (o : Z) : bool :=
  match initialize_gc_table (OBJECT_TYPE o) with
  | Some gc_handle_non_pointer | Some gc_handle_cell | Some gc_handle_pair
  | Some gc_handle_triple | Some gc_handle_quadruple | Some gc_handle_weak_pair
  | Some gc_handle_aligned_vector | Some gc_handle_unaligned_vector
  | Some gc_handle_reference_trap => true
  | _ => false
  end.

Definition NMV_P (o : Z) : bool := OBJECT_TYPE o =? TC_MANIFEST_NM_VECTOR.

(** ** Scanning a list of words *)

(** Every word that the scan loop looks at satisfies [P]; the words after a
    non-marked manifest are skipped. *)
Inductive scannable (P : Z -> Prop) : list Z -> Prop :=
  | scannable_nil : scannable P []
  | scannable_word w ws : P w -> NMV_P w = false -> scannable P ws -> scannable P (w :: ws)
  | scannable_nmv w skipped ws :
      NMV_P w = true -> OBJECT_DATUM w = Z.of_nat (length skipped) ->
      scannable P ws -> scannable P (w :: skipped ++ ws).

(** [v] is one of the words that the scan loop looks at. *)
Inductive scans (v : Z) : list Z -> Prop :=
  | scans_here ws : NMV_P v = false -> scans v (v :: ws)
  | scans_later w ws : NMV_P w = false -> scans v ws -> scans v (w :: ws)
  | scans_skip w skipped ws :
      NMV_P w = true -> OBJECT_DATUM w = Z.of_nat (length skipped) ->
      scans v ws -> scans v (w :: skipped ++ ws).

(** [ws'] is [ws] with every word looked at changed by [R]. *)
Inductive scanned (R : Z -> Z -> Prop) : list Z -> list Z -> Prop :=
  | scanned_nil : scanned R [] []
  | scanned_word w w' ws ws' :
      NMV_P w = false -> R w w' -> scanned R ws ws' -> scanned R (w :: ws) (w' :: ws')
  | scanned_nmv w skipped ws ws' :
      NMV_P w = true -> OBJECT_DATUM w = Z.of_nat (length skipped) ->
      scanned R ws ws' -> scanned R (w :: skipped ++ ws) (w :: skipped ++ ws').

Lemma scannable_app P a b : scannable P a -> scannable P b -> scannable P (a ++ b).
Proof.
  intros Ha Hb. induction Ha; cbn [app]; [exact Hb | now constructor |].
  rewrite <- app_assoc. now constructor.
Qed.

Lemma scannable_concat P l : Forall (scannable P) l -> scannable P (concat l).
Proof. induction 1; cbn [concat]; [constructor | now apply scannable_app]. Qed.

Lemma scannable_and (P Q : Z -> Prop) ws :
  scannable P ws -> (forall v, scans v ws -> Q v) -> scannable (fun v => P v /\ Q v) ws.
Proof.
  induction 1; intros HQ; [constructor | |].
  - constructor; [split; [assumption | apply HQ; now constructor] | assumption |].
    apply IHscannable. intros v Hv. apply HQ. now constructor.
  - constructor; [assumption .. |]. apply IHscannable. intros v Hv. apply HQ. now constructor.
Qed.

Lemma scannable_weaken (P Q : Z -> Prop) ws :
  (forall v, P v -> Q v) -> scannable P ws -> scannable Q ws.
Proof. intros H. induction 1; constructor; solve [auto]. Qed.

Lemma scanned_app R a a' b b' : scanned R a a' -> scanned R b b' -> scanned R (a ++ b) (a' ++ b').
Proof.
  intros Ha Hb. induction Ha; cbn [app]; [exact Hb | now constructor |].
  rewrite <- !app_assoc. now constructor.
Qed.

Lemma scanned_weaken (R S : Z -> Z -> Prop) ws ws' :
  (forall v v', R v v' -> S v v') -> scanned R ws ws' -> scanned S ws ws'.
Proof. intros H. induction 1; constructor; solve [auto]. Qed.

Lemma scanned_length R ws ws' : scanned R ws ws' -> length ws' = length ws.
Proof. induction 1; cbn [length]; rewrite ?length_app; congruence. Qed.

Lemma app_inj_length {A} (a b c d : list A) :
  a ++ b = c ++ d -> length a = length c -> a = c /\ b = d.
Proof.
  revert c. induction a as [|x a IH]; intros [|y c] H E; try discriminate; [auto |].
  cbn [app length] in *. injection H as -> H. injection E as E.
  destruct (IH c H E) as [-> ->]. auto.
Qed.

(** A scan of two rows is a scan of each. *)
Lemma scanned_app_inv R P a : scannable P a -> forall b c, scanned R (a ++ b) c ->
  exists a' b', c = a' ++ b' /\ scanned R a a' /\ scanned R b b'.
Proof.
  induction 1 as [| w ws Hw N Hs IH | w sk ws N D Hs IH]; intros b c H.
  - exists [], c. repeat split; [constructor | exact H].
  - cbn [app] in H. inversion H; subst; [| congruence].
    destruct (IH _ _ H5) as (a' & b' & -> & Ha & Hb).
    exists (w' :: a'), b'. repeat split; [now constructor | exact Hb].
  - cbn [app] in H. inversion H; subst; [congruence |].
    rewrite <- app_assoc in H1.
    assert (E : skipped = sk /\ ws0 = ws ++ b) by (apply app_inj_length; [exact H1 | lia]).
    destruct E as [-> ->]. destruct (IH _ _ H5) as (a' & b' & -> & Ha & Hb).
    exists (w :: sk ++ a'), b'. split; [cbn [app]; now rewrite app_assoc |].
    split; [now constructor | exact Hb].
Qed.

(** ** Facts on objects *)

Lemma type_range o : is_ulong o -> 0 <= OBJECT_TYPE o < 64.
Proof.
  intros H. red in H. rewrite OBJECT_TYPE_div.
  split; [apply Z.div_pos; lia | apply Z.div_lt_upper_bound; lia].
Qed.

Lemma object_parts o : is_ulong o -> MAKE_OBJECT (OBJECT_TYPE o) (OBJECT_DATUM o) = o.
Proof.
  intros H. pose proof (type_range o H). rewrite OBJECT_DATUM_mod.
  rewrite MAKE_OBJECT_add by (try apply mod58; lia). rewrite OBJECT_TYPE_div.
  pose proof (Z.div_mod o (2 ^ 58) ltac:(lia)). lia.
Qed.

Lemma MAKE_OBJECT_ulong type datum :
  0 <= type < 64 -> 0 <= datum < 2 ^ 58 -> is_ulong (MAKE_OBJECT type datum).
Proof. intros Ht Hd. rewrite MAKE_OBJECT_add by assumption. red. lia. Qed.

(** The handler of a type code agrees with [gc_ptr_type]; reference traps are
    the exception. *)
Definition handler_agrees (t : Z) : bool :=
  (t =? TC_REFERENCE_TRAP) ||
  match initialize_gc_table t, gc_type_code t with
  | Some gc_handle_non_pointer, GC_NON_POINTER => true
  | Some gc_handle_cell, GC_CELL
  | Some gc_handle_pair, GC_PAIR
  | Some gc_handle_weak_pair, GC_PAIR
  | Some gc_handle_triple, GC_TRIPLE
  | Some gc_handle_quadruple, GC_QUADRUPLE
  | Some gc_handle_aligned_vector, GC_VECTOR
  | Some gc_handle_unaligned_vector, GC_VECTOR
  | Some gc_handle_ephemeron, GC_VECTOR => true
  | Some (gc_handle_cc_entry | gc_handle_broken_heart | gc_handle_nmv
         | gc_handle_linkage_section | gc_handle_manifest_closure | gc_handle_undefined), _ => true
  | _, _ => false
  end.

Lemma handlers_agree t : 0 <= t < 64 -> handler_agrees t = true.
Proof.
  intros Ht.
  assert (H : forallb handler_agrees (map Z.of_nat (seq 0 64)) = true) by reflexivity.
  rewrite forallb_forall in H. apply H, in_map_iff.
  exists (Z.to_nat t). split; [lia | apply in_seq; lia].
Qed.

(** What the type code of a plain object says to [gc_ptr_type]. *)
Lemma plain_ptr_type o :
  is_ulong o -> plain o = true ->
  match gc_ptr_type o with
  | GC_POINTER_NORMAL => reference o <> None \/ OBJECT_DATUM o = TRAP_MAX_IMMEDIATE
  | GC_POINTER_COMPILED => False
  | GC_POINTER_NOT => reference o = None
  end.
Proof.
  intros H. pose proof (handlers_agree _ (type_range o H)) as A. revert A.
  unfold handler_agrees, plain, gc_ptr_type, reference, GC_TYPE, REFERENCE_TRAP_P.
  destruct (Z.eqb_spec (OBJECT_TYPE o) TC_REFERENCE_TRAP) as [-> | N]; cbn [orb].
  - intros _ _. change (initialize_gc_table TC_REFERENCE_TRAP) with (Some gc_handle_reference_trap).
    change (gc_type_code TC_REFERENCE_TRAP) with GC_SPECIAL. cbn [andb].
    destruct (Z.leb_spec TRAP_MAX_IMMEDIATE (OBJECT_DATUM o)),
      (Z.leb_spec (OBJECT_DATUM o) TRAP_MAX_IMMEDIATE); auto; [right; lia | left; discriminate | lia].
  - destruct (initialize_gc_table (OBJECT_TYPE o)) as [[]|], (gc_type_code (OBJECT_TYPE o));
      intros A P; try discriminate; auto; left; discriminate.
Qed.

Lemma plain_not_nmv o : is_ulong o -> plain o = true -> NMV_P o = false /\ BROKEN_HEART_P o = false.
Proof.
  intros H. unfold plain, NMV_P, BROKEN_HEART_P.
  destruct (Z.eqb_spec (OBJECT_TYPE o) TC_MANIFEST_NM_VECTOR) as [-> | _]; [discriminate |].
  destruct (Z.eqb_spec (OBJECT_TYPE o) TC_BROKEN_HEART) as [-> | _]; [discriminate | auto].
Qed.

Lemma reference_size o n : reference o = Some (Tuple n) -> 1 <= n <= 4.
Proof.
  unfold reference. destruct (initialize_gc_table _) as [[]|]; try discriminate;
    try (intros [= <-]; lia). destruct (_ <=? _); [discriminate |]. intros [= <-]. lia.
Qed.

(** ** Well-formed layouts and heaps *)

Section Heap.
Variable L : layout.

(** Words that [std_gc_pt1] puts into tospace before any block. *)
Notation n_roots := 2.

(** The memory block holds the stack, constants and heap; its addresses fit
    in a datum.  Tospace is elsewhere and is big enough for fromspace and the
    [n_roots] words; the heap has room for them too. *)
Record wf_layout : Prop := {
  wl_base : 0 < memory_base L;
  wl_from : memory_base L + TRAP_MAX_IMMEDIATE < fromspace_start L <= fromspace_end L;
  wl_from_end : fromspace_end L <= memory_base L + 2 ^ 58;
  wl_new : memory_base L <= newspace_start L;
  wl_new_end : newspace_start L + n_roots + (fromspace_end L - fromspace_start L)
               <= memory_base L + 2 ^ 58;
  wl_to : 0 < tospace_start L;
  wl_room : tospace_start L + n_roots + (fromspace_end L - fromspace_start L) <= tospace_end L;
  wl_apart : tospace_end L <= memory_base L \/ fromspace_end L + n_roots <= tospace_start L
}.

Definition in_from (a : Z) : Prop := fromspace_start L <= a < fromspace_end L.

Lemma in_from_P a : ADDRESS_IN_FROMSPACE_P L a = true <-> in_from a.
Proof. unfold ADDRESS_IN_FROMSPACE_P, in_from. rewrite andb_true_iff, Z.leb_le, Z.ltb_lt. reflexivity. Qed.

(** The block in fromspace that an object refers to. *)
Definition points (o : Z) : option (Z * block_kind) :=
  match reference o with
  | Some k => if ADDRESS_IN_FROMSPACE_P L (OBJECT_ADDRESS L o)
              then Some (OBJECT_ADDRESS L o, k) else None
  | None => None
  end.

Variable m0 : memory.
(** The blocks of the heap: which addresses start one, and of which kind. *)
Variable blk : Z -> option block_kind.

Definition block_size (k : block_kind) (a : Z) : Z :=
  match k with
  | Tuple n => n
  | Vector => 1 + OBJECT_DATUM (m0 a)
  | Weak_pair => 2
  | Ephemeron => EPHEMERON_SIZE
  end.

Definition block_words (k : block_kind) (a : Z) : list Z :=
  words_at m0 a (Z.to_nat (block_size k a)).

(** An object that refers to a block of the right kind, if to any. *)
Definition good (o : Z) : Prop :=
  is_ulong o /\ plain o = true /\ forall a k, points o = Some (a, k) -> blk a = Some k.

(** A vector may contain non-marked sections, other blocks may not.
    Ephemerons are not covered. *)
Definition wf_block (k : block_kind) (a : Z) : Prop :=
  match k with
  | Vector => scannable good (block_words k a)
  | Tuple _ | Weak_pair => Forall good (block_words k a)
  | Ephemeron => False
  end.

Record wf_heap : Prop := {
  wh_words : words m0;
  wh_inside : forall a k, blk a = Some k ->
    fromspace_start L <= a /\ 0 < block_size k a /\ a + block_size k a <= fromspace_end L;
  wh_disjoint : forall a b k k', blk a = Some k -> blk b = Some k' -> a <> b ->
    a + block_size k a <= b \/ b + block_size k' b <= a;
  wh_contents : forall a k, blk a = Some k -> wf_block k a
}.

(** What is copied for a block: of a weak pair whose car refers to fromspace
    the car only as a non-pointer. *)
Definition neutral (o : Z) : Z :=
  match points o with Some _ => OBJECT_NEW_TYPE TC_FALSE o | None => o end.
Definition transported (k : block_kind) (a : Z) : list Z :=
  match k with
  | Weak_pair => [neutral (m0 a); m0 (a + 1)]
  | _ => block_words k a
  end.

(** The live objects: those the roots hold and those that a live block holds
    strongly. *)
Inductive live (root : Z -> Prop) : Z -> Prop :=
  | live_root o : root o -> live root o
  | live_field o a k w :
      live root o -> points o = Some (a, k) -> scans w (transported k a) -> live root w.

(** [o'] is [o] with its address forwarded by [new]. *)
Definition forwarded (new : Z -> option Z) (o o' : Z) : Prop :=
  match points o with
  | Some (a, _) => exists p, new a = Some p /\ o' = OBJECT_NEW_ADDRESS L o p
  | None => o' = o
  end.

End Heap.

(** The collector's two views of a reference trap with datum 9: the scan
    leaves it as it is, a weak reference takes it as a pointer. *)
Example trap_9_pointer L fuel s :
  let trap := MAKE_OBJECT TC_REFERENCE_TRAP TRAP_MAX_IMMEDIATE in
  gc_ptr_type trap = GC_POINTER_NORMAL
  /\ scan_object L fuel 7 trap s = Done 8 (set_gmem s (store (gmem s) 7 trap)).
Proof. split; reflexivity. Qed.
