(* ===== verification/GcInv.v ===== *)
(** * The invariant of a collection (for Gc.v)

    The blocks copied so far, in the order of their copies, where each copy
    is, what the collection has changed in memory, and what the basic steps
    [gc_precheck_from], [gc_transport_words], [gc_tuple], [gc_vector] and
    [gc_transport_weak_pair] do to all this. *)

From Stdlib Require Import ZArith List Lia Bool FinFun.
From S2P Require Import Prelude.
From S2P Require Import Object.
From S2P Require Import Memory.
From S2P Require Import Gc.
From S2P Require Import GcSpec.
Import ListNotations.

Notation n_roots := 2.

(** ** Rows of addresses *)

Definition addresses (a n : Z) : list Z := map (fun i => a + Z.of_nat i) (seq 0 (Z.to_nat n)).

Lemma In_addresses a n x : In x (addresses a n) <-> a <= x < a + n.
Proof.
  unfold addresses. rewrite in_map_iff. split.
  - intros (i & <- & Hi%in_seq). lia.
  - intros H. exists (Z.to_nat (x - a)). rewrite in_seq. lia.
Qed.

Lemma NoDup_addresses a n : NoDup (addresses a n).
Proof.
  unfold addresses. apply Injective_map_NoDup; [| apply seq_NoDup].
  intros i j H. lia.
Qed.

Lemma length_addresses a n : length (addresses a n) = Z.to_nat n.
Proof. unfold addresses. now rewrite length_map, length_seq. Qed.

Lemma scans_scannable P v ws : scannable P ws -> scans v ws -> P v.
Proof.
  induction 1 as [| w ws Hw N Hs IH | w sk ws N D Hs IH]; intros H; inversion H; subst; auto;
    try congruence.
  assert (E : skipped = sk /\ ws0 = ws) by (apply app_inj_length; [assumption | lia]).
  destruct E as [-> ->]. auto.
Qed.

(** ** Running the monad *)

Section Run.
Context {A B : Type}.

Lemma gbind_done (e : gc A) (k : A -> gc B) s a s' : e s = Done a s' -> gbind e k s = k a s'.
Proof. intros H. unfold gbind. now rewrite H. Qed.

Lemma gbind_ret (a : A) (k : A -> gc B) s : gbind (ret a) k s = k a s.
Proof. reflexivity. Qed.

Lemma gbind_get (k : gc_state -> gc B) s : gbind get k s = k s s.
Proof. reflexivity. Qed.

Lemma gbind_read a (k : Z -> gc B) s : gbind (read a) k s = k (gmem s a) s.
Proof. reflexivity. Qed.

Lemma gbind_write a v (k : unit -> gc B) s :
  gbind (write a v) k s = k tt (set_gmem s (store (gmem s) a v)).
Proof. reflexivity. Qed.

Lemma gbind_modify f (k : unit -> gc B) s : gbind (modify f) k s = k tt (f s).
Proof. reflexivity. Qed.

Lemma gbind_assoc {C} (e : gc C) (k : C -> gc A) (k' : A -> gc B) s :
  gbind (gbind e k) k' s = gbind e (fun c => gbind (k c) k') s.
Proof. unfold gbind. now destruct (e s). Qed.

Lemma ret_run (a : A) s : ret a s = Done a s.
Proof. reflexivity. Qed.
End Run.

Create Rewrite HintDb gc.
#[export] Hint Rewrite @gbind_ret @gbind_get @gbind_read @gbind_write @gbind_modify @gbind_assoc
  @ret_run : gc.

(** The fields of an updated state. *)
Ltac gc_fields :=
  cbn [tospace_next newspace_next weak_chain ephemeron_list ephemeron_queue ephemeron_count
       scanning_ephemerons_p gmem set_gmem set_next set_weak_chain].

Lemma guarantee_open s : tospace_next s <> 0 -> GUARANTEE_TOSPACE_OPEN s = Done tt s.
Proof.
  intros H. unfold GUARANTEE_TOSPACE_OPEN. autorewrite with gc.
  now destruct (Z.eqb_spec (tospace_next s) 0).
Qed.

Lemma align_newspace_spec n s : align_newspace (S n) s = Done tt s.
Proof.
  cbn [align_newspace]. autorewrite with gc. unfold FLOATING_ALIGNED_P. now rewrite Z.land_0_r.
Qed.

(** ** The setting of a collection: where the spaces are, memory before the
    collection with its blocks, and the objects the roots hold *)

Class gc_context (L : layout) (m0 : memory) (blk : Z -> option block_kind) (root : Z -> Prop) : Prop := {
  WL : wf_layout L;
  WH : wf_heap L m0 blk;
  good_roots : forall o, root o -> good L blk o
}.

(** Fuel for the loops that transport. *)
Class enough (L : layout) (fuel : nat) : Prop :=
  enough_fuel : (Z.to_nat (fromspace_end L - fromspace_start L) < fuel)%nat.

Section Invariant.
Context {L : layout} {m0 : memory} {blk : Z -> option block_kind} {root : Z -> Prop}.
Context {CTX : gc_context L m0 blk root}.

Notation points := (points L).
Notation good := (good L blk).
Notation live := (live L m0 root).
Notation transported := (transported L m0).

(** ** Blocks *)

Definition size (a : Z) : Z :=
  match blk a with Some k => block_size m0 k a | None => 0 end.

Definition copy_of (a : Z) : list Z :=
  match blk a with Some k => transported k a | None => [] end.

Lemma neutral_good o : good o -> good (neutral L o).
Proof.
  intros G. unfold neutral. destruct (points o) as [[a k]|] eqn:E; [| exact G].
  assert (T : OBJECT_TYPE (OBJECT_NEW_TYPE TC_FALSE o) = TC_FALSE).
  { apply MAKE_OBJECT_parts; [lia |]. rewrite OBJECT_DATUM_mod. apply mod58. }
  split; [| split].
  - apply MAKE_OBJECT_ulong; [lia |]. rewrite OBJECT_DATUM_mod. apply mod58.
  - unfold plain. now rewrite T.
  - intros b k' H. unfold GcSpec.points, reference in H. now rewrite T in H.
Qed.

Lemma good_not_nmv o : good o -> NMV_P o = false.
Proof. intros (U & Pl & _). now apply plain_not_nmv. Qed.

Lemma Forall_scannable ws : Forall good ws -> scannable good ws.
Proof.
  induction 1; constructor; auto using good_not_nmv.
Qed.

Lemma transported_scannable a k : blk a = Some k -> scannable good (transported k a).
Proof.
  intros E. pose proof (wh_contents _ _ _ WH a k E) as C.
  destruct k; cbn [wf_block GcSpec.transported] in *; [now apply Forall_scannable | exact C | | easy].
  unfold block_words in C. change (Z.to_nat (block_size m0 Weak_pair a)) with 2%nat in C.
  cbn [words_at] in C. inversion C as [| x l H1 H2]; subst. inversion H2; subst.
  apply Forall_scannable. constructor; [now apply neutral_good | constructor; auto].
Qed.

Lemma live_good o : live o -> good o.
Proof.
  induction 1 as [o H | o a k w _ IH P S]; [exact (good_roots o H) |].
  destruct IH as (_ & _ & B). specialize (B _ _ P).
  exact (scans_scannable _ _ _ (transported_scannable a k B) S).
Qed.

(** A block that some live object refers to. *)
Definition live_block (a : Z) : Prop := exists o k, live o /\ points o = Some (a, k).

Lemma live_block_blk a : live_block a -> exists k, blk a = Some k.
Proof.
  intros (o & k & H & P). exists k. now apply (proj2 (proj2 (live_good o H))).
Qed.

Lemma copy_scannable a : live_block a -> scannable (fun w => good w /\ live w) (copy_of a).
Proof.
  intros (o & k & H & P). assert (E : blk a = Some k) by now apply (proj2 (proj2 (live_good o H))).
  unfold copy_of. rewrite E. apply scannable_and; [now apply transported_scannable |].
  intros v Hv. exact (live_field _ _ _ o a k v H P Hv).
Qed.

Lemma blk_size a k : blk a = Some k ->
  size a = block_size m0 k a /\ fromspace_start L <= a /\ 0 < size a /\ a + size a <= fromspace_end L.
Proof. intros E. unfold size. rewrite E. split; [reflexivity |]. now apply (wh_inside _ _ _ WH). Qed.

Lemma size_nonneg a : 0 <= size a.
Proof.
  destruct (blk a) as [k|] eqn:E; [pose proof (blk_size a k E); lia |]. unfold size. now rewrite E.
Qed.

Lemma blk_apart a b k k' : blk a = Some k -> blk b = Some k' -> a <> b ->
  a + size a <= b \/ b + size b <= a.
Proof.
  intros Ea Eb N. destruct (blk_size a k Ea) as [-> _]. destruct (blk_size b k' Eb) as [-> _].
  now apply (wh_disjoint _ _ _ WH).
Qed.

Lemma copy_length a : Z.of_nat (length (copy_of a)) = size a.
Proof.
  unfold copy_of. destruct (blk a) as [k|] eqn:E; [| unfold size; now rewrite E].
  destruct (blk_size a k E) as (S & _ & P & _). rewrite S in *.
  destruct k; cbn [GcSpec.transported block_size length] in *; unfold block_words;
    rewrite ?words_at_length; cbn [block_size]; lia.
Qed.

(** ** The list of copied blocks *)

Definition total (cp : list Z) : Z := fold_right (fun a n => size a + n) 0 cp.
Definition copies (cp : list Z) : list Z := concat (map copy_of cp).

(** Where the copy of a block is, when the first copy is at [p]. *)
Fixpoint place (p : Z) (cp : list Z) (a : Z) : option Z :=
  match cp with
  | [] => None
  | b :: cp => if a =? b then Some p else place (p + size b) cp a
  end.

Lemma total_app cp cp' : total (cp ++ cp') = total cp + total cp'.
Proof. induction cp as [|a cp IH]; cbn [total app fold_right]; [reflexivity |]. unfold total in *. lia. Qed.

Lemma total_nonneg cp : 0 <= total cp.
Proof. induction cp as [|a cp IH]; cbn [total fold_right]; [lia |]. pose proof (size_nonneg a). unfold total in *. lia. Qed.

Lemma copies_concat cp : copies cp = concat (map copy_of cp).
Proof. reflexivity. Qed.

Lemma copies_app cp cp' : copies (cp ++ cp') = copies cp ++ copies cp'.
Proof. unfold copies. now rewrite map_app, concat_app. Qed.

Lemma copies_length cp : Z.of_nat (length (copies cp)) = total cp.
Proof.
  induction cp as [|a cp IH]; [reflexivity |]. unfold copies in *. cbn [map concat total fold_right].
  rewrite length_app, Nat2Z.inj_add, IH, copy_length. reflexivity.
Qed.

Lemma place_app p cp cp' a q : place p cp a = Some q -> place p (cp ++ cp') a = Some q.
Proof.
  revert p. induction cp as [|b cp IH]; intros p H; cbn [place app] in *; [discriminate |].
  destruct (a =? b); auto.
Qed.

Lemma place_last p cp a : ~ In a cp -> place p (cp ++ [a]) a = Some (p + total cp).
Proof.
  revert p. induction cp as [|b cp IH]; intros p N; cbn [place app].
  - rewrite Z.eqb_refl. unfold total. cbn [fold_right]. f_equal. lia.
  - destruct (Z.eqb_spec a b) as [-> | _]; [exfalso; apply N; now left |].
    rewrite IH by (intros H; apply N; now right). f_equal. unfold total. cbn [fold_right]. lia.
Qed.

Lemma place_last_inv p cp b a q :
  place p (cp ++ [b]) a = Some q -> place p cp a = Some q \/ (a = b /\ ~ In a cp /\ q = p + total cp).
Proof.
  revert p. induction cp as [|c cp IH]; intros p H; cbn [place app] in *.
  - destruct (Z.eqb_spec a b) as [-> | _]; [| discriminate]. injection H as <-. right.
    unfold total. cbn [fold_right]. repeat split; auto; lia.
  - destruct (Z.eqb_spec a c) as [-> | N]; [auto |].
    destruct (IH _ H) as [H' | (-> & NI & ->)]; [auto | right].
    split; [reflexivity |]. split; [intros [E | E]; [congruence | contradiction] |].
    unfold total. cbn [fold_right]. lia.
Qed.

Lemma place_In p cp a q : place p cp a = Some q -> In a cp /\ p <= q /\ q + size a <= p + total cp.
Proof.
  revert p. induction cp as [|b cp IH]; intros p H; cbn [place] in H; [discriminate |].
  cbn [total fold_right]. fold (total cp). pose proof (total_nonneg cp). pose proof (size_nonneg b).
  destruct (Z.eqb_spec a b) as [-> | _].
  - injection H as <-. split; [now left | lia].
  - destruct (IH _ H) as (Hin & Hlo & Hhi). split; [now right | lia].
Qed.

(** Copies do not overlap. *)
Lemma place_apart p cp a b q r :
  place p cp a = Some q -> place p cp b = Some r -> a <> b -> q + size a <= r \/ r + size b <= q.
Proof.
  revert p. induction cp as [|c cp IH]; intros p Ha Hb N; cbn [place] in *; [discriminate |].
  destruct (Z.eqb_spec a c) as [-> | _], (Z.eqb_spec b c) as [-> | _]; [congruence | | | eauto].
  - injection Ha as <-. destruct (place_In _ _ _ _ Hb) as (_ & Hlo & _). lia.
  - injection Hb as <-. destruct (place_In _ _ _ _ Ha) as (_ & Hlo & _). lia.
Qed.

Lemma length_total cp :
  (forall a, In a cp -> exists k, blk a = Some k) -> Z.of_nat (length cp) <= total cp.
Proof.
  induction cp as [|a cp IH]; intros H; cbn [length total fold_right]; [lia |]. fold (total cp).
  destruct (H a (or_introl eq_refl)) as [k E]. pose proof (blk_size a k E).
  specialize (IH (fun b Hb => H b (or_intror Hb))). lia.
Qed.

Lemma In_place p cp a : In a cp -> exists q, place p cp a = Some q.
Proof.
  revert p. induction cp as [|b cp IH]; intros p H; [easy |]. cbn [place].
  destruct (Z.eqb_spec a b) as [-> | N]; [eauto |]. destruct H as [E | H]; [congruence | auto].
Qed.

(** Disjoint blocks do not take more room than fromspace has. *)
Lemma total_bound cp :
  NoDup cp -> (forall a, In a cp -> exists k, blk a = Some k) ->
  total cp <= fromspace_end L - fromspace_start L.
Proof.
  intros ND HB.
  assert (Len : forall l, Z.of_nat (length (flat_map (fun a => addresses a (size a)) l)) = total l).
  { induction l as [|a l IH]; [reflexivity |]. cbn [flat_map total fold_right]. fold (total l).
    rewrite length_app, length_addresses, Nat2Z.inj_add, IH. pose proof (size_nonneg a). lia. }
  rewrite <- Len.
  set (all := addresses (fromspace_start L) (fromspace_end L - fromspace_start L)).
  pose proof (wl_from _ WL).
  assert (Z.of_nat (length all) = fromspace_end L - fromspace_start L)
    by (unfold all; rewrite length_addresses; lia).
  enough (length (flat_map (fun a => addresses a (size a)) cp) <= length all)%nat by lia.
  apply NoDup_incl_length.
  - clear - ND HB CTX. induction ND as [|a l Hn ND IH]; cbn [flat_map]; [constructor |].
    apply NoDup_app; [apply NoDup_addresses | apply IH; intros b Hb; apply HB; now right |].
    intros x Hx%In_addresses (b & Hb & Hx')%in_flat_map. apply In_addresses in Hx'.
    destruct (HB a (or_introl eq_refl)) as [k Ea]. destruct (HB b (or_intror Hb)) as [k' Eb].
    assert (N : a <> b) by congruence.
    destruct (blk_apart a b k k' Ea Eb N); lia.
  - intros x (a & Ha & Hx)%in_flat_map. apply In_addresses in Hx.
    destruct (HB a Ha) as [k Ea]. pose proof (blk_size a k Ea). apply In_addresses. lia.
Qed.

(** ** The invariant *)

Notation tb := (tospace_start L + n_roots).
Notation nb := (newspace_start L + n_roots).

(** The second word of a chained weak pair: the type of its old car and the
    next pair of the chain. *)
Definition chain_word (car c : Z) : Z :=
  if c =? 0 then MAKE_OBJECT (OBJECT_TYPE car) 0 else MAKE_POINTER_OBJECT L (OBJECT_TYPE car) c.

Fixpoint chained (m : memory) (c : Z) (wk : list Z) : Prop :=
  match wk with
  | [] => c = 0
  | a :: wk => c = a /\ exists c', m (a + 1) = chain_word (m0 a) c' /\ chained m c' wk
  end.

Definition weak_candidate (a : Z) : Prop := blk a = Some Weak_pair /\ points (m0 a) <> None.

(** [cp] are the blocks copied, [wk] the weak pairs on the chain. *)
Record collecting (cp wk : list Z) (s : gc_state) : Prop := {
  col_nodup : NoDup cp;
  col_live : forall a, In a cp -> live_block a;
  col_tnext : tospace_next s = tb + total cp;
  col_nnext : newspace_next s = nb + total cp;
  col_heart : forall a p, place nb cp a = Some p -> gmem s a = MAKE_BROKEN_HEART L p;
  col_rest : forall a k, blk a = Some k -> ~ In a cp ->
    forall i, 0 <= i < size a -> gmem s (a + i) = m0 (a + i);
  col_chain : chained (gmem s) (weak_chain s) wk;
  col_wk : forall a, In a wk -> In a cp /\ weak_candidate a;
  col_wk_nodup : NoDup wk;
  col_quiet : scanning_ephemerons_p s = false /\ ephemeron_list s = SHARP_F
              /\ ephemeron_queue s = SHARP_F
}.

(** Every copied weak pair that needs to be is on the chain. *)
Definition all_chained (cp wk : list Z) : Prop :=
  forall a, In a cp -> weak_candidate a -> In a wk.

(** What changes outside of fromspace: the copies of [new] are added. *)
Record grows (s : gc_state) (new : list Z) (s' : gc_state) : Prop := {
  gr_frame : forall x, ~ in_from L x -> ~ (tospace_next s <= x < tospace_next s') ->
    gmem s' x = gmem s x;
  gr_copies : words_at (gmem s') (tospace_next s) (length (copies new)) = copies new
}.

Definition invariant (cp : list Z) (s : gc_state) : Prop :=
  exists wk, collecting cp wk s /\ all_chained cp wk.

Definition step (cp : list Z) (s : gc_state) (new : list Z) (s' : gc_state) : Prop :=
  invariant (cp ++ new) s' /\ grows s new s'.

Lemma collecting_bound cp wk s : collecting cp wk s ->
  0 <= total cp <= fromspace_end L - fromspace_start L.
Proof.
  intros C. split; [apply total_nonneg |]. apply total_bound; [apply C |].
  intros a Ha. apply live_block_blk, C, Ha.
Qed.

Lemma room cp wk s a k : collecting cp wk s -> blk a = Some k -> ~ In a cp ->
  total cp + size a <= fromspace_end L - fromspace_start L.
Proof.
  intros C E N. pose proof (total_bound (a :: cp)) as B. cbn [total fold_right] in B.
  fold (total cp) in B. specialize (B ltac:(constructor; [exact N | apply C])).
  specialize (B ltac:(intros b [<- | Hb]; [eauto | apply live_block_blk, C, Hb])). lia.
Qed.

(** Addresses of tospace are not in fromspace. *)
Lemma tospace_not_from x :
  tospace_start L <= x < tospace_start L + n_roots + (fromspace_end L - fromspace_start L) ->
  ~ in_from L x.
Proof. intros H. pose proof (wl_room _ WL). pose proof (wl_apart _ WL). pose proof (wl_from _ WL). unfold in_from. lia. Qed.

Lemma grows_refl s : grows s [] s.
Proof. now split. Qed.

Lemma step_refl cp s : invariant cp s -> step cp s [] s.
Proof. intros H. split; [now rewrite app_nil_r | apply grows_refl]. Qed.

Lemma step_next cp s new s' : invariant cp s -> step cp s new s' ->
  tospace_next s' = tospace_next s + total new /\ 0 <= total new /\
  tospace_start L + n_roots <= tospace_next s /\
  tospace_next s' <= tospace_start L + n_roots + (fromspace_end L - fromspace_start L).
Proof.
  intros (wk & C & _) [(wk' & C' & _) _]. rewrite (col_tnext _ _ _ C), (col_tnext _ _ _ C'), total_app.
  pose proof (collecting_bound _ _ _ C). pose proof (collecting_bound _ _ _ C') as B.
  rewrite total_app in B. pose proof (total_nonneg new). lia.
Qed.

Lemma step_trans cp s new s' new' s'' :
  invariant cp s -> step cp s new s' -> step (cp ++ new) s' new' s'' -> step cp s (new ++ new') s''.
Proof.
  intros I S S'. pose proof (step_next _ _ _ _ I S). pose proof (step_next _ _ _ _ (proj1 S) S').
  destruct S as [_ [F K]], S' as [I'' [F' K']]. split; [now rewrite app_assoc |]. split.
  - intros x N1 N2. rewrite F', F; auto; lia.
  - rewrite copies_app, length_app, words_at_app.
    assert (E : Z.of_nat (length (copies new)) = total new) by apply copies_length.
    f_equal.
    + rewrite <- K at 2. apply words_at_ext. intros i Hi. rewrite E in Hi.
      apply F'; [apply tospace_not_from |]; lia.
    + rewrite E. now replace (tospace_next s + total new) with (tospace_next s') by lia.
Qed.

Lemma chained_ext m m' wk : forall c,
  (forall a, In a wk -> m' (a + 1) = m (a + 1)) -> chained m c wk -> chained m' c wk.
Proof.
  induction wk as [|a wk IH]; intros c H; cbn [chained]; [auto |].
  intros (-> & c' & E & Hc). split; [reflexivity |]. exists c'.
  split; [rewrite H; [exact E | now left] | apply IH; auto; intros b Hb; apply H; now right].
Qed.

(** Writing outside of fromspace keeps the invariant. *)
Lemma invariant_set cp s m :
  (forall x, in_from L x -> m x = gmem s x) -> invariant cp s -> invariant cp (set_gmem s m).
Proof.
  intros H (wk & C & A). exists wk. split; [| exact A].
  assert (B : forall a i, In a cp -> 0 <= i < size a -> m (a + i) = gmem s (a + i)).
  { intros a i Ha Hi. destruct (live_block_blk a (col_live _ _ _ C a Ha)) as [k E].
    apply H. pose proof (blk_size a k E). unfold in_from. lia. }
  destruct C as [nd lv tn nn heart rest ch cw cwn q]. split; cbn [gmem set_gmem tospace_next
    newspace_next weak_chain scanning_ephemerons_p ephemeron_list ephemeron_queue]; auto.
  - intros a p Hp. rewrite <- (heart a p Hp). rewrite <- (Z.add_0_r a). destruct (place_In _ _ _ _ Hp) as [Ha _].
    apply B; [exact Ha |]. destruct (live_block_blk a (lv a Ha)) as [k E]. pose proof (blk_size a k E). lia.
  - intros a k E Na i Hi. rewrite <- (rest a k E Na i Hi). apply H. pose proof (blk_size a k E).
    unfold in_from. lia.
  - eapply chained_ext; [| exact ch]. intros a Ha. destruct (cw a Ha) as (Hin & Ek & _).
    apply B; [exact Hin |]. destruct (blk_size a _ Ek) as (-> & _). cbn [block_size]. lia.
Qed.

(** ** Transport *)

Lemma transport_loop_spec n : forall from s,
  from + Z.of_nat n <= tospace_next s \/ tospace_next s + Z.of_nat n <= from ->
  exists m,
    transport_loop n from s
    = Done tt (set_next (set_gmem s m) (tospace_next s + Z.of_nat n) (newspace_next s + Z.of_nat n))
    /\ forall x, m x = if (tospace_next s <=? x) && (x <? tospace_next s + Z.of_nat n)
                       then gmem s (x - tospace_next s + from) else gmem s x.
Proof.
  induction n as [|n IH]; intros from s Ap.
  - exists (gmem s). cbn [transport_loop]. split; [| intros x].
    + rewrite !Z.add_0_r. now destruct s.
    + destruct (Z.leb_spec (tospace_next s) x), (Z.ltb_spec x (tospace_next s + Z.of_nat 0));
        auto; lia.
  - set (s1 := set_next (set_gmem s (store (gmem s) (tospace_next s) (gmem s from)))
                 (tospace_next s + 1) (newspace_next s + 1)).
    destruct (IH (from + 1) s1) as (m & E & H);
      [change (tospace_next s1) with (tospace_next s + 1); lia |].
    exists m. split.
    + change (transport_loop (S n) from s) with (transport_loop n (from + 1) s1). rewrite E.
      unfold s1, set_next, set_gmem. gc_fields. do 2 f_equal; lia.
    + intros x. rewrite H. unfold s1. cbn [tospace_next set_next gmem set_gmem].
      destruct (Z.leb_spec (tospace_next s + 1) x), (Z.ltb_spec x (tospace_next s + 1 + Z.of_nat n)),
        (Z.leb_spec (tospace_next s) x), (Z.ltb_spec x (tospace_next s + Z.of_nat (S n)));
        cbn [andb]; try lia.
      * rewrite store_other by lia. f_equal. lia.
      * now rewrite store_other by lia.
      * replace x with (tospace_next s) by lia. rewrite store_same. f_equal. lia.
      * now rewrite store_other by lia.
Qed.

(** The object at [a] has moved. *)
Lemma collecting_add cp wk s a s' :
  collecting cp wk s -> live_block a -> ~ In a cp ->
  gmem s' a = MAKE_BROKEN_HEART L (nb + total cp) ->
  (forall x, in_from L x -> x <> a -> gmem s' x = gmem s x) ->
  tospace_next s' = tospace_next s + size a -> newspace_next s' = newspace_next s + size a ->
  weak_chain s' = weak_chain s ->
  scanning_ephemerons_p s' = false -> ephemeron_list s' = SHARP_F -> ephemeron_queue s' = SHARP_F ->
  collecting (cp ++ [a]) wk s'.
Proof.
  intros C Lv Na Heart Rest Tn Nn Wc Q1 Q2 Q3.
  destruct (live_block_blk a Lv) as [k Ea]. pose proof (blk_size a k Ea) as Sa.
  assert (T : total (cp ++ [a]) = total cp + size a)
    by (rewrite total_app; cbn [total fold_right]; lia).
  destruct C as [nd lv tn nn heart rest ch cw cwn q].
  assert (Inside : forall b k' i, blk b = Some k' -> b <> a -> 0 <= i < size b ->
    gmem s' (b + i) = gmem s (b + i)).
  { intros b k' i Eb N Hi. pose proof (blk_size b k' Eb).
    destruct (blk_apart b a k' k Eb Ea N); apply Rest; unfold in_from; lia. }
  split; auto.
  - apply NoDup_app; auto; [repeat constructor; auto |]. intros x Hx [<- | []]. contradiction.
  - intros b [Hb | [<- | []]]%in_app_or; auto.
  - rewrite T, Tn, tn. lia.
  - rewrite T, Nn, nn. lia.
  - intros b p Hp. destruct (place_last_inv _ _ _ _ _ Hp) as [Hb | (-> & _ & ->)]; [| exact Heart].
    destruct (place_In _ _ _ _ Hb) as [Hin _]. rewrite <- (heart b p Hb).
    destruct (live_block_blk b (lv b Hin)) as [k' Eb]. pose proof (blk_size b k' Eb).
    rewrite <- (Z.add_0_r b). eapply Inside; [exact Eb | congruence | lia].
  - intros b k' Eb Nb i Hi. rewrite <- (rest b k' Eb (fun H => Nb (in_or_app _ _ _ (or_introl H))) i Hi).
    eapply Inside; eauto. intros ->. apply Nb, in_or_app. right. now left.
  - rewrite Wc. eapply chained_ext; [| exact ch]. intros b Hb. destruct (cw b Hb) as (Hin & Ek & _).
    eapply Inside; [exact Ek | congruence |]. destruct (blk_size b _ Ek) as (-> & _). cbn [block_size]. lia.
  - intros b Hb. destruct (cw b Hb). split; [now apply in_or_app; left | assumption].
Qed.

(** ** Addresses and objects *)

Lemma pointer_object type p :
  0 <= type < 64 -> memory_base L <= p < memory_base L + 2 ^ 58 ->
  OBJECT_TYPE (MAKE_POINTER_OBJECT L type p) = type
  /\ OBJECT_ADDRESS L (MAKE_POINTER_OBJECT L type p) = p.
Proof.
  intros Ht Hp. unfold MAKE_POINTER_OBJECT, OBJECT_ADDRESS, DATUM_TO_ADDRESS, ADDRESS_TO_DATUM.
  rewrite ulong_small by lia.
  destruct (MAKE_OBJECT_parts type (p - memory_base L)) as [-> ->]; lia.
Qed.

Lemma same_address o : is_ulong o -> OBJECT_NEW_ADDRESS L o (OBJECT_ADDRESS L o) = o.
Proof.
  intros H. unfold OBJECT_NEW_ADDRESS, OBJECT_NEW_DATUM, OBJECT_ADDRESS, DATUM_TO_ADDRESS, ADDRESS_TO_DATUM.
  replace (OBJECT_DATUM o + memory_base L - memory_base L) with (OBJECT_DATUM o) by lia.
  rewrite ulong_small by (rewrite OBJECT_DATUM_mod; pose proof (mod58 o); lia).
  now apply object_parts.
Qed.

Lemma address_nonzero o : OBJECT_ADDRESS L o <> 0.
Proof.
  pose proof (wl_base _ WL). pose proof (mod58 o). unfold OBJECT_ADDRESS, DATUM_TO_ADDRESS.
  rewrite OBJECT_DATUM_mod. lia.
Qed.

Lemma heart_object p : memory_base L <= p < memory_base L + 2 ^ 58 ->
  BROKEN_HEART_P (MAKE_BROKEN_HEART L p) = true /\ OBJECT_ADDRESS L (MAKE_BROKEN_HEART L p) = p.
Proof.
  intros H. destruct (pointer_object TC_BROKEN_HEART p) as [T A]; [lia | exact H |].
  unfold BROKEN_HEART_P, MAKE_BROKEN_HEART. rewrite T. auto.
Qed.

Lemma blk_scannable a k : blk a = Some k -> scannable good (block_words m0 k a).
Proof.
  intros E. pose proof (wh_contents _ _ _ WH a k E) as C.
  destruct k; cbn [wf_block] in C; [now apply Forall_scannable | exact C | now apply Forall_scannable | easy].
Qed.

(** No block starts with a broken heart. *)
Lemma first_word a k : blk a = Some k -> BROKEN_HEART_P (m0 a) = false.
Proof.
  intros E. pose proof (blk_scannable a k E) as S. destruct (blk_size a k E) as (Sz & _ & P & _).
  unfold block_words in S. rewrite <- Sz in S. destruct (Z.to_nat (size a)) as [|n] eqn:N; [lia |].
  cbn [words_at] in S. inversion S as [| w ws (U & Pl & _) | w sk ws N']; subst.
  - now apply plain_not_nmv.
  - unfold NMV_P in N'. unfold BROKEN_HEART_P. apply Z.eqb_eq in N'. rewrite N'. reflexivity.
Qed.

Lemma points_from o a k : points o = Some (a, k) ->
  reference o = Some k /\ OBJECT_ADDRESS L o = a /\ in_from L a.
Proof.
  unfold GcSpec.points. destruct (reference o); [| discriminate].
  destruct (ADDRESS_IN_FROMSPACE_P L (OBJECT_ADDRESS L o)) eqn:F; [| discriminate].
  intros [= <- <-]. now apply in_from_P in F.
Qed.

Lemma points_none o k : reference o = Some k -> points o = None ->
  ADDRESS_IN_FROMSPACE_P L (OBJECT_ADDRESS L o) = false.
Proof.
  unfold GcSpec.points. intros ->. now destruct (ADDRESS_IN_FROMSPACE_P L (OBJECT_ADDRESS L o)).
Qed.

Lemma place_range cp wk s a p : collecting cp wk s -> place nb cp a = Some p ->
  memory_base L <= p < memory_base L + 2 ^ 58 /\ p <> 0.
Proof.
  intros C H. destruct (place_In _ _ _ _ H) as (Hin & Hlo & Hhi).
  pose proof (collecting_bound _ _ _ C). pose proof (wl_new _ WL). pose proof (wl_new_end _ WL).
  pose proof (wl_base _ WL). destruct (live_block_blk a (col_live _ _ _ C a Hin)) as [k E].
  pose proof (blk_size a k E). lia.
Qed.

Context {fuel : nat} {EF : enough L fuel}.

Lemma gc_transport_words_spec from n al s :
  0 <= n -> tospace_next s <> 0 -> from + n <= tospace_next s \/ tospace_next s + n <= from ->
  exists m,
    gc_transport_words L fuel from n al s
    = Done (newspace_next s) (set_next (set_gmem s m) (tospace_next s + n) (newspace_next s + n))
    /\ forall x, m x = if x =? from then MAKE_BROKEN_HEART L (newspace_next s)
                       else if (tospace_next s <=? x) && (x <? tospace_next s + n)
                       then gmem s (x - tospace_next s + from) else gmem s x.
Proof.
  intros Hn Op Ap. pose proof (enough_fuel (L := L)) as EN.
  destruct (transport_loop_spec (Z.to_nat n) from s) as (m & E & H); [lia |].
  rewrite Z2Nat.id in * by lia.
  exists (store m from (MAKE_BROKEN_HEART L (newspace_next s))). split.
  - unfold gc_transport_words. erewrite gbind_done by (now apply guarantee_open).
    rewrite (gbind_done _ _ s tt s)
      by (destruct al; [destruct fuel; [lia | apply align_newspace_spec] | reflexivity]).
    autorewrite with gc. erewrite gbind_done by exact E. reflexivity.
  - intros x. unfold store. destruct (x =? from); [reflexivity | apply H].
Qed.

(** [gc_transport_words] on a block that is not yet copied. *)
Lemma transport_block cp wk s a k al :
  collecting cp wk s -> live_block a -> blk a = Some k -> ~ In a cp ->
  exists s',
    gc_transport_words L fuel a (size a) al s = Done (nb + total cp) s'
    /\ collecting (cp ++ [a]) wk s'
    /\ (forall x, ~ in_from L x -> ~ (tospace_next s <= x < tospace_next s') -> gmem s' x = gmem s x)
    /\ words_at (gmem s') (tospace_next s) (Z.to_nat (size a)) = block_words m0 k a
    /\ tospace_next s' = tospace_next s + size a
    /\ forall x, in_from L x -> x <> a -> gmem s' x = gmem s x.
Proof.
  intros C Lv Ea Na. pose proof (blk_size a k Ea) as (Sz & Lo & Pos & Hi).
  pose proof (room _ _ _ _ _ C Ea Na). pose proof (total_nonneg cp).
  pose proof (wl_room _ WL). pose proof (wl_apart _ WL). pose proof (wl_from _ WL). pose proof (wl_to _ WL).
  pose proof (col_tnext _ _ _ C) as Tn. pose proof (col_nnext _ _ _ C) as Nn.
  destruct (gc_transport_words_spec a (size a) al s) as (m & E & Hm); [lia .. |].
  rewrite Nn in E at 1. exists (set_next (set_gmem s m) (tospace_next s + size a) (newspace_next s + size a)).
  assert (Rest : forall x, in_from L x -> x <> a -> m x = gmem s x).
  { intros x Hx N. rewrite Hm. destruct (Z.eqb_spec x a); [contradiction |]. unfold in_from in Hx.
    destruct (Z.leb_spec (tospace_next s) x), (Z.ltb_spec x (tospace_next s + size a)); auto; lia. }
  split; [exact E |]. split; [| split; [| split; [| split]]]; cbn [gmem set_next set_gmem tospace_next]; auto.
  - destruct (col_quiet _ _ _ C) as (Q1 & Q2 & Q3).
    apply (collecting_add cp wk s a); auto. cbn [gmem set_next set_gmem].
    rewrite Hm, Z.eqb_refl, Nn. reflexivity.
  - intros x N1 N2. rewrite Hm. destruct (Z.eqb_spec x a) as [-> | _]; [exfalso; apply N1; unfold in_from; lia |].
    destruct (Z.leb_spec (tospace_next s) x), (Z.ltb_spec x (tospace_next s + size a)); auto; lia.
  - unfold block_words. rewrite <- Sz. apply words_at_ext. intros i Hi'.
    rewrite Z2Nat.id in Hi' by lia. rewrite Hm.
    destruct (Z.eqb_spec (tospace_next s + i) a); [lia |].
    destruct (Z.leb_spec (tospace_next s) (tospace_next s + i)),
      (Z.ltb_spec (tospace_next s + i) (tospace_next s + size a)); try lia. cbn [andb].
    replace (tospace_next s + i - tospace_next s + a) with (a + i) by lia.
    now apply (col_rest _ _ _ C a k).
Qed.

(** ** [gc_precheck_from] *)

(** What [gc_precheck_from] finds for an object that refers to a block. *)
Inductive checked (cp : list Z) (o : Z) (k : block_kind) : Z -> Prop :=
  | checked_outside : points o = None -> checked cp o k (OBJECT_ADDRESS L o)
  | checked_copied a p : points o = Some (a, k) -> place nb cp a = Some p -> checked cp o k p
  | checked_fresh : points o = Some (OBJECT_ADDRESS L o, k) -> ~ In (OBJECT_ADDRESS L o) cp ->
      checked cp o k 0.

Lemma gc_precheck_spec cp s o k :
  invariant cp s -> live o -> reference o = Some k ->
  exists p, gc_precheck_from L fuel (OBJECT_ADDRESS L o) s = Done p s /\ checked cp o k p.
Proof.
  intros (wk & C & _) Lv R. unfold gc_precheck_from.
  destruct (points o) as [[a k']|] eqn:P.
  - destruct (points_from o a k' P) as (R' & A & F).
    assert (k' = k) by congruence. subst k'. rewrite A.
    replace (ADDRESS_IN_FROMSPACE_P L a) with true by (symmetry; now apply in_from_P). cbn [negb].
    autorewrite with gc.
    assert (E : blk a = Some k) by now apply (proj2 (proj2 (live_good o Lv))).
    destruct (in_dec Z.eq_dec a cp) as [Hin | Nin].
    + destruct (In_place nb cp a Hin) as [p Hp]. exists p.
      destruct (place_range _ _ _ _ _ C Hp) as [Rg _]. destruct (heart_object p Rg) as [B Ad].
      rewrite (col_heart _ _ _ C a p Hp), B, Ad. split; [reflexivity |]. now apply (checked_copied _ _ _ a).
    + exists 0. pose proof (blk_size a k E). pose proof (col_rest _ _ _ C a k E Nin 0 ltac:(lia)) as V.
      rewrite !Z.add_0_r in V. rewrite V, (first_word a k E). autorewrite with gc.
      destruct (col_quiet _ _ _ C) as (-> & _). autorewrite with gc. split; [reflexivity |].
      apply checked_fresh; rewrite A; [now rewrite P | exact Nin].
  - exists (OBJECT_ADDRESS L o). rewrite (points_none o k R P). cbn [negb].
    split; [reflexivity | now apply checked_outside].
Qed.

(** The object with a new address, unless it is still to be transported. *)
Lemma checked_forwarded cp s o k p :
  invariant cp s -> live o -> checked cp o k p -> p <> 0 ->
  forwarded L (place nb cp) o (OBJECT_NEW_ADDRESS L o p).
Proof.
  intros _ Lv H N. unfold forwarded. destruct H as [P | a p P Hp | P Hn]; [| | contradiction].
  - rewrite P. apply same_address, (live_good o Lv).
  - rewrite P. exists p. auto.
Qed.

Lemma checked_nonzero cp s o k p :
  invariant cp s -> checked cp o k p ->
  p <> 0 \/ (p = 0 /\ points o = Some (OBJECT_ADDRESS L o, k) /\ ~ In (OBJECT_ADDRESS L o) cp).
Proof.
  intros (wk & C & _) [P | a q P Hp | P Hn]; [left | left | auto].
  - apply address_nonzero.
  - apply (place_range _ _ _ _ _ C Hp).
Qed.

(** ** Tuples and vectors *)

Lemma points_block o a k : live o -> points o = Some (a, k) -> live_block a /\ blk a = Some k.
Proof.
  intros Lv P. split; [now exists o, k |]. now apply (proj2 (proj2 (live_good o Lv))).
Qed.

Lemma copies_one a : copies [a] = copy_of a.
Proof. unfold copies. cbn [map concat]. apply app_nil_r. Qed.

Lemma newspace_to_tospace_next cp wk s i :
  collecting cp wk s -> NEWSPACE_TO_TOSPACE L (nb + total cp + i) = tospace_next s + i.
Proof. intros C. unfold NEWSPACE_TO_TOSPACE. rewrite (col_tnext _ _ _ C). lia. Qed.

(** A block other than a weak pair. *)
Lemma transport_step cp s o a k al :
  invariant cp s -> live o -> points o = Some (a, k) -> k <> Weak_pair -> ~ In a cp ->
  exists s',
    gc_transport_words L fuel a (size a) al s = Done (nb + total cp) s'
    /\ step cp s [a] s'
    /\ forall i, 0 <= i < size a -> gmem s' (tospace_next s + i) = m0 (a + i).
Proof.
  intros (wk & C & Al) Lv P Nw Na. destruct (points_block o a k Lv P) as [Lb E].
  destruct (transport_block cp wk s a k al C Lb E Na) as (s' & Run & C' & Fr & W & Tn & _).
  destruct (blk_size a k E) as (Sz & _ & Pos & _). exists s'. split; [exact Run |].
  assert (K : copy_of a = block_words m0 k a)
    by (unfold copy_of; rewrite E; destruct k; reflexivity || contradiction).
  split; [split |].
  - exists wk. split; [exact C' |]. intros b [Hb | [<- | []]]%in_app_or Hw; [auto |].
    destruct Hw. congruence.
  - split; [exact Fr |]. rewrite copies_one, K. rewrite <- W at 2. f_equal.
    pose proof (copy_length a) as Ln. rewrite K in Ln. lia.
  - intros i Hi. unfold block_words in W. rewrite <- Sz in W.
    apply (words_at_inv _ _ _ _ _ W). lia.
Qed.

(** What the transport of a tuple of two words copies is scanned. *)
Lemma tuple_field_live o a i :
  live o -> points o = Some (a, Tuple 2) -> 0 <= i < 2 -> live (m0 (a + i)).
Proof.
  intros Lv P Hi. apply (live_field _ _ _ o a (Tuple 2)); [exact Lv | exact P |].
  destruct (points_block _ _ _ Lv P) as [_ E]. pose proof (wh_contents _ _ _ WH a _ E) as C.
  cbn [wf_block GcSpec.transported] in *. unfold block_words in *.
  change (Z.to_nat (block_size m0 (Tuple 2) a)) with 2%nat in *. cbn [words_at] in *.
  inversion C as [| x l H1 H2]; subst. inversion H2; subst.
  assert (i = 0 \/ i = 1) as [-> | ->] by lia; rewrite ?Z.add_0_r.
  - apply scans_here. now apply good_not_nmv.
  - apply scans_later; [now apply good_not_nmv | apply scans_here; now apply good_not_nmv].
Qed.

Lemma list_reference o : OBJECT_TYPE o = TC_LIST -> reference o = Some (Tuple 2).
Proof. intros H. unfold reference. now rewrite H. Qed.

Lemma transport_cdrs_spec n : forall cp s cdr,
  invariant cp s -> live cdr ->
  (Z.to_nat (fromspace_end L - fromspace_start L - total cp) < n)%nat ->
  exists s' new, transport_cdrs L fuel n cdr s = Done tt s' /\ step cp s new s'.
Proof.
  induction n as [|n IH]; intros cp s cdr I Lv Hn; [lia |]. cbn [transport_cdrs].
  destruct (Z.eqb_spec (OBJECT_TYPE cdr) TC_LIST) as [T | _].
  2: { exists s, []. split; [reflexivity | now apply step_refl]. }
  pose proof (list_reference cdr T) as R.
  destruct (gc_precheck_spec cp s cdr (Tuple 2) I Lv R) as (p & Run & Ck).
  erewrite gbind_done by exact Run.
  destruct (checked_nonzero _ _ _ _ _ I Ck) as [Np | (-> & P & Na)].
  { exists s, []. destruct (Z.eqb_spec p 0); [contradiction |]. split; [reflexivity | now apply step_refl]. }
  rewrite Z.eqb_refl. set (a := OBJECT_ADDRESS L cdr) in *.
  destruct (points_block _ _ _ Lv P) as [Lb E]. destruct (blk_size a _ E) as (Sz & _).
  cbn [block_size] in Sz.
  destruct (transport_step cp s cdr a (Tuple 2) false I Lv P ltac:(discriminate) Na)
    as (s1 & Run1 & St1 & W1). rewrite Sz in Run1, W1.
  erewrite gbind_done by exact Run1. unfold READ_TOSPACE. rewrite gbind_read.
  destruct I as (wk & C & Al) eqn:EI. rewrite (newspace_to_tospace_next _ _ _ _ C), W1 by lia.
  pose proof (room cp wk s a _ C E Na). pose proof (total_nonneg cp).
  assert (T1 : total (cp ++ [a]) = total cp + 2) by (rewrite total_app; cbn [total fold_right]; lia).
  destruct (IH (cp ++ [a]) s1 (m0 (a + CONS_CDR))) as (s' & new & Run' & St').
  - apply St1.
  - apply (tuple_field_live cdr); auto; lia.
  - rewrite T1. lia.
  - exists s', ([a] ++ new). split; [exact Run' |].
    apply (step_trans cp s [a] s1 new s'); [now exists wk | exact St1 | exact St'].
Qed.

Lemma place_step cp s new s' o a k p :
  step cp s new s' -> points o = Some (a, k) -> place nb cp a = Some p ->
  forwarded L (place nb (cp ++ new)) o (OBJECT_NEW_ADDRESS L o p).
Proof. intros _ P H. unfold forwarded. rewrite P. exists p. split; [now apply place_app | reflexivity]. Qed.

Lemma gc_tuple_spec cp s o n :
  invariant cp s -> live o -> reference o = Some (Tuple n) ->
  exists o' s' new, gc_tuple L fuel o n s = Done o' s' /\ step cp s new s'
    /\ forwarded L (place nb (cp ++ new)) o o'.
Proof.
  intros I Lv R. unfold gc_tuple.
  destruct (gc_precheck_spec cp s o _ I Lv R) as (p & Run & Ck). erewrite gbind_done by exact Run.
  destruct (checked_nonzero _ _ _ _ _ I Ck) as [Np | (-> & P & Na)].
  { exists (OBJECT_NEW_ADDRESS L o p), s, []. destruct (Z.eqb_spec p 0); [contradiction |].
    split; [reflexivity |]. split; [now apply step_refl |]. rewrite app_nil_r.
    now apply (checked_forwarded cp s o (Tuple n)). }
  rewrite Z.eqb_refl. set (a := OBJECT_ADDRESS L o) in *.
  destruct (points_block _ _ _ Lv P) as [Lb E]. destruct (blk_size a _ E) as (Sz & _).
  cbn [block_size] in Sz. destruct I as (wk & C & Al) eqn:EI.
  destruct (transport_step cp s o a (Tuple n) false I Lv P ltac:(discriminate) Na)
    as (s1 & Run1 & St1 & W1). rewrite Sz in Run1, W1.
  autorewrite with gc. erewrite gbind_done by exact Run1.
  assert (Pl : place nb (cp ++ [a]) a = Some (nb + total cp)) by now apply place_last.
  destruct (Z.eqb_spec n 2) as [-> | _].
  - autorewrite with gc. unfold READ_TOSPACE. rewrite gbind_read.
    rewrite (newspace_to_tospace_next _ _ _ _ C), W1 by lia.
    destruct (transport_cdrs_spec fuel (cp ++ [a]) s1 (m0 (a + CONS_CDR))) as (s2 & new & Run2 & St2).
    + apply St1.
    + apply (tuple_field_live o); auto; lia.
    + pose proof (total_nonneg (cp ++ [a])). pose proof (enough_fuel (L := L)) as EN. lia.
    + erewrite gbind_done by exact Run2. autorewrite with gc.
      exists (OBJECT_NEW_ADDRESS L o (nb + total cp)), s2, ([a] ++ new).
      split; [reflexivity |]. split; [now apply (step_trans cp s [a] s1 new s2) |].
      rewrite app_assoc. exact (place_step _ _ _ _ _ _ _ _ St2 P Pl).
  - autorewrite with gc. exists (OBJECT_NEW_ADDRESS L o (nb + total cp)), s1, [a].
    split; [reflexivity |]. split; [exact St1 |]. unfold forwarded. rewrite P. eauto.
Qed.

Lemma gc_vector_spec cp s o al :
  invariant cp s -> live o -> reference o = Some Vector ->
  exists o' s' new, gc_vector L fuel o al s = Done o' s' /\ step cp s new s'
    /\ forwarded L (place nb (cp ++ new)) o o'.
Proof.
  intros I Lv R. unfold gc_vector.
  destruct (gc_precheck_spec cp s o _ I Lv R) as (p & Run & Ck). erewrite gbind_done by exact Run.
  destruct (checked_nonzero _ _ _ _ _ I Ck) as [Np | (-> & P & Na)].
  { exists (OBJECT_NEW_ADDRESS L o p), s, []. destruct (Z.eqb_spec p 0); [contradiction |].
    split; [reflexivity |]. split; [now apply step_refl |]. rewrite app_nil_r.
    now apply (checked_forwarded cp s o Vector). }
  rewrite Z.eqb_refl. cbn [negb]. set (a := OBJECT_ADDRESS L o) in *.
  destruct (points_block _ _ _ Lv P) as [Lb E]. destruct (blk_size a _ E) as (Sz & _ & Pos & _).
  cbn [block_size] in Sz. destruct I as (wk & C & Al) eqn:EI.
  destruct (transport_step cp s o a Vector al I Lv P ltac:(discriminate) Na) as (s1 & Run1 & St1 & W1).
  pose proof (col_rest _ _ _ C a _ E Na 0 ltac:(lia)) as V. rewrite !Z.add_0_r in V.
  autorewrite with gc. rewrite V, <- Sz. erewrite gbind_done by exact Run1. autorewrite with gc.
  exists (OBJECT_NEW_ADDRESS L o (nb + total cp)), s1, [a].
  split; [reflexivity |]. split; [exact St1 |]. unfold forwarded. rewrite P.
  exists (nb + total cp). split; [now apply place_last | reflexivity].
Qed.

(** ** Weak pairs *)

(** [weak_referent_address] finds the fromspace addresses [points] finds. *)
Lemma weak_referent_points w s :
  good w ->
  exists c, weak_referent_address L w s = Done c s
    /\ match points w with
       | Some (b, _) => c = b /\ gc_ptr_type w = GC_POINTER_NORMAL
                        /\ negb (c =? 0) && ADDRESS_IN_FROMSPACE_P L c = true
       | None => negb (c =? 0) && ADDRESS_IN_FROMSPACE_P L c = false
       end.
Proof.
  intros (U & Pl & _). pose proof (plain_ptr_type w U Pl) as T. unfold weak_referent_address.
  destruct (gc_ptr_type w) eqn:G; [| easy |].
  - exists (OBJECT_ADDRESS L w). split; [reflexivity |].
    pose proof (address_nonzero w) as N. destruct (Z.eqb_spec (OBJECT_ADDRESS L w) 0); [contradiction |].
    cbn [negb andb]. unfold GcSpec.points. destruct (reference w) as [k|] eqn:R.
    + now destruct (ADDRESS_IN_FROMSPACE_P L (OBJECT_ADDRESS L w)) eqn:F.
    + destruct T as [T | T]; [congruence |]. unfold OBJECT_ADDRESS, DATUM_TO_ADDRESS. rewrite T.
      pose proof (wl_from _ WL). apply not_true_is_false. intros F%in_from_P. unfold in_from in F. lia.
  - exists 0. split; [reflexivity |]. unfold GcSpec.points. now rewrite T.
Qed.

Lemma good_type_range w : good w -> 0 <= OBJECT_TYPE w < 64.
Proof. intros (U & _). now apply type_range. Qed.

(** Putting a transported weak pair on the chain. *)
Lemma collecting_chain cp wk s a m :
  collecting cp wk s -> In a cp -> ~ In a wk -> weak_candidate a ->
  (forall x, in_from L x -> x <> a + 1 -> m x = gmem s x) ->
  m (a + 1) = chain_word (m0 a) (weak_chain s) ->
  collecting cp (a :: wk) (set_weak_chain (set_gmem s m) a).
Proof.
  intros C Ha Nwk (E & Pc) Hm Hc.
  destruct (blk_size a _ E) as (Sz & Lo & _ & Hi). cbn [block_size] in Sz.
  assert (Inside : forall b k i, blk b = Some k -> b <> a -> 0 <= i < size b -> m (b + i) = gmem s (b + i)).
  { intros b k i Eb N Hi'. destruct (blk_size b k Eb) as (_ & ? & _ & ?).
    destruct (blk_apart a b _ k E Eb ltac:(congruence)); apply Hm; unfold in_from; lia. }
  destruct C as [nd lv tn nn heart rest ch cw cwn q]. split; gc_fields; auto.
  - intros b p Hp. rewrite <- (heart b p Hp). destruct (place_In _ _ _ _ Hp) as [Hin _].
    destruct (live_block_blk b (lv b Hin)) as [k Eb]. destruct (blk_size b k Eb) as (_ & ? & ? & ?).
    apply Hm; [unfold in_from; lia |]. intros ->.
    destruct (blk_apart a (a + 1) _ k E Eb ltac:(lia)); lia.
  - intros b k Eb Nb i Hi'. rewrite <- (rest b k Eb Nb i Hi'). eapply Inside; eauto. intros ->. contradiction.
  - cbn [chained]. split; [reflexivity |]. exists (weak_chain s). split; [exact Hc |].
    eapply chained_ext; [| exact ch]. intros b Hb. destruct (cw b Hb) as (Hin & Eb & _).
    eapply Inside; [exact Eb | congruence |]. destruct (blk_size b _ Eb) as (-> & _). cbn [block_size]. lia.
  - intros b [<- | Hb]; [split; [exact Ha | now split] | auto].
  - constructor; auto.
Qed.

(** A live weak pair's words are good. *)
Lemma weak_words a : blk a = Some Weak_pair -> good (m0 a) /\ good (m0 (a + 1)).
Proof.
  intros E. pose proof (wh_contents _ _ _ WH a _ E) as C. cbn [wf_block] in C.
  unfold block_words in C. change (Z.to_nat (block_size m0 Weak_pair a)) with 2%nat in C.
  cbn [words_at] in C. inversion C as [| x l H1 H2]; subst. inversion H2; subst. auto.
Qed.

Lemma gc_transport_weak_pair_spec cp s o :
  invariant cp s -> live o -> points o = Some (OBJECT_ADDRESS L o, Weak_pair) ->
  ~ In (OBJECT_ADDRESS L o) cp ->
  exists o' s', gc_transport_weak_pair L fuel o s = Done o' s'
    /\ step cp s [OBJECT_ADDRESS L o] s'
    /\ forwarded L (place nb (cp ++ [OBJECT_ADDRESS L o])) o o'.
Proof.
  intros (wk & C & Al) Lv P Na. set (a := OBJECT_ADDRESS L o) in *.
  destruct (points_block _ _ _ Lv P) as [Lb E]. destruct (blk_size a _ E) as (Sz & Lo & _ & Hi).
  cbn [block_size] in Sz. destruct (weak_words a E) as [G0 G1].
  destruct (transport_block cp wk s a _ false C Lb E Na) as (s1 & Run & C1 & Fr & W & Tn & Rf).
  rewrite Sz in Run, Tn. pose proof (room cp wk s a _ C E Na) as Room. rewrite Sz in Room.
  unfold block_words in W. rewrite Sz in W. change (Z.to_nat 2) with 2%nat in W.
  change (Z.to_nat (block_size m0 Weak_pair a)) with 2%nat in W. cbn [words_at] in W.
  injection W as W0 W1. pose proof (total_nonneg cp) as T0.
  pose proof (col_tnext _ _ _ C) as Tc.
  assert (NT : NEWSPACE_TO_TOSPACE L (nb + total cp) = tospace_next s).
  { pose proof (newspace_to_tospace_next _ _ _ 0 C) as N0. now rewrite !Z.add_0_r in N0. }
  assert (Fwd : forwarded L (place nb (cp ++ [a])) o (OBJECT_NEW_ADDRESS L o (nb + total cp))).
  { unfold forwarded. rewrite P. exists (nb + total cp). split; [now apply place_last | reflexivity]. }
  assert (Lc : length (copies [a]) = 2%nat) by (rewrite copies_one; pose proof (copy_length a); lia).
  unfold gc_transport_weak_pair. fold a. erewrite gbind_done by exact Run.
  unfold READ_TOSPACE, WRITE_TOSPACE. autorewrite with gc. rewrite NT, W0.
  destruct (weak_referent_points (m0 a) s1 G0) as (c & Rc & Hc). erewrite gbind_done by exact Rc.
  assert (NF : ~ in_from L (tospace_next s)) by (apply tospace_not_from; lia).
  assert (NF1 : ~ in_from L (tospace_next s + 1)) by (apply tospace_not_from; lia).
  destruct (points (m0 a)) as [[b k]|] eqn:Pc.
  - destruct Hc as (_ & _ & ->). autorewrite with gc. gc_fields.
    set (m1 := store (gmem s1) (tospace_next s) (OBJECT_NEW_TYPE TC_FALSE (m0 a))).
    fold (chain_word (m0 a) (weak_chain s1)). set (m2 := store m1 (a + 1) (chain_word (m0 a) (weak_chain s1))).
    assert (Fa : in_from L (a + 1)) by (unfold in_from; lia).
    exists (OBJECT_NEW_ADDRESS L o (nb + total cp)), (set_weak_chain (set_gmem s1 m2) a).
    split; [reflexivity |]. split; [| exact Fwd]. split.
    + exists (a :: wk). split.
      * apply (collecting_chain (cp ++ [a]) wk s1 a m2); [exact C1 | | | | |].
        -- apply in_or_app. right. left. reflexivity.
        -- intros H. apply Na, (col_wk _ _ _ C a H).
        -- split; [exact E | congruence].
        -- intros x Fx Nx. unfold m2. rewrite store_other by exact Nx. unfold m1.
           apply store_other. intros ->. exact (NF Fx).
        -- unfold m2. apply store_same.
      * intros b' [Hb | [<- | []]]%in_app_or Hw; [right; exact (Al b' Hb Hw) | left; reflexivity].
    + split; gc_fields.
      * intros x N1 N2. unfold m2. rewrite store_other by congruence. unfold m1.
        rewrite store_other by lia. exact (Fr x N1 N2).
      * rewrite Lc, copies_one. unfold copy_of. rewrite E. cbn [GcSpec.transported words_at].
        unfold neutral. rewrite Pc. unfold m2, m1.
        rewrite (store_other _ (a + 1) _ (tospace_next s)) by congruence. rewrite (store_same (gmem s1) (tospace_next s)).
        rewrite (store_other _ (a + 1)) by congruence. rewrite store_other by lia. rewrite W1. reflexivity.
  - rewrite Hc. autorewrite with gc. exists (OBJECT_NEW_ADDRESS L o (nb + total cp)), s1.
    split; [reflexivity |]. split; [| exact Fwd]. split.
    + exists wk. split; [exact C1 |]. intros b' [Hb | [<- | []]]%in_app_or Hw; [exact (Al b' Hb Hw) |].
      destruct Hw as [_ Hw]. congruence.
    + split; [exact Fr |]. rewrite Lc, copies_one. unfold copy_of. rewrite E.
      cbn [GcSpec.transported words_at]. unfold neutral. rewrite Pc. rewrite W0, W1. reflexivity.
Qed.

End Invariant.
