(* ===== verification/GcScan.v ===== *)
(** * The scan loop of the garbage collector (for Gc.v)

    One object: every handler leaves the scan at the next object and the
    object forwarded.  Then [run_gc_loop] on a fixed region, as for the roots,
    and on tospace, which grows while it is scanned. *)

From Stdlib Require Import ZArith List Lia Bool.
From S2P Require Import Prelude.
From S2P Require Import Object.
From S2P Require Import Memory.
From S2P Require Import Gc.
From S2P Require Import GcSpec.
From S2P Require Import GcInv.
Import ListNotations.

Section Scan.
Context {L : layout} {m0 : memory} {blk : Z -> option block_kind} {root : Z -> Prop}.
Context {CTX : gc_context L m0 blk root}.
Context {fuel : nat} {EF : enough L fuel}.

Notation nb := (newspace_start L + n_roots).
Notation limit := (tospace_start L + n_roots + (fromspace_end L - fromspace_start L)).
Notation invariant := (@invariant L m0 blk root).
Notation step := (@step L m0 blk root).
Notation copies := (@copies L m0 blk).
Notation total := (@total m0 blk).
Notation place := (@place m0 blk).
Notation live := (live L m0 root).
Notation good := (good L blk).

#[local] Opaque initialize_gc_table GcInv.place GcInv.total GcInv.copies words_at.

(** An address that the collector may scan: outside of fromspace and of the
    part of tospace still to be filled. *)
Definition scan_address (s : gc_state) (x : Z) : Prop :=
  ~ in_from L x /\ ~ (tospace_next s <= x < limit).

Definition strong (w : Z) : Prop := good w /\ live w.

(** ** One object *)

Record scanned_one (cp : list Z) (s : gc_state) (x o : Z) (new : list Z) (s' : gc_state) : Prop := {
  one_invariant : invariant (cp ++ new) s';
  one_forwarded : forwarded L (place nb (cp ++ new)) o (gmem s' x);
  one_frame : forall y, y <> x -> ~ in_from L y -> ~ (tospace_next s <= y < tospace_next s') ->
    gmem s' y = gmem s y;
  one_copies : words_at (gmem s') (tospace_next s) (length (copies new)) = copies new;
  one_next : tospace_next s' = tospace_next s + total new
             /\ 0 <= total new /\ tospace_start L + n_roots <= tospace_next s /\ tospace_next s' <= limit
}.

Lemma store_object cp s x o o' new s1 :
  invariant cp s -> scan_address s x -> step cp s new s1 ->
  forwarded L (place nb (cp ++ new)) o o' ->
  scanned_one cp s x o new (set_gmem s1 (store (gmem s1) x o')).
Proof.
  intros I [Nf Nt] St F. pose proof (step_next _ _ _ _ I St) as N. destruct St as [I1 [Fr K]].
  split; cbn [gmem set_gmem tospace_next].
  - apply invariant_set; [| exact I1]. intros y Hy. apply store_other. congruence.
  - rewrite store_same. exact F.
  - intros y N1 N2 N3. rewrite store_other by exact N1. exact (Fr y N2 N3).
  - rewrite <- K at 2. apply words_at_ext. intros i Hi. rewrite (copies_length (root := root)) in Hi.
    apply store_other. lia.
  - exact N.
Qed.

Lemma unchanged_object cp s x o :
  invariant cp s -> points L o = None -> gmem s x = o -> scanned_one cp s x o [] s.
Proof.
  intros I P V. pose proof (step_refl cp s I) as St. pose proof (step_next _ _ _ _ I St).
  split; try (apply St || assumption); [| auto]. unfold forwarded. now rewrite P.
Qed.

Lemma handle_tuple_spec cp s x o n :
  invariant cp s -> scan_address s x -> live o -> reference o = Some (Tuple n) ->
  exists s' new, handle_tuple L fuel x o n s = Done (x + 1) s' /\ scanned_one cp s x o new s'.
Proof.
  intros I Sx Lv R. destruct (gc_tuple_spec cp s o n I Lv R) as (o' & s1 & new & Run & St & F).
  unfold handle_tuple. erewrite gbind_done by exact Run. autorewrite with gc.
  eexists _, new. split; [reflexivity |]. now apply (store_object cp s x o o').
Qed.

Lemma handle_vector_spec cp s x o al :
  invariant cp s -> scan_address s x -> live o -> reference o = Some Vector ->
  exists s' new, handle_vector L fuel x o al s = Done (x + 1) s' /\ scanned_one cp s x o new s'.
Proof.
  intros I Sx Lv R. destruct (gc_vector_spec cp s o al I Lv R) as (o' & s1 & new & Run & St & F).
  unfold handle_vector. erewrite gbind_done by exact Run. autorewrite with gc.
  eexists _, new. split; [reflexivity |]. now apply (store_object cp s x o o').
Qed.

Lemma handle_weak_pair_spec cp s x o :
  invariant cp s -> scan_address s x -> live o -> reference o = Some Weak_pair ->
  exists s' new,
    handle_chained L fuel (gc_transport_weak_pair L fuel) x o s = Done (x + 1) s'
    /\ scanned_one cp s x o new s'.
Proof.
  intros I Sx Lv R. unfold handle_chained.
  destruct (gc_precheck_spec (fuel := fuel) cp s o _ I Lv R) as (p & Run & Ck). erewrite gbind_done by exact Run.
  destruct (checked_nonzero _ _ _ _ _ I Ck) as [Np | (-> & P & Na)].
  - destruct (Z.eqb_spec p 0); [contradiction |]. cbn [negb]. autorewrite with gc.
    eexists _, []. split; [reflexivity |]. apply store_object; auto using step_refl.
    rewrite app_nil_r. now apply (checked_forwarded cp s o Weak_pair).
  - rewrite Z.eqb_refl. cbn [negb].
    destruct (gc_transport_weak_pair_spec cp s o I Lv P Na) as (o' & s1 & Run1 & St & F).
    erewrite gbind_done by exact Run1. autorewrite with gc.
    eexists _, [OBJECT_ADDRESS L o]. split; [reflexivity |]. now apply (store_object cp s x o o').
Qed.

Lemma points_not_reference o : reference o = None -> points L o = None.
Proof. intros H. unfold points. now rewrite H. Qed.

(** Every handler a plain object can have. *)
Lemma scan_object_spec cp s x o :
  invariant cp s -> scan_address s x -> strong o -> gmem s x = o ->
  exists s' new, scan_object L fuel x o s = Done (x + 1) s' /\ scanned_one cp s x o new s'.
Proof.
  intros I Sx [(U & Pl & _) Lv] V. unfold scan_object. unfold plain in Pl.
  destruct (initialize_gc_table (OBJECT_TYPE o)) as [h|] eqn:T; [| discriminate].
  assert (Ref : reference o = match h with
    | gc_handle_cell => Some (Tuple 1) | gc_handle_pair => Some (Tuple 2)
    | gc_handle_triple => Some (Tuple 3) | gc_handle_quadruple => Some (Tuple 4)
    | gc_handle_aligned_vector | gc_handle_unaligned_vector => Some Vector
    | gc_handle_weak_pair => Some Weak_pair | gc_handle_ephemeron => Some Ephemeron
    | gc_handle_reference_trap =>
        if OBJECT_DATUM o <=? TRAP_MAX_IMMEDIATE then None else Some (Tuple 2)
    | _ => None end) by (unfold reference; rewrite T; now destruct h).
  destruct h; try discriminate; cbn [gc_handle];
    eauto using handle_tuple_spec, handle_vector_spec, handle_weak_pair_spec.
  - exists s, []. split; [reflexivity |]. apply unchanged_object; auto using points_not_reference.
  - destruct (OBJECT_DATUM o <=? TRAP_MAX_IMMEDIATE) eqn:D; [| eauto using handle_tuple_spec].
    autorewrite with gc. eexists _, []. split; [reflexivity |].
    apply store_object; auto using step_refl. unfold forwarded.
    now rewrite points_not_reference.
Qed.

Lemma scan_nmv s x w : NMV_P w = true -> scan_object L fuel x w s = Done (x + 1 + OBJECT_DATUM w) s.
Proof.
  unfold NMV_P, scan_object. intros H%Z.eqb_eq. rewrite H. reflexivity.
Qed.

(** ** The loop *)

Lemma forwarded_app cp new o o' :
  forwarded L (place nb cp) o o' -> forwarded L (place nb (cp ++ new)) o o'.
Proof.
  unfold forwarded. destruct (points L o) as [[a k]|]; [| auto].
  intros (p & Hp & E). exists p. split; [now apply place_app | exact E].
Qed.

Lemma scanned_forwarded_app cp new ws ws' :
  scanned (forwarded L (place nb cp)) ws ws' -> scanned (forwarded L (place nb (cp ++ new))) ws ws'.
Proof. apply scanned_weaken. intros v v'. apply forwarded_app. Qed.

Lemma words_at_cons m x n : words_at m x (S n) = m x :: words_at m (x + 1) n.
Proof. reflexivity. Qed.

(** The words [ws] at [x] have been scanned. *)
Record scanned_region (cp : list Z) (s : gc_state) (x : Z) (ws new : list Z) (s' : gc_state) : Prop := {
  reg_invariant : invariant (cp ++ new) s';
  reg_scanned : scanned (forwarded L (place nb (cp ++ new))) ws (words_at (gmem s') x (length ws));
  reg_frame : forall y, ~ (x <= y < x + Z.of_nat (length ws)) -> ~ in_from L y ->
    ~ (tospace_next s <= y < tospace_next s') -> gmem s' y = gmem s y;
  reg_copies : words_at (gmem s') (tospace_next s) (length (copies new)) = copies new;
  reg_next : tospace_next s' = tospace_next s + total new
             /\ 0 <= total new /\ tospace_start L + n_roots <= tospace_next s /\ tospace_next s' <= limit
}.

Lemma tospace_next_range cp s : invariant cp s ->
  tospace_start L + n_roots <= tospace_next s <= limit.
Proof. intros I. pose proof (step_next _ _ _ _ I (step_refl cp s I)). lia. Qed.

Lemma scanned_region_nil cp s x : invariant cp s -> scanned_region cp s x [] [] s.
Proof.
  intros I. pose proof (tospace_next_range cp s I). split.
  - now rewrite app_nil_r.
  - constructor.
  - auto.
  - reflexivity.
  - change (total []) with 0. lia.
Qed.

(** A region outside of fromspace and tospace. *)
Definition region (x n : Z) : Prop :=
  forall y, x <= y < x + n -> ~ in_from L y /\ ~ (tospace_start L <= y < limit).

Lemma region_cons cp s x w ws new1 s1 new s' :
  region x (Z.of_nat (S (length ws))) -> NMV_P w = false ->
  scanned_one cp s x w new1 s1 -> scanned_region (cp ++ new1) s1 (x + 1) ws new s' ->
  scanned_region cp s x (w :: ws) (new1 ++ new) s'.
Proof.
  intros Rg N [I1 F1 Fr1 K1 T1] [I' Sc' Fr' K' T']. destruct (Rg x ltac:(lia)) as [Rf Rt].
  assert (V : gmem s' x = gmem s1 x) by (apply Fr'; [lia | exact Rf | lia]).
  split; cbn [length].
  - rewrite app_assoc. exact I'.
  - rewrite words_at_cons, V, app_assoc. apply GcSpec.scanned_word; [exact N | | exact Sc'].
    now apply forwarded_app.
  - intros y N1 N2 N3. rewrite Fr', Fr1; [reflexivity | lia | exact N2 | lia | lia | exact N2 | lia].
  - rewrite (copies_app (L := L) (m0 := m0) (blk := blk)), length_app, words_at_app. f_equal.
    + rewrite <- K1 at 2. apply words_at_ext. intros i Hi.
      rewrite (copies_length (root := root)) in Hi.
      assert (tospace_next s + i <> x) by (intros E; apply Rt; lia).
      apply Fr'; [intros Hy; apply (Rg (tospace_next s + i)); lia | apply tospace_not_from; lia | lia].
    + rewrite (copies_length (root := root)). destruct T1 as (<- & _). exact K'.
  - rewrite (total_app (m0 := m0) (blk := blk)). lia.
Qed.

Lemma region_skip cp s x w sk ws new s' :
  region x (Z.of_nat (length (w :: sk ++ ws))) -> invariant cp s ->
  words_at (gmem s) x (length (w :: sk)) = w :: sk ->
  NMV_P w = true -> OBJECT_DATUM w = Z.of_nat (length sk) ->
  scanned_region cp s (x + 1 + Z.of_nat (length sk)) ws new s' ->
  scanned_region cp s x (w :: sk ++ ws) new s'.
Proof.
  cbn [length]. rewrite length_app. intros Rg I W N D [I' Sc' Fr' K' T'].
  pose proof (tospace_next_range cp s I) as Tr.
  assert (V : words_at (gmem s') x (S (length sk)) = w :: sk).
  { rewrite <- W. apply words_at_ext. intros i Hi. destruct (Rg (x + i) ltac:(lia)) as [Rf Rt].
    apply Fr'; [lia | exact Rf | lia]. }
  split; [exact I' | | | exact K' | exact T']; cbn [length]; rewrite length_app.
  - change (S (length sk + length ws)) with (S (length sk) + length ws)%nat.
    rewrite words_at_app, V. cbn [app]. apply GcSpec.scanned_nmv; [exact N | exact D |].
    replace (x + Z.of_nat (S (length sk))) with (x + 1 + Z.of_nat (length sk)) by lia. exact Sc'.
  - intros y N1 N2 N3. apply Fr'; [lia | exact N2 | exact N3].
Qed.

(** One round of the loop. *)
Lemma run_gc_loop_next n x pend s w x' s1 :
  x < pend s -> gmem s x = w -> scan_object L fuel x w s = Done x' s1 ->
  run_gc_loop L fuel (S n) x pend s = run_gc_loop L fuel n x' pend s1.
Proof.
  intros Hx V Run. cbn [run_gc_loop]. autorewrite with gc.
  destruct (Z.ltb_spec x (pend s)); [| lia]. autorewrite with gc. rewrite V.
  now erewrite gbind_done by exact Run.
Qed.

Lemma scan_fixed ws : scannable strong ws -> forall n cp s x,
  invariant cp s -> words_at (gmem s) x (length ws) = ws -> region x (Z.of_nat (length ws)) ->
  (length ws < n)%nat ->
  exists s' new,
    run_gc_loop L fuel n x (fun _ => x + Z.of_nat (length ws)) s = Done tt s'
    /\ scanned_region cp s x ws new s'.
Proof.
  induction 1 as [| w ws Hw N Hs IH | w sk ws N D Hs IH]; intros n cp s x I W Rg Hn.
  - destruct n; [cbn [length] in Hn; lia |]. exists s, []. cbn [run_gc_loop length]. autorewrite with gc.
    destruct (Z.ltb_spec x (x + Z.of_nat 0)); [lia |]. split; [reflexivity | now apply scanned_region_nil].
  - cbn [length] in *. destruct n as [|n]; [lia |]. rewrite words_at_cons in W. injection W as W0 W.
    pose proof (tospace_next_range cp s I) as Tr. destruct (Rg x ltac:(lia)) as [Rf Rt].
    destruct (scan_object_spec cp s x w I) as (s1 & new1 & Run & One);
      [split; [exact Rf | lia] | exact Hw | exact W0 |].
    pose proof One as [I1 F1 Fr1 K1 T1].
    destruct (IH n (cp ++ new1) s1 (x + 1)) as (s' & new & Run' & Reg); [exact I1 | | | lia |].
    + rewrite <- W at 2. apply words_at_ext. intros i Hi. destruct (Rg (x + 1 + i) ltac:(lia)) as [Rf' Rt'].
      apply Fr1; [lia | exact Rf' | lia].
    + intros y Hy. apply Rg. lia.
    + exists s', (new1 ++ new). split; [| now apply (region_cons cp s x w ws new1 s1)].
      rewrite (run_gc_loop_next n x _ s w (x + 1) s1); [| cbv beta; lia | exact W0 | exact Run].
      replace (x + Z.of_nat (S (length ws))) with (x + 1 + Z.of_nat (length ws)) by lia. exact Run'.
  - cbn [length] in *. rewrite length_app in *. destruct n as [|n]; [lia |].
    pose proof W as W'. change (S (length sk + length ws)) with (S (length sk) + length ws)%nat in W'.
    rewrite words_at_app in W'. change (w :: sk ++ ws) with ((w :: sk) ++ ws) in W'.
    apply app_inj_length in W' as [Wk Ww]; [| now rewrite words_at_length].
    replace (x + Z.of_nat (S (length sk))) with (x + 1 + Z.of_nat (length sk)) in Ww by lia.
    destruct (IH n cp s (x + 1 + Z.of_nat (length sk))) as (s' & new & Run' & Reg);
      [exact I | exact Ww | intros y Hy; apply Rg; lia | lia |].
    exists s', new. split.
    + rewrite words_at_cons in W. injection W as W0 _.
      rewrite (run_gc_loop_next n x _ s w (x + 1 + OBJECT_DATUM w) s); [| cbv beta; lia | exact W0 | now apply scan_nmv].
      rewrite D. replace (x + Z.of_nat (S (length sk + length ws)))
        with (x + 1 + Z.of_nat (length sk) + Z.of_nat (length ws)) by lia. exact Run'.
    + apply region_skip; try assumption. cbn [length]. now rewrite length_app.
Qed.

(** ** Scanning tospace *)

(** From [x] to the end of tospace everything is scanned: what was there, and
    the copies made meanwhile. *)
Record scanned_tospace (cp : list Z) (s : gc_state) (x : Z) (ws new : list Z) (s' : gc_state) : Prop := {
  tos_invariant : invariant (cp ++ new) s';
  tos_scanned : scanned (forwarded L (place nb (cp ++ new))) (ws ++ copies new)
                  (words_at (gmem s') x (length (ws ++ copies new)));
  tos_frame : forall y, ~ in_from L y -> ~ (x <= y < tospace_next s') -> gmem s' y = gmem s y;
  tos_next : tospace_next s' = tospace_next s + total new /\ 0 <= total new /\ tospace_next s' <= limit
}.

Lemma scanned_tospace_nil cp s x : invariant cp s -> scanned_tospace cp s x [] [] s.
Proof.
  intros I. pose proof (tospace_next_range cp s I). split.
  - now rewrite app_nil_r.
  - constructor.
  - reflexivity.
  - change (total []) with 0. lia.
Qed.

Lemma tospace_cons cp s x w ws new1 s1 new s' :
  tospace_start L <= x -> x + 1 + Z.of_nat (length ws) = tospace_next s -> NMV_P w = false ->
  scanned_one cp s x w new1 s1 -> scanned_tospace (cp ++ new1) s1 (x + 1) (ws ++ copies new1) new s' ->
  scanned_tospace cp s x (w :: ws) (new1 ++ new) s'.
Proof.
  intros Hx Ex N [I1 F1 Fr1 K1 T1] [I' Sc' Fr' T'].
  assert (V : gmem s' x = gmem s1 x) by (apply Fr'; [apply tospace_not_from; lia | lia]).
  split.
  - rewrite app_assoc. exact I'.
  - rewrite (copies_app (L := L) (m0 := m0) (blk := blk)). cbn [app length]. rewrite words_at_cons, V, !app_assoc.
    apply GcSpec.scanned_word; [exact N | now apply forwarded_app | exact Sc'].
  - intros y N1 N2. rewrite Fr', Fr1; [reflexivity | lia | exact N1 | lia | exact N1 | lia].
  - rewrite (total_app (m0 := m0) (blk := blk)). lia.
Qed.

Lemma tospace_skip cp s x w sk ws new s' :
  tospace_start L <= x -> x + 1 + Z.of_nat (length sk) <= tospace_next s -> invariant cp s ->
  words_at (gmem s) x (length (w :: sk)) = w :: sk ->
  NMV_P w = true -> OBJECT_DATUM w = Z.of_nat (length sk) ->
  scanned_tospace cp s (x + 1 + Z.of_nat (length sk)) ws new s' ->
  scanned_tospace cp s x (w :: sk ++ ws) new s'.
Proof.
  intros Hx Ex I W N D [I' Sc' Fr' T']. pose proof (tospace_next_range cp s I) as Tr.
  assert (V : words_at (gmem s') x (length (w :: sk)) = w :: sk).
  { rewrite <- W at 2. apply words_at_ext. cbn [length]. intros i Hi.
    apply Fr'; [apply tospace_not_from; lia | lia]. }
  split; [exact I' | | intros y N1 N2; apply Fr'; [exact N1 | lia] | exact T'].
  cbn [app]. rewrite <- app_assoc.
  change (w :: sk ++ ws ++ copies new) with ((w :: sk) ++ (ws ++ copies new)) at 2.
  rewrite length_app, words_at_app, V. cbn [app]. apply GcSpec.scanned_nmv; [exact N | exact D |].
  cbn [length]. replace (x + Z.of_nat (S (length sk))) with (x + 1 + Z.of_nat (length sk)) by lia.
  exact Sc'.
Qed.

(** The copies added by a step can be scanned. *)
Lemma copies_scannable cp new s : invariant (cp ++ new) s -> scannable strong (copies new).
Proof.
  intros (wk & C & _). rewrite (copies_concat (m0 := m0)). apply scannable_concat, Forall_map, Forall_forall.
  intros a Ha. apply copy_scannable, (col_live _ _ _ C). apply in_or_app. now right.
Qed.

Lemma scan_moving n : forall cp s x ws,
  invariant cp s -> scannable strong ws -> words_at (gmem s) x (length ws) = ws ->
  tospace_start L <= x -> x + Z.of_nat (length ws) = tospace_next s -> (Z.to_nat (limit - x) < n)%nat ->
  exists s' new,
    run_gc_loop L fuel n x tospace_next s = Done tt s' /\ scanned_tospace cp s x ws new s'.
Proof.
  induction n as [|n IH]; intros cp s x ws I Hs W Hx Ex Hn; [lia |].
  pose proof (tospace_next_range cp s I) as Tr.
  destruct Hs as [| w ws Hw N Hs | w sk ws N D Hs]; cbn [length] in *.
  - exists s, []. cbn [run_gc_loop]. autorewrite with gc.
    destruct (Z.ltb_spec x (tospace_next s)); [lia |]. split; [reflexivity | now apply scanned_tospace_nil].
  - rewrite words_at_cons in W. injection W as W0 W.
    destruct (scan_object_spec cp s x w I) as (s1 & new1 & Run & One);
      [split; [apply tospace_not_from |]; lia | exact Hw | exact W0 |].
    pose proof One as [I1 F1 Fr1 K1 T1].
    destruct (IH (cp ++ new1) s1 (x + 1) (ws ++ copies new1)) as (s' & new & Run' & Tos).
    + exact I1.
    + apply scannable_app; [exact Hs | now apply (copies_scannable cp _ s1)].
    + rewrite length_app, words_at_app. f_equal.
      * rewrite <- W at 2. apply words_at_ext. intros i Hi.
        apply Fr1; [lia | apply tospace_not_from; lia | lia].
      * replace (x + 1 + Z.of_nat (length ws)) with (tospace_next s) by lia. exact K1.
    + lia.
    + rewrite length_app, Nat2Z.inj_add, (copies_length (root := root)). lia.
    + lia.
    + exists s', (new1 ++ new). split; [| apply (tospace_cons cp s x w ws new1 s1); (lia || assumption)].
      rewrite (run_gc_loop_next n x _ s w (x + 1) s1); [exact Run' | lia | exact W0 | exact Run].
  - rewrite length_app in *. pose proof W as W'.
    change (S (length sk + length ws)) with (S (length sk) + length ws)%nat in W'.
    rewrite words_at_app in W'. change (w :: sk ++ ws) with ((w :: sk) ++ ws) in W'.
    apply app_inj_length in W' as [Wk Ww]; [| now rewrite words_at_length].
    replace (x + Z.of_nat (S (length sk))) with (x + 1 + Z.of_nat (length sk)) in Ww by lia.
    destruct (IH cp s (x + 1 + Z.of_nat (length sk)) ws) as (s' & new & Run' & Tos);
      [exact I | exact Hs | exact Ww | lia | lia | lia |].
    exists s', new. split; [| apply tospace_skip; (lia || assumption)].
    rewrite words_at_cons in W. injection W as W0 _.
    rewrite (run_gc_loop_next n x _ s w (x + 1 + OBJECT_DATUM w) s);
      [rewrite D; exact Run' | lia | exact W0 | now apply scan_nmv].
Qed.

End Scan.
