(* ===== verification/GcWeak.v ===== *)
(** * Weak pairs after the scan (for Gc.v)

    [update_weak_pairs] walks the chain of transported weak pairs and gives
    each its car: the forwarded object, or #F when nothing else kept it. *)

From Stdlib Require Import ZArith List Lia Bool.
From S2P Require Import Prelude.
From S2P Require Import Object.
From S2P Require Import Memory.
From S2P Require Import Gc.
From S2P Require Import GcSpec.
From S2P Require Import GcInv.
Import ListNotations.

(** The car of a weak pair after a collection that forwards by [new]. *)
Definition weak_result (L : layout) (new : Z -> option Z) (w : Z) : Z :=
  match points L w with
  | Some (b, _) => match new b with Some q => OBJECT_NEW_ADDRESS L w q | None => SHARP_F end
  | None => w
  end.

Section Weak.
Context {L : layout} {m0 : memory} {blk : Z -> option block_kind} {root : Z -> Prop}.
Context {CTX : gc_context L m0 blk root}.
Context {fuel : nat} {EF : enough L fuel}.

Notation nb := (newspace_start L + n_roots).
Notation place := (@place m0 blk).
Notation total := (@total m0 blk).
Notation collecting := (@collecting L m0 blk root).
Notation weak_candidate := (@weak_candidate L m0 blk).
Notation chained := (@chained L m0).
Notation good := (good L blk).

#[local] Opaque initialize_gc_table GcInv.place GcInv.total words_at.

(** Where the car of a copied weak pair is in tospace. *)
Definition car_at (cp : list Z) (a x : Z) : Prop :=
  exists p, place nb cp a = Some p /\ x = NEWSPACE_TO_TOSPACE L p.

Lemma car_at_range cp wk s a x :
  collecting cp wk s -> car_at cp a x -> ~ in_from L x.
Proof.
  intros C (p & Hp & ->). destruct (place_In _ _ _ _ Hp) as (Hin & Hlo & Hhi).
  pose proof (collecting_bound _ _ _ C). destruct (live_block_blk a (col_live _ _ _ C a Hin)) as [k E].
  pose proof (blk_size a k E). apply tospace_not_from. unfold NEWSPACE_TO_TOSPACE. lia.
Qed.

Lemma car_at_inj cp wk s a b x y :
  collecting cp wk s -> car_at cp a x -> car_at cp b y -> a <> b -> x <> y.
Proof.
  intros C (p & Hp & ->) (q & Hq & ->) N.
  destruct (place_In _ _ _ _ Hp) as (Ha & _). destruct (place_In _ _ _ _ Hq) as (Hb & _).
  destruct (live_block_blk a (col_live _ _ _ C a Ha)) as [k Ea].
  destruct (live_block_blk b (col_live _ _ _ C b Hb)) as [k' Eb].
  pose proof (blk_size a k Ea). pose proof (blk_size b k' Eb).
  destruct (place_apart _ _ _ _ _ _ Hp Hq N); unfold NEWSPACE_TO_TOSPACE; lia.
Qed.

(** What [weak_referent_forward] says of an object that refers to fromspace,
    when fromspace is as the scan left it. *)
Lemma weak_referent_forward_spec cp wk s s' w b k :
  collecting cp wk s -> good w -> points L w = Some (b, k) ->
  (forall x, in_from L x -> gmem s' x = gmem s x) ->
  weak_referent_forward L w s' = Done (weak_result L (place nb cp) w) s'.
Proof.
  intros C G P Hm. destruct (points_from w b k P) as (_ & A & F).
  assert (E : blk b = Some k) by (apply G; exact P).
  destruct (weak_referent_points (CTX := CTX) w s G) as (c & _ & Hc). rewrite P in Hc.
  destruct Hc as (_ & T & _). unfold weak_referent_forward, weak_result. rewrite T, P, A.
  autorewrite with gc. rewrite (Hm b F).
  destruct (place nb cp b) as [q|] eqn:Hq.
  - rewrite (col_heart _ _ _ C b q Hq). destruct (place_range _ _ _ _ _ C Hq) as [Rg _].
    destruct (heart_object q Rg) as [-> _].
    unfold MAKE_OBJECT_FROM_OBJECTS, OBJECT_NEW_ADDRESS, OBJECT_NEW_DATUM, MAKE_BROKEN_HEART,
      MAKE_POINTER_OBJECT, ADDRESS_TO_DATUM.
    rewrite ulong_small by lia.
    destruct (MAKE_OBJECT_parts TC_BROKEN_HEART (q - memory_base L)) as [_ ->]; [lia | lia | reflexivity].
  - assert (N : ~ In b cp) by (intros H; destruct (In_place (m0 := m0) (blk := blk) nb cp b H); congruence).
    pose proof (blk_size b k E). pose proof (col_rest _ _ _ C b k E N 0 ltac:(lia)) as V.
    rewrite !Z.add_0_r in V. rewrite V, (first_word b k E). reflexivity.
Qed.

(** The chain word gives back the car and the next pair. *)
Lemma chain_word_parts w c b k :
  good w -> points L w = Some (b, k) -> c = 0 \/ in_from L c ->
  OBJECT_NEW_TYPE (OBJECT_TYPE (chain_word (L := L) w c)) (neutral L w) = w
  /\ (if OBJECT_DATUM (chain_word (L := L) w c) =? 0 then 0 else OBJECT_ADDRESS L (chain_word (L := L) w c)) = c.
Proof.
  intros (U & _) P Hc. pose proof (type_range w U) as T.
  assert (D : OBJECT_DATUM (neutral L w) = OBJECT_DATUM w).
  { unfold neutral. rewrite P. apply MAKE_OBJECT_parts; [lia |]. rewrite OBJECT_DATUM_mod. apply mod58. }
  unfold OBJECT_NEW_TYPE. rewrite D. unfold chain_word.
  destruct (Z.eqb_spec c 0) as [-> | N].
  - destruct (MAKE_OBJECT_parts (OBJECT_TYPE w) 0 T ltac:(lia)) as [-> ->].
    split; [now apply object_parts | reflexivity].
  - destruct Hc as [Hc | Hc]; [contradiction |]. unfold in_from in Hc.
    pose proof (wl_from _ WL). pose proof (wl_from_end _ WL).
    destruct (pointer_object (L := L) (OBJECT_TYPE w) c T ltac:(lia)) as [-> Ad].
    split; [now apply object_parts |]. rewrite Ad.
    unfold OBJECT_ADDRESS, DATUM_TO_ADDRESS in Ad.
    destruct (Z.eqb_spec (OBJECT_DATUM (MAKE_POINTER_OBJECT L (OBJECT_TYPE w) c)) 0); lia.
Qed.

Lemma chained_head m c wk : chained m c wk -> c = 0 /\ wk = [] \/ In c wk.
Proof. destruct wk as [|a wk]; cbn [GcInv.chained]; [auto |]. intros (-> & _). right. now left. Qed.

(** One round of the loop, for the pair at the head of the chain. *)
Lemma weak_round cp wk0 s0 m a wk c' n x :
  collecting cp wk0 s0 -> In a wk0 -> incl wk wk0 -> car_at cp a x ->
  gmem s0 (a + 1) = chain_word (L := L) (m0 a) c' -> chained (gmem s0) c' wk ->
  (forall y, in_from L y -> m y = gmem s0 y) -> m x = neutral L (m0 a) ->
  update_weak_pairs_loop L (S n) (set_weak_chain (set_gmem s0 m) a)
  = update_weak_pairs_loop L n
      (set_weak_chain (set_gmem s0 (store m x (weak_result L (place nb cp) (m0 a)))) c').
Proof.
  intros C Ha Inc (p & Hp & ->) Ew Ch Hm Hcar.
  destruct (col_wk _ _ _ C a Ha) as (Hin & E & Pa).
  pose proof (blk_size a _ E) as (Sz & Lo & _ & Hi). cbn [block_size] in Sz.
  destruct (points L (m0 a)) as [[b k]|] eqn:P; [| contradiction].
  destruct (weak_words a E) as [G _]. pose proof (wl_from _ WL). pose proof (wl_base _ WL).
  assert (F0 : m a = gmem s0 a) by (apply Hm; unfold in_from; lia).
  assert (F1 : m (a + 1) = gmem s0 (a + 1)) by (apply Hm; unfold in_from; lia).
  cbn [update_weak_pairs_loop]. autorewrite with gc. gc_fields.
  destruct (Z.eqb_spec a 0); [lia |]. cbn [negb]. autorewrite with gc. gc_fields.
  rewrite F0, F1, Ew, (col_heart _ _ _ C a p Hp). destruct (place_range _ _ _ _ _ C Hp) as [Rg _].
  destruct (heart_object p Rg) as [_ ->]. unfold READ_TOSPACE, WRITE_TOSPACE. autorewrite with gc.
  gc_fields. rewrite Hcar.
  assert (Hc' : c' = 0 \/ in_from L c').
  { destruct (chained_head _ _ _ Ch) as [[-> _] | Hc]; [now left | right].
    destruct (col_wk _ _ _ C c' (Inc c' Hc)) as (_ & Ec' & _).
    pose proof (blk_size c' _ Ec') as Bc. unfold in_from. lia. }
  destruct (chain_word_parts (m0 a) c' b k G P Hc') as [-> Nx].
  erewrite gbind_done by (eapply (weak_referent_forward_spec cp wk0 s0);
    [exact C | exact G | exact P | exact Hm]).
  autorewrite with gc. gc_fields. rewrite Nx. reflexivity.
Qed.

(** The loop, on the rest [wk] of a chain. *)
Lemma update_weak_pairs_loop_spec cp wk0 s0 :
  collecting cp wk0 s0 ->
  forall wk n m c, incl wk wk0 -> NoDup wk -> (length wk < n)%nat ->
  chained (gmem s0) c wk ->
  (forall x, in_from L x -> m x = gmem s0 x) ->
  (forall a x, In a wk -> car_at cp a x -> m x = neutral L (m0 a)) ->
  exists m',
    update_weak_pairs_loop L n (set_weak_chain (set_gmem s0 m) c)
    = Done tt (set_weak_chain (set_gmem s0 m') 0)
    /\ (forall a x, In a wk -> car_at cp a x -> m' x = weak_result L (place nb cp) (m0 a))
    /\ (forall x, (forall a, In a wk -> ~ car_at cp a x) -> m' x = m x).
Proof.
  intros C. induction wk as [|a wk IH]; intros n m c Inc ND Hn Ch Hm Hcar;
    (destruct n as [|n]; [cbn [length] in Hn; lia |]).
  - cbn [GcInv.chained] in Ch. subst c. exists m. cbn [update_weak_pairs_loop]. autorewrite with gc.
    split; [reflexivity | split; [intros a x [] | reflexivity]].
  - destruct Ch as (-> & c' & Ew & Ch). apply NoDup_cons_iff in ND as [Na ND].
    assert (Ha : In a wk0) by (apply Inc; now left).
    destruct (In_place (m0 := m0) (blk := blk) nb cp a (proj1 (col_wk _ _ _ C a Ha))) as [p Hp].
    set (x := NEWSPACE_TO_TOSPACE L p). assert (Ca : car_at cp a x) by now exists p.
    assert (Inc' : incl wk wk0) by (intros y Hy; apply Inc; now right).
    rewrite (weak_round cp wk0 s0 m a wk c' n x); auto; [| apply (Hcar a); [now left | exact Ca]].
    set (m1 := store m x (weak_result L (place nb cp) (m0 a))).
    assert (Apart : forall a' y, In a' wk -> car_at cp a' y -> y <> x).
    { intros a' y Ha' Hy. apply (car_at_inj _ _ _ a' a _ _ C Hy Ca). congruence. }
    destruct (IH n m1 c' Inc' ND) as (m' & Run' & H1 & H2).
    + cbn [length] in Hn. lia.
    + exact Ch.
    + intros y Hy. unfold m1. rewrite store_other by (intros ->; exact (car_at_range _ _ _ _ _ C Ca Hy)).
      now apply Hm.
    + intros a' y Ha' Hy. unfold m1. rewrite store_other by now apply (Apart a').
      apply (Hcar a'); [now right | exact Hy].
    + exists m'. split; [exact Run' | split].
      * intros a' y [<- | Ha'] Hy; [| now apply H1].
        assert (y = x) by (destruct Hy as (p' & Hp' & ->); unfold x; congruence). subst y.
        rewrite H2; [apply store_same |]. intros a' Ha' Hy'. now apply (Apart a' x).
      * intros y Hy. rewrite H2 by (intros a' Ha'; apply Hy; now right). unfold m1.
        apply store_other. intros ->. exact (Hy a (or_introl eq_refl) Ca).
Qed.

Lemma fuel_positive : exists n, fuel = S n.
Proof. pose proof (enough_fuel (L := L)) as EN. destruct fuel; [lia | eauto]. Qed.

(** Without ephemerons there is nothing to scan or update for them. *)
Lemma scan_ephemerons_quiet cp wk s : collecting cp wk s -> scan_ephemerons L fuel s = Done tt s.
Proof.
  intros C. destruct (col_quiet _ _ _ C) as (Q1 & Q2 & Q3). destruct fuel_positive as [n ->].
  unfold scan_ephemerons. autorewrite with gc. rewrite Q2. cbn [scan_ephemeron_list scan_ephemeron_queue].
  change (EPHEMERON_P SHARP_F) with false. cbv iota. autorewrite with gc.
  cbn [ephemeron_queue set_scanning]. rewrite Q3. change (EPHEMERON_P SHARP_F) with false. cbv iota.
  autorewrite with gc. unfold modify. f_equal. destruct s. cbn in *. now subst.
Qed.

Lemma update_ephemerons_quiet cp wk s : collecting cp wk s -> update_ephemerons L fuel s = Done tt s.
Proof.
  intros C. destruct (col_quiet _ _ _ C) as (Q1 & Q2 & Q3). destruct fuel_positive as [n ->].
  unfold update_ephemerons. autorewrite with gc. rewrite Q2. cbn [update_ephemerons_loop].
  change (EPHEMERON_P SHARP_F) with false. cbv iota. autorewrite with gc. unfold modify. f_equal.
  destruct s. cbn in *. now subst.
Qed.

Lemma chain_length cp wk s : collecting cp wk s -> (length wk < fuel)%nat.
Proof.
  intros C. pose proof (enough_fuel (L := L)) as EN. pose proof (collecting_bound _ _ _ C).
  assert (length wk <= length cp)%nat.
  { apply NoDup_incl_length; [apply C |]. intros a Ha. now apply (col_wk _ _ _ C). }
  assert (Z.of_nat (length cp) <= total cp)
    by (apply (length_total (CTX := CTX)); intros a Ha; apply live_block_blk, C, Ha).
  lia.
Qed.

Lemma update_weak_pointers_spec cp wk s :
  collecting cp wk s ->
  (forall a x, In a wk -> car_at cp a x -> gmem s x = neutral L (m0 a)) ->
  exists m',
    update_weak_pointers L fuel s = Done tt (set_weak_chain (set_gmem s m') 0)
    /\ (forall a x, In a wk -> car_at cp a x -> m' x = weak_result L (place nb cp) (m0 a))
    /\ (forall x, (forall a, In a wk -> ~ car_at cp a x) -> m' x = gmem s x).
Proof.
  intros C Hcar. unfold update_weak_pointers.
  erewrite gbind_done by exact (scan_ephemerons_quiet _ _ _ C).
  erewrite gbind_done by exact (update_ephemerons_quiet _ _ _ C).
  destruct (update_weak_pairs_loop_spec cp wk s C wk fuel (gmem s) (weak_chain s))
    as (m' & Run & H1 & H2); auto using incl_refl.
  - apply C.
  - exact (chain_length _ _ _ C).
  - apply C.
  - exists m'. split; [| auto]. rewrite <- Run. unfold update_weak_pairs. f_equal. now destruct s.
Qed.

End Weak.
