(* ===== verification/Collect.v ===== *)
(** * A whole collection (src/src/microcode/memmag.c)

    What [GARBAGE-COLLECT] does to memory and to the interpreter's registers:
    open tospace, trace from the roots ([std_gc_pt1]), copy tospace back over
    the heap and make a new table of ephemerons ([std_gc_pt2]). *)

From Stdlib Require Import ZArith List Lia Bool.
From S2P Require Import Prelude.
From S2P Require Import Object.
From S2P Require Import Memory.
From S2P Require Import Gc.
Import ListNotations.

Notation VECTOR_DATA := 1.
Notation INT_GC := 4.

(** The registers a collection reads or sets. *)
Record registers := mk_registers {
  r_heap_start : Z;
  r_Free : Z;
  r_heap_alloc_limit : Z;
  stack_pointer : Z;
  stack_end : Z;
  constant_start : Z;
  constant_alloc_next : Z;
  fixed_objects : Z;
  history_register : Z;
  r_ephemeron_array : Z;
  gc_space_needed : Z;
  n_ephemerons_requested : Z;
  ephemeron_request_hard_p : bool;
  INT_CODE : Z
}.

(** ** The size of the table of ephemerons *)

Definition primes : list Z := [
  11; 23; 53; 97; 193; 389; 769; 1543; 3079; 6151; 12289; 24593; 49157;
  98317; 196613; 393241; 786433; 1572869; 3145739; 6291469; 12582917;
  25165843; 50331653; 100663319; 201326611; 402653189; 805306457;
  1610612741 ].

Definition prime_at (index : Z) : Z := nth (Z.to_nat index) primes 0.

(** The [do] loop; [start] and [end_] are unsigned ints far below 2^32. *)
Fixpoint ephemeron_length_loop (fuel : nat) (n start end_ : Z) : option Z :=
  match fuel with
  | O => None
  | S fuel =>
      let index := start + (end_ - start) / 2 in
      if prime_at index <? n then
        let start := index + 1 in
        if start <? end_ then ephemeron_length_loop fuel n start end_ else Some (prime_at start)
      else if n <? prime_at index then
        let end_ := index in
        if start <? end_ then ephemeron_length_loop fuel n start end_ else Some (prime_at start)
      else Some (prime_at index)
  end.

Definition compute_ephemeron_array_length (n : Z) : option Z :=
  let end_ := Z.of_nat (length primes) in
  if prime_at (end_ - 1) <? n then Some (prime_at (end_ - 1))
  else ephemeron_length_loop (length primes) n 0 end_.

Definition ephemeron_array_big_enough_p (m : memory) (array : option Z) (n : Z) : bool :=
  (n =? 0) || match array with Some a => n <=? VECTOR_LENGTH m a | None => false end.

(** ** The collection *)

(** [initialize_gc] makes [heap_start] and [Free] the bounds of fromspace, and
    [open_tospace (heap_start)] sets the bounds of newspace. *)
Definition collector_layout (base to_start to_end : Z) (r : registers) : layout :=
  mk_layout base (r_heap_start r) (r_Free r) to_start to_end
    (r_heap_start r) (r_heap_start r + (to_end - to_start)) (r_ephemeron_array r).

Section Collect.
Local Open Scope gc_scope.
Variable L : layout.
Variable fuel : nat.

Definition open_tospace (start : Z) : gc unit :=
  GUARANTEE_TOSPACE_CLOSED ;;
  modify (fun s => set_next s (tospace_start L) start).

(** [saved_to] is the result. *)
Definition std_gc_pt1 (r : registers) : gc Z :=
  saved_to <- get_newspace_ptr ;;
  add_to_tospace (fixed_objects r) ;;
  add_to_tospace (MAKE_POINTER_OBJECT L UNMARKED_HISTORY_TYPE (history_register r)) ;;
  gc_scan_oldspace L fuel (stack_pointer r) (stack_end r) ;;
  gc_scan_oldspace L fuel (constant_start r) (constant_alloc_next r) ;;
  gc_scan_tospace L fuel saved_to 0 ;;
  update_weak_pointers L fuel ;;
  ret saved_to.

(** [memmove]: [n] words from [start] to [to]. *)
Definition memmove (to start n : Z) (m : memory) : memory :=
  fun x => if (to <=? x) && (x <? to + n) then m (x - to + start) else m x.

Definition save_tospace_copy (start end_ : Z) : gc bool :=
  modify (fun s => set_gmem s (memmove (tospace_to_newspace L start) start (end_ - start) (gmem s))) ;;
  ret true.

(** The length of the new table, and [gc_space_needed]. *)
Definition new_ephemeron_length (r : registers) (count : Z) (s : machine) : option (Z * Z) :=
  let* length := compute_ephemeron_array_length (count + n_ephemerons_requested r)%UL in
  if negb (HEAP_AVAILABLE_P s ((VECTOR_DATA + length)
                               + n_ephemerons_requested r * EPHEMERON_SIZE)%UL) then
    let needed := if ephemeron_request_hard_p r then (gc_space_needed r + (VECTOR_DATA + length))%UL
                  else gc_space_needed r in
    let* length := compute_ephemeron_array_length count in Some (length, needed)
  else Some (length, gc_space_needed r).

Definition std_gc_pt2 (r : registers) (saved_to : Z) : gc registers :=
  p <- get_newspace_ptr ;;
  _ <- save_tospace L save_tospace_copy ;;
  fixed <- read saved_to ;;
  history <- read (saved_to + 1) ;;
  s <- get ;;
  let heap := mk_machine (gmem s) p (r_heap_start r) (r_heap_alloc_limit r) false in
  match new_ephemeron_length r (ephemeron_count s) heap with
  | None => out_of_fuel
  | Some (length, needed) =>
      let (array, heap) := fill_vector length SHARP_F heap in
      modify (fun s => set_gmem s (mem heap)) ;;
      ret (mk_registers (r_heap_start r) (Free heap) (r_heap_alloc_limit r) (stack_pointer r) (stack_end r)
             (constant_start r) (constant_alloc_next r) fixed (OBJECT_ADDRESS L history)
             (MAKE_POINTER_OBJECT L TC_VECTOR array) needed 0 false (INT_CODE r &~ INT_GC))
  end.

(** The part of the primitive between the critical section's entry and the
    return to the interpreter. *)
Definition garbage_collect (r : registers) : gc registers :=
  open_tospace (r_heap_start r) ;;
  initialize_weak_chain ;;
  modify (fun s => set_ephemeron_count s 0) ;;
  saved_to <- std_gc_pt1 r ;;
  std_gc_pt2 r saved_to.

End Collect.
