(* ===== verification/CollectSpec.v ===== *)
(** * A collection keeps what is live (for Collect.v)

    The abstract specification: the live blocks are copied, side by side, to
    the start of the heap, by a forwarding function; every word that the
    collector scans is forwarded, everything else is copied as it is; a weak
    pair keeps its car only if the car is live by other references.  The
    collection of any well-formed heap without ephemerons and without
    compiled code returns and meets it. *)

From Stdlib Require Import ZArith List Lia Bool.
From S2P Require Import Prelude.
From S2P Require Import Object.
From S2P Require Import Memory.
From S2P Require Import Gc.
From S2P Require Import GcSpec.
From S2P Require Import GcInv.
From S2P Require Import GcScan.
From S2P Require Import GcWeak.
From S2P Require Import Collect.
Import ListNotations.

(** ** The specification *)

Definition row (m : memory) (start end_ : Z) : list Z := words_at m start (Z.to_nat (end_ - start)).

Definition history_object (L : layout) (r : registers) : Z :=
  MAKE_POINTER_OBJECT L UNMARKED_HISTORY_TYPE (history_register r).

(** The objects a collection starts from. *)
Definition roots (L : layout) (m : memory) (r : registers) (o : Z) : Prop :=
  o = fixed_objects r \/ o = history_object L r
  \/ scans o (row m (stack_pointer r) (stack_end r))
  \/ scans o (row m (constant_start r) (constant_alloc_next r)).

(** The copy [ws] of block [a]. *)
Definition copied (L : layout) (m0 : memory) (new : Z -> option Z) (k : block_kind) (a : Z) (ws : list Z) : Prop :=
  match k with
  | Weak_pair => exists cdr, ws = [weak_result L new (m0 a); cdr] /\ forwarded L new (m0 (a + 1)) cdr
  | _ => scanned (forwarded L new) (block_words m0 k a) ws
  end.

Section Spec.
Variable L : layout.
Variable m0 : memory.
Variable blk : Z -> option block_kind.
Variable r : registers.

Notation live_block := (live_block (L := L) (m0 := m0) (root := roots L m0 r)).

(** Memory and registers that a collection may start from. *)
Record wf_roots : Prop := {
  wr_stack : memory_base L <= stack_pointer r <= stack_end r;
  wr_constant : stack_end r <= constant_start r <= constant_alloc_next r;
  wr_heap : constant_alloc_next r <= fromspace_start L;
  wr_stack_words : scannable (good L blk) (row m0 (stack_pointer r) (stack_end r));
  wr_constant_words : scannable (good L blk) (row m0 (constant_start r) (constant_alloc_next r));
  wr_fixed : good L blk (fixed_objects r);
  wr_history : good L blk (history_object L r);
  wr_history_range : memory_base L <= history_register r < memory_base L + 2 ^ 58
}.

(** [m'] and [r'] are what a collection that forwards by [new] leaves; the
    copies end at [top]. *)
Record collected (new : Z -> option Z) (top : Z) (m' : memory) (r' : registers) : Prop := {
  cl_live : forall a, (exists p, new a = Some p) <-> live_block a;
  cl_copy : forall a k p, new a = Some p -> blk a = Some k ->
    copied L m0 new k a (words_at m' p (Z.to_nat (block_size m0 k a)));
  cl_inside : forall a k p, new a = Some p -> blk a = Some k ->
    newspace_start L + n_roots <= p /\ p + block_size m0 k a <= top;
  cl_apart : forall a b k k' p q, new a = Some p -> new b = Some q -> a <> b ->
    blk a = Some k -> blk b = Some k' -> p + block_size m0 k a <= q \/ q + block_size m0 k' b <= p;
  cl_compact : forall x, newspace_start L + n_roots <= x < top ->
    exists a k p, new a = Some p /\ blk a = Some k /\ p <= x < p + block_size m0 k a;
  cl_top : top <= fromspace_end L + n_roots;
  cl_stack : scanned (forwarded L new) (row m0 (stack_pointer r) (stack_end r))
               (row m' (stack_pointer r) (stack_end r));
  cl_constant : scanned (forwarded L new) (row m0 (constant_start r) (constant_alloc_next r))
                  (row m' (constant_start r) (constant_alloc_next r));
  cl_fixed : forwarded L new (fixed_objects r) (fixed_objects r');
  cl_history : forwarded L new (history_object L r) (history_object L r');
  cl_rest : forall x, memory_base L <= x < fromspace_start L ->
    ~ (stack_pointer r <= x < stack_end r) -> ~ (constant_start r <= x < constant_alloc_next r) ->
    m' x = m0 x;
  cl_interrupts : INT_CODE r' = INT_CODE r &~ INT_GC
}.

End Spec.

(** ** Consequences of a scan *)

Lemma scans_scanned R v ws ws' : scanned R ws ws' -> scans v ws -> exists v', R v v'.
Proof.
  induction 1 as [| w w' ws ws' N HR Hs IH | w sk ws ws' N D Hs IH]; intros H; inversion H; subst;
    eauto; try congruence.
  assert (E : skipped = sk /\ ws0 = ws) by (apply app_inj_length; [assumption | lia]).
  destruct E as [-> ->]. auto.
Qed.

Lemma scanned_cons_inv R w ws x xs :
  NMV_P w = false -> scanned R (w :: ws) (x :: xs) -> R w x /\ scanned R ws xs.
Proof. intros N H. inversion H; subst; [auto | congruence]. Qed.

Section Trace.
Context {L : layout} {m0 : memory} {blk : Z -> option block_kind} {root : Z -> Prop}.
Context {CTX : gc_context L m0 blk root}.

Notation live_block := (live_block (L := L) (m0 := m0) (root := root)).
Notation copy_of := (copy_of (L := L) (m0 := m0) (blk := blk)).
Notation copies := (copies (L := L) (m0 := m0) (blk := blk)).
Notation place := (@place m0 blk).
Notation total := (@total m0 blk).
Notation size := (@size m0 blk).

(** A scan of all the copies is a scan of each, where it was placed. *)
Lemma scanned_copies R m cp : forall q x,
  (forall a, In a cp -> live_block a) ->
  scanned R (copies cp) (words_at m x (length (copies cp))) ->
  forall a p, place q cp a = Some p ->
  scanned R (copy_of a) (words_at m (x + (p - q)) (Z.to_nat (size a))).
Proof.
  induction cp as [|b cp IH]; intros q x Lv Sc a p Hp; cbn [GcInv.place] in Hp; [discriminate |].
  assert (Lb : live_block b) by (apply Lv; now left).
  assert (E : copies (b :: cp) = copy_of b ++ copies cp) by reflexivity.
  rewrite E, length_app, words_at_app in Sc.
  pose proof (copy_scannable b Lb) as Sb.
  destruct (scanned_app_inv R _ _ Sb _ _ Sc) as (u & v & Euv & Su & Sv).
  apply app_inj_length in Euv as [<- <-];
    [| rewrite words_at_length; symmetry; exact (scanned_length _ _ _ Su)].
  pose proof (copy_length (CTX := CTX) b) as Ln.
  destruct (Z.eqb_spec a b) as [-> | N].
  - injection Hp as <-. replace (x + (q - q)) with x by lia.
    now replace (Z.to_nat (size b)) with (length (copy_of b)) by lia.
  - rewrite Ln in Sv. specialize (IH (q + size b) (x + size b) (fun c Hc => Lv c (or_intror Hc)) Sv a p Hp).
    now replace (x + (p - q)) with (x + size b + (p - (q + size b))) by lia.
Qed.

(** Every word of the copies belongs to one. *)
Lemma place_cover cp : NoDup cp -> forall q x, q <= x < q + total cp ->
  exists a p, In a cp /\ place q cp a = Some p /\ p <= x < p + size a.
Proof.
  induction 1 as [|b cp Nb ND IH]; intros q x Hx; cbn [GcInv.total fold_right] in Hx; [lia |].
  fold (total cp) in Hx. destruct (Z.ltb_spec x (q + size b)).
  - exists b, q. cbn [GcInv.place]. rewrite Z.eqb_refl. repeat split; [now left | lia | lia].
  - destruct (IH (q + size b) x ltac:(lia)) as (a & p & Ha & Hp & Hx').
    exists a, p. cbn [GcInv.place]. destruct (Z.eqb_spec a b) as [-> | _]; [contradiction |].
    split; [now right | auto].
Qed.

Lemma forwarded_In q cp o o' a k :
  forwarded L (place q cp) o o' -> points L o = Some (a, k) -> In a cp.
Proof.
  unfold forwarded. intros F P. rewrite P in F. destruct F as (p & Hp & _).
  now destruct (place_In (CTX := CTX) _ _ _ _ Hp).
Qed.

(** When the roots and all copies are forwarded, all live blocks are copied. *)
Lemma live_collected q cp :
  (forall o, root o -> exists o', forwarded L (place q cp) o o') ->
  (forall a, In a cp -> exists ws, scanned (forwarded L (place q cp)) (copy_of a) ws) ->
  forall o, live L m0 root o -> forall a k, points L o = Some (a, k) -> In a cp.
Proof.
  intros Hr Hc. induction 1 as [o H | o b k' w Lv IH P S]; intros a k Pa.
  - destruct (Hr o H) as [o' F]. exact (forwarded_In _ _ _ _ _ _ F Pa).
  - destruct (Hc b (IH b k' P)) as [ws Sc].
    assert (E : copy_of b = transported L m0 k' b).
    { unfold GcInv.copy_of. destruct (points_block o b k' Lv P) as [_ ->]. reflexivity. }
    rewrite E in Sc. destruct (scans_scanned _ _ _ _ Sc S) as [w' F].
    exact (forwarded_In _ _ _ _ _ _ F Pa).
Qed.

End Trace.

(** ** The size of the table of ephemerons *)

Lemma primes_increase i j : 0 <= i -> i < j -> j < 28 -> prime_at i < prime_at j.
Proof.
  intros Hi Hij Hj.
  assert (H : forallb (fun i => forallb (fun j => negb (i <? j)%nat || (prime_at (Z.of_nat i) <? prime_at (Z.of_nat j)))
                                  (seq 0 28)) (seq 0 28) = true) by reflexivity.
  rewrite forallb_forall in H. specialize (H (Z.to_nat i) ltac:(apply in_seq; lia)).
  rewrite forallb_forall in H. specialize (H (Z.to_nat j) ltac:(apply in_seq; lia)).
  rewrite !Z2Nat.id in H by lia.
  destruct (Nat.ltb_spec (Z.to_nat i) (Z.to_nat j)); [| lia]. cbn [negb orb] in H. lia.
Qed.

(** The search narrows on the first entry that is not below [n]. *)
Lemma ephemeron_length_loop_spec fuel : forall n start end_,
  0 <= start -> start < end_ -> end_ <= 28 -> end_ - start <= Z.of_nat fuel ->
  (forall i, 0 <= i < start -> prime_at i < n) ->
  (forall i, end_ <= i < 28 -> n < prime_at i) -> n <= prime_at 27 ->
  exists k, ephemeron_length_loop fuel n start end_ = Some (prime_at k)
    /\ 0 <= k < 28 /\ n <= prime_at k /\ forall i, 0 <= i < k -> prime_at i < n.
Proof.
  induction fuel as [|fuel IH]; intros n start end_ H0 H1 H2 Hf Lo Hi Last; [lia |].
  cbn [ephemeron_length_loop]. set (index := start + (end_ - start) / 2).
  pose proof (Z.div_lt_upper_bound (end_ - start) 2 (end_ - start) ltac:(lia) ltac:(lia)).
  pose proof (Z.div_pos (end_ - start) 2 ltac:(lia) ltac:(lia)).
  assert (Hx : start <= index < end_) by (subst index; lia). clearbody index.
  destruct (Z.ltb_spec (prime_at index) n) as [Lt | Ge].
  - assert (Lo' : forall i, 0 <= i < index + 1 -> prime_at i < n).
    { intros i Hi'. destruct (Z.eq_dec i index) as [-> | N]; [exact Lt |].
      pose proof (primes_increase i index ltac:(lia) ltac:(lia) ltac:(lia)). lia. }
    destruct (Z.ltb_spec (index + 1) end_); [apply IH; auto; lia |].
    exists (index + 1). assert (index + 1 < 28) by (destruct (Z.eq_dec index 27) as [-> |]; lia).
    repeat split; try lia; [| exact Lo']. specialize (Hi (index + 1) ltac:(lia)). lia.
  - destruct (Z.ltb_spec n (prime_at index)) as [Lt | Ge'].
    + assert (Hi' : forall i, index <= i < 28 -> n < prime_at i).
      { intros i Hi'. destruct (Z.eq_dec i index) as [-> | N]; [exact Lt |].
        pose proof (primes_increase index i ltac:(lia) ltac:(lia) ltac:(lia)). lia. }
      destruct (Z.ltb_spec start index); [apply IH; auto; lia |].
      exists start. repeat split; try lia; [| exact Lo]. specialize (Hi' start ltac:(lia)). lia.
    + exists index. repeat split; try lia. intros i Hi'.
      pose proof (primes_increase i index ltac:(lia) ltac:(lia) ltac:(lia)). lia.
Qed.

Lemma ephemeron_length_some n : exists length, compute_ephemeron_array_length n = Some length /\ 0 < length.
Proof.
  unfold compute_ephemeron_array_length. change (Z.of_nat (length primes)) with 28. change (28 - 1) with 27.
  destruct (Z.ltb_spec (prime_at 27) n); [now exists (prime_at 27) |].
  destruct (ephemeron_length_loop_spec (length primes) n 0 28) as (k & E & Hk & _);
    [lia | lia | lia | vm_compute; discriminate | lia | lia | lia |].
  exists (prime_at k). split; [exact E |].
  destruct (Z.eq_dec k 0) as [-> | N]; [reflexivity |].
  pose proof (primes_increase 0 k ltac:(lia) ltac:(lia) ltac:(lia)). change (prime_at 0) with 11 in *. lia.
Qed.

(** ** Tracing *)

Section Tracing.
Context {L : layout} {m0 : memory} {blk : Z -> option block_kind} {r : registers}.
Context {CTX : gc_context L m0 blk (roots L m0 r)} {WR : wf_roots L m0 blk r}.
Context {fuel : nat} {EF : enough L fuel}.
Hypothesis fuel_regions : (Z.to_nat (fromspace_end L - memory_base L + n_roots) < fuel)%nat.

Notation nb := (newspace_start L + n_roots).
Notation limit := (tospace_start L + n_roots + (fromspace_end L - fromspace_start L)).
Notation root := (roots L m0 r).
Notation invariant := (@invariant L m0 blk root).
Notation strong := (strong (L := L) (m0 := m0) (blk := blk) (root := root)).
Notation scanned_region := (scanned_region (L := L) (m0 := m0) (blk := blk) (root := root)).
Notation scanned_tospace := (scanned_tospace (L := L) (m0 := m0) (blk := blk) (root := root)).
Notation collecting := (@collecting L m0 blk root).
Notation live_block := (live_block (L := L) (m0 := m0) (root := root)).
Notation copy_of := (copy_of (L := L) (m0 := m0) (blk := blk)).
Notation copies := (copies (L := L) (m0 := m0) (blk := blk)).
Notation place := (@place m0 blk).
Notation total := (@total m0 blk).
Notation size := (@size m0 blk).
Notation row0 := (row m0).
Notation car_at := (car_at (L := L) (m0 := m0) (blk := blk)).

#[local] Opaque initialize_gc_table GcInv.place GcInv.total GcInv.copies words_at.

Lemma row_length m start end_ : start <= end_ -> Z.of_nat (length (row m start end_)) = end_ - start.
Proof. intros H. unfold row. rewrite words_at_length. lia. Qed.

Lemma row_ext m m' start end_ :
  (forall x, start <= x < end_ -> m x = m' x) -> row m start end_ = row m' start end_.
Proof. intros H. apply words_at_ext. intros i Hi. apply H. lia. Qed.

(** Outside of fromspace, of the part of tospace that is filled and of the
    roots. *)
Definition untouched (x : Z) : Prop :=
  ~ in_from L x /\ ~ (tospace_start L <= x < limit)
  /\ ~ (stack_pointer r <= x < stack_end r) /\ ~ (constant_start r <= x < constant_alloc_next r).

Lemma low_address x : memory_base L <= x < fromspace_start L ->
  ~ in_from L x /\ ~ (tospace_start L <= x < limit).
Proof.
  intros H. pose proof (wl_apart _ WL). pose proof (wl_room _ WL). pose proof (wl_from _ WL).
  unfold in_from. lia.
Qed.

Lemma root_strong o : root o -> strong o.
Proof. intros H. split; [now apply good_roots | now apply live_root]. Qed.

(** Scanning one of the root areas. *)
Lemma scan_root cp s start end_ :
  invariant cp s -> memory_base L <= start <= end_ -> end_ <= fromspace_start L ->
  row (gmem s) start end_ = row0 start end_ ->
  scannable (good L blk) (row0 start end_) -> (forall o, scans o (row0 start end_) -> root o) ->
  exists s' new, gc_scan_oldspace L fuel start end_ s = Done tt s'
    /\ scanned_region cp s start (row0 start end_) new s'.
Proof.
  intros I H1 H2 W Sc Hr. pose proof (row_length m0 start end_ ltac:(lia)) as Ln.
  destruct (scan_fixed (row0 start end_)) with (n := fuel) (cp := cp) (s := s) (x := start)
    as (s' & new & Run & Reg).
  - apply scannable_and; [exact Sc |]. intros v Hv. now apply live_root, Hr.
  - exact I.
  - unfold row in *. rewrite words_at_length. exact W.
  - intros x Hx. apply low_address. lia.
  - pose proof (wl_from _ WL). lia.
  - exists s', new. split; [| exact Reg].
    now replace (start + Z.of_nat (length (row0 start end_))) with end_ in Run by lia.
Qed.

Lemma add_to_tospace_run o s : tospace_next s <> 0 ->
  add_to_tospace o s
  = Done tt (set_next (set_gmem s (store (gmem s) (tospace_next s) o)) (tospace_next s + 1) (newspace_next s + 1)).
Proof.
  intros H. unfold add_to_tospace. erewrite gbind_done by now apply guarantee_open. reflexivity.
Qed.

(** With the two words in tospace and nothing copied. *)
Lemma start_invariant s :
  (forall x, in_from L x -> gmem s x = m0 x) ->
  tospace_next s = tospace_start L + n_roots -> newspace_next s = nb -> weak_chain s = 0 ->
  scanning_ephemerons_p s = false -> ephemeron_list s = SHARP_F -> ephemeron_queue s = SHARP_F ->
  invariant [] s.
Proof.
  intros Hm T N W Q1 Q2 Q3. exists []. split; [| intros a []].
  split.
  - constructor.
  - intros a [].
  - rewrite T. change (total []) with 0. lia.
  - rewrite N. change (total []) with 0. lia.
  - intros a p H. destruct (place_In (CTX := CTX) _ _ _ _ H) as ([] & _).
  - intros a k E _ i Hi. pose proof (blk_size a k E). apply Hm. unfold in_from. lia.
  - exact W.
  - intros a [].
  - constructor.
  - auto.
Qed.

(** What tracing leaves. *)
Record traced (cp : list Z) (s : gc_state) : Prop := {
  tr_nodup : NoDup cp;
  tr_live : forall a, In a cp <-> live_block a;
  tr_tnext : tospace_next s = tospace_start L + n_roots + total cp;
  tr_nnext : newspace_next s = nb + total cp;
  tr_copy : forall a k p, place nb cp a = Some p -> blk a = Some k ->
    copied L m0 (place nb cp) k a
      (words_at (gmem s) (NEWSPACE_TO_TOSPACE L p) (Z.to_nat (block_size m0 k a)));
  tr_fixed : forwarded L (place nb cp) (fixed_objects r) (gmem s (tospace_start L));
  tr_history : forwarded L (place nb cp) (history_object L r) (gmem s (tospace_start L + 1));
  tr_stack : scanned (forwarded L (place nb cp)) (row0 (stack_pointer r) (stack_end r))
               (row (gmem s) (stack_pointer r) (stack_end r));
  tr_constant : scanned (forwarded L (place nb cp)) (row0 (constant_start r) (constant_alloc_next r))
               (row (gmem s) (constant_start r) (constant_alloc_next r));
  tr_frame : forall x, untouched x -> gmem s x = m0 x
}.

(** The scans of [std_gc_pt1], up to the weak pairs. *)
Record tracing (cp : list Z) (s : gc_state) : Prop := {
  tg_invariant : invariant cp s;
  tg_tospace : scanned (forwarded L (place nb cp))
                 (fixed_objects r :: history_object L r :: copies cp)
                 (words_at (gmem s) (tospace_start L) (2 + length (copies cp)));
  tg_stack : scanned (forwarded L (place nb cp)) (row0 (stack_pointer r) (stack_end r))
               (row (gmem s) (stack_pointer r) (stack_end r));
  tg_constant : scanned (forwarded L (place nb cp)) (row0 (constant_start r) (constant_alloc_next r))
               (row (gmem s) (constant_start r) (constant_alloc_next r));
  tg_frame : forall x, untouched x -> gmem s x = m0 x
}.

(** The state after the two words are added. *)
Definition rooted (s : gc_state) : gc_state :=
  set_next (set_gmem s (store (store m0 (tospace_start L) (fixed_objects r))
                          (tospace_start L + 1) (history_object L r)))
    (tospace_start L + n_roots) nb.

(** What scanning both root areas does: [cp] is copied, the areas are
    forwarded, and the words added before are as they were. *)
Record rooting (cp : list Z) (s : gc_state) : Prop := {
  rt_invariant : invariant cp s;
  rt_words : words_at (gmem s) (tospace_start L) (2 + length (copies cp))
             = fixed_objects r :: history_object L r :: copies cp;
  rt_stack : scanned (forwarded L (place nb cp)) (row0 (stack_pointer r) (stack_end r))
               (row (gmem s) (stack_pointer r) (stack_end r));
  rt_constant : scanned (forwarded L (place nb cp)) (row0 (constant_start r) (constant_alloc_next r))
               (row (gmem s) (constant_start r) (constant_alloc_next r));
  rt_frame : forall x, untouched x -> gmem s x = m0 x
}.

Definition quiet (s : gc_state) : Prop :=
  weak_chain s = 0 /\ scanning_ephemerons_p s = false /\ ephemeron_list s = SHARP_F
  /\ ephemeron_queue s = SHARP_F.

Lemma rooted_memory s x : tospace_start L + n_roots <= x \/ x < tospace_start L -> gmem (rooted s) x = m0 x.
Proof. intros H. unfold rooted. gc_fields. rewrite !store_other by lia. reflexivity. Qed.

Lemma rooted_low s x : in_from L x \/ memory_base L <= x < fromspace_start L -> gmem (rooted s) x = m0 x.
Proof.
  intros H. apply rooted_memory. pose proof (wl_apart _ WL). pose proof (wl_room _ WL).
  pose proof (wl_from _ WL). unfold in_from in H. lia.
Qed.

Lemma rooted_invariant s : quiet s -> invariant [] (rooted s).
Proof.
  intros (W & Q1 & Q2 & Q3). apply start_invariant; auto; try reflexivity.
  intros x Hx. apply rooted_low. now left.
Qed.

Lemma rooted_words s : words_at (gmem (rooted s)) (tospace_start L) 2 = [fixed_objects r; history_object L r].
Proof.
  change 2%nat with (S (S O)). rewrite !words_at_cons. unfold rooted. gc_fields.
  rewrite store_other, !store_same by lia. reflexivity.
Qed.

(** A region of the roots leaves tospace below its end alone. *)
Lemma region_tospace cp s x ws new s' n :
  scanned_region cp s x ws new s' -> memory_base L <= x -> x + Z.of_nat (length ws) <= fromspace_start L ->
  tospace_start L + Z.of_nat n <= tospace_next s ->
  words_at (gmem s') (tospace_start L) n = words_at (gmem s) (tospace_start L) n.
Proof.
  intros [I' Sc Fr K T] H1 H2 H3. apply words_at_ext. intros i Hi.
  pose proof (wl_apart _ WL). pose proof (wl_room _ WL). pose proof (wl_from _ WL).
  apply Fr; [lia | apply tospace_not_from; lia | lia].
Qed.

Lemma region_frame cp s x ws new s' y :
  scanned_region cp s x ws new s' -> ~ in_from L y -> ~ (tospace_start L <= y < limit) ->
  ~ (x <= y < x + Z.of_nat (length ws)) -> gmem s' y = gmem s y.
Proof. intros [I' Sc Fr K T] Nf Nt N. apply Fr; [exact N | exact Nf | lia]. Qed.

Lemma region_low cp s x ws new s' y :
  scanned_region cp s x ws new s' -> memory_base L <= y < fromspace_start L ->
  ~ (x <= y < x + Z.of_nat (length ws)) -> gmem s' y = gmem s y.
Proof. intros Reg Hy. destruct (low_address y Hy). now apply (region_frame _ _ _ _ _ _ _ Reg). Qed.

Lemma region_words cp s x ws new s' :
  scanned_region cp s x ws new s' -> memory_base L <= x -> x + Z.of_nat (length ws) <= fromspace_start L ->
  tospace_next s = tospace_start L + n_roots + total cp ->
  words_at (gmem s) (tospace_start L) (2 + length (copies cp))
    = fixed_objects r :: history_object L r :: copies cp ->
  words_at (gmem s') (tospace_start L) (2 + length (copies (cp ++ new)))
    = fixed_objects r :: history_object L r :: copies (cp ++ new).
Proof.
  intros Reg H1 H2 Tn W. pose proof (copies_length (CTX := CTX) cp) as Ln.
  rewrite (copies_app (L := L) (m0 := m0) (blk := blk)), length_app, Nat.add_assoc, words_at_app.
  rewrite (region_tospace _ _ _ _ _ _ _ Reg H1 H2) by lia. rewrite W. cbn [app]. do 3 f_equal.
  replace (tospace_start L + Z.of_nat (2 + length (copies cp))) with (tospace_next s) by lia.
  apply Reg.
Qed.

Lemma invariant_next cp s : invariant cp s -> tospace_next s = tospace_start L + n_roots + total cp.
Proof. intros (wk & C & _). apply C. Qed.

Lemma scan_roots s : quiet s ->
  exists cp s', rooting cp s'
    /\ forall B (k : gc B),
         gbind (gc_scan_oldspace L fuel (stack_pointer r) (stack_end r))
           (fun _ => gbind (gc_scan_oldspace L fuel (constant_start r) (constant_alloc_next r)) (fun _ => k))
           (rooted s) = k s'.
Proof.
  intros Q. pose proof (rooted_invariant s Q) as I0.
  pose proof (wr_stack _ _ _ _ WR) as R1. pose proof (wr_constant _ _ _ _ WR) as R2.
  pose proof (wr_heap _ _ _ _ WR) as R3.
  pose proof (row_length m0 (stack_pointer r) (stack_end r) ltac:(lia)) as L1.
  pose proof (row_length m0 (constant_start r) (constant_alloc_next r) ltac:(lia)) as L2.
  destruct (scan_root [] (rooted s) (stack_pointer r) (stack_end r) I0) as (s1 & n1 & Run1 & Reg1);
    [lia | lia | apply row_ext; intros x Hx; apply rooted_low; lia | apply WR
     | intros o Ho; right; right; left; exact Ho |].
  destruct (scan_root n1 s1 (constant_start r) (constant_alloc_next r)) as (s2 & n2 & Run2 & Reg2);
    [apply Reg1 | lia | lia | | apply WR | intros o Ho; right; right; right; exact Ho |].
  { apply row_ext. intros x Hx. rewrite (region_low _ _ _ _ _ _ _ Reg1) by lia. apply rooted_low. lia. }
  exists (n1 ++ n2), s2. split.
  - split.
    + apply Reg2.
    + apply (region_words n1 s1 _ _ _ _ Reg2); [lia | lia | apply invariant_next, Reg1 |].
      apply (region_words [] (rooted s) _ _ _ _ Reg1); [lia | lia | exact (invariant_next [] _ I0) | apply rooted_words].
    + replace (row (gmem s2) (stack_pointer r) (stack_end r)) with (row (gmem s1) (stack_pointer r) (stack_end r)).
      * pose proof (reg_scanned _ _ _ _ _ _ Reg1) as Sc. unfold row in Sc at 2. rewrite words_at_length in Sc.
        exact (scanned_forwarded_app n1 n2 _ _ Sc).
      * apply row_ext. intros x Hx. symmetry. apply (region_low _ _ _ _ _ _ _ Reg2); lia.
    + pose proof (reg_scanned _ _ _ _ _ _ Reg2) as Sc. unfold row in Sc at 2. rewrite words_at_length in Sc.
      exact Sc.
    + intros x (N1 & N2 & N3 & N4). pose proof (wl_from _ WL).
      rewrite (region_frame _ _ _ _ _ _ _ Reg2), (region_frame _ _ _ _ _ _ _ Reg1) by (exact N1 || lia).
      apply rooted_memory. lia.
  - intros B k. erewrite gbind_done by exact Run1. erewrite gbind_done by exact Run2. reflexivity.
Qed.

Lemma strong_not_nmv o : strong o -> NMV_P o = false.
Proof. intros [G _]. exact (good_not_nmv o G). Qed.

Lemma scan_copies cp s : rooting cp s ->
  exists cp' s', gc_scan_tospace L fuel (newspace_start L) 0 s = Done tt s' /\ tracing cp' s'.
Proof.
  intros [I W St Co Fr]. pose proof (copies_length (CTX := CTX) cp) as Ln.
  pose proof (invariant_next cp s I) as Tn. pose proof (wl_from _ WL).
  set (ws := fixed_objects r :: history_object L r :: copies cp) in *.
  assert (Sf : strong (fixed_objects r)) by (apply root_strong; now left).
  assert (Sh : strong (history_object L r)) by (apply root_strong; right; now left).
  destruct (scan_moving fuel cp s (tospace_start L) ws I) as (s' & new & Run & Tos).
  - apply scannable_word; [exact Sf | exact (strong_not_nmv _ Sf) |].
    apply scannable_word; [exact Sh | exact (strong_not_nmv _ Sh) |].
    exact (copies_scannable [] cp s I).
  - exact W.
  - lia.
  - change (length ws) with (2 + length (copies cp))%nat. lia.
  - lia.
  - exists (cp ++ new), s'. split.
    + rewrite <- Run. unfold gc_scan_tospace, NEWSPACE_TO_TOSPACE. cbn [Z.eqb]. f_equal. lia.
    + assert (Keep : forall x, ~ in_from L x -> ~ (tospace_start L <= x < limit) -> gmem s' x = gmem s x).
      { intros x Nf Nt. destruct Tos as [I' Sc Frt T]. apply Frt; [assumption | lia]. }
      assert (Low : forall x, memory_base L <= x < fromspace_start L -> gmem s' x = gmem s x).
      { intros x Hx. destruct (low_address x Hx). now apply Keep. }
      pose proof (wr_stack _ _ _ _ WR). pose proof (wr_constant _ _ _ _ WR). pose proof (wr_heap _ _ _ _ WR).
      split.
      * apply Tos.
      * pose proof (tos_scanned _ _ _ _ _ _ Tos) as Sc. unfold ws in Sc. cbn [app length] in Sc.
        rewrite (copies_app (L := L) (m0 := m0) (blk := blk)). exact Sc.
      * rewrite (row_ext (gmem s') (gmem s)) by (intros x Hx; apply Low; lia).
        exact (scanned_forwarded_app cp new _ _ St).
      * rewrite (row_ext (gmem s') (gmem s)) by (intros x Hx; apply Low; lia).
        exact (scanned_forwarded_app cp new _ _ Co).
      * intros x Hx. pose proof Hx as (N1 & N2 & _). rewrite Keep by assumption. now apply Fr.
Qed.

Lemma tracing_split cp s : tracing cp s ->
  forwarded L (place nb cp) (fixed_objects r) (gmem s (tospace_start L))
  /\ forwarded L (place nb cp) (history_object L r) (gmem s (tospace_start L + 1))
  /\ scanned (forwarded L (place nb cp)) (copies cp)
       (words_at (gmem s) (tospace_start L + n_roots) (length (copies cp))).
Proof.
  intros [I Sc St Co Fr]. change (2 + length (copies cp))%nat with (S (S (length (copies cp)))) in Sc.
  rewrite !words_at_cons in Sc.
  apply scanned_cons_inv in Sc as [F1 Sc]; [| apply strong_not_nmv, root_strong; now left].
  apply scanned_cons_inv in Sc as [F2 Sc]; [| apply strong_not_nmv, root_strong; right; now left].
  replace (tospace_start L + 1 + 1) with (tospace_start L + n_roots) in Sc by lia. auto.
Qed.

(** The copy of a block, before the weak pairs are updated. *)
Lemma tracing_copy cp wk s a p : tracing cp s -> collecting cp wk s -> place nb cp a = Some p ->
  scanned (forwarded L (place nb cp)) (copy_of a)
    (words_at (gmem s) (NEWSPACE_TO_TOSPACE L p) (Z.to_nat (size a))).
Proof.
  intros T C Hp. destruct (tracing_split cp s T) as (_ & _ & Sc).
  unfold NEWSPACE_TO_TOSPACE.
  replace (p - newspace_start L + tospace_start L) with (tospace_start L + n_roots + (p - nb)) by lia.
  exact (scanned_copies _ _ cp nb _ (col_live _ _ _ C) Sc a p Hp).
Qed.

(** After the scan every live block is copied, and only those are. *)
Lemma tracing_live cp s wk : tracing cp s -> collecting cp wk s ->
  forall a, In a cp <-> live_block a.
Proof.
  intros T C a. split; [apply C |]. destruct (tracing_split cp s T) as (F1 & F2 & _).
  intros (o & k & Lv & P). apply (live_collected nb cp) with (o := o) (k := k); auto.
  - intros v [-> | [-> | [Hv | Hv]]]; [eauto | eauto | |].
    + exact (scans_scanned _ _ _ _ (tg_stack _ _ T) Hv).
    + exact (scans_scanned _ _ _ _ (tg_constant _ _ T) Hv).
  - intros b Hb. destruct (In_place (m0 := m0) (blk := blk) nb cp b Hb) as [p Hp].
    eexists. exact (tracing_copy cp wk s b p T C Hp).
Qed.

Lemma weak_copy_of a : blk a = Some Weak_pair -> copy_of a = [neutral L (m0 a); m0 (a + 1)] /\ size a = 2.
Proof. intros E. unfold GcInv.copy_of, GcInv.size. rewrite E. split; reflexivity. Qed.

Lemma words_at_two m x : words_at m x 2 = [m x; m (x + 1)].
Proof. change 2%nat with (S (S O)). now rewrite !words_at_cons. Qed.

(** A copied weak pair before the update: the car as it is neutralized. *)
Lemma tracing_weak cp wk s a p : tracing cp s -> collecting cp wk s ->
  place nb cp a = Some p -> blk a = Some Weak_pair ->
  gmem s (NEWSPACE_TO_TOSPACE L p) = neutral L (m0 a)
  /\ forwarded L (place nb cp) (m0 (a + 1)) (gmem s (NEWSPACE_TO_TOSPACE L p + 1)).
Proof.
  intros T C Hp E. pose proof (tracing_copy _ _ _ _ _ T C Hp) as Sc.
  destruct (weak_copy_of a E) as [E1 E2]. rewrite E1, E2 in Sc.
  change (Z.to_nat 2) with 2%nat in Sc. rewrite words_at_two in Sc.
  destruct (weak_words a E) as [G0 G1]. pose proof (neutral_good _ G0) as Gn.
  apply scanned_cons_inv in Sc as [F0 Sc]; [| exact (good_not_nmv _ Gn)].
  apply scanned_cons_inv in Sc as [F1 _]; [| exact (good_not_nmv _ G1)].
  split; [| exact F1]. unfold forwarded in F0.
  replace (points L (neutral L (m0 a))) with (@None (Z * block_kind)) in F0; [exact F0 |].
  unfold neutral. destruct (points L (m0 a)) eqn:P; [| now rewrite P].
  unfold points, reference. unfold OBJECT_NEW_TYPE.
  destruct (MAKE_OBJECT_parts TC_FALSE (OBJECT_DATUM (m0 a))) as [-> _];
    [lia | rewrite OBJECT_DATUM_mod; apply mod58 | reflexivity].
Qed.

Lemma car_at_tospace cp wk s a x : collecting cp wk s -> car_at cp a x ->
  tospace_start L + n_roots <= x < limit.
Proof.
  intros C (p & Hp & ->). destruct (place_In _ _ _ _ Hp) as (Hin & Hlo & Hhi).
  pose proof (collecting_bound _ _ _ C). destruct (live_block_blk a (col_live _ _ _ C a Hin)) as [k E].
  pose proof (blk_size a k E). unfold NEWSPACE_TO_TOSPACE. lia.
Qed.

(** The words of a copy that are the car of a weak pair are its own car. *)
Lemma car_at_copy cp wk s a b p i : collecting cp wk s -> place nb cp a = Some p ->
  0 <= i < size a -> car_at cp b (NEWSPACE_TO_TOSPACE L p + i) -> b = a /\ i = 0.
Proof.
  intros C Hp Hi (q & Hq & E). unfold NEWSPACE_TO_TOSPACE in E.
  destruct (Z.eq_dec b a) as [-> | N].
  - split; [reflexivity |]. assert (q = p) by congruence. lia.
  - destruct (place_In _ _ _ _ Hq) as (Hb & _).
    destruct (live_block_blk b (col_live _ _ _ C b Hb)) as [k Eb]. pose proof (blk_size b k Eb).
    destruct (place_apart _ _ _ _ _ _ Hp Hq (not_eq_sym N)); lia.
Qed.

Lemma trace_weak cp s : tracing cp s ->
  exists s', update_weak_pointers L fuel s = Done tt s' /\ traced cp s'.
Proof.
  intros T. destruct (tg_invariant _ _ T) as (wk & C & Al).
  destruct (update_weak_pointers_spec cp wk s C) as (m' & Run & Hcar & Hrest).
  { intros a x Ha (p & Hp & ->). destruct (col_wk _ _ _ C a Ha) as (_ & E & _).
    apply (tracing_weak cp wk s a p T C Hp E). }
  exists (set_weak_chain (set_gmem s m') 0). split; [exact Run |].
  destruct (tracing_split cp s T) as (F1 & F2 & _).
  pose proof (wr_stack _ _ _ _ WR). pose proof (wr_constant _ _ _ _ WR). pose proof (wr_heap _ _ _ _ WR).
  assert (Keep : forall x, ~ (tospace_start L + n_roots <= x < limit) -> m' x = gmem s x).
  { intros x Hx. apply Hrest. intros a Ha Hc. exact (Hx (car_at_tospace _ _ _ _ _ C Hc)). }
  assert (Low : forall x, memory_base L <= x < fromspace_start L -> m' x = gmem s x).
  { intros x Hx. destruct (low_address x Hx). apply Keep. lia. }
  split; gc_fields.
  - apply C.
  - exact (tracing_live cp s wk T C).
  - apply C.
  - apply C.
  - intros a k p Hp E. destruct (blk_size a k E) as (Sz & _ & Pos & _). rewrite <- Sz.
    assert (K : forall i, 0 <= i < size a -> ~ (In a wk /\ i = 0) ->
      m' (NEWSPACE_TO_TOSPACE L p + i) = gmem s (NEWSPACE_TO_TOSPACE L p + i)).
    { intros i Hi N. apply Hrest. intros b Hb Hc.
      destruct (car_at_copy _ _ _ _ _ _ _ C Hp Hi Hc) as [-> ->]. auto. }
    destruct (in_dec Z.eq_dec a wk) as [Hw | Nw].
    + destruct (col_wk _ _ _ C a Hw) as (_ & Ew & _). assert (k = Weak_pair) by congruence. subst k.
      destruct (weak_copy_of a E) as [_ S2]. rewrite S2 in *. cbn [copied].
      destruct (tracing_weak _ _ _ _ _ T C Hp E) as [_ Fc].
      change (Z.to_nat 2) with 2%nat. rewrite words_at_two, (K 1) by lia.
      rewrite (Hcar a) by (assumption || now exists p). eauto.
    + assert (W : words_at m' (NEWSPACE_TO_TOSPACE L p) (Z.to_nat (size a))
                  = words_at (gmem s) (NEWSPACE_TO_TOSPACE L p) (Z.to_nat (size a))).
      { apply words_at_ext. intros i Hi. apply K; [lia |]. intros [Hw _]. contradiction. }
      rewrite W. pose proof (tracing_copy _ _ _ _ _ T C Hp) as Sc. unfold GcInv.copy_of in Sc. rewrite E in Sc.
      destruct k; cbn [copied GcSpec.transported] in *; try exact Sc.
      destruct (weak_copy_of a E) as [_ S2]. rewrite S2. change (Z.to_nat 2) with 2%nat.
      rewrite words_at_two. destruct (tracing_weak _ _ _ _ _ T C Hp E) as [-> Fc].
      assert (P : points L (m0 a) = None).
      { destruct (points L (m0 a)) eqn:P; [exfalso; apply Nw, Al | reflexivity].
        - now destruct (place_In _ _ _ _ Hp).
        - split; [exact E | congruence]. }
      unfold weak_result, neutral. rewrite P. eauto.
  - rewrite Keep by lia. exact F1.
  - rewrite Keep by lia. exact F2.
  - rewrite (row_ext m' (gmem s)) by (intros x Hx; apply Low; lia). apply T.
  - rewrite (row_ext m' (gmem s)) by (intros x Hx; apply Low; lia). apply T.
  - intros x Hx. pose proof Hx as (N1 & N2 & _). rewrite Keep by lia. now apply (tg_frame _ _ T).
Qed.

(** [std_gc_pt1], from an open tospace. *)
Lemma std_gc_pt1_spec s : quiet s -> gmem s = m0 ->
  tospace_next s = tospace_start L -> newspace_next s = newspace_start L ->
  exists cp s', std_gc_pt1 L fuel r s = Done (newspace_start L) s' /\ traced cp s'.
Proof.
  intros Q M Tn Nn. pose proof (wl_to _ WL). unfold std_gc_pt1, get_newspace_ptr. autorewrite with gc.
  rewrite Nn. erewrite gbind_done by (apply add_to_tospace_run; lia).
  erewrite gbind_done by (apply add_to_tospace_run; gc_fields; lia). gc_fields.
  replace (set_next _ (tospace_next s + 1 + 1) _) with (rooted s).
  2: { unfold rooted, set_next, set_gmem. gc_fields. rewrite M, Tn, Nn. f_equal; lia. }
  destruct (scan_roots s Q) as (cp & s1 & Rt & Run1). rewrite Run1.
  destruct (scan_copies cp s1 Rt) as (cp' & s2 & Run2 & T). erewrite gbind_done by exact Run2.
  destruct (trace_weak cp' s2 T) as (s3 & Run3 & Tr). erewrite gbind_done by exact Run3.
  exists cp', s3. split; [reflexivity | exact Tr].
Qed.

(** ** Copying tospace back *)

(** Memory after [save_tospace_copy]. *)
Definition moved (s : gc_state) : memory :=
  memmove (newspace_start L) (tospace_start L) (tospace_next s - tospace_start L) (gmem s).

Lemma save_tospace_run cp s : traced cp s ->
  save_tospace L (save_tospace_copy L) s = Done true (set_next (set_gmem s (moved s)) 0 0).
Proof.
  intros T. pose proof (wl_to _ WL). pose proof (wl_room _ WL). pose proof (wl_from _ WL).
  pose proof (tr_tnext _ _ T). pose proof (total_nonneg (CTX := CTX) cp).
  unfold save_tospace. erewrite gbind_done by (apply guarantee_open; lia). autorewrite with gc.
  unfold save_tospace_copy. autorewrite with gc. unfold moved, tospace_to_newspace.
  replace ((tospace_start L <=? tospace_start L) && (tospace_start L <=? tospace_end L)) with true
    by (symmetry; apply andb_true_iff; split; lia).
  now replace (tospace_start L - tospace_start L + newspace_start L) with (newspace_start L) by lia.
Qed.

(** Below [top] the final memory is tospace's, below the heap it is as
    traced. *)
Lemma collected_memory cp s m' r' :
  newspace_start L = fromspace_start L -> traced cp s ->
  (forall x, x < nb + total cp -> m' x = moved s x) ->
  forwarded L (place nb cp) (fixed_objects r) (fixed_objects r') ->
  forwarded L (place nb cp) (history_object L r) (history_object L r') ->
  INT_CODE r' = INT_CODE r &~ INT_GC ->
  collected L m0 blk r (place nb cp) (nb + total cp) m' r'.
Proof.
  intros Ns T Hm Ff Fh Hi_code. pose proof (tr_tnext _ _ T) as Tn.
  pose proof (total_nonneg (CTX := CTX) cp) as T0.
  assert (Hi : forall x, newspace_start L <= x < nb + total cp -> m' x = gmem s (NEWSPACE_TO_TOSPACE L x)).
  { intros x Hx. rewrite Hm by lia. unfold moved, memmove, NEWSPACE_TO_TOSPACE.
    destruct (Z.leb_spec (newspace_start L) x), (Z.ltb_spec x (newspace_start L + (tospace_next s - tospace_start L)));
      try lia. reflexivity. }
  assert (Lo : forall x, x < newspace_start L -> m' x = gmem s x).
  { intros x Hx. rewrite Hm by lia. unfold moved, memmove.
    destruct (Z.leb_spec (newspace_start L) x); [lia | reflexivity]. }
  pose proof (wr_stack _ _ _ _ WR). pose proof (wr_constant _ _ _ _ WR). pose proof (wr_heap _ _ _ _ WR).
  assert (Bound : total cp <= fromspace_end L - fromspace_start L).
  { apply (total_bound (CTX := CTX)); [apply T |]. intros a Ha.
    apply (live_block_blk (CTX := CTX)), (tr_live _ _ T), Ha. }
  split.
  - intros a. rewrite <- (tr_live _ _ T). split.
    + intros [p Hp]. now destruct (place_In (CTX := CTX) _ _ _ _ Hp).
    + apply In_place.
  - intros a k p Hp E. destruct (blk_size a k E) as (Sz & _ & Pos & _).
    destruct (place_In (CTX := CTX) _ _ _ _ Hp) as (_ & Hlo & Hhi).
    replace (words_at m' p (Z.to_nat (block_size m0 k a)))
      with (words_at (gmem s) (NEWSPACE_TO_TOSPACE L p) (Z.to_nat (block_size m0 k a)));
      [exact (tr_copy _ _ T a k p Hp E) |].
    apply words_at_ext. intros i Hi'. rewrite Hi by lia. f_equal. unfold NEWSPACE_TO_TOSPACE. lia.
  - intros a k p Hp E. destruct (blk_size a k E) as (<- & _).
    destruct (place_In (CTX := CTX) _ _ _ _ Hp) as (_ & Hlo & Hhi). lia.
  - intros a b k k' p q Hp Hq N Ea Eb. destruct (blk_size a k Ea) as (<- & _).
    destruct (blk_size b k' Eb) as (<- & _). exact (place_apart _ _ _ _ _ _ Hp Hq N).
  - intros x Hx. destruct (place_cover cp (tr_nodup _ _ T) nb x Hx) as (a & p & Ha & Hp & Hx').
    apply (tr_live _ _ T), (live_block_blk (CTX := CTX)) in Ha as [k E].
    destruct (blk_size a k E) as (Sz & _). exists a, k, p. rewrite <- Sz. auto.
  - lia.
  - rewrite (row_ext m' (gmem s)) by (intros x Hx; apply Lo; lia). apply T.
  - rewrite (row_ext m' (gmem s)) by (intros x Hx; apply Lo; lia). apply T.
  - exact Ff.
  - exact Fh.
  - intros x Hx N1 N2. rewrite Lo by lia. apply (tr_frame _ _ T).
    destruct (low_address x Hx). now repeat split.
  - exact Hi_code.
Qed.

(** Forwarding the history's object is forwarding its address. *)
Lemma history_forwarded new o :
  (forall a p, new a = Some p -> memory_base L <= p < memory_base L + 2 ^ 58) ->
  forwarded L new (history_object L r) o ->
  MAKE_POINTER_OBJECT L UNMARKED_HISTORY_TYPE (OBJECT_ADDRESS L o) = o.
Proof.
  intros Hn F. pose proof (wr_history_range _ _ _ _ WR) as Rg.
  destruct (pointer_object (L := L) UNMARKED_HISTORY_TYPE (history_register r)) as [Ty Ad]; [lia | exact Rg |].
  unfold forwarded in F. fold (history_object L r) in *.
  destruct (points L (history_object L r)) as [[a k]|].
  - destruct F as (p & Hp & ->). unfold OBJECT_NEW_ADDRESS, OBJECT_NEW_DATUM. rewrite Ty.
    fold (MAKE_POINTER_OBJECT L UNMARKED_HISTORY_TYPE p).
    destruct (pointer_object (L := L) UNMARKED_HISTORY_TYPE p) as [_ ->]; [lia | exact (Hn _ _ Hp) | reflexivity].
  - subst o. rewrite Ad. reflexivity.
Qed.

(** [std_gc_pt2]: what tospace holds is put where newspace is. *)
Lemma std_gc_pt2_spec cp s :
  newspace_start L = fromspace_start L -> traced cp s ->
  exists r' s', std_gc_pt2 L r (newspace_start L) s = Done r' s'
    /\ collected L m0 blk r (place nb cp) (nb + total cp) (gmem s') r'
    /\ nb + total cp < r_Free r' /\ tospace_next s' = 0.
Proof.
  intros Ns T. pose proof (tr_tnext _ _ T) as Tn. pose proof (tr_nnext _ _ T) as Nn.
  pose proof (total_nonneg (CTX := CTX) cp) as T0.
  assert (Low : forall i, 0 <= i < 2 -> moved s (newspace_start L + i) = gmem s (tospace_start L + i)).
  { intros i Hi. unfold moved, memmove.
    destruct (Z.leb_spec (newspace_start L) (newspace_start L + i)),
      (Z.ltb_spec (newspace_start L + i) (newspace_start L + (tospace_next s - tospace_start L))); try lia.
    cbn [andb]. f_equal. lia. }
  pose proof (Low 0 ltac:(lia)) as Low0. rewrite !Z.add_0_r in Low0. pose proof (Low 1 ltac:(lia)) as Low1.
  assert (Rg : forall a p, place nb cp a = Some p -> memory_base L <= p < memory_base L + 2 ^ 58).
  { intros a p Hp. destruct (place_In (CTX := CTX) _ _ _ _ Hp) as (Ha & Hlo & Hhi).
    assert (Bound : total cp <= fromspace_end L - fromspace_start L).
    { apply (total_bound (CTX := CTX)); [apply T |]. intros b Hb.
      apply (live_block_blk (CTX := CTX)), (tr_live _ _ T), Hb. }
    apply (tr_live _ _ T), (live_block_blk (CTX := CTX)) in Ha as [k E].
    pose proof (blk_size a k E). pose proof (wl_new _ WL). pose proof (wl_new_end _ WL). lia. }
  unfold std_gc_pt2, get_newspace_ptr. autorewrite with gc.
  erewrite gbind_done by exact (save_tospace_run cp s T). autorewrite with gc. gc_fields.
  rewrite Low0, Low1, Nn.
  set (heap := mk_machine (moved s) (nb + total cp) (r_heap_start r) (r_heap_alloc_limit r) false).
  assert (Len : exists length needed, new_ephemeron_length r (ephemeron_count s) heap = Some (length, needed)
                /\ 0 < length).
  { unfold new_ephemeron_length.
    destruct (ephemeron_length_some (ulong (ephemeron_count s + n_ephemerons_requested r))) as (l1 & -> & P1).
    cbn [obind]. destruct (negb _); [| eauto].
    destruct (ephemeron_length_some (ephemeron_count s)) as (l2 & -> & P2). cbn [obind]. eauto. }
  destruct Len as (length & needed & E & Pl). rewrite E. cbn [fill_vector].
  unfold fill_vector. cbn [heap Free mem Memory.heap_start heap_alloc_limit GC_ENABLED_P].
  autorewrite with gc. eexists _, _. split; [reflexivity |]. gc_fields. split; [| cbn [r_Free]; split; [lia | reflexivity]].
  apply (collected_memory cp s); [exact Ns | exact T | | apply T | | reflexivity].
  - intros x Hx. rewrite fill_spec. destruct (Z.leb_spec (nb + total cp + 1) x); [lia |]. cbn [andb].
    apply store_other. lia.
  - unfold history_object. cbn [history_register].
    rewrite (history_forwarded (place nb cp)); [apply T | exact Rg | apply T].
Qed.

End Tracing.
