(* ===== verification/CollectProps.v ===== *)
(** * Properties of the garbage collector

    The theorems on whole collections, and their instances on a small heap. *)

From Stdlib Require Import ZArith List Lia Bool.
From S2P Require Import Prelude.
From S2P Require Import Object.
From S2P Require Import Memory.
From S2P Require Import Gc.
From S2P Require Import GcSpec.
From S2P Require Import GcInv.
From S2P Require Import Collect.
From S2P Require Import CollectSpec.
Import ListNotations.

(** The collector as a primitive finds it: tospace closed, no ephemerons
    listed. *)
Record idle (s : gc_state) : Prop := {
  id_closed : tospace_next s = 0;
  id_scanning : scanning_ephemerons_p s = false;
  id_list : ephemeron_list s = SHARP_F;
  id_queue : ephemeron_queue s = SHARP_F
}.

(** A well-formed machine to collect in. *)
Record wf_collection (L : layout) (m : memory) (blk : Z -> option block_kind) (r : registers) : Prop := {
  wc_layout : wf_layout L;
  wc_heap : wf_heap L m blk;
  wc_roots : wf_roots L m blk r
}.

Lemma collection_context L m blk r : wf_collection L m blk r -> gc_context L m blk (roots L m r).
Proof.
  intros [WLt WHp WR]. split; [exact WLt | exact WHp |].
  intros o [-> | [-> | [H | H]]]; try apply WR.
  - exact (scans_scannable _ _ _ (wr_stack_words _ _ _ _ WR) H).
  - exact (scans_scannable _ _ _ (wr_constant_words _ _ _ _ WR) H).
Qed.

(** Rounds enough for every loop: the words below [Free], and two. *)
Definition rounds (L : layout) : nat := S (Z.to_nat (fromspace_end L - memory_base L + n_roots)).

Lemma rounds_enough L fuel : wf_layout L -> (rounds L <= fuel)%nat ->
  enough L fuel /\ (Z.to_nat (fromspace_end L - memory_base L + n_roots) < fuel)%nat.
Proof.
  unfold rounds, enough. intros W H. pose proof (wl_from _ W). lia.
Qed.

(** What [garbage_collect] does before [std_gc_pt1]. *)
Definition opened (L : layout) (s : gc_state) : gc_state :=
  set_ephemeron_count (set_weak_chain (set_next s (tospace_start L) (newspace_start L)) 0) 0.

Lemma open_run L fuel r s :
  newspace_start L = r_heap_start r -> idle s ->
  garbage_collect L fuel r s
  = gbind (std_gc_pt1 L fuel r) (std_gc_pt2 L r) (opened L s).
Proof.
  intros E [C _ _ _]. unfold garbage_collect, open_tospace. autorewrite with gc.
  erewrite (gbind_done _ _ s tt s).
  - autorewrite with gc. unfold initialize_weak_chain. autorewrite with gc. rewrite <- E. reflexivity.
  - unfold GUARANTEE_TOSPACE_CLOSED. autorewrite with gc. now rewrite C.
Qed.

Lemma opened_traced L blk r fuel s :
  wf_collection L (gmem s) blk r -> idle s -> (rounds L <= fuel)%nat ->
  exists cp s', std_gc_pt1 L fuel r (opened L s) = Done (newspace_start L) s'
    /\ traced (L := L) (m0 := gmem s) (blk := blk) (r := r) cp s'.
Proof.
  intros W [C Q1 Q2 Q3] F. pose proof (collection_context _ _ _ _ W) as CTX. destruct W as [WLt WHp WR].
  destruct (rounds_enough L fuel WLt F) as [EF FR].
  apply (std_gc_pt1_spec (CTX := CTX) (WR := WR) (EF := EF) FR); try reflexivity.
  repeat split; assumption.
Qed.

(** C2: a garbage collection, in a machine whose live heap is well formed and
    has no ephemerons and no compiled code, returns, and implements the
    specification [collected]: there is a function that gives exactly the
    live blocks a place in the new heap, side by side from its start with
    nothing between them and without overlap; the copy of every block has
    each of its scanned words forwarded by that function and its other words
    unchanged; the car of a weak pair is forwarded if its block is live and
    #F if not; the stack, the constant space and the registers are forwarded
    in the same way, the rest of the memory below the heap is unchanged, and
    the request for a collection is withdrawn. *)
Theorem garbage_collect_implements_collected base to_start to_end r blk fuel s :
  let L := collector_layout base to_start to_end r in
  wf_collection L (gmem s) blk r -> idle s -> (rounds L <= fuel)%nat ->
  exists new top r' s',
    garbage_collect L fuel r s = Done r' s'
    /\ collected L (gmem s) blk r new top (gmem s') r'
    /\ top < r_Free r' /\ tospace_next s' = 0.
Proof.
  intros L W I F. rewrite open_run by (exact I || reflexivity).
  destruct (opened_traced L blk r fuel s W I F) as (cp & s1 & Run1 & T).
  pose proof (collection_context _ _ _ _ W) as CTX. destruct W as [WLt WHp WR].
  destruct (rounds_enough L fuel WLt F) as [EF FR].
  destruct (std_gc_pt2_spec (CTX := CTX) (WR := WR) FR cp s1 eq_refl T) as (r' & s2 & Run2 & Col & Tp & Cl).
  erewrite gbind_done by exact Run1. rewrite Run2. eauto 8.
Qed.

(** C14: tracing is safe in a machine whose live heap is well formed and has
    no ephemerons and no compiled code, with a tospace for all of fromspace and
    two words: from the opening of tospace to the end of [std_gc_pt1] only
    fromspace, the roots, and of tospace as many words from its start as
    fromspace has, and two, are written; the words filled are no more than
    that, so tospace is not overrun although [gc_transport_words] does not
    test for its end. *)
Theorem std_gc_pt1_safe base to_start to_end r blk fuel s :
  let L := collector_layout base to_start to_end r in
  wf_collection L (gmem s) blk r -> idle s -> (rounds L <= fuel)%nat ->
  exists s', std_gc_pt1 L fuel r (opened L s) = Done (newspace_start L) s'
    /\ to_start <= tospace_next s' <= to_end
    /\ tospace_next s' - to_start <= r_Free r - r_heap_start r + n_roots
    /\ newspace_next s' - r_heap_start r = tospace_next s' - to_start
    /\ forall x, ~ (r_heap_start r <= x < r_Free r) ->
         ~ (to_start <= x < to_start + n_roots + (r_Free r - r_heap_start r)) ->
         ~ (stack_pointer r <= x < stack_end r) ->
         ~ (constant_start r <= x < constant_alloc_next r) -> gmem s' x = gmem s x.
Proof.
  intros L W I F. destruct (opened_traced L blk r fuel s W I F) as (cp & s1 & Run1 & T).
  pose proof (collection_context _ _ _ _ W) as CTX. destruct W as [WLt WHp WR].
  pose proof (tr_tnext _ _ T) as Tn. pose proof (tr_nnext _ _ T) as Nn.
  pose proof (total_nonneg (CTX := CTX) cp). pose proof (wl_room _ WLt) as Room.
  assert (Bound : total (m0 := gmem s) (blk := blk) cp <= fromspace_end L - fromspace_start L).
  { apply (total_bound (CTX := CTX)); [apply T |]. intros a Ha.
    apply (live_block_blk (CTX := CTX)), (tr_live _ _ T), Ha. }
  exists s1. unfold L in *. cbn [collector_layout tospace_start tospace_end newspace_start fromspace_start
    fromspace_end] in *. split; [exact Run1 |]. repeat split; try lia.
  intros x N1 N2 N3 N4. apply (tr_frame _ _ T). unfold untouched, in_from.
  cbn [tospace_start fromspace_start fromspace_end]. auto.
Qed.

(** ** A small heap

    A list of a weak pair and the number 5, held by the stack; the weak pair's
    car is a list that nothing else refers to; a vector that refers to the
    list, held by the fixed objects. *)
Module Sample.

Definition object_at (type a : Z) : Z := MAKE_OBJECT type (a - 1000).
Definition empty_list : Z := MAKE_OBJECT TC_CONSTANT 9.

Definition heap_words : list Z := [
  object_at TC_WEAK_CONS 1022; object_at TC_LIST 1024;
  object_at TC_LIST 1026; empty_list;
  fixnum 5; empty_list;
  fixnum 7; empty_list;
  MAKE_OBJECT TC_MANIFEST_VECTOR 1; object_at TC_LIST 1020 ].

Definition memory0 (a : Z) : Z :=
  if a =? 1000 then object_at TC_LIST 1020
  else if 1020 <=? a then nth (Z.to_nat (a - 1020)) heap_words 0 else 0.

Definition blocks : list (Z * block_kind) :=
  [(1020, Tuple 2); (1022, Weak_pair); (1024, Tuple 2); (1026, Tuple 2); (1028, Vector)].

Fixpoint lookup (l : list (Z * block_kind)) (a : Z) : option block_kind :=
  match l with
  | [] => None
  | (b, k) :: l => if a =? b then Some k else lookup l a
  end.

Definition regs : registers :=
  mk_registers 1020 1030 1090 1000 1001 1010 1010 (object_at TC_VECTOR 1028) 1015 0 0 0 false 5.
Definition L : layout := collector_layout 1000 2000 2100 regs.
Definition state : gc_state := mk_gc memory0 0 0 0 SHARP_F SHARP_F 0 false.

Lemma lookup_Forall (P : Z -> block_kind -> Prop) l :
  Forall (fun x => P (fst x) (snd x)) l -> forall a k, lookup l a = Some k -> P a k.
Proof.
  induction 1 as [| [b k'] l H _ IH]; intros a k E; cbn [lookup fst snd] in *; [discriminate |].
  destruct (Z.eqb_spec a b) as [-> | _]; [now injection E as <- | auto].
Qed.

Lemma memory0_words : words memory0.
Proof.
  intros a. unfold memory0. destruct (a =? 1000); [split; [discriminate | reflexivity] |].
  destruct (1020 <=? a); [| split; [discriminate | reflexivity]].
  assert (H : forallb (fun w => (0 <=? w) && (w <? 18446744073709551616)) heap_words = true)
    by (vm_compute; reflexivity).
  rewrite forallb_forall in H.
  destruct (nth_in_or_default (Z.to_nat (a - 1020)) heap_words 0) as [Hin | ->];
    [| split; [discriminate | reflexivity]].
  specialize (H _ Hin). apply andb_true_iff in H as [H1 H2]. red. lia.
Qed.

(** Goodness of a word is computed. *)
Definition good_b (o : Z) : bool :=
  (0 <=? o) && (o <? 18446744073709551616) && plain o &&
  match points L o, lookup blocks (OBJECT_ADDRESS L o) with
  | None, _ => true
  | Some (_, Tuple n), Some (Tuple n') => n =? n'
  | Some (_, Vector), Some Vector => true
  | Some (_, Weak_pair), Some Weak_pair => true
  | _, _ => false
  end.

Lemma good_b_good o : good_b o = true -> good L (lookup blocks) o.
Proof.
  unfold good_b. intros [[[H1 H2]%andb_true_iff H3]%andb_true_iff H4]%andb_true_iff.
  split; [red; lia | split; [exact H3 |]]. intros a k P. rewrite P in H4.
  destruct (points_from o a k P) as (_ & A & _). rewrite A in H4.
  destruct k, (lookup blocks a) as [[]|]; try discriminate; try reflexivity.
  apply Z.eqb_eq in H4. now subst.
Qed.

Lemma good_words ws : forallb good_b ws = true -> Forall (good L (lookup blocks)) ws.
Proof. intros H. rewrite forallb_forall in H. apply Forall_forall. auto using good_b_good. Qed.

Lemma good_scannable ws : forallb good_b ws = true -> scannable (good L (lookup blocks)) ws.
Proof. intros H. apply (Forall_scannable (L := L)), good_words, H. Qed.

(** The block is apart from all others. *)
Definition apart_b (a : Z) (k : block_kind) : bool :=
  forallb (fun x => (a =? fst x) || ((a + block_size memory0 k a <=? fst x)
                                     || (fst x + block_size memory0 (snd x) (fst x) <=? a))) blocks.

Lemma sample_layout : wf_layout L.
Proof.
  split; cbn [L collector_layout regs memory_base fromspace_start fromspace_end tospace_start tospace_end
    newspace_start r_heap_start r_Free]; lia.
Qed.

Lemma sample_heap : wf_heap L memory0 (lookup blocks).
Proof.
  split.
  - exact memory0_words.
  - apply (lookup_Forall (fun a k => fromspace_start L <= a /\ 0 < block_size memory0 k a
      /\ a + block_size memory0 k a <= fromspace_end L)).
    repeat apply Forall_cons; [.. | apply Forall_nil]; vm_compute; repeat split; discriminate || reflexivity.
  - intros a b k k' Ha Hb N.
    assert (H : apart_b a k = true).
    { revert a k Ha N. intros a k Ha _. revert a k Ha. apply lookup_Forall, Forall_forall.
      intros x Hx. assert (A : forallb (fun x => apart_b (fst x) (snd x)) blocks = true)
        by (vm_compute; reflexivity).
      rewrite forallb_forall in A. auto. }
    unfold apart_b in H. rewrite forallb_forall in H. revert N.
    pattern b, k'. revert b k' Hb. apply lookup_Forall, Forall_forall. intros x Hx N.
    specialize (H x Hx). destruct (Z.eqb_spec a (fst x)); [contradiction |]. cbn [orb] in H.
    apply orb_true_iff in H. rewrite !Z.leb_le in H. exact H.
  - apply (lookup_Forall (fun a k => wf_block L memory0 (lookup blocks) k a)).
    apply Forall_forall. intros x [<- | [<- | [<- | [<- | [<- | []]]]]]; cbn [fst snd wf_block];
      first [ apply good_words; vm_compute; reflexivity | apply good_scannable; vm_compute; reflexivity ].
Qed.

Lemma sample_roots : wf_roots L memory0 (lookup blocks) regs.
Proof.
  split; try (cbn [L collector_layout regs memory_base fromspace_start stack_pointer stack_end constant_start
    constant_alloc_next r_heap_start history_register]; lia).
  - apply good_scannable. vm_compute. reflexivity.
  - apply good_scannable. vm_compute. reflexivity.
  - apply good_b_good. vm_compute. reflexivity.
  - apply good_b_good. vm_compute. reflexivity.
Qed.

Lemma sample_collection : wf_collection L (gmem state) (lookup blocks) regs.
Proof. split; [exact sample_layout | exact sample_heap | exact sample_roots]. Qed.

Lemma sample_idle : idle state.
Proof. split; reflexivity. Qed.

(** The new heap: fixed objects, history, the list with its weak pair, whose
    car is #F, and the vector. *)
Definition new_heap : option (list Z) :=
  match garbage_collect L (rounds L) regs state with
  | Done r' s' => Some (words_at (gmem s') 1020 10)
  | _ => None
  end.

End Sample.

Example sample_new_heap :
  Sample.new_heap = Some [
    Sample.object_at TC_VECTOR 1026; Sample.object_at TC_HUNK3_A 1015;
    Sample.object_at TC_WEAK_CONS 1028; Sample.object_at TC_LIST 1024;
    fixnum 5; Sample.empty_list;
    MAKE_OBJECT TC_MANIFEST_VECTOR 1; Sample.object_at TC_LIST 1022;
    SHARP_F; Sample.empty_list ].
Proof. vm_compute. reflexivity. Qed.

Lemma garbage_collect_implements_collected_witness :
  wf_collection Sample.L Sample.memory0 (Sample.lookup Sample.blocks) Sample.regs
  /\ exists new top r' s',
       garbage_collect Sample.L (rounds Sample.L) Sample.regs Sample.state = Done r' s'
       /\ collected Sample.L Sample.memory0 (Sample.lookup Sample.blocks) Sample.regs new top (gmem s') r'
       /\ top < r_Free r' /\ tospace_next s' = 0.
Proof.
  split; [exact Sample.sample_collection |].
  exact (garbage_collect_implements_collected 1000 2000 2100 Sample.regs (Sample.lookup Sample.blocks)
           (rounds Sample.L) Sample.state Sample.sample_collection Sample.sample_idle (le_n _)).
Defined.

Lemma std_gc_pt1_safe_witness :
  wf_collection Sample.L Sample.memory0 (Sample.lookup Sample.blocks) Sample.regs
  /\ exists s', std_gc_pt1 Sample.L (rounds Sample.L) Sample.regs (opened Sample.L Sample.state) = Done 1020 s'
       /\ 2000 <= tospace_next s' <= 2100
       /\ tospace_next s' - 2000 <= 1030 - 1020 + n_roots
       /\ newspace_next s' - 1020 = tospace_next s' - 2000
       /\ forall x, ~ (1020 <= x < 1030) -> ~ (2000 <= x < 2000 + n_roots + (1030 - 1020)) ->
            ~ (1000 <= x < 1001) -> ~ (1010 <= x < 1010) -> gmem s' x = Sample.memory0 x.
Proof.
  split; [exact Sample.sample_collection |].
  exact (std_gc_pt1_safe 1000 2000 2100 Sample.regs (Sample.lookup Sample.blocks)
           (rounds Sample.L) Sample.state Sample.sample_collection Sample.sample_idle (le_n _)).
Defined.

(** [compute_ephemeron_array_length] gives the first of its primes that
    is not below its argument, or the largest prime when all are below, and
    its binary search takes at most one round for each prime. *)
Theorem ephemeron_array_length_first n :
  exists k, compute_ephemeron_array_length n = Some (prime_at k) /\ 0 <= k < 28
    /\ (forall i, 0 <= i < k -> prime_at i < n) /\ (prime_at k < n -> k = 27).
Proof.
  unfold compute_ephemeron_array_length. change (Z.of_nat (length primes)) with 28. change (28 - 1) with 27.
  destruct (Z.ltb_spec (prime_at 27) n).
  - exists 27. repeat split; try lia. intros i Hi. pose proof (primes_increase i 27). lia.
  - destruct (ephemeron_length_loop_spec (length primes) n 0 28) as (k & E & Hk & Hn & Lo);
      [lia | lia | lia | vm_compute; discriminate | lia | lia | lia |].
    exists k. repeat split; auto; lia.
Qed.
