(* ===== verification/Ephemeron.v ===== *)
(** * Two ephemerons on one key (for Gc.v)

    [queue_ephemerons_for_key] goes on from [next_loc] also after it has
    unlinked an entry, when [next_loc] already holds the old head of the
    queue: it then walks the queue instead of the bucket.  When two
    ephemerons have the same key and were copied before it, the walk never
    ends. *)

From Stdlib Require Import ZArith List Lia Bool.
From S2P Require Import Prelude.
From S2P Require Import Object.
From S2P Require Import Memory.
From S2P Require Import Gc.
From S2P Require Import GcSpec.
From S2P Require Import GcInv.
From S2P Require Import Collect.
Import ListNotations.

Section Twins.
Variable L : layout.
Variable addr : Z.

Definition field (e i : Z) : Z := NEWSPACE_TO_TOSPACE L (OBJECT_ADDRESS L e + i).

(** An ephemeron whose key refers to [addr]. *)
Record keyed (m : memory) (e : Z) : Prop := {
  ky_ephemeron : EPHEMERON_P e = true;
  ky_word : is_ulong (m (field e EPHEMERON_KEY));
  ky_normal : gc_ptr_type (m (field e EPHEMERON_KEY)) = GC_POINTER_NORMAL;
  ky_address : OBJECT_ADDRESS L (m (field e EPHEMERON_KEY)) = addr
}.

Lemma keyed_ext m m' e :
  m' (field e EPHEMERON_KEY) = m (field e EPHEMERON_KEY) -> keyed m e -> keyed m' e.
Proof. intros E [H1 H2 H3 H4]. split; rewrite ?E; assumption. Qed.

(** One round at an entry with the key. *)
Lemma queue_round n loc s e :
  gmem s loc = e -> keyed (gmem s) e ->
  queue_ephemerons_loop L (S n) addr loc s
  = queue_ephemerons_loop L n addr (field e EPHEMERON_NEXT)
      (set_ephemeron_queue
         (set_gmem s (store (store (gmem s) loc (gmem s (field e EPHEMERON_NEXT)))
                        (field e EPHEMERON_NEXT) (ephemeron_queue s))) e).
Proof.
  intros V [K1 _ K2 K3]. cbn [queue_ephemerons_loop]. autorewrite with gc. rewrite V, K1. cbv zeta.
  unfold READ_TOSPACE. autorewrite with gc. fold (field e EPHEMERON_KEY). fold (field e EPHEMERON_NEXT).
  unfold weak_referent_address. rewrite K2. autorewrite with gc. rewrite K3, Z.eqb_refl.
  autorewrite with gc. reflexivity.
Qed.

Lemma queue_end n loc s : EPHEMERON_P (gmem s loc) = false ->
  queue_ephemerons_loop L (S n) addr loc s = Done tt s.
Proof. intros H. cbn [queue_ephemerons_loop]. autorewrite with gc. now rewrite H. Qed.

(** The walk stands at the link of the queue's head [e1], which leads to
    [e2], the last of the queue, with the same key. *)
Record circling (s : gc_state) (e1 e2 : Z) : Prop := {
  ci_queue : ephemeron_queue s = e1;
  ci_link : gmem s (field e1 EPHEMERON_NEXT) = e2;
  ci_end : EPHEMERON_P (gmem s (field e2 EPHEMERON_NEXT)) = false;
  ci_key1 : keyed (gmem s) e1;
  ci_key2 : keyed (gmem s) e2
}.

(** The fields used of two ephemerons are different words. *)
Record distinct (e1 e2 : Z) : Prop := {
  di_next : field e1 EPHEMERON_NEXT <> field e2 EPHEMERON_NEXT;
  di_key12 : field e1 EPHEMERON_KEY <> field e2 EPHEMERON_NEXT;
  di_key21 : field e2 EPHEMERON_KEY <> field e1 EPHEMERON_NEXT
}.

Lemma distinct_sym e1 e2 : distinct e1 e2 -> distinct e2 e1.
Proof. intros [H1 H2 H3]. split; auto. Qed.

Lemma field_own e i j : i <> j -> field e i <> field e j.
Proof. intros H. unfold field, NEWSPACE_TO_TOSPACE. lia. Qed.

Lemma circling_round n s e1 e2 : distinct e1 e2 -> circling s e1 e2 ->
  exists s', queue_ephemerons_loop L (S n) addr (field e1 EPHEMERON_NEXT) s
             = queue_ephemerons_loop L n addr (field e2 EPHEMERON_NEXT) s'
    /\ circling s' e2 e1.
Proof.
  intros D [Q Lk En K1 K2]. rewrite (queue_round n _ s e2 Lk K2), Q. eexists. split; [reflexivity |].
  destruct D as [D1 D2 D3].
  pose proof (field_own e1 EPHEMERON_KEY EPHEMERON_NEXT ltac:(lia)).
  pose proof (field_own e2 EPHEMERON_KEY EPHEMERON_NEXT ltac:(lia)).
  split; cbn [ephemeron_queue set_ephemeron_queue gmem set_gmem].
  - reflexivity.
  - apply store_same.
  - rewrite store_other by exact D1. rewrite store_same. exact En.
  - apply (keyed_ext (gmem s)); [| exact K2]. rewrite !store_other; auto.
  - apply (keyed_ext (gmem s)); [| exact K1]. rewrite !store_other; auto.
Qed.

Lemma circling_forever n : forall s e1 e2, distinct e1 e2 -> circling s e1 e2 ->
  queue_ephemerons_loop L n addr (field e1 EPHEMERON_NEXT) s = Out_of_fuel.
Proof.
  induction n as [|n IH]; intros s e1 e2 D C; [reflexivity |].
  destruct (circling_round n s e1 e2 D C) as (s' & -> & C'). apply (IH s' e2 e1); auto using distinct_sym.
Qed.

(** ** Scanning the list of ephemerons *)

(** The word of the table where the list of ephemerons keyed on [addr]
    starts. *)
Definition bucket (m : memory) : Z :=
  OBJECT_ADDRESS L (ephemeron_array L)
  + ((8 * addr) mod OBJECT_DATUM (m (OBJECT_ADDRESS L (ephemeron_array L))) + 1).

(** Two ephemerons, [e1] copied before [e2], with the same key, which was
    copied after them: both are on the list and in the key's bucket. *)
Record twins (s : gc_state) (e1 e2 : Z) : Prop := {
  tw_list : ephemeron_list s = e2;
  tw_list_next : gmem s (field e2 EPHEMERON_LIST) = e1;
  tw_bucket : gmem s (bucket (gmem s)) = e2;
  tw_bucket_next : gmem s (field e2 EPHEMERON_NEXT) = e1;
  tw_bucket_end : EPHEMERON_P (gmem s (field e1 EPHEMERON_NEXT)) = false;
  tw_queue : EPHEMERON_P (ephemeron_queue s) = false;
  tw_key1 : keyed (gmem s) e1;
  tw_key2 : keyed (gmem s) e2;
  tw_live : BROKEN_HEART_P (gmem s addr) = true;
  tw_apart : NoDup [bucket (gmem s); field e1 EPHEMERON_NEXT; field e2 EPHEMERON_NEXT;
                    field e1 EPHEMERON_KEY; field e2 EPHEMERON_KEY; addr;
                    OBJECT_ADDRESS L (ephemeron_array L)]
}.

(** The key of a keyed ephemeron is found live. *)
Lemma keyed_forward s e : keyed (gmem s) e -> BROKEN_HEART_P (gmem s addr) = true ->
  exists o, weak_referent_forward L (gmem s (field e EPHEMERON_KEY)) s = Done o s /\ (SHARP_F =? o) = false.
Proof.
  intros [K1 W K2 K3] B. unfold weak_referent_forward. rewrite K2, K3. autorewrite with gc. rewrite B.
  eexists. split; [reflexivity |]. set (key := gmem s (field e EPHEMERON_KEY)) in *.
  pose proof (type_range key W) as T.
  assert (N : OBJECT_TYPE key <> 0).
  { intros E. unfold gc_ptr_type, GC_TYPE in K2. rewrite E in K2. discriminate. }
  unfold MAKE_OBJECT_FROM_OBJECTS. rewrite MAKE_OBJECT_add by (lia || (rewrite OBJECT_DATUM_mod; apply mod58)).
  apply Z.eqb_neq. change SHARP_F with 0. pose proof (mod58 (gmem s addr)). rewrite OBJECT_DATUM_mod. lia.
Qed.

(** One entry of the list, up to the walk along the bucket. *)
Lemma scan_list_entry fuel n s e :
  keyed (gmem s) e -> BROKEN_HEART_P (gmem s addr) = true ->
  scan_ephemeron_list L fuel (S n) e s
  = gbind (queue_ephemerons_loop L fuel addr (bucket (gmem s)))
      (fun _ => scan_ephemeron_list L fuel n (gmem s (field e EPHEMERON_LIST))) s.
Proof.
  intros K B. destruct (keyed_forward s e K B) as (o & F & No). destruct K as [K1 _ K2 K3].
  cbn [scan_ephemeron_list]. rewrite K1. cbv zeta. unfold READ_TOSPACE. autorewrite with gc.
  fold (field e EPHEMERON_KEY). fold (field e EPHEMERON_LIST).
  erewrite gbind_done by exact F. rewrite No. cbn [negb]. autorewrite with gc.
  unfold weak_referent_address. rewrite K2. autorewrite with gc. rewrite K3.
  unfold queue_ephemerons_for_key, ephemeron_bucket, ephemeron_array_length. autorewrite with gc. reflexivity.
Qed.

(** The walk for [e2], the first on the list, ends: [e2] is queued and [e1] is
    left in the bucket. *)
Lemma first_walk n s e1 e2 : twins s e1 e2 ->
  exists s', queue_ephemerons_loop L (S (S n)) addr (bucket (gmem s)) s = Done tt s'
    /\ ephemeron_queue s' = e2 /\ gmem s' (bucket (gmem s)) = e1
    /\ EPHEMERON_P (gmem s' (field e2 EPHEMERON_NEXT)) = false
    /\ forall x, x <> bucket (gmem s) -> x <> field e2 EPHEMERON_NEXT -> gmem s' x = gmem s x.
Proof.
  intros [T1 T2 T3 T4 T5 T6 K1 K2 B A]. rewrite (queue_round _ _ s e2 T3 K2).
  set (s' := set_ephemeron_queue _ e2).
  assert (N : bucket (gmem s) <> field e2 EPHEMERON_NEXT).
  { apply NoDup_cons_iff in A as [A _]. intros E. apply A. rewrite E. right. now left. }
  assert (V : gmem s' (field e2 EPHEMERON_NEXT) = ephemeron_queue s) by (apply store_same).
  exists s'. rewrite queue_end by (now rewrite V). rewrite V. repeat split.
  - unfold s'. cbn [gmem set_ephemeron_queue set_gmem]. rewrite store_other by exact N.
    rewrite store_same. exact T4.
  - exact T6.
  - intros x N1 N2. unfold s'. cbn [gmem set_ephemeron_queue set_gmem]. now rewrite !store_other.
Qed.

(** The words of [twins] are different. *)
Record apart (s : gc_state) (e1 e2 : Z) : Prop := {
  ap_distinct : distinct e1 e2;
  ap_next1 : bucket (gmem s) <> field e1 EPHEMERON_NEXT;
  ap_next2 : bucket (gmem s) <> field e2 EPHEMERON_NEXT;
  ap_key1 : field e1 EPHEMERON_KEY <> bucket (gmem s);
  ap_key2 : field e2 EPHEMERON_KEY <> bucket (gmem s);
  ap_addr : addr <> bucket (gmem s) /\ addr <> field e2 EPHEMERON_NEXT;
  ap_array : OBJECT_ADDRESS L (ephemeron_array L) <> bucket (gmem s)
             /\ OBJECT_ADDRESS L (ephemeron_array L) <> field e2 EPHEMERON_NEXT
}.

Lemma twins_apart s e1 e2 : twins s e1 e2 -> apart s e1 e2.
Proof.
  intros [_ _ _ _ _ _ _ _ _ A]. rewrite !NoDup_cons_iff in A. cbn [In] in A.
  split; try split; intros E; rewrite E in A; tauto.
Qed.

(** C15: when two ephemerons were copied before their common key, and the key
    was copied later, the pass over the ephemerons never returns, whatever the
    number of rounds it is given: [queue_ephemerons_for_key], called for the
    second one, goes on from the link that now leads into the queue and moves
    the two in turn to the queue's front for ever. *)
Theorem twins_hang fuel s e1 e2 : twins s e1 e2 -> scan_ephemerons L fuel s = Out_of_fuel.
Proof.
  intros T. pose proof (twins_apart s e1 e2 T) as Ap. unfold scan_ephemerons. autorewrite with gc.
  rewrite (tw_list _ _ _ T). set (s0 := set_scanning s true).
  assert (T0 : twins s0 e1 e2) by (destruct T; split; assumption).
  assert (Hang : scan_ephemeron_list L fuel fuel e2 s0 = Out_of_fuel);
    [| unfold gbind; now rewrite Hang].
  destruct fuel as [|[|n]]; [reflexivity | |].
  - rewrite (scan_list_entry 1 0 s0 e2) by apply T0. unfold gbind.
    now rewrite (queue_round 0 _ s0 e2) by apply T0.
  - rewrite (scan_list_entry _ _ s0 e2) by apply T0.
    destruct (first_walk n s0 e1 e2 T0) as (s1 & Run & Q1 & V1 & E1 & Fr).
    erewrite gbind_done by exact Run. change (gmem s0) with (gmem s) in *.
    rewrite (tw_list_next _ _ _ T).
    destruct Ap as [D N1 N2 Kb1 Kb2 [Ad1 Ad2] [Ar1 Ar2]]. destruct T as [_ _ _ _ T5 _ K1 K2 B _].
    assert (Own2 := field_own e2 EPHEMERON_KEY EPHEMERON_NEXT ltac:(lia)).
    assert (Own1 := field_own e1 EPHEMERON_KEY EPHEMERON_NEXT ltac:(lia)).
    pose proof D as [D1 D2 D3].
    assert (K1' : keyed (gmem s1) e1) by (apply (keyed_ext (gmem s)); [apply Fr |]; auto).
    assert (K2' : keyed (gmem s1) e2) by (apply (keyed_ext (gmem s)); [apply Fr |]; auto).
    assert (Bk : bucket (gmem s1) = bucket (gmem s)) by (unfold bucket; rewrite Fr; auto).
    rewrite (scan_list_entry _ _ s1 e1 K1') by (rewrite Fr; auto). unfold gbind. rewrite Bk.
    rewrite (queue_round _ _ s1 e1 V1 K1'), Q1.
    rewrite (circling_forever _ _ e1 e2); [reflexivity | exact D |].
    split; cbn [ephemeron_queue set_ephemeron_queue gmem set_gmem].
    + reflexivity.
    + apply store_same.
    + rewrite !store_other by auto. exact E1.
    + apply (keyed_ext (gmem s1)); [| exact K1']. rewrite !store_other; auto.
    + apply (keyed_ext (gmem s1)); [| exact K2']. rewrite !store_other; auto.
Qed.

End Twins.

(** ** The list of two ephemerons and their key *)
Module Twin_sample.

Definition object_at (type a : Z) : Z := MAKE_OBJECT type (a - 1000).
Definition empty_list : Z := MAKE_OBJECT TC_CONSTANT 9.

Definition heap_words : list Z := [
  object_at TC_EPHEMERON 1028; object_at TC_LIST 1022;
  object_at TC_EPHEMERON 1033; object_at TC_LIST 1024;
  object_at TC_LIST 1026; empty_list;
  fixnum 1; empty_list;
  MARKED_EPHEMERON_MANIFEST; object_at TC_LIST 1026; fixnum 2; SHARP_F; SHARP_F;
  MARKED_EPHEMERON_MANIFEST; object_at TC_LIST 1026; fixnum 3; SHARP_F; SHARP_F;
  MAKE_OBJECT TC_MANIFEST_VECTOR 11 ].

Definition memory0 (a : Z) : Z :=
  if a =? 1000 then object_at TC_LIST 1020
  else if 1020 <=? a then nth (Z.to_nat (a - 1020)) heap_words 0 else 0.

Definition regs : registers :=
  mk_registers 1020 1050 1200 1000 1001 1010 1010 SHARP_F 1015 (object_at TC_VECTOR 1038) 0 0 false 0.
Definition L : layout := collector_layout 1000 2000 2100 regs.
Definition state : gc_state := mk_gc memory0 0 0 0 SHARP_F SHARP_F 0 false.

Definition fuel : nat := 100.

(** The collection up to the passes over ephemerons and weak pairs. *)
Definition scan_only : gc unit :=
  (open_tospace L 1020 ;;
   initialize_weak_chain ;;
   add_to_tospace (fixed_objects regs) ;;
   add_to_tospace (MAKE_POINTER_OBJECT L UNMARKED_HISTORY_TYPE (history_register regs)) ;;
   gc_scan_oldspace L fuel (stack_pointer regs) (stack_end regs) ;;
   gc_scan_oldspace L fuel (constant_start regs) (constant_alloc_next regs) ;;
   gc_scan_tospace L fuel 1020 0)%gc.

Definition scanned_state : gc_state :=
  match scan_only state with Done _ s => s | _ => state end.

End Twin_sample.

Lemma sample_twins :
  twins Twin_sample.L 1026 Twin_sample.scanned_state
    (Twin_sample.object_at TC_EPHEMERON 1028) (Twin_sample.object_at TC_EPHEMERON 1033).
Proof.
  split; try (vm_compute; reflexivity).
  - split; vm_compute; repeat split; discriminate || reflexivity.
  - split; vm_compute; repeat split; discriminate || reflexivity.
  - vm_compute. repeat constructor; intros H; repeat destruct H as [H | H]; (discriminate H || exact H).
Qed.

Lemma twins_hang_witness :
  twins Twin_sample.L 1026 Twin_sample.scanned_state
    (Twin_sample.object_at TC_EPHEMERON 1028) (Twin_sample.object_at TC_EPHEMERON 1033)
  /\ scan_ephemerons Twin_sample.L 1000 Twin_sample.scanned_state = Out_of_fuel.
Proof.
  split; [exact sample_twins |].
  exact (twins_hang Twin_sample.L 1026 1000 Twin_sample.scanned_state _ _ sample_twins).
Defined.

(** The whole collection of that heap. *)
Example twin_collection_hangs :
  garbage_collect Twin_sample.L Twin_sample.fuel Twin_sample.regs Twin_sample.state = Out_of_fuel.
Proof. vm_compute. reflexivity. Qed.
