(* ===== verification/Heap.v ===== *)
(** * Tagged objects in the heap (src/src/microcode/object.h, memmag.h, list.c)

    The memory operations of object.h on objects that point to blocks of
    words, a monad for code that reads and writes the machine of Memory.v and
    may leave by a fatal exit or a request for a garbage collection, and
    blocks: what is needed to tell the words of different objects apart. *)

From Stdlib Require Import ZArith List Lia Bool.
From S2P Require Import Prelude.
From S2P Require Import Object.
From S2P Require Import Memory.
Import ListNotations.

Notation TC_LIST := 1.
Notation TC_UNINTERNED_SYMBOL := 5.
Notation TC_VECTOR := 10.
Notation TC_ENVIRONMENT := 18.
Notation TC_INTERNED_SYMBOL := 29.
Notation TC_HUNK3 := 36.
Notation TC_REFERENCE_TRAP := 50.
Notation TC_WEAK_CONS := 55.
Notation TRAP_MAX_IMMEDIATE := 9.

(** [#f] is 0, so that the global environment, which is the same object, is
    0 and the null environment 1; the empty list is the constant 9. *)
Notation SHARP_F := 0.
Notation SHARP_T := (MAKE_OBJECT TC_CONSTANT 0).
Notation EMPTY_LIST := (MAKE_OBJECT TC_CONSTANT 9).

Definition PAIR_P (object : Z) : bool := OBJECT_TYPE object =? TC_LIST.
Definition WEAK_PAIR_P (object : Z) : bool := OBJECT_TYPE object =? TC_WEAK_CONS.
Definition VECTOR_P (object : Z) : bool := OBJECT_TYPE object =? TC_VECTOR.
Definition INTERNED_SYMBOL_P (object : Z) : bool := OBJECT_TYPE object =? TC_INTERNED_SYMBOL.
Definition UNINTERNED_SYMBOL_P (object : Z) : bool := OBJECT_TYPE object =? TC_UNINTERNED_SYMBOL.
Definition SYMBOL_P (object : Z) : bool := INTERNED_SYMBOL_P object || UNINTERNED_SYMBOL_P object.
Definition REFERENCE_TRAP_P (object : Z) : bool := OBJECT_TYPE object =? TC_REFERENCE_TRAP.

Definition OBJECT_NEW_TYPE (type datum_object : Z) : Z := MAKE_OBJECT type (OBJECT_DATUM datum_object).

Section Objects.
Variable memory_base : Z.

Definition DATUM_TO_ADDRESS (datum : Z) : Z := datum + memory_base.
Definition ADDRESS_TO_DATUM (address : Z) : Z := ulong (address - memory_base).
Definition OBJECT_ADDRESS (object : Z) : Z := DATUM_TO_ADDRESS (OBJECT_DATUM object).
Definition MAKE_POINTER_OBJECT (type address : Z) : Z := MAKE_OBJECT type (ADDRESS_TO_DATUM address).

Definition MEMORY_LOC (obj i : Z) : Z := OBJECT_ADDRESS obj + i.
Definition PAIR_CAR_LOC (pair : Z) : Z := MEMORY_LOC pair 0.
Definition PAIR_CDR_LOC (pair : Z) : Z := MEMORY_LOC pair 1.
Definition VECTOR_LOC (v i : Z) : Z := MEMORY_LOC v (i + 1).

End Objects.

(** ** The monad *)

Inductive exit :=
  | Termination
  | Abort (e : prim_error)
  | Assertion_failed
  | No_fuel.

Inductive run (A : Type) := Value (a : A) (s : machine) | Exit (e : exit).
Arguments Value {A}.
Arguments Exit {A}.

Definition act (A : Type) : Type := machine -> run A.

Definition ret {A} (a : A) : act A := fun s => Value a s.
Definition leave {A} (e : exit) : act A := fun _ => Exit e.
Definition bind {A B} (e : act A) (k : A -> act B) : act B := fun s =>
  match e s with Value a s' => k a s' | Exit x => Exit x end.
Definition current : act machine := fun s => Value s s.
Definition update (f : machine -> machine) : act unit := fun s => Value tt (f s).

Declare Scope act_scope.
Delimit Scope act_scope with act.
Notation "x <- e ;; k" := (bind e (fun x => k))
  (at level 61, e at next level, right associativity) : act_scope.
Notation "e ;; k" := (bind e (fun _ => k)) (at level 61, right associativity) : act_scope.

Definition fetch (a : Z) : act Z := fun s => Value (mem s a) s.
Definition assign (a v : Z) : act unit := update (fun s => set_mem s (store (mem s) a v)).

(** [*Free++ = object] *)
Definition push (object : Z) : act unit :=
  update (fun s => mk_machine (store (mem s) (Free s) object) (Free s + 1) (heap_start s)
                     (heap_alloc_limit s) (GC_ENABLED_P s)).

Definition assert (b : bool) : act unit := if b then ret tt else leave Assertion_failed.

Definition Primitive_GC_If_Needed (amount : Z) : act unit := fun s =>
  if GC_NEEDED_P s amount then Exit (Abort (Primitive_GC amount)) else Value tt s.

Section Pairs.
Local Open Scope act_scope.
Variable memory_base : Z.

Definition MEMORY_REF (obj i : Z) : act Z := fetch (MEMORY_LOC memory_base obj i).
Definition MEMORY_SET (obj i value : Z) : act unit := assign (MEMORY_LOC memory_base obj i) value.
Definition PAIR_CAR (pair : Z) : act Z := MEMORY_REF pair 0.
Definition PAIR_CDR (pair : Z) : act Z := MEMORY_REF pair 1.
Definition VECTOR_REF (v i : Z) : act Z := MEMORY_REF v (i + 1).
Definition VECTOR_LENGTH (v : Z) : act Z := w <- MEMORY_REF v 0 ;; ret (OBJECT_DATUM w).

Definition system_pair_cons (type car cdr : Z) : act Z :=
  Primitive_GC_If_Needed 2 ;;
  push car ;;
  push cdr ;;
  s <- current ;; ret (MAKE_POINTER_OBJECT memory_base type (Free s - 2)).

Definition cons (car cdr : Z) : act Z := system_pair_cons TC_LIST car cdr.

End Pairs.
