(* ===== verification/HeapArg.v ===== *)
(** * Arguments of primitives in the heap (src/src/microcode/utils.c, object.h)

    A primitive on the machine of Heap.v gets its arguments as words.  An
    integer argument is decoded by IntPrim.v, which works on integer objects
    with the digits of a bignum; here the digits are read from the heap. *)

From Stdlib Require Import ZArith List Lia Bool.
From S2P Require Import Prelude.
From S2P Require Import Bignum.
From S2P Require Import BignumSpec.
From S2P Require Import Object.
From S2P Require Import Integer.
From S2P Require Import IntPrim.
From S2P Require Import Memory.
From S2P Require Import Heap.
Import ListNotations.

(** The words of a fresh bignum do not matter here: it is filled at once. *)
#[export] Instance no_fresh_words : Bignum.Heap := fun _ => 0.

Section Arguments.
Local Open Scope act_scope.
Variable memory_base : Z.

(** An integer object with the digits of the bignum it points to. *)
Definition integer_object (m : memory) (w : Z) : object bignum :=
  if OBJECT_TYPE w =? TC_BIG_FIXNUM then
    let b := mk_bignum (m (VECTOR_LOC memory_base w 0)) [] in
    Big (mk_bignum (bn_header b)
           (map (fun i => m (VECTOR_LOC memory_base w (1 + Z.of_nat i))) (List.seq 0 (Z.to_nat (BIGNUM_LENGTH b)))))
  else Immediate w.

Definition of_prim {A} (p : prim A) : act A :=
  match p with PRIMITIVE_RETURN a => ret a | PRIMITIVE_ERROR e => leave (Abort e) end.

(** The [n]-th argument [w] decoded by a function of IntPrim.v. *)
Definition arg {A} (decode : object bignum -> prim A) (w : Z) : act A := fun s =>
  of_prim (decode (integer_object (mem s) w)) s.

Definition arg_nonnegative_integer (n w : Z) : act Z := arg (IntPrim.arg_nonnegative_integer n) w.
Definition arg_index_integer (n w upper_limit : Z) : act Z :=
  arg (fun x => IntPrim.arg_index_integer n x upper_limit) w.
Definition arg_ulong_integer (n w : Z) : act Z := arg (IntPrim.arg_ulong_integer n) w.
Definition arg_ulong_index_integer (n w upper_limit : Z) : act Z :=
  arg (fun x => IntPrim.arg_ulong_index_integer n x upper_limit) w.

Definition error_wrong_type_arg {A} (n : Z) : act A := leave (Abort (Object.error_wrong_type_arg n)).
Definition error_bad_range_arg {A} (n : Z) : act A := leave (Abort (Object.error_bad_range_arg n)).

Definition CHECK_ARG (n : Z) (p : Z -> bool) (object : Z) : act unit :=
  if p object then ret tt else error_wrong_type_arg n.

(** An integer as a result: a word, or a new block for a bignum. *)
Fixpoint push_list (xs : list Z) : act unit :=
  match xs with [] => ret tt | x :: xs => push x ;; push_list xs end.

Definition new_integer (o : option (object bignum)) : act Z :=
  match o with
  | None => leave Assertion_failed
  | Some (Immediate w) => ret w
  | Some (Big b) =>
      let words := bn_header b :: bn_digits b in
      let n := Z.of_nat (length words) in
      Primitive_GC_If_Needed (1 + n) ;;
      s <- current ;;
      push_list (MAKE_OBJECT TC_MANIFEST_NM_VECTOR n :: words) ;;
      ret (MAKE_POINTER_OBJECT memory_base TC_BIG_FIXNUM (Free s))
  end.

Definition new_long (n : Z) : act Z := new_integer (long_to_integer n).
Definition new_ulong (n : Z) : act Z := new_integer (ulong_to_integer n).

End Arguments.
