(* ===== verification/Symbol.v ===== *)
(** * The symbol table (src/src/microcode/intern.c)

    The obarray is a vector of buckets, each a list of pairs whose cars are
    symbols.  The pair of a symbol that the global environment binds is an
    ordinary pair; the others are weak, so that a collection may replace
    their cars by #F, and the next search of the bucket drops them.

    The [length] bytes at a string pointer are a list of bytes here; words are
    little-endian.  [fuel] bounds the walks along a bucket. *)

From Stdlib Require Import ZArith List Lia Bool.
From S2P Require Import Prelude.
From S2P Require Import Object.
From S2P Require Import Memory.
From S2P Require Import Heap.
Import ListNotations.

Notation SYMBOL_NAME := 0.
Notation SYMBOL_GLOBAL_VALUE := 1.
Notation BYTEVECTOR_LENGTH_INDEX := 1.
Notation BYTEVECTOR_DATA := 2.
Notation OBARRAY := 3.
Notation TC_UNICODE_STRING := 27.
Notation TC_CHARACTER_STRING := 30.
Notation TC_BYTEVECTOR := 51.
Notation TRAP_UNBOUND := 2.
Definition UNBOUND_OBJECT : Z := MAKE_OBJECT TC_REFERENCE_TRAP TRAP_UNBOUND.

(** ** Strings *)

Definition byte_at (m : memory) (p : Z) : Z := (m (p / 8) >>> (8 * (p mod 8))) & 255.

Definition bytes_at (m : memory) (p : Z) (length : Z) : list Z :=
  map (fun i => byte_at m (p + Z.of_nat i)) (seq 0 (Z.to_nat length)).

Section Symbols.
Local Open Scope act_scope.
Variable memory_base : Z.
Variable fixed_objects : Z.
Variable fuel : nat.

Definition STRING_LENGTH (string : Z) : act Z :=
  w <- MEMORY_REF memory_base string BYTEVECTOR_LENGTH_INDEX ;; ret (OBJECT_DATUM w).
Definition STRING_POINTER (string : Z) : Z := 8 * MEMORY_LOC memory_base string BYTEVECTOR_DATA.

(** The bytes of a string. *)
Definition string_bytes (string : Z) : act (list Z) :=
  length <- STRING_LENGTH string ;;
  s <- current ;; ret (bytes_at (mem s) (STRING_POINTER string) length).

(** The FNV hash; [FIXNUM_LENGTH] is at least 32. *)
Definition string_hash (string : list Z) : Z :=
  fold_left (fun result byte => uint (result * 16777619) ^^ byte) string 2166136261.

Definition memcmp_equal (xs ys : list Z) : bool := if list_eq_dec Z.eq_dec xs ys then true else false.

(** ** Buckets *)

Definition symbol_bucket (string : list Z) : act Z :=
  obarray <- VECTOR_REF memory_base fixed_objects OBARRAY ;;
  n <- VECTOR_LENGTH memory_base obarray ;;
  ret (VECTOR_LOC memory_base obarray (string_hash string mod n)).

Fixpoint find_symbol_loop (n : nat) (string : list Z) (bucket : Z) : act Z :=
  match n with
  | O => leave No_fuel
  | S n =>
      list <- fetch bucket ;;
      if WEAK_PAIR_P list || PAIR_P list then
        symbol <- PAIR_CAR memory_base list ;;
        if INTERNED_SYMBOL_P symbol then
          name <- MEMORY_REF memory_base symbol SYMBOL_NAME ;;
          length <- STRING_LENGTH name ;;
          chars <- string_bytes name ;;
          if (length =? Z.of_nat (List.length string)) && memcmp_equal chars string
          then ret (PAIR_CAR_LOC memory_base list)
          else find_symbol_loop n string (PAIR_CDR_LOC memory_base list)
        else
          next <- PAIR_CDR memory_base list ;;
          assign bucket next ;;
          find_symbol_loop n string bucket
      else ret bucket
  end.

Definition find_symbol_internal (string : list Z) : act Z :=
  bucket <- symbol_bucket string ;; find_symbol_loop fuel string bucket.

Fixpoint replace_type_loop (n : nat) (symbol type bucket : Z) : act unit :=
  match n with
  | O => leave No_fuel
  | S n =>
      list <- fetch bucket ;;
      assert (WEAK_PAIR_P list || PAIR_P list) ;;
      element <- PAIR_CAR memory_base list ;;
      if INTERNED_SYMBOL_P element then
        if element =? symbol then assign bucket (OBJECT_NEW_TYPE type list)
        else replace_type_loop n symbol type (PAIR_CDR_LOC memory_base list)
      else
        next <- PAIR_CDR memory_base list ;;
        assign bucket next ;;
        replace_type_loop n symbol type bucket
  end.

Definition replace_symbol_bucket_type (symbol type : Z) : act unit :=
  if UNINTERNED_SYMBOL_P symbol then ret tt
  else
    assert (INTERNED_SYMBOL_P symbol) ;;
    string <- MEMORY_REF memory_base symbol SYMBOL_NAME ;;
    chars <- string_bytes string ;;
    bucket <- symbol_bucket chars ;;
    replace_type_loop fuel symbol type bucket.

Definition strengthen_symbol (symbol : Z) : act unit := replace_symbol_bucket_type symbol TC_LIST.
Definition weaken_symbol (symbol : Z) : act unit := replace_symbol_bucket_type symbol TC_WEAK_CONS.

(** ** Interning *)

Definition make_symbol (string cell : Z) : act Z :=
  Primitive_GC_If_Needed 4 ;;
  s <- current ;;
  let symbol := MAKE_POINTER_OBJECT memory_base TC_INTERNED_SYMBOL (Free s) in
  update (fun s => mk_machine (mem s) (Free s + 2) (heap_start s) (heap_alloc_limit s) (GC_ENABLED_P s)) ;;
  MEMORY_SET memory_base symbol SYMBOL_NAME string ;;
  MEMORY_SET memory_base symbol SYMBOL_GLOBAL_VALUE UNBOUND_OBJECT ;;
  link <- system_pair_cons memory_base TC_WEAK_CONS symbol EMPTY_LIST ;;
  assign cell link ;;
  ret symbol.

Definition find_symbol (string : list Z) : act Z :=
  cell <- find_symbol_internal string ;;
  w <- fetch cell ;; ret (if INTERNED_SYMBOL_P w then w else SHARP_F).

Definition string_to_symbol (string : Z) : act Z :=
  chars <- string_bytes string ;;
  cell <- find_symbol_internal chars ;;
  w <- fetch cell ;;
  if INTERNED_SYMBOL_P w then ret w else make_symbol string cell.

Definition intern_symbol (symbol : Z) : act Z :=
  name <- MEMORY_REF memory_base symbol SYMBOL_NAME ;;
  chars <- string_bytes name ;;
  cell <- find_symbol_internal chars ;;
  w <- fetch cell ;;
  if INTERNED_SYMBOL_P w then ret w
  else
    let result := OBJECT_NEW_TYPE TC_INTERNED_SYMBOL symbol in
    link <- system_pair_cons memory_base TC_WEAK_CONS result EMPTY_LIST ;;
    assign cell link ;;
    ret result.

(** ** Primitives *)

(** The logical [&&] of the type code with 3 is 1 for every nonzero type. *)
Definition string_p (object : Z) : act bool :=
  if (OBJECT_TYPE object =? TC_CHARACTER_STRING) || (OBJECT_TYPE object =? TC_BYTEVECTOR) then ret true
  else if OBJECT_TYPE object =? TC_UNICODE_STRING then
    w <- MEMORY_REF memory_base object BYTEVECTOR_LENGTH_INDEX ;;
    ret ((if negb (OBJECT_TYPE w =? 0) && negb (3 =? 0) then 1 else 0) =? 1)
  else ret false.

Definition CHECK_ARG_STRING_P (n object : Z) : act unit :=
  b <- string_p object ;; if b then ret tt else leave (Abort (error_wrong_type_arg n)).

Definition Prim_find_symbol (string : Z) : act Z :=
  CHECK_ARG_STRING_P 1 string ;; chars <- string_bytes string ;; find_symbol chars.
Definition Prim_string_to_symbol (string : Z) : act Z :=
  CHECK_ARG_STRING_P 1 string ;; string_to_symbol string.
Definition Prim_string_hash (string : Z) : act Z :=
  CHECK_ARG_STRING_P 1 string ;;
  chars <- string_bytes string ;; ret (ULONG_TO_FIXNUM (string_hash chars)).

End Symbols.
