(* ===== verification/Environment.v ===== *)
(** * Variables in environments (src/src/microcode/lookup.c, trap.h, sdata.h)

    An environment is a chain of frames.  A frame holds its arguments and the
    procedure whose application made it, which leads to the names of the
    arguments and to the parent frame; a definition in a frame replaces the
    procedure by an extension with a growing vector of (name . value) pairs.
    The chain ends in the global environment, where the value of a variable is
    in the symbol itself, or in the null environment.  A value cell can hold a
    reference trap: unassigned, unbound, a macro, or a cache that several cells
    share.

    As in the other files that depend on it, [CC_SUPPORT_P] is not defined, so
    that no compiled code refers to a cache.  A function returns its code and
    what it stored through [value_ret] or its last argument, if anything.
    [fuel] bounds the walks along a chain and along a list. *)

From Stdlib Require Import ZArith List Lia Bool.
From S2P Require Import Prelude.
From S2P Require Import Object.
From S2P Require Import Memory.
From S2P Require Import Heap.
From S2P Require Import Symbol.
Import ListNotations.

(** ** Constants *)

Notation NON_OBJECT := 0.
Notation TRAP_UNASSIGNED := 0.
Notation TRAP_EXPENSIVE := 6.
Notation TRAP_COMPILER_CACHED := 14.
Notation TRAP_MACRO := 15.
Notation NON_TRAP_KIND := 32.
Notation CACHE_TYPE := TC_HUNK3.
Notation CACHE_REFERENCES_TYPE := TC_HUNK3.
Notation CACHE_REFERENCES_ASSIGNMENT := 1.
Notation CACHE_REFERENCES_OPERATOR := 2.

Definition UNASSIGNED_OBJECT : Z := MAKE_OBJECT TC_REFERENCE_TRAP TRAP_UNASSIGNED.
Definition EXPENSIVE_OBJECT : Z := MAKE_OBJECT TC_REFERENCE_TRAP TRAP_EXPENSIVE.

Notation ENVIRONMENT_FUNCTION := 1.
Notation ENVIRONMENT_FIRST_ARG := 2.
Notation ENV_EXTENSION_PARENT_FRAME := 1.
Notation ENV_EXTENSION_PROCEDURE := 2.
Notation ENV_EXTENSION_COUNT := 3.
Notation ENV_EXTENSION_MIN_SIZE := 4.

Notation SPACE_PER_UUO_LINK := 10.
Notation SPACE_PER_CACHE := 3.

Definition THE_GLOBAL_ENV : Z := SHARP_F.
Definition GLOBAL_FRAME_P (frame : Z) : bool := frame =? THE_GLOBAL_ENV.
Definition PROCEDURE_FRAME_P (frame : Z) : bool := OBJECT_TYPE frame =? TC_ENVIRONMENT.
Definition ENVIRONMENT_P (env : Z) : bool := (OBJECT_TYPE env =? TC_ENVIRONMENT) || GLOBAL_FRAME_P env.

(** [PRIM_INTERRUPT] comes from [GC_CHECK] only, with the words asked for. *)
Inductive code :=
  | PRIM_DONE | PRIM_INTERRUPT (n_words : Z)
  | ERR_UNBOUND_VARIABLE | ERR_UNASSIGNED_VARIABLE | ERR_MACRO_BINDING
  | ERR_BAD_FRAME | ERR_ILLEGAL_REFERENCE_TRAP.

Definition res : Type := code * option Z.

Section Environments.
Local Open Scope act_scope.
Variable memory_base : Z.
Variable fixed_objects : Z.
Variable fuel : nat.

Definition RETURN_IF_ERROR (e : act res) (k : Z -> act res) : act res :=
  r <- e ;;
  match r with
  | (PRIM_DONE, Some v) => k v
  | (PRIM_DONE, None) => k 0
  | (c, _) => ret (c, None)
  end.

Definition DIE_IF_ERROR (e : act res) : act Z :=
  r <- e ;;
  match r with
  | (PRIM_DONE, Some v) => ret v
  | (PRIM_DONE, None) => ret 0
  | _ => leave Termination
  end.

(** [REQUEST_GC (n)] sets two registers that are not part of [machine],
    [INT_GC] among the requested interrupts and [gc_space_needed].  Nothing in
    lookup.c reads them, and each caller returns the code at once; so the code
    takes [n] to [requesting] in Interp.v, which has the registers. *)
Definition GC_CHECK (n : Z) (k : act res) : act res :=
  s <- current ;; if GC_NEEDED_P s n then ret (PRIM_INTERRUPT n, None) else k.

(** ** Fields (sdata.h, scode.h) *)

Definition GET_PROCEDURE_LAMBDA (procedure : Z) : act Z := MEMORY_REF memory_base procedure 0.
Definition GET_PROCEDURE_ENVIRONMENT (procedure : Z) : act Z := MEMORY_REF memory_base procedure 1.
Definition GET_LAMBDA_FORMALS (lambda : Z) : act Z := MEMORY_REF memory_base lambda 1.
Definition GET_LAMBDA_PARAMETERS (lambda : Z) : act Z :=
  formals <- GET_LAMBDA_FORMALS lambda ;; ret (MEMORY_LOC memory_base formals 2).
Definition GET_LAMBDA_N_PARAMETERS (lambda : Z) : act Z :=
  formals <- GET_LAMBDA_FORMALS lambda ;;
  n <- VECTOR_LENGTH memory_base formals ;; ret (n - 1)%UL.

Definition SYMBOL_GLOBAL_VALUE_CELL (symbol : Z) : Z := MEMORY_LOC memory_base symbol SYMBOL_GLOBAL_VALUE.

Definition GET_FRAME_PROCEDURE (frame : Z) : act Z := MEMORY_REF memory_base frame ENVIRONMENT_FUNCTION.
Definition GET_FRAME_PARENT (frame : Z) : act Z :=
  procedure <- GET_FRAME_PROCEDURE frame ;; GET_PROCEDURE_ENVIRONMENT procedure.
Definition SET_FRAME_EXTENSION (frame extension : Z) : act unit :=
  MEMORY_SET memory_base frame ENVIRONMENT_FUNCTION extension.
Definition GET_FRAME_ARG_CELL (frame index : Z) : Z :=
  MEMORY_LOC memory_base frame (ENVIRONMENT_FIRST_ARG + index).

Definition EXTENDED_FRAME_P (frame : Z) : act bool :=
  procedure <- GET_FRAME_PROCEDURE frame ;; ret (VECTOR_P procedure).
Definition GET_FRAME_EXTENSION_BINDINGS (extension : Z) : Z :=
  OBJECT_ADDRESS memory_base extension + ENV_EXTENSION_MIN_SIZE.
Definition GET_EXTENDED_FRAME_BINDINGS (frame : Z) : act Z :=
  extension <- GET_FRAME_PROCEDURE frame ;; ret (GET_FRAME_EXTENSION_BINDINGS extension).
Definition GET_EXTENDED_FRAME_LENGTH (frame : Z) : act Z :=
  extension <- GET_FRAME_PROCEDURE frame ;;
  n <- MEMORY_REF memory_base extension ENV_EXTENSION_COUNT ;; ret (UNSIGNED_FIXNUM_TO_LONG n).
Definition SET_FRAME_EXTENSION_LENGTH (extension length : Z) : act unit :=
  MEMORY_SET memory_base extension ENV_EXTENSION_COUNT (LONG_TO_UNSIGNED_FIXNUM length).
Definition SET_EXTENDED_FRAME_LENGTH (frame length : Z) : act unit :=
  extension <- GET_FRAME_PROCEDURE frame ;; SET_FRAME_EXTENSION_LENGTH extension length.
Definition GET_MAX_EXTENDED_FRAME_LENGTH (frame : Z) : act Z :=
  extension <- GET_FRAME_PROCEDURE frame ;;
  n <- VECTOR_LENGTH memory_base extension ;; ret (n - (ENV_EXTENSION_MIN_SIZE - 1))%UL.
Definition GET_EXTENDED_FRAME_PROCEDURE (frame : Z) : act Z :=
  extension <- GET_FRAME_PROCEDURE frame ;; MEMORY_REF memory_base extension ENV_EXTENSION_PROCEDURE.
Definition SET_FRAME_EXTENSION_PROCEDURE (extension procedure : Z) : act unit :=
  MEMORY_SET memory_base extension ENV_EXTENSION_PROCEDURE procedure.
Definition SET_FRAME_EXTENSION_PARENT_FRAME (extension frame : Z) : act unit :=
  MEMORY_SET memory_base extension ENV_EXTENSION_PARENT_FRAME frame.

Definition GET_TRAP_TAG (object : Z) : act Z := MEMORY_REF memory_base object 0.
Definition GET_TRAP_CACHE (object : Z) : act Z := MEMORY_REF memory_base object 1.
Definition SET_TRAP_CACHE (object cache : Z) : act unit := MEMORY_SET memory_base object 1 cache.

Definition GET_CACHE_VALUE (cache : Z) : act Z := MEMORY_REF memory_base cache 0.
Definition SET_CACHE_VALUE (cache value : Z) : act unit := MEMORY_SET memory_base cache 0 value.
Definition GET_CACHE_CLONE (cache : Z) : act Z := MEMORY_REF memory_base cache 1.
Definition SET_CACHE_CLONE (cache clone : Z) : act unit := MEMORY_SET memory_base cache 1 clone.
Definition GET_CACHE_REFERENCES_OBJECT (cache : Z) : act Z := MEMORY_REF memory_base cache 2.
Definition GET_CACHE_REFERENCES (cache kind : Z) : act Z :=
  references <- GET_CACHE_REFERENCES_OBJECT cache ;; ret (MEMORY_LOC memory_base references kind).

Definition EXTERNAL_UNASSIGNED_OBJECT : act Z := VECTOR_REF memory_base fixed_objects NON_OBJECT.
Definition MAP_TO_UNASSIGNED (value : Z) : act Z :=
  external <- EXTERNAL_UNASSIGNED_OBJECT ;; ret (if value =? external then UNASSIGNED_OBJECT else value).
Definition MAP_FROM_UNASSIGNED (value : Z) : act Z :=
  if value =? UNASSIGNED_OBJECT then EXTERNAL_UNASSIGNED_OBJECT else ret value.

(** ** Finding the cell of a variable *)

Definition get_trap_kind (object : Z) : act Z :=
  if REFERENCE_TRAP_P object then
    if OBJECT_DATUM object <=? TRAP_MAX_IMMEDIATE then ret (OBJECT_DATUM object)
    else tag <- GET_TRAP_TAG object ;; ret (OBJECT_DATUM tag)
  else ret NON_TRAP_KIND.

(** The loop over the parameters: [index] is [scan - start], and [n] the
    number of parameters left. *)
Fixpoint scan_parameters (n : nat) (start index frame symbol : Z) (find_unbound_p : bool) : act Z :=
  match n with
  | O => ret 0
  | S n =>
      name <- fetch (start + index) ;;
      if name =? symbol then
        let cell := GET_FRAME_ARG_CELL frame index in
        value <- fetch cell ;;
        if find_unbound_p || negb (value =? UNBOUND_OBJECT) then ret cell
        else scan_parameters n start (index + 1) frame symbol find_unbound_p
      else scan_parameters n start (index + 1) frame symbol find_unbound_p
  end.

Definition scan_procedure_bindings (procedure frame symbol : Z) (find_unbound_p : bool) : act Z :=
  lambda <- GET_PROCEDURE_LAMBDA procedure ;;
  start <- GET_LAMBDA_PARAMETERS lambda ;;
  n <- GET_LAMBDA_N_PARAMETERS lambda ;;
  scan_parameters (Z.to_nat n) start 0 frame symbol find_unbound_p.

(** The loop over an extension: 0 when no pair has the name. *)
Fixpoint scan_extension (n : nat) (scan symbol : Z) : act Z :=
  match n with
  | O => ret 0
  | S n =>
      pair <- fetch scan ;;
      name <- PAIR_CAR memory_base pair ;;
      if name =? symbol then ret (PAIR_CDR_LOC memory_base pair)
      else scan_extension n (scan + 1) symbol
  end.

Definition scan_frame (frame symbol : Z) (find_unbound_p : bool) : act Z :=
  if PROCEDURE_FRAME_P frame then
    extended <- EXTENDED_FRAME_P frame ;;
    if extended then
      scan <- GET_EXTENDED_FRAME_BINDINGS frame ;;
      length <- GET_EXTENDED_FRAME_LENGTH frame ;;
      cell <- scan_extension (Z.to_nat length) scan symbol ;;
      if negb (cell =? 0) then ret cell
      else
        procedure <- GET_EXTENDED_FRAME_PROCEDURE frame ;;
        scan_procedure_bindings procedure frame symbol find_unbound_p
    else
      procedure <- GET_FRAME_PROCEDURE frame ;;
      scan_procedure_bindings procedure frame symbol find_unbound_p
  else if GLOBAL_FRAME_P frame then ret (SYMBOL_GLOBAL_VALUE_CELL symbol)
  else ret 0.

(** The cell, or 0, and the frame. *)
Fixpoint find_binding_cell_loop (n : nat) (frame symbol : Z) : act (Z * Z) :=
  match n with
  | O => leave No_fuel
  | S n =>
      cell <- scan_frame frame symbol false ;;
      if negb (cell =? 0) || negb (PROCEDURE_FRAME_P frame) then ret (cell, frame)
      else parent <- GET_FRAME_PARENT frame ;; find_binding_cell_loop n parent symbol
  end.

Definition find_binding_cell (environment symbol : Z) : act (Z * Z) :=
  find_binding_cell_loop fuel environment symbol.

(** ** Reference *)

Definition lookup_variable_cache (cache : Z) : act res :=
  value <- GET_CACHE_VALUE cache ;;
  kind <- get_trap_kind value ;;
  if kind =? NON_TRAP_KIND then ret (PRIM_DONE, Some value)
  else if kind =? TRAP_UNASSIGNED then ret (ERR_UNASSIGNED_VARIABLE, None)
  else if kind =? TRAP_UNBOUND then ret (ERR_UNBOUND_VARIABLE, None)
  else if kind =? TRAP_MACRO then ret (ERR_MACRO_BINDING, Some value)
  else ret (ERR_ILLEGAL_REFERENCE_TRAP, None).

Definition lookup_variable (environment symbol : Z) : act res :=
  if negb (ENVIRONMENT_P environment && SYMBOL_P symbol) then ret (ERR_BAD_FRAME, None)
  else
    cf <- find_binding_cell environment symbol ;;
    let cell := fst cf in
    if cell =? 0 then ret (ERR_UNBOUND_VARIABLE, None)
    else
      value <- fetch cell ;;
      kind <- get_trap_kind value ;;
      if kind =? NON_TRAP_KIND then ret (PRIM_DONE, Some value)
      else if kind =? TRAP_UNASSIGNED then ret (ERR_UNASSIGNED_VARIABLE, None)
      else if kind =? TRAP_UNBOUND then ret (ERR_UNBOUND_VARIABLE, None)
      else if kind =? TRAP_MACRO then ret (ERR_MACRO_BINDING, Some value)
      else if kind =? TRAP_COMPILER_CACHED then cache <- GET_TRAP_CACHE value ;; lookup_variable_cache cache
      else ret (ERR_ILLEGAL_REFERENCE_TRAP, None).

Definition safe_lookup_variable (environment symbol : Z) : act res :=
  r <- lookup_variable environment symbol ;;
  match r with
  | (ERR_UNASSIGNED_VARIABLE, _) => v <- EXTERNAL_UNASSIGNED_OBJECT ;; ret (PRIM_DONE, Some v)
  | r => ret r
  end.

Definition variable_unassigned_p (environment symbol : Z) : act res :=
  r <- lookup_variable environment symbol ;;
  match r with
  | (ERR_UNASSIGNED_VARIABLE, _) => ret (PRIM_DONE, Some SHARP_T)
  | (PRIM_DONE, _) => ret (PRIM_DONE, Some SHARP_F)
  | (c, _) => ret (c, None)
  end.

Definition variable_unbound_p (environment symbol : Z) : act res :=
  r <- lookup_variable environment symbol ;;
  match r with
  | (ERR_UNBOUND_VARIABLE, _) => ret (PRIM_DONE, Some SHARP_T)
  | (ERR_UNASSIGNED_VARIABLE, _) | (ERR_MACRO_BINDING, _) | (PRIM_DONE, _) => ret (PRIM_DONE, Some SHARP_F)
  | (c, _) => ret (c, None)
  end.

Definition variable_unreferenceable_p (environment symbol : Z) : act res :=
  r <- lookup_variable environment symbol ;;
  match r with
  | (ERR_UNBOUND_VARIABLE, _) | (ERR_UNASSIGNED_VARIABLE, _) | (ERR_MACRO_BINDING, _) =>
      ret (PRIM_DONE, Some SHARP_T)
  | (PRIM_DONE, _) => ret (PRIM_DONE, Some SHARP_F)
  | (c, _) => ret (c, None)
  end.

(** ** Assignment *)

Definition assign_variable_cache (cache value : Z) (force_p : bool) : act res :=
  old_value <- GET_CACHE_VALUE cache ;;
  kind <- get_trap_kind old_value ;;
  let store_value :=
    old <- MAP_FROM_UNASSIGNED old_value ;;
    new <- MAP_TO_UNASSIGNED value ;;
    SET_CACHE_VALUE cache new ;;
    ret (PRIM_DONE, Some old) in
  if (kind =? NON_TRAP_KIND) || (kind =? TRAP_UNASSIGNED) then store_value
  else if kind =? TRAP_UNBOUND then if force_p then store_value else ret (ERR_UNBOUND_VARIABLE, None)
  else if kind =? TRAP_MACRO then if force_p then store_value else ret (ERR_MACRO_BINDING, None)
  else ret (ERR_ILLEGAL_REFERENCE_TRAP, None).

Definition assign_variable_end (cell value : Z) (force_p : bool) : act res :=
  old_value <- fetch cell ;;
  kind <- get_trap_kind old_value ;;
  let store_value :=
    old <- MAP_FROM_UNASSIGNED old_value ;;
    new <- MAP_TO_UNASSIGNED value ;;
    assign cell new ;;
    ret (PRIM_DONE, Some old) in
  if (kind =? NON_TRAP_KIND) || (kind =? TRAP_UNASSIGNED) then store_value
  else if kind =? TRAP_UNBOUND then if force_p then store_value else ret (ERR_UNBOUND_VARIABLE, None)
  else if kind =? TRAP_MACRO then if force_p then store_value else ret (ERR_MACRO_BINDING, None)
  else if kind =? TRAP_COMPILER_CACHED then
    cache <- GET_TRAP_CACHE old_value ;; assign_variable_cache cache value force_p
  else ret (ERR_ILLEGAL_REFERENCE_TRAP, None).

Definition assign_variable (environment symbol value : Z) : act res :=
  if negb (ENVIRONMENT_P environment || SYMBOL_P symbol) then ret (ERR_BAD_FRAME, None)
  else
    cf <- find_binding_cell environment symbol ;;
    if fst cf =? 0 then ret (ERR_UNBOUND_VARIABLE, None)
    else assign_variable_end (fst cf) value false.

(** ** Caches *)

Definition make_cache (value clone references : Z) : act res :=
  GC_CHECK 3 (
    push value ;; push clone ;; push references ;;
    s <- current ;; ret (PRIM_DONE, Some (MAKE_POINTER_OBJECT memory_base CACHE_TYPE (Free s - 3)))).

Definition guarantee_cache (cell : Z) : act res :=
  value <- fetch cell ;;
  kind <- get_trap_kind value ;;
  if kind =? TRAP_COMPILER_CACHED then ret (PRIM_DONE, None)
  else
    GC_CHECK 3 (
      s <- current ;;
      let references := MAKE_POINTER_OBJECT memory_base CACHE_REFERENCES_TYPE (Free s) in
      push EMPTY_LIST ;; push EMPTY_LIST ;; push EMPTY_LIST ;;
      value <- fetch cell ;;
      RETURN_IF_ERROR (make_cache value SHARP_F references) (fun cache =>
        GC_CHECK 2 (
          push (LONG_TO_UNSIGNED_FIXNUM TRAP_COMPILER_CACHED) ;;
          push cache ;;
          s <- current ;;
          assign cell (MAKE_POINTER_OBJECT memory_base TC_REFERENCE_TRAP (Free s - 2)) ;;
          ret (PRIM_DONE, None)))).

(** Without compiled code there is nothing to update. *)
Definition update_assignment_references (cache : Z) : act unit := ret tt.

Definition update_clone (cache : Z) : act unit :=
  assignments <- GET_CACHE_REFERENCES cache CACHE_REFERENCES_ASSIGNMENT ;;
  assignments <- fetch assignments ;;
  operators <- GET_CACHE_REFERENCES cache CACHE_REFERENCES_OPERATOR ;;
  operators <- fetch operators ;;
  if PAIR_P assignments && PAIR_P operators then
    clone <- GET_CACHE_CLONE cache ;;
    if clone =? SHARP_F then
      references <- GET_CACHE_REFERENCES_OBJECT cache ;;
      clone <- DIE_IF_ERROR (make_cache EXPENSIVE_OBJECT cache references) ;;
      SET_CACHE_CLONE cache clone ;;
      update_assignment_references cache
    else ret tt
  else
    clone <- GET_CACHE_CLONE cache ;;
    if negb (clone =? SHARP_F) then SET_CACHE_CLONE cache SHARP_F ;; update_assignment_references cache
    else ret tt.

(** [WALK_REFERENCES] with a body that counts: the list of references at
    [prefs], and the list of such lists at [palist]; references to collected
    blocks are dropped on the way. *)
Fixpoint count_prefs (n : nat) (prefs count : Z) : act Z :=
  match n with
  | O => leave No_fuel
  | S n =>
      list <- fetch prefs ;;
      if PAIR_P list then
        reference <- PAIR_CAR memory_base list ;;
        block <- PAIR_CAR memory_base reference ;;
        if block =? SHARP_F then
          next <- PAIR_CDR memory_base list ;; assign prefs next ;; count_prefs n prefs count
        else count_prefs n (PAIR_CDR_LOC memory_base list) (count + 1)
      else ret count
  end.

Fixpoint count_palist (n : nat) (palist count : Z) : act Z :=
  match n with
  | O => leave No_fuel
  | S n =>
      list <- fetch palist ;;
      if PAIR_P list then
        entry <- PAIR_CAR memory_base list ;;
        count <- count_prefs fuel (PAIR_CDR_LOC memory_base entry) count ;;
        refs <- PAIR_CDR memory_base entry ;;
        if PAIR_P refs then count_palist n (PAIR_CDR_LOC memory_base list) count
        else next <- PAIR_CDR memory_base list ;; assign palist next ;; count_palist n palist count
      else ret count
  end.

Definition count_references (palist : Z) : act Z := count_palist fuel palist 0.

Definition update_cache_refs_space (from_cache environment symbol : Z) : Z := 0.

(** [to_cell] is 0 when there is none. *)
Definition update_cache_references (from_cache to_cell environment symbol : Z) : act res :=
  (if negb (to_cell =? 0) then
     DIE_IF_ERROR (guarantee_cache to_cell) ;;
     value <- fetch to_cell ;;
     to_cache <- GET_TRAP_CACHE value ;;
     update_clone to_cache
   else ret tt) ;;
  update_clone from_cache ;;
  ret (PRIM_DONE, None).

(** ** Definition *)

Definition allocate_frame_extension (length procedure : Z) : act res :=
  let n_words := (ENV_EXTENSION_MIN_SIZE + length)%UL in
  GC_CHECK n_words (
    s <- current ;;
    let (address, s') := fill_vector (n_words - 1) SHARP_F s in
    update (fun _ => s') ;;
    let extension := MAKE_POINTER_OBJECT memory_base TC_VECTOR address in
    parent <- GET_PROCEDURE_ENVIRONMENT procedure ;;
    SET_FRAME_EXTENSION_PARENT_FRAME extension parent ;;
    SET_FRAME_EXTENSION_PROCEDURE extension procedure ;;
    SET_FRAME_EXTENSION_LENGTH extension 0 ;;
    ret (PRIM_DONE, Some extension)).

(** [memcpy], [n] words. *)
Definition memcpy (to from n : Z) : act unit :=
  update (fun s => set_mem s (fun x => if (to <=? x) && (x <? to + n) then mem s (x - to + from) else mem s x)).

Definition guarantee_extension_space (environment : Z) : act res :=
  extended <- EXTENDED_FRAME_P environment ;;
  if extended then
    length <- GET_EXTENDED_FRAME_LENGTH environment ;;
    max <- GET_MAX_EXTENDED_FRAME_LENGTH environment ;;
    if length =? max then
      procedure <- GET_EXTENDED_FRAME_PROCEDURE environment ;;
      RETURN_IF_ERROR (allocate_frame_extension (2 * length)%UL procedure) (fun extension =>
        from <- GET_EXTENDED_FRAME_BINDINGS environment ;;
        memcpy (GET_FRAME_EXTENSION_BINDINGS extension) from length ;;
        SET_FRAME_EXTENSION_LENGTH extension length ;;
        SET_FRAME_EXTENSION environment extension ;;
        ret (PRIM_DONE, None))
    else ret (PRIM_DONE, None)
  else
    procedure <- GET_FRAME_PROCEDURE environment ;;
    RETURN_IF_ERROR (allocate_frame_extension 16 procedure) (fun extension =>
      SET_FRAME_EXTENSION environment extension ;;
      ret (PRIM_DONE, None)).

Definition define_variable (environment symbol value : Z) : act res :=
  if negb (ENVIRONMENT_P environment || SYMBOL_P symbol) then ret (ERR_BAD_FRAME, None)
  else
    cell <- scan_frame environment symbol true ;;
    if negb (cell =? 0) then
      (if GLOBAL_FRAME_P environment then strengthen_symbol memory_base fixed_objects fuel symbol else ret tt) ;;
      r <- assign_variable_end cell value true ;;
      ret (fst r, None)
    else
      RETURN_IF_ERROR (guarantee_extension_space environment) (fun _ =>
        parent <- GET_FRAME_PARENT environment ;;
        cf <- find_binding_cell parent symbol ;;
        let shadowed_cell := fst cf in
        old_cache <-
          (if negb (shadowed_cell =? 0) then
             value <- fetch shadowed_cell ;;
             kind <- get_trap_kind value ;;
             if kind =? TRAP_COMPILER_CACHED then GET_TRAP_CACHE value else ret SHARP_F
           else ret SHARP_F) ;;
        length <- GET_EXTENDED_FRAME_LENGTH environment ;;
        GC_CHECK (2 + (if negb (old_cache =? SHARP_F)
                       then update_cache_refs_space old_cache environment symbol else 0)) (
          new <- MAP_TO_UNASSIGNED value ;;
          pair <- cons memory_base symbol new ;;
          bindings <- GET_EXTENDED_FRAME_BINDINGS environment ;;
          assign (bindings + length) pair ;;
          SET_EXTENDED_FRAME_LENGTH environment (length + 1) ;;
          if negb (old_cache =? SHARP_F)
          then update_cache_references old_cache (PAIR_CDR_LOC memory_base pair) environment symbol
          else ret (PRIM_DONE, None))).

(** ** Sharing one cell between two variables *)

Definition link_variables (target_environment target_symbol source_environment source_symbol : Z) : act res :=
  if negb (ENVIRONMENT_P target_environment && ENVIRONMENT_P source_environment
           && SYMBOL_P target_symbol && SYMBOL_P source_symbol)
  then ret (ERR_BAD_FRAME, None)
  else
    cf <- find_binding_cell source_environment source_symbol ;;
    let source_cell := fst cf in
    if source_cell =? 0 then ret (ERR_UNBOUND_VARIABLE, None)
    else
      source_value <- fetch source_cell ;;
      source_kind <- get_trap_kind source_value ;;
      if source_kind =? TRAP_UNBOUND then ret (ERR_UNBOUND_VARIABLE, None)
      else
        target_cell <- scan_frame target_environment target_symbol true ;;
        if target_cell =? source_cell then ret (PRIM_DONE, None)
        else
          (if negb (target_cell =? 0) && GLOBAL_FRAME_P target_environment
           then strengthen_symbol memory_base fixed_objects fuel target_symbol else ret tt) ;;
          target_value <- (if negb (target_cell =? 0) then fetch target_cell else ret 0) ;;
          target_kind <- (if negb (target_cell =? 0) then get_trap_kind target_value else ret NON_TRAP_KIND) ;;
          if target_kind =? TRAP_COMPILER_CACHED then
            target_cache <- GET_TRAP_CACHE target_value ;;
            let finish :=
              v <- fetch target_cell ;; assign source_cell v ;; ret (PRIM_DONE, None) in
            if source_kind =? TRAP_COMPILER_CACHED then
              source_value <- fetch source_cell ;;
              source_cache <- GET_TRAP_CACHE source_value ;;
              if source_cache =? target_cache then ret (PRIM_DONE, None)
              else
                operators <- GET_CACHE_REFERENCES target_cache CACHE_REFERENCES_OPERATOR ;;
                n <- count_references operators ;;
                GC_CHECK (n * SPACE_PER_UUO_LINK + 2 * SPACE_PER_CACHE)%UL (
                  v <- GET_CACHE_VALUE source_cache ;;
                  SET_CACHE_VALUE target_cache v ;;
                  update_clone source_cache ;;
                  update_clone target_cache ;;
                  source_value <- fetch source_cell ;;
                  SET_TRAP_CACHE source_value target_cache ;;
                  finish)
            else
              v <- fetch source_cell ;;
              SET_CACHE_VALUE target_cache v ;;
              finish
          else
            RETURN_IF_ERROR (guarantee_cache source_cell) (fun _ =>
              v <- fetch source_cell ;;
              define_variable target_environment target_symbol v).

(** ** Removal *)

(** The search of the extension; false when no pair has the name. *)
Fixpoint unbind_scan (n : nat) (start length index frame symbol : Z) : act bool :=
  match n with
  | O => ret false
  | S n =>
      pair <- fetch (start + index) ;;
      name <- PAIR_CAR memory_base pair ;;
      if name =? symbol then
        (if index <? (length - 1)%UL then
           v <- fetch (start + (length - 1)) ;; assign (start + index) v
         else ret tt) ;;
        SET_EXTENDED_FRAME_LENGTH frame (length - 1) ;;
        assign (start + (length - 1)) SHARP_F ;;
        ret true
      else unbind_scan n start length (index + 1) frame symbol
  end.

Definition unbind_variable_1 (cell frame symbol : Z) : act unit :=
  extended <- (if PROCEDURE_FRAME_P frame then EXTENDED_FRAME_P frame else ret false) ;;
  found <-
    (if extended then
       start <- GET_EXTENDED_FRAME_BINDINGS frame ;;
       length <- GET_EXTENDED_FRAME_LENGTH frame ;;
       unbind_scan (Z.to_nat length) start length 0 frame symbol
     else ret false) ;;
  if found then ret tt else assign cell UNBOUND_OBJECT.

Definition unbind_cached_variable (cell frame symbol : Z) : act res :=
  value <- fetch cell ;;
  cache <- GET_TRAP_CACHE value ;;
  parent <- GET_FRAME_PARENT frame ;;
  cf <- find_binding_cell parent symbol ;;
  GC_CHECK (update_cache_refs_space cache frame symbol) (
    unbind_variable_1 cell frame symbol ;;
    update_cache_references cache (fst cf) frame symbol).

Definition unbind_variable (environment symbol : Z) : act res :=
  cf <- find_binding_cell environment symbol ;;
  let (cell, frame) := (cf : Z * Z) in
  (if GLOBAL_FRAME_P frame then weaken_symbol memory_base fixed_objects fuel symbol else ret tt) ;;
  value <- (if cell =? 0 then ret 0 else fetch cell) ;;
  kind <- (if cell =? 0 then ret TRAP_UNBOUND else get_trap_kind value) ;;
  if kind =? TRAP_UNBOUND then ret (PRIM_DONE, Some SHARP_F)
  else if (kind =? NON_TRAP_KIND) || (kind =? TRAP_UNASSIGNED) || (kind =? TRAP_MACRO) then
    unbind_variable_1 cell frame symbol ;; ret (PRIM_DONE, Some SHARP_T)
  else if kind =? TRAP_COMPILER_CACHED then
    cache <- GET_TRAP_CACHE value ;;
    cached_value <- GET_CACHE_VALUE cache ;;
    kind <- get_trap_kind cached_value ;;
    if kind =? TRAP_UNBOUND then ret (PRIM_DONE, Some SHARP_F)
    else if (kind =? NON_TRAP_KIND) || (kind =? TRAP_UNASSIGNED) || (kind =? TRAP_MACRO) then
      if PROCEDURE_FRAME_P frame then
        RETURN_IF_ERROR (unbind_cached_variable cell frame symbol) (fun _ => ret (PRIM_DONE, Some SHARP_T))
      else
        SET_CACHE_VALUE cache UNBOUND_OBJECT ;; ret (PRIM_DONE, Some SHARP_T)
    else ret (ERR_ILLEGAL_REFERENCE_TRAP, None)
  else ret (ERR_ILLEGAL_REFERENCE_TRAP, None).

End Environments.
