(* ===== verification/EnvSpec.v ===== *)
(** * Environments as association lists (for Environment.v)

    What an environment means: its frames, each a list of names and value
    cells, searched in order.  Two cells that hold the same cache are the same
    location.  The first theorem is that the code's search and reference
    compute exactly this. *)

From Stdlib Require Import ZArith List Lia Bool.
From S2P Require Import Prelude.
From S2P Require Import Object.
From S2P Require Import Memory.
From S2P Require Import Heap.
From S2P Require Import Symbol.
From S2P Require Import Environment.
Import ListNotations.

(** ** Association lists *)

Fixpoint assoc (symbol : Z) (l : list (Z * Z)) : option Z :=
  match l with
  | [] => None
  | (name, cell) :: l => if name =? symbol then Some cell else assoc symbol l
  end.

Lemma assoc_app symbol l l' :
  assoc symbol (l ++ l') = match assoc symbol l with Some c => Some c | None => assoc symbol l' end.
Proof. induction l as [| [x c] l IH]; cbn [app assoc]; [reflexivity |]. now destruct (x =? symbol). Qed.

Lemma assoc_In symbol l c : assoc symbol l = Some c -> In (symbol, c) l.
Proof.
  induction l as [| [x c'] l IH]; cbn [assoc In]; [discriminate |].
  destruct (Z.eqb_spec x symbol) as [-> |]; [intros [= ->]; auto | auto].
Qed.

Lemma assoc_None symbol l : assoc symbol l = None <-> ~ In symbol (map fst l).
Proof.
  induction l as [| [x c] l IH]; cbn [assoc map fst In]; [tauto |].
  destruct (Z.eqb_spec x symbol); [split; [discriminate | tauto] | tauto].
Qed.

Lemma assoc_NoDup symbol l c : NoDup (map fst l) -> In (symbol, c) l -> assoc symbol l = Some c.
Proof.
  induction l as [| [x c'] l IH]; cbn [assoc map fst In]; [tauto |].
  rewrite NoDup_cons_iff. intros [N D] [[= -> ->] | H]; [now rewrite Z.eqb_refl |].
  destruct (Z.eqb_spec x symbol) as [-> |]; [| auto]. destruct N. now apply (in_map fst) in H.
Qed.

Section Spec.
Variable base : Z.
Notation addr := (OBJECT_ADDRESS base).

(** ** Frames *)

Section Memory.
Variable m : memory.

Definition trap_kind (v : Z) : Z :=
  if REFERENCE_TRAP_P v then
    if OBJECT_DATUM v <=? TRAP_MAX_IMMEDIATE then OBJECT_DATUM v else OBJECT_DATUM (m (addr v))
  else NON_TRAP_KIND.

Definition frame_procedure (f : Z) : Z :=
  let p := m (f + 1) in if VECTOR_P p then m (addr p + 2) else p.
Definition frame_parent (f : Z) : Z := m (addr (m (f + 1)) + 1).
Definition formals (f : Z) : Z := addr (m (addr (m (addr (frame_procedure f))) + 1)).
Definition n_formals (f : Z) : Z := OBJECT_DATUM (m (formals f)) - 1.

Definition extension_length (f : Z) : Z := UNSIGNED_FIXNUM_TO_LONG (m (addr (m (f + 1)) + 3)).
Definition extension_pairs (f : Z) : list Z :=
  let p := m (f + 1) in
  if VECTOR_P p
  then map (fun i => addr (m (addr p + 4 + Z.of_nat i))) (seq 0 (Z.to_nat (extension_length f)))
  else [].

Definition parameters (f : Z) : list (Z * Z) :=
  map (fun i => (m (formals f + 2 + Z.of_nat i), f + 2 + Z.of_nat i)) (seq 0 (Z.to_nat (n_formals f))).

(** An argument that was unbound is not seen, except by a definition. *)
Definition visible (find_unbound_p : bool) (b : Z * Z) : bool :=
  find_unbound_p || negb (m (snd b) =? UNBOUND_OBJECT).

Definition frame_bindings (f : Z) (find_unbound_p : bool) : list (Z * Z) :=
  map (fun p => (m p, p + 1)) (extension_pairs f) ++ filter (visible find_unbound_p) (parameters f).

(** The frames of an environment, innermost first, and where it ends. *)
Inductive chain : Z -> list Z -> Z -> Prop :=
  | chain_end e : PROCEDURE_FRAME_P e = false -> chain e [] e
  | chain_frame e fs last :
      PROCEDURE_FRAME_P e = true -> 0 <= n_formals (addr e) ->
      chain (frame_parent (addr e)) fs last -> chain e (e :: fs) last.

Definition global_cell (symbol last : Z) : option Z :=
  if GLOBAL_FRAME_P last then Some (addr symbol + 1) else None.

(** The cell of a variable and the frame that has it, or the last one. *)
Fixpoint search (symbol : Z) (fs : list Z) (last : Z) : option Z * Z :=
  match fs with
  | [] => (global_cell symbol last, last)
  | f :: fs =>
      match assoc symbol (frame_bindings (addr f) false) with
      | Some c => (Some c, f)
      | None => search symbol fs last
      end
  end.

Definition variable_cell (symbol : Z) (fs : list Z) (last : Z) : option Z := fst (search symbol fs last).

(** Where the value of a cell is. *)
Definition location (cell : Z) : Z :=
  if trap_kind (m cell) =? TRAP_COMPILER_CACHED then addr (m (addr (m cell) + 1)) else cell.

(** What a reference gives for a value. *)
Definition value_result (v : Z) : res :=
  let k := trap_kind v in
  if k =? NON_TRAP_KIND then (PRIM_DONE, Some v)
  else if k =? TRAP_UNASSIGNED then (ERR_UNASSIGNED_VARIABLE, None)
  else if k =? TRAP_UNBOUND then (ERR_UNBOUND_VARIABLE, None)
  else if k =? TRAP_MACRO then (ERR_MACRO_BINDING, Some v)
  else (ERR_ILLEGAL_REFERENCE_TRAP, None).

Definition cell_result (c : option Z) : res :=
  match c with Some c => value_result (m (location c)) | None => (ERR_UNBOUND_VARIABLE, None) end.

(** What a reference to [symbol] gives in an environment. *)
Definition meaning (symbol : Z) (fs : list Z) (last : Z) : res := cell_result (variable_cell symbol fs last).

End Memory.

(** ** Running the code *)

Lemma bind_value A B (e : act A) (k : A -> act B) s a s' : e s = Value a s' -> bind e k s = k a s'.
Proof. intros E. unfold bind. now rewrite E. Qed.
Lemma bind_ret A B (a : A) (k : A -> act B) s : bind (ret a) k s = k a s.
Proof. reflexivity. Qed.
Lemma bind_current B (k : machine -> act B) s : bind current k s = k s s.
Proof. reflexivity. Qed.
Lemma bind_fetch B a (k : Z -> act B) s : bind (fetch a) k s = k (mem s a) s.
Proof. reflexivity. Qed.
Lemma bind_assign B a v (k : unit -> act B) s :
  bind (assign a v) k s = k tt (set_mem s (store (mem s) a v)).
Proof. reflexivity. Qed.
Lemma bind_update B f (k : unit -> act B) s : bind (update f) k s = k tt (f s).
Proof. reflexivity. Qed.
Lemma bind_assoc A B C (e : act A) (f : A -> act B) (k : B -> act C) s :
  bind (bind e f) k s = bind e (fun a => bind (f a) k) s.
Proof. unfold bind. now destruct (e s). Qed.
Lemma bind_reference B o i (k : Z -> act B) s :
  bind (MEMORY_REF base o i) k s = k (mem s (addr o + i)) s.
Proof. reflexivity. Qed.
Lemma reference_run o i s : MEMORY_REF base o i s = Value (mem s (addr o + i)) s.
Proof. reflexivity. Qed.
Lemma ret_value A (a : A) s : ret a s = Value a s.
Proof. reflexivity. Qed.
Lemma update_run f s : update f s = Value tt (f s).
Proof. reflexivity. Qed.

End Spec.

Create HintDb act discriminated.
#[export] Hint Rewrite bind_ret bind_current bind_fetch bind_assign bind_update bind_reference
  bind_assoc : act.

(** Runs an action: unfolds the accessors and computes each step. *)
Ltac act_unfold :=
  unfold GET_FRAME_PARENT, GET_EXTENDED_FRAME_PROCEDURE, GET_EXTENDED_FRAME_LENGTH,
    GET_MAX_EXTENDED_FRAME_LENGTH, GET_EXTENDED_FRAME_BINDINGS, EXTENDED_FRAME_P, SET_EXTENDED_FRAME_LENGTH,
    SET_FRAME_EXTENSION_LENGTH, GET_FRAME_EXTENSION_BINDINGS, GET_FRAME_PROCEDURE, SET_FRAME_EXTENSION,
    SET_FRAME_EXTENSION_PROCEDURE, SET_FRAME_EXTENSION_PARENT_FRAME,
    GET_PROCEDURE_LAMBDA, GET_PROCEDURE_ENVIRONMENT, GET_LAMBDA_PARAMETERS, GET_LAMBDA_N_PARAMETERS,
    GET_LAMBDA_FORMALS, GET_TRAP_TAG, GET_TRAP_CACHE, SET_TRAP_CACHE, GET_CACHE_VALUE, SET_CACHE_VALUE,
    GET_CACHE_CLONE, SET_CACHE_CLONE, GET_CACHE_REFERENCES, GET_CACHE_REFERENCES_OBJECT,
    EXTERNAL_UNASSIGNED_OBJECT, PAIR_CAR, PAIR_CDR, PAIR_CAR_LOC, PAIR_CDR_LOC, VECTOR_LENGTH, VECTOR_REF,
    VECTOR_LOC, GET_FRAME_ARG_CELL, SYMBOL_GLOBAL_VALUE_CELL, MEMORY_SET, MEMORY_LOC in *.
Ltac act_steps := repeat (autorewrite with act; rewrite ?Z.add_0_r; cbn beta).

(** ** Objects made by the code *)

Lemma pointer_parts base type p :
  0 <= type < 64 -> base <= p < base + 2 ^ 58 ->
  OBJECT_TYPE (MAKE_POINTER_OBJECT base type p) = type
  /\ OBJECT_ADDRESS base (MAKE_POINTER_OBJECT base type p) = p.
Proof.
  intros Ht Hp. unfold MAKE_POINTER_OBJECT, OBJECT_ADDRESS, DATUM_TO_ADDRESS, ADDRESS_TO_DATUM.
  rewrite ulong_small by lia.
  destruct (MAKE_OBJECT_parts type (p - base)) as [-> ->]; lia.
Qed.

Lemma address_datum base o : OBJECT_ADDRESS base o = OBJECT_DATUM o + base.
Proof. reflexivity. Qed.

Lemma unsigned_fixnum n : 0 <= n < 2 ^ 57 -> UNSIGNED_FIXNUM_TO_LONG (LONG_TO_UNSIGNED_FIXNUM n) = n.
Proof.
  intros H. unfold UNSIGNED_FIXNUM_TO_LONG, LONG_TO_UNSIGNED_FIXNUM. rewrite ulong_small by lia.
  destruct (MAKE_OBJECT_parts TC_FIXNUM n) as [_ ->]; [lia | lia |]. apply slong_small. lia.
Qed.

Section Search.
Variable base : Z.
Variable fixed_objects : Z.
Hypothesis base_positive : 0 < base.
Notation addr := (OBJECT_ADDRESS base).

Lemma datum_range o : 0 <= OBJECT_DATUM o < 2 ^ 58.
Proof. rewrite OBJECT_DATUM_mod. apply Z.mod_pos_bound. lia. Qed.

Lemma addr_positive o : 0 < addr o.
Proof. unfold OBJECT_ADDRESS, DATUM_TO_ADDRESS. pose proof (datum_range o). lia. Qed.

Lemma get_trap_kind_run v s : get_trap_kind base v s = Value (trap_kind base (mem s) v) s.
Proof.
  unfold get_trap_kind, trap_kind. destruct (REFERENCE_TRAP_P v); [| reflexivity].
  destruct (OBJECT_DATUM v <=? 9); [reflexivity |]. act_unfold. act_steps. reflexivity.
Qed.

Lemma bind_trap_kind B v (k : Z -> act B) s :
  bind (get_trap_kind base v) k s = k (trap_kind base (mem s) v) s.
Proof. apply bind_value, get_trap_kind_run. Qed.

Definition or_zero (c : option Z) : Z := match c with Some c => c | None => 0 end.

(** Every cell in the list has a positive address. *)
Lemma scan_parameters_run f symbol unbound start s n i :
  scan_parameters base n start (Z.of_nat i) f symbol unbound s
  = Value (or_zero (assoc symbol (filter (visible (mem s) unbound)
             (map (fun i => (mem s (start + Z.of_nat i), addr f + 2 + Z.of_nat i)) (seq i n))))) s.
Proof.
  revert i. induction n as [|n IH]; intros i; [reflexivity |].
  cbn [scan_parameters seq map]. act_unfold. act_steps. cbn [filter].
  replace (Z.of_nat i + 1) with (Z.of_nat (S i)) by lia.
  replace (addr f + (2 + Z.of_nat i)) with (addr f + 2 + Z.of_nat i) by lia.
  unfold visible at 1. cbn [snd].
  destruct (Z.eqb_spec (mem s (start + Z.of_nat i)) symbol) as [E | N].
  - act_steps. destruct (unbound || negb (mem s (addr f + 2 + Z.of_nat i) =? UNBOUND_OBJECT)).
    + cbn [assoc]. rewrite E, Z.eqb_refl. reflexivity.
    + apply IH.
  - rewrite IH. destruct (unbound || _); [| reflexivity]. cbn [assoc].
    destruct (Z.eqb_spec (mem s (start + Z.of_nat i)) symbol); [contradiction | reflexivity].
Qed.

Lemma scan_extension_run symbol scan s n i :
  scan_extension base n (scan + Z.of_nat i) symbol s
  = Value (or_zero (assoc symbol (map (fun p => (mem s p, p + 1))
             (map (fun i => addr (mem s (scan + Z.of_nat i))) (seq i n))))) s.
Proof.
  revert i. induction n as [|n IH]; intros i; [reflexivity |].
  cbn [scan_extension seq map assoc]. act_unfold. act_steps.
  destruct (mem s (addr (mem s (scan + Z.of_nat i))) =? symbol); [reflexivity |].
  replace (scan + Z.of_nat i + 1) with (scan + Z.of_nat (S i)) by lia. apply IH.
Qed.

Lemma scan_procedure_run f symbol unbound s :
  0 <= n_formals base (mem s) (addr f) ->
  scan_procedure_bindings base (frame_procedure base (mem s) (addr f)) f symbol unbound s
  = Value (or_zero (assoc symbol (filter (visible (mem s) unbound) (parameters base (mem s) (addr f))))) s.
Proof.
  intros N. unfold scan_procedure_bindings. act_unfold. act_steps.
  change (addr (mem s (addr (mem s (addr (frame_procedure base (mem s) (addr f)))) + 1)))
    with (formals base (mem s) (addr f)).
  unfold n_formals in N. pose proof (datum_range (mem s (formals base (mem s) (addr f)))).
  rewrite ulong_small by lia. apply (scan_parameters_run f symbol unbound _ s _ 0).
Qed.

Lemma or_zero_app symbol l l' :
  (forall x c, In (x, c) l -> c <> 0) ->
  (if negb (or_zero (assoc symbol l) =? 0) then or_zero (assoc symbol l) else or_zero (assoc symbol l'))
  = or_zero (assoc symbol (l ++ l')).
Proof.
  intros H. rewrite assoc_app. destruct (assoc symbol l) as [c|] eqn:E; [| reflexivity].
  cbn [or_zero]. apply assoc_In, H in E. destruct (Z.eqb_spec c 0); [contradiction | reflexivity].
Qed.


Lemma pairs_positive m f p : In p (extension_pairs base m f) -> 0 < p.
Proof.
  unfold extension_pairs. destruct (VECTOR_P (m (f + 1))); [| intros []].
  rewrite in_map_iff. intros (i & <- & _). apply addr_positive.
Qed.

Lemma frame_cells_positive m f unbound x c : 0 < f -> In (x, c) (frame_bindings base m f unbound) -> 0 < c.
Proof.
  unfold frame_bindings. intros Hf [H | H]%in_app_or.
  - apply in_map_iff in H as (p & [= <- <-] & H). apply pairs_positive in H. lia.
  - apply filter_In in H as [H _]. apply in_map_iff in H as (i & [= <- <-] & _). lia.
Qed.

(** [scan_frame] is the search of the frame's list. *)
Lemma scan_frame_run e symbol unbound s :
  PROCEDURE_FRAME_P e = true -> 0 <= n_formals base (mem s) (addr e) ->
  scan_frame base e symbol unbound s
  = Value (or_zero (assoc symbol (frame_bindings base (mem s) (addr e) unbound))) s.
Proof.
  intros P N. unfold scan_frame. rewrite P. pose proof (scan_procedure_run e symbol unbound s N) as R.
  unfold frame_bindings, extension_pairs, frame_procedure in *. act_unfold. act_steps.
  destruct (VECTOR_P (mem s (addr e + 1))) eqn:V; act_steps; [| exact R].
  set (p := addr (mem s (addr e + 1))) in *.
  pose proof (scan_extension_run symbol (p + 4) s (Z.to_nat (extension_length base (mem s) (addr e))) 0) as X.
  cbn [Z.of_nat] in X. rewrite Z.add_0_r in X. rewrite (bind_value _ _ _ _ _ _ _ X).
  rewrite <- or_zero_app; [destruct (negb _); [reflexivity |]; act_steps; exact R |].
  intros x c H. apply in_map_iff in H as (q & [= <- <-] & H). apply in_map_iff in H as (i & <- & _).
  pose proof (addr_positive (mem s (p + 4 + Z.of_nat i))). lia.
Qed.

Lemma scan_end_run e symbol unbound s :
  PROCEDURE_FRAME_P e = false -> scan_frame base e symbol unbound s = Value (or_zero (global_cell base symbol e)) s.
Proof.
  intros P. unfold scan_frame, global_cell. rewrite P. now destruct (GLOBAL_FRAME_P e).
Qed.

Lemma search_positive m symbol fs last c : fst (search base m symbol fs last) = Some c -> 0 < c.
Proof.
  induction fs as [|f fs IH]; cbn [search].
  - unfold global_cell. cbn [fst]. destruct (GLOBAL_FRAME_P last); [intros [= <-] | discriminate].
    pose proof (addr_positive symbol). lia.
  - destruct (assoc symbol (frame_bindings base m (addr f) false)) eqn:E; [| exact IH].
    cbn [fst]. intros [= <-]. apply assoc_In in E. exact (frame_cells_positive _ _ _ _ _ (addr_positive f) E).
Qed.

Lemma find_binding_cell_loop_run s symbol e fs last :
  chain base (mem s) e fs last -> forall n, (length fs < n)%nat ->
  find_binding_cell_loop base n e symbol s
  = Value (or_zero (fst (search base (mem s) symbol fs last)), snd (search base (mem s) symbol fs last)) s.
Proof.
  induction 1 as [e P | e fs last P N C IH]; intros [|n] L; cbn [length] in L; try lia;
    cbn [find_binding_cell_loop search].
  - rewrite (bind_value _ _ _ _ _ _ _ (scan_end_run e symbol false s P)). rewrite P.
    rewrite orb_true_r. reflexivity.
  - rewrite (bind_value _ _ _ _ _ _ _ (scan_frame_run e symbol false s P N)). rewrite P.
    destruct (assoc symbol (frame_bindings base (mem s) (addr e) false)) as [c|] eqn:E; cbn [or_zero negb].
    + apply assoc_In, frame_cells_positive in E; [| apply addr_positive].
      destruct (Z.eqb_spec c 0); [lia |]. reflexivity.
    + cbn [Z.eqb negb orb]. act_unfold. act_steps. apply IH. lia.
Qed.

Variable fuel : nat.

(** An environment and the frames of it. *)
Record environment (m : memory) (e : Z) (fs : list Z) (last : Z) : Prop := {
  en_chain : chain base m e fs last;
  en_fuel : (length fs < fuel)%nat
}.

Lemma find_binding_cell_run s symbol e fs last :
  environment (mem s) e fs last ->
  find_binding_cell base fuel e symbol s
  = Value (or_zero (fst (search base (mem s) symbol fs last)), snd (search base (mem s) symbol fs last)) s.
Proof. intros [C F]. now apply find_binding_cell_loop_run. Qed.

Lemma lookup_variable_cache_run s c :
  trap_kind base (mem s) (mem s (addr c)) <> TRAP_COMPILER_CACHED ->
  lookup_variable_cache base c s = Value (value_result base (mem s) (mem s (addr c))) s.
Proof.
  intros N. unfold lookup_variable_cache, value_result. act_unfold. act_steps.
  rewrite bind_trap_kind. repeat (destruct (_ =? _); [reflexivity |]). reflexivity.
Qed.

(** A cache does not hold the trap of a cache. *)
Definition flat (m : memory) (c : Z) : Prop :=
  trap_kind base m (m (location base m c)) <> TRAP_COMPILER_CACHED.

Lemma lookup_variable_run s e symbol fs last :
  ENVIRONMENT_P e = true -> SYMBOL_P symbol = true -> environment (mem s) e fs last ->
  (forall c, variable_cell base (mem s) symbol fs last = Some c -> flat (mem s) c) ->
  lookup_variable base fuel e symbol s = Value (meaning base (mem s) symbol fs last) s.
Proof.
  intros HE HS HC HF. unfold lookup_variable. rewrite HE, HS. cbn [negb andb].
  rewrite (bind_value _ _ _ _ _ _ _ (find_binding_cell_run s symbol e fs last HC)). cbn [fst].
  unfold meaning, variable_cell in *.
  destruct (fst (search base (mem s) symbol fs last)) as [c|] eqn:E; cbn [or_zero cell_result]; [| reflexivity].
  apply search_positive in E. destruct (Z.eqb_spec c 0); [lia |]. act_steps. rewrite bind_trap_kind.
  specialize (HF c eq_refl). unfold flat, location in *.
  destruct (Z.eqb_spec (trap_kind base (mem s) (mem s c)) 14) as [K | K].
  - rewrite K. cbn [Z.eqb Pos.eqb]. act_unfold. act_steps. apply lookup_variable_cache_run. exact HF.
  - unfold value_result. repeat (destruct (_ =? _); [reflexivity |]). reflexivity.
Qed.

End Search.
