(* ===== verification/EnvInv.v ===== *)
(** * Well-formed heaps of environments (for Environment.v)

    Every object that an environment reaches is a block of known kind.  The
    words of blocks are of two sorts: those that hold the value of a variable,
    and the structure.  Code that writes only values keeps the structure, and
    with it the frames and the names of every environment. *)

From Stdlib Require Import ZArith List Lia Bool.
From S2P Require Import Prelude.
From S2P Require Import Object.
From S2P Require Import Memory.
From S2P Require Import Heap.
From S2P Require Import Symbol.
From S2P Require Import Environment.
From S2P Require Import EnvSpec.
Import ListNotations.

#[local] Opaque MAKE_OBJECT OBJECT_DATUM OBJECT_TYPE OBJECT_ADDRESS.

Inductive kind :=
  | Symbol_block | String_block (n : Z) | Link_block | Vector_block (n : Z)
  | Frame_block (n : Z) | Procedure_block | Lambda_block | Formals_block (n : Z)
  | Extension_block (n : Z) | Binding_block | Trap_block | Cache_block | References_block.

Definition size (k : kind) : Z :=
  match k with
  | Symbol_block | Link_block | Procedure_block | Lambda_block | Binding_block | Trap_block => 2
  | Cache_block | References_block => 3
  | Vector_block n => n + 1
  | String_block n | Frame_block n | Formals_block n => n + 2
  | Extension_block n => n + 4
  end.

Section Heap.
Variable base : Z.
Notation addr := (OBJECT_ADDRESS base).

(** The blocks, and the free pointer above them. *)
Record apart (blk : Z -> option kind) (free : Z) : Prop := {
  ap_range : forall a k, blk a = Some k -> base <= a /\ 0 < size k /\ a + size k <= free;
  ap_apart : forall a b k k', blk a = Some k -> blk b = Some k' -> a <> b ->
    a + size k <= b \/ b + size k' <= a
}.

Lemma word_inj blk free a b k k' i j :
  apart blk free -> blk a = Some k -> blk b = Some k' ->
  0 <= i < size k -> 0 <= j < size k' -> a + i = b + j -> a = b /\ i = j.
Proof.
  intros [_ A] Ha Hb Hi Hj E. destruct (Z.eq_dec a b) as [-> | N]; [lia |].
  destruct (A a b k k' Ha Hb N); lia.
Qed.

Section Blocks.
Variable blk : Z -> option kind.

(** Words that hold values. *)
Inductive value_word : Z -> Prop :=
  | argument_word f n i : blk f = Some (Frame_block n) -> 0 <= i < n -> value_word (f + 2 + i)
  | binding_word b : blk b = Some Binding_block -> value_word (b + 1)
  | symbol_word y : blk y = Some Symbol_block -> value_word (y + 1)
  | cache_word c : blk c = Some Cache_block -> value_word c.

(** The words that hold arguments: an argument that is unbound is not seen. *)
Definition argument (x : Z) : Prop := exists f n i, blk f = Some (Frame_block n) /\ 0 <= i < n /\ x = f + 2 + i.

(** A reference trap that is a pointer points to a trap. *)
Definition value_ok (v : Z) : Prop :=
  REFERENCE_TRAP_P v = true -> TRAP_MAX_IMMEDIATE < OBJECT_DATUM v -> blk (addr v) = Some Trap_block.

Definition env_ok (e : Z) : Prop :=
  PROCEDURE_FRAME_P e = true -> exists n, blk (addr e) = Some (Frame_block n).

Definition symbol_ok (symbol : Z) : Prop := blk (addr symbol) = Some Symbol_block.

Section Memory.
Variable m : memory.
Notation kind_of := (trap_kind base m).

Record wf_frame (f n : Z) : Prop := {
  wf_count : 0 <= n;
  wf_function : if VECTOR_P (m (f + 1)) then exists k, blk (addr (m (f + 1))) = Some (Extension_block k)
                else blk (addr (m (f + 1))) = Some Procedure_block;
  wf_n_formals : n_formals base m f = n;
  wf_arguments : forall i, 0 <= i < n -> value_ok (m (f + 2 + i));
  wf_names : NoDup (map fst (frame_bindings base m f true));
  wf_pairs : NoDup (extension_pairs base m f)
}.

Record wf_extension (x k : Z) : Prop := {
  wx_size : OBJECT_DATUM (m x) = k + 3 /\ 0 < k;
  wx_length : 0 <= UNSIGNED_FIXNUM_TO_LONG (m (x + 3)) <= k;
  wx_procedure : VECTOR_P (m (x + 2)) = false /\ blk (addr (m (x + 2))) = Some Procedure_block;
  wx_parent : m (x + 1) = m (addr (m (x + 2)) + 1);
  wx_bindings : forall i, 0 <= i < UNSIGNED_FIXNUM_TO_LONG (m (x + 3)) ->
    blk (addr (m (x + 4 + i))) = Some Binding_block
}.

Definition wf_block (a : Z) (k : kind) : Prop :=
  match k with
  | Frame_block n => wf_frame a n
  | Procedure_block => blk (addr (m a)) = Some Lambda_block /\ env_ok (m (a + 1))
  | Lambda_block => exists n, blk (addr (m (a + 1))) = Some (Formals_block n)
  | Formals_block n => 0 <= n /\ OBJECT_DATUM (m a) = n + 1
  | Extension_block k => wf_extension a k
  | Symbol_block | Binding_block => value_ok (m (a + 1))
  | Trap_block => OBJECT_DATUM (m a) = TRAP_COMPILER_CACHED -> blk (addr (m (a + 1))) = Some Cache_block
  | Cache_block => value_ok (m a) /\ kind_of (m a) <> TRAP_COMPILER_CACHED
                   /\ m (a + 1) = SHARP_F /\ blk (addr (m (a + 2))) = Some References_block
  | References_block => m a = EMPTY_LIST /\ m (a + 1) = EMPTY_LIST /\ m (a + 2) = EMPTY_LIST
  | String_block _ | Link_block | Vector_block _ => True
  end.

(** No two frames share an extension or a pair of one. *)
Record wf : Prop := {
  wf_blocks : forall a k, blk a = Some k -> wf_block a k;
  wf_extensions : forall f g n n', blk f = Some (Frame_block n) -> blk g = Some (Frame_block n') ->
    VECTOR_P (m (f + 1)) = true -> VECTOR_P (m (g + 1)) = true ->
    addr (m (f + 1)) = addr (m (g + 1)) -> f = g;
  wf_owners : forall f g n n' p, blk f = Some (Frame_block n) -> blk g = Some (Frame_block n') ->
    In p (extension_pairs base m f) -> In p (extension_pairs base m g) -> f = g
}.

End Memory.

(** ** Structure that does not change, except in block [z] *)

(** The words of the symbol table do not matter to environments. *)
Definition structural (k : kind) : bool :=
  match k with Link_block | Vector_block _ | String_block _ => false | _ => true end.

Definition same_but (z : Z) (m m' : memory) : Prop :=
  forall a k i, blk a = Some k -> structural k = true -> a <> z -> 0 <= i < size k -> ~ value_word (a + i) -> m' (a + i) = m (a + i).

Definition same_structure (m m' : memory) : Prop :=
  forall a k i, blk a = Some k -> structural k = true -> 0 <= i < size k -> ~ value_word (a + i) -> m' (a + i) = m (a + i).

(** [z] is the frame [o] or its extension, or no block. *)
Definition part_of (m : memory) (z o : Z) : Prop :=
  forall k, blk z = Some k ->
  match k with
  | Frame_block _ => z = o
  | Extension_block _ => exists n, blk o = Some (Frame_block n)
                                   /\ VECTOR_P (m (o + 1)) = true /\ addr (m (o + 1)) = z
  | _ => False
  end.

End Blocks.

Lemma argument_value blk x : argument blk x -> value_word blk x.
Proof. intros (f & n & i & F & Hi & ->). exact (argument_word blk f n i F Hi). Qed.

Section Facts.
Context {blk : Z -> option kind} {free : Z}.
Hypothesis AP : apart blk free.
Notation value_word := (value_word blk).

Ltac inj := eapply word_inj; [exact AP | eassumption .. | | |]; cbn [size]; try lia.

(** What words can be values. *)
Lemma not_value a k i :
  blk a = Some k -> 0 <= i < size k ->
  match k with
  | Symbol_block | Binding_block => i <> 1
  | Frame_block n => i < 2
  | Cache_block => i <> 0
  | _ => True
  end -> ~ value_word (a + i).
Proof.
  intros Hk Hi N H.
  remember (a + i) as x eqn:E.
  destruct H as [f n j Hf Hj | b Hb | y Hy | c Hc].
  - destruct (word_inj blk free a f k (Frame_block n) i (2 + j) AP Hk Hf Hi ltac:(cbn [size]; lia) ltac:(lia)) as [Ea Ei].
    rewrite <- Ea, Hk in Hf. injection Hf as ->. lia.
  - destruct (word_inj blk free a b k Binding_block i 1 AP Hk Hb Hi ltac:(cbn [size]; lia) ltac:(lia)) as [Ea Ei].
    rewrite <- Ea, Hk in Hb. injection Hb as ->. lia.
  - destruct (word_inj blk free a y k Symbol_block i 1 AP Hk Hy Hi ltac:(cbn [size]; lia) ltac:(lia)) as [Ea Ei].
    rewrite <- Ea, Hk in Hy. injection Hy as ->. lia.
  - destruct (word_inj blk free a c k Cache_block i 0 AP Hk Hc Hi ltac:(cbn [size]; lia) ltac:(lia)) as [Ea Ei].
    rewrite <- Ea, Hk in Hc. injection Hc as ->. lia.
Qed.

Section Structure.
Context {m m' : memory} {z o : Z}.
Hypothesis W : wf blk m.
Hypothesis SB : same_but blk z m m'.
Hypothesis PO : part_of blk m z o.

(** A word of the structure, given by its block and offset. *)
Lemma structure_word a k i :
  blk a = Some k -> a <> z -> 0 <= i < size k ->
  match k with
  | Symbol_block | Binding_block => i <> 1
  | Frame_block n => i < 2
  | Cache_block => i <> 0
  | Link_block | Vector_block _ | String_block _ => False
  | _ => True
  end -> m' (a + i) = m (a + i).
Proof.
  intros Hk Nz Hi N. assert (S : structural k = true) by (destruct k; reflexivity || contradiction).
  apply (SB a k i Hk S Nz Hi), (not_value a k i Hk Hi). destruct k; exact N || exact I.
Qed.

Lemma structure_word0 a k :
  blk a = Some k -> a <> z ->
  match k with Cache_block | Link_block | Vector_block _ | String_block _ => False | _ => True end -> m' a = m a.
Proof.
  intros Hk Nz N. pose proof (structure_word a k 0 Hk Nz) as H. rewrite Z.add_0_r in H.
  pose proof (ap_range _ _ AP a k Hk). apply H; [lia |]. destruct k; lia || exact I || contradiction.
Qed.

(** Other blocks than frames and extensions. *)
Lemma other_block a k : blk a = Some k ->
  match k with Frame_block _ | Extension_block _ => False | _ => True end -> a <> z.
Proof. intros Hk N ->. specialize (PO k Hk). destruct k; contradiction. Qed.

Lemma other_frame g n : blk g = Some (Frame_block n) -> g <> o -> g <> z.
Proof. intros G N ->. specialize (PO _ G). contradiction. Qed.

Lemma other_extension g n k : blk g = Some (Frame_block n) -> g <> o -> VECTOR_P (m (g + 1)) = true ->
  blk (addr (m (g + 1))) = Some (Extension_block k) -> addr (m (g + 1)) <> z.
Proof.
  intros G N V X E. rewrite E in X. destruct (PO _ X) as (n' & O & V' & E').
  apply N. apply (wf_extensions _ _ W g o n n' G O V V'). congruence.
Qed.

Lemma trap_kind_same v : value_ok blk v -> trap_kind base m' v = trap_kind base m v.
Proof.
  unfold value_ok, trap_kind. destruct (REFERENCE_TRAP_P v); [| reflexivity]. intros H.
  destruct (Z.leb_spec (OBJECT_DATUM v) 9); [reflexivity |].
  f_equal. assert (T : blk (addr v) = Some Trap_block) by (apply H; [reflexivity | lia]).
  exact (structure_word0 _ _ T (other_block _ _ T I) I).
Qed.

Section Frame.
Context {f n : Z}.
Hypothesis F : blk f = Some (Frame_block n).

Lemma frame_wf : wf_frame blk m f n.
Proof. exact (wf_blocks _ _ W f _ F). Qed.

Lemma extension_block : VECTOR_P (m (f + 1)) = true ->
  exists k, blk (addr (m (f + 1))) = Some (Extension_block k) /\ wf_extension blk m (addr (m (f + 1))) k.
Proof.
  intros V. pose proof (wf_function _ _ _ _ frame_wf) as H. rewrite V in H. destruct H as (k & H).
  exists k. split; [exact H | exact (wf_blocks _ _ W _ _ H)].
Qed.

Lemma procedure_block : blk (addr (frame_procedure base m f)) = Some Procedure_block.
Proof.
  unfold frame_procedure. destruct (VECTOR_P (m (f + 1))) eqn:V.
  - destruct (extension_block V) as (k & _ & X). apply X.
  - pose proof (wf_function _ _ _ _ frame_wf) as H. now rewrite V in H.
Qed.

Lemma formals_block : blk (formals base m f) = Some (Formals_block n) /\ 0 <= n.
Proof.
  destruct (wf_blocks _ _ W _ _ procedure_block) as [L _].
  destruct (wf_blocks _ _ W _ _ L) as (k & H). change (blk (formals base m f) = Some (Formals_block k)) in H.
  pose proof (wf_n_formals _ _ _ _ frame_wf) as N.
  pose proof (wf_blocks _ _ W _ _ H) as [K D]. unfold n_formals in N. replace k with n in * by lia. auto.
Qed.

Lemma pair_block p : In p (extension_pairs base m f) -> blk p = Some Binding_block.
Proof.
  unfold extension_pairs, extension_length. destruct (VECTOR_P (m (f + 1))) eqn:V; [| intros []].
  destruct (extension_block V) as (k & X & WX). destruct (wx_length _ _ _ _ WX).
  rewrite in_map_iff. intros (i & <- & Hi). apply in_seq in Hi. apply (wx_bindings _ _ _ _ WX). lia.
Qed.

(** The argument names do not depend on what holds the procedure. *)
Lemma formals_of_procedure :
  frame_procedure base m' f = frame_procedure base m f -> formals base m' f = formals base m f.
Proof.
  intros E. unfold formals. rewrite E.
  pose proof procedure_block as P. destruct (wf_blocks _ _ W _ _ P) as [L _].
  rewrite (structure_word0 _ _ P (other_block _ _ P I) I). f_equal.
  apply (structure_word _ _ 1 L (other_block _ _ L I)); cbn [size]; [lia | exact I].
Qed.

Lemma n_formals_of_procedure :
  frame_procedure base m' f = frame_procedure base m f -> n_formals base m' f = n_formals base m f.
Proof.
  intros E. unfold n_formals. rewrite (formals_of_procedure E). do 2 f_equal.
  destruct formals_block as [H _]. exact (structure_word0 _ _ H (other_block _ _ H I) I).
Qed.

Lemma parameters_of_procedure :
  frame_procedure base m' f = frame_procedure base m f -> parameters base m' f = parameters base m f.
Proof.
  intros E. unfold parameters. rewrite (n_formals_of_procedure E), (formals_of_procedure E).
  apply map_ext_in. intros i Hi. f_equal.
  apply in_seq in Hi. destruct formals_block as [H N]. pose proof (wf_n_formals _ _ _ _ frame_wf) as E'.
  rewrite <- Z.add_assoc. apply (structure_word _ _ _ H (other_block _ _ H I)); cbn [size]; [lia | exact I].
Qed.

Lemma pair_names_of_pairs :
  extension_pairs base m' f = extension_pairs base m f ->
  map (fun p => (m' p, p + 1)) (extension_pairs base m' f) = map (fun p => (m p, p + 1)) (extension_pairs base m f).
Proof.
  intros E. rewrite E. apply map_ext_in. intros p Hp. f_equal. pose proof (pair_block p Hp) as B.
  exact (structure_word0 _ _ B (other_block _ _ B I) I).
Qed.

Section Other.
Hypothesis NO : f <> o.

Lemma function_same : m' (f + 1) = m (f + 1).
Proof.
  apply (structure_word f _ 1 F (other_frame _ _ F NO)); cbn [size]; pose proof (wf_count _ _ _ _ frame_wf); lia.
Qed.

Lemma frame_procedure_same : frame_procedure base m' f = frame_procedure base m f.
Proof.
  unfold frame_procedure. rewrite function_same. destruct (VECTOR_P (m (f + 1))) eqn:V; [| reflexivity].
  destruct (extension_block V) as (k & X & WX).
  apply (structure_word _ _ 2 X (other_extension _ _ _ F NO V X)); cbn [size]; [| exact I].
  destruct (wx_size _ _ _ _ WX). lia.
Qed.

Lemma frame_parent_same : frame_parent base m' f = frame_parent base m f.
Proof.
  unfold frame_parent. rewrite function_same. destruct (VECTOR_P (m (f + 1))) eqn:V.
  - destruct (extension_block V) as (k & X & WX).
    apply (structure_word _ _ 1 X (other_extension _ _ _ F NO V X)); cbn [size]; [| exact I].
    destruct (wx_size _ _ _ _ WX). lia.
  - pose proof (wf_function _ _ _ _ frame_wf) as H. rewrite V in H.
    apply (structure_word _ _ 1 H (other_block _ _ H I)); cbn [size]; [lia | exact I].
Qed.

Lemma extension_pairs_same : extension_pairs base m' f = extension_pairs base m f.
Proof.
  unfold extension_pairs, extension_length. rewrite function_same.
  destruct (VECTOR_P (m (f + 1))) eqn:V; [| reflexivity].
  destruct (extension_block V) as (k & X & WX). destruct (wx_size _ _ _ _ WX), (wx_length _ _ _ _ WX).
  pose proof (other_extension _ _ _ F NO V X) as NX.
  rewrite (structure_word _ _ 3 X NX); cbn [size]; [| lia | exact I].
  apply map_ext_in. intros i Hi. apply in_seq in Hi. f_equal.
  rewrite <- Z.add_assoc. apply (structure_word _ _ _ X NX); cbn [size]; [lia | exact I].
Qed.

Lemma all_bindings_same : frame_bindings base m' f true = frame_bindings base m f true.
Proof.
  unfold frame_bindings.
  now rewrite (pair_names_of_pairs extension_pairs_same), (parameters_of_procedure frame_procedure_same).
Qed.

End Other.

(** The cells of a frame are value words. *)
Lemma frame_cell_value x c u : In (x, c) (frame_bindings base m f u) -> value_word c.
Proof.
  unfold frame_bindings. intros [H | H]%in_app_or.
  - apply in_map_iff in H as (p & [= _ <-] & H). constructor. exact (pair_block p H).
  - apply filter_In in H as [H _]. apply in_map_iff in H as (i & [= _ <-] & Hi). apply in_seq in Hi.
    rewrite (wf_n_formals _ _ _ _ frame_wf) in Hi. eapply argument_word; [exact F | lia].
Qed.

End Frame.

Lemma parent_ok f n : blk f = Some (Frame_block n) -> env_ok blk (frame_parent base m f).
Proof.
  intros F. unfold frame_parent. destruct (VECTOR_P (m (f + 1))) eqn:V.
  - destruct (extension_block F V) as (k & X & WX). rewrite (wx_parent _ _ _ _ WX).
    destruct (wx_procedure _ _ _ _ WX) as [_ Pr]. apply (wf_blocks _ _ W _ _ Pr).
  - pose proof (wf_function _ _ _ _ (frame_wf F)) as Pr. rewrite V in Pr. apply (wf_blocks _ _ W _ _ Pr).
Qed.

(** What is left to know of [o]. *)
Hypothesis OP : forall n, blk o = Some (Frame_block n) ->
  frame_parent base m' o = frame_parent base m o /\ frame_procedure base m' o = frame_procedure base m o.

Lemma any_parent f n : blk f = Some (Frame_block n) -> frame_parent base m' f = frame_parent base m f.
Proof.
  intros F. destruct (Z.eq_dec f o) as [-> | N]; [apply (OP n F) | exact (frame_parent_same F N)].
Qed.

Lemma any_procedure f n : blk f = Some (Frame_block n) -> frame_procedure base m' f = frame_procedure base m f.
Proof.
  intros F. destruct (Z.eq_dec f o) as [-> | N]; [apply (OP n F) | exact (frame_procedure_same F N)].
Qed.

Lemma chain_same e fs last : env_ok blk e -> chain base m e fs last -> chain base m' e fs last.
Proof.
  intros K H. induction H as [e P | e fs last P N C IH]; [now constructor |].
  destruct (K P) as (n & F). constructor; [exact P | |].
  - now rewrite (n_formals_of_procedure F (any_procedure _ _ F)).
  - rewrite (any_parent _ _ F). exact (IH (parent_ok _ _ F)).
Qed.

(** ** Keeping a heap well formed *)

Lemma wf_value x : value_word x -> value_ok blk (m x).
Proof.
  intros H. destruct H as [f n i F Hi | b B | y Y | c C].
  - apply (wf_arguments _ _ _ _ (frame_wf F) i Hi).
  - exact (wf_blocks _ _ W _ _ B).
  - exact (wf_blocks _ _ W _ _ Y).
  - apply (wf_blocks _ _ W _ _ C).
Qed.

Lemma wf_same :
  (forall x, value_word x -> value_ok blk (m' x)) ->
  (forall c, blk c = Some Cache_block -> trap_kind base m' (m' c) <> TRAP_COMPILER_CACHED) ->
  (forall k, blk z = Some k -> wf_block blk m' z k) ->
  (forall n, blk o = Some (Frame_block n) -> wf_frame blk m' o n
     /\ forall g n', blk g = Some (Frame_block n') -> g <> o ->
        (VECTOR_P (m' (o + 1)) = true -> VECTOR_P (m (g + 1)) = true -> addr (m' (o + 1)) <> addr (m (g + 1)))
        /\ forall p, In p (extension_pairs base m' o) -> ~ In p (extension_pairs base m g)) ->
  wf blk m'.
Proof.
  intros V C Wz Wo. split.
  - intros a k Hk. destruct (Z.eq_dec a z) as [-> | Nz]; [exact (Wz k Hk) |].
    pose proof (wf_blocks _ _ W a k Hk) as H.
    destruct k as [| | | | n | | | n | n | | | |]; cbn [wf_block] in *; try exact I.
    + apply V. now constructor.
    + destruct (Z.eq_dec a o) as [-> | No]; [apply (Wo n Hk) |]. assert (F1 := function_same Hk No). split.
      * apply H.
      * rewrite F1. apply H.
      * rewrite (n_formals_of_procedure Hk (frame_procedure_same Hk No)). apply H.
      * intros i Hi. apply V. exact (argument_word _ _ _ _ Hk Hi).
      * rewrite (all_bindings_same Hk No). apply H.
      * rewrite (extension_pairs_same Hk No). apply H.
    + rewrite (structure_word0 a _ Hk Nz I), (structure_word a _ 1 Hk Nz); cbn [size]; [exact H | lia | exact I].
    + rewrite (structure_word a _ 1 Hk Nz); cbn [size]; [exact H | lia | exact I].
    + rewrite (structure_word0 a _ Hk Nz I). exact H.
    + destruct H as [S0 L P E B]. pose proof (proj2 S0).
      assert (W3 : m' (a + 3) = m (a + 3)) by (apply (structure_word a _ 3 Hk Nz); cbn [size]; [lia | exact I]).
      assert (W2 : m' (a + 2) = m (a + 2)) by (apply (structure_word a _ 2 Hk Nz); cbn [size]; [lia | exact I]).
      split; rewrite ?W3, ?W2.
      * rewrite (structure_word0 a _ Hk Nz I). exact S0.
      * exact L.
      * exact P.
      * destruct P as [_ P]. rewrite (structure_word _ _ 1 P (other_block _ _ P I)); cbn [size]; [| lia | exact I].
        rewrite (structure_word a _ 1 Hk Nz); cbn [size]; [exact E | lia | exact I].
      * intros i Hi. rewrite <- Z.add_assoc, (structure_word a _ (4 + i) Hk Nz); cbn [size]; [| lia | exact I].
        rewrite Z.add_assoc. apply B, Hi.
    + apply V. now constructor.
    + rewrite (structure_word0 a _ Hk Nz I), (structure_word a _ 1 Hk Nz); cbn [size]; [exact H | lia | exact I].
    + destruct H as (_ & _ & H1 & H2). split; [| split; [| split]].
      * apply V. now apply cache_word.
      * apply C, Hk.
      * rewrite (structure_word a _ 1 Hk Nz); cbn [size]; [exact H1 | lia | lia].
      * rewrite (structure_word a _ 2 Hk Nz); cbn [size]; [exact H2 | lia | lia].
    + destruct H as (H0 & H1 & H2). split; [| split].
      * rewrite (structure_word0 a _ Hk Nz I). exact H0.
      * rewrite (structure_word a _ 1 Hk Nz); cbn [size]; [exact H1 | lia | exact I].
      * rewrite (structure_word a _ 2 Hk Nz); cbn [size]; [exact H2 | lia | exact I].
  - intros f g n n' F G. destruct (Z.eq_dec f o) as [-> | Nf], (Z.eq_dec g o) as [-> | Ng]; [auto | | |].
    + rewrite (function_same G Ng). intros V1 V2 E. now destruct (proj2 (Wo n F) g n' G Ng) as [D _], (D V1 V2).
    + rewrite (function_same F Nf). intros V1 V2 E. symmetry in E.
      now destruct (proj2 (Wo n' G) f n F Nf) as [D _], (D V2 V1).
    + rewrite (function_same F Nf), (function_same G Ng). exact (wf_extensions _ _ W f g n n' F G).
  - intros f g n n' p F G. destruct (Z.eq_dec f o) as [-> | Nf], (Z.eq_dec g o) as [-> | Ng]; [auto | | |].
    + rewrite (extension_pairs_same G Ng). intros H1 H2. now destruct (proj2 (Wo n F) g n' G Ng) as [_ D], (D p H1).
    + rewrite (extension_pairs_same F Nf). intros H1 H2. now destruct (proj2 (Wo n' G) f n F Nf) as [_ D], (D p H2).
    + rewrite (extension_pairs_same F Nf), (extension_pairs_same G Ng). exact (wf_owners _ _ W f g n n' p F G).
Qed.

(** ** Searches that do not change *)

Hypothesis U : forall x, argument blk x -> m' x = UNBOUND_OBJECT <-> m x = UNBOUND_OBJECT.

Lemma visible_parameters f n u : blk f = Some (Frame_block n) ->
  filter (visible m' u) (parameters base m' f) = filter (visible m u) (parameters base m f).
Proof.
  intros F. rewrite (parameters_of_procedure F (any_procedure _ _ F)).
  apply filter_ext_in. intros [x c] Hc. unfold visible. cbn [snd]. f_equal. f_equal.
  assert (V : argument blk c).
  { apply in_map_iff in Hc as (i & [= _ <-] & Hi). apply in_seq in Hi.
    rewrite (wf_n_formals _ _ _ _ (frame_wf F)) in Hi. exists f, n, (Z.of_nat i). split; [exact F | split; lia]. }
  apply U in V. destruct (Z.eqb_spec (m' c) UNBOUND_OBJECT), (Z.eqb_spec (m c) UNBOUND_OBJECT); tauto.
Qed.

Lemma bindings_same f n u : blk f = Some (Frame_block n) ->
  extension_pairs base m' f = extension_pairs base m f ->
  frame_bindings base m' f u = frame_bindings base m f u.
Proof.
  intros F E. unfold frame_bindings. now rewrite (pair_names_of_pairs F E), (visible_parameters f n u F).
Qed.

Lemma other_bindings f n u : blk f = Some (Frame_block n) -> f <> o ->
  frame_bindings base m' f u = frame_bindings base m f u.
Proof. intros F N. exact (bindings_same f n u F (extension_pairs_same F N)). Qed.

Lemma search_same e fs last symbol : env_ok blk e -> chain base m e fs last ->
  (forall n, blk o = Some (Frame_block n) -> extension_pairs base m' o = extension_pairs base m o) ->
  search base m' symbol fs last = search base m symbol fs last.
Proof.
  intros K H Eo. induction H as [e P | e fs last P N C IH]; [reflexivity |]. cbn [search].
  destruct (K P) as (n & F). rewrite (IH (parent_ok _ _ F)).
  destruct (Z.eq_dec (addr e) o) as [E | No]; [| now rewrite (other_bindings _ _ _ F No)].
  rewrite (bindings_same _ n _ F); [reflexivity |]. rewrite E in *. exact (Eo n F).
Qed.

End Structure.

(** *** Nothing but values *)

Section Values.
Context {m m' : memory}.
Hypothesis base_positive : 0 < base.
Hypothesis W : wf blk m.
Hypothesis SS : same_structure blk m m'.

Lemma no_block : blk 0 = None.
Proof. destruct (blk 0) as [k|] eqn:E; [| reflexivity]. pose proof (ap_range _ _ AP _ _ E). lia. Qed.

Lemma no_part : part_of blk m 0 0.
Proof. intros k E. rewrite no_block in E. discriminate. Qed.

Lemma same_but_none : same_but blk 0 m m'.
Proof. intros a k i Hk S _. exact (SS a k i Hk S). Qed.

Lemma no_frame (P : Prop) n : blk 0 = Some (Frame_block n) -> P.
Proof. rewrite no_block. discriminate. Qed.

Lemma values_trap_kind v : value_ok blk v -> trap_kind base m' v = trap_kind base m v.
Proof. exact (trap_kind_same same_but_none no_part v). Qed.

Lemma values_chain e fs last : env_ok blk e -> chain base m e fs last -> chain base m' e fs last.
Proof. apply (chain_same W same_but_none no_part). intros n. apply no_frame. Qed.

Lemma values_search e fs last symbol :
  (forall x, argument blk x -> m' x = UNBOUND_OBJECT <-> m x = UNBOUND_OBJECT) ->
  env_ok blk e -> chain base m e fs last -> search base m' symbol fs last = search base m symbol fs last.
Proof.
  intros U K C. apply (search_same W same_but_none no_part (fun n => no_frame _ n) U e fs last symbol K C).
  intros n. apply no_frame.
Qed.

Lemma values_wf :
  (forall x, value_word x -> value_ok blk (m' x)) ->
  (forall c, blk c = Some Cache_block -> trap_kind base m' (m' c) <> TRAP_COMPILER_CACHED) -> wf blk m'.
Proof.
  intros V C. apply (wf_same W same_but_none no_part V C).
  - intros k E. rewrite no_block in E. discriminate.
  - intros n. apply no_frame.
Qed.

End Values.

End Facts.

End Heap.
