(* ===== verification/EnvAssign.v ===== *)
(** * Reference and assignment (for Environment.v)

    In a well-formed heap a reference gives the meaning of the variable, and
    an assignment changes the value of one location: the variables that have
    that location, and no others, have the new value afterwards. *)

From Stdlib Require Import ZArith List Lia Bool.
From S2P Require Import Prelude.
From S2P Require Import Object.
From S2P Require Import Memory.
From S2P Require Import Heap.
From S2P Require Import Symbol.
From S2P Require Import Environment.
From S2P Require Import EnvSpec.
From S2P Require Import EnvInv.
Import ListNotations.

#[local] Opaque MAKE_OBJECT OBJECT_DATUM OBJECT_TYPE OBJECT_ADDRESS.

Section Assignment.
Variable base : Z.
Variable fixed_objects : Z.
Hypothesis base_positive : 0 < base.
Notation addr := (OBJECT_ADDRESS base).

(** The object that stands for an unassigned variable outside of cells. *)
Definition external (m : memory) : Z := m (addr fixed_objects + 1).
Definition map_to (m : memory) (v : Z) : Z := if v =? external m then UNASSIGNED_OBJECT else v.
Definition map_from (m : memory) (v : Z) : Z := if v =? UNASSIGNED_OBJECT then external m else v.

(** Whether a value of trap kind [k] may be replaced, and the code if not. *)
Definition assignable (force_p : bool) (k : Z) : bool :=
  (k =? NON_TRAP_KIND) || (k =? TRAP_UNASSIGNED)
  || (force_p && ((k =? TRAP_UNBOUND) || (k =? TRAP_MACRO))).
Definition refusal (k : Z) : code :=
  if k =? TRAP_UNBOUND then ERR_UNBOUND_VARIABLE
  else if k =? TRAP_MACRO then ERR_MACRO_BINDING
  else ERR_ILLEGAL_REFERENCE_TRAP.

(** The location of a variable. *)
Definition variable_location (m : memory) (symbol : Z) (fs : list Z) (last : Z) : option Z :=
  option_map (location base m) (variable_cell base m symbol fs last).

Lemma unassigned_kind m : trap_kind base m UNASSIGNED_OBJECT = TRAP_UNASSIGNED.
Proof. reflexivity. Qed.

Section Heap.
Context {blk : Z -> option kind} {free : Z} {m : memory}.
Hypothesis AP : apart base blk free.
Hypothesis W : wf base blk m.
Notation value_word := (value_word blk).
Notation value_ok := (value_ok base blk).

Lemma cached_trap v : value_ok v -> trap_kind base m v = TRAP_COMPILER_CACHED ->
  blk (addr v) = Some Trap_block /\ blk (addr (m (addr v + 1))) = Some Cache_block.
Proof.
  unfold EnvInv.value_ok, trap_kind. destruct (REFERENCE_TRAP_P v); [| discriminate].
  destruct (Z.leb_spec (OBJECT_DATUM v) 9); [lia |]. intros V K.
  assert (T : blk (addr v) = Some Trap_block) by (apply V; [reflexivity | lia]).
  split; [exact T | exact (wf_blocks _ _ _ W _ _ T K)].
Qed.

Lemma location_value c : value_word c -> value_word (location base m c).
Proof.
  intros H. unfold location. destruct (Z.eqb_spec (trap_kind base m (m c)) 14); [| exact H].
  apply cache_word. apply cached_trap; [exact (wf_value base W c H) | assumption].
Qed.

Lemma location_flat c : value_word c -> flat base m c.
Proof.
  intros H. unfold flat, location. destruct (Z.eqb_spec (trap_kind base m (m c)) 14) as [K | K]; [| exact K].
  destruct (cached_trap _ (wf_value base W c H) K) as [_ C]. apply (wf_blocks _ _ _ W _ _ C).
Qed.

(** The cell of a variable is a value word. *)
Lemma search_cell symbol e fs last c :
  env_ok base blk e -> chain base m e fs last -> symbol_ok base blk symbol ->
  variable_cell base m symbol fs last = Some c -> value_word c.
Proof.
  intros K H Y. unfold variable_cell. induction H as [e P | e fs last P N C IH]; cbn [search].
  - unfold global_cell. destruct (GLOBAL_FRAME_P e); [| discriminate]. cbn [fst]. intros [= <-].
    now constructor.
  - destruct (K P) as (n & F). destruct (assoc symbol _) eqn:E.
    + cbn [fst]. intros [= <-]. apply assoc_In in E. exact (frame_cell_value base W F _ _ _ E).
    + apply IH. exact (parent_ok base W _ _ F).
Qed.

(** *** One value replaced *)

Section Store.
Context {l v : Z}.
Hypothesis HL : value_word l.
Hypothesis HV : value_ok v.

Lemma store_structure : same_structure blk m (store m l v).
Proof. intros a k i Hk _ Hi N. apply store_other. intros E. apply N. now rewrite E. Qed.

Lemma store_kind u : value_ok u -> trap_kind base (store m l v) u = trap_kind base m u.
Proof. exact (values_trap_kind base AP base_positive store_structure u). Qed.

Lemma store_value x : value_word x -> value_ok (store m l v x).
Proof.
  intros H. unfold store. destruct (Z.eqb_spec x l); [exact HV | exact (wf_value base W x H)].
Qed.

Lemma store_wf : trap_kind base m v <> TRAP_COMPILER_CACHED \/ blk l <> Some Cache_block -> wf base blk (store m l v).
Proof.
  intros N. apply (values_wf base AP base_positive W store_structure store_value). intros c C.
  assert (VC : value_word c) by now apply cache_word.
  rewrite store_kind by exact (store_value c VC). unfold store. destruct (Z.eqb_spec c l) as [-> | _].
  - destruct N as [N | N]; [exact N | contradiction].
  - apply (wf_blocks _ _ _ W c _ C).
Qed.

(** The locations stay when neither the old nor the new value is a cache's
    trap. *)
Lemma store_location c :
  trap_kind base m (m l) <> TRAP_COMPILER_CACHED -> trap_kind base m v <> TRAP_COMPILER_CACHED ->
  value_word c -> location base (store m l v) c = location base m c.
Proof.
  intros N1 N2 VC. unfold location. rewrite store_kind by exact (store_value c VC).
  assert (E : store m l v c = if c =? l then v else m c) by reflexivity. rewrite E.
  destruct (Z.eqb_spec c l) as [-> | _].
  - destruct (Z.eqb_spec (trap_kind base m v) 14), (Z.eqb_spec (trap_kind base m (m l)) 14); tauto.
  - destruct (Z.eqb_spec (trap_kind base m (m c)) 14) as [K |]; [| reflexivity]. f_equal.
    destruct (cached_trap _ (wf_value base W c VC) K) as [T _].
    apply (store_structure _ _ 1 T eq_refl); [| apply (not_value base AP _ _ 1 T); [| exact I]]; cbn [size]; lia.
Qed.

End Store.

Lemma value_result_same m' u : (trap_kind base m' u = trap_kind base m u) -> value_result base m' u = value_result base m u.
Proof. intros E. unfold value_result. now rewrite E. Qed.

End Heap.

(** ** What an assignment to a location does *)

(** In [m'] every environment has the same frames and every variable the same
    location as in [m]; the meaning of those at [l] is that of [v], and the
    others have kept theirs. *)
Definition assigned (fuel : nat) (blk : Z -> option kind) (m m' : memory) (l v : Z) : Prop :=
  forall e fs last symbol,
    env_ok base blk e -> symbol_ok base blk symbol -> environment base fuel m e fs last ->
    environment base fuel m' e fs last
    /\ variable_location m' symbol fs last = variable_location m symbol fs last
    /\ meaning base m' symbol fs last
       = match variable_location m symbol fs last with
         | Some l' => if l' =? l then value_result base m v else meaning base m symbol fs last
         | None => meaning base m symbol fs last
         end.

Section Correct.
Context {blk : Z -> option kind} {free : Z}.
Hypothesis AP : apart base blk free.
Variable fuel : nat.
Notation value_word := (value_word blk).
Notation value_ok := (value_ok base blk).

Lemma store_assigned m l v :
  wf base blk m -> value_word l -> value_ok v ->
  trap_kind base m (m l) <> TRAP_COMPILER_CACHED -> trap_kind base m v <> TRAP_COMPILER_CACHED ->
  (argument blk l -> v = UNBOUND_OBJECT <-> m l = UNBOUND_OBJECT) -> assigned fuel blk m (store m l v) l v.
Proof.
  intros W HL HV N1 N2 HU e fs last symbol K Y [C F].
  pose proof (store_structure (m := m) (v := v) HL) as SS.
  assert (U : forall x, argument blk x -> store m l v x = UNBOUND_OBJECT <-> m x = UNBOUND_OBJECT).
  { intros x Hx. unfold store. destruct (Z.eqb_spec x l) as [-> |]; [exact (HU Hx) | reflexivity]. }
  split; [split; [exact (values_chain base AP base_positive W SS e fs last K C) | exact F] |].
  unfold meaning, variable_location, variable_cell. rewrite (values_search base AP base_positive W SS e fs last symbol U K C).
  pose proof (search_cell W symbol e fs last) as HC. unfold variable_cell in HC.
  destruct (fst (search base m symbol fs last)) as [c|]; cbn [option_map cell_result]; [| auto].
  specialize (HC c K C Y eq_refl). pose proof (store_location AP W HL HV c N1 N2 HC) as EL. rewrite EL.
  split; [reflexivity |]. unfold store at 2. destruct (Z.eqb_spec (location base m c) l).
  - apply value_result_same, (store_kind AP HL v HV).
  - apply value_result_same, (store_kind AP HL).
    exact (wf_value base W _ (location_value W c HC)).
Qed.

(** *** The code *)

Lemma MAP_TO_UNASSIGNED_run v s : MAP_TO_UNASSIGNED base fixed_objects v s = Value (map_to (mem s) v) s.
Proof. reflexivity. Qed.

Lemma MAP_FROM_UNASSIGNED_run v s : MAP_FROM_UNASSIGNED base fixed_objects v s = Value (map_from (mem s) v) s.
Proof.
  unfold MAP_FROM_UNASSIGNED, map_from. destruct (v =? UNASSIGNED_OBJECT); reflexivity.
Qed.

Definition assign_outcome (s : machine) (l v : Z) (force_p : bool) : run res :=
  let k := trap_kind base (mem s) (mem s l) in
  if assignable force_p k
  then Value (PRIM_DONE, Some (map_from (mem s) (mem s l))) (set_mem s (store (mem s) l (map_to (mem s) v)))
  else Value (refusal k, None) s.

Lemma bind_from B v (k : Z -> act B) s :
  bind (MAP_FROM_UNASSIGNED base fixed_objects v) k s = k (map_from (mem s) v) s.
Proof. apply bind_value, MAP_FROM_UNASSIGNED_run. Qed.

Lemma bind_to B v (k : Z -> act B) s :
  bind (MAP_TO_UNASSIGNED base fixed_objects v) k s = k (map_to (mem s) v) s.
Proof. apply bind_value, MAP_TO_UNASSIGNED_run. Qed.

(** The branches on the kind of the old value. *)
Ltac branches :=
  unfold assignable, refusal;
  repeat match goal with |- context [ ?k =? ?n ] => destruct (Z.eqb_spec k n) end;
  cbn [orb andb]; try congruence; rewrite ?bind_from, ?bind_to; try reflexivity.

Lemma assign_variable_cache_run s c v force_p :
  trap_kind base (mem s) (mem s (addr c)) <> TRAP_COMPILER_CACHED ->
  assign_variable_cache base fixed_objects c v force_p s = assign_outcome s (addr c) v force_p.
Proof.
  intros N. unfold assign_variable_cache, assign_outcome. act_unfold. act_steps. rewrite bind_trap_kind.
  destruct force_p; branches.
Qed.

Lemma assign_variable_end_run s cell v force_p :
  wf base blk (mem s) -> value_word cell ->
  assign_variable_end base fixed_objects cell v force_p s
  = assign_outcome s (location base (mem s) cell) v force_p.
Proof.
  intros W H. pose proof (location_flat W cell H) as N. unfold flat in N.
  unfold assign_variable_end, assign_outcome, location in *. act_steps. rewrite bind_trap_kind.
  destruct (Z.eqb_spec (trap_kind base (mem s) (mem s cell)) 14) as [E | E].
  - rewrite E. cbn [Z.eqb Pos.eqb orb]. act_unfold. act_steps. apply assign_variable_cache_run, N.
  - destruct force_p; branches.
Qed.

End Correct.
End Assignment.
