(* ===== verification/EnvDefine.v ===== *)
(** * New blocks and new bindings (for Environment.v)

    Allocation keeps every environment.  So does giving a frame an extension,
    or a larger one; adding a pair to an extension makes one new variable,
    which is seen from the environments that reach the frame without meeting
    another binding of the name.

    A pair added to the extension of a frame makes a new variable: it is seen
    from the environments that reach the frame without meeting another binding
    of the name, and every other variable is as before. *)

From Stdlib Require Import ZArith List Lia Bool Permutation.
From S2P Require Import Prelude.
From S2P Require Import Object.
From S2P Require Import Memory.
From S2P Require Import Heap.
From S2P Require Import Symbol.
From S2P Require Import Environment.
From S2P Require Import EnvSpec.
From S2P Require Import EnvInv.
From S2P Require Import EnvAssign.
Import ListNotations.

#[local] Opaque MAKE_OBJECT OBJECT_DATUM OBJECT_TYPE OBJECT_ADDRESS.

Section Define.
Variable base : Z.
Hypothesis base_positive : 0 < base.
Variable fuel : nat.
Notation addr := (OBJECT_ADDRESS base).
Notation variable_location := (variable_location base).

(** ** Environments kept *)

(** Whether a search for [symbol] reaches the frame at [f]. *)
Fixpoint sees (m : memory) (f symbol : Z) (fs : list Z) : bool :=
  match fs with
  | [] => false
  | g :: fs => (addr g =? f) || match assoc symbol (frame_bindings base m (addr g) false) with
                                | Some _ => false
                                | None => sees m f symbol fs
                                end
  end.

(** Every variable of [m] is found at the same place in [m'] and means the
    same. *)
Definition keeps (blk : Z -> option kind) (m m' : memory) : Prop :=
  forall e fs last symbol,
    env_ok base blk e -> symbol_ok base blk symbol -> environment base fuel m e fs last ->
    environment base fuel m' e fs last
    /\ search base m' symbol fs last = search base m symbol fs last
    /\ (forall f, sees m' f symbol fs = sees m f symbol fs)
    /\ variable_location m' symbol fs last = variable_location m symbol fs last
    /\ meaning base m' symbol fs last = meaning base m symbol fs last.

Definition included (blk blk' : Z -> option kind) : Prop := forall a k, blk a = Some k -> blk' a = Some k.

Lemma keeps_refl blk m : keeps blk m m.
Proof. intros e fs last symbol _ _ H. auto 6. Qed.

Lemma keeps_trans blk blk' m m' m'' :
  included blk blk' -> keeps blk m m' -> keeps blk' m' m'' -> keeps blk m m''.
Proof.
  intros I H1 H2 e fs last symbol K Y C. destruct (H1 e fs last symbol K Y C) as (C1 & S1 & F1 & L1 & M1).
  assert (K' : env_ok base blk' e) by (intros P; destruct (K P) as (n & F); exists n; exact (I _ _ F)).
  destruct (H2 e fs last symbol K' (I _ _ Y) C1) as (C2 & S2 & F2 & L2 & M2).
  split; [exact C2 |]. rewrite S2, L2, M2. split; [exact S1 |]. split; [| auto]. intros f. now rewrite F2.
Qed.

Section Keep.
Context {blk : Z -> option kind} {free : Z} {m m' : memory} {z o : Z}.
Hypothesis AP : apart base blk free.
Hypothesis W : wf base blk m.
Hypothesis SB : same_but blk z m m'.
Hypothesis PO : part_of base blk m z o.
Hypothesis OP : forall n, blk o = Some (Frame_block n) ->
  frame_parent base m' o = frame_parent base m o /\ frame_procedure base m' o = frame_procedure base m o.
Hypothesis Values : forall x, value_word blk x -> m' x = m x.

Lemma values_unbound x : argument blk x -> m' x = UNBOUND_OBJECT <-> m x = UNBOUND_OBJECT.
Proof. intros V. now rewrite (Values x (argument_value _ x V)). Qed.

Lemma same_location c : value_word blk c -> location base m' c = location base m c.
Proof.
  intros V. pose proof (wf_value base W c V) as Vo. unfold location. rewrite (Values c V).
  rewrite (trap_kind_same base AP SB PO _ Vo).
  destruct (Z.eqb_spec (trap_kind base m (m c)) 14) as [K |]; [| reflexivity]. f_equal.
  destruct (cached_trap base W _ Vo K) as [T _].
  apply (structure_word base AP SB _ _ 1 T (other_block base PO _ _ T I)); cbn [size]; [lia | exact I].
Qed.

Lemma same_result c : value_word blk c ->
  value_result base m' (m' (location base m' c)) = value_result base m (m (location base m c)).
Proof.
  intros V. rewrite (same_location c V). pose proof (location_value base W c V) as VL.
  rewrite (Values _ VL). apply value_result_same.
  exact (trap_kind_same base AP SB PO _ (wf_value base W _ VL)).
Qed.

Lemma sees_same f e fs last symbol : env_ok base blk e -> chain base m e fs last ->
  (forall n, blk o = Some (Frame_block n) -> extension_pairs base m' o = extension_pairs base m o) ->
  sees m' f symbol fs = sees m f symbol fs.
Proof.
  intros K H Eo. induction H as [e P | e fs last P N C IH]; [reflexivity |]. cbn [sees].
  destruct (K P) as (n & F). rewrite (IH (parent_ok base W _ _ F)).
  rewrite (bindings_same base AP W SB PO OP values_unbound _ n _ F); [reflexivity |].
  destruct (Z.eq_dec (addr e) o) as [E | No]; [rewrite E in *; exact (Eo n F) |].
  exact (extension_pairs_same base AP W SB PO F No).
Qed.

Lemma same_keeps :
  (forall n, blk o = Some (Frame_block n) -> extension_pairs base m' o = extension_pairs base m o) ->
  keeps blk m m'.
Proof.
  intros Eo e fs last symbol K Y [C F].
  split; [split; [exact (chain_same base AP W SB PO OP e fs last K C) | exact F] |].
  pose proof (search_same base AP W SB PO OP values_unbound e fs last symbol K C Eo) as S.
  unfold EnvAssign.variable_location, meaning, variable_cell. rewrite S. split; [reflexivity |].
  split; [intros f; exact (sees_same f e fs last symbol K C Eo) |].
  pose proof (search_cell base W symbol e fs last) as HC. unfold variable_cell in HC.
  destruct (fst (search base m symbol fs last)) as [c|]; cbn [option_map cell_result]; [| auto].
  specialize (HC c K C Y eq_refl). now rewrite (same_result c HC), (same_location c HC).
Qed.

End Keep.

(** ** New blocks *)

Definition grow (blk : Z -> option kind) (new : Z) (k : kind) : Z -> option kind :=
  fun a => if a =? new then Some k else blk a.

Lemma value_ok_included blk blk' v : included blk blk' -> value_ok base blk v -> value_ok base blk' v.
Proof. intros I V P D. exact (I _ _ (V P D)). Qed.

Lemma env_ok_included blk blk' e : included blk blk' -> env_ok base blk e -> env_ok base blk' e.
Proof. intros I K P. destruct (K P) as (n & F). exists n. exact (I _ _ F). Qed.

Lemma wf_block_included blk blk' m a k :
  included blk blk' -> wf_block base blk m a k -> wf_block base blk' m a k.
Proof.
  intros I H. destruct k; cbn [wf_block] in *; try exact H.
  - exact (value_ok_included _ _ _ I H).
  - destruct H as [C F N A Nm P]. split; auto.
    + destruct (VECTOR_P (m (a + 1))); [destruct F as (k & F); exists k |]; apply I; exact F.
    + intros i Hi. exact (value_ok_included _ _ _ I (A i Hi)).
  - destruct H as [L K]. split; [exact (I _ _ L) | exact (env_ok_included _ _ _ I K)].
  - destruct H as (k & H). exists k. exact (I _ _ H).
  - destruct H as [Sz L [P P1] E B]. split; auto.
  - exact (value_ok_included _ _ _ I H).
  - intros K. exact (I _ _ (H K)).
  - destruct H as (V & K & C & R). split; [exact (value_ok_included _ _ _ I V) |].
    split; [exact K |]. split; [exact C | exact (I _ _ R)].
Qed.

Section Grow.
Context {blk : Z -> option kind} {free : Z} {m m' : memory} {k : kind}.
Hypothesis AP : apart base blk free.
Hypothesis above : base <= free.
Hypothesis W : wf base blk m.
Hypothesis low : forall x, x < free -> m' x = m x.
Hypothesis positive : 0 < size k.
Hypothesis not_frame : match k with Frame_block _ => False | _ => True end.
Notation blk' := (grow blk free k).

Lemma new_free : blk free = None.
Proof. destruct (blk free) as [k'|] eqn:E; [| reflexivity]. pose proof (ap_range _ _ _ AP _ _ E). lia. Qed.

Lemma grow_new : blk' free = Some k.
Proof. unfold grow. now rewrite Z.eqb_refl. Qed.

Lemma grow_included : included blk blk'.
Proof.
  intros a k' H. unfold grow. destruct (Z.eqb_spec a free) as [-> |]; [| exact H].
  rewrite new_free in H. discriminate.
Qed.

Lemma grow_inv a k' : blk' a = Some k' -> (a = free /\ k' = k) \/ (a <> free /\ blk a = Some k').
Proof. unfold grow. destruct (Z.eqb_spec a free); [intros [= ->]; auto | auto]. Qed.

Lemma grow_apart : apart base blk' (free + size k).
Proof.
  split.
  - intros a k' [[-> ->] | [_ H]]%grow_inv; [lia |]. pose proof (ap_range _ _ _ AP _ _ H). lia.
  - intros a b ka kb [[-> ->] | [_ Ha]]%grow_inv [[-> ->] | [_ Hb]]%grow_inv N; [contradiction | | |].
    + pose proof (ap_range _ _ _ AP _ _ Hb). lia.
    + pose proof (ap_range _ _ _ AP _ _ Ha). lia.
    + exact (ap_apart _ _ _ AP a b ka kb Ha Hb N).
Qed.

Lemma old_word a k' i : blk a = Some k' -> 0 <= i < size k' -> m' (a + i) = m (a + i).
Proof. intros Ha Hi. pose proof (ap_range _ _ _ AP _ _ Ha). apply low. lia. Qed.

Lemma old_value x : value_word blk x -> m' x = m x.
Proof.
  intros [f n i F Hi | b B | y Y | c C].
  - rewrite <- Z.add_assoc. apply (old_word f _ (2 + i) F). cbn [size]. lia.
  - apply (old_word b _ 1 B). cbn [size]. lia.
  - apply (old_word y _ 1 Y). cbn [size]. lia.
  - pose proof (old_word c _ 0 C) as H. rewrite Z.add_0_r in H. apply H. cbn [size]. lia.
Qed.

Lemma old_structure : same_structure blk m m'.
Proof. intros a k' i Ha _ Hi _. exact (old_word a k' i Ha Hi). Qed.

Lemma grow_keeps : keeps blk m m'.
Proof.
  apply (same_keeps AP W (same_but_none old_structure) (no_part base AP base_positive)).
  - intros n. apply (no_frame base AP base_positive).
  - exact old_value.
  - intros n. apply (no_frame base AP base_positive).
Qed.

Lemma old_wf : wf base blk m'.
Proof.
  apply (values_wf base AP base_positive W old_structure).
  - intros x V. rewrite (old_value x V). exact (wf_value base W x V).
  - intros c C. rewrite (old_value c (cache_word _ _ C)).
    rewrite (values_trap_kind base AP base_positive old_structure).
    + apply (wf_blocks _ _ _ W _ _ C).
    + exact (wf_value base W c (cache_word _ _ C)).
Qed.

Lemma grow_wf : wf_block base blk' m' free k -> wf base blk' m'.
Proof.
  intros N. split.
  - intros a k' [[-> ->] | [_ H]]%grow_inv; [exact N |].
    exact (wf_block_included _ _ _ _ _ grow_included (wf_blocks _ _ _ old_wf a k' H)).
  - intros f g n n' [[-> E] | [_ F]]%grow_inv [[-> E'] | [_ G]]%grow_inv; try (rewrite <- E in not_frame; contradiction); try (rewrite <- E' in not_frame; contradiction).
    exact (wf_extensions _ _ _ old_wf f g n n' F G).
  - intros f g n n' p [[-> E] | [_ F]]%grow_inv [[-> E'] | [_ G]]%grow_inv; try (rewrite <- E in not_frame; contradiction); try (rewrite <- E' in not_frame; contradiction).
    exact (wf_owners _ _ _ old_wf f g n n' p F G).
Qed.

End Grow.

(** ** A frame gets a new extension *)

Section Attach.
Context {blk : Z -> option kind} {free : Z} {m : memory} {f n x k e : Z}.
Hypothesis AP : apart base blk free.
Hypothesis W : wf base blk m.
Hypothesis F : blk f = Some (Frame_block n).
Hypothesis V : VECTOR_P e = true.
Hypothesis X : blk x = Some (Extension_block k).
Hypothesis E : addr e = x.
Hypothesis P : m (x + 2) = frame_procedure base m f.
Hypothesis L : UNSIGNED_FIXNUM_TO_LONG (m (x + 3)) = Z.of_nat (length (extension_pairs base m f)).
Hypothesis B : forall i p, nth_error (extension_pairs base m f) i = Some p -> addr (m (x + 4 + Z.of_nat i)) = p.
Hypothesis Fresh : forall g n', blk g = Some (Frame_block n') -> g <> f -> VECTOR_P (m (g + 1)) = true ->
  addr (m (g + 1)) <> x.
Notation m' := (store m (f + 1) e).

Lemma attach_but : same_but blk f m m'.
Proof.
  intros a k' i Ha _ Na Hi _. apply store_other. intros Eq. apply Na.
  apply (word_inj base blk free a f k' (Frame_block n) i 1 AP Ha F Hi); [| exact Eq].
  cbn [size]. pose proof (wf_count _ _ _ _ _ (frame_wf base W F)). lia.
Qed.

Lemma attach_part : part_of base blk m f f.
Proof. intros k' Hk. rewrite F in Hk. injection Hk as <-. reflexivity. Qed.

(** The words of the extension and of the procedure are not [f + 1]. *)
Lemma attach_word a k' i : blk a = Some k' -> a <> f -> 0 <= i < size k' -> m' (a + i) = m (a + i).
Proof.
  intros Ha Na Hi. apply store_other. intros Eq. apply Na.
  apply (word_inj base blk free a f k' (Frame_block n) i 1 AP Ha F Hi); [| exact Eq].
  cbn [size]. pose proof (wf_count _ _ _ _ _ (frame_wf base W F)). lia.
Qed.

Lemma attach_x : x <> f.
Proof. intros ->. rewrite F in X. discriminate. Qed.

Lemma attach_extension_word i : 0 <= i < k + 4 -> m' (x + i) = m (x + i).
Proof. intros Hi. exact (attach_word x _ i X attach_x Hi). Qed.

Lemma attach_procedure : frame_procedure base m' f = frame_procedure base m f.
Proof.
  unfold frame_procedure at 1. rewrite store_same, V, E. rewrite attach_extension_word; [exact P |].
  pose proof (wx_size _ _ _ _ _ (wf_blocks _ _ _ W x _ X)). lia.
Qed.

Lemma attach_parent : frame_parent base m' f = frame_parent base m f.
Proof.
  pose proof (wf_blocks _ _ _ W x _ X) as WX. pose proof (wx_size _ _ _ _ _ WX).
  unfold frame_parent at 1. rewrite store_same, E, attach_extension_word by lia.
  rewrite (wx_parent _ _ _ _ _ WX), P. unfold frame_parent, frame_procedure.
  destruct (VECTOR_P (m (f + 1))) eqn:V'; [| reflexivity].
  destruct (extension_block base W F V') as (k' & X' & WX'). symmetry. apply (wx_parent _ _ _ _ _ WX').
Qed.

Lemma attach_pairs : extension_pairs base m' f = extension_pairs base m f.
Proof.
  pose proof (wf_blocks _ _ _ W x _ X) as WX. pose proof (wx_size _ _ _ _ _ WX). pose proof (wx_length _ _ _ _ _ WX).
  unfold extension_pairs at 1, extension_length. rewrite store_same, V, E.
  rewrite attach_extension_word by lia. rewrite L, Nat2Z.id.
  apply nth_error_ext. intros i. rewrite nth_error_map.
  destruct (nth_error (extension_pairs base m f) i) as [p|] eqn:N.
  - assert (Hi : (i < length (extension_pairs base m f))%nat) by (apply nth_error_Some; congruence).
    rewrite nth_error_seq. destruct (Nat.ltb_spec i (length (extension_pairs base m f))); [| lia].
    cbn [option_map Nat.add]. f_equal. rewrite <- Z.add_assoc, attach_extension_word by lia.
    rewrite Z.add_assoc. exact (B i p N).
  - apply nth_error_None in N. rewrite nth_error_seq.
    destruct (Nat.ltb_spec i (length (extension_pairs base m f))); [lia | reflexivity].
Qed.

Lemma attach_values y : value_word blk y -> m' y = m y.
Proof.
  intros Vy. apply store_other. intros ->.
  apply (not_value base AP f _ 1 F); cbn [size]; [pose proof (wf_count _ _ _ _ _ (frame_wf base W F)); lia | lia | exact Vy].
Qed.

Lemma attach_old n' : blk f = Some (Frame_block n') ->
  frame_parent base m' f = frame_parent base m f /\ frame_procedure base m' f = frame_procedure base m f.
Proof. intros _. exact (conj attach_parent attach_procedure). Qed.

Lemma attach_keeps : keeps blk m m'.
Proof.
  apply (same_keeps AP W attach_but attach_part attach_old attach_values). intros _ _. exact attach_pairs.
Qed.

Lemma attach_frame : wf_frame base blk m' f n.
Proof.
  pose proof (frame_wf base W F) as [C Fn N A Nm Pn]. split.
  - exact C.
  - rewrite store_same, V, E. exists k. exact X.
  - rewrite (n_formals_of_procedure base AP W attach_but attach_part F attach_procedure). exact N.
  - intros i Hi. rewrite attach_values; [exact (A i Hi) |]. exact (argument_word _ _ _ _ F Hi).
  - rewrite (bindings_same base AP W attach_but attach_part attach_old
               (fun y Vy => values_unbound attach_values y Vy) f n true F attach_pairs). exact Nm.
  - rewrite attach_pairs. exact Pn.
Qed.

Lemma attach_wf : wf base blk m'.
Proof.
  apply (wf_same base AP W attach_but attach_part).
  - intros y Vy. rewrite (attach_values y Vy). exact (wf_value base W y Vy).
  - intros c C. rewrite (attach_values c (cache_word _ _ C)).
    rewrite (trap_kind_same base AP attach_but attach_part).
    + apply (wf_blocks _ _ _ W _ _ C).
    + exact (wf_value base W c (cache_word _ _ C)).
  - intros k' Hk. rewrite F in Hk. injection Hk as <-. exact attach_frame.
  - intros n' Hk. rewrite F in Hk. injection Hk as <-. split; [exact attach_frame |].
    intros g n' G Ng. rewrite store_same, E. split.
    + intros _ Vg Eq. exact (Fresh g n' G Ng Vg (eq_sym Eq)).
    + rewrite attach_pairs. intros p H1 H2. apply Ng. exact (wf_owners _ _ _ W g f n' n p G F H2 H1).
Qed.

End Attach.

(** ** Allocating an extension *)

Lemma allocate_run len procedure s :
  0 <= len -> len < 2 ^ 57 -> base <= Free s -> Free s + (4 + len) <= base + 2 ^ 58 ->
  addr procedure + 1 < Free s -> GC_NEEDED_P s (4 + len) = false ->
  exists s', allocate_frame_extension base len procedure s
             = Value (PRIM_DONE, Some (MAKE_POINTER_OBJECT base TC_VECTOR (Free s))) s'
    /\ Free s' = Free s + (4 + len)
    /\ (heap_start s' = heap_start s /\ heap_alloc_limit s' = heap_alloc_limit s /\ GC_ENABLED_P s' = GC_ENABLED_P s)
    /\ (forall x, x < Free s -> mem s' x = mem s x)
    /\ OBJECT_DATUM (mem s' (Free s)) = len + 3
    /\ mem s' (Free s + 1) = mem s (addr procedure + 1)
    /\ mem s' (Free s + 2) = procedure
    /\ UNSIGNED_FIXNUM_TO_LONG (mem s' (Free s + 3)) = 0.
Proof.
  intros H0 H1 H2 H3 H4 G. unfold allocate_frame_extension, GC_CHECK.
  rewrite !ulong_small by lia. rewrite bind_current, G, bind_current. unfold fill_vector.
  rewrite bind_update. act_unfold.
  destruct (pointer_parts base TC_VECTOR (Free s)) as [_ A]; [lia | lia |].
  act_steps. rewrite A.
  cbn [mem set_mem Free heap_start heap_alloc_limit GC_ENABLED_P].
  assert (Low : forall x, x < Free s ->
    fill (store (mem s) (Free s) (MAKE_OBJECT TC_FALSE (4 + len - 1))) (Free s + 1) (Z.to_nat (4 + len - 1)) 0 x = mem s x).
  { intros x Hx. rewrite fill_spec. destruct (Z.leb_spec (Free s + 1) x); [lia |]. cbn [andb]. apply store_other. lia. }
  eexists. split; [reflexivity |]. cbn [mem set_mem Free heap_start heap_alloc_limit GC_ENABLED_P].
  split; [lia |]. split; [auto |]. split; [| split; [| split; [| split]]].
  - intros x Hx. rewrite !store_other by lia. exact (Low x Hx).
  - rewrite !store_other by lia. rewrite fill_spec. destruct (Z.leb_spec (Free s + 1) (Free s)); [lia |].
    cbn [andb]. rewrite store_same. destruct (MAKE_OBJECT_parts TC_FALSE (4 + len - 1)) as [_ ->]; lia.
  - rewrite !store_other by lia. rewrite store_same. exact (Low _ H4).
  - rewrite store_other by lia. apply store_same.
  - rewrite store_same. apply unsigned_fixnum. lia.
Qed.

Lemma allocate_interrupt len procedure s :
  0 <= len -> len < 2 ^ 57 -> GC_NEEDED_P s (4 + len) = true ->
  allocate_frame_extension base len procedure s = Value (PRIM_INTERRUPT (4 + len), None) s.
Proof.
  intros H0 H1 G. unfold allocate_frame_extension, GC_CHECK. rewrite !ulong_small by lia.
  now rewrite bind_current, G.
Qed.


(** ** Room for one more binding *)

Record state (blk : Z -> option kind) (s : machine) : Prop := {
  st_apart : apart base blk (Free s);
  st_wf : wf base blk (mem s);
  st_above : base + 10 <= Free s
}.

Section Room.
Context {blk : Z -> option kind} {s : machine} {f n : Z}.
Hypothesis S : state blk s.
Hypothesis F : blk f = Some (Frame_block n).
Let AP : apart base blk (Free s) := st_apart blk s S.
Let W : wf base blk (mem s) := st_wf blk s S.
Notation pairs := (extension_pairs base (mem s) f).

(** A new extension, filled with the pairs of the old one, and put in place. *)
Lemma install m len :
  (forall x, x < Free s -> m x = mem s x) ->
  Free s + (len + 4) <= base + 2 ^ 58 -> 0 < len -> Z.of_nat (length pairs) <= len ->
  OBJECT_DATUM (m (Free s)) = len + 3 ->
  m (Free s + 1) = mem s (addr (frame_procedure base (mem s) f) + 1) ->
  m (Free s + 2) = frame_procedure base (mem s) f ->
  UNSIGNED_FIXNUM_TO_LONG (m (Free s + 3)) = Z.of_nat (length pairs) ->
  (forall i p, nth_error pairs i = Some p -> addr (m (Free s + 4 + Z.of_nat i)) = p) ->
  let e := MAKE_POINTER_OBJECT base TC_VECTOR (Free s) in
  let m' := store m (f + 1) e in
  let blk' := grow blk (Free s) (Extension_block len) in
  included blk blk' /\ apart base blk' (Free s + (len + 4)) /\ wf base blk' m' /\ keeps blk (mem s) m'
  /\ VECTOR_P (m' (f + 1)) = true /\ addr (m' (f + 1)) = Free s
  /\ extension_pairs base m' f = pairs /\ frame_bindings base m' f true = frame_bindings base (mem s) f true.
Proof.
  intros Low Top L0 Ln Hd Hp Hq Hc Hs e m' blk'. pose proof (st_above blk s S) as Ab.
  assert (Sz : 0 < size (Extension_block len)) by (cbn [size]; lia).
  assert (Inc : included blk blk') by exact (grow_included AP).
  destruct (pointer_parts base TC_VECTOR (Free s)) as [T A]; [lia | lia |]. fold e in T, A.
  assert (V : VECTOR_P e = true) by (unfold VECTOR_P; now rewrite T).
  pose proof (procedure_block base W F) as Pr.
  pose proof (ap_range _ _ _ AP _ _ Pr) as Prange. cbn [size] in Prange.
  assert (Pv : VECTOR_P (frame_procedure base (mem s) f) = false).
  { unfold frame_procedure. destruct (VECTOR_P (mem s (f + 1))) eqn:V'; [| exact V'].
    destruct (extension_block base W F V') as (k & _ & WX). apply (wx_procedure _ _ _ _ _ WX). }
  assert (WX : wf_extension base blk' m (Free s) len).
  { split.
    - auto.
    - rewrite Hc. lia.
    - rewrite Hq. split; [exact Pv | exact (Inc _ _ Pr)].
    - rewrite Hq, Hp. symmetry. apply Low. lia.
    - rewrite Hc. intros i Hi. assert (Hn : (Z.to_nat i < length pairs)%nat) by lia.
      apply nth_error_Some in Hn. destruct (nth_error pairs (Z.to_nat i)) as [p|] eqn:N; [| contradiction].
      specialize (Hs _ _ N). rewrite Z2Nat.id in Hs by lia. rewrite Hs.
      apply Inc. exact (pair_block base W F p (nth_error_In _ _ N)). }
  pose proof (grow_wf (k := Extension_block len) AP W Low Sz I WX) as W1.
  pose proof (grow_apart AP ltac:(lia) Sz I) as AP1. fold blk' in W1, AP1. cbn [size] in AP1.
  pose proof (grow_keeps AP W Low) as K1.
  pose proof (Inc _ _ F) as F1. pose proof (grow_new (blk := blk) (free := Free s) (k := Extension_block len)) as X1.
  fold blk' in X1.
  assert (Same : same_structure blk (mem s) m) by exact (old_structure AP Low).
  assert (Pairs : extension_pairs base m f = pairs).
  { apply (extension_pairs_same base AP W (same_but_none Same) (no_part base AP base_positive) F).
    intros ->. rewrite (no_block base AP base_positive) in F. discriminate. }
  assert (Proc : frame_procedure base m f = frame_procedure base (mem s) f).
  { apply (frame_procedure_same base AP W (same_but_none Same) (no_part base AP base_positive) F).
    intros ->. rewrite (no_block base AP base_positive) in F. discriminate. }
  assert (Bind : frame_bindings base m f true = frame_bindings base (mem s) f true).
  { apply (all_bindings_same base AP W (same_but_none Same) (no_part base AP base_positive) F).
    intros ->. rewrite (no_block base AP base_positive) in F. discriminate. }
  assert (Q : m (Free s + 2) = frame_procedure base m f) by (rewrite Proc; exact Hq).
  assert (C : UNSIGNED_FIXNUM_TO_LONG (m (Free s + 3)) = Z.of_nat (length (extension_pairs base m f)))
    by (rewrite Pairs; exact Hc).
  assert (B : forall i p, nth_error (extension_pairs base m f) i = Some p -> addr (m (Free s + 4 + Z.of_nat i)) = p)
    by (rewrite Pairs; exact Hs).
  assert (Fresh : forall g n', blk' g = Some (Frame_block n') -> g <> f -> VECTOR_P (m (g + 1)) = true ->
            addr (m (g + 1)) <> Free s).
  { intros g n' G _ Vg Eq. apply (grow_inv Sz I) in G as [[_ G] | [_ G]]; [discriminate |].
    pose proof (ap_range _ _ _ AP _ _ G) as R. cbn [size] in R.
    pose proof (wf_count _ _ _ _ _ (frame_wf base W G)).
    rewrite Low in Vg, Eq by lia. destruct (extension_block base W G Vg) as (k & Xg & _).
    rewrite Eq in Xg. rewrite (new_free AP) in Xg. discriminate. }
  split; [exact Inc |]. split; [exact AP1 |].
  split; [exact (attach_wf AP1 W1 F1 V X1 A Q C B Fresh) |].
  split; [exact (keeps_trans _ _ _ _ _ Inc K1 (attach_keeps AP1 W1 F1 V X1 A Q C B Fresh)) |].
  unfold m'. rewrite store_same. split; [exact V |]. split; [exact A |].
  rewrite (attach_pairs AP1 W1 F1 V X1 A Q C B Fresh). split; [exact Pairs |].
  rewrite <- Bind.
  exact (bindings_same base AP1 W1 (attach_but AP1 W1 F1) (attach_part F1)
           (attach_old AP1 W1 F1 V X1 A Q C B Fresh) (fun y Vy => values_unbound (attach_values AP1 W1 F1) y Vy)
           f n true F1 (attach_pairs AP1 W1 F1 V X1 A Q C B Fresh)).
Qed.


(** What there is after room has been made. *)
Definition roomy (blk' : Z -> option kind) (s' : machine) : Prop :=
  included blk blk' /\ state blk' s' /\ keeps blk (mem s) (mem s')
  /\ VECTOR_P (mem s' (f + 1)) = true
  /\ (exists k, blk' (addr (mem s' (f + 1))) = Some (Extension_block k) /\ extension_length base (mem s') f < k)
  /\ extension_pairs base (mem s') f = pairs
  /\ frame_bindings base (mem s') f true = frame_bindings base (mem s) f true
  /\ Free s <= Free s' <= Free s + 2 * (Free s - base) + 20
  /\ (forall x, x < Free s -> x <> f + 1 -> mem s' x = mem s x)
  /\ heap_start s' = heap_start s /\ heap_alloc_limit s' = heap_alloc_limit s /\ GC_ENABLED_P s' = GC_ENABLED_P s.

Lemma pairs_length : VECTOR_P (mem s (f + 1)) = true -> Z.of_nat (length pairs) = extension_length base (mem s) f.
Proof.
  intros V. destruct (extension_block base W F V) as (k & _ & WX). pose proof (wx_length _ _ _ _ _ WX).
  unfold extension_pairs. rewrite V, length_map, length_seq. apply Z2Nat.id. unfold extension_length. lia.
Qed.

Lemma pairs_nth i p : nth_error pairs i = Some p ->
  VECTOR_P (mem s (f + 1)) = true /\ Z.of_nat i < extension_length base (mem s) f
  /\ addr (mem s (addr (mem s (f + 1)) + 4 + Z.of_nat i)) = p.
Proof.
  intros N. destruct (VECTOR_P (mem s (f + 1))) eqn:V.
  - assert (Hi : (i < length pairs)%nat) by (apply nth_error_Some; congruence).
    pose proof (pairs_length V). split; [reflexivity |]. split; [lia |].
    unfold extension_pairs in N. rewrite V, nth_error_map, nth_error_seq in N.
    destruct (Nat.ltb i _); [| discriminate]. injection N as N. exact N.
  - unfold extension_pairs in N. rewrite V in N. destruct i; discriminate.
Qed.

Hypothesis Space : 4 * (Free s - base) + 100 <= 2 ^ 57.

(** The old frame has no more pairs than a new extension of [len]. *)
Lemma fresh_room len s1 m :
  (forall x, x < Free s -> m x = mem s x) ->
  Free s1 = Free s + (4 + len) -> heap_start s1 = heap_start s -> heap_alloc_limit s1 = heap_alloc_limit s ->
  GC_ENABLED_P s1 = GC_ENABLED_P s -> 0 < len -> len <= 2 * (Free s - base) + 16 -> Z.of_nat (length pairs) < len ->
  OBJECT_DATUM (m (Free s)) = len + 3 ->
  m (Free s + 1) = mem s (addr (frame_procedure base (mem s) f) + 1) ->
  m (Free s + 2) = frame_procedure base (mem s) f ->
  UNSIGNED_FIXNUM_TO_LONG (m (Free s + 3)) = Z.of_nat (length pairs) ->
  (forall i p, nth_error pairs i = Some p -> addr (m (Free s + 4 + Z.of_nat i)) = p) ->
  mem s1 = store m (f + 1) (MAKE_POINTER_OBJECT base TC_VECTOR (Free s)) ->
  roomy (grow blk (Free s) (Extension_block len)) s1.
Proof.
  intros Low Fr H1 H2 H3 L0 L1 Ln Hd Hp Hq Hc Hs Em. pose proof (st_above blk s S) as Ab.
  destruct (install m len Low) as (Inc & AP1 & W1 & K & V & A & Pn & Bn); try assumption; try lia.
  rewrite <- Em in *. unfold roomy. split; [exact Inc |]. split.
  { split; [rewrite Fr; replace (4 + len) with (len + 4) by lia; exact AP1 | exact W1 | lia]. }
  split; [exact K |]. split; [exact V |]. split.
  { exists len. rewrite A. split; [apply grow_new |]. unfold extension_length. rewrite A.
    rewrite Em, store_other; [lia |]. pose proof (ap_range _ _ _ AP _ _ F) as R. cbn [size] in R.
    pose proof (wf_count _ _ _ _ _ (frame_wf base W F)). lia. }
  split; [exact Pn |]. split; [exact Bn |]. split; [lia |]. split; [| auto].
  intros x Hx N. rewrite Em, store_other by exact N. exact (Low x Hx).
Qed.

Lemma frame_below : f + 1 < Free s.
Proof.
  pose proof (ap_range _ _ _ AP _ _ F) as R. cbn [size] in R. pose proof (wf_count _ _ _ _ _ (frame_wf base W F)). lia.
Qed.

Lemma procedure_below : addr (frame_procedure base (mem s) f) + 1 < Free s.
Proof. pose proof (ap_range _ _ _ AP _ _ (procedure_block base W F)) as R. cbn [size] in R. lia. Qed.

Section Kinds.
Variable e : Z.
Hypothesis Ef : addr e = f.

(** The first extension of a frame. *)
Lemma first_run : VECTOR_P (mem s (f + 1)) = false ->
  if GC_NEEDED_P s (4 + 16) then guarantee_extension_space base e s = Value (PRIM_INTERRUPT (4 + 16), None) s
  else exists blk' s', guarantee_extension_space base e s = Value (PRIM_DONE, None) s' /\ roomy blk' s'.
Proof.
  intros V. pose proof (st_above blk s S) as Ab. pose proof procedure_below.
  assert (Fp : mem s (f + 1) = frame_procedure base (mem s) f) by (unfold frame_procedure; now rewrite V).
  assert (P0 : pairs = []) by (unfold extension_pairs; now rewrite V).
  unfold guarantee_extension_space. act_unfold. act_steps. rewrite Ef, V. cbn iota. act_steps. rewrite Ef, Fp.
  unfold RETURN_IF_ERROR. destruct (GC_NEEDED_P s (4 + 16)) eqn:G.
  - rewrite (bind_value _ _ _ _ _ _ _ (allocate_interrupt 16 _ s ltac:(lia) ltac:(lia) G)). reflexivity.
  - destruct (allocate_run 16 (frame_procedure base (mem s) f) s)
      as (s1 & Run & F1 & (H1 & H2 & H3) & Low & Hd & Hp & Hq & Hc); try lia; [exact G |].
    rewrite (bind_value _ _ _ _ _ _ _ Run). cbn beta iota. act_steps. rewrite ?Ef.
    do 2 eexists. split; [reflexivity |].
    eapply (fresh_room 16); [exact Low | exact F1 | exact H1 | exact H2 | exact H3 | lia | lia | | exact Hd | exact Hp | exact Hq | | | reflexivity].
    + rewrite P0. reflexivity.
    + rewrite P0. exact Hc.
    + intros i p. rewrite P0. destruct i; discriminate.
Qed.

(** A full extension is replaced by one of twice the length. *)
Lemma enlarge_run k : VECTOR_P (mem s (f + 1)) = true ->
  blk (addr (mem s (f + 1))) = Some (Extension_block k) -> extension_length base (mem s) f = k ->
  if GC_NEEDED_P s (4 + 2 * k) then guarantee_extension_space base e s = Value (PRIM_INTERRUPT (4 + 2 * k), None) s
  else exists blk' s', guarantee_extension_space base e s = Value (PRIM_DONE, None) s' /\ roomy blk' s'.
Proof.
  intros V X Full. pose proof (st_above blk s S) as Ab. pose proof procedure_below. pose proof frame_below as R1.
  pose proof (wf_blocks _ _ _ W _ _ X) as WX.
  pose proof (pairs_length V) as PL. rewrite Full in PL.
  assert (Fp : mem s (addr (mem s (f + 1)) + 2) = frame_procedure base (mem s) f) by (unfold frame_procedure; rewrite V; reflexivity).
  unfold extension_length in Full. set (x := addr (mem s (f + 1))) in *.
  pose proof (wx_size _ _ _ _ _ WX) as [Sz K0]. pose proof (ap_range _ _ _ AP _ _ X) as Xr. cbn [size] in Xr.
  unfold guarantee_extension_space. act_unfold. act_steps. rewrite Ef, V. cbn iota. act_steps. rewrite Ef. fold x.
  rewrite Sz, Full, (ulong_small (k + 3 - (4 - 1))), (ulong_small (2 * k)) by lia.
  replace (k + 3 - (4 - 1)) with k by lia. rewrite Z.eqb_refl. act_steps. rewrite Ef. fold x. rewrite Fp.
  unfold RETURN_IF_ERROR. destruct (GC_NEEDED_P s (4 + 2 * k)) eqn:G.
  { rewrite (bind_value _ _ _ _ _ _ _ (allocate_interrupt (2 * k) _ s ltac:(lia) ltac:(lia) G)). reflexivity. }
  destruct (allocate_run (2 * k) (frame_procedure base (mem s) f) s)
    as (s1 & Run & F1 & (H1 & H2 & H3) & Low & Hd & Hp & Hq & Hc); try lia; [exact G |].
  rewrite (bind_value _ _ _ _ _ _ _ Run). cbn beta iota. act_steps.
  destruct (pointer_parts base TC_VECTOR (Free s)) as [_ A]; [lia | lia |].
  unfold memcpy. act_steps. rewrite A, ?Ef, (Low (f + 1)) by lia. fold x.
  do 2 eexists. split; [reflexivity |].
  eapply (fresh_room (2 * k)); [| | | | | | | | | | | | | reflexivity]; cbn [mem set_mem Free]; try lia; try assumption.
  - intros y Hy. rewrite store_other by lia. destruct (Z.leb_spec (Free s + 4) y); [lia |]. cbn [andb]. apply Low. lia.
  - rewrite store_other by lia. destruct (Z.leb_spec (Free s + 4) (Free s)); [lia | exact Hd].
  - rewrite store_other by lia. destruct (Z.leb_spec (Free s + 4) (Free s + 1)); [lia | exact Hp].
  - rewrite store_other by lia. destruct (Z.leb_spec (Free s + 4) (Free s + 2)); [lia | exact Hq].
  - rewrite store_same, unsigned_fixnum by lia. lia.
  - intros i p N. destruct (pairs_nth i p N) as (_ & Hi & Ep). unfold extension_length in Hi. fold x in Hi, Ep.
    rewrite store_other by lia.
    destruct (Z.leb_spec (Free s + 4) (Free s + 4 + Z.of_nat i)); [| lia].
    destruct (Z.ltb_spec (Free s + 4 + Z.of_nat i) (Free s + 4 + k)); [| lia]. cbn [andb].
    replace (Free s + 4 + Z.of_nat i - (Free s + 4) + (x + 4)) with (x + 4 + Z.of_nat i) by lia.
    rewrite Low by lia. exact Ep.
Qed.

Lemma room_already k : VECTOR_P (mem s (f + 1)) = true ->
  blk (addr (mem s (f + 1))) = Some (Extension_block k) -> extension_length base (mem s) f < k ->
  guarantee_extension_space base e s = Value (PRIM_DONE, None) s /\ roomy blk s.
Proof.
  intros V X L. pose proof (wx_size _ _ _ _ _ (wf_blocks _ _ _ W _ _ X)) as [Sz K0].
  pose proof (ap_range _ _ _ AP _ _ X) as Xr. cbn [size] in Xr. split.
  - unfold guarantee_extension_space. act_unfold. act_steps. rewrite Ef, V. cbn iota. act_steps. rewrite Ef.
    rewrite Sz, (ulong_small (k + 3 - (4 - 1))) by (pose proof (st_above blk s S); lia).
    unfold extension_length in L.
    destruct (Z.eqb_spec (UNSIGNED_FIXNUM_TO_LONG (mem s (addr (mem s (f + 1)) + 3))) (k + 3 - (4 - 1))); [lia | reflexivity].
  - pose proof (st_above blk s S). split; [intros a k' H'; exact H' |].
    split; [exact S |]. split; [apply keeps_refl |]. split; [exact V |].
    split; [exists k; split; [exact X | exact L] |]. repeat split; auto; lia.
Qed.

(** Either there is room now, or the collector is asked for it. *)
Lemma guarantee_run :
  (exists k, guarantee_extension_space base e s = Value (PRIM_INTERRUPT k, None) s
   /\ 0 <= k <= 2 * (Free s - base) + 20 /\ GC_NEEDED_P s k = true)
  \/ exists blk' s', guarantee_extension_space base e s = Value (PRIM_DONE, None) s' /\ roomy blk' s'.
Proof.
  pose proof (st_above blk s S) as Ab. destruct (VECTOR_P (mem s (f + 1))) eqn:V.
  - destruct (extension_block base W F V) as (k & X & WX). pose proof (wx_size _ _ _ _ _ WX) as [Sz K0].
    pose proof (wx_length _ _ _ _ _ WX) as Ln. pose proof (ap_range _ _ _ AP _ _ X) as Xr. cbn [size] in Xr.
    destruct (Z.eq_dec (extension_length base (mem s) f) k) as [Full | NF].
    + pose proof (enlarge_run k V X Full) as R. destruct (GC_NEEDED_P s (4 + 2 * k)) eqn:G; [left | right; exact R].
      exists (4 + 2 * k). split; [exact R |]. split; [lia | exact G].
    + right. exists blk, s. apply (room_already k V X). unfold extension_length in *. lia.
  - pose proof (first_run V) as R. destruct (GC_NEEDED_P s (4 + 16)) eqn:G; [left | right; exact R].
    exists (4 + 16). split; [exact R |]. split; [lia | exact G].
Qed.

End Kinds.
End Room.
End Define.

(** ** A new pair in an extension (for Environment.v) *)

#[local] Opaque MAKE_OBJECT OBJECT_DATUM OBJECT_TYPE OBJECT_ADDRESS.

Section Bind.
Variable base : Z.
Hypothesis base_positive : 0 < base.
Variable fuel : nat.
Notation addr := (OBJECT_ADDRESS base).
Notation variable_location := (variable_location base).

(** [symbol] is a new variable of the frame at [f], with location [l], that
    means what [r] says; the other variables are as they were. *)
Definition defined (blk : Z -> option kind) (m m' : memory) (f symbol l : Z) (r : res) : Prop :=
  forall e fs last y,
    env_ok base blk e -> symbol_ok base blk y -> environment base fuel m e fs last ->
    environment base fuel m' e fs last
    /\ if (y =? symbol) && sees base m f symbol fs
       then variable_location m' y fs last = Some l /\ meaning base m' y fs last = r
       else variable_location m' y fs last = variable_location m y fs last
            /\ meaning base m' y fs last = meaning base m y fs last.

(** Where the value of a cell is after [v] has been stored in it, and what a
    reference gives then. *)
Definition stored_location (m : memory) (c v : Z) : Z :=
  if trap_kind base m v =? TRAP_COMPILER_CACHED then addr (m (addr v + 1)) else c.
Definition stored_result (m : memory) (v : Z) : res :=
  value_result base m (if trap_kind base m v =? TRAP_COMPILER_CACHED then m (addr (m (addr v + 1))) else v).

Section Pair.
Context {blk : Z -> option kind} {free : Z} {m : memory} {f n x k p symbol w : Z}.
Hypothesis AP : apart base blk free.
Hypothesis W : wf base blk m.
Hypothesis F : blk f = Some (Frame_block n).
Hypothesis V : VECTOR_P (m (f + 1)) = true.
Hypothesis X : blk (addr (m (f + 1))) = Some (Extension_block k).
Hypothesis Ex : addr (m (f + 1)) = x.
Hypothesis B : blk p = Some Binding_block.
Hypothesis Name : m p = symbol.
Hypothesis Own : forall g n', blk g = Some (Frame_block n') -> ~ In p (extension_pairs base m g).
Hypothesis None_yet : assoc symbol (frame_bindings base m f true) = None.
Hypothesis A : addr w = p.
Notation len := (extension_length base m f).
Hypothesis Room : len < k.
Hypothesis Small : k < 2 ^ 57 - 1.
Notation m' := (store (store m (x + 4 + len) w) (x + 3) (LONG_TO_UNSIGNED_FIXNUM (len + 1))).

Lemma pair_x : blk x = Some (Extension_block k).
Proof. rewrite <- Ex. exact X. Qed.

Lemma pair_extension : wf_extension base blk m x k.
Proof. exact (wf_blocks _ _ _ W _ _ pair_x). Qed.

Lemma pair_len : 0 <= len /\ len = UNSIGNED_FIXNUM_TO_LONG (m (x + 3)).
Proof.
  pose proof (wx_length _ _ _ _ _ pair_extension). unfold extension_length. rewrite Ex. lia.
Qed.

Lemma pair_other y : y <> x + 3 -> y <> x + 4 + len -> m' y = m y.
Proof. intros N1 N2. now rewrite !store_other by assumption. Qed.

Lemma pair_word a k' i : blk a = Some k' -> a <> x -> 0 <= i < size k' -> m' (a + i) = m (a + i).
Proof.
  intros Ha Na Hi. pose proof pair_len. apply pair_other; intros Eq; apply Na.
  - apply (word_inj base blk free a x k' (Extension_block k) i 3 AP Ha pair_x Hi); cbn [size]; lia.
  - apply (word_inj base blk free a x k' (Extension_block k) i (4 + len) AP Ha pair_x Hi); cbn [size]; lia.
Qed.

Lemma pair_but : same_but blk x m m'.
Proof. intros a k' i Ha _ Na Hi _. exact (pair_word a k' i Ha Na Hi). Qed.

Lemma pair_part : part_of base blk m x f.
Proof. intros k' Hk. rewrite pair_x in Hk. injection Hk as <-. exists n. auto. Qed.

Lemma pair_not_frame : f <> x.
Proof. intros E. pose proof pair_x as X'. rewrite <- E, F in X'. discriminate. Qed.

Lemma pair_function : m' (f + 1) = m (f + 1).
Proof.
  apply (pair_word f _ 1 F pair_not_frame). cbn [size]. pose proof (wf_count _ _ _ _ _ (frame_wf base W F)). lia.
Qed.

Lemma pair_values y : value_word blk y -> m' y = m y.
Proof.
  intros Vy. pose proof pair_len. apply pair_other; intros ->.
  - apply (not_value base AP x _ 3 pair_x); [cbn [size]; lia | exact I | exact Vy].
  - rewrite <- Z.add_assoc in Vy. apply (not_value base AP x _ (4 + len) pair_x); [cbn [size]; lia | exact I | exact Vy].
Qed.

Lemma pair_old n' : blk f = Some (Frame_block n') ->
  frame_parent base m' f = frame_parent base m f /\ frame_procedure base m' f = frame_procedure base m f.
Proof.
  intros _. pose proof pair_len. unfold frame_parent, frame_procedure. rewrite pair_function, V, Ex.
  split; apply pair_other; lia.
Qed.

Lemma pair_count : UNSIGNED_FIXNUM_TO_LONG (m' (x + 3)) = len + 1.
Proof. pose proof pair_len. rewrite store_same. apply unsigned_fixnum. lia. Qed.

Lemma pair_pairs : extension_pairs base m' f = extension_pairs base m f ++ [p].
Proof.
  pose proof pair_len. assert (E : extension_length base m' f = len + 1).
  { unfold extension_length at 1. now rewrite pair_function, Ex, pair_count. }
  unfold extension_pairs. rewrite E, pair_function, V, Ex.
  replace (Z.to_nat (len + 1)) with (Z.to_nat len + 1)%nat by lia. rewrite seq_app, map_app. f_equal.
  - apply map_ext_in. intros i Hi. apply in_seq in Hi. f_equal. apply pair_other; lia.
  - cbn [seq map Nat.add]. rewrite Z2Nat.id by lia. rewrite store_other by lia. rewrite store_same, A. reflexivity.
Qed.

Lemma pair_bindings u : frame_bindings base m' f u
  = map (fun q => (m q, q + 1)) (extension_pairs base m f) ++ (symbol, p + 1) :: filter (visible m u) (parameters base m f).
Proof.
  unfold frame_bindings. rewrite pair_pairs, map_app.
  rewrite (visible_parameters base AP W pair_but pair_part pair_old
             (fun y Vy => values_unbound pair_values y Vy) f n u F).
  rewrite <- app_assoc. f_equal.
  - apply map_ext_in. intros q Hq. f_equal. pose proof (pair_block base W F q Hq) as Bq.
    pose proof (pair_word q _ 0 Bq (other_block base pair_part _ _ Bq I)) as H. rewrite Z.add_0_r in H.
    apply H. cbn [size]. lia.
  - cbn [map app]. f_equal. f_equal.
    pose proof (pair_word p _ 0 B (other_block base pair_part _ _ B I)) as H. rewrite Z.add_0_r in H.
    rewrite H by (cbn [size]; lia). exact Name.
Qed.

Lemma pair_assoc y :
  assoc y (frame_bindings base m' f false)
  = if y =? symbol then Some (p + 1) else assoc y (frame_bindings base m f false).
Proof.
  rewrite pair_bindings. unfold frame_bindings. rewrite !assoc_app. cbn [assoc].
  apply assoc_None in None_yet. unfold frame_bindings in None_yet. rewrite map_app, in_app_iff in None_yet.
  rewrite (Z.eqb_sym y). destruct (Z.eqb_spec symbol y) as [<- |]; [| reflexivity].
  destruct (assoc symbol _) eqn:E; [| reflexivity]. apply assoc_In in E. destruct None_yet. left.
  now apply (in_map fst) in E.
Qed.

Lemma pair_frame : wf_frame base blk m' f n.
Proof.
  pose proof (frame_wf base W F) as [C Fn N Ar Nm Pn]. pose proof pair_x as X'. split.
  - exact C.
  - rewrite pair_function, V. exists k. exact X.
  - rewrite (n_formals_of_procedure base AP W pair_but pair_part F); [exact N | apply (pair_old n F)].
  - intros i Hi. rewrite pair_values; [exact (Ar i Hi) |]. exact (argument_word _ _ _ _ F Hi).
  - rewrite pair_bindings, map_app. cbn [map fst].
    apply (Permutation_NoDup (Permutation_middle _ _ symbol)). constructor.
    + rewrite <- map_app. apply assoc_None. exact None_yet.
    + rewrite <- map_app. exact Nm.
  - rewrite pair_pairs. apply (Permutation_NoDup (Permutation_cons_append _ p)). constructor; [exact (Own f n F) | exact Pn].
Qed.

Lemma pair_wf : wf base blk m'.
Proof.
  apply (wf_same base AP W pair_but pair_part).
  - intros y Vy. rewrite (pair_values y Vy). exact (wf_value base W y Vy).
  - intros c C. rewrite (pair_values c (cache_word _ _ C)).
    rewrite (trap_kind_same base AP pair_but pair_part).
    + apply (wf_blocks _ _ _ W _ _ C).
    + exact (wf_value base W c (cache_word _ _ C)).
  - intros k' Hk. rewrite pair_x in Hk. injection Hk as <-. pose proof pair_extension as [Sz L [P P1] E Bs].
    pose proof pair_len as [L0 L1]. split; rewrite ?pair_count.
    + rewrite pair_other by lia. exact Sz.
    + lia.
    + rewrite pair_other by lia. auto.
    + rewrite !(pair_other (x + _)) by lia. rewrite E. symmetry.
      apply (pair_word _ _ 1 P1 (other_block base pair_part _ _ P1 I)). cbn [size]. lia.
    + intros i Hi. destruct (Z.eq_dec i len) as [-> | Ni].
      * rewrite store_other by lia. rewrite store_same, A. exact B.
      * rewrite pair_other by lia. apply Bs. lia.
  - intros n' Hk. rewrite F in Hk. injection Hk as <-. split; [exact pair_frame |].
    intros g n' G Ng. rewrite pair_function. split.
    + intros Vf Vg Eq. apply Ng. symmetry. exact (wf_extensions _ _ _ W f g n n' F G Vf Vg Eq).
    + rewrite pair_pairs. intros q [H | [<- | []]]%in_app_or.
      * intros H'. apply Ng. exact (wf_owners _ _ _ W g f n' n q G F H' H).
      * exact (Own g n' G).
Qed.

(** What a search finds then. *)
Lemma pair_search e fs last y : env_ok base blk e -> chain base m e fs last ->
  variable_cell base m' y fs last
  = if (y =? symbol) && sees base m f symbol fs then Some (p + 1) else variable_cell base m y fs last.
Proof.
  intros K H. unfold variable_cell. induction H as [e P | e fs last P N C IH]; cbn [search sees]; [now rewrite andb_false_r |].
  destruct (K P) as (n' & G). specialize (IH (parent_ok base W _ _ G)).
  destruct (Z.eqb_spec (addr e) f) as [E | No]; cbn [orb].
  - rewrite E, pair_assoc, andb_true_r. destruct (Z.eqb_spec y symbol) as [-> |]; [reflexivity |].
    destruct (assoc y (frame_bindings base m f false)); [reflexivity |]. exact IH.
  - rewrite (other_bindings base AP W pair_but pair_part pair_old
               (fun y Vy => values_unbound pair_values y Vy) _ _ false G No).
    destruct (Z.eqb_spec y symbol) as [-> | Ny]; cbn [andb] in *.
    + destruct (assoc symbol (frame_bindings base m (addr e) false)); [reflexivity | exact IH].
    + destruct (assoc y (frame_bindings base m (addr e) false)); [reflexivity | exact IH].
Qed.

Lemma pair_kind v : value_ok base blk v -> trap_kind base m' v = trap_kind base m v.
Proof. exact (trap_kind_same base AP pair_but pair_part v). Qed.

Lemma pair_defined : defined blk m m' f symbol (stored_location m (p + 1) (m (p + 1))) (stored_result m (m (p + 1))).
Proof.
  intros e fs last y K Y [C Fu].
  split; [split; [exact (chain_same base AP W pair_but pair_part pair_old e fs last K C) | exact Fu] |].
  unfold EnvAssign.variable_location, meaning. rewrite (pair_search e fs last y K C).
  assert (PV : value_word blk (p + 1)) by now constructor.
  destruct ((y =? symbol) && sees base m f symbol fs); cbn [option_map cell_result].
  - rewrite (same_result base AP W pair_but pair_part pair_values _ PV).
    rewrite (same_location base AP W pair_but pair_part pair_values _ PV). split; [reflexivity |].
    unfold stored_result, location. now destruct (_ =? 14).
  - pose proof (search_cell base W y e fs last) as HC.
    destruct (variable_cell base m y fs last) as [c|]; cbn [option_map cell_result]; [| auto].
    specialize (HC c K C Y eq_refl).
    now rewrite (same_result base AP W pair_but pair_part pair_values c HC),
                (same_location base AP W pair_but pair_part pair_values c HC).
Qed.

End Pair.
End Bind.
