(* ===== verification/EnvCache.v ===== *)
(** * Caches (for Environment.v)

    [guarantee_cache] moves the value of a cell to a new cache; the variables
    that had the cell as their location have the cache afterwards, and mean
    the same. *)

From Stdlib Require Import ZArith List Lia Bool.
From S2P Require Import Prelude.
From S2P Require Import Object.
From S2P Require Import Memory.
From S2P Require Import Heap.
From S2P Require Import Symbol.
From S2P Require Import Environment.
From S2P Require Import EnvSpec.
From S2P Require Import EnvInv.
From S2P Require Import EnvAssign.
From S2P Require Import EnvDefine.
Import ListNotations.

#[local] Opaque MAKE_OBJECT OBJECT_DATUM OBJECT_TYPE OBJECT_ADDRESS.

Section Cache.
Variable base : Z.
Hypothesis base_positive : 0 < base.
Variable fuel : nat.
Notation addr := (OBJECT_ADDRESS base).
Notation variable_location := (variable_location base).
Notation keeps := (keeps base fuel).

(** The variables at [c] are at [l] now; what they mean has not changed. *)
Definition moved (blk : Z -> option kind) (m m' : memory) (c l : Z) : Prop :=
  forall e fs last y,
    env_ok base blk e -> symbol_ok base blk y -> environment base fuel m e fs last ->
    environment base fuel m' e fs last
    /\ search base m' y fs last = search base m y fs last
    /\ variable_location m' y fs last = option_map (fun x => if x =? c then l else x) (variable_location m y fs last)
    /\ meaning base m' y fs last = meaning base m y fs last.

Lemma moved_after_keeps blk blk' m m' m'' c l :
  included blk blk' -> keeps blk m m' -> moved blk' m' m'' c l -> moved blk m m'' c l.
Proof.
  intros I H1 H2 e fs last y K Y C. destruct (H1 e fs last y K Y C) as (C1 & S1 & _ & L1 & M1).
  destruct (H2 e fs last y (env_ok_included base _ _ _ I K) (I _ _ Y) C1) as (C2 & S2 & L2 & M2).
  split; [exact C2 |]. rewrite S2, L2, M2, S1, L1, M1. auto.
Qed.

Lemma value_word_below blk free x : apart base blk free -> (forall f n, blk f = Some (Frame_block n) -> 0 <= n) ->
  value_word blk x -> base <= x < free.
Proof.
  intros AP N [f n i F Hi | b B | y Y | c C]; [pose proof (ap_range _ _ _ AP _ _ F) | pose proof (ap_range _ _ _ AP _ _ B)
    | pose proof (ap_range _ _ _ AP _ _ Y) | pose proof (ap_range _ _ _ AP _ _ C)]; cbn [size] in *; lia.
Qed.

(** ** A trap of a cache put in a cell *)

Section Trap.
Context {blk : Z -> option kind} {free : Z} {m : memory} {cell t c : Z}.
Hypothesis AP : apart base blk free.
Hypothesis W : wf base blk m.
Hypothesis VC : value_word blk cell.
Hypothesis NC : blk cell <> Some Cache_block.
Hypothesis Plain : trap_kind base m (m cell) <> TRAP_COMPILER_CACHED.
Hypothesis Seen : argument blk cell -> m cell <> UNBOUND_OBJECT.
Hypothesis Vt : value_ok base blk t.
Hypothesis Kt : trap_kind base m t = TRAP_COMPILER_CACHED.
Hypothesis Ct : addr (m (addr t + 1)) = c.
Hypothesis Same : m c = m cell.
Notation m' := (store m cell t).

Lemma trap_unbound x : argument blk x -> m' x = UNBOUND_OBJECT <-> m x = UNBOUND_OBJECT.
Proof.
  intros Ax. unfold store. destruct (Z.eqb_spec x cell) as [-> |]; [| reflexivity].
  split; [intros E | intros E; now destruct (Seen Ax)]. rewrite E in Kt. discriminate.
Qed.

Lemma trap_wf : wf base blk m'.
Proof. apply (store_wf base base_positive AP W VC Vt). now right. Qed.

Lemma trap_word : m' (addr t + 1) = m (addr t + 1).
Proof.
  destruct (cached_trap base W _ Vt Kt) as [T _].
  apply store_other. intros E. rewrite <- E in VC. apply (not_value base AP _ _ 1 T); [cbn [size]; lia | exact I | exact VC].
Qed.

Lemma trap_c : blk c = Some Cache_block.
Proof. destruct (cached_trap base W _ Vt Kt) as [_ C]. now rewrite Ct in C. Qed.

(** No other location is the cell. *)
Lemma trap_location x : value_word blk x ->
  location base m' x = if location base m x =? cell then c else location base m x.
Proof.
  intros Vx. unfold location at 1. rewrite (store_kind base base_positive AP VC).
  2: exact (store_value base W Vt x Vx).
  unfold store at 1. destruct (Z.eqb_spec x cell) as [-> | Nx].
  - rewrite Kt. cbn [Z.eqb Pos.eqb]. rewrite store_same, trap_word, Ct.
    unfold location. destruct (Z.eqb_spec (trap_kind base m (m cell)) 14); [contradiction |]. now rewrite Z.eqb_refl.
  - unfold location. destruct (Z.eqb_spec (trap_kind base m (m x)) 14) as [K |].
    + destruct (cached_trap base W _ (wf_value base W x Vx) K) as [T C].
      destruct (Z.eqb_spec (addr (m (addr (m x) + 1))) cell) as [E | N]; [now rewrite E in C |].
      rewrite (store_other _ _ _ x) by exact Nx. f_equal. apply store_other. intros E. rewrite <- E in VC.
      apply (not_value base AP _ _ 1 T); [cbn [size]; lia | exact I | exact VC].
    + destruct (Z.eqb_spec x cell); [contradiction | reflexivity].
Qed.

Lemma trap_moved : moved blk m m' cell c.
Proof.
  intros e fs last y K Y [C F].
  pose proof (store_structure (v := t) VC : same_structure blk m m') as SS.
  split; [split; [exact (values_chain base AP base_positive W SS e fs last K C) | exact F] |].
  pose proof (values_search base AP base_positive W SS e fs last y trap_unbound K C) as S.
  unfold EnvAssign.variable_location, meaning, variable_cell. rewrite S. split; [reflexivity |].
  pose proof (search_cell base W y e fs last) as HC. unfold variable_cell in HC.
  destruct (fst (search base m y fs last)) as [x|]; cbn [option_map cell_result]; [| auto].
  specialize (HC x K C Y eq_refl). rewrite (trap_location x HC). split; [reflexivity |].
  pose proof (location_value base W x HC) as VL.
  assert (E : m' (if location base m x =? cell then c else location base m x) = m (location base m x)).
  { destruct (Z.eqb_spec (location base m x) cell) as [-> | N]; [| now apply store_other].
    rewrite store_other; [exact Same |]. intros E. rewrite <- E in NC. exact (NC trap_c). }
  rewrite E. apply value_result_same, (store_kind base base_positive AP VC). exact (wf_value base W _ VL).
Qed.

End Trap.

(** ** The blocks of a cache *)

(** [push] *)
Definition pushed (o : Z) (s : machine) : machine :=
  mk_machine (store (mem s) (Free s) o) (Free s + 1) (heap_start s) (heap_alloc_limit s) (GC_ENABLED_P s).

Lemma bind_push B o (k : unit -> act B) s : bind (push o) k s = k tt (pushed o s).
Proof. reflexivity. Qed.

Notation state := (state base).

(** What is known after a block has been allocated. *)
Definition extends (blk blk' : Z -> option kind) (s s' : machine) : Prop :=
  included blk blk' /\ state blk' s' /\ keeps blk (mem s) (mem s').

Lemma extends_refl blk s : state blk s -> extends blk blk s s.
Proof. intros S. split; [intros a k H; exact H | split; [exact S | apply keeps_refl]]. Qed.

Lemma extends_trans blk blk' blk'' s s' s'' :
  extends blk blk' s s' -> extends blk' blk'' s' s'' -> extends blk blk'' s s''.
Proof.
  intros (I & _ & K) (I' & S' & K'). split; [intros a k H; auto |]. split; [exact S' |].
  exact (keeps_trans base fuel _ _ _ _ _ I K K').
Qed.

Lemma new_block blk s s' k :
  state blk s -> 0 < size k -> match k with Frame_block _ => False | _ => True end ->
  Free s' = Free s + size k -> (forall x, x < Free s -> mem s' x = mem s x) ->
  wf_block base (grow blk (Free s) k) (mem s') (Free s) k ->
  extends blk (grow blk (Free s) k) s s' /\ grow blk (Free s) k (Free s) = Some k.
Proof.
  intros [AP W Ab] Sz Nf Fr Low B. split; [| apply grow_new]. split; [exact (grow_included base AP) |]. split.
  - split.
    + rewrite Fr. apply (grow_apart base AP); [lia | exact Sz | exact Nf].
    + exact (grow_wf base base_positive AP W Low Sz Nf B).
    + lia.
  - exact (grow_keeps base base_positive fuel AP W Low).
Qed.

Section Run.
Context {blk : Z -> option kind} {s : machine} {cell : Z}.
Hypothesis S : state blk s.
Hypothesis VC : value_word blk cell.
Hypothesis NC : blk cell <> Some Cache_block.
Hypothesis Plain : trap_kind base (mem s) (mem s cell) <> TRAP_COMPILER_CACHED.
Hypothesis Seen : mem s cell <> UNBOUND_OBJECT.
Hypothesis Space : Free s + 8 <= base + 2 ^ 58.

Notation references := (MAKE_POINTER_OBJECT base CACHE_REFERENCES_TYPE (Free s)).
Notation cache := (MAKE_POINTER_OBJECT base CACHE_TYPE (Free s + 3)).
Notation trap := (MAKE_POINTER_OBJECT base TC_REFERENCE_TRAP (Free s + 6)).
Notation s1 := (pushed EMPTY_LIST (pushed EMPTY_LIST (pushed EMPTY_LIST s))).
Notation s2 := (pushed references (pushed SHARP_F (pushed (mem s cell) s1))).
Notation s3 := (pushed cache (pushed (LONG_TO_UNSIGNED_FIXNUM TRAP_COMPILER_CACHED) s2)).

Lemma cell_below : base <= cell < Free s.
Proof.
  destruct S as [AP W _]. apply (value_word_below blk (Free s) cell AP); [| exact VC].
  intros f n F. apply (wf_count _ _ _ _ _ (frame_wf base W F)).
Qed.

Ltac words :=
  cbn [pushed mem Free]; unfold store;
  repeat match goal with |- context [?a =? ?b] => destruct (Z.eqb_spec a b); try lia end;
  try reflexivity.

(** The kind of the old value does not depend on the new blocks. *)
Lemma cell_kind m : (forall x, x < Free s -> m x = mem s x) ->
  trap_kind base m (mem s cell) = trap_kind base (mem s) (mem s cell).
Proof.
  intros Low. destruct S as [AP W _]. unfold trap_kind.
  destruct (REFERENCE_TRAP_P (mem s cell)) eqn:T; [| reflexivity].
  destruct (Z.leb_spec (OBJECT_DATUM (mem s cell)) 9); [reflexivity |]. f_equal. apply Low.
  pose proof (wf_value base W cell VC T ltac:(lia)) as Tb. pose proof (ap_range _ _ _ AP _ _ Tb). cbn [size] in *. lia.
Qed.

Lemma references_block : exists blk1, extends blk blk1 s s1 /\ blk1 (Free s) = Some References_block.
Proof.
  eexists. apply (new_block blk s s1 References_block S); [cbn [size]; lia | exact I | cbn [pushed Free size]; lia | |].
  - intros x Hx. words.
  - cbn [wf_block]. split; [| split]; words.
Qed.

Lemma cache_block : exists blk2, extends blk blk2 s s2 /\ blk2 (Free s + 3) = Some Cache_block.
Proof.
  destruct references_block as (blk1 & E & R). pose proof E as (I1 & S1 & _). pose proof cell_below as Hc.
  destruct S as [AP W Ab].
  assert (V1 : value_ok base blk1 (mem s cell)) by exact (value_ok_included base _ _ _ I1 (wf_value base W cell VC)).
  destruct (new_block blk1 s1 s2 Cache_block S1) as [E2 B2].
  - cbn [size]; lia.
  - exact I.
  - cbn [pushed Free size]; lia.
  - intros x Hx. cbn [pushed Free] in Hx. words.
  - assert (Inc : included blk1 (grow blk1 (Free s1) Cache_block)) by exact (grow_included base (st_apart _ _ _ S1)).
    assert (E0 : mem s2 (Free s1) = mem s cell) by (words).
    cbn [wf_block]. rewrite E0. split; [exact (value_ok_included base _ _ _ Inc V1) |]. split; [| split].
    + rewrite cell_kind; [exact Plain |]. intros x Hx. words.
    + words.
    + replace (mem s2 (Free s1 + 2)) with references by (words).
      destruct (pointer_parts base TC_HUNK3 (Free s)) as [_ ->]; [lia | lia |]. exact (Inc _ _ R).
  - eexists. split; [exact (extends_trans _ _ _ _ _ _ E E2) |].
    rewrite <- B2. f_equal. cbn [pushed Free]. lia.
Qed.

Lemma trap_block : exists blk3, extends blk blk3 s s3 /\ blk3 (Free s + 6) = Some Trap_block.
Proof.
  destruct cache_block as (blk2 & E & C). pose proof E as (I2 & S2 & _). pose proof (st_above _ _ _ S) as Ab.
  destruct (new_block blk2 s2 s3 Trap_block S2) as [E3 B3].
  - cbn [size]; lia.
  - exact I.
  - cbn [pushed Free size]; lia.
  - intros x Hx. cbn [pushed Free] in Hx. words.
  - cbn [wf_block]. intros _.
    replace (mem s3 (Free s2 + 1)) with cache by (words).
    destruct (pointer_parts base TC_HUNK3 (Free s + 3)) as [_ ->]; [lia | lia |].
    exact (grow_included base (st_apart _ _ _ S2) _ _ C).
  - eexists. split; [exact (extends_trans _ _ _ _ _ _ E E3) |].
    rewrite <- B3. f_equal. cbn [pushed Free]. lia.
Qed.

Lemma trap_object : value_ok base (fun _ => Some Trap_block) trap /\ OBJECT_TYPE trap = TC_REFERENCE_TRAP
  /\ addr trap = Free s + 6 /\ 9 < OBJECT_DATUM trap.
Proof.
  pose proof (st_above _ _ _ S) as Ab.
  destruct (pointer_parts base TC_REFERENCE_TRAP (Free s + 6)) as [T A]; [lia | lia |].
  split; [intros _ _; reflexivity |]. split; [exact T |]. split; [exact A |].
  rewrite address_datum in A. lia.
Qed.

(** All three blocks, and the trap in the cell. *)
Lemma cached_cell : exists blk',
  included blk blk' /\ state blk' (set_mem s3 (store (mem s3) cell trap))
  /\ moved blk (mem s) (store (mem s3) cell trap) cell (Free s + 3)
  /\ trap_kind base (store (mem s3) cell trap) trap = TRAP_COMPILER_CACHED.
Proof.
  destruct trap_block as (blk3 & (I3 & S3 & K3) & T3). pose proof cell_below as Hc.
  destruct trap_object as (_ & Ty & A & D). pose proof S3 as [AP3 W3 Ab3].
  assert (VC3 : value_word blk3 cell).
  { destruct VC as [f n i F Hi | b B | y Y | c C]; [eapply argument_word | apply binding_word | apply symbol_word | apply cache_word];
      eauto. }
  assert (Old : mem s3 cell = mem s cell) by (words).
  assert (Tk : forall m', m' (Free s + 6) = mem s3 (Free s + 6) -> trap_kind base m' trap = TRAP_COMPILER_CACHED).
  { intros m' E. unfold trap_kind. unfold REFERENCE_TRAP_P. rewrite Ty. cbn [Z.eqb Pos.eqb].
    destruct (Z.leb_spec (OBJECT_DATUM trap) 9); [lia |]. rewrite A, E.
    replace (mem s3 (Free s + 6)) with (LONG_TO_UNSIGNED_FIXNUM 14) by (words). reflexivity. }
  assert (Vt : value_ok base blk3 trap) by (intros _ _; rewrite A; exact T3).
  assert (NC3 : blk3 cell <> Some Cache_block).
  { intros C. destruct VC as [f n i F Hi | b B | y Y | c C']; [| | | exact (NC C')].
    - destruct (word_inj base blk3 _ f _ (Frame_block n) Cache_block (2 + i) 0 AP3 (I3 _ _ F) C); cbn [size]; lia.
    - destruct (word_inj base blk3 _ b _ Binding_block Cache_block 1 0 AP3 (I3 _ _ B) C); cbn [size]; lia.
    - destruct (word_inj base blk3 _ y _ Symbol_block Cache_block 1 0 AP3 (I3 _ _ Y) C); cbn [size]; lia. }
  assert (Seen3 : argument blk3 cell -> mem s3 cell <> UNBOUND_OBJECT).
  { rewrite Old. intros _. exact Seen. }
  exists blk3. split; [exact I3 |]. split.
  { split; [exact AP3 | exact (trap_wf AP3 W3 VC3 NC3 Vt) | exact Ab3]. }
  split; [| apply Tk; words].
  apply (moved_after_keeps _ _ _ _ _ _ _ I3 K3).
  apply (trap_moved AP3 W3 VC3 NC3); [| exact Seen3 | exact Vt | apply Tk; reflexivity | | words].
  - rewrite Old, cell_kind; [exact Plain |]. intros x Hx. words.
  - rewrite A. replace (mem s3 (Free s + 6 + 1)) with cache by words.
    destruct (pointer_parts base TC_HUNK3 (Free s + 3)) as [_ ->]; [lia | lia | reflexivity].
Qed.



(** [guarantee_cache] runs out of room, or makes the blocks. *)
Lemma room_after k n : 0 < n -> 0 <= k -> GC_NEEDED_P s (k + n) = false ->
  forall s', Free s' = Free s + k -> heap_start s' = heap_start s -> heap_alloc_limit s' = heap_alloc_limit s ->
  GC_ENABLED_P s' = GC_ENABLED_P s -> GC_NEEDED_P s' n = false.
Proof.
  intros Hn Hk G s' E1 E2 E3 E4. unfold GC_NEEDED_P, HEAP_AVAILABLE_P, FREE_OK_P in *.
  rewrite E1, E2, E3, E4. destruct (GC_ENABLED_P s); [| apply andb_false_r].
  rewrite andb_true_r, negb_false_iff, !andb_true_iff, !Z.leb_le, Z.ltb_lt in *. lia.
Qed.

Lemma room_less k n : 0 <= k <= n -> GC_NEEDED_P s n = false -> GC_NEEDED_P s k = false.
Proof.
  intros Hk G. unfold GC_NEEDED_P, HEAP_AVAILABLE_P, FREE_OK_P in *.
  destruct (GC_ENABLED_P s); [| apply andb_false_r].
  rewrite andb_true_r, negb_false_iff, !andb_true_iff, !Z.leb_le, Z.ltb_lt in *. lia.
Qed.

Ltac pushes := repeat first [rewrite bind_push | progress act_steps | progress cbn beta iota zeta].

Lemma guarantee_cache_start : guarantee_cache base cell s
  = if GC_NEEDED_P s 3 then Value (PRIM_INTERRUPT 3, None) s
    else if GC_NEEDED_P s1 3 then Value (PRIM_INTERRUPT 3, None) s1
    else if GC_NEEDED_P s2 2 then Value (PRIM_INTERRUPT 2, None) s2
    else Value (PRIM_DONE, None) (set_mem s3 (store (mem s3) cell trap)).
Proof.
  pose proof cell_below as Hc. unfold guarantee_cache. act_steps. rewrite (bind_trap_kind base).
  destruct (Z.eqb_spec (trap_kind base (mem s) (mem s cell)) 14); [contradiction |].
  unfold GC_CHECK, RETURN_IF_ERROR, make_cache, GC_CHECK. rewrite bind_current.
  destruct (GC_NEEDED_P s 3); [reflexivity |]. pushes.
  replace (mem s1 cell) with (mem s cell) by (symmetry; words).
  destruct (GC_NEEDED_P s1 3); [reflexivity |]. pushes.
  destruct (GC_NEEDED_P s2 2) eqn:G2; [| pushes];
    replace (Free s2 - 3) with (Free s + 3) by (cbn [pushed Free]; lia); rewrite ?G2; [reflexivity |].
  replace (Free s3 - 2) with (Free s + 6) by (cbn [pushed Free]; lia). reflexivity.
Qed.

(** Exactly 8 more words are needed. *)
Lemma guarantee_cache_room :
  GC_NEEDED_P s 8 = GC_NEEDED_P s 3 || GC_NEEDED_P s1 3 || GC_NEEDED_P s2 2.
Proof.
  unfold GC_NEEDED_P, HEAP_AVAILABLE_P, FREE_OK_P. cbn [pushed Free heap_start heap_alloc_limit GC_ENABLED_P].
  destruct (GC_ENABLED_P s); rewrite ?andb_false_r, ?andb_true_r; [| reflexivity].
  apply eq_true_iff_eq. rewrite !orb_true_iff, !negb_true_iff, !andb_false_iff, !Z.leb_gt, !Z.ltb_ge. lia.
Qed.

Lemma guarantee_cache_run :
  if GC_NEEDED_P s 8
  then exists n blk' s', guarantee_cache base cell s = Value (PRIM_INTERRUPT n, None) s' /\ GC_NEEDED_P s' n = true /\ extends blk blk' s s'
  else exists blk' s', guarantee_cache base cell s = Value (PRIM_DONE, None) s'
    /\ included blk blk' /\ state blk' s' /\ moved blk (mem s) (mem s') cell (Free s + 3)
    /\ trap_kind base (mem s') (mem s' cell) = TRAP_COMPILER_CACHED.
Proof.
  rewrite guarantee_cache_start, guarantee_cache_room.
  destruct references_block as (blk1 & E1 & _), cache_block as (blk2 & E2 & _).
  destruct (GC_NEEDED_P s 3) eqn:G; cbn [orb].
  { exists 3, blk, s. split; [reflexivity |]. split; [exact G | exact (extends_refl blk s S)]. }
  destruct (GC_NEEDED_P s1 3) eqn:G1; cbn [orb].
  { exists 3, blk1, s1. split; [reflexivity |]. split; [exact G1 | exact E1]. }
  destruct (GC_NEEDED_P s2 2) eqn:G2; cbn [orb].
  { exists 2, blk2, s2. split; [reflexivity |]. split; [exact G2 | exact E2]. }
  destruct cached_cell as (blk3 & I3 & S3 & M & K). exists blk3. eexists. split; [reflexivity |].
  cbn [set_mem mem]. split; [exact I3 |]. split; [exact S3 |]. split; [exact M |].
  rewrite store_same. exact K.
Qed.

End Run.

(** ** [update_clone] has nothing to do *)

Lemma update_clone_run blk s c : wf base blk (mem s) -> blk (addr c) = Some Cache_block ->
  update_clone base c s = Value tt s.
Proof.
  intros W C. destruct (wf_blocks _ _ _ W _ _ C) as (_ & _ & Cl & R).
  destruct (wf_blocks _ _ _ W _ _ R) as (R0 & R1 & R2).
  unfold update_clone. act_unfold. act_steps. rewrite R1. change (PAIR_P EMPTY_LIST) with false.
  cbn [andb]. act_steps. rewrite Cl. reflexivity.
Qed.

End Cache.
