(* ===== verification/EnvNew.v ===== *)
(** * Definition of a new variable (for Environment.v)

    [define_variable] when the frame has no binding of the name: room is made
    in the frame's extension, and a pair is added.  When the name had a cached
    binding in an outer frame, the new one gets a cache too. *)

From Stdlib Require Import ZArith List Lia Bool.
From S2P Require Import Prelude.
From S2P Require Import Object.
From S2P Require Import Memory.
From S2P Require Import Heap.
From S2P Require Import Symbol.
From S2P Require Import Environment.
From S2P Require Import EnvSpec.
From S2P Require Import EnvInv.
From S2P Require Import EnvAssign.
From S2P Require Import EnvDefine.
From S2P Require Import EnvCache.
Import ListNotations.

#[local] Opaque MAKE_OBJECT OBJECT_DATUM OBJECT_TYPE OBJECT_ADDRESS.

Section New.
Variable base : Z.
Hypothesis base_positive : 0 < base.
Variable fixed_objects : Z.
Variable fuel : nat.
Notation addr := (OBJECT_ADDRESS base).
Notation state := (state base).
Notation keeps := (keeps base fuel).
Notation extends := (extends base fuel).
Notation defined := (defined base fuel).
Notation moved := (moved base fuel).

(** The cache of the binding that a definition in [e] will hide, or #F. *)
Definition hidden_cache (m : memory) (symbol : Z) (fs : list Z) (last : Z) : Z :=
  match variable_cell base m symbol fs last with
  | Some c => if trap_kind base m (m c) =? TRAP_COMPILER_CACHED then m (addr (m c) + 1) else SHARP_F
  | None => SHARP_F
  end.

(** ** The last steps *)

Definition update_steps (old_cache cell : Z) (environment symbol : Z) : act res :=
  if negb (old_cache =? SHARP_F) then update_cache_references base old_cache cell environment symbol
  else ret (PRIM_DONE, None).

Lemma update_references_run blk s old_cache cell environment symbol :
  state blk s -> (old_cache <> SHARP_F -> blk (addr old_cache) = Some Cache_block) ->
  value_word blk cell -> blk cell <> Some Cache_block -> mem s cell <> UNBOUND_OBJECT ->
  Free s + 8 <= base + 2 ^ 58 -> cell <> 0 ->
  (update_steps old_cache cell environment symbol s = Exit Termination
   /\ old_cache <> SHARP_F /\ GC_NEEDED_P s 8 = true)
  \/ exists blk' s' l, update_steps old_cache cell environment symbol s = Value (PRIM_DONE, None) s'
     /\ included blk blk' /\ state blk' s' /\ moved blk (mem s) (mem s') cell l /\ (l = cell \/ l = Free s + 3).
Proof.
  intros S HO VC NC Seen Space C0. unfold update_steps. pose proof S as [AP W Ab].
  assert (Stay : moved blk (mem s) (mem s) cell cell).
  { intros e fs last y _ _ C. split; [exact C |]. split; [reflexivity |]. split; [| reflexivity].
    destruct (variable_location base (mem s) y fs last) as [l|]; cbn [option_map]; [| reflexivity].
    destruct (Z.eqb_spec l cell); congruence. }
  destruct (Z.eqb_spec old_cache 0) as [O | O]; cbn [negb].
  { right. exists blk, s, cell. split; [reflexivity |]. split; [intros a k H; exact H |]. auto. }
  specialize (HO O). unfold update_cache_references. destruct (Z.eqb_spec cell 0); [contradiction |]. cbn [negb].
  unfold DIE_IF_ERROR. rewrite !bind_assoc.
  destruct (Z.eq_dec (trap_kind base (mem s) (mem s cell)) 14) as [K | K].
  - right. exists blk, s, cell. assert (R : guarantee_cache base cell s = Value (PRIM_DONE, None) s).
    { unfold guarantee_cache. act_steps. rewrite (bind_trap_kind base), K. reflexivity. }
    rewrite (bind_value _ _ _ _ _ _ _ R). cbn beta iota. act_unfold. act_steps.
    destruct (cached_trap base W _ (wf_value base W cell VC) K) as [_ Cb].
    rewrite (bind_value _ _ _ _ _ _ _ (update_clone_run base blk s _ W Cb)).
    rewrite (bind_value _ _ _ _ _ _ _ (update_clone_run base blk s _ W HO)).
    split; [reflexivity |]. split; [intros a k H; exact H |]. auto.
  - pose proof (guarantee_cache_run base base_positive fuel S VC NC K Seen Space) as R.
    destruct (GC_NEEDED_P s 8) eqn:G.
    + left. destruct R as (n' & blk' & s' & R & _). rewrite (bind_value _ _ _ _ _ _ _ R). auto.
    + right. destruct R as (blk' & s' & R & I & S' & M & K'). exists blk', s', (Free s + 3).
      rewrite (bind_value _ _ _ _ _ _ _ R). cbn beta iota. act_unfold. act_steps.
      pose proof S' as [AP' W' Ab'].
      assert (VC' : value_word blk' cell).
      { destruct VC as [f n' i F Hi | b B | y Y | c C];
          [exact (argument_word _ f n' i (I _ _ F) Hi) | exact (binding_word _ b (I _ _ B)) | exact (symbol_word _ y (I _ _ Y)) | contradiction]. }
      destruct (cached_trap base W' _ (wf_value base W' cell VC') K') as [_ Cb].
      rewrite (bind_value _ _ _ _ _ _ _ (update_clone_run base blk' s' _ W' Cb)).
      rewrite (bind_value _ _ _ _ _ _ _ (update_clone_run base blk' s' _ W' (I _ _ HO))).
      auto 6.
Qed.

(** ** The new pair *)

Definition bound (s : machine) (x len symbol v : Z) : machine :=
  set_mem (pushed v (pushed symbol s))
    (store (store (mem (pushed v (pushed symbol s))) (x + 4 + len) (MAKE_POINTER_OBJECT base TC_LIST (Free s)))
       (x + 3) (LONG_TO_UNSIGNED_FIXNUM (len + 1))).

Section Pair.
Context {blk : Z -> option kind} {s : machine} {f n k symbol v : Z}.
Hypothesis S : state blk s.
Hypothesis F : blk f = Some (Frame_block n).
Hypothesis V : VECTOR_P (mem s (f + 1)) = true.
Notation x := (addr (mem s (f + 1))).
Hypothesis X : blk x = Some (Extension_block k).
Notation len := (extension_length base (mem s) f).
Hypothesis Room : len < k.
Hypothesis None_yet : assoc symbol (frame_bindings base (mem s) f true) = None.
Hypothesis Vv : value_ok base blk v.
Hypothesis Space : Free s + 20 <= base + 2 ^ 57.
Notation s0 := (pushed v (pushed symbol s)).
Notation s2 := (bound s x len symbol v).

Lemma pair_low y : y < Free s -> mem s0 y = mem s y.
Proof. intros Hy. cbn [pushed mem Free]. now rewrite !store_other by lia. Qed.

Lemma new_pair_block : exists blk1, extends blk blk1 s s0 /\ blk1 (Free s) = Some Binding_block
  /\ forall a k', blk1 a = Some k' -> a <> Free s -> blk a = Some k'.
Proof.
  exists (grow blk (Free s) Binding_block). pose proof (new_block base base_positive fuel blk s s0 Binding_block S) as NB.
  destruct NB as [E B]; [cbn [size]; lia | exact I | cbn [pushed Free size]; lia | exact pair_low | |].
  - cbn [wf_block pushed mem Free]. rewrite store_same.
    exact (value_ok_included base _ _ _ (grow_included base (st_apart _ _ _ S)) Vv).
  - split; [exact E |]. split; [exact B |]. intros a k' H N. unfold grow in H.
    destruct (Z.eqb_spec a (Free s)); [contradiction | exact H].
Qed.

(** Frames are as before the pair was made. *)
Lemma pair_same : same_structure blk (mem s) (mem s0).
Proof.
  intros a k' i Ha _ Hi _. destruct S as [AP _ _]. pose proof (ap_range _ _ _ AP _ _ Ha). apply pair_low. lia.
Qed.

Lemma old_frame g n' : blk g = Some (Frame_block n') ->
  extension_pairs base (mem s0) g = extension_pairs base (mem s) g
  /\ frame_bindings base (mem s0) g true = frame_bindings base (mem s) g true.
Proof.
  intros G. destruct S as [AP W Ab].
  assert (N : g <> 0) by (intros ->; rewrite (no_block base AP base_positive) in G; discriminate).
  split; [apply (extension_pairs_same base AP W (same_but_none pair_same) (no_part base AP base_positive) G N)
         | apply (all_bindings_same base AP W (same_but_none pair_same) (no_part base AP base_positive) G N)].
Qed.

Lemma stored_low m m' u c : wf base blk m -> blk f = Some (Frame_block n) ->
  (forall y, y < Free s -> y <> f + 1 -> m' y = m y) -> value_ok base blk u ->
  stored_result base m' u = stored_result base m u /\ stored_location base m' c u = stored_location base m c u
  /\ trap_kind base m' u = trap_kind base m u.
Proof.
  intros W G Low Vu. destruct S as [AP _ _].
  assert (N : forall a k' i, blk a = Some k' -> a <> f -> 0 <= i < size k' -> m' (a + i) = m (a + i)).
  { intros a k' i Ha Na Hi. pose proof (ap_range _ _ _ AP _ _ Ha). apply Low; [lia |]. intros E. apply Na.
    apply (word_inj base blk _ a f k' (Frame_block n) i 1 AP Ha G Hi); [| exact E].
    cbn [size]. pose proof (wf_count _ _ _ _ _ (frame_wf base W G)). lia. }
  assert (SB : same_but blk f m m') by (intros a k' i Ha _ Na Hi _; exact (N a k' i Ha Na Hi)).
  assert (PO : part_of base blk m f f) by (intros k' Hk; rewrite G in Hk; injection Hk as <-; reflexivity).
  pose proof (trap_kind_same base AP SB PO) as Tk.
  unfold stored_result, stored_location. rewrite (Tk u Vu). split; [| split; [| reflexivity]].
  - destruct (Z.eqb_spec (trap_kind base m u) 14) as [K | K].
    + destruct (cached_trap base W u Vu K) as [T C].
      rewrite (N (addr u) _ 1 T) by (cbn [size]; lia || exact (other_block base PO _ _ T I)).
      pose proof (N _ _ 0 C (other_block base PO _ _ C I)) as E. rewrite Z.add_0_r in E. rewrite E by (cbn [size]; lia).
      apply value_result_same, Tk. exact (wf_value base W _ (cache_word _ _ C)).
    + apply value_result_same, (Tk u Vu).
  - destruct (Z.eqb_spec (trap_kind base m u) 14) as [K | K]; [| reflexivity].
    destruct (cached_trap base W u Vu K) as [T C].
    now rewrite (N (addr u) _ 1 T) by (cbn [size]; lia || exact (other_block base PO _ _ T I)).
Qed.

Lemma bound_run : exists blk',
  included blk blk' /\ state blk' s2 /\ blk' (Free s) = Some Binding_block /\ mem s2 (Free s + 1) = v
  /\ defined blk (mem s) (mem s2) f symbol (stored_location base (mem s) (Free s + 1) v) (stored_result base (mem s) v).
Proof.
  destruct new_pair_block as (blk1 & (I1 & S1 & K1) & B & Old). pose proof S as [AP W Ab]. pose proof S1 as [AP1 W1 Ab1].
  pose proof (frame_below base S F) as Fb.
  pose proof (wf_blocks _ _ _ W _ _ X) as WX. pose proof (wx_length _ _ _ _ _ WX) as L.
  pose proof (ap_range _ _ _ AP _ _ X) as Xr. cbn [size] in Xr.
  assert (F1 : mem s0 (f + 1) = mem s (f + 1)) by (apply pair_low; lia).
  assert (Le : extension_length base (mem s0) f = len).
  { unfold extension_length. rewrite F1, pair_low by lia. reflexivity. }
  destruct (pointer_parts base TC_LIST (Free s)) as [_ A]; [lia | lia |].
  assert (Name : mem s0 (Free s) = symbol).
  { cbn [pushed mem Free]. rewrite store_other by lia. apply store_same. }
  assert (Own : forall g n', blk1 g = Some (Frame_block n') -> ~ In (Free s) (extension_pairs base (mem s0) g)).
  { intros g n' G. assert (N : g <> Free s) by (intros ->; rewrite B in G; discriminate).
    apply Old in G; [| exact N]. rewrite (proj1 (old_frame g n' G)). intros H.
    pose proof (EnvInv.pair_block base W G _ H) as Hb. pose proof (ap_range _ _ _ AP _ _ Hb). cbn [size] in *. lia. }
  assert (Ny : assoc symbol (frame_bindings base (mem s0) f true) = None) by (rewrite (proj2 (old_frame f n F)); exact None_yet).
  assert (Vy : VECTOR_P (mem s0 (f + 1)) = true) by (rewrite F1; exact V).
  assert (Xy : blk1 (addr (mem s0 (f + 1))) = Some (Extension_block k)) by (rewrite F1; exact (I1 _ _ X)).
  assert (Ey : addr (mem s0 (f + 1)) = x) by now rewrite F1.
  assert (Ry : extension_length base (mem s0) f < k) by (rewrite Le; exact Room).
  assert (Sm : k < 2 ^ 57 - 1) by lia.
  pose proof (pair_wf base AP1 W1 (I1 _ _ F) Vy Xy Ey B Name Own Ny A Ry Sm) as W2.
  pose proof (pair_defined base fuel AP1 W1 (I1 _ _ F) Vy Xy Ey B Name Ny A Ry Sm) as D.
  rewrite Le in W2, D. exists blk1. split; [exact I1 |]. split; [split; [exact AP1 | exact W2 | exact Ab1] |].
  split; [exact B |].
  assert (Sv : mem s0 (Free s + 1) = v) by (cbn [pushed mem Free]; apply store_same).
  split.
  { unfold bound. cbn [set_mem mem]. rewrite !store_other by lia. exact Sv. }
  rewrite Sv in D. destruct (stored_low (mem s) (mem s0) v (Free s + 1) W F (fun y Hy _ => pair_low y Hy) Vv) as (E1 & E2 & _). rewrite E1, E2 in D.
  intros e fs last y K Y C. destruct (K1 e fs last y K Y C) as (C1 & _ & Se & Lo & Me).
  destruct (D e fs last y (env_ok_included base _ _ _ I1 K) (I1 _ _ Y) C1) as (C2 & R). split; [exact C2 |].
  rewrite Lo, Me in R. destruct (Z.eqb_spec y symbol) as [-> |]; cbn [andb] in *; [rewrite Se in R |]; exact R.
Qed.

End Pair.
(** Room made, a pair added, a cell moved to a cache. *)
Lemma defined_compose blk blk1 blk2 m m1 m2 m3 f symbol l r c l' :
  included blk blk1 -> included blk1 blk2 -> keeps blk m m1 -> defined blk1 m1 m2 f symbol l r ->
  moved blk2 m2 m3 c l' ->
  (forall e fs last y lo, env_ok base blk e -> symbol_ok base blk y -> environment base fuel m e fs last ->
     variable_location base m y fs last = Some lo -> lo <> c) ->
  defined blk m m3 f symbol (if l =? c then l' else l) r.
Proof.
  intros I1 I2 K1 D M Old e fs last y K Y C.
  destruct (K1 e fs last y K Y C) as (C1 & _ & Se & Lo & Me).
  pose proof (env_ok_included base _ _ _ I1 K) as Ka. pose proof (I1 _ _ Y) as Ya.
  destruct (D e fs last y Ka Ya C1) as (C2 & R).
  destruct (M e fs last y (env_ok_included base _ _ _ I2 Ka) (I2 _ _ Ya) C2) as (C3 & _ & L3 & M3).
  split; [exact C3 |]. rewrite L3, M3. specialize (Old e fs last y).
  destruct (Z.eqb_spec y symbol) as [-> | N]; cbn [andb] in *; [rewrite Se in R; destruct (sees _ _ _ _ _) |].
  - destruct R as [-> ->]. split; reflexivity.
  - destruct R as [-> ->]. rewrite Lo, Me. split; [| reflexivity].
    destruct (variable_location base m symbol fs last) as [lo|] eqn:E; cbn [option_map]; [| reflexivity].
    destruct (Z.eqb_spec lo c) as [-> |]; [now destruct (Old c K Y C) | reflexivity].
  - destruct R as [-> ->]. rewrite Lo, Me. split; [| reflexivity].
    destruct (variable_location base m y fs last) as [lo|] eqn:E; cbn [option_map]; [| reflexivity].
    destruct (Z.eqb_spec lo c) as [-> |]; [now destruct (Old c K Y C) | reflexivity].
Qed.

(** Every location is an old word. *)
Lemma location_below blk s e fs last y lo :
  state blk s -> env_ok base blk e -> symbol_ok base blk y -> environment base fuel (mem s) e fs last ->
  variable_location base (mem s) y fs last = Some lo -> value_word blk lo /\ lo < Free s.
Proof.
  intros [AP W Ab] K Y [C Fu]. unfold EnvAssign.variable_location.
  pose proof (search_cell base W y e fs last) as HC.
  destruct (variable_cell base (mem s) y fs last) as [c|]; [| discriminate]. cbn [option_map]. intros [= <-].
  pose proof (location_value base W c (HC c K C Y eq_refl)) as VL. split; [exact VL |].
  assert (N : forall g n', blk g = Some (Frame_block n') -> 0 <= n').
  { intros g n' G. apply (wf_count _ _ _ _ _ (frame_wf base W G)). }
  pose proof (value_word_below base blk (Free s) _ AP N VL). lia.
Qed.

(** ** The whole definition *)

(** The heap has no room for [k] more words, a number that is bounded by what
    is used. *)
Definition short (s : machine) : Prop :=
  exists k, 0 <= k <= 2 * (Free s - base) + 50 /\ GC_NEEDED_P s k = true.

Lemma short_after s s' k :
  0 <= k <= 20 -> Free s <= Free s' <= Free s + 2 * (Free s - base) + 20 ->
  heap_start s' = heap_start s -> heap_alloc_limit s' = heap_alloc_limit s -> GC_ENABLED_P s' = GC_ENABLED_P s ->
  0 <= Free s - base -> GC_NEEDED_P s' k = true -> short s.
Proof.
  intros Hk HF E1 E2 E3 Hb G. exists (Free s' - Free s + k + 1). split; [lia |].
  unfold GC_NEEDED_P, HEAP_AVAILABLE_P, FREE_OK_P in *. rewrite E1, E2, E3 in G.
  rewrite andb_true_iff in *. destruct G as [G1 G2]. split; [| exact G2].
  rewrite negb_true_iff, andb_false_iff, andb_false_iff, !Z.leb_gt, Z.ltb_ge in *. lia.
Qed.

(** [define_variable] after [guarantee_extension_space]. *)
Definition add_binding (environment symbol value : Z) : act res :=
  (parent <- GET_FRAME_PARENT base environment ;;
   cf <- find_binding_cell base fuel parent symbol ;;
   let shadowed_cell := fst cf in
   old_cache <-
     (if negb (shadowed_cell =? 0) then
        value <- fetch shadowed_cell ;;
        kind <- get_trap_kind base value ;;
        if kind =? TRAP_COMPILER_CACHED then GET_TRAP_CACHE base value else ret SHARP_F
      else ret SHARP_F) ;;
   length <- GET_EXTENDED_FRAME_LENGTH base environment ;;
   GC_CHECK (2 + (if negb (old_cache =? SHARP_F)
                  then update_cache_refs_space old_cache environment symbol else 0)) (
     new <- MAP_TO_UNASSIGNED base fixed_objects value ;;
     pair <- cons base symbol new ;;
     bindings <- GET_EXTENDED_FRAME_BINDINGS base environment ;;
     assign (bindings + length) pair ;;
     SET_EXTENDED_FRAME_LENGTH base environment (length + 1) ;;
     update_steps old_cache (PAIR_CDR_LOC base pair) environment symbol))%act.

Lemma define_variable_unfold environment symbol value :
  define_variable base fixed_objects fuel environment symbol value
  = (if negb (ENVIRONMENT_P environment || SYMBOL_P symbol) then ret (ERR_BAD_FRAME, None)
     else
       cell <- scan_frame base environment symbol true ;;
       if negb (cell =? 0) then
         (if GLOBAL_FRAME_P environment then strengthen_symbol base fixed_objects fuel symbol else ret tt) ;;
         r <- assign_variable_end base fixed_objects cell value true ;;
         ret (fst r, None)
       else
         RETURN_IF_ERROR (guarantee_extension_space base environment) (fun _ => add_binding environment symbol value))%act.
Proof. reflexivity. Qed.

Lemma cons_run symbol v s : GC_NEEDED_P s 2 = false ->
  cons base symbol v s = Value (MAKE_POINTER_OBJECT base TC_LIST (Free s)) (pushed v (pushed symbol s)).
Proof.
  intros G. unfold cons, system_pair_cons, Primitive_GC_If_Needed, bind. rewrite G. cbn.
  now replace (Free s + 1 + 1 - 2) with (Free s) by lia.
Qed.

(** What the search of the parent gives. *)
Lemma hidden_run B s symbol parent fs last (k : Z -> act B) :
  environment base fuel (mem s) parent fs last ->
  bind (find_binding_cell base fuel parent symbol) (fun cf =>
    let shadowed_cell := fst cf in
    bind (if negb (shadowed_cell =? 0) then
        bind (fetch shadowed_cell) (fun value =>
        bind (get_trap_kind base value) (fun kind =>
        if kind =? TRAP_COMPILER_CACHED then GET_TRAP_CACHE base value else ret SHARP_F))
      else ret SHARP_F) k) s
  = k (hidden_cache (mem s) symbol fs last) s.
Proof.
  intros C. rewrite (bind_value _ _ _ _ _ _ _ (find_binding_cell_run base base_positive fuel s symbol parent fs last C)).
  cbn [fst]. unfold hidden_cache, variable_cell.
  destruct (fst (search base (mem s) symbol fs last)) as [c|] eqn:E; cbn [or_zero]; [| reflexivity].
  apply (search_positive base base_positive) in E. destruct (Z.eqb_spec c 0); [lia |]. cbn [negb]. act_steps.
  rewrite (bind_trap_kind base). destruct (_ =? 14); act_unfold; act_steps; reflexivity.
Qed.

(** [add_binding], in a frame with room. *)
Lemma add_binding_run s environment symbol value fs last x len :
  EnvSpec.environment base fuel (mem s) (frame_parent base (mem s) (addr environment)) fs last ->
  addr (mem s (addr environment + 1)) = x -> extension_length base (mem s) (addr environment) = len ->
  x + 4 + len < Free s -> base <= Free s -> Free s + 20 <= base + 2 ^ 57 ->
  addr environment + 1 < Free s -> addr environment + 1 <> x + 3 -> addr environment + 1 <> x + 4 + len ->
  add_binding environment symbol value s
  = if GC_NEEDED_P s 2 then Value (PRIM_INTERRUPT 2, None) s
    else update_steps (hidden_cache (mem s) symbol fs last) (Free s + 1) environment symbol
           (bound s x len symbol (map_to base fixed_objects (mem s) value)).
Proof.
  intros C Ex El L1 L2 L3 L4 N1 N2. unfold add_binding. act_unfold. act_steps.
  change (mem s (addr (mem s (addr environment + 1)) + 1)) with (frame_parent base (mem s) (addr environment)).
  rewrite (hidden_run _ s symbol _ fs last _ C). act_steps.
  change (UNSIGNED_FIXNUM_TO_LONG (mem s (addr (mem s (addr environment + 1)) + 3)))
    with (extension_length base (mem s) (addr environment)). rewrite El.
  unfold GC_CHECK, update_cache_refs_space.
  replace (2 + (if negb (hidden_cache (mem s) symbol fs last =? 0) then 0 else 0)) with 2
    by (destruct (negb _); reflexivity).
  act_steps. destruct (GC_NEEDED_P s 2) eqn:G; [reflexivity |].
  rewrite (bind_to base fixed_objects). set (v := map_to base fixed_objects (mem s) value).
  rewrite (bind_value _ _ _ _ _ _ _ (cons_run symbol v s G)). act_steps.
  destruct (pointer_parts base TC_LIST (Free s)) as [_ A]; [lia | lia |]. rewrite A.
  assert (E1 : mem (pushed v (pushed symbol s)) (addr environment + 1) = mem s (addr environment + 1)).
  { cbn [pushed mem Free]. rewrite !store_other by lia. reflexivity. }
  rewrite E1, Ex. cbn [set_mem mem]. rewrite store_other by lia. rewrite E1, Ex. reflexivity.
Qed.

(** The hidden binding is a cached one. *)
Definition hidden_cached (m : memory) (symbol : Z) (fs : list Z) (last : Z) : Prop :=
  exists c, variable_cell base m symbol fs last = Some c /\ trap_kind base m (m c) = TRAP_COMPILER_CACHED.

Lemma hidden_block blk m symbol e fs last :
  wf base blk m -> env_ok base blk e -> chain base m e fs last -> symbol_ok base blk symbol ->
  hidden_cache m symbol fs last <> SHARP_F ->
  hidden_cached m symbol fs last /\ blk (addr (hidden_cache m symbol fs last)) = Some Cache_block.
Proof.
  intros W K C Y. unfold hidden_cache, hidden_cached. pose proof (search_cell base W symbol e fs last) as HC.
  destruct (variable_cell base m symbol fs last) as [c|]; [| congruence].
  destruct (Z.eqb_spec (trap_kind base m (m c)) 14) as [T |]; [intros _ | congruence].
  split; [exists c; auto |]. exact (proj2 (cached_trap base W _ (wf_value base W c (HC c K C Y eq_refl)) T)).
Qed.

Section Defining.
Context {blk : Z -> option kind} {s : machine} {e n symbol value last : Z} {fs : list Z} {k0 : Z}.
Hypothesis S : state blk s.
Hypothesis P : PROCEDURE_FRAME_P e = true.
Notation f := (addr e).
Hypothesis F : blk f = Some (Frame_block n).
Hypothesis Y : symbol_ok base blk symbol.
Hypothesis C : environment base fuel (mem s) e fs last.
Hypothesis Fixed : blk (addr fixed_objects) = Some (Vector_block k0).
Hypothesis K0 : 1 <= k0.
Notation v := (map_to base fixed_objects (mem s) value).
Hypothesis Vv : value_ok base blk v.
Hypothesis Uv : v <> UNBOUND_OBJECT.
Hypothesis None_yet : assoc symbol (frame_bindings base (mem s) f true) = None.
Hypothesis Space : 4 * (Free s - base) + 100 <= 2 ^ 57.

Lemma parent_environment : env_ok base blk (frame_parent base (mem s) f)
  /\ environment base fuel (mem s) (frame_parent base (mem s) f) (tl fs) last.
Proof.
  split; [exact (parent_ok base (st_wf _ _ _ S) _ _ F) |].
  destruct C as [Ch L]. inversion Ch as [e' P' | e' fs' last' P' N Ch']; subst; [congruence |].
  cbn [tl length] in *. split; [exact Ch' | lia].
Qed.

Section Roomy.
Context {blk1 : Z -> option kind} {s1 : machine}.
Hypothesis R : roomy base fuel (blk := blk) (s := s) (f := f) blk1 s1.

Lemma roomy_external : map_to base fixed_objects (mem s1) value = v.
Proof.
  destruct R as (_ & _ & _ & _ & _ & _ & _ & _ & Low & _). unfold map_to, external.
  rewrite Low; [reflexivity | |].
  - pose proof (ap_range _ _ _ (st_apart _ _ _ S) _ _ Fixed). cbn [size] in *. lia.
  - intros E. pose proof (wf_count _ _ _ _ _ (frame_wf base (st_wf _ _ _ S) F)).
    destruct (word_inj base blk _ _ _ _ _ 1 1 (st_apart _ _ _ S) Fixed F) as [Ea _]; cbn [size]; try lia.
    rewrite Ea, F in Fixed. discriminate.
Qed.

(** A hidden cache was there before. *)
Lemma roomy_hidden : hidden_cached (mem s1) symbol (tl fs) last -> hidden_cached (mem s) symbol (tl fs) last.
Proof.
  destruct parent_environment as [Kp Cp]. destruct R as (I1 & S1 & K1 & _ & _ & _ & _ & _ & Low & _).
  destruct (K1 _ _ _ symbol Kp Y Cp) as (_ & Se & _).
  intros (c & Hc & T). unfold variable_cell in Hc. rewrite Se in Hc. exists c. split; [exact Hc |].
  destruct S as [AP W Ab]. destruct Cp as [Ch L].
  pose proof (search_cell base W symbol _ _ _ c Kp Ch Y Hc) as VC.
  assert (E : mem s1 c = mem s c).
  { apply Low.
    - assert (N : forall g n', blk g = Some (Frame_block n') -> 0 <= n').
      { intros g n' G. apply (wf_count _ _ _ _ _ (frame_wf base W G)). }
      pose proof (value_word_below base blk (Free s) _ AP N VC). lia.
    - intros ->. pose proof (wf_count _ _ _ _ _ (frame_wf base W F)).
      apply (not_value base AP f _ 1 F); cbn [size]; [lia | lia | exact VC]. }
  rewrite E in T. rewrite <- T. symmetry.
  apply (stored_low (s := s) (f := f) (n := n) S (mem s) (mem s1) (mem s c) 0 W F Low (wf_value base W c VC)).
Qed.

Lemma roomy_facts : exists fs',
  environment base fuel (mem s1) (frame_parent base (mem s1) f) fs' last /\ fs' = tl fs
  /\ env_ok base blk1 (frame_parent base (mem s1) f)
  /\ blk1 f = Some (Frame_block n) /\ value_ok base blk1 v
  /\ assoc symbol (frame_bindings base (mem s1) f true) = None.
Proof.
  destruct R as (I1 & S1 & K1 & _ & _ & _ & Bn & _). exists (tl fs).
  destruct (K1 e fs last symbol) as (C1 & _); [intros _; exists n; exact F | exact Y | exact C |].
  split; [| split; [reflexivity | split; [exact (parent_ok base (st_wf _ _ _ S1) _ _ (I1 _ _ F)) |]]].
  - destruct C1 as [Ch L]. inversion Ch as [e' P' | e' fs' last' P' N Ch']; subst; [congruence |].
    cbn [tl length] in *. split; [exact Ch' | lia].
  - split; [exact (I1 _ _ F) |]. split; [exact (value_ok_included base _ _ _ I1 Vv) |]. rewrite Bn. exact None_yet.
Qed.

(** The pair is added when there is room, and the binding that it hides, if
    that is cached, leads to a cache. *)
Lemma roomy_add :
  let result := add_binding e symbol value s1 in
  (result = Value (PRIM_INTERRUPT 2, None) s1 /\ GC_NEEDED_P s1 2 = true)
  \/ (result = Exit Termination /\ hidden_cached (mem s) symbol (tl fs) last /\ GC_NEEDED_P s1 10 = true)
  \/ exists blk' s' l, result = Value (PRIM_DONE, None) s' /\ included blk blk' /\ state blk' s'
      /\ defined blk (mem s) (mem s') f symbol l (stored_result base (mem s) v)
      /\ (trap_kind base (mem s) v = TRAP_COMPILER_CACHED -> l = addr (mem s (addr v + 1)))
      /\ (trap_kind base (mem s) v <> TRAP_COMPILER_CACHED -> Free s <= l).
Proof.
  destruct roomy_facts as (fs' & C1 & Efs & Kp & F1 & V1 & Ny). pose proof roomy_external as Ev.
  pose proof roomy_hidden as Hh. pose proof R as (I1 & S1 & K1 & Vf & (k & X & Room) & _ & _ & Fr & Low & _).
  pose proof (st_above _ _ _ S) as Ab. pose proof S1 as [AP1 W1 Ab1].
  pose proof (wx_size _ _ _ _ _ (wf_blocks _ _ _ W1 _ _ X)) as [_ K1'].
  pose proof (wx_length _ _ _ _ _ (wf_blocks _ _ _ W1 _ _ X)) as Lx.
  pose proof (ap_range _ _ _ AP1 _ _ X) as Xr. pose proof (ap_range _ _ _ AP1 _ _ F1) as Frr. cbn [size] in Xr, Frr.
  pose proof (wf_count _ _ _ _ _ (frame_wf base W1 F1)) as Ct.
  assert (Nx : f <> addr (mem s1 (f + 1))) by (intros E; rewrite <- E, F1 in X; discriminate).
  pose proof (ap_apart _ _ _ AP1 _ _ _ _ F1 X Nx) as Ap. cbn [size] in Ap.
  unfold extension_length in Room.
  cbv zeta. rewrite (add_binding_run s1 e symbol value fs' last (addr (mem s1 (f + 1)))
             (extension_length base (mem s1) f) C1 eq_refl eq_refl) by (unfold extension_length; lia).
  destruct (GC_NEEDED_P s1 2) eqn:G2; [left; auto | right]. rewrite Ev.
  destruct (bound_run S1 F1 Vf X Room Ny V1 ltac:(lia)) as (blk2 & I2 & S2 & B2 & Sv & D).
  set (s2 := bound s1 (addr (mem s1 (f + 1))) (extension_length base (mem s1) f) symbol v) in *.
  assert (F2 : Free s2 = Free s1 + 2) by (unfold s2, bound; cbn [set_mem Free pushed]; lia).
  destruct (update_references_run blk2 s2 (hidden_cache (mem s1) symbol fs' last) (Free s1 + 1) e symbol S2)
    as [(Ru & Hc & G) | (blk3 & s3 & l' & Ru & I3 & S3 & M & Hl)].
  - intros Hc. apply I2. exact (proj2 (hidden_block blk1 (mem s1) symbol _ fs' last W1 Kp (en_chain _ _ _ _ _ _ C1) (I1 _ _ Y) Hc)).
  - now constructor.
  - intros Cb. pose proof (ap_apart _ _ _ (st_apart _ _ _ S2) _ _ _ _ B2 Cb) as A2. cbn [size] in A2. lia.
  - rewrite Sv. exact Uv.
  - lia.
  - lia.
  - left. split; [exact Ru |]. split.
    + apply Hh. rewrite <- Efs.
      exact (proj1 (hidden_block blk1 (mem s1) symbol _ fs' last W1 Kp (en_chain _ _ _ _ _ _ C1) (I1 _ _ Y) Hc)).
    + destruct (GC_NEEDED_P s1 (2 + 8)) eqn:G'; [exact G' |].
      rewrite (room_after (s := s1) 2 8 ltac:(lia) ltac:(lia) G' s2) in G by (exact F2 || reflexivity). discriminate.
  - right. exists blk3, s3.
    destruct (stored_low (s := s) (f := f) (n := n) S (mem s) (mem s1) v (Free s1 + 1) (st_wf _ _ _ S) F Low Vv) as (E1 & E2 & _).
    rewrite E1, E2 in D.
    eexists. split; [exact Ru |].
    split; [intros a k' H; exact (I3 _ _ (I2 _ _ (I1 _ _ H))) |]. split; [exact S3 |]. split.
    + apply (defined_compose blk blk1 blk2 (mem s) (mem s1) (mem s2) (mem s3) f symbol _ _ _ _ I1 I2 K1 D M).
      intros e' fs2 last' y lo K' Y' C' L'. pose proof (location_below blk s e' fs2 last' y lo S K' Y' C' L'). lia.
    + unfold stored_location. split; intros T.
      * rewrite T. cbn [Z.eqb Pos.eqb]. destruct (Z.eqb_spec (addr (mem s (addr v + 1))) (Free s1 + 1)) as [E |]; [| reflexivity].
        destruct (cached_trap base (st_wf _ _ _ S) v Vv T) as [_ Cb]. pose proof (ap_range _ _ _ (st_apart _ _ _ S) _ _ Cb).
        cbn [size] in *. lia.
      * destruct (Z.eqb_spec (trap_kind base (mem s) v) 14); [contradiction |]. rewrite Z.eqb_refl. lia.
Qed.

End Roomy.
Lemma define_new :
  let result := define_variable base fixed_objects fuel e symbol value s in
  (exists n blk' s', result = Value (PRIM_INTERRUPT n, None) s' /\ GC_NEEDED_P s' n = true /\ extends blk blk' s s' /\ short s)
  \/ (result = Exit Termination /\ hidden_cached (mem s) symbol (tl fs) last /\ short s)
  \/ exists blk' s' l, result = Value (PRIM_DONE, None) s' /\ included blk blk' /\ state blk' s'
      /\ defined blk (mem s) (mem s') f symbol l (stored_result base (mem s) v)
      /\ (trap_kind base (mem s) v = TRAP_COMPILER_CACHED -> l = addr (mem s (addr v + 1)))
      /\ (trap_kind base (mem s) v <> TRAP_COMPILER_CACHED -> Free s <= l).
Proof.
  cbv zeta. pose proof (st_above _ _ _ S) as Ab. rewrite define_variable_unfold.
  assert (Env : ENVIRONMENT_P e = true) by (unfold ENVIRONMENT_P, PROCEDURE_FRAME_P in *; now rewrite P).
  rewrite Env. cbn [orb negb].
  assert (Nf : 0 <= n_formals base (mem s) f).
  { rewrite (wf_n_formals _ _ _ _ _ (frame_wf base (st_wf _ _ _ S) F)). apply (wf_count _ _ _ _ _ (frame_wf base (st_wf _ _ _ S) F)). }
  rewrite (bind_value _ _ _ _ _ _ _ (scan_frame_run base base_positive e symbol true s P Nf)).
  rewrite None_yet. cbn [or_zero Z.eqb negb]. unfold RETURN_IF_ERROR.
  destruct (guarantee_run base base_positive fuel S F Space e eq_refl) as [(k & G & Hk & Gk) | (blk1 & s1 & G & R)].
  - left. exists k, blk, s. rewrite (bind_value _ _ _ _ _ _ _ G). split; [reflexivity |]. split; [exact Gk |].
    split; [exact (extends_refl base fuel blk s S) |]. exists k. split; [lia | exact Gk].
  - rewrite (bind_value _ _ _ _ _ _ _ G). cbn beta iota.
    pose proof R as (I1 & S1 & Kp & _ & _ & _ & _ & Fr & _ & E1 & E2 & E3).
    destruct (roomy_add R) as [[A G2] | [(A & H & G2) | D]].
    + left. exists 2, blk1, s1. split; [exact A |]. split; [exact G2 |]. split; [exact (conj I1 (conj S1 Kp)) |].
      exact (short_after s s1 2 ltac:(lia) Fr E1 E2 E3 ltac:(lia) G2).
    + right; left. split; [exact A |]. split; [exact H |].
      exact (short_after s s1 10 ltac:(lia) Fr E1 E2 E3 ltac:(lia) G2).
    + right; right. exact D.
Qed.

End Defining.
End New.
