(* ===== verification/EnvOld.v ===== *)
(** * Definition of a variable that the frame has (for Environment.v)

    When the frame has a binding of the name, [define_variable] assigns to it,
    whatever its value was.  An argument that was unbound is seen again. *)

From Stdlib Require Import ZArith List Lia Bool.
From S2P Require Import Prelude.
From S2P Require Import Object.
From S2P Require Import Memory.
From S2P Require Import Heap.
From S2P Require Import Symbol.
From S2P Require Import Environment.
From S2P Require Import EnvSpec.
From S2P Require Import EnvInv.
From S2P Require Import EnvAssign.
From S2P Require Import EnvDefine.
Import ListNotations.

#[local] Opaque MAKE_OBJECT OBJECT_DATUM OBJECT_TYPE OBJECT_ADDRESS.

Lemma NoDup_map_filter A B (g : A -> B) (h : A -> bool) l : NoDup (map g l) -> NoDup (map g (filter h l)).
Proof.
  induction l as [|x l IH]; [auto |]. cbn [map filter]. rewrite NoDup_cons_iff. intros [N D].
  destruct (h x); [| exact (IH D)]. cbn [map]. constructor; [| exact (IH D)].
  intros H. apply N. apply in_map_iff in H as (q & E & H). apply filter_In in H as [H _].
  rewrite <- E. now apply in_map.
Qed.

Lemma visible_all m l : filter (visible m true) l = l.
Proof. induction l as [|p l IH]; [reflexivity |]. cbn [filter visible orb]. now rewrite IH. Qed.

(** A filter that lets one more binding through. *)
Lemma assoc_reveal A P (vis vis' : Z * Z -> bool) symbol c y :
  NoDup (map fst (A ++ P)) -> In (symbol, c) P -> vis' (symbol, c) = true ->
  (forall x d, In (x, d) P -> x <> symbol -> vis' (x, d) = vis (x, d)) ->
  assoc y (A ++ filter vis' P) = if y =? symbol then Some c else assoc y (A ++ filter vis P).
Proof.
  rewrite map_app. intros ND HP V Eq. rewrite !assoc_app.
  destruct (Z.eqb_spec y symbol) as [-> | N].
  - assert (EA : assoc symbol A = None).
    { apply assoc_None. intros H. apply in_split in H as (l1 & l2 & E). rewrite E, <- app_assoc in ND.
      cbn [app] in ND. apply NoDup_remove_2 in ND. apply ND. rewrite !in_app_iff. right; right.
      now apply (in_map fst) in HP. }
    rewrite EA. apply assoc_NoDup; [| apply filter_In; auto].
    exact (NoDup_map_filter _ _ _ _ _ (NoDup_app_remove_l _ _ ND)).
  - destruct (assoc y A); [reflexivity |]. clear -N Eq. induction P as [| [x d] P IH]; [reflexivity |].
    cbn [filter]. specialize (IH (fun x d H => Eq x d (or_intror H))).
    destruct (Z.eq_dec x symbol) as [-> | Nx].
    + destruct (vis' (symbol, d)), (vis (symbol, d)); cbn [assoc];
        destruct (Z.eqb_spec symbol y); congruence.
    + rewrite (Eq x d (or_introl eq_refl) Nx). destruct (vis (x, d)); cbn [assoc]; [| exact IH].
      destruct (x =? y); [reflexivity | exact IH].
Qed.

Section Old.
Variable base : Z.
Hypothesis base_positive : 0 < base.
Variable fixed_objects : Z.
Variable fuel : nat.
Notation addr := (OBJECT_ADDRESS base).

Section Heap.
Context {blk : Z -> option kind} {free : Z} {m : memory} {f n symbol c v : Z}.
Hypothesis AP : apart base blk free.
Hypothesis W : wf base blk m.
Hypothesis F : blk f = Some (Frame_block n).
Hypothesis Has : assoc symbol (frame_bindings base m f true) = Some c.

Lemma had_value : value_word blk c.
Proof. apply assoc_In in Has. exact (frame_cell_value base W F _ _ _ Has). Qed.

Lemma binding_not_argument b : blk b = Some Binding_block -> ~ argument blk (b + 1).
Proof.
  intros B (g & n' & i & G & Hi & E).
  destruct (word_inj base blk free b g _ _ 1 (2 + i) AP B G) as [-> _]; cbn [size]; lia.
Qed.

Lemma cache_not_argument a : blk a = Some Cache_block -> ~ argument blk a.
Proof.
  intros B (g & n' & i & G & Hi & E).
  destruct (word_inj base blk free a g _ _ 0 (2 + i) AP B G) as [-> _]; cbn [size]; lia.
Qed.

(** A binding is either seen or an unbound argument. *)
Lemma seen_or_unbound :
  (assoc symbol (frame_bindings base m f false) = Some c /\ (argument blk c -> m c <> UNBOUND_OBJECT))
  \/ (m c = UNBOUND_OBJECT /\ In (symbol, c) (parameters base m f)
      /\ assoc symbol (frame_bindings base m f false) = None).
Proof.
  pose proof (wf_names _ _ _ _ _ (frame_wf base W F)) as ND. pose proof Has as H.
  unfold frame_bindings in *. rewrite assoc_app in *.
  rewrite visible_all in *.
  destruct (assoc symbol (map _ (extension_pairs base m f))) as [d|] eqn:Ea.
  - left. split; [exact H |]. intros Arg. exfalso. injection H as ->. apply assoc_In in Ea.
    apply in_map_iff in Ea as (p & [= _ <-] & Hp). exact (binding_not_argument p (pair_block base W F p Hp) Arg).
  - pose proof (assoc_In _ _ _ H) as HP. destruct (Z.eqb_spec (m c) UNBOUND_OBJECT) as [U | U].
    + right. split; [exact U |]. split; [exact HP |]. apply assoc_None. intros H'.
      apply in_map_iff in H' as ([x d] & Ex & H'). cbn [fst] in Ex. subst x. apply filter_In in H' as [H' Vd].
      rewrite map_app in ND. apply NoDup_app_remove_l in ND.
      assert (d = c) as -> by (apply (assoc_NoDup _ _ _ ND) in H'; congruence).
      unfold visible in Vd. cbn [snd orb] in Vd. rewrite U, Z.eqb_refl in Vd. discriminate.
    + left. split; [| auto]. apply assoc_NoDup.
      * rewrite map_app in ND. exact (NoDup_map_filter _ _ _ _ _ (NoDup_app_remove_l _ _ ND)).
      * apply filter_In. split; [exact HP |]. unfold visible. cbn [snd orb].
        destruct (Z.eqb_spec (m c) UNBOUND_OBJECT); [contradiction | reflexivity].
Qed.

(** A search does not give an unbound argument. *)
Lemma search_seen y e fs last x :
  env_ok base blk e -> chain base m e fs last -> symbol_ok base blk y ->
  variable_cell base m y fs last = Some x -> argument blk x -> m x <> UNBOUND_OBJECT.
Proof.
  intros K C Y. unfold variable_cell. induction C as [e P | e fs last P N C IH]; cbn [search].
  - unfold global_cell. destruct (GLOBAL_FRAME_P e); [| discriminate]. cbn [fst].
    intros [= <-] (g & n' & i & G & Hi & E).
    destruct (word_inj base blk free (addr y) g _ _ 1 (2 + i) AP Y G) as [_ ?]; cbn [size]; lia.
  - destruct (K P) as (n' & G). destruct (assoc y (frame_bindings base m (addr e) false)) as [d|] eqn:E.
    + cbn [fst]. intros [= <-] Arg. apply assoc_In in E. unfold frame_bindings in E.
      apply in_app_or in E as [E | E].
      * apply in_map_iff in E as (p & [= _ <-] & Hp). now destruct (binding_not_argument p (pair_block base W G p Hp)).
      * apply filter_In in E as [_ E]. unfold visible in E. cbn [snd orb] in E.
        intros U. rewrite U, Z.eqb_refl in E. discriminate.
    + apply IH. exact (parent_ok base W _ _ G).
Qed.

(** *** An unbound argument gets a value *)

Section Reveal.
Hypothesis U : m c = UNBOUND_OBJECT.
Hypothesis HP : In (symbol, c) (parameters base m f).
Hypothesis Vv : value_ok base blk v.
Hypothesis Uv : v <> UNBOUND_OBJECT.
Notation m' := (store m c v).

Lemma reveal_argument : exists i, c = f + 2 + i /\ 0 <= i < n.
Proof.
  apply in_map_iff in HP as (i & [= _ <-] & Hi). apply in_seq in Hi.
  rewrite (wf_n_formals _ _ _ _ _ (frame_wf base W F)) in Hi. exists (Z.of_nat i). split; [reflexivity | lia].
Qed.

Lemma reveal_is_argument : argument blk c.
Proof. destruct reveal_argument as (i & -> & Hi). exists f, n, i. auto. Qed.

Lemma reveal_structure : same_structure blk m m'.
Proof. exact (store_structure had_value). Qed.

Lemma reveal_parts g n' : blk g = Some (Frame_block n') ->
  extension_pairs base m' g = extension_pairs base m g
  /\ map (fun p => (m' p, p + 1)) (extension_pairs base m' g) = map (fun p => (m p, p + 1)) (extension_pairs base m g)
  /\ parameters base m' g = parameters base m g.
Proof.
  intros G. pose proof (same_but_none reveal_structure) as SB. pose proof (no_part base (m := m) AP base_positive) as PO.
  assert (N : g <> 0) by (intros ->; rewrite (no_block base AP base_positive) in G; discriminate).
  pose proof (extension_pairs_same base AP W SB PO G N) as E.
  split; [exact E |]. split; [exact (pair_names_of_pairs base AP W SB PO G E) |].
  exact (parameters_of_procedure base AP W SB PO G (frame_procedure_same base AP W SB PO G N)).
Qed.

Lemma reveal_other g n' u : blk g = Some (Frame_block n') -> g <> f ->
  frame_bindings base m' g u = frame_bindings base m g u.
Proof.
  intros G N. destruct (reveal_parts g n' G) as (_ & E1 & E2). unfold frame_bindings. rewrite E1, E2. f_equal.
  apply filter_ext_in. intros [x d] Hd. unfold visible. cbn [snd]. rewrite store_other; [reflexivity |].
  intros ->. apply N. apply in_map_iff in Hd as (j & [= _ E] & Hj). apply in_seq in Hj.
  rewrite (wf_n_formals _ _ _ _ _ (frame_wf base W G)) in Hj. destruct reveal_argument as (i & Ei & Hi).
  apply (word_inj base blk free g f _ _ (2 + Z.of_nat j) (2 + i) AP G F); cbn [size]; lia.
Qed.

Lemma reveal_assoc y :
  assoc y (frame_bindings base m' f false) = if y =? symbol then Some c else assoc y (frame_bindings base m f false).
Proof.
  pose proof (wf_names _ _ _ _ _ (frame_wf base W F)) as ND.
  destruct (reveal_parts f n F) as (_ & E1 & E2). unfold frame_bindings in *. rewrite E1, E2.
  rewrite visible_all in ND.
  apply assoc_reveal; [exact ND | exact HP | |].
  - unfold visible. cbn [snd orb]. rewrite store_same. destruct (Z.eqb_spec v UNBOUND_OBJECT); [contradiction | reflexivity].
  - intros x d Hd Nx. unfold visible. cbn [snd]. rewrite store_other; [reflexivity |]. intros ->. apply Nx.
    rewrite map_app in ND. apply NoDup_app_remove_l in ND.
    apply in_map_iff in Hd as (j & Ej & Hj). apply in_map_iff in HP as (i & Ei & Hi).
    injection Ej as <- Ej. injection Ei as <- Ei. do 2 f_equal. lia.
Qed.

Lemma reveal_search e fs last y : env_ok base blk e -> chain base m e fs last ->
  variable_cell base m' y fs last
  = if (y =? symbol) && sees base m f symbol fs then Some c else variable_cell base m y fs last.
Proof.
  intros K C. unfold variable_cell. induction C as [e P | e fs last P N C IH]; cbn [search sees]; [now rewrite andb_false_r |].
  destruct (K P) as (n' & G). specialize (IH (parent_ok base W _ _ G)).
  destruct (Z.eqb_spec (addr e) f) as [E | No]; cbn [orb].
  - rewrite E, reveal_assoc, andb_true_r. destruct (Z.eqb_spec y symbol) as [-> |]; [reflexivity |].
    destruct (assoc y (frame_bindings base m f false)); [reflexivity |]. exact IH.
  - rewrite (reveal_other _ _ false G No).
    destruct (Z.eqb_spec y symbol) as [-> | Ny]; cbn [andb] in *.
    + destruct (assoc symbol (frame_bindings base m (addr e) false)); [reflexivity | exact IH].
    + destruct (assoc y (frame_bindings base m (addr e) false)); [reflexivity | exact IH].
Qed.

(** The trap words are structure. *)
Lemma reveal_trap u : value_ok base blk u -> trap_kind base m u = TRAP_COMPILER_CACHED ->
  m' (addr u + 1) = m (addr u + 1) /\ addr (m (addr u + 1)) <> c.
Proof.
  intros Vu K. destruct (cached_trap base W u Vu K) as [T C]. split.
  - apply store_other. intros E. destruct reveal_argument as (i & Ei & Hi).
    destruct (word_inj base blk free (addr u) f _ _ 1 (2 + i) AP T F) as [_ ?]; cbn [size]; lia.
  - intros E. apply (cache_not_argument _ C). rewrite E. exact reveal_is_argument.
Qed.

Lemma reveal_kind u : value_ok base blk u -> trap_kind base m' u = trap_kind base m u.
Proof. exact (store_kind base base_positive AP had_value u). Qed.

Lemma reveal_location x : value_word blk x -> x <> c ->
  location base m' x = location base m x
  /\ value_result base m' (m' (location base m x)) = value_result base m (m (location base m x)).
Proof.
  intros Vx N. pose proof (wf_value base W x Vx) as Vu.
  assert (E : location base m' x = location base m x /\ location base m x <> c).
  { unfold location. rewrite (store_other m c v x N), (reveal_kind _ Vu).
    destruct (Z.eqb_spec (trap_kind base m (m x)) 14) as [K |]; [| auto].
    destruct (reveal_trap _ Vu K) as [-> Nc]. auto. }
  destruct E as [E Nl]. split; [exact E |]. rewrite (store_other m c v _ Nl).
  apply value_result_same, reveal_kind. exact (wf_value base W _ (location_value base W x Vx)).
Qed.

Lemma reveal_defined : defined base fuel blk m m' f symbol (stored_location base m c v) (stored_result base m v).
Proof.
  intros e fs last y K Y [C Fu].
  split; [split; [exact (values_chain base AP base_positive W reveal_structure e fs last K C) | exact Fu] |].
  unfold EnvAssign.variable_location, meaning. rewrite (reveal_search e fs last y K C).
  destruct ((y =? symbol) && sees base m f symbol fs); cbn [option_map cell_result].
  - unfold location, stored_location, stored_result. rewrite store_same, (reveal_kind v Vv).
    destruct (Z.eqb_spec (trap_kind base m v) 14) as [T |].
    + destruct (reveal_trap v Vv T) as [-> Nc]. split; [reflexivity |]. rewrite store_other by exact Nc.
      apply value_result_same, reveal_kind. destruct (cached_trap base W v Vv T) as [_ Cb].
      exact (wf_value base W _ (cache_word _ _ Cb)).
    + split; [reflexivity |]. rewrite store_same. apply value_result_same, (reveal_kind v Vv).
  - pose proof (search_cell base W y e fs last) as HC. pose proof (search_seen y e fs last) as HS.
    destruct (variable_cell base m y fs last) as [x|]; cbn [option_map cell_result]; [| auto].
    specialize (HC x K C Y eq_refl).
    assert (N : x <> c) by (intros ->; exact (HS c K C Y eq_refl reveal_is_argument U)).
    destruct (reveal_location x HC N) as [-> ->]. auto.
Qed.

End Reveal.
End Heap.
End Old.
