(* ===== verification/EnvProps.v ===== *)
(** * Reference, assignment and definition (for Environment.v)

    The theorems about lookup.c, and a small heap to try them on. *)

From Stdlib Require Import ZArith List Lia Bool.
From S2P Require Import Prelude.
From S2P Require Import Object.
From S2P Require Import Memory.
From S2P Require Import Heap.
From S2P Require Import Symbol.
From S2P Require Import Environment.
From S2P Require Import EnvSpec.
From S2P Require Import EnvInv.
From S2P Require Import EnvAssign.
From S2P Require Import EnvDefine.
From S2P Require Import EnvCache.
From S2P Require Import EnvNew.
From S2P Require Import EnvOld.
Import ListNotations.

#[local] Opaque MAKE_OBJECT OBJECT_DATUM OBJECT_TYPE OBJECT_ADDRESS.

(** A definition is refused only for an unknown trap. *)
Lemma refusal_forced k : assignable true k = false -> refusal k = ERR_ILLEGAL_REFERENCE_TRAP.
Proof.
  unfold assignable, refusal. destruct (k =? 32), (k =? 0), (k =? 2), (k =? 15); try discriminate. reflexivity.
Qed.

Section Props.
Variable base : Z.
Hypothesis base_positive : 0 < base.
Variable fixed_objects : Z.
Variable fuel : nat.
Notation addr := (OBJECT_ADDRESS base).
Notation state := (state base).

Section Reference.
Context {blk : Z -> option kind} {s : machine} {e symbol value last : Z} {fs : list Z}.
Hypothesis S : state blk s.
Hypothesis K : env_ok base blk e.
Hypothesis Y : symbol_ok base blk symbol.
Hypothesis C : environment base fuel (mem s) e fs last.

Lemma cells_flat c : variable_cell base (mem s) symbol fs last = Some c -> flat base (mem s) c.
Proof.
  intros H. destruct S as [AP W _]. apply (location_flat base W).
  exact (search_cell base W symbol e fs last c K (en_chain _ _ _ _ _ _ C) Y H).
Qed.

Lemma lookup_run : ENVIRONMENT_P e = true -> SYMBOL_P symbol = true ->
  lookup_variable base fuel e symbol s = Value (meaning base (mem s) symbol fs last) s.
Proof. intros He Hs. apply (lookup_variable_run base base_positive fuel s e symbol fs last He Hs C cells_flat). Qed.

Notation v := (map_to base fixed_objects (mem s) value).
Hypothesis Vv : value_ok base blk v.
Hypothesis Uv : v <> UNBOUND_OBJECT.
Hypothesis Nv : trap_kind base (mem s) v <> TRAP_COMPILER_CACHED.

(** An assignment to the location of a cell that is not an unbound
    argument. *)
Lemma store_location_assigned c :
  value_word blk c -> (argument blk c -> mem s c <> UNBOUND_OBJECT) ->
  let l := location base (mem s) c in
  state blk (set_mem s (store (mem s) l v)) /\ assigned base fuel blk (mem s) (store (mem s) l v) l v.
Proof.
  intros Vc Hc l. destruct S as [AP W Ab].
  pose proof (location_value base W c Vc) as Vl. pose proof (location_flat base W c Vc) as Fl.
  split; [split; [exact AP | | exact Ab] |].
  - apply (store_wf base base_positive AP W Vl Vv). now left.
  - apply (store_assigned base base_positive AP fuel (mem s) l v W Vl Vv Fl Nv). intros Arg.
    split; [intros E; now destruct Uv |]. intros E. exfalso. unfold l, location in Arg, E.
    destruct (Z.eqb_spec (trap_kind base (mem s) (mem s c)) 14) as [T |]; [| exact (Hc Arg E)].
    destruct (cached_trap base W _ (wf_value base W c Vc) T) as [_ Cb].
    exact (cache_not_argument base AP _ Cb Arg).
Qed.

Lemma assign_run :
  SYMBOL_P symbol || ENVIRONMENT_P e = true ->
  match variable_location base (mem s) symbol fs last with
  | None => assign_variable base fixed_objects fuel e symbol value s = Value (ERR_UNBOUND_VARIABLE, None) s
  | Some l =>
      let k := trap_kind base (mem s) (mem s l) in
      if assignable false k
      then exists s',
             assign_variable base fixed_objects fuel e symbol value s
             = Value (PRIM_DONE, Some (map_from base fixed_objects (mem s) (mem s l))) s'
             /\ state blk s' /\ assigned base fuel blk (mem s) (mem s') l v
      else assign_variable base fixed_objects fuel e symbol value s = Value (refusal k, None) s
  end.
Proof.
  intros A. unfold assign_variable. rewrite orb_comm, A. cbn [negb].
  rewrite (bind_value _ _ _ _ _ _ _ (find_binding_cell_run base base_positive fuel s symbol e fs last C)). cbn [fst].
  pose proof S as [AP W Ab]. pose proof (en_chain _ _ _ _ _ _ C) as Ch.
  pose proof (search_cell base W symbol e fs last) as HC.
  pose proof (search_seen base AP W symbol e fs last) as HS.
  unfold EnvAssign.variable_location. unfold variable_cell in *.
  destruct (fst (search base (mem s) symbol fs last)) as [c|] eqn:E; cbn [or_zero option_map]; [| reflexivity].
  specialize (HC c K Ch Y eq_refl). specialize (HS c K Ch Y eq_refl).
  apply (search_positive base base_positive) in E. destruct (Z.eqb_spec c 0); [lia |].
  rewrite (assign_variable_end_run base fixed_objects s c value false W HC). unfold assign_outcome. cbv zeta.
  destruct (assignable false (trap_kind base (mem s) (mem s (location base (mem s) c)))); [| reflexivity].
  eexists. split; [reflexivity |]. exact (store_location_assigned c HC HS).
Qed.

Section Procedure.
Context {n k0 : Z}.
Hypothesis P : PROCEDURE_FRAME_P e = true.
Hypothesis F : blk (addr e) = Some (Frame_block n).
Hypothesis Fixed : blk (addr fixed_objects) = Some (Vector_block k0).
Hypothesis K0 : 1 <= k0.
Hypothesis Space : 4 * (Free s - base) + 100 <= 2 ^ 57.

(** The frame has the name: the value of its cell is replaced. *)
Lemma redefine_run c :
  assoc symbol (frame_bindings base (mem s) (addr e) true) = Some c ->
  let l := location base (mem s) c in
  if assignable true (trap_kind base (mem s) (mem s l))
  then exists s',
         define_variable base fixed_objects fuel e symbol value s = Value (PRIM_DONE, None) s' /\ state blk s'
         /\ match assoc symbol (frame_bindings base (mem s) (addr e) false) with
            | Some _ => variable_location base (mem s) symbol fs last = Some l /\ assigned base fuel blk (mem s) (mem s') l v
            | None => defined base fuel blk (mem s) (mem s') (addr e) symbol l (value_result base (mem s) v)
            end
  else define_variable base fixed_objects fuel e symbol value s = Value (ERR_ILLEGAL_REFERENCE_TRAP, None) s.
Proof.
  intros Has. pose proof S as [AP W Ab]. cbv zeta.
  pose proof (had_value base W F Has) as Vc.
  assert (Env : ENVIRONMENT_P e = true) by (unfold ENVIRONMENT_P, PROCEDURE_FRAME_P in *; now rewrite P).
  assert (Ng : GLOBAL_FRAME_P e = false).
  { unfold GLOBAL_FRAME_P, THE_GLOBAL_ENV. destruct (Z.eqb_spec e 0) as [-> |]; [| reflexivity].
    revert P. vm_compute. discriminate. }
  assert (Nf : 0 <= n_formals base (mem s) (addr e)).
  { rewrite (wf_n_formals _ _ _ _ _ (frame_wf base W F)). apply (wf_count _ _ _ _ _ (frame_wf base W F)). }
  assert (C0 : 0 < c) by exact (frame_cells_positive base base_positive _ _ _ _ _ (addr_positive base base_positive e) (assoc_In _ _ _ Has)).
  rewrite define_variable_unfold, Env. cbn [orb negb].
  rewrite (bind_value _ _ _ _ _ _ _ (scan_frame_run base base_positive e symbol true s P Nf)), Has. cbn [or_zero].
  destruct (Z.eqb_spec c 0); [lia |]. cbn [negb]. rewrite Ng, bind_ret.
  pose proof (assign_variable_end_run base fixed_objects s c value true W Vc) as Run. unfold assign_outcome in Run. cbv zeta in Run.
  destruct (assignable true (trap_kind base (mem s) (mem s (location base (mem s) c)))) eqn:A;
    rewrite (bind_value _ _ _ _ _ _ _ Run).
  - eexists. split; [reflexivity |]. cbn [set_mem mem].
    destruct (seen_or_unbound base AP W F Has) as [[Se Hc] | (U & HP & No)].
    + rewrite Se. pose proof (store_location_assigned c Vc Hc) as [S' As]. split; [exact S' |]. split; [| exact As].
      unfold EnvAssign.variable_location, variable_cell. destruct C as [Ch L].
      inversion Ch as [e' P' | e' fs' last' P' N Ch']; subst; [congruence |]. cbn [search]. rewrite Se. reflexivity.
    + rewrite No. assert (El : location base (mem s) c = c).
      { unfold location. rewrite U. reflexivity. }
      rewrite El. split.
      * split; [exact AP | | exact Ab]. apply (store_wf base base_positive AP W Vc Vv). now left.
      * pose proof (reveal_defined base base_positive fuel AP W F Has U HP Vv Uv) as D.
        unfold stored_location, stored_result in D. destruct (Z.eqb_spec (trap_kind base (mem s) v) 14); [contradiction | exact D].
  - cbn [fst]. now rewrite (refusal_forced _ A).
Qed.

(** The frame has not got the name: a new variable, if there is room. *)
Lemma define_run :
  assoc symbol (frame_bindings base (mem s) (addr e) true) = None ->
  let result := define_variable base fixed_objects fuel e symbol value s in
  (exists n blk' s', result = Value (PRIM_INTERRUPT n, None) s' /\ GC_NEEDED_P s' n = true
      /\ extends base fuel blk blk' s s' /\ short base s)
  \/ (result = Exit Termination /\ hidden_cached base (mem s) symbol (tl fs) last /\ short base s)
  \/ exists blk' s' l, result = Value (PRIM_DONE, None) s' /\ included blk blk' /\ state blk' s'
      /\ defined base fuel blk (mem s) (mem s') (addr e) symbol l (value_result base (mem s) v) /\ Free s <= l.
Proof.
  intros Ny. cbv zeta.
  destruct (define_new base base_positive fixed_objects fuel S P F Y C Fixed K0 Vv Uv Ny Space)
    as [H | [H | (blk' & s' & l & R & I & S' & D & _ & Hl)]]; [left; exact H | right; left; exact H |].
  right; right. exists blk', s', l. unfold stored_result in D.
  destruct (Z.eqb_spec (trap_kind base (mem s) v) 14); [contradiction |]. auto 6.
Qed.

End Procedure.
End Reference.

(** ** What a variable can be *)

Inductive status := Bound (v : Z) | Unassigned | Unbound | Macro (v : Z) | Illegal.

Definition status_of (m : memory) (v : Z) : status :=
  let k := trap_kind base m v in
  if k =? NON_TRAP_KIND then Bound v
  else if k =? TRAP_UNASSIGNED then Unassigned
  else if k =? TRAP_UNBOUND then Unbound
  else if k =? TRAP_MACRO then Macro v
  else Illegal.

(** The status of the value at the variable's location. *)
Definition status_in (m : memory) (symbol : Z) (fs : list Z) (last : Z) : status :=
  match variable_location base m symbol fs last with
  | Some l => status_of m (m l)
  | None => Unbound
  end.

Definition lookup_answer (x : status) : res :=
  match x with
  | Bound v => (PRIM_DONE, Some v)
  | Unassigned => (ERR_UNASSIGNED_VARIABLE, None)
  | Unbound => (ERR_UNBOUND_VARIABLE, None)
  | Macro v => (ERR_MACRO_BINDING, Some v)
  | Illegal => (ERR_ILLEGAL_REFERENCE_TRAP, None)
  end.

Definition safe_answer (m : memory) (x : status) : res :=
  match x with Unassigned => (PRIM_DONE, Some (external base fixed_objects m)) | x => lookup_answer x end.

(** Whether the variable is of the kind asked about; some kinds are errors. *)
Definition truth (b : bool) : res := (PRIM_DONE, Some (if b then SHARP_T else SHARP_F)).
Definition unassigned_answer (x : status) : res :=
  match x with
  | Bound _ => truth false | Unassigned => truth true
  | Unbound => (ERR_UNBOUND_VARIABLE, None)
  | Macro _ => (ERR_MACRO_BINDING, None)
  | Illegal => (ERR_ILLEGAL_REFERENCE_TRAP, None)
  end.
Definition unbound_answer (x : status) : res :=
  match x with Unbound => truth true | Illegal => (ERR_ILLEGAL_REFERENCE_TRAP, None) | _ => truth false end.
Definition unreferenceable_answer (x : status) : res :=
  match x with Bound _ => truth false | Illegal => (ERR_ILLEGAL_REFERENCE_TRAP, None) | _ => truth true end.

Lemma value_result_status m v : value_result base m v = lookup_answer (status_of m v).
Proof. unfold value_result, status_of. repeat (destruct (_ =? _); [reflexivity |]). reflexivity. Qed.

Lemma meaning_status m symbol fs last : meaning base m symbol fs last = lookup_answer (status_in m symbol fs last).
Proof.
  unfold meaning, status_in, EnvAssign.variable_location. destruct (variable_cell base m symbol fs last); [| reflexivity].
  apply value_result_status.
Qed.

(** A well-formed heap with an environment and a symbol in it. *)
Record reference (blk : Z -> option kind) (s : machine) (e symbol : Z) (fs : list Z) (last : Z) : Prop := {
  ref_state : state blk s;
  ref_env : env_ok base blk e;
  ref_symbol : symbol_ok base blk symbol;
  ref_chain : environment base fuel (mem s) e fs last
}.

(** A value that a variable may be given. *)
Record storable (blk : Z -> option kind) (m : memory) (v : Z) : Prop := {
  sto_value : value_ok base blk v;
  sto_bound : v <> UNBOUND_OBJECT;
  sto_plain : trap_kind base m v <> TRAP_COMPILER_CACHED
}.

End Props.

(** C9: the five operations that refer to a variable say what is at the
    location that the search of the frames gives, frame by frame, extension
    before arguments, unbound arguments left out, and leave the machine as it
    was; an object that is no environment, or no symbol, is refused. *)
Theorem lookup_variable_correct base fixed_objects fuel blk s e symbol fs last :
  0 < base -> reference base fuel blk s e symbol fs last ->
  let x := status_in base (mem s) symbol fs last in
  let answer r := Value (if ENVIRONMENT_P e && SYMBOL_P symbol then r else (ERR_BAD_FRAME, None)) s in
  lookup_variable base fuel e symbol s = answer (lookup_answer x)
  /\ safe_lookup_variable base fixed_objects fuel e symbol s = answer (safe_answer base fixed_objects (mem s) x)
  /\ variable_unassigned_p base fuel e symbol s = answer (unassigned_answer x)
  /\ variable_unbound_p base fuel e symbol s = answer (unbound_answer x)
  /\ variable_unreferenceable_p base fuel e symbol s = answer (unreferenceable_answer x).
Proof.
  intros Hb [S K Y C] x answer.
  assert (R : lookup_variable base fuel e symbol s = answer (lookup_answer x)).
  { unfold answer. destruct (ENVIRONMENT_P e && SYMBOL_P symbol) eqn:A.
    - apply andb_true_iff in A as [He Hs]. rewrite (lookup_run base Hb fuel S K Y C He Hs). now rewrite meaning_status.
    - unfold lookup_variable. rewrite A. reflexivity. }
  split; [exact R |].
  unfold safe_lookup_variable, variable_unassigned_p, variable_unbound_p, variable_unreferenceable_p.
  rewrite !(bind_value _ _ _ _ _ _ _ R). unfold answer. destruct (ENVIRONMENT_P e && SYMBOL_P symbol); [| repeat split].
  destruct x; repeat split.
Qed.

(** C6: an assignment fails when the variable is unbound or a macro, or its
    trap is of no known kind.  Otherwise it gives the old value, and then the
    variables that have the location, in whatever environment, have the new
    value; no other variable changes. *)
Theorem assign_variable_correct base fixed_objects fuel blk s e symbol fs last value :
  let v := map_to base fixed_objects (mem s) value in
  0 < base -> reference base fuel blk s e symbol fs last -> storable base blk (mem s) v ->
  ENVIRONMENT_P e = true ->
  match variable_location base (mem s) symbol fs last with
  | None => assign_variable base fixed_objects fuel e symbol value s = Value (ERR_UNBOUND_VARIABLE, None) s
  | Some l =>
      match status_of base (mem s) (mem s l) with
      | Bound _ | Unassigned =>
          exists s',
            assign_variable base fixed_objects fuel e symbol value s
            = Value (PRIM_DONE, Some (map_from base fixed_objects (mem s) (mem s l))) s'
            /\ state base blk s' /\ assigned base fuel blk (mem s) (mem s') l v
      | x => assign_variable base fixed_objects fuel e symbol value s = Value (fst (lookup_answer x), None) s
      end
  end.
Proof.
  intros v Hb [S K Y C] [Vv Uv Nv] He.
  pose proof (assign_run base Hb fixed_objects fuel S K Y C Vv Uv Nv) as R. rewrite He, orb_true_r in R. specialize (R eq_refl).
  destruct (variable_location base (mem s) symbol fs last) as [l|]; [| exact R]. cbv zeta in R.
  unfold assignable, refusal, status_of in *. revert R. generalize (trap_kind base (mem s) (mem s l)). intros k R.
  destruct (k =? 32), (k =? 0), (k =? 2), (k =? 15); exact R.
Qed.

(** What [define_variable] does in the frame of a procedure. *)
Section Define.
Context {base fixed_objects : Z} {fuel : nat} {blk : Z -> option kind} {s : machine}
  {e symbol last value n k : Z} {fs : list Z}.
Notation v := (map_to base fixed_objects (mem s) value).
Notation f := (OBJECT_ADDRESS base e).
Notation result := (define_variable base fixed_objects fuel e symbol value s).
Hypothesis base_positive : 0 < base.
Hypothesis Ref : reference base fuel blk s e symbol fs last.
Hypothesis Sto : storable base blk (mem s) v.
Hypothesis P : PROCEDURE_FRAME_P e = true.
Hypothesis F : blk f = Some (Frame_block n).
Hypothesis Fixed : blk (OBJECT_ADDRESS base fixed_objects) = Some (Vector_block k).
Hypothesis K0 : 1 <= k.
Hypothesis Space : 4 * (Free s - base) + 100 <= 2 ^ 57.

Lemma define_cases :
  match assoc symbol (frame_bindings base (mem s) f true) with
  | Some c =>
      let l := location base (mem s) c in
      if assignable true (trap_kind base (mem s) (mem s l))
      then exists s', result = Value (PRIM_DONE, None) s' /\ state base blk s'
           /\ match assoc symbol (frame_bindings base (mem s) f false) with
              | Some _ => variable_location base (mem s) symbol fs last = Some l
                          /\ assigned base fuel blk (mem s) (mem s') l v
              | None => defined base fuel blk (mem s) (mem s') f symbol l (value_result base (mem s) v)
              end
      else result = Value (ERR_ILLEGAL_REFERENCE_TRAP, None) s
  | None =>
      (exists n blk' s', result = Value (PRIM_INTERRUPT n, None) s' /\ GC_NEEDED_P s' n = true
      /\ extends base fuel blk blk' s s' /\ short base s)
      \/ (result = Exit Termination /\ hidden_cached base (mem s) symbol (tl fs) last /\ short base s)
      \/ exists blk' s' l, result = Value (PRIM_DONE, None) s' /\ included blk blk' /\ state base blk' s'
         /\ defined base fuel blk (mem s) (mem s') f symbol l (value_result base (mem s) v) /\ Free s <= l
  end.
Proof.
  destruct Ref as [S K Y C], Sto as [Vv Uv Nv].
  destruct (assoc symbol (frame_bindings base (mem s) f true)) as [c|] eqn:Has.
  - exact (redefine_run base base_positive fixed_objects fuel S K C Vv Uv Nv P F c Has).
  - exact (define_run base base_positive fixed_objects fuel S Y C Vv Uv Nv P F Fixed K0 Space Has).
Qed.

(** A definition that returns leaves a good heap, where the variable means
    the new value. *)
Lemma define_means s' r : result = Value (PRIM_DONE, r) s' ->
  exists blk', included blk blk' /\ reference base fuel blk' s' e symbol fs last
               /\ meaning base (mem s') symbol fs last = value_result base (mem s) v.
Proof.
  pose proof define_cases as R. pose proof Ref as [S K Y C]. intros E.
  assert (Top : sees base (mem s) f symbol fs = true).
  { destruct C as [Ch L]. inversion Ch as [e' P' | e' fs' last' P' N Ch']; subst; [congruence |].
    cbn [sees]. now rewrite Z.eqb_refl. }
  assert (D : forall blk' l x, included blk blk' -> state base blk' s' ->
            defined base fuel blk (mem s) (mem s') f symbol l x ->
            exists blk', included blk blk' /\ reference base fuel blk' s' e symbol fs last
                         /\ meaning base (mem s') symbol fs last = x).
  { intros blk' l x I S' H. destruct (H e fs last symbol K Y C) as (C' & M). rewrite Z.eqb_refl, Top in M.
    exists blk'. split; [exact I |]. split; [| apply M].
    split; [exact S' | exact (env_ok_included base _ _ _ I K) | exact (I _ _ Y) | exact C']. }
  destruct (assoc symbol (frame_bindings base (mem s) f true)) as [c|].
  - cbv zeta in R. destruct (assignable true _) in R; [| rewrite R in E; discriminate].
    destruct R as (s1 & R & S1 & H). rewrite R in E. injection E as <- <-.
    destruct (assoc symbol (frame_bindings base (mem s) f false)); [| exact (D blk _ _ (fun _ _ A => A) S1 H)].
    destruct H as (Lo & H). destruct (H e fs last symbol K Y C) as (C' & _ & M).
    rewrite Lo, Z.eqb_refl in M. exists blk. split; [intros a b A; exact A |]. split; [split; assumption | exact M].
  - destruct R as [(n' & b & s1 & R & _) | [(R & _) | (b & s1 & l & R & I & S1 & H & _)]]; rewrite R in E; try discriminate.
    injection E as <- <-. exact (D b _ _ I S1 H).
Qed.

End Define.

(** C5: a definition in the frame of a procedure.  If the frame has the name,
    in its extension or as an argument, the value at the binding's location is
    replaced, whatever it was, except a trap of unknown kind; an argument that
    had been unbound is seen again.  If not, the frame gets a new variable at
    a new location, which the environments that reach the frame without
    meeting another binding see, and no other variable changes; a full
    extension is replaced by a larger one first.  After a definition that
    returns, the heap is well formed and the variable means the new value.
    When the heap is short of room, the code is an interrupt that asks the
    collector for as many words as the heap has not got, with the environments
    as they were; but when the new binding hides one that has a cache, the
    code may end in a fatal termination instead.  The frame is that of a
    procedure, the fixed objects are a vector, and the heap is below the
    address that has no datum. *)
Theorem define_variable_correct base fixed_objects fuel blk s e symbol fs last value n k :
  let v := map_to base fixed_objects (mem s) value in
  let result := define_variable base fixed_objects fuel e symbol value s in
  let f := OBJECT_ADDRESS base e in
  0 < base -> reference base fuel blk s e symbol fs last -> storable base blk (mem s) v ->
  PROCEDURE_FRAME_P e = true -> blk f = Some (Frame_block n) ->
  blk (OBJECT_ADDRESS base fixed_objects) = Some (Vector_block k) -> 1 <= k ->
  4 * (Free s - base) + 100 <= 2 ^ 57 ->
  (forall s' r, result = Value (PRIM_DONE, r) s' ->
     exists blk', included blk blk' /\ reference base fuel blk' s' e symbol fs last
                  /\ meaning base (mem s') symbol fs last = value_result base (mem s) v)
  /\ match assoc symbol (frame_bindings base (mem s) f true) with
     | Some c =>
         let l := location base (mem s) c in
         if assignable true (trap_kind base (mem s) (mem s l))
         then exists s', result = Value (PRIM_DONE, None) s' /\ state base blk s'
              /\ match assoc symbol (frame_bindings base (mem s) f false) with
                 | Some _ => variable_location base (mem s) symbol fs last = Some l
                             /\ assigned base fuel blk (mem s) (mem s') l v
                 | None => defined base fuel blk (mem s) (mem s') f symbol l (value_result base (mem s) v)
                 end
         else result = Value (ERR_ILLEGAL_REFERENCE_TRAP, None) s
     | None =>
         (exists n blk' s', result = Value (PRIM_INTERRUPT n, None) s' /\ GC_NEEDED_P s' n = true
      /\ extends base fuel blk blk' s s' /\ short base s)
         \/ (result = Exit Termination /\ hidden_cached base (mem s) symbol (tl fs) last /\ short base s)
         \/ exists blk' s' l, result = Value (PRIM_DONE, None) s' /\ included blk blk' /\ state base blk' s'
            /\ defined base fuel blk (mem s) (mem s') f symbol l (value_result base (mem s) v) /\ Free s <= l
     end.
Proof.
  intros v result f Hb Ref Sto P F Fx K0 Space. split.
  - exact (define_means Hb Ref Sto P F Fx K0 Space).
  - exact (define_cases Hb Ref Sto P F Fx K0 Space).
Qed.

(** ** A small heap

    The frame of an application of a procedure of one argument [x], which is
    7, in the global environment.  There [x] is 42, and [y] is 5 in a cache. *)

Definition words (l : list (Z * Z)) : memory := fun a => match assoc a l with Some w => w | None => 0 end.

Fixpoint blocks (l : list (Z * kind)) (a : Z) : option kind :=
  match l with
  | [] => None
  | (b, k) :: l => if a =? b then Some k else blocks l a
  end.

Definition sample_blocks : list (Z * kind) :=
  [(1010, Symbol_block); (1012, Symbol_block); (1014, Lambda_block); (1016, Formals_block 1);
   (1019, Procedure_block); (1021, Frame_block 1); (1024, Vector_block 4);
   (1029, Trap_block); (1031, Cache_block); (1034, References_block)].

Definition sample_x : Z := MAKE_POINTER_OBJECT 1000 TC_INTERNED_SYMBOL 1010.
Definition sample_y : Z := MAKE_POINTER_OBJECT 1000 TC_INTERNED_SYMBOL 1012.
Definition sample_environment : Z := MAKE_POINTER_OBJECT 1000 TC_ENVIRONMENT 1021.
Definition sample_fixed : Z := MAKE_POINTER_OBJECT 1000 TC_VECTOR 1024.

Definition sample (limit : Z) : machine :=
  mk_machine
    (words
      [(1011, MAKE_OBJECT TC_FIXNUM 42); (1013, MAKE_POINTER_OBJECT 1000 TC_REFERENCE_TRAP 1029);
       (1015, MAKE_POINTER_OBJECT 1000 TC_VECTOR 1016); (1016, 2); (1018, sample_x);
       (1019, MAKE_POINTER_OBJECT 1000 TC_VECTOR 1014); (1020, THE_GLOBAL_ENV);
       (1021, 2); (1022, MAKE_POINTER_OBJECT 1000 TC_LIST 1019); (1023, MAKE_OBJECT TC_FIXNUM 7);
       (1024, 4); (1025, MAKE_OBJECT TC_CONSTANT 7);
       (1029, LONG_TO_UNSIGNED_FIXNUM TRAP_COMPILER_CACHED); (1030, MAKE_POINTER_OBJECT 1000 TC_HUNK3 1031);
       (1031, MAKE_OBJECT TC_FIXNUM 5); (1033, MAKE_POINTER_OBJECT 1000 TC_HUNK3 1034);
       (1034, EMPTY_LIST); (1035, EMPTY_LIST); (1036, EMPTY_LIST)])
    1040 1000 limit true.

Lemma blocks_In l a k : blocks l a = Some k -> In (a, k) l.
Proof.
  induction l as [| [b k'] l IH]; cbn [blocks In]; [discriminate |].
  destruct (Z.eqb_spec a b) as [-> |]; [intros [= ->]; auto | auto].
Qed.

(** Each block of the list in turn. *)
Ltac each_block H := apply blocks_In in H; cbn [sample_blocks In] in H;
  repeat (destruct H as [H | H]; [first [exfalso; congruence | injection H as <- <- | injection H as <- <- <-] |]); try contradiction.

Lemma sample_apart : apart 1000 (blocks sample_blocks) 1040.
Proof.
  split.
  - intros a k H. each_block H; cbn [size]; lia.
  - intros a b k k' H H' N. each_block H; each_block H'; cbn [size]; lia.
Qed.

Lemma sample_frame limit : wf_frame 1000 (blocks sample_blocks) (mem (sample limit)) 1021 1.
Proof.
  split.
  - lia.
  - reflexivity.
  - reflexivity.
  - intros i Hi. assert (i = 0) as -> by lia. intros T. discriminate T.
  - vm_compute. repeat constructor; cbn; tauto.
  - vm_compute. constructor.
Qed.

Lemma sample_wf limit : wf 1000 (blocks sample_blocks) (mem (sample limit)).
Proof.
  split.
  - intros a k H. each_block H; cbn [wf_block]; try reflexivity; try exact (sample_frame limit).
    + intros T. discriminate T.
    + intros _ _. reflexivity.
    + exists 1. reflexivity.
    + split; [lia | reflexivity].
    + split; [reflexivity | intros T; discriminate T].
    + split; [intros T; discriminate T |]. split; [discriminate | split; reflexivity].
    + repeat split.
  - intros f g n n' H H' V V'. each_block H; discriminate V.
  - intros f g n n' p H H' V V'. each_block H; destruct V.
Qed.

Lemma sample_chain limit : chain 1000 (mem (sample limit)) sample_environment [sample_environment] THE_GLOBAL_ENV.
Proof. constructor; [reflexivity | vm_compute; discriminate | now constructor]. Qed.

Lemma sample_reference limit y :
  blocks sample_blocks (OBJECT_ADDRESS 1000 y) = Some Symbol_block ->
  reference 1000 5 (blocks sample_blocks) (sample limit) sample_environment y [sample_environment] THE_GLOBAL_ENV.
Proof.
  intros Y. split.
  - split; [exact sample_apart | apply sample_wf | cbn; lia].
  - intros _. exists 1. reflexivity.
  - exact Y.
  - split; [apply sample_chain | cbn; lia].
Qed.

Lemma sample_storable limit n : 0 <= n < 100 ->
  storable 1000 (blocks sample_blocks) (mem (sample limit)) (MAKE_OBJECT TC_FIXNUM n).
Proof.
  intros Hn. assert (T : REFERENCE_TRAP_P (MAKE_OBJECT TC_FIXNUM n) = false).
  { unfold REFERENCE_TRAP_P. destruct (MAKE_OBJECT_parts TC_FIXNUM n) as [-> _]; [lia | lia | reflexivity]. }
  split.
  - intros T'. congruence.
  - intros E. rewrite E in T. discriminate T.
  - unfold trap_kind. rewrite T. discriminate.
Qed.

Lemma sample_map_to limit n : 0 <= n < 100 ->
  map_to 1000 sample_fixed (mem (sample limit)) (MAKE_OBJECT TC_FIXNUM n) = MAKE_OBJECT TC_FIXNUM n.
Proof.
  intros Hn. unfold map_to. replace (external 1000 sample_fixed (mem (sample limit))) with (MAKE_OBJECT TC_CONSTANT 7) by reflexivity.
  destruct (Z.eqb_spec (MAKE_OBJECT TC_FIXNUM n) (MAKE_OBJECT TC_CONSTANT 7)) as [E |]; [| reflexivity].
  exfalso. apply (f_equal OBJECT_TYPE) in E.
  destruct (MAKE_OBJECT_parts TC_FIXNUM n) as [E' _]; [lia | lia |].
  destruct (MAKE_OBJECT_parts TC_CONSTANT 7) as [E'' _]; [lia | lia |]. lia.
Qed.

(** [x] is 7 in the frame, and [y] 5. *)
Lemma lookup_variable_correct_witness :
  lookup_variable 1000 5 sample_environment sample_x (sample 2000) = Value (PRIM_DONE, Some (MAKE_OBJECT TC_FIXNUM 7)) (sample 2000)
  /\ lookup_variable 1000 5 sample_environment sample_y (sample 2000) = Value (PRIM_DONE, Some (MAKE_OBJECT TC_FIXNUM 5)) (sample 2000).
Proof.
  split.
  - exact (proj1 (lookup_variable_correct 1000 sample_fixed 5 _ _ _ sample_x _ _ ltac:(lia) (sample_reference 2000 sample_x eq_refl))).
  - exact (proj1 (lookup_variable_correct 1000 sample_fixed 5 _ _ _ sample_y _ _ ltac:(lia) (sample_reference 2000 sample_y eq_refl))).
Defined.

(** An assignment to [y] changes its cache. *)
Lemma assign_variable_correct_witness : exists s',
  assign_variable 1000 sample_fixed 5 sample_environment sample_y (MAKE_OBJECT TC_FIXNUM 6) (sample 2000)
  = Value (PRIM_DONE, Some (MAKE_OBJECT TC_FIXNUM 5)) s'
  /\ state 1000 (blocks sample_blocks) s'
  /\ assigned 1000 5 (blocks sample_blocks) (mem (sample 2000)) (mem s') 1031 (MAKE_OBJECT TC_FIXNUM 6).
Proof.
  exact (assign_variable_correct 1000 sample_fixed 5 _ _ _ sample_y _ _ (MAKE_OBJECT TC_FIXNUM 6) ltac:(lia)
           (sample_reference 2000 sample_y eq_refl) (sample_storable 2000 6 ltac:(lia)) eq_refl).
Defined.

(** Definitions: [x] in its cell, and, with room, [y] in a new one.  With
    room for the extension and the pair only, the second ends the program;
    without room for the extension, or for the pair, it asks for that. *)
Lemma define_variable_correct_witness :
  (exists s', define_variable 1000 sample_fixed 5 sample_environment sample_x (MAKE_OBJECT TC_FIXNUM 9) (sample 2000)
              = Value (PRIM_DONE, None) s'
              /\ meaning 1000 (mem s') sample_x [sample_environment] THE_GLOBAL_ENV = (PRIM_DONE, Some (MAKE_OBJECT TC_FIXNUM 9)))
  /\ (exists s', define_variable 1000 sample_fixed 5 sample_environment sample_y (MAKE_OBJECT TC_FIXNUM 9) (sample 2000)
                 = Value (PRIM_DONE, None) s'
                 /\ meaning 1000 (mem s') sample_y [sample_environment] THE_GLOBAL_ENV = (PRIM_DONE, Some (MAKE_OBJECT TC_FIXNUM 9)))
  /\ define_variable 1000 sample_fixed 5 sample_environment sample_y (MAKE_OBJECT TC_FIXNUM 9) (sample 1065) = Exit Termination
  /\ (exists s', define_variable 1000 sample_fixed 5 sample_environment sample_y (MAKE_OBJECT TC_FIXNUM 9) (sample 1050)
                 = Value (PRIM_INTERRUPT 20, None) s')
  /\ (exists s', define_variable 1000 sample_fixed 5 sample_environment sample_y (MAKE_OBJECT TC_FIXNUM 9) (sample 1060)
                 = Value (PRIM_INTERRUPT 2, None) s').
Proof.
  split; [| split; [| split; [vm_compute; reflexivity | split; eexists; vm_compute; reflexivity]]].
  - destruct (define_variable 1000 sample_fixed 5 sample_environment sample_x (MAKE_OBJECT TC_FIXNUM 9) (sample 2000)) as [[c r] s' |] eqn:E;
      [| exfalso; revert E; vm_compute; discriminate].
    assert (c = PRIM_DONE /\ r = None) as [-> ->] by (revert E; vm_compute; intros [= <- <- _]; auto).
    exists s'. split; [reflexivity |].
    destruct (proj1 (define_variable_correct 1000 sample_fixed 5 _ _ _ sample_x _ _ (MAKE_OBJECT TC_FIXNUM 9) 1 4 ltac:(lia)
             (sample_reference 2000 sample_x eq_refl) (sample_storable 2000 9 ltac:(lia)) eq_refl eq_refl eq_refl ltac:(lia) ltac:(cbn; lia)) s' None E)
      as (blk' & _ & _ & M). exact M.
  - destruct (define_variable 1000 sample_fixed 5 sample_environment sample_y (MAKE_OBJECT TC_FIXNUM 9) (sample 2000)) as [[c r] s' |] eqn:E;
      [| exfalso; revert E; vm_compute; discriminate].
    assert (c = PRIM_DONE /\ r = None) as [-> ->] by (revert E; vm_compute; intros [= <- <- _]; auto).
    exists s'. split; [reflexivity |].
    destruct (proj1 (define_variable_correct 1000 sample_fixed 5 _ _ _ sample_y _ _ (MAKE_OBJECT TC_FIXNUM 9) 1 4 ltac:(lia)
             (sample_reference 2000 sample_y eq_refl) (sample_storable 2000 9 ltac:(lia)) eq_refl eq_refl eq_refl ltac:(lia) ltac:(cbn; lia)) s' None E)
      as (blk' & _ & _ & M). exact M.
Defined.
