(* ===== verification/EnvPrim.v ===== *)
(** * Environment primitives (src/src/microcode/lookprm.c)

    The primitives check the types of their arguments and call the operations
    of Environment.v.  A result code other than [PRIM_DONE] becomes an
    interrupt or an error signalled from the primitive. *)

From Stdlib Require Import ZArith List Lia Bool.
From S2P Require Import Prelude.
From S2P Require Import Object.
From S2P Require Import Memory.
From S2P Require Import Heap.
From S2P Require Import Symbol.
From S2P Require Import Environment.
From S2P Require Import EnvSpec.
From S2P Require Import EnvInv.
From S2P Require Import EnvAssign.
From S2P Require Import EnvProps.
Import ListNotations.

Notation UNSPECIFIC := (MAKE_OBJECT TC_CONSTANT 1).

(** How a primitive ends: with an object, by
    [signal_interrupt_from_primitive] when a collection for [n_words] has been
    requested, or by [signal_error_from_primitive]. *)
Inductive outcome := Returned (object : Z) | Interrupted (n_words : Z) | Signalled (c : code).

Section Primitives.
Local Open Scope act_scope.
Variable memory_base : Z.
Variable fixed_objects : Z.
Variable fuel : nat.

Definition CHECK_ARG (n : Z) (p : Z -> bool) (object : Z) (k : act outcome) : act outcome :=
  if p object then k else leave (Abort (error_wrong_type_arg n)).

Definition STD_LOOKUP (expression : act res) (k : Z -> act outcome) : act outcome :=
  r <- expression ;;
  match r with
  | (PRIM_DONE, Some v) => k v
  | (PRIM_DONE, None) => k 0
  | (PRIM_INTERRUPT n, _) => ret (Interrupted n)
  | (c, _) => ret (Signalled c)
  end.

Definition Prim_lexical_reference (env symbol : Z) : act outcome :=
  CHECK_ARG 1 ENVIRONMENT_P env (CHECK_ARG 2 SYMBOL_P symbol (
    STD_LOOKUP (lookup_variable memory_base fuel env symbol) (fun value => ret (Returned value)))).

Definition Prim_local_reference (env symbol : Z) : act outcome :=
  CHECK_ARG 1 ENVIRONMENT_P env (CHECK_ARG 2 SYMBOL_P symbol (
    STD_LOOKUP (lookup_variable memory_base fuel env symbol) (fun value => ret (Returned value)))).

Definition Prim_lexical_assignment (env symbol value : Z) : act outcome :=
  CHECK_ARG 1 ENVIRONMENT_P env (CHECK_ARG 2 SYMBOL_P symbol (
    STD_LOOKUP (assign_variable memory_base fixed_objects fuel env symbol value) (fun old => ret (Returned old)))).

Definition Prim_local_assignment (env symbol value : Z) : act outcome :=
  CHECK_ARG 1 ENVIRONMENT_P env (CHECK_ARG 2 SYMBOL_P symbol (
    STD_LOOKUP (define_variable memory_base fixed_objects fuel env symbol value) (fun _ => ret (Returned symbol)))).

Definition Prim_lexical_reference_type (env symbol : Z) : act outcome :=
  CHECK_ARG 1 ENVIRONMENT_P env (CHECK_ARG 2 SYMBOL_P symbol (
    r <- lookup_variable memory_base fuel env symbol ;;
    match fst r with
    | ERR_UNBOUND_VARIABLE => ret (Returned (LONG_TO_UNSIGNED_FIXNUM 0))
    | ERR_UNASSIGNED_VARIABLE => ret (Returned (LONG_TO_UNSIGNED_FIXNUM 1))
    | PRIM_DONE => ret (Returned (LONG_TO_UNSIGNED_FIXNUM 2))
    | ERR_MACRO_BINDING => ret (Returned (LONG_TO_UNSIGNED_FIXNUM 3))
    | PRIM_INTERRUPT n => ret (Interrupted n)
    | c => ret (Signalled c)
    end)).

Definition Prim_safe_lexical_reference (env symbol : Z) : act outcome :=
  CHECK_ARG 1 ENVIRONMENT_P env (CHECK_ARG 2 SYMBOL_P symbol (
    r <- lookup_variable memory_base fuel env symbol ;;
    match r with
    | (PRIM_DONE, Some value) | (ERR_MACRO_BINDING, Some value) => ret (Returned value)
    | (PRIM_DONE, None) | (ERR_MACRO_BINDING, None) => ret (Returned 0)
    | (ERR_UNASSIGNED_VARIABLE, _) => ret (Returned UNASSIGNED_OBJECT)
    | (PRIM_INTERRUPT n, _) => ret (Interrupted n)
    | (c, _) => ret (Signalled c)
    end)).

Definition Prim_unassigned_test (env symbol : Z) : act outcome :=
  CHECK_ARG 1 ENVIRONMENT_P env (CHECK_ARG 2 SYMBOL_P symbol (
    STD_LOOKUP (variable_unassigned_p memory_base fuel env symbol) (fun value => ret (Returned value)))).

Definition Prim_unbound_test (env symbol : Z) : act outcome :=
  CHECK_ARG 1 ENVIRONMENT_P env (CHECK_ARG 2 SYMBOL_P symbol (
    STD_LOOKUP (variable_unbound_p memory_base fuel env symbol) (fun value => ret (Returned value)))).

(** This one does not check its arguments. *)
Definition Prim_unreferenceable_test (env symbol : Z) : act outcome :=
  STD_LOOKUP (variable_unreferenceable_p memory_base fuel env symbol) (fun value => ret (Returned value)).

Definition Prim_environment_link_name (env1 env2 symbol : Z) : act outcome :=
  CHECK_ARG 1 ENVIRONMENT_P env1 (CHECK_ARG 2 ENVIRONMENT_P env2 (CHECK_ARG 3 SYMBOL_P symbol (
    STD_LOOKUP (link_variables memory_base fixed_objects fuel env1 symbol env2 symbol)
      (fun _ => ret (Returned UNSPECIFIC))))).

Definition Prim_link_variables (env1 symbol1 env2 symbol2 : Z) : act outcome :=
  CHECK_ARG 1 ENVIRONMENT_P env1 (CHECK_ARG 2 SYMBOL_P symbol1 (
    CHECK_ARG 3 ENVIRONMENT_P env2 (CHECK_ARG 4 SYMBOL_P symbol2 (
      STD_LOOKUP (link_variables memory_base fixed_objects fuel env1 symbol1 env2 symbol2)
        (fun _ => ret (Returned UNSPECIFIC)))))).

Definition Prim_unbind_variable (env symbol : Z) : act outcome :=
  CHECK_ARG 1 ENVIRONMENT_P env (CHECK_ARG 2 SYMBOL_P symbol (
    STD_LOOKUP (unbind_variable memory_base fixed_objects fuel env symbol) (fun value => ret (Returned value)))).

End Primitives.

(** ** What the primitives answer *)

Definition reference_outcome (x : status) : outcome :=
  match x with
  | Bound v => Returned v
  | Unassigned => Signalled ERR_UNASSIGNED_VARIABLE
  | Unbound => Signalled ERR_UNBOUND_VARIABLE
  | Macro _ => Signalled ERR_MACRO_BINDING
  | Illegal => Signalled ERR_ILLEGAL_REFERENCE_TRAP
  end.

Definition type_outcome (x : status) : outcome :=
  match x with
  | Unbound => Returned (LONG_TO_UNSIGNED_FIXNUM 0)
  | Unassigned => Returned (LONG_TO_UNSIGNED_FIXNUM 1)
  | Bound _ => Returned (LONG_TO_UNSIGNED_FIXNUM 2)
  | Macro _ => Returned (LONG_TO_UNSIGNED_FIXNUM 3)
  | Illegal => Signalled ERR_ILLEGAL_REFERENCE_TRAP
  end.

Definition safe_outcome (x : status) : outcome :=
  match x with
  | Bound v | Macro v => Returned v
  | Unassigned => Returned UNASSIGNED_OBJECT
  | x => reference_outcome x
  end.

(** Contrary to its description, LEXICAL-UNASSIGNED? is an error for a
    variable that is unbound or a macro. *)
Definition unassigned_outcome (x : status) : outcome :=
  match x with Unassigned => Returned SHARP_T | Bound _ => Returned SHARP_F | x => reference_outcome x end.
Definition unbound_outcome (x : status) : outcome :=
  match x with Unbound => Returned SHARP_T | Illegal => reference_outcome x | _ => Returned SHARP_F end.
Definition unreferenceable_outcome (x : status) : outcome :=
  match x with Bound _ => Returned SHARP_F | Illegal => reference_outcome x | _ => Returned SHARP_T end.

(** With the errors for wrong arguments, in order. *)
Definition on_arguments (e symbol : Z) (x : outcome) (s : machine) : run outcome :=
  if ENVIRONMENT_P e
  then if SYMBOL_P symbol then Value x s else Exit (Abort (error_wrong_type_arg 2))
  else Exit (Abort (error_wrong_type_arg 1)).

Lemma std_lookup_run e k s r s' : e s = Value r s' ->
  STD_LOOKUP e k s = match r with
                     | (PRIM_DONE, Some v) => k v s'
                     | (PRIM_DONE, None) => k 0 s'
                     | (PRIM_INTERRUPT n, _) => Value (Interrupted n) s'
                     | (c, _) => Value (Signalled c) s'
                     end.
Proof. intros E. unfold STD_LOOKUP. rewrite (bind_value _ _ _ _ _ _ _ E). destruct r as [[] []]; reflexivity. Qed.

Lemma status_plain base m v : REFERENCE_TRAP_P v = false -> status_of base m v = Bound v.
Proof. intros T. unfold status_of, trap_kind. now rewrite T. Qed.

(** A reference by a primitive. *)
Lemma lexical_reference_run base fuel blk s e symbol fs last :
  0 < base -> reference base fuel blk s e symbol fs last ->
  Prim_lexical_reference base fuel e symbol s
  = on_arguments e symbol (reference_outcome (status_in base (mem s) symbol fs last)) s.
Proof.
  intros Hb [S K Y C]. unfold Prim_lexical_reference, CHECK_ARG, on_arguments.
  destruct (ENVIRONMENT_P e) eqn:He; [| reflexivity]. destruct (SYMBOL_P symbol) eqn:Hs; [| reflexivity].
  rewrite (std_lookup_run _ _ _ _ _ (lookup_run base Hb fuel S K Y C He Hs)), meaning_status.
  destruct (status_in base (mem s) symbol fs last); reflexivity.
Qed.

(** C36: in a well-formed heap the primitives that refer to a variable answer
    by the status of the variable.  All but LEXICAL-UNREFERENCEABLE? first check
    their arguments in order, with a wrong-type error; LEXICAL-UNREFERENCEABLE?
    signals a bad frame for wrong arguments.  A variable with a trap of unknown
    kind is an error for all of them.  LEXICAL-UNASSIGNED? is an error for
    unbound variables and macros as well.  The descriptions of the three tests
    say that they return #T or #F in these cases.  After LOCAL-ASSIGNMENT of an
    object that is no trap, in the frame of a procedure, has returned,
    LEXICAL-REFERENCE gives that object. *)
Theorem environment_primitives base fixed_objects fuel blk s e symbol fs last :
  0 < base -> reference base fuel blk s e symbol fs last ->
  let x := status_in base (mem s) symbol fs last in
  Prim_lexical_reference base fuel e symbol s = on_arguments e symbol (reference_outcome x) s
  /\ Prim_local_reference base fuel e symbol s = on_arguments e symbol (reference_outcome x) s
  /\ Prim_lexical_reference_type base fuel e symbol s = on_arguments e symbol (type_outcome x) s
  /\ Prim_safe_lexical_reference base fuel e symbol s = on_arguments e symbol (safe_outcome x) s
  /\ Prim_unassigned_test base fuel e symbol s = on_arguments e symbol (unassigned_outcome x) s
  /\ Prim_unbound_test base fuel e symbol s = on_arguments e symbol (unbound_outcome x) s
  /\ Prim_unreferenceable_test base fuel e symbol s
     = Value (if ENVIRONMENT_P e && SYMBOL_P symbol then unreferenceable_outcome x else Signalled ERR_BAD_FRAME) s
  /\ (forall value n k s' r,
        PROCEDURE_FRAME_P e = true -> blk (OBJECT_ADDRESS base e) = Some (Frame_block n) ->
        blk (OBJECT_ADDRESS base fixed_objects) = Some (Vector_block k) -> 1 <= k ->
        4 * (Free s - base) + 100 <= 2 ^ 57 ->
        REFERENCE_TRAP_P value = false -> value <> external base fixed_objects (mem s) ->
        Prim_local_assignment base fixed_objects fuel e symbol value s = Value (Returned r) s' ->
        r = symbol /\ Prim_lexical_reference base fuel e symbol s' = Value (Returned value) s').
Proof.
  intros Hb Ref x. pose proof Ref as [S K Y C].
  assert (L : ENVIRONMENT_P e = true -> SYMBOL_P symbol = true ->
              lookup_variable base fuel e symbol s = Value (lookup_answer x) s).
  { intros He Hs. rewrite (lookup_run base Hb fuel S K Y C He Hs). now rewrite meaning_status. }
  pose proof (lexical_reference_run base fuel blk s e symbol fs last Hb Ref) as R.
  split; [exact R |]. split; [exact R |].
  split; [| split; [| split; [| split; [| split]]]].
  1-4: unfold Prim_lexical_reference_type, Prim_safe_lexical_reference, Prim_unassigned_test, Prim_unbound_test,
         variable_unassigned_p, variable_unbound_p, STD_LOOKUP, CHECK_ARG, on_arguments;
       destruct (ENVIRONMENT_P e); [| reflexivity]; destruct (SYMBOL_P symbol); [| reflexivity];
       rewrite ?bind_assoc, (bind_value _ _ _ _ _ _ _ (L eq_refl eq_refl)); destruct x; reflexivity.
  - unfold Prim_unreferenceable_test, variable_unreferenceable_p, STD_LOOKUP. rewrite bind_assoc.
    destruct (ENVIRONMENT_P e && SYMBOL_P symbol) eqn:A.
    + apply andb_true_iff in A as [He Hs]. rewrite (bind_value _ _ _ _ _ _ _ (L He Hs)). destruct x; reflexivity.
    + assert (B : lookup_variable base fuel e symbol s = Value (ERR_BAD_FRAME, None) s) by (unfold lookup_variable; now rewrite A).
      rewrite (bind_value _ _ _ _ _ _ _ B). reflexivity.
  - intros value n k s' r P F Fx K0 Space Tr Ex E.
    assert (Ev : map_to base fixed_objects (mem s) value = value).
    { unfold map_to. destruct (Z.eqb_spec value (external base fixed_objects (mem s))); [contradiction | reflexivity]. }
    assert (Sto : storable base blk (mem s) (map_to base fixed_objects (mem s) value)).
    { rewrite Ev. split; [intros T; congruence | intros ->; discriminate Tr | unfold trap_kind; rewrite Tr; discriminate]. }
    unfold Prim_local_assignment, CHECK_ARG in E.
    destruct (ENVIRONMENT_P e) eqn:He; [| discriminate]. destruct (SYMBOL_P symbol) eqn:Hs; [| discriminate].
    destruct (define_variable base fixed_objects fuel e symbol value s) as [[c v'] s1 |] eqn:D;
      [| unfold STD_LOOKUP, bind in E; rewrite D in E; discriminate].
    rewrite (std_lookup_run _ _ _ _ _ D) in E.
    assert (c = PRIM_DONE /\ r = symbol /\ s' = s1) as (-> & -> & ->).
    { destruct c, v'; try discriminate; injection E as <- <-; auto. }
    split; [reflexivity |].
    destruct (define_means Hb Ref Sto P F Fx K0 Space s1 v' D) as (blk' & _ & Ref' & M).
    rewrite (lexical_reference_run base fuel blk' s1 e symbol fs last Hb Ref').
    rewrite meaning_status, value_result_status, Ev, (status_plain _ _ _ Tr) in M.
    unfold on_arguments. rewrite He, Hs. f_equal.
    destruct (status_in base (mem s1) symbol fs last); try discriminate. injection M as ->. reflexivity.
Qed.

(** 8 defined as [y] and looked up. *)
Lemma environment_primitives_witness : exists s',
  Prim_local_assignment 1000 sample_fixed 5 sample_environment sample_y (MAKE_OBJECT TC_FIXNUM 8) (sample 2000)
  = Value (Returned sample_y) s'
  /\ Prim_lexical_reference 1000 5 sample_environment sample_y s' = Value (Returned (MAKE_OBJECT TC_FIXNUM 8)) s'.
Proof.
  destruct (Prim_local_assignment 1000 sample_fixed 5 sample_environment sample_y (MAKE_OBJECT TC_FIXNUM 8) (sample 2000))
    as [r s' |] eqn:E; [| exfalso; revert E; vm_compute; discriminate].
  assert (r = Returned sample_y) as -> by (revert E; vm_compute; intros [= <- _]; reflexivity).
  exists s'. split; [reflexivity |].
  destruct (environment_primitives 1000 sample_fixed 5 _ _ _ sample_y _ _ ltac:(lia) (sample_reference 2000 sample_y eq_refl))
    as (_ & _ & _ & _ & _ & _ & _ & D).
  exact (proj2 (D (MAKE_OBJECT TC_FIXNUM 8) 1 4 s' _ eq_refl eq_refl eq_refl ltac:(lia) ltac:(cbn; lia) eq_refl
                  ltac:(vm_compute; discriminate) E)).
Defined.
