(* ===== verification/SymbolSpec.v ===== *)
(** * Buckets of the symbol table (for Symbol.v)

    A bucket is a chain of pairs.  Both loops over a bucket walk it in the
    same way: pairs whose symbol was dropped by a collection are taken out,
    the others are passed until one is found.  The walk is proved once, for
    any function that makes its steps. *)

From Stdlib Require Import ZArith List Lia Bool.
From S2P Require Import Prelude.
From S2P Require Import Object.
From S2P Require Import Memory.
From S2P Require Import Heap.
From S2P Require Import Symbol.
From S2P Require Import EnvSpec.
Import ListNotations.

#[local] Opaque MAKE_OBJECT OBJECT_DATUM OBJECT_TYPE OBJECT_ADDRESS.

(** ** The walk of a list of pairs *)

Fixpoint walk (live hit : Z -> bool) (ps : list Z) : list Z * list Z :=
  match ps with
  | [] => ([], [])
  | p :: ps =>
      if live p then
        if hit p then ([], p :: ps)
        else let (x, y) := walk live hit ps in (p :: x, y)
      else walk live hit ps
  end.

Lemma walk_sub live hit ps p : let (x, y) := walk live hit ps in In p (x ++ y) -> In p ps.
Proof.
  induction ps as [|q ps IH]; cbn [walk In]; [auto |].
  destruct (live q); [| destruct (walk live hit ps); auto].
  destruct (hit q); [cbn [app In]; auto |]. destruct (walk live hit ps). cbn [app In]. tauto.
Qed.

Lemma walk_nodup live hit ps : NoDup ps -> let (x, y) := walk live hit ps in NoDup (x ++ y).
Proof.
  induction ps as [|q ps IH]; cbn [walk]; [constructor |]. rewrite NoDup_cons_iff. intros [N D].
  specialize (IH D). destruct (live q); [| exact IH].
  destruct (hit q); [now constructor |]. pose proof (fun p => walk_sub live hit ps p) as Sub.
  destruct (walk live hit ps) as [x y]. cbn [app]. constructor; [| exact IH]. intros H. exact (N (Sub q H)).
Qed.

(** Live pairs stay; what is before the hit is live and no hit. *)
Lemma walk_live live hit ps p : live p = true -> In p ps -> let (x, y) := walk live hit ps in In p (x ++ y).
Proof.
  intros L. induction ps as [|q ps IH]; cbn [walk In]; [tauto |]. intros [-> | H].
  - rewrite L. destruct (hit p); [cbn [app In]; auto |]. destruct (walk live hit ps). cbn [app In]. auto.
  - specialize (IH H). destruct (live q); [| exact IH].
    destruct (hit q); [cbn [app In]; auto |]. destruct (walk live hit ps). cbn [app In]. auto.
Qed.

Lemma walk_found live hit ps : let (x, y) := walk live hit ps in
  match y with
  | p :: _ => live p = true /\ hit p = true
  | [] => forall p, In p ps -> live p = true -> hit p = false
  end.
Proof.
  induction ps as [|q ps IH]; cbn [walk]; [intros p [] |].
  destruct (live q) eqn:L; [destruct (hit q) eqn:H; [auto |] |]; destruct (walk live hit ps) as [x [|r y]];
    try exact IH; intros p [<- | Hp] Lp; try congruence; now apply IH.
Qed.

Section Symbols.
Variable base : Z.
Notation addr := (OBJECT_ADDRESS base).

Definition is_link (w : Z) : bool := WEAK_PAIR_P w || PAIR_P w.

(** The pairs of the chain that starts in the cell [a].  The word at its end
    is not taken for a symbol. *)
Inductive bucket (m : memory) : Z -> list Z -> Prop :=
  | bucket_end a : is_link (m a) = false -> INTERNED_SYMBOL_P (m a) = false -> bucket m a []
  | bucket_link a ps : is_link (m a) = true -> bucket m (addr (m a) + 1) ps -> bucket m a (addr (m a) :: ps).

(** The cell after the pairs. *)
Fixpoint last_cell (a : Z) (ps : list Z) : Z :=
  match ps with [] => a | p :: ps => last_cell (p + 1) ps end.

Lemma bucket_ext m m' a b ps :
  bucket m a ps -> m' b = m a -> (forall p, In p ps -> m' (p + 1) = m (p + 1)) -> bucket m' b ps.
Proof.
  intros H. revert b. induction H as [a L I | a ps L H IH]; intros b E K.
  - apply bucket_end; now rewrite E.
  - rewrite <- E. apply bucket_link; [now rewrite E |]. rewrite E. apply IH; [apply K; now left |].
    intros p Hp. apply K. now right.
Qed.

Lemma bucket_fun m a ps ps' : bucket m a ps -> bucket m a ps' -> ps = ps'.
Proof.
  intros H. revert ps'. induction H as [a L I | a ps L H IH]; intros ps' H'; inversion H'; subst; try congruence.
  f_equal. now apply IH.
Qed.

Lemma bucket_last m a ps : bucket m a ps ->
  is_link (m (last_cell a ps)) = false /\ INTERNED_SYMBOL_P (m (last_cell a ps)) = false.
Proof. induction 1; cbn [last_cell]; auto. Qed.

Lemma last_cell_cases a ps : last_cell a ps = a \/ exists p, In p ps /\ last_cell a ps = p + 1.
Proof.
  revert a. induction ps as [|p ps IH]; intros a; [now left |]. right. cbn [last_cell].
  destruct (IH (p + 1)) as [-> | (q & Hq & ->)]; [exists p | exists q]; cbn [In]; auto.
Qed.

Lemma bucket_app m a x y : bucket m a (x ++ y) -> bucket m (last_cell a x) y.
Proof.
  revert a. induction x as [|p x IH]; intros a; cbn [app last_cell]; [auto |].
  intros H. inversion H as [| a' ps L H' E1 E2]; subst. now apply IH.
Qed.

(** The word that leads to the pair [p]. *)
Fixpoint link_to (m : memory) (a : Z) (ps : list Z) (p : Z) : Z :=
  match ps with
  | [] => 0
  | q :: ps => if p =? q then m a else link_to m (q + 1) ps p
  end.

Lemma link_to_ext m m' a b ps p :
  m' b = m a -> (forall q, In q ps -> m' (q + 1) = m (q + 1)) -> link_to m' b ps p = link_to m a ps p.
Proof.
  revert a b. induction ps as [|q ps IH]; intros a b E K; cbn [link_to]; [reflexivity |].
  destruct (p =? q); [exact E |]. apply IH; [apply K; now left | intros r Hr; apply K; now right].
Qed.

Lemma link_to_app m a x y p : ~ In p x -> link_to m a (x ++ y) p = link_to m (last_cell a x) y p.
Proof.
  revert a. induction x as [|q x IH]; intros a N; cbn [app link_to last_cell]; [reflexivity |].
  destruct (Z.eqb_spec p q) as [-> |]; [now destruct N; left |]. apply IH. intros H. apply N. now right.
Qed.

(** What a store in the link of one pair does to the links of the others. *)
Lemma link_to_store m a x p y w q :
  NoDup (x ++ p :: y) -> (forall r, In r (x ++ p :: y) -> a <> r + 1) ->
  link_to (store m (last_cell a x) w) a (x ++ p :: y) q = if q =? p then w else link_to m a (x ++ p :: y) q.
Proof.
  revert a. induction x as [|r x IH]; intros a ND Na; cbn [app link_to last_cell] in *.
  - destruct (Z.eqb_spec q p); [now rewrite store_same |].
    apply link_to_ext; [apply store_other | intros t Ht; apply store_other]; apply not_eq_sym, Na; auto using in_eq, in_cons.
  - apply NoDup_cons_iff in ND as [Nr ND].
    destruct (Z.eqb_spec q r) as [-> |].
    + destruct (Z.eqb_spec r p) as [-> |]; [destruct Nr; apply in_or_app; right; now left |].
      apply store_other. destruct (last_cell_cases (r + 1) x) as [-> | (t & Ht & ->)]; apply Na; [now left |].
      right. apply in_or_app. now left.
    + apply IH; [exact ND |]. intros t Ht E. apply Nr. now replace r with t by lia.
Qed.

(** A pair put at the end. *)
Lemma bucket_snoc m a ps w :
  bucket m a ps -> NoDup ps -> (forall p, In p ps -> a <> p + 1) ->
  is_link w = true -> is_link (m (addr w + 1)) = false -> INTERNED_SYMBOL_P (m (addr w + 1)) = false ->
  addr w + 1 <> last_cell a ps -> bucket (store m (last_cell a ps) w) a (ps ++ [addr w]).
Proof.
  intros H. induction H as [a L I | a ps L H IH]; intros ND Na Lw Le Ie Nw; cbn [last_cell app] in *.
  - rewrite <- (store_same m a w) at 2. apply bucket_link; rewrite store_same; [exact Lw |].
    apply bucket_end; rewrite store_other; auto.
  - apply NoDup_cons_iff in ND as [Np ND].
    assert (E : store m (last_cell (addr (m a) + 1) ps) w a = m a).
    { apply store_other. destruct (last_cell_cases (addr (m a) + 1) ps) as [-> | (q & Hq & ->)].
      - apply Na. now left.
      - apply Na. now right. }
    rewrite <- E at 2. apply bucket_link; rewrite E; [exact L |].
    apply IH; auto. intros p Hp Eq. apply Np. now replace (addr (m a)) with p by lia.
Qed.

(** The word before a pair replaced by another that leads to the same pair. *)
Lemma bucket_set m a x p y w :
  bucket m a (x ++ p :: y) -> NoDup (x ++ p :: y) -> (forall q, In q (x ++ p :: y) -> a <> q + 1) ->
  is_link w = true -> addr w = p -> bucket (store m (last_cell a x) w) a (x ++ p :: y).
Proof.
  revert a. induction x as [|q x IH]; intros a H ND Na Lw Aw; cbn [last_cell app] in *.
  - revert Aw. inversion H as [| a' ps L H' E1 E2]; subst. intros Aw.
    replace (addr (m a)) with (addr (store m a w a)) by (rewrite store_same; exact Aw).
    apply bucket_link; rewrite store_same; [exact Lw |]. rewrite Aw. apply (bucket_ext m _ _ _ _ H').
    + apply store_other. intros E. exact (Na (addr (m a)) (or_introl eq_refl) (eq_sym E)).
    + intros r Hr. apply store_other. intros E. exact (Na r (or_intror Hr) (eq_sym E)).
  - inversion H as [| a' ps L H' E1 E2]; subst. apply NoDup_cons_iff in ND as [Nq ND].
    assert (E : store m (last_cell (addr (m a) + 1) x) w a = m a).
    { apply store_other. destruct (last_cell_cases (addr (m a) + 1) x) as [-> | (q & Hq & ->)].
      - apply Na. now left.
      - apply Na. right. apply in_or_app. now left. }
    rewrite <- E at 2. apply bucket_link; rewrite E; [exact L |].
    apply IH; auto. intros r Hr Eq. apply Nq. now replace (addr (m a)) with r by lia.
Qed.

(** ** The walk of a bucket *)

Section Walk.
Context {A : Type}.
Variable F : nat -> Z -> act A.
Variables live hit : Z -> bool.
Variables cell ok : Z -> Prop.
Variable m0 : memory.
Definition agree (m : memory) : Prop := forall x, ~ cell x -> m x = m0 x.
Hypothesis skip : forall n a s p, agree (mem s) -> is_link (mem s a) = true -> addr (mem s a) = p ->
  ok p -> live p = true -> hit p = false -> F (S n) a s = F n (p + 1) s.
Hypothesis drop : forall n a s p, agree (mem s) -> is_link (mem s a) = true -> addr (mem s a) = p ->
  ok p -> live p = false -> F (S n) a s = F n a (set_mem s (store (mem s) a (mem s (p + 1)))).

Lemma walk_run ps : forall a s n,
  bucket (mem s) a ps -> (length ps < n)%nat -> agree (mem s) -> cell a ->
  (forall p, In p ps -> cell (p + 1) /\ ok p /\ a <> p + 1) -> NoDup ps ->
  let (x, y) := walk live hit ps in
  exists m' n', F n a s = F (S n') (last_cell a x) (set_mem s m')
    /\ bucket m' a (x ++ y) /\ agree m'
    /\ (forall p, In p (x ++ y) -> link_to m' a (x ++ y) p = link_to (mem s) a ps p)
    /\ (forall c, c <> a -> (forall p, In p ps -> c <> p + 1) -> m' c = mem s c).
Proof.
  induction ps as [|p ps IH]; intros a s n H L Ag Ca Cs ND; cbn [walk length] in *;
    (destruct n as [|n]; [lia |]); inversion H as [a' Le Ie | a' ps' Lk H' E1 E2]; subst.
  - exists (mem s), n. cbn [last_cell app]. split; [now destruct s |]. auto.
  - set (p := addr (mem s a)) in *. destruct (Cs p (or_introl eq_refl)) as (C1 & C2 & Na).
    apply NoDup_cons_iff in ND as [Np ND].
    destruct (live p) eqn:Lv; [destruct (hit p) eqn:Hi |].
    + exists (mem s), n. cbn [last_cell app]. split; [now destruct s |]. auto.
    + rewrite (skip n a s p Ag Lk eq_refl C2 Lv Hi).
      specialize (IH (p + 1) s n H' ltac:(lia) Ag C1).
      destruct (walk live hit ps) as [x y].
      destruct IH as (m' & n' & R & B & Ag' & Lk' & Fr); [| exact ND |].
      { intros q Hq. destruct (Cs q (or_intror Hq)) as (D1 & D2 & _). split; [exact D1 |]. split; [exact D2 |].
        intros E. apply Np. now replace p with q by lia. }
      exists m', n'. cbn [last_cell app]. split; [exact R |].
      assert (E : m' a = mem s a) by (apply Fr; [exact Na | intros q Hq; apply (Cs q (or_intror Hq))]).
      split.
      { unfold p at 1. rewrite <- E. apply bucket_link; rewrite E; [exact Lk | exact B]. }
      split; [exact Ag' |]. split.
      * intros q Hq. cbn [link_to]. fold p. destruct (Z.eqb_spec q p); [exact E |].
        apply Lk'. destruct Hq; [congruence | assumption].
      * intros c Nc Ns. apply Fr; [apply Ns; now left | intros q Hq; apply Ns; now right].
    + rewrite (drop n a s p Ag Lk eq_refl C2 Lv).
      set (m1 := store (mem s) a (mem s (p + 1))).
      assert (B1 : bucket m1 a ps).
      { apply (bucket_ext (mem s) m1 (p + 1) a ps H').
        - apply store_same.
        - intros q Hq. apply store_other. intros E. exact (proj2 (proj2 (Cs q (or_intror Hq))) (eq_sym E)). }
      assert (Ag1 : agree m1).
      { intros x Nx. unfold m1. rewrite store_other; [exact (Ag x Nx) | intros ->; contradiction]. }
      specialize (IH a (set_mem s m1) n B1 ltac:(lia) Ag1 Ca (fun q Hq => Cs q (or_intror Hq)) ND).
      pose proof (fun q => walk_sub live hit ps q) as Sub.
      destruct (walk live hit ps) as [x y]. destruct IH as (m' & n' & R & B & Ag' & Lk' & Fr).
      exists m', n'. split; [exact R |]. split; [exact B |]. split; [exact Ag' |]. split.
      { intros q Hq. rewrite (Lk' q Hq). cbn [link_to]. fold p.
        destruct (Z.eqb_spec q p) as [-> |]; [destruct (Np (Sub p Hq)) |].
        apply link_to_ext; [apply store_same |]. intros r Hr. apply store_other. intros E.
        exact (proj2 (proj2 (Cs r (or_intror Hr))) (eq_sym E)). }
      intros c Nc Ns. rewrite Fr; [unfold m1; cbn [set_mem mem]; now apply store_other | exact Nc | intros q Hq; apply Ns; now right].
Qed.

End Walk.
End Symbols.
