(* ===== verification/SymbolTable.v ===== *)
(** * The symbol table as a map (for Symbol.v)

    What it means that a name is interned, the invariant of the table, and the
    search of a bucket. *)

From Stdlib Require Import ZArith List Lia Bool.
From S2P Require Import Prelude.
From S2P Require Import Object.
From S2P Require Import Memory.
From S2P Require Import Heap.
From S2P Require Import Symbol.
From S2P Require Import Environment.
From S2P Require Import EnvSpec.
From S2P Require Import EnvInv.
From S2P Require Import SymbolSpec.
Import ListNotations.

#[local] Opaque MAKE_OBJECT OBJECT_DATUM OBJECT_TYPE OBJECT_ADDRESS.

Section Table.
Variable base : Z.
Variable fixed_objects : Z.
Notation addr := (OBJECT_ADDRESS base).
Notation bucket := (bucket base).

(** The bytes of the string [name], and of the name of [symbol]. *)
Definition string_of (m : memory) (name : Z) : list Z :=
  bytes_at m (8 * (addr name + 2)) (OBJECT_DATUM (m (addr name + 1))).
Definition name_of (m : memory) (symbol : Z) : list Z := string_of m (m (addr symbol)).

Definition obarray (m : memory) : Z := addr (m (addr fixed_objects + (OBARRAY + 1))).
Definition obarray_length (m : memory) : Z := OBJECT_DATUM (m (obarray m)).
Definition bucket_cell (m : memory) (string : list Z) : Z :=
  obarray m + (string_hash string mod obarray_length m + 1).

(** The pair [p] holds the symbol of the name [string], and the link to it has
    type [t]: a symbol in a weak pair may be dropped by a collection. *)
Definition interned_at (m : memory) (string : list Z) (p t : Z) : Prop :=
  exists ps, bucket m (bucket_cell m string) ps /\ In p ps
             /\ INTERNED_SYMBOL_P (m p) = true /\ name_of m (m p) = string
             /\ OBJECT_TYPE (link_to m (bucket_cell m string) ps p) = t.

Definition held (m : memory) (string : list Z) (symbol t : Z) : Prop :=
  exists p, interned_at m string p t /\ m p = symbol.

Section Blocks.
Variable blk : Z -> option kind.

Definition string_ok (m : memory) (name : Z) : Prop :=
  exists k, blk (addr name) = Some (String_block k) /\ OBJECT_DATUM (m (addr name + 1)) <= 8 * k.

(** A pair of the bucket in [cell]: its symbol, if it has not been dropped,
    has a name that belongs there. *)
Record entry (m : memory) (cell p : Z) : Prop := {
  en_link : blk p = Some Link_block;
  en_symbol : INTERNED_SYMBOL_P (m p) = true ->
    blk (addr (m p)) = Some Symbol_block /\ string_ok m (m (addr (m p)))
    /\ bucket_cell m (name_of m (m p)) = cell
}.

Record table (m : memory) : Prop := {
  tb_fixed : exists k, blk (addr fixed_objects) = Some (Vector_block k) /\ OBARRAY < k;
  tb_obarray : exists n, blk (obarray m) = Some (Vector_block n) /\ obarray_length m = n /\ 0 < n;
  tb_apart : addr fixed_objects <> obarray m;
  tb_bucket : forall i, 0 <= i < obarray_length m ->
    exists ps, bucket m (obarray m + (i + 1)) ps /\ NoDup ps
               /\ forall p, In p ps -> entry m (obarray m + (i + 1)) p;
  tb_disjoint : forall i j ps ps' p, 0 <= i < obarray_length m -> 0 <= j < obarray_length m ->
    bucket m (obarray m + (i + 1)) ps -> bucket m (obarray m + (j + 1)) ps' ->
    In p ps -> In p ps' -> i = j;
  tb_unique : forall string p p' t t', interned_at m string p t -> interned_at m string p' t' -> p = p'
}.

(** The buckets are shorter than [n]. *)
Definition short_buckets (n : nat) (m : memory) : Prop :=
  forall i ps, 0 <= i < obarray_length m -> bucket m (obarray m + (i + 1)) ps -> (length ps < n)%nat.

(** The words that link the table. *)
Definition cell (m : memory) (x : Z) : Prop :=
  (exists i, 0 <= i < obarray_length m /\ x = obarray m + (i + 1)) \/ (exists p, blk p = Some Link_block /\ x = p + 1).

Section Facts.
Context {free : Z} {m : memory}.
Hypothesis AP : apart base blk free.
Hypothesis T : table m.

Lemma not_cell a k i : blk a = Some k -> 0 <= i < size k ->
  match k with Link_block => i = 0 | Vector_block _ => a <> obarray m \/ i = 0 | _ => True end -> ~ cell m (a + i).
Proof.
  intros Hk Hi N [(j & Hj & E) | (p & Hp & E)].
  - destruct (tb_obarray m T) as (n & B & L & _). rewrite L in Hj.
    destruct (word_inj base blk free a (obarray m) k _ i (j + 1) AP Hk B Hi) as [-> Ei]; [cbn [size]; lia | lia |].
    rewrite B in Hk. injection Hk as <-. destruct N as [N | N]; [contradiction | lia].
  - destruct (word_inj base blk free a p k _ i 1 AP Hk Hp Hi) as [-> Ei]; [cbn [size]; lia | lia |].
    rewrite Hp in Hk. injection Hk as <-. lia.
Qed.

Lemma not_cell0 a k : blk a = Some k -> ~ cell m a.
Proof.
  intros Hk. pose proof (ap_range _ _ _ AP _ _ Hk). rewrite <- (Z.add_0_r a). apply (not_cell a k 0 Hk); [lia |].
  destruct k; auto.
Qed.

Section Agree.
Variable m' : memory.
Hypothesis Ag : agree (cell m) m m'.

Lemma agree_word0 a k : blk a = Some k -> m' a = m a.
Proof. intros Hk. apply Ag. exact (not_cell0 a k Hk). Qed.

Lemma agree_obarray : obarray m' = obarray m /\ obarray_length m' = obarray_length m.
Proof.
  destruct (tb_fixed m T) as (k & F & Hk). destruct (tb_obarray m T) as (n & B & _).
  assert (E : obarray m' = obarray m).
  { unfold obarray. f_equal. apply Ag. apply (not_cell _ _ _ F); [cbn [size]; lia |]. left. exact (tb_apart m T). }
  split; [exact E |]. unfold obarray_length. rewrite E. f_equal. exact (agree_word0 _ _ B).
Qed.

Lemma agree_cell string : bucket_cell m' string = bucket_cell m string.
Proof. unfold bucket_cell. destruct agree_obarray as [-> ->]. reflexivity. Qed.

Lemma agree_string name : string_ok m name -> string_of m' name = string_of m name.
Proof.
  intros (k & B & L). unfold string_of.
  assert (E : m' (addr name + 1) = m (addr name + 1)).
  { apply Ag, (not_cell _ _ _ B); [| exact I]. pose proof (ap_range _ _ _ AP _ _ B). cbn [size] in *.
    pose proof (datum_range (m (addr name + 1))). lia. }
  rewrite E. unfold bytes_at. apply map_ext_in. intros j Hj. apply in_seq in Hj.
  unfold byte_at. do 2 f_equal.
  replace ((8 * (addr name + 2) + Z.of_nat j) / 8) with (addr name + (2 + Z.of_nat j / 8))
    by (rewrite (Z.mul_comm 8), Z.div_add_l; lia).
  apply Ag, (not_cell _ _ _ B); [| exact I]. cbn [size].
  pose proof (Z.div_pos (Z.of_nat j) 8 ltac:(lia) ltac:(lia)).
  pose proof (Z.div_lt_upper_bound (Z.of_nat j) 8 k ltac:(lia) ltac:(lia)). lia.
Qed.

Lemma agree_name symbol : blk (addr symbol) = Some Symbol_block -> string_ok m (m (addr symbol)) ->
  name_of m' symbol = name_of m symbol.
Proof. intros B O. unfold name_of. rewrite (agree_word0 _ _ B). exact (agree_string _ O). Qed.

Lemma agree_string_ok name : string_ok m name -> string_ok m' name.
Proof.
  intros (k & B & L). exists k. split; [exact B |]. rewrite Ag; [exact L |].
  apply (not_cell _ _ _ B); [| exact I]. pose proof (ap_range _ _ _ AP _ _ B). cbn [size] in *.
  pose proof (datum_range (m (addr name + 1))). lia.
Qed.

Lemma agree_entry c p : entry m c p -> entry m' c p.
Proof.
  intros [L S]. split; [exact L |]. rewrite (agree_word0 _ _ L). intros I. destruct (S I) as (B & O & C).
  split; [exact B |]. rewrite (agree_word0 _ _ B), (agree_name _ B O), agree_cell.
  split; [exact (agree_string_ok _ O) | exact C].
Qed.

End Agree.
(** ** One bucket changed *)

Lemma hash_cell string : exists i, 0 <= i < obarray_length m /\ bucket_cell m string = obarray m + (i + 1).
Proof.
  destruct (tb_obarray m T) as (n & _ & L & P). eexists. split; [| reflexivity]. rewrite L.
  apply Z.mod_pos_bound. exact P.
Qed.

Section Rebucket.
Variable m' : memory.
Hypothesis Ag : agree (cell m) m m'.
Variable i : Z.
Hypothesis Hi : 0 <= i < obarray_length m.
Notation c := (obarray m + (i + 1)).
Variables ps ps' : list Z.
Hypothesis Old : bucket m c ps.
Hypothesis New : bucket m' c ps'.
Hypothesis ND : NoDup ps'.
Hypothesis Others : forall j ps2, 0 <= j < obarray_length m -> j <> i ->
  bucket m (obarray m + (j + 1)) ps2 -> bucket m' (obarray m + (j + 1)) ps2
    /\ forall p, link_to m' (obarray m + (j + 1)) ps2 p = link_to m (obarray m + (j + 1)) ps2 p.
Hypothesis Kept : forall p, In p ps -> INTERNED_SYMBOL_P (m p) = true -> In p ps'.
Variable retype : Z -> Z -> Z.
Hypothesis Links : forall p, In p ps -> In p ps' ->
  OBJECT_TYPE (link_to m' c ps' p) = retype p (OBJECT_TYPE (link_to m c ps p)).
Hypothesis Types : forall p t, ~ In p ps -> retype p t = t.
(** A pair that was not there before. *)
Definition added (p : Z) : Prop := In p ps' /\ ~ In p ps.
Hypothesis Added_entry : forall p, added p -> entry m c p.
Hypothesis Added_new : forall p j ps2, added p -> 0 <= j < obarray_length m ->
  bucket m (obarray m + (j + 1)) ps2 -> ~ In p ps2.
Hypothesis Added_one : forall p p', added p -> added p' -> p = p'.
Hypothesis Added_name : forall p q t, added p -> INTERNED_SYMBOL_P (m p) = true ->
  ~ interned_at m (name_of m (m p)) q t.

Lemma rebucket_entry p : In p ps' -> entry m c p.
Proof.
  intros Hp. destruct (in_dec Z.eq_dec p ps) as [H | H]; [| exact (Added_entry p (conj Hp H))].
  destruct (tb_bucket m T i Hi) as (ps0 & B & _ & E). rewrite (bucket_fun _ _ _ _ _ Old B) in H. exact (E p H).
Qed.

Lemma rebucket_other j : 0 <= j < obarray_length m -> j <> i ->
  exists ps2, bucket m (obarray m + (j + 1)) ps2
              /\ (bucket m' (obarray m + (j + 1)) ps2
                  /\ forall p, link_to m' (obarray m + (j + 1)) ps2 p = link_to m (obarray m + (j + 1)) ps2 p)
              /\ NoDup ps2
              /\ forall p, In p ps2 -> entry m (obarray m + (j + 1)) p.
Proof.
  intros Hj N. destruct (tb_bucket m T j Hj) as (ps2 & B & D & E). exists ps2. auto.
Qed.

(** The pairs of a bucket of [m'], in [m]. *)
Lemma rebucket_pairs j ps2 p : 0 <= j < obarray_length m -> bucket m' (obarray m + (j + 1)) ps2 -> In p ps2 ->
  entry m (obarray m + (j + 1)) p
  /\ ((exists ps3, bucket m (obarray m + (j + 1)) ps3 /\ In p ps3) \/ (j = i /\ added p)).
Proof.
  intros Hj B Hp. destruct (Z.eq_dec j i) as [-> | N].
  - rewrite (bucket_fun _ _ _ _ _ B New) in Hp. split; [exact (rebucket_entry p Hp) |].
    destruct (in_dec Z.eq_dec p ps) as [H | H]; [left; exists ps; auto | right; split; [reflexivity | split; assumption]].
  - destruct (rebucket_other j Hj N) as (ps3 & B3 & [B3' _] & _ & E). rewrite (bucket_fun _ _ _ _ _ B B3') in Hp.
    split; [exact (E p Hp) |]. left. exists ps3. auto.
Qed.

(** What a pair that is in both tables holds is the same. *)
Lemma rebucket_symbol cell p : entry m cell p -> INTERNED_SYMBOL_P (m p) = true ->
  m' p = m p /\ name_of m' (m p) = name_of m (m p) /\ bucket_cell m (name_of m (m p)) = cell.
Proof.
  intros [L S] I. destruct (S I) as (B & O & C). split; [exact (agree_word0 m' Ag _ _ L) |].
  split; [exact (agree_name m' Ag _ B O) | exact C].
Qed.

Lemma rebucket_old string p t : interned_at m string p t -> interned_at m' string p (retype p t).
Proof.
  intros (ps2 & B & Hp & I & Nm & Ty). destruct (hash_cell string) as (j & Hj & Ej). rewrite Ej in B, Ty.
  destruct (tb_bucket m T j Hj) as (ps3 & B3 & _ & En). rewrite (bucket_fun _ _ _ _ _ B3 B) in En.
  destruct (rebucket_symbol _ p (En p Hp) I) as (E1 & E2 & _).
  unfold interned_at. rewrite (agree_cell m' Ag), Ej, E1, E2.
  destruct (Z.eq_dec j i) as [-> | N].
  - rewrite (bucket_fun _ _ _ _ _ B Old) in *. exists ps'. pose proof (Kept p Hp I) as Hp'.
    repeat (split; [assumption |]). rewrite (Links p Hp Hp'). now rewrite Ty.
  - destruct (Others j ps2 Hj N B) as [B' L']. exists ps2. repeat (split; [assumption |]). rewrite L', Types; [exact Ty |].
    intros Hi'. exact (N (tb_disjoint m T j i _ _ p Hj Hi B Old Hp Hi')).
Qed.

Lemma rebucket_interned string p t :
  interned_at m' string p t <->
    (exists t0, interned_at m string p t0 /\ t = retype p t0)
    \/ (added p /\ INTERNED_SYMBOL_P (m p) = true /\ name_of m (m p) = string
        /\ OBJECT_TYPE (link_to m' c ps' p) = t).
Proof.
  destruct (hash_cell string) as (j & Hj & Ej). split.
  - intros (ps2 & B & Hp & I & Nm & Ty). rewrite (agree_cell m' Ag), Ej in B, Ty.
    destruct (rebucket_pairs j ps2 p Hj B Hp) as [En H].
    rewrite (agree_word0 m' Ag _ _ (en_link _ _ _ En)) in I, Nm.
    destruct (rebucket_symbol _ p En I) as (_ & E2 & _). rewrite E2 in Nm.
    destruct H as [(ps3 & B3 & Hp3) | [-> H]].
    + left. assert (O : interned_at m string p (OBJECT_TYPE (link_to m (obarray m + (j + 1)) ps3 p))).
      { exists ps3. rewrite Ej. auto. }
      eexists. split; [exact O |]. destruct (rebucket_old _ _ _ O) as (ps4 & B4 & _ & _ & _ & T4).
      rewrite (agree_cell m' Ag), Ej in B4, T4. rewrite (bucket_fun _ _ _ _ _ B4 B) in T4. congruence.
    + right. rewrite (bucket_fun _ _ _ _ _ B New) in Ty. auto.
  - intros [(t0 & O & ->) | (A & I & Nm & Ty)]; [exact (rebucket_old _ _ _ O) |].
    destruct (rebucket_symbol _ p (rebucket_entry p (proj1 A)) I) as (E1 & E2 & E3).
    exists ps'. rewrite (agree_cell m' Ag), E1, E2. rewrite <- Nm, E3. destruct A. auto.
Qed.

Lemma rebucket_table : table m'.
Proof.
  destruct (agree_obarray m' Ag) as [Eo El]. split; rewrite ?Eo, ?El.
  - exact (tb_fixed m T).
  - exact (tb_obarray m T).
  - exact (tb_apart m T).
  - intros j Hj. destruct (Z.eq_dec j i) as [-> | N].
    + exists ps'. split; [exact New |]. split; [exact ND |]. intros p Hp. apply (agree_entry m' Ag), rebucket_entry, Hp.
    + destruct (rebucket_other j Hj N) as (ps2 & _ & B & D & E). exists ps2. split; [exact (proj1 B) |]. split; [exact D |].
      intros p Hp. exact (agree_entry m' Ag _ _ (E p Hp)).
  - intros j k ps2 ps3 p Hj Hk B2 B3 H2 H3.
    destruct (rebucket_pairs j ps2 p Hj B2 H2) as [_ [(ps4 & B4 & H4) | [-> A2]]];
      destruct (rebucket_pairs k ps3 p Hk B3 H3) as [_ [(ps5 & B5 & H5) | [-> A3]]]; [| | | reflexivity].
    + exact (tb_disjoint m T j k _ _ p Hj Hk B4 B5 H4 H5).
    + now destruct (Added_new p j ps4 A3 Hj B4).
    + now destruct (Added_new p k ps5 A2 Hk B5).
  - intros string p p' t t' H H'. apply rebucket_interned in H, H'.
    destruct H as [(t0 & H & _) | (A1 & I & Nm & _)], H' as [(t1 & H' & _) | (A2 & I' & Nm' & _)].
    + exact (tb_unique m T string p p' _ _ H H').
    + subst string. now destruct (Added_name p' p t0 A2 I').
    + subst string. now destruct (Added_name p p' t1 A1 I).
    + exact (Added_one p p' A1 A2).
Qed.

End Rebucket.
End Facts.
End Blocks.
End Table.
