(* ===== verification/SymbolIntern.v ===== *)
(** * The search of a bucket (for Symbol.v)

    The walks of [find_symbol_internal] and [replace_symbol_bucket_type] take
    pairs without a symbol out of the bucket, and nothing else changes.

    New blocks do not change the table, links of the table do not change the
    environments, and a pair put at the end of its bucket interns one more
    name. *)

From Stdlib Require Import ZArith List Lia Bool Permutation.
From S2P Require Import Prelude.
From S2P Require Import Object.
From S2P Require Import Memory.
From S2P Require Import Heap.
From S2P Require Import Symbol.
From S2P Require Import Environment.
From S2P Require Import EnvSpec.
From S2P Require Import EnvInv.
From S2P Require Import EnvAssign.
From S2P Require Import EnvDefine.
From S2P Require Import EnvCache.
From S2P Require Import SymbolSpec.
From S2P Require Import SymbolTable.
Import ListNotations.

#[local] Opaque MAKE_OBJECT OBJECT_DATUM OBJECT_TYPE OBJECT_ADDRESS.

Section Find.
Variable base : Z.
Variable fixed_objects : Z.
Notation addr := (OBJECT_ADDRESS base).
Notation bucket := (bucket base).
Notation table := (table base fixed_objects).
Notation interned_at := (interned_at base fixed_objects).
Notation obarray := (obarray base fixed_objects).
Notation obarray_length := (obarray_length base fixed_objects).
Notation bucket_cell := (bucket_cell base fixed_objects).
Notation cell := (cell base fixed_objects).
Notation entry := (entry base fixed_objects).
Notation name_of := (name_of base).

Section Table.
Context {blk : Z -> option kind} {free : Z} {m : memory}.
Hypothesis AP : apart base blk free.
Hypothesis T : table blk m.
Context {i : Z} {ps : list Z}.
Hypothesis Hi : 0 <= i < obarray_length m.
Notation c := (obarray m + (i + 1)).
Hypothesis B : bucket m c ps.

Definition live (p : Z) : bool := INTERNED_SYMBOL_P (m p).

Lemma bucket_facts : NoDup ps /\ (forall p, In p ps -> entry blk m c p).
Proof.
  destruct (tb_bucket base fixed_objects blk m T i Hi) as (ps0 & B0 & D & E).
  rewrite (bucket_fun _ _ _ _ _ B B0). auto.
Qed.

Lemma start_cell : cell blk m c.
Proof. left. exists i. auto. Qed.

Lemma start_not_link p j : blk p = Some Link_block -> 0 <= j < obarray_length m -> obarray m + (j + 1) <> p + 1.
Proof.
  intros L Hj E. destruct (tb_obarray base fixed_objects blk m T) as (n & Bo & Ln & _).
  destruct (word_inj base blk free (obarray m) p _ _ (j + 1) 1 AP Bo L) as [E1 _]; cbn [size]; try lia.
  rewrite E1, L in Bo. discriminate.
Qed.

Lemma pair_cells p : In p ps -> cell blk m (p + 1) /\ entry blk m c p /\ c <> p + 1.
Proof.
  intros Hp. pose proof (proj2 bucket_facts p Hp) as E. pose proof (en_link _ _ _ _ _ _ E) as L.
  split; [right; exists p; auto |]. split; [exact E |]. exact (start_not_link p i L Hi).
Qed.

(** The other buckets are not touched when only cells of this one are. *)
Lemma others_kept m' :
  (forall x, x <> c -> (forall p, In p ps -> x <> p + 1) -> m' x = m x) ->
  forall j ps2, 0 <= j < obarray_length m -> j <> i -> bucket m (obarray m + (j + 1)) ps2 -> bucket m' (obarray m + (j + 1)) ps2
    /\ forall p, link_to m' (obarray m + (j + 1)) ps2 p = link_to m (obarray m + (j + 1)) ps2 p.
Proof.
  intros Fr j ps2 Hj N B2.
  enough (m' (obarray m + (j + 1)) = m (obarray m + (j + 1)) /\ forall p, In p ps2 -> m' (p + 1) = m (p + 1)) as [E K].
  { split; [exact (bucket_ext base m m' _ _ ps2 B2 E K) | intros p; exact (link_to_ext m m' _ _ ps2 p E K)]. }
  split.
  - apply Fr; [lia |]. intros p Hp. apply start_not_link; [| exact Hj]. apply (proj2 bucket_facts p Hp).
  - intros q Hq. destruct (tb_bucket base fixed_objects blk m T j Hj) as (ps0 & B0 & _ & E).
    rewrite <- (bucket_fun _ _ _ _ _ B2 B0) in E. pose proof (en_link _ _ _ _ _ _ (E q Hq)) as L.
    apply Fr.
    + intros Eq. exact (start_not_link q i L Hi (eq_sym Eq)).
    + intros p Hp Eq. assert (q = p) as -> by lia.
      apply N. exact (tb_disjoint base fixed_objects blk m T j i ps2 ps p Hj Hi B2 B Hq Hp).
Qed.

(** *** After a walk *)

Section Walked.
Variable hit : Z -> bool.
Variable m' : memory.
Notation kept := (fst (walk live hit ps) ++ snd (walk live hit ps)).
Hypothesis New : bucket m' c kept.
Hypothesis Ag : agree (cell blk m) m m'.
Hypothesis Fr : forall x, x <> c -> (forall p, In p ps -> x <> p + 1) -> m' x = m x.
Variable retype : Z -> Z -> Z.
Hypothesis Links : forall p, In p ps -> In p kept ->
  OBJECT_TYPE (link_to m' c kept p) = retype p (OBJECT_TYPE (link_to m c ps p)).
Hypothesis Types : forall p t, ~ In p ps -> retype p t = t.

Lemma kept_sub p : In p kept -> In p ps.
Proof. pose proof (walk_sub live hit ps p) as H. now destruct (walk live hit ps). Qed.

Lemma walked_table : table blk m'
  /\ forall string p t, interned_at m' string p t <-> exists t0, interned_at m string p t0 /\ t = retype p t0.
Proof.
  assert (ND : NoDup kept).
  { pose proof (walk_nodup live hit ps (proj1 bucket_facts)) as H. now destruct (walk live hit ps). }
  assert (Kept : forall p, In p ps -> INTERNED_SYMBOL_P (m p) = true -> In p kept).
  { intros p Hp L. pose proof (walk_live live hit ps p L Hp) as H. now destruct (walk live hit ps). }
  assert (No : forall p, ~ added ps kept p) by (intros p [H N]; exact (N (kept_sub p H))).
  split.
  - apply (rebucket_table base fixed_objects blk AP T m' Ag i Hi ps kept B New ND (others_kept m' Fr) Kept retype Links Types);
      intros p; intros; exfalso; eapply No; eassumption.
  - intros string p t.
    rewrite (rebucket_interned base fixed_objects blk AP T m' Ag i Hi ps kept B New (others_kept m' Fr) Kept retype Links Types)
      by (intros q; intros; exfalso; eapply No; eassumption).
    split; [| auto]. intros [H | [A _]]; [exact H | now destruct (No p)].
Qed.

End Walked.

(** *** The loop of [find_symbol_internal] *)

Variable string : list Z.

Definition named (p : Z) : bool := if list_eq_dec Z.eq_dec (name_of m (m p)) string then true else false.

Lemma name_test n l : (n =? Z.of_nat (length string)) && memcmp_equal l string = true <-> l = string /\ n = Z.of_nat (length string).
Proof.
  unfold memcmp_equal. destruct (list_eq_dec Z.eq_dec l string); rewrite andb_true_iff, Z.eqb_eq; intuition congruence.
Qed.

Lemma string_bytes_run name s : string_bytes base name s = Value (string_of base (mem s) name) s.
Proof. reflexivity. Qed.

Lemma string_of_length m1 name : Z.of_nat (length (string_of base m1 name)) = OBJECT_DATUM (m1 (addr name + 1)).
Proof.
  unfold string_of, bytes_at. rewrite length_map, length_seq. apply Z2Nat.id.
  pose proof (datum_range (m1 (addr name + 1))). lia.
Qed.

(** One round of the loop, on a pair. *)
Lemma find_round n a s p : agree (cell blk m) m (mem s) -> is_link (mem s a) = true -> addr (mem s a) = p ->
  entry blk m c p ->
  find_symbol_loop base (S n) string a s
  = if live p then
      if named p then Value p s else find_symbol_loop base n string (p + 1) s
    else find_symbol_loop base n string a (set_mem s (store (mem s) a (mem s (p + 1)))).
Proof.
  intros Ag Lk Ep [L Sy]. cbn [find_symbol_loop]. act_unfold. unfold STRING_LENGTH. act_steps.
  unfold is_link in Lk. rewrite Lk. act_steps. rewrite Ep.
  rewrite (agree_word0 base fixed_objects blk AP T _ Ag _ _ L). unfold live.
  destruct (INTERNED_SYMBOL_P (m p)) eqn:I; [| cbn iota; act_steps; rewrite Ep; reflexivity].
  destruct (Sy eq_refl) as (Bs & O & Cs). cbn iota. act_steps.
  rewrite (bind_value _ _ _ _ _ _ _ (string_bytes_run _ s)).
  change (string_of base (mem s) (mem s (addr (m p)))) with (name_of (mem s) (m p)).
  rewrite <- string_of_length.
  change (string_of base (mem s) (mem s (addr (m p)))) with (name_of (mem s) (m p)).
  rewrite (agree_name base fixed_objects blk AP T _ Ag _ Bs O). unfold named, memcmp_equal.
  destruct (list_eq_dec Z.eq_dec (name_of m (m p)) string) as [-> | N].
  - rewrite Z.eqb_refl. reflexivity.
  - rewrite andb_false_r. reflexivity.
Qed.

Lemma find_loop_run s n : mem s = m -> (length ps < n)%nat ->
  exists m', find_symbol_loop base n string c s
             = Value (match snd (walk live named ps) with p :: _ => p | [] => last_cell c (fst (walk live named ps)) end)
                     (set_mem s m')
    /\ bucket m' c (fst (walk live named ps) ++ snd (walk live named ps)) /\ agree (cell blk m) m m'
    /\ (forall p, In p (fst (walk live named ps) ++ snd (walk live named ps)) ->
          link_to m' c (fst (walk live named ps) ++ snd (walk live named ps)) p = link_to m c ps p)
    /\ (forall x, x <> c -> (forall p, In p ps -> x <> p + 1) -> m' x = m x).
Proof.
  intros Em Ln.
  pose proof (walk_run base (fun n a => find_symbol_loop base n string a) live named (cell blk m) (entry blk m c) m) as W.
  specialize (W ltac:(intros k a s1 p Ag Lk Ep Ok Lv Hi'; cbv beta; rewrite (find_round k a s1 p Ag Lk Ep Ok), Lv, Hi'; reflexivity)).
  specialize (W ltac:(intros k a s1 p Ag Lk Ep Ok Lv; cbv beta; rewrite (find_round k a s1 p Ag Lk Ep Ok), Lv; reflexivity)).
  specialize (W ps c s n). rewrite Em in W. specialize (W B Ln (fun x _ => eq_refl) start_cell pair_cells (proj1 bucket_facts)).
  pose proof (walk_found live named ps) as Fd. pose proof (walk_sub live named ps) as Sub.
  destruct (walk live named ps) as [x y]. cbn [fst snd] in *.
  destruct W as (m' & n' & R & B' & Ag & Lk & Fr). exists m'. split; [| auto].
  rewrite R. pose proof (bucket_app base m' c x y B') as By.
  destruct y as [|p y].
  - inversion By as [a' L I |]; subst. cbn [find_symbol_loop]. unfold is_link in L. act_steps. cbn [set_mem mem]. now rewrite L.
  - inversion By as [| a' ps0 L By' E1 E2]; subst. destruct Fd as [Lv Nm].
    rewrite (find_round n' (last_cell c x) (set_mem s m') (addr (m' (last_cell c x))) Ag L eq_refl).
    + now rewrite Lv, Nm.
    + apply pair_cells, Sub, in_or_app. right. now left.
Qed.

(** *** The loop of [replace_symbol_bucket_type] *)

Variables symbol type : Z.

Definition is_symbol (p : Z) : bool := m p =? symbol.

Lemma replace_round n a s p : agree (cell blk m) m (mem s) -> is_link (mem s a) = true -> addr (mem s a) = p ->
  entry blk m c p ->
  replace_type_loop base (S n) symbol type a s
  = if live p then
      if is_symbol p then Value tt (set_mem s (store (mem s) a (OBJECT_NEW_TYPE type (mem s a))))
      else replace_type_loop base n symbol type (p + 1) s
    else replace_type_loop base n symbol type a (set_mem s (store (mem s) a (mem s (p + 1)))).
Proof.
  intros Ag Lk Ep [L Sy]. cbn [replace_type_loop]. act_unfold. act_steps.
  unfold is_link in Lk. rewrite Lk. unfold assert. cbn iota. act_steps. rewrite Ep.
  rewrite (agree_word0 base fixed_objects blk AP T _ Ag _ _ L). unfold live, is_symbol.
  destruct (INTERNED_SYMBOL_P (m p)); cbn iota.
  - destruct (m p =? symbol); [reflexivity |]. rewrite ?Ep; reflexivity.
  - act_steps. rewrite ?Ep. reflexivity.
Qed.

Lemma last_cell_cell a x : (a = c \/ exists q, In q ps /\ a = q + 1) -> (forall p, In p x -> In p ps) ->
  last_cell a x = c \/ exists q, In q ps /\ last_cell a x = q + 1.
Proof.
  intros Ha Hx. destruct (last_cell_cases a x) as [-> | (q & Hq & ->)]; [exact Ha |]. right. exists q. auto.
Qed.

Lemma replace_loop_run s n p :
  mem s = m -> (length ps < n)%nat -> In p ps -> (forall q, In q ps -> m q = symbol <-> q = p) -> INTERNED_SYMBOL_P symbol = true ->
  0 <= type < 64 -> (forall d, 0 <= d < 2 ^ 58 -> is_link (MAKE_OBJECT type d) = true) ->
  exists m', replace_type_loop base n symbol type c s = Value tt (set_mem s m')
    /\ bucket m' c (fst (walk live is_symbol ps) ++ snd (walk live is_symbol ps)) /\ agree (cell blk m) m m'
    /\ (forall q, In q (fst (walk live is_symbol ps) ++ snd (walk live is_symbol ps)) ->
          OBJECT_TYPE (link_to m' c (fst (walk live is_symbol ps) ++ snd (walk live is_symbol ps)) q)
          = if q =? p then type else OBJECT_TYPE (link_to m c ps q))
    /\ (forall x, x <> c -> (forall p, In p ps -> x <> p + 1) -> m' x = m x).
Proof.
  intros Em Ln Hp Es Is Ht Lt.
  pose proof (walk_run base (fun n a => replace_type_loop base n symbol type a) live is_symbol (cell blk m) (entry blk m c) m) as W.
  specialize (W ltac:(intros k a s1 q Ag Lk Eq Ok Lv Hi'; cbv beta; rewrite (replace_round k a s1 q Ag Lk Eq Ok), Lv, Hi'; reflexivity)).
  specialize (W ltac:(intros k a s1 q Ag Lk Eq Ok Lv; cbv beta; rewrite (replace_round k a s1 q Ag Lk Eq Ok), Lv; reflexivity)).
  specialize (W ps c s n). rewrite Em in W. specialize (W B Ln (fun x _ => eq_refl) start_cell pair_cells (proj1 bucket_facts)).
  pose proof (walk_found live is_symbol ps) as Fd. pose proof (walk_sub live is_symbol ps) as Sub.
  pose proof (walk_nodup live is_symbol ps (proj1 bucket_facts)) as ND.
  destruct (walk live is_symbol ps) as [x [|q y]]; cbn [fst snd] in *.
  { exfalso. specialize (Fd p Hp). unfold live, is_symbol in Fd. rewrite (proj2 (Es p Hp) eq_refl), Is, Z.eqb_refl in Fd. discriminate (Fd eq_refl). }
  destruct W as (m1 & n' & R & B' & Ag & Lk & Fr). rewrite R.
  pose proof (bucket_app base m1 c x _ B') as By. inversion By as [| a' ps0 L By' E1 E2]; subst. destruct Fd as [Lv Sm].
  rewrite (replace_round n' (last_cell c x) (set_mem s m1) (addr (m1 (last_cell c x))) Ag L eq_refl)
    by (apply pair_cells, Sub, in_or_app; right; now left).
  rewrite Lv, Sm.
  assert (Eq : addr (m1 (last_cell c x)) = p).
  { apply Es; [apply Sub, in_or_app; right; now left | apply Z.eqb_eq, Sm]. }
  eexists. split; [reflexivity |]. cbn [set_mem mem].
  set (a := last_cell c x) in *. set (q := addr (m1 a)) in *.
  assert (Ca : a = c \/ exists q, In q ps /\ a = q + 1).
  { apply last_cell_cell; [now left |]. intros r Hr. apply Sub, in_or_app. now left. }
  destruct (MAKE_OBJECT_parts type (OBJECT_DATUM (m1 a))) as [_ Ed]; [lia | apply datum_range |].
  split; [| split; [| split]].
  - apply (bucket_set base m1 c x q y); [exact B' | exact ND | | apply Lt, datum_range |].
    + intros r Hr. apply pair_cells, Sub, Hr.
    + unfold OBJECT_NEW_TYPE. rewrite address_datum, Ed. unfold q. now rewrite address_datum.
  - intros z Nz. rewrite store_other; [exact (Ag z Nz) |]. intros ->. apply Nz.
    destruct Ca as [-> | (r & Hr & ->)]; [exact start_cell | apply pair_cells, Hr].
  - intros r Hr. unfold a. rewrite (link_to_store m1 c x q y _ r ND) by (intros u Hu; apply pair_cells, Sub, Hu).
    rewrite <- Eq. fold a q. destruct (Z.eqb_spec r q) as [-> |].
    + unfold OBJECT_NEW_TYPE. apply MAKE_OBJECT_parts; [lia | apply datum_range].
    + f_equal. exact (Lk r Hr).
  - intros z Nz Np. rewrite store_other; [exact (Fr z Nz Np) |]. intros ->.
    destruct Ca as [E | (r & Hr & E)]; [exact (Nz E) | exact (Np r Hr E)].
Qed.

End Table.
End Find.

(** ** A new symbol in the table (for Symbol.v) *)

#[local] Opaque MAKE_OBJECT OBJECT_DATUM OBJECT_TYPE OBJECT_ADDRESS.

Section Intern.
Variable base : Z.
Hypothesis base_positive : 0 < base.
Variable fixed_objects : Z.
Variable fuel : nat.
Notation addr := (OBJECT_ADDRESS base).
Notation bucket := (bucket base).
Notation table := (table base fixed_objects).
Notation interned_at := (interned_at base fixed_objects).
Notation obarray := (obarray base fixed_objects).
Notation obarray_length := (obarray_length base fixed_objects).
Notation bucket_cell := (bucket_cell base fixed_objects).
Notation cell := (cell base fixed_objects).
Notation entry := (entry base fixed_objects).
Notation name_of := (name_of base).
Notation string_ok := (string_ok base).
Notation state := (state base).
Notation extends := (extends base fuel).

(** ** The links of the table are no part of an environment *)

Section Links.
Context {blk : Z -> option kind} {s : machine} {m' : memory}.
Hypothesis S : state blk s.
Hypothesis T : table blk (mem s).
Hypothesis Ag : agree (cell blk (mem s)) (mem s) m'.

Lemma links_structure : same_structure blk (mem s) m'.
Proof.
  intros a k i Hk St Hi _. apply Ag. apply (not_cell base fixed_objects blk (st_apart _ _ _ S) T a k i Hk Hi).
  destruct k; try exact I; discriminate.
Qed.

Lemma links_values x : value_word blk x -> m' x = mem s x.
Proof.
  intros H. apply Ag. pose proof (not_cell base fixed_objects blk (st_apart _ _ _ S) T) as N.
  destruct H as [f n i F Hi | b B | y Y | c C].
  - rewrite <- Z.add_assoc. apply (N _ _ _ F); [cbn [size]; lia | exact I].
  - apply (N _ _ _ B); [cbn [size]; lia | exact I].
  - apply (N _ _ _ Y); [cbn [size]; lia | exact I].
  - rewrite <- (Z.add_0_r c). apply (N _ _ _ C); [cbn [size]; lia | exact I].
Qed.

Lemma links_extends : extends blk blk s (set_mem s m').
Proof.
  destruct S as [AP W Ab]. split; [intros a k H; exact H |]. split.
  - split; [exact AP | | exact Ab]. cbn [set_mem mem].
    apply (values_wf base AP base_positive W links_structure).
    + intros x V. rewrite (links_values x V). exact (wf_value base W x V).
    + intros c C. rewrite (links_values c (cache_word _ _ C)).
      rewrite (values_trap_kind base AP base_positive links_structure).
      * apply (wf_blocks _ _ _ W _ _ C).
      * exact (wf_value base W c (cache_word _ _ C)).
  - apply (same_keeps base fuel AP W (same_but_none links_structure) (no_part base AP base_positive)).
    + intros n. apply (no_frame base AP base_positive).
    + exact links_values.
    + intros n. apply (no_frame base AP base_positive).
Qed.

End Links.

(** ** New blocks *)

Section Grown.
Context {blk blk' : Z -> option kind} {free : Z} {m m' : memory}.
Hypothesis AP : apart base blk free.
Hypothesis I : included blk blk'.
Hypothesis Low : forall x, x < free -> m' x = m x.
Hypothesis T : table blk m.

Lemma low_word a k i : blk a = Some k -> 0 <= i < size k -> m' (a + i) = m (a + i).
Proof. intros H Hi. pose proof (ap_range _ _ _ AP _ _ H). apply Low. lia. Qed.

Lemma low_word0 a k : blk a = Some k -> m' a = m a.
Proof. intros H. pose proof (ap_range _ _ _ AP _ _ H). apply Low. lia. Qed.

Lemma grown_obarray : obarray m' = obarray m /\ obarray_length m' = obarray_length m.
Proof.
  destruct (tb_fixed _ _ _ _ T) as (k & F & Hk). destruct (tb_obarray _ _ _ _ T) as (n & B & _).
  assert (E : obarray m' = obarray m).
  { unfold SymbolTable.obarray. f_equal. apply (low_word _ _ _ F). cbn [size]. lia. }
  split; [exact E |]. unfold SymbolTable.obarray_length. rewrite E. f_equal. exact (low_word0 _ _ B).
Qed.

Lemma grown_string_of name : string_ok blk m name -> string_of base m' name = string_of base m name.
Proof.
  intros (k & B & L). pose proof (ap_range _ _ _ AP _ _ B) as R. cbn [size] in R.
  pose proof (datum_range (m (addr name + 1))). unfold string_of.
  assert (E : m' (addr name + 1) = m (addr name + 1)) by (apply (low_word _ _ 1 B); cbn [size]; lia).
  rewrite E. unfold bytes_at. apply map_ext_in. intros j Hj. apply in_seq in Hj. unfold byte_at. do 2 f_equal.
  apply Low. replace ((8 * (addr name + 2) + Z.of_nat j) / 8) with (addr name + 2 + Z.of_nat j / 8)
    by (rewrite (Z.mul_comm 8), Z.div_add_l; lia).
  pose proof (Z.div_lt_upper_bound (Z.of_nat j) 8 k ltac:(lia) ltac:(lia)). lia.
Qed.

Lemma grown_string_ok name : string_ok blk m name -> string_ok blk' m' name.
Proof.
  intros (k & B & L). exists k. split; [exact (I _ _ B) |]. pose proof (datum_range (m (addr name + 1))).
  rewrite (low_word _ _ 1 B); [exact L |]. pose proof (ap_range _ _ _ AP _ _ B). cbn [size] in *. lia.
Qed.

Lemma grown_name y : blk (addr y) = Some Symbol_block -> string_ok blk m (m (addr y)) -> name_of m' y = name_of m y.
Proof. intros B O. unfold SymbolTable.name_of. rewrite (low_word0 _ _ B). exact (grown_string_of _ O). Qed.

Lemma grown_cell string : bucket_cell m' string = bucket_cell m string.
Proof. unfold SymbolTable.bucket_cell. destruct grown_obarray as [-> ->]. reflexivity. Qed.

Lemma grown_entry c p : entry blk m c p -> entry blk' m' c p.
Proof.
  intros [L Sy]. split; [exact (I _ _ L) |]. rewrite (low_word0 _ _ L). intros Is. destruct (Sy Is) as (B & O & C).
  split; [exact (I _ _ B) |]. rewrite (low_word0 _ _ B), (grown_name _ B O), grown_cell.
  split; [exact (grown_string_ok _ O) | exact C].
Qed.

Lemma grown_bucket i ps : 0 <= i < obarray_length m ->
  bucket m (obarray m + (i + 1)) ps -> bucket m' (obarray m + (i + 1)) ps
    /\ forall p, link_to m' (obarray m + (i + 1)) ps p = link_to m (obarray m + (i + 1)) ps p.
Proof.
  intros Hi B. destruct (tb_obarray _ _ _ _ T) as (n & Bo & Ln & _).
  destruct (tb_bucket _ _ _ _ T i Hi) as (ps0 & B0 & _ & E). rewrite <- (bucket_fun _ _ _ _ _ B B0) in E.
  enough (m' (obarray m + (i + 1)) = m (obarray m + (i + 1)) /\ forall p, In p ps -> m' (p + 1) = m (p + 1)) as [E1 K].
  { split; [exact (bucket_ext base m m' _ _ ps B E1 K) | intros p; exact (link_to_ext m m' _ _ ps p E1 K)]. }
  split.
  - apply (low_word _ _ _ Bo). cbn [size]. lia.
  - intros p Hp. apply (low_word _ _ 1 (en_link _ _ _ _ _ _ (E p Hp))). cbn [size]. lia.
Qed.

Lemma bucket_back i ps : 0 <= i < obarray_length m ->
  bucket m' (obarray m + (i + 1)) ps -> bucket m (obarray m + (i + 1)) ps.
Proof.
  intros Hi B. destruct (tb_bucket _ _ _ _ T i Hi) as (ps0 & B0 & _).
  now rewrite (bucket_fun _ _ _ _ _ B (proj1 (grown_bucket i ps0 Hi B0))).
Qed.

Lemma grown_interned string p t : interned_at m' string p t <-> interned_at m string p t.
Proof.
  destruct (hash_cell base fixed_objects blk T string) as (i & Hi & Ei).
  unfold SymbolTable.interned_at. rewrite grown_cell, Ei.
  destruct (tb_bucket _ _ _ _ T i Hi) as (ps0 & B0 & _ & E). destruct (grown_bucket i ps0 Hi B0) as [B0' L0].
  assert (K : In p ps0 -> m' p = m p) by (intros Hp; exact (low_word0 _ _ (en_link _ _ _ _ _ _ (E p Hp)))).
  assert (N : In p ps0 -> INTERNED_SYMBOL_P (m p) = true -> name_of m' (m p) = name_of m (m p)).
  { intros Hp Is. destruct (en_symbol _ _ _ _ _ _ (E p Hp) Is) as (Bs & O & _). exact (grown_name _ Bs O). }
  split; intros (ps & B & Hp & Is & Nm & Ty); exists ps0.
  - rewrite (bucket_fun _ _ _ _ _ B B0') in *. rewrite (K Hp) in *. rewrite (N Hp Is) in Nm. rewrite L0 in Ty. auto.
  - rewrite (bucket_fun _ _ _ _ _ B B0) in *. rewrite (K Hp), (N Hp Is), L0. auto.
Qed.

Lemma grown_table : table blk' m'.
Proof.
  destruct grown_obarray as [Eo El]. split; rewrite ?Eo, ?El.
  - destruct (tb_fixed _ _ _ _ T) as (k & F & Hk). exists k. split; [exact (I _ _ F) | exact Hk].
  - destruct (tb_obarray _ _ _ _ T) as (n & B & L & P). exists n. auto.
  - exact (tb_apart _ _ _ _ T).
  - intros i Hi. destruct (tb_bucket _ _ _ _ T i Hi) as (ps & B & D & E). exists ps.
    split; [exact (proj1 (grown_bucket i ps Hi B)) |]. split; [exact D |]. intros p Hp. exact (grown_entry _ _ (E p Hp)).
  - intros i j ps ps' p Hi Hj B B'. apply (tb_disjoint _ _ _ _ T i j ps ps' p Hi Hj (bucket_back i ps Hi B) (bucket_back j ps' Hj B')).
  - intros string p p' t t' H H'. apply grown_interned in H, H'. exact (tb_unique _ _ _ _ T string p p' t t' H H').
Qed.

Lemma grown_short n : short_buckets base fixed_objects n m -> short_buckets base fixed_objects n m'.
Proof.
  intros Sh i ps Hi B. destruct grown_obarray as [Eo El]. rewrite El in Hi. rewrite Eo in B.
  exact (Sh i ps Hi (bucket_back i ps Hi B)).
Qed.

End Grown.

(** ** A pair put at the end of its bucket *)

Section Snoc.
Context {blk : Z -> option kind} {free : Z} {m : memory}.
Hypothesis AP : apart base blk free.
Hypothesis T : table blk m.
Context {i : Z} {ps : list Z} {w : Z}.
Hypothesis Hi : 0 <= i < obarray_length m.
Notation c := (obarray m + (i + 1)).
Notation p := (addr w).
Notation m' := (store m (last_cell c ps) w).
Hypothesis B : bucket m c ps.
Hypothesis Lw : is_link w = true.
Hypothesis Ep : entry blk m c p.
Hypothesis End : is_link (m (p + 1)) = false /\ INTERNED_SYMBOL_P (m (p + 1)) = false.
Hypothesis Fresh : forall j ps2, 0 <= j < obarray_length m -> bucket m (obarray m + (j + 1)) ps2 -> ~ In p ps2.
Hypothesis Sy : INTERNED_SYMBOL_P (m p) = true.
Hypothesis Not_interned : forall q t, ~ interned_at m (name_of m (m p)) q t.

Let Np : ~ In p ps := Fresh i ps Hi B.

Lemma last_not_new : p + 1 <> last_cell c ps.
Proof.
  intros E. destruct (last_cell_cases c ps) as [E' | (q & Hq & E')]; rewrite E' in E.
  - exact (start_not_link base fixed_objects AP T p i (en_link _ _ _ _ _ _ Ep) Hi (eq_sym E)).
  - apply Np. now replace p with q by lia.
Qed.

Lemma snoc_bucket : bucket m' c (ps ++ [p]) /\ NoDup (ps ++ [p]).
Proof.
  pose proof (proj1 (bucket_facts base fixed_objects T Hi B)) as ND. split.
  - apply bucket_snoc; try tauto; [intros q Hq; exact (proj2 (proj2 (pair_cells base fixed_objects AP T Hi B q Hq))) |].
    exact last_not_new.
  - apply (Permutation_NoDup (Permutation_cons_append ps p)). now constructor.
Qed.

Lemma snoc_agree : agree (cell blk m) m m'.
Proof.
  intros x Nx. apply store_other. intros ->. apply Nx.
  destruct (last_cell_cell base fixed_objects (m := m) (i := i) (ps := ps) c ps) as [-> | (q & Hq & ->)];
    [now left | auto | exact (start_cell base fixed_objects Hi) |].
  apply (pair_cells base fixed_objects AP T Hi B q Hq).
Qed.

Lemma snoc_frame x : x <> c -> (forall q, In q ps -> x <> q + 1) -> m' x = m x.
Proof.
  intros Nx Nq. apply store_other. intros ->. destruct (last_cell_cases c ps) as [E | (q & Hq & E)]; [auto | exact (Nq q Hq E)].
Qed.

Lemma snoc_links q : In q ps -> link_to m' c (ps ++ [p]) q = link_to m c ps q.
Proof.
  intros Hq. destruct snoc_bucket as [_ ND].
  assert (Cs : forall r, In r (ps ++ [p]) -> c <> r + 1).
  { intros r Hr. apply in_app_or in Hr as [Hr | [<- | []]].
    - exact (proj2 (proj2 (pair_cells base fixed_objects AP T Hi B r Hr))).
    - exact (start_not_link base fixed_objects AP T p i (en_link _ _ _ _ _ _ Ep) Hi). }
  rewrite (link_to_store m c ps p [] w q ND Cs).
  destruct (Z.eqb_spec q p) as [-> |]; [now destruct Np |]. clear - Hq.
  generalize c. induction ps as [|r rs IH]; intros a; cbn [app link_to In] in *; [tauto |].
  destruct (Z.eqb_spec q r); [reflexivity |]. apply IH. destruct Hq; congruence.
Qed.

Lemma snoc_new_link : link_to m' c (ps ++ [p]) p = w.
Proof. rewrite link_to_app by exact Np. cbn [link_to]. now rewrite Z.eqb_refl, store_same. Qed.

Lemma snoc_added q : added ps (ps ++ [p]) q <-> q = p.
Proof.
  unfold added. rewrite in_app_iff. cbn [In]. split; [intuition | intros ->; auto].
Qed.

Lemma snoc_table : table blk m'
  /\ forall string q t, interned_at m' string q t <->
       interned_at m string q t \/ (q = p /\ name_of m (m p) = string /\ t = OBJECT_TYPE w).
Proof.
  destruct snoc_bucket as [B' ND'].
  pose proof (others_kept base fixed_objects AP T Hi B m' snoc_frame) as Oth.
  assert (Kept : forall q, In q ps -> INTERNED_SYMBOL_P (m q) = true -> In q (ps ++ [p])) by (intros q Hq _; apply in_or_app; now left).
  assert (Links : forall q, In q ps -> In q (ps ++ [p]) ->
            OBJECT_TYPE (link_to m' c (ps ++ [p]) q) = (fun _ t => t) q (OBJECT_TYPE (link_to m c ps q)))
    by (intros q Hq _; now rewrite snoc_links).
  assert (Ae : forall q, added ps (ps ++ [p]) q -> entry blk m c q) by (intros q Hq; apply snoc_added in Hq as ->; exact Ep).
  assert (An : forall q j ps2, added ps (ps ++ [p]) q -> 0 <= j < obarray_length m ->
            bucket m (obarray m + (j + 1)) ps2 -> ~ In q ps2) by (intros q j ps2 Hq; apply snoc_added in Hq as ->; exact (Fresh j ps2)).
  split.
  - apply (rebucket_table base fixed_objects blk AP T m' snoc_agree i Hi ps _ B B' ND' Oth Kept (fun _ t => t) Links (fun _ _ _ => eq_refl) Ae An).
    + intros q q' Hq Hq'. apply snoc_added in Hq, Hq'. congruence.
    + intros q r t Hq _. apply snoc_added in Hq as ->. apply Not_interned.
  - intros string q t.
    rewrite (rebucket_interned base fixed_objects blk AP T m' snoc_agree i Hi ps _ B B' Oth Kept (fun _ t => t) Links (fun _ _ _ => eq_refl) Ae string q).
    split.
    + intros [(t0 & H & ->) | (A & _ & Nm & <-)]; [now left |]. right. apply snoc_added in A as ->.
      rewrite snoc_new_link. auto.
    + intros [H | (-> & Nm & ->)]; [left; exists t; auto |]. right. rewrite snoc_new_link, snoc_added. auto.
Qed.

Lemma snoc_short n : short_buckets base fixed_objects n m -> short_buckets base fixed_objects (n + 1) m'.
Proof.
  intros Sh j ps2 Hj Bj. destruct (agree_obarray base fixed_objects blk AP T m' snoc_agree) as [Eo El].
  rewrite El in Hj. rewrite Eo in Bj. destruct (Z.eq_dec j i) as [-> | N].
  - rewrite (bucket_fun _ _ _ _ _ Bj (proj1 snoc_bucket)), length_app. specialize (Sh i ps Hi B). cbn [length]. lia.
  - destruct (tb_bucket _ _ _ _ T j Hj) as (ps3 & B3 & _).
    destruct (others_kept base fixed_objects AP T Hi B m' snoc_frame j ps3 Hj N B3) as [B4 _].
    rewrite (bucket_fun _ _ _ _ _ Bj B4). specialize (Sh j ps3 Hj B3). lia.
Qed.

End Snoc.
End Intern.
