(* ===== verification/SymbolProps.v ===== *)
(** * The symbol table: theorems (for Symbol.v)

    Interning a string gives the one symbol of its name, and makes it when
    there is none; strengthening and weakening a symbol changes the type of
    the link to its pair.  Environments are kept. *)

From Stdlib Require Import ZArith List Lia Bool.
From S2P Require Import Prelude.
From S2P Require Import Object.
From S2P Require Import Memory.
From S2P Require Import Heap.
From S2P Require Import Symbol.
From S2P Require Import Environment.
From S2P Require Import EnvSpec.
From S2P Require Import EnvInv.
From S2P Require Import EnvAssign.
From S2P Require Import EnvDefine.
From S2P Require Import EnvCache.
From S2P Require Import EnvProps.
From S2P Require Import SymbolSpec.
From S2P Require Import SymbolTable.
From S2P Require Import SymbolIntern.
Import ListNotations.

#[local] Opaque MAKE_OBJECT OBJECT_DATUM OBJECT_TYPE OBJECT_ADDRESS.

Section Props.
Variable base : Z.
Hypothesis base_positive : 0 < base.
Variable fixed_objects : Z.
Variable fuel : nat.
Notation addr := (OBJECT_ADDRESS base).
Notation bucket := (bucket base).
Notation table := (table base fixed_objects).
Notation interned_at := (interned_at base fixed_objects).
Notation obarray := (obarray base fixed_objects).
Notation obarray_length := (obarray_length base fixed_objects).
Notation bucket_cell := (bucket_cell base fixed_objects).
Notation cell := (cell base fixed_objects).
Notation entry := (entry base fixed_objects).
Notation name_of := (name_of base).
Notation string_of := (string_of base).
Notation string_ok := (string_ok base).
Notation state := (state base).
Notation extends := (extends base fuel).

Definition same_symbols (m m' : memory) : Prop :=
  forall string p t, interned_at m' string p t <-> interned_at m string p t.

Lemma symbol_bucket_run string s :
  symbol_bucket base fixed_objects string s = Value (bucket_cell (mem s) string) s.
Proof.
  unfold symbol_bucket. act_unfold. act_steps. unfold VECTOR_LOC, MEMORY_LOC, SymbolTable.bucket_cell, SymbolTable.obarray_length,
    SymbolTable.obarray.
  reflexivity.
Qed.

(** ** The search *)

Section Search.
Context {blk : Z -> option kind} {s : machine}.
Hypothesis AP : apart base blk (Free s).
Hypothesis T : table blk (mem s).

Lemma walked_short hit m' i ps n :
  0 <= i < obarray_length (mem s) -> bucket (mem s) (obarray (mem s) + (i + 1)) ps ->
  bucket m' (obarray (mem s) + (i + 1)) (fst (walk (live (m := mem s)) hit ps) ++ snd (walk (live (m := mem s)) hit ps)) ->
  agree (cell blk (mem s)) (mem s) m' ->
  (forall x, x <> obarray (mem s) + (i + 1) -> (forall p, In p ps -> x <> p + 1) -> m' x = mem s x) ->
  short_buckets base fixed_objects n (mem s) -> short_buckets base fixed_objects n m'.
Proof.
  intros Hi B B' Ag Fr Sh j ps2 Hj B2. destruct (agree_obarray base fixed_objects blk AP T m' Ag) as [Eo El].
  rewrite Eo in B2. rewrite El in Hj. destruct (Z.eq_dec j i) as [-> | N].
  - rewrite (bucket_fun _ _ _ _ _ B2 B').
    pose proof (proj1 (bucket_facts base fixed_objects T Hi B)) as ND.
    pose proof (walk_nodup (live (m := mem s)) hit ps ND) as Nk. pose proof (walk_sub (live (m := mem s)) hit ps) as Sub.
    destruct (walk (live (m := mem s)) hit ps) as [x y]. cbn [fst snd].
    pose proof (NoDup_incl_length Nk Sub). pose proof (Sh i ps Hi B). lia.
  - destruct (tb_bucket _ _ _ _ T j Hj) as (ps3 & B3 & _).
    destruct (others_kept base fixed_objects AP T Hi B m' Fr j ps3 Hj N B3) as [B3' _].
    rewrite (bucket_fun _ _ _ _ _ B2 B3'). exact (Sh j ps3 Hj B3).
Qed.

(** [find_symbol_internal]: the cell is the pair of the symbol, or the end of
    the bucket. *)
Lemma find_symbol_internal_run string : short_buckets base fixed_objects fuel (mem s) ->
  exists m' l, find_symbol_internal base fixed_objects fuel string s = Value l (set_mem s m')
    /\ agree (cell blk (mem s)) (mem s) m' /\ table blk m' /\ same_symbols (mem s) m'
    /\ (forall n, short_buckets base fixed_objects n (mem s) -> short_buckets base fixed_objects n m')
    /\ ((exists t, interned_at (mem s) string l t)
        \/ ((forall p t, ~ interned_at (mem s) string p t)
            /\ exists i ps, 0 <= i < obarray_length m' /\ bucket_cell m' string = obarray m' + (i + 1)
                            /\ bucket m' (obarray m' + (i + 1)) ps /\ l = last_cell (obarray m' + (i + 1)) ps)).
Proof.
  intros Sh. destruct (hash_cell base fixed_objects blk T string) as (i & Hi & Ei).
  destruct (tb_bucket _ _ _ _ T i Hi) as (ps & B & ND & En).
  destruct (find_loop_run base fixed_objects AP T Hi B string s fuel eq_refl (Sh i ps Hi B)) as (m' & R & B' & Ag & Lk & Fr).
  exists m'. eexists. split.
  { unfold find_symbol_internal. rewrite (bind_value _ _ _ _ _ _ _ (symbol_bucket_run string s)), Ei. exact R. }
  destruct (walked_table base fixed_objects AP T Hi B _ m' B' Ag Fr (fun _ t => t)) as [T' I'];
    [intros p _ Hp; now rewrite Lk | reflexivity |].
  split; [exact Ag |]. split; [exact T' |]. split.
  { intros str p t. rewrite I'. split; [intros (t0 & H & ->); exact H | intros H; exists t; auto]. }
  split; [intros n; exact (walked_short _ m' i ps n Hi B B' Ag Fr) |].
  pose proof (walk_found (live (m := mem s)) (named base (m := mem s) string) ps) as Fd.
  pose proof (walk_sub (live (m := mem s)) (named base (m := mem s) string) ps) as Sub.
  destruct (walk _ _ ps) as [x [|p y]]; cbn [fst snd] in *.
  - right. split.
    + intros p t (ps2 & B2 & Hp & Is & Nm & _). rewrite Ei in B2. rewrite (bucket_fun _ _ _ _ _ B2 B) in Hp.
      specialize (Fd p Hp Is). unfold named in Fd. destruct (list_eq_dec Z.eq_dec _ string); [discriminate | contradiction].
    + destruct (agree_obarray base fixed_objects blk AP T m' Ag) as [Eo El]. exists i, x. rewrite app_nil_r in B'.
      rewrite (agree_cell base fixed_objects blk AP T m' Ag), Eo, El. auto.
  - left. destruct Fd as [Lv Nm]. unfold named in Nm. destruct (list_eq_dec Z.eq_dec _ string) as [E |]; [| discriminate].
    eexists. exists ps. rewrite Ei. split; [exact B |]. split; [apply Sub, in_or_app; right; now left |]. auto.
Qed.

End Search.

(** ** A new symbol *)

Section Make.
Context {blk : Z -> option kind} {s : machine} {name i : Z} {ps : list Z}.
Hypothesis S : state blk s.
Hypothesis T : table blk (mem s).
Hypothesis Hn : string_ok blk (mem s) name.
Notation string := (string_of (mem s) name).
Hypothesis Absent : forall p t, ~ interned_at (mem s) string p t.
Hypothesis Hi : 0 <= i < obarray_length (mem s).
Notation c := (obarray (mem s) + (i + 1)).
Hypothesis Ei : bucket_cell (mem s) string = c.
Hypothesis B : bucket (mem s) c ps.
Hypothesis Space : Free s + 4 <= base + 2 ^ 58.

Notation symbol := (MAKE_POINTER_OBJECT base TC_INTERNED_SYMBOL (Free s)).
Notation link := (MAKE_POINTER_OBJECT base TC_WEAK_CONS (Free s + 2)).
Definition new_symbol : machine :=
  mk_machine (store (store (mem s) (Free s) name) (Free s + 1) UNBOUND_OBJECT) (Free s + 2)
    (heap_start s) (heap_alloc_limit s) (GC_ENABLED_P s).
Notation s1 := new_symbol.
Definition new_link : machine := pushed EMPTY_LIST (pushed symbol s1).
Notation s2 := new_link.
Notation s3 := (set_mem s2 (store (mem s2) (last_cell c ps) link)).

Let AP : apart base blk (Free s) := st_apart _ _ _ S.

Lemma symbol_parts : OBJECT_TYPE symbol = TC_INTERNED_SYMBOL /\ addr symbol = Free s
  /\ OBJECT_TYPE link = TC_WEAK_CONS /\ addr link = Free s + 2.
Proof.
  pose proof (st_above _ _ _ S) as Ab.
  destruct (pointer_parts base TC_INTERNED_SYMBOL (Free s)) as [-> ->]; [lia | lia |].
  destruct (pointer_parts base TC_WEAK_CONS (Free s + 2)) as [-> ->]; [lia | lia | auto].
Qed.

Lemma make_symbol_run : GC_NEEDED_P s 4 = false ->
  make_symbol base name (last_cell c ps) s = Value symbol s3.
Proof.
  intros G. destruct symbol_parts as (_ & A & _ & _).
  assert (G1 : GC_NEEDED_P s1 2 = false).
  { exact (room_after (s := s) 2 2 ltac:(lia) ltac:(lia) G s1 eq_refl eq_refl eq_refl eq_refl). }
  unfold make_symbol, Primitive_GC_If_Needed at 1, bind at 1. rewrite G. act_unfold. act_steps.
  cbn zeta. act_steps. rewrite A. act_steps.
  match goal with |- _ ?st = _ => change st with s1 end.
  assert (P : system_pair_cons base TC_WEAK_CONS symbol EMPTY_LIST s1 = Value link s2).
  { unfold system_pair_cons, Primitive_GC_If_Needed. unfold bind at 1. rewrite G1. rewrite !bind_push. unfold current, bind, ret.
    f_equal. change (Free _ - 2) with (Free s + 2 + 1 + 1 - 2). f_equal. lia. }
  rewrite (bind_value _ _ _ _ _ _ _ P). act_steps. reflexivity.
Qed.

Ltac words :=
  cbn [new_link new_symbol pushed mem Free]; unfold store;
  repeat match goal with |- context [?a =? ?b] => destruct (Z.eqb_spec a b); try lia end;
  try reflexivity.

Lemma new_words : mem s2 (Free s) = name /\ mem s2 (Free s + 1) = UNBOUND_OBJECT
  /\ mem s2 (Free s + 2) = symbol /\ mem s2 (Free s + 3) = EMPTY_LIST /\ (forall x, x < Free s -> mem s2 x = mem s x)
  /\ Free s2 = Free s + 4.
Proof. split; [words |]. split; [words |]. split; [words |]. split; [words |]. split; [intros x Hx; words |]. cbn. lia. Qed.

Lemma new_blocks : exists blk', extends blk blk' s s2
  /\ blk' (Free s) = Some Symbol_block /\ blk' (Free s + 2) = Some Link_block.
Proof.
  destruct (new_block base base_positive fuel blk s s1 Symbol_block S) as [E1 B1];
    [cbn [size]; lia | exact I | cbn [new_symbol Free size]; lia | intros x Hx; words | |].
  { cbn [wf_block]. replace (mem s1 (Free s + 1)) with UNBOUND_OBJECT by words. intros _ H. vm_compute in H. discriminate. }
  pose proof E1 as (_ & S1 & _).
  destruct (new_block base base_positive fuel _ s1 s2 Link_block S1) as [E2 B2];
    [cbn [size]; lia | exact I | cbn [new_link new_symbol pushed Free size]; lia | intros x Hx; cbn [new_symbol Free] in Hx; words | exact I |].
  eexists. split; [exact (extends_trans _ _ _ _ _ _ _ _ E1 E2) |].
  split; [apply E2, B1 | exact B2].
Qed.

Lemma make_symbol_table : exists blk',
  extends blk blk' s s3 /\ table blk' (mem s3)
  /\ (forall str q t, interned_at (mem s3) str q t <->
       interned_at (mem s) str q t \/ (q = Free s + 2 /\ string = str /\ t = TC_WEAK_CONS))
  /\ (forall x, Free s <= x < Free s + 3 -> mem s3 x = mem s2 x)
  /\ (forall a k, blk a = Some k -> mem s3 a = mem s a)
  /\ (forall n, short_buckets base fixed_objects n (mem s) -> short_buckets base fixed_objects (n + 1) (mem s3)).
Proof.
  destruct new_blocks as (blk' & E & B1 & B2). exists blk'.
  destruct new_words as (W0 & W1 & W2 & W3 & Low & Fr). destruct symbol_parts as (Ty & A & Tl & Al).
  pose proof E as (Inc & S2 & K). pose proof (st_apart _ _ _ S2) as AP2.
  pose proof (grown_table base fixed_objects AP Inc Low T) as T2.
  destruct (grown_obarray base fixed_objects AP Low T) as [Eo El].
  assert (Hi2 : 0 <= i < obarray_length (mem s2)) by now rewrite El.
  destruct (grown_bucket base fixed_objects AP Low T i ps Hi B) as [Bk _]. rewrite <- Eo in Bk.
  assert (Nm : name_of (mem s2) symbol = string).
  { unfold SymbolTable.name_of. rewrite A, W0. exact (grown_string_of base AP Low name Hn). }
  assert (Low_pairs : forall j ps2, 0 <= j < obarray_length (mem s2) -> bucket (mem s2) (obarray (mem s2) + (j + 1)) ps2 ->
            ~ In (Free s + 2) ps2).
  { intros j ps2 Hj Bj Hp. rewrite El in Hj. rewrite Eo in Bj.
    pose proof (bucket_back base fixed_objects AP Low T j ps2 Hj Bj) as Bj0.
    pose proof (en_link _ _ _ _ _ _ (proj2 (bucket_facts base fixed_objects T Hj Bj0) _ Hp)) as L.
    pose proof (ap_range _ _ _ AP _ _ L). cbn [size] in *. lia. }
  assert (Is : INTERNED_SYMBOL_P symbol = true) by (unfold INTERNED_SYMBOL_P; now rewrite Ty).
  assert (Ep : entry blk' (mem s2) (obarray (mem s2) + (i + 1)) (addr link)).
  { rewrite Al. split; [exact B2 |]. rewrite W2. intros _. rewrite A, Nm. split; [exact B1 |].
    rewrite W0. split; [exact (grown_string_ok base AP Inc Low name Hn) |].
    now rewrite (grown_cell base fixed_objects AP Low T), Ei, Eo. }
  pose proof (grown_interned base fixed_objects AP Low T) as G.
  assert (Lw : is_link link = true) by (unfold is_link, WEAK_PAIR_P; now rewrite Tl).
  assert (End' : is_link (mem s2 (addr link + 1)) = false /\ INTERNED_SYMBOL_P (mem s2 (addr link + 1)) = false).
  { rewrite Al. replace (Free s + 2 + 1) with (Free s + 3) by lia. rewrite W3. split; reflexivity. }
  assert (Fresh : forall j ps2, 0 <= j < obarray_length (mem s2) -> bucket (mem s2) (obarray (mem s2) + (j + 1)) ps2 ->
            ~ In (addr link) ps2) by now rewrite Al.
  destruct (snoc_table base fixed_objects AP2 T2 (i := i) (ps := ps) (w := link)) as [T3 I3]; try assumption.
  { rewrite Al, W2. exact Is. }
  { rewrite Al, W2, Nm. intros q t H. apply G in H. exact (Absent q t H). }
  rewrite Eo in T3, I3. cbn [set_mem mem].
  split; [| split; [exact T3 | split; [| split; [| split]]]].
  - apply (extends_trans _ _ _ _ _ _ _ _ E). apply (links_extends base base_positive fixed_objects fuel S2 T2).
    rewrite <- Eo. exact (snoc_agree base fixed_objects AP2 T2 Hi2 Bk).
  - intros str q t. rewrite I3, G, Al, W2, Nm, Tl. reflexivity.
  - intros x Hx. apply store_other. destruct (last_cell_cases c ps) as [-> | (q & Hq & ->)].
    + destruct (tb_obarray _ _ _ _ T) as (n & Bo & Ln & _). pose proof (ap_range _ _ _ AP _ _ Bo). cbn [size] in *. lia.
    + pose proof (ap_range _ _ _ AP _ _ (en_link _ _ _ _ _ _ (proj2 (bucket_facts base fixed_objects T Hi B) _ Hq))). cbn [size] in *. lia.
  - intros a k Hk. rewrite <- Eo. cbn [set_mem mem].
    rewrite (agree_word0 base fixed_objects blk' AP2 T2 _ (snoc_agree base fixed_objects AP2 T2 Hi2 Bk) _ _ (Inc _ _ Hk)).
    exact (low_word0 base AP Low _ _ Hk).
  - intros n Sh. rewrite <- Eo. apply (snoc_short base fixed_objects AP2 T2 Hi2 Bk Lw Ep End' Fresh).
    exact (grown_short base fixed_objects AP Low T n Sh).
Qed.

End Make.

(** ** What is known of a symbol *)

Notation held := (held base fixed_objects).

Section Held.
Context {blk : Z -> option kind} {free : Z} {m : memory}.
Hypothesis AP : apart base blk free.
Hypothesis T : table blk m.

Lemma interned_link string p t : interned_at m string p t -> blk p = Some Link_block.
Proof.
  intros (ps & B & Hp & _). destruct (hash_cell base fixed_objects blk T string) as (i & Hi & Ei). rewrite Ei in B.
  exact (en_link _ _ _ _ _ _ (proj2 (bucket_facts base fixed_objects T Hi B) p Hp)).
Qed.

Lemma held_unique string y y' t t' : held m string y t -> held m string y' t' -> y = y'.
Proof. intros (p & H & <-) (p' & H' & <-). f_equal. exact (tb_unique _ _ _ _ T string p p' t t' H H'). Qed.

Lemma held_same m' : agree (cell blk m) m m' -> same_symbols m m' -> forall string y t, held m' string y t <-> held m string y t.
Proof.
  intros Ag Sm string y t. split; intros (p & H & E); exists p; pose proof H as H0.
  - apply Sm in H. split; [exact H |]. now rewrite <- (agree_word0 base fixed_objects blk AP T m' Ag _ _ (interned_link _ _ _ H)).
  - apply Sm in H. split; [exact H |]. now rewrite (agree_word0 base fixed_objects blk AP T m' Ag _ _ (interned_link _ _ _ H0)).
Qed.

End Held.

(** Nothing but the links of dropped symbols has changed. *)
Definition kept_symbols (blk : Z -> option kind) (s s' : machine) : Prop :=
  extends blk blk s s' /\ table blk (mem s') /\ Free s' = Free s
  /\ forall string y t, held (mem s') string y t <-> held (mem s) string y t.

Section Lookup.
Context {blk : Z -> option kind} {s : machine}.
Hypothesis S : state blk s.
Hypothesis T : table blk (mem s).
Hypothesis Sh : short_buckets base fixed_objects fuel (mem s).

(** [find_symbol_internal] and the word it finds. *)
Lemma find_run string : exists m' l,
  find_symbol_internal base fixed_objects fuel string s = Value l (set_mem s m')
  /\ agree (cell blk (mem s)) (mem s) m' /\ kept_symbols blk s (set_mem s m')
  /\ (forall n, short_buckets base fixed_objects n (mem s) -> short_buckets base fixed_objects n m')
  /\ ((INTERNED_SYMBOL_P (m' l) = true /\ exists t, held (mem s) string (m' l) t)
      \/ (INTERNED_SYMBOL_P (m' l) = false /\ (forall y t, ~ held (mem s) string y t)
          /\ exists i ps, 0 <= i < obarray_length m' /\ bucket_cell m' string = obarray m' + (i + 1)
                          /\ bucket m' (obarray m' + (i + 1)) ps /\ l = last_cell (obarray m' + (i + 1)) ps)).
Proof.
  pose proof (st_apart _ _ _ S) as AP.
  destruct (find_symbol_internal_run AP T string Sh) as (m' & l & R & Ag & T' & Sm & Sh' & C).
  exists m', l. split; [exact R |]. split; [exact Ag |]. split.
  { split; [exact (links_extends base base_positive fixed_objects fuel S T Ag) |]. split; [exact T' |].
    split; [reflexivity | exact (held_same AP T m' Ag Sm)]. }
  split; [exact Sh' |]. destruct C as [(t & H) | (N & i & ps & Hi & Ei & B & ->)].
  - left. rewrite (agree_word0 base fixed_objects blk AP T m' Ag _ _ (interned_link T _ _ _ H)).
    pose proof H as (_ & _ & _ & I & _). split; [exact I |]. exists t, l. auto.
  - right. split; [exact (proj2 (bucket_last base m' _ _ B)) |]. split; [intros y t (p & H & _); exact (N p t H) |].
    exists i, ps. auto.
Qed.

Lemma find_symbol_run string m' l : find_symbol_internal base fixed_objects fuel string s = Value l (set_mem s m') ->
  find_symbol base fixed_objects fuel string s = Value (if INTERNED_SYMBOL_P (m' l) then m' l else SHARP_F) (set_mem s m').
Proof. intros R. unfold find_symbol. rewrite (bind_value _ _ _ _ _ _ _ R). act_steps. reflexivity. Qed.

Lemma string_to_symbol_run name m' l :
  find_symbol_internal base fixed_objects fuel (string_of (mem s) name) s = Value l (set_mem s m') ->
  string_to_symbol base fixed_objects fuel name s
  = if INTERNED_SYMBOL_P (m' l) then Value (m' l) (set_mem s m') else make_symbol base name l (set_mem s m').
Proof.
  intros R. unfold string_to_symbol.
  rewrite (bind_value _ _ _ _ _ _ _ (string_bytes_run base name s)), (bind_value _ _ _ _ _ _ _ R). act_steps.
  cbn [mem set_mem]. now destruct (INTERNED_SYMBOL_P (m' l)).
Qed.

(** A name that is interned. *)
Lemma symbol_found name y t : held (mem s) (string_of (mem s) name) y t ->
  exists s', kept_symbols blk s s'
    /\ find_symbol base fixed_objects fuel (string_of (mem s) name) s = Value y s'
    /\ string_to_symbol base fixed_objects fuel name s = Value y s'.
Proof.
  intros H. destruct (find_run (string_of (mem s) name)) as (m' & l & R & _ & K & _ & C). exists (set_mem s m').
  split; [exact K |]. rewrite (find_symbol_run _ _ _ R), (string_to_symbol_run _ _ _ R).
  destruct C as [(-> & t' & H') | (_ & N & _)]; [| now destruct (N y t)].
  rewrite (held_unique T _ _ _ _ _ H H'). auto.
Qed.

(** A name that is not. *)
Lemma symbol_absent name : (forall y t, ~ held (mem s) (string_of (mem s) name) y t) ->
  string_ok blk (mem s) name -> Free s + 4 <= base + 2 ^ 58 ->
  let y := MAKE_POINTER_OBJECT base TC_INTERNED_SYMBOL (Free s) in
  (exists s', kept_symbols blk s s' /\ find_symbol base fixed_objects fuel (string_of (mem s) name) s = Value SHARP_F s')
  /\ (GC_NEEDED_P s 4 = true -> string_to_symbol base fixed_objects fuel name s = Exit (Abort (Primitive_GC 4)))
  /\ (GC_NEEDED_P s 4 = false -> exists s' blk', string_to_symbol base fixed_objects fuel name s = Value y s'
        /\ Free s' = Free s + 4 /\ extends blk blk' s s' /\ table blk' (mem s')
        /\ (forall str z t, held (mem s') str z t
             <-> held (mem s) str z t \/ (str = string_of (mem s) name /\ z = y /\ t = TC_WEAK_CONS))
        /\ mem s' (addr y) = name /\ mem s' (addr y + 1) = UNBOUND_OBJECT
        /\ (forall n, short_buckets base fixed_objects n (mem s) -> short_buckets base fixed_objects (n + 1) (mem s'))).
Proof.
  intros N Hn Space y. pose proof (st_apart _ _ _ S) as AP.
  destruct (find_run (string_of (mem s) name)) as (m' & l & R & Ag & K & Sh' & C).
  destruct C as [(_ & t' & H') | (F & _ & i & ps & Hi & Ei & B & ->)]; [now destruct (N _ _ H') |].
  pose proof (string_to_symbol_run _ _ _ R) as St. rewrite F in St.
  split; [exists (set_mem s m'); split; [exact K | rewrite (find_symbol_run _ _ _ R); now rewrite F] |].
  pose proof K as (E & T' & _ & Kh). pose proof E as (_ & S' & _). cbn [set_mem mem] in T', Kh.
  pose proof (agree_string base fixed_objects blk AP T m' Ag name Hn) as En.
  pose proof (agree_string_ok base fixed_objects blk AP T m' Ag name Hn) as Hn'.
  split; intros G; rewrite St.
  { unfold make_symbol, Primitive_GC_If_Needed, bind. change (GC_NEEDED_P (set_mem s m') 4) with (GC_NEEDED_P s 4). now rewrite G. }
  pose proof (symbol_parts S' Space) as (Ty & A & _ & _). cbn [set_mem Free] in A, Ty.
  pose proof (make_symbol_run S' Space (name := name) (i := i) (ps := ps) G) as M. cbn [set_mem mem] in M. rewrite M. clear M.
  rewrite <- En in Ei.
  destruct (make_symbol_table S' T' Hn' (i := i) (ps := ps)) as (blk' & E3 & T3 & I3 & W3 & K3 & Sh3); try assumption.
  { cbn [set_mem mem]. rewrite En. intros p t H. apply (N (m' p) t), Kh. exists p. auto. }
  eexists. exists blk'. split; [reflexivity |]. split; [cbn; lia |].
  split; [exact (extends_trans _ _ _ _ _ _ _ _ E E3) |]. split; [exact T3 |].
  destruct (new_words (s := set_mem s m') (name := name)) as (W0 & W1 & W2 & _ & Low & Fr).
  fold y in A. cbn [set_mem Free] in *.
  split; [| rewrite A, !W3 by lia; split; [exact W0 | split; [exact W1 | intros n H; exact (Sh3 n (Sh' n H))]]].
  intros str z t. rewrite <- Kh, <- En. split.
  - intros (p & H & <-). apply I3 in H as [H | (-> & <- & ->)].
    + left. exists p. split; [exact H |]. symmetry. exact (K3 _ _ (interned_link T' _ _ _ H)).
    + right. rewrite W3 by lia. auto.
  - intros [(p & H & <-) | (-> & -> & ->)].
    + exists p. split; [apply I3; now left |]. exact (K3 _ _ (interned_link T' _ _ _ H)).
    + exists (Free s + 2). split; [apply I3; right; auto |]. rewrite W3 by lia. exact W2.
Qed.

(** ** The type of a link *)

Lemma held_at string symbol t : held (mem s) string symbol t ->
  INTERNED_SYMBOL_P symbol = true /\ name_of (mem s) symbol = string
  /\ exists p, interned_at (mem s) string p t /\ mem s p = symbol
       /\ forall str q u, interned_at (mem s) str q u -> mem s q = symbol <-> q = p.
Proof.
  intros (p & H & E). pose proof H as (ps & B & Hp & I & Nm & Ty). rewrite E in I, Nm. split; [exact I |]. split; [exact Nm |].
  exists p. split; [exact H |]. split; [exact E |]. intros str q u Hq. split; [| intros ->; exact E].
  intros Eq. pose proof Hq as (_ & _ & _ & _ & Nq & _). rewrite Eq, Nm in Nq. subst str.
  exact (tb_unique _ _ _ _ T string q p u t Hq H).
Qed.

Lemma replace_run string symbol type t : type = TC_LIST \/ type = TC_WEAK_CONS -> held (mem s) string symbol t ->
  exists s', replace_symbol_bucket_type base fixed_objects fuel symbol type s = Value tt s'
    /\ extends blk blk s s' /\ table blk (mem s') /\ Free s' = Free s
    /\ forall str z u, held (mem s') str z u <-> exists u0, held (mem s) str z u0 /\ u = if z =? symbol then type else u0.
Proof.
  intros Ht H. pose proof (st_apart _ _ _ S) as AP. destruct (held_at _ _ _ H) as (I & Nm & p & Hp & Ep & Up).
  pose proof Hp as (ps & B & Hin & _). destruct (hash_cell base fixed_objects blk T string) as (i & Hi & Ei). rewrite Ei in B.
  assert (Es : forall q, In q ps -> mem s q = symbol <-> q = p).
  { intros q Hq. split; [| intros ->; exact Ep]. intros Eq.
    apply (Up string q (OBJECT_TYPE (link_to (mem s) (bucket_cell (mem s) string) ps q))); [| exact Eq].
    exists ps. rewrite Ei, Eq. auto. }
  destruct (replace_loop_run base fixed_objects AP T Hi B symbol type s fuel p eq_refl (Sh i ps Hi B) Hin Es I)
    as (m' & R & B' & Ag & Lk & Fr).
  { destruct Ht as [-> | ->]; lia. }
  { intros d Hd. unfold is_link, WEAK_PAIR_P, PAIR_P. destruct (MAKE_OBJECT_parts type d) as [-> _]; [| exact Hd |];
      destruct Ht as [-> | ->]; lia. }
  exists (set_mem s m'). split.
  { unfold replace_symbol_bucket_type, UNINTERNED_SYMBOL_P. unfold INTERNED_SYMBOL_P in I |- *. apply Z.eqb_eq in I as I'. rewrite I'.
    unfold assert. cbn [Z.eqb Pos.eqb]. act_unfold. act_steps.
    rewrite (bind_value _ _ _ _ _ _ _ (string_bytes_run base _ s)).
    change (string_of (mem s) (mem s (addr symbol))) with (name_of (mem s) symbol).
    rewrite Nm, (bind_value _ _ _ _ _ _ _ (symbol_bucket_run string s)), Ei. exact R. }
  destruct (walked_table base fixed_objects AP T Hi B _ m' B' Ag Fr (fun q u => if q =? p then type else u)) as [T' I'];
    [intros q _ Hq; exact (Lk q Hq) | intros q u Nq; destruct (Z.eqb_spec q p) as [-> |]; [contradiction | reflexivity] |].
  split; [exact (links_extends base base_positive fixed_objects fuel S T Ag) |]. split; [exact T' |]. split; [reflexivity |].
  intros str z u. cbn [set_mem mem].
  assert (Same : forall q u0, interned_at (mem s) str q u0 -> m' q = mem s q /\ (q =? p) = (mem s q =? symbol)).
  { intros q u0 Hq. split; [exact (agree_word0 base fixed_objects blk AP T m' Ag _ _ (interned_link T _ _ _ Hq)) |].
    apply eq_true_iff_eq. rewrite !Z.eqb_eq. symmetry. exact (Up str q u0 Hq). }
  split.
  - intros (q & Hq & <-). apply I' in Hq as (u0 & Hq & ->). destruct (Same q u0 Hq) as [-> ->]. exists u0. split; [exists q; auto | reflexivity].
  - intros (u0 & (q & Hq & <-) & ->). destruct (Same q u0 Hq) as [E1 E2]. exists q. rewrite <- E2. split; [| exact E1].
    apply I'. exists u0. auto.
Qed.

End Lookup.
End Props.

(** ** Theorems *)

(** C10: interning a string gives the symbol of its bytes.  If the table holds
    one, that symbol is the value and nothing but links of dropped symbols
    changes; otherwise a new symbol, held weakly and without a value, is made
    where the free pointer was, or a collection is asked for.  Every other
    symbol stays what it was, every variable of every environment means what
    it meant, and any string with the same bytes gives the same symbol from
    then on. *)
Theorem string_to_symbol_correct base fixed_objects fuel blk s name n :
  0 < base -> state base blk s -> table base fixed_objects blk (mem s) ->
  short_buckets base fixed_objects n (mem s) -> (n + 1 <= fuel)%nat ->
  string_ok base blk (mem s) name -> Free s + 4 <= base + 2 ^ 58 ->
  let string := string_of base (mem s) name in
  (forall y t, held base fixed_objects (mem s) string y t ->
     exists s', kept_symbols base fixed_objects fuel blk s s'
       /\ find_symbol base fixed_objects fuel string s = Value y s'
       /\ string_to_symbol base fixed_objects fuel name s = Value y s')
  /\ ((forall y t, ~ held base fixed_objects (mem s) string y t) ->
      let y := MAKE_POINTER_OBJECT base TC_INTERNED_SYMBOL (Free s) in
      (exists s', kept_symbols base fixed_objects fuel blk s s'
         /\ find_symbol base fixed_objects fuel string s = Value SHARP_F s')
      /\ (GC_NEEDED_P s 4 = true -> string_to_symbol base fixed_objects fuel name s = Exit (Abort (Primitive_GC 4)))
      /\ (GC_NEEDED_P s 4 = false -> exists s' blk',
            string_to_symbol base fixed_objects fuel name s = Value y s'
            /\ Free s' = Free s + 4 /\ extends base fuel blk blk' s s' /\ table base fixed_objects blk' (mem s')
            /\ (forall str z t, held base fixed_objects (mem s') str z t
                 <-> held base fixed_objects (mem s) str z t \/ (str = string /\ z = y /\ t = TC_WEAK_CONS))
            /\ mem s' (OBJECT_ADDRESS base y) = name /\ mem s' (OBJECT_ADDRESS base y + 1) = UNBOUND_OBJECT
            /\ (forall name', string_ok base blk' (mem s') name' -> string_of base (mem s') name' = string ->
                 exists s'', string_to_symbol base fixed_objects fuel name' s' = Value y s''
                   /\ kept_symbols base fixed_objects fuel blk' s' s''))).
Proof.
  intros Hb S T Sh Hf Hn Space string.
  assert (Sf : short_buckets base fixed_objects fuel (mem s)) by (intros i ps Hi B; specialize (Sh i ps Hi B); lia).
  split; [intros y t; exact (symbol_found base Hb fixed_objects fuel S T Sf name y t) |].
  intros N y. destruct (symbol_absent base Hb fixed_objects fuel S T Sf name N Hn Space) as (F & G & R).
  split; [exact F |]. split; [exact G |]. intros G'.
  destruct (R G') as (s' & blk' & E & Fr & X & T' & H & W0 & W1 & Sh'). exists s', blk'.
  repeat (split; [assumption |]). intros name' _ En.
  assert (Sf' : short_buckets base fixed_objects fuel (mem s'))
    by (intros i ps Hi B; specialize (Sh' n Sh i ps Hi B); lia).
  destruct (symbol_found base Hb fixed_objects fuel (proj1 (proj2 X)) T' Sf' name' y TC_WEAK_CONS) as (s'' & K & _ & E'').
  { rewrite En. apply H. right. auto. }
  exists s''. auto.
Qed.

(** C37: [strengthen_symbol] makes the link to the symbol's pair an ordinary
    pair and [weaken_symbol] a weak one.  They find the symbol in its bucket
    without a failed assertion, and change no other symbol and no environment;
    uninterned symbols are left alone. *)
Theorem symbol_strength base fixed_objects fuel blk s symbol :
  0 < base -> state base blk s -> table base fixed_objects blk (mem s) -> short_buckets base fixed_objects fuel (mem s) ->
  (forall string t type (change : Z -> act unit), held base fixed_objects (mem s) string symbol t ->
     (change, type) = (strengthen_symbol base fixed_objects fuel, TC_LIST)
     \/ (change, type) = (weaken_symbol base fixed_objects fuel, TC_WEAK_CONS) ->
     exists s', change symbol s = Value tt s' /\ extends base fuel blk blk s s'
       /\ table base fixed_objects blk (mem s') /\ Free s' = Free s
       /\ forall str z u, held base fixed_objects (mem s') str z u
            <-> exists u0, held base fixed_objects (mem s) str z u0 /\ u = if z =? symbol then type else u0)
  /\ (UNINTERNED_SYMBOL_P symbol = true ->
       strengthen_symbol base fixed_objects fuel symbol s = Value tt s
       /\ weaken_symbol base fixed_objects fuel symbol s = Value tt s).
Proof.
  intros Hb S T Sh. split.
  - intros string t type change H [[= -> ->] | [= -> ->]]; eapply replace_run; eauto.
  - intros U. unfold strengthen_symbol, weaken_symbol, replace_symbol_bucket_type. now rewrite U.
Qed.

(** ** A small table

    One bucket, with a pair whose symbol was dropped by a collection and the
    pair of the symbol [a]. *)

#[local] Transparent MAKE_OBJECT OBJECT_DATUM OBJECT_TYPE OBJECT_ADDRESS.

Definition table_blocks : list (Z * kind) :=
  [(1010, Vector_block 4); (1015, Vector_block 1); (1017, Link_block); (1019, Link_block); (1021, Symbol_block);
   (1023, String_block 1); (1026, String_block 1)].

Definition table_fixed : Z := MAKE_POINTER_OBJECT 1000 TC_VECTOR 1010.
Definition symbol_a : Z := MAKE_POINTER_OBJECT 1000 TC_INTERNED_SYMBOL 1021.
Definition string_a : Z := MAKE_POINTER_OBJECT 1000 TC_BYTEVECTOR 1023.
Definition string_b : Z := MAKE_POINTER_OBJECT 1000 TC_BYTEVECTOR 1026.

Definition small_table (limit : Z) : machine :=
  mk_machine
    (words
      [(1010, 4); (1014, MAKE_POINTER_OBJECT 1000 TC_VECTOR 1015);
       (1015, 1); (1016, MAKE_POINTER_OBJECT 1000 TC_WEAK_CONS 1017);
       (1018, MAKE_POINTER_OBJECT 1000 TC_WEAK_CONS 1019);
       (1019, symbol_a); (1020, EMPTY_LIST); (1021, string_a); (1022, UNBOUND_OBJECT);
       (1023, 2); (1024, 1); (1025, 97); (1026, 2); (1027, 1); (1028, 98)])
    1030 1000 limit true.

Ltac each_table_block H := apply blocks_In in H; cbn [table_blocks In] in H;
  repeat (destruct H as [H | H]; [first [exfalso; congruence | injection H as <- <- | injection H as <- <- <-] |]); try contradiction.

Lemma small_state limit : state 1000 (blocks table_blocks) (small_table limit).
Proof.
  split; [| | cbn; lia].
  - split.
    + intros a k H. each_table_block H; cbn [size Free small_table]; lia.
    + intros a b k k' H H' N. each_table_block H; each_table_block H'; cbn [size]; lia.
  - split.
    + intros a k H. each_table_block H; cbn [wf_block]; try exact I. intros _ H. vm_compute in H. discriminate.
    + intros f g n n' H H' V V'. each_table_block H.
    + intros f g n n' p H H' V V'. each_table_block H.
Qed.

Lemma small_bucket limit : bucket 1000 (mem (small_table limit)) 1016 [1017; 1019].
Proof.
  apply (bucket_link 1000 (mem (small_table limit)) 1016 [1019]); [reflexivity |].
  apply (bucket_link 1000 (mem (small_table limit)) 1018 []); [reflexivity |].
  apply bucket_end; reflexivity.
Qed.

Lemma small_cell limit string : bucket_cell 1000 table_fixed (mem (small_table limit)) string = 1016.
Proof.
  unfold bucket_cell. replace (obarray_length 1000 table_fixed (mem (small_table limit))) with 1 by reflexivity.
  now rewrite Z.mod_1_r.
Qed.

Lemma small_interned limit string p t :
  interned_at 1000 table_fixed (mem (small_table limit)) string p t -> string = [97] /\ p = 1019 /\ t = TC_WEAK_CONS.
Proof.
  intros (ps & B & Hp & Is & <- & <-). rewrite small_cell in *. rewrite (bucket_fun _ _ _ _ _ B (small_bucket limit)) in *.
  destruct Hp as [<- | [<- | []]]; [discriminate Is | repeat split].
Qed.

Lemma small_table_ok limit : table 1000 table_fixed (blocks table_blocks) (mem (small_table limit)).
Proof.
  assert (One : forall i, 0 <= i < obarray_length 1000 table_fixed (mem (small_table limit)) -> i = 0).
  { intros i. replace (obarray_length 1000 table_fixed (mem (small_table limit))) with 1 by reflexivity. lia. }
  split.
  - exists 4. split; [reflexivity | lia].
  - exists 1. split; [reflexivity | split; [reflexivity | lia]].
  - vm_compute. discriminate.
  - intros i Hi. rewrite (One i Hi). exists [1017; 1019]. split; [exact (small_bucket limit) |].
    split; [repeat constructor; cbn; lia |]. intros p [<- | [<- | []]]; (split; [reflexivity |]).
    + intros H. discriminate H.
    + intros _. split; [reflexivity |]. split; [| exact (small_cell limit _)]. exists 1. split; [reflexivity | vm_compute; discriminate].
  - intros i j ps ps' p Hi Hj _ _ _ _. now rewrite (One i Hi), (One j Hj).
  - intros string p p' t t' H H'. apply small_interned in H as (_ & -> & _), H' as (_ & -> & _). reflexivity.
Qed.

Lemma small_short limit : short_buckets 1000 table_fixed 3 (mem (small_table limit)).
Proof.
  intros i ps Hi B. replace (obarray_length 1000 table_fixed (mem (small_table limit))) with 1 in Hi by reflexivity.
  assert (i = 0) as -> by lia. rewrite (bucket_fun _ _ _ _ _ B (small_bucket limit)). cbn. lia.
Qed.

Lemma small_held limit : held 1000 table_fixed (mem (small_table limit)) [97] symbol_a TC_WEAK_CONS.
Proof.
  exists 1019. split; [| reflexivity]. exists [1017; 1019]. rewrite small_cell. split; [exact (small_bucket limit) |].
  split; [cbn; auto | repeat split].
Qed.

(** [a] is found, [b] is made, and with less room [b] asks for a collection. *)
Lemma string_to_symbol_correct_witness :
  (exists s', string_to_symbol 1000 table_fixed 5 string_a (small_table 2000) = Value symbol_a s')
  /\ (exists s', let y := MAKE_POINTER_OBJECT 1000 TC_INTERNED_SYMBOL 1030 in
       string_to_symbol 1000 table_fixed 5 string_b (small_table 2000) = Value y s'
       /\ held 1000 table_fixed (mem s') [98] y TC_WEAK_CONS)
  /\ string_to_symbol 1000 table_fixed 5 string_b (small_table 1033) = Exit (Abort (Primitive_GC 4)).
Proof.
  pose proof (fun limit name (H : string_ok 1000 (blocks table_blocks) (mem (small_table limit)) name) =>
    string_to_symbol_correct 1000 table_fixed 5 _ _ name 3 ltac:(lia) (small_state limit) (small_table_ok limit)
      (small_short limit) ltac:(lia) H ltac:(cbn; lia)) as C.
  assert (A : forall limit y t, ~ held 1000 table_fixed (mem (small_table limit)) [98] y t).
  { intros limit y t (p & H & _). apply small_interned in H as [H _]. discriminate. }
  assert (Ob : forall limit, string_ok 1000 (blocks table_blocks) (mem (small_table limit)) string_b)
    by (intros limit; exists 1; split; [reflexivity | vm_compute; discriminate]).
  split; [| split].
  - destruct (proj1 (C 2000 string_a ltac:(exists 1; split; [reflexivity | vm_compute; discriminate])) _ _ (small_held 2000)) as (s' & _ & _ & E).
    exists s'. exact E.
  - destruct (proj2 (proj2 (proj2 (C 2000 string_b (Ob 2000)) (A 2000))) eq_refl) as (s' & blk' & E & _ & _ & _ & H & _).
    exists s'. split; [exact E |]. apply H. right. repeat split.
  - exact (proj1 (proj2 (proj2 (C 1033 string_b (Ob 1033)) (A 1033))) eq_refl).
Defined.

(** [a] strengthened. *)
Lemma symbol_strength_witness :
  exists s', strengthen_symbol 1000 table_fixed 5 symbol_a (small_table 2000) = Value tt s'
    /\ held 1000 table_fixed (mem s') [97] symbol_a TC_LIST.
Proof.
  assert (Sh : short_buckets 1000 table_fixed 5 (mem (small_table 2000)))
    by (intros i ps Hi B; pose proof (small_short 2000 i ps Hi B); lia).
  destruct (proj1 (symbol_strength 1000 table_fixed 5 _ _ symbol_a ltac:(lia) (small_state 2000) (small_table_ok 2000) Sh)
              _ _ _ _ (small_held 2000) (or_introl eq_refl)) as (s' & E & _ & _ & _ & H).
  exists s'. split; [exact E |]. apply H. exists TC_WEAK_CONS. split; [exact (small_held 2000) | reflexivity].
Defined.
