(* ===== verification/Stack.v ===== *)
(** * The interpreter's registers and stack (src/src/microcode/stack.h, interp.h,
      extern.h, intrpt.h, critsec.h)

    The interpreter keeps its continuation on a stack that grows downwards
    and its state in registers.  Here four of the registers, which hold what
    is being evaluated, are apart from the rest of the state, [core].  The
    stack is a block of its own, with addresses of its own: no object of the
    interpreter points into it.

    [MEMTOP] and [STACK_GUARD] are only read by compiled code and are left
    out, as [CC_SUPPORT_P] is not defined here. *)

From Stdlib Require Import ZArith List Lia Bool.
From S2P Require Import Prelude.
From S2P Require Import Object.
From S2P Require Import Memory.
From S2P Require Import Heap.
Import ListNotations.

Notation TC_RETURN_CODE := 11.
Notation TC_BROKEN_HEART := 34.
Notation CONTINUATION_EXPRESSION := 1.
Notation CONTINUATION_RETURN_CODE := 0.
Notation CONTINUATION_SIZE := 2.
Notation HISTORY_SIZE := 4.
Notation STACK_ENV_EXTRA_SLOTS := 1.
Notation INT_Stack_Overflow := 1.
Notation INT_GC := 4.
Notation MAX_INTERRUPT_NUMBER := 15.
Notation INT_Mask := 65535.

Definition MAKE_RETURN_CODE (n : Z) : Z := MAKE_OBJECT TC_RETURN_CODE n.

(** [critical_section] says whether [critical_section_name] is set; the
    interpreter states that [bind_interpreter_state] has stacked are counted. *)
Record core := mk_core {
  heap : machine;
  heap_end : Z;
  INT_MASK : Z;
  INT_CODE : Z;
  gc_space_needed : Z;
  history_register : Z;
  prev_restore_history_offset : Z;
  trapping : bool;
  critical_section : bool;
  critical_section_hook_p : bool;
  PRIMITIVE : Z;
  LEXPR_ACTUALS : Z;
  Free_primitive : Z;
  error_argument : Z;
  prim_apply_error_code : Z;
  interpreter_states : nat
}.

Record interp := mk_interp {
  VAL : Z;
  ENV : Z;
  EXPR : Z;
  RETURN : Z;
  stack_pointer : Z;
  stack : memory;
  rest : core
}.

(** ** The monad *)

Inductive halt :=
  | Microcode_Termination (code : Z)
  | Heap_exit (e : exit)
  | Hook_exit
  | Walk_fuel.

Inductive result (A : Type) := Normal (a : A) (s : interp) | Halt (e : halt).
Arguments Normal {A}.
Arguments Halt {A}.

Definition M (A : Type) : Type := interp -> result A.

Definition pure {A} (a : A) : M A := fun s => Normal a s.
Definition halting {A} (e : halt) : M A := fun _ => Halt e.
Definition seq {A B} (e : M A) (k : A -> M B) : M B := fun s =>
  match e s with Normal a s' => k a s' | Halt x => Halt x end.
Definition get {A} (f : interp -> A) : M A := fun s => Normal (f s) s.
Definition modify (f : interp -> interp) : M unit := fun s => Normal tt (f s).

Declare Scope interp_scope.
Delimit Scope interp_scope with interp.
Notation "x <- e ;; k" := (seq e (fun x => k))
  (at level 61, e at next level, right associativity) : interp_scope.
Notation "e ;; k" := (seq e (fun _ => k)) (at level 61, right associativity) : interp_scope.

(** *** The parts of the state *)

Definition set_rest (s : interp) (c : core) : interp :=
  mk_interp (VAL s) (ENV s) (EXPR s) (RETURN s) (stack_pointer s) (stack s) c.

Definition set_heap (c : core) (h : machine) : core :=
  mk_core h (heap_end c) (INT_MASK c) (INT_CODE c) (gc_space_needed c) (history_register c)
    (prev_restore_history_offset c) (trapping c) (critical_section c) (critical_section_hook_p c)
    (PRIMITIVE c) (LEXPR_ACTUALS c) (Free_primitive c) (error_argument c) (prim_apply_error_code c)
    (interpreter_states c).
Definition set_interrupts (c : core) (mask code : Z) : core :=
  let h := heap c in
  mk_core (mk_machine (mem h) (Free h) (heap_start h) (heap_alloc_limit h) (negb ((mask & INT_GC) =? 0)))
    (heap_end c) mask code (gc_space_needed c) (history_register c)
    (prev_restore_history_offset c) (trapping c) (critical_section c) (critical_section_hook_p c)
    (PRIMITIVE c) (LEXPR_ACTUALS c) (Free_primitive c) (error_argument c) (prim_apply_error_code c)
    (interpreter_states c).
Definition set_gc_space_needed (c : core) (n : Z) : core :=
  mk_core (heap c) (heap_end c) (INT_MASK c) (INT_CODE c) n (history_register c)
    (prev_restore_history_offset c) (trapping c) (critical_section c) (critical_section_hook_p c)
    (PRIMITIVE c) (LEXPR_ACTUALS c) (Free_primitive c) (error_argument c) (prim_apply_error_code c)
    (interpreter_states c).
Definition set_history (c : core) (h offset : Z) : core :=
  mk_core (heap c) (heap_end c) (INT_MASK c) (INT_CODE c) (gc_space_needed c) h
    offset (trapping c) (critical_section c) (critical_section_hook_p c)
    (PRIMITIVE c) (LEXPR_ACTUALS c) (Free_primitive c) (error_argument c) (prim_apply_error_code c)
    (interpreter_states c).
Definition set_trapping (c : core) (b : bool) : core :=
  mk_core (heap c) (heap_end c) (INT_MASK c) (INT_CODE c) (gc_space_needed c) (history_register c)
    (prev_restore_history_offset c) b (critical_section c) (critical_section_hook_p c)
    (PRIMITIVE c) (LEXPR_ACTUALS c) (Free_primitive c) (error_argument c) (prim_apply_error_code c)
    (interpreter_states c).
Definition set_critical_section (c : core) (name hook : bool) : core :=
  mk_core (heap c) (heap_end c) (INT_MASK c) (INT_CODE c) (gc_space_needed c) (history_register c)
    (prev_restore_history_offset c) (trapping c) name hook
    (PRIMITIVE c) (LEXPR_ACTUALS c) (Free_primitive c) (error_argument c) (prim_apply_error_code c)
    (interpreter_states c).
Definition set_primitive (c : core) (primitive actuals free : Z) : core :=
  mk_core (heap c) (heap_end c) (INT_MASK c) (INT_CODE c) (gc_space_needed c) (history_register c)
    (prev_restore_history_offset c) (trapping c) (critical_section c) (critical_section_hook_p c)
    primitive actuals free (error_argument c) (prim_apply_error_code c)
    (interpreter_states c).
Definition set_error_argument (c : core) (v : Z) : core :=
  mk_core (heap c) (heap_end c) (INT_MASK c) (INT_CODE c) (gc_space_needed c) (history_register c)
    (prev_restore_history_offset c) (trapping c) (critical_section c) (critical_section_hook_p c)
    (PRIMITIVE c) (LEXPR_ACTUALS c) (Free_primitive c) v (prim_apply_error_code c)
    (interpreter_states c).
Definition set_interpreter_states (c : core) (n : nat) : core :=
  mk_core (heap c) (heap_end c) (INT_MASK c) (INT_CODE c) (gc_space_needed c) (history_register c)
    (prev_restore_history_offset c) (trapping c) (critical_section c) (critical_section_hook_p c)
    (PRIMITIVE c) (LEXPR_ACTUALS c) (Free_primitive c) (error_argument c) (prim_apply_error_code c) n.

Definition core_memory (c : core) : memory := mem (heap c).
Definition change (f : core -> core) : M unit := modify (fun s => set_rest s (f (rest s))).

(** Code that works on the heap only. *)
Definition on_heap {A} (e : act A) : M A := fun s =>
  match e (heap (rest s)) with
  | Value a h => Normal a (set_rest s (set_heap (rest s) h))
  | Exit x => Halt (Heap_exit x)
  end.

(** ** Registers (extern.h) *)

Definition SET_VAL (v : Z) : M unit := modify (fun s =>
  mk_interp v (ENV s) (EXPR s) (RETURN s) (stack_pointer s) (stack s) (rest s)).
Definition SET_ENV (v : Z) : M unit := modify (fun s =>
  mk_interp (VAL s) v (EXPR s) (RETURN s) (stack_pointer s) (stack s) (rest s)).
Definition SET_EXP (v : Z) : M unit := modify (fun s =>
  mk_interp (VAL s) (ENV s) v (RETURN s) (stack_pointer s) (stack s) (rest s)).
Definition SET_RET (v : Z) : M unit := modify (fun s =>
  mk_interp (VAL s) (ENV s) (EXPR s) v (stack_pointer s) (stack s) (rest s)).
Definition SET_RC (code : Z) : M unit := SET_RET (MAKE_RETURN_CODE code).
Definition SET_STACK_POINTER (sp : Z) : M unit := modify (fun s =>
  mk_interp (VAL s) (ENV s) (EXPR s) (RETURN s) sp (stack s) (rest s)).

Definition PENDING_INTERRUPTS (c : core) : Z := INT_MASK c & INT_CODE c.
Definition PENDING_INTERRUPTS_P (c : core) : bool := negb (PENDING_INTERRUPTS c =? 0).

Definition SET_INTERRUPT_MASK (mask : Z) (c : core) : core := set_interrupts c mask (INT_CODE c).
Definition REQUEST_INTERRUPT (code : Z) (c : core) : core := set_interrupts c (INT_MASK c) (INT_CODE c .| code).
Definition CLEAR_INTERRUPT (code : Z) (c : core) : core := set_interrupts c (INT_MASK c) (INT_CODE c &~ code).
Definition REQUEST_GC (n_words : Z) (c : core) : core := set_gc_space_needed (REQUEST_INTERRUPT INT_GC c) n_words.
Definition HEAP_AVAILABLE (h : machine) : Z := if FREE_OK_P h then heap_alloc_limit h - Free h else 0.
Definition SPACE_BEFORE_GC (c : core) : Z :=
  let h := heap c in
  if GC_ENABLED_P h then HEAP_AVAILABLE h
  else if (heap_start h <=? Free h) && (Free h <? heap_end c) then heap_end c - Free h else 0.

Definition WITHIN_CRITICAL_SECTION_P (c : core) : bool := critical_section c.

(** ** The stack (stack.h) *)

Section Stack.
Local Open Scope interp_scope.
Variable memory_base : Z.
Variables stack_start stack_end stack_guard : Z.

Definition STACK_LOC (offset : Z) : M Z := get (fun s => stack_pointer s + offset).
Definition STACK_REF (offset : Z) : M Z := get (fun s => stack s (stack_pointer s + offset)).
Definition STACK_SET (offset v : Z) : M unit := modify (fun s =>
  mk_interp (VAL s) (ENV s) (EXPR s) (RETURN s) (stack_pointer s)
    (store (stack s) (stack_pointer s + offset) v) (rest s)).
Definition STACK_PUSH (object : Z) : M unit := modify (fun s =>
  mk_interp (VAL s) (ENV s) (EXPR s) (RETURN s) (stack_pointer s - 1)
    (store (stack s) (stack_pointer s - 1) object) (rest s)).
Definition STACK_POP : M Z := fun s =>
  Normal (stack s (stack_pointer s))
    (mk_interp (VAL s) (ENV s) (EXPR s) (RETURN s) (stack_pointer s + 1) (stack s) (rest s)).
Definition STACK_N_PUSHED : M Z := get (fun s => stack_end - stack_pointer s).

Definition SP_OK_P (sp : Z) : bool := stack_guard <=? sp.
Definition MAKE_BROKEN_HEART (address : Z) : Z := MAKE_POINTER_OBJECT memory_base TC_BROKEN_HEART address.
Definition STACK_OVERFLOWED_P (s : interp) : bool := negb (stack s stack_start =? MAKE_BROKEN_HEART stack_start).

(** [stack_death] terminates. *)
Definition STACK_CHECK (n : Z) : M unit := fun s =>
  if SP_OK_P (stack_pointer s - n) then Normal tt s
  else if STACK_OVERFLOWED_P s then Halt (Microcode_Termination 7)
  else Normal tt (set_rest s (REQUEST_INTERRUPT INT_Stack_Overflow (rest s))).
Definition Will_Push (n : Z) : M unit := STACK_CHECK n.

Definition PUSH_ENV : M unit := v <- get ENV ;; STACK_PUSH v.
Definition PUSH_VAL : M unit := v <- get VAL ;; STACK_PUSH v.
Definition PUSH_EXP : M unit := v <- get EXPR ;; STACK_PUSH v.
Definition PUSH_RET : M unit := v <- get RETURN ;; STACK_PUSH v.
Definition POP_ENV : M unit := v <- STACK_POP ;; SET_ENV v.
Definition POP_EXP : M unit := v <- STACK_POP ;; SET_EXP v.
Definition POP_RET : M unit := v <- STACK_POP ;; SET_RET v.

(** ** Frames (interp.h) *)

Definition SAVE_CONT : M unit := PUSH_EXP ;; PUSH_RET.
Definition RESTORE_CONT : M unit := POP_RET ;; POP_EXP.
Definition CONT_RET (offset : Z) : M Z := STACK_REF (offset + CONTINUATION_RETURN_CODE).
Definition CONT_EXP (offset : Z) : M Z := STACK_REF (offset + CONTINUATION_EXPRESSION).

Definition PUSH_APPLY_FRAME_HEADER (n_args : Z) : M unit := STACK_PUSH (MAKE_OBJECT 0 (n_args + 1)).
Definition APPLY_FRAME_HEADER_N_ARGS (header : Z) : Z := OBJECT_DATUM header - 1.
Definition POP_APPLY_FRAME_HEADER : M Z := h <- STACK_POP ;; pure (APPLY_FRAME_HEADER_N_ARGS h).
Definition APPLY_FRAME_SIZE : M Z := h <- STACK_REF 0 ;; pure (OBJECT_DATUM h).
Definition APPLY_FRAME_N_ARGS : M Z := h <- STACK_REF 0 ;; pure (APPLY_FRAME_HEADER_N_ARGS h).
Definition APPLY_FRAME_PROCEDURE : M Z := STACK_REF 1.
Definition SET_APPLY_FRAME_PROCEDURE (v : Z) : M unit := STACK_SET 1 v.
Definition POP_PRIMITIVE_FRAME (arity : Z) : M unit := sp <- STACK_LOC arity ;; SET_STACK_POINTER sp.

End Stack.
