(* ===== verification/History.v ===== *)
(** * The history of reductions (src/src/microcode/history.h, utils.c)

    For the debugger the interpreter records the last subproblems and, for
    each, the last reductions, in rings of three-word blocks of the heap: the
    vertebrae, linked in both directions, and a ring of ribs at each of them.
    The bit that tells the two hunk types apart marks an entry.

    [fuel] bounds the walks around a ring in [copy_history]. *)

From Stdlib Require Import ZArith List Lia Bool.
From S2P Require Import Prelude.
From S2P Require Import Object.
From S2P Require Import Memory.
From S2P Require Import Heap.
From S2P Require Import Stack.
Import ListNotations.

Notation HIST_RIB := 0.
Notation HIST_NEXT_SUBPROBLEM := 1.
Notation HIST_PREV_SUBPROBLEM := 2.
Notation HIST_MARK := 1.
Notation RIB_EXP := 0.
Notation RIB_ENV := 1.
Notation RIB_NEXT_REDUCTION := 2.
Notation RIB_MARK := 2.
Notation UNMARKED_HISTORY_TYPE := 32.
Notation MARKED_HISTORY_TYPE := 36.
Notation DUMMY_HISTORY := 19.
Notation RC_RESTORE_HISTORY := 5.
Notation RC_RESTORE_DONT_COPY_HISTORY := 47.

Definition HISTORY_MARK_MASK : Z := (UNMARKED_HISTORY_TYPE ^^ MARKED_HISTORY_TYPE) * 2 ^ 58.
Definition HISTORY_MARK (object : Z) : Z := object .| HISTORY_MARK_MASK.
Definition HISTORY_UNMARK (object : Z) : Z := object &~ HISTORY_MARK_MASK.
Definition HISTORY_MARKED_P (object : Z) : bool := negb ((object & HISTORY_MARK_MASK) =? 0).

Definition HUNK3_P (object : Z) : bool :=
  (OBJECT_TYPE object =? UNMARKED_HISTORY_TYPE) || (OBJECT_TYPE object =? MARKED_HISTORY_TYPE).

Definition set_core_memory (c : core) (m : memory) : core := set_heap c (set_mem (heap c) m).

Section History.
Local Open Scope interp_scope.
Variable memory_base : Z.
Variables stack_start stack_end stack_guard : Z.
Variable fixed_objects : Z.
Variable fuel : nat.
Notation addr := (OBJECT_ADDRESS memory_base).
Notation pointer := (MAKE_POINTER_OBJECT memory_base).

Definition fixed_object (c : core) (i : Z) : Z := core_memory c (VECTOR_LOC memory_base fixed_objects i).
Definition READ_DUMMY_HISTORY (c : core) : Z := fixed_object c DUMMY_HISTORY.

(** ** Recording *)

Definition write_rib (rib expression environment : Z) (m : memory) : memory :=
  store (store m (rib + RIB_ENV) environment) (rib + RIB_EXP) expression.

Definition new_subproblem (expression environment : Z) (c : core) : core :=
  let m := core_memory c in
  let h := addr (m (history_register c + HIST_NEXT_SUBPROBLEM)) in
  let m := store m (h + HIST_MARK) (HISTORY_MARK (m (h + HIST_MARK))) in
  let rib := addr (m (h + HIST_RIB)) in
  let m := store m (rib + RIB_MARK) (HISTORY_MARK (m (rib + RIB_MARK))) in
  set_history (set_core_memory c (write_rib rib expression environment m)) h (prev_restore_history_offset c).

Definition reuse_subproblem (expression environment : Z) (c : core) : core :=
  let m := core_memory c in
  let rib := addr (m (history_register c + HIST_RIB)) in
  let m := store m (rib + RIB_MARK) (HISTORY_MARK (m (rib + RIB_MARK))) in
  set_core_memory c (write_rib rib expression environment m).

Definition new_reduction (expression environment : Z) (c : core) : core :=
  let m := core_memory c in
  let rib := addr (m (MEMORY_LOC memory_base (m (history_register c + HIST_RIB)) RIB_NEXT_REDUCTION)) in
  let m := store m (history_register c + HIST_RIB) (pointer UNMARKED_HISTORY_TYPE rib) in
  let m := write_rib rib expression environment m in
  set_core_memory c (store m (rib + RIB_MARK) (HISTORY_UNMARK (m (rib + RIB_MARK)))).

Definition end_subproblem (c : core) : core :=
  let m := core_memory c in
  let h := history_register c in
  let m := store m (h + HIST_MARK) (HISTORY_UNMARK (m (h + HIST_MARK))) in
  set_history (set_core_memory c m) (addr (m (h + HIST_PREV_SUBPROBLEM))) (prev_restore_history_offset c).

(** ** The dummy history *)

Definition make_dummy_history (c : core) : Z * core :=
  let h := heap c in
  let rib := Free h in
  let m := store (store (mem h) (rib + RIB_EXP) SHARP_F) (rib + RIB_ENV) SHARP_F in
  let m := store m (rib + RIB_NEXT_REDUCTION) (pointer UNMARKED_HISTORY_TYPE rib) in
  let history := rib + 3 in
  let m := store m (history + HIST_RIB) (pointer UNMARKED_HISTORY_TYPE rib) in
  let m := store m (history + HIST_NEXT_SUBPROBLEM) (pointer UNMARKED_HISTORY_TYPE history) in
  let m := store m (history + HIST_PREV_SUBPROBLEM) (pointer UNMARKED_HISTORY_TYPE history) in
  (history, set_heap c (mk_machine m (history + 3) (heap_start h) (heap_alloc_limit h) (GC_ENABLED_P h))).

Definition reset_history (c : core) : core :=
  if VECTOR_P fixed_objects && negb (READ_DUMMY_HISTORY c =? SHARP_F)
  then set_history c (addr (READ_DUMMY_HISTORY c)) 0
  else let (h, c) := make_dummy_history c in set_history c h 0.

(** ** Saving *)

Definition save_history (rc : Z) : M unit :=
  Will_Push memory_base stack_start stack_guard HISTORY_SIZE ;;
  STACK_PUSH SHARP_F ;;
  c <- get rest ;;
  STACK_PUSH (ULONG_TO_FIXNUM (prev_restore_history_offset c)) ;;
  SET_EXP (pointer UNMARKED_HISTORY_TYPE (history_register c)) ;;
  SET_RC rc ;;
  SAVE_CONT ;;
  change (fun c => set_history c (addr (READ_DUMMY_HISTORY c)) (prev_restore_history_offset c)).

Definition stop_history : M unit :=
  exp <- get EXPR ;;
  ret <- get RETURN ;;
  save_history RC_RESTORE_DONT_COPY_HISTORY ;;
  n <- STACK_N_PUSHED stack_end ;;
  change (fun c => set_history c (history_register c) (n + CONTINUATION_RETURN_CODE)) ;;
  SET_RET ret ;;
  SET_EXP exp.

(** ** Copying

    The words above [Free] are written before it is known whether the copy
    fits. *)

Inductive ring :=
  | Copied (m : memory) (last_link free space_left type : Z)
  | No_space (m : memory)
  | Endless.

Fixpoint copy_ribs (n : nat) (m : memory) (orig_rib source_rib rib_slot free space_left rib_type : Z) : ring :=
  match n with
  | O => Endless
  | S n =>
      if space_left <? 3 then No_space m
      else
        let m := store m rib_slot (pointer rib_type free) in
        let m := store m (free + RIB_EXP) (m (source_rib + RIB_EXP)) in
        let m := store m (free + RIB_ENV) (m (source_rib + RIB_ENV)) in
        let rib_slot := free + RIB_NEXT_REDUCTION in
        let temp := m (source_rib + RIB_NEXT_REDUCTION) in
        if addr temp =? orig_rib
        then Copied m rib_slot (free + 3) (space_left - 3) (OBJECT_TYPE temp)
        else copy_ribs n m orig_rib (addr temp) rib_slot (free + 3) (space_left - 3) (OBJECT_TYPE temp)
  end.

Fixpoint copy_vertebrae (n : nat) (m : memory) (orig_hist hist_ptr last_hunk free space_left vert_type : Z) : ring :=
  match n with
  | O => Endless
  | S n =>
      if space_left <? 3 then No_space m
      else
        let m := store m (last_hunk + HIST_NEXT_SUBPROBLEM) (pointer vert_type free) in
        let m := store m (free + HIST_PREV_SUBPROBLEM)
                   (pointer (OBJECT_TYPE (m (hist_ptr + HIST_PREV_SUBPROBLEM))) last_hunk) in
        let last_hunk := free in
        let temp := m (hist_ptr + HIST_RIB) in
        match copy_ribs fuel m (addr temp) (addr temp) (last_hunk + HIST_RIB) (free + 3) (space_left - 3) (OBJECT_TYPE temp) with
        | Copied m rib_slot free space_left rib_type =>
            let m := store m rib_slot (OBJECT_NEW_TYPE rib_type (m (last_hunk + HIST_RIB))) in
            let temp := m (hist_ptr + HIST_NEXT_SUBPROBLEM) in
            if addr temp =? orig_hist
            then Copied m last_hunk free space_left (OBJECT_TYPE temp)
            else copy_vertebrae n m orig_hist (addr temp) last_hunk free space_left (OBJECT_TYPE temp)
        | r => r
        end
  end.

(** [assert] fails on an object that is no hunk. *)
Definition copy_history (hist_obj : Z) : M Z := fun s =>
  let c := rest s in
  let h := heap c in
  if negb (HUNK3_P hist_obj) then Halt (Heap_exit Assertion_failed)
  else if SPACE_BEFORE_GC c <? 3 then Normal SHARP_F s
  else
    let orig_hist := addr hist_obj in
    match copy_vertebrae fuel (mem h) orig_hist orig_hist (heap_end c - 3) (Free h) (SPACE_BEFORE_GC c - 3)
            (OBJECT_TYPE hist_obj) with
    | Endless => Halt Walk_fuel
    | No_space m => Normal SHARP_F (set_rest s (set_core_memory c m))
    | Copied m last_hunk free _ vert_type =>
        let new_hunk := m (heap_end c - 3 + HIST_NEXT_SUBPROBLEM) in
        let m := store m (last_hunk + HIST_NEXT_SUBPROBLEM) (OBJECT_NEW_TYPE vert_type new_hunk) in
        let m := store m (MEMORY_LOC memory_base new_hunk HIST_PREV_SUBPROBLEM)
                   (pointer (OBJECT_TYPE (m (orig_hist + HIST_PREV_SUBPROBLEM))) last_hunk) in
        Normal new_hunk (set_rest s (set_heap c (mk_machine m free (heap_start h) (heap_alloc_limit h) (GC_ENABLED_P h))))
    end.

Definition restore_history (hist_obj : Z) : M bool :=
  new_hist <- copy_history hist_obj ;;
  if new_hist =? SHARP_F then pure false
  else change (fun c => set_history c (addr new_hist) (prev_restore_history_offset c)) ;; pure true.

End History.
