(* ===== verification/Signal.v ===== *)
(** * Errors and interrupts (src/src/microcode/utils.c)

    An error or an interrupt is turned into the application of a handler,
    on top of frames that restore the history and the interrupt mask. *)

From Stdlib Require Import ZArith List Lia Bool.
From S2P Require Import Prelude.
From S2P Require Import HeapArg.
From S2P Require Import Bignum.
From S2P Require Import BignumSpec.
From S2P Require Import Object.
From S2P Require Import Integer.
From S2P Require Import IntPrim.
From S2P Require Import Memory.
From S2P Require Import Heap.
From S2P Require Import Environment.
From S2P Require Import Stack.
From S2P Require Import History.
Import ListNotations.

Notation SYSTEM_INTERRUPT_VECTOR := 1.
Notation SYSTEM_ERROR_VECTOR := 2.
Notation FIXOBJ_INTERRUPT_MASK_VECTOR := 6.
Notation TC_PRIMITIVE := 24.
Notation TC_PROCEDURE := 15.
Notation TC_EXTENDED_PROCEDURE := 9.
Notation TC_CONTROL_POINT := 28.
Notation TC_ENTITY := 16.
Notation ENTITY_OPERATOR := 0.
Notation ENTITY_DATA := 1.
Notation RC_INTERNAL_APPLY := 3.
Notation RC_POP_RETURN_ERROR := 64.
Notation RC_EVAL_ERROR := 65.
Notation RC_RESTORE_INT_MASK := 69.
Notation LEXPR_PRIMITIVE_ARITY := (-1).
Notation ERR_BAD_ERROR_CODE := 0.
Notation ERR_IN_SYSTEM_CALL := 4.
Notation ERR_WITH_ARGUMENT := 5.
Notation ERR_EXTERNAL_RETURN := 10.
Notation PRIM_INTERRUPT_CODE := (-4).
Notation TERM_NO_ERROR_HANDLER := 9.
Notation TERM_NO_INTERRUPT_HANDLER := 10.

Definition THE_NULL_ENV : Z := MAKE_OBJECT 0 1.
Definition PRIMITIVE_P (object : Z) : bool := OBJECT_TYPE object =? TC_PRIMITIVE.
Definition CONTROL_POINT_P (object : Z) : bool := OBJECT_TYPE object =? TC_CONTROL_POINT.

(** ** Error codes (errors.h) *)

Definition error_code_of (c : code) : Z :=
  match c with
  | PRIM_DONE => -1
  | PRIM_INTERRUPT _ => PRIM_INTERRUPT_CODE
  | ERR_UNBOUND_VARIABLE => 1
  | ERR_UNASSIGNED_VARIABLE => 2
  | ERR_MACRO_BINDING => 19
  | ERR_BAD_FRAME => 6
  | ERR_ILLEGAL_REFERENCE_TRAP => 52
  end.

Definition wrong_type_code (n : Z) : Z :=
  if (1 <=? n) && (n <=? 3) then 12 + n
  else if (4 <=? n) && (n <=? 10) then 37 + n else ERR_EXTERNAL_RETURN.
Definition bad_range_code (n : Z) : Z :=
  if (1 <=? n) && (n <=? 3) then 15 + n
  else if (4 <=? n) && (n <=? 10) then 30 + n else ERR_EXTERNAL_RETURN.

Section Signal.
Local Open Scope interp_scope.
Variable memory_base : Z.
Variables stack_start stack_end stack_guard : Z.
Variable fixed_objects : Z.
Variable Primitive_Arity_Table : Z -> Z.
Variable fuel : nat.
Notation addr := (OBJECT_ADDRESS memory_base).
Notation pointer := (MAKE_POINTER_OBJECT memory_base).
Notation Will_Push := (Will_Push memory_base stack_start stack_guard).
Notation stop_history := (stop_history memory_base stack_start stack_end stack_guard fixed_objects).
Notation fixed_object := (fixed_object memory_base fixed_objects).

(** ** Words of the heap *)

Definition MEM (object i : Z) : M Z := get (fun s => core_memory (rest s) (MEMORY_LOC memory_base object i)).
Definition VLENGTH (m : memory) (v : Z) : Z := OBJECT_DATUM (m (MEMORY_LOC memory_base v 0)).
Definition VREF (m : memory) (v i : Z) : Z := m (VECTOR_LOC memory_base v i).

(** ** Interrupts *)

Fixpoint interrupt_number_loop (n : nat) (masked_interrupts number bit_mask : Z) : Z :=
  match n with
  | O => number
  | S n =>
      if (number <=? MAX_INTERRUPT_NUMBER) && ((masked_interrupts & bit_mask) =? 0)
      then interrupt_number_loop n masked_interrupts (number + 1) (ulong (Z.shiftl bit_mask 1))
      else number
  end.
Definition compute_interrupt_number (masked_interrupts : Z) : Z :=
  interrupt_number_loop 17 masked_interrupts 0 1.

Definition compute_interrupt_handler_mask (c : core) (interrupt_masks interrupt_number : Z) : Z :=
  let m := core_memory c in
  let bit := ulong (Z.shiftl 1 interrupt_number) in
  let default := if interrupt_number <=? MAX_INTERRUPT_NUMBER then ulong (bit - 1) else INT_MASK c in
  if VECTOR_P interrupt_masks && (interrupt_number <=? VLENGTH m interrupt_masks) then
    let mask := integer_object memory_base m (VREF m interrupt_masks interrupt_number) in
    match INTEGER_P mask, integer_to_ulong_p mask, integer_to_ulong mask with
    | true, Some true, Some n => n &~ bit
    | _, _, _ => default
    end
  else default.

Definition preserve_interrupt_mask : M unit :=
  Will_Push CONTINUATION_SIZE ;;
  SET_RC RC_RESTORE_INT_MASK ;;
  c <- get rest ;;
  SET_EXP (ULONG_TO_FIXNUM (INT_MASK c)) ;;
  SAVE_CONT.

(** The frame of a handler with two arguments, the first of which is read
    after the check of the stack, which can request an interrupt. *)
Definition push_handler (handler : Z) (argument : core -> Z) : M unit :=
  Will_Push (STACK_ENV_EXTRA_SLOTS + 3) ;;
  c <- get rest ;;
  STACK_PUSH (ULONG_TO_FIXNUM (INT_MASK c)) ;;
  STACK_PUSH (argument c) ;;
  STACK_PUSH handler ;;
  PUSH_APPLY_FRAME_HEADER 2.

(** What [setup_interrupt] reads: the handler, its argument, and the mask. *)
Definition interrupt_handler (masked_interrupts : Z) (c : core) : option (Z * Z) :=
  let m := core_memory c in
  let number := compute_interrupt_number masked_interrupts in
  let handlers := fixed_object c SYSTEM_INTERRUPT_VECTOR in
  if VECTOR_P fixed_objects && (VECTOR_P handlers && (number <? VLENGTH m handlers))
  then Some (VREF m handlers number,
             compute_interrupt_handler_mask c (fixed_object c FIXOBJ_INTERRUPT_MASK_VECTOR) number)
  else None.

Definition setup_interrupt (masked_interrupts : Z) : M unit :=
  c <- get rest ;;
  match interrupt_handler masked_interrupts c with
  | None => halting (Microcode_Termination TERM_NO_INTERRUPT_HANDLER)
  | Some (handler, mask) =>
      stop_history ;;
      preserve_interrupt_mask ;;
      push_handler handler (fun c => ULONG_TO_FIXNUM (INT_CODE c)) ;;
      change (SET_INTERRUPT_MASK mask)
  end.

(** ** Errors *)

Definition PRIMITIVE_ARITY (primitive : Z) : Z := Primitive_Arity_Table (OBJECT_DATUM primitive).
Definition PRIMITIVE_N_ARGUMENTS (primitive : Z) (c : core) : Z :=
  if PRIMITIVE_ARITY primitive =? LEXPR_PRIMITIVE_ARITY then LEXPR_ACTUALS c else PRIMITIVE_ARITY primitive.
Definition SET_PRIMITIVE (v : Z) (c : core) : core := set_primitive c v (LEXPR_ACTUALS c) (Free_primitive c).

Definition back_out_of_primitive : M unit :=
  c <- get rest ;;
  if PRIMITIVE_P (PRIMITIVE c) then
    STACK_PUSH (PRIMITIVE c) ;;
    PUSH_APPLY_FRAME_HEADER (PRIMITIVE_N_ARGUMENTS (PRIMITIVE c) c) ;;
    change (SET_PRIMITIVE SHARP_F) ;;
    SET_EXP SHARP_F ;;
    SET_RC RC_INTERNAL_APPLY ;;
    SAVE_CONT ;;
    SET_ENV THE_NULL_ENV ;;
    SET_VAL SHARP_F
  else halting (Heap_exit Assertion_failed).

Definition error_handler (error_code : Z) (c : core) : option Z :=
  let m := core_memory c in
  let error_vector := fixed_object c SYSTEM_ERROR_VECTOR in
  if VECTOR_P fixed_objects && VECTOR_P error_vector then
    if (0 <=? error_code) && (error_code <? VLENGTH m error_vector) then Some (VREF m error_vector error_code)
    else if ERR_BAD_ERROR_CODE <? VLENGTH m error_vector then Some (VREF m error_vector ERR_BAD_ERROR_CODE)
    else None
  else None.

(** An error code is an [int]. *)
Definition error_object (error_code : Z) (c : core) : Z :=
  if (error_code =? ERR_WITH_ARGUMENT) || (error_code =? ERR_IN_SYSTEM_CALL) then error_argument c
  else LONG_TO_FIXNUM error_code.

Definition Do_Micro_Error (error_code : Z) (from_pop_return_p : bool) : M unit :=
  Will_Push (CONTINUATION_SIZE + (if from_pop_return_p then 0 else 1)) ;;
  (if from_pop_return_p then v <- get VAL ;; SET_EXP v else PUSH_ENV) ;;
  SET_RC (if from_pop_return_p then RC_POP_RETURN_ERROR else RC_EVAL_ERROR) ;;
  SAVE_CONT ;;
  c <- get rest ;;
  match error_handler error_code c with
  | None => halting (Microcode_Termination TERM_NO_ERROR_HANDLER)
  | Some handler =>
      stop_history ;;
      preserve_interrupt_mask ;;
      push_handler handler (error_object error_code) ;;
      change (SET_INTERRUPT_MASK 0)
  end.

(** ** Applicability *)

Fixpoint interpreter_applicable_loop (n : nat) (m : memory) (object : Z) : option bool :=
  match n with
  | O => None
  | S n =>
      let type := OBJECT_TYPE object in
      if (type =? TC_PRIMITIVE) || (type =? TC_PROCEDURE) || (type =? TC_EXTENDED_PROCEDURE) || (type =? TC_CONTROL_POINT)
      then Some true
      else if type =? TC_ENTITY then interpreter_applicable_loop n m (m (MEMORY_LOC memory_base object ENTITY_OPERATOR))
      else Some false
  end.
Definition interpreter_applicable_p (object : Z) (c : core) : option bool :=
  interpreter_applicable_loop fuel (core_memory c) object.

End Signal.
