(* ===== verification/Control.v ===== *)
(** * Control primitives (src/src/microcode/hooks.c, prims.h)

    Primitives that work on the stack and on the registers of the interpreter:
    application, control points, evaluation, promises, interrupts.  A primitive
    returns its value, or aborts to the interpreter with a code, as
    [PRIMITIVE_ABORT] does with [longjmp]. *)

From Stdlib Require Import ZArith List Lia Bool.
From S2P Require Import Prelude.
From S2P Require Import HeapArg.
From S2P Require Import Bignum.
From S2P Require Import BignumSpec.
From S2P Require Import Object.
From S2P Require Import Integer.
From S2P Require Import IntPrim.
From S2P Require Import Memory.
From S2P Require Import Heap.
From S2P Require Import Environment.
From S2P Require Import Stack.
From S2P Require Import History.
From S2P Require Import Signal.
Import ListNotations.

Notation TC_DELAYED := 19.
Notation RC_JOIN_STACKLETS := 1.
Notation RC_SNAP_NEED_THUNK := 28.
Notation RC_STACK_MARKER := 66.
Notation THUNK_SNAPPED := 0.
Notation THUNK_VALUE := 1.
Notation THUNK_ENVIRONMENT := 0.
Notation THUNK_PROCEDURE := 1.
Notation PRIM_DO_EXPRESSION := (-2).
Notation PRIM_APPLY := (-3).
Notation PRIM_POP_RETURN := (-7).
Notation PRIM_NO_TRAP_EVAL := (-5).
Notation PRIM_NO_TRAP_APPLY := (-6).
Notation PRIM_APPLY_INTERRUPT := (-9).
Notation PRIM_APPLY_ERROR := (-10).
Notation PRIM_NO_TRAP_POP_RETURN := (-11).
Notation PRIM_RETURN_TO_C := (-12).
Notation PRIM_ABORT_TO_C := (-13).
Notation ERR_WRONG_NUMBER_OF_ARGUMENTS := 12.
Notation Error_Procedure := 29.
Notation UNSPECIFIC_OBJECT := (MAKE_OBJECT TC_CONSTANT 1).
Notation FIXNUM_ZERO := (ULONG_TO_FIXNUM 0).

Definition PROMISE_P (object : Z) : bool := OBJECT_TYPE object =? TC_DELAYED.

(** ** The monad of primitives *)

Inductive primitive_result (A : Type) :=
  | Returning (a : A) (s : interp)
  | Aborting (code : Z) (s : interp)
  | Failing (e : halt).
Arguments Returning {A}.
Arguments Aborting {A}.
Arguments Failing {A}.

Definition P (A : Type) : Type := interp -> primitive_result A.
Definition pseq {A B} (e : P A) (k : A -> P B) : P B := fun s =>
  match e s with
  | Returning a s' => k a s'
  | Aborting c s' => Aborting c s'
  | Failing x => Failing x
  end.
Definition PRIMITIVE_ABORT {A} (code : Z) : P A := fun s => Aborting code s.
Definition doing {A} (e : M A) : P A := fun s =>
  match e s with Normal a s' => Returning a s' | Halt x => Failing x end.
Definition returning {A} (a : A) : P A := fun s => Returning a s.

Declare Scope primitive_scope.
Delimit Scope primitive_scope with primitive.
Notation "x <- e ;; k" := (pseq e (fun x => k))
  (at level 61, e at next level, right associativity) : primitive_scope.
Notation "e ;; k" := (pseq e (fun _ => k)) (at level 61, right associativity) : primitive_scope.

(** [Primitive_GC] asks for what the primitive has already allocated as well. *)
Definition request_primitive_GC {A} (amount : Z) : P A := fun s =>
  let c := rest s in
  if Free_primitive c <? heap_start (heap c) then Failing (Microcode_Termination 12)
  else if Free (heap c) <? Free_primitive c then Failing (Microcode_Termination 12)
  else Aborting PRIM_INTERRUPT_CODE (set_rest s (REQUEST_GC (amount + (Free (heap c) - Free_primitive c)) c)).

Definition signal_prim_error {A} (e : prim_error) : P A :=
  match e with
  | error_wrong_type_arg n => PRIMITIVE_ABORT (wrong_type_code n)
  | error_bad_range_arg n => PRIMITIVE_ABORT (bad_range_code n)
  | error_external_return => PRIMITIVE_ABORT ERR_EXTERNAL_RETURN
  | Primitive_GC n => request_primitive_GC n
  end.
Definition of_prim {A} (p : prim A) : P A :=
  match p with PRIMITIVE_RETURN a => returning a | PRIMITIVE_ERROR e => signal_prim_error e end.

Section Control.
Local Open Scope primitive_scope.
Variable memory_base : Z.
Variables stack_start stack_end stack_guard : Z.
Variable fixed_objects : Z.
Variable Primitive_Arity_Table : Z -> Z.
Variable fuel : nat.
Notation addr := (OBJECT_ADDRESS memory_base).
Notation pointer := (MAKE_POINTER_OBJECT memory_base).
Notation Will_Push := (Will_Push memory_base stack_start stack_guard).
Notation STACK_CHECK := (STACK_CHECK memory_base stack_start stack_guard).
Notation stop_history := (stop_history memory_base stack_start stack_end stack_guard fixed_objects).
Notation save_history := (save_history memory_base stack_start stack_guard fixed_objects).
Notation preserve_interrupt_mask := (preserve_interrupt_mask memory_base stack_start stack_guard).
Notation READ_DUMMY_HISTORY := (READ_DUMMY_HISTORY memory_base fixed_objects).

Definition ARG_REF (n : Z) : P Z := doing (STACK_REF (n - 1)).
Definition memory_word (object i : Z) : P Z := doing (MEM memory_base object i).
Definition primitive_check (n : Z) (b : bool) : P unit :=
  if b then returning tt else PRIMITIVE_ABORT (wrong_type_code n).
Definition arg_ulong (n : Z) : P Z :=
  w <- ARG_REF n ;;
  s <- doing (get rest) ;;
  of_prim (arg_ulong_integer n (integer_object memory_base (core_memory s) w)).
Definition arg_long (n : Z) : P Z :=
  w <- ARG_REF n ;;
  s <- doing (get rest) ;;
  of_prim (arg_integer n (integer_object memory_base (core_memory s) w)).

(** Without compiled code only the assertion is left. *)
Definition canonicalize_primitive_context : P unit := fun s =>
  if PRIMITIVE_P (PRIMITIVE (rest s)) then Returning tt s else Failing (Heap_exit Assertion_failed).

(** The frame of an application without arguments. *)
Definition push_thunk (n : Z) (thunk : Z) : P unit :=
  doing (Will_Push n) ;; doing (STACK_PUSH thunk) ;; doing (PUSH_APPLY_FRAME_HEADER 0).

(** ** Application *)

(** The walk of an argument list by two pointers, which finds a circular list
    and counts the others. *)
Inductive arg_list := Length (n_args : Z) | Circular | Improper | Long_list.

Fixpoint list_walk (n : nat) (m : memory) (p1 p2 n_args : Z) : arg_list :=
  let stop p1 n_args := if p1 =? EMPTY_LIST then Length n_args else Improper in
  match n with
  | O => Long_list
  | S n =>
      if PAIR_P p1 then
        let p1 := m (PAIR_CDR_LOC memory_base p1) in
        let n_args := n_args + 1 in
        if p1 =? p2 then Circular
        else if negb (PAIR_P p1) then stop p1 n_args
        else
          let p1 := m (PAIR_CDR_LOC memory_base p1) in
          let n_args := n_args + 1 in
          if p1 =? p2 then Circular
          else if negb (PAIR_P p1) then stop p1 n_args
          else list_walk n m p1 (m (PAIR_CDR_LOC memory_base p2)) n_args
      else stop p1 n_args
  end.

(** The stores of the arguments, from [s1] upwards. *)
Fixpoint spread (n : nat) (m : memory) (st : memory) (s1 p1 : Z) : memory :=
  match n with
  | O => st
  | S n => spread n m (store st s1 (m (PAIR_CAR_LOC memory_base p1))) (s1 + 1) (m (PAIR_CDR_LOC memory_base p1))
  end.

Definition push_list (n_args p1 : Z) : M unit := modify (fun s =>
  let sp := stack_pointer s - n_args in
  mk_interp (VAL s) (ENV s) (EXPR s) (RETURN s) sp
    (spread (Z.to_nat n_args) (core_memory (rest s)) (stack s) sp p1) (rest s)).

Definition Prim_apply : P Z :=
  procedure <- ARG_REF 1 ;;
  args <- ARG_REF 2 ;;
  c <- doing (get rest) ;;
  match list_walk fuel (core_memory c) args args 0 with
  | Long_list => fun _ => Failing Walk_fuel
  | Circular => PRIMITIVE_ABORT (bad_range_code 2)
  | Improper => PRIMITIVE_ABORT (wrong_type_code 2)
  | Length n_args =>
      sp <- doing (STACK_LOC (- (n_args + 2))) ;;
      if negb (SP_OK_P stack_guard sp) then PRIMITIVE_ABORT (bad_range_code 2)
      else
        doing (POP_PRIMITIVE_FRAME 2) ;;
        doing (push_list n_args args) ;;
        doing (STACK_PUSH procedure) ;;
        doing (PUSH_APPLY_FRAME_HEADER n_args) ;;
        PRIMITIVE_ABORT PRIM_APPLY
  end.

(** ** Control points *)

(** A vector of the size asked for, with old words in it. *)
Definition allocate_control_point (n : Z) : P Z := fun s =>
  let h := heap (rest s) in
  if GC_NEEDED_P h (1 + (n + 2)) then request_primitive_GC (1 + (n + 2)) s
  else
    let cp := pointer TC_CONTROL_POINT (Free h) in
    let h := snd (allocate_vector TC_MANIFEST_VECTOR (n + 2) h) in
    let m := store (mem h) (VECTOR_LOC memory_base cp 0) SHARP_F in
    let m := store m (VECTOR_LOC memory_base cp 1) (MAKE_OBJECT TC_MANIFEST_NM_VECTOR 0) in
    Returning cp (set_rest s (set_heap (rest s) (set_mem h m))).

Definition control_point_start (cp : Z) : Z := VECTOR_LOC memory_base cp 2.
Definition control_point_end (m : memory) (cp : Z) : Z := VECTOR_LOC memory_base cp (VLENGTH memory_base m cp).

(** [while (STACK_N_PUSHED > 0) ( *scan++) = (STACK_POP ())] *)
Fixpoint copy_words (n : nat) (from : memory) (sp : Z) (to : memory) (scan : Z) : memory :=
  match n with
  | O => to
  | S n => copy_words n from (sp + 1) (store to scan (from sp)) (scan + 1)
  end.
Definition empty_stack_into (scan : Z) : M unit := modify (fun s =>
  let n := Z.to_nat (stack_end - stack_pointer s) in
  mk_interp (VAL s) (ENV s) (EXPR s) (RETURN s) (stack_pointer s + Z.of_nat n) (stack s)
    (set_core_memory (rest s) (copy_words n (stack s) (stack_pointer s) (core_memory (rest s)) scan))).

(** [while (scan_from > end_from) (STACK_PUSH ( *--scan_from))] *)
Fixpoint push_words (n : nat) (m : memory) (scan_from : Z) : M unit :=
  match n with
  | O => pure tt
  | S n => seq (STACK_PUSH (m (scan_from - 1))) (fun _ => push_words n m (scan_from - 1))
  end.

Definition unpack_control_point (cp : Z) : M unit :=
  seq (get rest) (fun c =>
  let m := core_memory c in
  let scan_from := control_point_end m cp in
  let end_from := control_point_start cp in
  seq (SET_STACK_POINTER stack_end) (fun _ =>
  seq (change (CLEAR_INTERRUPT INT_Stack_Overflow)) (fun _ =>
  seq (STACK_CHECK (end_from - scan_from)) (fun _ =>
  push_words (Z.to_nat (scan_from - end_from)) m scan_from)))).

Definition join_stacklets (cp : Z) : M unit :=
  seq (SET_EXP cp) (fun _ => seq (SET_RC RC_JOIN_STACKLETS) (fun _ => SAVE_CONT)).

Definition Prim_catch : P Z :=
  canonicalize_primitive_context ;;
  procedure <- ARG_REF 1 ;;
  sp <- doing (STACK_LOC (1 + CONTINUATION_SIZE)) ;;
  ret <- doing (CONT_RET 1) ;;
  exp <- doing (CONT_EXP 1) ;;
  cp <- (if (sp =? stack_end) && (ret =? MAKE_RETURN_CODE RC_JOIN_STACKLETS) && CONTROL_POINT_P exp then
           doing (change (fun c => set_history c (addr (READ_DUMMY_HISTORY c)) (prev_restore_history_offset c))) ;;
           doing (POP_PRIMITIVE_FRAME 1) ;;
           returning exp
         else
           n <- doing (STACK_N_PUSHED stack_end) ;;
           cp <- allocate_control_point (CONTINUATION_SIZE + HISTORY_SIZE + (n - 1)) ;;
           doing (POP_PRIMITIVE_FRAME 1) ;;
           doing (save_history RC_RESTORE_HISTORY) ;;
           doing preserve_interrupt_mask ;;
           doing (change (fun c => set_history c (history_register c) 0)) ;;
           doing (empty_stack_into (control_point_start cp)) ;;
           doing (change (CLEAR_INTERRUPT INT_Stack_Overflow)) ;;
           doing (join_stacklets cp) ;;
           returning cp) ;;
  doing (STACK_PUSH cp) ;;
  doing (STACK_PUSH procedure) ;;
  doing (PUSH_APPLY_FRAME_HEADER 1) ;;
  PRIMITIVE_ABORT PRIM_APPLY.

Definition Prim_within_control_point : P Z :=
  canonicalize_primitive_context ;;
  control_point <- ARG_REF 1 ;;
  primitive_check 1 (CONTROL_POINT_P control_point) ;;
  thunk <- ARG_REF 2 ;;
  doing (SET_STACK_POINTER stack_end) ;;
  doing (change (fun c => CLEAR_INTERRUPT INT_Stack_Overflow (set_history c (history_register c) 0))) ;;
  doing (Will_Push CONTINUATION_SIZE) ;;
  doing (join_stacklets control_point) ;;
  push_thunk (STACK_ENV_EXTRA_SLOTS + 1) thunk ;;
  PRIMITIVE_ABORT PRIM_APPLY.

(** ** Errors, evaluation, promises *)

Definition Prim_error_procedure : P Z :=
  canonicalize_primitive_context ;;
  message <- ARG_REF 1 ;;
  irritants <- ARG_REF 2 ;;
  environment <- ARG_REF 3 ;;
  doing (back_out_of_primitive Primitive_Arity_Table) ;;
  doing (Will_Push (HISTORY_SIZE + STACK_ENV_EXTRA_SLOTS + 4)) ;;
  doing stop_history ;;
  doing (STACK_PUSH environment) ;;
  doing (STACK_PUSH irritants) ;;
  doing (STACK_PUSH message) ;;
  c <- doing (get rest) ;;
  doing (STACK_PUSH (fixed_object memory_base fixed_objects c Error_Procedure)) ;;
  doing (PUSH_APPLY_FRAME_HEADER 3) ;;
  PRIMITIVE_ABORT PRIM_APPLY.

Definition Prim_scode_eval : P Z :=
  canonicalize_primitive_context ;;
  expression <- ARG_REF 1 ;;
  environment <- ARG_REF 2 ;;
  primitive_check 2 (ENVIRONMENT_P environment) ;;
  doing (POP_PRIMITIVE_FRAME 2) ;;
  doing (SET_ENV environment) ;;
  doing (SET_EXP expression) ;;
  PRIMITIVE_ABORT PRIM_DO_EXPRESSION.

Definition Prim_force : P Z :=
  thunk <- ARG_REF 1 ;;
  primitive_check 1 (PROMISE_P thunk) ;;
  State <- memory_word thunk THUNK_SNAPPED ;;
  value <- memory_word thunk THUNK_VALUE ;;
  if State =? SHARP_T then returning value
  else if State =? FIXNUM_ZERO then
    canonicalize_primitive_context ;;
    doing (POP_PRIMITIVE_FRAME 1) ;;
    doing (Will_Push (CONTINUATION_SIZE + STACK_ENV_EXTRA_SLOTS + 1)) ;;
    doing (SET_RC RC_SNAP_NEED_THUNK) ;;
    doing (SET_EXP thunk) ;;
    doing SAVE_CONT ;;
    doing (STACK_PUSH value) ;;
    doing (PUSH_APPLY_FRAME_HEADER 0) ;;
    PRIMITIVE_ABORT PRIM_APPLY
  else
    canonicalize_primitive_context ;;
    doing (POP_PRIMITIVE_FRAME 1) ;;
    doing (Will_Push CONTINUATION_SIZE) ;;
    doing (SET_RC RC_SNAP_NEED_THUNK) ;;
    doing (SET_EXP thunk) ;;
    doing SAVE_CONT ;;
    doing (SET_ENV State) ;;
    doing (SET_EXP value) ;;
    PRIMITIVE_ABORT PRIM_DO_EXPRESSION.

(** ** Interrupts *)

Definition interrupt_mask : P Z := c <- doing (get rest) ;; returning (INT_MASK c).
Definition returning_mask (previous : Z) : P Z := returning (ULONG_TO_FIXNUM previous).

Definition Prim_get_interrupt_enables : P Z := previous <- interrupt_mask ;; returning_mask previous.
Definition Prim_set_interrupt_enables : P Z :=
  previous <- interrupt_mask ;;
  n <- arg_ulong 1 ;;
  doing (change (SET_INTERRUPT_MASK (n & INT_Mask))) ;;
  returning_mask previous.
Definition Prim_clear_interrupts : P Z :=
  n <- arg_ulong 1 ;;
  doing (change (CLEAR_INTERRUPT (n & INT_Mask))) ;;
  returning UNSPECIFIC_OBJECT.
Definition Prim_disable_interrupts : P Z :=
  previous <- interrupt_mask ;;
  n <- arg_ulong 1 ;;
  doing (change (SET_INTERRUPT_MASK (previous &~ (n & INT_Mask)))) ;;
  returning_mask previous.
Definition Prim_enable_interrupts : P Z :=
  previous <- interrupt_mask ;;
  n <- arg_ulong 1 ;;
  doing (change (SET_INTERRUPT_MASK (previous .| (n & INT_Mask)))) ;;
  returning_mask previous.
Definition Prim_request_interrupts : P Z :=
  n <- arg_ulong 1 ;;
  doing (change (REQUEST_INTERRUPT (n & INT_Mask))) ;;
  returning UNSPECIFIC_OBJECT.

Definition with_new_interrupt_mask (new_mask : Z) : P Z :=
  receiver <- ARG_REF 2 ;;
  canonicalize_primitive_context ;;
  doing (POP_PRIMITIVE_FRAME 2) ;;
  doing preserve_interrupt_mask ;;
  doing (Will_Push (STACK_ENV_EXTRA_SLOTS + 2)) ;;
  mask <- interrupt_mask ;;
  doing (STACK_PUSH (ULONG_TO_FIXNUM mask)) ;;
  doing (STACK_PUSH receiver) ;;
  doing (PUSH_APPLY_FRAME_HEADER 1) ;;
  doing (change (SET_INTERRUPT_MASK new_mask)) ;;
  PRIMITIVE_ABORT PRIM_APPLY.

Definition Prim_with_interrupt_mask : P Z :=
  n <- arg_long 1 ;; with_new_interrupt_mask (INT_Mask & ulong n).
Definition Prim_with_interrupts_reduced : P Z :=
  old_mask <- interrupt_mask ;;
  n <- arg_ulong 1 ;;
  let new_mask := INT_Mask & n in
  with_new_interrupt_mask (if old_mask <? new_mask then new_mask else new_mask & old_mask).

(** ** Frames *)

Definition Prim_return_to_application : P Z :=
  canonicalize_primitive_context ;;
  c <- doing (get rest) ;;
  let nargs := LEXPR_ACTUALS c in
  if nargs <? 2 then PRIMITIVE_ABORT ERR_WRONG_NUMBER_OF_ARGUMENTS
  else
    thunk <- doing STACK_POP ;;
    doing (PUSH_APPLY_FRAME_HEADER (nargs - 2)) ;;
    doing (SET_ENV THE_NULL_ENV) ;;
    doing (SET_EXP SHARP_F) ;;
    doing (SET_RC RC_INTERNAL_APPLY) ;;
    doing SAVE_CONT ;;
    push_thunk (STACK_ENV_EXTRA_SLOTS + 1) thunk ;;
    PRIMITIVE_ABORT PRIM_APPLY.

Definition Prim_with_stack_marker : P Z :=
  thunk <- ARG_REF 1 ;;
  canonicalize_primitive_context ;;
  _ <- doing STACK_POP ;;
  doing (STACK_PUSH (MAKE_RETURN_CODE RC_STACK_MARKER)) ;;
  push_thunk (STACK_ENV_EXTRA_SLOTS + 1) thunk ;;
  PRIMITIVE_ABORT PRIM_APPLY.

(** ** History *)

Definition initialize_history : M Z := fun s =>
  let (h, c) := make_dummy_history memory_base (rest s) in
  let c := set_history c h (prev_restore_history_offset c) in
  let (h, c) := make_dummy_history memory_base c in
  Normal (pointer UNMARKED_HISTORY_TYPE h) (set_rest s c).

Definition Prim_set_current_history : P Z :=
  canonicalize_primitive_context ;;
  history <- ARG_REF 1 ;;
  primitive_check 1 (HUNK3_P history) ;;
  c <- doing (get rest) ;;
  doing (SET_VAL (core_memory c (history_register c))) ;;
  doing (change (fun c => set_history c (addr history) (prev_restore_history_offset c))) ;;
  doing (POP_PRIMITIVE_FRAME 1) ;;
  PRIMITIVE_ABORT PRIM_POP_RETURN.

(** The last rib of the ring before [first_rib]. *)
Fixpoint last_rib (n : nat) (m : memory) (first_rib rib : Z) : option Z :=
  match n with
  | O => None
  | S n =>
      let next_rib := addr (m (rib + RIB_NEXT_REDUCTION)) in
      if next_rib =? first_rib then Some rib else last_rib n m first_rib next_rib
  end.

(** The reduction that the call itself has made is taken back. *)
Definition remove_reduction (c : core) : option core :=
  let m := core_memory c in
  let first_rib := addr (m (history_register c + HIST_RIB)) in
  let second_rib := addr (m (first_rib + RIB_NEXT_REDUCTION)) in
  if negb (first_rib =? second_rib) && negb (HISTORY_MARKED_P (m (first_rib + RIB_MARK))) then
    let m := store m (second_rib + RIB_MARK) (HISTORY_MARK (m (second_rib + RIB_MARK))) in
    match last_rib fuel m first_rib first_rib with
    | None => None
    | Some rib =>
        Some (set_core_memory c
          (store m (history_register c + HIST_RIB)
             (pointer (OBJECT_TYPE (m (history_register c + HIST_RIB))) rib)))
    end
  else Some c.

Definition Prim_with_history_disabled : P Z :=
  canonicalize_primitive_context ;;
  thunk <- ARG_REF 1 ;;
  c <- doing (get rest) ;;
  match remove_reduction c with
  | None => fun _ => Failing Walk_fuel
  | Some c =>
      doing (change (fun _ => c)) ;;
      doing (POP_PRIMITIVE_FRAME 1) ;;
      doing stop_history ;;
      push_thunk (STACK_ENV_EXTRA_SLOTS + 1) thunk ;;
      PRIMITIVE_ABORT PRIM_APPLY
  end.

Definition Prim_get_fixed_objects_vector : P Z := returning fixed_objects.

End Control.
