(* ===== verification/Interp.v ===== *)
(** * The interpreter (src/src/microcode/interp.c)

    [Interpret] evaluates the SCode expression in [EXPR] in the environment in
    [ENV].  It is written with labels: [do_expression] dispatches on the type
    of an expression, [pop_return] on the return code that the stack holds,
    [internal_apply] applies the procedure of the frame on the stack.  A step
    goes from one label to the next.

    Return codes, types of expressions and types of applicable objects are
    decoded first.  Without [CC_SUPPORT_P] a compiled object evaluates to
    itself and is not applicable.  [fuel] bounds the walks of lookup.c and of
    the histories. *)

From Stdlib Require Import ZArith List Lia Bool.
From S2P Require Import Prelude.
From S2P Require Import Object.
From S2P Require Import Memory.
From S2P Require Import Heap.
From S2P Require Import Symbol.
From S2P Require Import Environment.
From S2P Require Import Stack.
From S2P Require Import History.
From S2P Require Import Signal.
From S2P Require Import Control.
Import ListNotations.

Notation RC_END_OF_COMPUTATION := 0.
Notation RC_EXECUTE_ASSIGNMENT_FINISH := 8.
Notation RC_EXECUTE_DEFINITION_FINISH := 9.
Notation RC_EXECUTE_ACCESS_FINISH := 10.
Notation RC_EXECUTE_SEQUENCE_FINISH := 12.
Notation RC_CONDITIONAL_DECIDE := 15.
Notation RC_DISJUNCTION_DECIDE := 16.
Notation RC_COMB_APPLY_FUNCTION := 18.
Notation RC_COMB_SAVE_VALUE := 21.
Notation RC_NORMAL_GC_DONE := 32.
Notation RC_RESTORE_VALUE := 46.
Notation RC_HALT := 70.
Notation RC_HARDWARE_TRAP := 92.
Notation RC_INTERNAL_APPLY_VAL := 93.

Notation ERR_INAPPLICABLE_OBJECT := 3.
Notation ERR_EXECUTE_MANIFEST_VECTOR := 11.
Notation ERR_SYNTAX_ERROR := 21.
Notation ERR_INAPPLICABLE_CONTINUATION := 48.
Notation ERR_UNIMPLEMENTED_PRIMITIVE := 51.
Notation STEPPER_STATE := 14.
Notation TRAP_HANDLER := 12.
Notation ARITY_DISPATCHER_TAG := 51.
Notation TC_VARIABLE := 44.
Notation TC_LEXPR := 41.
Notation STACK_COMB_FINGER := 0.
Notation STACK_COMB_FIRST_ARG := 1.
Notation COMB_FN_SLOT := 1.
Notation COMB_ARG_1_SLOT := 2.
Notation DEFAULT_OBJECT := (MAKE_OBJECT TC_CONSTANT 7).

(** ** Decoding *)

Inductive scode :=
  | S_access | S_assignment | S_broken_heart | S_combination | S_comment | S_conditional | S_definition
  | S_delay | S_disjunction | S_extended_lambda | S_lambda | S_manifest_vector | S_quote | S_sequence
  | S_syntax_error | S_the_environment | S_variable | S_self_evaluating.

Definition scode_type (type : Z) : scode :=
  if type =? 31 then S_access
  else if type =? 35 then S_assignment
  else if type =? TC_BROKEN_HEART then S_broken_heart
  else if type =? 38 then S_combination
  else if type =? 21 then S_comment
  else if type =? 52 then S_conditional
  else if type =? 33 then S_definition
  else if type =? 17 then S_delay
  else if type =? 53 then S_disjunction
  else if type =? 20 then S_extended_lambda
  else if (type =? 23) || (type =? TC_LEXPR) then S_lambda
  else if type =? TC_MANIFEST_NM_VECTOR then S_manifest_vector
  else if type =? 3 then S_quote
  else if type =? 25 then S_sequence
  else if type =? 46 then S_syntax_error
  else if type =? 45 then S_the_environment
  else if type =? TC_VARIABLE then S_variable
  else S_self_evaluating.

Inductive return_code :=
  | R_comb_apply_function | R_comb_save_value | R_conditional_decide | R_disjunction_decide
  | R_end_of_computation | R_eval_error | R_execute_access_finish | R_execute_assignment_finish
  | R_execute_definition_finish | R_halt | R_hardware_trap | R_internal_apply_val | R_internal_apply
  | R_join_stacklets | R_normal_gc_done | R_restore_value | R_restore_dont_copy_history | R_restore_history
  | R_restore_int_mask | R_stack_marker | R_execute_sequence_finish | R_snap_need_thunk | R_inapplicable.

Definition return_code_of (datum : Z) : return_code :=
  if datum =? RC_COMB_APPLY_FUNCTION then R_comb_apply_function
  else if datum =? RC_COMB_SAVE_VALUE then R_comb_save_value
  else if datum =? RC_CONDITIONAL_DECIDE then R_conditional_decide
  else if datum =? RC_DISJUNCTION_DECIDE then R_disjunction_decide
  else if datum =? RC_END_OF_COMPUTATION then R_end_of_computation
  else if datum =? RC_EVAL_ERROR then R_eval_error
  else if datum =? RC_EXECUTE_ACCESS_FINISH then R_execute_access_finish
  else if datum =? RC_EXECUTE_ASSIGNMENT_FINISH then R_execute_assignment_finish
  else if datum =? RC_EXECUTE_DEFINITION_FINISH then R_execute_definition_finish
  else if datum =? RC_HALT then R_halt
  else if datum =? RC_HARDWARE_TRAP then R_hardware_trap
  else if datum =? RC_INTERNAL_APPLY_VAL then R_internal_apply_val
  else if datum =? RC_INTERNAL_APPLY then R_internal_apply
  else if datum =? RC_JOIN_STACKLETS then R_join_stacklets
  else if datum =? RC_NORMAL_GC_DONE then R_normal_gc_done
  else if (datum =? RC_POP_RETURN_ERROR) || (datum =? RC_RESTORE_VALUE) then R_restore_value
  else if datum =? RC_RESTORE_DONT_COPY_HISTORY then R_restore_dont_copy_history
  else if datum =? RC_RESTORE_HISTORY then R_restore_history
  else if datum =? RC_RESTORE_INT_MASK then R_restore_int_mask
  else if datum =? RC_STACK_MARKER then R_stack_marker
  else if datum =? RC_EXECUTE_SEQUENCE_FINISH then R_execute_sequence_finish
  else if datum =? RC_SNAP_NEED_THUNK then R_snap_need_thunk
  else R_inapplicable.

Inductive applicable :=
  | A_entity | A_procedure | A_control_point | A_primitive | A_extended_procedure | A_inapplicable.

Definition applicable_type (type : Z) : applicable :=
  if type =? TC_ENTITY then A_entity
  else if type =? TC_PROCEDURE then A_procedure
  else if type =? TC_CONTROL_POINT then A_control_point
  else if type =? TC_PRIMITIVE then A_primitive
  else if type =? TC_EXTENDED_PROCEDURE then A_extended_procedure
  else A_inapplicable.

Inductive label :=
  | do_expression | eval_non_trapping
  | pop_return | pop_return_non_trapping
  | internal_apply_val | internal_apply | Apply_Non_Trapping | perform_application.

Inductive next := Goto (l : label) | Return_to_C.

(** ** Argument counts of an extended lambda (scode.h) *)

Definition Elambda_Formals_Count (w : Z) : Z := (w & 65280) >>> 8.
Definition Elambda_Opts_Count (w : Z) : Z := w & 255.
Definition Elambda_Rest_Flag (w : Z) : Z := (w & 65536) >>> 16.

Section Interpreter.
Local Open Scope interp_scope.
Variable memory_base : Z.
Variables stack_start stack_end stack_guard : Z.
Variable fixed_objects : Z.
Variable Primitive_Procedure_Table : Z -> option (P Z).
Variable Primitive_Arity_Table : Z -> Z.
Variable critical_section_hook : M unit.
Variable fuel : nat.
Notation addr := (OBJECT_ADDRESS memory_base).
Notation pointer := (MAKE_POINTER_OBJECT memory_base).
Notation Will_Push := (Will_Push memory_base stack_start stack_guard).
Notation STACK_CHECK := (STACK_CHECK memory_base stack_start stack_guard).
Notation MEM := (MEM memory_base).
Notation VREF := (VREF memory_base).
Notation VLENGTH := (VLENGTH memory_base).
Notation fixed_object := (fixed_object memory_base fixed_objects).
Notation setup_interrupt := (setup_interrupt memory_base stack_start stack_end stack_guard fixed_objects).
Notation Do_Micro_Error := (Do_Micro_Error memory_base stack_start stack_end stack_guard fixed_objects).
Notation new_reduction := (new_reduction memory_base).
Notation new_subproblem := (new_subproblem memory_base).
Notation reuse_subproblem := (reuse_subproblem memory_base).
Notation end_subproblem := (end_subproblem memory_base).

Definition goto (l : label) : M next := pure (Goto l).
(** The operations of lookup.c; see [GC_CHECK] there. *)
Definition requesting (e : act res) : M res :=
  r <- on_heap e ;;
  match r with
  | (PRIM_INTERRUPT n, _) => change (REQUEST_GC n) ;; pure r
  | _ => pure r
  end.
Definition pending : M Z := get (fun s => PENDING_INTERRUPTS (rest s)).

(** ** Macros *)

Definition SIGNAL_INTERRUPT (masked_code : Z) : M next :=
  setup_interrupt masked_code ;; goto perform_application.
Definition PREPARE_POP_RETURN_INTERRUPT (rc contents_of_val : Z) : M unit :=
  SET_RC rc ;; SAVE_CONT ;; SET_RC RC_RESTORE_VALUE ;; SET_EXP contents_of_val ;; SAVE_CONT.
Definition PREPARE_APPLY_INTERRUPT : M unit :=
  SET_EXP SHARP_F ;; f <- APPLY_FRAME_PROCEDURE ;; PREPARE_POP_RETURN_INTERRUPT RC_INTERNAL_APPLY_VAL f.
Definition APPLICATION_ERROR (code : Z) : M next :=
  SET_EXP SHARP_F ;;
  SET_RC RC_INTERNAL_APPLY_VAL ;;
  SAVE_CONT ;;
  f <- APPLY_FRAME_PROCEDURE ;;
  SET_VAL f ;;
  Do_Micro_Error code true ;;
  goto internal_apply.
Definition IMMEDIATE_GC (n : Z) : M next :=
  change (REQUEST_GC n) ;; p <- pending ;; SIGNAL_INTERRUPT p.
Definition PREPARE_EVAL_REPEAT : M unit :=
  Will_Push (CONTINUATION_SIZE + 1) ;; PUSH_ENV ;; SET_RC RC_EVAL_ERROR ;; SAVE_CONT.
Definition EVAL_ERROR (code : Z) : M next := Do_Micro_Error code false ;; goto internal_apply.
Definition POP_RETURN_ERROR (code : Z) : M next := SAVE_CONT ;; Do_Micro_Error code true ;; goto internal_apply.
Definition PROCEED_AFTER_PRIMITIVE : M unit := change (SET_PRIMITIVE SHARP_F).

Definition REDUCES_TO (expression : Z) : M next :=
  SET_EXP expression ;; env <- get ENV ;; change (new_reduction expression env) ;; goto do_expression.
Definition REDUCES_TO_NTH (n : Z) : M next := exp <- get EXPR ;; w <- MEM exp n ;; REDUCES_TO w.
Definition DO_NTH_THEN (rc n : Z) : M next :=
  SET_RC rc ;;
  SAVE_CONT ;;
  exp <- get EXPR ;;
  w <- MEM exp n ;;
  SET_EXP w ;;
  env <- get ENV ;;
  change (new_subproblem w env) ;;
  goto do_expression.
Definition DO_ANOTHER_THEN (rc n : Z) : M next :=
  SET_RC rc ;;
  SAVE_CONT ;;
  exp <- get EXPR ;;
  w <- MEM exp n ;;
  SET_EXP w ;;
  env <- get ENV ;;
  change (reuse_subproblem w env) ;;
  goto do_expression.
(** A subproblem of an expression whose continuation needs the environment. *)
Definition PUSH_ENV_NTH_THEN (rc n : Z) : M next :=
  Will_Push (CONTINUATION_SIZE + 1) ;; PUSH_ENV ;; DO_NTH_THEN rc n.

Definition FETCH_TRAPPER (c : core) (i : Z) : Z :=
  core_memory c (MEMORY_LOC memory_base (fixed_object c STEPPER_STATE) i).
Definition trapper (c : core) (i : Z) : option Z :=
  if trapping c && negb (WITHIN_CRITICAL_SECTION_P c) && negb (FETCH_TRAPPER c i =? SHARP_F)
  then Some (FETCH_TRAPPER c i) else None.

(** The result that was stored, if any. *)
Definition stored (value : option Z) (old : Z) : Z := match value with Some v => v | None => old end.

(** [Free[0] = first; Free[1] = second; Free += 2] *)
Definition allocate_pair (type : Z) (first : Z) (second : memory -> Z) : M Z := fun s =>
  let h := heap (rest s) in
  let m := store (mem h) (Free h) first in
  let m := store m (Free h + 1) (second m) in
  Normal (pointer type (Free h))
    (set_rest s (set_heap (rest s) (mk_machine m (Free h + 2) (heap_start h) (heap_alloc_limit h) (GC_ENABLED_P h)))).

(** ** Evaluation *)

Definition eval_combination : M next :=
  exp <- get EXPR ;;
  c <- get rest ;;
  let length := (VLENGTH (core_memory c) exp - 1)%SL in
  Will_Push (length + 2 + CONTINUATION_SIZE) ;;
  sp <- STACK_LOC (- length) ;;
  SET_STACK_POINTER sp ;;
  STACK_PUSH (MAKE_OBJECT TC_MANIFEST_NM_VECTOR length) ;;
  if length =? 0 then PUSH_APPLY_FRAME_HEADER 0 ;; DO_NTH_THEN RC_COMB_APPLY_FUNCTION COMB_FN_SLOT
  else PUSH_ENV ;; DO_NTH_THEN RC_COMB_SAVE_VALUE (length + 1).

Definition eval_variable : M next :=
  exp <- get EXPR ;;
  env <- get ENV ;;
  val <- get VAL ;;
  name <- MEM exp 0 ;;
  r <- requesting (lookup_variable memory_base fuel env name) ;;
  match r with
  | (PRIM_DONE, v) => SET_VAL (stored v val) ;; goto pop_return
  | (PRIM_INTERRUPT _, _) => PREPARE_EVAL_REPEAT ;; p <- pending ;; SIGNAL_INTERRUPT p
  | (code, _) => EVAL_ERROR (error_code_of code)
  end.

Definition eval_dispatch : M next :=
  exp <- get EXPR ;;
  env <- get ENV ;;
  match scode_type (OBJECT_TYPE exp) with
  | S_self_evaluating => SET_VAL exp ;; goto pop_return
  | S_access => Will_Push CONTINUATION_SIZE ;; DO_NTH_THEN RC_EXECUTE_ACCESS_FINISH 0
  | S_assignment => PUSH_ENV_NTH_THEN RC_EXECUTE_ASSIGNMENT_FINISH 1
  | S_broken_heart => halting (Microcode_Termination 2)
  | S_combination => eval_combination
  | S_comment => REDUCES_TO_NTH 0
  | S_conditional => PUSH_ENV_NTH_THEN RC_CONDITIONAL_DECIDE 0
  | S_definition => PUSH_ENV_NTH_THEN RC_EXECUTE_DEFINITION_FINISH 1
  | S_delay =>
      v <- allocate_pair TC_DELAYED env (fun m => m (MEMORY_LOC memory_base exp 0)) ;;
      SET_VAL v ;; goto pop_return
  | S_disjunction => PUSH_ENV_NTH_THEN RC_DISJUNCTION_DECIDE 0
  | S_extended_lambda =>
      v <- allocate_pair TC_EXTENDED_PROCEDURE exp (fun _ => env) ;; SET_VAL v ;; goto pop_return
  | S_lambda => v <- allocate_pair TC_PROCEDURE exp (fun _ => env) ;; SET_VAL v ;; goto pop_return
  | S_manifest_vector => EVAL_ERROR ERR_EXECUTE_MANIFEST_VECTOR
  | S_quote => w <- MEM exp 0 ;; SET_VAL w ;; goto pop_return
  | S_sequence => PUSH_ENV_NTH_THEN RC_EXECUTE_SEQUENCE_FINISH 0
  | S_syntax_error => EVAL_ERROR ERR_SYNTAX_ERROR
  | S_the_environment => SET_VAL env ;; goto pop_return
  | S_variable => eval_variable
  end.

(** [do_expression]: with an eval trap set, the expression and the
    environment are given to the trapper. *)
Definition eval_trap : M next :=
  c <- get rest ;;
  match trapper c 0 with
  | Some t =>
      change (fun c => set_trapping c false) ;;
      Will_Push 4 ;;
      PUSH_ENV ;;
      PUSH_EXP ;;
      STACK_PUSH t ;;
      PUSH_APPLY_FRAME_HEADER 2 ;;
      goto Apply_Non_Trapping
  | None => goto eval_non_trapping
  end.

(** ** Application *)

Definition APPLY_INTERRUPT (n : Z) : M next := PREPARE_APPLY_INTERRUPT ;; IMMEDIATE_GC n.

Definition apply_entity (f : Z) : M next :=
  frame_size <- APPLY_FRAME_SIZE ;;
  c <- get rest ;;
  let m := core_memory c in
  let data := m (MEMORY_LOC memory_base f ENTITY_DATA) in
  if VECTOR_P data && (frame_size <? VLENGTH m data) && negb (VREF m data frame_size =? SHARP_F)
     && (VREF m data 0 =? fixed_object c ARITY_DISPATCHER_TAG)
  then SET_APPLY_FRAME_PROCEDURE (VREF m data frame_size) ;; goto perform_application
  else
    STACK_SET 0 (m (MEMORY_LOC memory_base f ENTITY_OPERATOR)) ;;
    PUSH_APPLY_FRAME_HEADER frame_size ;;
    STACK_CHECK 0 ;;
    goto internal_apply.

(** The frame is moved from the stack to the heap. *)
Definition make_frame (frame_size : Z) : M Z := fun s =>
  let h := heap (rest s) in
  let m := store (mem h) (Free h) (MAKE_OBJECT TC_MANIFEST_VECTOR frame_size) in
  let m := copy_words (Z.to_nat frame_size) (stack s) (stack_pointer s + 1) m (Free h + 1) in
  Normal (pointer TC_ENVIRONMENT (Free h))
    (mk_interp (VAL s) (ENV s) (EXPR s) (RETURN s) (stack_pointer s + 1 + frame_size) (stack s)
       (set_heap (rest s)
          (mk_machine m (Free h + 1 + frame_size) (heap_start h) (heap_alloc_limit h) (GC_ENABLED_P h)))).

Definition apply_procedure (f : Z) : M next :=
  frame_size <- APPLY_FRAME_SIZE ;;
  c <- get rest ;;
  let m := core_memory c in
  let lambda := m (MEMORY_LOC memory_base f 0) in
  let n := VLENGTH m (m (MEMORY_LOC memory_base lambda 1)) in
  if negb (frame_size =? n) && (negb (OBJECT_TYPE lambda =? TC_LEXPR) || (frame_size <? n))
  then APPLICATION_ERROR ERR_WRONG_NUMBER_OF_ARGUMENTS
  else if GC_NEEDED_P (heap c) (frame_size + 1) then APPLY_INTERRUPT (frame_size + 1)
  else
    env <- make_frame frame_size ;;
    SET_ENV env ;;
    body <- MEM lambda 0 ;;
    REDUCES_TO body.

(** Where [longjmp] comes back, with the code of the abort. *)
Definition caught (code : Z) : M next :=
  if code =? PRIM_APPLY then PROCEED_AFTER_PRIMITIVE ;; goto internal_apply
  else if code =? PRIM_NO_TRAP_APPLY then PROCEED_AFTER_PRIMITIVE ;; goto Apply_Non_Trapping
  else if code =? PRIM_APPLY_INTERRUPT then
    PROCEED_AFTER_PRIMITIVE ;; PREPARE_APPLY_INTERRUPT ;; p <- pending ;; SIGNAL_INTERRUPT p
  else if code =? PRIM_APPLY_ERROR then
    PROCEED_AFTER_PRIMITIVE ;; e <- get (fun s => prim_apply_error_code (rest s)) ;; APPLICATION_ERROR e
  else if code =? PRIM_DO_EXPRESSION then
    e <- get EXPR ;; SET_VAL e ;; PROCEED_AFTER_PRIMITIVE ;; REDUCES_TO e
  else if code =? PRIM_NO_TRAP_EVAL then
    e <- get EXPR ;; SET_VAL e ;; PROCEED_AFTER_PRIMITIVE ;;
    env <- get ENV ;; change (new_reduction e env) ;; goto eval_non_trapping
  else if code =? PRIM_POP_RETURN then PROCEED_AFTER_PRIMITIVE ;; goto pop_return
  else if code =? PRIM_RETURN_TO_C then
    PROCEED_AFTER_PRIMITIVE ;;
    change (fun c => set_interpreter_states c (pred (interpreter_states c))) ;; pure Return_to_C
  else if code =? PRIM_NO_TRAP_POP_RETURN then PROCEED_AFTER_PRIMITIVE ;; goto pop_return_non_trapping
  else if code =? PRIM_INTERRUPT_CODE then
    back_out_of_primitive Primitive_Arity_Table ;; p <- pending ;; SIGNAL_INTERRUPT p
  else if code =? PRIM_ABORT_TO_C then
    back_out_of_primitive Primitive_Arity_Table ;;
    change (fun c => set_interpreter_states c (pred (interpreter_states c))) ;; pure Return_to_C
  else
    back_out_of_primitive Primitive_Arity_Table ;; Do_Micro_Error code true ;; goto internal_apply.

Definition apply_primitive (f : Z) : M next :=
  match Primitive_Procedure_Table (OBJECT_DATUM f) with
  | None => APPLICATION_ERROR ERR_UNIMPLEMENTED_PRIMITIVE
  | Some procedure =>
      n_args <- APPLY_FRAME_N_ARGS ;;
      let arity := Primitive_Arity_Table (OBJECT_DATUM f) in
      if negb (n_args =? arity) && negb (arity =? LEXPR_PRIMITIVE_ARITY)
      then APPLICATION_ERROR ERR_WRONG_NUMBER_OF_ARGUMENTS
      else
        (if n_args =? arity then pure tt
         else change (fun c => set_primitive c (PRIMITIVE c) n_args (Free_primitive c))) ;;
        sp <- STACK_LOC 2 ;;
        SET_STACK_POINTER sp ;;
        SET_EXP f ;;
        saved <- get (fun s => history_register (rest s)) ;;
        change (fun c => set_primitive c f (LEXPR_ACTUALS c) (Free (heap c))) ;;
        fun s =>
          match procedure s with
          | Failing x => Halt x
          | Returning v s =>
              (SET_VAL v ;;
               change (fun c => set_primitive c SHARP_F (LEXPR_ACTUALS c) 0) ;;
               change (fun c => set_history c saved (prev_restore_history_offset c)) ;;
               POP_PRIMITIVE_FRAME n_args ;;
               goto pop_return) s
          | Aborting code s => caught code s
          end
  end.

(** *** Extended procedures *)

(** A list of [n] words from the stack. *)
Fixpoint stack_list (n : nat) (from : memory) (sp : Z) (to : memory) (scan : Z) : memory :=
  match n with
  | O => to
  | S n =>
      let to := store to scan (from sp) in
      let to := store to (scan + 1) (pointer TC_LIST (scan + 2)) in
      stack_list n from (sp + 1) to (scan + 2)
  end.

(** The frame for [nargs] arguments: the words and the first free address. *)
Definition extended_frame (nargs params rest_flag auxes size : Z) (from : memory) (sp : Z) (m : memory) (scan : Z)
  : memory * Z :=
  let m := store m scan (MAKE_OBJECT TC_MANIFEST_VECTOR size) in
  let scan := scan + 1 in
  if nargs <=? params then
    let m := copy_words (Z.to_nat (nargs + 1)) from sp m scan in
    let scan := scan + (nargs + 1) in
    let m := fill m scan (Z.to_nat (params - nargs)) DEFAULT_OBJECT in
    let scan := scan + (params - nargs) in
    let m := if rest_flag =? 0 then m else store m scan EMPTY_LIST in
    let scan := if rest_flag =? 0 then scan else scan + 1 in
    (fill m scan (Z.to_nat auxes) UNASSIGNED_OBJECT, scan + Z.max 0 auxes)
  else
    let list := pointer TC_LIST (scan + size) in
    let m := copy_words (Z.to_nat (params + 1)) from sp m scan in
    let scan := scan + (params + 1) in
    let m := store m scan list in
    let scan := scan + 1 in
    let m := fill m scan (Z.to_nat auxes) UNASSIGNED_OBJECT in
    let scan := scan + Z.max 0 auxes in
    let m := stack_list (Z.to_nat (nargs - params)) from (sp + (params + 1)) m scan in
    let scan := scan + 2 * (nargs - params) in
    (store m (scan - 1) EMPTY_LIST, scan).

Definition make_extended_frame (nargs params rest_flag auxes size : Z) : M Z := fun s =>
  let h := heap (rest s) in
  let (m, scan) := extended_frame nargs params rest_flag auxes size (stack s) (stack_pointer s) (mem h) (Free h) in
  Normal (pointer TC_ENVIRONMENT (Free h))
    (mk_interp (VAL s) (ENV s) (EXPR s) (RETURN s) (stack_pointer s + (nargs + 1)) (stack s)
       (set_heap (rest s) (mk_machine m scan (heap_start h) (heap_alloc_limit h) (GC_ENABLED_P h)))).

Definition apply_extended_procedure (f : Z) : M next :=
  nargs <- POP_APPLY_FRAME_HEADER ;;
  c <- get rest ;;
  let m := core_memory c in
  let lambda := m (MEMORY_LOC memory_base f 0) in
  let nparams := VLENGTH m (m (MEMORY_LOC memory_base lambda 1)) - 1 in
  let count := m (MEMORY_LOC memory_base lambda 2) in
  let formals := Elambda_Formals_Count count in
  let params := Elambda_Opts_Count count + formals in
  let rest_flag := Elambda_Rest_Flag count in
  let auxes := nparams - (params + rest_flag) in
  if (nargs <? formals) || ((rest_flag =? 0) && (params <? nargs)) then
    PUSH_APPLY_FRAME_HEADER nargs ;; APPLICATION_ERROR ERR_WRONG_NUMBER_OF_ARGUMENTS
  else
    let size := params + rest_flag + auxes + 1 in
    let space := size + 1 + (if params <? nargs then 2 * (nargs - params) else 0) in
    if GC_NEEDED_P (heap c) space then PUSH_APPLY_FRAME_HEADER nargs ;; APPLY_INTERRUPT space
    else
      env <- make_extended_frame nargs params rest_flag auxes size ;;
      SET_ENV env ;;
      body <- MEM lambda 0 ;;
      REDUCES_TO body.

(** *** The dispatch *)

Definition apply_control_point (f : Z) : M next :=
  frame_size <- APPLY_FRAME_SIZE ;;
  if negb (frame_size =? 2) then APPLICATION_ERROR ERR_WRONG_NUMBER_OF_ARGUMENTS
  else
    v <- STACK_REF 2 ;;
    SET_VAL v ;;
    unpack_control_point memory_base stack_start stack_end stack_guard f ;;
    change (reset_history memory_base fixed_objects) ;;
    goto pop_return.

Definition apply_dispatch : M next :=
  f <- APPLY_FRAME_PROCEDURE ;;
  match applicable_type (OBJECT_TYPE f) with
  | A_entity => apply_entity f
  | A_procedure => apply_procedure f
  | A_control_point => apply_control_point f
  | A_primitive => apply_primitive f
  | A_extended_procedure => apply_extended_procedure f
  | A_inapplicable => APPLICATION_ERROR ERR_INAPPLICABLE_OBJECT
  end.

Definition apply_trap : M next :=
  c <- get rest ;;
  match trapper c 1 with
  | Some t =>
      frame_size <- APPLY_FRAME_SIZE ;;
      STACK_SET 0 t ;;
      PUSH_APPLY_FRAME_HEADER frame_size ;;
      change (fun c => set_trapping c false) ;;
      goto Apply_Non_Trapping
  | None => goto Apply_Non_Trapping
  end.

Definition apply_check : M next :=
  c <- get rest ;;
  if PENDING_INTERRUPTS_P c
  then PREPARE_APPLY_INTERRUPT ;; SIGNAL_INTERRUPT (PENDING_INTERRUPTS c)
  else goto perform_application.

(** ** Returning *)

Definition return_trap : M next :=
  c <- get rest ;;
  match trapper c 2 with
  | Some t =>
      Will_Push 3 ;;
      change (fun c => set_trapping c false) ;;
      PUSH_VAL ;;
      STACK_PUSH t ;;
      PUSH_APPLY_FRAME_HEADER 1 ;;
      goto Apply_Non_Trapping
  | None => goto pop_return_non_trapping
  end.

Definition comb_save_value : M next :=
  POP_ENV ;;
  finger <- STACK_REF STACK_COMB_FINGER ;;
  let Arg_Number := OBJECT_DATUM finger - 1 in
  v <- get VAL ;;
  STACK_SET (STACK_COMB_FIRST_ARG + Arg_Number) v ;;
  STACK_SET STACK_COMB_FINGER (MAKE_OBJECT TC_MANIFEST_NM_VECTOR Arg_Number) ;;
  if 0 <? Arg_Number then PUSH_ENV ;; DO_ANOTHER_THEN RC_COMB_SAVE_VALUE (COMB_ARG_1_SLOT - 1 + Arg_Number)
  else
    exp <- get EXPR ;;
    size <- MEM exp 0 ;;
    STACK_PUSH size ;;
    DO_ANOTHER_THEN RC_COMB_APPLY_FUNCTION COMB_FN_SLOT.

Definition access_finish : M next :=
  exp <- get EXPR ;;
  val <- get VAL ;;
  name <- MEM exp 1 ;;
  r <- requesting (lookup_variable memory_base fuel val name) ;;
  match r with
  | (PRIM_DONE, v) => SET_VAL (stored v val) ;; change end_subproblem ;; goto pop_return
  | (PRIM_INTERRUPT _, _) =>
      PREPARE_POP_RETURN_INTERRUPT RC_EXECUTE_ACCESS_FINISH val ;; p <- pending ;; SIGNAL_INTERRUPT p
  | (code, _) => POP_RETURN_ERROR (error_code_of code)
  end.

Definition assignment_finish : M next :=
  exp <- get EXPR ;;
  variable <- MEM exp 0 ;;
  POP_ENV ;;
  env <- get ENV ;;
  val <- get VAL ;;
  r <- (if OBJECT_TYPE variable =? TC_VARIABLE then
          name <- MEM variable 0 ;; requesting (assign_variable memory_base fixed_objects fuel env name val)
        else pure (ERR_BAD_FRAME, None)) ;;
  match r with
  | (PRIM_DONE, old) => SET_VAL (stored old val) ;; change end_subproblem ;; goto pop_return
  | (PRIM_INTERRUPT _, _) =>
      PUSH_ENV ;;
      PREPARE_POP_RETURN_INTERRUPT RC_EXECUTE_ASSIGNMENT_FINISH val ;; p <- pending ;; SIGNAL_INTERRUPT p
  | (code, _) => PUSH_ENV ;; POP_RETURN_ERROR (error_code_of code)
  end.

Definition definition_finish : M next :=
  exp <- get EXPR ;;
  name <- MEM exp 0 ;;
  value <- get VAL ;;
  POP_ENV ;;
  env <- get ENV ;;
  r <- requesting (define_variable memory_base fixed_objects fuel env name value) ;;
  match r with
  | (PRIM_DONE, _) => change end_subproblem ;; SET_VAL name ;; goto pop_return
  | (PRIM_INTERRUPT _, _) =>
      PUSH_ENV ;;
      PREPARE_POP_RETURN_INTERRUPT RC_EXECUTE_DEFINITION_FINISH value ;; p <- pending ;; SIGNAL_INTERRUPT p
  | (code, _) => PUSH_ENV ;; SET_VAL value ;; POP_RETURN_ERROR (error_code_of code)
  end.

Definition end_of_computation : M next :=
  c <- get rest ;;
  match interpreter_states c with
  | O | S O => halting (Microcode_Termination 17)
  | S n => change (fun c => set_interpreter_states c n) ;; pure Return_to_C
  end.

Definition hardware_trap : M next :=
  info <- STACK_REF 0 ;;
  SAVE_CONT ;;
  c <- get rest ;;
  let handler := if VECTOR_P fixed_objects then fixed_object c TRAP_HANDLER else SHARP_F in
  if handler =? SHARP_F then halting (Microcode_Termination 25)
  else
    Will_Push (STACK_ENV_EXTRA_SLOTS + 2) ;;
    STACK_PUSH info ;;
    STACK_PUSH handler ;;
    PUSH_APPLY_FRAME_HEADER 1 ;;
    goto internal_apply.

Definition gc_done : M next :=
  exp <- get EXPR ;;
  SET_VAL exp ;;
  c <- get rest ;;
  if GC_NEEDED_P (heap c) (gc_space_needed c) then halting (Microcode_Termination 20)
  else
    change (fun c => set_gc_space_needed c 0) ;;
    (if critical_section_hook_p c then
       SAVE_CONT ;;
       change (fun c => set_critical_section c false false) ;;
       critical_section_hook
     else change (fun c => set_critical_section c false (critical_section_hook_p c))) ;;
    goto pop_return.

Definition dont_copy_history_finish : M next :=
  offset <- STACK_POP ;;
  _ <- STACK_POP ;;
  exp <- get EXPR ;;
  change (fun c => set_history c (addr exp) (OBJECT_DATUM offset)) ;;
  goto pop_return.

Definition restore_history_finish : M next :=
  exp <- get EXPR ;;
  ok <- restore_history memory_base fuel exp ;;
  if ok then
    offset <- STACK_POP ;;
    _ <- STACK_POP ;;
    let offset := OBJECT_DATUM offset in
    change (fun c => set_history c (history_register c) offset) ;;
    (if 0 <? offset then
       modify (fun s => mk_interp (VAL s) (ENV s) (EXPR s) (RETURN s) (stack_pointer s)
                 (store (stack s) (stack_end - offset) (MAKE_RETURN_CODE RC_RESTORE_HISTORY)) (rest s))
     else pure tt) ;;
    goto pop_return
  else
    SAVE_CONT ;;
    Will_Push CONTINUATION_SIZE ;;
    v <- get VAL ;;
    SET_EXP v ;;
    SET_RC RC_RESTORE_VALUE ;;
    SAVE_CONT ;;
    c <- get rest ;;
    IMMEDIATE_GC (HEAP_AVAILABLE (heap c)).

Definition restore_mask (mask : Z) (c : core) : core :=
  let c := SET_INTERRUPT_MASK mask c in
  if GC_NEEDED_P (heap c) 0 then REQUEST_GC 0 c else c.

Definition restore_int_mask_finish : M next :=
  exp <- get EXPR ;;
  change (restore_mask (UNSIGNED_FIXNUM_TO_LONG exp)) ;;
  c <- get rest ;;
  if PENDING_INTERRUPTS_P c then
    SET_RC RC_RESTORE_VALUE ;;
    v <- get VAL ;;
    SET_EXP v ;;
    SAVE_CONT ;;
    SIGNAL_INTERRUPT (PENDING_INTERRUPTS c)
  else goto pop_return.

Definition snap_need_thunk : M next :=
  exp <- get EXPR ;;
  state <- MEM exp THUNK_SNAPPED ;;
  value <- MEM exp THUNK_VALUE ;;
  (if state =? SHARP_T then SET_VAL value
   else
     v <- get VAL ;;
     on_heap (MEMORY_SET memory_base exp THUNK_SNAPPED SHARP_T) ;;
     on_heap (MEMORY_SET memory_base exp THUNK_VALUE v)) ;;
  goto pop_return.

Definition return_case (code : return_code) : M next :=
  exp <- get EXPR ;;
  val <- get VAL ;;
  match code with
  | R_comb_apply_function => change end_subproblem ;; goto internal_apply_val
  | R_comb_save_value => comb_save_value
  | R_conditional_decide =>
      change end_subproblem ;; POP_ENV ;; REDUCES_TO_NTH (if val =? SHARP_F then 2 else 1)
  | R_disjunction_decide =>
      change end_subproblem ;; POP_ENV ;;
      if negb (val =? SHARP_F) then goto pop_return else REDUCES_TO_NTH 1
  | R_end_of_computation => end_of_computation
  | R_eval_error => POP_ENV ;; REDUCES_TO exp
  | R_execute_access_finish => access_finish
  | R_execute_assignment_finish => assignment_finish
  | R_execute_definition_finish => definition_finish
  | R_halt => halting (Microcode_Termination 16)
  | R_hardware_trap => hardware_trap
  | R_internal_apply_val => goto internal_apply_val
  | R_internal_apply => goto internal_apply
  | R_join_stacklets =>
      unpack_control_point memory_base stack_start stack_end stack_guard exp ;; goto pop_return
  | R_normal_gc_done => gc_done
  | R_restore_value => SET_VAL exp ;; goto pop_return
  | R_restore_dont_copy_history => dont_copy_history_finish
  | R_restore_history => restore_history_finish
  | R_restore_int_mask => restore_int_mask_finish
  | R_stack_marker => sp <- STACK_LOC 1 ;; SET_STACK_POINTER sp ;; goto pop_return
  | R_execute_sequence_finish => change end_subproblem ;; POP_ENV ;; REDUCES_TO_NTH 1
  | R_snap_need_thunk => snap_need_thunk
  | R_inapplicable => POP_RETURN_ERROR ERR_INAPPLICABLE_CONTINUATION
  end.

Definition return_dispatch : M next :=
  RESTORE_CONT ;; ret <- get RETURN ;; return_case (return_code_of (OBJECT_DATUM ret)).

(** ** Steps *)

Definition step (l : label) : M next :=
  match l with
  | do_expression => eval_trap
  | eval_non_trapping => eval_dispatch
  | pop_return => return_trap
  | pop_return_non_trapping => return_dispatch
  | internal_apply_val => v <- get VAL ;; SET_APPLY_FRAME_PROCEDURE v ;; goto internal_apply
  | internal_apply => apply_trap
  | Apply_Non_Trapping => apply_check
  | perform_application => apply_dispatch
  end.

Inductive state := At (l : label) (s : interp) | Returned (s : interp) | Stopped (e : halt).

Definition step_state (x : state) : state :=
  match x with
  | At l s =>
      match step l s with
      | Normal (Goto l') s' => At l' s'
      | Normal Return_to_C s' => Returned s'
      | Halt e => Stopped e
      end
  | _ => x
  end.

Fixpoint run_steps (n : nat) (x : state) : state :=
  match n with O => x | S n => run_steps n (step_state x) end.

Definition Interpret (pop_return_p : bool) (s : interp) : state :=
  At (if pop_return_p then pop_return else do_expression)
    (set_rest s (set_interpreter_states (rest s) (S (interpreter_states (rest s))))).

End Interpreter.
