(* ===== verification/Direct.v ===== *)
(** * A direct evaluator (for Interp.v)

    The comment at the head of interp.c says that it is what one gets by
    converting the straightforward interpreter into continuation passing
    style.  This is the straightforward one: evaluation, application and the
    handling of errors and interrupts as functions that call one another, with
    no stack, no return codes and no registers.  Only the depth of the stack
    is left, as a number, because the history records it and because there is
    a limit.

    [Leaves] is the outcome where there is no direct style: when the stack
    comes near its end, when a control point is applied, when a primitive does
    more than return, signal, apply or evaluate, or when the header of a
    combination has changed meanwhile. *)

From Stdlib Require Import ZArith List Lia Bool.
From S2P Require Import Prelude.
From S2P Require Import Object.
From S2P Require Import Memory.
From S2P Require Import Heap.
From S2P Require Import Symbol.
From S2P Require Import Environment.
From S2P Require Import Stack.
From S2P Require Import History.
From S2P Require Import Signal.
From S2P Require Import Control.
From S2P Require Import Interp.
Import ListNotations.

Inductive outcome := Value_is (v : Z) (c : core) | Halts (e : halt) | Leaves | Out_of_fuel.

Definition obind (o : outcome) (k : Z -> core -> outcome) : outcome :=
  match o with Value_is v c => k v c | o => o end.

Declare Scope direct_scope.
Delimit Scope direct_scope with direct.
Notation "'val' v , c <- e ;; k" := (obind e (fun v c => k))
  (at level 61, v name, c name, e at next level, right associativity) : direct_scope.

(** What a primitive does in direct style, from its arguments and the depth of
    the stack below them. *)
Inductive effect :=
  | Returns (v : Z) (c : core)
  | Applies (f : Z) (args : list Z) (c : core)
  | Evaluates (exp env : Z) (c : core)
  | Signals (code : Z) (c : core)
  | Interrupts (c : core)
  | Fails (e : halt)
  | Escapes.

Inductive task :=
  | T_eval (exp env : Z)
  | T_dispatch (exp env : Z)
  | T_operands (exp env i : Z) (vals : list Z) (operand : Z)
  | T_return (v : Z)
  | T_access (exp v : Z)
  | T_assignment (exp env v : Z)
  | T_definition (exp env v : Z)
  | T_apply (f : Z) (args : list Z)
  | T_check (f : Z) (args : list Z)
  | T_perform (f : Z) (args : list Z)
  | T_interrupt (masked_code : Z)
  | T_pop_error (code v : Z)
  | T_eval_error (code exp env : Z).

(** A list as the words of a stack. *)
Definition list_memory (l : list Z) : memory := fun a => nth (Z.to_nat a) l 0.

Section Direct.
Local Open Scope direct_scope.
Variable memory_base : Z.
Variables stack_end stack_guard : Z.
Variable fixed_objects : Z.
Variable direct_primitive : Z -> option (list Z -> Z -> core -> effect).
Variable implemented : Z -> bool.
Variable Primitive_Arity_Table : Z -> Z.
Variable fuel : nat.
Notation addr := (OBJECT_ADDRESS memory_base).
Notation pointer := (MAKE_POINTER_OBJECT memory_base).
Notation VREF := (VREF memory_base).
Notation VLENGTH := (VLENGTH memory_base).
Notation fixed_object := (fixed_object memory_base fixed_objects).
Notation new_reduction := (new_reduction memory_base).
Notation new_subproblem := (new_subproblem memory_base).
Notation reuse_subproblem := (reuse_subproblem memory_base).
Notation end_subproblem := (end_subproblem memory_base).
Notation trapper := (trapper memory_base fixed_objects).

(** [n] more words on the stack. *)
Definition room (sp n : Z) (k : outcome) : outcome := if SP_OK_P stack_guard (sp - n) then k else Leaves.
Definition slot (c : core) (object i : Z) : Z := core_memory c (MEMORY_LOC memory_base object i).
(** What is asked for by the code of an operation on variables. *)
Definition after_request (r : res) (c : core) : core :=
  match r with (PRIM_INTERRUPT n, _) => REQUEST_GC n c | _ => c end.
Definition variable_action (e : act res) (c : core) (k : res -> core -> outcome) : outcome :=
  match e (heap c) with Value r h => k r (after_request r (set_heap c h)) | Exit x => Halts (Heap_exit x) end.
Definition new_pair (type first : Z) (second : memory -> Z) (c : core) : outcome :=
  let h := heap c in
  let m := store (mem h) (Free h) first in
  let m := store m (Free h + 1) (second m) in
  Value_is (pointer type (Free h))
    (set_heap c (mk_machine m (Free h + 2) (heap_start h) (heap_alloc_limit h) (GC_ENABLED_P h))).

Section Body.
Variable rec : task -> Z -> core -> outcome.

(** The value is returned to the continuation. *)
Definition return_value (o : outcome) (sp : Z) : outcome := val v, c <- o ;; rec (T_return v) sp c.

(** A handler is called with the history stopped and the interrupt mask set,
    and both are restored. *)
Definition signal (handler argument mask : Z) (t : Z -> list Z -> task) (sp : Z) (c : core) : outcome :=
  room sp HISTORY_SIZE (room (sp - 4) CONTINUATION_SIZE (room (sp - 6) (STACK_ENV_EXTRA_SLOTS + 3) (
  let hist := pointer UNMARKED_HISTORY_TYPE (history_register c) in
  let offset := ULONG_TO_FIXNUM (prev_restore_history_offset c) in
  let saved_mask := ULONG_TO_FIXNUM (INT_MASK c) in
  let c := set_history c (addr (READ_DUMMY_HISTORY memory_base fixed_objects c)) (stack_end - (sp - 4)) in
  val v, c <- rec (t handler [argument; saved_mask]) (sp - 6) (SET_INTERRUPT_MASK mask c) ;;
  let c := restore_mask (UNSIGNED_FIXNUM_TO_LONG saved_mask) c in
  val v, c <- (if PENDING_INTERRUPTS_P c
               then val _, c <- rec (T_interrupt (PENDING_INTERRUPTS c)) (sp - 6) c ;; rec (T_return v) (sp - 4) c
               else rec (T_return v) (sp - 4) c) ;;
  rec (T_return v) sp (set_history c (addr hist) (OBJECT_DATUM offset))))).

Definition interrupt (masked_code sp : Z) (c : core) : outcome :=
  match interrupt_handler memory_base fixed_objects masked_code c with
  | None => Halts (Microcode_Termination TERM_NO_INTERRUPT_HANDLER)
  | Some (handler, mask) => signal handler (ULONG_TO_FIXNUM (INT_CODE c)) mask T_perform sp c
  end.

Definition error (code sp : Z) (c : core) : outcome :=
  match error_handler memory_base fixed_objects code c with
  | None => Halts (Microcode_Termination TERM_NO_ERROR_HANDLER)
  | Some handler => signal handler (error_object code c) 0 T_apply sp c
  end.

(** The interrupt is handled before the value is given to the continuation. *)
Definition interrupted_with (v sp : Z) (c : core) : outcome :=
  val _, c <- rec (T_interrupt (PENDING_INTERRUPTS c)) (sp - 2) c ;; rec (T_return v) sp c.

(** ** Application *)

Definition frame_size (args : list Z) : Z := Z.of_nat (length args) + 1.
(** The stack below the frame. *)
Definition below (sp : Z) (args : list Z) : Z := sp - Z.of_nat (length args) - 2.

Definition retry_apply (o : outcome) (args : list Z) (sp : Z) : outcome := val f, c <- o ;; rec (T_apply f args) sp c.

(** The procedure to apply again is read where the false object is. *)
Definition application_error (code : Z) (args : list Z) (sp : Z) (c : core) : outcome :=
  retry_apply (rec (T_pop_error code SHARP_F) (below sp args - 2) c) args sp.
Definition apply_interrupt (masked_code f : Z) (args : list Z) (sp : Z) (c : core) : outcome :=
  let d := below sp args in
  retry_apply (val _, c <- rec (T_interrupt masked_code) (d - 4) c ;; rec (T_return f) (d - 2) c) args sp.
Definition apply_gc (n f : Z) (args : list Z) (sp : Z) (c : core) : outcome :=
  let c := REQUEST_GC n c in apply_interrupt (PENDING_INTERRUPTS c) f args sp c.

Definition reduce (exp env sp : Z) (c : core) : outcome := rec (T_eval exp env) sp (new_reduction exp env c).

Definition perform_entity (f : Z) (args : list Z) (sp : Z) (c : core) : outcome :=
  let m := core_memory c in
  let data := slot c f ENTITY_DATA in
  let size := frame_size args in
  if VECTOR_P data && (size <? VLENGTH m data) && negb (VREF m data size =? SHARP_F)
     && (VREF m data 0 =? fixed_object c ARITY_DISPATCHER_TAG)
  then rec (T_perform (VREF m data size) args) sp c
  else room (below sp args - 1) 0 (rec (T_apply (slot c f ENTITY_OPERATOR) (f :: args)) sp c).

(** The body is evaluated at the depth of the application. *)
Definition perform_procedure (f : Z) (args : list Z) (sp : Z) (c : core) : outcome :=
  let m := core_memory c in
  let h := heap c in
  let size := frame_size args in
  let lambda := slot c f 0 in
  let n := VLENGTH m (slot c lambda 1) in
  if negb (size =? n) && (negb (OBJECT_TYPE lambda =? TC_LEXPR) || (size <? n))
  then application_error ERR_WRONG_NUMBER_OF_ARGUMENTS args sp c
  else if GC_NEEDED_P h (size + 1) then apply_gc (size + 1) f args sp c
  else
    let m := store (mem h) (Free h) (MAKE_OBJECT TC_MANIFEST_VECTOR size) in
    let m := copy_words (Z.to_nat size) (list_memory (f :: args)) 0 m (Free h + 1) in
    let c := set_heap c (mk_machine m (Free h + 1 + size) (heap_start h) (heap_alloc_limit h) (GC_ENABLED_P h)) in
    reduce (slot c lambda 0) (pointer TC_ENVIRONMENT (Free h)) sp c.

Definition perform_extended_procedure (f : Z) (args : list Z) (sp : Z) (c : core) : outcome :=
  let m := core_memory c in
  let h := heap c in
  let nargs := Z.of_nat (length args) in
  let lambda := slot c f 0 in
  let count := slot c lambda 2 in
  let formals := Elambda_Formals_Count count in
  let params := Elambda_Opts_Count count + formals in
  let rest_flag := Elambda_Rest_Flag count in
  let auxes := VLENGTH m (slot c lambda 1) - 1 - (params + rest_flag) in
  if (nargs <? formals) || ((rest_flag =? 0) && (params <? nargs))
  then application_error ERR_WRONG_NUMBER_OF_ARGUMENTS args sp c
  else
    let size := params + rest_flag + auxes + 1 in
    let space := size + 1 + (if params <? nargs then 2 * (nargs - params) else 0) in
    if GC_NEEDED_P h space then apply_gc space f args sp c
    else
      let (m, scan) := extended_frame memory_base nargs params rest_flag auxes size (list_memory (f :: args)) 0 (mem h) (Free h) in
      let c := set_heap c (mk_machine m scan (heap_start h) (heap_alloc_limit h) (GC_ENABLED_P h)) in
      reduce (slot c lambda 0) (pointer TC_ENVIRONMENT (Free h)) sp c.

(** A primitive that does not return is applied again once the error or the
    interrupt has been handled. *)
Definition after_primitive (e : effect) (saved f : Z) (args : list Z) (sp : Z) : outcome :=
  let d := below sp args in
  match e with
  | Returns v c =>
      let c := set_primitive c SHARP_F (LEXPR_ACTUALS c) 0 in
      rec (T_return v) sp (set_history c saved (prev_restore_history_offset c))
  | Applies g args' c => rec (T_apply g args') sp (SET_PRIMITIVE SHARP_F c)
  | Evaluates exp env c => reduce exp env sp (SET_PRIMITIVE SHARP_F c)
  | Signals code c =>
      val _, c <- rec (T_pop_error code SHARP_F) (d - 2) (SET_PRIMITIVE SHARP_F c) ;; rec (T_apply f args) sp c
  | Interrupts c =>
      let c := SET_PRIMITIVE SHARP_F c in
      val _, c <- rec (T_interrupt (PENDING_INTERRUPTS c)) (d - 2) c ;; rec (T_apply f args) sp c
  | Fails e => Halts e
  | Escapes => Leaves
  end.

Definition perform_primitive (f : Z) (args : list Z) (sp : Z) (c : core) : outcome :=
  if negb (implemented (OBJECT_DATUM f)) then application_error ERR_UNIMPLEMENTED_PRIMITIVE args sp c
  else
    let n_args := Z.of_nat (length args) in
    let arity := Primitive_Arity_Table (OBJECT_DATUM f) in
    if negb (n_args =? arity) && negb (arity =? LEXPR_PRIMITIVE_ARITY)
    then application_error ERR_WRONG_NUMBER_OF_ARGUMENTS args sp c
    else
      match direct_primitive (OBJECT_DATUM f) with
      | None => Leaves
      | Some p =>
          let actuals := if n_args =? arity then LEXPR_ACTUALS c else n_args in
          after_primitive (p args sp (set_primitive c f actuals (Free (heap c)))) (history_register c) f args sp
      end.

Definition perform (f : Z) (args : list Z) (sp : Z) (c : core) : outcome :=
  match applicable_type (OBJECT_TYPE f) with
  | A_entity => perform_entity f args sp c
  | A_procedure => perform_procedure f args sp c
  | A_control_point =>
      if negb (frame_size args =? 2) then application_error ERR_WRONG_NUMBER_OF_ARGUMENTS args sp c else Leaves
  | A_primitive => perform_primitive f args sp c
  | A_extended_procedure => perform_extended_procedure f args sp c
  | A_inapplicable => application_error ERR_INAPPLICABLE_OBJECT args sp c
  end.

(** ** Evaluation *)

(** The value of part [n] of an expression, evaluated [d] words deeper. *)
Definition subproblem (exp env n d : Z) (c : core) : outcome :=
  let w := slot c exp n in rec (T_eval w env) d (new_subproblem w env c).

Definition combination (exp env sp : Z) (c : core) : outcome :=
  let length := (VLENGTH (core_memory c) exp - 1)%SL in
  if length <? 0 then Leaves
  else
    room sp (length + 2 + CONTINUATION_SIZE) (
    if length =? 0 then
      val f, c <- subproblem exp env COMB_FN_SLOT (sp - 4) c ;; rec (T_apply f []) sp (end_subproblem c)
    else
      let w := slot c exp (length + 1) in
      rec (T_operands exp env length [] w) sp (new_subproblem w env c)).

(** Operands are evaluated from the last to the first, then the operator. *)
Definition operands (exp env i : Z) (vals : list Z) (operand sp : Z) (c : core) : outcome :=
  let d := sp - (i + Z.of_nat (length vals)) - 4 in
  val v, c <- rec (T_eval operand env) d c ;;
  let vals := v :: vals in
  if 0 <? i - 1 then
    let w := slot c exp i in rec (T_operands exp env (i - 1) vals w) sp (reuse_subproblem w env c)
  else
    if OBJECT_DATUM (slot c exp 0) =? frame_size vals then
      let w := slot c exp COMB_FN_SLOT in
      val f, c <- rec (T_eval w env) d (reuse_subproblem w env c) ;; rec (T_apply f vals) sp (end_subproblem c)
    else Leaves.

Definition variable (exp env sp : Z) (c : core) : outcome :=
  variable_action (lookup_variable memory_base fuel env (slot c exp 0)) c (fun r c =>
  match r with
  | (PRIM_DONE, Some v) => rec (T_return v) sp c
  | (PRIM_DONE, None) => Leaves
  | (PRIM_INTERRUPT _, _) =>
      room sp (CONTINUATION_SIZE + 1) (
      val _, c <- rec (T_interrupt (PENDING_INTERRUPTS c)) (sp - 3) c ;; reduce exp env sp c)
  | (code, _) => rec (T_eval_error (error_code_of code) exp env) sp c
  end).

Definition access (exp v sp : Z) (c : core) : outcome :=
  variable_action (lookup_variable memory_base fuel v (slot c exp 1)) c (fun r c =>
  match r with
  | (PRIM_DONE, Some w) => rec (T_return w) sp (end_subproblem c)
  | (PRIM_DONE, None) => Leaves
  | (PRIM_INTERRUPT _, _) => val v, c <- interrupted_with v (sp - 2) c ;; rec (T_access exp v) sp c
  | (code, _) => val v, c <- rec (T_pop_error (error_code_of code) v) (sp - 2) c ;; rec (T_access exp v) sp c
  end).

Definition assignment (exp env v sp : Z) (c : core) : outcome :=
  let variable := slot c exp 0 in
  variable_action
    (if OBJECT_TYPE variable =? TC_VARIABLE
     then assign_variable memory_base fixed_objects fuel env (slot c variable 0) v
     else ret (ERR_BAD_FRAME, None)) c (fun r c =>
  match r with
  | (PRIM_DONE, Some old) => rec (T_return old) sp (end_subproblem c)
  | (PRIM_DONE, None) => Leaves
  | (PRIM_INTERRUPT _, _) => val v, c <- interrupted_with v (sp - 3) c ;; rec (T_assignment exp env v) sp c
  | (code, _) => val v, c <- rec (T_pop_error (error_code_of code) v) (sp - 3) c ;; rec (T_assignment exp env v) sp c
  end).

Definition definition (exp env v sp : Z) (c : core) : outcome :=
  let name := slot c exp 0 in
  variable_action (define_variable memory_base fixed_objects fuel env name v) c (fun r c =>
  match r with
  | (PRIM_DONE, _) => rec (T_return name) sp (end_subproblem c)
  | (PRIM_INTERRUPT _, _) => val v, c <- interrupted_with v (sp - 3) c ;; rec (T_definition exp env v) sp c
  | (code, _) => val v, c <- rec (T_pop_error (error_code_of code) v) (sp - 3) c ;; rec (T_definition exp env v) sp c
  end).

Definition dispatch (exp env sp : Z) (c : core) : outcome :=
  match scode_type (OBJECT_TYPE exp) with
  | S_self_evaluating => rec (T_return exp) sp c
  | S_access =>
      room sp CONTINUATION_SIZE (val v, c <- subproblem exp env 0 (sp - 2) c ;; rec (T_access exp v) sp c)
  | S_assignment =>
      room sp 3 (val v, c <- subproblem exp env 1 (sp - 3) c ;; rec (T_assignment exp env v) sp c)
  | S_broken_heart => Halts (Microcode_Termination 2)
  | S_combination => combination exp env sp c
  | S_comment => reduce (slot c exp 0) env sp c
  | S_conditional =>
      room sp 3 (
      val v, c <- subproblem exp env 0 (sp - 3) c ;;
      let c := end_subproblem c in
      reduce (slot c exp (if v =? SHARP_F then 2 else 1)) env sp c)
  | S_definition =>
      room sp 3 (val v, c <- subproblem exp env 1 (sp - 3) c ;; rec (T_definition exp env v) sp c)
  | S_delay => return_value (new_pair TC_DELAYED env (fun m => m (MEMORY_LOC memory_base exp 0)) c) sp
  | S_disjunction =>
      room sp 3 (
      val v, c <- subproblem exp env 0 (sp - 3) c ;;
      let c := end_subproblem c in
      if negb (v =? SHARP_F) then rec (T_return v) sp c else reduce (slot c exp 1) env sp c)
  | S_extended_lambda => return_value (new_pair TC_EXTENDED_PROCEDURE exp (fun _ => env) c) sp
  | S_lambda => return_value (new_pair TC_PROCEDURE exp (fun _ => env) c) sp
  | S_manifest_vector => rec (T_eval_error ERR_EXECUTE_MANIFEST_VECTOR exp env) sp c
  | S_quote => rec (T_return (slot c exp 0)) sp c
  | S_sequence =>
      room sp 3 (
      val _, c <- subproblem exp env 0 (sp - 3) c ;;
      let c := end_subproblem c in
      reduce (slot c exp 1) env sp c)
  | S_syntax_error => rec (T_eval_error ERR_SYNTAX_ERROR exp env) sp c
  | S_the_environment => rec (T_return env) sp c
  | S_variable => variable exp env sp c
  end.

(** ** Tasks *)

Definition body (t : task) (sp : Z) (c : core) : outcome :=
  match t with
  | T_eval exp env =>
      match trapper c 0 with
      | Some f => room sp 4 (rec (T_check f [exp; env]) sp (set_trapping c false))
      | None => rec (T_dispatch exp env) sp c
      end
  | T_dispatch exp env => dispatch exp env sp c
  | T_operands exp env i vals operand => operands exp env i vals operand sp c
  | T_return v =>
      match trapper c 2 with
      | Some f => room sp 3 (rec (T_check f [v]) sp (set_trapping c false))
      | None => Value_is v c
      end
  | T_access exp v => access exp v sp c
  | T_assignment exp env v => assignment exp env v sp c
  | T_definition exp env v => definition exp env v sp c
  | T_apply f args =>
      match trapper c 1 with
      | Some t => room (below sp args - 1) 0 (rec (T_check t (f :: args)) sp (set_trapping c false))
      | None => rec (T_check f args) sp c
      end
  | T_check f args =>
      if PENDING_INTERRUPTS_P c then apply_interrupt (PENDING_INTERRUPTS c) f args sp c
      else rec (T_perform f args) sp c
  | T_perform f args => perform f args sp c
  | T_interrupt masked_code => interrupt masked_code sp c
  | T_pop_error code v =>
      room sp CONTINUATION_SIZE (val _, c <- error code (sp - 2) c ;; rec (T_return v) sp c)
  | T_eval_error code exp env =>
      room sp (CONTINUATION_SIZE + 1) (val _, c <- error code (sp - 3) c ;; reduce exp env sp c)
  end.

End Body.

Fixpoint direct (n : nat) : task -> Z -> core -> outcome :=
  match n with
  | O => fun _ _ _ => Out_of_fuel
  | S n => body (direct n)
  end.

End Direct.
