(* ===== verification/DirectSim.v ===== *)
(** * The interpreter and the direct evaluator: the simulation (for Interp.v, Direct.v)

    [entry] says in which state the interpreter begins a task of the direct
    evaluator, and [sim] what it does when the evaluator has an outcome.  The
    words of the stack at and above its depth are those of [K] throughout. *)

From Stdlib Require Import ZArith List Lia Bool.
From S2P Require Import Prelude.
From S2P Require Import Object.
From S2P Require Import Memory.
From S2P Require Import Heap.
From S2P Require Import Symbol.
From S2P Require Import Environment.
From S2P Require Import Stack.
From S2P Require Import History.
From S2P Require Import Signal.
From S2P Require Import Control.
From S2P Require Import Interp.
From S2P Require Import Direct.
Import ListNotations.

Lemma set_heap_same c : set_heap c (heap c) = c.
Proof. now destruct c. Qed.

(** ** The stack *)

Definition above (sp : Z) (K st : memory) : Prop := forall a, sp <= a -> st a = K a.

Lemma above_refl sp K : above sp K K.
Proof. now intros a H. Qed.

Lemma above_trans sp K st st' : above sp st st' -> above sp K st -> above sp K st'.
Proof. intros H H' a Ha. now rewrite H, H'. Qed.

Lemma above_le sp sp' K st : sp <= sp' -> above sp K st -> above sp' K st.
Proof. intros H H' a Ha. apply H'. lia. Qed.

Lemma above_store sp K st a w : a < sp -> above sp K st -> above sp K (store st a w).
Proof. intros H H' b Hb. rewrite store_other by lia. now apply H'. Qed.

Lemma obind_assoc o f g : obind (obind o f) g = obind o (fun v c => obind (f v c) g).
Proof. now destruct o. Qed.

(** The words of a list, from an address upwards. *)
Definition words_at (st : memory) (a : Z) (ws : list Z) : Prop :=
  forall i, 0 <= i < Z.of_nat (length ws) -> st (a + i) = list_memory ws i.

Lemma list_memory_cons w ws i : 0 < i -> list_memory (w :: ws) i = list_memory ws (i - 1).
Proof. intros H. unfold list_memory. replace (Z.to_nat i) with (S (Z.to_nat (i - 1))) by lia. reflexivity. Qed.

Lemma words_at_nil st a : words_at st a [].
Proof. intros i H. cbn in H. lia. Qed.

Lemma stack_words_cons st a w ws : words_at st a (w :: ws) <-> st a = w /\ words_at st (a + 1) ws.
Proof.
  split.
  - intros H. split; [|intros i Hi; replace (a + 1 + i) with (a + (i + 1)) by lia].
    + rewrite <- (Z.add_0_r a). apply (H 0). cbn [length]. lia.
    + rewrite (H (i + 1)) by (cbn [length]; lia). rewrite list_memory_cons by lia. f_equal. lia.
  - intros [<- H] i Hi. cbn [length] in Hi. destruct (Z.eq_dec i 0) as [->|N]; [now rewrite Z.add_0_r|].
    rewrite list_memory_cons, <- (H (i - 1)) by lia. f_equal. lia.
Qed.

Lemma words_at_agree st st' a ws :
  (forall b, a <= b < a + Z.of_nat (length ws) -> st' b = st b) -> words_at st a ws -> words_at st' a ws.
Proof. intros H H' i Hi. rewrite H by lia. now apply H'. Qed.

Lemma words_at_eq st a a' ws : a = a' -> words_at st a ws -> words_at st a' ws.
Proof. now intros ->. Qed.

Lemma words_at_above sp st st' a ws : sp <= a -> above sp st st' -> words_at st a ws -> words_at st' a ws.
Proof. intros H H'. apply words_at_agree. intros b Hb. apply H'. lia. Qed.

Lemma words_at_store st b w a ws :
  b < a \/ a + Z.of_nat (length ws) <= b -> words_at st a ws -> words_at (store st b w) a ws.
Proof. intros H. apply words_at_agree. intros c Hc. apply store_other. lia. Qed.

(** ** Objects *)

Lemma datum_of type datum : 0 <= type < 2 ^ 6 -> 0 <= datum < 2 ^ 58 -> OBJECT_DATUM (MAKE_OBJECT type datum) = datum.
Proof. intros Ht Hd. apply MAKE_OBJECT_parts; lia. Qed.

Lemma datum_bounds o : 0 <= OBJECT_DATUM o < 2 ^ 58.
Proof. rewrite OBJECT_DATUM_mod. apply Z.mod_pos_bound. lia. Qed.

(** ** Copying from the stack *)

Lemma copy_words_agree n st from a b :
  (forall i, 0 <= i < Z.of_nat n -> st (a + i) = from (b + i)) ->
  forall m scan, copy_words n st a m scan = copy_words n from b m scan.
Proof.
  revert a b. induction n as [|n IH]; intros a b H m scan; [reflexivity|]. cbn [copy_words].
  specialize (H 0) as H0. rewrite !Z.add_0_r in H0. rewrite H0 by lia.
  apply IH. intros i Hi. specialize (H (i + 1)).
  replace (a + 1 + i) with (a + (i + 1)) by lia. replace (b + 1 + i) with (b + (i + 1)) by lia. apply H. lia.
Qed.

Lemma stack_list_agree base n st from a b :
  (forall i, 0 <= i < Z.of_nat n -> st (a + i) = from (b + i)) ->
  forall m scan, stack_list base n st a m scan = stack_list base n from b m scan.
Proof.
  revert a b. induction n as [|n IH]; intros a b H m scan; [reflexivity|]. cbn [stack_list].
  specialize (H 0) as H0. rewrite !Z.add_0_r in H0. rewrite H0 by lia.
  apply IH. intros i Hi. specialize (H (i + 1)).
  replace (a + 1 + i) with (a + (i + 1)) by lia. replace (b + 1 + i) with (b + (i + 1)) by lia. apply H. lia.
Qed.

Lemma extended_frame_agree base nargs params rest_flag auxes size st ws a m scan :
  words_at st a ws -> Z.of_nat (length ws) = nargs + 1 -> 0 <= params ->
  extended_frame base nargs params rest_flag auxes size st a m scan
  = extended_frame base nargs params rest_flag auxes size (list_memory ws) 0 m scan.
Proof.
  intros H L P. unfold extended_frame. destruct (Z.leb_spec nargs params) as [D|D].
  - now rewrite (copy_words_agree (Z.to_nat (nargs + 1)) st (list_memory ws) a 0)
      by (intros i Hi; rewrite H by lia; f_equal; lia).
  - rewrite (copy_words_agree (Z.to_nat (params + 1)) st (list_memory ws) a 0)
      by (intros i Hi; rewrite H by lia; f_equal; lia).
    now rewrite (stack_list_agree base _ st (list_memory ws) (a + (params + 1)) (0 + (params + 1)))
      by (intros i Hi; rewrite <- Z.add_assoc, H by lia; f_equal; lia).
Qed.

Section Simulation.
Variable memory_base : Z.
Variables stack_start stack_end stack_guard : Z.
Variable fixed_objects : Z.
Variable Primitive_Procedure_Table : Z -> option (P Z).
Variable Primitive_Arity_Table : Z -> Z.
Variable critical_section_hook : M unit.
Variable direct_primitive : Z -> option (list Z -> Z -> core -> effect).
Variable fuel : nat.
Notation step_state := (step_state memory_base stack_start stack_end stack_guard fixed_objects
  Primitive_Procedure_Table Primitive_Arity_Table critical_section_hook fuel).
Notation run_steps := (run_steps memory_base stack_start stack_end stack_guard fixed_objects
  Primitive_Procedure_Table Primitive_Arity_Table critical_section_hook fuel).
Notation SIGNAL_INTERRUPT := (SIGNAL_INTERRUPT memory_base stack_start stack_end stack_guard fixed_objects).
Notation POP_ERROR code := (seq (Do_Micro_Error memory_base stack_start stack_end stack_guard fixed_objects code true)
  (fun _ => goto internal_apply)).
Notation EVAL_ERROR := (EVAL_ERROR memory_base stack_start stack_end stack_guard fixed_objects).

Definition implemented (n : Z) : bool := if Primitive_Procedure_Table n then true else false.

(** ** What a primitive promises

    [sp] is the depth below the arguments. *)
Definition keeps_frame (c c' : core) : Prop := PRIMITIVE c' = PRIMITIVE c /\ LEXPR_ACTUALS c' = LEXPR_ACTUALS c.

Definition frame (st : memory) (a f : Z) (args : list Z) : Prop :=
  OBJECT_DATUM (st a) = Z.of_nat (length args) + 1 /\ words_at st (a + 1) (f :: args).

Definition behaves (r : primitive_result Z) (sp : Z) (args : list Z) (s : interp) (e : effect) : Prop :=
  let arguments := sp - Z.of_nat (length args) in
  match e with
  | Returns v c =>
      exists w e x r' st, r = Returning v (mk_interp w e x r' arguments st c) /\ above sp (stack s) st
  | Applies f args' c =>
      exists w e x r' st, r = Aborting PRIM_APPLY (mk_interp w e x r' (below sp args') st c)
        /\ frame st (below sp args') f args' /\ above sp (stack s) st
  | Evaluates exp env c =>
      exists w r' st, r = Aborting PRIM_DO_EXPRESSION (mk_interp w env exp r' sp st c) /\ above sp (stack s) st
  | Signals code c =>
      exists w e x r' st, r = Aborting code (mk_interp w e x r' arguments st c) /\ 0 <= code
        /\ above arguments (stack s) st /\ keeps_frame (rest s) c
  | Interrupts c =>
      exists w e x r' st, r = Aborting PRIM_INTERRUPT_CODE (mk_interp w e x r' arguments st c)
        /\ above arguments (stack s) st /\ keeps_frame (rest s) c
  | Fails e => r = Failing e
  | Escapes => True
  end.

Definition behaves_as (p : P Z) (d : list Z -> Z -> core -> effect) : Prop := forall args sp s,
  sp < 2 ^ 57 -> stack_pointer s = sp - Z.of_nat (length args) -> words_at (stack s) (stack_pointer s) args ->
  OBJECT_TYPE (PRIMITIVE (rest s)) = TC_PRIMITIVE -> behaves (p s) sp args s (d args sp (rest s)).

Class Primitives : Prop := {
  primitive_behaves n p d : Primitive_Procedure_Table n = Some p -> direct_primitive n = Some d -> behaves_as p d
}.

(** ** Where a task begins *)

Definition state_of (r : result next) : state :=
  match r with
  | Normal (Goto l) s => At l s
  | Normal Return_to_C s => Returned s
  | Halt e => Stopped e
  end.

Definition cont (st : memory) (a rc exp : Z) : Prop := st a = MAKE_RETURN_CODE rc /\ st (a + 1) = exp.

(** The frame of a combination of which operand [i] is evaluated. *)
Definition combination_frame (st : memory) (d exp env i : Z) (vals : list Z) : Prop :=
  cont st d RC_COMB_SAVE_VALUE exp /\ st (d + 2) = env /\ OBJECT_DATUM (st (d + 3)) = i
  /\ words_at st (d + 4 + i) vals /\ 1 <= i.

Inductive entry (sp : Z) (K : memory) (c : core) : task -> state -> Prop :=
  | At_eval exp env v r d st :
      d = sp -> above sp K st -> entry sp K c (T_eval exp env) (At do_expression (mk_interp v env exp r d st c))
  | At_dispatch exp env v r d st :
      d = sp -> above sp K st -> entry sp K c (T_dispatch exp env) (At eval_non_trapping (mk_interp v env exp r d st c))
  | At_operands exp env i vals operand v r d st :
      d = sp - (i + Z.of_nat (length vals)) - 4 -> combination_frame st d exp env i vals -> above sp K st ->
      entry sp K c (T_operands exp env i vals operand) (At do_expression (mk_interp v env operand r d st c))
  | At_return v e x r d st :
      d = sp -> above sp K st -> entry sp K c (T_return v) (At pop_return (mk_interp v e x r d st c))
  | At_access exp v e x r d st :
      d = sp - 2 -> cont st d RC_EXECUTE_ACCESS_FINISH exp -> above sp K st ->
      entry sp K c (T_access exp v) (At pop_return_non_trapping (mk_interp v e x r d st c))
  | At_assignment exp env v e x r d st :
      d = sp - 3 -> cont st d RC_EXECUTE_ASSIGNMENT_FINISH exp -> st (d + 2) = env -> above sp K st ->
      entry sp K c (T_assignment exp env v) (At pop_return_non_trapping (mk_interp v e x r d st c))
  | At_definition exp env v e x r d st :
      d = sp - 3 -> cont st d RC_EXECUTE_DEFINITION_FINISH exp -> st (d + 2) = env -> above sp K st ->
      entry sp K c (T_definition exp env v) (At pop_return_non_trapping (mk_interp v e x r d st c))
  | At_apply f args v e x r d st :
      d = below sp args -> frame st d f args -> above sp K st ->
      entry sp K c (T_apply f args) (At internal_apply (mk_interp v e x r d st c))
  | At_check f args v e x r d st :
      d = below sp args -> frame st d f args -> above sp K st ->
      entry sp K c (T_check f args) (At Apply_Non_Trapping (mk_interp v e x r d st c))
  | At_perform f args v e x r d st :
      d = below sp args -> frame st d f args -> above sp K st ->
      entry sp K c (T_perform f args) (At perform_application (mk_interp v e x r d st c))
  | At_interrupt p v e x r d st :
      d = sp -> above sp K st -> entry sp K c (T_interrupt p) (state_of (SIGNAL_INTERRUPT p (mk_interp v e x r d st c)))
  | At_pop_error code v e x r d st :
      d = sp -> above sp K st -> entry sp K c (T_pop_error code v) (state_of (POP_ERROR code (mk_interp v e x r d st c)))
  | At_eval_error code exp env v r d st :
      d = sp -> above sp K st ->
      entry sp K c (T_eval_error code exp env) (state_of (EVAL_ERROR code (mk_interp v env exp r d st c))).

(** The tasks whose body hands over to another task without a step. *)
Definition lag (t : task) : nat :=
  match t with T_operands _ _ _ _ _ | T_interrupt _ | T_pop_error _ _ | T_eval_error _ _ _ => 1 | _ => 0 end%nat.

(** ** What the interpreter does

    Where the evaluator runs out of fuel the interpreter is still at work
    after half as many steps. *)
Definition sim (b : nat) (x : state) (sp : Z) (K : memory) (o : outcome) : Prop :=
  match o with
  | Value_is v c =>
      exists m e w r st, run_steps m x = At pop_return_non_trapping (mk_interp v e w r sp st c) /\ above sp K st
  | Halts e => exists m, run_steps m x = Stopped e
  | Leaves => True
  | Out_of_fuel => forall m, (2 * m + 2 <= b)%nat -> exists l s, run_steps m x = At l s
  end.

Definition sound (n : nat) (rec : task -> Z -> core -> outcome) : Prop :=
  forall t sp K c x, sp <= stack_end -> entry sp K c t x -> sim (n - lag t) x sp K (rec t sp c).

Lemma run_steps_add m n x : run_steps (m + n) x = run_steps n (run_steps m x).
Proof. revert x. induction m as [|m IH]; intros x; [reflexivity|]. apply IH. Qed.

Lemma run_steps_out n x : (forall l s, x <> At l s) -> run_steps n x = x.
Proof. intros H. induction n as [|n IH]; [reflexivity|]. destruct x as [l s| |]; [now destruct (H l s)|exact IH..]. Qed.

Lemma running_before m k x l s : (m <= k)%nat -> run_steps k x = At l s -> exists l' s', run_steps m x = At l' s'.
Proof.
  intros L H. replace k with (m + (k - m))%nat in H by lia. rewrite run_steps_add in H.
  destruct (run_steps m x) as [l' s'| |]; [now exists l', s'|rewrite run_steps_out in H; discriminate..].
Qed.

Lemma sim_le b b' x sp K o : (b' <= b)%nat -> sim b x sp K o -> sim b' x sp K o.
Proof. intros L. destruct o; cbn [sim]; auto. intros H m M. apply H. lia. Qed.

Lemma sim_reach m b x l s sp K o : run_steps m x = At l s -> sim b (At l s) sp K o -> sim b x sp K o.
Proof.
  intros R. destruct o as [v c|e| |]; cbn [sim]; [| |auto|].
  - intros (k & e & w & r & st & H & A). exists (m + k)%nat, e, w, r, st. now rewrite run_steps_add, R.
  - intros (k & H). exists (m + k)%nat. now rewrite run_steps_add, R.
  - intros H k L. destruct (Nat.le_gt_cases k m) as [D|D]; [now apply (running_before k m x l s)|].
    replace k with (m + (k - m))%nat by lia. rewrite run_steps_add, R. apply H. lia.
Qed.

Lemma sim_next n b l s sp K o :
  (b <= S n)%nat -> sim (n - 1) (step_state (At l s)) sp K o -> sim b (At l s) sp K o.
Proof.
  intros L. destruct o as [v c|e| |]; cbn [sim]; [| |auto|].
  - intros (k & e & w & r & st & H & A). exists (1 + k)%nat, e, w, r, st. now rewrite run_steps_add.
  - intros (k & H). exists (1 + k)%nat. now rewrite run_steps_add.
  - intros H [|k] D; [now exists l, s|]. apply H. lia.
Qed.

Lemma sim_above b x sp K K' o : above sp K K' -> sim b x sp K' o -> sim b x sp K o.
Proof.
  intros A. destruct o; cbn [sim]; auto.
  intros (k & e & w & r & st & H & B). exists k, e, w, r, st. split; [assumption|]. now apply (above_trans sp K K').
Qed.

Lemma sim_bind b x d sp K K' o k :
  sim b x d K' o ->
  (forall v c e w r st, above d K' st -> sim b (At pop_return_non_trapping (mk_interp v e w r d st c)) sp K (k v c)) ->
  sim b x sp K (obind o k).
Proof.
  intros H Hk. destruct o as [v c|e| |]; cbn [obind]; [|exact H|exact H|exact H].
  destruct H as (m & e & w & r & st & H & A). eapply sim_reach; [exact H|]. now apply Hk.
Qed.

Lemma sim_room b x sp K sp' n o : (stack_guard <= sp' - n -> sim b x sp K o) -> sim b x sp K (room stack_guard sp' n o).
Proof. unfold room, SP_OK_P. intros H. destruct (Z.leb_spec stack_guard (sp' - n)); [auto|exact I]. Qed.

Lemma check_ok n v e x r sp st c :
  stack_guard <= sp - n ->
  STACK_CHECK memory_base stack_start stack_guard n (mk_interp v e x r sp st c) = Normal tt (mk_interp v e x r sp st c).
Proof. intros H. unfold STACK_CHECK, SP_OK_P. cbn [stack_pointer]. destruct (Z.leb_spec stack_guard (sp - n)); [reflexivity|lia]. Qed.

Lemma step_return v e x r d st c rc exp :
  cont st d rc exp ->
  step_state (At pop_return_non_trapping (mk_interp v e x r d st c))
  = state_of (return_case memory_base stack_start stack_end stack_guard fixed_objects critical_section_hook fuel
      (return_code_of (OBJECT_DATUM (MAKE_RETURN_CODE rc)))
      (mk_interp v e exp (MAKE_RETURN_CODE rc) (d + 1 + 1) st c)).
Proof. intros [H <-]. rewrite <- H. reflexivity. Qed.

(** A task that is called does what it is to do. *)
Lemma call n rec t sp K c x b :
  sound n rec -> (b <= n - lag t)%nat -> sp <= stack_end -> entry sp K c t x -> sim b x sp K (rec t sp c).
Proof. intros H L S E. eapply sim_le; [exact L|]. now apply H. Qed.

End Simulation.

(** ** Symbolic execution *)

Lemma store_at m a v b : b = a -> store m a v b = v.
Proof. intros ->. apply store_same. Qed.

(** Runs the code of a step on a state given by its parts. *)
Ltac exec :=
  cbv beta iota zeta delta [
    step_state step state_of
    seq get pure modify halting change on_heap requesting goto pending stored set_rest
    VAL ENV EXPR RETURN stack_pointer stack rest
    SET_VAL SET_ENV SET_EXP SET_RC SET_RET SET_STACK_POINTER
    STACK_LOC STACK_REF STACK_SET STACK_PUSH STACK_POP STACK_N_PUSHED Will_Push
    PUSH_ENV PUSH_VAL PUSH_EXP PUSH_RET POP_ENV POP_EXP POP_RET SAVE_CONT RESTORE_CONT
    CONT_RET CONT_EXP PUSH_APPLY_FRAME_HEADER POP_APPLY_FRAME_HEADER APPLY_FRAME_SIZE APPLY_FRAME_N_ARGS
    APPLY_FRAME_PROCEDURE SET_APPLY_FRAME_PROCEDURE POP_PRIMITIVE_FRAME MEM
    save_history stop_history preserve_interrupt_mask push_handler back_out_of_primitive
    PREPARE_POP_RETURN_INTERRUPT PREPARE_APPLY_INTERRUPT APPLICATION_ERROR IMMEDIATE_GC
    PREPARE_EVAL_REPEAT POP_RETURN_ERROR PROCEED_AFTER_PRIMITIVE REDUCES_TO REDUCES_TO_NTH DO_NTH_THEN
    DO_ANOTHER_THEN PUSH_ENV_NTH_THEN eval_dispatch eval_trap APPLY_INTERRUPT
    apply_entity apply_procedure apply_extended_procedure apply_primitive apply_control_point apply_dispatch apply_trap apply_check
    allocate_pair make_frame make_extended_frame return_trap comb_save_value access_finish assignment_finish definition_finish
    dont_copy_history_finish restore_int_mask_finish return_case].

(** Reads the stack. *)
Ltac look :=
  repeat match goal with
  | |- context [store ?m ?a ?v ?b] => rewrite (store_at m a v b) by lia
  | |- context [store ?m ?a ?v ?b] => rewrite (store_other m a v b) by lia
  | H : above ?d ?K ?st |- context [?st ?b] => rewrite (H b) by lia
  | H : ?st ?a = ?w |- context [?st ?b] =>
      lazymatch type of st with memory => idtac end;
      first [constr_eq a b | replace (st b) with (st a) by (f_equal; lia)]; rewrite H
  end.

(** Returns to the frame of the stack. *)
Ltac decode :=
  match goal with
  | |- context [return_code_of (OBJECT_DATUM (MAKE_RETURN_CODE ?rc))] =>
      let y := eval vm_compute in (return_code_of (OBJECT_DATUM (MAKE_RETURN_CODE rc))) in
      change (return_code_of (OBJECT_DATUM (MAKE_RETURN_CODE rc))) with y
  end.

(** *** Proofs about [sim]

    [called] ends in a task, [valued] does the task first, [returns] goes back
    to the frame that it left. *)
Ltac stepped :=
  match goal with H : sound _ _ _ _ _ _ _ _ _ ?n _ |- _ => eapply sim_next with (n := n); [lia|] end.
Ltac steps := stepped; exec.
Ltac seen := look; reflexivity.
Ltac returns := stepped; erewrite step_return by (split; seen); decode; exec; look.
Ltac kept := let a := fresh in let H := fresh in intros a H; seen.
Ltac in_place := econstructor; [try (unfold below in *; cbn [length]; lia)|..].
Ltac called := eapply call; [eassumption|cbn [lag]; lia|lia|in_place; try kept].
Ltac called_on := eapply call; [eassumption|cbn [lag]; lia|lia|in_place; try apply above_refl].
Ltac roomy := repeat (apply sim_room; let R := fresh "R" in intros R; rewrite ?check_ok by lia; exec).
Ltac valued :=
  eapply sim_bind;
  [called_on
  |let w := fresh "w" in let c := fresh "c'" in let e := fresh "e" in let x := fresh "x" in
   let r := fresh "r'" in let st := fresh "st'" in let B := fresh "B" in intros w c e x r st B].

(** The frame that has just been pushed. *)
Ltac framed := split; [look; reflexivity|repeat (apply stack_words_cons; split; [seen|]); apply words_at_nil].
