(* ===== verification/DirectEval.v ===== *)
(** * The interpreter and the direct evaluator: evaluation (for Interp.v, Direct.v)

    The steps from [do_expression] and [eval_non_trapping], and those from the
    return codes of subproblems, do what the evaluator does. *)

From Stdlib Require Import ZArith List Lia Bool.
From S2P Require Import Prelude.
From S2P Require Import Object.
From S2P Require Import Memory.
From S2P Require Import Heap.
From S2P Require Import Symbol.
From S2P Require Import Environment.
From S2P Require Import Stack.
From S2P Require Import History.
From S2P Require Import Signal.
From S2P Require Import Control.
From S2P Require Import Interp.
From S2P Require Import Direct.
From S2P Require Import DirectSim.
Import ListNotations.

Section Evaluation.
Variable memory_base : Z.
Variables stack_start stack_end stack_guard : Z.
Variable fixed_objects : Z.
Variable Primitive_Procedure_Table : Z -> option (P Z).
Variable Primitive_Arity_Table : Z -> Z.
Variable critical_section_hook : M unit.
Variable direct_primitive : Z -> option (list Z -> Z -> core -> effect).
Variable fuel : nat.
Notation implemented := (implemented Primitive_Procedure_Table).
Notation body := (body memory_base stack_end stack_guard fixed_objects direct_primitive implemented Primitive_Arity_Table fuel).
Notation dispatch := (dispatch memory_base stack_guard fuel).
Notation sim := (sim memory_base stack_start stack_end stack_guard fixed_objects Primitive_Procedure_Table
  Primitive_Arity_Table critical_section_hook fuel).
Notation sound := (sound memory_base stack_start stack_end stack_guard fixed_objects Primitive_Procedure_Table
  Primitive_Arity_Table critical_section_hook fuel).
Notation entry := (entry memory_base stack_start stack_end stack_guard fixed_objects).

Variable rec : task -> Z -> core -> outcome.
Variable n : nat.
Hypothesis rec_sound : sound n rec.
Hypothesis end_small : stack_end < 2 ^ 57.
Hypothesis guard_nonneg : 0 <= stack_guard.

(** ** Frames *)

Lemma apply_val f args sp K c e x r d st :
  sp <= stack_end -> d = below sp args -> OBJECT_DATUM (st d) = Z.of_nat (length args) + 1 -> words_at st (d + 2) args ->
  above sp K st ->
  sim (n - 1) (At internal_apply_val (mk_interp f e x r d st c)) sp K (rec (T_apply f args) sp c).
Proof.
  unfold below. intros S D H W A. steps. called.
  split; [look; exact H|]. apply stack_words_cons. split; [seen|].
  replace (d + 1 + 1) with (d + 2) by lia. apply words_at_store; [lia|exact W].
Qed.

Notation combination := (combination memory_base stack_guard).
Lemma combination_sound exp env sp K c v r st :
  sp <= stack_end -> above sp K st ->
  sim (n - 1) (state_of (eval_combination memory_base stack_start stack_guard (mk_interp v env exp r sp st c))) sp K
    (combination rec exp env sp c).
Proof.
  intros S A. unfold eval_combination. exec. unfold combination, subproblem, slot.
  destruct (Z.ltb_spec ((VLENGTH memory_base (core_memory c) exp - 1)%SL) 0) as [L|L]; [exact I|].
  roomy.
  destruct (Z.eqb_spec ((VLENGTH memory_base (core_memory c) exp - 1)%SL) 0) as [E|E].
  - rewrite E in *. exec. valued. returns. apply apply_val; [lia|unfold below; cbn; lia|seen|apply words_at_nil|kept].
  - exec. called. split; [split; seen|]. split; [seen|]. split; [|split; [apply words_at_nil|lia]].
    look. apply datum_of; lia.
Qed.

Lemma operands_sound exp env i vals operand sp K c v r d st :
  sp <= stack_end -> d = sp - (i + Z.of_nat (length vals)) - 4 -> combination_frame st d exp env i vals -> above sp K st ->
  sim n (At do_expression (mk_interp v env operand r d st c)) sp K (operands memory_base rec exp env i vals operand sp c).
Proof.
  intros S D ([C1 C2] & C3 & C4 & C5 & C6) A. unfold operands. pose proof (datum_bounds (st (d + 3))) as C7. rewrite C4 in C7. valued.
  returns.
  replace (OBJECT_DATUM (st (sp - (i + Z.of_nat (length vals)) - 4 + 1 + 1 + 1 + 0))) with i
    by (rewrite <- C4; do 2 f_equal; lia).
  rewrite <- D in *.
  assert (V : words_at (store st' (d + 1 + 1 + 1 + (1 + (i - 1))) w) (d + 4 + (i - 1)) (w :: vals)).
  { apply stack_words_cons. split; [seen|]. apply words_at_store; [lia|].
    replace (d + 4 + (i - 1) + 1) with (d + 4 + i) by lia. apply (words_at_above d st); [lia|assumption..]. }
  destruct (Z.ltb_spec 0 (i - 1)) as [L|L]; exec; replace (2 - 1 + (i - 1)) with i by lia.
  - called. split; [split; seen|]. split; [seen|].
    split; [look; apply datum_of; lia|]. split; [|lia]. repeat (apply words_at_store; [lia|]). eapply words_at_eq, V. lia.
  - unfold slot. destruct (Z.eqb_spec (OBJECT_DATUM (core_memory c' (MEMORY_LOC memory_base exp 0))) (frame_size (w :: vals))) as [F|F]; [|exact I].
    valued. returns. apply apply_val; unfold below; cbn [length]; try lia.
    + look. rewrite F. unfold frame_size. cbn [length]. lia.
    + eapply (words_at_above d); [lia|exact B0|]. repeat (apply words_at_store; [lia|]). eapply words_at_eq, V. lia.
    + kept.
Qed.

Notation variable := (variable memory_base stack_guard fuel).
Lemma variable_sound exp env sp K c v r st :
  sp <= stack_end -> above sp K st ->
  sim (n - 1)
    (state_of (eval_variable memory_base stack_start stack_end stack_guard fixed_objects fuel (mk_interp v env exp r sp st c)))
    sp K (variable rec exp env sp c).
Proof.
  intros S A. unfold eval_variable. exec. unfold variable, variable_action, after_request, slot, reduce.
  destruct (lookup_variable memory_base fuel env (core_memory c (MEMORY_LOC memory_base exp 0)) (heap c))
    as [[[] o] h|]; exec; [| | | | | | |exists 0%nat; reflexivity]; try solve [called].
  - destruct o; [called|exact I].
  - roomy. eapply sim_bind.
    + called_on.
    + intros w c' e x r' st' B. returns. called.
Qed.

Notation access := (access memory_base fuel).
Notation assignment := (assignment memory_base fixed_objects fuel).
Notation definition := (definition memory_base fixed_objects fuel).

Lemma access_sound exp v sp K c e x r d st :
  sp <= stack_end -> d = sp - 2 -> cont st d RC_EXECUTE_ACCESS_FINISH exp -> above sp K st ->
  sim (S n) (At pop_return_non_trapping (mk_interp v e x r d st c)) sp K (access rec exp v sp c).
Proof.
  intros S D [C1 C2] A. returns. unfold access, variable_action, after_request, slot, interrupted_with.
  destruct (lookup_variable memory_base fuel v (core_memory c (MEMORY_LOC memory_base exp 1)) (heap c))
    as [[[] o] h|]; exec; [| |valued; called; split; seen..|exists 0%nat; reflexivity].
  - destruct o; [called|exact I].
  - rewrite obind_assoc. valued. returns. valued. called. split; seen.
Qed.

Lemma assignment_sound exp env v sp K c e x r d st :
  sp <= stack_end -> d = sp - 3 -> cont st d RC_EXECUTE_ASSIGNMENT_FINISH exp -> st (d + 2) = env -> above sp K st ->
  sim (S n) (At pop_return_non_trapping (mk_interp v e x r d st c)) sp K (assignment rec exp env v sp c).
Proof.
  intros S D [C1 C2] C3 A. returns. unfold assignment, variable_action, after_request, slot, interrupted_with.
  destruct (OBJECT_TYPE (core_memory c (MEMORY_LOC memory_base exp 0)) =? TC_VARIABLE); exec; look.
  2: cbv beta iota delta [ret]; rewrite set_heap_same; valued; called; [split|]; seen.
  destruct (assign_variable memory_base fixed_objects fuel env _ v (heap c)) as [[[] o] h|]; exec;
    [| |valued; called; [split|]; seen..|exists 0%nat; reflexivity].
  - destruct o; [called|exact I].
  - rewrite obind_assoc. valued. returns. valued. called; [split|]; seen.
Qed.

Lemma definition_sound exp env v sp K c e x r d st :
  sp <= stack_end -> d = sp - 3 -> cont st d RC_EXECUTE_DEFINITION_FINISH exp -> st (d + 2) = env -> above sp K st ->
  sim (S n) (At pop_return_non_trapping (mk_interp v e x r d st c)) sp K (definition rec exp env v sp c).
Proof.
  intros S D [C1 C2] C3 A. returns. unfold definition, variable_action, after_request, slot, interrupted_with.
  destruct (define_variable memory_base fixed_objects fuel env _ v (heap c)) as [[[] o] h|]; exec;
    [| |valued; called; [split|]; seen..|exists 0%nat; reflexivity].
  - called.
  - rewrite obind_assoc. valued. returns. valued. called; [split|]; seen.
Qed.

Lemma dispatch_sound exp env sp K c v r st :
  sp <= stack_end -> above sp K st ->
  sim (S n) (At eval_non_trapping (mk_interp v env exp r sp st c)) sp K (dispatch rec exp env sp c).
Proof.
  intros S A. steps. unfold dispatch, subproblem, slot, reduce.
  destruct (scode_type (OBJECT_TYPE exp)) eqn:T.
  - roomy. valued. called. split; seen.
  - roomy. valued. called; [split|]; seen.
  - exists 0%nat. reflexivity.
  - now apply combination_sound.
  - called.
  - roomy. valued. returns. destruct (w =? SHARP_F); called.
  - roomy. valued. called; [split|]; seen.
  - called.
  - roomy. valued. returns. destruct (negb (w =? SHARP_F)); called.
  - called.
  - called.
  - called.
  - called.
  - roomy. valued. returns. called.
  - called.
  - called.
  - now apply variable_sound.
  - called.
Qed.

End Evaluation.
