(* ===== verification/DirectApply.v ===== *)
(** * The interpreter and the direct evaluator: application (for Interp.v, Direct.v)

    The steps from [perform_application] and those that call a handler of errors
    or interrupts do what the evaluator does. *)

From Stdlib Require Import ZArith List Lia Bool.
From S2P Require Import Prelude.
From S2P Require Import Object.
From S2P Require Import Memory.
From S2P Require Import Heap.
From S2P Require Import Symbol.
From S2P Require Import Environment.
From S2P Require Import Stack.
From S2P Require Import History.
From S2P Require Import Signal.
From S2P Require Import Control.
From S2P Require Import Interp.
From S2P Require Import Direct.
From S2P Require Import DirectSim.
From S2P Require Import DirectEval.
Import ListNotations.

Section Application.
Variable memory_base : Z.
Variables stack_start stack_end stack_guard : Z.
Variable fixed_objects : Z.
Variable Primitive_Procedure_Table : Z -> option (P Z).
Variable Primitive_Arity_Table : Z -> Z.
Variable critical_section_hook : M unit.
Variable direct_primitive : Z -> option (list Z -> Z -> core -> effect).
Variable fuel : nat.
Notation implemented := (implemented Primitive_Procedure_Table).
Notation body := (body memory_base stack_end stack_guard fixed_objects direct_primitive implemented Primitive_Arity_Table fuel).
Notation sim := (sim memory_base stack_start stack_end stack_guard fixed_objects Primitive_Procedure_Table
  Primitive_Arity_Table critical_section_hook fuel).
Notation sound := (sound memory_base stack_start stack_end stack_guard fixed_objects Primitive_Procedure_Table
  Primitive_Arity_Table critical_section_hook fuel).
Notation entry := (entry memory_base stack_start stack_end stack_guard fixed_objects).

Variable rec : task -> Z -> core -> outcome.
Variable n : nat.
Hypothesis rec_sound : sound n rec.
Hypothesis end_small : stack_end < 2 ^ 57.
Hypothesis guard_nonneg : 0 <= stack_guard.


Notation signal := (signal memory_base stack_end stack_guard fixed_objects).
Notation interrupt := (interrupt memory_base stack_end stack_guard fixed_objects).
Notation error := (error memory_base stack_end stack_guard fixed_objects).

(** ** Handlers *)

Section Handlers.
Local Open Scope interp_scope.
Variables (handler mask : Z) (argument : core -> Z).

(** What errors and interrupts have in common. *)
Definition call_handler (l : label) : M next :=
  (stop_history memory_base stack_start stack_end stack_guard fixed_objects ;;
   preserve_interrupt_mask memory_base stack_start stack_guard ;;
   push_handler memory_base stack_start stack_guard handler argument ;;
   change (SET_INTERRUPT_MASK mask)) ;;
  goto l.

Definition begins (t : Z -> list Z -> task) (l : label) : Prop :=
  t = T_perform /\ l = perform_application \/ t = T_apply /\ l = internal_apply.

Lemma int_mask_history c h o : INT_MASK (set_history c h o) = INT_MASK c.
Proof. reflexivity. Qed.

Lemma called_at t l f args v e x r d st sp K c b :
  begins t l -> (b <= n)%nat -> sp <= stack_end -> d = below sp args -> frame st d f args -> above sp K st ->
  sim b (At l (mk_interp v e x r d st c)) sp K (rec (t f args) sp c).
Proof. intros [[-> ->]|[-> ->]] B S D F A; (eapply call; [eassumption|cbn [lag]; lia|lia|]); now constructor. Qed.

Lemma signal_sound t l v e x r d st sp K c :
  begins t l -> (forall c a o, argument (set_history c a o) = argument c) -> sp <= stack_end -> d = sp -> above sp K st ->
  sim n (state_of (call_handler l (mk_interp v e x r d st c))) sp K (signal rec handler (argument c) mask t sp c).
Proof.
  intros T G S D A. unfold call_handler, signal. exec. roomy.
  replace (stack_end - (d - 1 - 1 - 1 - 1) + 0) with (stack_end - (sp - 4)) by lia. rewrite !G.
  eapply sim_bind.
  - apply called_at; [assumption|lia|lia|unfold below; cbn [length]; lia|framed|apply above_refl].
  - intros w c' e' x' r' st' B. returns. rewrite !int_mask_history.
    destruct (PENDING_INTERRUPTS_P _); exec; rewrite ?obind_assoc.
    + valued. returns. valued. returns. called.
    + valued. returns. called.
Qed.

End Handlers.

Lemma interrupt_sound p v e x r d st sp K c :
  sp <= stack_end -> d = sp -> above sp K st ->
  sim n (state_of (SIGNAL_INTERRUPT memory_base stack_start stack_end stack_guard fixed_objects p (mk_interp v e x r d st c)))
    sp K (interrupt rec p sp c).
Proof.
  intros S D A. unfold SIGNAL_INTERRUPT, setup_interrupt, interrupt. cbv beta iota delta [seq get rest].
  destruct (interrupt_handler memory_base fixed_objects p c) as [[handler mask]|]; [|exists 0%nat; reflexivity].
  apply (signal_sound handler mask (fun c => ULONG_TO_FIXNUM (INT_CODE c)) T_perform perform_application); auto.
  now left.
Qed.

(** [Do_Micro_Error] with its continuation on the stack. *)
Lemma error_sound code v e x r d st sp K c :
  sp <= stack_end -> d = sp -> above sp K st ->
  sim n (state_of
      (match error_handler memory_base fixed_objects code c with
       | None => Halt (Microcode_Termination TERM_NO_ERROR_HANDLER)
       | Some handler => call_handler handler 0 (error_object code) internal_apply (mk_interp v e x r d st c)
       end)) sp K (error rec code sp c).
Proof.
  intros S D A. unfold error. destruct (error_handler memory_base fixed_objects code c) as [handler|]; [|exists 0%nat; reflexivity].
  apply (signal_sound handler 0 (error_object code) T_apply internal_apply); auto. now right.
Qed.

(** What [Do_Micro_Error] pushes before the handler. *)
Lemma micro_error_frame code v e x r d st c (from_pop_return_p : bool) :
  stack_guard <= d - (CONTINUATION_SIZE + (if from_pop_return_p then 0 else 1)) ->
  seq (Do_Micro_Error memory_base stack_start stack_end stack_guard fixed_objects code from_pop_return_p)
    (fun _ => goto internal_apply) (mk_interp v e x r d st c)
  = let r' := MAKE_RETURN_CODE (if from_pop_return_p then RC_POP_RETURN_ERROR else RC_EVAL_ERROR) in
    let x' := if from_pop_return_p then v else x in
    let st := if from_pop_return_p then st else store st (d - 1) e in
    let d := if from_pop_return_p then d else d - 1 in
    match error_handler memory_base fixed_objects code c with
    | None => Halt (Microcode_Termination TERM_NO_ERROR_HANDLER)
    | Some handler =>
        call_handler handler 0 (error_object code) internal_apply
          (mk_interp v e x' r' (d - 1 - 1) (store (store st (d - 1) x') (d - 1 - 1) r') c)
    end.
Proof.
  intros R. unfold Do_Micro_Error, Will_Push, seq at 1 2. rewrite check_ok by assumption.
  destruct from_pop_return_p; cbn -[MAKE_RETURN_CODE error_handler stop_history preserve_interrupt_mask push_handler error_object];
    destruct (error_handler memory_base fixed_objects code c); reflexivity.
Qed.

Lemma pop_error_sound code v e x r d st sp K c :
  sp <= stack_end -> d = sp -> above sp K st ->
  sim n (state_of (seq (Do_Micro_Error memory_base stack_start stack_end stack_guard fixed_objects code true)
                     (fun _ => goto internal_apply) (mk_interp v e x r d st c)))
    sp K (room stack_guard sp CONTINUATION_SIZE
      (obind (error rec code (sp - 2) c) (fun _ c => rec (T_return v) sp c))).
Proof.
  intros S D A. apply sim_room. intros R. rewrite micro_error_frame by lia. cbv beta iota zeta. eapply sim_bind.
  - apply error_sound; [lia..|apply above_refl].
  - intros w c' e' x' r' st' B. returns. called.
Qed.

Lemma eval_error_sound code exp env v r d st sp K c :
  sp <= stack_end -> d = sp -> above sp K st ->
  sim n (state_of (EVAL_ERROR memory_base stack_start stack_end stack_guard fixed_objects code (mk_interp v env exp r d st c)))
    sp K (room stack_guard sp (CONTINUATION_SIZE + 1)
      (obind (error rec code (sp - 3) c) (fun _ c => reduce memory_base rec exp env sp c))).
Proof.
  intros S D A. apply sim_room. intros R. unfold EVAL_ERROR. rewrite micro_error_frame by lia. cbv beta iota zeta. eapply sim_bind.
  - apply error_sound; [lia..|apply above_refl].
  - intros w c' e' x' r' st' B. returns. called.
Qed.

(** ** Applications that are tried again *)

Lemma frame_parts st d f args :
  frame st d f args -> OBJECT_DATUM (st d) = Z.of_nat (length args) + 1 /\ st (d + 1) = f /\ words_at st (d + 2) args.
Proof.
  intros [H W]. apply stack_words_cons in W as [H' W]. split; [assumption|]. split; [assumption|]. eapply words_at_eq, W. lia.
Qed.

Lemma frame_store st d f args a w : a < d -> frame st d f args -> frame (store st a w) d f args.
Proof. intros L [H W]. split; [now rewrite store_other by lia|]. apply words_at_store; [lia|assumption]. Qed.

Lemma frame_above sp st st' d f args : sp <= d -> above sp st st' -> frame st d f args -> frame st' d f args.
Proof. intros L H [F W]. split; [now rewrite H|]. apply (words_at_above sp st); [lia|assumption..]. Qed.

Lemma frame_replace st d f g args : frame st d f args -> frame (store st (d + 1) g) d g args.
Proof.
  intros F. destruct (frame_parts _ _ _ _ F) as (F1 & F2 & F3). split; [look; exact F1|].
  apply stack_words_cons. split; [seen|]. apply words_at_store; [lia|]. eapply words_at_eq, F3. lia.
Qed.

(** A frame where the header was, for one more argument. *)
Lemma frame_extend st d f g args :
  Z.of_nat (length args) + 2 < 2 ^ 58 -> frame st d f args ->
  frame (store (store st d g) (d - 1) (MAKE_OBJECT 0 (Z.of_nat (length args) + 1 + 1))) (d - 1) g (f :: args).
Proof.
  intros L [H W]. split; [look; rewrite datum_of; cbn [length]; lia|].
  apply stack_words_cons. split; [seen|]. repeat (apply words_at_store; [lia|]). eapply words_at_eq, W. lia.
Qed.

Notation RETRY_FRAME st d := (store (store st (d - 1) SHARP_F) (d - 1 - 1) (MAKE_RETURN_CODE RC_INTERNAL_APPLY_VAL)).

(** The value of what is done above the frame is the procedure to apply. *)
Lemma retry_apply_sound f args d st sp K y o b :
  (b <= S n)%nat -> sp <= stack_end -> d = below sp args -> frame st d f args -> above sp K st ->
  sim b y (d - 2) (RETRY_FRAME st d) o ->
  sim b y sp K (retry_apply rec o args sp).
Proof.
  intros L S D F A H. unfold below in *. unfold retry_apply. eapply sim_bind; [exact H|].
  intros w c' e' x' r' st' B. returns. destruct (frame_parts _ _ _ _ F) as (F1 & F2 & F3).
  eapply apply_val; [eassumption|try (unfold below; lia)..].
  - look. replace (d - 2 + 1 + 1) with d by lia. exact F1.
  - eapply (words_at_above (d - 2)); [lia|exact B|]. repeat (apply words_at_store; [lia|]). eapply words_at_eq, F3. lia.
  - kept.
Qed.

Lemma apply_interrupt_sound m f args v e x r d st sp K c :
  sp <= stack_end -> d = below sp args -> frame st d f args -> above sp K st ->
  sim (n - 1) (state_of (seq PREPARE_APPLY_INTERRUPT
      (fun _ => SIGNAL_INTERRUPT memory_base stack_start stack_end stack_guard fixed_objects m) (mk_interp v e x r d st c)))
    sp K (apply_interrupt rec m f args sp c).
Proof.
  intros S D F A. exec. unfold apply_interrupt. destruct (frame_parts _ _ _ _ F) as (F1 & F2 & F3).
  eapply retry_apply_sound; [lia|eassumption..|]. cbv zeta. rewrite <- D. unfold below in D. valued. returns. called.
Qed.

Lemma application_error_sound code f args v e x r d st sp K c :
  sp <= stack_end -> d = below sp args -> frame st d f args -> above sp K st ->
  sim (n - 1) (state_of (APPLICATION_ERROR memory_base stack_start stack_end stack_guard fixed_objects code (mk_interp v e x r d st c)))
    sp K (application_error rec code args sp c).
Proof.
  intros S D F A. exec. unfold application_error. rewrite <- D.
  eapply retry_apply_sound; [lia|eassumption..|]. unfold below in D. look. called.
Qed.

Notation perform_entity := (perform_entity memory_base stack_guard fixed_objects).
Notation perform_procedure := (perform_procedure memory_base).
Notation perform_extended_procedure := (perform_extended_procedure memory_base).

Lemma entity_sound f args v e x r d st sp K c :
  sp <= stack_end -> d = below sp args -> frame st d f args -> above sp K st ->
  sim (n - 1) (state_of (apply_entity memory_base stack_start stack_guard fixed_objects f (mk_interp v e x r d st c)))
    sp K (perform_entity rec f args sp c).
Proof.
  intros S D F A. unfold apply_entity. destruct (frame_parts _ _ _ _ F) as (F1 & F2 & F3). exec. unfold perform_entity, frame_size, slot.
  unfold below in *. rewrite !Z.add_0_r, F1. destruct (_ && _); exec.
  - called. now apply frame_replace with (f := f).
  - rewrite <- D. roomy. rewrite Z.add_0_r. called. apply frame_extend; [lia|assumption].
Qed.

Lemma apply_gc_sound m f args v e x r d st sp K c :
  sp <= stack_end -> d = below sp args -> frame st d f args -> above sp K st ->
  sim (n - 1) (state_of (APPLY_INTERRUPT memory_base stack_start stack_end stack_guard fixed_objects m (mk_interp v e x r d st c)))
    sp K (apply_gc rec m f args sp c).
Proof.
  intros S D F A. unfold apply_gc.
  change (APPLY_INTERRUPT memory_base stack_start stack_end stack_guard fixed_objects m (mk_interp v e x r d st c))
    with (seq PREPARE_APPLY_INTERRUPT
      (fun _ => SIGNAL_INTERRUPT memory_base stack_start stack_end stack_guard fixed_objects
         (PENDING_INTERRUPTS (REQUEST_GC m c))) (mk_interp v e x r d st (REQUEST_GC m c))).
  now apply apply_interrupt_sound.
Qed.

Lemma procedure_sound f args v e x r d st sp K c :
  sp <= stack_end -> d = below sp args -> frame st d f args -> above sp K st ->
  sim (n - 1) (state_of (apply_procedure memory_base stack_start stack_end stack_guard fixed_objects f (mk_interp v e x r d st c)))
    sp K (perform_procedure rec f args sp c).
Proof.
  intros S D F A. unfold apply_procedure. destruct (frame_parts _ _ _ _ F) as (F1 & F2 & F3).
  cbv beta iota zeta delta [seq get APPLY_FRAME_SIZE STACK_REF pure stack stack_pointer rest]. 
  unfold perform_procedure, frame_size, slot, reduce.
  rewrite !Z.add_0_r, F1. destruct (_ && _); [now eapply application_error_sound; eauto|].
  destruct (GC_NEEDED_P _ _); [now apply apply_gc_sound|]. exec.
  rewrite (copy_words_agree _ st (list_memory (f :: args)) (d + 1) 0)
    by (intros i Hi; destruct F as [_ W]; rewrite W by (cbn [length]; lia); f_equal; lia).
  unfold below in *. called.
Qed.

Lemma frame_header st d f args t :
  0 <= t < 2 ^ 6 -> frame st d f args -> frame (store st d (MAKE_OBJECT t (Z.of_nat (length args) + 1))) d f args.
Proof.
  intros Ht [H W]. pose proof (datum_bounds (st d)). split; [look; apply datum_of; lia|].
  apply words_at_store; [lia|assumption].
Qed.

Lemma params_nonneg w : 0 <= Elambda_Opts_Count w + Elambda_Formals_Count w.
Proof.
  unfold Elambda_Opts_Count, Elambda_Formals_Count.
  assert (0 <= (w & 255)) by (apply Z.land_nonneg; right; lia).
  assert (0 <= ((w & 65280) >>> 8)) by (apply Z.shiftr_nonneg, Z.land_nonneg; right; lia). lia.
Qed.

Lemma extended_procedure_sound f args v e x r d st sp K c :
  sp <= stack_end -> d = below sp args -> frame st d f args -> above sp K st ->
  sim (n - 1) (state_of (apply_extended_procedure memory_base stack_start stack_end stack_guard fixed_objects f
      (mk_interp v e x r d st c))) sp K (perform_extended_procedure rec f args sp c).
Proof.
  intros S D F A. unfold apply_extended_procedure. destruct (frame_parts _ _ _ _ F) as (F1 & F2 & F3).
  pose proof (frame_header st d f args 0 ltac:(lia) F) as F'.
  cbv beta iota zeta delta [seq get POP_APPLY_FRAME_HEADER STACK_POP APPLY_FRAME_HEADER_N_ARGS pure stack stack_pointer rest].
  unfold perform_extended_procedure, slot, reduce. rewrite F1, Z.add_simpl_r.
  destruct ((_ <? _) || _).
  { cbv beta iota zeta delta [PUSH_APPLY_FRAME_HEADER STACK_PUSH modify VAL ENV EXPR RETURN stack stack_pointer rest].
    rewrite Z.add_simpl_r. eapply application_error_sound; eauto; apply above_store; unfold below in *; [lia|assumption]. }
  destruct (GC_NEEDED_P _ _).
  { cbv beta iota zeta delta [PUSH_APPLY_FRAME_HEADER STACK_PUSH modify VAL ENV EXPR RETURN stack stack_pointer rest].
    rewrite Z.add_simpl_r. apply apply_gc_sound; eauto; apply above_store; unfold below in *; [lia|assumption]. }
  exec.
  rewrite (extended_frame_agree _ _ _ _ _ _ st (f :: args) (d + 1))
    by (try apply F; try apply params_nonneg; cbn [length]; lia).
  destruct (extended_frame _ _ _ _ _ _ _ _ _ _) as [m scan]. unfold below in *. called.
Qed.

Notation perform_primitive := (perform_primitive memory_base direct_primitive implemented Primitive_Arity_Table).
Context `{!Primitives Primitive_Procedure_Table direct_primitive}.

Notation caught := (caught memory_base stack_start stack_end stack_guard fixed_objects Primitive_Arity_Table).
Notation back_out_of_primitive := (back_out_of_primitive Primitive_Arity_Table).

Lemma caught_error code :
  0 <= code ->
  caught code = seq back_out_of_primitive (fun _ =>
    seq (Do_Micro_Error memory_base stack_start stack_end stack_guard fixed_objects code true) (fun _ => goto internal_apply)).
Proof. intros H. unfold Interp.caught. 
  repeat match goal with |- (if code =? ?k then _ else _) = _ => destruct (Z.eqb_spec code k); [lia|] end. reflexivity. Qed.

Lemma backed_out f args v e x r d st sp c :
  PRIMITIVE c = f -> OBJECT_TYPE f = TC_PRIMITIVE -> PRIMITIVE_N_ARGUMENTS Primitive_Arity_Table f c = Z.of_nat (length args) ->
  d = sp - Z.of_nat (length args) -> words_at st d args -> Z.of_nat (length args) + 1 < 2 ^ 58 ->
  exists st', back_out_of_primitive (mk_interp v e x r d st c)
    = Normal tt (mk_interp SHARP_F THE_NULL_ENV SHARP_F (MAKE_RETURN_CODE RC_INTERNAL_APPLY) (below sp args - 2) st' (SET_PRIMITIVE SHARP_F c))
    /\ cont st' (below sp args - 2) RC_INTERNAL_APPLY SHARP_F /\ frame st' (below sp args) f args /\ above d st st'.
Proof.
  intros P T N D W L. unfold Signal.back_out_of_primitive, PRIMITIVE_P. exec. rewrite P, T, N. exec.
  
  replace (below sp args - 2) with (d - 1 - 1 - 1 - 1) by (unfold below; lia). eexists. split; [reflexivity|]. unfold below. split; [|split; [split|]].
  - split; seen.
  - look. rewrite datum_of; lia.
  - apply stack_words_cons. split; [seen|]. repeat (apply words_at_store; [lia|]). eapply words_at_eq, W. lia.
  - kept.
Qed.

Lemma retry_internal f args st sp K y o :
  sp <= stack_end -> cont st (below sp args - 2) RC_INTERNAL_APPLY SHARP_F -> frame st (below sp args) f args -> above sp K st ->
  sim (n - 1) y (below sp args - 2) st o ->
  sim (n - 1) y sp K (obind o (fun _ c => rec (T_apply f args) sp c)).
Proof.
  intros S [C1 C2] F A H. eapply sim_bind; [exact H|]. intros w c e x r st' B. unfold below in *. returns. called.
  replace (sp - Z.of_nat (length args) - 2 - 2 + 1 + 1) with (sp - Z.of_nat (length args) - 2) by lia.
  eapply frame_above; [|exact B|exact F]. lia.
Qed.

(** What follows the call of the procedure of a primitive. *)
Definition after_call (saved n_args : Z) (r : primitive_result Z) : result next :=
  match r with
  | Failing x => Halt x
  | Returning v s =>
      seq (SET_VAL v) (fun _ =>
      seq (change (fun c => set_primitive c SHARP_F (LEXPR_ACTUALS c) 0)) (fun _ =>
      seq (change (fun c => set_history c saved (prev_restore_history_offset c))) (fun _ =>
      seq (POP_PRIMITIVE_FRAME n_args) (fun _ => goto pop_return)))) s
  | Aborting code s => caught code s
  end.

Lemma after_call_sound r saved f args s e sp K :
  sp <= stack_end -> Z.of_nat (length args) + 1 < 2 ^ 58 ->
  stack_pointer s = sp - Z.of_nat (length args) -> words_at (stack s) (stack_pointer s) args -> above sp K (stack s) ->
  PRIMITIVE (rest s) = f -> OBJECT_TYPE f = TC_PRIMITIVE ->
  PRIMITIVE_N_ARGUMENTS Primitive_Arity_Table f (rest s) = Z.of_nat (length args) ->
  behaves r sp args s e ->
  sim (n - 1) (state_of (after_call saved (Z.of_nat (length args)) r)) sp K (after_primitive memory_base rec e saved f args sp).
Proof.
  intros S L D W A P T N B. rewrite D in W. destruct e; cbn [behaves] in B.
  - destruct B as (w & e & x & r' & st & -> & B). unfold after_call, after_primitive. exec. called.
  - destruct B as (w & e & x & r' & st & -> & F & B). unfold after_call, after_primitive.
    change (caught PRIM_APPLY) with (seq PROCEED_AFTER_PRIMITIVE (fun _ => goto internal_apply)). exec. called. assumption.
  - destruct B as (w & r' & st & -> & B). unfold after_call, after_primitive, reduce.
    change (caught PRIM_DO_EXPRESSION) with (seq (get EXPR) (fun e => seq (SET_VAL e) (fun _ =>
      seq PROCEED_AFTER_PRIMITIVE (fun _ => REDUCES_TO memory_base e)))). exec. called.
  - destruct B as (w & e & x & r' & st & -> & Hc & B & [P' X]). unfold after_call, after_primitive.
    rewrite caught_error by assumption. unfold seq at 1.
    assert (W' : words_at st (sp - Z.of_nat (length args)) args) by (eapply words_at_above; [|exact B|assumption]; lia).
    destruct (backed_out f args w e x r' (sp - Z.of_nat (length args)) st sp c) as (st' & -> & C & F & B');
      [congruence|assumption|now rewrite <- N; unfold PRIMITIVE_N_ARGUMENTS; rewrite X|reflexivity|assumption..|].
    eapply retry_internal; [eassumption..|kept|]. unfold below in *. called_on.
  - destruct B as (w & e & x & r' & st & -> & B & [P' X]). unfold after_call, after_primitive.
    change (caught PRIM_INTERRUPT_CODE) with (seq back_out_of_primitive (fun _ => seq pending (fun p =>
      SIGNAL_INTERRUPT memory_base stack_start stack_end stack_guard fixed_objects p))). unfold seq at 1.
    assert (W' : words_at st (sp - Z.of_nat (length args)) args) by (eapply words_at_above; [|exact B|assumption]; lia).
    destruct (backed_out f args w e x r' (sp - Z.of_nat (length args)) st sp c) as (st' & -> & C & F & B');
      [congruence|assumption|now rewrite <- N; unfold PRIMITIVE_N_ARGUMENTS; rewrite X|reflexivity|assumption..|].
    eapply retry_internal; [eassumption..|kept|]. exec. unfold below in *. called_on.
  - subst r. exists 0%nat. reflexivity.
  - exact I.
Qed.

Lemma primitive_sound f args v e x r d st sp K c :
  OBJECT_TYPE f = TC_PRIMITIVE ->
  sp <= stack_end -> d = below sp args -> frame st d f args -> above sp K st ->
  sim (n - 1) (state_of (apply_primitive memory_base stack_start stack_end stack_guard fixed_objects Primitive_Procedure_Table
      Primitive_Arity_Table f (mk_interp v e x r d st c))) sp K (perform_primitive rec f args sp c).
Proof.
  intros T S D F A. destruct (frame_parts _ _ _ _ F) as (F1 & F2 & F3). pose proof (datum_bounds (st d)) as L.
  unfold apply_primitive, Direct.perform_primitive, DirectSim.implemented.
  destruct (Primitive_Procedure_Table (OBJECT_DATUM f)) as [p|] eqn:E; [|now eapply application_error_sound; eauto].
  cbn [negb]. cbv beta iota zeta delta [seq get pure APPLY_FRAME_N_ARGS APPLY_FRAME_HEADER_N_ARGS STACK_REF stack stack_pointer].
  rewrite Z.add_0_r, F1, Z.add_simpl_r.
  destruct (_ && _) eqn:G; [now eapply application_error_sound; eauto|].
  destruct (direct_primitive (OBJECT_DATUM f)) as [q|] eqn:Q; [|exact I].
  set (actuals := if Z.of_nat (length args) =? Primitive_Arity_Table (OBJECT_DATUM f) then LEXPR_ACTUALS c else Z.of_nat (length args)).
  set (c0 := set_primitive c f actuals (Free (heap c))). set (s0 := mk_interp v e f r (d + 2) st c0).
  match goal with |- sim _ ?y _ _ _ =>
    replace y with (state_of (after_call (history_register c) (Z.of_nat (length args)) (p s0)))
      by (unfold s0, c0, actuals; now destruct (Z.of_nat (length args) =? _)) end.
  unfold below in D.
  apply after_call_sound with (s := s0); cbn [stack_pointer stack rest s0]; auto; try lia.
  - unfold PRIMITIVE_N_ARGUMENTS, PRIMITIVE_ARITY. unfold c0, actuals. cbn [LEXPR_ACTUALS set_primitive].
    destruct (Z.eqb_spec (Z.of_nat (length args)) (Primitive_Arity_Table (OBJECT_DATUM f))) as [Y|Y].
    + destruct (Z.eqb_spec (Primitive_Arity_Table (OBJECT_DATUM f)) LEXPR_PRIMITIVE_ARITY); lia.
    + cbn in G. apply negb_false_iff in G. now rewrite G.
  - eapply primitive_behaves; [eassumption|exact E|exact Q|..]; cbn [stack_pointer stack rest s0]; auto; lia.
Qed.

(** ** Application *)

Notation perform := (perform memory_base stack_guard fixed_objects direct_primitive implemented Primitive_Arity_Table).

Lemma applicable_primitive f : applicable_type (OBJECT_TYPE f) = A_primitive -> OBJECT_TYPE f = TC_PRIMITIVE.
Proof.
  unfold applicable_type. intros H.
  repeat match type of H with (if ?a =? ?k then _ else _) = _ => destruct (Z.eqb_spec a k); [try congruence|] end. discriminate.
Qed.

Lemma perform_sound f args v e x r d st sp K c :
  sp <= stack_end -> d = below sp args -> frame st d f args -> above sp K st ->
  sim (S n) (At perform_application (mk_interp v e x r d st c)) sp K (perform rec f args sp c).
Proof.
  intros S D F A. destruct (frame_parts _ _ _ _ F) as (F1 & F2 & F3). stepped.
  cbv beta iota zeta delta [step_state step apply_dispatch seq APPLY_FRAME_PROCEDURE STACK_REF get stack stack_pointer]. rewrite F2.
  unfold Direct.perform. destruct (applicable_type (OBJECT_TYPE f)) eqn:T.
  - now apply entity_sound.
  - now apply procedure_sound.
  - unfold frame_size. cbv beta iota zeta delta [apply_control_point seq APPLY_FRAME_SIZE STACK_REF get pure stack stack_pointer].
    rewrite Z.add_0_r, F1. destruct (negb _); [now eapply application_error_sound; eauto|exact I].
  - apply primitive_sound; auto. now apply applicable_primitive.
  - now apply extended_procedure_sound.
  - now eapply application_error_sound; eauto.
Qed.

End Application.
