(* ===== verification/DirectPrims.v ===== *)
(** * Primitives in direct style (for Control.v, Direct.v)

    Some of the primitives of hooks.c as functions from their arguments to an
    effect, with the proof that the primitive has that effect. *)

From Stdlib Require Import ZArith List Lia Bool.
From S2P Require Import Prelude.
From S2P Require Import HeapArg.
From S2P Require Import Bignum.
From S2P Require Import BignumSpec.
From S2P Require Import Object.
From S2P Require Import Integer.
From S2P Require Import IntPrim.
From S2P Require Import Memory.
From S2P Require Import Heap.
From S2P Require Import Environment.
From S2P Require Import Stack.
From S2P Require Import History.
From S2P Require Import Signal.
From S2P Require Import Control.
From S2P Require Import Interp.
From S2P Require Import Direct.
From S2P Require Import DirectSim.
Import ListNotations.

Section Primitives.
Variable memory_base : Z.
Variables stack_start stack_guard : Z.
Variable fuel : nat.

(** ** Effects *)

Definition direct_GC (amount : Z) (c : core) : effect :=
  if (Free_primitive c <? heap_start (heap c)) || (Free (heap c) <? Free_primitive c)
  then Fails (Microcode_Termination 12)
  else Interrupts (REQUEST_GC (amount + (Free (heap c) - Free_primitive c)) c).

Definition direct_error (e : prim_error) (c : core) : effect :=
  match e with
  | error_wrong_type_arg n => Signals (wrong_type_code n) c
  | error_bad_range_arg n => Signals (bad_range_code n) c
  | error_external_return => Signals ERR_EXTERNAL_RETURN c
  | Primitive_GC n => direct_GC n c
  end.

(** A primitive whose argument is a word of interrupt bits. *)
Definition direct_ulong (k : Z -> core -> effect) (args : list Z) (sp : Z) (c : core) : effect :=
  match args with
  | [w] =>
      match arg_ulong_integer 1 (integer_object memory_base (core_memory c) w) with
      | PRIMITIVE_RETURN n => k n c
      | PRIMITIVE_ERROR e => direct_error e c
      end
  | _ => Escapes
  end.

Definition direct_get_interrupt_enables (args : list Z) (sp : Z) (c : core) : effect :=
  match args with [] => Returns (ULONG_TO_FIXNUM (INT_MASK c)) c | _ => Escapes end.
Definition direct_set_interrupt_enables : list Z -> Z -> core -> effect :=
  direct_ulong (fun n c => Returns (ULONG_TO_FIXNUM (INT_MASK c)) (SET_INTERRUPT_MASK (n & INT_Mask) c)).
Definition direct_clear_interrupts : list Z -> Z -> core -> effect :=
  direct_ulong (fun n c => Returns UNSPECIFIC_OBJECT (CLEAR_INTERRUPT (n & INT_Mask) c)).
Definition direct_disable_interrupts : list Z -> Z -> core -> effect :=
  direct_ulong (fun n c => Returns (ULONG_TO_FIXNUM (INT_MASK c)) (SET_INTERRUPT_MASK (INT_MASK c &~ (n & INT_Mask)) c)).
Definition direct_enable_interrupts : list Z -> Z -> core -> effect :=
  direct_ulong (fun n c => Returns (ULONG_TO_FIXNUM (INT_MASK c)) (SET_INTERRUPT_MASK (INT_MASK c .| (n & INT_Mask)) c)).
Definition direct_request_interrupts : list Z -> Z -> core -> effect :=
  direct_ulong (fun n c => Returns UNSPECIFIC_OBJECT (REQUEST_INTERRUPT (n & INT_Mask) c)).

Definition direct_scode_eval (args : list Z) (sp : Z) (c : core) : effect :=
  match args with
  | [expression; environment] =>
      if ENVIRONMENT_P environment then Evaluates expression environment c else Signals (wrong_type_code 2) c
  | _ => Escapes
  end.

(** A promise whose value is known. *)
Definition direct_force (args : list Z) (sp : Z) (c : core) : effect :=
  match args with
  | [thunk] =>
      if negb (PROMISE_P thunk) then Signals (wrong_type_code 1) c
      else if core_memory c (MEMORY_LOC memory_base thunk THUNK_SNAPPED) =? SHARP_T
           then Returns (core_memory c (MEMORY_LOC memory_base thunk THUNK_VALUE)) c
           else Escapes
  | _ => Escapes
  end.

(** The elements of a list of [n]. *)
Fixpoint elements (n : nat) (m : memory) (l : Z) : list Z :=
  match n with
  | O => []
  | S n => m (PAIR_CAR_LOC memory_base l) :: elements n m (m (PAIR_CDR_LOC memory_base l))
  end.

Definition direct_apply (args : list Z) (sp : Z) (c : core) : effect :=
  match args with
  | [procedure; l] =>
      match list_walk memory_base fuel (core_memory c) l l 0 with
      | Long_list => Fails Walk_fuel
      | Circular => Signals (bad_range_code 2) c
      | Improper => Signals (wrong_type_code 2) c
      | Length n_args =>
          if negb (SP_OK_P stack_guard (sp - 2 - (n_args + 2))) then Signals (bad_range_code 2) c
          else Applies procedure (elements (Z.to_nat n_args) (core_memory c) l) c
      end
  | _ => Escapes
  end.

(** ** The primitives have these effects *)

Lemma wrong_type_nonneg n : 0 <= wrong_type_code n.
Proof.
  unfold wrong_type_code. destruct (Z.leb_spec 1 n), (Z.leb_spec n 3), (Z.leb_spec 4 n), (Z.leb_spec n 10); cbn [andb]; lia.
Qed.

Lemma bad_range_nonneg n : 0 <= bad_range_code n.
Proof.
  unfold bad_range_code. destruct (Z.leb_spec 1 n), (Z.leb_spec n 3), (Z.leb_spec 4 n), (Z.leb_spec n 10); cbn [andb]; lia.
Qed.

Lemma arg_ref s args i a :
  nth_error args (Z.to_nat (i - 1)) = Some a -> 1 <= i -> words_at (stack s) (stack_pointer s) args -> ARG_REF i s = Returning a s.
Proof.
  intros H L W. unfold ARG_REF, doing, STACK_REF, get. rewrite W.
  - unfold list_memory. now rewrite (nth_error_nth _ _ _ H).
  - assert (Z.to_nat (i - 1) < length args)%nat by (apply nth_error_Some; congruence). lia.
Qed.

Lemma set_rest_same s : set_rest s (rest s) = s.
Proof. now destruct s. Qed.

(** The state of the argument is kept. *)
Lemma kept_state s sp (args : list Z) :
  stack_pointer s = sp - Z.of_nat (length args) ->
  s = mk_interp (VAL s) (ENV s) (EXPR s) (RETURN s) (sp - Z.of_nat (length args)) (stack s) (rest s).
Proof. intros <-. now destruct s. Qed.

Lemma signals_behaves {r} s sp (args : list Z) code :
  r = @Aborting Z code s -> 0 <= code -> stack_pointer s = sp - Z.of_nat (length args) -> behaves r sp args s (Signals code (rest s)).
Proof.
  intros -> L D. exists (VAL s), (ENV s), (EXPR s), (RETURN s), (stack s).
  rewrite <- (kept_state s sp args D). repeat split; auto using above_refl.
Qed.

Lemma returns_behaves s sp (args : list Z) v c :
  stack_pointer s = sp - Z.of_nat (length args) -> behaves (Returning v (set_rest s c)) sp args s (Returns v c).
Proof.
  intros D. exists (VAL s), (ENV s), (EXPR s), (RETURN s), (stack s). split; [|apply above_refl].
  unfold set_rest. now rewrite D.
Qed.

Lemma error_behaves s sp (args : list Z) e :
  stack_pointer s = sp - Z.of_nat (length args) -> behaves (@signal_prim_error Z e s) sp args s (direct_error e (rest s)).
Proof.
  intros D. destruct e as [n|n| |n]; cbn [direct_error].
  - now apply signals_behaves; [|apply wrong_type_nonneg|].
  - now apply signals_behaves; [|apply bad_range_nonneg|].
  - now apply signals_behaves; [|lia|].
  - unfold direct_GC. cbn [signal_prim_error]. unfold request_primitive_GC.
    destruct (Free_primitive (rest s) <? heap_start (heap (rest s))); [reflexivity|].
    destruct (Free (heap (rest s)) <? Free_primitive (rest s)); [reflexivity|]. cbn [orb].
    exists (VAL s), (ENV s), (EXPR s), (RETURN s), (stack s). unfold set_rest. rewrite D. repeat split; apply above_refl.
Qed.

Lemma error_aborts {A B} e (k : A -> P B) s : pseq (signal_prim_error e) k s = signal_prim_error e s.
Proof.
  destruct e; try reflexivity. cbn [signal_prim_error]. unfold request_primitive_GC, pseq.
  destruct (_ <? _); [reflexivity|]. now destruct (_ <? _).
Qed.

Lemma arg_ulong_at s args sp w :
  args = [w] -> words_at (stack s) (stack_pointer s) args -> stack_pointer s = sp - 1 ->
  arg_ulong memory_base 1 s = of_prim (arg_ulong_integer 1 (integer_object memory_base (core_memory (rest s)) w)) s.
Proof.
  intros -> W D. unfold arg_ulong, pseq. rewrite (arg_ref s [w] 1 w); [reflexivity|reflexivity|lia|exact W].
Qed.

(** The primitives on interrupt bits. *)
Lemma ulong_behaves p (q : interp -> Z -> P Z) k :
  (forall s, p s = pseq (arg_ulong memory_base 1) (q s) s) ->
  (forall n s, exists v c, q s n s = Returning v (set_rest s c) /\ k n (rest s) = Returns v c) ->
  behaves_as p (direct_ulong k).
Proof.
  intros Hp Hk args sp s _ D W _. destruct args as [|w [|w' args]]; [exact I| |exact I].
  cbn [direct_ulong]. rewrite Hp. unfold pseq. rewrite (arg_ulong_at s [w] sp w) by auto.
  destruct (arg_ulong_integer 1 _) as [n|e]; cbn [of_prim].
  - unfold returning. destruct (Hk n s) as (v & c & -> & ->). now apply returns_behaves.
  - pose proof (error_aborts e (q s) s) as H. unfold pseq in H. rewrite H. now apply error_behaves.
Qed.

Ltac interrupt_primitive := eapply ulong_behaves; [reflexivity|intros n s; do 2 eexists; split; reflexivity].

Lemma get_interrupt_enables_behaves : behaves_as Prim_get_interrupt_enables direct_get_interrupt_enables.
Proof.
  intros args sp s _ D W _. destruct args as [|w args]; [|exact I].
  replace (Prim_get_interrupt_enables s) with (Returning (ULONG_TO_FIXNUM (INT_MASK (rest s))) (set_rest s (rest s)))
    by (now destruct s). now apply returns_behaves.
Qed.

Lemma set_interrupt_enables_behaves : behaves_as (Prim_set_interrupt_enables memory_base) direct_set_interrupt_enables.
Proof. interrupt_primitive. Qed.
Lemma clear_interrupts_behaves : behaves_as (Prim_clear_interrupts memory_base) direct_clear_interrupts.
Proof. interrupt_primitive. Qed.
Lemma disable_interrupts_behaves : behaves_as (Prim_disable_interrupts memory_base) direct_disable_interrupts.
Proof. interrupt_primitive. Qed.
Lemma enable_interrupts_behaves : behaves_as (Prim_enable_interrupts memory_base) direct_enable_interrupts.
Proof. interrupt_primitive. Qed.
Lemma request_interrupts_behaves : behaves_as (Prim_request_interrupts memory_base) direct_request_interrupts.
Proof. interrupt_primitive. Qed.

Lemma canonical_context s :
  OBJECT_TYPE (PRIMITIVE (rest s)) = TC_PRIMITIVE -> canonicalize_primitive_context s = Returning tt s.
Proof. unfold canonicalize_primitive_context, PRIMITIVE_P. now intros ->. Qed.

Lemma scode_eval_behaves : behaves_as Prim_scode_eval direct_scode_eval.
Proof.
  intros args sp s _ D W T. destruct args as [|a [|b [|x args]]]; [exact I..| |exact I].
  unfold Prim_scode_eval, pseq. rewrite canonical_context by assumption.
  rewrite (arg_ref s [a; b] 1 a), (arg_ref s [a; b] 2 b) by (auto; lia).
  cbn [direct_scode_eval]. unfold primitive_check. destruct (ENVIRONMENT_P b).
  - exists (VAL s), (RETURN s), (stack s). split; [|apply above_refl]. cbn.
    replace (stack_pointer s + 2) with sp by (rewrite D; cbn [length]; lia). reflexivity.
  - now apply signals_behaves; [|apply wrong_type_nonneg|].
Qed.

Lemma force_behaves : behaves_as (Prim_force memory_base stack_start stack_guard) direct_force.
Proof.
  intros args sp s _ D W T. destruct args as [|a [|x args]]; [exact I| |exact I].
  unfold Prim_force, pseq. rewrite (arg_ref s [a] 1 a) by (auto; lia). cbn [direct_force]. unfold primitive_check.
  destruct (PROMISE_P a); cbn [negb]; [|now apply signals_behaves; [|apply wrong_type_nonneg|]].
  cbv beta iota delta [returning memory_word doing MEM get].
  destruct (core_memory (rest s) (MEMORY_LOC memory_base a THUNK_SNAPPED) =? SHARP_T); [|exact I].
  pose proof (returns_behaves s sp [a] (core_memory (rest s) (MEMORY_LOC memory_base a THUNK_VALUE)) (rest s) D) as H.
  now rewrite set_rest_same in H.
Qed.

(** *** [apply] *)

Lemma elements_length n m l : length (elements n m l) = n.
Proof. revert l. induction n as [|n IH]; intros l; cbn [elements length]; auto. Qed.

Lemma spread_other n m st a l b : b < a \/ a + Z.of_nat n <= b -> spread memory_base n m st a l b = st b.
Proof.
  revert st a l. induction n as [|n IH]; intros st a l H; cbn [spread]; [reflexivity|].
  rewrite IH by lia. apply store_other. lia.
Qed.

Lemma spread_words n m st a l : words_at (spread memory_base n m st a l) a (elements n m l).
Proof.
  revert st a l. induction n as [|n IH]; intros st a l; cbn [spread elements]; [apply words_at_nil|].
  apply stack_words_cons. split; [|apply IH]. rewrite spread_other by lia. apply store_same.
Qed.

Lemma list_walk_nonneg n m p1 p2 k n_args : 0 <= k -> list_walk memory_base n m p1 p2 k = Length n_args -> 0 <= n_args.
Proof.
  revert p1 p2 k. induction n as [|n IH]; intros p1 p2 k Hk; cbn [list_walk]; [discriminate|].
  repeat match goal with |- context [if ?b then _ else _] => destruct b end; intros H; try discriminate;
    try (injection H as <-; lia). eapply IH; [|exact H]. lia.
Qed.

Lemma apply_behaves :
  0 <= stack_guard -> behaves_as (Prim_apply memory_base stack_guard fuel) direct_apply.
Proof.
  intros G args sp s L D W T. destruct args as [|f [|l [|x args]]]; [exact I..| |exact I].
  unfold Prim_apply, pseq. rewrite (arg_ref s [f; l] 1 f), (arg_ref s [f; l] 2 l) by (auto; lia).
  cbv beta iota delta [doing get]. cbn [direct_apply].
  destruct (list_walk memory_base fuel (core_memory (rest s)) l l 0) as [n| | |] eqn:E;
    [|now apply signals_behaves; [|apply bad_range_nonneg|]|now apply signals_behaves; [|apply wrong_type_nonneg|]|reflexivity].
  apply list_walk_nonneg in E; [|lia].
  cbv beta iota delta [STACK_LOC get]. rewrite D. cbn [length]. replace (sp - Z.of_nat 2 + - (n + 2)) with (sp - 2 - (n + 2)) by lia.
  destruct (SP_OK_P stack_guard (sp - 2 - (n + 2))) eqn:O; cbn [negb]; [|now apply signals_behaves; [|apply bad_range_nonneg|]].
  unfold SP_OK_P in O. apply Z.leb_le in O. destruct s as [v e x r d st c]. cbn [stack_pointer stack rest length] in *.
  exec. unfold push_list. exec. cbv beta iota delta [PRIMITIVE_ABORT].
  replace (d + 2 - n - 1 - 1) with (below sp (elements (Z.to_nat n) (core_memory c) l)) by (unfold below; rewrite elements_length; lia).
  exists v, e, x, r. eexists. split; [reflexivity|]. unfold below. rewrite elements_length. replace (d + 2) with sp by lia. split.
  - split; rewrite ?elements_length; [look; rewrite datum_of; lia|].
    apply stack_words_cons. split; [seen|]. repeat (apply words_at_store; [rewrite ?elements_length; lia|]).
    eapply words_at_eq, spread_words. lia.
  - intros a Ha. look. apply spread_other. lia.
Qed.

End Primitives.
