(* ===== verification/DirectProps.v ===== *)
(** * The interpreter and the direct evaluator: the theorem (for Interp.v, Direct.v)

    Every outcome of the direct evaluator is what the interpreter does.

    The program is [((lambda (x) (if #f 5 x)) (scode-eval '7 the-environment))]
    as SCode, in a memory that begins at address 0. *)

From Stdlib Require Import ZArith List Lia Bool.
From S2P Require Import Prelude.
From S2P Require Import Object.
From S2P Require Import Memory.
From S2P Require Import Heap.
From S2P Require Import Symbol.
From S2P Require Import Environment.
From S2P Require Import Stack.
From S2P Require Import History.
From S2P Require Import Signal.
From S2P Require Import Control.
From S2P Require Import Interp.
From S2P Require Import Direct.
From S2P Require Import DirectSim.
From S2P Require Import DirectEval.
From S2P Require Import DirectApply.
From S2P Require Import DirectPrims.
Import ListNotations.

Section Refinement.
Variable memory_base : Z.
Variables stack_start stack_end stack_guard : Z.
Variable fixed_objects : Z.
Variable Primitive_Procedure_Table : Z -> option (P Z).
Variable Primitive_Arity_Table : Z -> Z.
Variable critical_section_hook : M unit.
Variable direct_primitive : Z -> option (list Z -> Z -> core -> effect).
Variable fuel : nat.
Notation implemented := (implemented Primitive_Procedure_Table).
Notation body := (body memory_base stack_end stack_guard fixed_objects direct_primitive implemented Primitive_Arity_Table fuel).
Notation sim := (sim memory_base stack_start stack_end stack_guard fixed_objects Primitive_Procedure_Table
  Primitive_Arity_Table critical_section_hook fuel).
Notation sound := (sound memory_base stack_start stack_end stack_guard fixed_objects Primitive_Procedure_Table
  Primitive_Arity_Table critical_section_hook fuel).
Notation entry := (entry memory_base stack_start stack_end stack_guard fixed_objects).

Notation direct := (direct memory_base stack_end stack_guard fixed_objects direct_primitive implemented Primitive_Arity_Table fuel).
Notation run_steps := (run_steps memory_base stack_start stack_end stack_guard fixed_objects Primitive_Procedure_Table
  Primitive_Arity_Table critical_section_hook fuel).

Notation step_state := (step_state memory_base stack_start stack_end stack_guard fixed_objects
  Primitive_Procedure_Table Primitive_Arity_Table critical_section_hook fuel).
Notation SIGNAL_INTERRUPT := (SIGNAL_INTERRUPT memory_base stack_start stack_end stack_guard fixed_objects).

Hypothesis end_small : stack_end < 2 ^ 57.
Hypothesis guard_nonneg : 0 <= stack_guard.
Context `{!Primitives Primitive_Procedure_Table direct_primitive}.

Lemma eval_sound n rec exp env sp K c v r st :
  sound n rec -> sp <= stack_end -> above sp K st ->
  sim (S n) (At do_expression (mk_interp v env exp r sp st c)) sp K (body rec (T_eval exp env) sp c).
Proof.
  intros H S A. cbn [Direct.body]. steps. destruct (trapper memory_base fixed_objects c 0) as [t|]; [|called].
  roomy. called. framed.
Qed.

Lemma return_sound n rec v e x sp K c r st :
  sound n rec -> sp <= stack_end -> above sp K st ->
  sim (S n) (At pop_return (mk_interp v e x r sp st c)) sp K (body rec (T_return v) sp c).
Proof.
  intros H S A. cbn [Direct.body]. steps. destruct (trapper memory_base fixed_objects c 2) as [t|].
  - roomy. called. framed.
  - exists 0%nat, e, x, r, st. now split.
Qed.

Lemma apply_sound n rec f args v e x sp K c r d st :
  sound n rec -> sp <= stack_end -> d = below sp args -> frame st d f args -> above sp K st ->
  sim (S n) (At internal_apply (mk_interp v e x r d st c)) sp K (body rec (T_apply f args) sp c).
Proof.
  intros H S D F A. cbn [Direct.body]. pose proof F as [F1 _]. steps. unfold below in *.
  destruct (trapper memory_base fixed_objects c 1) as [t|]; [|called; assumption].
  rewrite <- D, Z.add_0_r, F1. roomy. called. apply frame_extend; [lia|assumption].
Qed.

Lemma step_check v e x r d st c :
  step_state (At Apply_Non_Trapping (mk_interp v e x r d st c))
  = if PENDING_INTERRUPTS_P c
    then state_of (seq PREPARE_APPLY_INTERRUPT
           (fun _ => SIGNAL_INTERRUPT (PENDING_INTERRUPTS c)) (mk_interp v e x r d st c))
    else At perform_application (mk_interp v e x r d st c).
Proof.
  unfold step_state, step, state_of, apply_check, seq, get. cbn [rest].
  destruct (PENDING_INTERRUPTS_P c); reflexivity.
Qed.

Lemma check_sound n rec f args v e x sp K c r d st :
  sound n rec -> sp <= stack_end -> d = below sp args -> frame st d f args -> above sp K st ->
  sim (S n) (At Apply_Non_Trapping (mk_interp v e x r d st c)) sp K (body rec (T_check f args) sp c).
Proof.
  intros H S D F A. cbn [Direct.body]. stepped. rewrite step_check.
  destruct (PENDING_INTERRUPTS_P c); [|called; assumption]. now apply apply_interrupt_sound with (n := n).
Qed.

Lemma body_sound n rec : sound n rec -> sound (S n) (body rec).
Proof.
  intros H t sp K c x S E. destruct E; try subst d; cbn [lag]; rewrite ?Nat.sub_0_r, ?Nat.sub_succ, ?Nat.sub_0_r.
  - now apply eval_sound.
  - now eapply dispatch_sound.
  - now eapply operands_sound.
  - now apply return_sound.
  - now eapply access_sound.
  - now eapply assignment_sound.
  - now eapply definition_sound.
  - now apply apply_sound.
  - now apply check_sound.
  - now eapply perform_sound.
  - now eapply interrupt_sound.
  - now eapply pop_error_sound.
  - now eapply eval_error_sound.
Qed.

Lemma direct_sound n : sound n (direct n).
Proof.
  induction n as [|n IH]; [|now apply body_sound].
  intros t sp K c x S E m L. lia.
Qed.

(** ** The theorems *)

Notation Interpret := (Interpret false).

(** C1: the interpreter does what the direct evaluator does with the expression
    in [EXPR] and the environment in [ENV]: if the evaluator has a value, the
    interpreter comes to its continuation with that value, the same heap and
    registers, the stack pointer it began with and the stack above unchanged;
    if the evaluator terminates, so does the interpreter; as long as the
    evaluator has not finished, neither has the interpreter.  The primitives
    do what their direct counterparts do ([Primitives]), and where the
    evaluator answers [Leaves] (the stack comes near its end, a control point is
    applied, a primitive does more than return, signal, apply or evaluate, the
    header of a combination has changed) nothing is said. *)
Theorem interpreter_refines_direct n s :
  stack_pointer s <= stack_end ->
  match direct n (T_eval (EXPR s) (ENV s)) (stack_pointer s) (rest s) with
  | Value_is v c =>
      exists m s', run_steps m (At do_expression s) = At pop_return_non_trapping s'
        /\ VAL s' = v /\ rest s' = c /\ stack_pointer s' = stack_pointer s
        /\ forall a, stack_pointer s <= a -> stack s' a = stack s a
  | Halts e => exists m, run_steps m (At do_expression s) = Stopped e
  | Leaves => True
  | Out_of_fuel => forall m, (2 * m + 2 <= n)%nat -> exists l s', run_steps m (At do_expression s) = At l s'
  end.
Proof.
  intros S. destruct s as [v e x r sp st c]. cbn [EXPR ENV stack_pointer rest stack] in *.
  pose proof (direct_sound n (T_eval x e) sp st c (At do_expression (mk_interp v e x r sp st c)) S) as H.
  cbn [lag] in H. rewrite Nat.sub_0_r in H. specialize (H ltac:(constructor; [reflexivity|apply above_refl])).
  destruct (direct n (T_eval x e) sp c); [|exact H..].
  destruct H as (m & e' & w & r' & st' & H & A). exists m. eexists. split; [exact H|]. now repeat split.
Qed.


End Refinement.

(** ** The theorems on a small program (for Interp.v, Direct.v) *)

Notation vector_header n := (MAKE_OBJECT 0 n).
Notation symbol a := (MAKE_OBJECT 29 a).
Notation fixnum_object n := (MAKE_OBJECT TC_FIXNUM n).

Definition program_words : list Z := [
  0;
  vector_header 2; MAKE_OBJECT 23 4; MAKE_OBJECT 38 14;
  MAKE_OBJECT 52 6; MAKE_OBJECT TC_LIST 9;
  SHARP_F; fixnum_object 5; MAKE_OBJECT TC_VARIABLE 12;
  vector_header 2; symbol 18; symbol 18;
  symbol 18; 0;
  vector_header 3; MAKE_OBJECT TC_PRIMITIVE 1; MAKE_OBJECT 3 20; MAKE_OBJECT 45 0;
  0; 0;
  fixnum_object 7; 0;
  0; 0; MAKE_OBJECT 32 22;
  MAKE_OBJECT 32 22; MAKE_OBJECT 32 25; MAKE_OBJECT 32 25
].

Definition program_core : core :=
  mk_core (mk_machine (list_memory program_words) 100 28 1000 true) 1000 0 0 0 25 0 false false false SHARP_F 0 0 0 0 1.
Definition program_state : interp :=
  mk_interp 0 (MAKE_OBJECT TC_ENVIRONMENT 0) (MAKE_OBJECT 38 1) 0 4000
    (store (fun _ => 0) 4000 (MAKE_RETURN_CODE RC_END_OF_COMPUTATION)) program_core.

Definition primitive_table (n : Z) : option (P Z) := if n =? 1 then Some Prim_scode_eval else None.
Definition direct_table (n : Z) : option (list Z -> Z -> core -> effect) := if n =? 1 then Some direct_scode_eval else None.
Definition arity_table (n : Z) : Z := 2.

#[export] Instance table_behaves : Primitives primitive_table direct_table.
Proof.
  split. intros n p d. unfold primitive_table, direct_table. destruct (n =? 1); [|discriminate].
  intros [= <-] [= <-]. apply scode_eval_behaves.
Qed.

Notation direct_program n c :=
  (direct 0 4096 0 SHARP_F direct_table (implemented primitive_table) arity_table 10 n
     (T_eval (EXPR program_state) (ENV program_state)) (stack_pointer program_state) c).
Definition value_of (o : outcome) : option (Z * nat) :=
  match o with Value_is v c => Some (v, interpreter_states c) | _ => None end.

Notation program_steps := (run_steps 0 0 4096 0 SHARP_F primitive_table arity_table (pure tt) 10).
Notation nested c := (set_interpreter_states c (S (interpreter_states c))).

Lemma value_of_some o v k : value_of o = Some (v, k) -> exists c, o = Value_is v c /\ interpreter_states c = k.
Proof. destruct o as [w c| | |]; [|discriminate..]. intros [= <- <-]. now exists c. Qed.

Lemma direct_value : value_of (direct_program 40 (rest program_state)) = Some (fixnum_object 7, 1%nat).
Proof. vm_compute. reflexivity. Qed.


Lemma program_stack : stack_pointer program_state <= 4096.
Proof. vm_compute. discriminate. Qed.



(** ** A program that does not end

    The expression is a comment on itself. *)

Definition endless_words : list Z :=
  [0; MAKE_OBJECT 21 1; SHARP_F; SHARP_F; MAKE_OBJECT 32 2; MAKE_OBJECT 32 2; MAKE_OBJECT 32 5; MAKE_OBJECT 32 5].
Definition endless_core : core :=
  mk_core (mk_machine (list_memory endless_words) 100 8 1000 true) 1000 0 0 0 5 0 false false false SHARP_F 0 0 0 0 1.
Definition endless_state : interp :=
  mk_interp 0 (MAKE_OBJECT TC_ENVIRONMENT 0) (MAKE_OBJECT 21 1) 0 4000 (fun _ => 0) endless_core.

(** What each reduction keeps. *)
Definition endless (c : core) : Prop :=
  core_memory c 1 = MAKE_OBJECT 21 1 /\ core_memory c 4 = MAKE_OBJECT 32 2 /\ core_memory c 5 = MAKE_OBJECT 32 2
  /\ history_register c = 5 /\ trapping c = false.

Notation direct_endless n c :=
  (direct 0 4096 0 SHARP_F direct_table (implemented primitive_table) arity_table 10 n
     (T_eval (MAKE_OBJECT 21 1) (MAKE_OBJECT TC_ENVIRONMENT 0)) 4000 c).

Lemma endless_reduction e c : endless c -> endless (new_reduction 0 (MAKE_OBJECT 21 1) e c).
Proof.
  intros (H1 & H4 & H5 & H & T). unfold endless, new_reduction, write_rib.
  change (MEMORY_LOC 0 ?o ?i) with (OBJECT_ADDRESS 0 o + i). rewrite H.
  change (5 + HIST_RIB) with 5. rewrite H5. 
  change (OBJECT_ADDRESS 0 (MAKE_OBJECT 32 2) + RIB_NEXT_REDUCTION) with 4. rewrite H4.
  change (OBJECT_ADDRESS 0 (MAKE_OBJECT 32 2)) with 2.
  repeat split; try assumption.
  change (store (store (store (store (core_memory c) 5 (MAKE_POINTER_OBJECT 0 32 2)) (2 + 1) e) (2 + 0) (MAKE_OBJECT 21 1)) (2 + 2)
    (HISTORY_UNMARK (core_memory c 4)) 4 = MAKE_OBJECT 32 2). now rewrite H4.
Qed.

Lemma endless_eval n c : endless c -> direct_endless n c = Out_of_fuel.
Proof.
  assert (D : forall n c, endless c -> direct_endless (S (S n)) c = direct_endless n (new_reduction 0 (MAKE_OBJECT 21 1) (MAKE_OBJECT TC_ENVIRONMENT 0) c)).
  { intros k d (H1 & _ & _ & _ & T). cbn [direct body]. unfold trapper. rewrite T. cbn [andb]. cbn [direct body].
    unfold dispatch, reduce, slot. change (scode_type (OBJECT_TYPE (MAKE_OBJECT 21 1))) with S_comment.
    change (MEMORY_LOC 0 (MAKE_OBJECT 21 1) 0) with 1. cbv beta iota. now rewrite H1. }
  enough (H : forall n c, endless c -> direct_endless n c = Out_of_fuel /\ direct_endless (S n) c = Out_of_fuel)
    by (intros E; now apply H).
  clear n c. induction n as [|n IH]; intros c E.
  - split; [reflexivity|]. destruct E as (_ & _ & _ & _ & T). cbn [direct body]. unfold trapper. now rewrite T.
  - split; [now apply IH|]. rewrite D by assumption. apply IH. now apply endless_reduction.
Qed.

(** The first program has a value, and the second never leaves the loop. *)
Lemma interpreter_refines_direct_witness :
  (stack_pointer program_state <= 4096 /\
   exists m s', program_steps m (At do_expression program_state) = At pop_return_non_trapping s' /\ VAL s' = fixnum_object 7)
  /\ forall m, exists l s', program_steps m (At do_expression endless_state) = At l s'.
Proof.
  pose proof (interpreter_refines_direct 0 0 4096 0 SHARP_F primitive_table arity_table (pure tt) direct_table 10
    ltac:(lia) ltac:(lia)) as R. split.
  - split; [exact program_stack|]. pose proof (R 40%nat program_state program_stack) as H.
    destruct (value_of_some _ _ _ direct_value) as (c & D & _). rewrite D in H.
    destruct H as (m & s' & H & V & _). exists m, s'. split; [exact H|exact V].
  - intros m. assert (E : endless endless_core) by (repeat split; vm_compute; reflexivity).
    pose proof (R (2 * m + 2)%nat endless_state ltac:(vm_compute; discriminate)) as H.
    cbn [EXPR ENV stack_pointer rest endless_state] in H. rewrite (endless_eval (2 * m + 2) endless_core E) in H.
    apply (H m). lia.
Defined.
