(* ===== verification/ControlProps.v ===== *)
(** * Catch and throw (for Control.v)

    [Prim_catch] moves the stack into a control point, and applying the control
    point puts it back. *)

From Stdlib Require Import ZArith List Lia Bool.
From S2P Require Import Prelude.
From S2P Require Import Object.
From S2P Require Import Memory.
From S2P Require Import Heap.
From S2P Require Import EnvSpec.
From S2P Require Import Stack.
From S2P Require Import History.
From S2P Require Import Signal.
From S2P Require Import Control.
From S2P Require Import Interp.
From S2P Require Import Direct.
From S2P Require Import DirectSim.
From S2P Require Import DirectPrims.
Import ListNotations.

(** ** Words moved between the stack and the heap *)

Lemma copy_words_other n from sp to scan a : a < scan \/ scan + Z.of_nat n <= a -> copy_words n from sp to scan a = to a.
Proof.
  revert sp to scan. induction n as [|n IH]; intros sp to scan H; cbn [copy_words]; [reflexivity|].
  rewrite IH by lia. apply store_other. lia.
Qed.

Lemma copy_words_at n from sp to scan i :
  0 <= i < Z.of_nat n -> copy_words n from sp to scan (scan + i) = from (sp + i).
Proof.
  revert sp to scan i. induction n as [|n IH]; intros sp to scan i H; [lia|]. cbn [copy_words].
  destruct (Z.eq_dec i 0) as [->|N].
  - rewrite copy_words_other by lia. rewrite !Z.add_0_r. apply store_same.
  - replace (scan + i) with (scan + 1 + (i - 1)) by lia. rewrite IH by lia. f_equal. lia.
Qed.

(** [push_words] pushes [n] words that end before [scan]. *)
Lemma push_words_spec n m scan v e x r sp st c :
  exists st', push_words n m scan (mk_interp v e x r sp st c)
    = Normal tt (mk_interp v e x r (sp - Z.of_nat n) st' c)
  /\ (forall i, 0 <= i < Z.of_nat n -> st' (sp - Z.of_nat n + i) = m (scan - Z.of_nat n + i))
  /\ above sp st st'.
Proof.
  revert scan sp st. induction n as [|n IH]; intros scan sp st.
  - exists st. cbn. rewrite Z.sub_0_r. split; [reflexivity|]. split; [lia|apply above_refl].
  - cbn [push_words]. unfold seq, STACK_PUSH, modify. cbn [VAL ENV EXPR RETURN stack_pointer stack rest].
    destruct (IH (scan - 1) (sp - 1) (store st (sp - 1) (m (scan - 1)))) as (st' & H & W & A).
    exists st'. rewrite H. split; [do 2 f_equal; lia|]. split.
    + intros i Hi. replace (sp - Z.of_nat (S n) + i) with (sp - 1 - Z.of_nat n + i) by lia.
      replace (scan - Z.of_nat (S n) + i) with (scan - 1 - Z.of_nat n + i) by lia.
      destruct (Z.eq_dec i (Z.of_nat n)) as [->|N]; [|apply W; lia].
      rewrite A by lia. replace (sp - 1 - Z.of_nat n + Z.of_nat n) with (sp - 1) by lia. rewrite store_same. f_equal. lia.
    + intros a Ha. rewrite A by lia. apply store_other. lia.
Qed.

Section Control.
Variable memory_base : Z.
Variables stack_start stack_end stack_guard : Z.
Variable fixed_objects : Z.
Notation addr := (OBJECT_ADDRESS memory_base).
Notation pointer := (MAKE_POINTER_OBJECT memory_base).
Notation Prim_catch := (Prim_catch memory_base stack_start stack_end stack_guard fixed_objects).
Notation unpack_control_point := (unpack_control_point memory_base stack_start stack_end stack_guard).
Variable Primitive_Procedure_Table : Z -> option (P Z).
Variable Primitive_Arity_Table : Z -> Z.
Variable critical_section_hook : M unit.
Variable fuel : nat.
Notation step_state := (step_state memory_base stack_start stack_end stack_guard fixed_objects
  Primitive_Procedure_Table Primitive_Arity_Table critical_section_hook fuel).
Notation READ_DUMMY_HISTORY := (READ_DUMMY_HISTORY memory_base fixed_objects).

(** ** Throw *)

Lemma unpack_spec cp n v e x r sp st c :
  0 <= n -> stack_guard <= stack_end + n ->
  VLENGTH memory_base (core_memory c) cp = n + 2 ->
  exists st', unpack_control_point cp (mk_interp v e x r sp st c)
    = Normal tt (mk_interp v e x r (stack_end - n) st' (CLEAR_INTERRUPT INT_Stack_Overflow c))
  /\ (forall i, 0 <= i < n -> st' (stack_end - n + i) = core_memory c (control_point_start memory_base cp + i)).
Proof.
  intros N G L. unfold Control.unpack_control_point, control_point_end. exec. rewrite L.
  unfold control_point_start, VECTOR_LOC, MEMORY_LOC. rewrite check_ok by lia.
  replace (addr cp + (n + 2 + 1) - (addr cp + (2 + 1))) with n by lia.
  destruct (push_words_spec (Z.to_nat n) (core_memory c) (addr cp + (n + 2 + 1)) v e x r stack_end st
    (CLEAR_INTERRUPT INT_Stack_Overflow c)) as (st' & H & W & _).
  rewrite Z2Nat.id in * by lia. exists st'. split; [exact H|].
  intros i Hi. rewrite W by lia. f_equal. lia.
Qed.

(** ** Catch *)

Lemma cleared_memory k c m : core_memory (CLEAR_INTERRUPT k (set_core_memory c m)) = m.
Proof. reflexivity. Qed.

(** The stack of a caller of [Prim_catch], with what it pushes before it moves
    the stack: the history and the interrupt mask. *)
Definition caught_stack (sp : Z) (st : memory) (c : core) : memory :=
  let st := store st sp SHARP_F in
  let st := store st (sp - 1) (ULONG_TO_FIXNUM (prev_restore_history_offset c)) in
  let st := store st (sp - 2) (pointer UNMARKED_HISTORY_TYPE (history_register c)) in
  let st := store st (sp - 3) (MAKE_RETURN_CODE RC_RESTORE_HISTORY) in
  let st := store st (sp - 4) (ULONG_TO_FIXNUM (INT_MASK c)) in
  store st (sp - 5) (MAKE_RETURN_CODE RC_RESTORE_INT_MASK).

Lemma catch_spec v e x r sp st c (n := stack_end - sp) :
  OBJECT_TYPE (PRIMITIVE c) = TC_PRIMITIVE ->
  sp < stack_end -> stack_guard <= sp - 5 ->
  GC_NEEDED_P (heap c) (1 + (CONTINUATION_SIZE + HISTORY_SIZE + (n - 1) + 2)) = false ->
  memory_base <= Free (heap c) < memory_base + 2 ^ 58 ->
  (sp + (1 + CONTINUATION_SIZE) =? stack_end) = false ->
  exists cp s', Prim_catch (mk_interp v e x r sp st c) = Aborting PRIM_APPLY s'
  /\ addr cp = Free (heap c) /\ OBJECT_TYPE cp = TC_CONTROL_POINT
  /\ stack_pointer s' = stack_end - 5 /\ frame (stack s') (stack_end - 5) (st sp) [cp]
  /\ cont (stack s') (stack_end - 2) RC_JOIN_STACKLETS cp
  /\ Free (heap (rest s')) = Free (heap c) + n + 8
  /\ core_memory (rest s') (addr cp) = MAKE_OBJECT TC_MANIFEST_VECTOR (n + 7)
  /\ (forall i, 0 <= i < n + 5 ->
        core_memory (rest s') (control_point_start memory_base cp + i) = caught_stack sp st c (sp - 5 + i)).
Proof.
  intros T S G A F J. subst n. unfold Control.Prim_catch, pseq. rewrite (canonical_context) by exact T.
  cbv beta iota zeta delta [ARG_REF doing returning PRIMITIVE_ABORT allocate_control_point].
  exec. rewrite J. cbn [andb]. exec. rewrite A. exec. repeat (rewrite check_ok by lia; exec).
  unfold empty_stack_into, join_stacklets. exec.
  set (cp := pointer TC_CONTROL_POINT (Free (heap c))).
  assert (P : addr cp = Free (heap c)) by (apply pointer_parts; lia).
  exists cp. eexists. split; [reflexivity|]. split; [exact P|].
  split; [apply pointer_parts; lia|]. cbn [stack_pointer stack rest].
  replace (sp + 1 - 1 - 1 - 1 - 1 - 1 - 1) with (sp - 5) by lia. replace (sp + 1 - 1 - 1 - 1 - 1 - 1) with (sp - 4) by lia.
  replace (sp + 1 - 1 - 1 - 1 - 1) with (sp - 3) by lia. replace (sp + 1 - 1 - 1 - 1) with (sp - 2) by lia.
  replace (sp + 1 - 1 - 1) with (sp - 1) by lia. replace (sp + 1 - 1) with sp by lia.
  match goal with |- context [copy_words ?k ?f] => change f with (caught_stack sp st c); set (count := k) end.
  assert (N : Z.of_nat count = stack_end - sp + 5) by (unfold count; lia). clearbody count.
  change (sp + (1 - 1)) with (sp + 0). rewrite Z.add_0_r. split; [lia|]. split; [framed|]. split; [split; seen|].
  split.
  { change (Free (heap c) + 1 + (2 + 4 + (stack_end - sp - 1) + 2) = Free (heap c) + (stack_end - sp) + 8). lia. }
  rewrite cleared_memory. unfold control_point_start, VECTOR_LOC, MEMORY_LOC. rewrite P. split.
  - rewrite copy_words_other by lia.
    change (store (store (store (mem (heap c)) (Free (heap c)) (MAKE_OBJECT 0 (2 + 4 + (stack_end - sp - 1) + 2)))
      (Free (heap c) + (0 + 1)) SHARP_F) (Free (heap c) + (1 + 1)) (MAKE_OBJECT 39 0) (Free (heap c)) = MAKE_OBJECT 0 (stack_end - sp + 7)).
    look. f_equal. lia.
  - intros i Hi. apply copy_words_at. lia.
Qed.

(** ** Catch and throw *)

Lemma step_control_point cp w v e x r d st c v' t' :
  frame st d cp [w] -> OBJECT_TYPE cp = TC_CONTROL_POINT ->
  unpack_control_point cp (mk_interp w e x r d st c) = Normal v' t' ->
  step_state (At perform_application (mk_interp v e x r d st c))
  = At pop_return (set_rest t' (reset_history memory_base fixed_objects (rest t'))).
Proof.
  intros [F W] T U. apply stack_words_cons in W as [W1 W2]. apply stack_words_cons in W2 as [W2 _].
  cbv beta iota zeta delta [Interp.step_state step apply_dispatch seq APPLY_FRAME_PROCEDURE STACK_REF get stack stack_pointer].
  rewrite W1, T. change (applicable_type TC_CONTROL_POINT) with A_control_point.
  unfold apply_control_point, seq, APPLY_FRAME_SIZE, STACK_REF, seq, get, pure. cbn [stack stack_pointer]. rewrite Z.add_0_r, F.
  change (Z.of_nat (length [w]) + 1) with 2. cbn [Z.eqb Pos.eqb negb].
  unfold SET_VAL, modify. cbn [VAL ENV EXPR RETURN stack_pointer stack rest].
  replace (d + 2) with (d + 1 + 1) by lia. rewrite W2, U. reflexivity.
Qed.

(** C12: the stack that [call-with-current-continuation] catches is the one that
    applying the control point puts back, with the argument as the value, as
    long as the words of the control point are left alone: the frames that
    restore the interrupt mask and the history of the time of the catch, and
    below them the caller's words.  The procedure is applied to the control
    point on an otherwise empty stack. *)
Theorem catch_then_throw v e x r sp st c :
  stack_end < 2 ^ 57 -> 0 <= stack_guard ->
  OBJECT_TYPE (PRIMITIVE c) = TC_PRIMITIVE -> sp < stack_end -> stack_guard <= sp - 5 ->
  GC_NEEDED_P (heap c) (1 + (CONTINUATION_SIZE + HISTORY_SIZE + (stack_end - sp - 1) + 2)) = false ->
  memory_base <= Free (heap c) < memory_base + 2 ^ 58 ->
  (sp + (1 + CONTINUATION_SIZE) =? stack_end) = false ->
  exists cp s', Prim_catch (mk_interp v e x r sp st c) = Aborting PRIM_APPLY s'
  /\ stack_pointer s' = stack_end - 5 /\ frame (stack s') (stack_end - 5) (st sp) [cp]
  /\ cont (stack s') (stack_end - 2) RC_JOIN_STACKLETS cp
  /\ forall t w,
       (forall a, Free (heap c) <= a < Free (heap (rest s')) -> core_memory (rest t) a = core_memory (rest s') a) ->
       frame (stack t) (stack_pointer t) cp [w] ->
       exists t', step_state (At perform_application t) = At pop_return t'
       /\ VAL t' = w /\ stack_pointer t' = sp - 5
       /\ rest t' = reset_history memory_base fixed_objects (CLEAR_INTERRUPT INT_Stack_Overflow (rest t))
       /\ cont (stack t') (sp - 5) RC_RESTORE_INT_MASK (ULONG_TO_FIXNUM (INT_MASK c))
       /\ cont (stack t') (sp - 3) RC_RESTORE_HISTORY (pointer UNMARKED_HISTORY_TYPE (history_register c))
       /\ stack t' (sp - 1) = ULONG_TO_FIXNUM (prev_restore_history_offset c)
       /\ forall a, sp < a < stack_end -> stack t' a = st a.
Proof.
  intros B N T S G A F J. destruct (catch_spec v e x r sp st c T S G A F J) as (cp & s' & H & P & Y & D & W & C & E & L & M).
  exists cp, s'. repeat split; try apply W; try apply C; auto. intros t w K Z.
  destruct t as [v1 e1 x1 r1 sp1 st1 c1]. cbn [rest stack stack_pointer] in K, Z.
  destruct (unpack_spec cp (stack_end - sp + 5) w e1 x1 r1 sp1 st1 c1) as (st' & U & Q); [lia|lia| |].
  { unfold VLENGTH, MEMORY_LOC. rewrite Z.add_0_r, K, L by lia. rewrite datum_of; lia. }
  assert (Q' : forall a, sp - 5 <= a < stack_end -> st' a = caught_stack sp st c a).
  { intros a Ha. replace a with (stack_end - (stack_end - sp + 5) + (a - (sp - 5))) at 1 by lia.
    rewrite Q by lia. unfold control_point_start, VECTOR_LOC, MEMORY_LOC in *. rewrite K by lia. rewrite M by lia. f_equal. lia. }
  eexists. split; [exact (step_control_point cp w v1 e1 x1 r1 sp1 st1 c1 tt _ Z Y U)|].
  unfold set_rest. cbn [VAL stack_pointer rest stack]. split; [reflexivity|]. split; [lia|]. split; [reflexivity|].
  repeat split; try intros a Ha; rewrite Q' by lia; unfold caught_stack; seen.
Qed.

End Control.

(** ** On a stack of ten words *)

Definition catch_core : core :=
  mk_core (mk_machine (fun _ => 0) 100 28 1000 true) 1000 3 0 0 25 0 false false false (MAKE_OBJECT TC_PRIMITIVE 0) 0 0 0 0 1.
Definition catch_stack : memory := list_memory (repeat 0 4090 ++ [11; 22; 33; 44; 55; 66]).

Lemma catch_then_throw_witness :
  GC_NEEDED_P (heap catch_core) (1 + (CONTINUATION_SIZE + HISTORY_SIZE + (4096 - 4090 - 1) + 2)) = false /\
  exists cp s', Prim_catch 0 0 4096 0 SHARP_F (mk_interp 0 0 0 0 4090 catch_stack catch_core) = Aborting PRIM_APPLY s'
  /\ forall w, exists t',
       step_state 0 0 4096 0 SHARP_F (fun _ => None) (fun _ => 0) (pure tt) 0
         (At perform_application (mk_interp 0 0 0 0 3000
           (store (store (store (stack s') 3000 (MAKE_OBJECT 0 2)) 3001 cp) 3002 w) (rest s'))) = At pop_return t'
       /\ VAL t' = w /\ stack_pointer t' = 4085 /\ forall a, 4090 < a < 4096 -> stack t' a = catch_stack a.
Proof.
  split; [reflexivity|].
  destruct (catch_then_throw 0 0 4096 0 SHARP_F (fun _ => None) (fun _ => 0) (pure tt) 0 0 0 0 0 4090 catch_stack catch_core)
    as (cp & s' & H & _ & _ & _ & T); [lia|lia|vm_compute; reflexivity|lia|lia|reflexivity|cbn; lia|reflexivity|].
  exists cp, s'. split; [exact H|]. intros w.
  destruct (T (mk_interp 0 0 0 0 3000 (store (store (store (stack s') 3000 (MAKE_OBJECT 0 2)) 3001 cp) 3002 w) (rest s')) w)
    as (t' & S & V & P & _ & _ & _ & _ & A).
  - intros a _. reflexivity.
  - split; [vm_compute; reflexivity|]. cbn [stack stack_pointer].
    apply stack_words_cons. split; [seen|]. apply stack_words_cons. split; [seen|apply words_at_nil].
  - exists t'. split; [exact S|]. split; [exact V|]. split; [exact P|exact A].
Defined.
