(* ===== verification/Regex.v ===== *)
(** * The regular expression matcher (src/src/microcode/regex.c, regex.h, syntax.h)

    [re_match] is an interpreter of compiled patterns with a stack of failure
    points.  It works on bytes: the pattern, the text with its gap and the
    translation table are in one memory, a pointer is an address and [NULL] is
    0.  The matcher changes the pattern: it replaces an opcode
    [maybe_finalize_jump] by the jump that it has decided on.

    An operation goes on, loses ([goto re_match_fail]) or returns.  The C code
    tests every read of the pattern that it makes by one of the macros
    READ_PATTERN, and none of the others; reading elsewhere reads the memory
    that is there.  [Undefined] is what has no meaning in C: a pop from the
    empty stack of failure points. *)

From Stdlib Require Import ZArith List Lia Bool.
From S2P Require Import Prelude.
From S2P Require Import Memory.
Import ListNotations.

Notation NULL := 0.
Notation RE_NREGS := 10.
Notation RE_NFAILURES := 512.
Notation MAX_ASCII := 256.
Notation ASCII_LENGTH := 8.
Notation newline := 10.

(** ** Opcodes *)

Inductive regexpcode :=
  | regexpcode_unused
  | regexpcode_exact_1
  | regexpcode_exact_n
  | regexpcode_line_start
  | regexpcode_line_end
  | regexpcode_jump
  | regexpcode_on_failure_jump
  | regexpcode_finalize_jump
  | regexpcode_maybe_finalize_jump
  | regexpcode_dummy_failure_jump
  | regexpcode_any_char
  | regexpcode_char_set
  | regexpcode_not_char_set
  | regexpcode_start_memory
  | regexpcode_stop_memory
  | regexpcode_duplicate
  | regexpcode_buffer_start
  | regexpcode_buffer_end
  | regexpcode_word_char
  | regexpcode_not_word_char
  | regexpcode_word_start
  | regexpcode_word_end
  | regexpcode_word_bound
  | regexpcode_not_word_bound
  | regexpcode_syntax_spec
  | regexpcode_not_syntax_spec.

Definition regexpcodes : list regexpcode :=
  [regexpcode_unused; regexpcode_exact_1; regexpcode_exact_n; regexpcode_line_start; regexpcode_line_end;
   regexpcode_jump; regexpcode_on_failure_jump; regexpcode_finalize_jump; regexpcode_maybe_finalize_jump;
   regexpcode_dummy_failure_jump; regexpcode_any_char; regexpcode_char_set; regexpcode_not_char_set;
   regexpcode_start_memory; regexpcode_stop_memory; regexpcode_duplicate; regexpcode_buffer_start;
   regexpcode_buffer_end; regexpcode_word_char; regexpcode_not_word_char; regexpcode_word_start;
   regexpcode_word_end; regexpcode_word_bound; regexpcode_not_word_bound; regexpcode_syntax_spec;
   regexpcode_not_syntax_spec].

(** The byte of an opcode, which is its place in the enumeration. *)
Definition opcode (c : regexpcode) : Z :=
  match c with
  | regexpcode_unused => 0 | regexpcode_exact_1 => 1 | regexpcode_exact_n => 2
  | regexpcode_line_start => 3 | regexpcode_line_end => 4 | regexpcode_jump => 5
  | regexpcode_on_failure_jump => 6 | regexpcode_finalize_jump => 7
  | regexpcode_maybe_finalize_jump => 8 | regexpcode_dummy_failure_jump => 9
  | regexpcode_any_char => 10 | regexpcode_char_set => 11 | regexpcode_not_char_set => 12
  | regexpcode_start_memory => 13 | regexpcode_stop_memory => 14 | regexpcode_duplicate => 15
  | regexpcode_buffer_start => 16 | regexpcode_buffer_end => 17 | regexpcode_word_char => 18
  | regexpcode_not_word_char => 19 | regexpcode_word_start => 20 | regexpcode_word_end => 21
  | regexpcode_word_bound => 22 | regexpcode_not_word_bound => 23 | regexpcode_syntax_spec => 24
  | regexpcode_not_syntax_spec => 25
  end.

(** The dispatch on a byte, [None] for the default case. *)
Definition SWITCH_ENUM (byte : Z) : option regexpcode :=
  find (fun c => opcode c =? byte) regexpcodes.

(** ** The buffer *)

(** The syntax table is the function that gives its 256 entries. *)
Record re_buffer := mk_re_buffer {
  translation : Z;
  syntax_table : Z -> Z;
  text : Z;
  text_start : Z;
  text_end : Z;
  gap_start : Z;
  gap_end : Z
}.

Definition re_buffer_initialize (translation : Z) (syntax_table : Z -> Z)
  (text text_start_index text_end_index gap_start_index gap_end_index : Z) : re_buffer :=
  let text_start := text + text_start_index in
  let text_end := text + text_end_index in
  let gap_start := text + gap_start_index in
  let gap_end := text + gap_end_index in
  mk_re_buffer translation syntax_table text
    (if text_start =? gap_start then gap_end else text_start)
    (if text_end =? gap_end then gap_start else text_end)
    gap_start gap_end.

(** [start] and [end] of [struct re_registers]. *)
Record re_registers := mk_re_registers { reg_start : Z -> Z; reg_end : Z -> Z }.

Notation syntaxcode_word := 2.
Notation syntaxcode_max := 13.

Definition SYNTAX_ENTRY_CODE (entry : Z) : Z := entry & 15.
Definition SYNTAX_TABLE_REF (table : Z -> Z) (index : Z) : Z := table (index & 255).
Definition SYNTAX_CONSTITUENT_P (syntax_table : Z -> Z) (code ascii : Z) : bool :=
  SYNTAX_ENTRY_CODE (SYNTAX_TABLE_REF syntax_table ascii) =? code.
Definition WORD_CONSTITUENT_P (syntax_table : Z -> Z) (ascii : Z) : bool :=
  SYNTAX_CONSTITUENT_P syntax_table syntaxcode_word ascii.

Definition TRANSLATE_CHAR (m : memory) (translation ascii : Z) : Z :=
  if translation =? NULL then ascii else m (translation + ascii).

Definition CHAR_SET_MEMBER_P_INTERNAL (m : memory) (char_set ascii : Z) : bool :=
  negb (m (char_set + ascii / ASCII_LENGTH) & Z.shiftl 1 (ascii mod ASCII_LENGTH) =? 0).
Definition CHAR_SET_MEMBER_P (m : memory) (length char_set ascii : Z) : bool :=
  (ascii <? length * ASCII_LENGTH) && CHAR_SET_MEMBER_P_INTERNAL m char_set ascii.

(** A byte as a [signed char]; on the targets that are modelled
    [SIGN_EXTEND_CHAR] is the identity. *)
Definition signed_char (byte : Z) : Z := if byte <? 128 then byte else byte - 256.

(** ** Reading the pattern

    What is read at [pattern_pc], and the new [pattern_pc]; [None] is
    [BAD_PATTERN]. *)

Section Reading.
Variables pattern_start pattern_end : Z.
Variable m : memory.

Definition READ_PATTERN_CHAR (pattern_pc : Z) : option (Z * Z) :=
  assert* pattern_pc <? pattern_end in
  Some (m pattern_pc, pattern_pc + 1).

Definition READ_PATTERN_OFFSET (pattern_pc : Z) : option (Z * Z) :=
  assert* pattern_pc + 1 <? pattern_end in
  let target := m pattern_pc + Z.shiftl (signed_char (m (pattern_pc + 1))) ASCII_LENGTH in
  let pattern_pc := pattern_pc + 2 in
  assert* negb ((pattern_pc + target <? pattern_start) || (pattern_pc + target >? pattern_end)) in
  Some (target, pattern_pc).

Definition READ_PATTERN_LENGTH (pattern_pc : Z) : option (Z * Z) :=
  assert* pattern_pc <? pattern_end in
  let len := m pattern_pc in
  assert* pattern_pc + 1 + len <=? pattern_end in
  Some (len, pattern_pc + 1).

Definition READ_PATTERN_REGISTER (pattern_pc : Z) : option (Z * Z) :=
  assert* (pattern_pc <? pattern_end) && (m pattern_pc <? RE_NREGS) in
  Some (m pattern_pc, pattern_pc + 1).

Definition READ_PATTERN_SYNTAXCODE (pattern_pc : Z) : option (Z * Z) :=
  assert* (pattern_pc <? pattern_end) && (m pattern_pc <? syntaxcode_max) in
  Some (m pattern_pc, pattern_pc + 1).
End Reading.

(** ** The matcher's state *)

(** [failures] is the stack of failure points from [stack_pointer] down to
    [stack_start], each the place in the pattern and the place in the text;
    [stack_length] is [stack_end - stack_start], in pointers. *)
Record matcher := mk_matcher {
  mem : memory;
  pattern_pc : Z;
  match_pc : Z;
  failures : list (Z * Z);
  stack_length : Z;
  register_start : Z -> Z;
  register_end : Z -> Z
}.

Inductive action (A : Type) :=
  | Normal (a : A) (s : matcher)
  | re_match_fail (s : matcher)
  | RE_RETURN (value : Z) (s : matcher)
  | Undefined.
Arguments Normal {A}.
Arguments re_match_fail {A}.
Arguments RE_RETURN {A}.
Arguments Undefined {A}.

Definition M (A : Type) : Type := matcher -> action A.

Definition pure {A} (a : A) : M A := Normal a.
Definition seq {A B} (m : M A) (k : A -> M B) : M B := fun s =>
  match m s with
  | Normal a s => k a s
  | re_match_fail s => re_match_fail s
  | RE_RETURN v s => RE_RETURN v s
  | Undefined => Undefined
  end.

Declare Scope regex_scope.
Notation "x <- m ;; k" := (seq m (fun x => k)) (at level 61, m at next level, right associativity) : regex_scope.
Notation "m ;; k" := (seq m (fun _ => k)) (at level 61, right associativity) : regex_scope.
Local Open Scope regex_scope.

Definition get {A} (f : matcher -> A) : M A := fun s => Normal (f s) s.
Definition lose {A} : M A := re_match_fail.
Definition RETURN {A} (value : Z) : M A := RE_RETURN value.
Definition BAD_PATTERN {A} : M A := RETURN (-2).
Definition guard (b : bool) : M unit := if b then pure tt else lose.

Definition set_pattern_pc (p : Z) : M unit := fun s =>
  Normal tt (mk_matcher (mem s) p (match_pc s) (failures s) (stack_length s) (register_start s) (register_end s)).
Definition set_match_pc (p : Z) : M unit := fun s =>
  Normal tt (mk_matcher (mem s) (pattern_pc s) p (failures s) (stack_length s) (register_start s) (register_end s)).
Definition set_failures (l : list (Z * Z)) : M unit := fun s =>
  Normal tt (mk_matcher (mem s) (pattern_pc s) (match_pc s) l (stack_length s) (register_start s) (register_end s)).
Definition set_stack_length (n : Z) : M unit := fun s =>
  Normal tt (mk_matcher (mem s) (pattern_pc s) (match_pc s) (failures s) n (register_start s) (register_end s)).
Definition set_mem (m : memory) : M unit := fun s =>
  Normal tt (mk_matcher m (pattern_pc s) (match_pc s) (failures s) (stack_length s) (register_start s) (register_end s)).
Definition set_register_start (f : Z -> Z) : M unit := fun s =>
  Normal tt (mk_matcher (mem s) (pattern_pc s) (match_pc s) (failures s) (stack_length s) f (register_end s)).
Definition set_register_end (f : Z -> Z) : M unit := fun s =>
  Normal tt (mk_matcher (mem s) (pattern_pc s) (match_pc s) (failures s) (stack_length s) (register_start s) f).

(** [*pattern_pc++] *)
Definition next_pattern_byte : M Z := fun s =>
  Normal (mem s (pattern_pc s))
    (mk_matcher (mem s) (pattern_pc s + 1) (match_pc s) (failures s) (stack_length s) (register_start s) (register_end s)).

Section Matcher.
(** What [re_match] is called with, [re_max_failures], and whether [realloc]
    has room for a stack of so many pointers. *)
Variables pattern_start pattern_end : Z.
Variable buffer : re_buffer.
Variables match_start match_end : Z.
Variable re_max_failures : Z.
Variable realloc : Z -> bool.

Notation translate s := (TRANSLATE_CHAR (mem s) (translation buffer)).
Notation gap_length := (gap_end buffer - gap_start buffer).

Definition ADDRESS_TO_INDEX (address : Z) : Z :=
  (if address >? gap_start buffer then address - gap_length else address) - text buffer.

(** ** Reading the pattern and the text *)

(** The macros READ_PATTERN, for a matcher. *)
Definition read (READ : memory -> Z -> option (Z * Z)) : M Z := fun s =>
  match READ (mem s) (pattern_pc s) with
  | Some (target, pc) => (set_pattern_pc pc ;; pure target) s
  | None => BAD_PATTERN s
  end.

Definition READ_MATCH_CHAR : M Z := fun s =>
  (guard (match_pc s <? match_end) ;;
   set_match_pc (if match_pc s + 1 =? gap_start buffer then gap_end buffer else match_pc s + 1) ;;
   pure (translate s (mem s (match_pc s)))) s.

Definition PUSH_FAILURE_POINT (pattern_pc match_pc : Z) : M unit := fun s =>
  ((if Z.of_nat (length (failures s)) * 2 =? stack_length s
    then
      let stack_length := stack_length s * 2 in
      if stack_length >? re_max_failures * 2 then RETURN (-4)
      else if negb (realloc stack_length) then RETURN (-3)
      else set_stack_length stack_length
    else pure tt) ;;
   set_failures ((pattern_pc, match_pc) :: failures s)) s.

(** ** The instructions *)

Definition match_exact_1 : M unit :=
  ascii <- READ_MATCH_CHAR ;;
  ascii_p <- read (READ_PATTERN_CHAR pattern_end) ;;
  guard (ascii =? ascii_p).

(** The loop of [exact_n]. *)
Fixpoint match_exact (length : nat) : M unit :=
  match length with
  | O => pure tt
  | S length =>
      ascii <- READ_MATCH_CHAR ;;
      ascii_p <- next_pattern_byte ;;
      guard (ascii =? ascii_p) ;;
      match_exact length
  end.

Definition match_exact_n : M unit :=
  length <- read (READ_PATTERN_LENGTH pattern_end) ;;
  match_exact (Z.to_nat length).

Definition match_any_char : M unit :=
  ascii <- READ_MATCH_CHAR ;;
  guard (negb (ascii =? newline)).

Definition RE_MATCH_CHAR_SET (winning losing : M unit) : M unit :=
  ascii <- READ_MATCH_CHAR ;;
  length <- read (READ_PATTERN_LENGTH pattern_end) ;;
  fun s =>
    (set_pattern_pc (pattern_pc s + length) ;;
     if CHAR_SET_MEMBER_P (mem s) length (pattern_pc s) ascii then winning else losing) s.

Definition update (f : Z -> Z) (i v : Z) : Z -> Z := fun j => if j =? i then v else f j.

Definition match_start_memory : M unit :=
  register_number <- read (READ_PATTERN_REGISTER pattern_end) ;;
  fun s => set_register_start (update (register_start s) register_number (match_pc s)) s.

Definition match_stop_memory : M unit :=
  register_number <- read (READ_PATTERN_REGISTER pattern_end) ;;
  fun s => set_register_end (update (register_end s) register_number
    (if match_pc s =? gap_end buffer then gap_start buffer else match_pc s)) s.

Fixpoint beq_translate (s : matcher) (scan1 scan2 : Z) (length : nat) : bool :=
  match length with
  | O => true
  | S length =>
      (translate s (mem s scan1) =? translate s (mem s scan2))
      && beq_translate s (scan1 + 1) (scan2 + 1) length
  end.

Definition match_duplicate : M unit :=
  register_number <- read (READ_PATTERN_REGISTER pattern_end) ;;
  fun s =>
    let start := register_start s register_number in
    let end_ := register_end s register_number in
    let length := end_ - start in
    let match_pc := match_pc s in
    let gap_start := gap_start buffer in
    let gap_end := gap_end buffer in
    let same scan1 scan2 n := beq_translate s scan1 scan2 (Z.to_nat n) in
    if length <=? 0 then Normal tt s
    else
      (let new_end := match_pc + length in
       guard (new_end <=? match_end) ;;
       new_end <-
         (if (match_pc <=? gap_start) && (new_end >? gap_start)
          then
            let new_end := new_end + gap_length in
            guard (new_end <=? match_end) ;;
            let length1 := gap_start - match_pc in
            let length2 := length - length1 in
            guard (same match_pc start length1 && same gap_end (start + length1) length2) ;;
            pure new_end
          else if (start <=? gap_start) && (end_ >? gap_start)
          then
            let length1 := gap_start - start in
            let length2 := end_ - gap_end in
            guard (same match_pc start length1 && same (match_pc + length1) gap_end length2) ;;
            pure new_end
          else
            guard (same match_pc start length) ;;
            pure new_end) ;;
       set_match_pc (if new_end =? gap_start then gap_end else new_end)) s.

Definition match_buffer_start : M unit := fun s =>
  guard (ADDRESS_TO_INDEX (match_pc s) =? ADDRESS_TO_INDEX (text_start buffer)) s.

Definition match_buffer_end : M unit := fun s =>
  guard (ADDRESS_TO_INDEX (match_pc s) =? ADDRESS_TO_INDEX (text_end buffer)) s.

Definition match_line_start : M unit := fun s =>
  (if ADDRESS_TO_INDEX (match_pc s) =? ADDRESS_TO_INDEX (text_start buffer) then pure tt
   else guard (translate s (mem s ((if match_pc s =? gap_end buffer then gap_start buffer else match_pc s) - 1)) =? newline)) s.

Definition match_line_end : M unit := fun s =>
  guard ((ADDRESS_TO_INDEX (match_pc s) =? ADDRESS_TO_INDEX (text_end buffer))
         || (translate s (mem s (match_pc s)) =? newline)) s.

Definition RE_MATCH_WORD_BOUND (word_bound_p : bool -> bool -> bool) : M unit := fun s =>
  let word p := WORD_CONSTITUENT_P (syntax_table buffer) (translate s (mem s p)) in
  guard
    (if match_pc s =? gap_end buffer
     then word_bound_p
       (negb (gap_start buffer =? text_start buffer) && word (gap_start buffer - 1))
       (negb (gap_end buffer =? text_end buffer) && word (gap_end buffer))
     else word_bound_p
       (negb (match_pc s =? text_start buffer) && word (match_pc s - 1))
       (negb (match_pc s =? text_end buffer) && word (match_pc s))) s.

Definition WORD_BOUND_P (left_p right_p : bool) : bool := xorb left_p right_p.
Definition NOT_WORD_BOUND_P (left_p right_p : bool) : bool := eqb left_p right_p.
Definition WORD_START_P (left_p right_p : bool) : bool := negb left_p && right_p.
Definition WORD_END_P (left_p right_p : bool) : bool := left_p && negb right_p.

(** [syntax_spec], and [not_syntax_spec] when [wanted] is false. *)
Definition match_syntax_spec (wanted : bool) : M unit :=
  ascii <- READ_MATCH_CHAR ;;
  code <- read (READ_PATTERN_SYNTAXCODE pattern_end) ;;
  guard (eqb (SYNTAX_CONSTITUENT_P (syntax_table buffer) code ascii) wanted).

(** [word_char], and [not_word_char] when [wanted] is false. *)
Definition match_word_char (wanted : bool) : M unit :=
  ascii <- READ_MATCH_CHAR ;;
  guard (eqb (WORD_CONSTITUENT_P (syntax_table buffer) ascii) wanted).

Definition re_match_jump : M unit :=
  offset <- read (READ_PATTERN_OFFSET pattern_start pattern_end) ;;
  fun s => set_pattern_pc (pattern_pc s + offset) s.

Definition match_on_failure_jump : M unit :=
  offset <- read (READ_PATTERN_OFFSET pattern_start pattern_end) ;;
  fun s => PUSH_FAILURE_POINT (pattern_pc s + offset) (match_pc s) s.

Definition re_match_finalize_jump : M unit := fun s =>
  match failures s with
  | _ :: l => (set_failures l ;; re_match_jump) s
  | [] => Undefined
  end.

Definition match_dummy_failure_jump : M unit :=
  PUSH_FAILURE_POINT NULL NULL ;;
  re_match_jump.

(** The first character that what follows the repeat can match, if it is
    one that the code looks at. *)
Definition following_char (m : memory) (pc : Z) : option Z :=
  match SWITCH_ENUM (m pc) with
  | Some regexpcode_exact_1 => Some (m (pc + 1))
  | Some regexpcode_exact_n => Some (m (pc + 2))
  | Some regexpcode_line_end => Some newline
  | _ => None
  end.

(** Whether the code takes the repeat's first instruction, which it takes to
    be at [pc], to be incompatible with the character [ascii]. *)
Definition incompatible (m : memory) (pc ascii : Z) : bool :=
  match SWITCH_ENUM (m pc) with
  | Some regexpcode_exact_1 => negb (ascii =? m (pc + 1))
  | Some regexpcode_exact_n => negb (ascii =? m (pc + 2))
  | Some regexpcode_char_set => negb (CHAR_SET_MEMBER_P m (m (pc + 1)) (pc + 2) ascii)
  | Some regexpcode_not_char_set => CHAR_SET_MEMBER_P m (m (pc + 1)) (pc + 2) ascii
  | _ => false
  end.

Definition finalize_p (m : memory) (pattern_pc offset : Z) : bool :=
  (pattern_pc =? pattern_end)
  || match following_char m pattern_pc with
     | Some ascii => incompatible m (pattern_pc + offset) ascii
     | None => false
     end.

(** The opcode, which is before [pattern_pc] after the offset has been read
    and stepped back over, is replaced. *)
Definition match_maybe_finalize_jump : M unit :=
  offset <- read (READ_PATTERN_OFFSET pattern_start pattern_end) ;;
  fun s =>
    let finalize := finalize_p (mem s) (pattern_pc s) offset in
    (set_pattern_pc (pattern_pc s - 2) ;;
     set_mem (store (mem s) (pattern_pc s - 2 - 1)
       (opcode (if finalize then regexpcode_finalize_jump else regexpcode_jump))) ;;
     if finalize then re_match_finalize_jump else re_match_jump) s.

Definition re_match_instruction (code : option regexpcode) : M unit :=
  match code with
  | Some regexpcode_unused => pure tt
  | Some regexpcode_exact_1 => match_exact_1
  | Some regexpcode_exact_n => match_exact_n
  | Some regexpcode_any_char => match_any_char
  | Some regexpcode_char_set => RE_MATCH_CHAR_SET (pure tt) lose
  | Some regexpcode_not_char_set => RE_MATCH_CHAR_SET lose (pure tt)
  | Some regexpcode_start_memory => match_start_memory
  | Some regexpcode_stop_memory => match_stop_memory
  | Some regexpcode_duplicate => match_duplicate
  | Some regexpcode_buffer_start => match_buffer_start
  | Some regexpcode_buffer_end => match_buffer_end
  | Some regexpcode_line_start => match_line_start
  | Some regexpcode_line_end => match_line_end
  | Some regexpcode_word_bound => RE_MATCH_WORD_BOUND WORD_BOUND_P
  | Some regexpcode_not_word_bound => RE_MATCH_WORD_BOUND NOT_WORD_BOUND_P
  | Some regexpcode_word_start => RE_MATCH_WORD_BOUND WORD_START_P
  | Some regexpcode_word_end => RE_MATCH_WORD_BOUND WORD_END_P
  | Some regexpcode_syntax_spec => match_syntax_spec true
  | Some regexpcode_not_syntax_spec => match_syntax_spec false
  | Some regexpcode_word_char => match_word_char true
  | Some regexpcode_not_word_char => match_word_char false
  | Some regexpcode_on_failure_jump => match_on_failure_jump
  | Some regexpcode_maybe_finalize_jump => match_maybe_finalize_jump
  | Some regexpcode_finalize_jump => re_match_finalize_jump
  | Some regexpcode_jump => re_match_jump
  | Some regexpcode_dummy_failure_jump => match_dummy_failure_jump
  | None => BAD_PATTERN
  end.

(** ** The loop *)

(** The top failure point that is not a dummy, and the rest of the stack. *)
Fixpoint pop_failure (l : list (Z * Z)) : option ((Z * Z) * list (Z * Z)) :=
  match l with
  | [] => None
  | (pattern_pc, match_pc) :: l =>
      if negb (pattern_pc =? NULL) then Some ((pattern_pc, match_pc), l) else pop_failure l
  end.

Definition resume (l : list (Z * Z)) : M unit := fun s =>
  match pop_failure l with
  | Some ((p, q), l) => (set_failures l ;; set_match_pc q ;; set_pattern_pc p) s
  | None => (set_failures [] ;; RETURN (-1)) s
  end.

(** One round from [re_match_loop] to [re_match_loop]. *)
Definition re_match_step : M unit := fun s =>
  match (code <- next_pattern_byte ;; re_match_instruction (SWITCH_ENUM code)) s with
  | re_match_fail s => resume (failures s) s
  | r => r
  end.

(** The registers' contents after a match, as indices. *)
Definition record_registers (s : matcher) : re_registers :=
  let index p := if p =? NULL then -1 else ADDRESS_TO_INDEX p in
  mk_re_registers
    (fun i => index (update (register_start s) 0 match_start i))
    (fun i => index (update (register_end s) 0 (match_pc s) i)).

(** The value that is returned, the memory, and what is stored in the
    registers, unless [registers] is [NULL], if the match succeeds. *)
Inductive result :=
  | Returned (value : Z) (m : memory) (registers : option re_registers)
  | Undefined_behaviour
  | Out_of_fuel.

Fixpoint re_match_loop (fuel : nat) (s : matcher) : result :=
  match fuel with
  | O => Out_of_fuel
  | S fuel =>
      if pattern_pc s >=? pattern_end
      then Returned (ADDRESS_TO_INDEX (match_pc s)) (mem s) (Some (record_registers s))
      else
        match re_match_step s with
        | Normal _ s => re_match_loop fuel s
        | RE_RETURN value s => Returned value (mem s) None
        | re_match_fail _ | Undefined => Undefined_behaviour
        end
  end.

Definition initial_matcher (m : memory) : matcher :=
  mk_matcher m pattern_start match_start [] (2 * RE_NFAILURES) (fun _ => NULL) (fun _ => NULL).

(** [malloc] says whether the stack can be allocated. *)
Definition re_match (fuel : nat) (malloc : bool) (m : memory) : result :=
  if malloc then re_match_loop fuel (initial_matcher m) else Returned (-3) m None.
End Matcher.
