(* ===== verification/RegexSpec.v ===== *)
(** * Regular expressions and backtracking (src/src/microcode/regex.c)

    What the matcher of Regex.v means to do: the syntax of regular
    expressions, their translation to patterns (the layout is described by the
    comments of regex.h and of [re_match], and produced by
    src/src/runtime/rgxcmp.scm), and a matcher that is defined by recursion on
    the expression, on a text without a gap.

    The reference matcher [backtrack] has two continuations: what to do after
    a match of the expression, and what to do when it cannot be matched.  The
    first is given the second, because a later failure comes back for the next
    way to match.  Registers are not restored when the matcher backtracks, as
    in the code, so the second continuation is given the registers.

    The language of an expression as a relation between the indices where a
    match begins and ends, and the proof that [backtrack], however it comes
    back and whatever it does to the registers, finds a match exactly when
    there is one. *)

From Stdlib Require Import ZArith List Lia Bool.
From S2P Require Import Prelude.
From S2P Require Import Memory.
From S2P Require Import Regex.
Import ListNotations.

(** ** Syntax *)

(** What matches one character, and what matches the empty string. *)
Inductive atom :=
  | Char (c : Z)
  | Any
  | Set_of (bytes : list Z)
  | Not_set_of (bytes : list Z)
  | Word (wanted : bool)
  | Syntax (code : Z) (wanted : bool).

Inductive test :=
  | Line_start
  | Line_end
  | Buffer_start
  | Buffer_end
  | Word_start
  | Word_end
  | Word_bound
  | Not_word_bound.

(** A group is [Seq (Open n) (Seq r (Close n))]. *)
Inductive regex :=
  | Empty
  | One (a : atom)
  | Str (cs : list Z)
  | Test (t : test)
  | Open (n : Z)
  | Close (n : Z)
  | Seq (r1 r2 : regex)
  | Alt (r1 r2 : regex)
  | Opt (r : regex)
  | Star (r : regex)
  | Plus (r : regex).

(** ** Patterns *)

(** A pattern is a sequence of bytes, except that the opcode at the end of a
    repeat may be replaced by the matcher. *)
Inductive item := Byte (b : Z) | Repeat.

Definition size {A} (l : list A) : Z := Z.of_nat (length l).

Definition op (c : regexpcode) : item := Byte (opcode c).
Definition bytes : list Z -> list item := map Byte.

(** [compute-jump] of rgxcmp.scm: an offset in two bytes, the low one first. *)
Definition offset (o : Z) : list item := bytes [o mod 256; (o / 256) mod 256].

Definition compile_atom (a : atom) : list item :=
  match a with
  | Char c => [op regexpcode_exact_1; Byte c]
  | Any => [op regexpcode_any_char]
  | Set_of bs => op regexpcode_char_set :: Byte (size bs) :: bytes bs
  | Not_set_of bs => op regexpcode_not_char_set :: Byte (size bs) :: bytes bs
  | Word wanted => [op (if wanted then regexpcode_word_char else regexpcode_not_word_char)]
  | Syntax code wanted =>
      [op (if wanted then regexpcode_syntax_spec else regexpcode_not_syntax_spec); Byte code]
  end.

Definition compile_test (t : test) : regexpcode :=
  match t with
  | Line_start => regexpcode_line_start
  | Line_end => regexpcode_line_end
  | Buffer_start => regexpcode_buffer_start
  | Buffer_end => regexpcode_buffer_end
  | Word_start => regexpcode_word_start
  | Word_end => regexpcode_word_end
  | Word_bound => regexpcode_word_bound
  | Not_word_bound => regexpcode_not_word_bound
  end.

(** A repeat of [body], the loop of [Star] and [Plus]. *)
Definition compile_loop (body : list item) : list item :=
  (op regexpcode_on_failure_jump :: offset (size body + 3)) ++ body ++ Repeat :: offset (- (size body + 6)).

(** The jump after the first of several alternatives goes to the jump after
    the second, or to the end when there is none; [joint] is the place of that
    jump in the pattern of the alternatives that follow. *)
Fixpoint compile (r : regex) : list item :=
  let joint r :=
    match r with Alt r1 _ => 3 + size (compile r1) | _ => size (compile r) end in
  match r with
  | Empty => []
  | One a => compile_atom a
  | Str cs => op regexpcode_exact_n :: Byte (size cs) :: bytes cs
  | Test t => [op (compile_test t)]
  | Open n => [op regexpcode_start_memory; Byte n]
  | Close n => [op regexpcode_stop_memory; Byte n]
  | Seq r1 r2 => compile r1 ++ compile r2
  | Alt r1 r2 =>
      (op regexpcode_on_failure_jump :: offset (size (compile r1) + 3)) ++ compile r1
      ++ (op regexpcode_jump :: offset (joint r2)) ++ compile r2
  | Opt r => (op regexpcode_on_failure_jump :: offset (size (compile r))) ++ compile r
  | Star r => compile_loop (compile r)
  | Plus r => (op regexpcode_dummy_failure_jump :: offset 3) ++ compile_loop (compile r)
  end.

Definition joint (r : regex) : Z :=
  match r with Alt r1 _ => 3 + size (compile r1) | _ => size (compile r) end.

Definition byte (z : Z) : Prop := 0 <= z < 256.

(** Operands in the range of their bytes; no [Star] or [Plus] of an
    expression that matches the empty string. *)
Fixpoint nullable (r : regex) : bool :=
  match r with
  | Empty | Test _ | Open _ | Close _ | Opt _ | Star _ => true
  | One _ => false
  | Str cs => match cs with [] => true | _ => false end
  | Seq r1 r2 => nullable r1 && nullable r2
  | Alt r1 r2 => nullable r1 || nullable r2
  | Plus r => nullable r
  end.

Definition wf_atom (a : atom) : Prop :=
  match a with
  | Char c => byte c
  | Set_of bs | Not_set_of bs => size bs < 256 /\ Forall byte bs
  | Syntax code _ => 0 <= code < syntaxcode_max
  | _ => True
  end.

Fixpoint wf (r : regex) : Prop :=
  match r with
  | One a => wf_atom a
  | Str cs => size cs < 256 /\ Forall byte cs
  | Open n | Close n => 0 <= n < RE_NREGS
  | Seq r1 r2 | Alt r1 r2 => wf r1 /\ wf r2
  | Opt r => wf r
  | Star r | Plus r => wf r /\ nullable r = false
  | _ => True
  end.

(** ** Matching *)

(** A text: the characters by index, as the translation table gives them, and
    the indices at which the buffer and the match end. *)
Record subject := mk_subject {
  char : Z -> Z;
  table : Z -> Z;
  first : Z;
  last : Z;
  stop : Z
}.

(** The registers, with -1 for one that is not set. *)
Record regs := mk_regs { starts : Z -> Z; ends : Z -> Z }.

Definition no_regs : regs := mk_regs (fun _ => -1) (fun _ => -1).
Definition open_reg (g : regs) (n i : Z) : regs := mk_regs (update (starts g) n i) (ends g).
Definition close_reg (g : regs) (n i : Z) : regs := mk_regs (starts g) (update (ends g) n i).

Inductive outcome := Matched (i : Z) (g : regs) | Failed.

Definition member (bs : list Z) (c : Z) : bool :=
  (c <? size bs * 8) && Z.testbit (nth (Z.to_nat (c / 8)) bs 0) (c mod 8).

Section Subject.
Variable t : subject.

Definition accepts (a : atom) (c : Z) : bool :=
  match a with
  | Char c' => c =? c'
  | Any => negb (c =? newline)
  | Set_of bs => member bs c
  | Not_set_of bs => negb (member bs c)
  | Word wanted => eqb (WORD_CONSTITUENT_P (table t) c) wanted
  | Syntax code wanted => eqb (SYNTAX_CONSTITUENT_P (table t) code c) wanted
  end.

(** Whether there is a word constituent before and after the index [i]. *)
Definition word_before (i : Z) : bool := negb (i =? first t) && WORD_CONSTITUENT_P (table t) (char t (i - 1)).
Definition word_after (i : Z) : bool := negb (i =? last t) && WORD_CONSTITUENT_P (table t) (char t i).

Definition holds (k : test) (i : Z) : bool :=
  match k with
  | Line_start => (i =? first t) || (char t (i - 1) =? newline)
  | Line_end => (i =? last t) || (char t i =? newline)
  | Buffer_start => i =? first t
  | Buffer_end => i =? last t
  | Word_start => negb (word_before i) && word_after i
  | Word_end => word_before i && negb (word_after i)
  | Word_bound => xorb (word_before i) (word_after i)
  | Not_word_bound => eqb (word_before i) (word_after i)
  end.

(** The string [cs] is at [i]. *)
Fixpoint at_index (cs : list Z) (i : Z) : bool :=
  match cs with
  | [] => true
  | c :: cs => (i <? stop t) && (char t i =? c) && at_index cs (i + 1)
  end.

Definition failure := regs -> outcome.
Definition success := Z -> regs -> failure -> outcome.

(** The repetition of what [body] matches: as many as there can be, but one
    fewer each time the matcher comes back. *)
Fixpoint repetition (body : Z -> regs -> success -> failure -> outcome) (n : nat)
  (i : Z) (g : regs) (K : success) (F : failure) : outcome :=
  match n with
  | O => F g
  | S n => body i g (fun j g F => repetition body n j g K F) (fun g => K i g F)
  end.

(** Enough repetitions for an expression that consumes characters. *)
Definition room (i : Z) : nat := S (Z.to_nat (stop t - i)).

Fixpoint backtrack (r : regex) (i : Z) (g : regs) (K : success) (F : failure) : outcome :=
  match r with
  | Empty => K i g F
  | One a => if (i <? stop t) && accepts a (char t i) then K (i + 1) g F else F g
  | Str cs => if at_index cs i then K (i + size cs) g F else F g
  | Test k => if holds k i then K i g F else F g
  | Open n => K i (open_reg g n i) F
  | Close n => K i (close_reg g n i) F
  | Seq r1 r2 => backtrack r1 i g (fun j g F => backtrack r2 j g K F) F
  | Alt r1 r2 => backtrack r1 i g K (fun g => backtrack r2 i g K F)
  | Opt r => backtrack r i g K (fun g => K i g F)
  | Star r => repetition (backtrack r) (room i) i g K F
  | Plus r => backtrack r i g (fun j g F => repetition (backtrack r) (room j) j g K F) F
  end.

(** The match of a whole expression that begins at [i]. *)
Definition match_at (r : regex) (i : Z) : outcome :=
  backtrack r i no_regs (fun j g _ => Matched j g) (fun _ => Failed).

End Subject.

(** ** The depth of the stack of failure points *)

Fixpoint pushes (r : regex) : Z :=
  match r with
  | Seq r1 r2 => pushes r1 + pushes r2
  | Alt r1 r2 => 1 + pushes r1 + pushes r2
  | Opt r => 1 + pushes r
  | Star r | Plus r => 1 + 2 * pushes r
  | _ => 0
  end.

(** Enough failure points for a match of [r] in [n] characters. *)
Definition depth (r : regex) (n : Z) : Z := pushes r * (n + 1).

(** ** What the reference matcher finds (src/src/microcode/regex.c) *)

Section Language.
Variable t : subject.

Inductive matches : regex -> Z -> Z -> Prop :=
  | m_empty i : matches Empty i i
  | m_one a i : i < stop t -> accepts t a (char t i) = true -> matches (One a) i (i + 1)
  | m_str cs i : at_index t cs i = true -> matches (Str cs) i (i + size cs)
  | m_test k i : holds t k i = true -> matches (Test k) i i
  | m_open n i : matches (Open n) i i
  | m_close n i : matches (Close n) i i
  | m_seq r1 r2 i j k : matches r1 i j -> matches r2 j k -> matches (Seq r1 r2) i k
  | m_alt_1 r1 r2 i j : matches r1 i j -> matches (Alt r1 r2) i j
  | m_alt_2 r1 r2 i j : matches r2 i j -> matches (Alt r1 r2) i j
  | m_opt_0 r i : matches (Opt r) i i
  | m_opt_1 r i j : matches r i j -> matches (Opt r) i j
  | m_star_0 r i : matches (Star r) i i
  | m_star r i j k : matches r i j -> matches (Star r) j k -> matches (Star r) i k
  | m_plus r i j k : matches r i j -> matches (Star r) j k -> matches (Plus r) i k.

#[local] Hint Constructors matches : core.

Lemma at_index_end cs i : at_index t cs i = true -> i + size cs <= Z.max i (stop t).
Proof.
  revert i. induction cs as [|c cs IH]; intros i H; cbn [at_index] in H; unfold size in *; cbn [length] in *; [lia|].
  reflect_bools. specialize (IH (i + 1) ltac:(assumption)). lia.
Qed.

Lemma matches_order r i j : matches r i j -> i <= j <= Z.max i (stop t).
Proof.
  induction 1; try lia. split; [unfold size; lia|now apply at_index_end].
Qed.

Lemma matches_advance r i j : matches r i j -> nullable r = false -> i < j.
Proof.
  induction 1 as [|a i| [|c cs] i A| | | |r1 r2 i j k M1 IH1 M2 IH2|r1 r2 i j M IH|r1 r2 i j M IH| | | | |r i j k M1 IH1 M2 IH2];
    cbn [nullable]; intros N; try discriminate; try lia.
  - unfold size. cbn [length]. lia.
  - apply matches_order in M1. apply matches_order in M2.
    apply andb_false_iff in N as [N|N]; [specialize (IH1 N)|specialize (IH2 N)]; lia.
  - apply orb_false_iff in N as [N _]. auto.
  - apply orb_false_iff in N as [_ N]. auto.
  - specialize (IH1 N). apply matches_order in M2. lia.
Qed.

(** ** What is true of every outcome *)

Section Outcomes.
Variable Good : outcome -> Prop.

(** A success continuation at the index [j] that is good if the failure
    continuation is. *)
Definition keeps (K : success) (j : Z) : Prop :=
  forall g F, (forall g, Good (F g)) -> Good (K j g F).

Lemma backtrack_good r : forall i K,
  (forall j, matches r i j -> keeps K j) -> keeps (fun i g F => backtrack t r i g K F) i.
Proof.
  assert (Rp : forall r, (forall i K, (forall j, matches r i j -> keeps K j) -> keeps (fun i g F => backtrack t r i g K F) i) ->
               forall n i K, (forall j, matches (Star r) i j -> keeps K j) -> keeps (fun i g F => repetition (backtrack t r) n i g K F) i).
  { intros r0 IH n. induction n as [|n IHn]; intros i K H g F HF; cbn [repetition]; [apply HF|].
    apply IH; [|intros g'; apply H; [constructor|assumption]].
    intros j M. apply IHn. intros k Mk. apply H. eauto. }
  induction r as [|a|cs|k|n|n|r1 IH1 r2 IH2|r1 IH1 r2 IH2|r IH|r IH|r IH]; intros i K H g F HF; cbn [backtrack].
  - apply H; auto.
  - destruct (i <? stop t) eqn:E1; [|apply HF]. destruct (accepts t a (char t i)) eqn:E2; [|apply HF]. reflect_bools. apply H; auto.
  - case_if; [apply H; auto|apply HF].
  - case_if; [apply H; auto|apply HF].
  - apply H; auto.
  - apply H; auto.
  - apply IH1; [|assumption]. intros j M. apply IH2. intros k Mk. apply H. eauto.
  - apply IH1; [intros j M; apply H; auto|]. intros g'. apply IH2; [intros j M; apply H; auto|assumption].
  - apply IH; [intros j M; apply H; auto|]. intros g'. apply H; auto.
  - apply Rp; auto.
  - apply IH; [|assumption]. intros j M. apply Rp; [assumption|]. intros k Mk. apply H. eauto.
Qed.

(** A match that is there is found, if not another one before it. *)
Definition find (r : regex) (n : nat) (i : Z) (g : regs) (K : success) (F : failure) : outcome :=
  match r with
  | Star r => repetition (backtrack t r) n i g K F
  | _ => backtrack t r i g K F
  end.

Lemma find_backtrack r i : exists n, (Z.to_nat (stop t - i) < n)%nat /\ forall g K F, backtrack t r i g K F = find r n i g K F.
Proof. exists (room t i). unfold room. split; [lia|]. now destruct r. Qed.

Lemma repetition_good r n K :
  (forall j, keeps K j) -> forall i, keeps (fun i g F => repetition (backtrack t r) n i g K F) i.
Proof.
  intros H. induction n as [|n IH]; intros i g F HF; cbn [repetition]; [apply HF|].
  apply (backtrack_good r); [auto|]. intros g'. now apply H.
Qed.

Lemma find_good r i j : matches r i j -> wf r -> forall n K,
  (Z.to_nat (stop t - i) < n)%nat -> (forall k, keeps K k) -> (forall g F, Good (K j g F)) ->
  forall g F, Good (find r n i g K F).
Proof.
  induction 1 as [i|a i E1 E2|cs i E|k i E|n0 i|n0 i|r1 r2 i j k M1 IH1 M2 IH2|r1 r2 i j M IH|r1 r2 i j M IH|r i|r i j M IH
                 |r i|r i j k M1 IH1 M2 IH2|r i j k M1 IH1 M2 IH2];
    cbn [wf]; intros W n K R HK HG g F; cbn [find backtrack].
  - apply HG.
  - rewrite (proj2 (Z.ltb_lt _ _) E1), E2. apply HG.
  - rewrite E. apply HG.
  - rewrite E. apply HG.
  - apply HG.
  - apply HG.
  - destruct (find_backtrack r1 i) as (n1 & R1 & ->). apply IH1; [tauto|assumption| |].
    + intros l. apply (backtrack_good r2). auto.
    + intros g' F'. destruct (find_backtrack r2 j) as (n2 & R2 & ->). apply IH2; auto; tauto.
  - destruct (find_backtrack r1 i) as (n1 & R1 & ->). apply IH; auto; tauto.
  - apply (backtrack_good r1); [auto|]. intros g'.
    destruct (find_backtrack r2 i) as (n1 & R1 & ->). apply IH; auto; tauto.
  - apply (backtrack_good r); auto.
  - destruct (find_backtrack r i) as (n1 & R1 & ->). apply IH; auto; tauto.
  - destruct n as [|n]; [lia|]. cbn [repetition].
    apply (backtrack_good r); [intros l _; now apply repetition_good|]. auto.
  - destruct n as [|n]; [lia|]. cbn [repetition].
    pose proof (matches_advance _ _ _ M1 (proj2 W)). pose proof (matches_order _ _ _ M1).
    destruct (find_backtrack r i) as (n1 & R1 & ->). apply IH1; [tauto|assumption| |].
    + intros l. now apply repetition_good.
    + intros g' F'. apply (IH2 W n K); auto. lia.
  - destruct (find_backtrack r i) as (n1 & R1 & ->). apply IH1; [tauto|assumption| |].
    + intros l g' F' HF. now apply repetition_good.
    + intros g' F'. apply (IH2 W (room t j) K); auto.
Qed.
End Outcomes.

(** ** The theorems *)

Lemma match_at_sound r i j g : match_at t r i = Matched j g -> matches r i j.
Proof.
  intros E. pose (Good o := match o with Matched j _ => matches r i j | Failed => True end).
  change (Good (Matched j g)). rewrite <- E. apply (backtrack_good Good r); cbn; auto.
  intros k M g' F _. exact M.
Qed.

Lemma match_at_complete r i j : wf r -> matches r i j -> match_at t r i <> Failed.
Proof.
  intros W M. unfold match_at. destruct (find_backtrack r i) as (n & R & ->).
  apply (find_good (fun o => o <> Failed) r i j M W n); [assumption|intros k g F _; discriminate|discriminate].
Qed.
End Language.
