(* ===== verification/RegexMatch.v ===== *)
(** * The matcher finds what the reference matcher finds (src/src/microcode/regex.c)

    The pattern of an expression, run by [re_match] on a text with a gap, does
    what [backtrack] does with the expression on the text without it.  The
    proof follows the expression: code at an address, a stack of failure
    points that stands for the failure continuation, and an address after the
    code from which the success continuation is run. *)

From Stdlib Require Import ZArith List Lia Bool.
From S2P Require Import Prelude.
From S2P Require Import Memory.
From S2P Require Import Regex.
From S2P Require Import RegexSpec.
Import ListNotations.

Lemma size_app {A} (l l' : list A) : size (l ++ l') = size l + size l'.
Proof. unfold size. rewrite length_app. lia. Qed.

Lemma size_cons {A} (x : A) l : size (x :: l) = 1 + size l.
Proof. unfold size. cbn [length]. lia. Qed.

Lemma size_nil {A} : size (@nil A) = 0.
Proof. reflexivity. Qed.

Lemma size_map {A B} (f : A -> B) l : size (map f l) = size l.
Proof. unfold size. now rewrite length_map. Qed.

Lemma list_size_nonneg {A} (l : list A) : 0 <= size l.
Proof. unfold size. lia. Qed.

Lemma size_offset o : size (offset o) = 2.
Proof. reflexivity. Qed.

Lemma compile_alt r1 r2 :
  compile (Alt r1 r2)
  = (op regexpcode_on_failure_jump :: offset (size (compile r1) + 3)) ++ compile r1
    ++ (op regexpcode_jump :: offset (joint r2)) ++ compile r2.
Proof. reflexivity. Qed.

Create Rewrite HintDb size.
#[export] Hint Rewrite @size_app @size_cons @size_nil @size_map size_offset : size.

Lemma SWITCH_ENUM_opcode c : SWITCH_ENUM (opcode c) = Some c.
Proof. now destruct c. Qed.

Lemma offset_value o :
  -32768 <= o < 32768 -> o mod 256 + Z.shiftl (signed_char ((o / 256) mod 256)) 8 = o.
Proof.
  intros H. rewrite Z.shiftl_mul_pow2 by lia. unfold signed_char.
  pose proof (Z.div_mod o 256 ltac:(lia)).
  pose proof (Z.mod_pos_bound o 256 ltac:(lia)).
  pose proof (Z.div_mod (o / 256) 256 ltac:(lia)).
  pose proof (Z.mod_pos_bound (o / 256) 256 ltac:(lia)).
  assert (-128 <= o / 256 < 128) by lia. change (2 ^ 8) with 256.
  destruct (Z.ltb_spec ((o / 256) mod 256) 128); nia.
Qed.

(** ** A pattern in memory *)

Section Code.
Variable pattern_start : Z.
Variable prog : list item.
Notation pattern_end := (pattern_start + size prog).

(** A repeat at the end of the pattern is finalized, any other becomes a
    jump. *)
Definition item_at (m : memory) (a : Z) (x : item) : Prop :=
  match x with
  | Byte z => m a = z
  | Repeat =>
      m a = opcode regexpcode_maybe_finalize_jump
      \/ m a = opcode (if a + 3 =? pattern_end then regexpcode_finalize_jump else regexpcode_jump)
  end.

Definition has_pattern (m : memory) : Prop :=
  forall l x l', prog = l ++ x :: l' -> item_at m (pattern_start + size l) x.

Definition code_at (a : Z) (c : list item) : Prop :=
  exists l l', prog = l ++ c ++ l' /\ a = pattern_start + size l.

Lemma code_at_start a c c' : code_at a (c ++ c') -> code_at a c.
Proof. intros (l & l' & E & ->). exists l, (c' ++ l'). now rewrite E, <- app_assoc. Qed.

Lemma code_at_rest a c c' : code_at a (c ++ c') -> code_at (a + size c) c'.
Proof.
  intros (l & l' & E & ->). exists (l ++ c), l'. rewrite size_app. split; [now rewrite E, <- !app_assoc|lia].
Qed.

Lemma code_at_tail a x c : code_at a (x :: c) -> code_at (a + 1) c.
Proof. exact (code_at_rest a [x] c). Qed.

Lemma code_at_head m a x c : has_pattern m -> code_at a (x :: c) -> item_at m a x.
Proof. intros H (l & l' & E & ->). now apply (H l x (c ++ l')). Qed.

Lemma code_at_byte m a z c : has_pattern m -> code_at a (Byte z :: c) -> m a = z.
Proof. apply (code_at_head m a (Byte z)). Qed.

Lemma code_at_end a c : code_at a c -> pattern_start <= a /\ a + size c <= pattern_end.
Proof.
  intros (l & l' & E & ->). rewrite E, !size_app.
  pose proof (list_size_nonneg l). pose proof (list_size_nonneg l'). lia.
Qed.

Lemma code_at_bytes m a bs k :
  has_pattern m -> code_at a (bytes bs) -> (k < length bs)%nat -> m (a + Z.of_nat k) = nth k bs 0.
Proof.
  revert a k. induction bs as [|b bs IH]; cbn [bytes map length]; intros a k H C L; [lia|].
  destruct k as [|k]; cbn [nth].
  - rewrite Z.add_0_r. eapply code_at_byte; eassumption.
  - rewrite <- (IH (a + 1) k H) by (eauto using code_at_tail; lia). f_equal. lia.
Qed.

(** The decision about a repeat. *)
Lemma has_pattern_store m a c :
  has_pattern m -> code_at a (Repeat :: c) ->
  has_pattern (store m a (opcode (if a + 3 =? pattern_end then regexpcode_finalize_jump else regexpcode_jump))).
Proof.
  intros H (l1 & l2 & E & ->) l x l' E'. specialize (H l x l' E'). unfold store.
  destruct (Z.eqb_spec (pattern_start + size l) (pattern_start + size l1)) as [D|D].
  - assert (x = Repeat).
    { assert (L : length l = length l1) by (unfold size in D; lia). rewrite E in E'. cbn [app] in E'.
      assert (N : nth_error (l1 ++ Repeat :: c ++ l2) (length l1) = nth_error (l ++ x :: l') (length l))
        by (rewrite L, E'; reflexivity).
      rewrite !nth_error_app2, !Nat.sub_diag in N by lia. now injection N. }
    subst x. cbn [item_at]. rewrite D, Z.eqb_refl. now right.
  - destruct x; cbn [item_at] in *; now rewrite (proj2 (Z.eqb_neq _ _) D).
Qed.

Lemma test_bit_member x n : 0 <= n -> negb (x & Z.shiftl 1 n =? 0) = Z.testbit x n.
Proof.
  intros N. rewrite Z.shiftl_1_l. destruct (Z.eqb_spec (x & 2 ^ n) 0) as [E|E]; cbn [negb].
  - apply (f_equal (fun y => Z.testbit y n)) in E. rewrite Z.land_spec, Z.pow2_bits_true, andb_true_r, Z.bits_0 in E by assumption.
    now rewrite E.
  - destruct (Z.testbit x n) eqn:B; [reflexivity|]. contradict E. apply Z.bits_inj'. intros k Hk.
    rewrite Z.land_spec, Z.bits_0. destruct (Z.eq_dec n k) as [<-|D]; [now rewrite B|].
    rewrite Z.pow2_bits_false by lia. apply andb_false_r.
Qed.

Lemma member_char_set m a bs c c' :
  has_pattern m -> code_at a (bytes bs ++ c') -> byte c ->
  CHAR_SET_MEMBER_P m (size bs) a c = member bs c.
Proof.
  intros H C B. unfold CHAR_SET_MEMBER_P, member, CHAR_SET_MEMBER_P_INTERNAL, byte in *.
  destruct (Z.ltb_spec c (size bs * 8)) as [D|D]; [|reflexivity]. cbn [andb].
  rewrite test_bit_member by (apply Z.mod_pos_bound; lia). f_equal.
  pose proof (Z.div_pos c 8). assert (c / 8 < size bs) by (apply Z.div_lt_upper_bound; lia). unfold size in *.
  rewrite <- (code_at_bytes m a bs _ H (code_at_start _ _ _ C)) by lia.
  f_equal. lia.
Qed.

Ltac read_byte H C :=
  let E := fresh in
  pose proof (code_at_byte _ _ _ _ H C) as E; apply code_at_end in C; autorewrite with size in C;
  unfold READ_PATTERN_CHAR, READ_PATTERN_LENGTH, READ_PATTERN_REGISTER, READ_PATTERN_SYNTAXCODE;
  match goal with c : list item |- _ => pose proof (list_size_nonneg c) end;
  rewrite (proj2 (Z.ltb_lt _ _)) by lia; rewrite ?E; cbn [andb].

Lemma pattern_char m a z c :
  has_pattern m -> code_at a (Byte z :: c) -> READ_PATTERN_CHAR pattern_end m a = Some (z, a + 1).
Proof. intros H C. read_byte H C. reflexivity. Qed.

Lemma pattern_length m a n c :
  has_pattern m -> code_at a (Byte n :: c) -> n <= size c -> READ_PATTERN_LENGTH pattern_end m a = Some (n, a + 1).
Proof. intros H C N. read_byte H C. rewrite (proj2 (Z.leb_le _ _)) by lia. reflexivity. Qed.

Lemma pattern_register m a n c :
  has_pattern m -> code_at a (Byte n :: c) -> n < RE_NREGS -> READ_PATTERN_REGISTER pattern_end m a = Some (n, a + 1).
Proof. intros H C N. read_byte H C. rewrite (proj2 (Z.ltb_lt _ _)) by lia. reflexivity. Qed.

Lemma pattern_syntaxcode m a n c :
  has_pattern m -> code_at a (Byte n :: c) -> n < syntaxcode_max ->
  READ_PATTERN_SYNTAXCODE pattern_end m a = Some (n, a + 1).
Proof. intros H C N. read_byte H C. rewrite (proj2 (Z.ltb_lt _ _)) by lia. reflexivity. Qed.

Lemma pattern_offset m a o c :
  has_pattern m -> code_at a (offset o ++ c) -> -32768 <= o < 32768 ->
  pattern_start <= a + 2 + o <= pattern_end ->
  READ_PATTERN_OFFSET pattern_start pattern_end m a = Some (o, a + 2).
Proof.
  intros H C O I. unfold READ_PATTERN_OFFSET. cbn [offset bytes map app] in C.
  rewrite (code_at_byte m a _ _ H C), (code_at_byte m (a + 1) _ _ H (code_at_tail _ _ _ C)).
  apply code_at_end in C. autorewrite with size in C. pose proof (list_size_nonneg c).
  rewrite (proj2 (Z.ltb_lt (a + 1) _)), offset_value by lia. cbv zeta. rewrite Z.gtb_ltb.
  rewrite !(proj2 (Z.ltb_ge _ _)) by lia. reflexivity.
Qed.

Lemma code_at_joint_end a r : code_at a (compile r) -> a + joint r <= pattern_end.
Proof.
  intros C. apply code_at_end in C. unfold joint. destruct r; try lia.
  rewrite compile_alt in C. autorewrite with size in C. pose proof (list_size_nonneg (compile r2)). lia.
Qed.
End Code.

(** ** A text in memory *)

(** The address of the character at an index: the gap is skipped. *)
Definition gap_index (b : re_buffer) : Z := gap_start b - text b.
Definition address (b : re_buffer) (i : Z) : Z :=
  text b + i + (if gap_index b <=? i then gap_end b - gap_start b else 0).

(** [t] is the text of the buffer [b] in the memory [m], up to [match_end];
    what the matcher reads is at [separate] addresses, outside the pattern. *)
Record subject_of (b : re_buffer) (m : memory) (separate : Z -> Prop) (match_end : Z) (t : subject) : Prop := {
  text_positive : 0 < text b;
  gap_order : gap_start b <= gap_end b;
  order : 0 <= first t <= stop t /\ stop t <= last t;
  start_at : text_start b = address b (first t);
  end_at : text_end b = if last t =? gap_index b then gap_start b else address b (last t);
  stop_at : match_end = address b (stop t) \/ stop t = gap_index b /\ match_end = gap_start b;
  same_table : table t = syntax_table b;
  chars : forall i, first t <= i < last t ->
    separate (address b i) /\ byte (m (address b i))
    /\ char t i = TRANSLATE_CHAR m (translation b) (m (address b i));
  translations : translation b <> NULL -> forall c, byte c ->
    separate (translation b + c) /\ byte (m (translation b + c))
}.

(** The tests for word boundaries look at the wrong bytes when the gap is at
    an end of the text. *)
Definition gap_inside (b : re_buffer) (t : subject) : Prop :=
  gap_start b = gap_end b \/ (gap_index b <> first t /\ gap_index b <> last t).

Fixpoint word_tests (r : regex) : bool :=
  match r with
  | Test (Word_start | Word_end | Word_bound | Not_word_bound) => true
  | Seq r1 r2 | Alt r1 r2 => word_tests r1 || word_tests r2
  | Opt r | Star r | Plus r => word_tests r
  | _ => false
  end.

Section Address.
Variables (b : re_buffer) (m0 : memory) (separate : Z -> Prop) (match_end : Z) (t : subject).
Hypothesis T : subject_of b m0 separate match_end t.

Ltac addresses :=
  destruct T as [A1 A2 [A3 A4] A5 A6 A7 A8 A9 A10]; unfold ADDRESS_TO_INDEX, address, gap_index in *;
  repeat match goal with
  | |- context [?x <=? ?y] => destruct (Z.leb_spec x y)
  | |- context [?x >? ?y] => rewrite (Z.gtb_ltb x y)
  | |- context [?x <? ?y] => destruct (Z.ltb_spec x y)
  | |- context [?x =? ?y] => destruct (Z.eqb_spec x y)
  end; try lia.

Lemma ADDRESS_TO_INDEX_address i : ADDRESS_TO_INDEX b (address b i) = i.
Proof. addresses. Qed.

Lemma ADDRESS_TO_INDEX_gap : ADDRESS_TO_INDEX b (gap_start b) = gap_index b.
Proof. addresses. Qed.

Lemma address_positive i : 0 <= i -> 0 < address b i.
Proof. intros H. addresses. Qed.

Lemma address_next i :
  0 <= i -> (if address b i + 1 =? gap_start b then gap_end b else address b i + 1) = address b (i + 1).
Proof. intros H. addresses. Qed.

Lemma address_stop i : (address b i <? match_end) = (i <? stop t).
Proof.
  destruct (stop_at _ _ _ _ _ T) as [E|[E1 E2]].
  - rewrite E. clear E. addresses.
  - rewrite E1, E2. clear E1 E2. addresses.
Qed.

(** The byte before the one at an address. *)
Lemma address_before i :
  (if address b i =? gap_end b then gap_start b else address b i) - 1 = address b (i - 1).
Proof. addresses. Qed.

(** The end of a register that [stop_memory] stores. *)
Lemma address_close i :
  ADDRESS_TO_INDEX b (if address b i =? gap_end b then gap_start b else address b i) = i.
Proof. addresses. Qed.

Lemma close_positive i : 0 <= i -> 0 < if address b i =? gap_end b then gap_start b else address b i.
Proof. intros H. addresses. Qed.

Lemma index_start i : (ADDRESS_TO_INDEX b (address b i) =? ADDRESS_TO_INDEX b (text_start b)) = (i =? first t).
Proof. rewrite (start_at _ _ _ _ _ T), !ADDRESS_TO_INDEX_address. reflexivity. Qed.

Lemma index_end i : (ADDRESS_TO_INDEX b (address b i) =? ADDRESS_TO_INDEX b (text_end b)) = (i =? last t).
Proof.
  rewrite (end_at _ _ _ _ _ T), ADDRESS_TO_INDEX_address. case_if.
  - rewrite ADDRESS_TO_INDEX_gap. congruence.
  - now rewrite ADDRESS_TO_INDEX_address.
Qed.
End Address.

(** ** The machine *)

Section Match.
Variable pattern_start : Z.
Variable prog : list item.
Notation pattern_end := (pattern_start + size prog).
Variables (b : re_buffer) (m0 : memory).
Definition outside (x : Z) : Prop := ~ pattern_start <= x < pattern_end.
Variables (match_end : Z) (t : subject).
Hypothesis T : subject_of b m0 outside match_end t.
Hypothesis pattern_positive : 0 < pattern_start.
Variable re_max_failures : Z.
Variable realloc : Z -> bool.
Variable match_start : Z.

(** There is room for so many failure points: the stack is doubled each time
    it is full. *)
Definition stack_room (n : Z) : Prop :=
  forall k, 0 <= k -> 2 * RE_NFAILURES * 2 ^ k < 2 * n ->
    2 * RE_NFAILURES * 2 ^ k <= re_max_failures /\ realloc (2 * RE_NFAILURES * 2 ^ k * 2) = true.

Hypothesis short : size prog < 32768.

Variable limit : Z.
Hypothesis enough : stack_room limit.

Notation has_pattern := (has_pattern pattern_start prog).
Notation code_at := (code_at pattern_start prog).
Notation step := (re_match_step pattern_start pattern_end b match_end re_max_failures realloc).
Notation loop := (re_match_loop pattern_start pattern_end b match_start match_end re_max_failures realloc).
Notation resume := resume.

(** What a register stands for. *)
Definition register_index (p : Z) : Z := if p =? NULL then -1 else ADDRESS_TO_INDEX b p.

Record good (m : memory) (S : list (Z * Z)) (L : Z) (rs re : Z -> Z) (g : regs) : Prop := {
  good_pattern : has_pattern m;
  good_memory : forall x, outside x -> m x = m0 x;
  good_stack : exists k, 0 <= k /\ L = 2 * RE_NFAILURES * 2 ^ k /\ 2 * size S <= L;
  good_starts : forall n, register_index (rs n) = starts g n;
  good_ends : forall n, register_index (re n) = ends g n
}.

(** The pattern is still that of the expression, and nothing else has
    changed. *)
Definition kept (m : memory) : Prop := has_pattern m /\ forall x, outside x -> m x = m0 x.

(** Register 0 is the whole match. *)
Definition represents (r : result) (o : outcome) : Prop :=
  match o with
  | Matched i g =>
      exists m R, r = Returned i m (Some R) /\ kept m
        /\ reg_start R 0 = register_index match_start /\ reg_end R 0 = i
        /\ forall n, n <> 0 -> reg_start R n = starts g n /\ reg_end R n = ends g n
  | Failed => exists m, r = Returned (-1) m None /\ kept m
  end.

Definition yields (s : matcher) (o : outcome) : Prop := exists n, represents (loop n s) o.

(** The machine, when it fails in the state [s], comes to the outcome. *)
Definition resumes (s : matcher) (o : outcome) : Prop :=
  match resume (failures s) s with
  | Normal _ s => yields s o
  | RE_RETURN v s => represents (Returned v (mem s) None) o
  | _ => False
  end.

(** The stack [S] stands for the failure continuation [F]. *)
Definition fails (S : list (Z * Z)) (F : failure) : Prop :=
  forall m pc q L rs re g, good m S L rs re g -> resumes (mk_matcher m pc q S L rs re) (F g).

(** The success continuation at the address [a], when it is given a stack no
    deeper than [bound] for each index. *)
Definition continues (a i0 : Z) (least : Z) (bound : Z -> Z) (K : success) : Prop :=
  forall m j S L rs re g F,
    i0 <= j <= stop t -> least <= size S <= bound j -> fails S F -> good m S L rs re g ->
    yields (mk_matcher m a (address b j) S L rs re) (K j g F).

Lemma yields_step s o :
  pattern_pc s < pattern_end ->
  match step s with
  | Normal _ s => yields s o
  | RE_RETURN v s => represents (Returned v (mem s) None) o
  | _ => False
  end -> yields s o.
Proof.
  intros H Y. destruct (step s) as [[] s'|s'|v s'|] eqn:E; try contradiction.
  - destruct Y as [n Y]. exists (S n). cbn [re_match_loop]. rewrite E, Z.geb_leb.
    now rewrite (proj2 (Z.leb_gt _ _) H).
  - exists 1%nat. cbn [re_match_loop]. rewrite E, Z.geb_leb. now rewrite (proj2 (Z.leb_gt _ _) H).
Qed.

(** One instruction. *)
Lemma yields_opcode m a code q S L rs re o :
  m a = opcode code -> a < pattern_end ->
  match re_match_instruction pattern_start pattern_end b match_end re_max_failures realloc (Some code)
          (mk_matcher m (a + 1) q S L rs re) with
  | Normal _ s => yields s o
  | re_match_fail s => resumes s o
  | RE_RETURN v s => represents (Returned v (mem s) None) o
  | Undefined => False
  end -> yields (mk_matcher m a q S L rs re) o.
Proof.
  intros E A H. apply yields_step; [exact A|].
  unfold re_match_step, seq, next_pattern_byte. cbn [mem pattern_pc match_pc failures stack_length register_start register_end].
  rewrite E, SWITCH_ENUM_opcode. destruct (re_match_instruction _ _ _ _ _ _ _ _) as [u s|s|v s|]; auto.
Qed.

Lemma yields_code m a c code q S L rs re g o :
  good m S L rs re g -> code_at a (op code :: c) ->
  match re_match_instruction pattern_start pattern_end b match_end re_max_failures realloc (Some code)
          (mk_matcher m (a + 1) q S L rs re) with
  | Normal _ s => yields s o
  | re_match_fail s => resumes s o
  | RE_RETURN v s => represents (Returned v (mem s) None) o
  | Undefined => False
  end -> yields (mk_matcher m a q S L rs re) o.
Proof.
  intros G C. apply yields_opcode; [exact (code_at_byte _ _ m a _ c (good_pattern _ _ _ _ _ _ G) C)|].
  apply code_at_end in C. autorewrite with size in C. pose proof (list_size_nonneg c). lia.
Qed.

Lemma resumes_fails m pc q S L rs re g F : fails S F -> good m S L rs re g -> resumes (mk_matcher m pc q S L rs re) (F g).
Proof. intros H G. now apply H. Qed.

(** The end of the pattern. *)
Lemma yields_end m j S L rs re g :
  0 <= j -> good m S L rs re g -> yields (mk_matcher m pattern_end (address b j) S L rs re) (Matched j g).
Proof.
  intros J G. exists 1%nat. cbn [re_match_loop pattern_pc]. rewrite Z.geb_leb, Z.leb_refl.
  exists m. eexists. cbn [match_pc mem]. rewrite (ADDRESS_TO_INDEX_address b m0 outside match_end t T).
  pose proof (address_positive b m0 outside match_end t T j J) as P.
  split; [reflexivity|]. split; [now destruct G|]. split; [reflexivity|]. cbn. unfold update. cbn. split.
  - rewrite (proj2 (Z.eqb_neq _ _)) by lia. apply (ADDRESS_TO_INDEX_address b m0 outside match_end t T).
  - intros n N. rewrite (proj2 (Z.eqb_neq _ _) N). split; [apply (good_starts _ _ _ _ _ _ G)|apply (good_ends _ _ _ _ _ _ G)].
Qed.

(** *** Reading *)

Lemma char_at m S L rs re g i :
  good m S L rs re g -> first t <= i < last t -> TRANSLATE_CHAR m (translation b) (m (address b i)) = char t i.
Proof.
  intros G H. destruct (chars _ _ _ _ _ T i H) as (O & B & ->). unfold TRANSLATE_CHAR.
  rewrite (good_memory _ _ _ _ _ _ G _ O). destruct (Z.eqb_spec (translation b) 0) as [E|E]; [reflexivity|].
  apply (good_memory _ _ _ _ _ _ G). now apply (translations _ _ _ _ _ T E).
Qed.

Lemma char_byte i : first t <= i < last t -> byte (char t i).
Proof.
  intros H. destruct (chars _ _ _ _ _ T i H) as (O & B & ->). unfold TRANSLATE_CHAR.
  destruct (Z.eqb_spec (translation b) 0) as [E|E]; [assumption|]. now apply (translations _ _ _ _ _ T E).
Qed.

Lemma read_match_char m pc i S L rs re g :
  good m S L rs re g -> first t <= i ->
  READ_MATCH_CHAR b match_end (mk_matcher m pc (address b i) S L rs re)
  = if i <? stop t then Normal (char t i) (mk_matcher m pc (address b (i + 1)) S L rs re)
    else re_match_fail (mk_matcher m pc (address b i) S L rs re).
Proof.
  intros G H. unfold READ_MATCH_CHAR, seq, guard, set_match_pc, pure, lose.
  cbn [mem pattern_pc match_pc failures stack_length register_start register_end].
  rewrite (address_stop b m0 outside match_end t T). pose proof (order _ _ _ _ _ T).
  destruct (Z.ltb_spec i (stop t)); [|reflexivity].
  rewrite (address_next b m0 outside match_end t T) by lia. now rewrite (char_at m S L rs re g i G) by lia.
Qed.

Ltac fields := cbn [mem pattern_pc match_pc failures stack_length register_start register_end].
Lemma read_pattern_char m a n c q S L rs re g :
  good m S L rs re g -> code_at a (Byte n :: c) ->
  read (READ_PATTERN_CHAR pattern_end) (mk_matcher m a q S L rs re) = Normal n (mk_matcher m (a + 1) q S L rs re).
Proof. intros G C. unfold read. fields. erewrite pattern_char by (first [apply G|eassumption]). reflexivity. Qed.

Lemma read_pattern_length m a n c q S L rs re g :
  good m S L rs re g -> code_at a (Byte n :: c) -> n <= size c ->
  read (READ_PATTERN_LENGTH pattern_end) (mk_matcher m a q S L rs re) = Normal n (mk_matcher m (a + 1) q S L rs re).
Proof. intros G C N. unfold read. fields. erewrite pattern_length by (first [apply G|eassumption]). reflexivity. Qed.

Lemma read_pattern_register m a n c q S L rs re g :
  good m S L rs re g -> code_at a (Byte n :: c) -> n < RE_NREGS ->
  read (READ_PATTERN_REGISTER pattern_end) (mk_matcher m a q S L rs re) = Normal n (mk_matcher m (a + 1) q S L rs re).
Proof. intros G C N. unfold read. fields. erewrite pattern_register by (first [apply G|eassumption]). reflexivity. Qed.

Lemma read_pattern_syntaxcode m a n c q S L rs re g :
  good m S L rs re g -> code_at a (Byte n :: c) -> n < syntaxcode_max ->
  read (READ_PATTERN_SYNTAXCODE pattern_end) (mk_matcher m a q S L rs re) = Normal n (mk_matcher m (a + 1) q S L rs re).
Proof. intros G C N. unfold read. fields. erewrite pattern_syntaxcode by (first [apply G|eassumption]). reflexivity. Qed.

Lemma read_pattern_offset m a o c q S L rs re g :
  good m S L rs re g -> code_at a (offset o ++ c) -> -32768 <= o < 32768 ->
  pattern_start <= a + 2 + o <= pattern_end ->
  read (READ_PATTERN_OFFSET pattern_start pattern_end) (mk_matcher m a q S L rs re)
  = Normal o (mk_matcher m (a + 2) q S L rs re).
Proof.
  intros G C O I. unfold read. fields.
  now rewrite (pattern_offset pattern_start prog m a o c (good_pattern _ _ _ _ _ _ G) C O I).
Qed.

(** *** Failure points *)

Lemma good_failures m S L rs re g S' : good m S L rs re g -> size S' <= size S -> good m S' L rs re g.
Proof. intros [A B (k & C & D & E) F H] N. split; auto. exists k. lia. Qed.

Lemma push_failure_point m pc q p i S L rs re g :
  good m S L rs re g -> size S < limit ->
  exists L', PUSH_FAILURE_POINT re_max_failures realloc p i (mk_matcher m pc q S L rs re)
               = Normal tt (mk_matcher m pc q ((p, i) :: S) L' rs re)
    /\ good m ((p, i) :: S) L' rs re g.
Proof.
  intros [A B (k & C & D & E) F H] N. unfold PUSH_FAILURE_POINT, seq, set_failures, set_stack_length, RETURN, pure.
  fields. fold (size S). destruct (Z.eqb_spec (size S * 2) L) as [Q|Q].
  - destruct (enough k C) as [R1 R2]; [lia|]. rewrite Z.gtb_ltb, (proj2 (Z.ltb_ge _ _)) by lia. rewrite D, R2. cbn [negb].
    fields. eexists. split; [reflexivity|]. split; auto. exists (k + 1). rewrite Z.pow_add_r, size_cons by lia.
    pose proof (Z.pow_pos_nonneg 2 k). lia.
  - exists L. split; [reflexivity|]. split; auto. exists k. rewrite size_cons.
    assert (exists h, L = 2 * h) as [h Eh] by (exists (RE_NFAILURES * 2 ^ k); lia). lia.
Qed.

Lemma fails_push S F p i :
  p <> NULL ->
  (forall m L rs re g, good m S L rs re g -> yields (mk_matcher m p i S L rs re) (F g)) ->
  fails ((p, i) :: S) F.
Proof.
  intros P H m pc q L rs re g G. unfold resumes, resume. fields. cbn [pop_failure].
  rewrite (proj2 (Z.eqb_neq _ _) P). cbn [negb]. cbv beta iota delta [seq set_failures set_match_pc set_pattern_pc].
  fields. apply H. eapply good_failures; [exact G|]. rewrite size_cons. lia.
Qed.

Lemma fails_dummy S F : fails S F -> fails ((NULL, NULL) :: S) F.
Proof.
  intros H m pc q L rs re g G. unfold resumes, resume. fields. cbn [pop_failure]. cbn [Z.eqb negb].
  apply (good_failures _ _ _ _ _ _ S) in G; [|rewrite size_cons; lia]. exact (H m pc q L rs re g G).
Qed.

Lemma fails_empty : fails [] (fun _ => Failed).
Proof. intros m pc q L rs re g G. unfold resumes, resume. fields. cbn. exists m. now destruct G. Qed.

Lemma continued a i0 least bound K m pc j S L rs re g F :
  continues a i0 least bound K -> pc = a -> i0 <= j <= stop t -> least <= size S <= bound j ->
  fails S F -> good m S L rs re g -> yields (mk_matcher m pc (address b j) S L rs re) (K j g F).
Proof. intros H -> I D HF G. now apply H. Qed.

(** *** Expressions that match at once *)

Definition consumed (r : regex) (i : Z) : Z := if nullable r then i else i + 1.

(** The code of [r] at [a], with the continuations [K] and [F]. *)
Definition correct (r : regex) : Prop :=
  forall a i m S L rs re g K F,
    code_at a (compile r) -> first t <= i <= stop t ->
    size S + depth r (stop t - i) <= limit ->
    fails S F ->
    (a + size (compile r) = pattern_end -> forall j g F, K j g F = Matched j g) ->
    continues (a + size (compile r)) (consumed r i) (size S) (fun j => size S + depth r (j - i)) K ->
    good m S L rs re g ->
    yields (mk_matcher m a (address b i) S L rs re) (backtrack t r i g K F).

Ltac code C := eapply yields_code; [eassumption|exact C|]; cbn [re_match_instruction].
Ltac failed := eapply resumes_fails; eassumption.
Ltac read_char :=
  unfold seq at 1; erewrite read_match_char by (first [eassumption|lia]); case_if; cbn [andb]; [|failed].
Ltac check := unfold guard, lose, pure; case_if; [|failed].
Ltac go_on := eapply continued; [eassumption|try lia|try lia|cbv beta; try lia|eassumption|eassumption].

Ltac base := intros pc i m S L rs re g K F C I D HF _ HK G; unfold consumed, depth in *;
  cbn [compile backtrack nullable pushes] in *.

Ltac char_set C :=
  unfold RE_MATCH_CHAR_SET; read_char; unfold seq, set_pattern_pc, bytes in *;
  erewrite read_pattern_length by (first [eassumption|autorewrite with size; lia]); fields;
  apply code_at_tail in C; rewrite <- (app_nil_r (map _ _)) in C; autorewrite with size in *;
  erewrite member_char_set by (first [eassumption|apply char_byte; lia|match goal with G : good _ _ _ _ _ _ |- _ => apply G end]).

Lemma one_correct a : wf_atom a -> correct (One a).
Proof.
  intros W. base. pose proof (order _ _ _ _ _ T) as O.
  destruct a as [c| |bs|bs|w|n w]; cbn [compile_atom accepts wf_atom] in *; autorewrite with size in HK;
    code C; apply code_at_tail in C.
  - unfold match_exact_1. read_char. unfold seq. erewrite read_pattern_char by eassumption. check. go_on.
  - unfold match_any_char. read_char. check. go_on.
  - char_set C. case_if; [go_on|failed].
  - char_set C. case_if; cbn [negb]; [failed|go_on].
  - destruct w; cbn [re_match_instruction]; unfold match_word_char; read_char; rewrite (same_table _ _ _ _ _ T); check; go_on.
  - destruct w; cbn [re_match_instruction]; unfold match_syntax_spec; read_char; unfold seq;
      erewrite read_pattern_syntaxcode by (first [eassumption|lia]); rewrite (same_table _ _ _ _ _ T); check; go_on.
Qed.

Lemma match_exact_spec m S L rs re g cs c a i :
  good m S L rs re g -> code_at a (bytes cs ++ c) -> first t <= i ->
  exists a' q',
    match_exact b match_end (length cs) (mk_matcher m a (address b i) S L rs re)
    = if at_index t cs i then Normal tt (mk_matcher m (a + size cs) (address b (i + size cs)) S L rs re)
      else re_match_fail (mk_matcher m a' q' S L rs re).
Proof.
  intros G. revert a i. induction cs as [|z cs IH]; intros a i C I; cbn [at_index match_exact length].
  - rewrite size_nil, !Z.add_0_r. eauto.
  - unfold seq at 1. erewrite read_match_char by (first [eassumption|lia]). cbn [bytes map app] in C.
    destruct (i <? stop t); cbn [andb]; [|eauto]. unfold seq at 1, next_pattern_byte. fields.
    rewrite (code_at_byte _ _ m a _ _ (good_pattern _ _ _ _ _ _ G) C). unfold seq, guard, lose, pure.
    destruct (char t i =? z); cbn [andb]; [|eauto].
    specialize (IH (a + 1) (i + 1) (code_at_tail _ _ _ _ _ C) ltac:(lia)). rewrite size_cons.
    rewrite !Z.add_assoc. exact IH.
Qed.

Lemma at_index_stop cs i : cs <> [] -> at_index t cs i = true -> i + size cs <= stop t.
Proof.
  revert i. induction cs as [|z cs IH]; intros i N H; [easy|]. cbn [at_index] in H. reflect_bools. rewrite size_cons.
  destruct cs as [|z' cs]; [rewrite size_nil; lia|].
  specialize (IH (i + 1) ltac:(discriminate) ltac:(assumption)). lia.
Qed.

Lemma str_correct cs : wf (Str cs) -> correct (Str cs).
Proof.
  intros [W1 W2]. base. autorewrite with size in HK.
  code C. apply code_at_tail in C. unfold match_exact_n, seq, bytes in *.
  erewrite read_pattern_length by (first [eassumption|autorewrite with size; lia]). autorewrite with size in HK.
  apply code_at_tail in C. rewrite <- (app_nil_r (map _ _)) in C.
  replace (Z.to_nat (size cs)) with (length cs) by (unfold size; lia).
  destruct (match_exact_spec m S L rs re g cs [] _ i G C ltac:(lia)) as (a' & q' & ->).
  destruct (at_index t cs i) eqn:A; [|failed].
  pose proof (list_size_nonneg cs). destruct cs as [|z cs]; [rewrite size_nil, Z.add_0_r in *; go_on|].
  apply at_index_stop in A; [|discriminate]. rewrite size_cons in *. pose proof (list_size_nonneg cs). go_on.
Qed.

Lemma word_bound_spec wb m pc i S L rs re g :
  gap_inside b t -> good m S L rs re g -> first t <= i <= stop t ->
  RE_MATCH_WORD_BOUND b wb (mk_matcher m pc (address b i) S L rs re)
  = guard (wb (word_before t i) (word_after t i)) (mk_matcher m pc (address b i) S L rs re).
Proof.
  intros W G I. unfold RE_MATCH_WORD_BOUND. cbv beta zeta. fields. f_equal. f_equal.
  pose proof (order _ _ _ _ _ T) as O. pose proof (gap_order _ _ _ _ _ T) as Q.
  set (w p := WORD_CONSTITUENT_P (syntax_table b) (TRANSLATE_CHAR m (translation b) (m p))).
  assert (B : forall e p, e = (i =? first t) -> (i <> first t -> p = address b (i - 1)) ->
              negb e && w p = word_before t i).
  { intros e p -> P. unfold word_before, w. destruct (Z.eqb_spec i (first t)) as [|N]; [reflexivity|].
    rewrite (P N), (char_at m S L rs re g _ G), (same_table _ _ _ _ _ T) by lia. reflexivity. }
  assert (A : forall e p, e = (i =? last t) -> (i <> last t -> p = address b i) ->
              negb e && w p = word_after t i).
  { intros e p -> P. unfold word_after, w. destruct (Z.eqb_spec i (last t)) as [|N]; [reflexivity|].
    rewrite (P N), (char_at m S L rs re g _ G), (same_table _ _ _ _ _ T) by lia. reflexivity. }
  rewrite (start_at _ _ _ _ _ T), (end_at _ _ _ _ _ T).
  destruct (Z.eqb_spec (address b i) (gap_end b)) as [E|E]; f_equal; first [apply B|apply A];
    unfold gap_inside, address, gap_index in *; try reflexivity; intros;
    repeat match goal with
    | |- context [?x <=? ?y] => destruct (Z.leb_spec x y)
    | H : context [?x <=? ?y] |- _ => destruct (Z.leb_spec x y)
    | |- context [?x =? ?y] => destruct (Z.eqb_spec x y)
    | H : context [?x =? ?y] |- _ => destruct (Z.eqb_spec x y)
    end; try reflexivity; lia.
Qed.

(** *** Expressions that match the empty string *)

Lemma test_correct k : (word_tests (Test k) = true -> gap_inside b t) -> correct (Test k).
Proof.
  intros W. base. pose proof (order _ _ _ _ _ T) as O. autorewrite with size in HK. code C.
  destruct k; cbn [compile_test holds re_match_instruction word_tests] in *;
    try (erewrite word_bound_spec by (first [eassumption|auto]);
         unfold WORD_START_P, WORD_END_P, WORD_BOUND_P, NOT_WORD_BOUND_P; check; go_on).
  - unfold match_line_start. fields. rewrite (index_start b m0 outside match_end t T).
    destruct (Z.eqb_spec i (first t)); cbn [orb]; [go_on|].
    rewrite (address_before b m0 outside match_end t T).
    rewrite (char_at m S L rs re g (i - 1) G) by lia. check; go_on.
  - unfold match_line_end. fields. rewrite (index_end b m0 outside match_end t T).
    destruct (Z.eqb_spec i (last t)); cbn [orb]; [go_on|].
    rewrite (char_at m S L rs re g i G) by lia. check; go_on.
  - unfold match_buffer_start. fields. rewrite (index_start b m0 outside match_end t T). check; go_on.
  - unfold match_buffer_end. fields. rewrite (index_end b m0 outside match_end t T). check; go_on.
Qed.

Lemma register_update f n p i :
  (forall k, register_index (f k) = i k) ->
  forall j, register_index p = j -> forall k, register_index (update f n p k) = update i n j k.
Proof. intros H j <- k. unfold update. now destruct (k =? n). Qed.

Lemma register_address i : 0 <= i -> register_index (address b i) = i.
Proof.
  intros I. unfold register_index. pose proof (address_positive b m0 outside match_end t T i I).
  rewrite (proj2 (Z.eqb_neq _ _)) by lia. apply (ADDRESS_TO_INDEX_address b m0 outside match_end t T).
Qed.

Lemma open_correct n : wf (Open n) -> correct (Open n).
Proof.
  intros [_ W]. base. pose proof (order _ _ _ _ _ T) as O. autorewrite with size in HK. code C.
  apply code_at_tail in C. unfold match_start_memory, seq. erewrite read_pattern_register by eassumption.
  unfold set_register_start. fields.
  eapply continued; [eassumption|try lia|lia|cbv beta; lia|eassumption|].
  destruct G as [G1 G2 G3 G4 G5]. split; auto. cbn [open_reg starts ends].
  apply register_update; [assumption|]. apply register_address. lia.
Qed.

Lemma close_correct n : wf (Close n) -> correct (Close n).
Proof.
  intros [_ W]. base. pose proof (order _ _ _ _ _ T) as O. autorewrite with size in HK. code C.
  apply code_at_tail in C. unfold match_stop_memory, seq. erewrite read_pattern_register by eassumption.
  unfold set_register_end. fields.
  eapply continued; [eassumption|try lia|lia|cbv beta; lia|eassumption|].
  destruct G as [G1 G2 G3 G4 G5]. split; auto. cbn [close_reg starts ends].
  apply register_update; [assumption|]. unfold register_index.
  rewrite (address_close b m0 outside match_end t T).
  rewrite (proj2 (Z.eqb_neq _ _)); [reflexivity|].
  pose proof (close_positive b m0 outside match_end t T i). lia.
Qed.


(** *** Jumps *)

Lemma continues_weaken a a' i0 i0' least least' bound bound' K :
  continues a i0 least bound K -> a' = a -> i0 <= i0' -> least <= least' ->
  (forall j, i0' <= j <= stop t -> bound' j <= bound j) -> continues a' i0' least' bound' K.
Proof. intros H -> I L B m j S Ls rs re g F J D HF G. apply H; auto; [lia|]. specialize (B j J). lia. Qed.

Lemma jump_spec a o c m q S L rs re g out :
  code_at a (op regexpcode_jump :: offset o ++ c) -> -32768 <= o < 32768 ->
  pattern_start <= a + 3 + o <= pattern_end -> good m S L rs re g ->
  yields (mk_matcher m (a + 3 + o) q S L rs re) out -> yields (mk_matcher m a q S L rs re) out.
Proof.
  intros C O I G Y. code C. apply code_at_tail in C. unfold re_match_jump, seq.
  erewrite read_pattern_offset by (first [eassumption|lia]). unfold set_pattern_pc. fields.
  now replace (a + 1 + 2 + o) with (a + 3 + o) by lia.
Qed.

Lemma on_failure_jump_spec a o c m i S L rs re g out :
  code_at a (op regexpcode_on_failure_jump :: offset o ++ c) -> -32768 <= o < 32768 ->
  pattern_start <= a + 3 + o <= pattern_end -> good m S L rs re g -> size S < limit ->
  (forall L', good m ((a + 3 + o, i) :: S) L' rs re g ->
     yields (mk_matcher m (a + 3) i ((a + 3 + o, i) :: S) L' rs re) out) ->
  yields (mk_matcher m a i S L rs re) out.
Proof.
  intros C O I G D Y. code C. apply code_at_tail in C. unfold match_on_failure_jump, seq.
  erewrite read_pattern_offset by (first [eassumption|lia]). fields. replace (a + 1 + 2) with (a + 3) by lia.
  destruct (push_failure_point m (a + 3) i (a + 3 + o) i S L rs re g G D) as (L' & -> & G'). now apply Y.
Qed.

Lemma dummy_failure_jump_spec a o c m i S L rs re g out :
  code_at a (op regexpcode_dummy_failure_jump :: offset o ++ c) -> -32768 <= o < 32768 ->
  pattern_start <= a + 3 + o <= pattern_end -> good m S L rs re g -> size S < limit ->
  (forall L', good m ((NULL, NULL) :: S) L' rs re g ->
     yields (mk_matcher m (a + 3 + o) i ((NULL, NULL) :: S) L' rs re) out) ->
  yields (mk_matcher m a i S L rs re) out.
Proof.
  intros C O I G D Y. code C. apply code_at_tail in C. unfold match_dummy_failure_jump, seq.
  destruct (push_failure_point m (a + 1) i NULL NULL S L rs re g G D) as (L' & -> & G').
  unfold re_match_jump, seq. erewrite read_pattern_offset by (first [eassumption|lia]).
  unfold set_pattern_pc. fields. replace (a + 1 + 2 + o) with (a + 3 + o) by lia. now apply Y.
Qed.

(** The end of a repeat: the loop goes on, and at the end of the pattern the
    top failure point is dropped. *)
Lemma repeat_spec x o c m q S S' L rs re g out :
  code_at x (Repeat :: offset o ++ c) -> -32768 <= o < 32768 -> pattern_start <= x + 3 + o <= pattern_end ->
  code_at (x + 3 + o) [op regexpcode_on_failure_jump] ->
  (if x + 3 =? pattern_end then exists p, S = p :: S' else S = S') -> good m S L rs re g ->
  (forall m, good m S' L rs re g -> yields (mk_matcher m (x + 3 + o) q S' L rs re) out) ->
  yields (mk_matcher m x q S L rs re) out.
Proof.
  intros C O I C' E G Y. pose proof (code_at_end _ _ _ _ C) as X. autorewrite with size in X.
  pose proof (list_size_nonneg c) as X0.
  assert (J : forall m, good m S L rs re g ->
    match (if x + 3 =? pattern_end then re_match_finalize_jump pattern_start pattern_end
           else re_match_jump pattern_start pattern_end) (mk_matcher m (x + 1) q S L rs re) with
    | Normal _ s => yields s out
    | re_match_fail s => resumes s out
    | RE_RETURN v s => represents (Returned v (Regex.mem s) None) out
    | Undefined => False
    end).
  { clear m G. intros m G. apply code_at_tail in C.
    assert (G' : good m S' L rs re g).
    { eapply good_failures; [exact G|]. destruct (x + 3 =? _); [destruct E as [p ->]; rewrite size_cons|subst]; lia. }
    destruct (x + 3 =? _); [destruct E as [p ->]; unfold re_match_finalize_jump; fields; unfold seq at 1, set_failures; fields
                           |subst S'];
      unfold re_match_jump, seq; erewrite read_pattern_offset by (first [eassumption|lia]);
      unfold set_pattern_pc; fields; replace (x + 1 + 2 + o) with (x + 3 + o) by lia; auto. }
  destruct (code_at_head _ _ m x Repeat _ (good_pattern _ _ _ _ _ _ G) C) as [M|M].
  - eapply yields_opcode; [exact M|lia|]. cbn [re_match_instruction]. unfold match_maybe_finalize_jump, seq.
    erewrite read_pattern_offset by (first [eapply code_at_tail; eassumption|eassumption|lia]).
    unfold set_pattern_pc, set_mem. fields.
    replace (x + 1 + 2 - 2 - 1) with x by lia. replace (x + 1 + 2 - 2) with (x + 1) by lia.
    replace (x + 1 + 2) with (x + 3) by lia.
    assert (Fz : finalize_p pattern_end m (x + 3) o = (x + 3 =? pattern_end)).
    { unfold finalize_p, incompatible. destruct (x + 3 =? _); [reflexivity|]. cbn [orb].
      destruct (following_char m (x + 3)); [|reflexivity].
      now rewrite (code_at_byte _ _ m _ _ _ (good_pattern _ _ _ _ _ _ G) C'), SWITCH_ENUM_opcode. }
    rewrite Fz.
    assert (Gs : good (store m x (opcode (if x + 3 =? pattern_end then regexpcode_finalize_jump else regexpcode_jump))) S L rs re g).
    { destruct G as [G1 G2 G3 G4 G5]. split; auto; [eapply has_pattern_store; eassumption|].
      intros y Y'. rewrite <- (G2 y Y'). unfold store, outside in *. case_if; [lia|reflexivity]. }
    specialize (J _ Gs). destruct (x + 3 =? pattern_end); exact J.
  - specialize (J m G). destruct (x + 3 =? pattern_end) eqn:Q; (eapply yields_opcode; [exact M|lia|exact J]).
Qed.

(** *** Sequences, alternatives and repeats *)

Lemma pushes_nonneg r : 0 <= pushes r.
Proof. induction r; cbn [pushes]; lia. Qed.

Ltac nonempty :=
  intros N; exfalso; revert N; unfold compile_loop, bytes; autorewrite with size;
  repeat match goal with
  | |- context [size ?l] => generalize (list_size_nonneg l); generalize (size l); intros ? ?
  end; lia.

Lemma empty_backtrack r i g K F : size (compile r) = 0 -> backtrack t r i g K F = K i g F.
Proof.
  revert i g K F. induction r as [|a|cs|k|n|n|r1 IH1 r2 IH2|r1 IH1 r2 IH2|r IH|r IH|r IH]; intros i g K F;
    cbn [compile backtrack]; try nonempty.
  - reflexivity.
  - destruct a as [| | | |[]|? []]; cbn [compile_atom]; nonempty.
  - rewrite size_app. intros N. pose proof (list_size_nonneg (compile r1)). pose proof (list_size_nonneg (compile r2)).
    rewrite IH1, IH2 by lia. reflexivity.
Qed.

Ltac sizes :=
  repeat match goal with
  | C : code_at ?a ?c |- _ => lazymatch goal with _ : pattern_start <= a /\ a + size c <= pattern_end |- _ => fail | _ => idtac end;
      pose proof (code_at_end _ _ _ _ C)
  end; autorewrite with size in *;
  repeat match goal with
  | _ : context [size ?l] |- _ => lazymatch goal with _ : 0 <= size l |- _ => fail | _ => pose proof (list_size_nonneg l) end
  end;
  repeat match goal with
  | _ : context [pushes ?r] |- _ => lazymatch goal with _ : 0 <= pushes r |- _ => fail | _ => pose proof (pushes_nonneg r) end
  end.

Lemma consumed_range r i : i <= consumed r i <= i + 1.
Proof. unfold consumed. destruct (nullable r); lia. Qed.

Lemma seq_correct r1 r2 : correct r1 -> correct r2 -> correct (Seq r1 r2).
Proof.
  intros IH1 IH2 pc i m S L rs re g K F C I D HF E HK G. unfold depth in *. cbn [pushes] in *.
  cbn [compile backtrack] in *. pose proof (code_at_start _ _ _ _ _ C) as C1.
  pose proof (code_at_rest _ _ _ _ _ C) as C2. rewrite size_app in *. clear C.
  pose proof (consumed_range r1 i) as N.
  pose proof (pushes_nonneg r1). pose proof (pushes_nonneg r2).
  apply (IH1 pc i m S L rs re g (fun j g F => backtrack t r2 j g K F) F); auto; unfold depth in *; [nia| |].
  - intros A j g' F'. rewrite empty_backtrack by (apply code_at_end in C2; pose proof (list_size_nonneg (compile r2)); lia).
    apply E. apply code_at_end in C2; pose proof (list_size_nonneg (compile r2)); lia.
  - intros m' j S' L' rs' re' g' F' J B HF' G'. apply IH2; auto; unfold depth in *; [lia|nia|intros A; apply E; lia|].
    pose proof (consumed_range r2 j).
    eapply continues_weaken; [exact HK|lia| |lia|cbv beta; intros; nia].
    unfold consumed in *. cbn [nullable]. destruct (nullable r1), (nullable r2); cbn [andb]; lia.
Qed.

Lemma opt_correct r : correct r -> correct (Opt r).
Proof.
  intros IH pc i m S L rs re g K F C I D HF E HK G. unfold depth, consumed in *. cbn [pushes nullable] in *.
  cbn [compile backtrack] in *. pose proof (code_at_rest _ _ _ _ _ C) as C2. autorewrite with size in *.
  pose proof (pushes_nonneg r). sizes.
  rewrite <- app_comm_cons in C. eapply on_failure_jump_spec; [exact C|lia|lia|exact G|nia|]. intros L' G'.
  replace (pc + (1 + 2)) with (pc + 3) in C2 by lia.
  apply IH; auto; unfold depth; autorewrite with size; [nia| |intros A; apply E; lia|].
  - apply fails_push; [lia|]. intros. eapply continued; [exact HK|lia|lia|cbv beta; nia|exact HF|assumption].
  - pose proof (consumed_range r i). eapply continues_weaken; [exact HK|lia|lia|lia|cbv beta; intros; nia].
Qed.

Lemma joint_nonneg r : 0 <= joint r.
Proof. unfold joint. destruct r; try apply list_size_nonneg. pose proof (list_size_nonneg (compile r1)). lia. Qed.

(** From the jump after the first alternative to the end of the last. *)
Lemma joint_spec r a m q S L rs re g out :
  code_at a (compile r) -> good m S L rs re g ->
  yields (mk_matcher m (a + size (compile r)) q S L rs re) out ->
  yields (mk_matcher m (a + joint r) q S L rs re) out.
Proof.
  revert a. induction r as [|?|?|?|?|?|? ? ? ?|r1 _ r2 IH|? ?|? ?|? ?]; intros pc C G Y; try exact Y.
  rename pc into a.
  rewrite compile_alt in C, Y. unfold joint. apply code_at_rest in C. apply code_at_rest in C.
  pose proof (code_at_rest _ _ _ _ _ C) as C2. rewrite <- app_comm_cons in C. autorewrite with size in *.
  pose proof (code_at_joint_end _ _ _ _ C2) as J.
  pose proof (joint_nonneg r2). sizes.
  replace (a + (3 + size (compile r1))) with (a + (1 + 2) + size (compile r1)) by lia.
  eapply jump_spec; [exact C|lia|lia|exact G|].
  replace (a + (1 + 2) + size (compile r1) + 3) with (a + (1 + 2) + size (compile r1) + (1 + 2)) by lia.
  apply IH; [exact C2|exact G|].
  now replace (a + (1 + 2) + size (compile r1) + (1 + 2) + size (compile r2))
    with (a + (1 + 2 + (size (compile r1) + (1 + 2 + size (compile r2))))) by lia.
Qed.

Lemma alt_correct r1 r2 : correct r1 -> correct r2 -> correct (Alt r1 r2).
Proof.
  intros IH1 IH2 pc i m S L rs re g K F C I D HF E HK G. unfold depth, consumed in *. cbn [pushes nullable] in *.
  rewrite compile_alt in *. cbn [backtrack]. pose proof (code_at_rest _ _ _ _ _ C) as C1.
  pose proof (code_at_rest _ _ _ _ _ C1) as CJ. pose proof (code_at_rest _ _ _ _ _ CJ) as C2.
  apply code_at_start in C1. rewrite <- app_comm_cons in CJ, C. autorewrite with size in *.
  pose proof (code_at_joint_end _ _ _ _ C2) as J.
  pose proof (joint_nonneg r2).
  pose proof (pushes_nonneg r1). pose proof (pushes_nonneg r2). sizes.
  eapply on_failure_jump_spec; [exact C|lia|lia|exact G|nia|]. intros L' G'.
  replace (pc + (1 + 2)) with (pc + 3) in * by lia.
  apply IH1; auto; unfold depth; autorewrite with size; [nia| |lia|].
  - apply fails_push; [lia|]. intros m' L'' rs' re' g' G''.
    replace (pc + 3 + (size (compile r1) + 3)) with (pc + 3 + size (compile r1) + (1 + 2)) by lia.
    apply IH2; auto; unfold depth; [nia|intros A; apply E; lia|].
    unfold consumed. eapply continues_weaken; [exact HK|lia| |lia|cbv beta; intros; destruct (nullable r2); nia].
    destruct (nullable r1), (nullable r2); cbn [orb]; lia.
  - intros m' j S' L'' rs' re' g' F' J' B HF' G''. unfold consumed in J'. autorewrite with size in B.
    replace (pc + 3 + size (compile r1)) with (pc + 3 + size (compile r1)) by lia.
    eapply jump_spec; [exact CJ|lia|lia|exact G''|].
    replace (pc + 3 + size (compile r1) + 3) with (pc + 3 + size (compile r1) + (1 + 2)) by lia.
    eapply joint_spec; [exact C2|exact G''|].
    eapply continued; [exact HK|lia| |cbv beta|exact HF'|exact G''];
      destruct (nullable r1), (nullable r2); cbn [orb]; try lia; nia.
Qed.

(** The parts of a loop: the failure jump, the body, the repeat. *)
Lemma loop_code a c :
  code_at a (compile_loop c) ->
  code_at a (op regexpcode_on_failure_jump :: offset (size c + 3) ++ (c ++ Repeat :: offset (- (size c + 6))))
  /\ code_at (a + 3) c /\ code_at (a + 3 + size c) (Repeat :: offset (- (size c + 6)) ++ [])
  /\ size (compile_loop c) = size c + 6 /\ 0 <= size c.
Proof.
  unfold compile_loop. intros C. pose proof (code_at_rest _ _ _ _ _ C) as C1.
  pose proof (code_at_start _ _ _ _ _ C1) as C2. apply code_at_rest in C1.
  rewrite app_nil_r. autorewrite with size in *. rewrite <- app_comm_cons in C.
  repeat split; auto; [lia|apply list_size_nonneg].
Qed.

Definition last_loop (a : Z) (r : regex) : Prop := a + size (compile_loop (compile r)) = pattern_end.

(** The end of the body of a loop: [S'] is the stack with which the loop goes
    on. *)
Lemma loop_repeat r a m q S S' L rs re g out :
  code_at a (compile_loop (compile r)) ->
  (last_loop a r -> exists p, S = p :: S') -> (~ last_loop a r -> S = S') -> good m S L rs re g ->
  (forall m, good m S' L rs re g -> yields (mk_matcher m a q S' L rs re) out) ->
  yields (mk_matcher m (a + 3 + size (compile r)) q S L rs re) out.
Proof.
  intros C E1 E2 G Y. destruct (loop_code _ _ C) as (C1 & C2 & C3 & Z1 & Z2). unfold last_loop in *. sizes.
  assert (X : a + 3 + size (compile r) + 3 + - (size (compile r) + 6) = a) by lia.
  eapply (repeat_spec _ _ _ _ _ _ S'); [exact C3|lia|lia| | |exact G|intros m' G'; rewrite X; auto].
  - rewrite X. rewrite app_comm_cons in C1.
    exact (code_at_start _ _ _ [op regexpcode_on_failure_jump] _ C1).
  - destruct (Z.eqb_spec (a + 3 + size (compile r) + 3) pattern_end); [apply E1|apply E2]; lia.
Qed.

Lemma loop_correct r : correct r -> nullable r = false -> forall n a i m S L rs re g K F,
  code_at a (compile_loop (compile r)) -> first t <= i <= stop t -> stop t - i < Z.of_nat n ->
  size S + (1 + 2 * pushes r) * (stop t - i + 1) <= limit ->
  (~ last_loop a r -> fails S F) ->
  (last_loop a r -> forall j g F, K j g F = Matched j g) ->
  (~ last_loop a r -> continues (a + size (compile_loop (compile r))) i (size S)
     (fun j => size S + (1 + 2 * pushes r) * (j - i)) K) ->
  good m S L rs re g ->
  yields (mk_matcher m a (address b i) S L rs re) (repetition (backtrack t r) n i g K F).
Proof.
  intros IH N n. induction n as [|n IHn]; intros a i m S L rs re g K F C I Rm D HF E HK G; [lia|].
  destruct (loop_code _ _ C) as (C1 & C2 & C3 & Z1 & Z2). cbn [repetition]. pose proof (order _ _ _ _ _ T) as O.
  pose proof (pushes_nonneg r). sizes.
  eapply on_failure_jump_spec; [exact C1|lia|lia|exact G|nia|]. intros L' G'.
  replace (a + 3 + (size (compile r) + 3)) with (a + size (compile_loop (compile r))) in * by lia.
  assert (Dc : last_loop a r \/ ~ last_loop a r) by (unfold last_loop; lia).
  apply IH; auto; unfold depth, consumed; rewrite ?N, ?size_cons; [nia| |lia|].
  - apply fails_push; [lia|]. intros m' L'' rs' re' g' G''. destruct Dc as [La|La].
    + rewrite (E La), La. apply yields_end; [lia|assumption].
    + eapply continued; [exact (HK La)|lia|lia|cbv beta; lia|auto|assumption].
  - intros m' j S' L'' rs' re' g' F' J B HF' G''.
    destruct Dc as [La|La].
    + destruct S' as [|p S']; [rewrite size_nil in B; lia|]. rewrite size_cons in B.
      eapply loop_repeat; [exact C|eauto|contradiction|exact G''|]. intros m'' G3.
      apply IHn; auto; [lia|lia|nia|contradiction|contradiction].
    + eapply loop_repeat; [exact C|contradiction|reflexivity|exact G''|]. intros m'' G3.
      apply IHn; auto; [lia|lia|nia|]. intros _.
      eapply continues_weaken; [exact (HK La)|lia|lia|lia|cbv beta; intros; nia].
Qed.

Lemma star_correct r : correct r -> nullable r = false -> correct (Star r).
Proof.
  intros IH N pc i m S L rs re g K F C I D HF E HK G. unfold depth, consumed in *. cbn [pushes nullable compile backtrack] in *.
  pose proof (pushes_nonneg r).
  apply loop_correct; auto; [unfold room; lia|].
  intros _. eapply continues_weaken; [exact HK|lia|lia|lia|cbv beta; intros; nia].
Qed.

Lemma plus_correct r : correct r -> nullable r = false -> correct (Plus r).
Proof.
  intros IH N pc i m S L rs re g K F C I D HF E HK G. unfold depth, consumed in *. cbn [pushes nullable compile backtrack] in *.
  rewrite N in HK. pose proof (code_at_rest _ _ _ _ _ C) as Cl. rewrite <- app_comm_cons in C. autorewrite with size in *.
  replace (pc + (1 + 2)) with (pc + 3) in Cl by lia.
  destruct (loop_code _ _ Cl) as (C1 & C2 & C3 & Z1 & Z2). pose proof (pushes_nonneg r). pose proof (order _ _ _ _ _ T) as O. sizes.
  eapply dummy_failure_jump_spec; [exact C|lia|lia|exact G|nia|]. intros L' G'.
  assert (Dc : last_loop (pc + 3) r \/ ~ last_loop (pc + 3) r) by (unfold last_loop; lia).
  assert (E' : last_loop (pc + 3) r -> forall j g F, K j g F = Matched j g) by (unfold last_loop; intros; apply E; lia).
  apply IH; auto using fails_dummy; unfold depth, consumed; rewrite ?N, ?size_cons; [nia|lia|].
  intros m' j S' L'' rs' re' g' F' J B HF' G''. destruct Dc as [La|La].
  - destruct S' as [|p S']; [rewrite size_nil in B; lia|]. rewrite size_cons in B.
    eapply loop_repeat; [exact Cl|eauto|contradiction|exact G''|]. intros m'' G3.
    apply loop_correct; auto; [lia|unfold room; lia|nia|contradiction|contradiction].
  - eapply loop_repeat; [exact Cl|contradiction|reflexivity|exact G''|]. intros m'' G3.
    apply loop_correct; auto; [lia|unfold room; lia|nia|]. intros _.
    eapply continues_weaken; [exact HK|lia|lia|lia|cbv beta; intros; nia].
Qed.

Theorem backtrack_correct r :
  wf r -> (word_tests r = true -> gap_inside b t) -> correct r.
Proof.
  induction r as [|a|cs|k|n|n|r1 IH1 r2 IH2|r1 IH1 r2 IH2|r IH|r IH|r IH]; cbn [wf word_tests]; intros W G.
  - intros pc i m S L rs re g K F C I D HF E HK Gd. unfold depth, consumed in *. cbn in HK. rewrite Z.add_0_r in HK.
    eapply continued; [exact HK|lia|lia|cbv beta; lia|assumption|assumption].
  - now apply one_correct.
  - now apply str_correct.
  - now apply test_correct.
  - now apply open_correct.
  - now apply close_correct.
  - apply seq_correct; [apply IH1|apply IH2]; try tauto; intros Q; apply G; rewrite Q; auto using orb_true_r.
  - apply alt_correct; [apply IH1|apply IH2]; try tauto; intros Q; apply G; rewrite Q; auto using orb_true_r.
  - apply opt_correct. auto.
  - apply star_correct; [apply IH|]; tauto.
  - apply plus_correct; [apply IH|]; tauto.
Qed.

Lemma register_none n : register_index ((fun _ => NULL) n) = starts no_regs n.
Proof. reflexivity. Qed.

Lemma match_correct r i m :
  prog = compile r -> wf r -> (word_tests r = true -> gap_inside b t) ->
  kept m -> first t <= i <= stop t -> match_start = address b i -> limit = depth r (stop t - i) ->
  exists fuel, represents (re_match pattern_start pattern_end b match_start match_end re_max_failures realloc fuel true m)
    (match_at t r i).
Proof.
  intros Ep W Wt [K1 K2] I E El. unfold re_match, initial_matcher. pose proof (order _ _ _ _ _ T) as O.
  assert (Y : yields (mk_matcher m pattern_start (address b i) [] (2 * RE_NFAILURES) (fun _ => NULL) (fun _ => NULL)) (match_at t r i));
    [|destruct Y as [n Y]; exists n; rewrite <- E in Y; exact Y].
  apply (backtrack_correct r W Wt pattern_start i); auto.
  - exists [], []. rewrite app_nil_r, size_nil. split; [assumption|lia].
  - rewrite size_nil. lia.
  - apply fails_empty.
  - rewrite <- Ep. intros m' j S L rs re g F J B HF G. apply yields_end; [|assumption].
    pose proof (consumed_range r i). lia.
  - split; auto. exists 0. unfold size. cbn. lia.
Qed.
End Match.
