(* ===== verification/RegexSearch.v ===== *)
(** * The search for a match (src/src/microcode/regex.c)

    [re_compile_fastmap] scans a pattern for the characters that a match can
    begin with; the searches try a match only where the text has such a
    character.  The scan keeps the places that it has still to look at in an
    array of 512 pointers, which the C code never checks for room:
    [Undefined_scan] is a store beyond its end. *)

From Stdlib Require Import ZArith List Lia Bool.
From S2P Require Import Prelude.
From S2P Require Import Memory.
From S2P Require Import Regex.
Import ListNotations.

Definition fastmap := Z -> bool.

Section Fastmap.
Variables pattern_start pattern_end : Z.
Variable translation : Z.
Variable syntax_table : Z -> Z.
Variable m : memory.

(** The scan at the labels [loop], [next] and [return_point], with the local
    variables. *)
Inductive scan :=
  | loop (pattern_pc : Z) (stack : list Z) (f : fastmap) (return_value : Z)
  | next (stack : list Z) (f : fastmap) (return_value : Z)
  | return_point (f : fastmap) (return_value : Z)
  | Undefined_scan.

Definition set_fastmap (f : fastmap) (ascii : Z) : fastmap :=
  fun c => if c =? TRANSLATE_CHAR m translation ascii then true else f c.

(** [FOR_INDEX_RANGE] with the assignment of [FASTMAP_TRUE] to the characters
    that satisfy a test. *)
Fixpoint set_range (p : Z -> bool) (n : nat) (ascii : Z) (f : fastmap) : fastmap :=
  match n with
  | O => f
  | S n => set_range p n (ascii + 1) (if p ascii then set_fastmap f ascii else f)
  end.

Definition FOR_ALL_ASCII_SUCH_THAT (p : Z -> bool) (f : fastmap) : fastmap :=
  set_range p (Z.to_nat MAX_ASCII) 0 f.

Definition always (_ : Z) : bool := true.

(** A reading of the pattern, or [BAD_PATTERN]. *)
Definition reading (o : option (Z * Z)) (f : fastmap) (k : Z -> Z -> scan) : scan :=
  match o with
  | Some (target, pattern_pc) => k target pattern_pc
  | None => return_point f (-2)
  end.

Definition scan_jump (pc : Z) (stack : list Z) (f : fastmap) : scan :=
  reading (READ_PATTERN_OFFSET pattern_start pattern_end m pc) f (fun offset pc =>
    let return_value := 1 in
    let pc := pc + offset in
    if offset >? 0 then loop pc stack f return_value
    else if pc >=? pattern_end then return_point f (-2)
    else if negb (m pc =? opcode regexpcode_on_failure_jump) then loop pc stack f return_value
    else
      reading (READ_PATTERN_OFFSET pattern_start pattern_end m pc) f (fun offset pc =>
        let pc := pc + offset in
        match stack with
        | top :: rest => loop pc (if top =? pc then rest else stack) f return_value
        | [] => loop pc stack f return_value
        end)).

Definition scan_on_failure_jump (pc : Z) (stack : list Z) (f : fastmap) (return_value : Z) : scan :=
  reading (READ_PATTERN_OFFSET pattern_start pattern_end m pc) f (fun offset pc =>
    if Z.of_nat (length stack) <? RE_NFAILURES then loop pc (pc + offset :: stack) f return_value
    else Undefined_scan).

(** The part of a round after the opcode, which is before [pc]. *)
Definition scan_instruction (code : option regexpcode) (pc : Z) (stack : list Z) (f : fastmap) (return_value : Z) : scan :=
  let SYNTAX code ascii := SYNTAX_CONSTITUENT_P syntax_table code ascii in
  match code with
  | Some (regexpcode_unused | regexpcode_line_start | regexpcode_buffer_start | regexpcode_buffer_end
         | regexpcode_word_start | regexpcode_word_end | regexpcode_word_bound | regexpcode_not_word_bound) =>
      loop pc stack f return_value
  | Some regexpcode_line_end =>
      next stack (set_fastmap f newline) (if return_value =? 0 then 2 else return_value)
  | Some regexpcode_exact_1 =>
      reading (READ_PATTERN_CHAR pattern_end m pc) f (fun ascii pc =>
        next stack (set_fastmap f ascii) return_value)
  | Some regexpcode_exact_n =>
      reading (READ_PATTERN_LENGTH pattern_end m pc) f (fun length pc =>
        if length =? 0 then loop pc stack f return_value
        else next stack (set_fastmap f (m pc)) return_value)
  | Some regexpcode_any_char =>
      let f := FOR_ALL_ASCII_SUCH_THAT (fun ascii => negb (ascii =? newline)) f in
      if negb (return_value =? 0) then return_point f return_value else next stack f return_value
  | Some regexpcode_char_set =>
      reading (READ_PATTERN_LENGTH pattern_end m pc) f (fun length pc =>
        next stack (set_range (CHAR_SET_MEMBER_P_INTERNAL m pc) (Z.to_nat (length * ASCII_LENGTH)) 0 f) return_value)
  | Some regexpcode_not_char_set =>
      reading (READ_PATTERN_LENGTH pattern_end m pc) f (fun length pc =>
        let length := length * ASCII_LENGTH in
        let f := set_range (fun ascii => negb (CHAR_SET_MEMBER_P_INTERNAL m pc ascii)) (Z.to_nat length) 0 f in
        next stack (set_range always (Z.to_nat (MAX_ASCII - length)) length f) return_value)
  | Some regexpcode_word_char =>
      next stack (FOR_ALL_ASCII_SUCH_THAT (WORD_CONSTITUENT_P syntax_table) f) return_value
  | Some regexpcode_not_word_char =>
      next stack (FOR_ALL_ASCII_SUCH_THAT (fun ascii => negb (WORD_CONSTITUENT_P syntax_table ascii)) f) return_value
  | Some regexpcode_syntax_spec =>
      reading (READ_PATTERN_SYNTAXCODE pattern_end m pc) f (fun code pc =>
        next stack (FOR_ALL_ASCII_SUCH_THAT (SYNTAX code) f) return_value)
  | Some regexpcode_not_syntax_spec =>
      reading (READ_PATTERN_SYNTAXCODE pattern_end m pc) f (fun code pc =>
        next stack (FOR_ALL_ASCII_SUCH_THAT (fun ascii => negb (SYNTAX code ascii)) f) return_value)
  | Some (regexpcode_start_memory | regexpcode_stop_memory) =>
      reading (READ_PATTERN_REGISTER pattern_end m pc) f (fun register_number pc => loop pc stack f return_value)
  | Some regexpcode_duplicate =>
      reading (READ_PATTERN_REGISTER pattern_end m pc) f (fun register_number pc =>
        return_point (fun c => if (0 <=? c) && (c <? MAX_ASCII) then true else f c) 1)
  | Some (regexpcode_jump | regexpcode_finalize_jump | regexpcode_maybe_finalize_jump | regexpcode_dummy_failure_jump) =>
      scan_jump pc stack f
  | Some regexpcode_on_failure_jump => scan_on_failure_jump pc stack f return_value
  | None => return_point f (-2)
  end.

Definition scan_step (s : scan) : scan :=
  match s with
  | loop pc stack f return_value =>
      if pc >=? pattern_end then return_point f 1
      else scan_instruction (SWITCH_ENUM (m pc)) (pc + 1) stack f return_value
  | next (pc :: stack) f return_value => loop pc stack f return_value
  | next [] f return_value => return_point f return_value
  | _ => s
  end.

Fixpoint scan_steps (fuel : nat) (s : scan) : scan :=
  match fuel with O => s | S fuel => scan_steps fuel (scan_step s) end.

(** The return value and the fastmap; without fuel or with an overflow of the
    stack there is none. *)
Definition re_compile_fastmap (fuel : nat) : option (Z * fastmap) :=
  match scan_steps fuel (loop pattern_start [] (fun _ => false) 0) with
  | return_point f return_value => Some (return_value, f)
  | _ => None
  end.
End Fastmap.

Section Search.
Variables pattern_start pattern_end : Z.
Variable buffer : re_buffer.
Variables match_start match_end : Z.
Variable re_max_failures : Z.
Variable realloc : Z -> bool.
Variable malloc : bool.
(** The fuel of each scan and match. *)
Variable fuel : nat.

Notation RE_MATCH_FAILED := (-1).

Definition RE_MATCH_FAILURE_RESULT (result : Z) : bool := (result =? RE_MATCH_FAILED) || (result =? -4).

Definition RE_SEARCH_TEST (start : Z) (m : memory) : result :=
  re_match pattern_start pattern_end buffer start match_end re_max_failures realloc fuel malloc m.

(** A search that has come to an end, or not: the place and the memory to go
    on with. *)
Inductive progress := Stop (r : result) | Continue (match_pc : Z) (m : memory).

(** A test: the search ends with the result unless it is a failure. *)
Definition test (start : Z) (m : memory) (finish : result -> result) (k : memory -> progress) : progress :=
  match RE_SEARCH_TEST start m with
  | Returned v m registers =>
      if RE_MATCH_FAILURE_RESULT v then k m else Stop (finish (Returned v m registers))
  | r => Stop r
  end.

Definition in_fastmap (f : fastmap) (m : memory) (match_pc : Z) : bool :=
  f (TRANSLATE_CHAR m (translation buffer) (m match_pc)).

Fixpoint RE_SEARCH_FORWARD_FAST (f : fastmap) (limit : Z) (n : nat) (match_pc : Z) (m : memory) : progress :=
  match n with
  | O => Stop Out_of_fuel
  | S n =>
      if match_pc >=? limit then Continue match_pc m
      else if negb (in_fastmap f m match_pc) then RE_SEARCH_FORWARD_FAST f limit n (match_pc + 1) m
      else test match_pc m (fun r => r) (RE_SEARCH_FORWARD_FAST f limit n (match_pc + 1))
  end.

(** The loop for a pattern that can match the null string. *)
Fixpoint search_forward_slow (match_limit : Z) (n : nat) (match_pc : Z) (m : memory) : result :=
  match n with
  | O => Out_of_fuel
  | S n =>
      match RE_SEARCH_TEST match_pc m with
      | Returned v m registers =>
          if negb (RE_MATCH_FAILURE_RESULT v) then Returned v m registers
          else
            let match_pc := match_pc + 1 in
            let match_pc := if match_pc =? gap_start buffer then gap_end buffer else match_pc in
            if match_pc >? match_limit then Returned v m registers
            else search_forward_slow match_limit n match_pc m
      | r => r
      end
  end.

Definition then_ (p : progress) (k : Z -> memory -> progress) : progress :=
  match p with Stop r => Stop r | Continue match_pc m => k match_pc m end.

Definition finally_ (p : progress) (k : Z -> memory -> result) : result :=
  match p with Stop r => r | Continue match_pc m => k match_pc m end.

Definition INITIALIZE_RE_SEARCH (m : memory) (k : Z -> fastmap -> result) : result :=
  match re_compile_fastmap pattern_start pattern_end (translation buffer) (syntax_table buffer) m fuel with
  | Some (can_be_null, f) => if can_be_null <? 0 then Returned can_be_null m None else k can_be_null f
  | None => Undefined_behaviour
  end.

Definition re_search_forward (m : memory) : result :=
  INITIALIZE_RE_SEARCH m (fun can_be_null f =>
    let match_pc := match_start in
    let match_limit := match_end in
    let gap_limit := gap_start buffer in
    if negb (can_be_null =? 1)
    then
      finally_
        (then_
           (if (match_pc <? gap_limit) && (gap_limit <? match_limit)
            then RE_SEARCH_FORWARD_FAST f gap_limit fuel match_pc m
            else Continue match_pc m)
           (fun match_pc m =>
              RE_SEARCH_FORWARD_FAST f match_limit fuel (if match_pc =? gap_limit then gap_end buffer else match_pc) m))
        (fun _ m => if can_be_null =? 0 then Returned RE_MATCH_FAILED m None else RE_SEARCH_TEST match_limit m)
    else search_forward_slow match_limit fuel match_pc m).

(** [RE_SEARCH_BACKWARD_RETURN]: the index of the beginning of the match. *)
Definition RE_SEARCH_BACKWARD_RETURN (start : Z) (r : result) : result :=
  match r with
  | Returned match_result m registers =>
      Returned (if match_result <? 0 then match_result else ADDRESS_TO_INDEX buffer start) m registers
  | r => r
  end.

Fixpoint RE_SEARCH_BACKWARD_FAST (f : fastmap) (limit : Z) (n : nat) (match_pc : Z) (m : memory) : progress :=
  match n with
  | O => Stop Out_of_fuel
  | S n =>
      if match_pc <=? limit then Continue match_pc m
      else
        let match_pc := match_pc - 1 in
        if negb (in_fastmap f m match_pc) then RE_SEARCH_BACKWARD_FAST f limit n match_pc m
        else test match_pc m (RE_SEARCH_BACKWARD_RETURN match_pc) (RE_SEARCH_BACKWARD_FAST f limit n match_pc)
  end.

Fixpoint search_backward_slow (match_limit : Z) (n : nat) (match_pc : Z) (m : memory) : result :=
  match n with
  | O => Out_of_fuel
  | S n =>
      match RE_SEARCH_TEST match_pc m with
      | Returned v m registers =>
          if negb (RE_MATCH_FAILURE_RESULT v) then RE_SEARCH_BACKWARD_RETURN match_pc (Returned v m registers)
          else
            let match_pc := if match_pc =? gap_end buffer then gap_start buffer else match_pc in
            let match_pc := match_pc - 1 in
            if match_pc <? match_limit then RE_SEARCH_BACKWARD_RETURN match_pc (Returned v m registers)
            else search_backward_slow match_limit n match_pc m
      | r => r
      end
  end.

Definition re_search_backward (m : memory) : result :=
  INITIALIZE_RE_SEARCH m (fun can_be_null f =>
    let match_pc := match_end in
    let match_limit := match_start in
    let gap_limit := gap_end buffer in
    if negb (can_be_null =? 1)
    then
      finally_
        (then_
           (if (match_pc >? gap_limit) && (gap_limit >? match_limit)
            then RE_SEARCH_BACKWARD_FAST f gap_limit fuel match_pc m
            else Continue match_pc m)
           (fun match_pc m =>
              RE_SEARCH_BACKWARD_FAST f match_limit fuel (if match_pc =? gap_limit then gap_start buffer else match_pc) m))
        (fun _ m =>
           if can_be_null =? 0 then Returned RE_MATCH_FAILED m None
           else RE_SEARCH_BACKWARD_RETURN match_limit (RE_SEARCH_TEST match_limit m))
    else search_backward_slow match_limit fuel match_pc m).
End Search.
