(* ===== verification/RegexFast.v ===== *)
(** * The characters that a match can begin with (src/src/microcode/regex.c)

    The scan of the pattern of an expression by [re_compile_fastmap] comes to
    an end, and a match of the expression begins with a character of the
    fastmap, unless the scan says that the match can be empty.  As in
    RegexMatch.v the proof follows the expression; the stack of the scan
    stands for the matches that are still to be looked at. *)

From Stdlib Require Import ZArith List Lia Bool.
From S2P Require Import Prelude.
From S2P Require Import Memory.
From S2P Require Import Regex.
From S2P Require Import RegexSpec.
From S2P Require Import RegexMatch.
From S2P Require Import RegexSearch.
Import ListNotations.

(** The failure jumps of an expression, which bound the stack of the scan. *)
Fixpoint failure_jumps (r : regex) : Z :=
  match r with
  | Seq r1 r2 => failure_jumps r1 + failure_jumps r2
  | Alt r1 r2 => 1 + failure_jumps r1 + failure_jumps r2
  | Opt r | Star r | Plus r => 1 + failure_jumps r
  | _ => 0
  end.

(** The scan takes a jump of length 0 for the end of a repeat.  It meets one
    when an alternative and all that follows it can be empty. *)
Fixpoint last_nonempty (r : regex) : Prop :=
  match r with Alt _ r2 => last_nonempty r2 | _ => 0 < size (compile r) end.

Fixpoint searchable (r : regex) : Prop :=
  match r with
  | One (Set_of bs) | One (Not_set_of bs) => size bs <= 32
  | Seq r1 r2 => searchable r1 /\ searchable r2
  | Alt r1 r2 => searchable r1 /\ searchable r2 /\ (nullable r1 = true -> last_nonempty r2)
  | Opt r | Star r | Plus r => searchable r
  | _ => True
  end.

Fixpoint line_end_tests (r : regex) : bool :=
  match r with
  | Test Line_end => true
  | Seq r1 r2 | Alt r1 r2 => line_end_tests r1 || line_end_tests r2
  | Opt r | Star r | Plus r => line_end_tests r
  | _ => false
  end.

Section Scan.
Variable pattern_start : Z.
Variable prog : list item.
Notation pattern_end := (pattern_start + size prog).
Variable m : memory.
Variable translation : Z.
Variable syntax_table : Z -> Z.
Hypothesis pattern_here : has_pattern pattern_start prog m.
Hypothesis short : size prog < 32768.

Notation code_at := (code_at pattern_start prog).
Notation T := (TRANSLATE_CHAR m translation).
Hypothesis translate_byte : forall c, byte c -> byte (T c).
Hypothesis translate_twice : forall c, byte c -> T (T c) = T c.

(** Whether the expression has a [Line_end], as it does when the scan returns
    2. *)
Variable dollar : Prop.

Notation step := (scan_step pattern_start pattern_end translation syntax_table m).
Notation steps := (scan_steps pattern_start pattern_end translation syntax_table m).

(** A text of translated characters. *)
Definition fits (t : subject) : Prop :=
  table t = syntax_table /\ first t <= stop t <= last t
  /\ forall i, first t <= i < last t -> exists x, byte x /\ char t i = T x.

(** ** What the scan promises *)

Definition begins := subject -> Z -> Prop.
Definition either (P O : begins) : begins := fun t i => P t i \/ O t i.

Definition covers (O : begins) (v : Z) (f : fastmap) : Prop :=
  forall t i, fits t -> first t <= i <= stop t -> O t i ->
    v = 1 \/ (i < stop t /\ f (char t i) = true) \/ (v = 2 /\ i = stop t).

Definition inv (f : fastmap) (v : Z) : Prop :=
  (v = 0 \/ v = 1 \/ v = 2) /\ (v = 2 -> f (T newline) = true /\ dollar).

Definition below (f : fastmap) (v : Z) (f' : fastmap) (v' : Z) : Prop :=
  (forall c, f c = true -> f' c = true) /\ (v = 1 -> v' = 1) /\ (v = 2 -> v' = 1 \/ v' = 2).

Definition finishes (s : scan) (O : begins) (f : fastmap) (v : Z) : Prop :=
  exists n f' v', steps n s = return_point f' v' /\ inv f' v' /\ below f v f' v' /\ covers O v' f'.

Definition loops (pc : Z) (S : list Z) (O : begins) : Prop :=
  forall f v, inv f v -> finishes (loop pc S f v) O f v.
Definition nexts (S : list Z) (O : begins) : Prop :=
  forall f v, inv f v -> finishes (next S f v) O f v.

Lemma below_refl f v : below f v f v.
Proof. repeat split; auto. Qed.

Lemma below_trans f v f' v' f'' v'' : below f v f' v' -> below f' v' f'' v'' -> below f v f'' v''.
Proof. intros (A & B & C) (D & E & F). repeat split; auto. intros H. destruct (C H); auto. Qed.

Lemma covers_below O f v f' v' : covers O v f -> below f v f' v' -> covers O v' f'.
Proof.
  intros H (A & B & C) t i W I Ho. destruct (H t i W I Ho) as [E|[[E1 E2]|[E1 E2]]]; auto.
  destruct (C E1); auto.
Qed.

Lemma covers_weaken (O O' : begins) f v : covers O v f -> (forall t i, fits t -> first t <= i <= stop t -> O' t i -> O t i) -> covers O' v f.
Proof. intros H I t i W D Ho. apply (H t i W D). auto. Qed.

Lemma finishes_weaken (O O' : begins) s f v :
  finishes s O f v -> (forall t i, fits t -> first t <= i <= stop t -> O' t i -> O t i) -> finishes s O' f v.
Proof. intros (n & f' & v' & A & B & C & D) I. exists n, f', v'. eauto using covers_weaken. Qed.

(** A step of the scan that covers [P]. *)
Lemma finishes_step s s' P O f v f' v' :
  step s = s' -> finishes s' O f' v' -> below f v f' v' -> covers P v' f' -> finishes s (either P O) f v.
Proof.
  intros <- (n & f'' & v'' & A & B & C & D) L H. exists (S n), f'', v''. split; [exact A|]. split; [exact B|].
  split; [eapply below_trans; eassumption|]. intros t i W I [Ho|Ho]; [|now apply D].
  exact (covers_below _ _ _ _ _ H C t i W I Ho).
Qed.

(** One that covers nothing. *)
Lemma finishes_next s s' O f v f' v' :
  step s = s' -> finishes s' O f' v' -> below f v f' v' -> finishes s O f v.
Proof.
  intros E H L. eapply finishes_weaken; [eapply (finishes_step _ _ (fun _ _ => False)); eauto|].
  - intros t i _ _ [].
  - intros t i _ _ Ho. now right.
Qed.

Lemma nexts_empty : nexts [] (fun _ _ => False).
Proof.
  intros f v I. exists 1%nat, f, v. split; [reflexivity|]. split; [assumption|]. split; [apply below_refl|].
  intros t i _ _ [].
Qed.

Lemma nexts_push pc S O : loops pc S O -> nexts (pc :: S) O.
Proof. intros H f v I. eapply finishes_next; [reflexivity|now apply H|apply below_refl]. Qed.

Lemma loops_end S O : loops pattern_end S O.
Proof.
  intros f v I. exists 1%nat, f, 1. cbn [scan_steps scan_step]. rewrite Z.geb_leb, Z.leb_refl.
  split; [reflexivity|]. split; [split; [auto|lia]|]. split; [repeat split; auto|]. intros t i _ _ _. now left.
Qed.

(** The step of an instruction at [a]. *)
Lemma step_code a code c S f v :
  code_at a (op code :: c) ->
  step (loop a S f v) = scan_instruction pattern_start pattern_end translation syntax_table m (Some code) (a + 1) S f v.
Proof.
  intros C. cbn [scan_step]. rewrite (code_at_byte _ _ m a _ c pattern_here C), SWITCH_ENUM_opcode.
  apply code_at_end in C. autorewrite with size in C. pose proof (list_size_nonneg c).
  rewrite Z.geb_leb, (proj2 (Z.leb_gt _ _)) by lia. reflexivity.
Qed.

(** ** Sets of characters *)

Lemma set_fastmap_below f v c : below f v (set_fastmap translation m f c) v.
Proof. repeat split; auto. intros d H. unfold set_fastmap. now case_if. Qed.

Lemma set_range_spec p n : forall lo f c,
  set_range translation m p n lo f c = true
  <-> f c = true \/ exists x, lo <= x < lo + Z.of_nat n /\ p x = true /\ c = T x.
Proof.
  induction n as [|n IH]; intros lo f c; cbn [set_range].
  - split; [auto|]. intros [H|(x & H & _)]; [assumption|lia].
  - rewrite IH. unfold set_fastmap. split.
    + intros [H|(x & X & Y)]; [|right; exists x; split; [lia|exact Y]].
      destruct (p lo) eqn:E; [|now left]. destruct (Z.eqb_spec c (T lo)); [|now left].
      right. exists lo. repeat split; auto; lia.
    + intros [H|(x & X & Y & Z)]; [left; destruct (p lo); [case_if|]; auto|].
      destruct (Z.eq_dec x lo) as [->|N]; [left; rewrite Y, Z, Z.eqb_refl; reflexivity|].
      right. exists x. repeat split; auto; lia.
Qed.

Lemma set_range_below f v p n lo : below f v (set_range translation m p n lo f) v.
Proof. repeat split; auto. intros c H. apply set_range_spec. now left. Qed.

Lemma inv_below f v f' : inv f v -> below f v f' v -> inv f' v.
Proof. intros [A B] [C _]. split; [assumption|]. intros E. destruct (B E). auto. Qed.

(** ** The scan of an expression *)

(** A match of [r] begins here, and if it is empty what follows begins here
    too. *)
Definition begin (r : regex) (P : begins) : begins :=
  fun t i => exists j, matches t r i j /\ (i = j -> P t i).

Definition scanned (r : regex) : Prop := forall a S P O,
  code_at a (compile r) -> size S + failure_jumps r <= RE_NFAILURES -> nexts S O ->
  (nullable r = true -> forall S' O', size S <= size S' <= size S + failure_jumps r -> nexts S' O' ->
     loops (a + size (compile r)) S' (either P O')) ->
  loops a S (either (begin r P) O).

(** An instruction that puts the characters of its matches into the fastmap. *)
Lemma scan_atom a pc S P O :
  nexts S O ->
  (forall f v, inv f v -> exists f',
     (step (loop pc S f v) = next S f' v \/ (step (loop pc S f v) = return_point f' v /\ v <> 0 /\ (v = 2 -> forall c, byte c -> f' (T c) = true)))
     /\ below f v f' v
     /\ (forall t i, fits t -> first t <= i < stop t -> accepts t a (char t i) = true -> f' (char t i) = true)) ->
  loops pc S (either (begin (One a) P) O).
Proof.
  intros HS H f v I. destruct (H f v I) as (f' & [E|(E & N & A)] & L & C).
  - eapply finishes_step; [exact E|apply HS; eapply inv_below; eassumption|exact L|].
    intros t i W Hi (j & M & _). right. left. inversion M; subst. split; [assumption|]. apply C; auto. lia.
  - exists 1%nat, f', v. split; [exact E|]. split; [eapply inv_below; eassumption|]. split; [assumption|].
    intros t i W Hi _. destruct I as [[-> | [-> | ->]] I2]; [easy|now left|].
    destruct (Z.eq_dec i (stop t)) as [->|D]; [auto|]. right. left. split; [lia|].
    destruct W as (_ & O1 & W). destruct (W i) as (x & X & ->); [lia|]. now apply A.
Qed.

(** A loop over all characters. *)
Lemma scan_class p f v a :
  (forall t c, table t = syntax_table -> byte c -> accepts t a c = true -> p c = true) ->
  below f v (FOR_ALL_ASCII_SUCH_THAT translation m p f) v
  /\ forall t i, fits t -> first t <= i < stop t -> accepts t a (char t i) = true ->
       FOR_ALL_ASCII_SUCH_THAT translation m p f (char t i) = true.
Proof.
  intros H. split; [apply set_range_below|]. intros t i (Tb & O & W) I A. destruct (W i) as (x & X & E); [lia|].
  unfold FOR_ALL_ASCII_SUCH_THAT. apply set_range_spec. right. exists (char t i). rewrite E in *.
  pose proof (translate_byte x X) as B. unfold byte in B. change (Z.of_nat (Z.to_nat MAX_ASCII)) with 256.
  repeat split; [lia|lia|now apply (H t)|now rewrite translate_twice].
Qed.

Ltac one C := erewrite step_code by exact C; cbn [scan_instruction]; apply code_at_tail in C.

Lemma one_scanned a : wf_atom a -> searchable (One a) -> scanned (One a).
Proof.
  intros W Sr pc S P O C D HS _. apply scan_atom; [assumption|]. intros f v I. cbn [compile] in C.
  destruct a as [c| |bs|bs|w|n w]; cbn [compile_atom wf_atom searchable] in *.
  - one C. unfold reading. erewrite pattern_char by eassumption.
    eexists. split; [left; reflexivity|]. split; [apply set_fastmap_below|].
    intros t i (_ & O1 & F) Hi A. cbn [accepts] in A. reflect_bools. destruct (F i) as (x & X & E); [lia|].
    unfold set_fastmap. rewrite <- A, E, translate_twice, Z.eqb_refl by assumption. reflexivity.
  - one C. eexists. split.
    + destruct (v =? 0) eqn:V; cbn [negb]; [left; reflexivity|right]. reflect_bools.
      split; [reflexivity|]. split; [assumption|].
      intros V2 c B. unfold FOR_ALL_ASCII_SUCH_THAT. apply set_range_spec. unfold byte in B.
      destruct (Z.eq_dec c newline) as [->|N]; [left; now apply (proj2 I)|right; exists c].
      change (Z.of_nat (Z.to_nat MAX_ASCII)) with 256. apply Z.eqb_neq in N. rewrite N. repeat split; lia.
    + apply scan_class with (a := Any). intros t c _ _ A. exact A.
  - one C. unfold reading, bytes in *. erewrite pattern_length by (first [eassumption|autorewrite with size; lia]).
    eexists. split; [left; reflexivity|]. split; [apply set_range_below|].
    intros t i (_ & O1 & F) Hi A. cbn [accepts] in A. destruct (F i) as (x & X & E); [lia|].
    apply code_at_tail in C. rewrite <- (app_nil_r (map _ _)) in C.
    pose proof (translate_byte x X) as B. rewrite <- E in B.
    rewrite <- (member_char_set _ _ m _ _ _ _ pattern_here C B) in A. unfold CHAR_SET_MEMBER_P in A. reflect_bools.
    apply set_range_spec. right. exists (char t i). unfold byte in B. repeat split; [lia|lia|assumption|].
    now rewrite E, translate_twice.
  - one C. unfold reading, bytes in *. erewrite pattern_length by (first [eassumption|autorewrite with size; lia]).
    eexists. split; [left; reflexivity|]. split; [eapply below_trans; apply set_range_below|].
    intros t i (_ & O1 & F) Hi A. cbn [accepts] in A. destruct (F i) as (x & X & E); [lia|].
    apply code_at_tail in C. rewrite <- (app_nil_r (map _ _)) in C.
    pose proof (translate_byte x X) as B. rewrite <- E in B.
    rewrite <- (member_char_set _ _ m _ _ _ _ pattern_here C B) in A. unfold CHAR_SET_MEMBER_P in A.
    assert (Tt : char t i = T (char t i)) by now rewrite E, translate_twice.
    apply set_range_spec. pose proof (list_size_nonneg bs). unfold byte in B.
    destruct (Z.ltb_spec (char t i) (size bs * 8)) as [Lt|Ge]; cbn [andb] in A.
    + left. apply set_range_spec. right. exists (char t i). repeat split; auto; lia.
    + right. exists (char t i). repeat split; auto; lia.
  - destruct w; one C; eexists; (split; [left; reflexivity|]); apply scan_class with (a := Word _);
      intros t c Tb _ A; cbn [accepts] in A; rewrite Tb in A; now destruct (WORD_CONSTITUENT_P _ c).
  - destruct w; one C; unfold reading; erewrite pattern_syntaxcode by (first [eassumption|lia]);
      eexists; (split; [left; reflexivity|]); apply scan_class with (a := Syntax n _);
      intros t c Tb _ A; cbn [accepts] in A; rewrite Tb in A; now destruct (SYNTAX_CONSTITUENT_P _ n c).
Qed.

Lemma loops_weaken (O O' : begins) a S :
  loops a S O -> (forall t i, fits t -> first t <= i <= stop t -> O' t i -> O t i) -> loops a S O'.
Proof. intros H I f v J. eapply finishes_weaken; [now apply H|assumption]. Qed.

Lemma loops_step a a' S S' O : (forall f v, step (loop a S f v) = loop a' S' f v) -> loops a' S' O -> loops a S O.
Proof. intros E H f v I. eapply finishes_next; [apply E|now apply H|apply below_refl]. Qed.

Lemma begin_here r P O : (forall t i j, matches t r i j -> i = j) ->
  forall t i, either (begin r P) O t i -> either P O t i.
Proof. intros H t i [(j & M & Q)|Ho]; [left; eauto|now right]. Qed.

Ltac through H :=
  eapply loops_weaken; [|intros ? ? _ _; apply begin_here; intros ? ? ? M; inversion M; subst; auto; unfold size; cbn [length]; lia];
  eapply loops_step; [intros f v; first [erewrite step_code by exact H|idtac]; cbn [scan_instruction]|].

Lemma empty_scanned : scanned Empty.
Proof.
  intros a S P O C D HS HK. specialize (HK eq_refl S O ltac:(cbn; lia) HS). cbn in HK. rewrite Z.add_0_r in HK.
  eapply loops_weaken; [exact HK|]. intros t i _ _. apply begin_here. intros ? ? ? M. now inversion M.
Qed.

Lemma str_scanned cs : wf (Str cs) -> scanned (Str cs).
Proof.
  intros [W1 W2] a S P O C D HS HK. cbn [compile nullable failure_jumps] in *. pose proof (code_at_tail _ _ _ _ _ C) as C1.
  unfold bytes in *. pose proof (code_at_tail _ _ _ _ _ C1) as C2. destruct cs as [|c cs].
  - through C.
    + unfold reading. erewrite pattern_length by (first [eassumption|autorewrite with size; lia]). reflexivity.
    + autorewrite with size in HK. replace (a + 1 + 1) with (a + (1 + (1 + 0))) by lia. apply HK; [reflexivity|lia|exact HS].
  - intros f v I. eapply finishes_step with (f' := set_fastmap translation m f c); [|apply HS; eapply inv_below; [exact I|apply set_fastmap_below]|apply set_fastmap_below|].
    + rewrite (step_code _ _ _ _ _ _ C). cbn [scan_instruction]. unfold reading.
      erewrite pattern_length by (first [eassumption|autorewrite with size; lia]).
      rewrite (proj2 (Z.eqb_neq _ _)) by (rewrite size_cons; pose proof (list_size_nonneg cs); lia).
      now rewrite (code_at_byte _ _ m _ c _ pattern_here C2).
    + intros t i (_ & O1 & F) Hi (j & M & _). inversion M; subst. cbn [at_index] in *. reflect_bools.
      right. left. split; [assumption|]. destruct (F i) as (x & X & E); [lia|].
      unfold set_fastmap. match goal with H : char t i = c |- _ => rewrite <- H, E, translate_twice, Z.eqb_refl by assumption end.
      reflexivity.
Qed.

Lemma test_scanned k : (k = Line_end -> dollar) -> scanned (Test k).
Proof.
  intros Dl a S P O C D HS HK. cbn [compile nullable failure_jumps] in *. autorewrite with size in HK.
  replace (a + (1 + 0)) with (a + 1) in HK by lia.
  destruct k; try (through C; [reflexivity|apply HK; [reflexivity|lia|exact HS]]).
  intros f v I. set (v' := if v =? 0 then 2 else v).
  assert (L : below f v (set_fastmap translation m f newline) v').
  { destruct (set_fastmap_below f v newline) as (A & _ & _). split; [exact A|]. unfold v'. split; intros ->; auto. }
  eapply finishes_step; [rewrite (step_code _ _ _ _ _ _ C); reflexivity|apply HS|exact L|].
  - split; [unfold v'; destruct I as [[-> | [-> | ->]] _]; cbn; auto|]. intros _. unfold set_fastmap. rewrite Z.eqb_refl. auto.
  - intros t i (_ & O1 & F) Hi (j & M & _). assert (Hh : holds t Line_end i = true) by now inversion M.
    destruct I as [[-> | [-> | ->]] _]; cbn in v'; subst v'; auto; (destruct (Z.eq_dec i (stop t)) as [->|N]; [auto|]);
      right; left; (split; [lia|]); cbn [holds] in Hh; rewrite (proj2 (Z.eqb_neq i (last t))) in Hh by lia;
      cbn [orb] in Hh; reflect_bools; destruct (F i) as (x & X & E); try lia;
      unfold set_fastmap; match goal with H : char t i = _ |- _ => rewrite <- H, E, translate_twice, Z.eqb_refl by assumption end; reflexivity.
Qed.

Lemma register_scanned r n :
  (r = Open n \/ r = Close n) -> wf r -> scanned r.
Proof.
  intros R W a S P O C D HS HK.
  assert (K : forall t i j, matches t r i j -> i = j) by (intros t i j M; destruct R; subst; now inversion M).
  eapply loops_weaken; [|intros t i _ _; apply begin_here; apply K].
  assert (N : nullable r = true /\ failure_jumps r = 0 /\ size (compile r) = 2 /\ n < RE_NREGS)
    by (destruct R; subst; cbn in *; lia).
  destruct N as (N & J & Z2 & B). specialize (HK N S O ltac:(lia) HS). rewrite Z2 in HK.
  eapply loops_step; [|exact HK]. intros f v.
  destruct R; subst r; cbn [compile] in C; one C; unfold reading;
    erewrite pattern_register by (first [eassumption|lia]); f_equal; lia.
Qed.

(** *** Sequences, alternatives, repeats *)

Lemma failure_jumps_nonneg r : 0 <= failure_jumps r.
Proof. induction r; cbn [failure_jumps]; lia. Qed.

Lemma seq_scanned r1 r2 : scanned r1 -> scanned r2 -> scanned (Seq r1 r2).
Proof.
  intros IH1 IH2 a S P O C D HS HK. cbn [compile nullable failure_jumps] in *.
  pose proof (code_at_start _ _ _ _ _ C) as C1. pose proof (code_at_rest _ _ _ _ _ C) as C2.
  pose proof (failure_jumps_nonneg r1). pose proof (failure_jumps_nonneg r2). rewrite size_app in HK.
  eapply loops_weaken.
  - apply (IH1 a S (begin r2 P) O); [exact C1|lia|exact HS|]. intros N1 S' O' B HS'.
    apply IH2; [exact C2|lia|exact HS'|]. intros N2 S'' O'' B' HS''. rewrite <- Z.add_assoc.
    apply HK; [now rewrite N1, N2|lia|exact HS''].
  - intros t i _ _ [(k & M & Q)|Ho]; [left|now right]. inversion M; subst.
    exists j. split; [assumption|]. intros <-. exists k. now split.
Qed.

(** A jump forward. *)
Lemma jump_scanned a o c code S P O :
  code_at a (op code :: offset o ++ c) -> In code [regexpcode_jump; regexpcode_dummy_failure_jump] ->
  0 < o < 32768 -> a + 3 + o <= pattern_end -> loops (a + 3 + o) S O -> loops a S (either P O).
Proof.
  intros C Hc Ho I H f v J. destruct H with (f := f) (v := 1) as (n & f' & v' & A & B & L & Cv); [split; auto; lia|].
  assert (A0 : pattern_start <= a) by (apply code_at_end in C; lia).
  eapply finishes_step with (f' := f) (v' := 1).
  - rewrite (step_code _ _ _ _ _ _ C). apply code_at_tail in C.
    assert (E : scan_jump pattern_start pattern_end m (a + 1) S f = loop (a + 3 + o) S f 1).
    { unfold scan_jump, reading. rewrite (pattern_offset _ _ m _ _ _ pattern_here C) by lia.
      rewrite Z.gtb_ltb, (proj2 (Z.ltb_lt _ _)) by lia. f_equal. lia. }
    destruct Hc as [<-|[<-|[]]]; exact E.
  - exists n, f', v'. split; [exact A|]. auto.
  - split; [auto|]. split; auto.
  - intros t i _ _ _. now left.
Qed.

Lemma failure_jump_scanned a o c S O :
  code_at a (op regexpcode_on_failure_jump :: offset o ++ c) -> -32768 <= o < 32768 ->
  pattern_start <= a + 3 + o <= pattern_end -> size S < RE_NFAILURES ->
  loops (a + 3) (a + 3 + o :: S) O -> loops a S O.
Proof.
  intros C Ho I D H. eapply loops_step; [|exact H]. intros f v. one C.
  unfold scan_on_failure_jump, reading. rewrite (pattern_offset _ _ m _ _ _ pattern_here C) by lia.
  fold (size S). rewrite (proj2 (Z.ltb_lt _ _)) by lia. replace (a + 1 + 2) with (a + 3) by lia. reflexivity.
Qed.

Lemma joint_scanned r : last_nonempty r -> forall a S O,
  code_at a (compile r) -> loops (a + size (compile r)) S O -> loops (a + joint r) S O.
Proof.
  induction r as [|?|?|?|?|?|? ? ? ?|r1 _ r2 IH|? ?|? ?|? ?]; intros Hl pc S O C H; try exact H.
  rewrite compile_alt in C, H. unfold joint. apply code_at_rest in C. apply code_at_rest in C.
  pose proof (code_at_rest _ _ _ _ _ C) as C2. rewrite <- app_comm_cons in C. autorewrite with size in *.
  pose proof (code_at_joint_end _ _ _ _ C2) as J. pose proof (list_size_nonneg (compile r1)).
  pose proof (code_at_end _ _ _ _ C2) as Ce.
  assert (0 < joint r2) by (unfold joint; cbn [last_nonempty] in Hl; destruct r2; cbn [last_nonempty] in Hl; try exact Hl;
    pose proof (list_size_nonneg (compile r2_1)); lia).
  pose proof (code_at_end _ _ _ _ C) as Cs. autorewrite with size in Cs.
  apply loops_weaken with (O := either (fun _ _ => False) O); [|intros t i _ _ Ho; right; exact Ho].
  replace (pc + (3 + size (compile r1))) with (pc + (1 + 2) + size (compile r1)) by lia.
  eapply (jump_scanned _ _ _ _ _ (fun _ _ => False)); [exact C|cbn; auto|lia|lia|].
  replace (pc + (1 + 2) + size (compile r1) + 3) with (pc + (1 + 2) + size (compile r1) + (1 + 2)) by lia.
  apply IH; [exact Hl|exact C2|].
  now replace (pc + (1 + 2) + size (compile r1) + (1 + 2) + size (compile r2))
    with (pc + (1 + 2 + (size (compile r1) + (1 + 2 + size (compile r2))))) by lia.
Qed.

Lemma alt_scanned r1 r2 :
  (nullable r1 = true -> last_nonempty r2) -> scanned r1 -> scanned r2 -> scanned (Alt r1 r2).
Proof.
  intros Hl IH1 IH2 a S P O C D HS HK. cbn [nullable failure_jumps] in *. rewrite compile_alt in *.
  pose proof (code_at_rest _ _ _ _ _ C) as C1. pose proof (code_at_rest _ _ _ _ _ C1) as CJ.
  pose proof (code_at_rest _ _ _ _ _ CJ) as C2. apply code_at_start in C1. rewrite <- app_comm_cons in CJ, C.
  autorewrite with size in *. pose proof (code_at_joint_end _ _ _ _ C2) as J. pose proof (joint_nonneg r2).
  pose proof (failure_jumps_nonneg r1). pose proof (failure_jumps_nonneg r2).
  pose proof (code_at_end _ _ _ _ C) as Ce. pose proof (code_at_end _ _ _ _ C2) as Ce2. autorewrite with size in Ce.
  pose proof (list_size_nonneg (compile r1)). pose proof (list_size_nonneg (compile r2)).
  eapply failure_jump_scanned; [exact C|lia|lia|lia|].
  replace (a + (1 + 2)) with (a + 3) in * by lia.
  assert (L2 : loops (a + 3 + (size (compile r1) + 3)) S (either (begin r2 P) O)).
  { replace (a + 3 + (size (compile r1) + 3)) with (a + 3 + size (compile r1) + (1 + 2)) by lia.
    apply IH2; [exact C2|lia|exact HS|]. intros N2 S' O' B HS'.
    replace (a + 3 + size (compile r1) + (1 + 2) + size (compile r2))
      with (a + (1 + 2 + (size (compile r1) + (1 + 2 + size (compile r2))))) by lia.
    apply HK; [rewrite N2; apply orb_true_r|lia|exact HS']. }
  apply nexts_push in L2. eapply loops_weaken.
  - refine (IH1 _ _ P _ C1 _ L2 _); [autorewrite with size; lia|]. intros N1 S' O' B HS'. autorewrite with size in B.
    assert (0 < joint r2) by (specialize (Hl N1); unfold joint; destruct r2; cbn [last_nonempty] in Hl; try exact Hl;
      pose proof (list_size_nonneg (compile r2_1)); lia).
    apply loops_weaken with (O := either (fun _ _ => False) (either P O')); [|intros t i _ _ Ho; right; exact Ho].
    eapply (jump_scanned _ _ _ _ _ (fun _ _ => False)); [exact CJ|cbn; auto|lia|lia|].
    replace (a + 3 + size (compile r1) + 3) with (a + 3 + size (compile r1) + (1 + 2)) by lia.
    apply joint_scanned; [auto|exact C2|].
    replace (a + 3 + size (compile r1) + (1 + 2) + size (compile r2))
      with (a + (1 + 2 + (size (compile r1) + (1 + 2 + size (compile r2))))) by lia.
    apply HK; [now rewrite N1|lia|exact HS'].
  - intros t i _ _ [(j & M & Q)|Ho]; [|right; right; exact Ho].
    inversion M; subst; [left|right; left]; exists j; now split.
Qed.

Lemma opt_scanned r : scanned r -> scanned (Opt r).
Proof.
  intros IH a S P O C D HS HK. cbn [nullable failure_jumps compile] in *.
  pose proof (code_at_rest _ _ _ _ _ C) as C1. rewrite <- app_comm_cons in C. autorewrite with size in *.
  pose proof (failure_jumps_nonneg r). pose proof (code_at_end _ _ _ _ C) as Ce. autorewrite with size in Ce.
  pose proof (list_size_nonneg (compile r)).
  eapply failure_jump_scanned; [exact C|lia|lia|lia|]. replace (a + (1 + 2)) with (a + 3) in * by lia.
  replace (a + 3 + size (compile r)) with (a + (1 + 2 + size (compile r))) in * by lia.
  pose proof (nexts_push _ _ _ (HK eq_refl S O ltac:(lia) HS)) as L2. eapply loops_weaken.
  - refine (IH _ _ P _ C1 _ L2 _); [autorewrite with size; lia|]. intros N1 S' O' B HS'. autorewrite with size in B.
    replace (a + 3 + size (compile r)) with (a + (1 + 2 + size (compile r))) in * by lia. apply HK; [reflexivity|lia|exact HS'].
  - intros t i _ _ [(j & M & Q)|Ho]; [|right; right; exact Ho].
    inversion M; subst; [right; left; auto|left; exists j; now split].
Qed.

(** The body of a loop is not empty, so the scan does not come to its end. *)
Lemma star_scanned r : nullable r = false -> scanned r -> scanned (Star r).
Proof.
  intros N IH a S P O C D HS HK. cbn [nullable failure_jumps compile] in *.
  destruct (loop_code _ _ _ _ C) as (C1 & C2 & C3 & Z1 & Z2). rewrite Z1 in *.
  pose proof (failure_jumps_nonneg r). pose proof (code_at_end _ _ _ _ C) as Ce. rewrite Z1 in Ce.
  eapply failure_jump_scanned; [exact C1|lia|lia|lia|].
  replace (a + 3 + (size (compile r) + 3)) with (a + (size (compile r) + 6)) by lia.
  pose proof (nexts_push _ _ _ (HK eq_refl S O ltac:(lia) HS)) as L2. eapply loops_weaken.
  - refine (IH _ _ P _ C2 _ L2 _); [autorewrite with size; lia|congruence].
  - intros t i _ _ [(j & M & Q)|Ho]; [|right; right; exact Ho].
    inversion M as [| | | | | | | | | | | |? ? k ? M1 M2|]; subst; [right; left; auto|].
    left. exists k. split; [assumption|]. pose proof (matches_advance _ _ _ _ M1 N). lia.
Qed.

Lemma plus_scanned r : nullable r = false -> scanned r -> scanned (Plus r).
Proof.
  intros N IH a S P O C D HS HK. cbn [nullable failure_jumps compile] in *.
  pose proof (code_at_rest _ _ _ _ _ C) as Cl. rewrite <- app_comm_cons in C. autorewrite with size in Cl.
  replace (a + (1 + 2)) with (a + 3) in Cl by lia. destruct (loop_code _ _ _ _ Cl) as (C1 & C2 & C3 & Z1 & Z2).
  pose proof (failure_jumps_nonneg r). pose proof (code_at_end _ _ _ _ Cl) as Ce. rewrite Z1 in Ce.
  eapply jump_scanned; [exact C|cbn; auto|lia|lia|].
  eapply loops_weaken; [apply (IH (a + 3 + 3) S P O C2 ltac:(lia) HS); congruence|]. intros t i _ _ Ho. now right.
Qed.

Theorem regex_scanned r : wf r -> searchable r -> (line_end_tests r = true -> dollar) -> scanned r.
Proof.
  induction r as [|a|cs|k|n|n|r1 IH1 r2 IH2|r1 IH1 r2 IH2|r IH|r IH|r IH]; intros W Sr Dl.
  - exact empty_scanned.
  - now apply one_scanned.
  - now apply str_scanned.
  - apply test_scanned. intros ->. auto.
  - apply (register_scanned _ n); auto.
  - apply (register_scanned _ n); auto.
  - cbn in *. apply seq_scanned; [apply IH1|apply IH2]; try tauto; intros Q; apply Dl; rewrite Q; auto using orb_true_r.
  - cbn in *. apply alt_scanned; [|apply IH1|apply IH2]; try tauto; intros Q; apply Dl; rewrite Q; auto using orb_true_r.
  - apply opt_scanned; auto.
  - apply star_scanned; [|apply IH]; cbn in *; tauto.
  - apply plus_scanned; [|apply IH]; cbn in *; tauto.
Qed.

(** The fastmap of a whole pattern. *)
Lemma fastmap_correct r :
  prog = compile r -> wf r -> searchable r -> failure_jumps r <= RE_NFAILURES ->
  (line_end_tests r = true -> dollar) ->
  exists fuel v f,
    re_compile_fastmap pattern_start pattern_end translation syntax_table m fuel = Some (v, f)
    /\ (v = 0 \/ v = 1 \/ v = 2 /\ dollar) /\ covers (fun t i => exists j, matches t r i j) v f.
Proof.
  intros E W Sr J Dl.
  assert (C : code_at pattern_start (compile r)) by (exists [], []; rewrite app_nil_r, size_nil; split; [assumption|lia]).
  destruct (regex_scanned r W Sr Dl pattern_start [] (fun _ _ => True) (fun _ _ => False) C) with (f := fun _ : Z => false) (v := 0)
    as (n & f' & v' & A & [B B2] & L & Cv).
  - rewrite size_nil. lia.
  - apply nexts_empty.
  - intros _ S' O' _ _. rewrite <- E. apply loops_end.
  - split; [auto|lia].
  - exists n, v', f'. unfold re_compile_fastmap. rewrite A. split; [reflexivity|]. split; [intuition|].
    eapply covers_weaken; [exact Cv|]. intros t i _ _ (j & M). left. exists j. now split.
Qed.
End Scan.
