(* ===== verification/RegexProps.v ===== *)
(** * What matching and searching do (src/src/microcode/regex.c)

    The theorems about [re_match], [re_search_forward] and
    [re_search_backward], a buffer to try them on, and inputs on which the
    code does something else than it means to. *)

From Stdlib Require Import ZArith List Lia Bool.
From S2P Require Import Prelude.
From S2P Require Import Memory.
From S2P Require Import Regex.
From S2P Require Import RegexSpec.
From S2P Require Import RegexMatch.
From S2P Require Import RegexSearch.
From S2P Require Import RegexFast.
Import ListNotations.

(** ** Fuel *)

Lemma re_match_loop_more ps pe b ms me rmf realloc n s r :
  re_match_loop ps pe b ms me rmf realloc n s = r -> r <> Out_of_fuel ->
  forall k, (n <= k)%nat -> re_match_loop ps pe b ms me rmf realloc k s = r.
Proof.
  intros <-. revert s. induction n as [|n IH]; intros s N k L; [now cbn in N|].
  destruct k as [|k]; [lia|]. cbn [re_match_loop] in *. destruct (_ >=? _); [reflexivity|].
  destruct (re_match_step _ _ _ _ _ _ s); try reflexivity. apply IH; [assumption|lia].
Qed.

Lemma scan_steps_more ps pe tr st m n s f v :
  scan_steps ps pe tr st m n s = return_point f v ->
  forall k, (n <= k)%nat -> scan_steps ps pe tr st m k s = return_point f v.
Proof.
  revert s. induction n as [|n IH]; intros s E k L; cbn [scan_steps] in E.
  - subst s. clear. induction k as [|k IH]; [reflexivity|exact IH].
  - destruct k as [|k]; [lia|]. cbn [scan_steps]. apply IH; [assumption|lia].
Qed.

(** The first match that begins at one of the [k] indices from [i] upwards,
    and from [i] downwards. *)
Fixpoint first_match (t : subject) (r : regex) (k : nat) (i : Z) : option (Z * Z * regs) :=
  match k with
  | O => None
  | S k => match match_at t r i with Matched j g => Some (i, j, g) | Failed => first_match t r k (i + 1) end
  end.

Fixpoint last_match (t : subject) (r : regex) (k : nat) (i : Z) : option (Z * Z * regs) :=
  match k with
  | O => None
  | S k => match match_at t r i with Matched j g => Some (i, j, g) | Failed => last_match t r k (i - 1) end
  end.

Lemma first_match_add t r a c i :
  first_match t r (a + c) i
  = match first_match t r a i with Some x => Some x | None => first_match t r c (i + Z.of_nat a) end.
Proof.
  revert i. induction a as [|a IH]; intros i; cbn [first_match plus]; [f_equal; lia|].
  destruct (match_at t r i); [reflexivity|]. rewrite IH. now replace (i + 1 + Z.of_nat a) with (i + Z.of_nat (S a)) by lia.
Qed.

Lemma last_match_add t r a c i :
  last_match t r (a + c) i
  = match last_match t r a i with Some x => Some x | None => last_match t r c (i - Z.of_nat a) end.
Proof.
  revert i. induction a as [|a IH]; intros i; cbn [last_match plus]; [f_equal; lia|].
  destruct (match_at t r i); [reflexivity|]. rewrite IH. now replace (i - 1 - Z.of_nat a) with (i - Z.of_nat (S a)) by lia.
Qed.

(** ** A pattern and a buffer *)

(** Everything that the theorems ask of the pattern [compile r], the buffer
    [b] and the text [t], in the memory [m]. *)
Record ready (r : regex) (pattern_start : Z) (b : re_buffer) (m : memory) (match_end : Z) (t : subject) : Prop := {
  ready_wf : wf r;
  ready_short : size (compile r) < 32768;
  ready_gap : word_tests r = true -> gap_inside b t;
  ready_positive : 0 < pattern_start;
  ready_pattern : has_pattern pattern_start (compile r) m;
  ready_subject : subject_of b m (outside pattern_start (compile r)) match_end t
}.

Section Props.
Variables (r : regex) (pattern_start : Z) (b : re_buffer) (m0 : memory) (match_end : Z) (t : subject).
Notation pattern_end := (pattern_start + size (compile r)).
Variable re_max_failures : Z.
Variable realloc : Z -> bool.
Notation kept := (kept pattern_start (compile r) m0).
Notation represents := (represents pattern_start (compile r) b m0).
Hypothesis R : ready r pattern_start b m0 match_end t.

Notation test_at fuel i m := (re_match pattern_start pattern_end b (address b i) match_end re_max_failures realloc fuel true m).

Lemma tested i m :
  kept m -> first t <= i <= stop t -> stack_room re_max_failures realloc (depth r (stop t - i)) ->
  exists N x, (forall fuel, (N <= fuel)%nat -> test_at fuel i m = x) /\ represents (address b i) x (match_at t r i).
Proof.
  destruct R as [W Sh G P Pt S]. intros K I Rm.
  destruct (match_correct pattern_start (compile r) b m0 match_end t S P re_max_failures realloc (address b i) Sh
              (depth r (stop t - i)) Rm r i m eq_refl W G K I eq_refl eq_refl) as [N H].
  exists N. eexists. split; [|exact H]. intros fuel L. unfold re_match in *. eapply re_match_loop_more; [reflexivity| |exact L].
  destruct (match_at t r i); [destruct H as (? & ? & -> & _)|destruct H as (? & -> & _)]; discriminate.
Qed.

(** *** The searches *)

Hypothesis translate_twice : forall c, byte c ->
  TRANSLATE_CHAR m0 (translation b) (TRANSLATE_CHAR m0 (translation b) c) = TRANSLATE_CHAR m0 (translation b) c.
Hypothesis scannable : searchable r /\ failure_jumps r <= RE_NFAILURES.
(** The gap is not at the end of what is searched. *)
Hypothesis end_here : match_end = address b (stop t).
Variable i0 : Z.
Hypothesis i0_range : first t <= i0 <= stop t.
Hypothesis room_enough : stack_room re_max_failures realloc (depth r (stop t - i0)).

Lemma translation_byte c : byte c -> byte (TRANSLATE_CHAR m0 (translation b) c).
Proof.
  intros H. destruct R as [_ _ _ _ _ S]. unfold TRANSLATE_CHAR. case_if; [assumption|].
  now apply (translations _ _ _ _ _ S).
Qed.

Lemma kept_translation m c : kept m -> byte c -> TRANSLATE_CHAR m (translation b) c = TRANSLATE_CHAR m0 (translation b) c.
Proof.
  intros [_ K] H. destruct R as [_ _ _ _ _ S]. unfold TRANSLATE_CHAR. case_if; [reflexivity|].
  apply K. now apply (translations _ _ _ _ _ S).
Qed.

(** The character at an index is in the fastmap if the fastmap has it. *)
Lemma kept_char m i : kept m -> first t <= i < stop t -> TRANSLATE_CHAR m (translation b) (m (address b i)) = char t i.
Proof.
  intros K I. destruct R as [_ _ _ _ _ S]. pose proof (order _ _ _ _ _ S) as O.
  destruct (chars _ _ _ _ _ S i) as (O1 & B & ->); [lia|]. rewrite (kept_translation m) by (try assumption; rewrite (proj2 K _ O1); assumption).
  now rewrite (proj2 K _ O1).
Qed.

Lemma stack_room_less n k : n <= k -> stack_room re_max_failures realloc k -> stack_room re_max_failures realloc n.
Proof. intros L H j J B. apply H; lia. Qed.

Lemma room_at i : i0 <= i <= stop t -> stack_room re_max_failures realloc (depth r (stop t - i)).
Proof.
  intros I. eapply stack_room_less; [|exact room_enough]. unfold depth. pose proof (pushes_nonneg r). nia.
Qed.

Notation scan_fastmap fuel m := (re_compile_fastmap pattern_start pattern_end (translation b) (syntax_table b) m fuel).

(** The scan, with what its result says of the text. *)
Lemma scanned_once m :
  kept m -> exists N v f, (forall fuel, (N <= fuel)%nat -> scan_fastmap fuel m = Some (v, f))
    /\ (v = 0 \/ v = 1 \/ v = 2 /\ line_end_tests r = true)
    /\ forall i, first t <= i <= stop t -> match_at t r i <> Failed ->
         v = 1 \/ (i < stop t /\ f (char t i) = true) \/ (v = 2 /\ i = stop t).
Proof.
  intros K. destruct R as [W Sh G P Pt S].
  destruct (fastmap_correct pattern_start (compile r) m (translation b) (syntax_table b) (proj1 K) Sh) with (dollar := line_end_tests r = true) (r := r)
    as (N & v & f & E & V & C); try tauto; try reflexivity.
  - intros c H. rewrite (kept_translation m) by assumption. now apply translation_byte.
  - intros c H. rewrite !(kept_translation m) by (try assumption; rewrite (kept_translation m) by assumption; now apply translation_byte).
    now apply translate_twice.
  - exists N, v, f. split; [|split; [assumption|]].
    + intros fuel L. unfold re_compile_fastmap in *.
      destruct (scan_steps _ _ _ _ m N _) as [| |f1 v1|] eqn:Q; try discriminate. injection E as -> ->.
      now rewrite (scan_steps_more _ _ _ _ _ _ _ _ _ Q fuel L).
    + intros i I M. apply (C t i); [|lia|].
      * split; [exact (same_table _ _ _ _ _ S)|]. pose proof (order _ _ _ _ _ S). split; [lia|]. intros k Hk.
        destruct (chars _ _ _ _ _ S k Hk) as (O1 & B & ->). exists (m0 (address b k)). split; [assumption|].
        symmetry. now apply kept_translation.
      * destruct (match_at t r i) as [j g|] eqn:Q; [|contradiction]. exists j. now apply match_at_sound in Q.
Qed.

Notation FORWARD_FAST fuel := (RE_SEARCH_FORWARD_FAST pattern_start pattern_end b match_end re_max_failures realloc true fuel).
Notation BACKWARD_FAST fuel := (RE_SEARCH_BACKWARD_FAST pattern_start pattern_end b match_end re_max_failures realloc true fuel).
Notation TEST fuel := (RE_SEARCH_TEST pattern_start pattern_end b match_end re_max_failures realloc true fuel).
Notation testing fuel := (test pattern_start pattern_end b match_end re_max_failures realloc true fuel).

Lemma not_failure i j g x :
  first t <= i -> match_at t r i = Matched j g -> represents (address b i) x (Matched j g) ->
  exists m' Rg, x = Returned j m' (Some Rg) /\ RE_MATCH_FAILURE_RESULT j = false /\ 0 <= j.
Proof.
  intros I Q (m' & Rg & -> & _). exists m', Rg. apply match_at_sound in Q. apply matches_order in Q.
  pose proof (order _ _ _ _ _ (ready_subject _ _ _ _ _ _ R)) as O. unfold RE_MATCH_FAILURE_RESULT.
  rewrite !(proj2 (Z.eqb_neq _ _)) by lia. repeat split. lia.
Qed.

(** A test at the index [i], as the searches do it. *)
Lemma test_spec m i :
  kept m -> i0 <= i <= stop t ->
  match match_at t r i with
  | Matched j g => exists N x, represents (address b i) x (Matched j g)
      /\ (forall fuel, (N <= fuel)%nat -> TEST fuel (address b i) m = x)
      /\ forall fuel finish k, (N <= fuel)%nat -> testing fuel (address b i) m finish k = Stop (finish x)
  | Failed => exists N m', kept m'
      /\ (forall fuel, (N <= fuel)%nat -> TEST fuel (address b i) m = Returned (-1) m' None)
      /\ forall fuel finish k, (N <= fuel)%nat -> testing fuel (address b i) m finish k = k m'
  end.
Proof.
  intros K I. destruct (tested i m K ltac:(lia) (room_at i I)) as (N & x & E & H).
  destruct (match_at t r i) as [j g|] eqn:Q.
  - exists N, x. split; [exact H|]. split; [exact E|]. intros fuel finish k L. unfold test, RE_SEARCH_TEST. rewrite E by assumption.
    destruct (not_failure i j g x) as (m' & Rg & -> & -> & _); auto. lia.
  - destruct H as (m' & -> & K'). exists N, m'. split; [exact K'|]. split; [exact E|].
    intros fuel finish k L. unfold test, RE_SEARCH_TEST. now rewrite E.
Qed.

Section Fast.
Variables (v : Z) (f : fastmap).
Hypothesis not_null : v <> 1.
Hypothesis covered : forall i, first t <= i <= stop t -> match_at t r i <> Failed ->
  v = 1 \/ (i < stop t /\ f (char t i) = true) \/ (v = 2 /\ i = stop t).

Lemma skipped i : first t <= i < stop t -> f (char t i) = false -> match_at t r i = Failed.
Proof.
  intros I E. destruct (match_at t r i) eqn:Q; [|reflexivity]. destruct (covered i) as [C|[[_ C]|[_ C]]]; try lia; congruence.
Qed.

Lemma in_fastmap_spec m i : kept m -> first t <= i < stop t -> in_fastmap b f m (address b i) = f (char t i).
Proof. intros K I. unfold in_fastmap. now rewrite kept_char. Qed.

(** A stretch of the text without the gap, where addresses and indices differ
    by [base]. *)
Lemma forward_fast base k : forall i m,
  i0 <= i -> i + Z.of_nat k <= stop t -> (forall x, i <= x < i + Z.of_nat k -> address b x = base + x) -> kept m ->
  exists N p, (forall fuel n, (N <= fuel)%nat -> (k < n)%nat -> FORWARD_FAST fuel f (base + i + Z.of_nat k) n (base + i) m = p)
    /\ match first_match t r k i with
       | Some (i, j, g) => exists x, p = Stop x /\ represents (address b i) x (Matched j g)
       | None => exists m', p = Continue (base + i + Z.of_nat k) m' /\ kept m'
       end.
Proof.
  induction k as [|k IH]; intros i m L1 L2 A K; cbn [first_match].
  - exists O. eexists. split; [|exists m; split; [reflexivity|assumption]].
    intros fuel [|n] _ Hn; [lia|]. cbn [RE_SEARCH_FORWARD_FAST]. rewrite Z.geb_leb, (proj2 (Z.leb_le _ _)) by lia.
    f_equal. lia.
  - pose proof (order _ _ _ _ _ (ready_subject _ _ _ _ _ _ R)) as O.
    assert (Step : forall fuel n, FORWARD_FAST fuel f (base + i + Z.of_nat (S k)) (S n) (base + i) m
      = if negb (f (char t i)) then FORWARD_FAST fuel f (base + (i + 1) + Z.of_nat k) n (base + (i + 1)) m
        else testing fuel (address b i) m (fun r => r) (FORWARD_FAST fuel f (base + (i + 1) + Z.of_nat k) n (base + (i + 1)))).
    { intros fuel n. cbn [RE_SEARCH_FORWARD_FAST]. rewrite Z.geb_leb, (proj2 (Z.leb_gt _ _)) by lia.
      rewrite <- (A i) by lia. rewrite in_fastmap_spec by (first [assumption|lia]). rewrite (A i) by lia.
      replace (base + i + 1) with (base + (i + 1)) by lia.
      now replace (base + i + Z.of_nat (S k)) with (base + (i + 1) + Z.of_nat k) by lia. }
    replace (base + i + Z.of_nat (S k)) with (base + (i + 1) + Z.of_nat k) in * by lia.
    assert (Next : forall m', kept m' -> _) by (intros m' K'; exact (IH (i + 1) m' ltac:(lia) ltac:(lia) ltac:(intros; apply A; lia) K')).
    destruct (f (char t i)) eqn:Fc; cbn [negb] in Step.
    + pose proof (test_spec m i K ltac:(lia)) as Ts. destruct (match_at t r i) as [j g|].
      * destruct Ts as (N & x & Rp & _ & E). exists N. eexists. split; [|exists x; split; [reflexivity|exact Rp]].
        intros fuel [|n] Hf Hn; [lia|]. rewrite Step, E by assumption. reflexivity.
      * destruct Ts as (N & m' & K' & _ & E). destruct (Next m' K') as (N' & p & Ep & Hp).
        exists (Nat.max N N'), p. split; [|exact Hp]. intros fuel [|n] Hf Hn; [lia|].
        rewrite Step, E by lia. apply Ep; lia.
    + rewrite (skipped i) by (first [assumption|lia]). destruct (Next m K) as (N' & p & Ep & Hp).
      exists N', p. split; [|exact Hp]. intros fuel [|n] Hf Hn; [lia|]. rewrite Step. apply Ep; lia.
Qed.

(** What a fast search of part of the text finds. *)
Definition found_in (o : option (Z * Z * regs)) (pc : Z) (p : progress) : Prop :=
  match o with
  | Some (i, j, g) => exists x, p = Stop x /\ represents (address b i) x (Matched j g)
  | None => exists m', p = Continue pc m' /\ kept m'
  end.

Definition found (o : option (Z * Z * regs)) (x : result) : Prop :=
  match o with
  | Some (i, j, g) => represents (address b i) x (Matched j g)
  | None => exists m', x = Returned (-1) m' None /\ kept m'
  end.

Definition forward_end (fuel : nat) (p : progress) : result :=
  finally_ p (fun _ m => if v =? 0 then Returned (-1) m None else TEST fuel (address b (stop t)) m).

Definition both_halves (fuel : nat) (m : memory) : progress :=
  then_
    (if (address b i0 <? gap_start b) && (gap_start b <? address b (stop t))
     then FORWARD_FAST fuel f (gap_start b) fuel (address b i0) m
     else Continue (address b i0) m)
    (fun pc m => FORWARD_FAST fuel f (address b (stop t)) fuel (if pc =? gap_start b then gap_end b else pc) m).

Lemma across_gap m :
  kept m -> address b i0 < gap_start b -> gap_start b < address b (stop t) ->
  exists N p, (forall fuel, (N <= fuel)%nat -> both_halves fuel m = p)
    /\ found_in (first_match t r (Z.to_nat (stop t - i0)) i0) (address b (stop t)) p.
Proof.
  intros K H1 H2. pose proof (gap_order _ _ _ _ _ (ready_subject _ _ _ _ _ _ R)) as Q.
  pose proof (order _ _ _ _ _ (ready_subject _ _ _ _ _ _ R)) as O.
  assert (G : i0 < gap_index b <= stop t).
  { unfold address, gap_index in *. destruct (Z.leb_spec (gap_start b - text b) i0), (Z.leb_spec (gap_start b - text b) (stop t)); lia. }
  destruct (forward_fast (text b) (Z.to_nat (gap_index b - i0)) i0 m) as (N1 & p1 & E1 & F1);
    [lia|lia|intros x X; unfold address; rewrite (proj2 (Z.leb_gt _ _)) by lia; lia|exact K|].
  replace (text b + i0 + Z.of_nat (Z.to_nat (gap_index b - i0))) with (gap_start b) in * by (unfold gap_index in *; lia).
  replace (text b + i0) with (address b i0) in E1 by (unfold address; rewrite (proj2 (Z.leb_gt _ _)) by lia; lia).
  replace (Z.to_nat (stop t - i0)) with (Z.to_nat (gap_index b - i0) + Z.to_nat (stop t - gap_index b))%nat by lia.
  rewrite first_match_add. replace (i0 + Z.of_nat (Z.to_nat (gap_index b - i0))) with (gap_index b) by lia.
  unfold both_halves. rewrite (proj2 (Z.ltb_lt _ _) H1), (proj2 (Z.ltb_lt _ _) H2). cbn [andb].
  destruct (first_match t r (Z.to_nat (gap_index b - i0)) i0) as [[[i j] g]|].
  - exists (Nat.max N1 (S (Z.to_nat (gap_index b - i0)))), p1. split; [|exact F1].
    intros fuel L. rewrite E1 by lia. destruct F1 as (x & -> & _). reflexivity.
  - destruct F1 as (m1 & -> & K1).
    destruct (forward_fast (text b + (gap_end b - gap_start b)) (Z.to_nat (stop t - gap_index b)) (gap_index b) m1) as (N2 & p2 & E2 & F2);
      [lia|lia|intros x X; unfold address; rewrite (proj2 (Z.leb_le _ _)) by lia; lia|exact K1|].
    replace (text b + (gap_end b - gap_start b) + gap_index b + Z.of_nat (Z.to_nat (stop t - gap_index b))) with (address b (stop t)) in *
      by (unfold address; rewrite (proj2 (Z.leb_le _ _)) by lia; unfold gap_index in *; lia).
    exists (Nat.max (Nat.max N1 N2) (S (Z.to_nat (stop t)))), p2. split; [|exact F2].
    intros fuel L. rewrite E1 by lia. cbn [then_]. rewrite Z.eqb_refl.
    rewrite <- (E2 fuel fuel) by lia. f_equal. unfold gap_index. lia.
Qed.

(** A stretch of the text without the gap. *)
Definition straight (base : Z) : Prop :=
  (forall x, i0 <= x < stop t -> address b x = base + x)
  /\ address b (stop t) = base + stop t /\ address b i0 = base + i0.

Lemma beside_gap : ~ (address b i0 < gap_start b < address b (stop t)) -> exists base, straight base.
Proof.
  intros H. pose proof (gap_order _ _ _ _ _ (ready_subject _ _ _ _ _ _ R)) as Q.
  exists (if gap_index b <=? i0 then text b + (gap_end b - gap_start b) else text b).
  unfold straight, address, gap_index in *. destruct (Z.leb_spec (gap_start b - text b) i0); (split; [intros x X|split]);
    repeat match goal with
    | |- context [?x <=? ?y] => destruct (Z.leb_spec x y)
    | H : context [?x <=? ?y] |- _ => destruct (Z.leb_spec x y)
    end; lia.
Qed.

Lemma both_halves_spec m :
  kept m -> exists N p, (forall fuel, (N <= fuel)%nat -> both_halves fuel m = p)
    /\ found_in (first_match t r (Z.to_nat (stop t - i0)) i0) (address b (stop t)) p.
Proof.
  intros K. pose proof (gap_order _ _ _ _ _ (ready_subject _ _ _ _ _ _ R)) as Q.
  destruct ((address b i0 <? gap_start b) && (gap_start b <? address b (stop t))) eqn:H.
  - apply andb_true_iff in H as [H1 H2]. apply Z.ltb_lt in H1, H2. now apply across_gap.
  - destruct beside_gap as (base & A & E1 & E2); [apply andb_false_iff in H as [H|H]; apply Z.ltb_ge in H; lia|].
    destruct (forward_fast base (Z.to_nat (stop t - i0)) i0 m) as (N & p & E & F); [lia|lia|intros; apply A; lia|exact K|].
    replace (base + i0 + Z.of_nat (Z.to_nat (stop t - i0))) with (address b (stop t)) in * by lia.
    exists (Nat.max N (S (Z.to_nat (stop t - i0)))), p. split; [|exact F]. intros fuel L.
    unfold both_halves. rewrite H. cbn [then_].
    rewrite <- (E fuel fuel) by lia. f_equal. rewrite <- E2.
    destruct (Z.eqb_spec (address b i0) (gap_start b)); [|reflexivity].
    unfold address, gap_index in *. destruct (Z.leb_spec (gap_start b - text b) i0); lia.
Qed.

(** The whole fast search. *)
Lemma forward_fast_search m :
  kept m -> (v = 0 \/ v = 2) -> exists N x, (forall fuel, (N <= fuel)%nat -> forward_end fuel (both_halves fuel m) = x)
    /\ found (first_match t r (Z.to_nat (stop t - i0) + 1) i0) x.
Proof.
  intros K V. destruct (both_halves_spec m K) as (N & p & E & F). rewrite first_match_add. cbn [first_match].
  replace (i0 + Z.of_nat (Z.to_nat (stop t - i0))) with (stop t) by lia. unfold found_in, forward_end in *.
  destruct (first_match t r (Z.to_nat (stop t - i0)) i0) as [[[i j] g]|].
  - destruct F as (x & -> & F). exists N, x. split; [|exact F]. intros fuel L. now rewrite E.
  - destruct F as (m1 & -> & K1). destruct (Z.eqb_spec v 0) as [->|V0].
    + exists N. eexists. split; [intros fuel L; rewrite E by assumption; cbn [finally_]; reflexivity|].
      destruct (match_at t r (stop t)) eqn:Mt; [|now exists m1].
      destruct (covered (stop t)) as [C|[[C _]|[C _]]]; try lia; congruence.
    + pose proof (test_spec m1 (stop t) K1 ltac:(lia)) as Ts. destruct (match_at t r (stop t)) as [j g|].
      * destruct Ts as (N2 & x & Rp & E2 & _). exists (Nat.max N N2), x. split; [|exact Rp].
        intros fuel L. rewrite E by lia. cbn [finally_]. apply E2. lia.
      * destruct Ts as (N2 & m' & K' & E2 & _). exists (Nat.max N N2). eexists. split; [|now exists m'].
        intros fuel L. rewrite E by lia. cbn [finally_]. apply E2. lia.
Qed.
End Fast.

(** *** The slow loop *)

(** After the test at [i] has failed. *)
Lemma address_after i : first t <= i <= stop t ->
  (if address b i + 1 =? gap_start b then gap_end b else address b i + 1) = address b (i + 1)
  /\ (address b (i + 1) >? address b (stop t)) = (stop t <=? i).
Proof.
  intros I. pose proof (ready_subject _ _ _ _ _ _ R) as S. pose proof (order _ _ _ _ _ S) as O.
  split; [apply (address_next b m0 _ match_end t S); lia|]. rewrite Z.gtb_ltb.
  pose proof (gap_order _ _ _ _ _ S). unfold address.
  repeat match goal with
  | |- context [?x <=? ?y] => destruct (Z.leb_spec x y)
  | |- context [?x <? ?y] => destruct (Z.ltb_spec x y)
  end; lia.
Qed.

Lemma forward_slow k : forall i m,
  i0 <= i -> i + Z.of_nat k = stop t -> kept m ->
  exists N x, (forall fuel n, (N <= fuel)%nat -> (k < n)%nat ->
      search_forward_slow pattern_start pattern_end b match_end re_max_failures realloc true fuel (address b (stop t)) n (address b i) m = x)
    /\ found (first_match t r (k + 1) i) x.
Proof.
  induction k as [|k IH]; intros i m L1 L2 K; cbn [first_match plus];
    pose proof (test_spec m i K ltac:(lia)) as Ts; destruct (address_after i ltac:(lia)) as [A1 A2];
    (destruct (match_at t r i) as [j g|] eqn:Q;
     [destruct Ts as (N & x & Rp & E & _); exists N, x; (split; [|exact Rp]); intros fuel [|n] Hf Hn; [lia|];
      cbn [search_forward_slow]; rewrite E by assumption;
      destruct (not_failure i j g x) as (m' & Rg & -> & -> & _); auto; lia|]);
    destruct Ts as (N & m' & K' & E & _).
  - exists N. eexists. split; [|exists m'; split; [reflexivity|exact K']].
    intros fuel [|n] Hf Hn; [lia|]. cbn [search_forward_slow]. rewrite E by assumption. cbn [RE_MATCH_FAILURE_RESULT Z.eqb orb negb].
    cbv zeta. rewrite A1, A2, (proj2 (Z.leb_le _ _)) by lia. reflexivity.
  - destruct (IH (i + 1) m') as (N' & x & E' & F); [lia|lia|exact K'|]. exists (Nat.max N N'), x. split; [|exact F].
    intros fuel [|n] Hf Hn; [lia|]. cbn [search_forward_slow]. rewrite E by lia. cbn [RE_MATCH_FAILURE_RESULT Z.eqb orb negb].
    cbv zeta. rewrite A1, A2, (proj2 (Z.leb_gt _ _)) by lia. apply E'; lia.
Qed.

(** The forward search. *)
Lemma search_forward m : kept m -> exists N x,
  (forall fuel, (N <= fuel)%nat -> re_search_forward pattern_start pattern_end b (address b i0) match_end re_max_failures realloc true fuel m = x)
  /\ found (first_match t r (Z.to_nat (stop t - i0) + 1) i0) x.
Proof.
  intros K. destruct (scanned_once m K) as (N & v & f & E & V & C). unfold re_search_forward, INITIALIZE_RE_SEARCH.
  destruct (Z.eq_dec v 1) as [->|V1].
  - destruct (forward_slow (Z.to_nat (stop t - i0)) i0 m) as (N' & x & E' & F); [lia|lia|exact K|].
    exists (Nat.max (Nat.max N N') (S (Z.to_nat (stop t - i0)))), x. split; [|exact F]. intros fuel L.
    rewrite E by lia. cbn [Z.ltb Z.compare Z.eqb Pos.eqb negb]. cbv zeta. rewrite end_here at 2. apply E'; lia.
  - destruct (forward_fast_search v f V1 C m K) as (N' & x & E' & F); [tauto|].
    exists (Nat.max N N'), x. split; [|exact F]. intros fuel L. rewrite E by lia.
    rewrite (proj2 (Z.ltb_ge v 0)) by lia. rewrite (proj2 (Z.eqb_neq _ _) V1). cbn [negb]. cbv zeta.
    rewrite <- (E' fuel) by lia. unfold forward_end, both_halves. rewrite <- end_here. reflexivity.
Qed.

(** *** The backward search *)

(** The result is the index where the match begins. *)
Definition found_back (o : option (Z * Z * regs)) (x : result) : Prop :=
  match o with
  | Some (i, j, g) => exists y, represents (address b i) y (Matched j g) /\ x = RE_SEARCH_BACKWARD_RETURN b (address b i) y
  | None => exists m', x = Returned (-1) m' None /\ kept m'
  end.

Definition found_back_in (o : option (Z * Z * regs)) (pc : Z) (p : progress) : Prop :=
  match o with
  | Some _ => exists x, p = Stop x /\ found_back o x
  | None => exists m', p = Continue pc m' /\ kept m'
  end.

Section Back.
Variable f : fastmap.
Hypothesis covered : forall i, first t <= i <= stop t -> match_at t r i <> Failed -> i < stop t /\ f (char t i) = true.

Lemma skipped_back i : first t <= i < stop t -> f (char t i) = false -> match_at t r i = Failed.
Proof.
  intros I E. destruct (match_at t r i) eqn:Q; [|reflexivity]. destruct (covered i); try lia; congruence.
Qed.

Lemma backward_fast base k : forall i m,
  i <= stop t -> i0 <= i - Z.of_nat k -> (forall x, i - Z.of_nat k <= x < i -> address b x = base + x) -> kept m ->
  exists N p, (forall fuel n, (N <= fuel)%nat -> (k < n)%nat -> BACKWARD_FAST fuel f (base + i - Z.of_nat k) n (base + i) m = p)
    /\ found_back_in (last_match t r k (i - 1)) (base + i - Z.of_nat k) p.
Proof.
  induction k as [|k IH]; intros i m L1 L2 A K; cbn [last_match].
  - exists O. eexists. split; [|exists m; split; [reflexivity|assumption]].
    intros fuel [|n] _ Hn; [lia|]. cbn [RE_SEARCH_BACKWARD_FAST]. rewrite (proj2 (Z.leb_le _ _)) by lia. f_equal. lia.
  - pose proof (order _ _ _ _ _ (ready_subject _ _ _ _ _ _ R)) as O.
    assert (Step : forall fuel n, BACKWARD_FAST fuel f (base + i - Z.of_nat (S k)) (S n) (base + i) m
      = if negb (f (char t (i - 1))) then BACKWARD_FAST fuel f (base + (i - 1) - Z.of_nat k) n (base + (i - 1)) m
        else testing fuel (address b (i - 1)) m (RE_SEARCH_BACKWARD_RETURN b (address b (i - 1)))
               (BACKWARD_FAST fuel f (base + (i - 1) - Z.of_nat k) n (base + (i - 1)))).
    { intros fuel n. cbn [RE_SEARCH_BACKWARD_FAST]. rewrite (proj2 (Z.leb_gt _ _)) by lia. cbv zeta.
      replace (base + i - 1) with (base + (i - 1)) by lia.
      rewrite <- (A (i - 1)) by lia. rewrite in_fastmap_spec by (first [assumption|lia]). rewrite (A (i - 1)) by lia.
      now replace (base + i - Z.of_nat (S k)) with (base + (i - 1) - Z.of_nat k) by lia. }
    replace (base + i - Z.of_nat (S k)) with (base + (i - 1) - Z.of_nat k) in * by lia.
    assert (Next : forall m', kept m' -> _) by (intros m' K'; exact (IH (i - 1) m' ltac:(lia) ltac:(lia) ltac:(intros; apply A; lia) K')).
    destruct (f (char t (i - 1))) eqn:Fc; cbn [negb] in Step.
    + pose proof (test_spec m (i - 1) K ltac:(lia)) as Ts. destruct (match_at t r (i - 1)) as [j g|].
      * destruct Ts as (N & x & Rp & _ & E). exists N. eexists.
        split; [|eexists; split; [reflexivity|now exists x]].
        intros fuel [|n] Hf Hn; [lia|]. rewrite Step, E by assumption. reflexivity.
      * destruct Ts as (N & m' & K' & _ & E). destruct (Next m' K') as (N' & p & Ep & Hp).
        exists (Nat.max N N'), p. split; [|exact Hp]. intros fuel [|n] Hf Hn; [lia|].
        rewrite Step, E by lia. apply Ep; lia.
    + rewrite (skipped_back (i - 1)) by (first [assumption|lia]). destruct (Next m K) as (N' & p & Ep & Hp).
      exists N', p. split; [|exact Hp]. intros fuel [|n] Hf Hn; [lia|]. rewrite Step. apply Ep; lia.
Qed.

Definition both_halves_back (fuel : nat) (m : memory) : progress :=
  then_
    (if (address b (stop t) >? gap_end b) && (gap_end b >? address b i0)
     then BACKWARD_FAST fuel f (gap_end b) fuel (address b (stop t)) m
     else Continue (address b (stop t)) m)
    (fun pc m => BACKWARD_FAST fuel f (address b i0) fuel (if pc =? gap_end b then gap_start b else pc) m).

Lemma across_gap_back m :
  kept m -> gap_end b < address b (stop t) -> address b i0 < gap_end b ->
  exists N p, (forall fuel, (N <= fuel)%nat -> both_halves_back fuel m = p)
    /\ found_back_in (last_match t r (Z.to_nat (stop t - i0)) (stop t - 1)) (address b i0) p.
Proof.
  intros K H1 H2. pose proof (gap_order _ _ _ _ _ (ready_subject _ _ _ _ _ _ R)) as Q.
  pose proof (order _ _ _ _ _ (ready_subject _ _ _ _ _ _ R)) as O.
  assert (G : i0 < gap_index b < stop t).
  { unfold address, gap_index in *. destruct (Z.leb_spec (gap_start b - text b) i0), (Z.leb_spec (gap_start b - text b) (stop t)); lia. }
  destruct (backward_fast (text b + (gap_end b - gap_start b)) (Z.to_nat (stop t - gap_index b)) (stop t) m) as (N1 & p1 & E1 & F1);
    [lia|lia|intros x X; unfold address; rewrite (proj2 (Z.leb_le _ _)) by lia; lia|exact K|].
  replace (text b + (gap_end b - gap_start b) + stop t - Z.of_nat (Z.to_nat (stop t - gap_index b))) with (gap_end b) in * by (unfold gap_index in *; lia).
  replace (text b + (gap_end b - gap_start b) + stop t) with (address b (stop t)) in E1 by (unfold address; rewrite (proj2 (Z.leb_le _ _)) by lia; lia).
  replace (Z.to_nat (stop t - i0)) with (Z.to_nat (stop t - gap_index b) + Z.to_nat (gap_index b - i0))%nat by lia.
  rewrite last_match_add. replace (stop t - 1 - Z.of_nat (Z.to_nat (stop t - gap_index b))) with (gap_index b - 1) by lia.
  unfold both_halves_back. rewrite !Z.gtb_ltb, (proj2 (Z.ltb_lt _ _) H1), (proj2 (Z.ltb_lt _ _) H2). cbn [andb].
  destruct (last_match t r (Z.to_nat (stop t - gap_index b)) (stop t - 1)) as [[[i j] g]|].
  - exists (Nat.max N1 (S (Z.to_nat (stop t - gap_index b)))), p1. split; [|exact F1].
    intros fuel L. rewrite E1 by lia. destruct F1 as (x & -> & _). reflexivity.
  - destruct F1 as (m1 & -> & K1).
    destruct (backward_fast (text b) (Z.to_nat (gap_index b - i0)) (gap_index b) m1) as (N2 & p2 & E2 & F2);
      [lia|lia|intros x X; unfold address; rewrite (proj2 (Z.leb_gt _ _)) by lia; lia|exact K1|].
    replace (text b + gap_index b - Z.of_nat (Z.to_nat (gap_index b - i0))) with (address b i0) in *
      by (unfold address; rewrite (proj2 (Z.leb_gt _ _)) by lia; lia).
    exists (Nat.max (Nat.max N1 N2) (S (Z.to_nat (stop t)))), p2. split; [|exact F2].
    intros fuel L. rewrite E1 by lia. cbn [then_]. rewrite Z.eqb_refl.
    rewrite <- (E2 fuel fuel) by lia. f_equal. unfold gap_index. lia.
Qed.

Lemma beside_gap_back : ~ (gap_end b < address b (stop t) /\ address b i0 < gap_end b) -> i0 < stop t ->
  exists base, (forall x, i0 <= x < stop t -> address b x = base + x) /\ address b i0 = base + i0
    /\ (if address b (stop t) =? gap_end b then gap_start b else address b (stop t)) = base + stop t.
Proof.
  intros H I. pose proof (gap_order _ _ _ _ _ (ready_subject _ _ _ _ _ _ R)) as Q.
  exists (if gap_index b <=? i0 then text b + (gap_end b - gap_start b) else text b).
  unfold address, gap_index in *. destruct (Z.leb_spec (gap_start b - text b) i0); (split; [intros x X|split]);
    repeat match goal with
    | |- context [?x <=? ?y] => destruct (Z.leb_spec x y)
    | H : context [?x <=? ?y] |- _ => destruct (Z.leb_spec x y)
    | |- context [?x =? ?y] => destruct (Z.eqb_spec x y)
    end; lia.
Qed.

Lemma both_halves_back_spec m :
  kept m -> exists N p pc, (forall fuel, (N <= fuel)%nat -> both_halves_back fuel m = p)
    /\ found_back_in (last_match t r (Z.to_nat (stop t - i0)) (stop t - 1)) pc p.
Proof.
  intros K. destruct ((address b (stop t) >? gap_end b) && (gap_end b >? address b i0)) eqn:H.
  - apply andb_true_iff in H as [H1 H2]. rewrite Z.gtb_ltb in H1, H2. apply Z.ltb_lt in H1, H2.
    destruct (across_gap_back m K H1 H2) as (N & p & E & F). now exists N, p, (address b i0).
  - assert (Hn : ~ (gap_end b < address b (stop t) /\ address b i0 < gap_end b)).
    { rewrite !Z.gtb_ltb in H. apply andb_false_iff in H as [H|H]; apply Z.ltb_ge in H; lia. }
    destruct (Z.eq_dec i0 (stop t)) as [Di|D].
    + exists 1%nat. eexists. eexists. split.
      * intros [|fuel] L; [lia|]. unfold both_halves_back. rewrite H. cbn [then_ RE_SEARCH_BACKWARD_FAST].
        rewrite (proj2 (Z.leb_le _ _)); [reflexivity|].
        pose proof (gap_order _ _ _ _ _ (ready_subject _ _ _ _ _ _ R)). rewrite Di. case_if; lia.
      * rewrite Di, Z.sub_diag. cbn. now exists m.
    + destruct beside_gap_back as (base & A & E2 & E1); [assumption|lia|].
      destruct (backward_fast base (Z.to_nat (stop t - i0)) (stop t) m) as (N & p & E & F); [lia|lia|intros; apply A; lia|exact K|].
      exists (Nat.max N (S (Z.to_nat (stop t - i0)))), p. eexists. split; [|exact F]. intros fuel L.
      unfold both_halves_back. rewrite H. cbn [then_]. rewrite E1, E2.
      replace (base + i0) with (base + stop t - Z.of_nat (Z.to_nat (stop t - i0))) by lia. apply E; lia.
Qed.
End Back.

Lemma address_below i : first t <= i <= stop t -> 
  (if address b i =? gap_end b then gap_start b else address b i) - 1 = address b (i - 1)
  /\ (address b (i - 1) <? address b i0) = (i <=? i0).
Proof.
  intros I. pose proof (ready_subject _ _ _ _ _ _ R) as S. pose proof (order _ _ _ _ _ S) as O.
  split; [apply (address_before b m0 _ match_end t S)|].
  pose proof (gap_order _ _ _ _ _ S). unfold address.
  repeat match goal with
  | |- context [?x <=? ?y] => destruct (Z.leb_spec x y)
  | |- context [?x <? ?y] => destruct (Z.ltb_spec x y)
  end; lia.
Qed.

Lemma backward_slow k : forall i m,
  i <= stop t -> i0 + Z.of_nat k = i -> kept m ->
  exists N x, (forall fuel n, (N <= fuel)%nat -> (k < n)%nat ->
      search_backward_slow pattern_start pattern_end b match_end re_max_failures realloc true fuel (address b i0) n (address b i) m = x)
    /\ found_back (last_match t r (k + 1) i) x.
Proof.
  induction k as [|k IH]; intros i m L1 L2 K; cbn [last_match plus];
    pose proof (test_spec m i K ltac:(lia)) as Ts; destruct (address_below i ltac:(lia)) as [A1 A2];
    (destruct (match_at t r i) as [j g|] eqn:Q;
     [destruct Ts as (N & x & Rp & E & _); exists N; eexists; (split; [|exists x; split; [exact Rp|reflexivity]]);
      intros fuel [|n] Hf Hn; [lia|];
      cbn [search_backward_slow]; rewrite E by assumption;
      destruct (not_failure i j g x) as (m' & Rg & -> & -> & _); auto; lia|]);
    destruct Ts as (N & m' & K' & E & _).
  - exists N. eexists. split; [|exists m'; split; [reflexivity|exact K']].
    intros fuel [|n] Hf Hn; [lia|]. cbn [search_backward_slow]. rewrite E by assumption. cbn [RE_MATCH_FAILURE_RESULT Z.eqb orb negb].
    cbv zeta. rewrite A1, A2, (proj2 (Z.leb_le _ _)) by lia. reflexivity.
  - destruct (IH (i - 1) m') as (N' & x & E' & F); [lia|lia|exact K'|]. exists (Nat.max N N'), x. split; [|exact F].
    intros fuel [|n] Hf Hn; [lia|]. cbn [search_backward_slow]. rewrite E by lia. cbn [RE_MATCH_FAILURE_RESULT Z.eqb orb negb].
    cbv zeta. rewrite A1, A2, (proj2 (Z.leb_gt _ _)) by lia. apply E'; lia.
Qed.

Lemma search_backward m : line_end_tests r = false -> kept m -> exists N x,
  (forall fuel, (N <= fuel)%nat -> re_search_backward pattern_start pattern_end b (address b i0) match_end re_max_failures realloc true fuel m = x)
  /\ found_back (last_match t r (Z.to_nat (stop t - i0) + 1) (stop t)) x.
Proof.
  intros Ln K. destruct (scanned_once m K) as (N & v & f & E & V & C). unfold re_search_backward, INITIALIZE_RE_SEARCH.
  destruct V as [->|[->|[-> V]]]; [| |congruence].
  - destruct (both_halves_back_spec f) with (m := m) as (N' & p & pc & E' & F); [intros i I M; destruct (C i I M) as [|[|[]]]; [lia|assumption|lia]|exact K|].
    rewrite Nat.add_comm. cbn [last_match plus].
    destruct (match_at t r (stop t)) eqn:Ms; [destruct (C (stop t)) as [|[[]|[]]]; try lia; congruence|].
    destruct (last_match t r (Z.to_nat (stop t - i0)) (stop t - 1)) as [[[i j] g]|] eqn:Lm.
    + destruct F as (x & -> & F). exists (Nat.max N N'), x. split; [|exact F]. intros fuel L. rewrite E by lia.
      cbn [Z.ltb Z.compare Z.eqb negb]. cbv zeta. specialize (E' fuel ltac:(lia)). unfold both_halves_back in E'.
      rewrite <- end_here in E'. rewrite E'. reflexivity.
    + destruct F as (m' & -> & K'). exists (Nat.max N N'). eexists. split; [|exists m'; split; [reflexivity|exact K']].
      intros fuel L. rewrite E by lia.
      cbn [Z.ltb Z.compare Z.eqb negb]. cbv zeta. specialize (E' fuel ltac:(lia)). unfold both_halves_back in E'.
      rewrite <- end_here in E'. rewrite E'. reflexivity.
  - destruct (backward_slow (Z.to_nat (stop t - i0)) (stop t) m) as (N' & x & E' & F); [lia|lia|exact K|].
    exists (Nat.max (Nat.max N N') (S (Z.to_nat (stop t - i0)))), x. split; [|exact F]. intros fuel L.
    rewrite E by lia. cbn [Z.ltb Z.compare Z.eqb Pos.eqb negb]. cbv zeta. rewrite end_here at 2. apply E'; lia.
Qed.
End Props.

(** ** The theorems *)

(** What a search also asks: the scan of the pattern has room, the translation
    is one that can be applied twice, and what is searched does not end at the
    gap. *)
Record ready_to_search (r : regex) (pattern_start : Z) (b : re_buffer) (m : memory) (match_end : Z) (t : subject) : Prop := {
  search_ready : ready r pattern_start b m match_end t;
  search_translation : forall c, byte c ->
    TRANSLATE_CHAR m (translation b) (TRANSLATE_CHAR m (translation b) c) = TRANSLATE_CHAR m (translation b) c;
  search_scan : searchable r /\ failure_jumps r <= RE_NFAILURES;
  search_end : match_end = address b (stop t)
}.

Lemma first_match_spec t r k : forall i,
  match first_match t r k i with
  | Some (j, e, g) => i <= j < i + Z.of_nat k /\ match_at t r j = Matched e g
      /\ forall x, i <= x < j -> match_at t r x = Failed
  | None => forall x, i <= x < i + Z.of_nat k -> match_at t r x = Failed
  end.
Proof.
  induction k as [|k IH]; intros i; cbn [first_match]; [intros; lia|].
  destruct (match_at t r i) as [e g|] eqn:Q; [repeat split; auto; lia|]. specialize (IH (i + 1)).
  assert (E : forall x, i <= x -> (i + 1 <= x -> match_at t r x = Failed) -> match_at t r x = Failed)
    by (intros x X H; destruct (Z.eq_dec i x) as [->|]; [assumption|apply H; lia]).
  destruct (first_match t r k (i + 1)) as [[[j e] g]|].
  - destruct IH as (J & M & H). split; [lia|]. split; [assumption|]. intros x X. apply E; [lia|]. intros. apply H. lia.
  - intros x X. apply E; [lia|]. intros. apply IH. lia.
Qed.

Lemma last_match_spec t r k : forall i,
  match last_match t r k i with
  | Some (j, e, g) => i - Z.of_nat k < j <= i /\ match_at t r j = Matched e g
      /\ forall x, j < x <= i -> match_at t r x = Failed
  | None => forall x, i - Z.of_nat k < x <= i -> match_at t r x = Failed
  end.
Proof.
  induction k as [|k IH]; intros i; cbn [last_match]; [intros; lia|].
  destruct (match_at t r i) as [e g|] eqn:Q; [repeat split; auto; lia|]. specialize (IH (i - 1)).
  assert (E : forall x, x <= i -> (x <= i - 1 -> match_at t r x = Failed) -> match_at t r x = Failed)
    by (intros x X H; destruct (Z.eq_dec i x) as [->|]; [assumption|apply H; lia]).
  destruct (last_match t r k (i - 1)) as [[[j e] g]|].
  - destruct IH as (J & M & H). split; [lia|]. split; [assumption|]. intros x X. apply E; [lia|]. intros. apply H. lia.
  - intros x X. apply E; [lia|]. intros. apply IH. lia.
Qed.

Lemma failed_no_match t r i : wf r -> match_at t r i = Failed -> forall j, ~ matches t r i j.
Proof. intros W E j M. now apply match_at_complete in M. Qed.

Lemma ready_kept r ps b m me t : ready r ps b m me t -> kept ps (compile r) m m.
Proof. intros R. split; [apply R|reflexivity]. Qed.

Lemma register_start_index r ps b m me t i :
  ready r ps b m me t -> first t <= i -> register_index b (address b i) = i.
Proof.
  intros R I. pose proof (ready_subject _ _ _ _ _ _ R) as S. pose proof (order _ _ _ _ _ S).
  unfold register_index. pose proof (address_positive b m _ me t S i).
  rewrite (proj2 (Z.eqb_neq _ _)) by lia. apply (ADDRESS_TO_INDEX_address b m _ me t S).
Qed.

(** C3: take a regular expression without back references and without a [*] or
    [+] of an expression that can match the empty string, whose pattern has
    less than 32768 bytes, and a text in a buffer with a gap anywhere, except
    at an end of the text if the expression tests for words ([ready]).  With
    room for its failure points, [re_match] on that pattern comes to the result of the backtracking matcher that works on
    the expression and the text without the gap: the end of the match, with
    every register, or -1.  It does so although it replaces opcodes of the
    pattern and drops failure points at the end of the pattern; outside the
    pattern it changes nothing. *)
Theorem re_match_backtracks r pattern_start b m match_end t re_max_failures realloc i :
  ready r pattern_start b m match_end t -> first t <= i <= stop t ->
  stack_room re_max_failures realloc (depth r (stop t - i)) ->
  exists fuel v m' registers,
    re_match pattern_start (pattern_start + size (compile r)) b (address b i) match_end re_max_failures realloc fuel true m
      = Returned v m' registers
    /\ (forall x, ~ pattern_start <= x < pattern_start + size (compile r) -> m' x = m x)
    /\ match match_at t r i with
       | Matched j g =>
           v = j /\ exists R, registers = Some R /\ reg_start R 0 = i /\ reg_end R 0 = j
             /\ forall n, n <> 0 -> reg_start R n = starts g n /\ reg_end R n = ends g n
       | Failed => v = -1 /\ registers = None
       end.
Proof.
  intros R I Rm. destruct (tested r pattern_start b m match_end t re_max_failures realloc R i m (ready_kept _ _ _ _ _ _ R) I Rm)
    as (N & x & E & H). specialize (E N (le_n N)). unfold represents in H. destruct (match_at t r i) as [j g|].
  - destruct H as (m' & Rg & -> & [_ K] & R1 & R2). rewrite (register_start_index _ _ _ _ _ _ i R) in R1 by lia.
    exists N, j, m', (Some Rg). split; [exact E|]. split; [exact K|]. split; [reflexivity|]. exists Rg. tauto.
  - destruct H as (m' & -> & [_ K]). exists N, (-1), m', None. auto.
Qed.

(** C23: under the conditions of [ready] (no back references, no repeated
    expression that can match the empty string, a pattern of less than 32768
    bytes, no gap at an end of the text if the expression tests for words) and
    with room for its failure points, [re_match] decides whether the expression
    matches: it returns the end of a match that begins at the index, if there
    is one in the language of the expression, and -1 if there is none. *)
Theorem re_match_decides r pattern_start b m match_end t re_max_failures realloc i :
  ready r pattern_start b m match_end t -> first t <= i <= stop t ->
  stack_room re_max_failures realloc (depth r (stop t - i)) ->
  exists fuel v m' registers,
    re_match pattern_start (pattern_start + size (compile r)) b (address b i) match_end re_max_failures realloc fuel true m
      = Returned v m' registers
    /\ (matches t r i v \/ v = -1 /\ forall j, ~ matches t r i j).
Proof.
  intros R I Rm. destruct (tested r pattern_start b m match_end t re_max_failures realloc R i m (ready_kept _ _ _ _ _ _ R) I Rm)
    as (N & x & E & H). specialize (E N (le_n N)). unfold represents in H. destruct (match_at t r i) as [j g|] eqn:Q.
  - destruct H as (m' & Rg & -> & _). exists N, j, m', (Some Rg). split; [exact E|]. left. now apply match_at_sound in Q.
  - destruct H as (m' & -> & _). exists N, (-1), m', None. split; [exact E|]. right. split; [reflexivity|].
    apply failed_no_match; [apply R|assumption].
Qed.

(** C11: [re_search_forward] finds the first place, from the index [i] to the
    end, where the expression matches, and returns the end of the match there
    and the registers; if there is no match it returns -1: the fastmap with
    which it skips characters skips no match.  Beside [ready] this is for
    expressions that the scan for the fastmap can read (after an alternative
    that can be empty there is one that has code) with at most 512 jumps, a
    translation that translates what it gives to itself, and a region whose
    end is not given as the start of the gap ([ready_to_search]). *)
Theorem re_search_forward_first r pattern_start b m match_end t re_max_failures realloc i :
  ready_to_search r pattern_start b m match_end t -> first t <= i <= stop t ->
  stack_room re_max_failures realloc (depth r (stop t - i)) ->
  exists fuel v m' registers,
    re_search_forward pattern_start (pattern_start + size (compile r)) b (address b i) match_end re_max_failures realloc true fuel m
      = Returned v m' registers
    /\ ((exists j g R, i <= j <= stop t /\ match_at t r j = Matched v g /\ matches t r j v
          /\ registers = Some R /\ reg_start R 0 = j /\ reg_end R 0 = v
          /\ forall x e, i <= x < j -> ~ matches t r x e)
        \/ (v = -1 /\ forall x e, i <= x <= stop t -> ~ matches t r x e)).
Proof.
  intros [R Tr Sc En] I Rm.
  destruct (search_forward r pattern_start b m match_end t re_max_failures realloc R Tr Sc En i I Rm m (ready_kept _ _ _ _ _ _ R))
    as (N & x & E & F). specialize (E N (le_n N)).
  pose proof (first_match_spec t r (Z.to_nat (stop t - i) + 1) i) as S. unfold found in F.
  destruct (first_match t r (Z.to_nat (stop t - i) + 1) i) as [[[j e] g]|].
  - destruct F as (m' & Rg & -> & _ & R1 & R2 & _). destruct S as (J & Mt & H). exists N, e, m', (Some Rg).
    rewrite (register_start_index _ _ _ _ _ _ j R) in R1 by lia. split; [exact E|]. left. exists j, g, Rg.
    pose proof (match_at_sound _ _ _ _ _ Mt). repeat split; auto; try lia. intros x' e' X. apply failed_no_match; [apply R|apply H; lia].
  - destruct F as (m' & -> & _). exists N, (-1), m', None. split; [exact E|]. right. split; [reflexivity|].
    intros x' e' X. apply failed_no_match; [apply R|apply S; lia].
Qed.

(** C24: [re_search_backward] finds the last place, from the end down to the
    index [i], where the expression matches, and returns that place; if there
    is none it returns -1.  This is for expressions without [$], under the
    conditions of [ready_to_search] that the forward search has. *)
Theorem re_search_backward_last r pattern_start b m match_end t re_max_failures realloc i :
  ready_to_search r pattern_start b m match_end t -> first t <= i <= stop t ->
  stack_room re_max_failures realloc (depth r (stop t - i)) -> line_end_tests r = false ->
  exists fuel v m' registers,
    re_search_backward pattern_start (pattern_start + size (compile r)) b (address b i) match_end re_max_failures realloc true fuel m
      = Returned v m' registers
    /\ ((exists e g R, i <= v <= stop t /\ match_at t r v = Matched e g /\ matches t r v e
          /\ registers = Some R /\ reg_start R 0 = v /\ reg_end R 0 = e
          /\ forall x e, v < x <= stop t -> ~ matches t r x e)
        \/ (v = -1 /\ forall x e, i <= x <= stop t -> ~ matches t r x e)).
Proof.
  intros [R Tr Sc En] I Rm Ln.
  destruct (search_backward r pattern_start b m match_end t re_max_failures realloc R Tr Sc En i I Rm m Ln (ready_kept _ _ _ _ _ _ R))
    as (N & x & E & F). specialize (E N (le_n N)).
  pose proof (last_match_spec t r (Z.to_nat (stop t - i) + 1) (stop t)) as S. unfold found_back in F.
  destruct (last_match t r (Z.to_nat (stop t - i) + 1) (stop t)) as [[[j e] g]|].
  - destruct F as (y & (m' & Rg & -> & _ & R1 & R2 & _) & ->). destruct S as (J & Mt & H).
    pose proof (match_at_sound _ _ _ _ _ Mt) as Ms. pose proof (matches_order _ _ _ _ Ms) as Mo.
    pose proof (order _ _ _ _ _ (ready_subject _ _ _ _ _ _ R)) as O.
    exists N, j, m', (Some Rg). rewrite (register_start_index _ _ _ _ _ _ j R) in R1 by lia. split.
    + rewrite E. unfold RE_SEARCH_BACKWARD_RETURN. rewrite (proj2 (Z.ltb_ge e 0)) by lia.
      now rewrite (ADDRESS_TO_INDEX_address b m _ match_end t (ready_subject _ _ _ _ _ _ R)).
    + left. exists e, g, Rg. repeat split; auto; try lia. intros x' e' X. apply failed_no_match; [apply R|apply H; lia].
  - destruct F as (m' & -> & _). exists N, (-1), m', None. split; [exact E|]. right. split; [reflexivity|].
    intros x' e' X. apply failed_no_match; [apply R|apply S; lia].
Qed.
