(* ===== verification/RegexExample.v ===== *)
(** * Patterns and buffers (src/src/microcode/regex.c)

    A buffer with a gap and a pattern, with which the theorems of RegexProps.v
    hold, and inputs on which the code goes wrong. *)

From Stdlib Require Import ZArith List Lia Bool.
From S2P Require Import Prelude.
From S2P Require Import Memory.
From S2P Require Import Regex.
From S2P Require Import RegexSpec.
From S2P Require Import RegexMatch.
From S2P Require Import RegexSearch.
From S2P Require Import RegexFast.
From S2P Require Import RegexProps.
Import ListNotations.

(** The pattern is at 1000 and the text at 2000. *)
Definition pattern_bytes (l : list item) : list Z :=
  map (fun x => match x with Byte z => z | Repeat => opcode regexpcode_maybe_finalize_jump end) l.

Definition memory_of (pattern text : list Z) : memory :=
  fun a => if a <? 2000 then nth (Z.to_nat (a - 1000)) pattern 0 else nth (Z.to_nat (a - 2000)) text 0.

Lemma memory_of_pattern l text : size l < 1000 -> has_pattern 1000 l (memory_of (pattern_bytes l) text).
Proof.
  intros Sz l1 x l2 E. assert (M : memory_of (pattern_bytes l) text (1000 + size l1)
    = match x with Byte z => z | Repeat => opcode regexpcode_maybe_finalize_jump end).
  { unfold memory_of, pattern_bytes, size in *. rewrite E in *. rewrite length_app in Sz. cbn [length] in Sz.
    rewrite (proj2 (Z.ltb_lt _ _)) by lia. replace (Z.to_nat (1000 + Z.of_nat (length l1) - 1000)) with (length l1) by lia.
    rewrite map_app, app_nth2; rewrite length_map; [|lia]. now rewrite Nat.sub_diag. }
  destruct x; cbn [item_at]; rewrite M; auto.
Qed.

(** ** A buffer

    "xaabay", with a gap of three bytes after "xa". *)

Definition word_letters (c : Z) : Z := if (97 <=? c) && (c <=? 122) then syntaxcode_word else 0.
Definition letters : list Z := [120; 97; 97; 98; 97; 121].
Definition gap_buffer : re_buffer := re_buffer_initialize NULL word_letters 2000 0 9 2 5.
Definition gap_text : list Z := [120; 97; 1; 2; 3; 97; 98; 97; 121].
Definition gap_subject : subject :=
  mk_subject (fun i => nth (Z.to_nat i) letters 0) word_letters 0 6 6.

(** The expression [a+\(b\|cd\)]. *)
Definition a_then_b : regex :=
  Seq (Plus (One (Char 97))) (Seq (Open 1) (Seq (Alt (One (Char 98)) (Str [99; 100])) (Close 1))).
Definition gap_memory : memory := memory_of (pattern_bytes (compile a_then_b)) gap_text.

Ltac evaluate f :=
  repeat match goal with
  | |- context [f ?i] => let a := eval vm_compute in (f i) in change (f i) with a
  end.

Lemma gap_buffer_subject : subject_of gap_buffer gap_memory (outside 1000 (compile a_then_b)) 2009 gap_subject.
Proof.
  assert (O : size (compile a_then_b) = 27) by reflexivity.
  split; [cbn; lia|cbn; lia|cbn; lia|reflexivity|reflexivity|left; reflexivity|reflexivity| |intros N; now elim N].
  intros i I. cbn [first last gap_subject] in I. unfold outside. rewrite O.
  assert (i = 0 \/ i = 1 \/ i = 2 \/ i = 3 \/ i = 4 \/ i = 5) as [-> | [-> | [-> | [-> | [-> | ->]]]]] by lia;
    evaluate (address gap_buffer);
    (split; [lia|split; [unfold byte; evaluate gap_memory; lia|reflexivity]]).
Qed.

Lemma gap_buffer_ready : ready_to_search a_then_b 1000 gap_buffer gap_memory 2009 gap_subject.
Proof.
  split; [split|..].
  - cbn; unfold byte, size; cbn; intuition lia || (repeat constructor; lia).
  - reflexivity.
  - discriminate.
  - lia.
  - apply memory_of_pattern. reflexivity.
  - exact gap_buffer_subject.
  - reflexivity.
  - split; [cbn; intuition discriminate|vm_compute; discriminate].
  - reflexivity.
Qed.

Lemma small_room n : n <= RE_NFAILURES -> stack_room 0 (fun _ => false) n.
Proof. intros L k K H. pose proof (Z.pow_pos_nonneg 2 k). lia. Qed.

Lemma gap_match : exists g, match_at gap_subject a_then_b 1 = Matched 4 g /\ starts g 1 = 3 /\ ends g 1 = 4.
Proof. eexists. split; [vm_compute; reflexivity|now split]. Qed.

Definition no_realloc (_ : Z) : bool := false.

Lemma re_match_backtracks_witness : exists fuel m' R,
  re_match 1000 1027 gap_buffer 2001 2009 1000 no_realloc fuel true gap_memory = Returned 4 m' (Some R)
  /\ reg_start R 0 = 1 /\ reg_end R 0 = 4 /\ reg_start R 1 = 3 /\ reg_end R 1 = 4.
Proof.
  destruct gap_match as (g & E & S1 & E1).
  destruct (re_match_backtracks a_then_b 1000 gap_buffer gap_memory 2009 gap_subject 1000 no_realloc 1)
    as (fuel & v & m' & registers & H & _ & Q).
  - exact (search_ready _ _ _ _ _ _ gap_buffer_ready).
  - cbn. lia.
  - intros k K H. pose proof (Z.pow_pos_nonneg 2 k). change (depth a_then_b (stop gap_subject - 1)) with 12 in H. lia.
  - rewrite E in Q. destruct Q as (-> & R & -> & R0 & R1 & Rn). destruct (Rn 1 ltac:(discriminate)) as [Rs Re].
    exists fuel, m', R. rewrite Rs, Re. auto.
Defined.

Lemma re_match_decides_witness : exists fuel v m' registers,
  re_match 1000 1027 gap_buffer 2000 2009 1000 no_realloc fuel true gap_memory = Returned v m' registers
  /\ v = -1 /\ forall j, ~ matches gap_subject a_then_b 0 j.
Proof.
  destruct (re_match_decides a_then_b 1000 gap_buffer gap_memory 2009 gap_subject 1000 no_realloc 0)
    as (fuel & v & m' & registers & H & [M|Q]).
  - exact (search_ready _ _ _ _ _ _ gap_buffer_ready).
  - cbn. lia.
  - intros k K H. pose proof (Z.pow_pos_nonneg 2 k). change (depth a_then_b (stop gap_subject - 0)) with 14 in H. lia.
  - exfalso. apply match_at_complete in M; [apply M; vm_compute; reflexivity|].
    exact (ready_wf _ _ _ _ _ _ (search_ready _ _ _ _ _ _ gap_buffer_ready)).
  - exists fuel, v, m', registers. split; [exact H|exact Q].
Defined.

Lemma gap_has_match : matches gap_subject a_then_b 2 4.
Proof. destruct (match_at gap_subject a_then_b 2) as [j g|] eqn:E; [|discriminate]. apply match_at_sound in E as M. now injection E as <- _. Qed.

Lemma re_search_forward_first_witness : exists fuel v m' R,
  re_search_forward 1000 1027 gap_buffer 2000 2009 1000 no_realloc true fuel gap_memory = Returned v m' (Some R)
  /\ exists j, 0 <= j <= 6 /\ matches gap_subject a_then_b j v /\ reg_start R 0 = j
     /\ forall x e, 0 <= x < j -> ~ matches gap_subject a_then_b x e.
Proof.
  destruct (re_search_forward_first a_then_b 1000 gap_buffer gap_memory 2009 gap_subject 1000 no_realloc 0)
    as (fuel & v & m' & registers & H & [(j & g & R & J & _ & M & -> & R0 & _ & F)|[_ F]]).
  - exact gap_buffer_ready.
  - cbn. lia.
  - intros k K H. pose proof (Z.pow_pos_nonneg 2 k). change (depth a_then_b (stop gap_subject - 0)) with 14 in H. lia.
  - exists fuel, v, m', R. split; [exact H|]. exists j. auto.
  - exfalso. apply (F 2 4); [cbn; lia|exact gap_has_match].
Defined.

Lemma re_search_backward_last_witness : exists fuel v m' R,
  re_search_backward 1000 1027 gap_buffer 2000 2009 1000 no_realloc true fuel gap_memory = Returned v m' (Some R)
  /\ 0 <= v <= 6 /\ exists e, matches gap_subject a_then_b v e /\ forall x e, v < x <= 6 -> ~ matches gap_subject a_then_b x e.
Proof.
  destruct (re_search_backward_last a_then_b 1000 gap_buffer gap_memory 2009 gap_subject 1000 no_realloc 0)
    as (fuel & v & m' & registers & H & [(e & g & R & J & _ & M & -> & R0 & _ & F)|[_ F]]).
  - exact gap_buffer_ready.
  - cbn. lia.
  - intros k K H. pose proof (Z.pow_pos_nonneg 2 k). change (depth a_then_b (stop gap_subject - 0)) with 14 in H. lia.
  - reflexivity.
  - exists fuel, v, m', R. split; [exact H|]. split; [exact J|]. exists e. auto.
  - exfalso. apply (F 2 4); [cbn; lia|exact gap_has_match].
Defined.

(** ** Where the code goes wrong *)

Definition value (x : result) : option Z := match x with Returned v _ _ => Some v | _ => None end.

(** A match from the beginning to the end of the buffer's text. *)
Definition whole (b : re_buffer) (match_end : Z) (pattern text : list Z) : option Z :=
  value (re_match 1000 (1000 + size pattern) b (text_start b) match_end 20000 no_realloc 200 true (memory_of pattern text)).

(** [\(ab\)\1] on "abab" with a gap after the first "a": the length of the
    register counts the gap, so the second "ab" is not found. *)
Definition twice : list Z :=
  pattern_bytes (compile (Seq (Open 1) (Seq (Str [97; 98]) (Close 1)))) ++ [opcode regexpcode_duplicate; 1].

Lemma duplicate_across_gap :
  whole (re_buffer_initialize NULL word_letters 2000 0 4 4 4) 2004 twice [97; 98; 97; 98] = Some 4
  /\ whole (re_buffer_initialize NULL word_letters 2000 0 5 1 2) 2005 twice [97; 0; 98; 97; 98] = Some (-1).
Proof. vm_compute. now split. Qed.

(** [ab\>] on "ab": with the gap at the end of the text, the byte after the
    gap is taken for the next character. *)
Lemma word_end_at_gap :
  whole (re_buffer_initialize NULL word_letters 2000 0 2 2 2) 2002
    (pattern_bytes (compile (Seq (Str [97; 98]) (Test Word_end)))) [97; 98; 0; 120] = Some 2
  /\ whole (re_buffer_initialize NULL word_letters 2000 0 2 2 3) 2002
    (pattern_bytes (compile (Seq (Str [97; 98]) (Test Word_end)))) [97; 98; 0; 120] = Some (-1).
Proof. vm_compute. now split. Qed.

(** An empty region at the gap: [$] looks at a byte of the gap, where the text
    goes on with a newline. *)
Lemma line_end_at_gap :
  value (re_match 1000 1001 (re_buffer_initialize NULL word_letters 2000 0 4 1 2) 2001 2001 20000 no_realloc 200 true
    (memory_of (pattern_bytes (compile (Test Line_end))) [97; 0; newline; 97])) = Some (-1).
Proof. reflexivity. Qed.

(** The scan of a repeat whose body can be empty, [\(a*\)*], comes to the end
    of the body and reads the offset of the failure jump one byte too early:
    the search fails, although the pattern is right and matches. *)
Definition nested_star : regex := Seq (Open 1) (Star (Seq (Star (One (Char 97))) (Close 1))).

Lemma scan_of_nested_star :
  option_map fst (re_compile_fastmap 1000 (1000 + size (compile nested_star)) NULL word_letters
    (memory_of (pattern_bytes (compile nested_star)) []) 100) = Some (-2).
Proof. reflexivity. Qed.

(** [\|], whose alternatives are both empty: a jump of length 0 at the end of
    the pattern is taken for the end of a repeat. *)
Lemma scan_of_empty_alternatives :
  option_map fst (re_compile_fastmap 1000 1006 NULL word_letters
    (memory_of (pattern_bytes (compile (Alt Empty Empty))) []) 100) = Some (-2).
Proof. reflexivity. Qed.

(** The backward search for [$] from the end of "ab" does not try the end. *)
Definition line_end_pattern : list Z := pattern_bytes (compile (Test Line_end)).
Definition two_letters : re_buffer := re_buffer_initialize NULL word_letters 2000 0 2 2 2.

Lemma backward_line_end :
  value (re_match 1000 1001 two_letters 2002 2002 20000 no_realloc 200 true (memory_of line_end_pattern [97; 98])) = Some 2
  /\ value (re_search_backward 1000 1001 two_letters 2000 2002 20000 no_realloc true 200 (memory_of line_end_pattern [97; 98]))
     = Some (-1).
Proof. vm_compute. now split. Qed.

(** The forward search for an empty match, here [\'], does not try the end of
    the region when the gap is there. *)
Lemma forward_end_at_gap :
  let m := memory_of (pattern_bytes (compile (Test Buffer_end))) [97; 98; 0; 0] in
  value (re_search_forward 1000 1001 two_letters 2000 2002 20000 no_realloc true 200 m) = Some 2
  /\ value (re_search_forward 1000 1001 (re_buffer_initialize NULL word_letters 2000 0 4 2 4) 2000 2002 20000 no_realloc true 200 m)
     = Some (-1).
Proof. vm_compute. now split. Qed.

(** A pattern that does not come from an expression can pop a failure point
    that is not there, and push more places than the scan has room for. *)
Lemma finalize_without_failure_point :
  re_match 1000 1003 two_letters 2000 2002 20000 no_realloc 200 true (memory_of [7; 0; 0] [97; 98]) = Undefined_behaviour.
Proof. reflexivity. Qed.

Lemma scan_overflow :
  scan_steps 1000 (1000 + 3 * 513) NULL word_letters (fun a => if a mod 3 =? 1 then 6 else 0) 513
    (loop 1000 [] (fun _ => false) 0) = Undefined_scan.
Proof. vm_compute. reflexivity. Qed.

(** The jump at the end of a repeat is never finalized but at the end of the
    pattern: the code looks for the first instruction of the body at the place
    of the failure jump, as the offset goes there and not behind it. *)
Lemma never_finalized pattern_end m pattern_pc offset :
  pattern_pc <> pattern_end -> m (pattern_pc + offset) = opcode regexpcode_on_failure_jump ->
  finalize_p pattern_end m pattern_pc offset = false.
Proof.
  intros N E. unfold finalize_p, incompatible. rewrite (proj2 (Z.eqb_neq _ _) N), E, SWITCH_ENUM_opcode. cbn [orb].
  now destruct (following_char m pattern_pc).
Qed.
