(* ===== verification/VectorPrim.v ===== *)
(** * Pairs, lists and vectors (src/src/microcode/list.c and vector.c)

    The primitives on pairs, on the machine of Heap.v.  A system pair is any
    object whose type code is of the class GC_PAIR, whatever it stands for.

    A vector is a header word with its length and then its elements; a system
    vector is any object whose type code is of the class GC_VECTOR.  The
    arguments of a primitive with any number of them are a list.

    [long] arithmetic on indices wraps.  An address is an integer that does
    not wrap, so that [Free + n_words] is not above the limit only if there
    is room. *)

From Stdlib Require Import ZArith List Lia Bool.
From S2P Require Import Prelude.
From S2P Require Import Object.
From S2P Require Import Memory.
From S2P Require Import Gc.
From S2P Require Import Heap.
From S2P Require Import HeapArg.
Import ListNotations.

Notation N_TYPE_CODES := 64.
Notation UNSPECIFIC := (MAKE_OBJECT TC_CONSTANT 1).

Definition is_GC_PAIR (t : gc_type_t) : bool := match t with GC_PAIR => true | _ => false end.
Definition is_GC_VECTOR (t : gc_type_t) : bool := match t with GC_VECTOR => true | _ => false end.
Definition GC_TYPE_PAIR (object : Z) : bool := is_GC_PAIR (GC_TYPE object).
Definition GC_TYPE_VECTOR (object : Z) : bool := is_GC_VECTOR (GC_TYPE object).
Definition EMPTY_LIST_P (object : Z) : bool := object =? EMPTY_LIST.

Section Primitives.
Local Open Scope act_scope.
Variable memory_base : Z.
Notation PAIR_CAR := (PAIR_CAR memory_base).
Notation PAIR_CDR := (PAIR_CDR memory_base).

Definition SET_PAIR_CAR (pair car : Z) : act unit := MEMORY_SET memory_base pair 0 car.
Definition SET_PAIR_CDR (pair cdr : Z) : act unit := MEMORY_SET memory_base pair 1 cdr.

Definition Prim_pair (object : Z) : act Z := ret (BOOLEAN_TO_OBJECT (PAIR_P object)).
Definition Prim_cons (car cdr : Z) : act Z := cons memory_base car cdr.
Definition Prim_car (pair : Z) : act Z := CHECK_ARG 1 PAIR_P pair ;; PAIR_CAR pair.
Definition Prim_cdr (pair : Z) : act Z := CHECK_ARG 1 PAIR_P pair ;; PAIR_CDR pair.
Definition Prim_set_car (pair car : Z) : act Z :=
  CHECK_ARG 1 PAIR_P pair ;; SET_PAIR_CAR pair car ;; ret UNSPECIFIC.
Definition Prim_set_cdr (pair cdr : Z) : act Z :=
  CHECK_ARG 1 PAIR_P pair ;; SET_PAIR_CDR pair cdr ;; ret UNSPECIFIC.

(** A [long] is 1 or less after 63 steps. *)
Fixpoint car_cdr_loop (n : nat) (object CAR_CDR_Pattern : Z) : act Z :=
  if CAR_CDR_Pattern >? 1 then
    match n with
    | O => leave No_fuel
    | S n =>
        if negb (PAIR_P object) then error_wrong_type_arg 1
        else
          object <- (if (CAR_CDR_Pattern & 1) =? 0 then PAIR_CDR object else PAIR_CAR object) ;;
          car_cdr_loop n object (CAR_CDR_Pattern >>> 1)
    end
  else ret object.

Definition Prim_general_car_cdr (object path : Z) : act Z :=
  CAR_CDR_Pattern <- arg_nonnegative_integer memory_base 2 path ;;
  car_cdr_loop 63 object CAR_CDR_Pattern.

Definition Prim_sys_pair (object : Z) : act Z := ret (BOOLEAN_TO_OBJECT (GC_TYPE_PAIR object)).
Definition Prim_sys_pair_cons (type car cdr : Z) : act Z :=
  type <- arg_ulong_index_integer memory_base 1 type N_TYPE_CODES ;;
  if negb (is_GC_PAIR (gc_type_code type)) then error_bad_range_arg 1
  else system_pair_cons memory_base type car cdr.
Definition Prim_sys_pair_car (pair : Z) : act Z := CHECK_ARG 1 GC_TYPE_PAIR pair ;; PAIR_CAR pair.
Definition Prim_sys_pair_cdr (pair : Z) : act Z := CHECK_ARG 1 GC_TYPE_PAIR pair ;; PAIR_CDR pair.
Definition Prim_sys_set_car (pair car : Z) : act Z :=
  CHECK_ARG 1 GC_TYPE_PAIR pair ;; SET_PAIR_CAR pair car ;; ret UNSPECIFIC.
Definition Prim_sys_set_cdr (pair cdr : Z) : act Z :=
  CHECK_ARG 1 GC_TYPE_PAIR pair ;; SET_PAIR_CDR pair cdr ;; ret UNSPECIFIC.

End Primitives.

(** ** Vectors and records (src/src/microcode/vector.c) *)

Notation TC_RECORD := 62.

Definition RECORD_P (object : Z) : bool := OBJECT_TYPE object =? TC_RECORD.

Section Primitives.
Local Open Scope act_scope.
Variable memory_base : Z.
(** For the walk along a list. *)
Variable fuel : nat.
Notation pointer := (MAKE_POINTER_OBJECT memory_base).
Notation VECTOR_LENGTH := (VECTOR_LENGTH memory_base).
Notation VECTOR_LOC := (VECTOR_LOC memory_base).
Notation arg_nonnegative_integer := (arg_nonnegative_integer memory_base).
Notation arg_index_integer := (arg_index_integer memory_base).
Notation arg_ulong_index_integer := (arg_ulong_index_integer memory_base).

Definition ARG_VECTOR (n object : Z) : act Z := CHECK_ARG n VECTOR_P object ;; ret object.
Definition ARG_RECORD (n object : Z) : act Z := CHECK_ARG n RECORD_P object ;; ret object.
Definition ARG_GC_VECTOR (n object : Z) : act Z := CHECK_ARG n GC_TYPE_VECTOR object ;; ret object.
Definition ARG_VECTOR_INDEX (n object vector : Z) : act Z :=
  length <- VECTOR_LENGTH vector ;; arg_index_integer n object length.

Definition VECTOR_SET (v i value : Z) : act unit := MEMORY_SET memory_base v (i + 1) value.

(** ** Allocation *)

(** An allocation of Memory.v, whose block gets a type code. *)
Definition allocating (type : Z) (allocate : machine -> prim (Z * machine)) : act Z := fun s =>
  match allocate s with
  | PRIMITIVE_RETURN (a, s) => Value (pointer type a) s
  | PRIMITIVE_ERROR e => Exit (Abort e)
  end.

Definition allocate_non_marked_vector (type length : Z) (gc_check_p : bool) : act Z :=
  allocating type (Memory.allocate_non_marked_vector length gc_check_p).

Definition allocate_marked_vector (type length : Z) (gc_check_p : bool) : act Z :=
  (if gc_check_p then Primitive_GC_If_Needed (1 + length)%UL else ret tt) ;;
  allocating type (fun s => PRIMITIVE_RETURN (allocate_vector TC_MANIFEST_VECTOR length s)).

Definition make_vector (length contents : Z) (gc_check_p : bool) : act Z :=
  allocating TC_VECTOR (Memory.make_vector length contents gc_check_p).

Definition Prim_allocate_nm_vector (type length : Z) : act Z :=
  type <- arg_ulong_index_integer 1 type N_TYPE_CODES ;;
  length <- arg_ulong_index_integer 2 length (Z.shiftl 1 DATUM_LENGTH) ;;
  allocate_non_marked_vector type length true.

Definition Prim_vector_cons (length contents : Z) : act Z :=
  length <- arg_nonnegative_integer 1 length ;; make_vector length contents true.

Fixpoint store_arguments (result_scan : Z) (arguments : list Z) : act unit :=
  match arguments with
  | [] => ret tt
  | x :: arguments => assign result_scan x ;; store_arguments (result_scan + 1) arguments
  end.

Definition Prim_vector (arguments : list Z) : act Z :=
  result <- allocate_marked_vector TC_VECTOR (Z.of_nat (length arguments)) true ;;
  store_arguments (VECTOR_LOC result 0) arguments ;;
  ret result.

(** The error of a record without arguments is no [prim_error]. *)
Definition Prim_record (arguments : list Z) : option (act Z) :=
  let nargs := Z.of_nat (length arguments) in
  if nargs <? 1 then None
  else Some (
    result <- allocate_marked_vector TC_RECORD nargs true ;;
    store_arguments (VECTOR_LOC result 0) arguments ;;
    ret result).

(** ** Elements *)

Definition Prim_vector_p (object : Z) : act Z := ret (BOOLEAN_TO_OBJECT (VECTOR_P object)).
Definition Prim_record_p (object : Z) : act Z := ret (BOOLEAN_TO_OBJECT (RECORD_P object)).
Definition Prim_sys_vector (object : Z) : act Z := ret (BOOLEAN_TO_OBJECT (GC_TYPE_VECTOR object)).

Definition VECTOR_LENGTH_PRIMITIVE (arg_type : Z -> Z -> act Z) (vector : Z) : act Z :=
  vector <- arg_type 1 vector ;;
  length <- VECTOR_LENGTH vector ;;
  new_long memory_base length.

Definition Prim_vector_length : Z -> act Z := VECTOR_LENGTH_PRIMITIVE ARG_VECTOR.
Definition Prim_record_length : Z -> act Z := VECTOR_LENGTH_PRIMITIVE ARG_RECORD.
Definition Prim_sys_vec_size : Z -> act Z := VECTOR_LENGTH_PRIMITIVE ARG_GC_VECTOR.

Definition VECTOR_REF_PRIMITIVE (arg_type : Z -> Z -> act Z) (vector index : Z) : act Z :=
  vector <- arg_type 1 vector ;;
  index <- ARG_VECTOR_INDEX 2 index vector ;;
  VECTOR_REF memory_base vector index.

Definition Prim_vector_ref : Z -> Z -> act Z := VECTOR_REF_PRIMITIVE ARG_VECTOR.
Definition Prim_record_ref : Z -> Z -> act Z := VECTOR_REF_PRIMITIVE ARG_RECORD.
Definition Prim_sys_vector_ref : Z -> Z -> act Z := VECTOR_REF_PRIMITIVE ARG_GC_VECTOR.

Definition VECTOR_SET_PRIMITIVE (arg_type : Z -> Z -> act Z) (vector index new_value : Z) : act Z :=
  vector <- arg_type 1 vector ;;
  index <- ARG_VECTOR_INDEX 2 index vector ;;
  VECTOR_SET vector index new_value ;;
  ret UNSPECIFIC.

Definition Prim_vector_set : Z -> Z -> Z -> act Z := VECTOR_SET_PRIMITIVE ARG_VECTOR.
Definition Prim_record_set : Z -> Z -> Z -> act Z := VECTOR_SET_PRIMITIVE ARG_RECORD.
Definition Prim_sys_vec_set : Z -> Z -> Z -> act Z := VECTOR_SET_PRIMITIVE ARG_GC_VECTOR.

(** ** Lists *)

Definition advance_Free (n : Z) : act unit :=
  update (fun s => mk_machine (mem s) (Free s + n) (heap_start s) (heap_alloc_limit s) (GC_ENABLED_P s)).

(** The loop, with the words that are left before [end_scan]. *)
Fixpoint subvector_to_list_loop (n : nat) (scan pair_scan : Z) : act (Z * Z) :=
  match n with
  | O => ret (scan, pair_scan)
  | S n =>
      advance_Free 2 ;;
      x <- fetch scan ;;
      assign pair_scan x ;;
      s <- current ;;
      assign (pair_scan + 1) (pointer TC_LIST (Free s)) ;;
      subvector_to_list_loop n (scan + 1) (pair_scan + 2)
  end.

Definition subvector_to_list (vector start end_ : Z) : act Z :=
  if start =? end_ then ret EMPTY_LIST
  else
    Primitive_GC_If_Needed (2 * (end_ - start)) ;;
    s <- current ;;
    let result := pointer TC_LIST (Free s) in
    p <- subvector_to_list_loop (Z.to_nat (end_ - 1 - start)) (VECTOR_LOC vector start) (Free s) ;;
    advance_Free 2 ;;
    x <- fetch (fst p) ;;
    assign (snd p) x ;;
    assign (snd p + 1) EMPTY_LIST ;;
    ret result.

Definition SUBVECTOR_TO_LIST_PRIMITIVE (arg_type : Z -> Z -> act Z) (vector start end_ : Z) : act Z :=
  vector <- arg_type 1 vector ;;
  start <- arg_nonnegative_integer 2 start ;;
  end_ <- arg_nonnegative_integer 3 end_ ;;
  length <- VECTOR_LENGTH vector ;;
  if end_ >? length then error_bad_range_arg 3
  else if start >? end_ then error_bad_range_arg 2
  else subvector_to_list vector start end_.

Definition Prim_subvector_to_list : Z -> Z -> Z -> act Z := SUBVECTOR_TO_LIST_PRIMITIVE ARG_VECTOR.
Definition Prim_sys_subvector_to_list : Z -> Z -> Z -> act Z := SUBVECTOR_TO_LIST_PRIMITIVE ARG_GC_VECTOR.

(** What is left of the list, and the number of its elements so far. *)
Fixpoint list_to_vector_loop (n : nat) (list count : Z) : act (Z * Z) :=
  if PAIR_P list then
    match n with
    | O => leave No_fuel
    | S n =>
        Primitive_GC_If_Needed 0 ;;
        x <- PAIR_CAR memory_base list ;;
        push x ;;
        list <- PAIR_CDR memory_base list ;;
        list_to_vector_loop n list (count + 1)
    end
  else ret (list, count).

Definition list_to_vector (result_type argument_number list : Z) : act Z :=
  s <- current ;;
  let result := Free s in
  advance_Free 1 ;;
  p <- list_to_vector_loop fuel list 0 ;;
  if negb (EMPTY_LIST_P (fst p)) then error_wrong_type_arg argument_number
  else
    assign result (MAKE_OBJECT TC_MANIFEST_VECTOR (snd p)) ;;
    ret (pointer result_type result).

Definition Prim_list_to_vector (list : Z) : act Z := list_to_vector TC_VECTOR 1 list.

Definition Prim_sys_list_to_vector (type_code list : Z) : act Z :=
  type_code <- arg_ulong_index_integer 1 type_code N_TYPE_CODES ;;
  if negb (is_GC_VECTOR (gc_type_code type_code)) then error_bad_range_arg 1
  else list_to_vector type_code 2 list.

(** ** Moving and filling *)

(** The checks, and then [move] with the length and both vectors. *)
Definition SUBVECTOR_MOVE_PREFIX (vector1 start1 end1 vector2 start2 : Z)
  (move : Z -> Z -> Z -> Z -> Z -> act Z) : act Z :=
  vector1 <- ARG_VECTOR 1 vector1 ;;
  start1 <- arg_nonnegative_integer 2 start1 ;;
  end1 <- arg_nonnegative_integer 3 end1 ;;
  vector2 <- ARG_VECTOR 4 vector2 ;;
  start2 <- arg_nonnegative_integer 5 start2 ;;
  length1 <- VECTOR_LENGTH vector1 ;;
  if end1 >? length1 then error_bad_range_arg 3
  else if start1 >? end1 then error_bad_range_arg 2
  else
    let length := end1 - start1 in
    let end2 := (start2 + length)%SL in
    length2 <- VECTOR_LENGTH vector2 ;;
    if end2 >? length2 then error_bad_range_arg 5
    else move length (VECTOR_LOC vector1 start1) (VECTOR_LOC vector1 end1)
           (VECTOR_LOC vector2 start2) (VECTOR_LOC vector2 end2).

Fixpoint move_right (length : nat) (scan1 scan2 : Z) : act unit :=
  match length with
  | O => ret tt
  | S length => x <- fetch (scan1 - 1) ;; assign (scan2 - 1) x ;; move_right length (scan1 - 1) (scan2 - 1)
  end.

Fixpoint move_left (length : nat) (scan1 scan2 : Z) : act unit :=
  match length with
  | O => ret tt
  | S length => x <- fetch scan1 ;; assign scan2 x ;; move_left length (scan1 + 1) (scan2 + 1)
  end.

Definition Prim_subvector_move_right (vector1 start1 end1 vector2 start2 : Z) : act Z :=
  SUBVECTOR_MOVE_PREFIX vector1 start1 end1 vector2 start2 (fun length _ scan1 _ scan2 =>
    move_right (Z.to_nat length) scan1 scan2 ;; ret UNSPECIFIC).

Definition Prim_subvector_move_left (vector1 start1 end1 vector2 start2 : Z) : act Z :=
  SUBVECTOR_MOVE_PREFIX vector1 start1 end1 vector2 start2 (fun length scan1 _ scan2 _ =>
    move_left (Z.to_nat length) scan1 scan2 ;; ret UNSPECIFIC).

Fixpoint fill_words (length : nat) (scan fill_value : Z) : act unit :=
  match length with
  | O => ret tt
  | S length => assign scan fill_value ;; fill_words length (scan + 1) fill_value
  end.

Definition Prim_vector_fill (vector start end_ fill_value : Z) : act Z :=
  vector <- ARG_VECTOR 1 vector ;;
  start <- arg_nonnegative_integer 2 start ;;
  end_ <- arg_nonnegative_integer 3 end_ ;;
  length <- VECTOR_LENGTH vector ;;
  if end_ >? length then error_bad_range_arg 3
  else if start >? end_ then error_bad_range_arg 2
  else fill_words (Z.to_nat (end_ - start)) (VECTOR_LOC vector start) fill_value ;; ret UNSPECIFIC.

End Primitives.
