(* ===== verification/VectorRun.v ===== *)
(** * The loops of vector.c, in closed form

    What each loop of VectorPrim.v leaves in memory, word by word. *)

From Stdlib Require Import ZArith List Lia Bool.
From S2P Require Import Prelude.
From S2P Require Import Object.
From S2P Require Import Memory.
From S2P Require Import Heap.
From S2P Require Import HeapArg.
From S2P Require Import VectorPrim.
Import ListNotations.

#[local] Opaque MAKE_OBJECT OBJECT_DATUM OBJECT_TYPE.

Definition count {A} (l : list A) : Z := Z.of_nat (length l).

(** Memory with the words [xs] from [a] on. *)
Definition overlay (m : memory) (a : Z) (xs : list Z) : memory :=
  fun x => if (a <=? x) && (x <? a + count xs) then nth (Z.to_nat (x - a)) xs 0 else m x.

Lemma overlay_nil m a x : overlay m a [] x = m x.
Proof. unfold overlay, count. cbn [length]. destruct (Z.leb_spec a x), (Z.ltb_spec x (a + Z.of_nat 0)); cbn [andb]; auto; lia. Qed.

Lemma overlay_cons m a x xs y : overlay m a (x :: xs) y = overlay (store m a x) (a + 1) xs y.
Proof.
  unfold overlay, count, store. cbn [length]. rewrite Nat2Z.inj_succ.
  destruct (Z.leb_spec a y), (Z.ltb_spec y (a + Z.succ (Z.of_nat (length xs)))), (Z.leb_spec (a + 1) y),
    (Z.ltb_spec y (a + 1 + Z.of_nat (length xs))), (Z.eqb_spec y a); cbn [andb]; auto; try lia.
  - replace (Z.to_nat (y - a)) with (S (Z.to_nat (y - (a + 1)))) by lia. reflexivity.
  - subst. rewrite Z.sub_diag. reflexivity.
Qed.

Lemma overlay_inside m a xs i : 0 <= i < count xs -> overlay m a xs (a + i) = nth (Z.to_nat i) xs 0.
Proof.
  intros H. unfold overlay. rewrite (proj2 (Z.leb_le _ _)), (proj2 (Z.ltb_lt _ _)) by lia. cbn [andb].
  f_equal. f_equal. lia.
Qed.

Lemma overlay_outside m a xs x : x < a \/ a + count xs <= x -> overlay m a xs x = m x.
Proof.
  intros H. unfold overlay. destruct (Z.leb_spec a x), (Z.ltb_spec x (a + count xs)); cbn [andb]; auto; lia.
Qed.

(** The words of [m] from [a] on. *)
Definition slice (m : memory) (a n : Z) : list Z := map (fun i => m (a + Z.of_nat i)) (seq 0 (Z.to_nat n)).

Lemma slice_count m a n : 0 <= n -> count (slice m a n) = n.
Proof. intros H. unfold count, slice. rewrite length_map, length_seq. lia. Qed.

Lemma slice_nth m a n i : 0 <= i < n -> nth (Z.to_nat i) (slice m a n) 0 = m (a + i).
Proof.
  intros H. unfold slice. rewrite nth_indep with (d' := (fun k : nat => m (a + Z.of_nat k)) O) by (rewrite length_map, length_seq; lia).
  rewrite (map_nth (fun k => m (a + Z.of_nat k))), seq_nth by lia. f_equal. lia.
Qed.

Lemma slice_ext m m' a n : (forall i, 0 <= i < n -> m' (a + i) = m (a + i)) -> slice m' a n = slice m a n.
Proof. intros H. unfold slice. apply map_ext_in. intros i Hi%in_seq. apply H. lia. Qed.

Lemma slice_cons m a n : 0 < n -> slice m a n = m a :: slice m (a + 1) (n - 1).
Proof.
  intros H. unfold slice. replace (Z.to_nat n) with (S (Z.to_nat (n - 1))) by lia. cbn [seq map].
  rewrite Z.add_0_r. f_equal. rewrite <- seq_shift, map_map. apply map_ext. intros i. f_equal. lia.
Qed.

Lemma slice_nil m a : slice m a 0 = [].
Proof. reflexivity. Qed.

(** ** Stores *)

Lemma store_arguments_run xs : forall a s,
  exists m, store_arguments a xs s = Value tt (set_mem s m) /\ forall x, m x = overlay (mem s) a xs x.
Proof.
  induction xs as [|x xs IH]; intros a s; cbn [store_arguments].
  - exists (mem s). split; [destruct s; reflexivity|]. intros x. rewrite overlay_nil. reflexivity.
  - unfold bind, assign, update. destruct (IH (a + 1) (set_mem s (store (mem s) a x))) as (m & -> & M).
    exists m. split; [reflexivity|]. intros y. rewrite M, overlay_cons. reflexivity.
Qed.

Lemma push_list_run xs : forall s,
  exists m, push_list xs s = Value tt (mk_machine m (Free s + count xs) (heap_start s) (heap_alloc_limit s) (GC_ENABLED_P s))
    /\ forall x, m x = overlay (mem s) (Free s) xs x.
Proof.
  induction xs as [|x xs IH]; intros s; cbn [push_list].
  - exists (mem s). unfold count. cbn [length Z.of_nat]. rewrite Z.add_0_r. split; [destruct s; reflexivity|].
    intros x. rewrite overlay_nil. reflexivity.
  - unfold bind, push, update. destruct (IH (mk_machine (store (mem s) (Free s) x) (Free s + 1) (heap_start s) (heap_alloc_limit s) (GC_ENABLED_P s)))
      as (m & -> & M). cbn [Free mem heap_start heap_alloc_limit GC_ENABLED_P] in *.
    exists m. split; [|intros y; rewrite M, overlay_cons; reflexivity].
    unfold count. cbn [length]. rewrite Nat2Z.inj_succ. do 2 f_equal. lia.
Qed.

Lemma fill_words_run n v : forall a s,
  exists m, fill_words n a v s = Value tt (set_mem s m)
    /\ forall x, m x = if (a <=? x) && (x <? a + Z.of_nat n) then v else mem s x.
Proof.
  induction n as [|n IH]; intros a s; cbn [fill_words].
  - exists (mem s). split; [destruct s; reflexivity|]. intros x.
    destruct (Z.leb_spec a x), (Z.ltb_spec x (a + Z.of_nat 0)); cbn [andb]; auto; lia.
  - unfold bind, assign, update. destruct (IH (a + 1) (set_mem s (store (mem s) a v))) as (m & -> & M).
    exists m. split; [reflexivity|]. intros x. rewrite M. cbn [mem set_mem]. unfold store.
    destruct (Z.leb_spec (a + 1) x), (Z.ltb_spec x (a + 1 + Z.of_nat n)), (Z.leb_spec a x),
      (Z.ltb_spec x (a + Z.of_nat (S n))), (Z.eqb_spec x a); cbn [andb]; auto; lia.
Qed.

(** ** Copies

    Every word that is stored is one of the source; when the overlap of source
    and destination does not get in the way, it is the right one. *)

Definition copied (m m' : memory) (src dst n : Z) : Prop :=
  (forall x, x < dst \/ dst + n <= x -> m' x = m x)
  /\ (forall i, 0 <= i < n -> exists j, 0 <= j < n /\ m' (dst + i) = m (src + j)).

Lemma move_left_run n : forall src dst s,
  exists m, move_left n src dst s = Value tt (set_mem s m)
    /\ copied (mem s) m src dst (Z.of_nat n)
    /\ (dst <= src \/ src + Z.of_nat n <= dst -> forall i, 0 <= i < Z.of_nat n -> m (dst + i) = mem s (src + i)).
Proof.
  induction n as [|n IH]; intros src dst s; cbn [move_left].
  - exists (mem s). split; [destruct s; reflexivity|]. split; [split; [reflexivity|]|]; intros; lia.
  - unfold bind, fetch, assign, update.
    set (s1 := set_mem s (store (mem s) dst (mem s src))).
    destruct (IH (src + 1) (dst + 1) s1) as (m & -> & [C1 C2] & C3). exists m. split; [reflexivity|].
    rewrite Nat2Z.inj_succ. cbn [mem set_mem s1] in *.
    assert (At : m dst = mem s src) by (rewrite C1 by lia; apply store_same).
    split; [split|].
    + intros x Hx. rewrite C1 by lia. apply store_other. lia.
    + intros i Hi. destruct (Z.eq_dec i 0) as [-> | N].
      * exists 0. rewrite Z.add_0_r, Z.add_0_r. split; [lia | exact At].
      * destruct (C2 (i - 1)) as (j & Hj & E); [lia|]. replace (dst + 1 + (i - 1)) with (dst + i) in E by lia.
        unfold store in E. destruct (Z.eqb_spec (src + 1 + j) dst) in E.
        -- exists 0. rewrite Z.add_0_r. split; [lia | exact E].
        -- exists (j + 1). split; [lia|]. rewrite E. f_equal. lia.
    + intros O i Hi. destruct (Z.eq_dec i 0) as [-> | N]; [rewrite Z.add_0_r, Z.add_0_r; exact At|].
      replace (dst + i) with (dst + 1 + (i - 1)) by lia. rewrite C3 by lia. rewrite store_other by lia. f_equal. lia.
Qed.

Lemma move_right_run n : forall src dst s,
  exists m, move_right n src dst s = Value tt (set_mem s m)
    /\ copied (mem s) m (src - Z.of_nat n) (dst - Z.of_nat n) (Z.of_nat n)
    /\ (src <= dst \/ dst <= src - Z.of_nat n -> forall i, 1 <= i <= Z.of_nat n -> m (dst - i) = mem s (src - i)).
Proof.
  induction n as [|n IH]; intros src dst s; cbn [move_right].
  - exists (mem s). split; [destruct s; reflexivity|]. split; [split; [reflexivity|]|]; intros; lia.
  - unfold bind, fetch, assign, update.
    set (s1 := set_mem s (store (mem s) (dst - 1) (mem s (src - 1)))).
    destruct (IH (src - 1) (dst - 1) s1) as (m & -> & [C1 C2] & C3). exists m. split; [reflexivity|].
    rewrite Nat2Z.inj_succ. cbn [mem set_mem s1] in *.
    assert (At : m (dst - 1) = mem s (src - 1)) by (rewrite C1 by lia; apply store_same).
    split; [split|].
    + intros x Hx. rewrite C1 by lia. apply store_other. lia.
    + intros i Hi. destruct (Z.eq_dec i (Z.of_nat n)) as [-> | N].
      * exists (Z.of_nat n). split; [lia|]. replace (dst - Z.succ (Z.of_nat n) + Z.of_nat n) with (dst - 1) by lia.
        rewrite At. f_equal. lia.
      * destruct (C2 i) as (j & Hj & E); [lia|].
        replace (dst - 1 - Z.of_nat n + i) with (dst - Z.succ (Z.of_nat n) + i) in E by lia.
        unfold store in E. destruct (Z.eqb_spec (src - 1 - Z.of_nat n + j) (dst - 1)) in E.
        -- exists (Z.of_nat n). split; [lia|]. rewrite E. f_equal. lia.
        -- exists j. split; [lia|]. rewrite E. f_equal. lia.
    + intros O i Hi. destruct (Z.eq_dec i 1) as [-> | N]; [exact At|].
      replace (dst - i) with (dst - 1 - (i - 1)) by lia. rewrite C3 by lia. rewrite store_other by lia. f_equal. lia.
Qed.

(** ** Lists *)

Section Lists.
Variable memory_base : Z.
Notation addr := (OBJECT_ADDRESS memory_base).
Notation pointer := (MAKE_POINTER_OBJECT memory_base).

(** The list [xs] in pairs below [bound]. *)
Inductive list_at (m : memory) (bound : Z) : Z -> list Z -> Prop :=
  | at_nil : list_at m bound EMPTY_LIST []
  | at_cons p xs : PAIR_P p = true -> addr p + 2 <= bound -> list_at m bound (m (addr p + 1)) xs ->
      list_at m bound p (m (addr p) :: xs).

Lemma list_at_kept m m' bound bound' p xs : (forall x, x < bound -> m' x = m x) -> bound <= bound' ->
  list_at m bound p xs -> list_at m' bound' p xs.
Proof.
  intros E B. induction 1 as [|p xs P A L IH]; [constructor|].
  rewrite <- (E (addr p)) by lia. constructor; [exact P | lia|]. rewrite E by lia. exact IH.
Qed.

Lemma list_at_fun m b b' p xs ys : list_at m b p xs -> list_at m b' p ys -> xs = ys.
Proof.
  intros H. revert ys. induction H as [|p xs P A L IH]; intros ys H'.
  - inversion H' as [|? ? P]; [reflexivity|]. subst. discriminate P.
  - inversion H' as [|q ys' P' A' L']; subst; [discriminate P|]. f_equal. auto.
Qed.

(** Where a pointer to [a] points. *)
Lemma pointer_address type a : memory_base <= a < memory_base + 2 ^ 58 -> 0 <= type < 64 ->
  addr (pointer type a) = a /\ OBJECT_TYPE (pointer type a) = type.
Proof.
  intros H Ht. unfold MAKE_POINTER_OBJECT, OBJECT_ADDRESS, DATUM_TO_ADDRESS, ADDRESS_TO_DATUM.
  rewrite ulong_small by lia. destruct (MAKE_OBJECT_parts type (a - memory_base)) as [-> ->]; lia.
Qed.

Lemma subvector_to_list_loop_run n : forall scan ps s, Free s = ps -> scan + Z.of_nat n <= ps ->
  exists m, subvector_to_list_loop memory_base n scan ps s
    = Value (scan + Z.of_nat n, ps + 2 * Z.of_nat n)
        (mk_machine m (ps + 2 * Z.of_nat n) (heap_start s) (heap_alloc_limit s) (GC_ENABLED_P s))
    /\ (forall x, x < ps \/ ps + 2 * Z.of_nat n <= x -> m x = mem s x)
    /\ forall i, 0 <= i < Z.of_nat n ->
         m (ps + 2 * i) = mem s (scan + i) /\ m (ps + 2 * i + 1) = pointer TC_LIST (ps + 2 * (i + 1)).
Proof.
  induction n as [|n IH]; intros scan ps s F H; cbn [subvector_to_list_loop].
  - exists (mem s). split; [|split; [reflexivity | lia]]. subst. destruct s. cbn. rewrite !Z.add_0_r. reflexivity.
  - unfold bind, advance_Free, fetch, assign, current, update. cbn [mem Free set_mem heap_start heap_alloc_limit GC_ENABLED_P].
    set (m1 := store (store (mem s) ps (mem s scan)) (ps + 1) (pointer TC_LIST (Free s + 2))).
    set (s1 := mk_machine m1 (Free s + 2) (heap_start s) (heap_alloc_limit s) (GC_ENABLED_P s)).
    destruct (IH (scan + 1) (ps + 2) s1) as (m & E & M1 & M2); cbn [Free s1]; [lia | lia|].
    match goal with |- context [subvector_to_list_loop memory_base n _ _ ?s'] => change s' with s1 end. rewrite E.
    cbn [s1 mem heap_start heap_alloc_limit GC_ENABLED_P] in *.
    rewrite Nat2Z.inj_succ in *. exists m. split; [|split].
    + f_equal; [f_equal; lia | f_equal; lia].
    + intros x Hx. rewrite M1 by lia. unfold m1. rewrite !store_other by lia. reflexivity.
    + intros i Hi. destruct (Z.eq_dec i 0) as [-> | N].
      * rewrite !Z.mul_0_r, !Z.add_0_r, !M1 by lia. unfold m1. rewrite store_same, store_other, store_same by lia.
        split; [reflexivity|]. f_equal. lia.
      * replace (ps + 2 * i) with (ps + 2 + 2 * (i - 1)) by lia. destruct (M2 (i - 1)) as [-> ->]; [lia|].
        unfold m1. rewrite !store_other by lia. split; f_equal; lia.
Qed.

(** The pairs that [subvector_to_list] makes. *)
Definition chain (m : memory) (f : Z) (xs : list Z) : Prop :=
  forall i, 0 <= i < count xs ->
    m (f + 2 * i) = nth (Z.to_nat i) xs 0
    /\ m (f + 2 * i + 1) = if i =? count xs - 1 then EMPTY_LIST else pointer TC_LIST (f + 2 * (i + 1)).

Lemma subvector_to_list_run v start end_ s :
  start < end_ -> VECTOR_LOC memory_base v start + (end_ - start) <= Free s ->
  exists m, subvector_to_list memory_base v start end_ s
    = (if GC_NEEDED_P s (2 * (end_ - start)) then Exit (Abort (Primitive_GC (2 * (end_ - start))))
       else Value (pointer TC_LIST (Free s))
              (mk_machine m (Free s + 2 * (end_ - start)) (heap_start s) (heap_alloc_limit s) (GC_ENABLED_P s)))
    /\ (forall x, x < Free s -> m x = mem s x)
    /\ chain m (Free s) (slice (mem s) (VECTOR_LOC memory_base v start) (end_ - start)).
Proof.
  intros L H. unfold subvector_to_list. destruct (Z.eqb_spec start end_); [lia|].
  destruct (subvector_to_list_loop_run (Z.to_nat (end_ - 1 - start)) (VECTOR_LOC memory_base v start) (Free s) s eq_refl)
    as (m & E & M1 & M2); [lia|]. rewrite Z2Nat.id in * by lia.
  set (a := VECTOR_LOC memory_base v start) in *. set (k := end_ - 1 - start) in *.
  set (m' := store (store m (Free s + 2 * k) (m (a + k))) (Free s + 2 * k + 1) EMPTY_LIST).
  exists m'. split; [|split].
  - unfold bind, Primitive_GC_If_Needed. destruct (GC_NEEDED_P s (2 * (end_ - start))); [reflexivity|].
    cbn [current]. unfold current. rewrite E. unfold advance_Free, fetch, assign, update, set_mem.
    cbn [mem Free heap_start heap_alloc_limit GC_ENABLED_P fst snd]. unfold ret. fold m'. do 2 f_equal. lia.
  - intros x Hx. unfold m'. rewrite !store_other, M1 by lia. reflexivity.
  - intros i Hi. rewrite slice_count in * by lia. rewrite slice_nth by lia.
    destruct (Z.eqb_spec i (end_ - start - 1)) as [-> | N].
    + replace (end_ - start - 1) with k by lia. unfold m'. rewrite store_same, store_other, store_same, M1 by lia. auto.
    + unfold m'. rewrite !store_other by lia. apply M2. lia.
Qed.

Lemma chain_list_at m xs : forall f bound, chain m f xs -> xs <> [] -> memory_base <= f ->
  f + 2 * count xs <= bound -> bound <= memory_base + 2 ^ 58 -> list_at m bound (pointer TC_LIST f) xs.
Proof.
  induction xs as [|x xs IH]; intros f bound C N B U L; [congruence|].
  unfold count in *. cbn [length] in *. rewrite Nat2Z.inj_succ in *.
  destruct (pointer_address TC_LIST f) as [A O]; [lia | lia|].
  destruct (C 0) as [C1 C2]; [unfold count; cbn [length]; lia|]. rewrite Z.mul_0_r, Z.add_0_r in *. cbn in C1.
  rewrite <- C1. rewrite <- A at 2. constructor.
  - unfold PAIR_P. rewrite O. reflexivity.
  - lia.
  - rewrite A, C2. unfold count. cbn [length]. rewrite Nat2Z.inj_succ. destruct xs as [|y xs].
    + cbn. constructor.
    + destruct (Z.eqb_spec 0 (Z.succ (Z.of_nat (length (y :: xs))) - 1)) as [E | _]; [cbn [length] in E; lia|].
      replace (f + 2 * (0 + 1)) with (f + 2) by lia. apply IH; try lia; [|discriminate].
      intros i Hi. destruct (C (i + 1)) as [D1 D2]; [unfold count in *; cbn [length] in *; lia|].
      replace (f + 2 + 2 * i) with (f + 2 * (i + 1)) by lia. rewrite D1, D2. split.
      * replace (Z.to_nat (i + 1)) with (S (Z.to_nat i)) by lia. reflexivity.
      * unfold count. cbn [length]. rewrite Nat2Z.inj_succ.
        destruct (Z.eqb_spec (i + 1) (Z.succ (Z.of_nat (S (length xs))) - 1)), (Z.eqb_spec i (Z.of_nat (S (length xs)) - 1)); try lia; f_equal; lia.
Qed.

Definition pushing (s : machine) (x : Z) : machine :=
  mk_machine (store (mem s) (Free s) x) (Free s + 1) (heap_start s) (heap_alloc_limit s) (GC_ENABLED_P s).

Lemma list_to_vector_step n list k s : PAIR_P list = true ->
  list_to_vector_loop memory_base (S n) list k s
  = if GC_NEEDED_P s 0 then Exit (Abort (Primitive_GC 0))
    else let s1 := pushing s (mem s (addr list)) in
         list_to_vector_loop memory_base n (mem s1 (addr list + 1)) (k + 1) s1.
Proof.
  intros P. cbn [list_to_vector_loop]. rewrite P. unfold bind, Primitive_GC_If_Needed.
  destruct (GC_NEEDED_P s 0); [reflexivity|].
  unfold PAIR_CAR, PAIR_CDR, MEMORY_REF, fetch, push, update, MEMORY_LOC. rewrite Z.add_0_r. reflexivity.
Qed.

(** The loop of [list_to_vector] on a proper list; [f] is where the new words
    begin. *)
Lemma list_to_vector_loop_run : forall list xs bound s k n,
  list_at (mem s) bound list xs -> bound <= Free s -> heap_start s <= Free s -> (length xs <= n)%nat ->
  exists m, (forall x, x < Free s -> m x = mem s x) /\ slice m (Free s) (count xs) = xs
    /\ list_to_vector_loop memory_base n list k s
      = (if (Free s + count xs <=? heap_alloc_limit s) || negb (GC_ENABLED_P s)
         then Value (EMPTY_LIST, k + count xs)
                (mk_machine m (Free s + count xs) (heap_start s) (heap_alloc_limit s) (GC_ENABLED_P s))
         else match xs with [] => Value (EMPTY_LIST, k) s | _ => Exit (Abort (Primitive_GC 0)) end).
Proof.
  intros list xs. revert list. induction xs as [|x xs IH]; intros list bound s k n L B S N.
  - inversion L; subst. exists (mem s). split; [reflexivity|]. split; [reflexivity|].
    assert (E : list_to_vector_loop memory_base n EMPTY_LIST k s = Value (EMPTY_LIST, k) s) by (destruct n; reflexivity).
    rewrite E. destruct (_ || _); [|reflexivity]. unfold count. cbn. rewrite !Z.add_0_r. destruct s; reflexivity.
  - inversion L as [|p ys P A L']; subst. destruct n as [|n]; [cbn in N; lia|].
    rewrite list_to_vector_step by exact P. cbv zeta.
    set (x := mem s (addr list)) in *. set (s1 := pushing s x).
    assert (Next : mem s1 (addr list + 1) = mem s (addr list + 1)) by (apply store_other; lia).
    destruct (IH (mem s1 (addr list + 1)) bound s1 (k + 1) n) as (m & M1 & M2 & ->); cbn [pushing Free heap_start s1]; try lia.
    { rewrite Next. apply (list_at_kept (mem s) _ bound bound); [|lia | exact L']. intros y Hy. apply store_other. lia. }
    { cbn in N. lia. }
    cbn [s1 pushing Free mem heap_start heap_alloc_limit GC_ENABLED_P] in *. exists m.
    assert (Kept : forall y, y < Free s -> m y = mem s y) by (intros y Hy; rewrite M1 by lia; apply store_other; lia).
    unfold count in *. cbn [length]. rewrite Nat2Z.inj_succ. split; [exact Kept|]. split.
    + rewrite slice_cons by lia. replace (Z.succ (Z.of_nat (length xs)) - 1) with (Z.of_nat (length xs)) by lia.
      rewrite M2. f_equal. rewrite M1 by lia. apply store_same.
    + unfold GC_NEEDED_P, HEAP_AVAILABLE_P, FREE_OK_P.
      rewrite (proj2 (Z.leb_le (heap_start s) (Free s)) S), Z.add_0_r. cbn [andb].
      replace (Free s + Z.succ (Z.of_nat (length xs))) with (Free s + 1 + Z.of_nat (length xs)) by lia.
      replace (k + Z.succ (Z.of_nat (length xs))) with (k + 1 + Z.of_nat (length xs)) by lia.
      destruct (GC_ENABLED_P s); rewrite ?andb_false_r, ?andb_true_r, ?orb_true_r; [|reflexivity].
      destruct (Z.ltb_spec (Free s) (heap_alloc_limit s)) as [U | U].
      * rewrite (proj2 (Z.leb_le (Free s) (heap_alloc_limit s))) by lia. cbn [andb negb orb].
        destruct (Z.leb_spec (Free s + 1 + Z.of_nat (length xs)) (heap_alloc_limit s)); [reflexivity|].
        destruct xs; [cbn in *; lia | reflexivity].
      * destruct (Z.leb_spec (Free s + 1 + Z.of_nat (length xs)) (heap_alloc_limit s)); [lia | reflexivity].
Qed.

End Lists.
