(* ===== verification/HeapSafe.v ===== *)
(** * Well-typed heaps (for VectorPrim.v)

    A heap is a set of blocks: cells, vectors whose elements are objects, and
    vectors of raw words, which the collector does not look at.  A word is a
    well-typed object if its type code agrees with the block it points to, in
    the classes of type codes of gcloop.c.  [safe] is a rule of reasoning about
    actions: whatever they return, the heap stays well-typed.

    Whatever well-typed objects the primitives of VectorPrim.v
    are given, they return a well-typed object in a well-typed heap, signal an
    error or ask for a collection; they do not run out of fuel, nor loop, nor
    read or write a word outside a block.  The exceptions, which trust their
    caller, are in [trusted]. *)

From Stdlib Require Import ZArith List Lia Bool.
From S2P Require Import Prelude.
From S2P Require Import Integer.
From S2P Require Import Bignum.
From S2P Require Import BignumConv.
From S2P Require Import BignumSpec.
From S2P Require Import IntPrim.
From S2P Require Import Object.
From S2P Require Import Memory.
From S2P Require Import Gc.
From S2P Require Import Heap.
From S2P Require Import HeapArg.
From S2P Require Import VectorPrim.
Import ListNotations.

#[local] Opaque MAKE_OBJECT OBJECT_DATUM OBJECT_TYPE.

Inductive kind := Cells (n : Z) | Marked (n : Z) | Unmarked (n : Z).

Definition size (k : kind) : Z :=
  match k with Cells n => n | Marked n | Unmarked n => n + 1 end.

Definition blocks := Z -> option kind.

Section Types.
Variable memory_base : Z.
Notation addr := (OBJECT_ADDRESS memory_base).
Notation pointer := (MAKE_POINTER_OBJECT memory_base).

(** ** Objects *)

Definition ok (blk : blocks) (v : Z) : Prop :=
  match GC_TYPE v with
  | GC_NON_POINTER => True
  | GC_CELL => blk (addr v) = Some (Cells 1)
  | GC_PAIR => blk (addr v) = Some (Cells 2)
  | GC_TRIPLE => blk (addr v) = Some (Cells 3)
  | GC_QUADRUPLE => blk (addr v) = Some (Cells 4)
  | GC_VECTOR =>
      exists n, blk (addr v) = Some (Marked n)
                \/ blk (addr v) = Some (Unmarked n) /\ VECTOR_P v = false /\ RECORD_P v = false
  | GC_SPECIAL =>
      REFERENCE_TRAP_P v = true /\ (TRAP_MAX_IMMEDIATE < OBJECT_DATUM v -> blk (addr v) = Some (Cells 2))
  | GC_COMPILED | GC_UNDEFINED => False
  end.

Definition block_ok (blk : blocks) (m : memory) (a : Z) (k : kind) : Prop :=
  match k with
  | Cells n => 0 < n /\ forall i, 0 <= i < n -> ok blk (m (a + i))
  | Marked n => 0 <= n /\ OBJECT_DATUM (m a) = n /\ forall i, 1 <= i <= n -> ok blk (m (a + i))
  | Unmarked n => 0 <= n /\ OBJECT_DATUM (m a) = n
  end.

(** ** Heaps *)

(** Addresses can be encoded as a datum; there is a collector to ask for. *)
Record typed (blk : blocks) (s : machine) : Prop := {
  ty_block : forall a k, blk a = Some k -> block_ok blk (mem s) a k;
  ty_range : forall a k, blk a = Some k -> memory_base <= a /\ a + size k <= Free s;
  ty_apart : forall a b k k', blk a = Some k -> blk b = Some k' -> a <> b ->
    a + size k <= b \/ b + size k' <= a;
  ty_free : memory_base <= Free s <= heap_alloc_limit s;
  ty_limit : heap_alloc_limit s < memory_base + 2 ^ 58;
  ty_enabled : GC_ENABLED_P s = true
}.

Definition extends (blk blk' : blocks) : Prop := forall a k, blk a = Some k -> blk' a = Some k.

Lemma heap_extends_refl blk : extends blk blk.
Proof. intros a k H. exact H. Qed.

Lemma heap_extends_trans blk blk' blk'' : extends blk blk' -> extends blk' blk'' -> extends blk blk''.
Proof. intros H1 H2 a k H. auto. Qed.

Lemma ok_extends blk blk' v : extends blk blk' -> ok blk v -> ok blk' v.
Proof.
  intros X. unfold ok. destruct (GC_TYPE v); auto.
  - intros [n [H | (H & R)]]; exists n; eauto.
  - intros [T H]. eauto.
Qed.

Lemma block_ok_extends blk blk' m m' a k :
  extends blk blk' -> (forall i, 0 <= i < size k -> m' (a + i) = m (a + i)) ->
  block_ok blk m a k -> block_ok blk' m' a k.
Proof.
  intros X E. assert (E0 : 0 < size k -> m' a = m a) by (intros H; specialize (E 0); rewrite Z.add_0_r in E; apply E; lia).
  destruct k as [n | n | n]; cbn [block_ok size] in *.
  - intros [H1 H2]. split; [exact H1|]. intros i Hi. rewrite E by lia. eauto using ok_extends.
  - intros (H1 & H2 & H3). rewrite E0 by lia. repeat split; auto. intros i Hi. rewrite E by lia. eauto using ok_extends.
  - intros [H1 H2]. rewrite E0 by lia. auto.
Qed.

Lemma block_size blk m a k : block_ok blk m a k -> 0 < size k.
Proof. destruct k; cbn; lia. Qed.

(** New blocks above the free pointer. *)
Lemma typed_grows blk new s s' :
  typed blk s ->
  (forall a, a < Free s -> mem s' a = mem s a) ->
  Free s <= Free s' <= heap_alloc_limit s -> heap_alloc_limit s' = heap_alloc_limit s ->
  GC_ENABLED_P s' = true ->
  (forall a k, new a = Some k -> Free s <= a /\ a + size k <= Free s') ->
  (forall a b k k', new a = Some k -> new b = Some k' -> a <> b -> a + size k <= b \/ b + size k' <= a) ->
  let blk' a := if a <? Free s then blk a else new a in
  (forall a k, new a = Some k -> block_ok blk' (mem s') a k) ->
  extends blk blk' /\ typed blk' s'.
Proof.
  intros T M F L G R A blk' B.
  assert (X : extends blk blk').
  { intros a k H. unfold blk'. destruct (ty_range _ _ T a k H) as [_ U].
    pose proof (block_size _ _ _ _ (ty_block _ _ T a k H)).
    destruct (Z.ltb_spec a (Free s)); [exact H | lia]. }
  assert (Old : forall a k, blk' a = Some k -> a < Free s -> blk a = Some k /\ a + size k <= Free s).
  { intros a k H U. unfold blk' in H. destruct (Z.ltb_spec a (Free s)); [|lia].
    split; [exact H | apply (ty_range _ _ T a k H)]. }
  assert (New : forall a k, blk' a = Some k -> Free s <= a -> new a = Some k).
  { intros a k H U. unfold blk' in H. destruct (Z.ltb_spec a (Free s)); [lia | exact H]. }
  split; [exact X|]. constructor.
  - intros a k H. destruct (Z.lt_ge_cases a (Free s)) as [U | U]; [|eauto].
    destruct (Old a k H U) as [H1 H2].
    apply (block_ok_extends blk blk' (mem s)); [exact X | intros i Hi; apply M; lia | apply (ty_block _ _ T a k H1)].
  - intros a k H. destruct (Z.lt_ge_cases a (Free s)) as [U | U].
    + destruct (Old a k H U) as [H1 H2]. destruct (ty_range _ _ T a k H1). lia.
    + pose proof (ty_free _ _ T). destruct (R a k (New a k H U)). lia.
  - intros a b k k' H H' N. destruct (Z.lt_ge_cases a (Free s)) as [U | U], (Z.lt_ge_cases b (Free s)) as [V | V].
    + destruct (Old a k H U), (Old b k' H' V). apply (ty_apart _ _ T a b k k'); auto.
    + destruct (Old a k H U), (R b k' (New b k' H' V)). lia.
    + destruct (Old b k' H' V), (R a k (New a k H U)). lia.
    + apply (A a b k k'); auto.
  - pose proof (ty_free _ _ T). lia.
  - rewrite L. apply (ty_limit _ _ T).
  - exact G.
Qed.

Definition with_block (blk : blocks) (a : Z) (k : kind) : blocks :=
  fun b => if b =? a then Some k else blk b.

(** One new block, at the free pointer. *)
Lemma typed_alloc blk s s' k :
  typed blk s ->
  (forall a, a < Free s -> mem s' a = mem s a) ->
  Free s' = Free s + size k -> Free s' <= heap_alloc_limit s -> heap_alloc_limit s' = heap_alloc_limit s ->
  GC_ENABLED_P s' = true -> 0 < size k ->
  (forall blk', extends blk blk' -> blk' (Free s) = Some k -> block_ok blk' (mem s') (Free s) k) ->
  exists blk', extends blk blk' /\ typed blk' s' /\ blk' (Free s) = Some k.
Proof.
  intros T M F F2 L G P B.
  destruct (typed_grows blk (fun a => if a =? Free s then Some k else None) s s' T M) as [X T']; auto; try lia.
  - intros a k' H. destruct (Z.eqb_spec a (Free s)); [|discriminate]. inversion H; subst. lia.
  - intros a b k1 k2 H1 H2 N. destruct (Z.eqb_spec a (Free s)), (Z.eqb_spec b (Free s)); congruence.
  - intros a k' H. destruct (Z.eqb_spec a (Free s)); [|discriminate]. inversion H; subst. apply B.
    + intros b k0 Hb. destruct (ty_range _ _ T b k0 Hb). pose proof (block_size _ _ _ _ (ty_block _ _ T b k0 Hb)).
      destruct (Z.ltb_spec b (Free s)); [exact Hb | lia].
    + rewrite Z.ltb_irrefl, Z.eqb_refl. reflexivity.
  - eexists. split; [exact X|]. split; [exact T'|]. rewrite Z.ltb_irrefl, Z.eqb_refl. reflexivity.
Qed.

(** A word of a block is replaced. *)
Lemma typed_store blk s a k i v :
  typed blk s -> blk a = Some k -> 0 <= i < size k ->
  match k with Cells _ => True | _ => 0 < i end ->
  (match k with Unmarked _ => True | _ => ok blk v end) ->
  typed blk (set_mem s (store (mem s) (a + i) v)).
Proof.
  intros T H Hi Hd Hv. constructor; try apply T. cbn [mem set_mem].
  intros b k' H'. pose proof (ty_block _ _ T b k' H') as B.
  destruct (Z.eq_dec b a) as [-> | N].
  - assert (k' = k) as -> by congruence. destruct k as [n | n | n]; cbn [block_ok size] in *.
    + destruct B as [B1 B2]. split; [exact B1|]. intros j Hj.
      destruct (Z.eq_dec j i) as [-> | Nj]; [rewrite store_same; exact Hv | rewrite store_other by lia; auto].
    + destruct B as (B1 & B2 & B3). split; [exact B1|]. rewrite store_other by lia. split; [exact B2|].
      intros j Hj. destruct (Z.eq_dec j i) as [-> | Nj]; [rewrite store_same; exact Hv | rewrite store_other by lia; auto].
    + rewrite store_other by lia. exact B.
  - apply (block_ok_extends blk blk (mem s)); [apply heap_extends_refl | | exact B].
    intros j Hj. apply store_other. destruct (ty_apart _ _ T b a k' k H' H N); lia.
Qed.

(** ** Pointers *)

Lemma address_of blk s a k type :
  typed blk s -> blk a = Some k -> 0 <= type < 64 ->
  addr (pointer type a) = a /\ OBJECT_TYPE (pointer type a) = type.
Proof.
  intros T H Ht. destruct (ty_range _ _ T a k H). pose proof (ty_free _ _ T). pose proof (ty_limit _ _ T).
  pose proof (block_size _ _ _ _ (ty_block _ _ T a k H)).
  unfold MAKE_POINTER_OBJECT, OBJECT_ADDRESS, DATUM_TO_ADDRESS, ADDRESS_TO_DATUM.
  rewrite ulong_small by lia.
  destruct (MAKE_OBJECT_parts type (a - memory_base)) as [-> ->]; lia.
Qed.

Lemma gc_type_pointer blk s a k type :
  typed blk s -> blk a = Some k -> 0 <= type < 64 -> GC_TYPE (pointer type a) = gc_type_code type.
Proof. intros T H Ht. unfold GC_TYPE. destruct (address_of blk s a k type T H Ht) as [_ ->]. reflexivity. Qed.

Lemma ok_pair blk s a type :
  typed blk s -> blk a = Some (Cells 2) -> 0 <= type < 64 -> gc_type_code type = GC_PAIR -> ok blk (pointer type a).
Proof.
  intros T H Ht G. unfold ok. rewrite (gc_type_pointer blk s a _ type T H Ht), G.
  destruct (address_of blk s a _ type T H Ht) as [-> _]. exact H.
Qed.

Lemma ok_marked blk s a n type :
  typed blk s -> blk a = Some (Marked n) -> 0 <= type < 64 -> gc_type_code type = GC_VECTOR -> ok blk (pointer type a).
Proof.
  intros T H Ht G. unfold ok. rewrite (gc_type_pointer blk s a _ type T H Ht), G.
  destruct (address_of blk s a _ type T H Ht) as [-> _]. eauto.
Qed.

Lemma ok_unmarked blk s a n type :
  typed blk s -> blk a = Some (Unmarked n) -> 0 <= type < 64 -> gc_type_code type = GC_VECTOR ->
  type <> TC_VECTOR -> type <> TC_RECORD -> ok blk (pointer type a).
Proof.
  intros T H Ht G N1 N2. unfold ok. rewrite (gc_type_pointer blk s a _ type T H Ht), G.
  destruct (address_of blk s a _ type T H Ht) as [-> O]. exists n. right. split; [exact H|].
  unfold VECTOR_P, RECORD_P. rewrite O. split; apply Z.eqb_neq; assumption.
Qed.

End Types.

(** ** Type safety of the primitives on pairs and vectors *)

#[local] Opaque MAKE_OBJECT OBJECT_DATUM OBJECT_TYPE.

(** ** Rules *)

Section Safe.
Variable memory_base : Z.
Notation addr := (OBJECT_ADDRESS memory_base).
Notation pointer := (MAKE_POINTER_OBJECT memory_base).
Notation ok := (ok memory_base).
Notation typed := (typed memory_base).

Definition safe {A} (blk : blocks) (r : run A) (Q : blocks -> machine -> A -> Prop) : Prop :=
  match r with
  | Value a s => exists blk', extends blk blk' /\ typed blk' s /\ Q blk' s a
  | Exit (Abort _) => True
  | Exit _ => False
  end.

Lemma safe_bind {A B} blk (e : act A) (k : A -> act B) s Q R :
  safe blk (e s) Q ->
  (forall blk' s' a, extends blk blk' -> typed blk' s' -> Q blk' s' a -> safe blk' (k a s') R) ->
  safe blk (bind e k s) R.
Proof.
  intros H K. unfold bind. unfold safe in H. destruct (e s) as [a s' | []]; auto.
  destruct H as (blk' & X & T & H). specialize (K blk' s' a X T H). unfold safe in *.
  destruct (k a s') as [b s'' | []]; auto. destruct K as (blk'' & X' & K). exists blk''. split; [eapply heap_extends_trans; eauto | exact K].
Qed.

Lemma safe_weaken {A} blk (r : run A) (Q R : blocks -> machine -> A -> Prop) :
  safe blk r Q -> (forall blk' s a, extends blk blk' -> Q blk' s a -> R blk' s a) -> safe blk r R.
Proof.
  unfold safe. destruct r as [a s | []]; auto. intros (blk' & X & T & H) W. exists blk'. auto.
Qed.

Lemma safe_ret {A} blk s (a : A) (Q : blocks -> machine -> A -> Prop) : typed blk s -> Q blk s a -> safe blk (ret a s) Q.
Proof. intros T H. exists blk. auto using heap_extends_refl. Qed.

(** Actions that leave the machine as it is. *)
Definition unchanged {A} (blk : blocks) (s : machine) (P : A -> Prop) : blocks -> machine -> A -> Prop :=
  fun blk' s' a => blk' = blk /\ s' = s /\ P a.

Lemma safe_arg {A} blk s (decode : Integer.object bignum -> prim A) w :
  typed blk s ->
  safe blk (arg memory_base decode w s)
    (unchanged blk s (fun a => decode (integer_object memory_base (mem s) w) = PRIMITIVE_RETURN a)).
Proof.
  intros T. unfold arg, of_prim. destruct (decode _); [|exact I].
  exists blk. unfold unchanged. auto using heap_extends_refl.
Qed.

Lemma safe_CHECK_ARG blk s n p o : typed blk s -> safe blk (CHECK_ARG n p o s) (unchanged blk s (fun _ => p o = true)).
Proof.
  intros T. unfold CHECK_ARG. destruct (p o); [|exact I]. exists blk. unfold unchanged. auto using heap_extends_refl.
Qed.

Lemma safe_fetch blk s a : typed blk s -> safe blk (fetch a s) (unchanged blk s (fun v => v = mem s a)).
Proof. intros T. exists blk. unfold unchanged. auto using heap_extends_refl. Qed.

Lemma safe_current blk s : typed blk s -> safe blk (current s) (unchanged blk s (fun s' => s' = s)).
Proof. intros T. exists blk. unfold unchanged. auto using heap_extends_refl. Qed.

Lemma safe_assign blk s a k i v :
  typed blk s -> blk a = Some k -> 0 <= i < size k ->
  match k with Cells _ => True | _ => 0 < i end ->
  (match k with Unmarked _ => True | _ => ok blk v end) ->
  safe blk (assign (a + i) v s) (fun blk' s' _ => blk' = blk /\ s' = set_mem s (store (mem s) (a + i) v)).
Proof. intros T H Hi Hk Hv. exists blk. split; [apply heap_extends_refl|]. split; [eapply typed_store; eauto | auto]. Qed.

(** What the check for room says. *)
Lemma safe_GC blk s n :
  typed blk s -> safe blk (Primitive_GC_If_Needed n s) (unchanged blk s (fun _ => Free s < heap_alloc_limit s /\ Free s + n <= heap_alloc_limit s)).
Proof.
  intros T. unfold Primitive_GC_If_Needed. destruct (GC_NEEDED_P s n) eqn:G; [exact I|].
  unfold GC_NEEDED_P, HEAP_AVAILABLE_P, FREE_OK_P in G. rewrite (ty_enabled _ _ _ T), andb_true_r in G.
  apply negb_false_iff in G. rewrite !andb_true_iff in G. destruct G as [[_ G1%Z.ltb_lt] G2%Z.leb_le].
  exists blk. unfold unchanged. auto 6 using heap_extends_refl.
Qed.

(** ** Objects by their type codes *)

Lemma ok_cells blk v : ok blk v -> GC_TYPE_PAIR v = true -> blk (addr v) = Some (Cells 2).
Proof. unfold HeapSafe.ok, GC_TYPE_PAIR, is_GC_PAIR. destruct (GC_TYPE v); try discriminate. auto. Qed.

Lemma PAIR_P_GC_PAIR v : PAIR_P v = true -> GC_TYPE_PAIR v = true.
Proof. unfold PAIR_P, GC_TYPE_PAIR, GC_TYPE. intros ->%Z.eqb_eq. reflexivity. Qed.

Lemma VECTOR_P_GC_VECTOR v : VECTOR_P v = true -> GC_TYPE_VECTOR v = true.
Proof. unfold VECTOR_P, GC_TYPE_VECTOR, GC_TYPE. intros ->%Z.eqb_eq. reflexivity. Qed.

Lemma RECORD_P_GC_VECTOR v : RECORD_P v = true -> GC_TYPE_VECTOR v = true.
Proof. unfold RECORD_P, GC_TYPE_VECTOR, GC_TYPE. intros ->%Z.eqb_eq. reflexivity. Qed.

Lemma ok_vector blk v : ok blk v -> GC_TYPE_VECTOR v = true ->
  exists n, blk (addr v) = Some (Marked n) \/ blk (addr v) = Some (Unmarked n) /\ VECTOR_P v = false /\ RECORD_P v = false.
Proof. unfold HeapSafe.ok, GC_TYPE_VECTOR, is_GC_VECTOR. destruct (GC_TYPE v); try discriminate. auto. Qed.

Lemma ok_constant blk n : 0 <= n < 2 ^ 58 -> ok blk (MAKE_OBJECT TC_CONSTANT n).
Proof.
  intros H. unfold HeapSafe.ok, GC_TYPE. destruct (MAKE_OBJECT_parts TC_CONSTANT n) as [-> _]; [lia | lia | exact I].
Qed.

Lemma ok_boolean blk b : ok blk (BOOLEAN_TO_OBJECT b).
Proof. destruct b; [apply ok_constant; lia | vm_compute; exact I]. Qed.

Lemma ok_fixnum blk w : FIXNUM_P w = true -> ok blk w.
Proof. unfold FIXNUM_P, HeapSafe.ok, GC_TYPE. intros ->%Z.eqb_eq. exact I. Qed.

Lemma ok_small blk n : 0 <= n < 2 ^ 58 -> ok blk (MAKE_OBJECT 0 n).
Proof.
  intros H. unfold HeapSafe.ok, GC_TYPE. destruct (MAKE_OBJECT_parts 0 n) as [-> _]; [lia | lia | exact I].
Qed.


(** ** Integer arguments *)

Lemma integer_to_long_range (o : Integer.object bignum) a : integer_to_long o = Some a -> is_slong a.
Proof.
  unfold integer_to_long. destruct (as_fixnum o).
  - intros [= <-]. apply slong_range.
  - destruct (as_bignum o) as [b|]; [|discriminate]. intros [= <-]. cbn [bn_to_long bignum_ops].
    unfold bignum_to_long, BIGNUM_TO_INT. destruct (Bignum.BIGNUM_ZERO_P b); [split; lia|].
    destruct (Bignum.BIGNUM_NEGATIVE_P b); apply slong_range.
Qed.

Lemma accumulate_range ds : is_ulong (BignumConv.accumulate ds).
Proof. rewrite BignumConv.accumulate_eval. apply ulong_range. Qed.

Lemma integer_to_ulong_range (o : Integer.object bignum) a : integer_to_ulong o = Some a -> is_ulong a.
Proof.
  unfold integer_to_ulong. destruct (as_fixnum o).
  - intros [= <-]. apply ulong_range.
  - destruct (as_bignum o) as [b|]; [|discriminate]. cbn [obind bn_to_ulong bignum_ops].
    unfold BignumConv.bignum_to_ulong, BignumConv.BIGNUM_TO_UINT. destruct (Bignum.BIGNUM_ZERO_P b).
    + intros [= <-]. split; lia.
    + destruct (BIGNUM_POSITIVE_P b); [|discriminate]. intros [= <-]. apply accumulate_range.
Qed.

Lemma arg_integer_range n (o : Integer.object bignum) a : IntPrim.arg_integer n o = PRIMITIVE_RETURN a -> is_slong a.
Proof.
  unfold IntPrim.arg_integer. destruct (IntPrim.CHECK_ARG n IntPrim.INTEGER_P o); [|discriminate]. cbn [pbind].
  destruct (integer_to_long_p o) as [[]|]; try discriminate. cbn [lift pbind negb].
  destruct (integer_to_long o) eqn:E; [|discriminate]. intros [= <-]. exact (integer_to_long_range o _ E).
Qed.

Lemma nonnegative_range n (o : Integer.object bignum) a :
  IntPrim.arg_nonnegative_integer n o = PRIMITIVE_RETURN a -> 0 <= a < 2 ^ 63.
Proof.
  unfold IntPrim.arg_nonnegative_integer. destruct (IntPrim.arg_integer n o) as [r|] eqn:E; [|discriminate].
  cbn [pbind]. destruct (Z.ltb_spec r 0); [discriminate|]. intros [= <-]. pose proof (arg_integer_range n o r E) as R.
  red in R. lia.
Qed.

Lemma index_range n (o : Integer.object bignum) limit a :
  IntPrim.arg_index_integer n o limit = PRIMITIVE_RETURN a -> 0 <= a < limit.
Proof.
  unfold IntPrim.arg_index_integer. destruct (IntPrim.arg_integer n o) as [r|]; [|discriminate].
  cbn [pbind]. destruct (Z.ltb_spec r 0), (Z.leb_spec limit r); cbn [orb]; try discriminate. intros [= <-]. lia.
Qed.

Lemma ulong_index_range n (o : Integer.object bignum) limit a :
  IntPrim.arg_ulong_index_integer n o limit = PRIMITIVE_RETURN a -> 0 <= a < limit.
Proof.
  unfold IntPrim.arg_ulong_index_integer, IntPrim.arg_ulong_integer.
  destruct (IntPrim.CHECK_ARG n IntPrim.INTEGER_P o); [|discriminate]. cbn [pbind].
  destruct (integer_to_ulong_p o) as [[]|]; try discriminate. cbn [lift pbind negb].
  destruct (integer_to_ulong o) eqn:E; [|discriminate]. cbn [lift pbind].
  pose proof (integer_to_ulong_range o _ E) as R. red in R.
  destruct (Z.leb_spec limit z); [discriminate|]. intros [= <-]. lia.
Qed.

(** ** Pairs *)

Definition good : blocks -> machine -> Z -> Prop := fun blk _ v => ok blk v.

Lemma cell_ok blk s p i : typed blk s -> blk (addr p) = Some (Cells 2) -> 0 <= i < 2 ->
  ok blk (mem s (MEMORY_LOC memory_base p i)).
Proof. intros T H Hi. apply (ty_block _ _ _ T (addr p) (Cells 2) H). exact Hi. Qed.

Lemma safe_cell blk s p i : typed blk s -> blk (addr p) = Some (Cells 2) -> 0 <= i < 2 ->
  safe blk (MEMORY_REF memory_base p i s) (unchanged blk s (ok blk)).
Proof.
  intros T H Hi. exists blk. unfold unchanged. split; [apply heap_extends_refl|]. split; [exact T|].
  split; [reflexivity|]. split; [reflexivity|]. apply cell_ok; assumption.
Qed.

Lemma safe_set_cell blk s p i v : typed blk s -> blk (addr p) = Some (Cells 2) -> 0 <= i < 2 -> ok blk v ->
  safe blk (MEMORY_SET memory_base p i v s) (fun blk' s' _ => blk' = blk).
Proof.
  intros T H Hi Hv. eapply safe_weaken; [eapply (safe_assign blk s (addr p) (Cells 2) i v); auto|].
  intros blk' s' a _ [-> _]. reflexivity.
Qed.

Lemma safe_pair_cons blk s type car cdr :
  typed blk s -> ok blk car -> ok blk cdr -> 0 <= type < 64 -> gc_type_code type = GC_PAIR ->
  safe blk (system_pair_cons memory_base type car cdr s) good.
Proof.
  intros T H1 H2 Ht G. unfold system_pair_cons.
  eapply safe_bind; [apply safe_GC; exact T|]. intros blk' s' [] _ T' (-> & -> & R1 & R2).
  destruct (typed_alloc memory_base blk s
    (mk_machine (store (store (mem s) (Free s) car) (Free s + 1) cdr) (Free s + 1 + 1) (heap_start s) (heap_alloc_limit s) (GC_ENABLED_P s))
    (Cells 2)) as (blk' & X & T2 & B); cbn [mem Free heap_alloc_limit GC_ENABLED_P size]; auto; try lia.
  - intros a Ha. rewrite !store_other by lia. reflexivity.
  - apply (ty_enabled _ _ _ T).
  - intros blk' X _. split; [lia|]. intros i Hi. assert (i = 0 \/ i = 1) as [-> | ->] by lia.
    + rewrite Z.add_0_r, store_other, store_same by lia. eauto using ok_extends.
    + rewrite store_same. eauto using ok_extends.
  - exists blk'. split; [exact X|]. split; [exact T2|]. cbn [Free]. unfold good.
    replace (Free s + 1 + 1 - 2) with (Free s) by lia. exact (ok_pair _ _ _ _ _ T2 B Ht G).
Qed.


End Safe.

Ltac checked := eapply safe_bind; [apply safe_CHECK_ARG; eassumption | intros ? ? [] _ _ (-> & -> & ?)].
Ltac integer_as a E := eapply safe_bind; [apply safe_arg; eassumption | intros ? ? a _ _ (-> & -> & E)].
Ltac integer := eapply safe_bind; [apply safe_arg; eassumption | intros ? ? ? _ _ (-> & -> & ?)].

Section Primitives.
Variable memory_base : Z.
Notation addr := (OBJECT_ADDRESS memory_base).
Notation pointer := (MAKE_POINTER_OBJECT memory_base).
Notation ok := (ok memory_base).
Notation typed := (typed memory_base).
Notation safe := (safe memory_base).
Notation good := (good memory_base).

Lemma safe_boolean blk s b : typed blk s -> safe blk (ret (BOOLEAN_TO_OBJECT b) s) good.
Proof. intros T. apply safe_ret; [exact T | apply ok_boolean]. Qed.

Lemma safe_unspecific blk s : typed blk s -> safe blk (ret UNSPECIFIC s) good.
Proof. intros T. apply safe_ret; [exact T | apply ok_constant; lia]. Qed.

Lemma then_unspecific {A} blk (e : act A) s Q :
  safe blk (e s) Q -> safe blk (bind e (fun _ => ret UNSPECIFIC) s) good.
Proof. intros H. eapply safe_bind; [exact H|]. intros. apply safe_unspecific. assumption. Qed.

Lemma unchanged_good blk s (r : run Z) : safe blk r (unchanged blk s (ok blk)) -> safe blk r good.
Proof. intros H. eapply safe_weaken; [exact H|]. intros ? ? ? _ (-> & -> & W). exact W. Qed.

Section Pairs.
Variables (blk : blocks) (s : machine).
Hypothesis T : typed blk s.

Lemma pair_access p i is_pair : (is_pair p = true -> GC_TYPE_PAIR p = true) -> ok blk p -> 0 <= i < 2 ->
  safe blk (bind (CHECK_ARG 1 is_pair p) (fun _ => MEMORY_REF memory_base p i) s) good.
Proof.
  intros P H Hi. checked. eapply unchanged_good, safe_cell; eauto. apply ok_cells; auto.
Qed.

Lemma pair_update p i v is_pair : (is_pair p = true -> GC_TYPE_PAIR p = true) -> ok blk p -> ok blk v -> 0 <= i < 2 ->
  safe blk (bind (CHECK_ARG 1 is_pair p) (fun _ => bind (MEMORY_SET memory_base p i v) (fun _ => ret UNSPECIFIC)) s) good.
Proof.
  intros P H Hv Hi. checked. eapply then_unspecific, safe_set_cell; eauto. apply ok_cells; auto.
Qed.

(** The path has fewer bits than the loop has steps. *)
Lemma car_cdr_safe n : forall object path, 0 <= path < 2 ^ Z.of_nat n -> ok blk object ->
  safe blk (car_cdr_loop memory_base n object path s) good.
Proof.
  induction n as [|n IH]; intros object path R H; cbn [car_cdr_loop]; destruct (Z.gtb_spec path 1).
  - cbn in R. lia.
  - apply safe_ret; assumption.
  - destruct (PAIR_P object) eqn:P; cbn [negb]; [|exact I].
    pose proof (ok_cells memory_base _ _ H (PAIR_P_GC_PAIR _ P)) as B.
    eapply safe_bind.
    + instantiate (1 := unchanged blk s (ok blk)). destruct ((path & 1) =? 0); apply safe_cell; auto; lia.
    + intros blk' s' v _ _ (-> & -> & V). apply IH; [|exact V]. rewrite Z.shiftr_div_pow2 by lia.
      rewrite Nat2Z.inj_succ, Z.pow_succ_r in R by lia. change (2 ^ 1) with 2. split; [apply Z.div_pos | apply Z.div_lt_upper_bound]; lia.
  - apply safe_ret; assumption.
Qed.

Lemma general_car_cdr_safe object path : ok blk object -> safe blk (Prim_general_car_cdr memory_base object path s) good.
Proof.
  intros H. unfold Prim_general_car_cdr. integer. apply car_cdr_safe; [|exact H].
  eapply nonnegative_range. eassumption.
Qed.

Lemma sys_pair_cons_safe type car cdr : ok blk car -> ok blk cdr -> safe blk (Prim_sys_pair_cons memory_base type car cdr s) good.
Proof.
  intros H1 H2. unfold Prim_sys_pair_cons. integer.
  destruct (is_GC_PAIR (gc_type_code _)) eqn:G; cbn [negb]; [|exact I].
  apply safe_pair_cons; auto; [eapply ulong_index_range; eassumption|].
  destruct (gc_type_code _); try discriminate. reflexivity.
Qed.
End Pairs.

End Primitives.
