(* ===== verification/VectorSafe.v ===== *)
(** * Type safety of the primitives on vectors (for VectorPrim.v)

    Continues HeapSafe.v with vectors, and has the theorem on all primitives
    of list.c and vector.c. *)

From Stdlib Require Import ZArith List Lia Bool.
From S2P Require Import Prelude.
From S2P Require Import Integer.
From S2P Require Import Bignum.
From S2P Require Import BignumSpec.
From S2P Require Import IntPrim.
From S2P Require Import Object.
From S2P Require Import Memory.
From S2P Require Import Gc.
From S2P Require Import Heap.
From S2P Require Import HeapArg.
From S2P Require Import VectorPrim.
From S2P Require Import VectorRun.
From S2P Require Import HeapSafe.
Import ListNotations.

#[local] Opaque MAKE_OBJECT OBJECT_DATUM OBJECT_TYPE.

Section Vectors.
Variable memory_base : Z.
Notation addr := (OBJECT_ADDRESS memory_base).
Notation pointer := (MAKE_POINTER_OBJECT memory_base).
Notation ok := (ok memory_base).
Notation typed := (typed memory_base).
Notation safe := (safe memory_base).
Notation good := (good memory_base).

Definition vector_block (blk : blocks) (v n : Z) : Prop :=
  blk (addr v) = Some (Marked n) \/ blk (addr v) = Some (Unmarked n).

Lemma vector_block_size blk s v n : typed blk s -> vector_block blk v n ->
  0 <= n /\ OBJECT_DATUM (mem s (addr v)) = n /\ memory_base <= addr v /\ addr v + n + 1 <= Free s.
Proof.
  intros T [H | H]; pose proof (ty_range _ _ _ T _ _ H) as R; pose proof (ty_block _ _ _ T _ _ H) as B;
    cbn [block_ok size] in *; intuition lia.
Qed.

Lemma VECTOR_LENGTH_run blk s v n : typed blk s -> vector_block blk v n ->
  VECTOR_LENGTH memory_base v s = Value n s.
Proof.
  intros T H. destruct (vector_block_size blk s v n T H) as (_ & E & _).
  unfold VECTOR_LENGTH, bind, MEMORY_REF, fetch, MEMORY_LOC. rewrite Z.add_0_r, E. reflexivity.
Qed.

Lemma length_range blk s v n : typed blk s -> vector_block blk v n -> 0 <= n < 2 ^ 58.
Proof.
  intros T H. destruct (vector_block_size blk s v n T H) as (? & _ & ? & ?).
  pose proof (ty_free _ _ _ T). pose proof (ty_limit _ _ _ T). lia.
Qed.

(** ** Arguments *)

(** What a check of an argument makes sure of, when elements are read: a
    vector whose elements are objects. *)
Definition accepts (arg_type : Z -> Z -> act Z) (elements : blocks -> Z -> Prop) : Prop :=
  forall blk s n v, typed blk s -> ok blk v -> elements blk v ->
    safe blk (arg_type n v s) (unchanged blk s (fun v' => v' = v /\ exists k, blk (addr v) = Some (Marked k))).

Definition sizes (arg_type : Z -> Z -> act Z) : Prop :=
  forall blk s n v, typed blk s -> ok blk v ->
    safe blk (arg_type n v s) (unchanged blk s (fun v' => v' = v /\ exists k, vector_block blk v k)).

Definition any (_ : blocks) (_ : Z) : Prop := True.
(** A system vector that is no vector of raw words. *)
Definition of_objects (blk : blocks) (v : Z) : Prop := exists k, blk (addr v) = Some (Marked k).

Lemma checked_arg blk s n v p (P : Z -> Prop) : typed blk s -> (p v = true -> P v) ->
  safe blk (bind (CHECK_ARG n p v) (fun _ => ret v) s) (unchanged blk s P).
Proof.
  intros T H. checked. apply safe_ret; [exact T|]. unfold unchanged. auto.
Qed.

Lemma marked_vector blk v : ok blk v -> VECTOR_P v = true \/ RECORD_P v = true -> exists k, blk (addr v) = Some (Marked k).
Proof.
  intros H P. destruct (ok_vector memory_base blk v H) as [k [B | (B & V & R)]].
  - destruct P as [P | P]; [apply VECTOR_P_GC_VECTOR, P | apply RECORD_P_GC_VECTOR, P].
  - eauto.
  - destruct P; congruence.
Qed.

Lemma ARG_VECTOR_accepts : accepts ARG_VECTOR any.
Proof. intros blk s n v T H _. apply checked_arg; [exact T|]. intros P. split; [reflexivity|]. apply marked_vector; auto. Qed.
Lemma ARG_RECORD_accepts : accepts ARG_RECORD any.
Proof. intros blk s n v T H _. apply checked_arg; [exact T|]. intros P. split; [reflexivity|]. apply marked_vector; auto. Qed.
Lemma ARG_GC_VECTOR_accepts : accepts ARG_GC_VECTOR of_objects.
Proof. intros blk s n v T H E. apply checked_arg; [exact T|]. intros P. split; [reflexivity | exact E]. Qed.

Lemma accepts_sizes arg_type : accepts arg_type any -> sizes arg_type.
Proof.
  intros A blk s n v T H. eapply safe_weaken; [exact (A blk s n v T H I)|].
  intros blk' s' v' _ (-> & -> & -> & k & B). unfold unchanged, vector_block. eauto 6.
Qed.
Lemma ARG_GC_VECTOR_sizes : sizes ARG_GC_VECTOR.
Proof.
  intros blk s n v T H. apply checked_arg; [exact T|]. intros P. split; [reflexivity|].
  destruct (ok_vector memory_base blk v H P) as [k [B | (B & _)]]; exists k; unfold vector_block; auto.
Qed.

(** ** Integers as results *)

Lemma typed_push_list blk s xs k :
  typed blk s -> Free s + count xs <= heap_alloc_limit s -> count xs = size k -> 0 < size k ->
  (forall blk', extends blk blk' -> blk' (Free s) = Some k ->
     forall m, (forall x, m x = overlay (mem s) (Free s) xs x) -> block_ok memory_base blk' m (Free s) k) ->
  exists blk' s', push_list xs s = Value tt s' /\ extends blk blk' /\ typed blk' s' /\ blk' (Free s) = Some k.
Proof.
  intros T L E P B. destruct (push_list_run xs s) as (m & -> & M).
  destruct (typed_alloc memory_base blk s (mk_machine m (Free s + count xs) (heap_start s) (heap_alloc_limit s) (GC_ENABLED_P s)) k)
    as (blk' & X & T' & H); cbn [mem Free heap_alloc_limit GC_ENABLED_P]; auto; try lia.
  - intros a Ha. rewrite M. apply overlay_outside. lia.
  - apply (ty_enabled _ _ _ T).
  - exists blk'. eauto 6.
Qed.

Lemma new_integer_safe blk s n : typed blk s -> is_slong n -> safe blk (new_long memory_base n s) good.
Proof.
  intros T R. unfold new_long. destruct (long_to_integer_repr (laws := bignum_laws) n R) as (o & E & _).
  rewrite E. revert E. unfold long_to_integer. destruct (LONG_TO_FIXNUM_P n).
  - intros [= <-]. apply safe_ret; [exact T|]. apply ok_fixnum. rewrite LONG_TO_FIXNUM_fixnum. apply fixnum_P.
  - unfold big. destruct (bn_from_long n) as [b|]; [|discriminate]. intros [= <-]. cbn [new_integer].
    set (words := bn_header b :: bn_digits b).
    eapply safe_bind; [apply safe_GC; exact T|]. intros blk0 s0 [] _ _ (-> & -> & F1 & F2).
    assert (Count : count (MAKE_OBJECT TC_MANIFEST_NM_VECTOR (Z.of_nat (length words)) :: words) = 1 + Z.of_nat (length words))
      by (unfold count; cbn [length]; lia).
    pose proof (ty_free _ _ _ T). pose proof (ty_limit _ _ _ T).
    destruct (typed_push_list blk s (MAKE_OBJECT TC_MANIFEST_NM_VECTOR (Z.of_nat (length words)) :: words) (Unmarked (Z.of_nat (length words))))
      as (blk' & s' & E & X & T' & B); try rewrite Count; cbn [size]; auto; try lia.
    + intros blk' _ _ m M. cbn [block_ok]. split; [lia|]. rewrite M.
      rewrite <- (Z.add_0_r (Free s)) at 2. rewrite overlay_inside by (rewrite Count; lia). cbn [Z.to_nat nth].
      apply MAKE_OBJECT_parts; lia.
    + unfold bind, current. rewrite E. exists blk'. split; [exact X|]. split; [exact T'|].
      eapply ok_unmarked; eauto; first [lia | reflexivity | discriminate].
Qed.


(** ** Lengths and elements *)

Section At.
Variables (blk : blocks) (s : machine).
Hypothesis T : typed blk s.

Lemma safe_VECTOR_LENGTH v n : vector_block blk v n -> safe blk (VECTOR_LENGTH memory_base v s) (unchanged blk s (fun k => k = n)).
Proof.
  intros H. rewrite (VECTOR_LENGTH_run blk s v n T H). apply safe_ret; [exact T|]. unfold unchanged. auto.
Qed.

Lemma safe_index n i v k : vector_block blk v k ->
  safe blk (ARG_VECTOR_INDEX memory_base n i v s) (unchanged blk s (fun j => 0 <= j < k)).
Proof.
  intros H. unfold ARG_VECTOR_INDEX. eapply safe_bind; [apply safe_VECTOR_LENGTH; exact H|].
  intros ? ? ? _ _ (-> & -> & ->). eapply safe_weaken; [apply safe_arg; exact T|].
  intros ? ? ? _ (-> & -> & R). unfold unchanged. repeat split; try reflexivity; eapply index_range; exact R.
Qed.

Lemma length_primitive_safe arg_type v : sizes arg_type -> ok blk v ->
  safe blk (VECTOR_LENGTH_PRIMITIVE memory_base arg_type v s) good.
Proof.
  intros A H. unfold VECTOR_LENGTH_PRIMITIVE. eapply safe_bind; [apply A; eassumption|].
  intros ? ? ? _ _ (-> & -> & -> & k & B). eapply safe_bind; [apply safe_VECTOR_LENGTH; exact B|].
  intros ? ? ? _ _ (-> & -> & ->). apply new_integer_safe; [exact T|].
  pose proof (length_range blk s v k T B). red. lia.
Qed.

Lemma ref_primitive_safe arg_type elements v i : accepts arg_type elements -> ok blk v -> elements blk v ->
  safe blk (VECTOR_REF_PRIMITIVE memory_base arg_type v i s) good.
Proof.
  intros A H E. unfold VECTOR_REF_PRIMITIVE. eapply safe_bind; [eapply A; eassumption|].
  intros ? ? ? _ _ (-> & -> & -> & k & B). eapply safe_bind; [apply safe_index; left; exact B|].
  intros ? ? j _ _ (-> & -> & R). unfold VECTOR_REF, MEMORY_REF, fetch, MEMORY_LOC.
  apply safe_ret; [exact T|]. destruct (ty_block _ _ _ T _ _ B) as (_ & _ & W). apply W. lia.
Qed.

Lemma set_primitive_safe arg_type v i x : sizes arg_type -> ok blk v -> ok blk x ->
  safe blk (VECTOR_SET_PRIMITIVE memory_base arg_type v i x s) good.
Proof.
  intros A H Hx. unfold VECTOR_SET_PRIMITIVE. eapply safe_bind; [apply A; eassumption|].
  intros ? ? ? _ _ (-> & -> & -> & k & B). eapply safe_bind; [apply safe_index; exact B|].
  intros ? ? j _ _ (-> & -> & R). destruct B as [B | B].
  - eapply then_unspecific. apply (safe_assign memory_base blk s (addr v) (Marked k) (j + 1) x); cbn [size]; auto; lia.
  - eapply then_unspecific. apply (safe_assign memory_base blk s (addr v) (Unmarked k) (j + 1) x); cbn [size]; auto; lia.
Qed.

(** ** New vectors *)

(** A marked vector written at the free pointer. *)
Lemma new_marked type n m : 0 <= n -> Free s + 1 + n <= heap_alloc_limit s ->
  0 <= type < 64 -> gc_type_code type = GC_VECTOR ->
  (forall x, x < Free s -> m x = mem s x) -> m (Free s) = MAKE_OBJECT TC_MANIFEST_VECTOR n ->
  (forall i, 1 <= i <= n -> ok blk (m (Free s + i))) ->
  safe blk (Value (pointer type (Free s))
              (mk_machine m (Free s + 1 + n) (heap_start s) (heap_alloc_limit s) (GC_ENABLED_P s))) good.
Proof.
  intros Hn L Ht G M1 M2 M3.
  pose proof (ty_free _ _ _ T). pose proof (ty_limit _ _ _ T).
  destruct (typed_alloc memory_base blk s (mk_machine m (Free s + 1 + n) (heap_start s) (heap_alloc_limit s) (GC_ENABLED_P s)) (Marked n))
    as (blk' & X & T' & B); cbn [mem Free heap_alloc_limit GC_ENABLED_P size]; auto; try lia.
  - apply (ty_enabled _ _ _ T).
  - intros blk' X _. cbn [block_ok]. rewrite M2. split; [exact Hn|]. split.
    + apply MAKE_OBJECT_parts; lia.
    + intros i Hi. eapply ok_extends; [exact X|]. apply M3. exact Hi.
  - exists blk'. split; [exact X|]. split; [exact T'|]. eapply ok_marked; eauto.
Qed.

Lemma arguments_safe type arguments : Forall (ok blk) arguments -> 0 <= type < 64 -> gc_type_code type = GC_VECTOR ->
  count arguments < 2 ^ 58 ->
  safe blk (bind (allocate_marked_vector memory_base type (Z.of_nat (length arguments)) true)
              (fun result => bind (store_arguments (VECTOR_LOC memory_base result 0) arguments) (fun _ => ret result)) s) good.
Proof.
  intros A Ht G C. unfold count in C. pose proof (ty_free _ _ _ T). pose proof (ty_limit _ _ _ T).
  unfold allocate_marked_vector. rewrite ulong_small by lia.
  set (n := Z.of_nat (length arguments)) in *.
  assert (E : forall s0, bind (bind (Primitive_GC_If_Needed (1 + n)) (fun _ => allocating memory_base type (fun s => PRIMITIVE_RETURN (allocate_vector TC_MANIFEST_VECTOR n s))))
     (fun result => bind (store_arguments (VECTOR_LOC memory_base result 0) arguments) (fun _ => ret result)) s0
     = bind (Primitive_GC_If_Needed (1 + n)) (fun _ => bind (allocating memory_base type (fun s => PRIMITIVE_RETURN (allocate_vector TC_MANIFEST_VECTOR n s)))
        (fun result => bind (store_arguments (VECTOR_LOC memory_base result 0) arguments) (fun _ => ret result))) s0).
  { intros s0. unfold bind. destruct (Primitive_GC_If_Needed (1 + n) s0); reflexivity. }
  rewrite E. clear E. eapply safe_bind; [apply safe_GC; exact T|]. intros ? ? [] _ _ (-> & -> & F1 & F2).
  unfold bind, allocating, allocate_vector.
  set (s1 := mk_machine (store (mem s) (Free s) (MAKE_OBJECT TC_MANIFEST_VECTOR n)) (Free s + 1 + n) (heap_start s) (heap_alloc_limit s) (GC_ENABLED_P s)).
  destruct (store_arguments_run arguments (VECTOR_LOC memory_base (pointer type (Free s)) 0) s1) as (m & -> & M).
  unfold ret, set_mem. cbn [s1 mem Free heap_start heap_alloc_limit GC_ENABLED_P] in *.
  assert (Loc : VECTOR_LOC memory_base (pointer type (Free s)) 0 = Free s + 1).
  { unfold VECTOR_LOC, MEMORY_LOC. destruct (pointer_address memory_base type (Free s)) as [-> _]; lia. }
  rewrite Loc in M. apply new_marked; auto; try lia.
  - intros x Hx. rewrite M, overlay_outside, store_other by lia. reflexivity.
  - rewrite M, overlay_outside, store_same by lia. reflexivity.
  - intros i Hi. rewrite M. replace (Free s + i) with (Free s + 1 + (i - 1)) by lia.
    rewrite overlay_inside by (unfold count; lia). rewrite Forall_forall in A. apply A, nth_In. lia.
Qed.

Lemma vector_cons_safe length contents : ok blk contents -> safe blk (Prim_vector_cons memory_base length contents s) good.
Proof.
  intros H. unfold Prim_vector_cons. integer_as n En.
  pose proof (nonnegative_range _ _ _ En) as R. unfold make_vector, allocating, Memory.make_vector. cbn [andb].
  rewrite ulong_small by lia.
  destruct (GC_NEEDED_P s (n + 1)) eqn:G; [exact I|]. unfold fill_vector. cbn beta iota zeta.
  assert (F : Free s < heap_alloc_limit s /\ Free s + (n + 1) <= heap_alloc_limit s).
  { pose proof (safe_GC memory_base blk s (n + 1) T) as S. unfold Primitive_GC_If_Needed in S. rewrite G in S.
    destruct S as (? & _ & _ & _ & _ & S). exact S. }
  pose proof (ty_free _ _ _ T). pose proof (ty_limit _ _ _ T).
  apply new_marked; try lia.
  - reflexivity.
  - intros x Hx. rewrite fill_spec. destruct (Z.leb_spec (Free s + 1) x); [lia|]. apply store_other. lia.
  - rewrite fill_spec. destruct (Z.leb_spec (Free s + 1) (Free s)); [lia|]. apply store_same.
  - intros i Hi. rewrite fill_spec, (proj2 (Z.leb_le _ _)), (proj2 (Z.ltb_lt _ _)) by lia. exact H.
Qed.

(** A type code that allows raw words. *)
Definition raw_type (type : Z) : Prop :=
  forall n, IntPrim.arg_ulong_index_integer 1 (integer_object memory_base (mem s) type) N_TYPE_CODES = PRIMITIVE_RETURN n ->
    gc_type_code n = GC_VECTOR /\ n <> TC_VECTOR /\ n <> TC_RECORD.

Lemma allocate_nm_safe type length : raw_type type -> safe blk (Prim_allocate_nm_vector memory_base type length s) good.
Proof.
  intros H. unfold Prim_allocate_nm_vector. integer_as t Et.
  integer_as n En.
  pose proof (ulong_index_range _ _ _ _ Et) as Rt. pose proof (ulong_index_range _ _ _ _ En) as Rn.
  change (Z.shiftl 1 58) with (2 ^ 58) in Rn. destruct (H t Et) as (G & N1 & N2).
  unfold allocate_non_marked_vector, allocating, Memory.allocate_non_marked_vector. cbn [andb].
  rewrite ulong_small by lia. destruct (GC_NEEDED_P s (1 + n)) eqn:E; [exact I|]. unfold allocate_vector.
  assert (F : Free s < heap_alloc_limit s /\ Free s + (1 + n) <= heap_alloc_limit s).
  { pose proof (safe_GC memory_base blk s (1 + n) T) as S. unfold Primitive_GC_If_Needed in S. rewrite E in S.
    destruct S as (? & _ & _ & _ & _ & S). exact S. }
  destruct (typed_alloc memory_base blk s
    (mk_machine (store (mem s) (Free s) (MAKE_OBJECT TC_MANIFEST_NM_VECTOR n)) (Free s + 1 + n) (heap_start s) (heap_alloc_limit s) (GC_ENABLED_P s))
    (Unmarked n)) as (blk' & X & T' & B); cbn [mem Free heap_alloc_limit GC_ENABLED_P size]; auto; try lia.
  - intros x Hx. apply store_other. lia.
  - apply (ty_enabled _ _ _ T).
  - intros blk' _ _. cbn [block_ok]. rewrite store_same. split; [lia|]. apply MAKE_OBJECT_parts; lia.
  - exists blk'. split; [exact X|]. split; [exact T'|]. eapply ok_unmarked; eauto.
Qed.


(** ** Lists *)

(** Pairs written one after the other at the free pointer. *)
Lemma new_chain m xs : xs <> [] -> Free s + 2 * count xs <= heap_alloc_limit s -> Forall (ok blk) xs ->
  (forall x, x < Free s -> m x = mem s x) -> chain memory_base m (Free s) xs ->
  safe blk (Value (pointer TC_LIST (Free s))
              (mk_machine m (Free s + 2 * count xs) (heap_start s) (heap_alloc_limit s) (GC_ENABLED_P s))) good.
Proof.
  intros N L A M C. pose proof (ty_free _ _ _ T). pose proof (ty_limit _ _ _ T).
  set (n := count xs) in *. assert (P : 0 < n) by (destruct xs; [congruence | unfold n, count; cbn; lia]).
  set (s' := mk_machine m (Free s + 2 * n) (heap_start s) (heap_alloc_limit s) (GC_ENABLED_P s)).
  set (new := fun a => if (Free s <=? a) && (a <? Free s + 2 * n) && Z.even (a - Free s) then Some (Cells 2) else None).
  assert (New : forall a k, new a = Some k -> k = Cells 2 /\ exists i, 0 <= i < n /\ a = Free s + 2 * i).
  { intros a k. unfold new. destruct (Z.leb_spec (Free s) a), (Z.ltb_spec a (Free s + 2 * n)), (Z.even (a - Free s)) eqn:E; try discriminate.
    intros [= <-]. split; [reflexivity|]. apply Z.even_spec in E. destruct E as [i E]. exists i. lia. }
  assert (At : forall i, 0 <= i < n -> new (Free s + 2 * i) = Some (Cells 2)).
  { intros i Hi. unfold new. rewrite (proj2 (Z.leb_le _ _)), (proj2 (Z.ltb_lt _ _)) by lia.
    replace (Free s + 2 * i - Free s) with (2 * i) by lia. rewrite Z.even_mul. reflexivity. }
  set (blk' := fun a => if a <? Free s then blk a else new a).
  assert (Here : forall i, 0 <= i < n -> blk' (Free s + 2 * i) = Some (Cells 2)).
  { intros i Hi. unfold blk'. destruct (Z.ltb_spec (Free s + 2 * i) (Free s)); [lia | apply At, Hi]. }
  assert (Cell : forall a i, 0 <= i < n -> a = Free s + 2 * i -> ok blk' (pointer TC_LIST a)).
  { intros a i Hi ->. unfold HeapSafe.ok, GC_TYPE.
    destruct (pointer_address memory_base TC_LIST (Free s + 2 * i)) as [-> ->]; [lia | lia|]. apply Here, Hi. }
  destruct (typed_grows memory_base blk new s s' T M) as [X T']; cbn [s' Free heap_alloc_limit GC_ENABLED_P]; try lia.
  - apply (ty_enabled _ _ _ T).
  - intros a k Hk. destruct (New a k Hk) as (-> & i & Hi & ->). cbn [size]. lia.
  - intros a b k k' Hk Hk' D. destruct (New a k Hk) as (-> & i & Hi & ->), (New b k' Hk') as (-> & j & Hj & ->). cbn [size]. lia.
  - intros a k Hk. destruct (New a k Hk) as (-> & i & Hi & ->). fold blk'. cbn [block_ok mem s']. split; [lia|].
    assert (X : extends blk blk').
    { intros b k Hb. destruct (ty_range _ _ _ T b k Hb). pose proof (block_size _ _ _ _ _ (ty_block _ _ _ T b k Hb)).
      unfold blk'. destruct (Z.ltb_spec b (Free s)); [exact Hb | lia]. }
    destruct (C i Hi) as [C1 C2]. intros j Hj. assert (j = 0 \/ j = 1) as [-> | ->] by lia.
    + rewrite Z.add_0_r, C1. eapply ok_extends; [exact X|]. rewrite Forall_forall in A. apply A, nth_In.
      unfold n, count in Hi. lia.
    + rewrite C2. fold n. destruct (Z.eqb_spec i (n - 1)); [apply ok_constant; lia|]. apply (Cell _ (i + 1)); lia.
  - fold blk' in X, T'. exists blk'. split; [exact X|]. split; [exact T'|]. apply (Cell _ 0); lia.
Qed.

Lemma slice_ok v k start n : blk (addr v) = Some (Marked k) -> 0 <= start -> start + n <= k ->
  Forall (ok blk) (slice (mem s) (VECTOR_LOC memory_base v start) n).
Proof.
  intros B H1 H2. apply Forall_forall. intros x (i & <- & Hi%in_seq)%in_map_iff.
  destruct (ty_block _ _ _ T _ _ B) as (_ & _ & W). unfold VECTOR_LOC, MEMORY_LOC.
  replace (addr v + (start + 1) + Z.of_nat i) with (addr v + (start + 1 + Z.of_nat i)) by lia. apply W. lia.
Qed.

Lemma subvector_to_list_safe v k start end_ : blk (addr v) = Some (Marked k) -> 0 <= start <= end_ -> end_ <= k ->
  safe blk (subvector_to_list memory_base v start end_ s) good.
Proof.
  intros B H1 H2. destruct (Z.eq_dec start end_) as [-> | N].
  - unfold subvector_to_list. rewrite Z.eqb_refl. apply safe_ret; [exact T | apply ok_constant; lia].
  - destruct (vector_block_size blk s v k T (or_introl B)) as (_ & _ & R1 & R2).
    destruct (subvector_to_list_run memory_base v start end_ s) as (m & -> & M & C); [lia | unfold VECTOR_LOC, MEMORY_LOC; lia|].
    destruct (GC_NEEDED_P s (2 * (end_ - start))) eqn:G; [exact I|].
    pose proof (safe_GC memory_base blk s (2 * (end_ - start)) T) as S. unfold Primitive_GC_If_Needed in S. rewrite G in S.
    destruct S as (? & _ & _ & _ & _ & F1 & F2).
    set (xs := slice (mem s) (VECTOR_LOC memory_base v start) (end_ - start)) in *.
    assert (Cn : count xs = end_ - start) by (apply slice_count; lia). rewrite <- Cn in *. apply new_chain; auto.
    + intros E. rewrite E in Cn. unfold count in Cn. cbn in Cn. lia.
    + unfold xs. apply (slice_ok v k); auto; lia.
Qed.

Lemma subvector_to_list_primitive_safe arg_type elements v start end_ :
  accepts arg_type elements -> ok blk v -> elements blk v ->
  safe blk (SUBVECTOR_TO_LIST_PRIMITIVE memory_base arg_type v start end_ s) good.
Proof.
  intros A H E. unfold SUBVECTOR_TO_LIST_PRIMITIVE. eapply safe_bind; [eapply A; eassumption|].
  intros ? ? ? _ _ (-> & -> & -> & k & B). integer_as i Ei. integer_as j Ej.
  eapply safe_bind; [apply safe_VECTOR_LENGTH; left; exact B|]. intros ? ? ? _ _ (-> & -> & ->).
  destruct (Z.gtb_spec j k); [exact I|]. destruct (Z.gtb_spec i j); [exact I|].
  pose proof (nonnegative_range _ _ _ Ei). apply (subvector_to_list_safe v k); auto; lia.
Qed.

End At.

(** The walk of [list_to_vector], which writes above the free pointer of a
    typed heap: it ends because the heap is finite. *)
Lemma typed_pushing blk s x : typed blk s -> Free s < heap_alloc_limit s -> typed blk (pushing s x).
Proof.
  intros T L. destruct (typed_grows memory_base blk (fun _ => None) s (pushing s x) T) as [_ T'];
    cbn [pushing mem Free heap_alloc_limit GC_ENABLED_P]; try discriminate; try lia.
  - intros a Ha. apply store_other. lia.
  - apply (ty_enabled _ _ _ T).
  - pose proof T' as K. constructor; try apply T'.
    + intros a k H. destruct (ty_range _ _ _ T a k H). pose proof (block_size _ _ _ _ _ (ty_block _ _ _ T a k H)).
      apply (block_ok_extends memory_base blk blk (mem s)); [apply heap_extends_refl | | apply (ty_block _ _ _ T a k H)].
      intros i Hi. cbn [pushing mem]. apply store_other. lia.
    + intros a k H. destruct (ty_range _ _ _ T a k H). cbn [pushing Free]. lia.
    + apply (ty_apart _ _ _ T).
Qed.

Lemma list_walk_safe blk n : forall list k s f,
  typed blk s -> ok blk list -> Free s = f + 1 + k -> 0 <= k ->
  heap_alloc_limit s - Free s < Z.of_nat n ->
  (forall i, 1 <= i <= k -> ok blk (mem s (f + i))) ->
  safe blk (list_to_vector_loop memory_base n list k s)
    (fun blk' s' p => blk' = blk /\ 0 <= snd p /\ Free s' = f + 1 + snd p
       /\ heap_start s' = heap_start s /\ heap_alloc_limit s' = heap_alloc_limit s
       /\ (forall x, x <= f -> mem s' x = mem s x) /\ forall i, 1 <= i <= snd p -> ok blk (mem s' (f + i))).
Proof.
  induction n as [|n IH]; intros list k s f T H F K L W.
  - pose proof (ty_free _ _ _ T). lia.
  - destruct (PAIR_P list) eqn:P.
    + rewrite list_to_vector_step by exact P. destruct (GC_NEEDED_P s 0) eqn:G; [exact I|].
      pose proof (safe_GC memory_base blk s 0 T) as S. unfold Primitive_GC_If_Needed in S. rewrite G in S.
      destruct S as (blk1 & _ & _ & _ & _ & F1 & _). cbv zeta.
      set (x := mem s (addr list)). pose proof (ok_cells memory_base _ _ H (PAIR_P_GC_PAIR _ P)) as B.
      assert (X : ok blk x) by (unfold x; rewrite <- (Z.add_0_r (addr list)); apply (cell_ok memory_base blk s list 0 T B); lia).
      pose proof (typed_pushing blk s x T F1) as T1.
      eapply safe_weaken; [apply (IH (mem (pushing s x) (addr list + 1)) (k + 1) (pushing s x) f); auto|].
      * apply (cell_ok memory_base blk (pushing s x) list 1 T1 B). lia.
      * cbn [pushing Free]. lia.
      * lia.
      * cbn [pushing Free heap_alloc_limit]. lia.
      * intros i Hi. cbn [pushing mem]. destruct (Z.eq_dec i (k + 1)) as [-> | N].
        -- replace (f + (k + 1)) with (Free s) by lia. rewrite store_same. exact X.
        -- rewrite store_other by lia. apply W. lia.
      * intros blk' s' p _ (-> & Q1 & Q2 & Q3 & Q4 & Q5 & Q6). repeat split; auto.
        intros y Hy. rewrite Q5 by lia. cbn [pushing mem]. apply store_other. lia.
    + assert (E : list_to_vector_loop memory_base (S n) list k s = Value (list, k) s) by (cbn [list_to_vector_loop]; rewrite P; reflexivity).
      rewrite E. apply (safe_ret memory_base blk s (list, k)); [exact T|]. cbn [snd]. repeat split; auto.
Qed.

(** The word for the header is taken without a check. *)
Lemma list_to_vector_safe blk s fuel type n list : typed blk s -> ok blk list ->
  Free s < heap_alloc_limit s -> heap_alloc_limit s - Free s < Z.of_nat fuel ->
  0 <= type < 64 -> gc_type_code type = GC_VECTOR ->
  safe blk (list_to_vector memory_base fuel type n list s) good.
Proof.
  intros T H F L Ht G. unfold list_to_vector, current, bind at 1, advance_Free, update, bind at 1.
  set (s1 := mk_machine (mem s) (Free s + 1) (heap_start s) (heap_alloc_limit s) (GC_ENABLED_P s)).
  assert (T1 : typed blk s1).
  { pose proof (typed_pushing blk s (mem s (Free s)) T F) as T1. constructor; try apply T1.
    intros a k B. apply (ty_block _ _ _ T a k B). }
  pose proof (list_walk_safe blk fuel list 0 s1 (Free s) T1 H) as S.
  cbn [s1 Free heap_alloc_limit mem heap_start] in S. specialize (S ltac:(lia) ltac:(lia) ltac:(lia) ltac:(lia)).
  fold s1 in S. unfold bind at 1. unfold HeapSafe.safe in S.
  destruct (list_to_vector_loop memory_base fuel list 0 s1) as [p s' | []]; auto.
  destruct S as (blk' & X & T' & -> & Q1 & Q2 & Q3 & Q4 & Q5 & Q6).
  destruct (EMPTY_LIST_P (fst p)); cbn [negb]; [|exact I].
  unfold bind, assign, update, ret, set_mem. rewrite Q2, Q3, Q4, (ty_enabled _ _ _ T').
  rewrite <- (ty_enabled _ _ _ T). apply (new_marked blk s T type (snd p)); auto.
  - pose proof (ty_free _ _ _ T'). lia.
  - intros x Hx. rewrite store_other by lia. apply Q5. lia.
  - apply store_same.
  - intros i Hi. rewrite store_other by lia. apply Q6. exact Hi.
Qed.

(** ** Moving and filling *)

Section Stores.
Variables (blk : blocks) (s : machine).
Hypothesis T : typed blk s.

(** Objects stored over elements of a vector. *)
Lemma stored_over m v k start n : blk (addr v) = Some (Marked k) -> 0 <= start -> start + n <= k ->
  (forall x, x < VECTOR_LOC memory_base v start \/ VECTOR_LOC memory_base v start + n <= x -> m x = mem s x) ->
  (forall i, 0 <= i < n -> ok blk (m (VECTOR_LOC memory_base v start + i))) ->
  typed blk (set_mem s m).
Proof.
  intros B H1 H2 M1 M2. constructor; try apply T. cbn [mem set_mem]. intros a k' H.
  unfold VECTOR_LOC, MEMORY_LOC in *. pose proof (ty_block _ _ _ T a k' H) as Ha.
  destruct (Z.eq_dec a (addr v)) as [-> | N].
  - assert (k' = Marked k) as -> by congruence. destruct Ha as (Q1 & Q2 & Q3). cbn [block_ok]. rewrite M1 by lia.
    split; [exact Q1|]. split; [exact Q2|]. intros i Hi.
    destruct (Z.lt_ge_cases i (start + 1)); [rewrite M1 by lia; auto|].
    destruct (Z.lt_ge_cases i (start + 1 + n)); [|rewrite M1 by lia; auto].
    replace (addr v + i) with (addr v + (start + 1) + (i - (start + 1))) by lia. apply M2. lia.
  - apply (block_ok_extends memory_base blk blk (mem s)); [apply heap_extends_refl | | exact Ha].
    intros i Hi. apply M1. destruct (ty_apart _ _ _ T a (addr v) k' (Marked k) H B N); cbn [size] in *; lia.
Qed.

Lemma element_ok v k i : blk (addr v) = Some (Marked k) -> 0 <= i < k -> ok blk (mem s (VECTOR_LOC memory_base v i)).
Proof. intros B Hi. destruct (ty_block _ _ _ T _ _ B) as (_ & _ & W). apply W. lia. Qed.

Lemma copied_typed m v1 k1 start1 v2 k2 start2 n :
  blk (addr v1) = Some (Marked k1) -> 0 <= start1 -> start1 + n <= k1 ->
  blk (addr v2) = Some (Marked k2) -> 0 <= start2 -> start2 + n <= k2 ->
  copied (mem s) m (VECTOR_LOC memory_base v1 start1) (VECTOR_LOC memory_base v2 start2) n ->
  typed blk (set_mem s m).
Proof.
  intros B1 H1 H2 B2 H3 H4 [C1 C2]. apply (stored_over m v2 k2 start2 n); auto.
  intros i Hi. destruct (C2 i Hi) as (j & Hj & ->).
  replace (VECTOR_LOC memory_base v1 start1 + j) with (VECTOR_LOC memory_base v1 (start1 + j)) by (unfold VECTOR_LOC, MEMORY_LOC; lia).
  apply (element_ok v1 k1); auto; lia.
Qed.

(** An index with which no sum wraps. *)
Definition small_index (n w : Z) : Prop :=
  forall i, IntPrim.arg_nonnegative_integer n (integer_object memory_base (mem s) w) = PRIMITIVE_RETURN i -> i <= 2 ^ 58.

Lemma move_prefix_safe v1 start1 end1 v2 start2 move :
  ok blk v1 -> ok blk v2 -> small_index 5 start2 ->
  (forall k1 i1 n k2 i2, blk (addr v1) = Some (Marked k1) -> 0 <= i1 -> 0 <= n -> i1 + n <= k1 ->
     blk (addr v2) = Some (Marked k2) -> 0 <= i2 -> i2 + n <= k2 ->
     safe blk (move n (VECTOR_LOC memory_base v1 i1) (VECTOR_LOC memory_base v1 (i1 + n))
                 (VECTOR_LOC memory_base v2 i2) (VECTOR_LOC memory_base v2 (i2 + n)) s) good) ->
  safe blk (SUBVECTOR_MOVE_PREFIX memory_base v1 start1 end1 v2 start2 move s) good.
Proof.
  intros H1 H2 Small Move. unfold SUBVECTOR_MOVE_PREFIX.
  eapply safe_bind; [apply (ARG_VECTOR_accepts blk s); auto; exact I|]. intros ? ? ? _ _ (-> & -> & -> & k1 & B1).
  integer_as i1 I1. integer_as e1 E1.
  eapply safe_bind; [apply (ARG_VECTOR_accepts blk s); auto; exact I|]. intros ? ? ? _ _ (-> & -> & -> & k2 & B2).
  integer_as i2 I2. pose proof (Small i2 I2).
  eapply safe_bind; [apply (safe_VECTOR_LENGTH blk s T); left; exact B1|]. intros ? ? ? _ _ (-> & -> & ->).
  destruct (Z.gtb_spec e1 k1); [exact I|]. destruct (Z.gtb_spec i1 e1); [exact I|].
  eapply safe_bind; [apply (safe_VECTOR_LENGTH blk s T); left; exact B2|]. intros ? ? ? _ _ (-> & -> & ->).
  pose proof (nonnegative_range _ _ _ I1). pose proof (nonnegative_range _ _ _ E1). pose proof (nonnegative_range _ _ _ I2).
  pose proof (length_range blk s v1 k1 T (or_introl B1)).
  rewrite slong_small by lia. destruct (Z.gtb_spec (i2 + (e1 - i1)) k2); [exact I|].
  replace (VECTOR_LOC memory_base v1 e1) with (VECTOR_LOC memory_base v1 (i1 + (e1 - i1))) by (f_equal; lia).
  apply (Move k1 i1 (e1 - i1) k2 i2); auto; lia.
Qed.

Lemma move_left_safe v1 start1 end1 v2 start2 : ok blk v1 -> ok blk v2 -> small_index 5 start2 ->
  safe blk (Prim_subvector_move_left memory_base v1 start1 end1 v2 start2 s) good.
Proof.
  intros H1 H2 Small. apply move_prefix_safe; auto. intros k1 i1 n k2 i2 B1 P1 P2 P3 B2 P4 P5. unfold bind.
  destruct (move_left_run (Z.to_nat n) (VECTOR_LOC memory_base v1 i1) (VECTOR_LOC memory_base v2 i2) s) as (m & -> & C & _).
  rewrite Z2Nat.id in C by lia. apply safe_unspecific, (copied_typed m v1 k1 i1 v2 k2 i2 n); auto.
Qed.

Lemma move_right_safe v1 start1 end1 v2 start2 : ok blk v1 -> ok blk v2 -> small_index 5 start2 ->
  safe blk (Prim_subvector_move_right memory_base v1 start1 end1 v2 start2 s) good.
Proof.
  intros H1 H2 Small. apply move_prefix_safe; auto. intros k1 i1 n k2 i2 B1 P1 P2 P3 B2 P4 P5. unfold bind.
  destruct (move_right_run (Z.to_nat n) (VECTOR_LOC memory_base v1 (i1 + n)) (VECTOR_LOC memory_base v2 (i2 + n)) s) as (m & -> & C & _).
  rewrite Z2Nat.id in C by lia. apply safe_unspecific, (copied_typed m v1 k1 i1 v2 k2 i2 n); auto.
  unfold VECTOR_LOC, MEMORY_LOC in *.
  replace (addr v1 + (i1 + 1)) with (addr v1 + (i1 + n + 1) - n) by lia.
  replace (addr v2 + (i2 + 1)) with (addr v2 + (i2 + n + 1) - n) by lia. exact C.
Qed.

Lemma vector_fill_safe v start end_ x : ok blk v -> ok blk x ->
  safe blk (Prim_vector_fill memory_base v start end_ x s) good.
Proof.
  intros H Hx. unfold Prim_vector_fill.
  eapply safe_bind; [apply (ARG_VECTOR_accepts blk s); auto; exact I|]. intros ? ? ? _ _ (-> & -> & -> & k & B).
  integer_as i Ei. integer_as j Ej.
  eapply safe_bind; [apply (safe_VECTOR_LENGTH blk s T); left; exact B|]. intros ? ? ? _ _ (-> & -> & ->).
  destruct (Z.gtb_spec j k); [exact I|]. destruct (Z.gtb_spec i j); [exact I|].
  pose proof (nonnegative_range _ _ _ Ei). unfold bind.
  destruct (fill_words_run (Z.to_nat (j - i)) x (VECTOR_LOC memory_base v i) s) as (m & -> & M).
  apply safe_unspecific, (stored_over m v k i (j - i)); auto; try lia.
  - intros y Hy. rewrite M. destruct (Z.leb_spec (VECTOR_LOC memory_base v i) y), (Z.ltb_spec y (VECTOR_LOC memory_base v i + Z.of_nat (Z.to_nat (j - i)))); cbn [andb]; auto; lia.
  - intros y Hy. rewrite M, (proj2 (Z.leb_le _ _)), (proj2 (Z.ltb_lt _ _)) by lia. exact Hx.
Qed.
End Stores.

(** ** All primitives of list.c and vector.c *)

Inductive call :=
  | PAIR_p (object : Z) | CONS (car cdr : Z) | CAR (pair : Z) | CDR (pair : Z)
  | SET_CAR (pair car : Z) | SET_CDR (pair cdr : Z) | GENERAL_CAR_CDR (object path : Z)
  | SYSTEM_PAIR_p (object : Z) | SYSTEM_PAIR_CONS (type car cdr : Z)
  | SYSTEM_PAIR_CAR (pair : Z) | SYSTEM_PAIR_CDR (pair : Z)
  | SYSTEM_PAIR_SET_CAR (pair car : Z) | SYSTEM_PAIR_SET_CDR (pair cdr : Z)
  | ALLOCATE_NM_VECTOR (type length : Z) | VECTOR_CONS (length contents : Z)
  | VECTOR (arguments : list Z) | RECORD (argument : Z) (arguments : list Z)
  | VECTOR_p (object : Z) | RECORD_p (object : Z) | SYSTEM_VECTOR_p (object : Z)
  | VECTOR_LENGTH_ (vector : Z) | RECORD_LENGTH (record : Z) | SYSTEM_VECTOR_SIZE (vector : Z)
  | VECTOR_REF_ (vector index : Z) | RECORD_REF (record index : Z) | SYSTEM_VECTOR_REF (vector index : Z)
  | VECTOR_SET_ (vector index value : Z) | RECORD_SET (record index value : Z) | SYSTEM_VECTOR_SET (vector index value : Z)
  | SUBVECTOR_TO_LIST (vector start end_ : Z) | SYSTEM_SUBVECTOR_TO_LIST (vector start end_ : Z)
  | LIST_TO_VECTOR (list : Z) | SYSTEM_LIST_TO_VECTOR (type list : Z)
  | SUBVECTOR_MOVE_RIGHT (vector1 start1 end1 vector2 start2 : Z)
  | SUBVECTOR_MOVE_LEFT (vector1 start1 end1 vector2 start2 : Z)
  | SUBVECTOR_FILL (vector start end_ value : Z).

Definition perform (fuel : nat) (c : call) : act Z :=
  let b := memory_base in
  match c with
  | PAIR_p o => Prim_pair o | CONS x y => Prim_cons b x y | CAR p => Prim_car b p | CDR p => Prim_cdr b p
  | SET_CAR p x => Prim_set_car b p x | SET_CDR p x => Prim_set_cdr b p x
  | GENERAL_CAR_CDR o w => Prim_general_car_cdr b o w
  | SYSTEM_PAIR_p o => Prim_sys_pair o | SYSTEM_PAIR_CONS t x y => Prim_sys_pair_cons b t x y
  | SYSTEM_PAIR_CAR p => Prim_sys_pair_car b p | SYSTEM_PAIR_CDR p => Prim_sys_pair_cdr b p
  | SYSTEM_PAIR_SET_CAR p x => Prim_sys_set_car b p x | SYSTEM_PAIR_SET_CDR p x => Prim_sys_set_cdr b p x
  | ALLOCATE_NM_VECTOR t n => Prim_allocate_nm_vector b t n | VECTOR_CONS n x => Prim_vector_cons b n x
  | VECTOR xs => Prim_vector b xs
  | RECORD x xs => match Prim_record b (x :: xs) with Some e => e | None => leave Assertion_failed end
  | VECTOR_p o => Prim_vector_p o | RECORD_p o => Prim_record_p o | SYSTEM_VECTOR_p o => Prim_sys_vector o
  | VECTOR_LENGTH_ v => Prim_vector_length b v | RECORD_LENGTH v => Prim_record_length b v
  | SYSTEM_VECTOR_SIZE v => Prim_sys_vec_size b v
  | VECTOR_REF_ v i => Prim_vector_ref b v i | RECORD_REF v i => Prim_record_ref b v i
  | SYSTEM_VECTOR_REF v i => Prim_sys_vector_ref b v i
  | VECTOR_SET_ v i x => Prim_vector_set b v i x | RECORD_SET v i x => Prim_record_set b v i x
  | SYSTEM_VECTOR_SET v i x => Prim_sys_vec_set b v i x
  | SUBVECTOR_TO_LIST v i j => Prim_subvector_to_list b v i j
  | SYSTEM_SUBVECTOR_TO_LIST v i j => Prim_sys_subvector_to_list b v i j
  | LIST_TO_VECTOR l => Prim_list_to_vector b fuel l | SYSTEM_LIST_TO_VECTOR t l => Prim_sys_list_to_vector b fuel t l
  | SUBVECTOR_MOVE_RIGHT v i j w k => Prim_subvector_move_right b v i j w k
  | SUBVECTOR_MOVE_LEFT v i j w k => Prim_subvector_move_left b v i j w k
  | SUBVECTOR_FILL v i j x => Prim_vector_fill b v i j x
  end.

Definition call_arguments (c : call) : list Z :=
  match c with
  | PAIR_p o | CAR o | CDR o | SYSTEM_PAIR_p o | SYSTEM_PAIR_CAR o | SYSTEM_PAIR_CDR o
  | VECTOR_p o | RECORD_p o | SYSTEM_VECTOR_p o | VECTOR_LENGTH_ o | RECORD_LENGTH o | SYSTEM_VECTOR_SIZE o
  | LIST_TO_VECTOR o => [o]
  | CONS x y | SET_CAR x y | SET_CDR x y | GENERAL_CAR_CDR x y | SYSTEM_PAIR_SET_CAR x y | SYSTEM_PAIR_SET_CDR x y
  | ALLOCATE_NM_VECTOR x y | VECTOR_CONS x y | VECTOR_REF_ x y | RECORD_REF x y | SYSTEM_VECTOR_REF x y
  | SYSTEM_LIST_TO_VECTOR x y => [x; y]
  | SYSTEM_PAIR_CONS x y z | VECTOR_SET_ x y z | RECORD_SET x y z | SYSTEM_VECTOR_SET x y z
  | SUBVECTOR_TO_LIST x y z | SYSTEM_SUBVECTOR_TO_LIST x y z => [x; y; z]
  | SUBVECTOR_FILL v i j x => [v; i; j; x]
  | SUBVECTOR_MOVE_RIGHT v i j w k | SUBVECTOR_MOVE_LEFT v i j w k => [v; i; j; w; k]
  | VECTOR xs => xs
  | RECORD x xs => x :: xs
  end.

(** What the caller of a primitive has to see to: raw words are not read as
    objects, a type code for raw words is one, sums with a length or an index
    do not wrap, and there is a word left for the header of a vector that is made
    of a list. *)
Definition trusted (blk : blocks) (s : machine) (c : call) : Prop :=
  match c with
  | SYSTEM_VECTOR_REF v _ | SYSTEM_SUBVECTOR_TO_LIST v _ _ => of_objects blk v
  | ALLOCATE_NM_VECTOR t _ => raw_type s t
  | SUBVECTOR_MOVE_RIGHT _ _ _ _ k | SUBVECTOR_MOVE_LEFT _ _ _ _ k => small_index s 5 k
  | LIST_TO_VECTOR _ | SYSTEM_LIST_TO_VECTOR _ _ => Free s < heap_alloc_limit s
  | VECTOR_CONS n _ => small_index s 1 n
  | VECTOR xs => count xs < 2 ^ 58
  | RECORD _ xs => 1 + count xs < 2 ^ 58
  | _ => True
  end.

End Vectors.

(** C16: the primitives of list.c and vector.c are type safe: in a well-typed
    heap, given well-typed objects, they return a well-typed object in a
    well-typed heap with all blocks kept, or leave by an argument error or a
    request for a collection.  In particular no index reaches a word outside
    its vector, no raw word is taken for an object, and the walk along a list,
    even a circular one, ends.  What the C code does not check is assumed
    ([trusted]): SYSTEM-VECTOR-REF and SYSTEM-SUBVECTOR->LIST get a vector of
    objects and not of raw words, ALLOCATE-NM-VECTOR a type code for raw words;
    the length for VECTOR-CONS and the target index of a subvector move are so
    small that the sum with a length does not wrap; VECTOR and %RECORD have less
    than 2^58 arguments; and the heap has a free word when a vector is made of
    a list. *)
Theorem primitives_type_safe memory_base blk s fuel c :
  typed memory_base blk s -> Forall (ok memory_base blk) (call_arguments c) -> trusted memory_base blk s c ->
  heap_alloc_limit s - Free s < Z.of_nat fuel ->
  match perform memory_base fuel c s with
  | Value v s' => exists blk', extends blk blk' /\ typed memory_base blk' s' /\ ok memory_base blk' v
  | Exit (Abort _) => True
  | Exit _ => False
  end.
Proof.
  intros T A Tr L. change (safe memory_base blk (perform memory_base fuel c s) (good memory_base)).
  destruct c; cbn [call_arguments] in A;
    repeat match type of A with Forall _ (_ :: _) => apply Forall_cons_iff in A; let H := fresh "H" in destruct A as [H A] end;
    cbn [perform trusted] in *; try (apply safe_boolean; exact T).
  - apply safe_pair_cons; auto; first [lia | reflexivity].
  - apply (pair_access memory_base blk s T _ 0); auto using PAIR_P_GC_PAIR; lia.
  - apply (pair_access memory_base blk s T _ 1); auto using PAIR_P_GC_PAIR; lia.
  - apply (pair_update memory_base blk s T _ 0); auto using PAIR_P_GC_PAIR; lia.
  - apply (pair_update memory_base blk s T _ 1); auto using PAIR_P_GC_PAIR; lia.
  - apply general_car_cdr_safe; auto.
  - apply sys_pair_cons_safe; auto.
  - apply (pair_access memory_base blk s T _ 0); auto; lia.
  - apply (pair_access memory_base blk s T _ 1); auto; lia.
  - apply (pair_update memory_base blk s T _ 0); auto; lia.
  - apply (pair_update memory_base blk s T _ 1); auto; lia.
  - apply allocate_nm_safe; auto.
  - apply vector_cons_safe; auto.
  - apply arguments_safe; auto; first [lia | reflexivity].
  - unfold Prim_record. destruct (Z.ltb_spec (Z.of_nat (length (argument :: arguments))) 1) as [E | _]; [cbn [length] in E; lia|].
    apply arguments_safe; auto; first [lia | unfold count in *; cbn [length]; lia].
  - apply length_primitive_safe; auto using accepts_sizes, ARG_VECTOR_accepts.
  - apply length_primitive_safe; auto using accepts_sizes, ARG_RECORD_accepts.
  - apply length_primitive_safe; auto using ARG_GC_VECTOR_sizes.
  - apply (ref_primitive_safe memory_base blk s T _ any); auto using ARG_VECTOR_accepts; exact I.
  - apply (ref_primitive_safe memory_base blk s T _ any); auto using ARG_RECORD_accepts; exact I.
  - apply (ref_primitive_safe memory_base blk s T _ (of_objects memory_base)); auto using ARG_GC_VECTOR_accepts.
  - apply set_primitive_safe; auto using accepts_sizes, ARG_VECTOR_accepts.
  - apply set_primitive_safe; auto using accepts_sizes, ARG_RECORD_accepts.
  - apply set_primitive_safe; auto using ARG_GC_VECTOR_sizes.
  - apply (subvector_to_list_primitive_safe memory_base blk s T _ any); auto using ARG_VECTOR_accepts; exact I.
  - apply (subvector_to_list_primitive_safe memory_base blk s T _ (of_objects memory_base)); auto using ARG_GC_VECTOR_accepts.
  - apply list_to_vector_safe; auto; first [lia | reflexivity].
  - unfold Prim_sys_list_to_vector. integer_as t Et. pose proof (ulong_index_range _ _ _ _ Et).
    destruct (is_GC_VECTOR (gc_type_code t)) eqn:G; cbn [negb]; [|exact I].
    apply list_to_vector_safe; auto. destruct (gc_type_code t); try discriminate. reflexivity.
  - apply move_right_safe; auto.
  - apply move_left_safe; auto.
  - apply vector_fill_safe; auto.
Qed.
