(* ===== verification/VectorProps.v ===== *)
(** * What the primitives on vectors and lists do

    The elements of vectors and lists before and after: conversion of one to
    the other, and moving and filling parts of a vector. *)

From Stdlib Require Import ZArith List Lia Bool.
From S2P Require Import Prelude.
From S2P Require Import Integer.
From S2P Require Import Bignum.
From S2P Require Import BignumSpec.
From S2P Require Import IntPrim.
From S2P Require Import Object.
From S2P Require Import Memory.
From S2P Require Import Gc.
From S2P Require Import Heap.
From S2P Require Import HeapArg.
From S2P Require Import VectorPrim.
From S2P Require Import VectorRun.
From S2P Require Import HeapSafe.
From S2P Require Import VectorSafe.
Import ListNotations.

#[local] Opaque MAKE_OBJECT OBJECT_DATUM OBJECT_TYPE.

(** ** Arguments *)

Lemma fixnum_argument memory_base m n : integer_object memory_base m (fixnum n) = Immediate (fixnum n).
Proof.
  unfold integer_object. pose proof (fixnum_P n) as P. unfold FIXNUM_P in P. apply Z.eqb_eq in P. rewrite P. reflexivity.
Qed.

Lemma nonnegative_fixnum memory_base s k n : 0 <= n <= BIGGEST_FIXNUM ->
  arg_nonnegative_integer memory_base k (fixnum n) s = Value n s.
Proof.
  intros H. unfold arg_nonnegative_integer, arg. rewrite fixnum_argument.
  unfold IntPrim.arg_nonnegative_integer, arg_integer, IntPrim.CHECK_ARG, INTEGER_P, is_fixnum, integer_to_long_p, integer_to_long, as_fixnum.
  rewrite fixnum_P. cbn [orb negb pbind lift]. rewrite fixnum_TO_LONG by (red; lia).
  destruct (Z.ltb_spec n 0); [lia | reflexivity].
Qed.

Section Vectors.
Variable memory_base : Z.
Notation addr := (OBJECT_ADDRESS memory_base).
Notation pointer := (MAKE_POINTER_OBJECT memory_base).
Notation VECTOR_LOC := (VECTOR_LOC memory_base).
Notation list_at := (list_at memory_base).

(** The vector [v] has the elements [xs], below [bound]. *)
Record vector_at (m : memory) (bound : Z) (v : Z) (xs : list Z) : Prop := {
  va_type : VECTOR_P v = true;
  va_length : OBJECT_DATUM (m (addr v)) = count xs;
  va_elements : slice m (addr v + 1) (count xs) = xs;
  va_bound : addr v + 1 + count xs <= bound;
  va_small : count xs <= BIGGEST_FIXNUM
}.

(** There is room for [n] words, at addresses that can be encoded. *)
Record room (s : machine) (n : Z) : Prop := {
  ro_start : heap_start s <= Free s;
  ro_base : memory_base <= Free s;
  ro_free : Free s < heap_alloc_limit s;
  ro_limit : Free s + n <= heap_alloc_limit s;
  ro_datum : heap_alloc_limit s < memory_base + 2 ^ 58
}.

Lemma room_no_GC s n k : room s n -> k <= n -> GC_NEEDED_P s k = false.
Proof.
  intros R H. destruct R. unfold GC_NEEDED_P, HEAP_AVAILABLE_P, FREE_OK_P.
  rewrite (proj2 (Z.leb_le _ _)), (proj2 (Z.ltb_lt _ _)), (proj2 (Z.leb_le _ _)) by lia. reflexivity.
Qed.

Definition sub (xs : list Z) (i j : Z) : list Z := firstn (Z.to_nat (j - i)) (skipn (Z.to_nat i) xs).

Lemma seq_from a n : seq a n = map (fun k => (a + k)%nat) (seq 0 n).
Proof.
  revert a. induction n as [|n IH]; intros a; cbn [seq map]; [reflexivity|].
  rewrite Nat.add_0_r, (IH (S a)), <- seq_shift, !map_map. f_equal. apply map_ext. intros k. lia.
Qed.

Lemma sub_slice m a n i j : 0 <= i <= j -> j <= n -> sub (slice m a n) i j = slice m (a + i) (j - i).
Proof.
  intros H1 H2. unfold sub, slice. rewrite skipn_map, firstn_map.
  replace (firstn (Z.to_nat (j - i)) (skipn (Z.to_nat i) (seq 0 (Z.to_nat n)))) with (seq (Z.to_nat i) (Z.to_nat (j - i))).
  - rewrite (seq_from (Z.to_nat i)), map_map. apply map_ext. intros k. f_equal. lia.
  - replace (Z.to_nat n) with (Z.to_nat i + (Z.to_nat (j - i) + Z.to_nat (n - j)))%nat by lia.
    rewrite seq_app, skipn_app, length_seq, Nat.sub_diag, skipn_all2 by (rewrite length_seq; lia).
    cbn [app skipn Nat.add]. rewrite seq_app, firstn_app, length_seq, Nat.sub_diag, firstn_all2 by (rewrite length_seq; lia).
    cbn [firstn]. rewrite app_nil_r. reflexivity.
Qed.

Lemma count_sub xs i j : 0 <= i <= j -> j <= count xs -> count (sub xs i j) = j - i.
Proof. intros H1 H2. unfold count, sub in *. rewrite length_firstn, length_skipn. lia. Qed.

Lemma VECTOR_LENGTH_at m bound v xs s : mem s = m -> vector_at m bound v xs ->
  VECTOR_LENGTH memory_base v s = Value (count xs) s.
Proof.
  intros <- V. unfold VECTOR_LENGTH, MEMORY_REF, bind, fetch, ret, MEMORY_LOC.
  rewrite Z.add_0_r, (va_length _ _ _ _ V). reflexivity.
Qed.

Lemma elements_at m bound v xs i j : vector_at m bound v xs -> 0 <= i <= j -> j <= count xs ->
  slice m (VECTOR_LOC v i) (j - i) = sub xs i j.
Proof.
  intros V H1 H2. rewrite <- (va_elements _ _ _ _ V) at 1. rewrite sub_slice by lia.
  f_equal. unfold Heap.VECTOR_LOC, MEMORY_LOC. lia.
Qed.

(** ** From a vector to a list *)

Lemma subvector_to_list_at s v xs i j :
  vector_at (mem s) (Free s) v xs -> 0 <= i <= j -> j <= count xs -> room s (2 * (j - i)) ->
  exists l m, Prim_subvector_to_list memory_base v (fixnum i) (fixnum j) s
      = Value l (mk_machine m (Free s + 2 * (j - i)) (heap_start s) (heap_alloc_limit s) (GC_ENABLED_P s))
    /\ list_at m (Free s + 2 * (j - i)) l (sub xs i j) /\ forall x, x < Free s -> m x = mem s x.
Proof.
  intros V H1 H2 R. pose proof (va_small _ _ _ _ V). pose proof (va_bound _ _ _ _ V).
  unfold Prim_subvector_to_list, SUBVECTOR_TO_LIST_PRIMITIVE, ARG_VECTOR, bind, HeapArg.CHECK_ARG.
  rewrite (va_type _ _ _ _ V). cbn [ret]. unfold ret. rewrite !nonnegative_fixnum by lia.
  rewrite (VECTOR_LENGTH_at _ _ _ _ s eq_refl V).
  destruct (Z.gtb_spec j (count xs)); [lia|]. destruct (Z.gtb_spec i j); [lia|].
  destruct (Z.eq_dec i j) as [-> | N].
  - exists EMPTY_LIST, (mem s). rewrite Z.sub_diag. split; [|split; [|reflexivity]].
    + unfold subvector_to_list. rewrite Z.eqb_refl, Z.add_0_r. destruct s; reflexivity.
    + unfold sub. rewrite Z.sub_diag. constructor.
  - destruct (subvector_to_list_run memory_base v i j s) as (m & E & M & C); [lia | unfold Heap.VECTOR_LOC, MEMORY_LOC; lia|].
    rewrite (room_no_GC s _ _ R) in E by lia. rewrite (elements_at _ _ _ _ i j V) in C by lia.
    exists (pointer TC_LIST (Free s)), m. split; [exact E|]. split; [|exact M]. destruct R.
    apply chain_list_at; rewrite ?count_sub by lia; try lia; [exact C|].
    intros Z0. pose proof (count_sub xs i j) as Z1. rewrite Z0 in Z1. cbn in Z1. lia.
Qed.

(** ** From a list to a vector *)

Lemma list_to_vector_at fuel s l xs :
  list_at (mem s) (Free s) l xs -> room s (1 + count xs) -> count xs <= BIGGEST_FIXNUM -> (length xs <= fuel)%nat ->
  exists v m, Prim_list_to_vector memory_base fuel l s
      = Value v (mk_machine m (Free s + 1 + count xs) (heap_start s) (heap_alloc_limit s) (GC_ENABLED_P s))
    /\ vector_at m (Free s + 1 + count xs) v xs /\ addr v = Free s /\ forall x, x < Free s -> m x = mem s x.
Proof.
  intros L R B F. destruct R. assert (0 <= count xs) by (unfold count; lia).
  destruct (pointer_address memory_base TC_VECTOR (Free s)) as [A O]; [lia | lia|].
  set (s0 := mk_machine (mem s) (Free s + 1) (heap_start s) (heap_alloc_limit s) (GC_ENABLED_P s)).
  destruct (list_to_vector_loop_run memory_base l xs (Free s) s0 0 fuel) as (m & M1 & M2 & E);
    cbn [s0 Free mem heap_start]; [exact L | lia | lia | exact F|].
  cbn [s0 Free mem heap_start heap_alloc_limit GC_ENABLED_P] in *. fold s0 in E.
  rewrite (proj2 (Z.leb_le _ _)) in E by lia. cbn [orb] in E. rewrite Z.add_0_l in E.
  exists (pointer TC_VECTOR (Free s)), (store m (Free s) (MAKE_OBJECT TC_MANIFEST_VECTOR (count xs))).
  split; [|split; [|split; [exact A|]]].
  - unfold Prim_list_to_vector, list_to_vector, bind, current, advance_Free, update. fold s0. rewrite E. reflexivity.
  - constructor; rewrite ?A; try lia.
    + unfold VECTOR_P. rewrite O. reflexivity.
    + rewrite store_same. apply MAKE_OBJECT_parts; lia.
    + etransitivity; [|exact M2]. apply slice_ext. intros i Hi. apply store_other. lia.
  - intros x Hx. rewrite store_other by lia. apply M1. lia.
Qed.
End Vectors.

(** C17: converting a part of a vector to a list and the list back to a vector
    gives a new vector with the elements of that part, at an address that was
    free; the list has these elements in between, and nothing that was in the
    heap before is changed. *)
Theorem list_vector_round_trip memory_base fuel s v xs i j :
  vector_at memory_base (mem s) (Free s) v xs -> 0 <= i <= j -> j <= count xs ->
  room memory_base s (3 * (j - i) + 1) -> (length xs <= fuel)%nat ->
  exists l s1 v' s2,
    Prim_subvector_to_list memory_base v (fixnum i) (fixnum j) s = Value l s1
    /\ list_at memory_base (mem s1) (Free s1) l (sub xs i j)
    /\ Prim_list_to_vector memory_base fuel l s1 = Value v' s2
    /\ vector_at memory_base (mem s2) (Free s2) v' (sub xs i j)
    /\ Free s <= OBJECT_ADDRESS memory_base v'
    /\ forall x, x < Free s -> mem s2 x = mem s x.
Proof.
  intros V H1 H2 R F. pose proof (count_sub xs i j H1 H2) as C. pose proof (va_small _ _ _ _ _ V).
  destruct (subvector_to_list_at memory_base s v xs i j V H1 H2) as (l & m & E & L & K); [destruct R; constructor; lia|].
  set (s1 := mk_machine m (Free s + 2 * (j - i)) (heap_start s) (heap_alloc_limit s) (GC_ENABLED_P s)) in *.
  destruct (list_to_vector_at memory_base fuel s1 l (sub xs i j) L) as (v' & m' & E' & V' & A & K').
  - destruct R. constructor; cbn [s1 Free heap_start heap_alloc_limit]; lia.
  - lia.
  - unfold count in *. lia.
  - eexists l, s1, v', _. split; [exact E|]. split; [exact L|]. split; [exact E'|]. split; [exact V'|].
    cbn [s1 Free mem] in *. split; [lia|]. intros x Hx. rewrite K' by lia. auto.
Qed.

(** ** Parts of a vector *)

Lemma slice_app m a n1 n2 : 0 <= n1 -> 0 <= n2 -> slice m a (n1 + n2) = slice m a n1 ++ slice m (a + n1) n2.
Proof.
  intros H1 H2. unfold slice. rewrite Z2Nat.inj_add, seq_app, map_app by lia. f_equal.
  rewrite (seq_from (0 + _)), map_map. apply map_ext. intros k. f_equal. lia.
Qed.

Lemma length_slice m a n : length (slice m a n) = Z.to_nat n.
Proof. unfold slice. rewrite length_map, length_seq. reflexivity. Qed.

(** The list [ys] with [zs] from [k] on. *)
Definition spliced (ys : list Z) (k : Z) (zs : list Z) : list Z :=
  firstn (Z.to_nat k) ys ++ zs ++ skipn (Z.to_nat (k + count zs)) ys.

Lemma count_spliced ys k zs : 0 <= k -> k + count zs <= count ys -> count (spliced ys k zs) = count ys.
Proof. intros H1 H2. unfold spliced, count in *. rewrite !length_app, length_firstn, length_skipn. lia. Qed.

Lemma slice_spliced m m' a k n N : 0 <= k -> 0 <= n -> k + n <= N ->
  (forall x, x < a + k \/ a + k + n <= x -> m' x = m x) ->
  slice m' a N = spliced (slice m a N) k (slice m' (a + k) n).
Proof.
  intros H1 H2 H3 E. unfold spliced. rewrite slice_count by lia.
  assert (S : forall m0, slice m0 a N = slice m0 a k ++ slice m0 (a + k) n ++ slice m0 (a + k + n) (N - (k + n))).
  { intros m0. rewrite <- !slice_app by lia. f_equal. lia. }
  rewrite (S m'). f_equal; [|f_equal].
  - rewrite (S m), firstn_app, length_slice, Nat.sub_diag, firstn_all2 by (rewrite length_slice; lia).
    cbn [firstn]. rewrite app_nil_r. apply slice_ext. intros i Hi. apply E. lia.
  - rewrite (S m), app_assoc, skipn_app, (skipn_all2 (_ ++ _)) by (rewrite length_app, !length_slice; lia).
    rewrite length_app, !length_slice. replace (_ - _)%nat with 0%nat by lia. cbn [skipn app].
    apply slice_ext. intros i Hi. apply E. lia.
Qed.

Section Moves.
Variable memory_base : Z.
Notation addr := (OBJECT_ADDRESS memory_base).
Notation VECTOR_LOC := (VECTOR_LOC memory_base).
Notation vector_at := (vector_at memory_base).

Lemma vector_at_spliced m m' bound v xs k n :
  vector_at m bound v xs -> 0 <= k -> 0 <= n -> k + n <= count xs ->
  (forall x, x < VECTOR_LOC v k \/ VECTOR_LOC v k + n <= x -> m' x = m x) ->
  vector_at m' bound v (spliced xs k (slice m' (VECTOR_LOC v k) n)).
Proof.
  intros V H1 H2 H3 E. destruct V as [T L X B S].
  assert (A : VECTOR_LOC v k = addr v + 1 + k) by (unfold Heap.VECTOR_LOC, MEMORY_LOC; lia). rewrite A in *.
  pose proof (count_spliced xs k (slice m' (addr v + 1 + k) n)) as C. rewrite slice_count in C by lia.
  constructor; rewrite ?C by lia; auto.
  - rewrite E by lia. exact L.
  - rewrite (slice_spliced m m' (addr v + 1) k n) by (try lia; exact E). rewrite X. reflexivity.
Qed.

(** The argument that is reported, if one is out of range. *)
Definition move_error (length1 length2 i j k : Z) : option Z :=
  if j >? length1 then Some 3 else if i >? j then Some 2
  else if k + (j - i) >? length2 then Some 5 else None.

Lemma move_prefix_run s bound v1 xs v2 ys i j k move :
  vector_at (mem s) bound v1 xs -> vector_at (mem s) bound v2 ys ->
  0 <= i <= BIGGEST_FIXNUM -> 0 <= j <= BIGGEST_FIXNUM -> 0 <= k <= BIGGEST_FIXNUM ->
  SUBVECTOR_MOVE_PREFIX memory_base v1 (fixnum i) (fixnum j) v2 (fixnum k) move s
  = match move_error (count xs) (count ys) i j k with
    | Some n => Exit (Abort (Object.error_bad_range_arg n))
    | None => move (j - i) (VECTOR_LOC v1 i) (VECTOR_LOC v1 j) (VECTOR_LOC v2 k) (VECTOR_LOC v2 (k + (j - i))) s
    end.
Proof.
  intros V1 V2 H1 H2 H3. unfold SUBVECTOR_MOVE_PREFIX, ARG_VECTOR, bind, HeapArg.CHECK_ARG, ret.
  rewrite (va_type _ _ _ _ _ V1), (va_type _ _ _ _ _ V2), !nonnegative_fixnum by lia.
  rewrite (VECTOR_LENGTH_at _ _ _ _ _ s eq_refl V1). unfold move_error.
  destruct (Z.gtb_spec j (count xs)); [reflexivity|]. destruct (Z.gtb_spec i j); [reflexivity|].
  rewrite (VECTOR_LENGTH_at _ _ _ _ _ s eq_refl V2), slong_small by lia.
  destruct (_ >? count ys); reflexivity.
Qed.

Lemma move_error_none n1 n2 i j k : move_error n1 n2 i j k = None -> j <= n1 /\ i <= j /\ k + (j - i) <= n2.
Proof.
  unfold move_error. destruct (Z.gtb_spec j n1); [discriminate|]. destruct (Z.gtb_spec i j); [discriminate|].
  destruct (Z.gtb_spec (k + (j - i)) n2); [discriminate|]. lia.
Qed.

Definition subvector_move (right : bool) (v1 start1 end1 v2 start2 : Z) : act Z :=
  (if right then Prim_subvector_move_right else Prim_subvector_move_left) memory_base v1 start1 end1 v2 start2.

(** No element is overwritten before it is read. *)
Definition no_clash (right : bool) (v1 i j v2 k : Z) : Prop :=
  let a := VECTOR_LOC v1 i in let b := VECTOR_LOC v2 k in
  a + (j - i) <= b \/ b + (j - i) <= a \/ (if right then a <= b else b <= a).

Lemma move_runs (right : bool) v1 i j v2 k s : i <= j ->
  exists m,
    (if right then move_right (Z.to_nat (j - i)) (VECTOR_LOC v1 j) (VECTOR_LOC v2 (k + (j - i))) s
     else move_left (Z.to_nat (j - i)) (VECTOR_LOC v1 i) (VECTOR_LOC v2 k) s) = Value tt (set_mem s m)
    /\ (forall x, x < VECTOR_LOC v2 k \/ VECTOR_LOC v2 k + (j - i) <= x -> m x = mem s x)
    /\ (no_clash right v1 i j v2 k -> slice m (VECTOR_LOC v2 k) (j - i) = slice (mem s) (VECTOR_LOC v1 i) (j - i)).
Proof.
  intros H. unfold no_clash.
  assert (At : forall v a, VECTOR_LOC v a = addr v + 1 + a) by (intros; unfold Heap.VECTOR_LOC, MEMORY_LOC; lia).
  rewrite !At. destruct right.
  - destruct (move_right_run (Z.to_nat (j - i)) (addr v1 + 1 + j) (addr v2 + 1 + (k + (j - i))) s) as (m & R & [C _] & N).
    rewrite Z2Nat.id in * by lia. exists m. split; [exact R|]. split.
    + intros x Hx. apply C. lia.
    + intros O. unfold slice. apply map_ext_in. intros x Hx%in_seq. assert (N' := N ltac:(lia) (j - i - Z.of_nat x)).
      replace (addr v2 + 1 + k + Z.of_nat x) with (addr v2 + 1 + (k + (j - i)) - (j - i - Z.of_nat x)) by lia.
      rewrite N' by lia. f_equal. lia.
  - destruct (move_left_run (Z.to_nat (j - i)) (addr v1 + 1 + i) (addr v2 + 1 + k) s) as (m & R & [C _] & N).
    rewrite Z2Nat.id in * by lia. exists m. split; [exact R|]. split; [exact C|].
    intros O. unfold slice. apply map_ext_in. intros x Hx%in_seq. apply N; lia.
Qed.
End Moves.

(** C38: SUBVECTOR-MOVE-RIGHT! and SUBVECTOR-MOVE-LEFT! report the first of the
    end, the start and the destination that is out of range; otherwise they
    change only the destination, and it gets the elements from before the call,
    if source and destination do not overlap or are moved apart in the
    direction of the name. *)
Theorem subvector_move_correct memory_base right s bound v1 xs v2 ys i j k :
  vector_at memory_base (mem s) bound v1 xs -> vector_at memory_base (mem s) bound v2 ys ->
  0 <= i <= BIGGEST_FIXNUM -> 0 <= j <= BIGGEST_FIXNUM -> 0 <= k <= BIGGEST_FIXNUM ->
  let result := subvector_move memory_base right v1 (fixnum i) (fixnum j) v2 (fixnum k) s in
  match move_error (count xs) (count ys) i j k with
  | Some n => result = Exit (Abort (Object.error_bad_range_arg n))
  | None => exists m, result = Value UNSPECIFIC (set_mem s m)
      /\ (forall x, x < VECTOR_LOC memory_base v2 k \/ VECTOR_LOC memory_base v2 k + (j - i) <= x -> m x = mem s x)
      /\ (no_clash memory_base right v1 i j v2 k -> vector_at memory_base m bound v2 (spliced ys k (sub xs i j)))
  end.
Proof.
  intros V1 V2 H1 H2 H3 result.
  assert (R : result = match move_error (count xs) (count ys) i j k with
    | Some n => Exit (Abort (Object.error_bad_range_arg n))
    | None => bind (if right then move_right (Z.to_nat (j - i)) (VECTOR_LOC memory_base v1 j) (VECTOR_LOC memory_base v2 (k + (j - i)))
                    else move_left (Z.to_nat (j - i)) (VECTOR_LOC memory_base v1 i) (VECTOR_LOC memory_base v2 k))
                (fun _ => ret UNSPECIFIC) s end).
  { unfold result, subvector_move. destruct right; cbn [Prim_subvector_move_right];
      unfold Prim_subvector_move_right, Prim_subvector_move_left;
      rewrite (move_prefix_run memory_base s bound v1 xs v2 ys) by assumption; reflexivity. }
  destruct (move_error _ _ _ _ _) as [n|] eqn:E; [exact R|].
  apply move_error_none in E as (E1 & E2 & E3).
  destruct (move_runs memory_base right v1 i j v2 k s E2) as (m & Run & Out & In). exists m. split; [|split; [exact Out|]].
  - rewrite R. unfold bind. destruct right; rewrite Run; reflexivity.
  - intros O. rewrite <- (elements_at memory_base _ _ _ _ i j V1) by lia. rewrite <- (In O).
    apply (vector_at_spliced memory_base (mem s)); auto; lia.
Qed.

(** The end of the destination is computed in a [long]: an index near 2^63,
    which is a bignum, wraps, passes the check, and words outside of the vector
    are overwritten. *)
Lemma subvector_move_wraps memory_base s bound v1 xs v2 ys w move :
  vector_at memory_base (mem s) bound v1 xs -> vector_at memory_base (mem s) bound v2 ys -> 0 < count xs ->
  arg_nonnegative_integer memory_base 5 w s = Value 9223372036854775807 s ->
  SUBVECTOR_MOVE_PREFIX memory_base v1 (fixnum 0) (fixnum 1) v2 w move s
  = move 1 (VECTOR_LOC memory_base v1 0) (VECTOR_LOC memory_base v1 1)
      (VECTOR_LOC memory_base v2 9223372036854775807) (VECTOR_LOC memory_base v2 (-9223372036854775808)) s.
Proof.
  intros V1 V2 N W. unfold SUBVECTOR_MOVE_PREFIX, ARG_VECTOR, bind, HeapArg.CHECK_ARG, ret.
  rewrite (va_type _ _ _ _ _ V1), (va_type _ _ _ _ _ V2), !nonnegative_fixnum, W by lia.
  rewrite (VECTOR_LENGTH_at _ _ _ _ _ s eq_refl V1).
  destruct (Z.gtb_spec 1 (count xs)); [lia|]. cbn [Z.gtb Z.compare].
  rewrite (VECTOR_LENGTH_at _ _ _ _ _ s eq_refl V2).
  change (slong (9223372036854775807 + (1 - 0))) with (-9223372036854775808).
  assert (0 <= count ys) by (unfold count; lia).
  destruct (Z.gtb_spec (-9223372036854775808) (count ys)); [lia | reflexivity].
Qed.

(** ** A small heap *)

Module Example.

(** The vector of 7, 8 and 9 at the address 100. *)
Definition heap : machine :=
  mk_machine (fun x => if x =? 100 then MAKE_OBJECT TC_MANIFEST_VECTOR 3
                       else if (101 <=? x) && (x <=? 103) then fixnum (x - 94) else 0)
    104 0 1000 true.
Definition vector : Z := MAKE_OBJECT TC_VECTOR 100.
Definition contents : blocks := fun x => if x =? 100 then Some (Marked 3) else None.

Lemma vector_here : vector_at 0 (mem heap) (Free heap) vector [fixnum 7; fixnum 8; fixnum 9].
Proof. constructor; try (vm_compute; reflexivity); vm_compute; discriminate. Qed.

Lemma heap_room n : 0 <= n <= 896 -> room 0 heap n.
Proof. intros H. constructor; cbn [heap heap_start Free heap_alloc_limit]; lia. Qed.

Lemma contents_typed : typed 0 contents heap.
Proof.
  assert (Only : forall a k, contents a = Some k -> a = 100 /\ k = Marked 3).
  { unfold contents. intros a k. destruct (Z.eqb_spec a 100); [|discriminate]. intros [= <-]. auto. }
  constructor; try reflexivity.
  - intros a k [-> ->]%Only. split; [lia|]. split; [vm_compute; reflexivity|].
    intros i Hi. assert (i = 1 \/ i = 2 \/ i = 3) as [-> | [-> | ->]] by lia; vm_compute; exact I.
  - intros a k [-> ->]%Only. cbn. lia.
  - intros a b k k' [-> _]%Only [-> _]%Only H. congruence.
  - cbn. lia.
Qed.

Lemma vector_ok : ok 0 contents vector.
Proof. exists 3. left. reflexivity. Qed.

End Example.
Import Example.

Lemma primitives_type_safe_witness :
  match perform 0 1000 (SUBVECTOR_TO_LIST vector (fixnum 1) (fixnum 3)) heap with
  | Value v s' => exists blk', extends contents blk' /\ typed 0 blk' s' /\ ok 0 blk' v
  | Exit (Abort _) => True
  | Exit _ => False
  end.
Proof.
  apply (primitives_type_safe 0 contents heap 1000).
  - exact contents_typed.
  - repeat constructor. exact vector_ok.
  - repeat constructor.
  - vm_compute. reflexivity.
Defined.

Lemma list_vector_round_trip_witness : exists l s1 v' s2,
  Prim_subvector_to_list 0 vector (fixnum 1) (fixnum 3) heap = Value l s1
  /\ list_at 0 (mem s1) (Free s1) l [fixnum 8; fixnum 9]
  /\ Prim_list_to_vector 0 3 l s1 = Value v' s2
  /\ vector_at 0 (mem s2) (Free s2) v' [fixnum 8; fixnum 9]
  /\ Free heap <= OBJECT_ADDRESS 0 v'
  /\ forall x, x < Free heap -> mem s2 x = mem heap x.
Proof.
  apply (list_vector_round_trip 0 3 heap vector [fixnum 7; fixnum 8; fixnum 9] 1 3).
  - exact vector_here.
  - lia.
  - vm_compute. discriminate.
  - apply heap_room. lia.
  - cbn. lia.
Defined.

(** Moving the last two elements one to the left. *)
Lemma subvector_move_correct_witness : exists m,
  subvector_move 0 false vector (fixnum 1) (fixnum 3) vector (fixnum 0) heap = Value UNSPECIFIC (set_mem heap m)
  /\ vector_at 0 m (Free heap) vector [fixnum 8; fixnum 9; fixnum 9].
Proof.
  destruct (subvector_move_correct 0 false heap (Free heap) vector _ vector _ 1 3 0 vector_here vector_here
              ltac:(lia) ltac:(lia) ltac:(lia)) as (m & R & _ & V).
  exists m. split; [exact R|]. apply V. right. right. vm_compute. discriminate.
Defined.
