(* ===== verification/Syntax.v ===== *)
(** * Syntax tables and the scanners of Edwin (src/src/microcode/syntax.c, syntax.h, edwin.h)

    The scanners go over the text of an editor, which has a gap, in steps of a
    character, and look up each character in a table of 256 entries.  A
    pointer into the text is its distance from [first_char]; [text p] is the
    byte at [p].  The scanners return an index, #f, or a vector with a state
    from which the next call goes on.

    A scanner ends with the value of the primitive ([WIN_IF], [LOSE_IF]), or
    never: [No_end] says that [fuel] is used up. *)

From Stdlib Require Import ZArith Ascii String List Lia Bool.
From S2P Require Import Prelude.
From S2P Require Import Bignum.
From S2P Require Import BignumSpec.
From S2P Require Import Object.
From S2P Require Import IntPrim.
From S2P Require Import Regex.
From S2P Require Import Memory.
From S2P Require Import Heap.
From S2P Require Import HeapArg.
From S2P Require Import Symbol.
From S2P Require Import VectorPrim.
Import ListNotations.
Local Open Scope Z_scope.

(** ** Entries of a syntax table *)

Notation syntaxcode_whitespace := 0.
Notation syntaxcode_punct := 1.
Notation syntaxcode_symbol := 3.
Notation syntaxcode_open := 4.
Notation syntaxcode_close := 5.
Notation syntaxcode_quote := 6.
Notation syntaxcode_string := 7.
Notation syntaxcode_math := 8.
Notation syntaxcode_escape := 9.
Notation syntaxcode_charquote := 10.
Notation syntaxcode_comment := 11.
Notation syntaxcode_endcomment := 12.

Notation COMSTART_FIRST_A := 128.
Notation COMSTART_FIRST_B := 64.
Notation COMSTART_SECOND_A := 32.
Notation COMSTART_SECOND_B := 16.
Notation COMEND_FIRST_A := 8.
Notation COMEND_FIRST_B := 4.
Notation COMEND_SECOND_A := 2.
Notation COMEND_SECOND_B := 1.
Notation COMMENT_STYLE_A := 170.
Notation COMMENT_STYLE_B := 85.
Notation COMSTART_FIRST := 192.
Notation COMSTART_SECOND := 48.
Notation COMEND_FIRST := 12.
Notation COMEND_SECOND := 3.

Definition SYNTAX_ENTRY_COMMENT_BITS (entry : Z) : Z := Z.shiftr entry 12 & 255.

Definition SYNTAX_ENTRY_COMMENT_STYLE (sentry m : Z) : Z :=
  Z.lor (if negb ((SYNTAX_ENTRY_COMMENT_BITS sentry & m) & COMMENT_STYLE_A =? 0) then COMMENT_STYLE_A else 0)
        (if negb ((SYNTAX_ENTRY_COMMENT_BITS sentry & m) & COMMENT_STYLE_B =? 0) then COMMENT_STYLE_B else 0).

Definition SYNTAX_ENTRY_PREFIX (entry : Z) : bool := negb (Z.shiftr entry 20 & 1 =? 0).

Definition SYNTAX_ENTRY_QUOTE (entry : Z) : bool :=
  (SYNTAX_ENTRY_CODE entry =? syntaxcode_escape) || (SYNTAX_ENTRY_CODE entry =? syntaxcode_charquote).

(** [if (bits & m & style)] *)
Definition comment_bits_p (sentry m style : Z) : bool := negb ((SYNTAX_ENTRY_COMMENT_BITS sentry & m) & style =? 0).

Notation ILLEGAL := syntaxcode_max.

(** The array of 128 codes: ILLEGAL for all but these characters. *)
Definition syntax_spec_codes : list (Z * Z) :=
  [(32, syntaxcode_whitespace); (34, syntaxcode_string); (36, syntaxcode_math); (39, syntaxcode_quote);
   (40, syntaxcode_open); (41, syntaxcode_close); (45, syntaxcode_whitespace); (46, syntaxcode_punct);
   (47, syntaxcode_charquote); (60, syntaxcode_comment); (62, syntaxcode_endcomment); (87, syntaxcode_word);
   (92, syntaxcode_escape); (95, syntaxcode_symbol); (119, syntaxcode_word)].

Definition syntax_spec_code (c : Z) : Z :=
  match find (fun p => fst p =? c) syntax_spec_codes with Some (_, code) => code | None => ILLEGAL end.

Definition syntax_code_spec : list Z := [32; 46; 119; 95; 40; 41; 39; 34; 36; 92; 47; 60; 62].

(** ** The entry that a string describes *)

(** [None] is [error_bad_range_arg (1)]. *)
Definition MERGE_PREFIX_BIT (result bit : Z) : option Z := if negb (result & bit =? 0) then None else Some (Z.lor result bit).
Definition MERGE_COMMENT (result bit : Z) : option Z := MERGE_PREFIX_BIT result (Z.shiftl bit 12).

Definition merge_flag (result c : Z) : option Z :=
  if c =? 49 then MERGE_COMMENT result COMSTART_FIRST_B
  else if c =? 50 then MERGE_COMMENT result COMSTART_SECOND_B
  else if c =? 51 then MERGE_COMMENT result COMEND_FIRST_B
  else if c =? 52 then MERGE_COMMENT result COMEND_SECOND_B
  else if c =? 53 then MERGE_COMMENT result COMSTART_FIRST_A
  else if c =? 54 then MERGE_COMMENT result COMSTART_SECOND_A
  else if c =? 55 then MERGE_COMMENT result COMEND_FIRST_A
  else if c =? 56 then MERGE_COMMENT result COMEND_SECOND_A
  else if c =? 98 then
    if SYNTAX_ENTRY_CODE result =? syntaxcode_comment then MERGE_COMMENT result COMSTART_FIRST_B
    else if SYNTAX_ENTRY_CODE result =? syntaxcode_endcomment then MERGE_COMMENT result COMEND_FIRST_B
    else Some result
  else if c =? 112 then MERGE_PREFIX_BIT result (Z.shiftl 1 20)
  else if c =? 32 then Some result
  else None.

Fixpoint merge_flags (result : Z) (scan : list Z) : option Z :=
  match scan with
  | [] => Some result
  | c :: scan => let* result := merge_flag result c in merge_flags result scan
  end.

Definition string_to_syntax_entry (bytes : list Z) : option Z :=
  let* (result, scan) :=
    match bytes with
    | [] => Some (syntaxcode_whitespace, [])
    | c :: scan =>
        if 128 <=? c then None
        else
          let result := syntax_spec_code c in
          if result =? ILLEGAL then None else Some (result, scan)
    end in
  let (result, scan) :=
    match scan with
    | [] => (result, [])
    | c :: scan => (if negb (c =? 32) then Z.lor result (Z.shiftl c 4) else result, scan)
    end in
  let* result := merge_flags result scan in
  let* result :=
    if (SYNTAX_ENTRY_CODE result =? syntaxcode_comment) && (SYNTAX_ENTRY_COMMENT_BITS result & COMSTART_FIRST =? 0)
    then MERGE_COMMENT result COMSTART_FIRST_A else Some result in
  if (SYNTAX_ENTRY_CODE result =? syntaxcode_endcomment) && (SYNTAX_ENTRY_COMMENT_BITS result & COMEND_FIRST =? 0)
  then MERGE_COMMENT result COMEND_FIRST_A else Some result.

(** The byte of the designator for an entry; the array has 13. *)
Definition syntax_code_char (entry : Z) : option Z := nth_error syntax_code_spec (Z.to_nat (SYNTAX_ENTRY_CODE entry)).

(** ** Scanning *)

Inductive ending := Win (start : Z) | Lose | No_end.

Definition scan (A : Type) : Type := A + ending.
Definition goes_on {A} (a : A) : scan A := inl a.
Definition ends {A} (e : ending) : scan A := inr e.
Definition sbind {A B} (e : scan A) (k : A -> scan B) : scan B := match e with inl a => k a | inr e => inr e end.

Declare Scope scan_scope.
Notation "x <- e ;; k" := (sbind e (fun x => k)) (at level 61, e at next level, right associativity) : scan_scope.
Notation "' pat <- e ;; k" := (sbind e (fun x => match x with pat => k end))
  (at level 61, pat pattern, e at next level, right associativity) : scan_scope.
Notation "e ;; k" := (sbind e (fun _ => k)) (at level 61, right associativity) : scan_scope.

Section Scanners.
Local Open Scope scan_scope.
Variable syntax_table : Z -> Z.
Variable text : Z -> Z.
Variables gap_start gap_end gap_length : Z.
Variable end_ : Z.
Variable fuel : nat.

Definition PEEK_RIGHT (scan : Z) : Z := SYNTAX_TABLE_REF syntax_table (text scan).
Definition PEEK_LEFT (scan : Z) : Z := SYNTAX_TABLE_REF syntax_table (text (scan - 1)).
Definition MOVE_RIGHT (scan : Z) : Z := if scan + 1 =? gap_start then gap_end else scan + 1.
Definition MOVE_LEFT (scan : Z) : Z := if scan - 1 =? gap_end then gap_start else scan - 1.
Definition READ_RIGHT (scan : Z) : Z * Z := (PEEK_RIGHT scan, MOVE_RIGHT scan).
Definition READ_LEFT (scan : Z) : Z * Z := (PEEK_LEFT scan, MOVE_LEFT scan).
Definition RIGHT_END_P (scan : Z) : bool := end_ <=? scan.
Definition LEFT_END_P (scan : Z) : bool := scan <=? end_.
Definition LOSE_IF (expression : bool) : scan unit := if expression then ends Lose else goes_on tt.
Definition WIN_IF (start : Z) (expression : bool) : scan unit := if expression then ends (Win start) else goes_on tt.
Definition LOSE_IF_RIGHT_END (scan : Z) := LOSE_IF (RIGHT_END_P scan).
Definition LOSE_IF_LEFT_END (scan : Z) := LOSE_IF (LEFT_END_P scan).
Definition SCAN_TO_INDEX (scan : Z) : Z := if gap_start <? scan then scan - gap_length else scan.
Definition INDEX_TO_SCAN (index : Z) : Z := if gap_start <? index then index + gap_length else index.

(** *** Quotes *)

Fixpoint right_quoted_loop (n : nat) (scan : Z) (quoted : bool) : Syntax.scan bool :=
  if LEFT_END_P scan then goes_on quoted
  else
    match n with
    | O => ends No_end
    | S n =>
        let (sentry, scan) := READ_LEFT scan in
        if negb (SYNTAX_ENTRY_QUOTE sentry) then goes_on quoted else right_quoted_loop n scan (negb quoted)
    end.

Definition RIGHT_QUOTED_P (scan : Z) : Syntax.scan bool := right_quoted_loop fuel scan false.
Definition LEFT_QUOTED_P (scan : Z) : Syntax.scan bool := right_quoted_loop fuel (MOVE_LEFT scan) false.

Definition prefix_char_p (sentry : Z) : bool := (SYNTAX_ENTRY_CODE sentry =? syntaxcode_quote) || SYNTAX_ENTRY_PREFIX sentry.

Fixpoint scan_backward_prefix_chars (n : nat) (start : Z) : scan unit :=
  WIN_IF start (LEFT_END_P start) ;;
  quoted <- LEFT_QUOTED_P start ;;
  WIN_IF start quoted ;;
  WIN_IF start (negb (prefix_char_p (PEEK_LEFT start))) ;;
  match n with O => ends No_end | S n => scan_backward_prefix_chars n (MOVE_LEFT start) end.

Fixpoint scan_forward_prefix_chars (n : nat) (start : Z) : scan unit :=
  WIN_IF start (RIGHT_END_P start) ;;
  quoted <- RIGHT_QUOTED_P start ;;
  WIN_IF start quoted ;;
  WIN_IF start (negb (prefix_char_p (PEEK_RIGHT start))) ;;
  match n with O => ends No_end | S n => scan_forward_prefix_chars n (MOVE_RIGHT start) end.

(** *** Words *)

Definition word_p (sentry : Z) : bool := SYNTAX_ENTRY_CODE sentry =? syntaxcode_word.

Fixpoint scan_forward_to_word (n : nat) (start : Z) : scan unit :=
  LOSE_IF_RIGHT_END start ;;
  WIN_IF start (word_p (PEEK_RIGHT start)) ;;
  match n with O => ends No_end | S n => scan_forward_to_word n (MOVE_RIGHT start) end.

Fixpoint into_word_right (n : nat) (start : Z) : scan Z :=
  LOSE_IF_RIGHT_END start ;;
  let (sentry, start) := READ_RIGHT start in
  if word_p sentry then goes_on start else match n with O => ends No_end | S n => into_word_right n start end.

Fixpoint word_end_right (n : nat) (start : Z) : scan unit :=
  WIN_IF start (RIGHT_END_P start) ;;
  WIN_IF start (negb (word_p (PEEK_RIGHT start))) ;;
  match n with O => ends No_end | S n => word_end_right n (MOVE_RIGHT start) end.

Definition scan_word_forward (start : Z) : scan unit := start <- into_word_right fuel start ;; word_end_right fuel start.

Fixpoint into_word_left (n : nat) (start : Z) : scan Z :=
  LOSE_IF_LEFT_END start ;;
  let (sentry, start) := READ_LEFT start in
  if word_p sentry then goes_on start else match n with O => ends No_end | S n => into_word_left n start end.

Fixpoint word_end_left (n : nat) (start : Z) : scan unit :=
  WIN_IF start (LEFT_END_P start) ;;
  WIN_IF start (negb (word_p (PEEK_LEFT start))) ;;
  match n with O => ends No_end | S n => word_end_left n (MOVE_LEFT start) end.

Definition scan_word_backward (start : Z) : scan unit := start <- into_word_left fuel start ;; word_end_left fuel start.

(** *** Expressions *)

Section Lists.
Variable min_depth : Z.
Variable sexp_flag : bool.

(** The style of the comment that the character before [start] begins, or 0,
    and where the comment goes on. *)
Definition comment_start_forward (sentry start : Z) : Z * Z :=
  if SYNTAX_ENTRY_CODE sentry =? syntaxcode_comment then (SYNTAX_ENTRY_COMMENT_STYLE sentry COMSTART_FIRST, start)
  else if negb (RIGHT_END_P start) then
    let style := SYNTAX_ENTRY_COMMENT_STYLE sentry COMSTART_FIRST & SYNTAX_ENTRY_COMMENT_STYLE (PEEK_RIGHT start) COMSTART_SECOND in
    (style, if negb (style =? 0) then MOVE_RIGHT start else start)
  else (0, start).

Fixpoint skip_comment_forward (n : nat) (style start : Z) : scan Z :=
  let (sentry, start) := READ_RIGHT start in
  let again start := match n with O => ends No_end | S n => skip_comment_forward n style start end in
  if comment_bits_p sentry COMEND_FIRST style then
    if SYNTAX_ENTRY_CODE sentry =? syntaxcode_endcomment then goes_on start
    else
      LOSE_IF_RIGHT_END start ;;
      if comment_bits_p (PEEK_RIGHT start) COMEND_SECOND style then goes_on (MOVE_RIGHT start)
      else again start
  else again start.

Fixpoint atom_forward (n : nat) (start : Z) : scan unit :=
  WIN_IF start (RIGHT_END_P start) ;;
  let code := SYNTAX_ENTRY_CODE (PEEK_RIGHT start) in
  let again start := match n with O => ends No_end | S n => atom_forward n start end in
  if (code =? syntaxcode_escape) || (code =? syntaxcode_charquote) then
    let start := MOVE_RIGHT start in
    LOSE_IF_RIGHT_END start ;;
    again (MOVE_RIGHT start)
  else if (code =? syntaxcode_word) || (code =? syntaxcode_symbol) then again (MOVE_RIGHT start)
  else WIN_IF start true.

Fixpoint string_forward (n : nat) (c start : Z) : scan Z :=
  LOSE_IF_RIGHT_END start ;;
  if c =? text start then goes_on start
  else
    let (sentry, start) := READ_RIGHT start in
    let again start := match n with O => ends No_end | S n => string_forward n c start end in
    if SYNTAX_ENTRY_QUOTE sentry then LOSE_IF_RIGHT_END start ;; again (MOVE_RIGHT start)
    else again start.

(** The state of the loop: [start], [depth] and [math_exit]. *)
Notation state := (Z * Z * bool)%type.

(** [--depth], and then the two tests. *)
Definition leave_list (start depth : Z) : scan Z :=
  let depth := (depth - 1)%SL in
  WIN_IF start (depth =? 0) ;;
  LOSE_IF (depth <? min_depth) ;;
  goes_on depth.

Definition enter_list (start depth : Z) : scan Z :=
  let depth := (depth + 1)%SL in
  WIN_IF start (depth =? 0) ;;
  goes_on depth.

(** After the second of two delimiters: [math_exit] is reset. *)
Definition math_delimiter (start depth : Z) (math_exit : bool) : scan state :=
  if math_exit then depth <- leave_list start depth ;; goes_on (start, depth, false)
  else depth <- enter_list start depth ;; goes_on (start, depth, true).

Definition list_forward_step (st : state) : scan state :=
  let '(start, depth, math_exit) := st in
  LOSE_IF_RIGHT_END start ;;
  let c := text start in
  let (sentry, start) := READ_RIGHT start in
  let (style, start) := comment_start_forward sentry start in
  if negb (style =? 0) then
    LOSE_IF_RIGHT_END start ;;
    start <- skip_comment_forward fuel style start ;;
    goes_on (start, depth, math_exit)
  else if SYNTAX_ENTRY_PREFIX sentry then goes_on (start, depth, math_exit)
  else
    let code := SYNTAX_ENTRY_CODE sentry in
    let atom start :=
      if negb (depth =? 0) || negb sexp_flag then goes_on (start, depth, math_exit)
      else atom_forward fuel start ;; ends No_end in
    if (code =? syntaxcode_escape) || (code =? syntaxcode_charquote) then
      LOSE_IF_RIGHT_END start ;; atom (MOVE_RIGHT start)
    else if (code =? syntaxcode_word) || (code =? syntaxcode_symbol) then atom start
    else if code =? syntaxcode_math then
      if negb sexp_flag then goes_on (start, depth, math_exit)
      else
        let start := if negb (RIGHT_END_P start) && (c =? text start) then MOVE_RIGHT start else start in
        math_delimiter start depth math_exit
    else if code =? syntaxcode_open then depth <- enter_list start depth ;; goes_on (start, depth, math_exit)
    else if code =? syntaxcode_close then depth <- leave_list start depth ;; goes_on (start, depth, math_exit)
    else if code =? syntaxcode_string then
      start <- string_forward fuel c start ;;
      let start := MOVE_RIGHT start in
      WIN_IF start ((depth =? 0) && sexp_flag) ;;
      goes_on (start, depth, math_exit)
    else goes_on (start, depth, math_exit).

Fixpoint scan_list_forward (n : nat) (st : state) : scan unit :=
  st <- list_forward_step st ;;
  match n with O => ends No_end | S n => scan_list_forward n st end.

(** *** Backwards *)

Variable ignore_comments : bool.

Definition comment_start_backward (sentry start : Z) : scan (Z * Z) :=
  if SYNTAX_ENTRY_CODE sentry =? syntaxcode_endcomment then
    goes_on (if ignore_comments then SYNTAX_ENTRY_COMMENT_STYLE sentry COMEND_SECOND else 0, start)
  else if negb (LEFT_END_P start) then
    quoted <- LEFT_QUOTED_P start ;;
    if negb quoted then
      let style := SYNTAX_ENTRY_COMMENT_STYLE sentry COMEND_SECOND & SYNTAX_ENTRY_COMMENT_STYLE (PEEK_LEFT start) COMEND_FIRST in
      goes_on (style, if negb (style =? 0) then MOVE_LEFT start else start)
    else goes_on (0, start)
  else goes_on (0, start).

Fixpoint skip_comment_backward (n : nat) (style start : Z) : scan Z :=
  let (sentry, start) := READ_LEFT start in
  if (SYNTAX_ENTRY_CODE sentry =? syntaxcode_comment) && comment_bits_p sentry COMSTART_FIRST style then goes_on start
  else
    LOSE_IF_LEFT_END start ;;
    if comment_bits_p sentry COMSTART_SECOND style && comment_bits_p (PEEK_LEFT start) COMSTART_FIRST style
    then goes_on (MOVE_LEFT start)
    else match n with O => ends No_end | S n => skip_comment_backward n style start end.

Fixpoint atom_backward (n : nat) (start : Z) : scan unit :=
  WIN_IF start (LEFT_END_P start) ;;
  quoted <- LEFT_QUOTED_P start ;;
  start <- (if quoted : bool then goes_on (MOVE_LEFT start)
            else
              let code := SYNTAX_ENTRY_CODE (PEEK_LEFT start) in
              WIN_IF start (negb (code =? syntaxcode_word) && negb (code =? syntaxcode_symbol)) ;;
              goes_on start) ;;
  match n with O => ends No_end | S n => atom_backward n (MOVE_LEFT start) end.

Fixpoint string_backward (n : nat) (c start : Z) : scan Z :=
  LOSE_IF_LEFT_END start ;;
  quoted <- LEFT_QUOTED_P start ;;
  if negb quoted && (c =? text (start - 1)) then goes_on start
  else match n with O => ends No_end | S n => string_backward n c (MOVE_LEFT start) end.

Definition list_backward_step (st : state) : scan state :=
  let '(start, depth, math_exit) := st in
  LOSE_IF_LEFT_END start ;;
  quoted <- LEFT_QUOTED_P start ;;
  let word_entry start :=
    if negb (depth =? 0) || negb sexp_flag then goes_on (start, depth, math_exit)
    else atom_backward fuel start ;; ends No_end in
  if quoted : bool then word_entry (snd (READ_LEFT (MOVE_LEFT start)))
  else
    let c := text (start - 1) in
    let (sentry, start) := READ_LEFT start in
    '(style, start) <- comment_start_backward sentry start ;;
    if negb (style =? 0) then
      LOSE_IF_LEFT_END start ;;
      start <- skip_comment_backward fuel style start ;;
      goes_on (start, depth, math_exit)
    else
      let code := SYNTAX_ENTRY_CODE sentry in
      if (code =? syntaxcode_word) || (code =? syntaxcode_symbol) then word_entry start
      else if code =? syntaxcode_math then
        if negb sexp_flag then goes_on (start, depth, math_exit)
        else
          let start := if negb (LEFT_END_P start) && (c =? text (start - 1)) then MOVE_LEFT start else start in
          math_delimiter start depth math_exit
      else if code =? syntaxcode_close then depth <- enter_list start depth ;; goes_on (start, depth, math_exit)
      else if code =? syntaxcode_open then depth <- leave_list start depth ;; goes_on (start, depth, math_exit)
      else if code =? syntaxcode_string then
        start <- string_backward fuel c start ;;
        let start := MOVE_LEFT start in
        WIN_IF start ((depth =? 0) && sexp_flag) ;;
        goes_on (start, depth, math_exit)
      else goes_on (start, depth, math_exit).

Fixpoint scan_list_backward (n : nat) (st : state) : scan unit :=
  st <- list_backward_step st ;;
  match n with O => ends No_end | S n => scan_list_backward n st end.
End Lists.

(** *** The partial parser *)

Notation LEVEL_ARRAY_LENGTH := 100.

(** A pointer that can be [NULL]. *)
Record levelstruct := mk_level { last : option Z; previous : option Z }.

(** The array of levels is the list of those in use, the current one first;
    the array entries above it are set before they are used.  [in_string] is
    -1 or the delimiter. *)
Record ssf_state := mk_ssf {
  ssf_start : Z;
  ssf_depth : Z;
  target_depth : Z;
  level : levelstruct;
  outer_levels : list levelstruct;
  in_string : Z;
  in_comment : Z;
  comment_style : Z;
  comment_start : Z;
  quoted : bool;
  delimiter : Z;
  the_sentry : Z
}.

Inductive ssf_label :=
  | next_char | in_comment_1 | in_comment_2 | in_comment_3 | not_in_comment
  | start_quoted | start_atom | start_in_string | start_quoted_in_string.

(** [goto], [done], or [error_bad_range_arg (5)]. *)
Inductive ssf_next := Goto (l : ssf_label) (s : ssf_state) | Done (s : ssf_state) | Too_deep | Never_done.

Definition set_start s v := mk_ssf v (ssf_depth s) (target_depth s) (level s) (outer_levels s) (in_string s) (in_comment s) (comment_style s) (comment_start s) (quoted s) (delimiter s) (the_sentry s).
Definition set_level s v := mk_ssf (ssf_start s) (ssf_depth s) (target_depth s) v (outer_levels s) (in_string s) (in_comment s) (comment_style s) (comment_start s) (quoted s) (delimiter s) (the_sentry s).
Definition set_in_string s v := mk_ssf (ssf_start s) (ssf_depth s) (target_depth s) (level s) (outer_levels s) v (in_comment s) (comment_style s) (comment_start s) (quoted s) (delimiter s) (the_sentry s).
Definition set_in_comment s v := mk_ssf (ssf_start s) (ssf_depth s) (target_depth s) (level s) (outer_levels s) (in_string s) v (comment_style s) (comment_start s) (quoted s) (delimiter s) (the_sentry s).
Definition set_comment_style s v := mk_ssf (ssf_start s) (ssf_depth s) (target_depth s) (level s) (outer_levels s) (in_string s) (in_comment s) v (comment_start s) (quoted s) (delimiter s) (the_sentry s).
Definition set_comment_start s v := mk_ssf (ssf_start s) (ssf_depth s) (target_depth s) (level s) (outer_levels s) (in_string s) (in_comment s) (comment_style s) v (quoted s) (delimiter s) (the_sentry s).
Definition set_quoted s v := mk_ssf (ssf_start s) (ssf_depth s) (target_depth s) (level s) (outer_levels s) (in_string s) (in_comment s) (comment_style s) (comment_start s) v (delimiter s) (the_sentry s).
Definition set_delimiter s v := mk_ssf (ssf_start s) (ssf_depth s) (target_depth s) (level s) (outer_levels s) (in_string s) (in_comment s) (comment_style s) (comment_start s) (quoted s) v (the_sentry s).
Definition set_sentry s v := mk_ssf (ssf_start s) (ssf_depth s) (target_depth s) (level s) (outer_levels s) (in_string s) (in_comment s) (comment_style s) (comment_start s) (quoted s) (delimiter s) v.
Definition set_depths s d t := mk_ssf (ssf_start s) d t (level s) (outer_levels s) (in_string s) (in_comment s) (comment_style s) (comment_start s) (quoted s) (delimiter s) (the_sentry s).
Definition set_levels s v o := mk_ssf (ssf_start s) (ssf_depth s) (target_depth s) v o (in_string s) (in_comment s) (comment_style s) (comment_start s) (quoted s) (delimiter s) (the_sentry s).

Section Partial.
Variable stop_before : bool.

Definition step_right (s : ssf_state) : ssf_state := set_start s (MOVE_RIGHT (ssf_start s)).
Definition read_right (s : ssf_state) : ssf_state := set_sentry (step_right s) (PEEK_RIGHT (ssf_start s)).
Definition DONE_IF_RIGHT_END (s : ssf_state) (k : ssf_next) : ssf_next := if RIGHT_END_P (ssf_start s) then Done s else k.

(** [stop]: back to the character that starts the expression. *)
Definition stop (s : ssf_state) : ssf_next :=
  Done (set_start s ((if ssf_start s =? gap_end then gap_start else ssf_start s) - 1)).

Definition SEXP_START (s : ssf_state) (k : ssf_state -> ssf_next) : ssf_next :=
  if stop_before then stop s else k (set_level s (mk_level (Some (ssf_start s)) (previous (level s)))).

(** [level->previous = level->last] *)
Definition end_sexp (s : ssf_state) : ssf_state := set_level s (mk_level (last (level s)) (last (level s))).

Definition quoted_char (s : ssf_state) (k : ssf_state -> ssf_next) : ssf_next :=
  if RIGHT_END_P (ssf_start s) then Done (set_quoted s true) else k (step_right s).

Definition open_list (s : ssf_state) : ssf_next :=
  let s := set_depths s (ssf_depth s + 1)%SL (target_depth s) in
  let outer := level s :: outer_levels s in
  if Z.of_nat (length outer) =? LEVEL_ARRAY_LENGTH then Too_deep
  else
    let s := set_levels s (mk_level None None) outer in
    let s := set_depths s (ssf_depth s) (target_depth s - 1)%SL in
    if target_depth s =? 0 then Done s else Goto next_char s.

Definition close_list (s : ssf_state) : ssf_next :=
  let s := set_depths s (ssf_depth s - 1)%SL (target_depth s) in
  let s := match outer_levels s with [] => s | l :: outer => set_levels s l outer end in
  let s := end_sexp s in
  let s := set_depths s (ssf_depth s) (target_depth s + 1)%SL in
  if target_depth s =? 0 then Done s else Goto next_char s.

Definition ssf_switch (s : ssf_state) : ssf_next :=
  let code := SYNTAX_ENTRY_CODE (the_sentry s) in
  if (code =? syntaxcode_escape) || (code =? syntaxcode_charquote) then SEXP_START s (Goto start_quoted)
  else if (code =? syntaxcode_word) || (code =? syntaxcode_symbol) then SEXP_START s (Goto start_atom)
  else if code =? syntaxcode_open then SEXP_START s open_list
  else if code =? syntaxcode_close then close_list s
  else if code =? syntaxcode_string then SEXP_START s (fun s => Goto start_in_string (set_in_string s (delimiter s)))
  else Goto next_char s.

Definition ssf_step (l : ssf_label) (s : ssf_state) : ssf_next :=
  match l with
  | next_char =>
      DONE_IF_RIGHT_END s
        (let s := set_delimiter s (text (ssf_start s)) in
         let s := set_comment_start s (ssf_start s) in
         let s := read_right s in
         let s := set_comment_style s (SYNTAX_ENTRY_COMMENT_STYLE (the_sentry s) COMSTART_FIRST) in
         if SYNTAX_ENTRY_CODE (the_sentry s) =? syntaxcode_comment then Goto in_comment_1 s
         else if comment_style s =? 0 then Goto not_in_comment s
         else Goto in_comment_2 s)
  | in_comment_2 =>
      let s := set_in_comment s 2 in
      DONE_IF_RIGHT_END s
        (let s := set_comment_style s (comment_style s & SYNTAX_ENTRY_COMMENT_STYLE (PEEK_RIGHT (ssf_start s)) COMSTART_SECOND) in
         if comment_style s =? 0 then Goto not_in_comment s else Goto in_comment_1 (step_right s))
  | in_comment_1 =>
      let s := set_in_comment s 1 in
      DONE_IF_RIGHT_END s
        (let s := read_right s in
         if comment_bits_p (the_sentry s) COMEND_FIRST (comment_style s) then
           if SYNTAX_ENTRY_CODE (the_sentry s) =? syntaxcode_endcomment then Goto next_char (set_in_comment s 0)
           else Goto in_comment_3 s
         else Goto in_comment_1 s)
  | in_comment_3 =>
      let s := set_in_comment s 3 in
      DONE_IF_RIGHT_END s
        (if comment_bits_p (PEEK_RIGHT (ssf_start s)) COMEND_SECOND (comment_style s)
         then Goto next_char (set_in_comment (step_right s) 0)
         else Goto in_comment_1 s)
  | not_in_comment =>
      let s := set_in_comment s 0 in
      if SYNTAX_ENTRY_PREFIX (the_sentry s) then Goto next_char s else ssf_switch s
  | start_quoted => quoted_char s (Goto start_atom)
  | start_atom =>
      if RIGHT_END_P (ssf_start s) then Goto next_char (end_sexp s)
      else
        let code := SYNTAX_ENTRY_CODE (PEEK_RIGHT (ssf_start s)) in
        if (code =? syntaxcode_escape) || (code =? syntaxcode_charquote) then quoted_char (step_right s) (Goto start_atom)
        else if (code =? syntaxcode_word) || (code =? syntaxcode_symbol) then Goto start_atom (step_right s)
        else Goto next_char (end_sexp s)
  | start_in_string =>
      DONE_IF_RIGHT_END s
        (if in_string s =? text (ssf_start s) then Goto next_char (step_right (end_sexp (set_in_string s (-1))))
         else
           let s := read_right s in
           if SYNTAX_ENTRY_QUOTE (the_sentry s) then Goto start_quoted_in_string s else Goto start_in_string s)
  | start_quoted_in_string => quoted_char s (Goto start_in_string)
  end.

Fixpoint ssf_run (n : nat) (l : ssf_label) (s : ssf_state) : ssf_next :=
  match ssf_step l s with
  | Goto l s => match n with O => Never_done | S n => ssf_run n l s end
  | r => r
  end.

(** *** The vector with the state *)

Notation SSF_STATE_LENGTH := 9.

(** What [last] of the first level holds at the start: it is not set. *)
Variable uninitialized : option Z.

Definition first_state (start target depth string comment style comment_start : Z) (quoted : bool) : ssf_state :=
  mk_ssf start depth target (mk_level uninitialized None) [] string comment style comment_start quoted 0 0.

(** [MARK_INDEX] of a mark; the rest of its record is not used. *)
Variable mark_index : Z -> Z.

(** The number of the comment, in [in_comment] and [comment_style]. *)
Definition decode_comment (temp : Z) : option (Z * Z) :=
  if temp =? SHARP_F then Some (0, COMMENT_STYLE_A)
  else if temp =? LONG_TO_UNSIGNED_FIXNUM 1 then Some (1, COMMENT_STYLE_A)
  else if temp =? LONG_TO_UNSIGNED_FIXNUM 2 then Some (2, COMMENT_STYLE_A)
  else if temp =? LONG_TO_UNSIGNED_FIXNUM 3 then Some (3, COMMENT_STYLE_A)
  else if temp =? LONG_TO_UNSIGNED_FIXNUM 4 then Some (2, Z.lor COMMENT_STYLE_A COMMENT_STYLE_B)
  else if temp =? LONG_TO_UNSIGNED_FIXNUM 5 then Some (1, COMMENT_STYLE_B)
  else if temp =? LONG_TO_UNSIGNED_FIXNUM 6 then Some (2, COMMENT_STYLE_B)
  else if temp =? LONG_TO_UNSIGNED_FIXNUM 7 then Some (3, COMMENT_STYLE_B)
  else None.

Definition decode_string (temp : Z) : option Z :=
  if temp =? SHARP_F then Some (-1)
  else if UNSIGNED_FIXNUM_P temp && (UNSIGNED_FIXNUM_TO_LONG temp <? MAX_ASCII) then Some (UNSIGNED_FIXNUM_TO_LONG temp)
  else None.

Definition decode_comment_start (temp : Z) : option Z :=
  if RECORD_P temp then Some (INDEX_TO_SCAN (mark_index temp))
  else if UNSIGNED_FIXNUM_P temp then Some (INDEX_TO_SCAN (UNSIGNED_FIXNUM_TO_LONG temp))
  else None.

(** [elements] are those of the vector, [None] for #f; [None] as the result is
    [error_bad_range_arg (7)]. *)
Definition decode_ssf_state (start target : Z) (elements : option (list Z)) : option ssf_state :=
  match elements with
  | None => Some (first_state start target 0 (-1) 0 COMMENT_STYLE_A 0 false)
  | Some [depth; string; comment; quoted; _; _; _; _; comment_start] =>
      let* depth := if FIXNUM_P depth then Some (FIXNUM_TO_LONG depth) else None in
      let* string := decode_string string in
      let* (in_comment, style) := decode_comment comment in
      let quoted := negb (quoted =? SHARP_F) in
      let* comment_start := if negb (in_comment =? 0) then decode_comment_start comment_start else Some 0 in
      if negb (in_comment =? 0) && (negb (string =? -1) || quoted) then None
      else Some (first_state start target depth string in_comment style comment_start quoted)
  | Some _ => None
  end.

Definition index_before (p : option Z) : Z :=
  match p with None => SHARP_F | Some p => LONG_TO_UNSIGNED_FIXNUM (SCAN_TO_INDEX p - 1) end.

Definition encode_ssf_state (s : ssf_state) : list Z :=
  [LONG_TO_FIXNUM (ssf_depth s);
   if in_string s =? -1 then SHARP_F else LONG_TO_UNSIGNED_FIXNUM (in_string s);
   if in_comment s =? 0 then SHARP_F
   else LONG_TO_UNSIGNED_FIXNUM
          (if (in_comment s =? 2) && (comment_style s =? Z.lor COMMENT_STYLE_A COMMENT_STYLE_B) then 4
           else if comment_style s =? COMMENT_STYLE_A then in_comment s else in_comment s + 4);
   BOOLEAN_TO_OBJECT (quoted s);
   index_before (last (level s));
   index_before (previous (level s));
   match outer_levels s with [] => SHARP_F | l :: _ => index_before (last l) end;
   LONG_TO_UNSIGNED_FIXNUM (SCAN_TO_INDEX (ssf_start s));
   if in_comment s =? 0 then SHARP_F else LONG_TO_UNSIGNED_FIXNUM (SCAN_TO_INDEX (comment_start s))].

(** Where the loop is entered. *)
Definition first_label (s : ssf_state) : ssf_label * ssf_state :=
  if in_comment s =? 1 then (in_comment_1, s)
  else if in_comment s =? 2 then (in_comment_2, s)
  else if in_comment s =? 3 then (in_comment_3, s)
  else if quoted s then
    let s := set_quoted s false in
    (if negb (in_string s =? -1) then start_quoted_in_string else start_quoted, s)
  else (if negb (in_string s =? -1) then start_in_string else next_char, s).

Inductive ssf_result := Elements (elements : list Z) | Bad_range_arg (n : Z) | Runs_on.

Definition scan_sexps_forward (start target : Z) (elements : option (list Z)) : ssf_result :=
  match decode_ssf_state start target elements with
  | None => Bad_range_arg 7
  | Some s =>
      let (l, s) := first_label s in
      match ssf_run fuel l s with
      | Done s => Elements (encode_ssf_state s)
      | Too_deep => Bad_range_arg 5
      | Never_done | Goto _ _ => Runs_on
      end
  end.
End Partial.
End Scanners.

(** ** The primitives *)

Notation TC_CHARACTER := 2.

Section Primitives.
Local Open Scope act_scope.
Variable memory_base : Z.
Variable fuel : nat.
(** What the stack holds where the first level of the partial parser is. *)
Variable uninitialized : option Z.
Notation VECTOR_REF := (VECTOR_REF memory_base).
Notation VECTOR_LENGTH := (VECTOR_LENGTH memory_base).
Notation arg_nonnegative_integer := (arg_nonnegative_integer memory_base).

Definition SYNTAX_TABLE_P (object : Z) : act bool :=
  if VECTOR_P object then n <- VECTOR_LENGTH object ;; ret (n =? 256) else ret false.
Definition CHECK_SYNTAX_TABLE (n object : Z) : act unit :=
  b <- SYNTAX_TABLE_P object ;; if b then ret tt else error_wrong_type_arg n.
Definition syntax_entries (m : memory) (table index : Z) : Z := m (VECTOR_LOC memory_base table index).

Definition arg_ascii_char (n object : Z) : act Z :=
  CHECK_ARG n (fun object => OBJECT_TYPE object =? TC_CHARACTER) object ;;
  if negb (OBJECT_DATUM object <? MAX_ASCII) then error_bad_range_arg n else ret (object & 255).

Definition Prim_string_to_syntax_entry (string : Z) : act Z :=
  CHECK_ARG_STRING_P memory_base 1 string ;;
  bytes <- string_bytes memory_base string ;;
  match string_to_syntax_entry bytes with Some result => ret (ULONG_TO_FIXNUM result) | None => error_bad_range_arg 1 end.

(** For a code above 12 the byte after the array is read. *)
Definition Prim_char_to_syntax_code (table char : Z) : act Z :=
  CHECK_SYNTAX_TABLE 1 table ;;
  c <- arg_ascii_char 2 char ;;
  s <- current ;;
  match syntax_code_char (SYNTAX_TABLE_REF (syntax_entries (mem s) table) c) with
  | Some c => ret (MAKE_OBJECT TC_CHARACTER c)
  | None => leave Assertion_failed
  end.

(** What the initializations set. *)
Record parser := mk_parser {
  p_table : Z -> Z;
  p_text : Z -> Z;
  p_start : Z;
  p_end : Z;
  p_gap_start : Z;
  p_gap_end : Z;
  p_gap_length : Z
}.

Definition NORMAL_INITIALIZATION_COMMON (table group start end_ : Z) : act parser :=
  CHECK_SYNTAX_TABLE 1 table ;;
  CHECK_ARG 2 VECTOR_P group ;;
  string <- VECTOR_REF group 1 ;;
  start <- arg_nonnegative_integer 3 start ;;
  end_ <- arg_nonnegative_integer 4 end_ ;;
  gap_start <- VECTOR_REF group 2 ;;
  gap_length <- VECTOR_REF group 3 ;;
  gap_end <- VECTOR_REF group 4 ;;
  s <- current ;;
  ret (mk_parser (syntax_entries (mem s) table) (fun p => byte_at (mem s) (STRING_POINTER memory_base string + p))
         start end_ (FIXNUM_TO_ULONG gap_start) (FIXNUM_TO_ULONG gap_end) (FIXNUM_TO_ULONG gap_length)).

(** A pointer that is after the gap, in the sense of [after], is moved. *)
Definition skip_gap (after : Z -> Z -> bool) (p : parser) : parser :=
  let moved q := if after q (p_gap_start p) then q + p_gap_length p else q in
  mk_parser (p_table p) (p_text p) (moved (p_start p)) (moved (p_end p)) (p_gap_start p) (p_gap_end p) (p_gap_length p).

Definition NORMAL_INITIALIZATION_FORWARD (table group start end_ : Z) : act parser :=
  p <- NORMAL_INITIALIZATION_COMMON table group start end_ ;; ret (skip_gap (fun q g => g <=? q) p).
Definition NORMAL_INITIALIZATION_BACKWARD (table group start end_ : Z) : act parser :=
  p <- NORMAL_INITIALIZATION_COMMON table group start end_ ;; ret (skip_gap (fun q g => g <? q) p).

Definition ending_value (p : parser) (e : ending) : act Z :=
  match e with
  | Win start => ret (LONG_TO_UNSIGNED_FIXNUM (SCAN_TO_INDEX (p_gap_start p) (p_gap_length p) start))
  | Lose => ret SHARP_F
  | No_end => leave No_fuel
  end.

Definition scan_value (p : parser) (e : scan unit) : act Z :=
  match e with inl _ => leave No_fuel | inr e => ending_value p e end.

Definition Prim_quoted_char_p (table group start end_ : Z) : act Z :=
  p <- NORMAL_INITIALIZATION_BACKWARD table group start end_ ;;
  match RIGHT_QUOTED_P (p_table p) (p_text p) (p_gap_start p) (p_gap_end p) (p_end p) fuel (p_start p) with
  | inl quoted => ret (BOOLEAN_TO_OBJECT quoted)
  | inr e => ending_value p e
  end.

Definition Prim_scan_backward_prefix_chars (table group start end_ : Z) : act Z :=
  p <- NORMAL_INITIALIZATION_BACKWARD table group start end_ ;;
  scan_value p (scan_backward_prefix_chars (p_table p) (p_text p) (p_gap_start p) (p_gap_end p) (p_end p) fuel fuel (p_start p)).
Definition Prim_scan_forward_prefix_chars (table group start end_ : Z) : act Z :=
  p <- NORMAL_INITIALIZATION_FORWARD table group start end_ ;;
  scan_value p (scan_forward_prefix_chars (p_table p) (p_text p) (p_gap_start p) (p_gap_end p) (p_end p) fuel fuel (p_start p)).
Definition Prim_scan_forward_to_word (table group start end_ : Z) : act Z :=
  p <- NORMAL_INITIALIZATION_FORWARD table group start end_ ;;
  scan_value p (scan_forward_to_word (p_table p) (p_text p) (p_gap_start p) (p_gap_end p) (p_end p) fuel (p_start p)).
Definition Prim_scan_word_forward (table group start end_ : Z) : act Z :=
  p <- NORMAL_INITIALIZATION_FORWARD table group start end_ ;;
  scan_value p (scan_word_forward (p_table p) (p_text p) (p_gap_start p) (p_gap_end p) (p_end p) fuel (p_start p)).
Definition Prim_scan_word_backward (table group start end_ : Z) : act Z :=
  p <- NORMAL_INITIALIZATION_BACKWARD table group start end_ ;;
  scan_value p (scan_word_backward (p_table p) (p_text p) (p_gap_start p) (p_gap_end p) (p_end p) fuel (p_start p)).

Definition initial_min_depth (depth : Z) : Z := if 0 <=? depth then 0 else depth.
Definition BOOLEAN_ARG (object : Z) : bool := negb (object =? SHARP_F).
Definition integer_arg (n object : Z) : act Z := arg memory_base (IntPrim.arg_integer n) object.

Definition Prim_scan_list_forward (table group start end_ depth sexp_flag ignore_comments : Z) : act Z :=
  p <- NORMAL_INITIALIZATION_FORWARD table group start end_ ;;
  depth <- integer_arg 5 depth ;;
  scan_value p (scan_list_forward (p_table p) (p_text p) (p_gap_start p) (p_gap_end p) (p_end p) fuel
    (initial_min_depth depth) (BOOLEAN_ARG sexp_flag) fuel (p_start p, depth, false)).

Definition Prim_scan_list_backward (table group start end_ depth sexp_flag ignore_comments : Z) : act Z :=
  p <- NORMAL_INITIALIZATION_BACKWARD table group start end_ ;;
  depth <- integer_arg 5 depth ;;
  scan_value p (scan_list_backward (p_table p) (p_text p) (p_gap_start p) (p_gap_end p) (p_end p) fuel
    (initial_min_depth depth) (BOOLEAN_ARG sexp_flag) (BOOLEAN_ARG ignore_comments) fuel (p_start p, depth, false)).

Definition ssf_state_argument (object : Z) : act (option (list Z)) :=
  if object =? SHARP_F then ret None
  else if VECTOR_P object then
    n <- VECTOR_LENGTH object ;;
    if n =? 9 then
      s <- current ;; ret (Some (map (fun i => mem s (VECTOR_LOC memory_base object (Z.of_nat i))) (List.seq 0 9)))
    else error_bad_range_arg 7
  else error_bad_range_arg 7.

Fixpoint set_elements (vector i : Z) (elements : list Z) : act unit :=
  match elements with
  | [] => ret tt
  | x :: elements => VECTOR_SET memory_base vector i x ;; set_elements vector (i + 1) elements
  end.

Definition Prim_scan_sexps_forward (table group start end_ target_depth stop_before state : Z) : act Z :=
  p <- NORMAL_INITIALIZATION_FORWARD table group start end_ ;;
  target_depth <- integer_arg 5 target_depth ;;
  elements <- ssf_state_argument state ;;
  s <- current ;;
  let mark_index mark := UNSIGNED_FIXNUM_TO_LONG (mem s (VECTOR_LOC memory_base mark 2)) in
  match decode_ssf_state (p_gap_start p) (p_gap_length p) uninitialized mark_index (p_start p) target_depth elements with
  | None => error_bad_range_arg 7
  | Some _ =>
      Primitive_GC_If_Needed 9 ;;
      match scan_sexps_forward (p_table p) (p_text p) (p_gap_start p) (p_gap_end p) (p_gap_length p) (p_end p) fuel
              (BOOLEAN_ARG stop_before) uninitialized mark_index (p_start p) target_depth elements with
      | Elements elements =>
          result <- allocate_marked_vector memory_base TC_VECTOR 9 true ;;
          set_elements result 0 elements ;;
          ret result
      | Bad_range_arg n => error_bad_range_arg n
      | Runs_on => leave No_fuel
      end
  end.
End Primitives.

(** ** What the partial parser does

    Its state vector is enough to go on: to parse a text in two pieces is to
    parse it at once.  The lemmas follow the order of the argument: positions;
    which tables can be parsed in pieces; termination; the state in the middle
    of a parse; two parses that go on from states alike ([sim]); the end of a
    piece; the state as a vector. *)

(** *** Positions *)

Section Positions.
Variables gap_start gap_length : Z.
Hypothesis gap : 0 <= gap_start /\ 0 <= gap_length.
Notation gap_end := (gap_start + gap_length).

(** The pointer to the character with index [i], for scanning forward. *)
Definition ptr (i : Z) : Z := if gap_start <=? i then i + gap_length else i.

Lemma ptr_mono i j : ptr i <= ptr j <-> i <= j.
Proof using gap. unfold ptr. destruct (Z.leb_spec gap_start i), (Z.leb_spec gap_start j); lia. Qed.

Lemma ptr_inj i j : ptr i = ptr j <-> i = j.
Proof using gap. pose proof (ptr_mono i j). pose proof (ptr_mono j i). lia. Qed.

Lemma right_end_ptr e i : RIGHT_END_P (ptr e) (ptr i) = (e <=? i).
Proof using gap.
  unfold RIGHT_END_P. pose proof (ptr_mono e i). destruct (Z.leb_spec (ptr e) (ptr i)), (Z.leb_spec e i); auto; lia.
Qed.

Lemma move_right_ptr i : MOVE_RIGHT gap_start gap_end (ptr i) = ptr (i + 1).
Proof using gap.
  unfold MOVE_RIGHT, ptr. destruct (Z.leb_spec gap_start i), (Z.leb_spec gap_start (i + 1)); try lia.
  - destruct (Z.eqb_spec (i + gap_length + 1) gap_start); lia.
  - destruct (Z.eqb_spec (i + 1) gap_start); lia.
  - destruct (Z.eqb_spec (i + 1) gap_start); lia.
Qed.

Lemma index_ptr i : SCAN_TO_INDEX gap_start gap_length (ptr i) = i.
Proof using gap.
  unfold SCAN_TO_INDEX, ptr. destruct (Z.leb_spec gap_start i).
  - destruct (Z.ltb_spec gap_start (i + gap_length)); lia.
  - destruct (Z.ltb_spec gap_start i); lia.
Qed.

Lemma index_scan i : SCAN_TO_INDEX gap_start gap_length (INDEX_TO_SCAN gap_start gap_length i) = i.
Proof using gap.
  unfold SCAN_TO_INDEX, INDEX_TO_SCAN. destruct (Z.ltb_spec gap_start i).
  - destruct (Z.ltb_spec gap_start (i + gap_length)); lia.
  - destruct (Z.ltb_spec gap_start i); lia.
Qed.
End Positions.

(** ** The partial parser: which tables can be parsed in pieces *)

Definition quote_code (code : Z) : bool := (code =? syntaxcode_escape) || (code =? syntaxcode_charquote).
Definition atom_code (code : Z) : bool := (code =? syntaxcode_word) || (code =? syntaxcode_symbol).

(** A character that does nothing where it stands. *)
Definition harmless (sentry : Z) : bool :=
  let code := SYNTAX_ENTRY_CODE sentry in
  SYNTAX_ENTRY_PREFIX sentry
  || negb (quote_code code || atom_code code || (code =? syntaxcode_open) || (code =? syntaxcode_close) || (code =? syntaxcode_string)).

Notation STYLE_A_B := 255.

(** A character that comments begin with does nothing else if it begins them
    with another one, and a comment has one style. *)
Definition resumable_entry (e : Z) : bool :=
  let style := SYNTAX_ENTRY_COMMENT_STYLE e COMSTART_FIRST in
  (if SYNTAX_ENTRY_CODE e =? syntaxcode_comment then (style =? COMMENT_STYLE_A) || (style =? COMMENT_STYLE_B) else (style =? 0) || harmless e)
  && negb (SYNTAX_ENTRY_COMMENT_STYLE e COMSTART_SECOND =? STYLE_A_B).

Definition in_atoms (e : Z) : bool := quote_code (SYNTAX_ENTRY_CODE e) || atom_code (SYNTAX_ENTRY_CODE e).

(** Atoms do not begin comments, and quoting characters are no prefixes. *)
Definition divisible_entry (e : Z) : bool :=
  (if in_atoms e then SYNTAX_ENTRY_COMMENT_STYLE e COMSTART_FIRST =? 0 else true)
  && (if quote_code (SYNTAX_ENTRY_CODE e) then negb (SYNTAX_ENTRY_PREFIX e) else true).

Definition resumable (syntax_table : Z -> Z) : Prop := forall c, resumable_entry (SYNTAX_TABLE_REF syntax_table c) = true.
Definition divisible (syntax_table : Z -> Z) : Prop := forall c, divisible_entry (SYNTAX_TABLE_REF syntax_table c) = true.

Lemma style_cases e m : let st := SYNTAX_ENTRY_COMMENT_STYLE e m in
  st = 0 \/ st = COMMENT_STYLE_A \/ st = COMMENT_STYLE_B \/ st = STYLE_A_B.
Proof.
  cbn zeta. unfold SYNTAX_ENTRY_COMMENT_STYLE.
  destruct (negb (_ =? 0)), (negb (_ =? 0)); cbn; auto.
Qed.

(** ** The partial parser: termination *)

(** All cases of a step. *)
Ltac ssf_unfold :=
  unfold ssf_step, ssf_switch, SEXP_START, DONE_IF_RIGHT_END, quoted_char, open_list, close_list, end_sexp, read_right, step_right in *;
  cbn [ssf_start ssf_depth target_depth level outer_levels in_string in_comment comment_style comment_start quoted delimiter the_sentry
    set_start set_level set_in_string set_in_comment set_comment_style set_comment_start set_quoted set_delimiter set_sentry set_depths
    set_levels last previous] in *.

Ltac ssf_cases H :=
  repeat match type of H with
  | context [if ?b then _ else _] => let E := fresh "C" in destruct b eqn:E
  | context [match ?l with [] => _ | _ :: _ => _ end] => destruct l
  end.

Ltac positions :=
  repeat match goal with
  | C : (_ <=? _) = false |- _ => apply Z.leb_gt in C
  | C : (_ <=? _) = true |- _ => apply Z.leb_le in C
  | C : (_ =? _) = true |- _ => apply Z.eqb_eq in C
  | C : (_ =? _) = false |- _ => apply Z.eqb_neq in C
  end.

Section Partial.
Variable syntax_table : Z -> Z.
Variable text : Z -> Z.
Variables gap_start gap_length : Z.
Hypothesis gap : 0 <= gap_start /\ 0 <= gap_length.
Notation gap_end := (gap_start + gap_length).
Notation ptr := (ptr gap_start gap_length).
Notation step e := (ssf_step syntax_table text gap_start gap_end (ptr e) false).
Notation run e := (ssf_run syntax_table text gap_start gap_end (ptr e) false).

Definition rank (l : ssf_label) : Z :=
  match l with
  | next_char | in_comment_1 => 0
  | in_comment_3 | start_atom | start_quoted | start_in_string | start_quoted_in_string => 1
  | not_in_comment => 2
  | in_comment_2 => 3
  end.

(** A bound on the number of steps. *)
Definition steps_left (e i : Z) (l : ssf_label) : Z := 4 * Z.max 0 (e - i) + rank l.

Lemma step_moves e l s i l' s' : ssf_start s = ptr i -> step e l s = Goto l' s' ->
  exists i', ssf_start s' = ptr i' /\ i <= i' <= Z.max i e /\ steps_left e i' l' < steps_left e i l.
Proof using gap.
  intros A H. destruct s as [st de ta le ou ins inc sty cs q c se]. cbn [ssf_start] in A. subst st.
  assert (G : forall k l'', i <= k <= Z.max i e -> steps_left e k l'' < steps_left e i l ->
    exists i', ptr k = ptr i' /\ i <= i' <= Z.max i e /\ steps_left e i' l'' < steps_left e i l) by eauto.
  unfold steps_left in *.
  destruct l; ssf_unfold; rewrite ?move_right_ptr, ?right_end_ptr in H by exact gap; ssf_cases H; try discriminate;
    injection H as <- <-; ssf_unfold;
    repeat match goal with C : (_ <=? _) = false |- _ => apply Z.leb_gt in C | C : (_ <=? _) = true |- _ => apply Z.leb_le in C end;
    rewrite ?move_right_ptr by exact gap; apply G; cbn [rank]; lia.
Qed.

Inductive runs (e : Z) : ssf_label -> ssf_state -> ssf_state -> Prop :=
  | runs_done l s s' : step e l s = Done s' -> runs e l s s'
  | runs_goto l s l' s' s'' : step e l s = Goto l' s' -> runs e l' s' s'' -> runs e l s s''.

Lemma run_runs e n : forall l s s', run e n l s = Done s' -> runs e l s s'.
Proof using Type.
  induction n as [|n IH]; intros l s s' H; cbn [ssf_run] in H; destruct (step e l s) as [l1 s1 | s1 | |] eqn:E; try discriminate.
  - injection H as <-. apply runs_done, E.
  - exact (runs_goto _ _ _ _ _ _ E (IH _ _ _ H)).
  - injection H as <-. apply runs_done, E.
Qed.

Lemma runs_run e l s s' : runs e l s s' -> forall i n, ssf_start s = ptr i -> steps_left e i l < Z.of_nat n -> run e n l s = Done s'.
Proof using gap.
  induction 1 as [l s s' E | l s l' s' s'' E _ IH]; intros i n A F.
  - destruct n; cbn [ssf_run]; rewrite E; reflexivity.
  - destruct (step_moves _ _ _ _ _ _ A E) as (i' & A' & _ & D). destruct n as [|n].
    + unfold steps_left in *. pose proof (Z.le_max_l 0 (e - i)). assert (0 <= rank l) by (destruct l; cbn; lia). lia.
    + cbn [ssf_run]. rewrite E. apply (IH _ n A'). lia.
Qed.

(** With enough fuel the parser is done, or too deep. *)
Lemma run_ends e n : forall i l s, ssf_start s = ptr i -> steps_left e i l < Z.of_nat n ->
  run e n l s = Too_deep \/ exists s', run e n l s = Done s'.
Proof using gap.
  induction n as [|n IH]; intros i l s A F.
  - unfold steps_left in F. assert (0 <= rank l) by (destruct l; cbn; lia). lia.
  - cbn [ssf_run]. destruct (step e l s) as [l1 s1 | s1 | |] eqn:E; [|eauto|auto|].
    + destruct (step_moves _ _ _ _ _ _ A E) as (i' & A' & _ & D). apply (IH i'); [exact A' | lia].
    + exfalso. revert E. destruct s as [st de ta le ou ins inc sty cs q c se]. destruct l; ssf_unfold; intros E; ssf_cases E; discriminate.
Qed.

Lemma runs_same_step e l s l' s' r : step e l s = step e l' s' -> runs e l s r -> runs e l' s' r.
Proof using Type. intros E R. inversion R; subst; [apply runs_done | eapply runs_goto; [|eassumption]]; congruence. Qed.

Lemma runs_goto_inv e l s l' s' r : step e l s = Goto l' s' -> runs e l s r -> runs e l' s' r.
Proof using Type. intros E R. inversion R; subst; congruence. Qed.
End Partial.

(** ** The partial parser: its state in the middle *)

Definition one_style (style : Z) : Prop := style = COMMENT_STYLE_A \/ style = COMMENT_STYLE_B.

Section Entry.
Variable e : Z.

Lemma atom_begins_no_comment : divisible_entry e = true -> in_atoms e = true -> SYNTAX_ENTRY_COMMENT_STYLE e COMSTART_FIRST = 0.
Proof using Type. unfold divisible_entry. intros D H. rewrite H, andb_true_iff in D. destruct D as [A _]. apply Z.eqb_eq, A. Qed.

Lemma quote_no_prefix : divisible_entry e = true -> quote_code (SYNTAX_ENTRY_CODE e) = true -> SYNTAX_ENTRY_PREFIX e = false.
Proof using Type. unfold divisible_entry. intros D H. rewrite H, andb_true_iff in D. destruct D as [_ A]. apply negb_true_iff, A. Qed.

Hypothesis ok : resumable_entry e = true.

Lemma comment_one_style : SYNTAX_ENTRY_CODE e = syntaxcode_comment -> one_style (SYNTAX_ENTRY_COMMENT_STYLE e COMSTART_FIRST).
Proof using ok.
  intros H. unfold resumable_entry in ok. rewrite H in ok. rewrite andb_true_iff in ok. destruct ok as [A _].
  cbn [Z.eqb Pos.eqb] in A. apply orb_true_iff in A. rewrite !Z.eqb_eq in A. exact A.
Qed.

Lemma comment_head_harmless : SYNTAX_ENTRY_CODE e <> syntaxcode_comment -> SYNTAX_ENTRY_COMMENT_STYLE e COMSTART_FIRST <> 0 -> harmless e = true.
Proof using ok.
  intros N H. unfold resumable_entry in ok. rewrite andb_true_iff in ok. destruct ok as [A _].
  destruct (Z.eqb_spec (SYNTAX_ENTRY_CODE e) syntaxcode_comment); [contradiction|]. apply orb_true_iff in A. rewrite Z.eqb_eq in A. tauto.
Qed.

(** The style of a comment that begins with two characters. *)
Lemma second_one_style style : style = COMMENT_STYLE_A \/ style = COMMENT_STYLE_B \/ style = STYLE_A_B ->
  style & SYNTAX_ENTRY_COMMENT_STYLE e COMSTART_SECOND <> 0 -> one_style (style & SYNTAX_ENTRY_COMMENT_STYLE e COMSTART_SECOND).
Proof using ok.
  intros H N. unfold resumable_entry in ok. rewrite andb_true_iff, negb_true_iff, Z.eqb_neq in ok. destruct ok as [_ A].
  revert N. unfold one_style. destruct (style_cases e COMSTART_SECOND) as [-> | [-> | [-> | E]]]; [| | |contradiction];
    destruct H as [-> | [-> | ->]]; vm_compute; intuition congruence.
Qed.
End Entry.

Section Resume.
Variable syntax_table : Z -> Z.
Variable text : Z -> Z.
Variables gap_start gap_length : Z.
Hypothesis gap : 0 <= gap_start /\ 0 <= gap_length.
Hypothesis bytes : forall p, 0 <= text p < 256.
Hypothesis table : resumable syntax_table.
Notation gap_end := (gap_start + gap_length).
Notation ptr := (ptr gap_start gap_length).
Notation index := (SCAN_TO_INDEX gap_start gap_length).
Notation step e := (ssf_step syntax_table text gap_start gap_end (ptr e) false).
Notation runs := (runs syntax_table text gap_start gap_length).

(** The depth is at most [bound] and the characters read; [total] is the sum
    of depth and target. *)
Variables bound total : Z.

Definition being_read (l : ssf_label) : Z := match l with not_in_comment | in_comment_2 => 1 | _ => 0 end.

Definition in_a_comment (s : ssf_state) : Prop := in_string s = -1 /\ 0 <= index (comment_start s) < 2 ^ 57.

Definition label_ok (l : ssf_label) (s : ssf_state) : Prop :=
  match l with
  | next_char | start_atom | start_quoted => in_comment s = 0 /\ in_string s = -1
  | not_in_comment => in_string s = -1 /\ 0 <= delimiter s < 256
  | start_in_string | start_quoted_in_string => in_comment s = 0 /\ 0 <= in_string s < 256
  | in_comment_1 | in_comment_3 => in_a_comment s /\ one_style (comment_style s)
  | in_comment_2 =>
      in_a_comment s /\ (comment_style s = COMMENT_STYLE_A \/ comment_style s = COMMENT_STYLE_B \/ comment_style s = STYLE_A_B)
      /\ harmless (the_sentry s) = true /\ 0 <= delimiter s < 256
  end.

Record middle (i : Z) (l : ssf_label) (s : ssf_state) : Prop := {
  mi_start : ssf_start s = ptr i;
  mi_quoted : quoted s = false;
  mi_depth : Z.abs (ssf_depth s) + being_read l <= bound + i;
  mi_target : target_depth s + ssf_depth s = total;
  mi_label : label_ok l s
}.

(** The state at the end of a piece. *)
Record finished (s : ssf_state) : Prop := {
  fi_depth : Z.abs (ssf_depth s) < 2 ^ 57;
  fi_target : target_depth s + ssf_depth s = total;
  fi_string : in_string s = -1 \/ 0 <= in_string s < 256;
  fi_comment : in_comment s = 0
    \/ (in_string s = -1 /\ quoted s = false /\ 0 <= index (comment_start s) < 2 ^ 57
        /\ ((in_comment s = 1 \/ in_comment s = 3) /\ one_style (comment_style s)
            \/ in_comment s = 2 /\ (comment_style s = COMMENT_STYLE_A \/ comment_style s = COMMENT_STYLE_B \/ comment_style s = STYLE_A_B)))
}.

Lemma peek_ok p : resumable_entry (PEEK_RIGHT syntax_table text p) = true.
Proof using table. apply table. Qed.

Hypothesis bounded : Z.abs total < 2 ^ 62 /\ 0 <= bound.

Lemma middle_step e i l s l' s' : bound + e < 2 ^ 57 -> 0 <= i <= e -> middle i l s -> step e l s = Goto l' s' ->
  exists i', i <= i' <= e /\ middle i' l' s'.
Proof using gap bytes table bounded.
  intros Be Hi [A Q D T L] H. destruct s as [st de ta le ou ins inc sty cs q c se]. cbn [ssf_start quoted ssf_depth target_depth] in A, Q, D, T. subst st q.
  pose proof (peek_ok (ptr i)) as R. pose proof (bytes (ptr i)) as Bt.
  destruct l; cbn [label_ok being_read] in L, D; unfold in_a_comment in L; ssf_unfold; rewrite ?move_right_ptr, ?right_end_ptr in H by exact gap;
    ssf_cases H; try discriminate; injection H as <- <-; ssf_unfold; positions.
  all: first [exists i; split; [lia|]; constructor; [reflexivity|..] | exists (i + 1); split; [lia|]; constructor; [reflexivity|..]
             | exists (i + 1 + 1); split; [lia|]; constructor; [reflexivity|..]]; ssf_unfold; try reflexivity.
  all: cbn [being_read label_ok]; unfold in_a_comment; ssf_unfold.
  all: rewrite ?index_ptr by exact gap; rewrite ?slong_small by lia.
  all: try lia.
  all: try solve [intuition (auto; lia)].
  - split; [lia | exact (comment_one_style _ R C0)].
  - pose proof (comment_head_harmless _ R C0 C1). pose proof (style_cases (PEEK_RIGHT syntax_table text (ptr i)) COMSTART_FIRST) as St.
    cbn zeta in St. intuition (auto; lia).
  - split; [tauto|]. apply (second_one_style _ R); tauto.
Qed.

Lemma middle_done e i l s s' : bound + e < 2 ^ 57 -> 0 <= i <= e -> middle i l s -> step e l s = Done s' -> finished s'.
Proof using gap bounded.
  intros Be Hi [A Q D T L] H. destruct s as [st de ta le ou ins inc sty cs q c se]. cbn [ssf_start quoted ssf_depth target_depth] in A, Q, D, T. subst st q.
  destruct l; cbn [label_ok being_read] in L, D; unfold in_a_comment in L; ssf_unfold; rewrite ?move_right_ptr, ?right_end_ptr in H by exact gap;
    ssf_cases H; try discriminate; injection H as <-; ssf_unfold; positions; constructor; ssf_unfold; rewrite ?slong_small by lia; try lia;
    intuition auto.
Qed.

Lemma runs_finished e l s s' : bound + e < 2 ^ 57 -> runs e l s s' -> forall i, 0 <= i <= e -> middle i l s -> finished s'.
Proof using gap bytes table bounded.
  intros Be. induction 1 as [l s s' E | l s l' s' s'' E _ IH]; intros i Hi M.
  - exact (middle_done _ _ _ _ _ Be Hi M E).
  - destruct (middle_step _ _ _ _ _ _ Be Hi M E) as (i' & Hi' & M'). apply (IH i'); [lia | exact M'].
Qed.
End Resume.

(** ** The partial parser: going on from the state *)

Section Simulation.
Variable syntax_table : Z -> Z.
Variable text : Z -> Z.
Variables gap_start gap_length : Z.
Hypothesis gap : 0 <= gap_start /\ 0 <= gap_length.
Notation gap_end := (gap_start + gap_length).
Notation ptr := (ptr gap_start gap_length).
Notation index := (SCAN_TO_INDEX gap_start gap_length).
Notation step e := (ssf_step syntax_table text gap_start gap_end (ptr e) false).
Notation runs := (runs syntax_table text gap_start gap_length).

Definition heads_alike (d r : ssf_state) : Prop :=
  (the_sentry d = the_sentry r /\ delimiter d = delimiter r) \/ (harmless (the_sentry d) = true /\ harmless (the_sentry r) = true).

Definition comments_alike (d r : ssf_state) : Prop :=
  comment_style d = comment_style r /\ index (comment_start d) = index (comment_start r).

(** [r] was started in the middle, where [d] has come to. *)
Record same_core (d r : ssf_state) : Prop := {
  co_start : ssf_start r = ssf_start d;
  co_depth : ssf_depth r = ssf_depth d;
  co_target : target_depth r = target_depth d;
  co_string : in_string r = in_string d;
  co_quoted : quoted r = quoted d;
  co_levels : (length (outer_levels r) <= length (outer_levels d) <= 99)%nat
}.

(** In an atom, [r] takes what follows for a new atom. *)
Definition sim (l : ssf_label) (d : ssf_state) (l' : ssf_label) (r : ssf_state) : Prop :=
  same_core d r /\
  match l with
  | next_char | start_quoted | start_in_string | start_quoted_in_string => l' = l /\ in_comment d = 0 /\ in_comment r = 0
  | start_atom => (l' = start_atom \/ (l' = next_char /\ divisible syntax_table)) /\ in_comment d = 0 /\ in_comment r = 0
  | in_comment_1 | in_comment_3 => l' = l /\ comments_alike d r
  | in_comment_2 => l' = l /\ comments_alike d r /\ heads_alike d r
  | not_in_comment => l' = l /\ heads_alike d r
  end.

Record alike (d r : ssf_state) : Prop := {
  al_start : ssf_start r = ssf_start d;
  al_depth : ssf_depth r = ssf_depth d;
  al_string : in_string r = in_string d;
  al_quoted : quoted r = quoted d;
  al_in_comment : in_comment r = in_comment d;
  al_comment : in_comment d <> 0 -> comments_alike d r
}.

Lemma harmless_switch sentry : harmless sentry = true -> SYNTAX_ENTRY_PREFIX sentry = false ->
  let code := SYNTAX_ENTRY_CODE sentry in
  (code =? syntaxcode_escape) || (code =? syntaxcode_charquote) = false /\ (code =? syntaxcode_word) || (code =? syntaxcode_symbol) = false
  /\ (code =? syntaxcode_open) = false /\ (code =? syntaxcode_close) = false /\ (code =? syntaxcode_string) = false.
Proof using Type.
  intros H P. cbn zeta. unfold harmless in H. rewrite P in H. cbn [orb] in H. apply negb_true_iff in H.
  rewrite !orb_false_iff in H. unfold quote_code, atom_code in H. clear -H. tauto.
Qed.

Definition step_simulated (e : Z) (n : ssf_next) (l' : ssf_label) (r : ssf_state) : Prop :=
  match n with
  | Goto l2 d2 => exists l2' r2, sim l2 d2 l2' r2 /\ forall r3, runs e l2' r2 r3 -> runs e l' r r3
  | Done d2 => exists r2, alike d2 r2 /\ runs e l' r r2
  | Too_deep | Never_done => True
  end.

Lemma simulated_goto e l d l' r l2' r2 : step e l' r = Goto l2' r2 -> sim l d l2' r2 -> step_simulated e (Goto l d) l' r.
Proof using Type. intros E S. exists l2', r2. split; [exact S|]. intros r3 R. exact (runs_goto _ _ _ _ _ _ _ _ _ _ E R). Qed.

Lemma simulated_done e d l' r r2 : step e l' r = Done r2 -> alike d r2 -> step_simulated e (Done d) l' r.
Proof using Type. intros E S. exists r2. split; [exact S|]. apply runs_done, E. Qed.

Ltac conditions := repeat match goal with C : ?b = ?c |- context [?b] => match c with true => rewrite C | false => rewrite C end end.

Ltac goal_cases :=
  repeat match goal with
  | |- step_simulated _ (if ?b then _ else _) _ _ => let E := fresh "C" in destruct b eqn:E
  end.

(** The step of the other one, in the same case. *)
Ltac other_step :=
  match goal with
  | |- step_simulated _ (Done _) _ _ => eapply simulated_done; [ssf_unfold; conditions; reflexivity|]; constructor; ssf_unfold; auto
  | |- step_simulated _ (Goto _ _) _ _ => eapply simulated_goto; [ssf_unfold; conditions; reflexivity|]; split; [constructor; ssf_unfold; auto|]; ssf_unfold
  | |- step_simulated _ Too_deep _ _ => exact I
  end.

Lemma sim_comment_step e l d r : l = in_comment_1 \/ l = in_comment_2 \/ l = in_comment_3 -> sim l d l r -> step_simulated e (step e l d) l r.
Proof using Type.
  intros Hl [[A1 A2 A3 A4 A5 A6] L]. destruct d as [st de ta le ou ins inc sty cs q c se], r as [st' de' ta' le' ou' ins' inc' sty' cs' q' c' se'].
  cbn [ssf_start ssf_depth target_depth in_string quoted outer_levels in_comment] in A1, A2, A3, A4, A5, A6, L. subst st' de' ta' ins' q'.
  destruct Hl as [-> | [-> | ->]]; unfold comments_alike, heads_alike in L; ssf_unfold.
  all: destruct L as [_ L]; first [destruct L as [[<- Ix] Hd] | destruct L as [<- Ix]].
  all: goal_cases; other_step; unfold comments_alike, heads_alike; ssf_unfold; auto 6.
Qed.

Lemma sim_switch e d r : sim not_in_comment d not_in_comment r -> step_simulated e (step e not_in_comment d) not_in_comment r.
Proof using Type.
  intros [[A1 A2 A3 A4 A5 A6] [_ L]]. destruct d as [st de ta le ou ins inc sty cs q c se], r as [st' de' ta' le' ou' ins' inc' sty' cs' q' c' se'].
  cbn [ssf_start ssf_depth target_depth in_string quoted outer_levels in_comment] in A1, A2, A3, A4, A5, A6. subst st' de' ta' ins' q'.
  unfold heads_alike in L. cbn [the_sentry delimiter] in L. destruct L as [[<- <-] | [H1 H2]].
  - destruct ou as [|l1 ou], ou' as [|l1' ou']; cbn [length] in A6; try lia; ssf_unfold; goal_cases.
    all: try (other_step; auto; try (rewrite ?Z.eqb_neq in *; cbn [length] in *; lia); fail).
    all: assert (N : forall y, (Z.of_nat (length (y :: l1' :: ou')) =? 100) = false) by (intros y; rewrite Z.eqb_neq in *; cbn [length] in *; lia).
    + eapply simulated_done; [ssf_unfold; conditions; rewrite N; conditions; reflexivity|]. constructor; ssf_unfold; auto; lia.
    + eapply simulated_goto; [ssf_unfold; conditions; rewrite N; conditions; reflexivity|].
      split; [constructor; ssf_unfold; auto | ssf_unfold; auto]. rewrite Z.eqb_neq in *. cbn [length] in *. lia.
  - assert (G : forall s2, harmless (the_sentry s2) = true -> step e not_in_comment s2 = Goto next_char (set_in_comment s2 0)).
    { intros s2 Hs. cbn [ssf_step]. cbn [the_sentry set_in_comment]. destruct (SYNTAX_ENTRY_PREFIX (the_sentry s2)) eqn:P; [reflexivity|].
      destruct (harmless_switch _ Hs P) as (K1 & K2 & K3 & K4 & K5). unfold ssf_switch. cbn [the_sentry set_in_comment].
      rewrite K1, K2, K3, K4, K5. reflexivity. }
    rewrite G by exact H1. eapply simulated_goto; [apply G; exact H2|]. split; [constructor; ssf_unfold; auto | ssf_unfold; auto].
Qed.

Lemma sim_plain_step e l d r : l = next_char \/ l = start_quoted \/ l = start_in_string \/ l = start_quoted_in_string \/ l = start_atom ->
  sim l d l r -> step_simulated e (step e l d) l r.
Proof using Type.
  intros Hl [[A1 A2 A3 A4 A5 A6] L]. destruct d as [st de ta le ou ins inc sty cs q c se], r as [st' de' ta' le' ou' ins' inc' sty' cs' q' c' se'].
  cbn [ssf_start ssf_depth target_depth in_string quoted outer_levels in_comment] in A1, A2, A3, A4, A5, A6, L. subst st' de' ta' ins' q'.
  destruct Hl as [-> | [-> | [-> | [-> | ->]]]]; ssf_unfold; destruct L as (_ & -> & ->); goal_cases; other_step;
    unfold comments_alike, heads_alike; ssf_unfold; auto 6; congruence.
Qed.

Lemma sim_atom_step e d r : sim start_atom d next_char r -> step_simulated e (step e start_atom d) next_char r.
Proof using Type.
  intros S. pose proof S as [[A1 A2 A3 A4 A5 A6] [Tb [I1 I2]]]. assert (table : divisible syntax_table) by (destruct Tb as [|[_ T]]; [discriminate | exact T]). clear Tb.
  destruct d as [st de ta le ou ins inc sty cs q c se], r as [st' de' ta' le' ou' ins' inc' sty' cs' q' c' se'].
  cbn [ssf_start ssf_depth target_depth in_string quoted outer_levels in_comment] in A1, A2, A3, A4, A5, A6, I1, I2. subst st' de' ta' ins' q' inc inc'.
  pose proof (table (text st)) as R. fold (PEEK_RIGHT syntax_table text st) in R. set (p := PEEK_RIGHT syntax_table text st) in *.
  assert (Stay : forall d2, end_sexp (mk_ssf st de ta le ou ins 0 sty cs q c se) = d2 ->
    step_simulated e (Goto next_char d2) next_char (mk_ssf st de ta le' ou' ins 0 sty' cs' q c' se')).
  { intros d2 <-. exists next_char, (mk_ssf st de ta le' ou' ins 0 sty' cs' q c' se'). split; [|auto].
    split; [constructor; ssf_unfold; auto | ssf_unfold; auto]. }
  cbn [ssf_step ssf_start]. fold p. destruct (RIGHT_END_P (ptr e) st) eqn:En; [apply Stay; reflexivity|].
  (** The first step of the other one, which reads the character. *)
  assert (First : forall x, in_atoms p = true ->
    runs e not_in_comment (mk_ssf (MOVE_RIGHT gap_start gap_end st) de ta le' ou' ins 0 0 st q (text st) p) x ->
    runs e next_char (mk_ssf st de ta le' ou' ins 0 sty' cs' q c' se') x).
  { intros x Hx Rx. eapply runs_goto; [|exact Rx]. pose proof (atom_begins_no_comment _ R Hx) as Z0. ssf_unfold. rewrite En. fold p. rewrite Z0.
    destruct (SYNTAX_ENTRY_CODE p =? syntaxcode_comment) eqn:Ec; [|reflexivity].
    apply Z.eqb_eq in Ec. unfold in_atoms in Hx. rewrite Ec in Hx. discriminate. }
  fold (quote_code (SYNTAX_ENTRY_CODE p)). fold (atom_code (SYNTAX_ENTRY_CODE p)).
  destruct (quote_code (SYNTAX_ENTRY_CODE p)) eqn:Q.
  - pose proof (quote_no_prefix _ R Q) as Np.
    assert (Second : forall x, runs e start_quoted (mk_ssf (MOVE_RIGHT gap_start gap_end st) de ta (mk_level (Some (MOVE_RIGHT gap_start gap_end st)) (previous le')) ou' ins 0 0 st q (text st) p) x ->
      runs e next_char (mk_ssf st de ta le' ou' ins 0 sty' cs' q c' se') x).
    { intros x Rx. apply First; [unfold in_atoms; rewrite ?Q, ?At; reflexivity|]. eapply runs_goto; [|exact Rx]. ssf_unfold. rewrite Np. unfold quote_code in Q. rewrite Q. reflexivity. }
    ssf_unfold. destruct (RIGHT_END_P (ptr e) (MOVE_RIGHT gap_start gap_end st)) eqn:E2.
    + eexists. split; [|apply Second, runs_done; ssf_unfold; rewrite E2; reflexivity]. constructor; ssf_unfold; auto; congruence.
    + eexists start_atom, _. split; [|intros x Rx; apply Second; eapply runs_goto; [ssf_unfold; rewrite E2; reflexivity | exact Rx]].
      split; [constructor; ssf_unfold; auto | ssf_unfold; auto].
  - destruct (atom_code (SYNTAX_ENTRY_CODE p)) eqn:At; [|apply Stay; reflexivity].
    ssf_unfold. destruct (SYNTAX_ENTRY_PREFIX p) eqn:Np.
    + eexists next_char, _. split; [|intros x Rx; apply First; [unfold in_atoms; rewrite ?Q, ?At; reflexivity|]; eapply runs_goto; [ssf_unfold; rewrite Np; reflexivity | exact Rx]].
      split; [constructor; ssf_unfold; auto | ssf_unfold; auto].
    + eexists start_atom, _. split; [|intros x Rx; apply First; [unfold in_atoms; rewrite ?Q, ?At; reflexivity|]; eapply runs_goto;
        [ssf_unfold; rewrite Np; unfold quote_code in Q; unfold atom_code in At; rewrite Q, At; reflexivity | exact Rx]].
      split; [constructor; ssf_unfold; auto | ssf_unfold; auto].
Qed.

Lemma sim_step e l d l' r : sim l d l' r -> step_simulated e (step e l d) l' r.
Proof using Type.
  intros S. destruct l; try (destruct S as [K [-> L]]).
  - apply sim_plain_step; [auto | split; auto].
  - apply sim_comment_step; [auto | split; auto].
  - apply sim_comment_step; [auto | split; auto].
  - apply sim_comment_step; [auto | split; auto].
  - apply sim_switch. split; auto.
  - apply sim_plain_step; [auto | split; auto].
  - destruct S as [K [[-> | [-> T]] L]].
    + apply sim_plain_step; [auto 8 | split; auto].
    + apply sim_atom_step. split; auto.
  - apply sim_plain_step; [auto 8 | split; auto].
  - apply sim_plain_step; [auto 8 | split; auto].
Qed.

Lemma sim_runs e l d d' : runs e l d d' -> forall l' r, sim l d l' r -> exists r', alike d' r' /\ runs e l' r r'.
Proof using Type.
  induction 1 as [l d d' E | l d l1 d1 d' E _ IH]; intros l' r S; pose proof (sim_step e _ _ _ _ S) as P; rewrite E in P.
  - exact P.
  - destruct P as (l2' & r2 & S2 & Back). destruct (IH _ _ S2) as (r' & Al & R). eauto.
Qed.
End Simulation.

(** ** The partial parser: the end of a piece *)

Section Cut.
Variable syntax_table : Z -> Z.
Variable text : Z -> Z.
Variables gap_start gap_length : Z.
Hypothesis gap : 0 <= gap_start /\ 0 <= gap_length.
Hypothesis bytes : forall p, 0 <= text p < 256.
Hypothesis table : resumable syntax_table.
Notation gap_end := (gap_start + gap_length).
Notation ptr := (ptr gap_start gap_length).
Notation index := (SCAN_TO_INDEX gap_start gap_length).
Notation step e := (ssf_step syntax_table text gap_start gap_end (ptr e) false).
Notation runs := (runs syntax_table text gap_start gap_length).
Variables bound total : Z.
Hypothesis bounded : Z.abs total < 2 ^ 62 /\ 0 <= bound.
Notation middle := (middle gap_start gap_length bound total).

Definition few_levels (s : ssf_state) : Prop := (length (outer_levels s) <= 99)%nat.

Lemma few_levels_step e l s l' s' : few_levels s -> step e l s = Goto l' s' -> few_levels s'.
Proof using Type.
  clear gap bytes table bounded. intros F H. destruct s as [st de ta le ou ins inc sty cs q c se]. unfold few_levels in *. cbn [outer_levels] in F.
  destruct l; ssf_unfold; ssf_cases H; try discriminate; injection H as <- <-; ssf_unfold; auto; cbn [length] in *; try lia.
  all: match goal with C : (_ =? 100) = false |- _ => apply Z.eqb_neq in C; cbn [length] in C; lia end.
Qed.

(** [s] at [l] is where the whole parse has come to when the parse of a piece
    is done in [s1]. *)
Record at_cut (b : Z) (l : ssf_label) (s s1 : ssf_state) : Prop := {
  cu_start : ssf_start s = ptr b;
  cu_depth : ssf_depth s = ssf_depth s1;
  cu_target : target_depth s = target_depth s1;
  cu_quoted : quoted s = false;
  cu_string : in_string s = in_string s1;
  cu_levels : few_levels s;
  cu_label :
    match l with
    | next_char | start_atom => in_comment s = 0 /\ in_comment s1 = 0 /\ in_string s1 = -1 /\ quoted s1 = false
    | start_quoted => in_comment s = 0 /\ in_comment s1 = 0 /\ in_string s1 = -1 /\ quoted s1 = true
    | start_in_string => in_comment s = 0 /\ in_comment s1 = 0 /\ in_string s1 <> -1 /\ quoted s1 = false
    | start_quoted_in_string => in_comment s = 0 /\ in_comment s1 = 0 /\ in_string s1 <> -1 /\ quoted s1 = true
    | in_comment_1 => in_comment s1 = 1 /\ comment_style s = comment_style s1 /\ comment_start s = comment_start s1
    | in_comment_2 => in_comment s1 = 2 /\ comment_style s = comment_style s1 /\ comment_start s = comment_start s1 /\ harmless (the_sentry s) = true
    | in_comment_3 => in_comment s1 = 3 /\ comment_style s = comment_style s1 /\ comment_start s = comment_start s1
    | not_in_comment => False
    end
}.

(** The last step of a piece. *)
Lemma cut_done b c i l s s1 : 0 <= i <= b -> b <= c -> bound + b < 2 ^ 57 -> middle i l s -> few_levels s -> step b l s = Done s1 ->
  ssf_start s1 = ptr b -> target_depth s1 <> 0 ->
  exists l' s', (forall s3, runs c l s s3 -> runs c l' s' s3) /\ at_cut b l' s' s1.
Proof using gap bounded.
  intros Hi Hc Hb [A Q D T L] F H E N. destruct s as [st de ta le ou ins inc sty cs q ch se]. cbn [ssf_start quoted ssf_depth target_depth] in A, Q, D, T.
  subst st q. set (s := mk_ssf (ptr i) de ta le ou ins inc sty cs false ch se).
  assert (Here : ptr i = ptr b -> forall q', (exists inc', s1 = set_quoted (set_in_comment s inc') q') ->
    (match l with
     | next_char | start_atom => in_comment s1 = 0 /\ q' = false
     | start_quoted | start_quoted_in_string => in_comment s1 = 0 /\ q' = true
     | start_in_string => in_comment s1 = 0 /\ q' = false
     | in_comment_1 => in_comment s1 = 1 | in_comment_2 => in_comment s1 = 2 | in_comment_3 => in_comment s1 = 3
     | not_in_comment => False end) ->
    exists l' s', (forall s3, runs c l s s3 -> runs c l' s' s3) /\ at_cut b l' s' s1).
  { intros Eb q' [inc' ->] X. exists l, s. split; [auto|]. subst s. ssf_unfold.
    destruct l; constructor; ssf_unfold; cbn [label_ok] in L; unfold in_a_comment in L; ssf_unfold; intuition (auto; try lia). }
  assert (Sm : ptr i = ptr b <-> i = b) by apply (ptr_inj gap_start gap_length gap).
  destruct l; cbn [label_ok being_read] in L, D; unfold in_a_comment in L; subst s; ssf_unfold; rewrite ?move_right_ptr, ?right_end_ptr in H by exact gap;
    ssf_cases H; try discriminate; injection H as <-; ssf_unfold; try (exfalso; apply N; apply Z.eqb_eq; assumption).
  all: try (first [apply (Here E false) | apply (Here E true)];
    [first [exists inc; reflexivity | exists 1; reflexivity | exists 2; reflexivity | exists 3; reflexivity] | first [reflexivity | intuition auto]]; fail).
  all: try (apply (Here E true); [exists inc; reflexivity | intuition auto]; fail).
  exists start_quoted, (step_right gap_start gap_end (mk_ssf (ptr i) de ta le ou ins inc sty cs false ch se)). split.
  - intros s3. apply runs_same_step. ssf_unfold. rewrite ?move_right_ptr, ?right_end_ptr by exact gap.
    positions. destruct (Z.leb_spec c i); [lia|]. rewrite C0. reflexivity.
  - constructor; ssf_unfold; rewrite ?move_right_ptr by exact gap; intuition auto.
Qed.

(** A step that goes on in a piece goes on in the same way in the whole,
    except that the end of the piece ends an atom. *)
Lemma goto_extends b c i l s l2 s2 : b <= c -> ssf_start s = ptr i -> step b l s = Goto l2 s2 ->
  step c l s = Goto l2 s2 \/ (l = start_atom /\ b <= i /\ l2 = next_char /\ s2 = end_sexp s).
Proof using gap.
  clear bytes table bounded. intros Hc A H. destruct s as [st de ta le ou ins inc sty cs q ch se]. cbn [ssf_start] in A. subst st.
  assert (Far : forall j, (b <=? j) = false -> (c <=? j) = false) by (intros j; rewrite !Z.leb_gt; lia).
  destruct (b <=? i) eqn:Ei.
  - destruct l; ssf_unfold; rewrite ?right_end_ptr, ?Ei in H by exact gap; try discriminate; auto.
    right. injection H as <- <-. positions. auto.
  - left. pose proof (Far _ Ei) as Ej.
    destruct l; try (rewrite <- H; clear H; ssf_unfold; rewrite ?move_right_ptr, ?right_end_ptr by exact gap; rewrite ?Ei, ?Ej; reflexivity).
    ssf_unfold. rewrite ?move_right_ptr, ?right_end_ptr in H by exact gap. rewrite ?move_right_ptr, ?right_end_ptr by exact gap. rewrite Ei in H. rewrite Ej.
    destruct (_ || _); [|exact H]. destruct (b <=? i + 1) eqn:E1; [discriminate|]. rewrite (Far _ E1). exact H.
Qed.

Lemma cut_runs b c l s s1 : b <= c -> bound + b < 2 ^ 57 -> runs b l s s1 -> ssf_start s1 = ptr b -> target_depth s1 <> 0 ->
  forall i, 0 <= i <= b -> middle i l s -> few_levels s ->
  exists l' s', (forall s3, runs c l s s3 -> runs c l' s' s3) /\ at_cut b l' s' s1.
Proof using gap bytes table bounded.
  intros Hc Hb R. induction R as [l s s1 E | l s l2 s2 s1 E R IH]; intros Es N i Hi M F.
  - exact (cut_done b c i l s s1 Hi Hc Hb M F E Es N).
  - destruct (goto_extends b c i l s l2 s2 Hc (mi_start _ _ _ _ _ _ _ M) E) as [Ec | (-> & Bi & -> & ->)].
    + destruct (middle_step _ _ _ _ gap bytes table _ _ bounded _ _ _ _ _ _ Hb Hi M E) as (i' & Hi' & M').
      destruct (IH Es N i' ltac:(lia) M' (few_levels_step _ _ _ _ _ F E)) as (l' & s' & Fw & At).
      exists l', s'. split; [|exact At]. intros s3 R3. apply Fw. exact (runs_goto_inv _ _ _ _ _ _ _ _ _ _ Ec R3).
    + destruct M as [A Q D T L]. destruct s as [st de ta le ou ins inc sty cs q ch se]. cbn [ssf_start quoted label_ok in_comment in_string] in *. subst st q.
      assert (Sd : step b next_char (end_sexp (mk_ssf (ptr i) de ta le ou ins inc sty cs false ch se)) = Done (end_sexp (mk_ssf (ptr i) de ta le ou ins inc sty cs false ch se))).
      { ssf_unfold. rewrite right_end_ptr by exact gap. destruct (Z.leb_spec b i); [reflexivity | lia]. }
      inversion R as [? ? ? E1 | ? ? ? ? ? E1 _]; subst; rewrite Sd in E1; [|discriminate]. injection E1 as <-.
      eexists _, _. split; [intros s3 R3; exact R3|]. constructor; unfold few_levels in *; ssf_unfold; auto. intuition auto.
Qed.
End Cut.

(** ** The partial parser: the state as a vector *)

Lemma index_object n : 0 <= n < 2 ^ 57 -> let w := LONG_TO_UNSIGNED_FIXNUM n in
  UNSIGNED_FIXNUM_P w = true /\ UNSIGNED_FIXNUM_TO_LONG w = n /\ (w =? 0) = false /\ VectorPrim.RECORD_P w = false.
Proof.
  intros H. cbn zeta. unfold LONG_TO_UNSIGNED_FIXNUM. rewrite ulong_small by lia.
  destruct (MAKE_OBJECT_parts TC_FIXNUM n) as [Ty Dt]; [lia | lia |].
  assert (E : MAKE_OBJECT TC_FIXNUM n = fixnum n) by (rewrite MAKE_OBJECT_add by lia; unfold fixnum; rewrite Z.mod_small by lia; reflexivity).
  split; [|split; [|split]].
  - rewrite E. unfold UNSIGNED_FIXNUM_P. rewrite fixnum_P, fixnum_NEGATIVE_P by (red; lia). destruct (Z.ltb_spec n 0); [lia | reflexivity].
  - unfold UNSIGNED_FIXNUM_TO_LONG. rewrite Dt. apply slong_small. lia.
  - rewrite E. apply Z.eqb_neq. unfold fixnum. pose proof (mod58 n). lia.
  - unfold VectorPrim.RECORD_P. rewrite Ty. reflexivity.
Qed.

Lemma unsigned_fixnum_range w : UNSIGNED_FIXNUM_P w = true -> 0 <= UNSIGNED_FIXNUM_TO_LONG w < 2 ^ 57.
Proof.
  unfold UNSIGNED_FIXNUM_P, FIXNUM_NEGATIVE_P, UNSIGNED_FIXNUM_TO_LONG. rewrite andb_true_iff, !negb_true_iff, negb_false_iff, land_sign_bit.
  intros [_ H]. destruct (Z.testbit w 57) eqn:E; [discriminate|]. rewrite OBJECT_DATUM_mod. pose proof (mod58 w) as R.
  assert (T : Z.testbit (w mod 2 ^ 58) 57 = false) by (rewrite Z.mod_pow2_bits_low by lia; exact E).
  rewrite testbit57 in T by exact R. apply Z.leb_gt in T. rewrite slong_small by lia. lia.
Qed.

Lemma depth_object d : Z.abs d < 2 ^ 57 -> FIXNUM_P (LONG_TO_FIXNUM d) = true /\ FIXNUM_TO_LONG (LONG_TO_FIXNUM d) = d.
Proof. intros H. rewrite LONG_TO_FIXNUM_fixnum. split; [apply fixnum_P | apply fixnum_TO_LONG; red; lia]. Qed.

Lemma comment_object n : let w := LONG_TO_UNSIGNED_FIXNUM n in
  (n = 1 -> decode_comment w = Some (1, COMMENT_STYLE_A)) /\ (n = 2 -> decode_comment w = Some (2, COMMENT_STYLE_A))
  /\ (n = 3 -> decode_comment w = Some (3, COMMENT_STYLE_A)) /\ (n = 4 -> decode_comment w = Some (2, STYLE_A_B))
  /\ (n = 5 -> decode_comment w = Some (1, COMMENT_STYLE_B)) /\ (n = 6 -> decode_comment w = Some (2, COMMENT_STYLE_B))
  /\ (n = 7 -> decode_comment w = Some (3, COMMENT_STYLE_B)).
Proof. cbn zeta. repeat split; intros ->; vm_compute; reflexivity. Qed.

Section State.
Variables gap_start gap_length : Z.
Hypothesis gap : 0 <= gap_start /\ 0 <= gap_length.
Variable uninitialized : option Z.
Variable mark_index : Z -> Z.
Hypothesis marks : forall w, 0 <= mark_index w < 2 ^ 57.
Notation ptr := (ptr gap_start gap_length).
Notation index := (SCAN_TO_INDEX gap_start gap_length).
Notation decode := (decode_ssf_state gap_start gap_length uninitialized mark_index).
Notation encode := (encode_ssf_state gap_start gap_length).

(** The state that is decoded from that of [s]. *)
Definition restarted (start target : Z) (s : ssf_state) : ssf_state :=
  first_state uninitialized start target (ssf_depth s) (in_string s) (in_comment s)
    (if in_comment s =? 0 then COMMENT_STYLE_A else comment_style s)
    (if in_comment s =? 0 then 0 else INDEX_TO_SCAN gap_start gap_length (index (comment_start s))) (quoted s).

Lemma decode_encode_state total start target s : finished gap_start gap_length total s ->
  decode start target (Some (encode s)) = Some (restarted start target s).
Proof using Type.
  intros [D T S C]. unfold encode_ssf_state, decode_ssf_state. destruct (depth_object _ D) as [-> ->]. cbn [obind].
  assert (Es : decode_string (if in_string s =? -1 then Object.SHARP_F else LONG_TO_UNSIGNED_FIXNUM (in_string s)) = Some (in_string s)).
  { unfold decode_string. destruct (Z.eqb_spec (in_string s) (-1)) as [E | N]; [rewrite E; reflexivity|].
    destruct S as [S | S]; [contradiction|]. destruct (index_object (in_string s) ltac:(lia)) as (U & V & W & _). rewrite W, U, V.
    destruct (Z.ltb_spec (in_string s) MAX_ASCII); [reflexivity | lia]. }
  change (Object.SHARP_F) with 0 in *. rewrite Es. cbn [obind].
  assert (Ec : decode_comment (if in_comment s =? 0 then 0
      else LONG_TO_UNSIGNED_FIXNUM (if (in_comment s =? 2) && (comment_style s =? Z.lor COMMENT_STYLE_A COMMENT_STYLE_B) then 4
        else if comment_style s =? COMMENT_STYLE_A then in_comment s else in_comment s + 4))
    = Some (in_comment s, if in_comment s =? 0 then COMMENT_STYLE_A else comment_style s)).
  { pose proof (fun n => comment_object n) as K. cbn zeta in K.
    destruct C as [-> | (_ & _ & _ & [([-> | ->] & [-> | ->]) | (-> & [-> | [-> | ->]])])]; try reflexivity; cbn; apply K; reflexivity. }
  rewrite Ec. cbn [obind]. unfold restarted, BOOLEAN_TO_OBJECT.
  assert (Q : negb ((if quoted s then Object.SHARP_T else 0) =? 0) = quoted s) by (destruct (quoted s); reflexivity).
  change Object.SHARP_F with 0. rewrite Q. destruct (Z.eqb_spec (in_comment s) 0) as [E0 | N0]; cbn [negb andb obind]; [rewrite E0; reflexivity|].
  destruct C as [C | (Si & Qf & Ix & _)]; [contradiction|]. unfold decode_comment_start.
  destruct (index_object _ Ix) as (U & V & _ & R). rewrite R, U, V. cbn [obind]. rewrite Si, Qf. reflexivity.
Qed.

(** The depth that a vector of a state, or #f, says. *)
Definition depth_of (elements : option (list Z)) : Z :=
  match elements with Some (d :: _) => FIXNUM_TO_LONG d | _ => 0 end.

Lemma decode_middle a target w s0 : decode (ptr a) target w = Some s0 ->
  let bound := Z.abs (depth_of w) + 1 in
  0 <= a -> let (l, s) := first_label s0 in
  middle gap_start gap_length bound (target + depth_of w) a l s /\ few_levels s.
Proof using gap marks.
  cbn zeta. unfold decode_ssf_state. destruct w as [ws|].
  2:{ intros [= <-] Ha. unfold first_label, first_state. cbn [in_comment quoted in_string Z.eqb Pos.eqb negb].
      split; [|red; cbn; lia]. constructor; cbn [ssf_start quoted ssf_depth target_depth label_ok in_comment in_string being_read depth_of]; auto; lia. }
  destruct ws as [|depth [|string [|comment [|qu [|x1 [|x2 [|x3 [|x4 [|start [|]]]]]]]]]]; try discriminate.
  cbn [depth_of]. destruct (FIXNUM_P depth); [|discriminate]. cbn [obind]. set (d := FIXNUM_TO_LONG depth).
  destruct (decode_string string) as [ins|] eqn:Es; [|discriminate]. cbn [obind].
  destruct (decode_comment comment) as [[inc style]|] eqn:Ec; [|discriminate]. cbn [obind].
  assert (Hs : ins = -1 \/ 0 <= ins < 256).
  { unfold decode_string in Es. destruct (string =? 0); [injection Es as <-; auto|].
    destruct (UNSIGNED_FIXNUM_P string) eqn:U; [|discriminate]. pose proof (unsigned_fixnum_range _ U).
    destruct (Z.ltb_spec (UNSIGNED_FIXNUM_TO_LONG string) MAX_ASCII); [|discriminate]. cbn [andb] in Es. injection Es as <-. lia. }
  assert (Hc : inc = 0 \/ (inc = 1 \/ inc = 3) /\ one_style style \/ inc = 2 /\ (style = COMMENT_STYLE_A \/ style = COMMENT_STYLE_B \/ style = STYLE_A_B)).
  { unfold decode_comment, one_style in *. repeat (destruct (comment =? _); [injection Ec as <- <-; cbn; auto 8|]). discriminate. }
  destruct (if negb (inc =? 0) then _ else Some 0) as [cs|] eqn:Ek; [|discriminate]. cbn [obind].
  assert (Hk : inc <> 0 -> 0 <= index cs < 2 ^ 57).
  { intros N. destruct (Z.eqb_spec inc 0); [contradiction|]. cbn [negb] in Ek. unfold decode_comment_start in Ek.
    destruct (VectorPrim.RECORD_P start); [injection Ek as <-; rewrite index_scan by exact gap; apply marks|].
    destruct (UNSIGNED_FIXNUM_P start) eqn:U; [|discriminate]. injection Ek as <-. rewrite index_scan by exact gap. apply unsigned_fixnum_range, U. }
  intros H Ha. set (q := negb (qu =? 0)) in *.
  assert (Nc : inc <> 0 -> ins = -1 /\ q = false).
  { intros N. destruct (Z.eqb_spec inc 0); [contradiction|]. cbn [negb andb] in H. destruct (Z.eqb_spec ins (-1)); cbn [negb orb] in H; [|discriminate].
    destruct q; [discriminate | auto]. }
  destruct (_ && _); [discriminate|]. injection H as <-.
  unfold first_label, first_state. cbn [in_comment quoted in_string set_quoted].
  destruct (Z.eqb_spec inc 1), (Z.eqb_spec inc 2), (Z.eqb_spec inc 3); try lia.
  all: try (destruct (Nc ltac:(lia)) as [-> ->]; split; [|red; cbn; lia]; constructor; cbn; auto; try lia; unfold in_a_comment; cbn; intuition (auto; try lia)).
  assert (inc = 0) as -> by (destruct Hc as [| [[[|] _] | [? _]]]; lia).
  destruct q eqn:Eq, (Z.eqb_spec ins (-1)); cbn [negb]; (split; [|red; cbn; lia]); constructor; cbn; auto; try lia; intuition (auto; try lia).
Qed.

(** The restarted parser takes the place of the whole one at the cut. *)
Lemma restarted_sim syntax_table total b l s s1 : at_cut gap_start gap_length b l s s1 -> finished gap_start gap_length total s1 ->
  (l = start_atom -> divisible syntax_table) ->
  let (l', r) := first_label (restarted (ptr b) (target_depth s1) s1) in sim syntax_table gap_start gap_length l s l' r.
Proof using gap.
  intros [St De Ta Qu In Le La] [_ _ S C] Dv. unfold first_label, restarted, first_state. cbn [in_comment quoted in_string set_quoted].
  unfold few_levels in Le.
  destruct l; try contradiction.
  (** Outside of a comment. *)
  1, 5, 6, 7, 8: destruct La as (Is & -> & Hs & ->); cbn [Z.eqb Pos.eqb].
  1, 2, 3: rewrite Hs; cbn [Z.eqb Pos.eqb negb].
  4, 5: apply Z.eqb_neq in Hs; rewrite Hs; cbn [negb].
  1, 2, 3, 4, 5: split; [constructor; cbn; auto; try congruence; lia | cbn; auto].
  (** In a comment. *)
  all: destruct La as (Ic & Sty & Cs); rewrite Ic in *; cbn [Z.eqb Pos.eqb].
  all: destruct C as [C | (Si & Qf & _)]; [discriminate|]; rewrite Qf.
  all: split; [constructor; cbn; auto; try congruence; lia |].
  all: unfold comments_alike, heads_alike; cbn [comment_style comment_start the_sentry delimiter].
  all: try rewrite index_scan by exact gap.
  all: intuition congruence.
Qed.
End State.

(** ** The partial parser: parsing in pieces *)

Section Pieces.
Variable syntax_table : Z -> Z.
Variable text : Z -> Z.
Variables gap_start gap_length : Z.
Hypothesis gap : 0 <= gap_start /\ 0 <= gap_length.
Notation gap_end := (gap_start + gap_length).
Notation ptr := (ptr gap_start gap_length).
Notation index := (SCAN_TO_INDEX gap_start gap_length).
Notation step e := (ssf_step syntax_table text gap_start gap_end (ptr e) false).
Notation runs := (runs syntax_table text gap_start gap_length).

(** The parser is done where the depth is reached, or at the end. *)
Lemma step_done_where e l s i s' : ssf_start s = ptr i -> i <= e -> step e l s = Done s' -> target_depth s' = 0 \/ ssf_start s' = ptr e.
Proof using gap.
  intros A Hi H. destruct s as [st de ta le ou ins inc sty cs q c se]. cbn [ssf_start] in A. subst st.
  assert (End : forall k, (e <=? k) = true -> k <= e -> ptr k = ptr e).
  { intros k K1 K2. apply Z.leb_le in K1. f_equal. lia. }
  destruct l; ssf_unfold; rewrite ?move_right_ptr, ?right_end_ptr in H by exact gap; ssf_cases H; try discriminate;
    injection H as <-; ssf_unfold; rewrite ?move_right_ptr by exact gap;
    first [left; apply Z.eqb_eq; assumption | right; apply End; [assumption | positions; lia]].
Qed.

Lemma runs_where e l s s' : runs e l s s' -> forall i, ssf_start s = ptr i -> i <= e -> target_depth s' = 0 \/ ssf_start s' = ptr e.
Proof using gap.
  induction 1 as [l s s' E | l s l' s' s'' E _ IH]; intros i A Hi.
  - exact (step_done_where _ _ _ _ _ A Hi E).
  - destruct (step_moves _ _ _ _ gap _ _ _ _ _ _ A E) as (i' & A' & Hi' & _). apply (IH i' A'). lia.
Qed.

(** The elements of a state that are the same for states alike: all but
    where the last expressions and the list begin. *)
Definition same_elements (es es' : list Z) : Prop := Forall (fun i => nth i es' 0 = nth i es 0) [0; 1; 2; 3; 7; 8]%nat.

Lemma encode_alike d r : alike gap_start gap_length d r ->
  same_elements (encode_ssf_state gap_start gap_length d) (encode_ssf_state gap_start gap_length r).
Proof using Type.
  intros [A D S Q I C]. unfold same_elements, encode_ssf_state. rewrite A, D, S, Q, I.
  destruct (Z.eqb_spec (in_comment d) 0) as [_ | N]; [repeat constructor|].
  destruct (C N) as [Sty Ix]. rewrite Sty, Ix. repeat constructor.
Qed.

(** An atom that ends at the cut. *)
Lemma atom_cut b c s s1 : in_atoms (PEEK_RIGHT syntax_table text (ptr b)) = false -> at_cut gap_start gap_length b start_atom s s1 ->
  at_cut gap_start gap_length b next_char (end_sexp s) s1 /\ forall s3, runs c start_atom s s3 -> runs c next_char (end_sexp s) s3.
Proof using Type.
  intros N [A D T Q S L I]. destruct s as [st de ta le ou ins inc sty cs q ch se].
  cbn [ssf_start ssf_depth target_depth quoted in_string in_comment] in A, D, T, Q, S, I. subst st q.
  split; [constructor; unfold few_levels in *; ssf_unfold; auto|]. intros s3. apply runs_goto_inv. ssf_unfold.
  unfold in_atoms, quote_code, atom_code in N. apply orb_false_iff in N. destruct N as [N1 N2]. rewrite N1, N2.
  destruct (RIGHT_END_P _ _); reflexivity.
Qed.

Hypothesis bytes : forall p, 0 <= text p < 256.
Hypothesis table : resumable syntax_table.
Variable uninitialized : option Z.
Variable mark_index : Z -> Z.
Hypothesis marks : forall w, 0 <= mark_index w < 2 ^ 57.
Variable fuel : nat.
Notation scan e start target w :=
  (scan_sexps_forward syntax_table text gap_start gap_end gap_length (ptr e) fuel false uninitialized mark_index start target w).

(** The state of a whole parse where its first piece ends, and that from
    which a new parse begins there. *)
Lemma pieces_meet a b c target w es1 : divisible syntax_table \/ in_atoms (PEEK_RIGHT syntax_table text (ptr b)) = false ->
  0 <= a <= b -> b <= c -> Z.abs (depth_of w) + 1 + c < 2 ^ 57 -> Z.abs target <= 2 ^ 61 ->
  scan b (ptr a) target w = Elements es1 -> let target' := target + depth_of w - depth_of (Some es1) in target' <> 0 ->
  exists s0 s1 l s, decode_ssf_state gap_start gap_length uninitialized mark_index (ptr a) target w = Some s0
    /\ ssf_start (snd (first_label s0)) = ptr a
    /\ decode_ssf_state gap_start gap_length uninitialized mark_index (ptr b) target' (Some es1) = Some s1
    /\ ssf_start s = ptr b
    /\ (forall s3, runs c (fst (first_label s0)) (snd (first_label s0)) s3 -> runs c l s s3)
    /\ sim syntax_table gap_start gap_length l s (fst (first_label s1)) (snd (first_label s1)).
Proof using gap bytes table marks.
  intros Dv Ha Hc Hb Ht H target' N. unfold scan_sexps_forward in H.
  destruct (decode_ssf_state _ _ _ _ (ptr a) target w) as [s0|] eqn:D0; [|discriminate].
  pose proof (decode_middle _ _ gap _ _ marks _ _ _ _ D0 (proj1 Ha)) as M. destruct (first_label s0) as [l0 s] eqn:F0. destruct M as [M Lv].
  destruct (ssf_run _ _ _ _ _ _ fuel l0 s) as [|s1| |] eqn:R; try discriminate. injection H as <-. apply run_runs in R.
  assert (Bd : Z.abs (target + depth_of w) < 2 ^ 62 /\ 0 <= Z.abs (depth_of w) + 1) by lia.
  pose proof (runs_finished _ _ _ _ gap bytes table _ _ Bd b _ _ _ ltac:(lia) R a ltac:(lia) M) as Fi.
  assert (Et : target' = target_depth s1).
  { subst target'. unfold depth_of at 2, encode_ssf_state. rewrite (proj2 (depth_object _ (fi_depth _ _ _ _ Fi))).
    pose proof (fi_target _ _ _ _ Fi). lia. }
  pose proof (mi_start _ _ _ _ _ _ _ M) as As.
  destruct (runs_where _ _ _ _ R a As ltac:(lia)) as [Z | Es]; [congruence|].
  rewrite Et in N. destruct (cut_runs _ _ _ _ gap bytes table _ _ Bd b c _ _ _ ltac:(lia) ltac:(lia) R Es N a ltac:(lia) M Lv) as (l1 & s2 & Fw & At).
  assert (X : exists l s, (forall s3, runs c l0 (snd (first_label s0)) s3 -> runs c l s s3) /\ at_cut gap_start gap_length b l s s1
    /\ (l = start_atom -> divisible syntax_table)).
  { rewrite F0. cbn [snd]. destruct Dv as [Dv | Na]; [exists l1, s2; auto|].
    destruct l1; try (exists next_char, s2; discriminate); try (eexists _, _; split; [exact Fw | split; [exact At | discriminate]]).
    destruct (atom_cut b c s2 s1 Na At) as [At' Fw']. exists next_char, (end_sexp s2). split; [auto | split; [exact At' | discriminate]]. }
  destruct X as (l & s3 & Fw' & At' & Dv'). rewrite F0 in Fw'. cbn [snd] in Fw'.
  pose proof (restarted_sim _ _ gap uninitialized _ _ _ _ _ _ At' Fi Dv') as Sm.
  eexists s0, _, l, s3. rewrite F0. cbn [fst snd]. split; [reflexivity|]. split; [exact As|]. split; [apply (decode_encode_state _ _ _ _ _ _ _ _ Fi)|].
  split; [exact (cu_start _ _ _ _ _ _ At')|]. split; [exact Fw'|]. rewrite Et. destruct (first_label (restarted _ _ _ _ _ _)); exact Sm.
Qed.

(** C25: a partial parse can be made in pieces.  Let the buffer have a gap
    anywhere, and the syntax table be one in which what begins comments
    together with another character does nothing else, and what begins them
    alone, or as the second character, is of one style ([resumable]).  If a
    parse from [a] to [b] returns a vector before it has come to the target
    depth, then the parse from [b] to [c] that is given this vector, and the
    target depth that is left, returns what the parse from [a] to [c] returns:
    the same depth, string, comment, quotation, place, and start of the
    comment.  (The places of the last expressions and of the list around are
    not in [same_elements]: the vector says them for the caller only.)  This is
    for parses that do not stop before expressions, and the cut is not before
    a character of an atom, except in a table in which atoms begin no comments
    and quoting characters are no prefixes ([divisible]).  The parse from [a]
    to [c] may also end with an error, when more than 99 lists are open: in
    pieces the count begins again.  Depths, indices of marks and of characters
    fit in fixnums, and four steps for each character are enough. *)
Theorem scan_sexps_forward_resumes a b c target w es1 :
  divisible syntax_table \/ in_atoms (PEEK_RIGHT syntax_table text (ptr b)) = false ->
  0 <= a <= b -> b <= c -> Z.abs (depth_of w) + 1 + c < 2 ^ 57 -> Z.abs target <= 2 ^ 61 -> 4 * (c - a) + 4 <= Z.of_nat fuel ->
  scan b (ptr a) target w = Elements es1 -> let target' := target + depth_of w - depth_of (Some es1) in target' <> 0 ->
  scan c (ptr a) target w = Bad_range_arg 5
  \/ exists es es', scan c (ptr a) target w = Elements es /\ scan c (ptr b) target' (Some es1) = Elements es' /\ same_elements es es'.
Proof using gap bytes table marks.
  intros Dv Ha Hc Hb Ht Hf H target' N.
  destruct (pieces_meet a b c target w es1 Dv Ha Hc Hb Ht H N) as (s0 & s1 & l & s & D0 & As & D1 & Bs & Fw & Sm).
  unfold scan_sexps_forward. fold target' in D1. rewrite D0, D1. destruct (first_label s0) as [l0 t0], (first_label s1) as [l1 t1]. cbn [fst snd] in *.
  assert (Fl : forall i k, a <= i <= c -> steps_left c i k < Z.of_nat fuel) by (intros i k Hi; unfold steps_left; destruct k; cbn [rank]; lia).
  destruct (run_ends syntax_table text _ _ gap c fuel a l0 t0 As (Fl a l0 ltac:(lia))) as [E | [d E]]; rewrite E; [auto|]. right.
  destruct (sim_runs _ _ _ _ _ _ _ _ (Fw _ (run_runs _ _ _ _ _ _ _ _ _ E)) _ _ Sm) as (r & Al & Rr).
  rewrite (runs_run _ _ _ _ gap _ _ _ _ Rr b fuel ltac:(rewrite (co_start _ _ (proj1 Sm)); exact Bs) (Fl b l1 ltac:(lia))).
  eexists _, _. repeat split. apply encode_alike, Al.
Qed.
End Pieces.

(** ** The syntax of Scheme, as Edwin has it (src/src/edwin/schmod.scm) *)

Definition chars (s : string) : list Z := map (fun c => Z.of_N (N_of_ascii c)) (list_ascii_of_string s).

(** The descriptions of the entries of the characters below 128 that are no
    letters, digits or controls. *)
Definition scheme_mode : list (Z * list Z) :=
  [(10, chars "> "); (32, chars " "); (33, chars "_"); (34, [34; 32]); (35, chars "_ p14"); (36, chars "_"); (37, chars "_");
   (38, chars "_"); (39, chars "  p"); (40, chars "()"); (41, chars ")("); (42, chars "_"); (43, chars "_"); (44, chars "  p");
   (45, chars "_"); (46, chars "_"); (47, chars "_"); (58, chars "_"); (59, chars "< "); (60, chars "_"); (61, chars "_");
   (62, chars "_"); (63, chars "_"); (64, chars "_ p"); (91, chars "(]"); (92, chars "\ "); (93, chars ")["); (94, chars "_");
   (95, chars "_"); (96, chars "  p"); (123, chars "(}"); (124, [34; 32; 50; 51]); (125, chars "){"); (126, chars ".")].

Definition description (c : Z) : list Z :=
  match find (fun p => fst p =? c) scheme_mode with
  | Some (_, d) => d
  | None => if (c <? 48) || (c =? 127) then [] else chars "w"
  end.

Definition scheme_syntax_table (c : Z) : Z := match string_to_syntax_entry (description c) with Some e => e | None => 0 end.

Lemma table_checked (ok : Z -> bool) table : forallb (fun c => ok (table (Z.of_nat c))) (List.seq 0 256) = true ->
  forall c, ok (SYNTAX_TABLE_REF table c) = true.
Proof.
  intros H c. unfold SYNTAX_TABLE_REF. rewrite forallb_forall in H. change 255 with (Z.ones 8). rewrite Z.land_ones by lia.
  pose proof (Z.mod_pos_bound c (2 ^ 8) eq_refl) as B. rewrite <- (Z2Nat.id (c mod 2 ^ 8)) by lia. apply H, in_seq. lia.
Qed.

(** Comments that begin with a semicolon and with #| can be parsed in pieces,
    but an atom may go on with the # where a new parse finds a comment. *)
Lemma scheme_table_resumable : resumable scheme_syntax_table.
Proof. intros c. apply (table_checked resumable_entry scheme_syntax_table). vm_compute. reflexivity. Qed.

Lemma scheme_table_not_divisible : ~ divisible scheme_syntax_table.
Proof. intros D. specialize (D 35). vm_compute in D. discriminate. Qed.

(** [text] in a buffer with a gap of 10 characters before the character [gap_start]. *)
Definition buffer (text : list Z) (gap_start p : Z) : Z := Z.max 0 (Z.min 255 (nth (Z.to_nat (if gap_start + 10 <=? p then p - 10 else p)) text 0)).

Lemma buffer_bytes text gap_start p : 0 <= buffer text gap_start p < 256.
Proof. unfold buffer. lia. Qed.

Definition scan_buffer (text : list Z) (gap_start e start target : Z) (state : option (list Z)) : ssf_result :=
  scan_sexps_forward scheme_syntax_table (buffer text gap_start) gap_start (gap_start + 10) 10 (ptr gap_start 10 e) 200 false None
    (fun _ => 0) (ptr gap_start 10 start) target state.

(** [(define x #|one|# 1)]; the cut is between # and the bar. *)
Definition commented : list Z := chars "(define x #|one|# 1)".

(** The state where the piece ends: a list is open, and after # a comment may begin. *)
Definition state_in_the_middle : list Z := [fixnum 1; 0; fixnum 6; 0; fixnum 8; fixnum 8; fixnum 0; fixnum 11; fixnum 10].

Lemma scan_sexps_forward_resumes_witness :
  scan_buffer commented 4 11 0 5 None = Elements state_in_the_middle
  /\ scan_buffer commented 4 20 0 5 None = Elements [fixnum 0; 0; 0; 0; fixnum 0; fixnum 0; 0; fixnum 20; 0]
  /\ (scan_buffer commented 4 20 0 5 None = Bad_range_arg 5
      \/ exists es es', scan_buffer commented 4 20 0 5 None = Elements es
          /\ scan_buffer commented 4 20 11 4 (Some state_in_the_middle) = Elements es' /\ same_elements es es').
Proof.
  split; [vm_compute; reflexivity|]. split; [vm_compute; reflexivity|].
  apply (scan_sexps_forward_resumes scheme_syntax_table (buffer commented 4) 4 10 ltac:(lia) (buffer_bytes commented 4)
    scheme_table_resumable None (fun _ => 0) ltac:(intros; lia) 200 0 11 20 5 None state_in_the_middle).
  - right. vm_compute. reflexivity.
  - lia.
  - lia.
  - vm_compute. reflexivity.
  - vm_compute. discriminate.
  - vm_compute. discriminate.
  - vm_compute. reflexivity.
  - vm_compute. discriminate.
Defined.

(** A cut in an atom, before #|: parsed at once, # belongs to the atom and the
    bar begins a string; in pieces, they begin a comment. *)
Example cut_before_comment :
  let text := chars "a#|b" in
  exists es1, scan_buffer text 4 1 0 5 None = Elements es1
    /\ scan_buffer text 4 4 0 5 None = Elements [fixnum 0; fixnum 124; 0; 0; fixnum 2; fixnum 0; 0; fixnum 4; 0]
    /\ scan_buffer text 4 4 1 5 (Some es1) = Elements [fixnum 0; 0; fixnum 5; 0; 0; 0; 0; fixnum 4; fixnum 1].
Proof. eexists. split; [vm_compute; reflexivity|]. split; vm_compute; reflexivity. Qed.

(** *** Texts on which the scanners go wrong *)


(** The quote that a backslash quotes is no prefix, as going backward finds,
    but [RIGHT_QUOTED_P] compares with the wrong end when it goes forward. *)
Example quoted_prefix_forward :
  let text := chars "\'a" in
  scan_backward_prefix_chars scheme_syntax_table (buffer text 100) 100 110 0 50 50 2 = ends (Win 2)
  /\ scan_forward_prefix_chars scheme_syntax_table (buffer text 100) 100 110 3 50 50 1 = ends (Win 2).
Proof. split; vm_compute; reflexivity. Qed.

(** The comments that end with a newline are not ignored on the way back: the
    style of the newline is looked for among the bits for second characters. *)
Example comment_not_ignored :
  let text := chars "(a ;)" ++ [10] in
  scan_list_backward scheme_syntax_table (buffer text 100) 100 110 0 50 0 true true 50 (6, 1, false) = ends Lose
  /\ scan_list_backward scheme_syntax_table (buffer text 100) 100 110 0 50 0 true true 50 (3, 1, false) = ends (Win 0).
Proof. split; vm_compute; reflexivity. Qed.

(** A comment that does not end is followed beyond the end of the text. *)
Example comment_beyond_end :
  let text := chars "(;a" in
  scan_list_forward scheme_syntax_table (buffer text 100) 100 110 3 50 0 true 50 (0, 0, false) = ends No_end.
Proof. vm_compute. reflexivity. Qed.
