(* ===== verification/Bytes.v ===== *)
(** * Bytes in memory (for string.c, bytevector.c and primutl.c)

    A byte address is eight times a word address and a number below 8; words
    are little-endian.  A store of a byte changes that byte and no other. *)

From Stdlib Require Import ZArith List Lia Bool.
From S2P Require Import Prelude.
From S2P Require Import Object.
From S2P Require Import Memory.
From S2P Require Import Symbol.
Import ListNotations.

(** [*p = b] for a pointer to [unsigned char]. *)
Definition set_byte (m : memory) (p b : Z) : memory :=
  let k := 8 * (p mod 8) in
  store m (p / 8) ((m (p / 8) & Z.lnot (Z.shiftl 255 k)) .| Z.shiftl (b & 255) k).

(** [memcpy] of bytes that are not in the memory. *)
Fixpoint set_bytes (m : memory) (p : Z) (bytes : list Z) : memory :=
  match bytes with [] => m | b :: bytes => set_bytes (set_byte m p b) (p + 1) bytes end.

Definition is_byte (b : Z) : Prop := 0 <= b < 256.

Lemma land_255_range z : is_byte (z & 255).
Proof. change 255 with (2 ^ 8 - 1). rewrite land_mask by lia. apply Z.mod_pos_bound. lia. Qed.

Lemma land_255_byte b : is_byte b -> b & 255 = b.
Proof. intros H. change 255 with (2 ^ 8 - 1). rewrite land_mask by lia. apply Z.mod_small. exact H. Qed.

Lemma byte_at_range m p : is_byte (byte_at m p).
Proof. apply land_255_range. Qed.

Lemma testbit_255 i : 0 <= i -> Z.testbit 255 i = (i <? 8).
Proof. intros H. change 255 with (Z.ones 8). apply Z.testbit_ones_nonneg; lia. Qed.

Lemma byte_bit m p i : 0 <= i -> Z.testbit (byte_at m p) i = (i <? 8) && Z.testbit (m (p / 8)) (8 * (p mod 8) + i).
Proof.
  intros H. unfold byte_at. pose proof (Z.mod_pos_bound p 8 ltac:(lia)).
  rewrite Z.land_spec, testbit_255 by exact H. rewrite Z.shiftr_spec by exact H. rewrite andb_comm.
  f_equal. f_equal. lia.
Qed.

Lemma set_byte_bit m p b j : 0 <= j ->
  Z.testbit (set_byte m p b (p / 8)) j
  = if (8 * (p mod 8) <=? j) && (j <? 8 * (p mod 8) + 8) then Z.testbit b (j - 8 * (p mod 8)) else Z.testbit (m (p / 8)) j.
Proof.
  intros H. unfold set_byte. rewrite store_same. pose proof (Z.mod_pos_bound p 8 ltac:(lia)).
  set (k := 8 * (p mod 8)) in *.
  rewrite Z.lor_spec, Z.land_spec, Z.lnot_spec, !Z.shiftl_spec, Z.land_spec by lia.
  destruct (Z.leb_spec k j) as [L | L].
  - rewrite testbit_255 by lia. destruct (Z.ltb_spec j (k + 8)), (Z.ltb_spec (j - k) 8); try lia; cbn [negb andb].
    + rewrite andb_false_r, orb_false_l, andb_true_r. reflexivity.
    + rewrite andb_true_r, andb_false_r, orb_false_r. reflexivity.
  - rewrite !(Z.testbit_neg_r _ (j - k)) by lia. cbn [negb andb]. rewrite andb_true_r, orb_false_r. reflexivity.
Qed.

Lemma byte_at_set_byte m p b q : byte_at (set_byte m p b) q = if q =? p then b & 255 else byte_at m q.
Proof.
  pose proof (Z.mod_pos_bound p 8 ltac:(lia)). pose proof (Z.mod_pos_bound q 8 ltac:(lia)).
  pose proof (Z.div_mod p 8 ltac:(lia)). pose proof (Z.div_mod q 8 ltac:(lia)).
  destruct (Z.eqb_spec q p) as [-> | N].
  - apply Z.bits_inj'. intros i Hi. rewrite byte_bit, set_byte_bit, Z.land_spec, testbit_255 by lia. rewrite andb_comm.
    destruct (Z.ltb_spec i 8); [|rewrite !andb_false_r; reflexivity]. rewrite !andb_true_r.
    destruct (Z.leb_spec (8 * (p mod 8)) (8 * (p mod 8) + i)); [|lia].
    destruct (Z.ltb_spec (8 * (p mod 8) + i) (8 * (p mod 8) + 8)); [|lia]. cbn [andb]. f_equal. lia.
  - destruct (Z.eq_dec (q / 8) (p / 8)) as [E | E].
    + apply Z.bits_inj'. intros i Hi. rewrite !byte_bit by lia. destruct (Z.ltb_spec i 8); [|reflexivity]. cbn [andb].
      rewrite E, set_byte_bit by lia.
      destruct (Z.leb_spec (8 * (p mod 8)) (8 * (q mod 8) + i)), (Z.ltb_spec (8 * (q mod 8) + i) (8 * (p mod 8) + 8)); cbn [andb]; auto; lia.
    + unfold byte_at at 1, set_byte. rewrite store_other by exact E. reflexivity.
Qed.

(** A word without the byte is not changed. *)
Lemma set_byte_word m p b a : a <> p / 8 -> set_byte m p b a = m a.
Proof. intros H. apply store_other, H. Qed.

Lemma byte_at_set_bytes bytes : forall m p q,
  byte_at (set_bytes m p bytes) q
  = if (p <=? q) && (q <? p + Z.of_nat (length bytes)) then nth (Z.to_nat (q - p)) bytes 0 & 255 else byte_at m q.
Proof.
  induction bytes as [|b bytes IH]; intros m p q; cbn [set_bytes length].
  - destruct (Z.leb_spec p q), (Z.ltb_spec q (p + Z.of_nat 0)); cbn [andb]; auto; lia.
  - rewrite IH, byte_at_set_byte, Nat2Z.inj_succ.
    destruct (Z.leb_spec (p + 1) q), (Z.ltb_spec q (p + 1 + Z.of_nat (length bytes))), (Z.leb_spec p q),
      (Z.ltb_spec q (p + Z.succ (Z.of_nat (length bytes)))), (Z.eqb_spec q p); cbn [andb]; try lia; auto.
    + replace (Z.to_nat (q - p)) with (S (Z.to_nat (q - (p + 1)))) by lia. reflexivity.
    + subst. rewrite Z.sub_diag. reflexivity.
Qed.

Lemma set_bytes_word bytes : forall m p a, a < p / 8 \/ (p + Z.of_nat (length bytes) - 1) / 8 < a \/ bytes = [] ->
  set_bytes m p bytes a = m a.
Proof.
  induction bytes as [|b bytes IH]; intros m p a H; cbn [set_bytes]; [reflexivity|]. cbn [length] in H. rewrite Nat2Z.inj_succ in H.
  pose proof (Z.div_le_mono p (p + 1) 8 ltac:(lia) ltac:(lia)).
  pose proof (Z.div_le_mono p (p + Z.succ (Z.of_nat (length bytes)) - 1) 8 ltac:(lia) ltac:(lia)).
  destruct H as [H | [H | H]]; [| |discriminate].
  - rewrite IH by lia. apply set_byte_word. lia.
  - rewrite IH; [apply set_byte_word; lia|]. right. left.
    replace (p + 1 + Z.of_nat (length bytes) - 1) with (p + Z.succ (Z.of_nat (length bytes)) - 1) by lia. exact H.
Qed.

Lemma bytes_at_ext m m' p n : (forall q, p <= q < p + n -> byte_at m' q = byte_at m q) -> bytes_at m' p n = bytes_at m p n.
Proof. intros H. unfold bytes_at. apply map_ext_in. intros i Hi%in_seq. apply H. lia. Qed.

Lemma bytes_at_word m m' p n : (forall a, p / 8 <= a <= (p + n - 1) / 8 -> m' a = m a) -> bytes_at m' p n = bytes_at m p n.
Proof.
  intros H. apply bytes_at_ext. intros q Hq. unfold byte_at. rewrite H; [reflexivity|].
  split; apply Z.div_le_mono; lia.
Qed.

Lemma length_bytes_at m p n : length (bytes_at m p n) = Z.to_nat n.
Proof. unfold bytes_at. rewrite length_map, length_seq. reflexivity. Qed.

Lemma nth_bytes_at m p n i : 0 <= i < n -> nth (Z.to_nat i) (bytes_at m p n) 0 = byte_at m (p + i).
Proof.
  intros H. unfold bytes_at. rewrite nth_indep with (d' := (fun k : nat => byte_at m (p + Z.of_nat k)) O) by (rewrite length_map, length_seq; lia).
  rewrite (map_nth (fun k => byte_at m (p + Z.of_nat k))), seq_nth by lia. f_equal. lia.
Qed.

(** Bytes stored and read again. *)
Lemma bytes_at_set_bytes m p bytes : Forall is_byte bytes -> bytes_at (set_bytes m p bytes) p (Z.of_nat (length bytes)) = bytes.
Proof.
  intros F. apply (nth_ext _ _ 0 0); [rewrite length_bytes_at; lia|]. intros i Hi. rewrite length_bytes_at in Hi.
  rewrite <- (Nat2Z.id i), nth_bytes_at, byte_at_set_bytes by lia.
  destruct (Z.leb_spec p (p + Z.of_nat i)); [|lia]. destruct (Z.ltb_spec (p + Z.of_nat i) (p + Z.of_nat (length bytes))); [|lia].
  cbn [andb]. replace (Z.to_nat (p + Z.of_nat i - p)) with i by lia. rewrite Nat2Z.id.
  apply land_255_byte. rewrite Forall_forall in F. apply F, nth_In. lia.
Qed.

Lemma bytes_at_app m p n1 n2 : 0 <= n1 -> 0 <= n2 -> bytes_at m p (n1 + n2) = bytes_at m p n1 ++ bytes_at m (p + n1) n2.
Proof.
  intros H1 H2. apply (nth_ext _ _ 0 0); [rewrite length_app, !length_bytes_at; lia|]. intros i Hi. rewrite length_bytes_at in Hi.
  rewrite <- (Nat2Z.id i), nth_bytes_at by lia. destruct (Z.lt_ge_cases (Z.of_nat i) n1).
  - rewrite app_nth1 by (rewrite length_bytes_at; lia). rewrite nth_bytes_at by lia. reflexivity.
  - rewrite app_nth2 by (rewrite length_bytes_at; lia). rewrite length_bytes_at.
    replace (Z.to_nat (Z.of_nat i) - Z.to_nat n1)%nat with (Z.to_nat (Z.of_nat i - n1)) by lia.
    rewrite nth_bytes_at by lia. f_equal. lia.
Qed.
