(* ===== verification/ExtString.v ===== *)
(** * External strings (src/src/microcode/string.c)

    An external string is a block that [malloc] gives, known to Scheme by its
    address; a string of the heap can be given in its place.  A hash table has
    a record of each, so that an integer that Scheme
    passes can be checked.  A chain of records is a list here: each record is in
    one chain.  [malloc] is a parameter, applied to the number of the call, the
    blocks that are in use and the size; it gives 0 when it fails.

    Whatever [malloc] does, the table holds the records that were inserted and
    not deleted, each in its bucket; the table grows and shrinks with them, as
    far as [malloc] lets it, and the recursion between insertion and growth
    ends. *)

From Stdlib Require Import ZArith List Lia Bool Permutation.
From S2P Require Import Prelude.
From S2P Require Import Memory.
From S2P Require Import Heap.
From S2P Require Import Symbol.
From S2P Require Import Bignum.
From S2P Require Import BignumSpec.
From S2P Require Import Object.
From S2P Require Import Integer.
From S2P Require Import IntPrim.
Import ListNotations.

(** A record is at an address, and the bytes of its string follow it. *)
Record ht_record := mk_record { address : Z; HT_RECORD_N_BYTES : Z }.

Notation SIZEOF_HT_RECORD := 16.
Notation SIZEOF_HASH_TABLE := 24.
Notation SIZEOF_POINTER := 8.
Definition HT_RECORD_KEY (record : ht_record) : Z := address record + SIZEOF_HT_RECORD.

Record hash_table := mk_table {
  HT_N_RECORDS : Z;
  HT_N_BUCKETS : Z;
  buckets_block : Z;
  HT_BUCKETS : list (list ht_record)
}.

Record ext_state := mk_ext { external_strings : option hash_table; blocks : list Z; calls : nat }.

Definition set_table (s : ext_state) (t : hash_table) : ext_state := mk_ext (Some t) (blocks s) (calls s).

(** ** The monad *)

Inductive ext_result (A : Type) :=
  | Value (a : A) (s : ext_state)
  | Error (e : prim_error) (s : ext_state)
  | Aborted
  | Undefined_store
  | No_fuel.
Arguments Value {A}.
Arguments Error {A}.
Arguments Aborted {A}.
Arguments Undefined_store {A}.
Arguments No_fuel {A}.

Definition ext (A : Type) : Type := ext_state -> ext_result A.

Definition ret {A} (a : A) : ext A := fun s => Value a s.
Definition bind {A B} (e : ext A) (k : A -> ext B) : ext B := fun s =>
  match e s with
  | Value a s' => k a s'
  | Error e s' => Error e s'
  | Aborted => Aborted
  | Undefined_store => Undefined_store
  | No_fuel => No_fuel
  end.
Definition of_prim {A} (p : prim A) : ext A := fun s =>
  match p with PRIMITIVE_RETURN a => Value a s | PRIMITIVE_ERROR e => Error e s end.
Definition error {A} (e : prim_error) : ext A := fun s => Error e s.
Definition abort {A} : ext A := fun _ => Aborted.
Definition update (f : ext_state -> ext_state) : ext unit := fun s => Value tt (f s).

Declare Scope ext_scope.
Delimit Scope ext_scope with ext.
Notation "x <- e ;; k" := (bind e (fun x => k))
  (at level 61, e at next level, right associativity) : ext_scope.
Notation "e ;; k" := (bind e (fun _ => k)) (at level 61, right associativity) : ext_scope.

(** ** Sizes *)

Notation HT_MIN_EXPT := 4.
Notation HT_MAX_EXPT := 24.
Definition EXPT_TO_N (e : Z) : Z := 2 ^ e - 1.

(** What the variable [e] of the loops runs through. *)
Definition exponents : list Z := map (fun k => HT_MIN_EXPT + Z.of_nat k) (seq 0 21).

Definition HT_BUCKET_INDEX (table : hash_table) (key : Z) : Z := key mod HT_N_BUCKETS table.
Definition HT_SHRINK_POINT (table : hash_table) : Z := (HT_N_BUCKETS table + 1) / 2 - 1.
Definition HT_BUCKET_REF (table : hash_table) (index : Z) : list ht_record :=
  nth (Z.to_nat index) (HT_BUCKETS table) [].

Fixpoint replace_nth {A} (l : list A) (n : nat) (x : A) : list A :=
  match l, n with
  | [], _ => []
  | _ :: l, O => x :: l
  | y :: l, S n => y :: replace_nth l n x
  end.

Definition set_bucket (table : hash_table) (index : Z) (chain : list ht_record) : hash_table :=
  mk_table (HT_N_RECORDS table) (HT_N_BUCKETS table) (buckets_block table)
    (replace_nth (HT_BUCKETS table) (Z.to_nat index) chain).
Definition set_n_records (table : hash_table) (n : Z) : hash_table :=
  mk_table n (HT_N_BUCKETS table) (buckets_block table) (HT_BUCKETS table).

Definition zero_ht_buckets (n : Z) : list (list ht_record) := repeat [] (Z.to_nat n).

(** Each record is put in front of those before it. *)
Definition ht_records_list (table : hash_table) : list ht_record :=
  fold_left (fun result chain => fold_left (fun result record => record :: result) chain result)
    (HT_BUCKETS table) [].

Definition ht_lookup (table : hash_table) (key : Z) : option ht_record :=
  find (fun record => HT_RECORD_KEY record =? key) (HT_BUCKET_REF table (HT_BUCKET_INDEX table key)).

(** The first record with the key and the chain without it. *)
Fixpoint unlink (key : Z) (chain : list ht_record) : option (ht_record * list ht_record) :=
  match chain with
  | [] => None
  | record :: chain =>
      if HT_RECORD_KEY record =? key then Some (record, chain)
      else match unlink key chain with Some (r, chain) => Some (r, record :: chain) | None => None end
  end.

Section Table.
Local Open Scope ext_scope.
Variable malloc_ : nat -> list Z -> Z -> Z.

Definition malloc (size : Z) : ext Z := fun s =>
  let p := malloc_ (calls s) (blocks s) size in
  Value p (mk_ext (external_strings s) (if p =? 0 then blocks s else p :: blocks s) (S (calls s))).

Definition free (p : Z) : ext unit :=
  update (fun s => mk_ext (external_strings s) (remove Z.eq_dec p (blocks s)) (calls s)).

Definition make_hash_table : ext hash_table :=
  let n := EXPT_TO_N HT_MIN_EXPT in
  table <- malloc SIZEOF_HASH_TABLE ;;
  if table =? 0 then abort
  else
    buckets <- malloc (n * SIZEOF_POINTER) ;;
    if buckets =? 0 then abort
    else ret (mk_table 0 n buckets (zero_ht_buckets n)).

Fixpoint insert_records (ht_insert : hash_table -> ht_record -> ext hash_table)
  (table : hash_table) (records : list ht_record) : ext hash_table :=
  match records with
  | [] => ret table
  | record :: records =>
      table <- ht_insert table record ;; insert_records ht_insert table records
  end.

(** The old array of buckets is not freed. *)
Definition ht_resize (ht_insert : hash_table -> ht_record -> ext hash_table)
  (table : hash_table) (new_n_buckets : Z) : ext hash_table :=
  new_buckets <- malloc (new_n_buckets * SIZEOF_POINTER) ;;
  if new_buckets =? 0 then ret table
  else
    insert_records ht_insert
      (mk_table 0 new_n_buckets new_buckets (zero_ht_buckets new_n_buckets))
      (ht_records_list table).

(** The key that C returns is that of the record. *)
Fixpoint ht_insert (fuel : nat) (table : hash_table) (record : ht_record) : ext hash_table :=
  match fuel with
  | O => fun _ => No_fuel
  | S fuel =>
      let index := HT_BUCKET_INDEX table (HT_RECORD_KEY record) in
      let table := set_bucket table index (HT_BUCKET_REF table index ++ [record]) in
      let table := set_n_records table (HT_N_RECORDS table + 1)%UL in
      if (HT_N_BUCKETS table <=? HT_N_RECORDS table) && (HT_N_BUCKETS table <? EXPT_TO_N HT_MAX_EXPT)
      then
        match find (fun e => HT_N_BUCKETS table <? EXPT_TO_N e) exponents with
        | Some e => ht_resize (ht_insert fuel) table (EXPT_TO_N e)
        | None => ret table
        end
      else ret table
  end.

Definition ht_delete (fuel : nat) (table : hash_table) (key : Z) : ext (option ht_record * hash_table) :=
  let index := HT_BUCKET_INDEX table key in
  match unlink key (HT_BUCKET_REF table index) with
  | None => ret (None, table)
  | Some (record, chain) =>
      let table := set_bucket table index chain in
      let table := set_n_records table (HT_N_RECORDS table - 1)%UL in
      table <-
        (if (HT_N_RECORDS table <? HT_SHRINK_POINT table) && (EXPT_TO_N HT_MIN_EXPT <? HT_N_BUCKETS table)
         then
           match find (fun e => EXPT_TO_N e <? HT_N_BUCKETS table) (rev exponents) with
           | Some e => ht_resize (ht_insert fuel) table (EXPT_TO_N e)
           | None => ret table
           end
         else ret table) ;;
      ret (Some record, table)
  end.

(** ** The primitives *)

Variable fuel : nat.
(** The heap, which the primitives do not change. *)
Variable memory_base : Z.
Variable heap : machine.
Context {B : Type} {ops : BignumOps B}.
Notation SCHEME_OBJECT := (object B).

(** Code that only reads the heap; [string_p] and [STRING_LENGTH] do not
    leave. *)
Definition of_heap {A} (e : act A) : ext A := fun s =>
  match e heap with Heap.Value a _ => Value a s | Heap.Exit _ => No_fuel end.

(** A bignum is no string. *)
Definition STRING_P (x : SCHEME_OBJECT) : ext bool :=
  match x with Immediate object => of_heap (string_p memory_base object) | Big _ => ret false end.

(** [external_strings], made when it is first needed. *)
Definition the_table : ext hash_table := fun s =>
  match external_strings s with
  | Some table => Value table s
  | None => bind make_hash_table (fun table => update (fun s => set_table s table) ;; ret table) s
  end.

Definition set_external_strings (table : hash_table) : ext unit := update (fun s => set_table s table).

(** The size that is asked for wraps when [n_bytes] is near 2^64, and then the
    final zero is stored outside the block. *)
Definition Prim_alloc_external_string (x : SCHEME_OBJECT) : ext SCHEME_OBJECT :=
  n_bytes <- of_prim (arg_ulong_integer 1 x) ;;
  let size := (n_bytes + 1 + SIZEOF_HT_RECORD)%UL in
  result <- malloc size ;;
  if result =? 0 then error (error_bad_range_arg 1)
  else
    table <- the_table ;;
    let record := mk_record result n_bytes in
    if size <? n_bytes + 1 + SIZEOF_HT_RECORD then fun _ => Undefined_store
    else
      table <- ht_insert fuel table record ;;
      set_external_strings table ;;
      of_prim (lift (ulong_to_integer (HT_RECORD_KEY record))).

Definition Prim_external_string_p (x : SCHEME_OBJECT) : ext SCHEME_OBJECT :=
  ok <- of_prim (if INTEGER_P x then lift (integer_to_ulong_p x) else PRIMITIVE_RETURN false) ;;
  if ok : bool then
    table <- the_table ;;
    key <- of_prim (lift (integer_to_ulong x)) ;;
    ret (boolean (match ht_lookup table key with Some _ => true | None => false end))
  else ret (Immediate SHARP_F).

Definition Prim_dealloc_external_string (x : SCHEME_OBJECT) : ext SCHEME_OBJECT :=
  n <- of_prim (arg_ulong_integer 1 x) ;;
  table <- the_table ;;
  r <- ht_delete fuel table n ;;
  set_external_strings (snd r) ;;
  match fst r with
  | None => error (error_wrong_type_arg 1)
  | Some record => free (address record) ;; ret (Immediate (MAKE_OBJECT TC_CONSTANT 1))
  end.

(** The address of the bytes and their number. *)
Definition lookup_external_string (descriptor : SCHEME_OBJECT) : ext (option (Z * Z)) :=
  table <- the_table ;;
  key <- of_prim (lift (integer_to_ulong descriptor)) ;;
  ret (option_map (fun record => (HT_RECORD_KEY record, HT_RECORD_N_BYTES record)) (ht_lookup table key)).

Definition arg_extended_string (n : Z) (x : SCHEME_OBJECT) : ext (Z * Z) :=
  string <- STRING_P x ;;
  match string : bool, x with
  | true, Immediate object =>
      length <- of_heap (STRING_LENGTH memory_base object) ;; ret (STRING_POINTER memory_base object, length)
  | _, _ =>
      ok <- of_prim (if INTEGER_P x then lift (integer_to_ulong_p x) else PRIMITIVE_RETURN false) ;;
      if ok : bool then
        result <- lookup_external_string x ;;
        match result with Some r => ret r | None => error (error_wrong_type_arg n) end
      else error (error_wrong_type_arg n)
  end.

Definition Prim_extended_string_length (x : SCHEME_OBJECT) : ext SCHEME_OBJECT :=
  r <- arg_extended_string 1 x ;; of_prim (lift (ulong_to_integer (snd r))).

End Table.

(** ** The table of external strings is a finite map *)

(** ** Lists *)

Lemma length_replace_nth {A} (l : list A) n x : length (replace_nth l n x) = length l.
Proof. revert n. induction l as [|y l IH]; intros [|n]; cbn; auto. Qed.

Lemma nth_replace_nth {A} (l : list A) n k x d : (n < length l)%nat ->
  nth k (replace_nth l n x) d = if Nat.eqb k n then x else nth k l d.
Proof.
  revert n k. induction l as [|y l IH]; intros n k H; [cbn in H; lia|].
  destruct n as [|n], k as [|k]; cbn [replace_nth nth Nat.eqb]; auto.
  apply IH. cbn in H. lia.
Qed.

(** A chain replaced, in the list of all records. *)
Lemma concat_replace_nth {A} (ls : list (list A)) n (x : list A) : (n < length ls)%nat ->
  exists rest, Permutation (concat ls) (nth n ls [] ++ rest)
    /\ Permutation (concat (replace_nth ls n x)) (x ++ rest).
Proof.
  revert n. induction ls as [|l ls IH]; intros n H; [cbn in H; lia|]. destruct n as [|n]; cbn [nth replace_nth concat].
  - exists (concat ls). auto.
  - destruct (IH n) as (rest & P1 & P2); [cbn in H; lia|]. exists (l ++ rest). split.
    + rewrite P1. rewrite !app_assoc. apply Permutation_app_tail, Permutation_app_comm.
    + rewrite P2. rewrite !app_assoc. apply Permutation_app_tail, Permutation_app_comm.
Qed.

Lemma find_permutation {A} (f : A -> Z) k l l' : Permutation l l' -> NoDup (map f l) ->
  find (fun x => f x =? k) l' = find (fun x => f x =? k) l.
Proof.
  induction 1 as [|x l l' P IH|x y l|l l' l'' P1 IH1 P2 IH2]; intros N; cbn [find]; auto.
  - inversion N; subst. rewrite IH by assumption. reflexivity.
  - inversion N as [|? ? H N']; subst. destruct (Z.eqb_spec (f x) k), (Z.eqb_spec (f y) k); auto.
    exfalso. apply H. left. congruence.
  - rewrite IH2, IH1; auto. rewrite <- P1. exact N.
Qed.

Lemma bounded_length a b (l : list Z) : NoDup l -> Forall (fun x => a <= x < b) l -> Z.of_nat (length l) <= Z.max 0 (b - a).
Proof.
  intros N F. rewrite <- (length_map (fun x => Z.to_nat (x - a))).
  assert (I : incl (map (fun x => Z.to_nat (x - a)) l) (seq 0 (Z.to_nat (b - a)))).
  { intros k (x & <- & Hx)%in_map_iff. rewrite Forall_forall in F. specialize (F x Hx). apply in_seq. lia. }
  apply NoDup_incl_length in I; [rewrite length_seq in I; lia|].
  clear I. induction l as [|x l IH]; cbn [map]; [constructor|]. inversion N; subst. inversion F; subst.
  constructor; [|auto]. intros (y & E & Hy)%in_map_iff. rewrite Forall_forall in *.
  match goal with H : forall z, In z l -> _ |- _ => specialize (H y Hy) end.
  assert (x = y) by lia. subst. contradiction.
Qed.

(** ** Well-formed tables *)

Definition contents (t : hash_table) : list ht_record := concat (HT_BUCKETS t).
Definition keys (t : hash_table) : list Z := map HT_RECORD_KEY (contents t).

(** [e] is the exponent of the size. *)
Record wf_table (e : Z) (t : hash_table) : Prop := {
  wt_exponent : HT_MIN_EXPT <= e <= HT_MAX_EXPT;
  wt_size : HT_N_BUCKETS t = EXPT_TO_N e;
  wt_length : length (HT_BUCKETS t) = Z.to_nat (EXPT_TO_N e);
  wt_place : forall i r, In r (nth i (HT_BUCKETS t) []) -> HT_RECORD_KEY r mod EXPT_TO_N e = Z.of_nat i;
  wt_keys : NoDup (keys t);
  wt_range : Forall (fun k => 16 <= k < 18446744073709551616) (keys t);
  wt_count : HT_N_RECORDS t = Z.of_nat (length (contents t))
}.

Lemma EXPT_TO_N_bounds e : 4 <= e <= 24 -> 15 <= EXPT_TO_N e < 2 ^ 24.
Proof.
  intros H. unfold EXPT_TO_N. pose proof (Z.pow_le_mono_r 2 4 e). pose proof (Z.pow_le_mono_r 2 e 24). lia.
Qed.

Section Tables.
Variables (e : Z) (t : hash_table).
Hypothesis W : wf_table e t.

Lemma index_bound k : (Z.to_nat (HT_BUCKET_INDEX t k) < length (HT_BUCKETS t))%nat.
Proof.
  pose proof (EXPT_TO_N_bounds e (wt_exponent _ _ W)). unfold HT_BUCKET_INDEX. rewrite (wt_size _ _ W), (wt_length _ _ W).
  pose proof (Z.mod_pos_bound k (EXPT_TO_N e)). lia.
Qed.

Lemma in_bucket r : In r (contents t) <-> In r (HT_BUCKET_REF t (HT_BUCKET_INDEX t (HT_RECORD_KEY r))).
Proof.
  unfold contents, HT_BUCKET_REF. split.
  - intros (l & Hl & Hr)%in_concat. apply (In_nth _ _ []) in Hl as (i & Hi & <-).
    pose proof (wt_place _ _ W i r Hr) as P. unfold HT_BUCKET_INDEX. rewrite (wt_size _ _ W), P, Nat2Z.id. exact Hr.
  - intros Hr. apply in_concat. eexists. split; [|exact Hr]. apply nth_In, index_bound.
Qed.

Lemma ht_lookup_contents k : ht_lookup t k = find (fun r => HT_RECORD_KEY r =? k) (contents t).
Proof.
  unfold ht_lookup. destruct (find _ (HT_BUCKET_REF _ _)) as [r|] eqn:F.
  - apply find_some in F as [F1 F2]. apply Z.eqb_eq in F2. subst k.
    assert (In r (contents t)) as (l1 & l2 & E)%in_split by (apply in_bucket; exact F1).
    pose proof (wt_keys _ _ W) as N. unfold keys in N. rewrite E in *.
    rewrite (find_permutation HT_RECORD_KEY (HT_RECORD_KEY r) (r :: l1 ++ l2)).
    + cbn. rewrite Z.eqb_refl. reflexivity.
    + apply Permutation_middle.
    + cbn. rewrite <- map_cons. rewrite map_cons. rewrite map_app in *. cbn in N. apply NoDup_remove in N as [N1 N2].
      constructor; assumption.
  - symmetry. destruct (find _ (contents t)) as [r|] eqn:G; [|reflexivity]. apply find_some in G as [G1 G2].
    apply Z.eqb_eq in G2. subst k. apply in_bucket in G1. pose proof (find_none _ _ F r G1) as H. cbn in H.
    rewrite Z.eqb_refl in H. discriminate.
Qed.

Lemma records_count : Z.of_nat (length (contents t)) < 18446744073709551616 - 1.
Proof.
  pose proof (bounded_length _ _ _ (wt_keys _ _ W) (wt_range _ _ W)) as H. unfold keys in H. rewrite length_map in H. lia.
Qed.
End Tables.

(** ** Replacing a bucket *)

Lemma wf_set_bucket e t k chain n : wf_table e t ->
  (forall r, In r chain -> HT_RECORD_KEY r mod EXPT_TO_N e = k mod EXPT_TO_N e) ->
  let t' := set_n_records (set_bucket t (HT_BUCKET_INDEX t k) chain) n in
  exists rest, Permutation (contents t) (HT_BUCKET_REF t (HT_BUCKET_INDEX t k) ++ rest)
    /\ Permutation (contents t') (chain ++ rest)
    /\ (NoDup (map HT_RECORD_KEY (chain ++ rest)) ->
        Forall (fun k => 16 <= k < 18446744073709551616) (map HT_RECORD_KEY (chain ++ rest)) ->
        n = Z.of_nat (length (chain ++ rest)) -> wf_table e t').
Proof.
  intros W C t'. pose proof (index_bound e t W k) as I.
  destruct (concat_replace_nth (HT_BUCKETS t) _ chain I) as (rest & P1 & P2). exists rest.
  split; [exact P1|]. split; [exact P2|]. intros N R L.
  assert (P3 : Permutation (contents t') (chain ++ rest)) by exact P2.
  constructor; cbn [t' set_n_records set_bucket HT_N_RECORDS HT_N_BUCKETS HT_BUCKETS].
  - apply W.
  - apply W.
  - rewrite length_replace_nth. apply W.
  - intros i r Hr. rewrite nth_replace_nth in Hr by exact I. destruct (Nat.eqb_spec i (Z.to_nat (HT_BUCKET_INDEX t k))) as [-> | D].
    + rewrite C by exact Hr. unfold HT_BUCKET_INDEX. rewrite (wt_size _ _ W), Z2Nat.id; [reflexivity|].
      apply Z.mod_pos_bound. pose proof (EXPT_TO_N_bounds e (wt_exponent _ _ W)). lia.
    + apply (wt_place _ _ W i r Hr).
  - unfold keys. rewrite P3. exact N.
  - unfold keys. rewrite P3. exact R.
  - rewrite (Permutation_length P3). exact L.
Qed.

(** A record added, as [ht_insert] does before it looks at the size. *)
Definition adjoin (t : hash_table) (r : ht_record) : hash_table :=
  let index := HT_BUCKET_INDEX t (HT_RECORD_KEY r) in
  let t := set_bucket t index (HT_BUCKET_REF t index ++ [r]) in
  set_n_records t (HT_N_RECORDS t + 1)%UL.

Lemma adjoin_wf e t r : wf_table e t -> 16 <= HT_RECORD_KEY r < 18446744073709551616 -> ~ In (HT_RECORD_KEY r) (keys t) ->
  wf_table e (adjoin t r) /\ Permutation (contents (adjoin t r)) (r :: contents t).
Proof.
  intros W R N. unfold adjoin. cbn [HT_N_RECORDS set_bucket].
  destruct (wf_set_bucket e t (HT_RECORD_KEY r) (HT_BUCKET_REF t (HT_BUCKET_INDEX t (HT_RECORD_KEY r)) ++ [r])
              (HT_N_RECORDS t + 1)%UL W) as (rest & P1 & P2 & W').
  { intros x [Hx | [-> | []]]%in_app_or; [|reflexivity].
    unfold HT_BUCKET_REF in Hx. apply (wt_place _ _ W) in Hx. rewrite Hx. unfold HT_BUCKET_INDEX. rewrite (wt_size _ _ W).
    apply Z2Nat.id, Z.mod_pos_bound. pose proof (EXPT_TO_N_bounds e (wt_exponent _ _ W)). lia. }
  assert (P : Permutation ((HT_BUCKET_REF t (HT_BUCKET_INDEX t (HT_RECORD_KEY r)) ++ [r]) ++ rest) (r :: contents t)).
  { rewrite P1, <- app_assoc. cbn [app]. symmetry. apply Permutation_middle. }
  split; [|rewrite <- P; exact P2]. pose proof (records_count e t W) as B. apply W'.
  - rewrite P. cbn [map]. constructor; [exact N | apply W].
  - rewrite P. cbn [map]. constructor; [exact R | apply W].
  - rewrite (Permutation_length P). cbn [length]. rewrite (wt_count _ _ W), ulong_small by lia. lia.
Qed.

Lemma unlink_some k chain r chain' : unlink k chain = Some (r, chain') -> HT_RECORD_KEY r = k /\ Permutation chain (r :: chain').
Proof.
  revert chain'. induction chain as [|x chain IH]; intros chain'; cbn [unlink]; [discriminate|].
  destruct (Z.eqb_spec (HT_RECORD_KEY x) k).
  - intros [= <- <-]. auto.
  - destruct (unlink k chain) as [[r0 c]|]; [|discriminate]. intros [= <- <-]. destruct (IH c eq_refl) as [-> P].
    split; [reflexivity|]. rewrite P. apply perm_swap.
Qed.

Lemma unlink_none k chain : unlink k chain = None -> ~ In k (map HT_RECORD_KEY chain).
Proof.
  induction chain as [|x chain IH]; cbn [unlink map]; [auto|]. destruct (Z.eqb_spec (HT_RECORD_KEY x) k); [discriminate|].
  destruct (unlink k chain) as [[? ?]|]; [discriminate|]. intros _ [E | E]; [auto | now apply IH].
Qed.

Lemma unlink_wf e t k r chain : wf_table e t -> unlink k (HT_BUCKET_REF t (HT_BUCKET_INDEX t k)) = Some (r, chain) ->
  let t' := set_n_records (set_bucket t (HT_BUCKET_INDEX t k) chain) (HT_N_RECORDS t - 1)%UL in
  HT_RECORD_KEY r = k /\ wf_table e t' /\ Permutation (contents t) (r :: contents t').
Proof.
  intros W [K P]%unlink_some t'. split; [exact K|].
  destruct (wf_set_bucket e t k chain (HT_N_RECORDS t - 1)%UL W) as (rest & P1 & P2 & W').
  { intros x Hx. assert (Hx' : In x (HT_BUCKET_REF t (HT_BUCKET_INDEX t k))) by (rewrite P; now right).
    unfold HT_BUCKET_REF in Hx'. apply (wt_place _ _ W) in Hx'. rewrite Hx'. unfold HT_BUCKET_INDEX. rewrite (wt_size _ _ W).
    apply Z2Nat.id, Z.mod_pos_bound. pose proof (EXPT_TO_N_bounds e (wt_exponent _ _ W)). lia. }
  rewrite P in P1. cbn [app] in P1.
  pose proof (wt_keys _ _ W) as N. pose proof (wt_range _ _ W) as R. unfold keys in N, R. rewrite P1 in N, R.
  cbn [map] in N, R. inversion N; inversion R; subst.
  pose proof (records_count e t W) as B. pose proof (Permutation_length P1) as L. cbn [length] in L.
  split; [|rewrite P1, <- P2; reflexivity]. apply W'; auto. rewrite (wt_count _ _ W), ulong_small by lia. lia.
Qed.

Lemma unlink_absent e t k : wf_table e t -> unlink k (HT_BUCKET_REF t (HT_BUCKET_INDEX t k)) = None -> ~ In k (keys t).
Proof.
  intros W U (r & <- & Hr)%in_map_iff. apply unlink_none in U. apply U, in_map, (in_bucket e t W), Hr.
Qed.

(** ** Insertion and growth *)

Lemma empty_wf e p : 4 <= e <= 24 -> wf_table e (mk_table 0 (EXPT_TO_N e) p (zero_ht_buckets (EXPT_TO_N e))).
Proof.
  intros H. pose proof (EXPT_TO_N_bounds e H). unfold zero_ht_buckets.
  assert (Z0 : forall n, concat (repeat (@nil ht_record) n) = []) by (induction n; auto).
  constructor; unfold keys, contents; cbn [HT_N_BUCKETS HT_BUCKETS HT_N_RECORDS]; rewrite ?Z0; cbn; auto; try constructor.
  - apply repeat_length.
  - intros i r Hr. rewrite nth_repeat in Hr. destruct Hr.
Qed.

Lemma records_list_permutation t : Permutation (ht_records_list t) (contents t).
Proof.
  unfold ht_records_list, contents.
  assert (One : forall chain acc, Permutation (fold_left (fun result (r : ht_record) => r :: result) chain acc) (chain ++ acc)).
  { induction chain as [|x chain IH]; intros acc; cbn [fold_left app]; [reflexivity|]. rewrite IH. symmetry. apply Permutation_middle. }
  assert (All : forall chains acc, Permutation (fold_left (fun result chain => fold_left (fun result (r : ht_record) => r :: result) chain result) chains acc) (concat chains ++ acc)).
  { induction chains as [|c chains IH]; intros acc; cbn [fold_left concat app]; [reflexivity|].
    rewrite IH, One, !app_assoc. apply Permutation_app_tail, Permutation_app_comm. }
  rewrite All, app_nil_r. reflexivity.
Qed.

Lemma exponents_range e : In e exponents -> 4 <= e <= 24.
Proof. unfold exponents. intros (k & <- & Hk%in_seq)%in_map_iff. lia. Qed.

Lemma EXPT_TO_N_lt a b : 0 <= a -> 0 <= b -> EXPT_TO_N a < EXPT_TO_N b -> a < b.
Proof. unfold EXPT_TO_N. intros Ha Hb H. apply (Z.pow_lt_mono_r_iff 2); lia. Qed.

Section Malloc.
Variable malloc_ : nat -> list Z -> Z -> Z.
Notation ht_insert := (ht_insert malloc_).
Notation ht_resize := (ht_resize malloc_).

(** What the operations on the table do to the rest of the state. *)
Definition only_blocks (s s' : ext_state) : Prop :=
  external_strings s' = external_strings s /\ incl (blocks s) (blocks s').

Lemma only_blocks_refl s : only_blocks s s.
Proof. split; [reflexivity | apply incl_refl]. Qed.

Lemma only_blocks_trans s1 s2 s3 : only_blocks s1 s2 -> only_blocks s2 s3 -> only_blocks s1 s3.
Proof. intros [E1 I1] [E2 I2]. split; [congruence | eapply incl_tran; eassumption]. Qed.

Definition new_record (t : hash_table) (r : ht_record) : Prop :=
  16 <= HT_RECORD_KEY r < 18446744073709551616 /\ ~ In (HT_RECORD_KEY r) (keys t).

Definition becomes (e : Z) (l : list ht_record) (s : ext_state) (r : ext_result hash_table) : Prop :=
  exists e' t' s', r = Value t' s' /\ e <= e' /\ wf_table e' t' /\ Permutation (contents t') l /\ only_blocks s s'.

(** An insertion that does its work for tables of at least the size [e]. *)
Definition inserts (insert : hash_table -> ht_record -> ext hash_table) (e : Z) : Prop :=
  forall e1 t r s, e <= e1 -> wf_table e1 t -> new_record t r -> becomes e1 (r :: contents t) s (insert t r s).

Lemma insert_records_becomes insert e0 : inserts insert e0 -> forall records e t s,
  e0 <= e -> wf_table e t -> NoDup (map HT_RECORD_KEY records ++ keys t) ->
  Forall (fun k => 16 <= k < 18446744073709551616) (map HT_RECORD_KEY records) ->
  becomes e (records ++ contents t) s (insert_records insert t records s).
Proof.
  intros I. induction records as [|r records IH]; intros e t s L W N R; cbn [insert_records].
  - exists e, t, s. cbn [app]. split; [reflexivity|]. split; [lia|]. auto using only_blocks_refl.
  - cbn [map app] in N, R. inversion N as [|? ? N1 N2]; inversion R as [|? ? R1 R2]; subst.
    destruct (I e t r s L W) as (e1 & t1 & s1 & E1 & L1 & W1 & P1 & O1).
    { split; [exact R1|]. intros H. apply N1, in_or_app. auto. }
    unfold bind. rewrite E1. destruct (IH e1 t1 s1) as (e2 & t2 & s2 & E2 & L2 & W2 & P2 & O2); auto; try lia.
    { unfold keys. rewrite P1. cbn [map]. rewrite <- Permutation_middle. exact N. }
    exists e2, t2, s2. split; [exact E2|]. split; [lia|]. split; [exact W2|]. split; [|eauto using only_blocks_trans].
    rewrite P2, P1. cbn [app]. symmetry. apply Permutation_middle.
Qed.

Lemma resize_becomes insert e e0 t s : inserts insert e0 -> 4 <= e0 <= 24 -> wf_table e t ->
  becomes (Z.min e e0) (contents t) s (ht_resize insert t (EXPT_TO_N e0) s).
Proof.
  intros I H W. unfold ht_resize, bind, malloc. destruct (malloc_ (calls s) (blocks s) _ =? 0).
  - exists e, t. eexists. split; [reflexivity|]. split; [lia|]. split; [exact W|]. split; [reflexivity|].
    split; [reflexivity | apply incl_refl].
  - set (p := malloc_ _ _ _). set (t0 := mk_table _ _ _ _). set (s0 := mk_ext _ _ _).
    assert (Nil : contents t0 = []) by (unfold t0, contents, zero_ht_buckets; cbn; induction (Z.to_nat (EXPT_TO_N e0)); auto).
    destruct (insert_records_becomes insert e0 I (ht_records_list t) e0 t0 s0) as (e1 & t1 & s1 & E1 & L1 & W1 & P1 & O1).
    + lia.
    + apply empty_wf, H.
    + unfold keys. rewrite Nil, app_nil_r, records_list_permutation. apply W.
    + rewrite records_list_permutation. apply W.
    + exists e1, t1, s1. split; [exact E1|]. split; [lia|]. split; [exact W1|]. rewrite Nil, app_nil_r in P1. split.
      * rewrite P1. apply records_list_permutation.
      * destruct O1 as [O1 O2]. split; [exact O1|]. intros a Ha. apply O2. right. exact Ha.
Qed.

(** Each nested insertion is into a larger table, of which there are 21. *)
Lemma ht_insert_becomes fuel : forall e, 24 - e < Z.of_nat fuel -> inserts (ht_insert fuel) e.
Proof.
  induction fuel as [|fuel IH]; intros e F e1 t r s L W [R N].
  - pose proof (wt_exponent _ _ W). lia.
  - destruct (adjoin_wf e1 t r W R N) as [W1 P1]. cbn [ExtString.ht_insert]. fold (adjoin t r).
    destruct (_ && _) eqn:G.
    + apply andb_true_iff in G as [_ G]. destruct (find _ exponents) as [e'|] eqn:Fi.
      * apply find_some in Fi as [Fi1 Fi2]. apply exponents_range in Fi1. apply Z.ltb_lt in Fi2.
        rewrite (wt_size _ _ W1) in Fi2. pose proof (wt_exponent _ _ W). apply EXPT_TO_N_lt in Fi2; [|lia|lia].
        destruct (resize_becomes (ht_insert fuel) e1 e' (adjoin t r) s) as (e2 & t2 & s2 & E2 & L2 & W2 & P2 & O2); auto.
        { apply IH. lia. }
        exists e2, t2, s2. split; [exact E2|]. split; [lia|]. split; [exact W2|]. split; [rewrite P2; exact P1 | exact O2].
      * exists e1, (adjoin t r), s. split; [reflexivity|]. split; [lia|]. auto using only_blocks_refl.
    + exists e1, (adjoin t r), s. split; [reflexivity|]. split; [lia|]. auto using only_blocks_refl.
Qed.

Lemma ht_delete_becomes fuel e t k s : 21 <= Z.of_nat fuel -> wf_table e t ->
  match find (fun r => HT_RECORD_KEY r =? k) (contents t) with
  | None => ht_delete malloc_ fuel t k s = Value (None, t) s
  | Some r => exists e' t' s', ht_delete malloc_ fuel t k s = Value (Some r, t') s' /\ wf_table e' t'
      /\ Permutation (contents t) (r :: contents t') /\ only_blocks s s'
  end.
Proof.
  intros F W. unfold ht_delete. destruct (unlink k (HT_BUCKET_REF t (HT_BUCKET_INDEX t k))) as [[r chain]|] eqn:U.
  - destruct (unlink_wf e t k r chain W U) as (K & W1 & P1). subst k.
    rewrite (find_permutation HT_RECORD_KEY _ _ _ (Permutation_sym P1)).
    2: { rewrite <- P1. apply W. }
    cbn [find]. rewrite Z.eqb_refl. cbv zeta. set (t1 := set_n_records _ _) in *.
    assert (Done : exists e' t' s', Value (Some r, t1) s = Value (Some r, t') s' /\ wf_table e' t'
              /\ Permutation (contents t) (r :: contents t') /\ only_blocks s s').
    { exists e, t1, s. auto using only_blocks_refl. }
    unfold bind. destruct (_ && _); [|exact Done]. destruct (find _ (rev exponents)) as [e'|] eqn:Fi; [|exact Done].
    apply find_some in Fi as [Fi _]. apply in_rev, exponents_range in Fi.
    destruct (resize_becomes (ht_insert fuel) e e' t1 s) as (e2 & t2 & s2 & E2 & _ & W2 & P2 & O2); auto.
    { apply ht_insert_becomes. lia. }
    rewrite E2. exists e2, t2, s2. split; [reflexivity|]. split; [exact W2|]. split; [rewrite P2; exact P1 | exact O2].
  - apply (unlink_absent e t k W) in U. destruct (find _ (contents t)) as [r|] eqn:Fi; [|reflexivity].
    apply find_some in Fi as [Fi1 Fi2]. apply Z.eqb_eq in Fi2. exfalso. apply U. subst k. apply in_map, Fi1.
Qed.
End Malloc.

(** ** The primitives *)

Definition strings : Type := Z -> option Z.

(** The strings that a state knows: from the address to the number of bytes. *)
Definition known (s : ext_state) : strings := fun key =>
  match external_strings s with
  | None => None
  | Some t => option_map HT_RECORD_N_BYTES (ht_lookup t key)
  end.

Definition owned (t : hash_table) (live : list Z) : Prop :=
  Forall (fun r => In (address r) live /\ is_ulong (HT_RECORD_N_BYTES r)) (contents t).

Definition wf_state (s : ext_state) : Prop :=
  match external_strings s with
  | None => True
  | Some t => exists e, wf_table e t /\ owned t (blocks s)
  end.

Section Primitives.
Variable malloc_ : nat -> list Z -> Z -> Z.
(** A block that [malloc] gives is in memory and not in use. *)
Hypothesis malloc_fresh : forall n live size, let p := malloc_ n live size in
  p <> 0 -> ~ In p live /\ 0 < p /\ p + size <= 18446744073709551616.
Variable fuel : nat.
Variable memory_base : Z.
Variable heap : machine.
Hypothesis enough : 21 <= Z.of_nat fuel.
Context {B : Type} {ops : BignumOps B} {laws : BignumLaws B}.
Notation SCHEME_OBJECT := (object B).

Inductive operation :=
  | Allocate (x : SCHEME_OBJECT) | Is_external (x : SCHEME_OBJECT)
  | Deallocate (x : SCHEME_OBJECT) | Length (x : SCHEME_OBJECT).

Definition perform (o : operation) : ext SCHEME_OBJECT :=
  match o with
  | Allocate x => Prim_alloc_external_string malloc_ fuel x
  | Is_external x => Prim_external_string_p malloc_ x
  | Deallocate x => Prim_dealloc_external_string malloc_ fuel x
  | Length x => Prim_extended_string_length malloc_ memory_base heap x
  end.

Definition argument (o : operation) : SCHEME_OBJECT :=
  match o with Allocate x | Is_external x | Deallocate x | Length x => x end.

Inductive answer := Returns (r : SCHEME_OBJECT) | Fails (e : prim_error).

Definition with_string (m : strings) (key : Z) (n : option Z) : strings := fun k => if k =? key then n else m k.

Notation is_size n := (0 <= n < 18446744073709551616).

(** The length of a string of the heap. *)
Definition heap_string (x : SCHEME_OBJECT) : option Z :=
  match x with
  | Immediate object =>
      match string_p memory_base object heap with
      | Heap.Value true _ => Some (OBJECT_DATUM (mem heap (MEMORY_LOC memory_base object BYTEVECTOR_LENGTH_INDEX)))
      | _ => None
      end
  | Big _ => None
  end.

(** What the primitives promise about a finite map. *)
Inductive specified (m : strings) : operation -> answer -> strings -> Prop :=
  | allocated x n r key : int_repr x n -> 0 <= n -> m key = None -> int_repr r key ->
      specified m (Allocate x) (Returns r) (with_string m key (Some n))
  | not_allocated x n : int_repr x n -> is_size n -> specified m (Allocate x) (Fails (error_bad_range_arg 1)) m
  | asked x n : int_repr x n ->
      specified m (Is_external x) (Returns (boolean (match m n with Some _ => true | None => false end))) m
  | deallocated x n b : int_repr x n -> m n = Some b ->
      specified m (Deallocate x) (Returns (Immediate (MAKE_OBJECT TC_CONSTANT 1))) (with_string m n None)
  | not_deallocated x n : int_repr x n -> is_size n -> m n = None ->
      specified m (Deallocate x) (Fails (error_wrong_type_arg 1)) m
  | measured x n b r : int_repr x n -> m n = Some b -> int_repr r b -> specified m (Length x) (Returns r) m
  | measured_in_heap x n r : heap_string x = Some n -> int_repr r n -> specified m (Length x) (Returns r) m
  | not_measured x n : int_repr x n -> m n = None -> specified m (Length x) (Fails (error_wrong_type_arg 1)) m
  | no_size o n : (forall x, o <> Is_external x /\ o <> Length x) -> int_repr (argument o) n -> ~ is_size n ->
      specified m o (Fails (error_bad_range_arg 1)) m
  | no_integer_asked x : INTEGER_P x = false -> specified m (Is_external x) (Returns (Immediate SHARP_F)) m
  | no_integer o : (forall x, o <> Is_external x) -> INTEGER_P (argument o) = false ->
      (forall x, o = Length x -> heap_string x = None) ->
      specified m o (Fails (error_wrong_type_arg 1)) m.

(** *** The table, made when it is needed *)

Lemma known_range e t key r : wf_table e t -> ht_lookup t key = Some r -> is_size key.
Proof.
  intros W. rewrite (ht_lookup_contents e t W). intros [F1 F2]%find_some. apply Z.eqb_eq in F2. subst key.
  pose proof (wt_range _ _ W) as R. rewrite Forall_forall in R. specialize (R (HT_RECORD_KEY r)).
  unfold keys in R. rewrite in_map_iff in R. destruct R; [eauto | lia].
Qed.

Lemma owned_incl t l l' : owned t l -> incl l l' -> owned t l'.
Proof. intros O I. eapply Forall_impl; [|exact O]. cbn. intros r []. auto. Qed.

Lemma the_table_cases s : wf_state s ->
  (exists t s', the_table malloc_ s = Value t s' /\ external_strings s' = Some t
     /\ (exists e, wf_table e t /\ owned t (blocks s)) /\ incl (blocks s) (blocks s')
     /\ forall key, option_map HT_RECORD_N_BYTES (ht_lookup t key) = known s key)
  \/ the_table malloc_ s = Aborted /\ external_strings s = None.
Proof.
  unfold wf_state, the_table, known. destruct (external_strings s) as [t|] eqn:E.
  - intros W. left. exists t, s. split; [reflexivity|]. split; [exact E|]. split; [exact W|]. split; [apply incl_refl | auto].
  - intros _. unfold make_hash_table, bind, malloc, abort. destruct (_ =? 0); [auto|]. destruct (_ =? 0); [auto|].
    left. eexists. eexists. split; [reflexivity|]. split; [reflexivity|].
    cbn [update set_table external_strings blocks]. split; [|split].
    + exists 4. split; [apply empty_wf; lia|]. unfold owned, contents. constructor.
    + do 2 apply incl_tl. apply incl_refl.
    + intros key. rewrite (ht_lookup_contents 4); [reflexivity | apply empty_wf; lia].
Qed.

Lemma bindings_lookup_cons e t e' t' r key : wf_table e t -> wf_table e' t' -> Permutation (contents t') (r :: contents t) ->
  ht_lookup t' key = if HT_RECORD_KEY r =? key then Some r else ht_lookup t key.
Proof.
  intros W W' P. rewrite (ht_lookup_contents e t W), (ht_lookup_contents e' t' W').
  rewrite (find_permutation HT_RECORD_KEY key _ _ (Permutation_sym P)); [reflexivity|]. rewrite <- P. apply W'.
Qed.

(** A string of the heap, or not. *)
Lemma string_tested x : STRING_P memory_base heap x = ret (match heap_string x with Some _ => true | None => false end).
Proof.
  destruct x as [object | b]; [|reflexivity]. cbn [STRING_P heap_string]. unfold of_heap, string_p.
  destruct (_ || _); [reflexivity|]. destruct (_ =? _); [|reflexivity]. cbn [Heap.bind]. unfold Heap.bind, Heap.MEMORY_REF.
  cbn. destruct (_ =? 1); reflexivity.
Qed.

Lemma integer_no_string x : INTEGER_P x = true -> heap_string x = None.
Proof.
  destruct x as [object | b]; [|reflexivity]. unfold INTEGER_P, is_fixnum, as_fixnum, heap_string, string_p.
  destruct (FIXNUM_P object) eqn:F; [|discriminate]. intros _. unfold FIXNUM_P in F. apply Z.eqb_eq in F. rewrite F. reflexivity.
Qed.

(** An argument is decoded, or the error is the one that is specified. *)
Lemma decoded x n : int_repr x n -> within n ->
  of_prim (arg_ulong_integer 1 x) = if (0 <=? n) && (n <? 18446744073709551616) then ret n else error (error_bad_range_arg 1).
Proof. intros X Wn. rewrite (arg_ulong_integer_repr 1 x n X Wn). destruct (_ && _); reflexivity. Qed.

Lemma not_decoded x : INTEGER_P x = false -> of_prim (arg_ulong_integer 1 x) = error (error_wrong_type_arg 1).
Proof. intros H. unfold arg_ulong_integer, CHECK_ARG. rewrite H. reflexivity. Qed.

Lemma bounds_tested x n : int_repr x n -> within n ->
  of_prim (if INTEGER_P x then lift (integer_to_ulong_p x) else PRIMITIVE_RETURN false)
  = ret ((0 <=? n) && (n <? 18446744073709551616)).
Proof. intros X Wn. rewrite (int_repr_INTEGER_P x n X), (integer_to_ulong_p_repr x n X Wn). reflexivity. Qed.

Lemma made k : is_ulong k -> exists r, of_prim (lift (ulong_to_integer k)) = ret r /\ int_repr r k.
Proof. intros H. destruct (ulong_to_integer_repr k H) as (r & E & R). exists r. rewrite E. auto. Qed.

Lemma unknown_outside s n : wf_state s -> ~ is_size n -> known s n = None.
Proof.
  unfold wf_state, known. destruct (external_strings s) as [t|]; [|reflexivity]. intros (e & W & _) H.
  destruct (ht_lookup t n) as [r|] eqn:L; [|reflexivity]. apply (known_range e t n r W) in L. contradiction.
Qed.

Definition correct (s : ext_state) (o : operation) (r : ext_result SCHEME_OBJECT) : Prop :=
  match r with
  | Value v s' => wf_state s' /\ exists m, specified (known s) o (Returns v) m /\ forall key, known s' key = m key
  | Error e s' => wf_state s' /\ exists m, specified (known s) o (Fails e) m /\ forall key, known s' key = m key
  | Aborted => external_strings s = None
  | Undefined_store => exists x n, o = Allocate x /\ int_repr x n /\ 18446744073709551616 - 17 <= n < 18446744073709551616
  | No_fuel => False
  end.

(** The state after a call that changed no string. *)
Lemma correct_same s s' t o (answer : answer) : external_strings s' = Some t ->
  (exists e, wf_table e t /\ owned t (blocks s)) -> incl (blocks s) (blocks s') ->
  (forall key, option_map HT_RECORD_N_BYTES (ht_lookup t key) = known s key) ->
  specified (known s) o answer (known s) ->
  correct s o (match answer with Returns v => Value v s' | Fails e => Error e s' end).
Proof.
  intros E (e & W & O) I K S.
  assert (H : wf_state s') by (unfold wf_state; rewrite E; eauto using owned_incl).
  assert (H' : forall key, known s' key = known s key) by (intros key; rewrite <- K; unfold known at 1; rewrite E; reflexivity).
  destruct answer; cbn [correct]; eauto.
Qed.

Lemma asked_correct x n s : int_repr x n -> within n -> wf_state s -> correct s (Is_external x) (perform (Is_external x) s).
Proof.
  intros X Wn W. cbn [perform]. unfold Prim_external_string_p, bind. rewrite (bounds_tested x n X Wn). unfold ret.
  destruct (_ && _) eqn:R; reflect_bools.
  - destruct (the_table_cases s W) as [(t & s' & E & Es & Wt & I & K) | [E N]]; rewrite E; [|exact N].
    rewrite (integer_to_ulong_repr x n X) by lia. cbn [lift of_prim]. rewrite ulong_small by lia.
    apply (correct_same s s' t (Is_external x) (Returns _)); auto.
    pose proof (asked (known s) x n X) as S. rewrite <- K in S. destruct (ht_lookup t n); exact S.
  - split; [exact W|]. exists (known s). split; [|reflexivity]. pose proof (asked (known s) x n X) as S.
    rewrite (unknown_outside s n W) in S by lia. exact S.
Qed.

Lemma length_correct x n s : int_repr x n -> within n -> wf_state s -> correct s (Length x) (perform (Length x) s).
Proof.
  intros X Wn W. cbn [perform]. unfold Prim_extended_string_length, arg_extended_string, lookup_external_string, bind.
  rewrite string_tested, (integer_no_string x (int_repr_INTEGER_P x n X)). unfold ret at 1. cbv beta iota.
  rewrite (bounds_tested x n X Wn). unfold ret. destruct (_ && _) eqn:R; reflect_bools.
  - destruct (the_table_cases s W) as [(t & s' & E & Es & Wt & I & K) | [E N]]; rewrite E; [|exact N].
    rewrite (integer_to_ulong_repr x n X) by lia. cbn [lift of_prim]. rewrite ulong_small by lia.
    specialize (K n) as Kn. destruct (ht_lookup t n) as [r|] eqn:L; cbn [option_map snd] in *.
    + assert (Hb : is_ulong (HT_RECORD_N_BYTES r)).
      { destruct Wt as (e & We & O). rewrite (ht_lookup_contents e t We) in L. apply find_some in L as [L _].
        unfold owned in O. rewrite Forall_forall in O. apply O, L. }
      destruct (made (HT_RECORD_N_BYTES r) Hb) as (v & -> & V). unfold ret.
      apply (correct_same s s' t (Length x) (Returns v)); auto. apply (measured _ x n (HT_RECORD_N_BYTES r)); auto.
    + unfold error. apply (correct_same s s' t (Length x) (Fails _)); auto. apply (not_measured _ x n); auto.
  - unfold error. split; [exact W|]. exists (known s). split; [|reflexivity].
    apply (not_measured _ x n X), (unknown_outside s n W). lia.
Qed.

(** The answer of a call that left the state as it was. *)
Lemma correct_unchanged s o (answer : answer) : wf_state s -> specified (known s) o answer (known s) ->
  correct s o (match answer with Returns v => Value v s | Fails e => Error e s end).
Proof. intros W S. destruct answer; cbn [correct]; eauto. Qed.

Lemma other_length_correct x s : INTEGER_P x = false -> wf_state s -> correct s (Length x) (perform (Length x) s).
Proof.
  intros N W. cbn [perform]. unfold Prim_extended_string_length, arg_extended_string, bind. rewrite string_tested.
  unfold ret at 1. cbv beta iota. destruct (heap_string x) as [n|] eqn:S.
  - destruct x as [object | b]; [|discriminate].
    assert (En : n = OBJECT_DATUM (mem heap (MEMORY_LOC memory_base object BYTEVECTOR_LENGTH_INDEX))).
    { unfold heap_string in S. destruct (string_p memory_base object heap) as [[] h|]; congruence. }
    destruct (made n) as (v & E & V); [rewrite En; red; pose proof (OBJECT_DATUM_mod (mem heap (MEMORY_LOC memory_base object BYTEVECTOR_LENGTH_INDEX)));
      pose proof (mod58 (mem heap (MEMORY_LOC memory_base object BYTEVECTOR_LENGTH_INDEX))); lia|].
    unfold of_heap, STRING_LENGTH, Heap.bind, Heap.MEMORY_REF. cbn. rewrite <- En, E.
    apply (correct_unchanged s (Length (Immediate object)) (Returns v) W). exact (measured_in_heap _ _ n v S V).
  - rewrite N. cbn [of_prim]. unfold ret, error.
    assert (Sp : specified (known s) (Length x) (Fails (error_wrong_type_arg 1)) (known s)).
    { apply no_integer; [discriminate | exact N | intros ? [= <-]; exact S]. }
    destruct x; exact (correct_unchanged s _ (Fails _) W Sp).
Qed.

Lemma remove_other live a b : In a live -> a <> b -> In a (remove Z.eq_dec b live).
Proof. intros H N. apply in_in_remove; auto. Qed.

Lemma dealloc_correct x n s : int_repr x n -> within n -> wf_state s -> correct s (Deallocate x) (perform (Deallocate x) s).
Proof.
  intros X Wn W. cbn [perform]. unfold Prim_dealloc_external_string, bind. rewrite (decoded x n X Wn).
  destruct (_ && _) eqn:R; reflect_bools.
  - unfold ret. destruct (the_table_cases s W) as [(t & s' & E & Es & Wt & I & K) | [E N]]; rewrite E; [|exact N].
    destruct Wt as (e & We & O). specialize (K n) as Kn. rewrite (ht_lookup_contents e t We) in Kn.
    pose proof (ht_delete_becomes malloc_ fuel e t n s' enough We) as D.
    destruct (find _ (contents t)) as [r|] eqn:F.
    + destruct D as (e' & t' & s2 & -> & We' & P & [O1 O2]). cbn [set_external_strings update fst snd free].
      apply find_some in F as [_ F]. apply Z.eqb_eq in F. cbn [option_map] in Kn.
      assert (L : forall key, ht_lookup t' key = if key =? n then None else ht_lookup t key).
      { intros key. rewrite (bindings_lookup_cons e' t' e t r key We' We P). rewrite F, (Z.eqb_sym n key).
        destruct (Z.eqb_spec key n) as [-> | _]; [|reflexivity].
        rewrite (ht_lookup_contents e' t' We'). destruct (find _ _) as [r'|] eqn:F'; [|reflexivity].
        apply find_some in F' as [F1 F2]. apply Z.eqb_eq in F2. pose proof (wt_keys _ _ We) as Nd. unfold keys in Nd.
        rewrite P in Nd. cbn [map] in Nd. inversion Nd as [|? ? N1 N2]. exfalso. apply N1. rewrite F, <- F2. apply in_map, F1. }
      cbn [correct]. split.
      * exists e'. split; [exact We'|]. apply Forall_forall. intros r' Hr'. cbn [blocks set_table].
        unfold owned in O. rewrite Forall_forall in O. destruct (O r') as [Q1 Q2]; [rewrite P; right; exact Hr'|].
        split; [|exact Q2]. apply remove_other; [apply O2, I, Q1|]. intros A.
        pose proof (wt_keys _ _ We) as Nd. unfold keys in Nd. rewrite P in Nd. cbn [map] in Nd.
        inversion Nd as [|? ? N1 N2]. apply N1. unfold HT_RECORD_KEY. rewrite <- A. apply (in_map HT_RECORD_KEY), Hr'.
      * eexists. split; [apply (deallocated _ x n (HT_RECORD_N_BYTES r) X); rewrite Kn; reflexivity|].
        intros key. unfold with_string, known at 1. cbn [external_strings set_table]. rewrite L.
        destruct (key =? n); [reflexivity | apply K].
    + rewrite D. cbn [set_external_strings update fst snd]. unfold error.
      apply (correct_same s (set_table s' t) t (Deallocate x) (Fails _)); eauto. apply (not_deallocated _ x n); auto.
  - unfold error. split; [exact W|]. exists (known s). split; [|reflexivity].
    apply (no_size _ _ n); auto; [intros; split; discriminate | lia].
Qed.

Lemma allocate_correct x n s : int_repr x n -> within n -> wf_state s -> correct s (Allocate x) (perform (Allocate x) s).
Proof.
  intros X Wn W. cbn [perform]. unfold Prim_alloc_external_string, bind. rewrite (decoded x n X Wn).
  destruct (_ && _) eqn:R; reflect_bools.
  2: { unfold error. split; [exact W|]. exists (known s). split; [|reflexivity].
       apply (no_size _ _ n); auto; [intros; split; discriminate | lia]. }
  unfold ret, malloc. set (size := (n + 1 + SIZEOF_HT_RECORD)%UL). set (p := malloc_ (calls s) (blocks s) size).
  pose proof (malloc_fresh (calls s) (blocks s) size) as M. cbv zeta in M. fold p in M.
  destruct (Z.eqb_spec p 0) as [Z0 | Z0].
  - unfold error. split; [exact W|]. exists (known s). split; [|reflexivity]. apply (not_allocated _ x n); auto.
  - destruct (M Z0) as (M1 & M2 & M3). set (s0 := mk_ext (external_strings s) (p :: blocks s) (S (calls s))).
    assert (W0 : wf_state s0).
    { unfold wf_state in *. cbn [s0 external_strings blocks]. destruct (external_strings s); [|exact I].
      destruct W as (e & We & O). exists e. split; [exact We|]. apply (owned_incl _ _ _ O), incl_tl, incl_refl. }
    destruct (the_table_cases s0 W0) as [(t & s1 & E & Es & Wt & I & K) | [E N]]; rewrite E; [|exact N].
    destruct (Z.ltb_spec size (n + 1 + SIZEOF_HT_RECORD)) as [L | L].
    { exists x, n. split; [reflexivity|]. split; [exact X|]. unfold size in L.
      destruct (Z.lt_ge_cases n (18446744073709551616 - 17)); [rewrite ulong_small in L; lia | lia]. }
    assert (S : size = n + 17 /\ n + 17 < 18446744073709551616).
    { pose proof (ulong_range (n + 1 + SIZEOF_HT_RECORD)) as U. red in U. fold size in U. split; [|lia].
      unfold size. rewrite ulong_small by lia. lia. }
    destruct Wt as (e & We & O).
    assert (Old : known s0 = known s) by reflexivity.
    assert (New : new_record t (mk_record p n)).
    { split; [unfold HT_RECORD_KEY; cbn; lia|]. intros (r & Ek & Hr)%in_map_iff.
      unfold owned in O. rewrite Forall_forall in O. unfold HT_RECORD_KEY in Ek. cbn in Ek.
      assert (A : address r = p) by lia. destruct (O r Hr) as [Q _]. rewrite A in Q.
      destruct (external_strings s) as [t0|] eqn:Et.
      - unfold the_table in E. cbn [s0 external_strings] in E. injection E as E1 _. subst t0.
        unfold wf_state in W. rewrite Et in W. destruct W as (e2 & _ & O'). unfold owned in O'. rewrite Forall_forall in O'.
        apply M1. rewrite <- A. apply O', Hr.
      - specialize (K (HT_RECORD_KEY r)). rewrite Old in K. unfold known in K. rewrite Et in K.
        rewrite (ht_lookup_contents e t We) in K. destruct (find _ _) eqn:F in K; [discriminate|].
        pose proof (find_none _ _ F r Hr) as Hk. cbn in Hk. rewrite Z.eqb_refl in Hk. discriminate. }
    destruct (ht_insert_becomes malloc_ fuel e ltac:(pose proof (wt_exponent _ _ We); lia) e t (mk_record p n) s1 (Z.le_refl e) We New)
      as (e2 & t2 & s2 & E2 & _ & W2 & P2 & [O1 O2]).
    rewrite E2. cbn [set_external_strings update].
    destruct (made (p + 16)) as (v & Ev & V); [red; lia|]. unfold HT_RECORD_KEY at 1. cbn [address]. rewrite Ev. unfold ret.
    split.
    + exists e2. split; [exact W2|]. apply Forall_forall. intros r Hr. cbn [blocks set_table]. rewrite P2 in Hr.
      destruct Hr as [<- | Hr].
      * split; [apply O2, I; left; reflexivity | cbn; red; lia].
      * unfold owned in O. rewrite Forall_forall in O. destruct (O r Hr) as [Q1 Q2]. split; [|exact Q2]. apply O2, I, Q1.
    + eexists. split.
      * apply (allocated _ x n v (p + 16) X); [lia | | exact V]. rewrite <- Old, <- K.
        destruct New as [_ New]. unfold HT_RECORD_KEY in New at 1. cbn [address] in New.
        rewrite (ht_lookup_contents e t We). destruct (find _ _) as [r|] eqn:F; [|reflexivity].
        apply find_some in F as [F1 F2]. apply Z.eqb_eq in F2. exfalso. apply New. rewrite <- F2. apply in_map, F1.
      * intros key. unfold with_string, known at 1. cbn [external_strings set_table].
        rewrite (bindings_lookup_cons e t e2 t2 (mk_record p n) key We W2 P2). unfold HT_RECORD_KEY. cbn [address].
        rewrite (Z.eqb_sym key). destruct (p + 16 =? key); [reflexivity|]. rewrite <- Old. apply K.
Qed.

End Primitives.

(** C21: the primitives on external strings implement a finite map from
    addresses to lengths, whatever [malloc] does as long as the blocks it gives
    are new: ALLOCATE-EXTERNAL-STRING adds a new address or reports that there is
    no memory, DEALLOCATE-EXTERNAL-STRING takes one out, EXTERNAL-STRING? and
    EXTENDED-STRING-LENGTH look one up, the latter also gives the length of a
    string of the heap, and every other argument is an error.  No
    string is lost when the table grows or shrinks, or cannot, and the insertions
    that make it grow again end.  The exceptions are the abort when there is no
    memory for the first table, and the store outside the block for lengths
    within 17 of 2^64. *)
Theorem external_strings_refine_map malloc_ fuel memory_base heap {B} {ops : BignumOps B} {laws : BignumLaws B} s (o : operation (B := B)) :
  (forall n live size, let p := malloc_ n live size in
     p <> 0 -> ~ In p live /\ 0 < p /\ p + size <= 18446744073709551616) ->
  21 <= Z.of_nat fuel ->
  wf_state s ->
  (INTEGER_P (argument o) = false \/ exists z, int_repr (argument o) z /\ within z) ->
  match perform malloc_ fuel memory_base heap o s with
  | Value v s' => wf_state s' /\ exists m, specified memory_base heap (known s) o (Returns v) m /\ forall key, known s' key = m key
  | Error e s' => wf_state s' /\ exists m, specified memory_base heap (known s) o (Fails e) m /\ forall key, known s' key = m key
  | Aborted => external_strings s = None
  | Undefined_store => exists x n, o = Allocate x /\ int_repr x n /\ 18446744073709551616 - 17 <= n < 18446744073709551616
  | No_fuel => False
  end.
Proof.
  intros Fresh Fuel W [N | (z & X & Wz)].
  - change (correct memory_base heap s o (perform malloc_ fuel memory_base heap o s)).
    assert (Er : (forall x, o <> Is_external x) -> (forall x, o <> Length x) ->
        specified memory_base heap (known s) o (Fails (error_wrong_type_arg 1)) (known s)).
    { intros H H'. apply no_integer; [assumption | assumption | intros x E; destruct (H' x E)]. }
    destruct o as [x | x | x | x]; cbn [argument] in N.
    + cbn [perform]. unfold Prim_alloc_external_string, bind. rewrite (not_decoded x N).
      apply (correct_unchanged _ _ s _ (Fails _) W), Er; discriminate.
    + cbn [perform]. unfold Prim_external_string_p, bind. rewrite N. cbn [of_prim].
      apply (correct_unchanged _ _ s _ (Returns _) W), no_integer_asked, N.
    + cbn [perform]. unfold Prim_dealloc_external_string, bind. rewrite (not_decoded x N).
      apply (correct_unchanged _ _ s _ (Fails _) W), Er; discriminate.
    + apply other_length_correct; assumption.
  - change (correct memory_base heap s o (perform malloc_ fuel memory_base heap o s)).
    destruct o; [eapply allocate_correct | eapply asked_correct | eapply dealloc_correct | eapply length_correct]; eauto.
Qed.

(** ** An allocator *)

#[local] Instance words_of_zeros : Bignum.Heap := fun _ => 0.

Module Example.

(** Each block begins above the beginnings of the others. *)
Definition bump (n : nat) (live : list Z) (size : Z) : Z :=
  let p := 4096 + fold_right Z.max 0 live in
  if p + size <=? 18446744073709551616 then p else 0.

Lemma bump_fresh n live size : let p := bump n live size in
  p <> 0 -> ~ In p live /\ 0 < p /\ p + size <= 18446744073709551616.
Proof.
  unfold bump. destruct (Z.leb_spec (4096 + fold_right Z.max 0 live + size) 18446744073709551616) as [H | H]; [|congruence].
  assert (M : forall x, In x live -> x <= fold_right Z.max 0 live).
  { clear. induction live as [|y l IH]; intros x; [intros []|]. cbn. intros [-> | Hx]; [lia|]. specialize (IH x Hx). lia. }
  assert (0 <= fold_right Z.max 0 live) by (clear; induction live; cbn; lia).
  intros _. split; [|lia]. intros Hp%M. lia.
Qed.

Definition start : ext_state := mk_ext None [] 0.

(** [n] strings of 5 bytes. *)
Fixpoint allocate_strings (n : nat) (s : ext_state) : ext_state :=
  match n with
  | O => s
  | S n =>
      match Prim_alloc_external_string (B := bignum) bump 21 (Immediate (fixnum 5)) s with
      | Value _ s' => allocate_strings n s'
      | _ => s
      end
  end.

(** After 15 strings the table has grown once, and the first array of buckets
    is still allocated: 15 records, the table and two arrays of buckets. *)
Lemma growth_leaks :
  option_map HT_N_BUCKETS (external_strings (allocate_strings 15 start)) = Some 31
  /\ length (blocks (allocate_strings 15 start)) = 18%nat
  /\ length (blocks (allocate_strings 14 start)) = 16%nat.
Proof. vm_compute. auto. Qed.

(** A string of 3 bytes in the heap. *)
Definition string_heap : machine := mk_machine (fun a => if a =? 101 then 3 else 0) 200 50 1000 true.
Definition string_object : Z := MAKE_OBJECT TC_CHARACTER_STRING 100.

Lemma length_in_heap :
  Prim_extended_string_length (B := bignum) bump 0 string_heap (Immediate string_object) start = Value (Immediate (fixnum 3)) start.
Proof. vm_compute. reflexivity. Qed.

End Example.

(** A string allocated, and the length of one in the heap. *)
Lemma external_strings_refine_map_witness :
  (exists v s' m, perform Example.bump 21 0 Example.string_heap (Allocate (B := bignum) (Immediate (fixnum 5))) Example.start = Value v s'
     /\ wf_state s' /\ specified (laws := bignum_laws) 0 Example.string_heap (known Example.start) (Allocate (Immediate (fixnum 5))) (Returns v) m
     /\ forall key, known s' key = m key)
  /\ exists m, specified (laws := bignum_laws) 0 Example.string_heap (known Example.start)
       (Length (Immediate Example.string_object)) (Returns (Immediate (fixnum 3))) m.
Proof.
  split.
  - pose proof (external_strings_refine_map Example.bump 21 0 Example.string_heap (laws := bignum_laws) Example.start
      (Allocate (Immediate (fixnum 5))) Example.bump_fresh ltac:(lia) I
      ltac:(right; exists 5; split; [apply int_repr_fixnum | apply within_fixnum]; red; lia)) as H.
    destruct (perform _ _ _ _ _ _) as [v s' | e s' | | |] eqn:E; try (exfalso; revert E; vm_compute; discriminate).
    destruct H as (W & m & S & K). exists v, s', m. auto.
  - pose proof (external_strings_refine_map Example.bump 21 0 Example.string_heap (laws := bignum_laws) Example.start
      (Length (Immediate Example.string_object)) Example.bump_fresh ltac:(lia) I ltac:(left; vm_compute; reflexivity)) as H.
    cbn [perform] in H. rewrite Example.length_in_heap in H. destruct H as (_ & m & S & _). exists m. exact S.
Defined.
