(* ===== verification/PrimTable.v ===== *)
(** * The table of primitives (src/src/microcode/primutl.c)

    A primitive object is an index into parallel tables of names, arities,
    argument counts, procedures and documentation strings; an AVL tree maps
    names to indices.  A dumped image refers to primitives by position in a
    table of names and arities that is dumped with it.

    A C string is the list of its bytes; a pointer to a procedure or a
    documentation string is a number.  The tables are functions of the index,
    and a store past their size is undefined.  [OS_malloc] does not return
    when it fails; the [malloc] of the tree is a parameter. *)

From Stdlib Require Import ZArith List Lia Bool String Ascii.
From S2P Require Import Prelude.
From S2P Require Import Object.
From S2P Require Import Memory.
From S2P Require Import Gc.
From S2P Require Import Heap.
From S2P Require Import AvlTree.
From S2P Require Import Symbol.
From S2P Require Import Bytes.
Import ListNotations.
Local Open Scope list_scope.

Notation TC_PRIMITIVE := 24.
Notation UNKNOWN_PRIMITIVE_ARITY := (-2).
Notation ULONG_MAX := 18446744073709551615.

Record prim_tables := mk_prim_tables {
  MAX_PRIMITIVE : Z;
  prim_table_size : Z;
  Primitive_Procedure_Table : Z -> Z;
  Primitive_Arity_Table : Z -> Z;
  Primitive_Count_Table : Z -> Z;
  Primitive_Name_Table : Z -> option name;
  Primitive_Documentation_Table : Z -> Z;
  prim_procedure_tree : tree_node;
  tree_state : AvlTree.state
}.

Definition MAKE_PRIMITIVE_OBJECT (index : Z) : Z := MAKE_OBJECT TC_PRIMITIVE index.
Definition PRIMITIVE_NUMBER (primitive : Z) : Z := OBJECT_DATUM primitive.

(** ** The monad: the tables and the memory *)

Record prim_state := mk_prim_state { tables : prim_tables; pmem : memory }.

Inductive pt_result (A : Type) :=
  | Value (a : A) (s : prim_state)
  | Initialization_error
  | Not_enough_space (s : prim_state)
  | Wrong_arity_primitives (s : prim_state)
  | Undefined.
Arguments Value {A}.
Arguments Initialization_error {A}.
Arguments Not_enough_space {A}.
Arguments Wrong_arity_primitives {A}.
Arguments Undefined {A}.

Definition pt (A : Type) : Type := prim_state -> pt_result A.

Definition ret {A} (a : A) : pt A := fun s => Value a s.
Definition bind {A B} (e : pt A) (k : A -> pt B) : pt B := fun s =>
  match e s with
  | Value a s' => k a s'
  | Initialization_error => Initialization_error
  | Not_enough_space s' => Not_enough_space s'
  | Wrong_arity_primitives s' => Wrong_arity_primitives s'
  | Undefined => Undefined
  end.
Definition undefined {A} : pt A := fun _ => Undefined.
Definition get : pt prim_tables := fun s => Value (tables s) s.
Definition put (t : prim_tables) : pt unit := fun s => Value tt (mk_prim_state t (pmem s)).
Definition read (a : Z) : pt Z := fun s => Value (pmem s a) s.
Definition change_memory (f : memory -> memory) : pt unit := fun s =>
  Value tt (mk_prim_state (tables s) (f (pmem s))).
Definition write (a v : Z) : pt unit := change_memory (fun m => store m a v).

Declare Scope pt_scope.
Delimit Scope pt_scope with pt.
Notation "x <- e ;; k" := (bind e (fun x => k))
  (at level 61, e at next level, right associativity) : pt_scope.
Notation "e ;; k" := (bind e (fun _ => k)) (at level 61, right associativity) : pt_scope.

(** [table[i] = v] *)
Definition set_at {A} (table : Z -> A) (i : Z) (v : A) : Z -> A := fun j => if j =? i then v else table j.

Definition set_tree (t : prim_tables) (tree : tree_node) (ts : AvlTree.state) : prim_tables :=
  mk_prim_tables (MAX_PRIMITIVE t) (prim_table_size t) (Primitive_Procedure_Table t) (Primitive_Arity_Table t)
    (Primitive_Count_Table t) (Primitive_Name_Table t) (Primitive_Documentation_Table t) tree ts.

Definition set_arity (t : prim_tables) (i arity : Z) : prim_tables :=
  mk_prim_tables (MAX_PRIMITIVE t) (prim_table_size t) (Primitive_Procedure_Table t)
    (set_at (Primitive_Arity_Table t) i arity) (Primitive_Count_Table t) (Primitive_Name_Table t)
    (Primitive_Documentation_Table t) (prim_procedure_tree t) (tree_state t).

Section Primitives.
Local Open Scope pt_scope.
Variable malloc : nat -> bool.
(** The procedure of a primitive that is only known by name. *)
Variable Prim_unimplemented : Z.

Definition PRIMITIVE_ARITY (t : prim_tables) (primitive : Z) : Z :=
  Primitive_Arity_Table t (PRIMITIVE_NUMBER primitive).
Definition IMPLEMENTED_PRIMITIVE_P (t : prim_tables) (primitive : Z) : bool :=
  negb (Primitive_Procedure_Table t (PRIMITIVE_NUMBER primitive) =? Prim_unimplemented).

(** ** Declaring primitives *)

(** [realloc] keeps what the tables hold. *)
Definition grow_primitive_tables (t : prim_tables) : prim_tables :=
  mk_prim_tables (MAX_PRIMITIVE t) (MAX_PRIMITIVE t + MAX_PRIMITIVE t / 10) (Primitive_Procedure_Table t)
    (Primitive_Arity_Table t) (Primitive_Count_Table t) (Primitive_Name_Table t)
    (Primitive_Documentation_Table t) (prim_procedure_tree t) (tree_state t).

Definition clear_error (ts : AvlTree.state) : AvlTree.state := AvlTree.mk_state (malloc_calls ts) None (bias ts).

(** The end of [declare_primitive_internal]. *)
Definition set_entry (t : prim_tables) (index max code nargs_hi docstr : Z) (nm : option name) : pt unit :=
  if (0 <=? index) && (index <? prim_table_size t) then
    put (mk_prim_tables max (prim_table_size t)
           (set_at (Primitive_Procedure_Table t) index code)
           (set_at (Primitive_Arity_Table t) index nargs_hi)
           (set_at (Primitive_Count_Table t) index (nargs_hi * 8))
           (match nm with Some nm => set_at (Primitive_Name_Table t) index (Some nm) | None => Primitive_Name_Table t end)
           (set_at (Primitive_Documentation_Table t) index docstr)
           (prim_procedure_tree t) (tree_state t))
  else undefined.

Definition declare_primitive_internal (override_p : bool) (nm : name) (code nargs_lo nargs_hi docstr : Z) : pt Z :=
  t <- get ;;
  match tree_lookup (prim_procedure_tree t) nm with
  | Node _ _ _ _ index =>
      let primitive := MAKE_PRIMITIVE_OBJECT index in
      if (negb (PRIMITIVE_ARITY t primitive =? nargs_hi) && negb (PRIMITIVE_ARITY t primitive =? UNKNOWN_PRIMITIVE_ARITY))
         || (IMPLEMENTED_PRIMITIVE_P t primitive && negb override_p)
      then ret (LONG_TO_UNSIGNED_FIXNUM (PRIMITIVE_NUMBER primitive))
      else
        let ndocstr := if docstr =? 0 then Primitive_Documentation_Table t index else docstr in
        set_entry t index (MAX_PRIMITIVE t) code nargs_hi ndocstr None ;;
        ret primitive
  | NULL =>
      let t := if MAX_PRIMITIVE t =? prim_table_size t then grow_primitive_tables t else t in
      let index := MAX_PRIMITIVE t in
      match tree_insert malloc (prim_procedure_tree t) nm index (tree_state t) with
      | None => undefined
      | Some (prim, ts) =>
          match tree_error_message ts with
          | Some _ => put (set_tree t (prim_procedure_tree t) (clear_error ts)) ;; ret SHARP_F
          | None =>
              set_entry (set_tree t prim ts) index (MAX_PRIMITIVE t + 1) code nargs_hi docstr (Some nm) ;;
              ret (MAKE_PRIMITIVE_OBJECT index)
          end
      end
  end.

Definition declare_primitive := declare_primitive_internal false.
Definition install_primitive := declare_primitive_internal true.

(** The copy of the name is equal to it. *)
Definition make_primitive (nm : name) (arity : Z) : pt Z :=
  t <- get ;;
  let cname := match tree_lookup (prim_procedure_tree t) nm with Node _ _ _ cname _ => cname | NULL => nm end in
  result <- declare_primitive cname Prim_unimplemented arity arity 0 ;;
  ret (if result =? SHARP_F then SHARP_F else OBJECT_NEW_TYPE TC_PRIMITIVE result).

Definition find_primitive_cname (nm : name) (intern_p allow_p : bool) (arity : Z) : pt Z :=
  t <- get ;;
  match tree_lookup (prim_procedure_tree t) nm with
  | Node _ _ _ _ value =>
      let primitive := MAKE_PRIMITIVE_OBJECT value in
      if negb allow_p && negb (IMPLEMENTED_PRIMITIVE_P t primitive) then ret SHARP_F
      else if (arity =? UNKNOWN_PRIMITIVE_ARITY) || (arity =? PRIMITIVE_ARITY t primitive) then ret primitive
      else if PRIMITIVE_ARITY t primitive =? UNKNOWN_PRIMITIVE_ARITY then
        put (set_arity t (PRIMITIVE_NUMBER primitive) arity) ;; ret primitive
      else ret (LONG_TO_FIXNUM (PRIMITIVE_ARITY t primitive))
  | NULL =>
      if negb intern_p then ret SHARP_F
      else
        primitive <- declare_primitive nm Prim_unimplemented (if arity <? 0 then 0 else arity) arity 0 ;;
        if primitive =? SHARP_F then fun s => Not_enough_space s else ret primitive
  end.

(** The bytes before the first zero; there is one within [n] bytes. *)
Fixpoint c_string (n : nat) (m : memory) (p : Z) : option name :=
  match n with
  | O => None
  | S n => let c := byte_at m p in if c =? 0 then Some [] else let* cs := c_string n m (p + 1) in Some (c :: cs)
  end.

(** [fuel] bounds the length of the names. *)
Variable fuel : nat.

(** [sname] is a string at the address. *)
Definition find_primitive (sname : Z) (intern_p allow_p : bool) (arity : Z) : pt Z := fun s =>
  match c_string fuel (pmem s) (8 * (sname + BYTEVECTOR_DATA)) with
  | Some nm => find_primitive_cname nm intern_p allow_p arity s
  | None => Undefined
  end.

(** ** Initialization *)

Fixpoint codes (s : string) : name :=
  match s with
  | EmptyString => []
  | String.String c s => Z.of_nat (nat_of_ascii c) :: codes s
  end.

Definition primitive_aliases : list (string * string) := [
  ("FALSE?", "NOT");
  ("PRIMITIVE-TYPE", "OBJECT-TYPE");
  ("PRIMITIVE-TYPE?", "OBJECT-TYPE?");
  ("&MAKE-OBJECT", "PRIMITIVE-OBJECT-SET-TYPE");
  ("SYSTEM-MEMORY-REF", "PRIMITIVE-OBJECT-REF");
  ("PRIMITIVE-OBJECT-NEW-TYPE", "PRIMITIVE-OBJECT-SET-TYPE");
  ("FILE-CLOSE-CHANNEL", "CHANNEL-CLOSE");
  ("GET-NEXT-INTERRUPT-CHARACTER", "TTY-NEXT-INTERRUPT-CHAR");
  ("REMOVE-FILE", "FILE-REMOVE");
  ("RENAME-FILE", "FILE-RENAME");
  ("COPY-FILE", "FILE-COPY");
  ("MAKE-DIRECTORY", "DIRECTORY-MAKE");
  ("SCREEN-X-SIZE", "TTY-X-SIZE");
  ("SCREEN-Y-SIZE", "TTY-Y-SIZE");
  ("FILE-SYMLINK?", "FILE-SOFT-LINK?");
  ("X-GRAPHICS-SET-CLASS-HINT", "X-WINDOW-SET-CLASS-HINT");
  ("CURRENT-FILE-TIME", "ENCODED-TIME")]%string.

(** A primitive of the tables that findprim.c generates. *)
Record static_primitive := mk_static {
  static_name : name;
  static_procedure : Z;
  static_arity : Z;
  static_documentation : Z
}.

Definition static_table {A} (default : A) (f : static_primitive -> A) (primitives : list static_primitive) (i : Z) : A :=
  match nth_error primitives (Z.to_nat i) with Some p => f p | None => default end.

(** The tables after the first [grow_primitive_tables]. *)
Definition initial_tables (primitives : list static_primitive) : prim_tables :=
  let n := Z.of_nat (List.length primitives) in
  mk_prim_tables n (n + n / 10) (static_table 0 static_procedure primitives) (static_table 0 static_arity primitives)
    (static_table 0 (fun p => static_arity p * 8) primitives) (static_table None (fun p => Some (static_name p)) primitives)
    (static_table 0 static_documentation primitives) NULL (AvlTree.mk_state 0 None 0).

Definition initialization_error {A} : pt A := fun _ => Initialization_error.

Definition declare_alias (alias nm : name) : pt unit :=
  t <- get ;;
  index <-
    match tree_lookup (prim_procedure_tree t) nm with
    | Node _ _ _ _ index => ret index
    | NULL =>
        old <- make_primitive nm UNKNOWN_PRIMITIVE_ARITY ;;
        if old =? SHARP_F then initialization_error else ret (PRIMITIVE_NUMBER old)
    end ;;
  t <- get ;;
  match tree_insert malloc (prim_procedure_tree t) alias index (tree_state t) with
  | None => undefined
  | Some (tree, ts) =>
      match tree_error_message ts with
      | Some _ => initialization_error
      | None => put (set_tree t tree ts)
      end
  end.

Fixpoint declare_aliases (aliases : list (string * string)) : pt unit :=
  match aliases with
  | [] => ret tt
  | (alias, nm) :: aliases => declare_alias (codes alias) (codes nm) ;; declare_aliases aliases
  end.

Definition initialize_primitives (primitives : list static_primitive) : pt unit :=
  let t := initial_tables primitives in
  match tree_build malloc 64 (MAX_PRIMITIVE t) (map static_name primitives) 0 (tree_state t) with
  | None => undefined
  | Some (tree, ts) =>
      match tree_error_message ts with
      | Some _ => initialization_error
      | None => put (set_tree t tree ts) ;; declare_aliases primitive_aliases
      end
  end.

(** ** Renumbering *)

Record prim_renumber_t := mk_renumber {
  pr_size : Z;
  internal : Z -> Z;
  external : Z -> Z;
  next_code : Z
}.

Definition make_prim_renumber (t : prim_tables) : prim_renumber_t :=
  mk_renumber (MAX_PRIMITIVE t) (fun _ => ULONG_MAX) (fun _ => ULONG_MAX) 0.

(** The arrays have [pr_size] elements. *)
Definition renumber_primitive (primitive : Z) (pr : prim_renumber_t) : option (Z * prim_renumber_t) :=
  let old := OBJECT_DATUM primitive in
  assert* old <? pr_size pr in
  let new := internal pr old in
  if new =? ULONG_MAX then
    let new := next_code pr in
    assert* new <? pr_size pr in
    Some (OBJECT_NEW_DATUM primitive new,
          mk_renumber (pr_size pr) (set_at (internal pr) old new) (set_at (external pr) new old) (new + 1))
  else Some (OBJECT_NEW_DATUM primitive new, pr).

(** ** Export *)

Definition BYTES_TO_WORDS (nbytes : Z) : Z := (nbytes + 7) / 8.
Definition STRING_LENGTH_TO_GC_LENGTH (n_chars : Z) : Z := BYTES_TO_WORDS (n_chars + 1) + 1.

Definition source_name (t : prim_tables) (code : Z) : name :=
  match Primitive_Name_Table t code with Some nm => nm | None => [] end.

Definition table_entry_length (t : prim_tables) (code : Z) : Z :=
  STRING_LENGTH_TO_GC_LENGTH (Z.of_nat (List.length (source_name t code))) + 2.

Definition make_table_entry (code start : Z) : pt Z :=
  t <- get ;;
  let source := source_name t code in
  let n_chars := Z.of_nat (List.length source) in
  let n_words := STRING_LENGTH_TO_GC_LENGTH n_chars in
  write start (LONG_TO_FIXNUM (Primitive_Arity_Table t code)) ;;
  write (start + 1) (MAKE_OBJECT TC_MANIFEST_NM_VECTOR n_words) ;;
  write (start + 2) (MAKE_OBJECT 0 n_chars) ;;
  change_memory (fun m => set_bytes m (8 * (start + 3)) (source ++ [0])) ;;
  ret (start + 2 + n_words).

(** The codes that a loop runs through. *)
Definition renumbered_codes (pr : prim_renumber_t) : list Z :=
  map (fun i => external pr (Z.of_nat i)) (seq 0 (Z.to_nat (next_code pr))).
Definition all_codes (t : prim_tables) : list Z := map Z.of_nat (seq 0 (Z.to_nat (MAX_PRIMITIVE t))).

Definition export_length (t : prim_tables) (codes : list Z) : Z :=
  fold_left (fun result code => result + table_entry_length t code) codes 0.

Fixpoint export_entries (codes : list Z) (start : Z) : pt unit :=
  match codes with
  | [] => ret tt
  | code :: codes => start <- make_table_entry code start ;; export_entries codes start
  end.

Definition renumbered_primitives_export_length (t : prim_tables) (pr : prim_renumber_t) : Z :=
  export_length t (renumbered_codes pr).
Definition export_renumbered_primitives (start : Z) (pr : prim_renumber_t) : pt unit :=
  export_entries (renumbered_codes pr) start.
Definition primitive_table_export_length (t : prim_tables) : Z := export_length t (all_codes t).
Definition export_primitive_table (start : Z) : pt unit := t <- get ;; export_entries (all_codes t) start.

(** ** Import *)

Fixpoint import_entries (n : nat) (entries primitives : Z) : pt unit :=
  match n with
  | O => ret tt
  | S n =>
      w <- read entries ;;
      let arity := FIXNUM_TO_LONG w in
      prim <- find_primitive (entries + 1) true true arity ;;
      if negb (OBJECT_TYPE prim =? TC_PRIMITIVE) then fun s => Wrong_arity_primitives s
      else
        write primitives prim ;;
        h <- read (entries + 1) ;;
        import_entries n (entries + 1 + (1 + OBJECT_DATUM h)) (primitives + 1)
  end.

Definition import_primitive_table (entries n_entries primitives : Z) : pt unit :=
  import_entries (Z.to_nat n_entries) entries primitives.

End Primitives.
