(* ===== verification/PrimTableProps.v ===== *)
(** * The primitive tables: finding, dumping, loading (for PrimTable.v)

    The tables of PrimTable.v are well-formed when the tree is a balanced
    search tree that gives every name of the tables its index.  Then names are
    found, a dumped table of names and arities is understood by any other
    microcode, and by the same one as exactly the primitives that were
    dumped.

    [initialize_primitives] of PrimTable.v makes well-formed tables in which
    every primitive of the generated tables has its name, and every alias
    stands for the primitive that it renames. *)

From Stdlib Require Import String ZArith List Lia Bool FinFun Sorted.
From S2P Require Import Prelude.
From S2P Require Import Object.
From S2P Require Import Memory.
From S2P Require Import AvlTree.
From S2P Require Import Gc.
From S2P Require Import Heap.
From S2P Require Import Symbol.
From S2P Require Import Bytes.
From S2P Require Import PrimTable.
Import ListNotations.
Local Open Scope list_scope.

#[local] Opaque MAKE_OBJECT OBJECT_DATUM OBJECT_TYPE.

(** ** Well-formed tables *)

Definition index_of (t : prim_tables) (nm : name) : option Z := node_value (tree_lookup (prim_procedure_tree t) nm).

(** A name without a zero. *)
Definition c_name (nm : name) : Prop := Forall (fun b => 0 < b < 256) nm.

Record wf_tables (t : prim_tables) : Prop := {
  wf_balanced : balanced (prim_procedure_tree t);
  wf_sorted : search_tree (prim_procedure_tree t);
  wf_no_error : tree_error_message (tree_state t) = None;
  wf_size : 10 <= MAX_PRIMITIVE t <= prim_table_size t;
  wf_index : forall nm i, index_of t nm = Some i -> 0 <= i < MAX_PRIMITIVE t;
  wf_name : forall i, 0 <= i < MAX_PRIMITIVE t ->
    exists nm, Primitive_Name_Table t i = Some nm /\ c_name nm /\ index_of t nm = Some i
}.

(** Later tables: more primitives, or more arities. *)
Record extends (t t' : prim_tables) : Prop := {
  ex_max : MAX_PRIMITIVE t <= MAX_PRIMITIVE t';
  ex_index : forall nm i, index_of t nm = Some i -> index_of t' nm = Some i;
  ex_entry : forall i, 0 <= i < MAX_PRIMITIVE t ->
    Primitive_Name_Table t' i = Primitive_Name_Table t i
    /\ Primitive_Procedure_Table t' i = Primitive_Procedure_Table t i
    /\ (Primitive_Arity_Table t i <> UNKNOWN_PRIMITIVE_ARITY -> Primitive_Arity_Table t' i = Primitive_Arity_Table t i)
}.

Lemma tables_extend_refl t : extends t t.
Proof. constructor; auto. lia. Qed.

Lemma tables_extend_trans t1 t2 t3 : extends t1 t2 -> extends t2 t3 -> extends t1 t3.
Proof.
  intros [M1 I1 E1] [M2 I2 E2]. constructor; [lia | auto |]. intros i Hi.
  destruct (E1 i Hi) as (N1 & P1 & A1), (E2 i) as (N2 & P2 & A2); [lia|]. rewrite N2, P2. split; [exact N1|]. split; [exact P1|].
  intros U. rewrite <- (A1 U). apply A2. rewrite (A1 U). exact U.
Qed.

Lemma index_equal t a b : wf_tables t -> strcmp_ci a b = 0 -> index_of t a = index_of t b.
Proof. intros W E. unfold index_of. rewrite !tree_lookup_spec by apply W. apply lookup_equal, E. Qed.

Lemma primitive_parts i : 0 <= i < 2 ^ 58 -> OBJECT_DATUM (MAKE_PRIMITIVE_OBJECT i) = i /\ OBJECT_TYPE (MAKE_PRIMITIVE_OBJECT i) = TC_PRIMITIVE.
Proof. intros H. unfold MAKE_PRIMITIVE_OBJECT. destruct (MAKE_OBJECT_parts TC_PRIMITIVE i) as [E1 E2]; auto; lia. Qed.

Lemma primitive_not_false i : 0 <= i < 2 ^ 58 -> (MAKE_PRIMITIVE_OBJECT i =? SHARP_F) = false.
Proof.
  intros H. apply Z.eqb_neq. intros E. destruct (primitive_parts i H) as [_ T]. rewrite E in T. discriminate T.
Qed.

Section Finding.
Variable malloc : nat -> bool.
Variable Prim_unimplemented : Z.
Notation find_primitive_cname := (find_primitive_cname malloc Prim_unimplemented).
Notation declare_primitive := (declare_primitive malloc Prim_unimplemented).

(** ** A new primitive *)

Lemma insert_new nm v t ts : balanced t -> search_tree t -> tree_error_message ts = None -> lookup (entries t) nm = None ->
  exists t' ts', tree_insert malloc t nm v ts = Some (t', ts')
    /\ if malloc (malloc_calls ts) then
         tree_error_message ts' = None /\ balanced t' /\ search_tree t'
         /\ forall m, lookup (entries t') m = match lookup (entries t) m with Some w => Some w
              | None => if strcmp_ci m nm =? 0 then Some v else None end
       else exists e, tree_error_message ts' = Some e.
Proof.
  intros B S E L. destruct (tree_insert_spec malloc nm v t ts B S) as (t' & ts' & I & P). rewrite L in P.
  exists t', ts'. split; [exact I|]. destruct P as [-> (B' & _ & Es)]. unfold leaf_make. destruct (malloc (malloc_calls ts)).
  - split; [exact E|]. split; [exact B'|]. split; [unfold search_tree; rewrite Es; apply list_insert_sorted, S|].
    intros m. rewrite Es. apply lookup_list_insert, S.
  - exists leaf_make_malloc_failed. reflexivity.
Qed.

Lemma declare_new nm arity lo s : wf_tables (tables s) -> c_name nm -> index_of (tables s) nm = None ->
  match declare_primitive nm Prim_unimplemented lo arity 0 s with
  | Value p s' =>
      pmem s' = pmem s /\
      if malloc (malloc_calls (tree_state (tables s))) then
        p = MAKE_PRIMITIVE_OBJECT (MAX_PRIMITIVE (tables s)) /\ wf_tables (tables s') /\ extends (tables s) (tables s')
        /\ MAX_PRIMITIVE (tables s') = MAX_PRIMITIVE (tables s) + 1
        /\ Primitive_Arity_Table (tables s') (MAX_PRIMITIVE (tables s)) = arity
        /\ Primitive_Procedure_Table (tables s') (MAX_PRIMITIVE (tables s)) = Prim_unimplemented
        /\ (forall j, 0 <= j < MAX_PRIMITIVE (tables s) -> Primitive_Arity_Table (tables s') j = Primitive_Arity_Table (tables s) j)
        /\ (forall m, index_of (tables s') m = match index_of (tables s) m with Some i => Some i
              | None => if strcmp_ci m nm =? 0 then Some (MAX_PRIMITIVE (tables s)) else None end)
      else p = SHARP_F /\ wf_tables (tables s') /\ extends (tables s) (tables s')
  | _ => False
  end.
Proof.
  intros W C N. unfold PrimTable.declare_primitive, declare_primitive_internal, bind, get.
  set (t := tables s) in *. unfold index_of in N. destruct (tree_lookup (prim_procedure_tree t) nm) eqn:L; [|discriminate].
  set (g := if MAX_PRIMITIVE t =? prim_table_size t then grow_primitive_tables t else t).
  assert (G : MAX_PRIMITIVE g = MAX_PRIMITIVE t /\ Primitive_Procedure_Table g = Primitive_Procedure_Table t
    /\ Primitive_Arity_Table g = Primitive_Arity_Table t /\ Primitive_Name_Table g = Primitive_Name_Table t
    /\ prim_procedure_tree g = prim_procedure_tree t /\ tree_state g = tree_state t /\ MAX_PRIMITIVE t < prim_table_size g).
  { pose proof (wf_size _ W). unfold g. destruct (Z.eqb_spec (MAX_PRIMITIVE t) (prim_table_size t)) as [E | E].
    - cbn. repeat (split; [reflexivity|]). pose proof (Z.div_le_mono 10 (MAX_PRIMITIVE t) 10). cbn in *. lia.
    - repeat (split; [reflexivity|]). lia. }
  destruct G as (G1 & G2 & G3 & G4 & G5 & G6 & G7). rewrite G1, G5, G6.
  destruct (insert_new nm (MAX_PRIMITIVE t) (prim_procedure_tree t) (tree_state t)) as (tr & ts & -> & P); try apply W.
  { rewrite <- tree_lookup_spec by apply W. rewrite L. reflexivity. }
  destruct (malloc (malloc_calls (tree_state t))).
  - destruct P as (Er & B & S & Lk). rewrite Er. unfold set_entry. cbn [set_tree prim_table_size].
    pose proof (wf_size _ W) as Sz. destruct (Z.leb_spec 0 (MAX_PRIMITIVE t)); [|lia].
    destruct (Z.ltb_spec (MAX_PRIMITIVE t) (prim_table_size g)); [|lia]. cbn [andb put]. unfold put, ret.
    split; [reflexivity|]. split; [reflexivity|].
    set (t' := mk_prim_tables _ _ _ _ _ _ _ _ _). cbn [tables].
    assert (Idx : forall m, index_of t' m = match index_of t m with Some i => Some i
              | None => if strcmp_ci m nm =? 0 then Some (MAX_PRIMITIVE t) else None end).
    { intros m. unfold index_of. cbn [t' prim_procedure_tree set_tree]. rewrite !tree_lookup_spec; [exact (Lk m) | apply W | exact S]. }
    assert (X : extends t t').
    { constructor.
      - cbn. lia.
      - intros m i Hi. rewrite Idx, Hi. reflexivity.
      - intros i Hi. cbn [t' set_tree Primitive_Name_Table Primitive_Procedure_Table Primitive_Arity_Table].
        unfold set_at. destruct (Z.eqb_spec i (MAX_PRIMITIVE t)); [lia|]. rewrite G2, G3, G4. auto. }
    split; [|split; [exact X|split; [reflexivity|split; [|split; [|split; [|exact Idx]]]]]].
    + constructor; cbn [t' set_tree prim_procedure_tree tree_state MAX_PRIMITIVE prim_table_size]; auto; try lia.
      * intros m i. rewrite Idx. destruct (index_of t m) as [j|] eqn:J.
        -- intros [= <-]. pose proof (wf_index _ W m j J). lia.
        -- destruct (_ =? 0); [|discriminate]. intros [= <-]. lia.
      * intros i Hi. destruct (Z.eq_dec i (MAX_PRIMITIVE t)) as [-> | Ne].
        -- exists nm. cbn [t' set_tree Primitive_Name_Table]. unfold set_at. rewrite Z.eqb_refl. split; [reflexivity|].
           split; [exact C|]. rewrite Idx. unfold index_of. rewrite L. cbn [node_value]. rewrite strcmp_refl. reflexivity.
        -- destruct (wf_name _ W i) as (m & N1 & N2 & N3); [lia|]. exists m.
           destruct (ex_entry _ _ X i) as (E & _); [lia|]. rewrite E.
           split; [exact N1|]. split; [exact N2|]. rewrite Idx, N3. reflexivity.
    + cbn. unfold set_at. rewrite Z.eqb_refl. reflexivity.
    + cbn. unfold set_at. rewrite Z.eqb_refl. reflexivity.
    + intros j Hj. cbn. unfold set_at. rewrite G3. destruct (Z.eqb_spec j (MAX_PRIMITIVE t)); [lia | reflexivity].
  - destruct P as [e Er]. rewrite Er. unfold put, ret. cbn [tables pmem]. split; [reflexivity|]. split; [reflexivity|].
    assert (X : extends t (set_tree g (prim_procedure_tree g) (clear_error ts))).
    { constructor.
      - cbn. lia.
      - intros m i. unfold index_of. cbn [set_tree prim_procedure_tree]. rewrite G5. auto.
      - intros i Hi. cbn [set_tree Primitive_Name_Table Primitive_Procedure_Table Primitive_Arity_Table]. rewrite G2, G3, G4. auto. }
    split; [|rewrite G5 in X; exact X].
    pose proof (wf_size _ W). constructor; cbn [set_tree prim_procedure_tree tree_state MAX_PRIMITIVE prim_table_size clear_error tree_error_message]; try apply W; auto.
    + lia.
    + intros m i Hi. rewrite G1. apply (wf_index _ W m i Hi).
    + intros i Hi. rewrite G1 in Hi. cbn [set_tree Primitive_Name_Table]. rewrite G4. apply (wf_name _ W i Hi).
Qed.

(** ** Finding a primitive *)

(** The tables after the name [nm] was found or declared with the index [i]. *)
Record found (t : prim_tables) (nm : name) (arity i : Z) (t' : prim_tables) : Prop := {
  fo_wf : wf_tables t';
  fo_extends : extends t t';
  fo_index : index_of t' nm = Some i;
  fo_range : 0 <= i < MAX_PRIMITIVE t';
  fo_max : MAX_PRIMITIVE t' <= MAX_PRIMITIVE t + 1;
  fo_arity : arity <> UNKNOWN_PRIMITIVE_ARITY -> Primitive_Arity_Table t' i = arity;
  fo_arities : forall j, 0 <= j < MAX_PRIMITIVE t -> Primitive_Arity_Table t' j = Primitive_Arity_Table t j \/ j = i;
  fo_names : forall m j, index_of t' m = Some j ->
    index_of t m = Some j \/ index_of t nm = None /\ strcmp_ci m nm = 0 /\ j = MAX_PRIMITIVE t;
  fo_same : index_of t nm = Some i -> arity = Primitive_Arity_Table t i -> t' = t;
  fo_new : index_of t nm = None -> Primitive_Arity_Table t' i = arity
}.

Lemma found_here t nm arity i : wf_tables t -> index_of t nm = Some i ->
  arity = UNKNOWN_PRIMITIVE_ARITY \/ arity = Primitive_Arity_Table t i -> found t nm arity i t.
Proof.
  intros W I A. pose proof (wf_index _ W nm i I). constructor; auto using tables_extend_refl; [lia | | congruence].
  intros N. destruct A; congruence.
Qed.

Lemma found_arity t nm arity i : wf_tables t -> index_of t nm = Some i ->
  Primitive_Arity_Table t i = UNKNOWN_PRIMITIVE_ARITY -> arity <> UNKNOWN_PRIMITIVE_ARITY ->
  found t nm arity i (set_arity t i arity).
Proof.
  intros W I U N. assert (At : forall j, Primitive_Arity_Table (set_arity t i arity) j = if j =? i then arity else Primitive_Arity_Table t j) by reflexivity.
  constructor; auto.
  - destruct W. constructor; assumption.
  - constructor; cbn [set_arity MAX_PRIMITIVE Primitive_Name_Table Primitive_Procedure_Table]; auto; [lia|].
    intros j Hj. rewrite At. destruct (Z.eqb_spec j i); [|auto]. subst. split; [reflexivity|]. split; [reflexivity|]. congruence.
  - apply (wf_index _ W nm i I).
  - cbn. lia.
  - intros _. rewrite At, Z.eqb_refl. reflexivity.
  - intros j _. rewrite At. destruct (Z.eqb_spec j i); auto.
  - congruence.
  - congruence.
Qed.

Lemma find_interned nm arity s : wf_tables (tables s) -> c_name nm -> MAX_PRIMITIVE (tables s) < 2 ^ 58 ->
  match find_primitive_cname nm true true arity s with
  | Value p s' => pmem s' = pmem s /\
      ((exists i, p = MAKE_PRIMITIVE_OBJECT i /\ found (tables s) nm arity i (tables s'))
       \/ exists i, index_of (tables s) nm = Some i /\ arity <> UNKNOWN_PRIMITIVE_ARITY
            /\ Primitive_Arity_Table (tables s) i <> UNKNOWN_PRIMITIVE_ARITY /\ Primitive_Arity_Table (tables s) i <> arity
            /\ p = fixnum (Primitive_Arity_Table (tables s) i) /\ tables s' = tables s)
  | Not_enough_space s' => index_of (tables s) nm = None /\ malloc (malloc_calls (tree_state (tables s))) = false
  | _ => False
  end.
Proof.
  intros W C M. unfold PrimTable.find_primitive_cname, bind, get. set (t := tables s) in *.
  destruct (index_of t nm) as [i|] eqn:I.
  - pose proof (wf_index _ W nm i I). pose proof I as I'. unfold index_of in I'.
    destruct (tree_lookup (prim_procedure_tree t) nm) as [|? ? ? ? v]; [discriminate|]. injection I' as ->.
    destruct (primitive_parts i) as [D _]; [lia|].
    cbn [negb andb]. unfold PRIMITIVE_ARITY, PRIMITIVE_NUMBER. rewrite D.
    destruct (Z.eqb_spec arity UNKNOWN_PRIMITIVE_ARITY) as [E1 | E1]; cbn [orb].
    { split; [reflexivity|]. left. exists i. auto using found_here. }
    destruct (Z.eqb_spec arity (Primitive_Arity_Table t i)) as [E2 | E2].
    { split; [reflexivity|]. left. exists i. auto using found_here. }
    destruct (Z.eqb_spec (Primitive_Arity_Table t i) UNKNOWN_PRIMITIVE_ARITY) as [E3 | E3].
    { split; [reflexivity|]. left. exists i. split; [reflexivity|]. apply found_arity; auto. }
    split; [reflexivity|]. right. exists i. rewrite LONG_TO_FIXNUM_fixnum. auto 10.
  - pose proof I as None'. pose proof (declare_new nm arity (if arity <? 0 then 0 else arity) s W C I) as P. fold t in P. unfold index_of in I.
    destruct (tree_lookup (prim_procedure_tree t) nm); [|discriminate]. cbn [negb].
    destruct (declare_primitive nm Prim_unimplemented _ arity 0 s) as [p s' | | | |]; try contradiction.
    destruct P as [Pm P]. destruct (malloc _) eqn:Ma.
    + destruct P as (-> & W' & X & Mx & A & _ & Old & Idx). pose proof (wf_size _ W). rewrite primitive_not_false by lia.
      split; [exact Pm|]. left. exists (MAX_PRIMITIVE t). split; [reflexivity|].
      constructor; auto; try lia.
      * rewrite Idx, None', strcmp_refl. reflexivity.
      * intros m j. rewrite Idx. destruct (index_of t m); [auto|]. destruct (Z.eqb_spec (strcmp_ci m nm) 0); [|discriminate].
        intros [= <-]. auto.
      * congruence.
    + destruct P as (-> & _). cbn. auto.
Qed.

(** ** A table of names and arities in memory *)

Definition name_length (nm : name) : Z := Z.of_nat (length nm).
Definition entry_size (nm : name) : Z := STRING_LENGTH_TO_GC_LENGTH (name_length nm) + 2.

Record entry_at (m : memory) (a : Z) (nm : name) (arity : Z) : Prop := {
  en_arity : m a = fixnum arity;
  en_header : m (a + 1) = MAKE_OBJECT TC_MANIFEST_NM_VECTOR (entry_size nm - 2);
  en_bytes : bytes_at m (8 * (a + 3)) (name_length nm + 1) = nm ++ [0]
}.

Inductive table_at (m : memory) : Z -> list (name * Z) -> Prop :=
  | table_nil a : table_at m a []
  | table_cons a nm arity es : entry_at m a nm arity -> table_at m (a + entry_size nm) es -> table_at m a ((nm, arity) :: es).

Definition table_size (es : list (name * Z)) : Z := fold_right (fun e n => entry_size (fst e) + n) 0 es.

Lemma name_words nm : 0 <= name_length nm -> entry_size nm = 4 + name_length nm / 8.
Proof.
  intros H. unfold entry_size, STRING_LENGTH_TO_GC_LENGTH, BYTES_TO_WORDS.
  replace (name_length nm + 1 + 7) with (name_length nm + 1 * 8) by lia. rewrite Z.div_add by lia. lia.
Qed.

Lemma entry_size_pos nm : 4 <= entry_size nm.
Proof. rewrite name_words by (unfold name_length; lia). pose proof (Z.div_pos (name_length nm) 8). unfold name_length in *. lia. Qed.

Lemma table_size_nonneg es : 0 <= table_size es.
Proof. induction es as [|[nm arity] es IH]; cbn [table_size fold_right fst]; [lia|]. pose proof (entry_size_pos nm). unfold table_size in IH. lia. Qed.

Lemma entry_at_kept m m' a nm arity : (forall x, a <= x < a + entry_size nm -> m' x = m x) -> entry_at m a nm arity -> entry_at m' a nm arity.
Proof.
  intros E [A H B]. pose proof (entry_size_pos nm). constructor.
  - rewrite E by lia. exact A.
  - rewrite E by lia. exact H.
  - rewrite <- B. apply bytes_at_word. intros x Hx. apply E. rewrite name_words in * by (unfold name_length; lia).
    replace (8 * (a + 3) + (name_length nm + 1) - 1) with (name_length nm + (a + 3) * 8) in Hx by lia.
    rewrite Z.div_add in Hx by lia. replace (8 * (a + 3)) with ((a + 3) * 8) in Hx by lia. rewrite Z.div_mul in Hx by lia. lia.
Qed.

Lemma table_at_kept m m' es : forall a, (forall x, a <= x < a + table_size es -> m' x = m x) -> table_at m a es -> table_at m' a es.
Proof.
  induction es as [|[nm arity] es IH]; intros a E T; [constructor|]. inversion T as [|? ? ? ? En T']; subst.
  cbn [table_size fold_right fst] in E. fold (table_size es) in E. pose proof (table_size_nonneg es). pose proof (entry_size_pos nm).
  constructor.
  - apply (entry_at_kept m); [intros x Hx; apply E; lia | exact En].
  - apply IH; [intros x Hx; apply E; lia | exact T'].
Qed.

Lemma bytes_at_cons m p n : 0 <= n -> bytes_at m p (n + 1) = byte_at m p :: bytes_at m (p + 1) n.
Proof.
  intros H. rewrite Z.add_comm, bytes_at_app by lia. change (bytes_at m p 1) with [byte_at m (p + 0)]. rewrite Z.add_0_r. reflexivity.
Qed.

Lemma c_string_bytes n m nm : forall p, c_name nm -> bytes_at m p (name_length nm + 1) = nm ++ [0] -> (length nm < n)%nat ->
  c_string n m p = Some nm.
Proof.
  revert nm. induction n as [|n IH]; intros nm p C B L; [lia|]. cbn [c_string].
  rewrite bytes_at_cons in B by (unfold name_length; lia). destruct nm as [|c nm]; cbn [app] in B; injection B as B1; [|rename H into B2].
  - rewrite B1. reflexivity.
  - rewrite B1. inversion C as [|? ? C1 C2]; subst. destruct (Z.eqb_spec (byte_at m p) 0) as [E | E]; [lia|].
    rewrite (IH nm); [reflexivity | exact C2 | | cbn in L; lia].
    replace (name_length nm + 1) with (name_length (byte_at m p :: nm)) by (unfold name_length; cbn [length]; lia). exact B2.
Qed.

(** ** Export *)

Definition entry_of (t : prim_tables) (code : Z) : name * Z := (source_name t code, Primitive_Arity_Table t code).

Lemma make_table_entry_run code start s : c_name (source_name (tables s) code) ->
  exists m, make_table_entry code start s = Value (start + entry_size (source_name (tables s) code)) (mk_prim_state (tables s) m)
    /\ entry_at m start (source_name (tables s) code) (Primitive_Arity_Table (tables s) code)
    /\ forall x, x < start \/ start + entry_size (source_name (tables s) code) <= x -> m x = pmem s x.
Proof.
  intros C. set (nm := source_name (tables s) code) in *. unfold make_table_entry, bind, get, write, change_memory, ret.
  cbn [pmem tables]. fold nm. eexists. split; [|split].
  - f_equal. unfold entry_size, name_length. lia.
  - assert (Out : forall x, x <= start + 2 -> set_bytes (store (store (store (pmem s) start (LONG_TO_FIXNUM (Primitive_Arity_Table (tables s) code)))
        (start + 1) (MAKE_OBJECT TC_MANIFEST_NM_VECTOR (STRING_LENGTH_TO_GC_LENGTH (Z.of_nat (length nm)))))
        (start + 2) (MAKE_OBJECT 0 (Z.of_nat (length nm)))) (8 * (start + 3)) (nm ++ [0]) x
      = store (store (store (pmem s) start (LONG_TO_FIXNUM (Primitive_Arity_Table (tables s) code)))
        (start + 1) (MAKE_OBJECT TC_MANIFEST_NM_VECTOR (STRING_LENGTH_TO_GC_LENGTH (Z.of_nat (length nm)))))
        (start + 2) (MAKE_OBJECT 0 (Z.of_nat (length nm))) x).
    { intros x Hx. apply set_bytes_word. left. replace (8 * (start + 3)) with ((start + 3) * 8) by lia. rewrite Z.div_mul; lia. }
    constructor.
    + rewrite Out, !store_other, store_same by lia. apply LONG_TO_FIXNUM_fixnum.
    + rewrite Out, store_other, store_same by lia. f_equal. unfold entry_size, name_length. lia.
    + replace (name_length nm + 1) with (Z.of_nat (length (nm ++ [0]))) by (rewrite length_app; unfold name_length; cbn; lia).
      apply bytes_at_set_bytes. apply Forall_app. split; [|repeat constructor; lia].
      eapply Forall_impl; [|exact C]. intros b Hb. red. cbn in Hb. lia.
  - intros x Hx. assert (L : 0 <= name_length nm) by (unfold name_length; lia). pose proof (name_words nm L) as E.
    pose proof (entry_size_pos nm). rewrite set_bytes_word.
    + rewrite !store_other by lia. reflexivity.
    + rewrite length_app. cbn [length]. replace (8 * (start + 3)) with ((start + 3) * 8) by lia. rewrite Z.div_mul by lia.
      replace ((start + 3) * 8 + Z.of_nat (length nm + 1) - 1) with (name_length nm + (start + 3) * 8) by (unfold name_length; lia).
      rewrite Z.div_add by lia. lia.
Qed.

Lemma export_entries_run codes : forall start s, Forall (fun code => c_name (source_name (tables s) code)) codes ->
  exists m, export_entries codes start s = Value tt (mk_prim_state (tables s) m)
    /\ table_at m start (map (entry_of (tables s)) codes)
    /\ forall x, x < start \/ start + table_size (map (entry_of (tables s)) codes) <= x -> m x = pmem s x.
Proof.
  induction codes as [|code codes IH]; intros start s C; cbn [export_entries map].
  - exists (pmem s). split; [destruct s; reflexivity|]. split; [constructor | reflexivity].
  - inversion C as [|? ? C1 C2]; subst. destruct (make_table_entry_run code start s C1) as (m1 & E1 & A1 & O1).
    set (nm := source_name (tables s) code) in *. unfold bind. rewrite E1.
    destruct (IH (start + entry_size nm) (mk_prim_state (tables s) m1) C2) as (m & E & T & O). cbn [tables pmem] in *.
    exists m. split; [exact E|]. pose proof (entry_size_pos nm). pose proof (table_size_nonneg (map (entry_of (tables s)) codes)).
    split.
    + constructor; [|exact T]. fold nm. apply (entry_at_kept m1); [intros x Hx; apply O; lia | exact A1].
    + intros x Hx. cbn [table_size fold_right entry_of fst] in Hx. fold nm in Hx.
      fold (table_size (map (entry_of (tables s)) codes)) in Hx. rewrite O, O1 by lia. reflexivity.
Qed.

Lemma export_length_size t codes : export_length t codes = table_size (map (entry_of t) codes).
Proof.
  unfold export_length. assert (G : forall acc, fold_left (fun result code => result + table_entry_length t code) codes acc
      = acc + table_size (map (entry_of t) codes)).
  { induction codes as [|code codes IH]; intros acc; cbn [fold_left map table_size fold_right]; [lia|].
    rewrite IH. unfold table_size. cbn [entry_of fst]. unfold table_entry_length, entry_size, name_length. lia. }
  rewrite G. lia.
Qed.

(** ** Import *)

(** Two names stand for the same primitive. *)
Definition same_primitive (t : prim_tables) (a b : name) : Prop :=
  strcmp_ci a b = 0 \/ exists i, index_of t a = Some i /\ index_of t b = Some i.

(** The arity of an entry disagrees with that of a primitive, or of another
    entry for the same primitive. *)
Definition arity_conflict (t : prim_tables) (es : list (name * Z)) : Prop :=
  exists nm arity arity', In (nm, arity) es /\ arity <> UNKNOWN_PRIMITIVE_ARITY /\ arity' <> UNKNOWN_PRIMITIVE_ARITY /\ arity' <> arity
    /\ ((exists i, index_of t nm = Some i /\ Primitive_Arity_Table t i = arity')
        \/ exists nm', In (nm', arity') es /\ same_primitive t nm' nm).

Lemma arity_conflict_step t nm0 arity0 i t' es : wf_tables t -> found t nm0 arity0 i t' ->
  arity_conflict t' es -> arity_conflict t ((nm0, arity0) :: es).
Proof.
  intros W F (nm & arity & arity' & In1 & U1 & U2 & Ne & [(j & J & A) | (nm' & In2 & Sm)]).
  - exists nm, arity, arity'. split; [right; exact In1|]. split; [exact U1|]. split; [exact U2|]. split; [exact Ne|].
    destruct (fo_names _ _ _ _ _ F nm j J) as [Old | (N & E & ->)].
    + pose proof (wf_index _ W nm j Old) as R. destruct (Z.eq_dec j i) as [-> | Nj].
      * destruct (Z.eq_dec arity0 UNKNOWN_PRIMITIVE_ARITY) as [U | U].
        -- left. exists i. split; [exact Old|]. destruct (Z.eq_dec (Primitive_Arity_Table t i) UNKNOWN_PRIMITIVE_ARITY) as [Ui | Ui].
           ++ exfalso. destruct (index_of t nm0) as [k|] eqn:K.
              ** assert (k = i) as ->.
                 { pose proof (ex_index _ _ (fo_extends _ _ _ _ _ F) nm0 k K) as K'. rewrite (fo_index _ _ _ _ _ F) in K'. congruence. }
                 rewrite (fo_same _ _ _ _ _ F K) in A by congruence. congruence.
              ** destruct (fo_names _ _ _ _ _ F nm0 i (fo_index _ _ _ _ _ F)) as [H | (_ & _ & H)]; [congruence | lia].
           ++ destruct (ex_entry _ _ (fo_extends _ _ _ _ _ F) i R) as (_ & _ & H). rewrite <- (H Ui). exact A.
        -- right. exists nm0. rewrite <- A, (fo_arity _ _ _ _ _ F U). split; [left; reflexivity|]. right. exists i.
           split; [|exact Old]. destruct (fo_names _ _ _ _ _ F nm0 i (fo_index _ _ _ _ _ F)) as [H | (_ & _ & H)]; [exact H | lia].
      * left. exists j. split; [exact Old|]. destruct (fo_arities _ _ _ _ _ F j R) as [H | H]; congruence.
    + right. exists nm0. assert (i = MAX_PRIMITIVE t).
      { pose proof (fo_index _ _ _ _ _ F) as H. rewrite <- (index_equal t' nm nm0 (fo_wf _ _ _ _ _ F) E), J in H. congruence. }
      subst i. destruct (Z.eq_dec arity0 UNKNOWN_PRIMITIVE_ARITY) as [U | U].
      * rewrite (fo_new _ _ _ _ _ F N) in A. congruence.
      * rewrite <- A, (fo_arity _ _ _ _ _ F U). split; [left; reflexivity|]. left. apply strcmp_eq_sym, E.
  - exists nm, arity, arity'. split; [right; exact In1|]. split; [exact U1|]. split; [exact U2|]. split; [exact Ne|].
    right. exists nm'. split; [right; exact In2|]. destruct Sm as [Sm | (k & K1 & K2)]; [left; exact Sm|].
    destruct (fo_names _ _ _ _ _ F nm' k K1) as [O1 | (_ & E1 & M1)], (fo_names _ _ _ _ _ F nm k K2) as [O2 | (_ & E2 & M2)].
    + right. exists k. auto.
    + pose proof (wf_index _ W nm' k O1). lia.
    + pose proof (wf_index _ W nm k O2). lia.
    + left. rewrite (strcmp_eq_l nm' nm0 nm E1). apply strcmp_eq_sym, E2.
Qed.

Variable fuel : nat.
Notation import_entries := (import_entries malloc Prim_unimplemented fuel).

(** An entry that can be read: a name that fits in the fuel, and an arity that
    is a fixnum. *)
Definition readable (e : name * Z) : Prop := c_name (fst e) /\ fixnum_range (snd e) /\ (length (fst e) < fuel)%nat /\ name_length (fst e) < 2 ^ 57.

Definition imported (t : prim_tables) (es : list (name * Z)) (m : memory) (primitives : Z) : Prop :=
  forall k nm arity, nth_error es k = Some (nm, arity) ->
    exists i, m (primitives + Z.of_nat k) = MAKE_PRIMITIVE_OBJECT i /\ index_of t nm = Some i /\ 0 <= i < MAX_PRIMITIVE t
      /\ (arity <> UNKNOWN_PRIMITIVE_ARITY -> Primitive_Arity_Table t i = arity).

Definition all_known (t : prim_tables) (es : list (name * Z)) : Prop :=
  forall nm arity, In (nm, arity) es -> exists i, index_of t nm = Some i /\ arity = Primitive_Arity_Table t i.

Definition import_result (t : prim_tables) (m : memory) (es : list (name * Z)) (primitives : Z) (r : pt_result unit) : Prop :=
  match r with
  | Value _ s' =>
      wf_tables (tables s') /\ extends t (tables s') /\ imported (tables s') es (pmem s') primitives
      /\ MAX_PRIMITIVE (tables s') <= MAX_PRIMITIVE t + Z.of_nat (length es)
      /\ (forall x, x < primitives \/ primitives + Z.of_nat (length es) <= x -> pmem s' x = m x)
      /\ (all_known t es -> tables s' = t)
  | Wrong_arity_primitives _ => arity_conflict t es
  | Not_enough_space _ =>
      (exists nm arity, In (nm, arity) es /\ index_of t nm = None) /\ exists n, malloc n = false
  | _ => False
  end.

Lemma find_primitive_at m a nm arity s : pmem s = m -> entry_at m a nm arity -> c_name nm -> (length nm < fuel)%nat ->
  find_primitive malloc Prim_unimplemented fuel (a + 1) true true arity s = find_primitive_cname nm true true arity s.
Proof.
  intros <- [_ _ Bs] C L. unfold find_primitive. replace (8 * (a + 1 + BYTEVECTOR_DATA)) with (8 * (a + 3)) by lia.
  rewrite (c_string_bytes fuel (pmem s) nm _ C Bs L). reflexivity.
Qed.

Lemma import_entries_run es : forall entries primitives s,
  wf_tables (tables s) -> table_at (pmem s) entries es -> Forall readable es ->
  MAX_PRIMITIVE (tables s) + Z.of_nat (length es) < 2 ^ 58 -> primitives + Z.of_nat (length es) <= entries ->
  import_result (tables s) (pmem s) es primitives (import_entries (length es) entries primitives s).
Proof.
  induction es as [|[nm arity] es IH]; intros entries primitives s W T R M D; cbn [length PrimTable.import_entries] in *.
  - cbn. split; [exact W|]. split; [apply tables_extend_refl|]. split; [intros [|k]; discriminate|]. split; [lia|]. auto.
  - rewrite Nat2Z.inj_succ in *. inversion T as [|? ? ? ? En T']; subst. inversion R as [|? ? (C & Ar & L & Lw) R']; subst. cbn [fst snd] in *.
    unfold bind, read. rewrite (en_arity _ _ _ _ En), fixnum_TO_LONG by exact Ar.
    rewrite (find_primitive_at (pmem s) entries nm arity s eq_refl En C L).
    pose proof (find_interned nm arity s W C ltac:(lia)) as F.
    destruct (find_primitive_cname nm true true arity s) as [p s1 | | s1 | |]; try contradiction.
    + destruct F as [Pm [(i & -> & F) | (i & I & U1 & U2 & Ne & -> & _)]].
      * pose proof (fo_range _ _ _ _ _ F) as Ri. pose proof (fo_max _ _ _ _ _ F) as Mx. pose proof (fo_wf _ _ _ _ _ F) as W1.
        destruct (primitive_parts i) as [_ Ty]; [lia|]. rewrite Ty. cbn [negb Z.eqb Pos.eqb].
        unfold write, change_memory. cbn [pmem tables]. set (m1 := store (pmem s1) primitives _).
        pose proof (entry_size_pos nm) as Ps.
        assert (Kept : forall x, entries <= x -> m1 x = pmem s x) by (intros x Hx; unfold m1; rewrite store_other, Pm by lia; reflexivity).
        rewrite Kept, (en_header _ _ _ _ En) by lia.
        destruct (MAKE_OBJECT_parts TC_MANIFEST_NM_VECTOR (entry_size nm - 2)) as [_ Dt]; [lia | split; [lia|]; rewrite name_words by (unfold name_length; lia); pose proof (Z.div_le_upper_bound (name_length nm) 8 (name_length nm)); unfold name_length in *; lia |]. rewrite Dt.
        replace (entries + 1 + (1 + (entry_size nm - 2))) with (entries + entry_size nm) by lia.
        specialize (IH (entries + entry_size nm) (primitives + 1) (mk_prim_state (tables s1) m1) W1). cbn [tables pmem] in IH.
        assert (IH' : import_result (tables s1) m1 es (primitives + 1)
                        (import_entries (length es) (entries + entry_size nm) (primitives + 1) (mk_prim_state (tables s1) m1))).
        { apply IH; [|exact R' | lia | lia]. apply (table_at_kept (pmem s)); [|exact T']. intros x Hx. apply Kept. lia. }
        clear IH. destruct (import_entries _ _ _ _) as [u s2 | | s2 | s2 |]; cbn [import_result length] in *; try contradiction.
        -- destruct IH' as (W2 & X2 & I2 & Mx2 & O2 & K2). rewrite Nat2Z.inj_succ. split; [exact W2|].
           split; [eapply tables_extend_trans; [apply F | exact X2]|]. split; [|split; [lia|split]].
           ++ intros [|k] nm' arity' H; cbn [nth_error] in H.
              ** injection H as <- <-. exists i. rewrite Z.add_0_r, O2 by lia. unfold m1. rewrite store_same.
                 split; [reflexivity|]. split; [exact (ex_index _ _ X2 nm i (fo_index _ _ _ _ _ F))|]. pose proof (ex_max _ _ X2). split; [lia|].
                 intros U. destruct (ex_entry _ _ X2 i Ri) as (_ & _ & A2). rewrite (fo_arity _ _ _ _ _ F U) in A2. exact (A2 U).
              ** rewrite Nat2Z.inj_succ. replace (primitives + Z.succ (Z.of_nat k)) with (primitives + 1 + Z.of_nat k) by lia.
                 apply (I2 k _ _ H).
           ++ intros x Hx. rewrite O2 by lia. unfold m1. rewrite store_other, Pm by lia. reflexivity.
           ++ intros A. destruct (A nm arity) as (j & J & Aj); [left; reflexivity|].
              assert (j = i) as ->.
              { pose proof (ex_index _ _ (fo_extends _ _ _ _ _ F) nm j J) as J'. rewrite (fo_index _ _ _ _ _ F) in J'. congruence. }
              pose proof (fo_same _ _ _ _ _ F J Aj) as E. rewrite <- E. apply K2. rewrite E. intros nm' arity' H. apply A. right. exact H.
        -- destruct IH' as [(nm' & arity' & H1 & H2) Mf]. split; [|exact Mf]. exists nm', arity'. split; [right; exact H1|].
           destruct (index_of (tables s) nm') as [j|] eqn:J; [|reflexivity].
           rewrite (ex_index _ _ (fo_extends _ _ _ _ _ F) nm' j J) in H2. discriminate.
        -- apply (arity_conflict_step _ _ _ i (tables s1)); auto.
      * assert (Ty : OBJECT_TYPE (fixnum (Primitive_Arity_Table (tables s) i)) = TC_FIXNUM).
        { pose proof (fixnum_P (Primitive_Arity_Table (tables s) i)) as P. unfold FIXNUM_P in P. apply Z.eqb_eq, P. }
        rewrite Ty. cbn. exists nm, arity, (Primitive_Arity_Table (tables s) i). split; [left; reflexivity|]. eauto 10.
    + destruct F as [N Mf]. cbn. split; [|eauto]. exists nm, arity. split; [left; reflexivity | exact N].
Qed.
End Finding.

(** ** Renumbering *)

Record wf_renumber (size : Z) (pr : prim_renumber_t) : Prop := {
  rn_size : pr_size pr = size;
  rn_next : 0 <= next_code pr <= size;
  rn_external : forall new, 0 <= new < next_code pr -> 0 <= external pr new < size /\ internal pr (external pr new) = new;
  rn_internal : forall old, 0 <= old < size ->
    internal pr old = ULONG_MAX \/ 0 <= internal pr old < next_code pr /\ external pr (internal pr old) = old
}.

(** The objects that are dumped for some primitives. *)
Fixpoint renumber_all (primitives : list Z) (pr : prim_renumber_t) : option (list Z * prim_renumber_t) :=
  match primitives with
  | [] => Some ([], pr)
  | p :: primitives =>
      let* (q, pr) := renumber_primitive p pr in
      let* (qs, pr) := renumber_all primitives pr in
      Some (q :: qs, pr)
  end.

Lemma wf_make_prim_renumber t : wf_tables t -> wf_renumber (MAX_PRIMITIVE t) (make_prim_renumber t).
Proof. intros W. pose proof (wf_size _ W). constructor; cbn; auto; lia. Qed.

(** The codes in use are different, so there is room for one that is not. *)
Lemma next_code_room size pr old : wf_renumber size pr -> 0 <= old < size -> internal pr old = ULONG_MAX -> size < 2 ^ 58 ->
  next_code pr < size.
Proof.
  intros W Ho U Sz. pose proof (rn_next _ _ W).
  assert (L : (length (old :: renumbered_codes pr) <= length (map Z.of_nat (seq 0 (Z.to_nat size))))%nat).
  { apply NoDup_incl_length.
    - constructor.
      + intros H1. unfold renumbered_codes in H1. apply in_map_iff in H1 as (i & E & I). apply in_seq in I.
        destruct (rn_external _ _ W (Z.of_nat i)) as [_ H1]; [lia|]. rewrite E, U in H1. lia.
      + apply (NoDup_map_inv (internal pr)). unfold renumbered_codes. rewrite map_map.
        rewrite (map_ext_in _ Z.of_nat).
        * apply Injective_map_NoDup; [intros a b; apply Nat2Z.inj | apply seq_NoDup].
        * intros i I. apply in_seq in I. apply (rn_external _ _ W). lia.
    - intros x [<- | I].
      + apply in_map_iff. exists (Z.to_nat old). split; [lia|]. apply in_seq. lia.
      + apply in_map_iff in I as (i & <- & I). apply in_seq in I. destruct (rn_external _ _ W (Z.of_nat i)) as [R _]; [lia|].
        apply in_map_iff. exists (Z.to_nat (external pr (Z.of_nat i))). split; [lia|]. apply in_seq. lia. }
  unfold renumbered_codes in L. cbn [length] in L. rewrite !length_map, !length_seq in L. lia.
Qed.

Lemma renumber_primitive_run size pr p : wf_renumber size pr -> size < 2 ^ 58 -> 0 <= OBJECT_DATUM p < size ->
  exists new pr', renumber_primitive p pr = Some (OBJECT_NEW_DATUM p new, pr') /\ wf_renumber size pr'
    /\ 0 <= new < next_code pr' /\ external pr' new = OBJECT_DATUM p
    /\ next_code pr <= next_code pr' /\ forall i, 0 <= i < next_code pr -> external pr' i = external pr i.
Proof.
  intros W Sz Ho. set (old := OBJECT_DATUM p) in *. unfold renumber_primitive. fold old. rewrite (rn_size _ _ W).
  destruct (Z.ltb_spec old size); [|lia]. pose proof (rn_next _ _ W) as N. destruct (Z.eqb_spec (internal pr old) ULONG_MAX) as [U | U].
  - pose proof (next_code_room size pr old W Ho U Sz) as R. destruct (Z.ltb_spec (next_code pr) size); [|lia].
    eexists _, _. split; [reflexivity|]. cbn [next_code external].
    split; [|split; [lia|split; [unfold set_at; rewrite Z.eqb_refl; reflexivity|split; [lia|]]]].
    + constructor; cbn [pr_size next_code external internal]; [reflexivity | lia | |].
      * intros new Hn. unfold set_at. destruct (Z.eqb_spec new (next_code pr)) as [-> | Nn].
        -- rewrite Z.eqb_refl. lia.
        -- destruct (rn_external _ _ W new) as [R1 R2]; [lia|]. split; [exact R1|].
           destruct (Z.eqb_spec (external pr new) old) as [E | E]; [rewrite E, U in R2; lia | exact R2].
      * intros o Hi. unfold set_at. destruct (Z.eqb_spec o old) as [-> | No].
        -- right. rewrite Z.eqb_refl. split; [lia | reflexivity].
        -- destruct (rn_internal _ _ W o Hi) as [E | [R1 R2]]; [auto|]. right. split; [lia|].
           destruct (Z.eqb_spec (internal pr o) (next_code pr)); [lia | exact R2].
    + intros i Hi. unfold set_at. destruct (Z.eqb_spec i (next_code pr)); [lia | reflexivity].
  - destruct (rn_internal _ _ W old Ho) as [E | [R1 R2]]; [contradiction|]. exists (internal pr old), pr.
    split; [reflexivity|]. split; [exact W|]. split; [exact R1|]. split; [exact R2|]. split; [lia | auto].
Qed.

Lemma renumber_all_run size : size < 2 ^ 58 -> forall ps pr, wf_renumber size pr -> Forall (fun p => 0 <= OBJECT_DATUM p < size) ps ->
  exists qs pr', renumber_all ps pr = Some (qs, pr') /\ wf_renumber size pr'
    /\ Forall2 (fun p q => exists new, q = OBJECT_NEW_DATUM p new /\ 0 <= new < next_code pr' /\ external pr' new = OBJECT_DATUM p) ps qs
    /\ next_code pr <= next_code pr' /\ forall i, 0 <= i < next_code pr -> external pr' i = external pr i.
Proof.
  intros Sz. induction ps as [|p ps IH]; intros pr W F; cbn [renumber_all].
  - exists [], pr. split; [reflexivity|]. split; [exact W|]. split; [constructor|]. split; [lia | auto].
  - inversion F as [|? ? F1 F2]; subst.
    destruct (renumber_primitive_run size pr p W Sz F1) as (new & pr1 & E & W1 & R1 & E1 & N1 & K1). rewrite E. cbn [obind].
    destruct (IH pr1 W1 F2) as (qs & pr' & E' & W2 & Q & N2 & K2). rewrite E'. cbn [obind].
    exists (OBJECT_NEW_DATUM p new :: qs), pr'. split; [reflexivity|]. split; [exact W2|]. split; [|split; [lia|]].
    + constructor; [|exact Q]. exists new. split; [reflexivity|]. split; [lia|]. rewrite K2 by lia. exact E1.
    + intros i Hi. rewrite K2, K1 by lia. reflexivity.
Qed.

(** ** Dumping primitives and loading them *)

Section RoundTrip.
Variable malloc : nat -> bool.
Variable Prim_unimplemented : Z.
Variable fuel : nat.

(** The names can be read with the fuel, and the arities are fixnums. *)
Definition readable_tables (t : prim_tables) : Prop :=
  forall i, 0 <= i < MAX_PRIMITIVE t -> readable fuel (entry_of t i).

Lemma source_name_at t i : wf_tables t -> 0 <= i < MAX_PRIMITIVE t ->
  c_name (source_name t i) /\ index_of t (source_name t i) = Some i.
Proof. intros W H. destruct (wf_name _ W i H) as (nm & N & C & I). unfold source_name. rewrite N. auto. Qed.

Lemma export_renumbered_run t pr m start : wf_tables t -> wf_renumber (MAX_PRIMITIVE t) pr ->
  exists m1, export_renumbered_primitives start pr (mk_prim_state t m) = Value tt (mk_prim_state t m1)
    /\ table_at m1 start (map (entry_of t) (renumbered_codes pr))
    /\ forall x, x < start \/ start + renumbered_primitives_export_length t pr <= x -> m1 x = m x.
Proof.
  intros W Wr. unfold export_renumbered_primitives, renumbered_primitives_export_length. rewrite export_length_size.
  apply (export_entries_run (renumbered_codes pr) start (mk_prim_state t m)).
  apply Forall_forall. intros code I. unfold renumbered_codes in I. apply in_map_iff in I as (i & <- & I). apply in_seq in I.
  apply source_name_at; [exact W|]. cbn. pose proof (rn_next _ _ Wr). apply (rn_external _ _ Wr). lia.
Qed.

Lemma renumbered_entry t pr new : 0 <= new < next_code pr ->
  nth_error (map (entry_of t) (renumbered_codes pr)) (Z.to_nat new) = Some (entry_of t (external pr new)).
Proof.
  intros H. unfold renumbered_codes. rewrite map_map, nth_error_map.
  rewrite (nth_error_nth' _ O) by (rewrite length_seq; lia). cbn [option_map]. rewrite seq_nth by lia.
  rewrite Nat.add_0_l, Z2Nat.id by lia. reflexivity.
Qed.

Lemma renumbered_length t pr : 0 <= next_code pr -> Z.of_nat (length (map (entry_of t) (renumbered_codes pr))) = next_code pr.
Proof. intros H. unfold renumbered_codes. rewrite !length_map, length_seq. lia. Qed.

Lemma renumbered_in t pr e : wf_renumber (MAX_PRIMITIVE t) pr -> In e (map (entry_of t) (renumbered_codes pr)) ->
  exists i, 0 <= i < MAX_PRIMITIVE t /\ e = entry_of t i.
Proof.
  intros Wr H. apply in_map_iff in H as (i & <- & I). unfold renumbered_codes in I. apply in_map_iff in I as (j & <- & I).
  apply in_seq in I. exists (external pr (Z.of_nat j)). split; [|reflexivity]. pose proof (rn_next _ _ Wr). apply (rn_external _ _ Wr). lia.
Qed.

(** Loading in tables [t'] what was dumped from [t]. *)
Lemma import_renumbered_run t pr m1 t' start primitives : wf_tables t -> wf_renumber (MAX_PRIMITIVE t) pr -> readable_tables t ->
  table_at m1 start (map (entry_of t) (renumbered_codes pr)) -> wf_tables t' -> MAX_PRIMITIVE t' + next_code pr < 2 ^ 58 ->
  primitives + next_code pr <= start ->
  import_result malloc t' m1 (map (entry_of t) (renumbered_codes pr)) primitives
    (import_primitive_table malloc Prim_unimplemented fuel start (next_code pr) primitives (mk_prim_state t' m1)).
Proof.
  intros W Wr Rd T W' Sz D. pose proof (rn_next _ _ Wr) as N. pose proof (renumbered_length t pr (proj1 N)) as Ln.
  unfold import_primitive_table. replace (Z.to_nat (next_code pr)) with (length (map (entry_of t) (renumbered_codes pr))) by lia.
  apply (import_entries_run malloc Prim_unimplemented fuel _ _ _ (mk_prim_state t' m1)); cbn [tables pmem]; auto; [|lia|lia].
  apply Forall_forall. intros e He. destruct (renumbered_in t pr e Wr He) as (i & Hi & ->). apply Rd, Hi.
Qed.

Lemma exported_known t pr : wf_tables t -> wf_renumber (MAX_PRIMITIVE t) pr -> all_known t (map (entry_of t) (renumbered_codes pr)).
Proof.
  intros W Wr nm arity He. destruct (renumbered_in t pr _ Wr He) as (i & Hi & E). injection E as -> ->. exists i.
  split; [apply source_name_at; assumption | reflexivity].
Qed.

Lemma known_no_conflict t es : wf_tables t -> all_known t es -> ~ arity_conflict t es.
Proof.
  intros W K (nm & arity & arity' & In1 & _ & _ & Ne & [(i & I & A) | (nm' & In2 & Sm)]);
    destruct (K _ _ In1) as (j & J & Aj).
  - congruence.
  - destruct (K _ _ In2) as (j' & J' & Aj'). destruct Sm as [Sm | (k & K1 & K2)]; [|congruence].
    rewrite (index_equal t _ _ W Sm) in J'. congruence.
Qed.
Definition a_primitive (t : prim_tables) (p : Z) : Prop :=
  p = MAKE_PRIMITIVE_OBJECT (OBJECT_DATUM p) /\ 0 <= OBJECT_DATUM p < MAX_PRIMITIVE t.

Lemma Forall2_with {A B} (P : A -> Prop) (R R' : A -> B -> Prop) l l' : Forall P l -> Forall2 R l l' ->
  (forall a b, P a -> R a b -> R' a b) -> Forall2 R' l l'.
Proof. intros F F2 H. induction F2; inversion F; subst; constructor; auto. Qed.

(** The dump: the renumbered objects and the table in memory. *)
Lemma dump_run t m ps start : wf_tables t -> MAX_PRIMITIVE t < 2 ^ 58 -> Forall (a_primitive t) ps ->
  exists qs pr m1, renumber_all ps (make_prim_renumber t) = Some (qs, pr) /\ wf_renumber (MAX_PRIMITIVE t) pr
    /\ Forall2 (fun p q => 0 <= OBJECT_DATUM q < next_code pr /\ external pr (OBJECT_DATUM q) = OBJECT_DATUM p) ps qs
    /\ export_renumbered_primitives start pr (mk_prim_state t m) = Value tt (mk_prim_state t m1)
    /\ table_at m1 start (map (entry_of t) (renumbered_codes pr))
    /\ forall x, x < start \/ start + renumbered_primitives_export_length t pr <= x -> m1 x = m x.
Proof.
  intros W Sz A. destruct (renumber_all_run _ Sz ps _ (wf_make_prim_renumber t W)) as (qs & pr & E & Wr & Q & _).
  { eapply Forall_impl; [|exact A]. intros p [_ H]. exact H. }
  destruct (export_renumbered_run t pr m start W Wr) as (m1 & E1 & T & O). exists qs, pr, m1.
  split; [exact E|]. split; [exact Wr|]. split; [|auto]. pose proof (rn_next _ _ Wr).
  apply (Forall2_with _ _ _ _ _ A Q). intros p q [Ep Rp] (new & -> & R & X). unfold OBJECT_NEW_DATUM.
  destruct (primitive_parts (OBJECT_DATUM p)) as [_ Ty]; [lia|]. rewrite <- Ep in Ty. rewrite Ty.
  destruct (MAKE_OBJECT_parts TC_PRIMITIVE new) as [_ ->]; auto; lia.
Qed.

(** C18: primitives survive a dump and a load by the same microcode: when the
    primitives of an image are renumbered, the table of their names and
    arities is exported after the image, and the table is imported, then each
    number in the image selects from the imported vector the primitive that it
    stood for, only the vector and the table are written, and the tables of
    primitives are the same as before. *)
Theorem primitive_renumbering_round_trip t m ps start : wf_tables t -> readable_tables t -> MAX_PRIMITIVE t < 2 ^ 57 ->
  Forall (a_primitive t) ps ->
  exists qs pr m1, renumber_all ps (make_prim_renumber t) = Some (qs, pr)
    /\ 0 <= next_code pr <= MAX_PRIMITIVE t
    /\ export_renumbered_primitives start pr (mk_prim_state t m) = Value tt (mk_prim_state t m1)
    /\ (forall x, x < start \/ start + renumbered_primitives_export_length t pr <= x -> m1 x = m x)
    /\ forall primitives, primitives + next_code pr <= start ->
         exists m2, import_primitive_table malloc Prim_unimplemented fuel start (next_code pr) primitives (mk_prim_state t m1)
           = Value tt (mk_prim_state t m2)
         /\ (forall x, x < primitives \/ primitives + next_code pr <= x -> m2 x = m1 x)
         /\ Forall2 (fun p q => m2 (primitives + OBJECT_DATUM q) = p) ps qs.
Proof.
  intros W Rd Sz A. destruct (dump_run t m ps start W ltac:(lia) A) as (qs & pr & m1 & E & Wr & Q & E1 & T & O).
  pose proof (rn_next _ _ Wr) as N. exists qs, pr, m1. repeat (split; [assumption|]). intros primitives D.
  pose proof (import_renumbered_run t pr m1 t start primitives W Wr Rd T W ltac:(lia) D) as R.
  pose proof (exported_known t pr W Wr) as K.
  destruct (import_primitive_table _ _ _ _ _ _ _) as [u [t2 m2] | | s | s |]; cbn [import_result tables pmem] in R; try contradiction.
  - destruct R as (_ & _ & I & _ & Om & Same). specialize (Same K). subst t2. destruct u. exists m2. split; [reflexivity|].
    rewrite renumbered_length in Om by lia. split; [exact Om|].
    apply (Forall2_with _ _ _ _ _ A Q). intros p q [Ep Rp] [Rq Eq].
    pose proof (renumbered_entry t pr _ Rq) as Nt. destruct (I _ _ _ Nt) as (i & M2 & Ii & _ & _).
    rewrite Z2Nat.id, Eq in * by lia. destruct (source_name_at t (OBJECT_DATUM p) W Rp) as [_ Ix]. rewrite M2, Ep. congruence.
  - destruct R as [(nm & arity & He & Nn) _]. destruct (K _ _ He) as (i & Ii & _). congruence.
  - exfalso. exact (known_no_conflict t _ W K R).
Qed.

(** What loading in tables [t'] does with the objects [qs] that were dumped
    for the primitives [ps] of [t]. *)
Definition load_outcome (t t' : prim_tables) (ps qs : list Z) (primitives : Z) (r : pt_result unit) : Prop :=
  match r with
  | Value _ s =>
      wf_tables (tables s) /\ extends t' (tables s)
      /\ Forall2 (fun p q => exists i, pmem s (primitives + OBJECT_DATUM q) = MAKE_PRIMITIVE_OBJECT i
           /\ index_of (tables s) (source_name t (OBJECT_DATUM p)) = Some i
           /\ (Primitive_Arity_Table t (OBJECT_DATUM p) <> UNKNOWN_PRIMITIVE_ARITY ->
                Primitive_Arity_Table (tables s) i = Primitive_Arity_Table t (OBJECT_DATUM p))) ps qs
  | Wrong_arity_primitives _ =>
      exists codes, (forall i, In i codes -> 0 <= i < MAX_PRIMITIVE t) /\ arity_conflict t' (map (entry_of t) codes)
  | Not_enough_space _ =>
      (exists i, 0 <= i < MAX_PRIMITIVE t /\ index_of t' (source_name t i) = None) /\ exists n, malloc n = false
  | Initialization_error | Undefined => False
  end.

(** C22: primitives survive a dump by one microcode and a load by another:
    either every number in the image selects from the imported vector the
    primitive of the same name, declared on the spot when it is unknown, with
    the same arity when both know it, and the primitives that were already
    there keep their indices, procedures and arities; or the load reports an
    arity that really disagrees; or an allocation failed for a name that is
    new. *)
Theorem primitives_load_elsewhere t t' m ps start primitives : wf_tables t -> readable_tables t -> wf_tables t' ->
  MAX_PRIMITIVE t + MAX_PRIMITIVE t' < 2 ^ 58 -> Forall (a_primitive t) ps -> primitives + MAX_PRIMITIVE t <= start ->
  exists qs pr m1, renumber_all ps (make_prim_renumber t) = Some (qs, pr)
    /\ export_renumbered_primitives start pr (mk_prim_state t m) = Value tt (mk_prim_state t m1)
    /\ load_outcome t t' ps qs primitives
         (import_primitive_table malloc Prim_unimplemented fuel start (next_code pr) primitives (mk_prim_state t' m1)).
Proof.
  intros W Rd W' Sz A D. pose proof (wf_size _ W'). destruct (dump_run t m ps start W ltac:(lia) A) as (qs & pr & m1 & E & Wr & Q & E1 & T & _).
  pose proof (rn_next _ _ Wr) as N. exists qs, pr, m1. split; [exact E|]. split; [exact E1|].
  pose proof (import_renumbered_run t pr m1 t' start primitives W Wr Rd T W' ltac:(lia) ltac:(lia)) as R.
  destruct (import_primitive_table _ _ _ _ _ _ _) as [u [t2 m2] | | s | s |]; cbn [import_result load_outcome tables pmem] in *; try contradiction.
  - destruct R as (W2 & X & I & _). split; [exact W2|]. split; [exact X|].
    apply (Forall2_with _ _ _ _ _ A Q). intros p q _ [Rq Eq].
    destruct (I _ _ _ (renumbered_entry t pr _ Rq)) as (i & M2 & Ii & _ & Ar). rewrite Z2Nat.id, Eq in * by lia. eauto.
  - destruct R as [(nm & arity & He & Nn) Mf]. split; [|exact Mf]. destruct (renumbered_in t pr _ Wr He) as (i & Hi & Ee).
    exists i. split; [exact Hi|]. injection Ee as -> _. exact Nn.
  - exists (renumbered_codes pr). split; [|exact R]. intros i Hi.
    destruct (renumbered_in t pr (entry_of t i) Wr) as (j & Hj & _); [apply in_map, Hi|].
    unfold renumbered_codes in Hi. apply in_map_iff in Hi as (k & <- & Hk). apply in_seq in Hk. apply (rn_external _ _ Wr). lia.
Qed.
End RoundTrip.

(** ** The tables after initialization *)

#[local] Opaque MAKE_OBJECT OBJECT_DATUM OBJECT_TYPE.

Section Initialize.
Variable malloc : nat -> bool.
Hypothesis malloc_ok : forall n, malloc n = true.
Variable Prim_unimplemented : Z.

(** ** The static table *)

Record good_statics (primitives : list static_primitive) : Prop := {
  gs_size : 10 <= Z.of_nat (length primitives) < 2 ^ 56;
  gs_sorted : StronglySorted lt_ci (map static_name primitives);
  gs_names : Forall (fun p => c_name (static_name p)) primitives
}.

Lemma lookup_numbered_some ns nm i : forall v, lookup (numbered ns v) nm = Some i ->
  exists j, (j < length ns)%nat /\ i = ulong (v + Z.of_nat j).
Proof using Type.
  induction ns as [|n ns IH]; intros v H; [discriminate|]. cbn [numbered] in H. rewrite lookup_cons in H.
  destruct (strcmp_ci nm n =? 0).
  - injection H as <-. exists O. cbn [length]. split; [lia|]. f_equal. lia.
  - destruct (IH _ H) as (j & Hj & ->). exists (S j). cbn [length]. split; [lia|]. f_equal. lia.
Qed.

Lemma static_tables_wf primitives tree ts : good_statics primitives -> balanced tree -> tree_error_message ts = None ->
  AvlTree.entries tree = numbered (map static_name primitives) 0 ->
  wf_tables (set_tree (initial_tables primitives) tree ts)
  /\ forall i p, nth_error primitives i = Some p ->
       index_of (set_tree (initial_tables primitives) tree ts) (static_name p) = Some (Z.of_nat i).
Proof using Type.
  intros [Sz So Na] B Er En. set (t := set_tree _ _ _).
  assert (St : search_tree tree) by (unfold search_tree; rewrite En, numbered_names; exact So).
  assert (Ix : forall i p, nth_error primitives i = Some p -> index_of t (static_name p) = Some (Z.of_nat i)).
  { intros i p H. assert (Hi : (i < length primitives)%nat) by (apply nth_error_Some; congruence).
    unfold index_of. cbn [t set_tree prim_procedure_tree]. rewrite tree_lookup_spec, En by exact St.
    rewrite <- (nth_error_nth _ _ [] (map_nth_error static_name _ _ H)).
    rewrite lookup_numbered; [|exact So | rewrite length_map; exact Hi]. f_equal. apply ulong_small. lia. }
  split; [|exact Ix]. constructor; cbn [t set_tree initial_tables prim_procedure_tree tree_state MAX_PRIMITIVE prim_table_size]; auto.
  - pose proof (Z.div_pos (Z.of_nat (length primitives)) 10). lia.
  - intros nm i H. unfold index_of in H. cbn [t set_tree prim_procedure_tree] in H. rewrite tree_lookup_spec, En in H by exact St.
    destruct (lookup_numbered_some _ _ _ _ H) as (j & Hj & ->). rewrite length_map in Hj. rewrite ulong_small; lia.
  - intros i Hi. destruct (nth_error primitives (Z.to_nat i)) as [p|] eqn:H.
    + exists (static_name p). cbn [t set_tree initial_tables Primitive_Name_Table]. unfold static_table. rewrite H.
      split; [reflexivity|]. rewrite (Ix _ _ H), Z2Nat.id by lia. split; [|reflexivity].
      apply (proj1 (Forall_forall _ _) Na). eapply nth_error_In, H.
    + apply nth_error_None in H. lia.
Qed.
(** ** Aliases *)

(** The tables after an alias was added for a primitive. *)
Record aliased (t : prim_tables) (alias nm : name) (t' : prim_tables) : Prop := {
  al_wf : wf_tables t';
  al_extends : extends t t';
  al_max : MAX_PRIMITIVE t' <= MAX_PRIMITIVE t + 1;
  al_alias : exists i, index_of t' alias = Some i /\ index_of t' nm = Some i;
  al_names : forall x, index_of t' x <> None -> index_of t x <> None \/ strcmp_ci x alias = 0 \/ strcmp_ci x nm = 0
}.

Lemma insert_alias t alias i : wf_tables t -> index_of t alias = None -> 0 <= i < MAX_PRIMITIVE t ->
  exists tree ts, tree_insert malloc (prim_procedure_tree t) alias i (tree_state t) = Some (tree, ts)
    /\ tree_error_message ts = None /\ wf_tables (set_tree t tree ts) /\ extends t (set_tree t tree ts)
    /\ forall x, index_of (set_tree t tree ts) x = match index_of t x with Some j => Some j
         | None => if strcmp_ci x alias =? 0 then Some i else None end.
Proof using malloc_ok.
  intros W N Hi. unfold index_of in N. rewrite tree_lookup_spec in N by apply W.
  destruct (insert_new malloc alias i (prim_procedure_tree t) (tree_state t)) as (tree & ts & E & P); try apply W; [exact N|].
  rewrite malloc_ok in P. destruct P as (Er & B & S & L). exists tree, ts. split; [exact E|]. split; [exact Er|].
  assert (Ix : forall x, index_of (set_tree t tree ts) x = match index_of t x with Some j => Some j
         | None => if strcmp_ci x alias =? 0 then Some i else None end).
  { intros x. unfold index_of. cbn [set_tree prim_procedure_tree]. rewrite !tree_lookup_spec; [apply L | apply W | exact S]. }
  split; [|split; [|exact Ix]].
  - constructor; cbn [set_tree prim_procedure_tree tree_state MAX_PRIMITIVE prim_table_size]; auto; [apply W | |].
    + intros x j. rewrite Ix. destruct (index_of t x) as [k|] eqn:K; [intros [= <-]; apply (wf_index _ W x), K|].
      destruct (_ =? 0); [|discriminate]. intros [= <-]. exact Hi.
    + intros j Hj. destruct (wf_name _ W j Hj) as (x & X1 & X2 & X3). exists x. rewrite Ix, X3. auto.
  - constructor; cbn [set_tree MAX_PRIMITIVE Primitive_Name_Table Primitive_Procedure_Table Primitive_Arity_Table]; auto; [lia|].
    intros x j H. rewrite Ix, H. reflexivity.
Qed.

Lemma declare_alias_run t m alias nm : wf_tables t -> MAX_PRIMITIVE t < 2 ^ 57 -> c_name nm -> index_of t alias = None ->
  strcmp_ci alias nm <> 0 ->
  exists t', declare_alias malloc Prim_unimplemented alias nm (mk_prim_state t m) = Value tt (mk_prim_state t' m) /\ aliased t alias nm t'.
Proof using malloc_ok.
  intros W M C N D. unfold declare_alias, bind, get. cbn [tables].
  destruct (index_of t nm) as [i|] eqn:I; pose proof I as I'; unfold index_of in I'.
  - pose proof (wf_index _ W nm i I) as R.
    destruct (tree_lookup (prim_procedure_tree t) nm) as [|? ? ? ? v]; [discriminate|]. injection I' as ->. unfold ret. cbn [tables].
    destruct (insert_alias t alias i W N R) as (tree & ts & -> & -> & W' & X & Ix). unfold put. cbn [pmem].
    eexists. split; [reflexivity|]. constructor; [exact W' | exact X | cbn; lia | |].
    + exists i. rewrite !Ix, I, N, strcmp_refl. auto.
    + intros x Hx. rewrite Ix in Hx. destruct (index_of t x); [left; discriminate|].
      destruct (Z.eqb_spec (strcmp_ci x alias) 0); [auto | congruence].
  - destruct (tree_lookup (prim_procedure_tree t) nm) eqn:L; [|discriminate]. unfold make_primitive, bind, get. cbn [tables]. rewrite L.
    pose proof (declare_new malloc Prim_unimplemented nm UNKNOWN_PRIMITIVE_ARITY UNKNOWN_PRIMITIVE_ARITY (mk_prim_state t m) W C I) as P.
    cbn [tables pmem] in P. destruct (declare_primitive _ _ _ _ _ _ _ _) as [p [t1 m1] | | | |]; try contradiction. cbn [tables pmem] in P.
    rewrite malloc_ok in P. destruct P as (-> & -> & W1 & X1 & Mx & _ & _ & _ & Ix1).
    pose proof (wf_size _ W) as Sz. destruct (primitive_parts (MAX_PRIMITIVE t)) as [Dt Ty]; [lia|].
    unfold ret. cbn [tables]. rewrite primitive_not_false by lia. unfold OBJECT_NEW_TYPE. rewrite Dt.
    fold (MAKE_PRIMITIVE_OBJECT (MAX_PRIMITIVE t)). rewrite primitive_not_false by lia. unfold PRIMITIVE_NUMBER. rewrite Dt. cbn [tables].
    destruct (insert_alias t1 alias (MAX_PRIMITIVE t) W1) as (tree & ts & -> & -> & W' & X & Ix).
    { rewrite Ix1, N. destruct (Z.eqb_spec (strcmp_ci alias nm) 0); [contradiction | reflexivity]. }
    { lia. }
    unfold put. cbn [pmem]. eexists. split; [reflexivity|]. constructor; [exact W' | eapply tables_extend_trans; eassumption | cbn; lia | |].
    + exists (MAX_PRIMITIVE t). rewrite !Ix, !Ix1, I, N, !strcmp_refl. cbn. split; [|reflexivity].
      destruct (strcmp_ci alias nm =? 0); reflexivity.
    + intros x Hx. rewrite Ix, Ix1 in Hx. destruct (index_of t x); [left; discriminate|].
      destruct (Z.eqb_spec (strcmp_ci x nm) 0); [auto|]. destruct (Z.eqb_spec (strcmp_ci x alias) 0); [auto | congruence].
Qed.

(** Different aliases, none of which is a name of the tables or renamed. *)
Inductive good_aliases : list (string * string) -> Prop :=
  | good_aliases_nil : good_aliases []
  | good_aliases_cons alias nm l :
      Forall (fun e => strcmp_ci (codes (fst e)) (codes alias) <> 0 /\ strcmp_ci (codes (fst e)) (codes nm) <> 0) l ->
      strcmp_ci (codes alias) (codes nm) <> 0 -> c_name (codes nm) -> good_aliases l -> good_aliases ((alias, nm) :: l).

Lemma declare_aliases_run l : forall t m, good_aliases l -> wf_tables t -> MAX_PRIMITIVE t + Z.of_nat (length l) < 2 ^ 57 ->
  Forall (fun e => index_of t (codes (fst e)) = None) l ->
  exists t', declare_aliases malloc Prim_unimplemented l (mk_prim_state t m) = Value tt (mk_prim_state t' m)
    /\ wf_tables t' /\ extends t t'
    /\ Forall (fun e => exists i, index_of t' (codes (fst e)) = Some i /\ index_of t' (codes (snd e)) = Some i) l.
Proof using malloc_ok.
  induction l as [|[alias nm] l IH]; intros t m G W M F; cbn [declare_aliases].
  - exists t. split; [reflexivity|]. split; [exact W|]. split; [apply tables_extend_refl | constructor].
  - inversion G as [|? ? ? Df D C G']; subst. inversion F as [|? ? N F']; subst. cbn [fst snd length] in *.
    rewrite Nat2Z.inj_succ in M.
    destruct (declare_alias_run t m _ _ W ltac:(lia) C N D) as (t1 & E & A). unfold bind. rewrite E.
    destruct (IH t1 m G' (al_wf _ _ _ _ A)) as (t' & E' & W' & X' & F1).
    { pose proof (al_max _ _ _ _ A). lia. }
    { rewrite Forall_forall in *. intros e He. destruct (index_of t1 (codes (fst e))) eqn:I1; [|reflexivity]. exfalso.
      destruct (al_names _ _ _ _ A (codes (fst e))) as [H | H]; [congruence | exact (H (F' e He)) |].
      pose proof (Df e He). tauto. }
    exists t'. split; [exact E'|]. split; [exact W'|]. split; [eapply tables_extend_trans; [apply A | exact X']|].
    constructor; [|exact F1]. destruct (al_alias _ _ _ _ A) as (i & I1 & I2). exists i. cbn [fst snd].
    split; apply (ex_index _ _ X'); assumption.
Qed.

Lemma primitive_aliases_good : good_aliases primitive_aliases.
Proof using Type.
  repeat constructor; cbv; discriminate.
Qed.
(** No alias is a generated name. *)
Definition no_static_alias (primitives : list static_primitive) : Prop :=
  Forall (fun e => Forall (fun p => strcmp_ci (codes (fst e)) (static_name p) <> 0) primitives) primitive_aliases.

Lemma static_tables_names primitives tree ts nm : good_statics primitives -> balanced tree ->
  AvlTree.entries tree = numbered (map static_name primitives) 0 ->
  Forall (fun p => strcmp_ci nm (static_name p) <> 0) primitives ->
  index_of (set_tree (initial_tables primitives) tree ts) nm = None.
Proof using Type.
  intros [_ So _] B En F. unfold index_of. cbn [set_tree prim_procedure_tree].
  rewrite tree_lookup_spec by (unfold search_tree; rewrite En, numbered_names; exact So).
  apply lookup_none. rewrite En, numbered_names. apply Forall_map, F.
Qed.

(** C39: the tables of primitives after initialization.  When no allocation
    fails ([malloc_ok]; the code that builds the tree uses a null pointer
    otherwise), from at least ten generated primitives, whose names increase
    strictly up to case and are not aliases, [initialize_primitives] makes well-formed tables (the
    tree is a balanced search tree that finds every primitive under its name)
    in which the [i]-th generated primitive has the index [i], its procedure
    and its arity, and every alias of prename.h has the index of the primitive
    that it renames. *)
Theorem initialize_primitives_correct primitives s : good_statics primitives -> no_static_alias primitives ->
  exists t, initialize_primitives malloc Prim_unimplemented primitives s = Value tt (mk_prim_state t (pmem s))
    /\ wf_tables t
    /\ (forall i p, nth_error primitives i = Some p ->
          index_of t (static_name p) = Some (Z.of_nat i)
          /\ Primitive_Procedure_Table t (Z.of_nat i) = static_procedure p
          /\ (static_arity p <> UNKNOWN_PRIMITIVE_ARITY -> Primitive_Arity_Table t (Z.of_nat i) = static_arity p))
    /\ Forall (fun e => exists i, index_of t (codes (fst e)) = Some i /\ index_of t (codes (snd e)) = Some i) primitive_aliases.
Proof using malloc_ok.
  intros G A. pose proof (gs_size _ G) as Sz. unfold initialize_primitives.
  destruct (tree_build_spec malloc malloc_ok 64 (MAX_PRIMITIVE (initial_tables primitives)) (map static_name primitives) 0
    (tree_state (initial_tables primitives))) as (tree & ts & -> & Er & _ & B & _ & En).
  { cbn [initial_tables MAX_PRIMITIVE]. change (2 * 2 ^ Z.of_nat 64) with (2 ^ 65). lia. }
  { rewrite length_map. cbn. lia. }
  { red. lia. }
  { cbn. lia. }
  cbn [initial_tables MAX_PRIMITIVE tree_state tree_error_message] in Er, En. rewrite firstn_all2 in En by (rewrite length_map; lia).
  rewrite Er. unfold bind, put. destruct (static_tables_wf primitives tree ts G B Er En) as [W Ix].
  destruct (declare_aliases_run primitive_aliases (set_tree (initial_tables primitives) tree ts) (pmem s) primitive_aliases_good W)
    as (t & E & W' & X & F).
  { cbn. lia. }
  { eapply Forall_impl; [|exact A]. intros e He. exact (static_tables_names primitives tree ts _ G B En He). }
  exists t. split; [exact E|]. split; [exact W'|]. split; [|exact F].
  intros i p H. assert (Hi : (i < length primitives)%nat) by (apply nth_error_Some; congruence).
  split; [exact (ex_index _ _ X _ _ (Ix i p H))|].
  destruct (ex_entry _ _ X (Z.of_nat i)) as (_ & P & Ar); [cbn; lia|].
  cbn [set_tree initial_tables Primitive_Procedure_Table Primitive_Arity_Table] in P, Ar. unfold static_table in P, Ar.
  rewrite Nat2Z.id, H in P, Ar. auto.
Qed.
End Initialize.

(** ** Sixteen primitives *)

Definition statics_from (first : nat) : list static_primitive :=
  map (fun i => mk_static [65 + i] (1000 + i) (i mod 4) 0) (map Z.of_nat (seq first 16)).

Notation sample_statics := (statics_from 0).

Definition tables_from (first : nat) : prim_tables :=
  match tree_build (fun _ => true) 64 16 (map static_name (statics_from first)) 0 (AvlTree.mk_state 0 None 0) with
  | Some (tree, ts) => set_tree (initial_tables (statics_from first)) tree ts
  | None => initial_tables (statics_from first)
  end.

Ltac good_from := constructor; [cbn; lia | vm_compute map; repeat constructor | vm_compute; repeat constructor].

Lemma statics_from_0 : good_statics (statics_from 0).
Proof. good_from. Qed.

Lemma statics_from_3 : good_statics (statics_from 3).
Proof. good_from. Qed.

Lemma tables_from_wf first : good_statics (statics_from first) -> wf_tables (tables_from first).
Proof.
  intros G. assert (L : length (statics_from first) = 16%nat) by reflexivity.
  unfold tables_from. destruct (tree_build_spec (fun _ => true) (fun _ => eq_refl) 64 16 (map static_name (statics_from first)) 0
    (AvlTree.mk_state 0 None 0)) as (tree & ts & -> & Er & _ & B & _ & En); try (cbn; lia); [red; lia |].
  rewrite firstn_all2 in En by (rewrite length_map, L; cbn; lia). apply static_tables_wf; assumption.
Qed.

Lemma sample_statics_no_alias : no_static_alias sample_statics.
Proof. unfold no_static_alias. repeat constructor; cbv; discriminate. Qed.

Lemma tables_from_0_readable : readable_tables 5 (tables_from 0).
Proof.
  intros i Hi. change (MAX_PRIMITIVE (tables_from 0)) with 16 in Hi.
  assert (F : Forall (fun i => readable 5 (entry_of (tables_from 0) (Z.of_nat i))) (seq 0 16)).
  { cbn [seq]. repeat (apply Forall_cons; [repeat split; vm_compute; repeat constructor; discriminate|]). apply Forall_nil. }
  rewrite <- (Z2Nat.id i) by lia. apply (proj1 (Forall_forall _ _) F). apply in_seq. lia.
Qed.

Lemma initialize_primitives_correct_witness :
  exists t, initialize_primitives (fun _ => true) 0 sample_statics (mk_prim_state (initial_tables []) (fun _ => 0))
      = Value tt (mk_prim_state t (fun _ => 0))
    /\ wf_tables t /\ index_of t [67] = Some 2 /\ index_of t (codes "FALSE?") = index_of t (codes "NOT").
Proof.
  destruct (initialize_primitives_correct (fun _ => true) (fun _ => eq_refl) 0 sample_statics
    (mk_prim_state (initial_tables []) (fun _ => 0)) statics_from_0 sample_statics_no_alias) as (t & E & W & Ix & A).
  exists t. split; [exact E|]. split; [exact W|]. split; [exact (proj1 (Ix 2%nat _ eq_refl))|].
  inversion A as [|? ? (i & I1 & I2) ?]. cbn [fst snd] in I1, I2. congruence.
Defined.

(** The primitives 7, 2, 7 and 11 of an image. *)
Lemma primitive_renumbering_round_trip_witness :
  exists qs pr m1, renumber_all (map MAKE_PRIMITIVE_OBJECT [7; 2; 7; 11]) (make_prim_renumber (tables_from 0)) = Some (qs, pr)
    /\ 0 <= next_code pr <= 16
    /\ export_renumbered_primitives 1000 pr (mk_prim_state (tables_from 0) (fun _ => 0)) = Value tt (mk_prim_state (tables_from 0) m1)
    /\ exists m2, import_primitive_table (fun _ => false) 0 5 1000 (next_code pr) 100 (mk_prim_state (tables_from 0) m1)
         = Value tt (mk_prim_state (tables_from 0) m2)
       /\ Forall2 (fun p q => m2 (100 + OBJECT_DATUM q) = p) (map MAKE_PRIMITIVE_OBJECT [7; 2; 7; 11]) qs.
Proof.
  destruct (primitive_renumbering_round_trip (fun _ => false) 0 5 (tables_from 0) (fun _ => 0) (map MAKE_PRIMITIVE_OBJECT [7; 2; 7; 11]) 1000
    (tables_from_wf 0 statics_from_0) tables_from_0_readable eq_refl) as (qs & pr & m1 & E & N & E1 & _ & P).
  { repeat constructor; vm_compute; discriminate. }
  change (MAX_PRIMITIVE (tables_from 0)) with 16 in N.
  destruct (P 100) as (m2 & E2 & _ & F); [lia|]. exists qs, pr, m1. split; [exact E|]. split; [exact N|]. split; [exact E1|]. eauto.
Defined.

(** Another microcode has the last thirteen of these primitives at other
    indices, and three new ones. *)
Lemma primitives_load_elsewhere_witness :
  exists qs pr m1, renumber_all (map MAKE_PRIMITIVE_OBJECT [7; 2]) (make_prim_renumber (tables_from 0)) = Some (qs, pr)
    /\ export_renumbered_primitives 1000 pr (mk_prim_state (tables_from 0) (fun _ => 0)) = Value tt (mk_prim_state (tables_from 0) m1)
    /\ load_outcome (fun _ => true) (tables_from 0) (tables_from 3) (map MAKE_PRIMITIVE_OBJECT [7; 2]) qs 100
         (import_primitive_table (fun _ => true) 0 5 1000 (next_code pr) 100 (mk_prim_state (tables_from 3) m1)).
Proof.
  apply (primitives_load_elsewhere (fun _ => true) 0 5 (tables_from 0) (tables_from 3) (fun _ => 0) (map MAKE_PRIMITIVE_OBJECT [7; 2]) 1000 100
    (tables_from_wf 0 statics_from_0) tables_from_0_readable (tables_from_wf 3 statics_from_3)).
  - reflexivity.
  - repeat constructor; vm_compute; discriminate.
  - vm_compute. discriminate.
Defined.

(** The primitive 7 is found at the index 4, and the primitive 2 is declared
    with the first index that is free. *)
Example loads_elsewhere :
  match renumber_all (map MAKE_PRIMITIVE_OBJECT [7; 2]) (make_prim_renumber (tables_from 0)) with
  | Some (qs, pr) =>
      match export_renumbered_primitives 1000 pr (mk_prim_state (tables_from 0) (fun _ => 0)) with
      | Value _ s =>
          match import_primitive_table (fun _ => true) 0 5 1000 (next_code pr) 100 (mk_prim_state (tables_from 3) (pmem s)) with
          | Value _ s => map (fun q => pmem s (100 + OBJECT_DATUM q)) qs = map MAKE_PRIMITIVE_OBJECT [4; 16]
          | _ => False
          end
      | _ => False
      end
  | None => False
  end.
Proof. vm_compute. reflexivity. Qed.
