(* ===== verification/Transaction.v ===== *)
(** * The dynamic stack and transactions (src/src/microcode/wind.c, transact.c)

    The dynamic stack holds chunks; a chunk begins with a word for the position
    of the stack before it.  A winding record in a chunk has a procedure to be
    called when the stack is unwound.  A transaction is a chunk with a binding
    of [current_transaction], and the actions recorded for it are protected
    chunks above it.

    What C keeps in a chunk is a table here, indexed by the address that
    [dstack_alloc] returns.  [obstack_alloc], of the GNU library, is a
    parameter: it is given the chunks in use, the newest first, and the size of
    the new one.  The procedures that users protect or record are a parameter
    too, and may do anything.  Signals are left out.

    [error] ends the process. *)

From Stdlib Require Import ZArith List Lia Bool.
From S2P Require Import Prelude.
Import ListNotations.

Notation SIZEOF_POINTER := 8.
Notation SIZEOF_WINDING_RECORD := 24.
Notation SIZEOF_BINDING_RECORD := 16.
Notation SIZEOF_TRANSACTION := 16.
Notation SIZEOF_ACTION := 24.

Inductive protector := undo_binding | execute_action | procedure (p : Z).
Inductive transaction_state := active | aborting | committing.
Inductive transaction_action_type := tat_abort | tat_commit | tat_always.

Record winding_record := mk_winding { next : Z; the_protector : protector; the_environment : Z }.
Record binding_record := mk_binding { location : Z; value : Z }.
Record transaction := mk_transaction { checkpoint : Z; state : transaction_state }.
Record action := mk_action { type : transaction_action_type; action_procedure : Z; action_environment : Z }.

Inductive fatal_error :=
  | no_transaction | commit_in_progress | abort_in_progress
  | position_not_found | no_more_stack | stack_slipped.

(** [W] is the rest of the state, for the procedures of the users. *)
Record dstate (W : Type) := mk_dstate {
  live : list Z;
  previous : Z -> Z;
  winding_records : Z -> winding_record;
  bindings : Z -> binding_record;
  transactions : Z -> transaction;
  actions : Z -> action;
  variables : Z -> Z;
  dstack_position : Z;
  current_winding_record : Z;
  world : W
}.
Arguments mk_dstate {W}.
Arguments live {W}.
Arguments previous {W}.
Arguments winding_records {W}.
Arguments bindings {W}.
Arguments transactions {W}.
Arguments actions {W}.
Arguments variables {W}.
Arguments dstack_position {W}.
Arguments current_winding_record {W}.
Arguments world {W}.

Inductive ds_result (W A : Type) := Value (a : A) (s : dstate W) | Fatal (e : fatal_error) | Undefined.
Arguments Value {W A}.
Arguments Fatal {W A}.
Arguments Undefined {W A}.

Section Dstack.
Context {W : Type}.
Notation dstate := (dstate W).

Definition ds (A : Type) : Type := dstate -> ds_result W A.
Definition ret {A} (a : A) : ds A := fun s => Value a s.
Definition bind {A B} (e : ds A) (k : A -> ds B) : ds B := fun s =>
  match e s with Value a s' => k a s' | Fatal e => Fatal e | Undefined => Undefined end.
Definition error {A} (e : fatal_error) : ds A := fun _ => Fatal e.
Definition undefined {A} : ds A := fun _ => Undefined.
Definition get {A} (f : dstate -> A) : ds A := fun s => Value (f s) s.
Definition change (f : dstate -> dstate) : ds unit := fun s => Value tt (f s).
End Dstack.

Declare Scope ds_scope.
Delimit Scope ds_scope with ds.
Notation "x <- e ;; k" := (bind e (fun x => k))
  (at level 61, e at next level, right associativity) : ds_scope.
Notation "e ;; k" := (bind e (fun _ => k)) (at level 61, right associativity) : ds_scope.

(** [p->field = v] *)
Definition put {A} (table : Z -> A) (p : Z) (v : A) : Z -> A := fun q => if q =? p then v else table q.

Section Setters.
Context {W : Type}.
Implicit Type s : dstate W.

Definition set_live s v := mk_dstate v (previous s) (winding_records s) (bindings s) (transactions s) (actions s) (variables s) (dstack_position s) (current_winding_record s) (world s).
Definition set_previous s v := mk_dstate (live s) v (winding_records s) (bindings s) (transactions s) (actions s) (variables s) (dstack_position s) (current_winding_record s) (world s).
Definition set_winding_records s v := mk_dstate (live s) (previous s) v (bindings s) (transactions s) (actions s) (variables s) (dstack_position s) (current_winding_record s) (world s).
Definition set_bindings s v := mk_dstate (live s) (previous s) (winding_records s) v (transactions s) (actions s) (variables s) (dstack_position s) (current_winding_record s) (world s).
Definition set_transactions s v := mk_dstate (live s) (previous s) (winding_records s) (bindings s) v (actions s) (variables s) (dstack_position s) (current_winding_record s) (world s).
Definition set_actions s v := mk_dstate (live s) (previous s) (winding_records s) (bindings s) (transactions s) v (variables s) (dstack_position s) (current_winding_record s) (world s).
Definition set_variables s v := mk_dstate (live s) (previous s) (winding_records s) (bindings s) (transactions s) (actions s) v (dstack_position s) (current_winding_record s) (world s).
Definition set_position s v := mk_dstate (live s) (previous s) (winding_records s) (bindings s) (transactions s) (actions s) (variables s) v (current_winding_record s) (world s).
Definition set_winding s v := mk_dstate (live s) (previous s) (winding_records s) (bindings s) (transactions s) (actions s) (variables s) (dstack_position s) v (world s).
Definition set_world s (v : W) := mk_dstate (live s) (previous s) (winding_records s) (bindings s) (transactions s) (actions s) (variables s) (dstack_position s) (current_winding_record s) v.
End Setters.

Section Unwinding.
Local Open Scope ds_scope.
Context {W : Type}.
Notation ds := (ds (W := W)).
Variable obstack_alloc : list Z -> Z -> Z.
(** [procedures p] is what a call of the procedure at [p] does. *)
Variable procedures : Z -> Z -> ds unit.
(** The address of the static variable. *)
Variable current_transaction : Z.

(** ** The dynamic stack *)

Definition dstack_initialize : ds unit :=
  change (fun s => set_winding (set_position (set_live s []) 0) 0).

Definition dstack_reset : ds unit :=
  change (fun s => set_live s []) ;; dstack_initialize.

Definition EXPORT (sp : Z) : Z := sp + SIZEOF_POINTER.

Definition dstack_alloc (length : Z) : ds Z :=
  chunk <- get (fun s => obstack_alloc (live s) (SIZEOF_POINTER + length)) ;;
  change (fun s => set_live s (chunk :: live s)) ;;
  change (fun s => set_previous s (put (previous s) chunk (dstack_position s))) ;;
  change (fun s => set_position s chunk) ;;
  ret (EXPORT chunk).

Definition wind (record : Z) (p : protector) (environment : Z) : ds unit :=
  change (fun s => set_winding_records s
    (put (winding_records s) record (mk_winding (current_winding_record s) p environment))) ;;
  change (fun s => set_winding s record).

Definition dstack_protect (p : protector) (environment : Z) : ds unit :=
  record <- dstack_alloc SIZEOF_WINDING_RECORD ;;
  wind record p environment.

Definition dstack_alloc_and_protect (length : Z) (initializer : Z -> ds unit) (p : protector) : ds unit :=
  record <- dstack_alloc (SIZEOF_WINDING_RECORD + length) ;;
  let environment := record + SIZEOF_WINDING_RECORD in
  initializer environment ;;
  wind record p environment.

(** The chunk at [sp] is freed, with those allocated after it. *)
Fixpoint free_from (chunks : list Z) (sp : Z) : option (list Z) :=
  match chunks with
  | [] => None
  | chunk :: chunks => if chunk =? sp then Some chunks else free_from chunks sp
  end.

Definition obstack_free (sp : Z) : ds unit := fun s =>
  match free_from (live s) sp with
  | Some chunks => Value tt (set_live s chunks)
  | None => Undefined
  end.

(** The loop of DEBUG_DSTACK. *)
Fixpoint find_position (fuel : nat) (sp position : Z) : ds unit :=
  if sp =? position then ret tt
  else if sp =? 0 then error position_not_found
  else
    match fuel with
    | O => undefined
    | S fuel => sp <- get (fun s => previous s sp) ;; find_position fuel sp position
    end.

Definition guarantee_current_transaction : ds unit :=
  t <- get (fun s => variables s current_transaction) ;;
  if t =? 0 then error no_transaction
  else
    st <- get (fun s => state (transactions s t)) ;;
    match st with
    | committing => error commit_in_progress
    | aborting => error abort_in_progress
    | active => ret tt
    end.

(** The action is not for a commit, or not for an abort. *)
Definition action_skipped (st : transaction_state) (t : transaction_action_type) : bool :=
  match st, t with
  | committing, tat_abort => true
  | committing, _ => false
  | _, tat_commit => true
  | _, _ => false
  end.

Definition call_protector (p : protector) (environment : Z) : ds unit :=
  match p with
  | undo_binding =>
      b <- get (fun s => bindings s environment) ;;
      change (fun s => set_variables s (put (variables s) (location b) (value b)))
  | execute_action =>
      a <- get (fun s => actions s environment) ;;
      t <- get (fun s => variables s current_transaction) ;;
      if t =? 0 then undefined
      else
        st <- get (fun s => state (transactions s t)) ;;
        if action_skipped st (type a) then ret tt
        else procedures (action_procedure a) (action_environment a)
  | procedure p => procedures p environment
  end.

Definition unwind_record : ds unit :=
  sp <- get dstack_position ;;
  cur <- get current_winding_record ;;
  if EXPORT sp =? cur then
    record <- get (fun s => winding_records s cur) ;;
    call_protector (the_protector record) (the_environment record) ;;
    sp' <- get dstack_position ;;
    if negb (sp =? sp') then error stack_slipped
    else
      n <- get (fun s => next (winding_records s cur)) ;;
      change (fun s => set_winding s n)
  else ret tt.

Fixpoint unwind (fuel : nat) (position : Z) : ds unit :=
  sp <- get dstack_position ;;
  if sp =? position then ret tt
  else if sp =? 0 then error no_more_stack
  else
    match fuel with
    | O => undefined
    | S fuel =>
        unwind_record ;;
        sp <- get dstack_position ;;
        change (fun s => set_position s (previous s sp)) ;;
        obstack_free sp ;;
        unwind fuel position
    end.

(** The loops end within the number of chunks. *)
Definition dstack_set_position (position : Z) : ds unit :=
  sp <- get dstack_position ;;
  n <- get (fun s => List.length (live s)) ;;
  find_position n sp position ;;
  unwind n position.

Definition save_binding (loc environment : Z) : ds unit :=
  change (fun s => set_bindings s (put (bindings s) environment (mk_binding loc (variables s loc)))).

Definition dstack_bind (loc v : Z) : ds unit :=
  dstack_alloc_and_protect SIZEOF_BINDING_RECORD (save_binding loc) undo_binding ;;
  change (fun s => set_variables s (put (variables s) loc v)).

(** ** Transactions *)

Definition transaction_initialize : ds unit :=
  change (fun s => set_variables s (put (variables s) current_transaction 0)).

Definition transaction_begin : ds unit :=
  checkpoint <- get dstack_position ;;
  t <- dstack_alloc SIZEOF_TRANSACTION ;;
  change (fun s => set_transactions s (put (transactions s) t (mk_transaction checkpoint active))) ;;
  dstack_bind current_transaction t.

Definition finish_transaction (st : transaction_state) : ds unit :=
  guarantee_current_transaction ;;
  t <- get (fun s => variables s current_transaction) ;;
  change (fun s => set_transactions s (put (transactions s) t (mk_transaction (checkpoint (transactions s t)) st))) ;;
  position <- get (fun s => checkpoint (transactions s t)) ;;
  dstack_set_position position.

Definition transaction_abort : ds unit := finish_transaction aborting.
Definition transaction_commit : ds unit := finish_transaction committing.

Definition transaction_record_action (t : transaction_action_type) (p environment : Z) : ds unit :=
  guarantee_current_transaction ;;
  a <- dstack_alloc SIZEOF_ACTION ;;
  change (fun s => set_actions s (put (actions s) a (mk_action t p environment))) ;;
  dstack_protect execute_action a.
End Unwinding.
