(* ===== verification/TransactionProps.v ===== *)
(** * Transactions unwind (for Transaction.v)

    The dynamic stack stands for a list of entries: unused space, procedures
    to be called, bindings to be undone, actions and transactions.  Unwinding
    undoes the entries one by one, the newest first.  A transaction that is
    unwound without being committed is aborted. *)

From Stdlib Require Import ZArith List Lia Bool.
From S2P Require Import Prelude.
From S2P Require Import Transaction.
Import ListNotations.

(** ** The abstract stack *)

Inductive entry :=
  | Raw
  | Protected (p environment : Z)
  | Bound (loc old : Z)
  | Recorded (t : transaction_action_type) (p environment : Z)
  | Begun (st : transaction_state).

Record astate (W : Type) := mk_astate { entries : list entry; avars : Z -> Z; aworld : W }.
Arguments mk_astate {W}.
Arguments entries {W}.
Arguments avars {W}.
Arguments aworld {W}.

(** The state of the innermost transaction. *)
Fixpoint current (es : list entry) : option transaction_state :=
  match es with
  | [] => None
  | Begun st :: _ => Some st
  | _ :: es => current es
  end.

(** A commit runs the actions for a commit; an abort, or an unwinding without
    either, those for an abort. *)
Definition wanted (st : transaction_state) (t : transaction_action_type) : bool :=
  match t with
  | tat_always => true
  | tat_commit => match st with committing => true | active | aborting => false end
  | tat_abort => match st with committing => false | active | aborting => true end
  end.

Lemma wanted_not_skipped st t : action_skipped st t = negb (wanted st t).
Proof. destruct st, t; reflexivity. Qed.

Section Spec.
Context {W : Type}.
(** What the procedures do to the rest of the state. *)
Variable effect : Z -> Z -> W -> W.

Definition undo (e : entry) (below : list entry) (vw : (Z -> Z) * W) : (Z -> Z) * W :=
  match e with
  | Raw | Begun _ => vw
  | Protected p environment => (fst vw, effect p environment (snd vw))
  | Bound loc old => (put (fst vw) loc old, snd vw)
  | Recorded t p environment =>
      match current below with
      | Some st => if wanted st t then (fst vw, effect p environment (snd vw)) else vw
      | None => vw
      end
  end.

(** The entries [above] are undone, and [below] is left. *)
Fixpoint unwound (above below : list entry) (vw : (Z -> Z) * W) : (Z -> Z) * W :=
  match above with
  | [] => vw
  | e :: above => unwound above below (undo e (above ++ below) vw)
  end.

Definition unwind_to (above below : list entry) (a : astate W) : astate W :=
  let vw := unwound above below (avars a, aworld a) in mk_astate below (fst vw) (snd vw).

Inductive command :=
  | Begin | Commit | Abort_
  | Record_action (t : transaction_action_type) (p environment : Z)
  | Alloc (length : Z)
  | Protect (p environment : Z)
  | Bind (loc v : Z).

Definition guarded (a : astate W) (next : astate W + fatal_error) : astate W + fatal_error :=
  match current (entries a) with
  | None => inr no_transaction
  | Some committing => inr commit_in_progress
  | Some aborting => inr abort_in_progress
  | Some active => next
  end.

(** The entries of the innermost transaction and those below it. *)
Fixpoint innermost (es : list entry) : list entry * list entry :=
  match es with
  | [] => ([], [])
  | Begun _ :: below => ([], below)
  | e :: es => let (above, below) := innermost es in (e :: above, below)
  end.

Definition finish (st : transaction_state) (a : astate W) : astate W :=
  let (above, below) := innermost (entries a) in unwind_to (above ++ [Begun st]) below a.

Definition push (e : entry) (a : astate W) : astate W := mk_astate (e :: entries a) (avars a) (aworld a).

Definition spec (c : command) (a : astate W) : astate W + fatal_error :=
  match c with
  | Begin => inl (push (Begun active) a)
  | Commit => guarded a (inl (finish committing a))
  | Abort_ => guarded a (inl (finish aborting a))
  | Record_action t p environment => guarded a (inl (push (Recorded t p environment) a))
  | Alloc _ => inl (push Raw a)
  | Protect p environment => inl (push (Protected p environment) a)
  | Bind loc v => inl (mk_astate (Bound loc (avars a loc) :: entries a) (put (avars a) loc v) (aworld a))
  end.
End Spec.

(** ** The stack in memory *)

Definition position_of (chunks : list Z) : Z := hd 0 chunks.

Section Stack.
Context {W : Type}.
Variable obstack_alloc : list Z -> Z -> Z.
Variable procedures : Z -> Z -> ds (W := W) unit.
Variable current_transaction : Z.

Definition fresh (c : Z) (chunks : list Z) : Prop := 0 < c /\ ~ In c chunks.

(** The entries, the chunks they take, the newest winding record and the
    value of [current_transaction]. *)
Inductive stack_at (s : dstate W) : list entry -> list Z -> Z -> Z -> Prop :=
  | at_nil : stack_at s [] [] 0 0
  | at_raw es cs w t c : stack_at s es cs w t -> fresh c cs -> previous s c = position_of cs ->
      stack_at s (Raw :: es) (c :: cs) w t
  | at_protected es cs w t c p e : stack_at s es cs w t -> fresh c cs -> previous s c = position_of cs ->
      winding_records s (EXPORT c) = mk_winding w (procedure p) e ->
      stack_at s (Protected p e :: es) (c :: cs) (EXPORT c) t
  | at_bound es cs w t c loc old : stack_at s es cs w t -> fresh c cs -> previous s c = position_of cs ->
      winding_records s (EXPORT c) = mk_winding w undo_binding (EXPORT c + SIZEOF_WINDING_RECORD) ->
      bindings s (EXPORT c + SIZEOF_WINDING_RECORD) = mk_binding loc old -> loc <> current_transaction ->
      stack_at s (Bound loc old :: es) (c :: cs) (EXPORT c) t
  | at_recorded es cs w t c1 c2 ty p e : stack_at s es cs w t -> fresh c1 cs -> previous s c1 = position_of cs ->
      fresh c2 (c1 :: cs) -> previous s c2 = c1 -> actions s (EXPORT c1) = mk_action ty p e ->
      winding_records s (EXPORT c2) = mk_winding w execute_action (EXPORT c1) -> t <> 0 ->
      stack_at s (Recorded ty p e :: es) (c2 :: c1 :: cs) (EXPORT c2) t
  | at_begun es cs w t c1 c2 st : stack_at s es cs w t -> fresh c1 cs -> previous s c1 = position_of cs ->
      fresh c2 (c1 :: cs) -> previous s c2 = c1 -> transactions s (EXPORT c1) = mk_transaction (position_of cs) st ->
      winding_records s (EXPORT c2) = mk_winding w undo_binding (EXPORT c2 + SIZEOF_WINDING_RECORD) ->
      bindings s (EXPORT c2 + SIZEOF_WINDING_RECORD) = mk_binding current_transaction t ->
      stack_at s (Begun st :: es) (c2 :: c1 :: cs) (EXPORT c2) (EXPORT c1).

Record represents (s : dstate W) (a : astate W) : Prop := {
  re_stack : stack_at s (entries a) (live s) (current_winding_record s) (variables s current_transaction);
  re_position : dstack_position s = position_of (live s);
  re_vars : forall x, x <> current_transaction -> variables s x = avars a x;
  re_world : world s = aworld a
}.

(** The tables agree on the chunks in use. *)
Record agree (s s' : dstate W) (chunks : list Z) : Prop := {
  ag_previous : forall c, In c chunks -> previous s' c = previous s c;
  ag_winding : forall c, In c chunks -> winding_records s' (EXPORT c) = winding_records s (EXPORT c);
  ag_bindings : forall c, In c chunks -> bindings s' (EXPORT c + SIZEOF_WINDING_RECORD) = bindings s (EXPORT c + SIZEOF_WINDING_RECORD);
  ag_transactions : forall c, In c chunks -> transactions s' (EXPORT c) = transactions s (EXPORT c);
  ag_actions : forall c, In c chunks -> actions s' (EXPORT c) = actions s (EXPORT c)
}.

Lemma agree_tail s s' c cs : agree s s' (c :: cs) -> agree s s' cs.
Proof using Type. intros [A B C D E]. constructor; intros x Hx; auto with datatypes. Qed.

Lemma stack_kept s s' es cs w t : agree s s' cs -> stack_at s es cs w t -> stack_at s' es cs w t.
Proof using Type.
  intros A H. induction H.
  - constructor.
  - pose proof (agree_tail _ _ _ _ A). constructor; auto. rewrite (ag_previous _ _ _ A) by (left; reflexivity). assumption.
  - pose proof (agree_tail _ _ _ _ A). econstructor; eauto.
    + rewrite (ag_previous _ _ _ A) by (left; reflexivity). assumption.
    + rewrite (ag_winding _ _ _ A) by (left; reflexivity). assumption.
  - pose proof (agree_tail _ _ _ _ A). econstructor; eauto.
    + rewrite (ag_previous _ _ _ A) by (left; reflexivity). assumption.
    + rewrite (ag_winding _ _ _ A) by (left; reflexivity). assumption.
    + rewrite (ag_bindings _ _ _ A) by (left; reflexivity). assumption.
  - pose proof (agree_tail _ _ _ _ A) as A1. pose proof (agree_tail _ _ _ _ A1). econstructor; eauto.
    + rewrite (ag_previous _ _ _ A1) by (left; reflexivity). assumption.
    + rewrite (ag_previous _ _ _ A) by (left; reflexivity). assumption.
    + rewrite (ag_actions _ _ _ A1) by (left; reflexivity). assumption.
    + rewrite (ag_winding _ _ _ A) by (left; reflexivity). assumption.
  - pose proof (agree_tail _ _ _ _ A) as A1. pose proof (agree_tail _ _ _ _ A1). econstructor; eauto.
    + rewrite (ag_previous _ _ _ A1) by (left; reflexivity). assumption.
    + rewrite (ag_previous _ _ _ A) by (left; reflexivity). assumption.
    + rewrite (ag_transactions _ _ _ A1) by (left; reflexivity). assumption.
    + rewrite (ag_winding _ _ _ A) by (left; reflexivity). assumption.
    + rewrite (ag_bindings _ _ _ A) by (left; reflexivity). assumption.
Qed.

Lemma stack_winding s es cs w t : stack_at s es cs w t -> w = 0 \/ exists c, In c cs /\ w = EXPORT c.
Proof using Type.
  intros H. induction H; eauto with datatypes.
  destruct IHstack_at as [-> | (c' & I & ->)]; eauto with datatypes.
Qed.

Lemma stack_current s es cs w t : stack_at s es cs w t ->
  match current es with
  | Some st => t <> 0 /\ state (transactions s t) = st
  | None => t = 0
  end.
Proof using Type.
  intros H. induction H; cbn [current]; auto.
  rewrite H4. cbn. split; [|reflexivity]. unfold EXPORT. destruct H0. lia.
Qed.

Lemma stack_positive s es cs w t c : stack_at s es cs w t -> In c cs -> 0 < c.
Proof using Type.
  intros H. induction H; intros I; repeat match goal with F : fresh _ _ |- _ => destruct F end;
    repeat (destruct I as [<- | I]; [assumption |]); [destruct I | apply IHstack_at, I ..].
Qed.

(** Both the winding record and the transaction are found in the chunks. *)
Lemma stack_determined s s' es cs w t : stack_at s es cs w t -> forall w' t', stack_at s' es cs w' t' -> w' = w /\ t' = t.
Proof using Type.
  intros H. induction H; intros w' t' H'; inversion H'; subst;
    match goal with T : stack_at s' _ _ _ _ |- _ => try apply IHstack_at in T as [-> ->] end; auto.
Qed.

(** ** One step of unwinding *)

Variable effect : Z -> Z -> W -> W.

(** A procedure does to the rest of the state what [effect] says, and leaves
    the stack as it found it. *)
Hypothesis procedures_ok : forall p e s a, represents s a ->
  exists s', procedures p e s = Value tt s' /\ live s' = live s
    /\ represents s' (mk_astate (entries a) (avars a) (effect p e (aworld a))).

Notation unwind := (unwind procedures current_transaction).
Notation unwind_record := (unwind_record procedures current_transaction).

Definition popped (s : dstate W) (w c : Z) (cs : list Z) : dstate W :=
  set_live (set_position (set_winding s w) (previous s c)) cs.

Lemma free_first c cs : free_from (c :: cs) c = Some cs.
Proof using Type. cbn. rewrite Z.eqb_refl. reflexivity. Qed.

Lemma unwind_data fuel position s c cs : live s = c :: cs -> dstack_position s = c -> c <> position -> c <> 0 ->
  EXPORT c <> current_winding_record s ->
  unwind (S fuel) position s = unwind fuel position (popped s (current_winding_record s) c cs).
Proof using Type.
  intros L P N0 N1 N2. cbn [Transaction.unwind]. unfold bind at 1, get at 1. rewrite P.
  destruct (Z.eqb_spec c position); [contradiction|]. destruct (Z.eqb_spec c 0); [contradiction|].
  unfold Transaction.unwind_record, bind, get. rewrite P. destruct (Z.eqb_spec (EXPORT c) (current_winding_record s)); [contradiction|].
  unfold ret, change. rewrite P. unfold obstack_free. cbn [live set_position]. rewrite L, free_first.
  reflexivity.
Qed.

Lemma unwind_winding fuel position s c cs w p e s1 : live s = c :: cs -> dstack_position s = c -> c <> position -> c <> 0 ->
  current_winding_record s = EXPORT c -> winding_records s (EXPORT c) = mk_winding w p e ->
  call_protector procedures current_transaction p e s = Value tt s1 ->
  live s1 = c :: cs -> dstack_position s1 = c -> next (winding_records s1 (EXPORT c)) = w ->
  unwind (S fuel) position s = unwind fuel position (popped s1 w c cs).
Proof using Type.
  intros L P N0 N1 C Wd Cp L1 P1 Nx. cbn [Transaction.unwind]. unfold bind at 1, get at 1. rewrite P.
  destruct (Z.eqb_spec c position); [contradiction|]. destruct (Z.eqb_spec c 0); [contradiction|].
  unfold Transaction.unwind_record, bind, get. rewrite P, C, Z.eqb_refl, Wd. cbn [the_protector the_environment]. rewrite Cp, P1, Z.eqb_refl.
  cbn [negb]. unfold change. cbn [dstack_position set_winding previous]. rewrite P1. unfold obstack_free. cbn [live set_position set_winding].
  rewrite L1, free_first, Nx. reflexivity.
Qed.

Lemma stack_tables s s' es cs w t : stack_at s es cs w t -> previous s' = previous s -> winding_records s' = winding_records s ->
  bindings s' = bindings s -> transactions s' = transactions s -> actions s' = actions s -> stack_at s' es cs w t.
Proof using Type. intros H E1 E2 E3 E4 E5. apply (stack_kept s); [|exact H]. constructor; intros; congruence. Qed.

Definition height (e : entry) : nat := match e with Recorded _ _ _ | Begun _ => 2 | _ => 1 end.

(** What is left when the first entry has been undone. *)
Definition undone (e : entry) (es : list entry) (a : astate W) : astate W :=
  let vw := undo effect e es (avars a, aworld a) in mk_astate es (fst vw) (snd vw).

Lemma export_inj a b : EXPORT a = EXPORT b -> a = b.
Proof using Type. unfold EXPORT. lia. Qed.

Lemma stack_inv s e es cs w t : stack_at s (e :: es) cs w t ->
  match e with
  | Raw => exists c cs', cs = c :: cs' /\ stack_at s es cs' w t /\ fresh c cs' /\ previous s c = position_of cs'
  | Protected p env => exists c cs' w', cs = c :: cs' /\ w = EXPORT c /\ stack_at s es cs' w' t /\ fresh c cs'
      /\ previous s c = position_of cs' /\ winding_records s (EXPORT c) = mk_winding w' (procedure p) env
  | Bound loc old => exists c cs' w', cs = c :: cs' /\ w = EXPORT c /\ stack_at s es cs' w' t /\ fresh c cs'
      /\ previous s c = position_of cs' /\ winding_records s (EXPORT c) = mk_winding w' undo_binding (EXPORT c + SIZEOF_WINDING_RECORD)
      /\ bindings s (EXPORT c + SIZEOF_WINDING_RECORD) = mk_binding loc old /\ loc <> current_transaction
  | Recorded ty p env => exists c2 c1 cs' w', cs = c2 :: c1 :: cs' /\ w = EXPORT c2 /\ stack_at s es cs' w' t /\ fresh c1 cs'
      /\ previous s c1 = position_of cs' /\ fresh c2 (c1 :: cs') /\ previous s c2 = c1 /\ actions s (EXPORT c1) = mk_action ty p env
      /\ winding_records s (EXPORT c2) = mk_winding w' execute_action (EXPORT c1) /\ t <> 0
  | Begun st => exists c2 c1 cs' w' t', cs = c2 :: c1 :: cs' /\ w = EXPORT c2 /\ t = EXPORT c1 /\ stack_at s es cs' w' t' /\ fresh c1 cs'
      /\ previous s c1 = position_of cs' /\ fresh c2 (c1 :: cs') /\ previous s c2 = c1
      /\ transactions s (EXPORT c1) = mk_transaction (position_of cs') st
      /\ winding_records s (EXPORT c2) = mk_winding w' undo_binding (EXPORT c2 + SIZEOF_WINDING_RECORD)
      /\ bindings s (EXPORT c2 + SIZEOF_WINDING_RECORD) = mk_binding current_transaction t'
  end.
Proof using Type. inversion 1; subst; eauto 20. Qed.

(** What [unwind_entry] says. *)
Definition unwinds (e : entry) (es : list entry) (a : astate W) (s : dstate W) (position : Z) : Prop :=
  exists s', (forall fuel, unwind (height e + fuel) position s = unwind fuel position s')
    /\ live s' = skipn (height e) (live s) /\ represents s' (undone e es a).

Lemma represents_popped s es vars w0 c cs w t : stack_at s es cs w t -> previous s c = position_of cs ->
  variables s current_transaction = t -> (forall x, x <> current_transaction -> variables s x = vars x) -> world s = w0 ->
  represents (popped s w c cs) (mk_astate es vars w0).
Proof using Type.
  intros St P T V Wo. constructor; cbn; auto. rewrite T. apply (stack_tables s); auto.
Qed.

Lemma unwind_raw es a s position : represents s a -> entries a = Raw :: es -> ~ In position (firstn 1 (live s)) ->
  unwinds Raw es a s position.
Proof using Type.
  intros [St Po Va Wo] E N. rewrite E in St. apply stack_inv in St as (c & cs & L & St & [C Fr] & P). rewrite L in *.
  exists (popped s (current_winding_record s) c cs). split; [|split; [rewrite L; reflexivity|]].
  - intros fuel. apply unwind_data; auto; [intros ->; apply N; left; reflexivity | lia |].
    destruct (stack_winding _ _ _ _ _ St) as [-> | (c' & I & ->)]; [unfold EXPORT; lia|]. intros X%export_inj. subst. contradiction.
  - eapply represents_popped; eauto.
Qed.

(** The winding record at [c] calls the procedure [p], which leaves the stack
    as it found it. *)
Lemma unwind_call es e0 a s s1 vw c cs w w' t p env position : live s = c :: cs -> dstack_position s = c ->
  stack_at s es cs w t -> fresh c cs -> previous s1 c = position_of cs ->
  current_winding_record s = EXPORT c -> winding_records s (EXPORT c) = mk_winding w p env -> height e0 = 1%nat ->
  c <> position -> undo effect e0 es (avars a, aworld a) = vw ->
  call_protector procedures current_transaction p env s = Value tt s1 ->
  live s1 = c :: cs -> dstack_position s1 = c -> stack_at s1 es cs w' t -> next (winding_records s1 (EXPORT c)) = w' ->
  variables s1 current_transaction = t -> (forall x, x <> current_transaction -> variables s1 x = fst vw x) -> world s1 = snd vw ->
  unwinds e0 es a s position.
Proof using Type.
  intros L Po St [C Fr] P Cw Wd H N V Cp L1 P1 St1 Nx T1 Va1 Wo1. unfold unwinds. rewrite H.
  exists (popped s1 w c cs). destruct (stack_determined _ _ _ _ _ _ St _ _ St1) as [-> _].
  split; [|split; [rewrite L; reflexivity|]].
  - intros fuel. eapply unwind_winding; eauto. lia.
  - unfold undone. rewrite V. eapply represents_popped; eauto.
Qed.

Lemma unwind_protected p env es a s position : represents s a -> entries a = Protected p env :: es ->
  ~ In position (firstn 1 (live s)) -> unwinds (Protected p env) es a s position.
Proof using procedures_ok.
  intros R E N. destruct (procedures_ok p env s a R) as (s1 & E1 & L1 & R1). pose proof R as [St Po Va Wo]. rewrite E in St.
  destruct R1 as [St1 Po1 Va1 Wo1]. cbn [entries avars aworld] in *. rewrite E, L1 in St1.
  destruct (stack_determined _ _ _ _ _ _ St _ _ St1) as [_ T1].
  apply stack_inv in St as (c & cs & w & L & Cw & St & F & P & Wd). rewrite L in St1.
  apply stack_inv in St1 as (c' & cs' & w' & [= <- <-] & Cw' & St1 & _ & P' & Wd').
  rewrite L in *. rewrite T1 in *. rewrite L1 in Po1. cbn [position_of hd] in *.
  eapply (unwind_call es (Protected p env) a s s1 _ c cs w w'); eauto; try reflexivity.
  - intros ->. apply N. left. reflexivity.
  - rewrite Wd'. reflexivity.
Qed.

Lemma unwind_bound loc old es a s position : represents s a -> entries a = Bound loc old :: es ->
  ~ In position (firstn 1 (live s)) -> unwinds (Bound loc old) es a s position.
Proof using Type.
  intros [St Po Va Wo] E N. rewrite E in St. apply stack_inv in St as (c & cs & w & L & Cw & St & F & P & Wd & B & Nl).
  rewrite L in *. cbn [position_of hd] in Po.
  eapply (unwind_call es (Bound loc old) a s (set_variables s (put (variables s) loc old)) _ c cs w w); eauto; try reflexivity.
  - intros ->. apply N. left. reflexivity.
  - cbn. unfold bind, get, change. rewrite B. reflexivity.
  - apply (stack_tables s); auto.
  - cbn. rewrite Wd. reflexivity.
  - cbn. unfold put. destruct (Z.eqb_spec current_transaction loc); [congruence | reflexivity].
  - intros x Hx. cbn. unfold put. destruct (x =? loc); auto.
Qed.

(** An action or a transaction takes two chunks. *)
Lemma unwind_second e0 es a (s s2 : dstate W) c1 cs w t position : (forall fuel, unwind (S fuel) position s = unwind fuel position s2) ->
  height e0 = 2%nat -> skipn 2 (live s) = cs ->
  live s2 = c1 :: cs -> dstack_position s2 = c1 -> current_winding_record s2 = w ->
  stack_at s2 es cs w t -> fresh c1 cs -> previous s2 c1 = position_of cs -> c1 <> position ->
  variables s2 current_transaction = t ->
  (forall x, x <> current_transaction -> variables s2 x = fst (undo effect e0 es (avars a, aworld a)) x) ->
  world s2 = snd (undo effect e0 es (avars a, aworld a)) ->
  unwinds e0 es a s position.
Proof using Type.
  intros U H Ls L Po Cw St [C Fr] P N T V Wo. unfold unwinds. rewrite H, Ls.
  exists (popped s2 w c1 cs). split; [|split; [reflexivity|]].
  - intros fuel. cbn [Nat.add]. rewrite U, <- Cw. apply unwind_data; auto; [lia|].
    destruct (stack_winding _ _ _ _ _ St) as [Z0 | (c' & I & Z0)]; rewrite Cw, Z0; [unfold EXPORT; lia|].
    intros X%export_inj. subst. contradiction.
  - unfold undone. eapply represents_popped; eauto.
Qed.

Lemma unwind_recorded ty p env es a s position : represents s a -> entries a = Recorded ty p env :: es ->
  ~ In position (firstn 2 (live s)) -> unwinds (Recorded ty p env) es a s position.
Proof using procedures_ok.
  intros R E N. pose proof R as [St Po Va Wo]. rewrite E in St.
  apply stack_inv in St as (c2 & c1 & cs & w & L & Cw & St & F1 & P1 & F2 & P2 & A & Wd & T0).
  assert (N1 : c1 <> position) by (intros ->; apply N; rewrite L; cbn; auto).
  assert (N2 : c2 <> position) by (intros ->; apply N; rewrite L; cbn; auto).
  assert (X : exists s1, call_protector procedures current_transaction execute_action (EXPORT c1) s = Value tt s1 /\ live s1 = live s
    /\ represents s1 (mk_astate (Recorded ty p env :: es) (fst (undo effect (Recorded ty p env) es (avars a, aworld a)))
         (snd (undo effect (Recorded ty p env) es (avars a, aworld a))))).
  { cbn [call_protector]. unfold bind, get. rewrite A. cbn [type action_procedure action_environment].
    destruct (Z.eqb_spec (variables s current_transaction) 0); [contradiction|].
    pose proof (stack_current _ _ _ _ _ St) as Cu. cbn [undo]. destruct (current es) as [st|]; [|contradiction].
    destruct Cu as [_ Cu]. rewrite Cu, wanted_not_skipped. destruct (wanted st ty); cbn [negb].
    2:{ exists s. split; [reflexivity|]. split; [reflexivity|]. rewrite <- E. destruct a; exact R. }
    destruct (procedures_ok p env s a R) as (s1 & E1 & L1 & R1). exists s1. rewrite <- E. auto. }
  destruct X as (s1 & Cp & L1 & [St1 Po1 Va1 Wo1]). cbn [entries avars aworld] in *.
  pose proof (re_stack _ _ R) as St0. rewrite E in St0. rewrite L1 in St1.
  destruct (stack_determined _ _ _ _ _ _ St0 _ _ St1) as [_ T1]. clear St0.
  rewrite L in St1. apply stack_inv in St1 as (c2' & c1' & cs' & w' & [= <- <- <-] & Cw' & St1 & _ & P1' & _ & P2' & _ & Wd' & _).
  rewrite L1, L in *. cbn [position_of hd] in *. rewrite T1 in *.
  destruct (stack_determined _ _ _ _ _ _ St _ _ St1) as [-> _].
  eapply (unwind_second _ es a s (popped s1 w c2 (c1 :: cs)) c1 cs w); try exact N1; cbn; eauto.
  - intros fuel. eapply unwind_winding; eauto; [destruct F2; lia | rewrite Wd'; reflexivity].
  - rewrite L. reflexivity.
  - eapply stack_tables; eauto.
Qed.

Lemma unwind_begun st es a s position : represents s a -> entries a = Begun st :: es ->
  ~ In position (firstn 2 (live s)) -> unwinds (Begun st) es a s position.
Proof using Type.
  intros R E N. pose proof R as [St Po Va Wo]. rewrite E in St.
  apply stack_inv in St as (c2 & c1 & cs & w & t & L & Cw & T & St & F1 & P1 & F2 & P2 & _ & Wd & B).
  assert (N1 : c1 <> position) by (intros ->; apply N; rewrite L; cbn; auto).
  assert (N2 : c2 <> position) by (intros ->; apply N; rewrite L; cbn; auto).
  set (s1 := set_variables s (put (variables s) current_transaction t)). rewrite L in Po. cbn [position_of hd] in Po.
  eapply (unwind_second _ es a s (popped s1 w c2 (c1 :: cs)) c1 cs w t); try exact N1; cbn; eauto.
  - intros fuel. eapply (unwind_winding fuel position s c2 (c1 :: cs) w undo_binding _ s1); eauto; [destruct F2; lia | | cbn; rewrite Wd; reflexivity].
    cbn. unfold bind, get, change. rewrite B. reflexivity.
  - rewrite L. reflexivity.
  - eapply stack_tables; eauto.
  - unfold put. rewrite Z.eqb_refl. reflexivity.
  - intros x Hx. unfold put. destruct (Z.eqb_spec x current_transaction); [contradiction | auto].
Qed.

Lemma unwind_entry e es a s position : represents s a -> entries a = e :: es -> ~ In position (firstn (height e) (live s)) ->
  unwinds e es a s position.
Proof using procedures_ok.
  destruct e; auto using unwind_raw, unwind_protected, unwind_bound, unwind_recorded, unwind_begun.
Qed.
(** ** Unwinding to a position *)

Definition heights (es : list entry) : nat := list_sum (map height es).

Lemma stack_nodup s es cs w t : stack_at s es cs w t -> NoDup cs /\ Forall (fun c => 0 < c) cs.
Proof using Type.
  intros H. induction H; repeat match goal with F : fresh _ _ |- _ => destruct F end;
    try destruct IHstack_at; split; repeat (constructor; auto).
Qed.

Lemma stack_length s es cs w t : stack_at s es cs w t -> length cs = heights es.
Proof using Type. intros H. induction H; cbn; auto. Qed.

Lemma not_above s es cs w t k n : stack_at s es cs w t -> (k <= n)%nat -> ~ In (position_of (skipn n cs)) (firstn k cs).
Proof using Type.
  intros St Le I. destruct (stack_nodup _ _ _ _ _ St) as [Nd Ps]. destruct (skipn n cs) as [|c l] eqn:E.
  - cbn in I. assert (In 0 cs) by (rewrite <- (firstn_skipn k cs); apply in_or_app; auto).
    destruct (Z.lt_irrefl 0). exact (proj1 (Forall_forall _ _) Ps 0 H).
  - cbn in I. rewrite <- (firstn_skipn k cs) in Nd. apply NoDup_app_remove_l in Nd as Nd'. 
    assert (In c (skipn k cs)).
    { replace n with ((n - k) + k)%nat in E by lia. rewrite <- skipn_skipn in E.
      rewrite <- (firstn_skipn (n - k) (skipn k cs)), E. apply in_or_app. right. left. reflexivity. }
    clear Nd'. induction (firstn k cs) as [|x xs IH]; [destruct I|]. cbn in Nd. inversion Nd as [|? ? N1 N2]; subst.
    destruct I as [-> | I]; [apply N1, in_or_app; auto | exact (IH I N2)].
Qed.

Lemma undone_unwind e above below a : unwind_to effect above below (undone e (above ++ below) a) = unwind_to effect (e :: above) below a.
Proof using Type.
  unfold unwind_to, undone. cbn [unwound avars aworld]. rewrite <- surjective_pairing. reflexivity.
Qed.

Lemma unwind_all above : forall below a s fuel, represents s a -> entries a = above ++ below -> (heights above <= fuel)%nat ->
  exists s', unwind fuel (position_of (skipn (heights above) (live s))) s = Value tt s'
    /\ live s' = skipn (heights above) (live s) /\ represents s' (unwind_to effect above below a).
Proof using procedures_ok.
  induction above as [|e above IH]; intros below a s fuel R E F.
  - exists s. cbn [heights map list_sum skipn fold_right app] in *. split; [|split; [reflexivity|]].
    + rewrite <- (re_position _ _ R). destruct fuel; cbn; unfold bind, get; rewrite Z.eqb_refl; reflexivity.
    + unfold unwind_to. cbn. rewrite <- E. destruct a. exact R.
  - unfold heights in *. cbn [map list_sum fold_right] in *. fold (list_sum (map height above)) in *. pose proof (re_stack _ _ R) as St.
    set (n := list_sum (map height above)) in *.
    destruct (unwind_entry e (above ++ below) a s (position_of (skipn (height e + n) (live s))) R E) as (s1 & U & L & R1).
    { eapply not_above; [exact St | lia]. }
    destruct (IH below _ s1 (fuel - height e)%nat R1 eq_refl ltac:(lia)) as (s' & U' & L' & R').
    exists s'. rewrite undone_unwind in R'. rewrite L, skipn_skipn in *.
    replace (n + height e)%nat with (height e + n)%nat in * by lia. split; [|auto].
    replace fuel with (height e + (fuel - height e))%nat at 1 by lia. rewrite U. exact U'.
Qed.

(** ** Finding a position *)

Inductive chain (s : dstate W) : list Z -> Prop :=
  | chain_nil : chain s []
  | chain_cons c cs : 0 < c -> previous s c = position_of cs -> chain s cs -> chain s (c :: cs).

Lemma stack_chain s es cs w t : stack_at s es cs w t -> chain s cs.
Proof using Type.
  intros H. induction H; repeat match goal with F : fresh _ _ |- _ => destruct F end; repeat (constructor; auto).
Qed.

Lemma find_position_run s cs : chain s cs -> forall k fuel, (k <= fuel)%nat ->
  find_position fuel (position_of cs) (position_of (skipn k cs)) s = Value tt s.
Proof using Type.
  induction 1 as [|c cs P E C IH]; intros k fuel F.
  - rewrite skipn_nil. destruct fuel; reflexivity.
  - destruct k as [|k]; cbn [skipn].
    + destruct fuel; cbn [find_position]; rewrite Z.eqb_refl; reflexivity.
    + destruct fuel as [|fuel]; [lia|]. cbn [find_position position_of hd]. destruct (c =? _); [reflexivity|].
      destruct (Z.eqb_spec c 0); [lia|]. unfold bind, get. rewrite E. apply IH. lia.
Qed.

Lemma find_position_none s cs position : chain s cs -> position <> 0 -> ~ In position cs -> forall fuel, (length cs <= fuel)%nat ->
  find_position fuel (position_of cs) position s = Fatal position_not_found.
Proof using Type.
  intros C N0. induction C as [|c cs P E C IH]; intros N fuel F; destruct fuel as [|fuel]; cbn [length] in F; try lia;
    cbn [find_position position_of hd].
  - destruct (Z.eqb_spec 0 position); [congruence | reflexivity].
  - destruct (Z.eqb_spec 0 position); [congruence | reflexivity].
  - destruct (Z.eqb_spec c position) as [-> | _]; [exfalso; apply N; left; reflexivity|].
    destruct (Z.eqb_spec c 0); [lia|]. unfold bind, get. rewrite E. apply IH; [|lia]. intros I. apply N. right. exact I.
Qed.

Notation dstack_set_position := (dstack_set_position procedures current_transaction).

Lemma set_position_run above below a s : represents s a -> entries a = above ++ below ->
  exists s', dstack_set_position (position_of (skipn (heights above) (live s))) s = Value tt s'
    /\ live s' = skipn (heights above) (live s) /\ represents s' (unwind_to effect above below a).
Proof using procedures_ok.
  intros R E. pose proof (re_stack _ _ R) as St. assert (Le : (heights above <= length (live s))%nat).
  { rewrite (stack_length _ _ _ _ _ St), E. unfold heights. rewrite map_app, list_sum_app. lia. }
  unfold Transaction.dstack_set_position, bind at 1 2 3, get. rewrite (re_position _ _ R).
  rewrite (find_position_run s _ (stack_chain _ _ _ _ _ St) _ _ Le).
  apply (unwind_all above below a s _ R E Le).
Qed.
(** ** Allocation *)

Hypothesis alloc_fresh : forall chunks size, fresh (obstack_alloc chunks size) chunks.
Notation dstack_alloc := (dstack_alloc obstack_alloc).

(** The state after an allocation, of the chunk [c]. *)
Definition allocated (s : dstate W) (c : Z) : dstate W :=
  set_position (set_previous (set_live s (c :: live s)) (put (previous s) c (dstack_position s))) c.

Lemma dstack_alloc_run n s : exists c, fresh c (live s) /\ dstack_alloc n s = Value (EXPORT c) (allocated s c).
Proof using alloc_fresh. exists (obstack_alloc (live s) (SIZEOF_POINTER + n)). split; [apply alloc_fresh | reflexivity]. Qed.

Lemma put_same {A} (f : Z -> A) p v : put f p v p = v.
Proof using Type. unfold put. rewrite Z.eqb_refl. reflexivity. Qed.

Lemma put_other {A} (f : Z -> A) p v q : q <> p -> put f p v q = f q.
Proof using Type. unfold put. destruct (Z.eqb_spec q p); [contradiction | reflexivity]. Qed.

Lemma in_not c c' (chunks : list Z) : In c' chunks -> ~ In c chunks -> c' <> c.
Proof using Type. intros I N ->. contradiction. Qed.

(** What is written at a new chunk is not in the chunks below it. *)
Ltac agreeing :=
  constructor; cbn; intros; rewrite ?put_other; try reflexivity;
  repeat match goal with I : In ?c ?l, N : ~ In ?d ?l |- _ => pose proof (in_not d c l I N); clear N end; unfold EXPORT in *; lia.

Definition outcome (r : astate W + fatal_error) (x : ds_result W unit) : Prop :=
  match r with
  | inl a => exists s, x = Value tt s /\ represents s a
  | inr e => x = Fatal e
  end.

Lemma alloc_outcome n s a : represents s a ->
  exists c s', dstack_alloc n s = Value c s' /\ represents s' (push Raw a).
Proof using alloc_fresh.
  intros [St Po Va Wo]. destruct (dstack_alloc_run n s) as (c & [C Fr] & E). rewrite E. eexists _, _. split; [reflexivity|].
  constructor; cbn; auto. constructor; [|split; auto|cbn; rewrite put_same; exact Po].
  eapply stack_kept; [|exact St]. agreeing.
Qed.

Lemma protect_outcome p e s a : represents s a ->
  outcome (inl (push (Protected p e) a)) (dstack_protect obstack_alloc (procedure p) e s).
Proof using alloc_fresh.
  intros [St Po Va Wo]. unfold outcome, dstack_protect, bind. destruct (dstack_alloc_run SIZEOF_WINDING_RECORD s) as (c & [C Fr] & ->).
  eexists. split; [reflexivity|]. constructor; cbn; auto.
  eapply at_protected; cbn; rewrite ?put_same; auto; [|split; auto]. eapply stack_kept; [|exact St]. agreeing.
Qed.

Lemma bind_outcome loc v s a : represents s a -> loc <> current_transaction ->
  outcome (spec effect (Bind loc v) a) (dstack_bind obstack_alloc loc v s).
Proof using alloc_fresh.
  intros [St Po Va Wo] Nl. unfold outcome, spec, dstack_bind, dstack_alloc_and_protect, bind.
  destruct (dstack_alloc_run (SIZEOF_WINDING_RECORD + SIZEOF_BINDING_RECORD) s) as (c & [C Fr] & ->).
  eexists. split; [reflexivity|]. constructor; cbn; auto.
  - rewrite put_other by congruence.
    eapply at_bound; cbn; rewrite ?put_same; auto; [|split; auto | f_equal; apply Va, Nl]. eapply stack_kept; [|exact St]. agreeing.
  - intros x Hx. unfold put. destruct (x =? loc); auto.
Qed.

Lemma begin_outcome s a : represents s a ->
  outcome (spec effect Begin a) (transaction_begin obstack_alloc current_transaction s).
Proof using alloc_fresh.
  intros [St Po Va Wo]. unfold outcome, spec, transaction_begin, bind, get.
  destruct (dstack_alloc_run SIZEOF_TRANSACTION s) as (c1 & [C1 F1] & ->). unfold change.
  unfold dstack_bind, dstack_alloc_and_protect, bind. set (s1 := set_transactions _ _).
  destruct (dstack_alloc_run (SIZEOF_WINDING_RECORD + SIZEOF_BINDING_RECORD) s1) as (c2 & [C2 F2] & ->).
  assert (F2' : c2 <> c1 /\ ~ In c2 (live s)) by (cbn in F2; intuition congruence). destruct F2' as [N2 F2'].
  eexists. split; [reflexivity|]. constructor; cbn; auto.
  - rewrite put_same. eapply at_begun; cbn; rewrite ?put_same; auto.
    + eapply stack_kept; [|exact St]. agreeing.
    + split; auto.
    + rewrite put_other, put_same by auto. exact Po.
    + split; auto.
    + rewrite Po. reflexivity.
  - intros x Hx. rewrite put_other by auto. auto.
Qed.
(** ** Transactions *)

Notation guarantee_current_transaction := (guarantee_current_transaction (W := W) current_transaction).

Lemma guarantee_current_run s a : represents s a ->
  guarantee_current_transaction s = match guarded a (inl a) with inl _ => Value tt s | inr e => Fatal e end.
Proof using Type.
  intros [St _ _ _]. pose proof (stack_current _ _ _ _ _ St) as C. unfold Transaction.guarantee_current_transaction, guarded, bind, get.
  destruct (current (entries a)) as [st|].
  - destruct C as [N <-]. destruct (Z.eqb_spec (variables s current_transaction) 0); [contradiction|].
    destruct (state _); reflexivity.
  - rewrite C. reflexivity.
Qed.

Lemma guarded_cases (a : astate W) next : (guarded a next = next /\ current (entries a) = Some active) \/ exists e, forall next', guarded a next' = inr e.
Proof using Type. unfold guarded. destruct (current (entries a)) as [[]|]; eauto. Qed.

(** A command that is guarded stops, or goes on in an active transaction. *)
Lemma guarded_outcome next (k : ds (W := W) unit) s a : represents s a ->
  (current (entries a) = Some active -> outcome next (k s)) ->
  outcome (guarded a next) (bind guarantee_current_transaction (fun _ => k) s).
Proof using Type.
  intros R K. unfold bind. rewrite (guarantee_current_run s a R). destruct (guarded_cases a next) as [[E A] | [e E]].
  - rewrite E. unfold guarded. rewrite A. apply K, A.
  - rewrite !E. reflexivity.
Qed.

Lemma record_outcome ty p e s a : represents s a ->
  outcome (spec effect (Record_action ty p e) a) (transaction_record_action obstack_alloc current_transaction ty p e s).
Proof using alloc_fresh.
  intros R. apply guarded_outcome; [exact R|]. intros A. destruct R as [St Po Va Wo].
  pose proof (stack_current _ _ _ _ _ St) as Cu. rewrite A in Cu. destruct Cu as [T0 _]. unfold outcome, bind.
  destruct (dstack_alloc_run SIZEOF_ACTION s) as (c1 & [C1 F1] & ->). unfold change, dstack_protect, bind. set (s1 := set_actions _ _).
  destruct (dstack_alloc_run SIZEOF_WINDING_RECORD s1) as (c2 & [C2 F2] & ->).
  assert (F2' : c2 <> c1 /\ ~ In c2 (live s)) by (cbn in F2; intuition congruence). destruct F2' as [N2 F2'].
  eexists. split; [reflexivity|]. constructor; cbn; auto.
  eapply at_recorded; cbn; rewrite ?put_same; auto.
  - eapply stack_kept; [|exact St]. agreeing.
  - split; auto.
  - rewrite put_other, put_same by auto. exact Po.
  - split; auto.
Qed.

(** The innermost transaction gets another state. *)
Lemma stack_mark st' s es cs w t : stack_at s es cs w t -> t <> 0 ->
  let (above, below) := innermost es in
  let pos := position_of (skipn (heights (above ++ [Begun st'])) cs) in
  checkpoint (transactions s t) = pos
  /\ stack_at (set_transactions s (put (transactions s) t (mk_transaction pos st'))) (above ++ Begun st' :: below) cs w t.
Proof using Type.
  intros H. induction H; intros T0; cbn [innermost]; try (destruct (innermost es) as [above below]; cbn zeta in *; cbn [app];
    destruct (IHstack_at T0) as [Ck St]; split; [exact Ck | econstructor; eauto]).
  - contradiction.
  - cbn [app]. cbn zeta. change (skipn (heights [Begun st']) (c2 :: c1 :: cs)) with cs. split; [rewrite H4; reflexivity|].
    econstructor; cbn; rewrite ?put_same; eauto. eapply stack_kept; [|exact H]. destruct H0 as [C1 F1].
    constructor; cbn; intros; rewrite ?put_other; try reflexivity. intros X%export_inj. subst. contradiction.
Qed.

Lemma finish_outcome st s a : represents s a ->
  outcome (guarded a (inl (finish effect st a))) (finish_transaction procedures current_transaction st s).
Proof using procedures_ok.
  intros R. apply guarded_outcome; [exact R|]. intros A. destruct R as [St Po Va Wo].
  pose proof (stack_current _ _ _ _ _ St) as Cu. rewrite A in Cu. destruct Cu as [T0 _].
  pose proof (stack_mark st _ _ _ _ _ St T0) as M. unfold finish. destruct (innermost (entries a)) as [above below].
  cbn zeta in M. destruct M as [Ck St']. unfold outcome, bind, get, change. rewrite Ck. cbn [transactions set_transactions]. rewrite put_same.
  cbn [checkpoint]. set (s1 := set_transactions _ _) in *.
  destruct (set_position_run (above ++ [Begun st]) below (mk_astate (above ++ Begun st :: below) (avars a) (aworld a)) s1) as (s' & E & _ & R').
  { constructor; auto. }
  { cbn. rewrite <- app_assoc. reflexivity. }
  exists s'. split; [exact E | exact R'].
Qed.

Definition run (c : command) : ds (W := W) unit :=
  match c with
  | Begin => transaction_begin obstack_alloc current_transaction
  | Commit => transaction_commit procedures current_transaction
  | Abort_ => transaction_abort procedures current_transaction
  | Record_action t p e => transaction_record_action obstack_alloc current_transaction t p e
  | Alloc n => bind (dstack_alloc n) (fun _ => ret tt)
  | Protect p e => dstack_protect obstack_alloc (procedure p) e
  | Bind loc v => dstack_bind obstack_alloc loc v
  end.

(** Only this file binds [current_transaction]. *)
Definition allowed (c : command) : Prop := match c with Bind loc _ => loc <> current_transaction | _ => True end.

Lemma run_outcome c s a : represents s a -> allowed c -> outcome (spec effect c a) (run c s).
Proof using procedures_ok alloc_fresh.
  intros R Al. destruct c as [| | | ty p e | n | p e | loc v]; cbn [run].
  - apply begin_outcome, R.
  - exact (finish_outcome _ s a R).
  - exact (finish_outcome _ s a R).
  - apply record_outcome, R.
  - destruct (alloc_outcome n s a R) as (c & s' & E & R'). cbn [spec outcome]. unfold bind. rewrite E. exists s'. auto.
  - apply protect_outcome, R.
  - apply bind_outcome; assumption.
Qed.

Fixpoint run_all (cs : list command) : ds (W := W) unit :=
  match cs with
  | [] => ret tt
  | c :: cs => bind (run c) (fun _ => run_all cs)
  end.

Fixpoint spec_all (cs : list command) (a : astate W) : astate W + fatal_error :=
  match cs with
  | [] => inl a
  | c :: cs => match spec effect c a with inl a => spec_all cs a | inr e => inr e end
  end.

Lemma run_all_outcome cs : forall s a, represents s a -> Forall allowed cs -> outcome (spec_all cs a) (run_all cs s).
Proof using procedures_ok alloc_fresh.
  induction cs as [|c cs IH]; intros s a R Al; cbn [run_all spec_all].
  - exists s. auto.
  - inversion Al as [|? ? A1 A2]; subst. pose proof (run_outcome c s a R A1) as O. unfold bind.
    destruct (spec effect c a) as [a'|e]; cbn in O.
    + destruct O as (s' & -> & R'). apply IH; assumption.
    + rewrite O. reflexivity.
Qed.

(** ** The actions of one transaction *)

Definition Record_ (r : transaction_action_type * Z * Z) : command := let '(t, p, e) := r in Record_action t p e.

(** The actions that are wanted, the newest first. *)
Definition actions_done (st : transaction_state) (rs : list (transaction_action_type * Z * Z)) (w : W) : W :=
  fold_left (fun w '(t, p, e) => if wanted st t then effect p e w else w) (rev rs) w.

Lemma spec_app cs cs' a : spec_all (cs ++ cs') a = match spec_all cs a with inl a => spec_all cs' a | inr e => inr e end.
Proof using Type. revert a. induction cs as [|c cs IH]; intros a; cbn; [reflexivity|]. destruct (spec effect c a); auto. Qed.

Definition recorded (r : transaction_action_type * Z * Z) : entry := let '(t, p, e) := r in Recorded t p e.

Lemma spec_records rs es vars w : current es = Some active ->
  spec_all (map Record_ rs) (mk_astate es vars w) = inl (mk_astate (rev (map recorded rs) ++ es) vars w).
Proof using Type.
  revert es. induction rs as [|[[t p] e] rs IH]; intros es A; [reflexivity|].
  cbn [map Record_ spec_all spec]. unfold guarded. cbn [entries]. rewrite A. unfold push. cbn [entries avars aworld].
  rewrite IH by exact A. cbn [map rev recorded]. rewrite <- app_assoc. reflexivity.
Qed.

Lemma innermost_records rs st es : innermost (map recorded rs ++ Begun st :: es) = (map recorded rs, es).
Proof using Type. induction rs as [|[[t p] e] rs IH]; cbn; [reflexivity|]. rewrite IH. reflexivity. Qed.

Lemma current_records rs st es : current (map recorded rs ++ Begun st :: es) = Some st.
Proof using Type. induction rs as [|[[t p] e] rs IH]; auto. Qed.

Lemma unwound_records st rs es : forall vars w,
  unwound effect (map recorded rs ++ [Begun st]) es (vars, w)
  = (vars, fold_left (fun w '(t, p, e) => if wanted st t then effect p e w else w) rs w).
Proof using Type.
  induction rs as [|[[t p] e] rs IH]; intros vars w; [reflexivity|]. cbn [map app recorded unwound undo fold_left fst snd].
  rewrite <- app_assoc. cbn [app]. rewrite current_records. destruct (wanted st t); apply IH.
Qed.

Lemma spec_transaction c st rs a : (c = Commit /\ st = committing) \/ (c = Abort_ /\ st = aborting) ->
  spec_all (Begin :: map Record_ rs ++ [c]) a = inl (mk_astate (entries a) (avars a) (actions_done st rs (aworld a))).
Proof using Type.
  intros C. cbn [spec_all spec]. unfold push. rewrite spec_app, spec_records by reflexivity. cbn [spec_all].
  assert (E : spec effect c (mk_astate (rev (map recorded rs) ++ Begun active :: entries a) (avars a) (aworld a))
    = inl (mk_astate (entries a) (avars a) (actions_done st rs (aworld a)))).
  { rewrite <- map_rev. assert (F : guarded (mk_astate (map recorded (rev rs) ++ Begun active :: entries a) (avars a) (aworld a))
      (inl (finish effect st (mk_astate (map recorded (rev rs) ++ Begun active :: entries a) (avars a) (aworld a))))
      = inl (mk_astate (entries a) (avars a) (actions_done st rs (aworld a)))).
    { unfold guarded. cbn [entries]. rewrite current_records. unfold finish. cbn [entries]. rewrite innermost_records.
      unfold unwind_to. cbn [avars aworld]. rewrite unwound_records. reflexivity. }
    destruct C as [[-> ->] | [-> ->]]; exact F. }
  rewrite E. reflexivity.
Qed.
End Stack.

Section Theorems.
Context {W : Type}.
Variable obstack_alloc : list Z -> Z -> Z.
Variable procedures : Z -> Z -> ds (W := W) unit.
Variable current_transaction : Z.
Variable effect : Z -> Z -> W -> W.
Hypothesis alloc_fresh : forall chunks size, fresh (obstack_alloc chunks size) chunks.
Hypothesis procedures_ok : forall p e s a, represents current_transaction s a ->
  exists s', procedures p e s = Value tt s' /\ live s' = live s
    /\ represents current_transaction s' (mk_astate (entries a) (avars a) (effect p e (aworld a))).
Notation represents := (represents current_transaction).

(** C19: transactions on the dynamic stack implement their specification: any
    sequence of beginnings, commits, aborts, recorded actions, allocations,
    protections and bindings, nested in any way, does to a stack in memory what
    it does to the list of entries, or stops with the error of the
    specification at the same command; procedures may use the stack as long as
    they return and leave it as they found it. *)
Theorem transactions_refine cs s a : represents s a -> Forall (allowed current_transaction) cs ->
  match spec_all effect cs a with
  | inl a' => exists s', run_all obstack_alloc procedures current_transaction cs s = Value tt s' /\ represents s' a'
  | inr e => run_all obstack_alloc procedures current_transaction cs s = Fatal e
  end.
Proof using procedures_ok alloc_fresh.
  intros R Al. exact (run_all_outcome obstack_alloc procedures current_transaction effect procedures_ok alloc_fresh cs s a R Al).
Qed.

(** C20: a transaction runs the right actions: after a transaction is begun,
    actions are recorded and it is committed, the actions recorded for a commit
    or for always have been run once each, the newest first, and those for an
    abort have not; when it is aborted, those for an abort or for always have.
    The stack and all bound variables, with the outer transaction, are then as
    before, provided each single procedure returns and leaves the stack and the
    bound variables as it found them ([procedures_ok]; what else it does is its
    [effect]), and chunks that are allocated are new ([alloc_fresh]). *)
Theorem transaction_runs_actions rs s a : represents s a ->
  (exists s', run_all obstack_alloc procedures current_transaction (Begin :: map Record_ rs ++ [Commit]) s = Value tt s'
    /\ represents s' (mk_astate (entries a) (avars a) (actions_done effect committing rs (aworld a))))
  /\ exists s', run_all obstack_alloc procedures current_transaction (Begin :: map Record_ rs ++ [Abort_]) s = Value tt s'
    /\ represents s' (mk_astate (entries a) (avars a) (actions_done effect aborting rs (aworld a))).
Proof using procedures_ok alloc_fresh.
  intros R.
  assert (Al : forall c, allowed current_transaction c -> Forall (allowed current_transaction) (Begin :: map Record_ rs ++ [c])).
  { intros c Hc. constructor; [exact I|]. apply Forall_app. split; [|repeat constructor; exact Hc].
    apply Forall_map, Forall_forall. intros [[t p] e] _. exact I. }
  pose proof (fun c Hc => run_all_outcome obstack_alloc procedures current_transaction effect procedures_ok alloc_fresh _ s a R (Al c Hc)) as O.
  split.
  - pose proof (O Commit I) as P. rewrite (spec_transaction effect Commit committing) in P by auto. exact P.
  - pose proof (O Abort_ I) as P. rewrite (spec_transaction effect Abort_ aborting) in P by auto. exact P.
Qed.

(** C40: unwinding to an earlier position, as an error does, undoes exactly the
    entries above it, the newest first: procedures are called, bindings are
    restored, and transactions that were open are aborted.  A position that is
    not in the stack is refused and nothing is undone.  Each procedure that is
    called is assumed to return and to leave the stack and the bound variables
    as it found them ([procedures_ok]); a protector that unwinds the stack
    itself is outside of this. *)
Theorem dstack_set_position_correct s a : represents s a ->
  (forall above below, entries a = above ++ below ->
    exists s', dstack_set_position procedures current_transaction (position_of (skipn (heights above) (live s))) s = Value tt s'
      /\ represents s' (unwind_to effect above below a))
  /\ forall position, position <> 0 -> ~ In position (live s) ->
       dstack_set_position procedures current_transaction position s = Fatal position_not_found.
Proof using procedures_ok.
  intros R. split.
  - intros above below E. destruct (set_position_run procedures current_transaction effect procedures_ok above below a s R E) as (s' & E' & _ & R').
    eauto.
  - intros position N0 N. pose proof (re_stack _ _ _ R) as St. unfold dstack_set_position, bind at 1 2 3, get.
    rewrite (re_position _ _ _ R). rewrite (find_position_none s _ _ (stack_chain _ _ _ _ _ _ St) N0 N) by lia. reflexivity.
Qed.
End Theorems.

(** ** An allocator, and procedures that write a log *)

Definition next_chunk (chunks : list Z) (_ : Z) : Z := 1 + fold_right Z.max 0 chunks.

Definition log (p e : Z) : ds (W := list Z) unit := fun s => Value tt (set_world s (p :: world s)).

Definition empty_stack : dstate (list Z) :=
  mk_dstate [] (fun _ => 0) (fun _ => mk_winding 0 undo_binding 0) (fun _ => mk_binding 0 0)
    (fun _ => mk_transaction 0 active) (fun _ => mk_action tat_always 0 0) (fun _ => 0) 0 0 [].

Lemma next_chunk_fresh chunks size : fresh (next_chunk chunks size) chunks.
Proof.
  unfold next_chunk. assert (B : 0 <= fold_right Z.max 0 chunks /\ forall c, In c chunks -> c <= fold_right Z.max 0 chunks).
  { induction chunks as [|c chunks [IH1 IH2]]; cbn; [split; [lia | tauto]|]. split; [lia|]. intros c' [-> | I]; [lia|].
    specialize (IH2 _ I). lia. }
  destruct B as [B1 B2]. split; [lia|]. intros I. specialize (B2 _ I). lia.
Qed.

Lemma log_ok p e s a : represents 7 s a ->
  exists s', log p e s = Value tt s' /\ live s' = live s
    /\ represents 7 s' (mk_astate (entries a) (avars a) (p :: aworld a)).
Proof.
  intros [St Po Va Wo]. eexists. split; [reflexivity|]. split; [reflexivity|]. constructor; cbn; auto; [|congruence].
  eapply stack_tables; eauto.
Qed.

Lemma empty_stack_represents : represents 7 empty_stack (mk_astate [] (fun _ => 0) []).
Proof. constructor; cbn; auto. constructor. Qed.

(** A transaction is committed inside one that is aborted. *)
Definition nested_commands : list command :=
  [Begin; Record_action tat_abort 1 0; Bind 3 5; Begin; Record_action tat_commit 2 0; Record_action tat_always 3 0; Commit;
   Record_action tat_commit 4 0; Abort_].

Lemma transactions_refine_witness :
  exists s', run_all next_chunk log 7 nested_commands empty_stack = Value tt s' /\ represents 7 s' (mk_astate [] (put (put (fun _ => 0) 3 5) 3 0) [1; 2; 3]).
Proof.
  apply (transactions_refine next_chunk log 7 (fun p _ w => p :: w) next_chunk_fresh log_ok nested_commands empty_stack
    (mk_astate [] (fun _ => 0) []) empty_stack_represents).
  repeat constructor; cbn; lia.
Defined.

Lemma transaction_runs_actions_witness :
  exists s', run_all next_chunk log 7 [Begin; Record_action tat_commit 1 0; Record_action tat_abort 2 0; Record_action tat_always 3 0; Commit] empty_stack
    = Value tt s' /\ represents 7 s' (mk_astate [] (fun _ => 0) [1; 3]).
Proof.
  exact (proj1 (transaction_runs_actions next_chunk log 7 (fun p _ w => p :: w) next_chunk_fresh log_ok
    [(tat_commit, 1, 0); (tat_abort, 2, 0); (tat_always, 3, 0)] empty_stack (mk_astate [] (fun _ => 0) []) empty_stack_represents)).
Defined.

(** Entries of all kinds above one that stays. *)
Definition some_commands : list command :=
  [Protect 5 0; Bind 3 8; Protect 6 0; Alloc 10; Begin; Record_action tat_abort 1 0; Record_action tat_commit 2 0].
Definition some_entries : list entry :=
  [Recorded tat_commit 2 0; Recorded tat_abort 1 0; Begun active; Raw; Protected 6 0; Bound 3 0].

Lemma some_stack : exists s, run_all next_chunk log 7 some_commands empty_stack = Value tt s
  /\ represents 7 s (mk_astate (some_entries ++ [Protected 5 0]) (put (fun _ => 0) 3 8) []).
Proof.
  apply (run_all_outcome next_chunk log 7 (fun p _ w => p :: w) log_ok next_chunk_fresh some_commands empty_stack
    (mk_astate [] (fun _ => 0) []) empty_stack_represents).
  repeat constructor; cbn; lia.
Qed.

(** The open transaction is aborted: its action for an abort is run and that
    for a commit is not; then procedure 6 is called, and the variable 3 has
    its old value. *)
Lemma dstack_set_position_correct_witness :
  (exists s s', run_all next_chunk log 7 some_commands empty_stack = Value tt s
     /\ dstack_set_position log 7 (position_of (skipn 9 (live s))) s = Value tt s'
     /\ represents 7 s' (mk_astate [Protected 5 0] (put (put (fun _ => 0) 3 8) 3 0) [6; 1]))
  /\ dstack_set_position log 7 9 empty_stack = Fatal position_not_found.
Proof.
  split.
  - destruct some_stack as (s & E & R).
    destruct (proj1 (dstack_set_position_correct log 7 (fun p _ w => p :: w) log_ok s _ R) some_entries [Protected 5 0] eq_refl)
      as (s' & E' & R'). exists s, s'. split; [exact E|]. split; [exact E' | exact R'].
  - apply (proj2 (dstack_set_position_correct log 7 (fun p _ w => p :: w) log_ok empty_stack (mk_astate [] (fun _ => 0) []) empty_stack_represents));
      [lia | cbn; tauto].
Defined.

Example commit_in_an_action :
  match run_all next_chunk log 7 [Begin] empty_stack with
  | Value _ s => guarantee_current_transaction 7 (set_transactions s (fun t => mk_transaction 0 committing)) = Fatal commit_in_progress
  | _ => False
  end.
Proof. vm_compute. reflexivity. Qed.
