(* ===== verification/Fasl.v ===== *)
(** * Heap images in files (src/src/microcode/fasl.c, fasl.h, fasdump.c, fasload.c)

    A band is a file with the heap and the constant space of a system: a
    header, the words of both spaces as they were in memory, and the table of
    primitives.  When it is loaded at other addresses, or by a microcode with
    other primitives, every object of the image is relocated.

    The configuration is the one without compiled code in which the heap is
    not in low memory: an object holds the difference of an address and
    [memory_base], which is the start of the block that has all spaces.  An
    address counts words; the header stores [memory_base] in bytes.  An open
    file is the list of its words that are not read yet.

    Not modelled: PRIMITIVE-FASDUMP and BINARY-FASLOAD, which copy and intern
    a single object; the names of files and the transaction around a load. *)

From Stdlib Require Import ZArith List Lia Bool.
From S2P Require Import Prelude.
From S2P Require Import Object.
From S2P Require Import Memory.
From S2P Require Import Gc.
From S2P Require Import Heap.
From S2P Require Import Collect.
From S2P Require Import PrimTable.
Import ListNotations.
Local Open Scope Z_scope.

Notation TC_COMBINATION := 38.
Notation SHARP_F := 0.

(** ** The header *)

Notation FASL_FILE_MARKER := 18085043209519168250.
Notation FASL_HEADER_LENGTH := 50.
Notation FASL_OFFSET_MARKER := 0.
Notation FASL_OFFSET_HEAP_SIZE := 1.
Notation FASL_OFFSET_HEAP_BASE := 2.
Notation FASL_OFFSET_DUMPED_OBJ := 3.
Notation FASL_OFFSET_CONST_SIZE := 4.
Notation FASL_OFFSET_CONST_BASE := 5.
Notation FASL_OFFSET_VERSION := 6.
Notation FASL_OFFSET_STACK_START := 7.
Notation FASL_OFFSET_PRIM_LENGTH := 8.
Notation FASL_OFFSET_PRIM_SIZE := 9.
Notation FASL_OFFSET_CI_VERSION := 10.
Notation FASL_OFFSET_UT_BASE := 11.
Notation FASL_OFFSET_C_LENGTH := 13.
Notation FASL_OFFSET_C_SIZE := 14.
Notation FASL_OFFSET_MEM_BASE := 15.
Notation FASL_OFFSET_STACK_SIZE := 16.
Notation FASL_OFFSET_HEAP_RSVD := 17.
Notation FASL_OFFSET_EPHEMERONS := 18.

Notation FASL_VERSION_C_CODE := 10.
Notation FASL_VERSION_STACK_END := 11.
Notation FASL_VERSION_EPHEMERONS := 12.
Notation OLDEST_INPUT_FASL_VERSION := FASL_VERSION_C_CODE.
Notation NEWEST_INPUT_FASL_VERSION := FASL_VERSION_EPHEMERONS.

(** FASL_X86_64 *)
Notation CURRENT_FASL_ARCH := 21.
Notation COMPILER_NONE_TYPE := 0.

Notation FASL_ARCH_LENGTH := 32.
Notation FASL_VERSION_LENGTH := 26.
Notation HALF_DATUM_LENGTH := 29.
Notation HALF_DATUM_MASK := 536870911.

Definition FASL_ARCH (P : Z) : Z := P & (2 ^ FASL_ARCH_LENGTH - 1).
Definition FASL_VERSION (P : Z) : Z := Z.shiftr P FASL_ARCH_LENGTH & (2 ^ FASL_VERSION_LENGTH - 1).
Definition MAKE_FASL_VERSION (s a : Z) : Z := MAKE_OBJECT 1 (Z.lor (ulong (Z.shiftl s FASL_ARCH_LENGTH)) a).
Definition CI_VERSION (P : Z) : Z := Z.shiftr P HALF_DATUM_LENGTH & HALF_DATUM_MASK.
Definition CI_PROCESSOR (P : Z) : Z := P & HALF_DATUM_MASK.
Definition CI_BAND_P (P : Z) : bool := OBJECT_TYPE P =? TC_CONSTANT.
Definition MAKE_CI_VERSION (b : bool) (v a : Z) : Z :=
  MAKE_OBJECT (if b then TC_CONSTANT else TC_FALSE) (Z.lor (ulong (Z.shiftl v HALF_DATUM_LENGTH)) a).

Record fasl_header := mk_fasl_header {
  FASLHDR_VERSION : Z;
  FASLHDR_ARCH : Z;
  FASLHDR_CC_VERSION : Z;
  FASLHDR_CC_ARCH : Z;
  FASLHDR_BAND_P : bool;
  FASLHDR_MEMORY_BASE : Z;
  FASLHDR_ROOT_POINTER : Z;
  FASLHDR_HEAP_START : Z;
  FASLHDR_HEAP_END : Z;
  FASLHDR_HEAP_RESERVED : Z;
  FASLHDR_CONSTANT_START : Z;
  FASLHDR_CONSTANT_END : Z;
  FASLHDR_STACK_START : Z;
  FASLHDR_STACK_END : Z;
  FASLHDR_N_PRIMITIVES : Z;
  FASLHDR_PRIMITIVE_TABLE_SIZE : Z;
  FASLHDR_N_C_CODE_BLOCKS : Z;
  FASLHDR_C_CODE_TABLE_SIZE : Z;
  FASLHDR_UTILITIES_VECTOR : Z;
  FASLHDR_UTILITIES_START : Z;
  __FASLHDR_UTILITIES_END : Z;
  FASLHDR_EPHEMERON_COUNT : Z
}.

Definition FASLHDR_HEAP_SIZE (h : fasl_header) : Z := ulong (FASLHDR_HEAP_END h - FASLHDR_HEAP_START h).
Definition FASLHDR_CONSTANT_SIZE (h : fasl_header) : Z := ulong (FASLHDR_CONSTANT_END h - FASLHDR_CONSTANT_START h).
Definition FASLHDR_STACK_SIZE (h : fasl_header) : Z := ulong (FASLHDR_STACK_END h - FASLHDR_STACK_START h).

(** The first [n] words of an array in memory, and their copy to memory. *)
Definition words_at (m : memory) (a n : Z) : list Z := map (fun i => m (a + Z.of_nat i)) (seq 0 (Z.to_nat n)).

Fixpoint store_words (m : memory) (a : Z) (ws : list Z) : memory :=
  match ws with [] => m | w :: ws => store_words (store m a w) (a + 1) ws end.

Section Header.
Variable memory_base : Z.

Definition MAKE_BROKEN_HEART (address : Z) : Z := MAKE_POINTER_OBJECT memory_base TC_BROKEN_HEART address.

Definition encode_fasl_header (h : fasl_header) : memory :=
  let raw := fun _ => SHARP_F in
  let raw := store raw FASL_OFFSET_MARKER FASL_FILE_MARKER in
  let raw := store raw FASL_OFFSET_VERSION (MAKE_FASL_VERSION (FASLHDR_VERSION h) (FASLHDR_ARCH h)) in
  let raw := store raw FASL_OFFSET_CI_VERSION (MAKE_CI_VERSION (FASLHDR_BAND_P h) (FASLHDR_CC_VERSION h) (FASLHDR_CC_ARCH h)) in
  let raw := store raw FASL_OFFSET_MEM_BASE (8 * FASLHDR_MEMORY_BASE h) in
  let raw := store raw FASL_OFFSET_DUMPED_OBJ (MAKE_BROKEN_HEART (FASLHDR_ROOT_POINTER h)) in
  let raw := store raw FASL_OFFSET_HEAP_BASE (MAKE_BROKEN_HEART (FASLHDR_HEAP_START h)) in
  let raw := store raw FASL_OFFSET_HEAP_SIZE (MAKE_OBJECT TC_BROKEN_HEART (FASLHDR_HEAP_SIZE h)) in
  let raw := if FASL_VERSION_STACK_END <=? FASLHDR_VERSION h
             then store raw FASL_OFFSET_HEAP_RSVD (MAKE_OBJECT TC_BROKEN_HEART (FASLHDR_HEAP_RESERVED h)) else raw in
  let raw := store raw FASL_OFFSET_CONST_BASE (MAKE_BROKEN_HEART (FASLHDR_CONSTANT_START h)) in
  let raw := store raw FASL_OFFSET_CONST_SIZE (MAKE_OBJECT TC_BROKEN_HEART (FASLHDR_CONSTANT_SIZE h)) in
  let raw := if FASL_VERSION_STACK_END <=? FASLHDR_VERSION h
             then store (store raw FASL_OFFSET_STACK_START (MAKE_BROKEN_HEART (FASLHDR_STACK_START h)))
                    FASL_OFFSET_STACK_SIZE (MAKE_OBJECT TC_BROKEN_HEART (FASLHDR_STACK_SIZE h))
             else store raw FASL_OFFSET_STACK_START (MAKE_BROKEN_HEART (FASLHDR_STACK_END h)) in
  let raw := store raw FASL_OFFSET_PRIM_LENGTH (MAKE_OBJECT TC_BROKEN_HEART (FASLHDR_N_PRIMITIVES h)) in
  let raw := store raw FASL_OFFSET_PRIM_SIZE (MAKE_OBJECT TC_BROKEN_HEART (FASLHDR_PRIMITIVE_TABLE_SIZE h)) in
  let raw := store raw FASL_OFFSET_C_LENGTH (MAKE_OBJECT TC_BROKEN_HEART (FASLHDR_N_C_CODE_BLOCKS h)) in
  let raw := store raw FASL_OFFSET_C_SIZE (MAKE_OBJECT TC_BROKEN_HEART (FASLHDR_C_CODE_TABLE_SIZE h)) in
  let raw := store raw FASL_OFFSET_UT_BASE (FASLHDR_UTILITIES_VECTOR h) in
  if FASL_VERSION_EPHEMERONS <=? FASLHDR_VERSION h
  then store raw FASL_OFFSET_EPHEMERONS (MAKE_OBJECT TC_BROKEN_HEART (FASLHDR_EPHEMERON_COUNT h)) else raw.

(** [None] is the call of [abort]; [base] and [arch] are of the header. *)
Definition fasl_object_address (o base arch : Z) : option Z :=
  if negb (base =? 0) then Some (base + OBJECT_DATUM o)
  else if arch =? CURRENT_FASL_ARCH then Some (OBJECT_ADDRESS memory_base o)
  else None.

Definition OBJECT_NEW_ADDRESS (object address : Z) : Z := OBJECT_NEW_DATUM object (ADDRESS_TO_DATUM memory_base address).

(** [Some None] is the result [false].  [h] is what the header holds before. *)
Definition decode_fasl_header (raw : memory) (h : fasl_header) : option (option fasl_header) :=
  if negb (raw FASL_OFFSET_MARKER =? FASL_FILE_MARKER) then Some None
  else
    let version := FASL_VERSION (raw FASL_OFFSET_VERSION) in
    let arch := FASL_ARCH (raw FASL_OFFSET_VERSION) in
    let ci := raw FASL_OFFSET_CI_VERSION in
    let base := raw FASL_OFFSET_MEM_BASE / 8 in
    let address o := fasl_object_address o base arch in
    let* root := address (raw FASL_OFFSET_DUMPED_OBJ) in
    let* heap := address (raw FASL_OFFSET_HEAP_BASE) in
    let* const := address (raw FASL_OFFSET_CONST_BASE) in
    let* stack := address (raw FASL_OFFSET_STACK_START) in
    let new := FASL_VERSION_STACK_END <=? version in
    let ruv := raw FASL_OFFSET_UT_BASE in
    let* ut :=
      if ruv =? SHARP_F then Some (SHARP_F, 0)
      else
        let* a := address ruv in
        let fuv := OBJECT_NEW_ADDRESS ruv a in
        Some (fuv, OBJECT_ADDRESS memory_base fuv) in
    Some (Some (mk_fasl_header version arch (CI_VERSION ci) (CI_PROCESSOR ci) (CI_BAND_P ci) base root
      heap (heap + OBJECT_DATUM (raw FASL_OFFSET_HEAP_SIZE))
      (if new then OBJECT_DATUM (raw FASL_OFFSET_HEAP_RSVD) else 0)
      const (const + OBJECT_DATUM (raw FASL_OFFSET_CONST_SIZE))
      (if new then stack else base) (if new then stack + OBJECT_DATUM (raw FASL_OFFSET_STACK_SIZE) else stack)
      (OBJECT_DATUM (raw FASL_OFFSET_PRIM_LENGTH)) (OBJECT_DATUM (raw FASL_OFFSET_PRIM_SIZE))
      (OBJECT_DATUM (raw FASL_OFFSET_C_LENGTH)) (OBJECT_DATUM (raw FASL_OFFSET_C_SIZE))
      (fst ut) (snd ut) 0
      (if FASL_VERSION_EPHEMERONS <=? version then OBJECT_DATUM (raw FASL_OFFSET_EPHEMERONS) else FASLHDR_EPHEMERON_COUNT h))).

End Header.

(** ** Files *)

Definition read_from_fasl_file (n_words : Z) (handle : list Z) : option (list Z * list Z) :=
  if n_words <=? Z.of_nat (length handle)
  then Some (firstn (Z.to_nat n_words) handle, skipn (Z.to_nat n_words) handle)
  else None.

Inductive fasl_read_status_t :=
  | FASL_FILE_FINE | FASL_FILE_BAD_MACHINE | FASL_FILE_BAD_VERSION | FASL_FILE_BAD_PROCESSOR | FASL_FILE_BAD_INTERFACE.

Definition check_fasl_version (fh : fasl_header) : fasl_read_status_t :=
  if (OLDEST_INPUT_FASL_VERSION <=? FASLHDR_VERSION fh) && (FASLHDR_VERSION fh <=? NEWEST_INPUT_FASL_VERSION) then
    if FASLHDR_ARCH fh =? CURRENT_FASL_ARCH then FASL_FILE_FINE else FASL_FILE_BAD_MACHINE
  else FASL_FILE_BAD_VERSION.

Definition check_fasl_cc_version (fh : fasl_header) (version type : Z) : fasl_read_status_t :=
  if (FASLHDR_CC_VERSION fh =? 0) && (FASLHDR_CC_ARCH fh =? COMPILER_NONE_TYPE) then FASL_FILE_FINE
  else if FASLHDR_CC_VERSION fh =? version then
    if FASLHDR_CC_ARCH fh =? type then FASL_FILE_FINE else FASL_FILE_BAD_PROCESSOR
  else FASL_FILE_BAD_INTERFACE.

(** ** The spaces (memmag.c) *)

Notation CONSTANT_SPACE_FUDGE := 128.
Notation DEFAULT_HEAP_RESERVED := 4500.
Notation STACK_GUARD_SIZE := 4096.

Record spaces := mk_spaces {
  memory_block_start : Z;
  memory_block_end : Z;
  saved_stack_size : Z;
  stack_start : Z;
  stack_end : Z;
  stack_pointer : Z;
  stack_guard : Z;
  constant_start : Z;
  constant_alloc_next : Z;
  constant_end : Z;
  heap_start : Z;
  Free : Z;
  heap_end : Z;
  heap_reserved : Z;
  heap_alloc_limit : Z
}.

(** The ephemeron array is given by its address. *)
Record system := mk_system {
  sp : spaces;
  ps : prim_state;
  ephemeron_array : option Z;
  ephemeron_count : Z
}.

Definition smem (s : system) : memory := pmem (ps s).
Definition set_smem (s : system) (m : memory) : system :=
  mk_system (sp s) (mk_prim_state (tables (ps s)) m) (ephemeron_array s) (ephemeron_count s).
Definition set_sp (s : system) (p : spaces) : system := mk_system p (ps s) (ephemeron_array s) (ephemeron_count s).
Definition set_free (p : spaces) (free const : Z) : spaces :=
  mk_spaces (memory_block_start p) (memory_block_end p) (saved_stack_size p) (stack_start p) (stack_end p)
    (stack_pointer p) (stack_guard p) (constant_start p) const (constant_end p) (heap_start p) free (heap_end p)
    (heap_reserved p) (heap_alloc_limit p).

(** [memory_base] is the start of the block. *)
Definition base_of (s : system) : Z := memory_block_start (sp s).

Definition reserved_or_default (n_reserved : Z) : Z := if n_reserved =? 0 then DEFAULT_HEAP_RESERVED else n_reserved.

Definition allocations_ok_p (p : spaces) (n_constant n_heap n_reserved : Z) : bool :=
  memory_block_start p + saved_stack_size p + n_constant + CONSTANT_SPACE_FUDGE + n_heap + reserved_or_default n_reserved
    <? memory_block_end p.

Definition reset_spaces (p : spaces) (n_constant reserved : Z) : spaces :=
  let constant := memory_block_start p + saved_stack_size p in
  let heap := constant + n_constant + CONSTANT_SPACE_FUDGE in
  mk_spaces (memory_block_start p) (memory_block_end p) (saved_stack_size p) (memory_block_start p) constant constant
    (memory_block_start p + STACK_GUARD_SIZE) constant constant heap heap heap (memory_block_end p)
    (reserved_or_default reserved) (memory_block_end p - reserved_or_default reserved).

(** The last step is INITIALIZE_STACK. *)
Definition reset_allocator_parameters (n_constant reserved : Z) (s : system) : system :=
  let s := set_sp s (reset_spaces (sp s) n_constant reserved) in
  set_smem s (store (smem s) (stack_start (sp s)) (MAKE_BROKEN_HEART (base_of s) (stack_start (sp s)))).

(** ** Dumping a band *)

Inductive dump_result :=
  | Dumped (file : list Z) (s : system)
  | Not_dumped (s : system)
  | Dump_undefined.

(** Memory without compiled code; these say so in the header. *)
Notation compiler_utilities := SHARP_F.
Notation compiler_interface_version := 0.
Notation compiler_processor_type := COMPILER_NONE_TYPE.

Definition initialize_fasl_header (cc_p band_p : bool) (s : system) (h : fasl_header) : fasl_header :=
  mk_fasl_header (if band_p then FASL_VERSION_STACK_END else FASL_VERSION_C_CODE) CURRENT_FASL_ARCH
    (if cc_p then compiler_interface_version else 0) (if cc_p then compiler_processor_type else COMPILER_NONE_TYPE) band_p
    (memory_block_start (sp s)) (FASLHDR_ROOT_POINTER h) (FASLHDR_HEAP_START h) (FASLHDR_HEAP_END h)
    (if band_p then heap_reserved (sp s) else 0) (FASLHDR_CONSTANT_START h) (FASLHDR_CONSTANT_END h)
    (stack_start (sp s)) (stack_end (sp s)) (FASLHDR_N_PRIMITIVES h) (FASLHDR_PRIMITIVE_TABLE_SIZE h) 0 0
    (if cc_p then compiler_utilities else SHARP_F) (FASLHDR_UTILITIES_START h) (__FASLHDR_UTILITIES_END h)
    (FASLHDR_EPHEMERON_COUNT h).

Definition finalize_fasl_header (count : Z) (h : fasl_header) : fasl_header :=
  if negb (count =? 0) then
    mk_fasl_header FASL_VERSION_EPHEMERONS (FASLHDR_ARCH h) (FASLHDR_CC_VERSION h) (FASLHDR_CC_ARCH h) (FASLHDR_BAND_P h)
      (FASLHDR_MEMORY_BASE h) (FASLHDR_ROOT_POINTER h) (FASLHDR_HEAP_START h) (FASLHDR_HEAP_END h) (FASLHDR_HEAP_RESERVED h)
      (FASLHDR_CONSTANT_START h) (FASLHDR_CONSTANT_END h) (FASLHDR_STACK_START h) (FASLHDR_STACK_END h)
      (FASLHDR_N_PRIMITIVES h) (FASLHDR_PRIMITIVE_TABLE_SIZE h) (FASLHDR_N_C_CODE_BLOCKS h) (FASLHDR_C_CODE_TABLE_SIZE h)
      (FASLHDR_UTILITIES_VECTOR h) (FASLHDR_UTILITIES_START h) (__FASLHDR_UTILITIES_END h) count
  else h.

(** The fields that [Prim_band_dump] sets itself. *)
Definition set_band_fields (h : fasl_header) (root heap heap_end const const_end n_primitives table_size : Z) : fasl_header :=
  mk_fasl_header (FASLHDR_VERSION h) (FASLHDR_ARCH h) (FASLHDR_CC_VERSION h) (FASLHDR_CC_ARCH h) (FASLHDR_BAND_P h)
    (FASLHDR_MEMORY_BASE h) root heap heap_end (FASLHDR_HEAP_RESERVED h) const const_end (FASLHDR_STACK_START h)
    (FASLHDR_STACK_END h) n_primitives table_size (FASLHDR_N_C_CODE_BLOCKS h) (FASLHDR_C_CODE_TABLE_SIZE h)
    (FASLHDR_UTILITIES_VECTOR h) (FASLHDR_UTILITIES_START h) (__FASLHDR_UTILITIES_END h) (FASLHDR_EPHEMERON_COUNT h).

Definition write_fasl_file (h : fasl_header) (base prim_table_start : Z) (m : memory) : list Z :=
  words_at (encode_fasl_header base h) 0 FASL_HEADER_LENGTH
  ++ words_at m (FASLHDR_HEAP_START h) (FASLHDR_HEAP_SIZE h)
  ++ words_at m (FASLHDR_CONSTANT_START h) (FASLHDR_CONSTANT_SIZE h)
  ++ words_at m prim_table_start (FASLHDR_PRIMITIVE_TABLE_SIZE h).

(** The words of the root: a combination that calls the procedure, in a pair
    with the utilities, and the pair. *)
Definition band_root (base to procedure : Z) : list Z :=
  let comb := MAKE_POINTER_OBJECT base TC_COMBINATION to in
  let root := MAKE_POINTER_OBJECT base TC_LIST (to + 3) in
  [MAKE_OBJECT TC_MANIFEST_VECTOR 2; procedure; SHARP_F; comb; compiler_utilities; root].

(** After the checks of the arguments and of the space for 5 words; the file
    can be written.  [h] is what the static header holds. *)
Definition Prim_band_dump (procedure : Z) (h : fasl_header) (s : system) : dump_result :=
  let to := Free (sp s) in
  let h := initialize_fasl_header true true s h in
  let m := store_words (smem s) to (band_root (base_of s) to procedure) in
  let prim_table_start := to + 6 in
  let t := tables (ps s) in
  let size := primitive_table_export_length t in
  if heap_end (sp s) <? prim_table_start + size then Not_dumped (set_smem s m)
  else
    match export_primitive_table prim_table_start (mk_prim_state t m) with
    | PrimTable.Value _ ps' =>
        let h := set_band_fields h (to + 5) (heap_start (sp s)) prim_table_start (constant_start (sp s))
                   (constant_alloc_next (sp s)) (MAX_PRIMITIVE t) size in
        let h := finalize_fasl_header (ephemeron_count s) h in
        Dumped (write_fasl_file h (base_of s) prim_table_start (pmem ps'))
          (mk_system (sp s) ps' (ephemeron_array s) (ephemeron_count s))
    | _ => Dump_undefined
    end.

(** ** Relocation *)

Inductive load_error :=
  | ERR_FASL_FILE_BAD_DATA
  | ERR_FASLOAD_COMPILED_MISMATCH
  | ERR_FASLOAD_BAND
  | ERR_FASL_FILE_TOO_BIG
  | Bad_primitives (e : pt_result unit)
  | Gc_death
  | Call_of_abort
  | Assertion_fails
  | Fuel_gone.

Definition Ok {A} (a : A) : A + load_error := inl a.
Definition Err {A} (e : load_error) : A + load_error := inr e.
Definition lbind {A B} (x : A + load_error) (k : A -> B + load_error) : B + load_error :=
  match x with inl a => k a | inr e => inr e end.
Notation "'do*' x := e 'in' k" := (lbind e (fun x => k))
  (at level 10, x pattern, e at level 200, k at level 200).

Inductive load_handler := gc (h : gc_handler_t) | handle_primitive.

(** A table whose entries for tuples and vectors relocate. *)
Definition relocate_block_table (i : Z) : option load_handler :=
  if i =? TC_WEAK_CONS then Some (gc gc_handle_pair)
  else if i =? TC_EPHEMERON then Some (gc gc_handle_unaligned_vector)
  else if i =? TC_PRIMITIVE then Some handle_primitive
  else if i =? TC_BROKEN_HEART then Some (gc gc_handle_non_pointer)
  else match initialize_gc_table i with Some h => Some (gc h) | None => None end.

Section Load.
Variable memory_base : Z.
Variable fh : fasl_header.
Variable new_heap_start : Z.
Variable new_constant_start : Z.
Variable new_stack_start : Z.
Variable new_stack_end : Z.
Variable new_utilities : Z.
Variable new_prim_table : Z.

(** It is computed from memory when it is needed. *)
Definition faslhdr_utilities_end (m : memory) : Z :=
  if (__FASLHDR_UTILITIES_END fh =? 0) && VECTOR_P (FASLHDR_UTILITIES_VECTOR fh)
  then VECTOR_LOC memory_base (FASLHDR_UTILITIES_VECTOR fh)
         (OBJECT_DATUM (m (OBJECT_ADDRESS memory_base (FASLHDR_UTILITIES_VECTOR fh))))
  else __FASLHDR_UTILITIES_END fh.

Definition within_space (a start end_ : Z) : bool := (start <=? a) && (a <? end_).

Definition SP_TO_N_PUSHED (p start end_ : Z) : Z := end_ - p.
Definition N_PUSHED_TO_SP (np start end_ : Z) : Z := end_ - np.

Definition relocate_address (m : memory) (a : Z) : Z + load_error :=
  if within_space a (FASLHDR_HEAP_START fh) (FASLHDR_HEAP_END fh) then Ok (new_heap_start + (a - FASLHDR_HEAP_START fh))
  else if within_space a (FASLHDR_CONSTANT_START fh) (FASLHDR_CONSTANT_END fh) then
    Ok (new_constant_start + (a - FASLHDR_CONSTANT_START fh))
  else if within_space a (FASLHDR_UTILITIES_START fh) (faslhdr_utilities_end m) then
    Ok (new_utilities + (a - FASLHDR_UTILITIES_START fh))
  else if within_space a (FASLHDR_STACK_START fh) (FASLHDR_STACK_END fh) then
    Ok (N_PUSHED_TO_SP (SP_TO_N_PUSHED a (FASLHDR_STACK_START fh) (FASLHDR_STACK_END fh)) new_stack_start new_stack_end)
  else Err ERR_FASL_FILE_BAD_DATA.

Definition OLD_ADDRESS (object : Z) : Z + load_error :=
  match fasl_object_address memory_base object (FASLHDR_MEMORY_BASE fh) (FASLHDR_ARCH fh) with
  | Some a => Ok a
  | None => Err Call_of_abort
  end.

Definition RELOCATE_OBJECT (m : memory) (object : Z) : Z + load_error :=
  do* a := OLD_ADDRESS object in
  do* a := relocate_address m a in
  Ok (OBJECT_NEW_ADDRESS memory_base object a).

Definition primitive_object (m : memory) (object : Z) : Z :=
  let datum := OBJECT_DATUM object in
  let high_bits := Z.shiftr datum HALF_DATUM_LENGTH in
  MAKE_OBJECT_FROM_OBJECTS object (m (new_prim_table + (if negb (high_bits =? 0) then high_bits else datum))).

(** [*scan = o; return (scan + 1)] *)
Definition set_scan (m : memory) (scan : Z) (o : Z + load_error) : (memory * Z) + load_error :=
  do* o := o in Ok (store m scan o, scan + 1).

Definition load_handle (h : load_handler) (m : memory) (scan object : Z) : (memory * Z) + load_error :=
  match h with
  | handle_primitive => set_scan m scan (Ok (primitive_object m object))
  | gc gc_handle_non_pointer => Ok (m, scan + 1)
  | gc gc_handle_cell | gc gc_handle_pair | gc gc_handle_triple | gc gc_handle_quadruple
  | gc gc_handle_aligned_vector | gc gc_handle_unaligned_vector => set_scan m scan (RELOCATE_OBJECT m object)
  | gc gc_handle_weak_pair | gc gc_handle_ephemeron =>
      set_scan m scan (Ok (OBJECT_NEW_ADDRESS memory_base object (OBJECT_ADDRESS memory_base object)))
  | gc gc_handle_cc_entry => set_scan m scan (Ok object)
  | gc gc_handle_nmv => Ok (m, scan + 1 + OBJECT_DATUM object)
  | gc gc_handle_reference_trap =>
      set_scan m scan (if OBJECT_DATUM object <=? TRAP_MAX_IMMEDIATE then Ok object else RELOCATE_OBJECT m object)
  | gc gc_handle_broken_heart | gc gc_handle_linkage_section | gc gc_handle_manifest_closure | gc gc_handle_undefined => Err Gc_death
  end.

Fixpoint scan_oldspace_loop (fuel : nat) (m : memory) (scan end_ : Z) : memory + load_error :=
  if scan <? end_ then
    match fuel with
    | O => Err Fuel_gone
    | S fuel =>
        match relocate_block_table (OBJECT_TYPE (m scan)) with
        | Some h => do* (m, scan) := load_handle h m scan (m scan) in scan_oldspace_loop fuel m scan end_
        | None => Err Gc_death
        end
    end
  else Ok m.

(** Every object takes at least a word. *)
Definition gc_scan_oldspace (m : memory) (scan end_ : Z) : memory + load_error :=
  scan_oldspace_loop (Z.to_nat (end_ - scan)) m scan end_.

Definition primitive_numbers_unchanged_p (m : memory) : bool :=
  forallb (fun count => m (new_prim_table + Z.of_nat count) =? PrimTable.MAKE_PRIMITIVE_OBJECT (Z.of_nat count))
    (seq 0 (Z.to_nat (FASLHDR_N_PRIMITIVES fh))).

(** The image is where it was when it was dumped. *)
Definition unmoved_p (m : memory) : bool :=
  FASLHDR_BAND_P fh
  && (FASLHDR_HEAP_START fh =? new_heap_start)
  && ((FASLHDR_CONSTANT_START fh =? new_constant_start) || (FASLHDR_CONSTANT_START fh =? FASLHDR_CONSTANT_END fh))
  && ((FASLHDR_STACK_START fh =? 0) || (FASLHDR_STACK_START fh =? new_stack_start))
  && (FASLHDR_STACK_END fh =? new_stack_end)
  && (FASLHDR_MEMORY_BASE fh =? memory_base)
  && primitive_numbers_unchanged_p m.

Definition relocate_image (m : memory) (heap_end const_end : Z) : memory + load_error :=
  if negb (unmoved_p m) then
    do* m := gc_scan_oldspace m new_heap_start heap_end in
    gc_scan_oldspace m new_constant_start const_end
  else Ok m.

End Load.

(** ** Loading a band *)

Definition machine_of (s : system) : machine :=
  mk_machine (smem s) (Free (sp s)) (heap_start (sp s)) (heap_alloc_limit (sp s)) true.

Definition compute_extra_ephemeron_space (n : Z) (s : system) : Z + load_error :=
  if ephemeron_array_big_enough_p (smem s) (ephemeron_array s) n then Ok 0
  else match compute_ephemeron_array_length n with Some length => Ok (VECTOR_DATA + length) | None => Err Fuel_gone end.

Definition guarantee_extra_ephemeron_space (n : Z) (s : system) : system + load_error :=
  let s := mk_system (sp s) (ps s) (ephemeron_array s) n in
  if ephemeron_array_big_enough_p (smem s) (ephemeron_array s) n then Ok s
  else
    match compute_ephemeron_array_length n with
    | None => Err Fuel_gone
    | Some length =>
        if negb (HEAP_AVAILABLE_P (machine_of s) (VECTOR_DATA + length)) then Err Assertion_fails
        else
          let (array, m) := fill_vector length SHARP_F (machine_of s) in
          let s := set_smem s (mem m) in
          Ok (mk_system (set_free (sp s) (Memory.Free m) (constant_alloc_next (sp s))) (ps s) (Some array) n)
    end.

Definition read_from_file (m : memory) (p n_words : Z) (handle : list Z) : (memory * Z * list Z) + load_error :=
  match read_from_fasl_file n_words handle with
  | Some (ws, handle) => Ok (store_words m p ws, p + n_words, handle)
  | None => Err ERR_FASL_FILE_BAD_DATA
  end.

Section LoadBand.
Variable malloc : nat -> bool.
Variable Prim_unimplemented : Z.
(** [fuel] bounds the length of the names of primitives. *)
Variable fuel : nat.

(** The part for bands. *)
Definition load_file (fh : fasl_header) (handle : list Z) (old_ephemeron_count : Z) (s : system) : (Z * system) + load_error :=
  let new_heap_start := Free (sp s) in
  let new_constant_start := constant_alloc_next (sp s) in
  let new_stack_start := stack_start (sp s) in
  let new_stack_end := stack_end (sp s) in
  let new_utilities := 0 in
  do* (m, free, handle) := read_from_file (smem s) new_heap_start (FASLHDR_HEAP_SIZE fh) handle in
  do* (m, const, handle) := read_from_file m new_constant_start (FASLHDR_CONSTANT_SIZE fh) handle in
  let new_prim_table := free in
  let raw_prim_table := free + FASLHDR_N_PRIMITIVES fh in
  do* (m, _, handle) := read_from_file m raw_prim_table (FASLHDR_PRIMITIVE_TABLE_SIZE fh) handle in
  match import_primitive_table malloc Prim_unimplemented fuel raw_prim_table (FASLHDR_N_PRIMITIVES fh) new_prim_table
          (mk_prim_state (tables (ps s)) m) with
  | PrimTable.Value _ ps' =>
      do* m := relocate_image (base_of s) fh new_heap_start new_constant_start new_stack_start new_stack_end new_utilities new_prim_table
                 (pmem ps') free const in
      let s := mk_system (set_free (sp s) free const) (mk_prim_state (tables ps') m) (ephemeron_array s) (ephemeron_count s) in
      do* s := if FASL_VERSION_EPHEMERONS <=? FASLHDR_VERSION fh
               then guarantee_extra_ephemeron_space (old_ephemeron_count + FASLHDR_EPHEMERON_COUNT fh) s else Ok s in
      do* root := relocate_address (base_of s) fh new_heap_start new_constant_start new_stack_start new_stack_end new_utilities
                    (smem s) (FASLHDR_ROOT_POINTER fh) in
      Ok (smem s root, s)
  | r => Err (Bad_primitives r)
  end.

Definition init_fasl_file (base : Z) (band_p : bool) (h : fasl_header) (handle : list Z) : (fasl_header * list Z) + load_error :=
  match read_from_fasl_file FASL_HEADER_LENGTH handle with
  | None => Err ERR_FASL_FILE_BAD_DATA
  | Some (raw, handle) =>
      match decode_fasl_header base (store_words (fun _ => 0) 0 raw) h with
      | None => Err Call_of_abort
      | Some None => Err ERR_FASL_FILE_BAD_DATA
      | Some (Some fh) =>
          match check_fasl_version fh, check_fasl_cc_version fh compiler_interface_version compiler_processor_type with
          | FASL_FILE_FINE, FASL_FILE_FINE =>
              if negb (Bool.eqb (FASLHDR_BAND_P fh) band_p) then Err ERR_FASLOAD_BAND else Ok (fh, handle)
          | FASL_FILE_FINE, _ => Err ERR_FASLOAD_COMPILED_MISMATCH
          | _, _ => Err ERR_FASL_FILE_BAD_DATA
          end
      end
  end.

Definition REQUIRED_HEAP (h : fasl_header) : Z :=
  (FASLHDR_HEAP_SIZE h + FASLHDR_N_PRIMITIVES h + FASLHDR_PRIMITIVE_TABLE_SIZE h)%UL.

(** An error after the memory is reset ends the process. *)
Definition read_band_file (file : list Z) (h : fasl_header) (s : system) : (Z * system) + load_error :=
  do* (fh, handle) := init_fasl_file (base_of s) true h file in
  do* extra := if FASL_VERSION_EPHEMERONS <=? FASLHDR_VERSION fh
               then compute_extra_ephemeron_space (FASLHDR_EPHEMERON_COUNT fh) s else Ok 0 in
  if negb (allocations_ok_p (sp s) (FASLHDR_CONSTANT_SIZE fh) (REQUIRED_HEAP fh + extra)%UL (FASLHDR_HEAP_RESERVED fh))
  then Err ERR_FASL_FILE_TOO_BIG
  else
    let s := reset_allocator_parameters (FASLHDR_CONSTANT_SIZE fh) (FASLHDR_HEAP_RESERVED fh) s in
    let s := mk_system (sp s) (ps s) None (ephemeron_count s) in
    load_file fh handle 0 s.

End LoadBand.
