(* ===== verification/FaslProps.v ===== *)
(** * A band is dumped and loaded (for Fasl.v)

    The header that is read is the header that was written.  The image is a
    sequence of objects and of vectors of raw words; relocation replaces each
    object by what it stands for at the new addresses and with the new
    primitives, and nothing else. *)

From Stdlib Require Import ZArith List Lia Bool.
From S2P Require Import Prelude.
From S2P Require Import Object.
From S2P Require Import Memory.
From S2P Require Import Gc.
From S2P Require Import GcSpec.
From S2P Require Import Heap.
From S2P Require Import Collect.
From S2P Require Import CollectProps.
From S2P Require Import Symbol.
From S2P Require Import Bytes.
From S2P Require Import PrimTable.
From S2P Require Import PrimTableProps.
From S2P Require Import Fasl.
Import ListNotations.
Local Open Scope Z_scope.

#[local] Opaque MAKE_OBJECT OBJECT_DATUM OBJECT_TYPE.

(** ** Words of memory *)

Lemma file_words_length m a n : length (words_at m a n) = Z.to_nat n.
Proof. unfold words_at. rewrite length_map, length_seq. reflexivity. Qed.

Lemma words_at_nth m a n i : 0 <= i < n -> nth (Z.to_nat i) (words_at m a n) 0 = m (a + i).
Proof.
  intros H. unfold words_at. rewrite (nth_indep _ 0 (m (a + Z.of_nat 0))) by (rewrite length_map, length_seq; lia).
  rewrite (map_nth (fun i => m (a + Z.of_nat i))), seq_nth by lia. f_equal. lia.
Qed.

Lemma file_words_ext m m' a n : (forall x, a <= x < a + n -> m' x = m x) -> words_at m' a n = words_at m a n.
Proof. intros H. unfold words_at. apply map_ext_in. intros i I. apply in_seq in I. apply H. lia. Qed.

Lemma store_words_at ws : forall m a x,
  store_words m a ws x = if (a <=? x) && (x <? a + Z.of_nat (length ws)) then nth (Z.to_nat (x - a)) ws 0 else m x.
Proof.
  induction ws as [|w ws IH]; intros m a x; cbn [store_words length].
  - destruct (Z.leb_spec a x), (Z.ltb_spec x (a + Z.of_nat 0)); cbn [andb]; auto; lia.
  - rewrite IH, Nat2Z.inj_succ. unfold store.
    destruct (Z.leb_spec (a + 1) x), (Z.ltb_spec x (a + 1 + Z.of_nat (length ws))), (Z.leb_spec a x),
      (Z.ltb_spec x (a + Z.succ (Z.of_nat (length ws)))), (Z.eqb_spec x a); cbn [andb]; try lia; auto.
    + replace (Z.to_nat (x - a)) with (S (Z.to_nat (x - (a + 1)))) by lia. reflexivity.
    + subst. rewrite Z.sub_diag. reflexivity.
Qed.

Lemma store_words_same m a ws : words_at (store_words m a ws) a (Z.of_nat (length ws)) = ws.
Proof.
  apply (nth_ext _ _ 0 0); [rewrite file_words_length; lia|]. intros i Hi. rewrite file_words_length in Hi.
  rewrite <- (Nat2Z.id i), words_at_nth, store_words_at by lia.
  destruct (Z.leb_spec a (a + Z.of_nat i)), (Z.ltb_spec (a + Z.of_nat i) (a + Z.of_nat (length ws))); cbn [andb]; try lia.
  f_equal. lia.
Qed.

Lemma store_words_other m a ws x : x < a \/ a + Z.of_nat (length ws) <= x -> store_words m a ws x = m x.
Proof.
  intros H. rewrite store_words_at.
  destruct (Z.leb_spec a x), (Z.ltb_spec x (a + Z.of_nat (length ws))); cbn [andb]; try lia; reflexivity.
Qed.

Lemma words_at_copy m a n m' a' i : 0 <= i < n -> store_words m' a' (words_at m a n) (a' + i) = m (a + i).
Proof.
  intros H. rewrite store_words_at, file_words_length.
  destruct (Z.leb_spec a' (a' + i)), (Z.ltb_spec (a' + i) (a' + Z.of_nat (Z.to_nat n))); cbn [andb]; try lia.
  replace (a' + i - a') with i by lia. apply words_at_nth, H.
Qed.

(** ** The header *)

Record valid_header (h : fasl_header) : Prop := {
  vh_version : FASL_VERSION_C_CODE <= FASLHDR_VERSION h <= FASL_VERSION_EPHEMERONS;
  vh_arch : 0 <= FASLHDR_ARCH h < 2 ^ 32;
  vh_cc_version : 0 <= FASLHDR_CC_VERSION h < 2 ^ 29;
  vh_cc_arch : 0 <= FASLHDR_CC_ARCH h < 2 ^ 29;
  vh_base : 0 < FASLHDR_MEMORY_BASE h;
  vh_root : FASLHDR_MEMORY_BASE h <= FASLHDR_ROOT_POINTER h < FASLHDR_MEMORY_BASE h + 2 ^ 58;
  vh_heap : FASLHDR_MEMORY_BASE h <= FASLHDR_HEAP_START h <= FASLHDR_HEAP_END h;
  vh_heap_end : FASLHDR_HEAP_END h < FASLHDR_MEMORY_BASE h + 2 ^ 58;
  vh_reserved : 0 <= FASLHDR_HEAP_RESERVED h < 2 ^ 58;
  vh_constant : FASLHDR_MEMORY_BASE h <= FASLHDR_CONSTANT_START h <= FASLHDR_CONSTANT_END h;
  vh_constant_end : FASLHDR_CONSTANT_END h < FASLHDR_MEMORY_BASE h + 2 ^ 58;
  vh_stack : FASLHDR_MEMORY_BASE h <= FASLHDR_STACK_START h <= FASLHDR_STACK_END h;
  vh_stack_end : FASLHDR_STACK_END h < FASLHDR_MEMORY_BASE h + 2 ^ 58;
  vh_primitives : 0 <= FASLHDR_N_PRIMITIVES h < 2 ^ 58;
  vh_table_size : 0 <= FASLHDR_PRIMITIVE_TABLE_SIZE h < 2 ^ 58;
  vh_c_blocks : 0 <= FASLHDR_N_C_CODE_BLOCKS h < 2 ^ 58;
  vh_c_size : 0 <= FASLHDR_C_CODE_TABLE_SIZE h < 2 ^ 58;
  vh_utilities : FASLHDR_UTILITIES_VECTOR h = SHARP_F;
  vh_ephemerons : FASL_VERSION_EPHEMERONS <= FASLHDR_VERSION h -> 0 <= FASLHDR_EPHEMERON_COUNT h < 2 ^ 58
}.

(** What the header [h] is when it is read over [h0]. *)
Definition read_back (h h0 : fasl_header) : fasl_header :=
  let new := FASL_VERSION_STACK_END <=? FASLHDR_VERSION h in
  mk_fasl_header (FASLHDR_VERSION h) (FASLHDR_ARCH h) (FASLHDR_CC_VERSION h) (FASLHDR_CC_ARCH h) (FASLHDR_BAND_P h)
    (FASLHDR_MEMORY_BASE h) (FASLHDR_ROOT_POINTER h) (FASLHDR_HEAP_START h) (FASLHDR_HEAP_END h)
    (if new then FASLHDR_HEAP_RESERVED h else 0) (FASLHDR_CONSTANT_START h) (FASLHDR_CONSTANT_END h)
    (if new then FASLHDR_STACK_START h else FASLHDR_MEMORY_BASE h) (FASLHDR_STACK_END h) (FASLHDR_N_PRIMITIVES h)
    (FASLHDR_PRIMITIVE_TABLE_SIZE h) (FASLHDR_N_C_CODE_BLOCKS h) (FASLHDR_C_CODE_TABLE_SIZE h) SHARP_F 0 0
    (if FASL_VERSION_EPHEMERONS <=? FASLHDR_VERSION h then FASLHDR_EPHEMERON_COUNT h else FASLHDR_EPHEMERON_COUNT h0).

Lemma broken_heart_datum n : 0 <= n < 2 ^ 58 -> OBJECT_DATUM (MAKE_OBJECT TC_BROKEN_HEART n) = n.
Proof. intros H. apply (MAKE_OBJECT_parts TC_BROKEN_HEART n); lia. Qed.

Lemma broken_heart_address base base' arch p : 0 < base -> base <= p < base + 2 ^ 58 ->
  fasl_object_address base' (MAKE_BROKEN_HEART base p) base arch = Some p.
Proof.
  intros B H. unfold fasl_object_address. destruct (Z.eqb_spec base 0); [lia|]. cbn [negb]. f_equal.
  unfold MAKE_BROKEN_HEART, MAKE_POINTER_OBJECT, ADDRESS_TO_DATUM. rewrite ulong_small by lia. rewrite broken_heart_datum; lia.
Qed.

Lemma size_datum a b base : base <= a <= b -> b < base + 2 ^ 58 -> OBJECT_DATUM (MAKE_OBJECT TC_BROKEN_HEART (ulong (b - a))) = b - a.
Proof. intros H1 H2. rewrite ulong_small by lia. apply broken_heart_datum. lia. Qed.

Lemma low_bits hi lo n : 0 <= n -> 0 <= lo < 2 ^ n -> (hi * 2 ^ n + lo) mod 2 ^ n = lo.
Proof. intros N H. rewrite Z.add_comm, Z_mod_plus_full, Z.mod_small; lia. Qed.

Lemma high_bits hi lo n : 0 <= n -> 0 <= lo < 2 ^ n -> (hi * 2 ^ n + lo) / 2 ^ n = hi.
Proof. intros N H. rewrite Z.div_add_l, Z.div_small; lia. Qed.

Lemma make_parts type hi lo n : 0 < n < 58 -> 0 <= type < 64 -> 0 <= hi < 2 ^ (58 - n) -> 0 <= lo < 2 ^ n ->
  MAKE_OBJECT type (Z.lor (ulong (Z.shiftl hi n)) lo) = (type * 2 ^ (58 - n) + hi) * 2 ^ n + lo
  /\ OBJECT_TYPE (MAKE_OBJECT type (Z.lor (ulong (Z.shiftl hi n)) lo)) = type.
Proof.
  intros N T H L. assert (P : 2 ^ 58 = 2 ^ (58 - n) * 2 ^ n) by (rewrite <- Z.pow_add_r by lia; f_equal; lia).
  assert (0 < 2 ^ n) by (apply Z.pow_pos_nonneg; lia). assert (0 < 2 ^ (58 - n)) by (apply Z.pow_pos_nonneg; lia).
  assert (B : 0 <= hi * 2 ^ n + lo < 2 ^ 58) by nia.
  rewrite Z.shiftl_mul_pow2, ulong_small by (try lia; nia). rewrite <- Z.shiftl_mul_pow2 by lia. rewrite shiftl_lor_add by lia.
  rewrite MAKE_OBJECT_add by (try lia; exact B). split; [nia|].
  rewrite OBJECT_TYPE_div. apply high_bits; [lia | exact B].
Qed.

Lemma version_parts v a : 0 <= v < 2 ^ 26 -> 0 <= a < 2 ^ 32 ->
  FASL_VERSION (MAKE_FASL_VERSION v a) = v /\ FASL_ARCH (MAKE_FASL_VERSION v a) = a.
Proof.
  intros V A. unfold FASL_VERSION, FASL_ARCH, MAKE_FASL_VERSION.
  destruct (make_parts 1 v a 32) as [-> _]; [lia | lia | lia | lia |]. rewrite !land_mask by lia. rewrite shiftr_div by lia.
  rewrite high_bits, !low_bits by lia. auto.
Qed.

Lemma ci_parts b v a : 0 <= v < 2 ^ 29 -> 0 <= a < 2 ^ 29 ->
  CI_VERSION (MAKE_CI_VERSION b v a) = v /\ CI_PROCESSOR (MAKE_CI_VERSION b v a) = a /\ CI_BAND_P (MAKE_CI_VERSION b v a) = b.
Proof.
  intros V A. unfold CI_VERSION, CI_PROCESSOR, CI_BAND_P, MAKE_CI_VERSION. change HALF_DATUM_MASK with (2 ^ 29 - 1).
  destruct (make_parts (if b then TC_CONSTANT else TC_FALSE) v a 29) as [E ->]; [lia | destruct b; lia | lia | lia |]. rewrite E.
  rewrite !land_mask by lia. rewrite shiftr_div by lia. rewrite high_bits, !low_bits by lia. destruct b; auto.
Qed.

(** Reading an array is reading the file. *)
Lemma file_array raw i : 0 <= i < 50 -> store_words (fun _ => 0) 0 (words_at raw 0 50) i = raw i.
Proof. intros H. exact (words_at_copy raw 0 50 (fun _ => 0) 0 i H). Qed.

Lemma decode_ext base raw raw' h : (forall i, 0 <= i < 50 -> raw' i = raw i) -> decode_fasl_header base raw' h = decode_fasl_header base raw h.
Proof. intros E. unfold decode_fasl_header. rewrite !E by lia. reflexivity. Qed.

Lemma decode_encode base base' h h0 : valid_header h -> FASLHDR_MEMORY_BASE h = base ->
  decode_fasl_header base' (encode_fasl_header base h) h0 = Some (Some (read_back h h0)).
Proof.
  intros V Eb. set (raw := encode_fasl_header base h). pose proof (vh_base _ V) as B. rewrite Eb in B.
  assert (R : raw 0 = FASL_FILE_MARKER /\ raw 6 = MAKE_FASL_VERSION (FASLHDR_VERSION h) (FASLHDR_ARCH h)
    /\ raw 10 = MAKE_CI_VERSION (FASLHDR_BAND_P h) (FASLHDR_CC_VERSION h) (FASLHDR_CC_ARCH h) /\ raw 15 = 8 * base
    /\ raw 3 = MAKE_BROKEN_HEART base (FASLHDR_ROOT_POINTER h) /\ raw 2 = MAKE_BROKEN_HEART base (FASLHDR_HEAP_START h)
    /\ raw 1 = MAKE_OBJECT TC_BROKEN_HEART (FASLHDR_HEAP_SIZE h) /\ raw 5 = MAKE_BROKEN_HEART base (FASLHDR_CONSTANT_START h)
    /\ raw 4 = MAKE_OBJECT TC_BROKEN_HEART (FASLHDR_CONSTANT_SIZE h) /\ raw 8 = MAKE_OBJECT TC_BROKEN_HEART (FASLHDR_N_PRIMITIVES h)
    /\ raw 9 = MAKE_OBJECT TC_BROKEN_HEART (FASLHDR_PRIMITIVE_TABLE_SIZE h) /\ raw 13 = MAKE_OBJECT TC_BROKEN_HEART (FASLHDR_N_C_CODE_BLOCKS h)
    /\ raw 14 = MAKE_OBJECT TC_BROKEN_HEART (FASLHDR_C_CODE_TABLE_SIZE h) /\ raw 11 = SHARP_F
    /\ (FASL_VERSION_STACK_END <= FASLHDR_VERSION h -> raw 17 = MAKE_OBJECT TC_BROKEN_HEART (FASLHDR_HEAP_RESERVED h)
         /\ raw 7 = MAKE_BROKEN_HEART base (FASLHDR_STACK_START h) /\ raw 16 = MAKE_OBJECT TC_BROKEN_HEART (FASLHDR_STACK_SIZE h))
    /\ (FASLHDR_VERSION h < FASL_VERSION_STACK_END -> raw 7 = MAKE_BROKEN_HEART base (FASLHDR_STACK_END h))
    /\ (FASL_VERSION_EPHEMERONS <= FASLHDR_VERSION h -> raw 18 = MAKE_OBJECT TC_BROKEN_HEART (FASLHDR_EPHEMERON_COUNT h))).
  { unfold raw, encode_fasl_header, store. rewrite (vh_utilities _ V), Eb.
    destruct (Z.leb_spec FASL_VERSION_STACK_END (FASLHDR_VERSION h)), (Z.leb_spec FASL_VERSION_EPHEMERONS (FASLHDR_VERSION h)); cbn;
      repeat split; intros; try lia; reflexivity. }
  destruct R as (R0 & R6 & R10 & R15 & R3 & R2 & R1 & R5 & R4 & R8 & R9 & R13 & R14 & R11 & Rnew & Rold & Reph).
  unfold decode_fasl_header. rewrite R0, R6, R10, R15, R3, R2, R1, R5, R4, R8, R9, R13, R14, R11. rewrite !Z.eqb_refl. cbn [negb].
  pose proof (vh_version _ V) as Vv. destruct (version_parts (FASLHDR_VERSION h) (FASLHDR_ARCH h)) as [-> ->]; [lia | apply V |].
  destruct (ci_parts (FASLHDR_BAND_P h) (FASLHDR_CC_VERSION h) (FASLHDR_CC_ARCH h)) as (-> & -> & ->); [apply V | apply V |].
  rewrite Z.mul_comm, Z.div_mul by lia. pose proof (vh_root _ V). pose proof (vh_heap _ V). pose proof (vh_heap_end _ V).
  pose proof (vh_constant _ V). pose proof (vh_constant_end _ V). pose proof (vh_stack _ V). pose proof (vh_stack_end _ V).
  rewrite Eb in *. rewrite !broken_heart_address by lia. cbn [obind].
  unfold FASLHDR_HEAP_SIZE, FASLHDR_CONSTANT_SIZE. rewrite (size_datum _ _ base), (size_datum _ _ base) by lia.
  rewrite !broken_heart_datum by apply V. unfold read_back. rewrite Eb.
  assert (St : fasl_object_address base' (raw 7) base (FASLHDR_ARCH h)
    = Some (if FASL_VERSION_STACK_END <=? FASLHDR_VERSION h then FASLHDR_STACK_START h else FASLHDR_STACK_END h)).
  { destruct (Z.leb_spec FASL_VERSION_STACK_END (FASLHDR_VERSION h)) as [N | O].
    - destruct (Rnew N) as (_ & -> & _). apply broken_heart_address; lia.
    - rewrite (Rold O). apply broken_heart_address; lia. }
  rewrite St. cbn [obind fst snd]. do 2 f_equal.
  f_equal; try lia.
  - destruct (Z.leb_spec FASL_VERSION_STACK_END (FASLHDR_VERSION h)) as [N | O]; [|reflexivity].
    destruct (Rnew N) as (-> & _). apply broken_heart_datum, V.
  - destruct (Z.leb_spec FASL_VERSION_STACK_END (FASLHDR_VERSION h)); reflexivity.
  - destruct (Z.leb_spec FASL_VERSION_STACK_END (FASLHDR_VERSION h)) as [N | O]; [|reflexivity].
    destruct (Rnew N) as (_ & _ & ->). unfold FASLHDR_STACK_SIZE. rewrite (size_datum _ _ base) by lia. lia.
  - destruct (Z.leb_spec FASL_VERSION_EPHEMERONS (FASLHDR_VERSION h)) as [N | O]; [|reflexivity].
    rewrite (Reph N). apply broken_heart_datum, V, N.
Qed.

(** ** The scan of an image *)

Inductive item := Object (o : Z) | Words (header : Z) (ws : list Z).

Definition item_words (i : item) : list Z := match i with Object o => [o] | Words h ws => h :: ws end.
Definition image (its : list item) : list Z := concat (map item_words its).
Definition map_item (R : Z -> Z) (i : item) : item := match i with Object o => Object (R o) | Words h ws => Words h ws end.

(** What relocation does with an object. *)
Inductive treatment := Kept | Moved | Renamed | Header | Refused.

Definition treatment_of (o : Z) : treatment :=
  match relocate_block_table (OBJECT_TYPE o) with
  | Some handle_primitive => Renamed
  | Some (gc h) =>
      match h with
      | gc_handle_non_pointer | gc_handle_cc_entry => Kept
      | gc_handle_cell | gc_handle_pair | gc_handle_triple | gc_handle_quadruple
      | gc_handle_aligned_vector | gc_handle_unaligned_vector => Moved
      | gc_handle_reference_trap => if OBJECT_DATUM o <=? TRAP_MAX_IMMEDIATE then Kept else Moved
      | gc_handle_nmv => Header
      | _ => Refused
      end
  | None => Refused
  end.

Definition good_item (i : item) : Prop :=
  match i with
  | Object o => is_ulong o /\ treatment_of o <> Header /\ treatment_of o <> Refused
  | Words h ws => treatment_of h = Header /\ OBJECT_DATUM h = Z.of_nat (length ws)
  end.

Definition placed (m : memory) (a : Z) (ws : list Z) : Prop := forall i w, nth_error ws i = Some w -> m (a + Z.of_nat i) = w.

Lemma placed_app m a ws ws' : placed m a (ws ++ ws') -> placed m a ws /\ placed m (a + Z.of_nat (length ws)) ws'.
Proof.
  intros P. split; intros i w H.
  - apply P. rewrite nth_error_app1; [exact H|]. apply nth_error_Some. congruence.
  - replace (a + Z.of_nat (length ws) + Z.of_nat i) with (a + Z.of_nat (length ws + i)) by lia. apply P.
    rewrite nth_error_app2 by lia. replace (length ws + i - length ws)%nat with i by lia. exact H.
Qed.

Lemma placed_kept m m' a ws : (forall x, a <= x < a + Z.of_nat (length ws) -> m' x = m x) -> placed m a ws -> placed m' a ws.
Proof.
  intros E P i w H. assert (i < length ws)%nat by (apply nth_error_Some; congruence). rewrite E by lia. apply P, H.
Qed.

Lemma placed_words m a n : placed m a (words_at m a n).
Proof.
  intros i w H. assert (L : (i < length (words_at m a n))%nat) by (apply nth_error_Some; congruence).
  apply (nth_error_nth _ _ 0) in H. rewrite file_words_length in L. pose proof (words_at_nth m a n (Z.of_nat i) ltac:(lia)) as E.
  rewrite Nat2Z.id in E. congruence.
Qed.

Lemma words_placed m a ws : placed m a ws -> words_at m a (Z.of_nat (length ws)) = ws.
Proof.
  intros P. apply (nth_ext _ _ 0 0); [rewrite file_words_length; lia|]. intros i Hi. rewrite file_words_length in Hi.
  rewrite <- (Nat2Z.id i) at 1. rewrite words_at_nth by lia. apply P. apply nth_error_nth'. lia.
Qed.

Lemma placed_stored m a ws : placed (store_words m a ws) a ws.
Proof. pose proof (placed_words (store_words m a ws) a (Z.of_nat (length ws))) as P. rewrite store_words_same in P. exact P. Qed.

Lemma store_words_placed m a ws x : placed m a ws -> store_words m a ws x = m x.
Proof.
  intros P. rewrite store_words_at. destruct (Z.leb_spec a x), (Z.ltb_spec x (a + Z.of_nat (length ws))); cbn [andb]; auto.
  assert (E := P (Z.to_nat (x - a)) (nth (Z.to_nat (x - a)) ws 0)). rewrite Z2Nat.id in E by lia. replace (a + (x - a)) with x in E by lia.
  symmetry. apply E, nth_error_nth'. lia.
Qed.

Lemma store_words_app ws ws' : forall m a, store_words m a (ws ++ ws') = store_words (store_words m a ws) (a + Z.of_nat (length ws)) ws'.
Proof.
  induction ws as [|w ws IH]; intros m a; cbn [app store_words length].
  - rewrite Z.add_0_r. reflexivity.
  - rewrite IH. f_equal. lia.
Qed.

Lemma store_words_ext ws : forall m m' a x, (forall y, m' y = m y) -> store_words m' a ws x = store_words m a ws x.
Proof. intros m m' a x E. rewrite !store_words_at, E. reflexivity. Qed.

Lemma image_length_map R its : length (image (map (map_item R) its)) = length (image its).
Proof. unfold image. rewrite !length_concat, !map_map. f_equal. apply map_ext. intros []; reflexivity. Qed.

Section Scan.
Variable memory_base : Z.
Variable fh : fasl_header.
Variable new_heap_start : Z.
Variable new_constant_start : Z.
Variable new_stack_start : Z.
Variable new_stack_end : Z.
Variable new_utilities : Z.
Variable new_prim_table : Z.
Notation RELOCATE_OBJECT := (RELOCATE_OBJECT memory_base fh new_heap_start new_constant_start new_stack_start new_stack_end new_utilities).
Notation relocate_address := (relocate_address memory_base fh new_heap_start new_constant_start new_stack_start new_stack_end new_utilities).
Notation scan_oldspace_loop := (scan_oldspace_loop memory_base fh new_heap_start new_constant_start new_stack_start new_stack_end new_utilities new_prim_table).
Notation load_handle := (load_handle memory_base fh new_heap_start new_constant_start new_stack_start new_stack_end new_utilities new_prim_table).
Notation primitive_object := (primitive_object new_prim_table).
Notation gc_scan_oldspace := (gc_scan_oldspace memory_base fh new_heap_start new_constant_start new_stack_start new_stack_end new_utilities new_prim_table).

Hypothesis no_utilities : FASLHDR_UTILITIES_VECTOR fh = SHARP_F /\ FASLHDR_UTILITIES_START fh = 0 /\ __FASLHDR_UTILITIES_END fh = 0.

(** Where an address of the image is now. *)
Definition translate (a : Z) : Z :=
  if within_space a (FASLHDR_HEAP_START fh) (FASLHDR_HEAP_END fh) then new_heap_start + (a - FASLHDR_HEAP_START fh)
  else if within_space a (FASLHDR_CONSTANT_START fh) (FASLHDR_CONSTANT_END fh) then new_constant_start + (a - FASLHDR_CONSTANT_START fh)
  else a - FASLHDR_STACK_END fh + new_stack_end.

Definition in_image (a : Z) : Prop :=
  within_space a (FASLHDR_HEAP_START fh) (FASLHDR_HEAP_END fh)
  || within_space a (FASLHDR_CONSTANT_START fh) (FASLHDR_CONSTANT_END fh)
  || within_space a (FASLHDR_STACK_START fh) (FASLHDR_STACK_END fh) = true.

Definition old_address (o : Z) : Z := FASLHDR_MEMORY_BASE fh + OBJECT_DATUM o.

(** What an object of the image becomes. *)
Definition relocated (m : memory) (o : Z) : Z :=
  match treatment_of o with
  | Moved => OBJECT_NEW_ADDRESS memory_base o (translate (old_address o))
  | Renamed => primitive_object m o
  | _ => o
  end.

Definition relocatable (n_primitives : Z) (o : Z) : Prop :=
  match treatment_of o with
  | Moved => in_image (old_address o)
  | Renamed => OBJECT_DATUM o < n_primitives
  | _ => True
  end.

Lemma relocate_address_run m a : in_image a -> relocate_address m a = Ok (translate a).
Proof using no_utilities.
  destruct no_utilities as (U1 & U2 & U3). unfold in_image, Fasl.relocate_address, translate. intros H.
  destruct (within_space a (FASLHDR_HEAP_START fh) (FASLHDR_HEAP_END fh)); [reflexivity|].
  destruct (within_space a (FASLHDR_CONSTANT_START fh) (FASLHDR_CONSTANT_END fh)); [reflexivity|]. cbn [orb] in H. rewrite H, U2.
  assert (E : faslhdr_utilities_end memory_base fh m = 0) by (unfold faslhdr_utilities_end; rewrite U1, U3; reflexivity).
  rewrite E. unfold within_space at 1. destruct (Z.leb_spec 0 a), (Z.ltb_spec a 0); try lia; cbn [andb];
    unfold Ok, N_PUSHED_TO_SP, SP_TO_N_PUSHED; f_equal; lia.
Qed.

Lemma RELOCATE_OBJECT_run m o : FASLHDR_MEMORY_BASE fh <> 0 -> in_image (old_address o) ->
  RELOCATE_OBJECT m o = Ok (OBJECT_NEW_ADDRESS memory_base o (translate (old_address o))).
Proof using no_utilities.
  intros B H. unfold Fasl.RELOCATE_OBJECT, OLD_ADDRESS, fasl_object_address. destruct (Z.eqb_spec (FASLHDR_MEMORY_BASE fh) 0); [contradiction|].
  cbn [negb lbind Ok]. fold (old_address o). rewrite relocate_address_run by exact H. reflexivity.
Qed.

Hypothesis base_nonzero : FASLHDR_MEMORY_BASE fh <> 0.

Lemma load_handle_object m scan o n : treatment_of o <> Header -> treatment_of o <> Refused -> relocatable n o ->
  match relocate_block_table (OBJECT_TYPE o) with
  | Some h => exists m', load_handle h m scan o = Ok (m', scan + 1) /\ (m scan = o -> forall x, m' x = store m scan (relocated m o) x)
  | None => False
  end.
Proof using no_utilities base_nonzero.
  intros H1 H2 R. unfold relocated, relocatable, treatment_of in *. destruct (relocate_block_table (OBJECT_TYPE o)) as [[h|]|]; [| | contradiction].
  - assert (Same : forall x, m scan = o -> m x = store m scan o x) by (intros x E; unfold store; destruct (Z.eqb_spec x scan); congruence).
    destruct h; try contradiction; cbn [Fasl.load_handle set_scan lbind Ok];
      try (rewrite RELOCATE_OBJECT_run by assumption; cbn [lbind Ok]; eexists; split; [reflexivity | reflexivity]);
      try (eexists; split; [reflexivity|]; auto; reflexivity).
    destruct (OBJECT_DATUM o <=? TRAP_MAX_IMMEDIATE).
    + eexists. split; [reflexivity|]. reflexivity.
    + rewrite RELOCATE_OBJECT_run by assumption. eexists. split; [reflexivity|]. reflexivity.
  - cbn [Fasl.load_handle set_scan lbind Ok]. eexists. split; reflexivity.
Qed.
Definition item_ok (n_primitives : Z) (i : item) : Prop :=
  good_item i /\ match i with Object o => relocatable n_primitives o | Words _ _ => True end.

(** Only the vector of primitives is read. *)
Lemma relocated_kept n m m' o : n <= 2 ^ 29 -> relocatable n o -> (forall x, new_prim_table <= x < new_prim_table + n -> m' x = m x) ->
  relocated m' o = relocated m o.
Proof using Type.
  intros N R E. unfold relocated, relocatable in *. destruct (treatment_of o); auto.
  unfold Fasl.primitive_object. rewrite OBJECT_DATUM_mod in *. pose proof (mod58 o).
  rewrite shiftr_div by lia. rewrite Z.div_small by lia. cbn [Z.eqb negb]. rewrite E by lia. reflexivity.
Qed.

Lemma scan_run n its : n <= 2 ^ 29 -> forall m scan fuel, placed m scan (image its) -> Forall (item_ok n) its ->
  scan + Z.of_nat (length (image its)) <= new_prim_table \/ new_prim_table + n <= scan -> (length (image its) <= fuel)%nat ->
  exists m', scan_oldspace_loop fuel m scan (scan + Z.of_nat (length (image its))) = Ok m'
    /\ forall x, m' x = store_words m scan (image (map (map_item (relocated m)) its)) x.
Proof using no_utilities base_nonzero.
  intros N. induction its as [|i its IH]; intros m scan fuel P G D F.
  - exists m. split; [|reflexivity]. cbn. rewrite Z.add_0_r. destruct fuel; cbn; rewrite Z.ltb_irrefl; reflexivity.
  - inversion G as [|? ? [Gi Ri] G']; subst. cbn [image map concat] in *. fold (image its) in *.
    apply placed_app in P as [Pi P]. rewrite length_app in *. rewrite Nat2Z.inj_add in *.
    assert (Fu : exists fuel', fuel = S fuel' /\ (length (item_words i) - 1 + length (image its) <= fuel')%nat).
    { destruct i; cbn [item_words length] in F |- *; (destruct fuel as [|fuel']; [lia|]); exists fuel'; split; auto; lia. }
    destruct Fu as (fuel' & -> & F'). cbn [Fasl.scan_oldspace_loop].
    destruct (Z.ltb_spec scan (scan + (Z.of_nat (length (item_words i)) + Z.of_nat (length (image its))))); [|destruct i; cbn [item_words length] in *; lia].
    destruct i as [o | h ws]; cbn [item_words length map_item app store_words] in *.
    + pose proof (Pi 0%nat o eq_refl) as Eo. cbn in Eo. rewrite Z.add_0_r in Eo. rewrite Eo.
      destruct Gi as (_ & H1 & H2). pose proof (load_handle_object m scan o n H1 H2 Ri) as L.
      destruct (relocate_block_table (OBJECT_TYPE o)); [|contradiction]. destruct L as (m1 & -> & E1). specialize (E1 Eo). cbn [lbind Ok].
      destruct (IH m1 (scan + 1) fuel') as (m' & E' & C'); [| exact G' | lia | lia |].
      { eapply placed_kept; [|exact P]. intros x Hx. rewrite E1. apply store_other. lia. }
      exists m'. split; [rewrite <- E'; f_equal; lia|]. intros x. rewrite C'.
      rewrite (map_ext_in (map_item (relocated m1)) (map_item (relocated m))).
      * apply store_words_ext. exact E1.
      * intros j Hj. rewrite Forall_forall in G'. destruct (G' j Hj) as [_ Rj]. destruct j; cbn; [|reflexivity]. f_equal.
        apply (relocated_kept n); auto. intros y Hy. rewrite E1. apply store_other. lia.
    + pose proof (Pi 0%nat h eq_refl) as Eh. cbn in Eh. rewrite Z.add_0_r in Eh. rewrite Eh.
      destruct Gi as [Th Dh]. unfold treatment_of in Th.
      destruct (relocate_block_table (OBJECT_TYPE h)) as [[k|]|]; try discriminate.
      destruct k; try discriminate; [|destruct (_ <=? _); discriminate]. cbn [Fasl.load_handle lbind Ok]. rewrite Dh.
      destruct (IH m (scan + 1 + Z.of_nat (length ws)) fuel') as (m' & E' & C'); [| exact G' | lia | lia |].
      { replace (scan + 1 + Z.of_nat (length ws)) with (scan + Z.of_nat (S (length ws))) by lia. exact P. }
      exists m'. split; [rewrite <- E'; f_equal; lia|]. intros x. rewrite C'.
      change (store_words (store m scan h) (scan + 1) (ws ++ image (map (map_item (relocated m)) its)) x)
        with (store_words m scan ((h :: ws) ++ image (map (map_item (relocated m)) its)) x).
      rewrite store_words_app. cbn [length]. replace (scan + Z.of_nat (S (length ws))) with (scan + 1 + Z.of_nat (length ws)) by lia.
      symmetry. apply store_words_ext. intros y. exact (store_words_placed m scan (h :: ws) y Pi).
Qed.
(** *** An image that has not moved *)

Notation unmoved_p := (unmoved_p memory_base fh new_heap_start new_constant_start new_stack_start new_stack_end new_prim_table).
Notation relocate_image := (relocate_image memory_base fh new_heap_start new_constant_start new_stack_start new_stack_end new_utilities new_prim_table).

Lemma new_address_same o : is_ulong o -> OBJECT_NEW_ADDRESS memory_base o (memory_base + OBJECT_DATUM o) = o.
Proof using Type.
  intros H. unfold OBJECT_NEW_ADDRESS, OBJECT_NEW_DATUM, ADDRESS_TO_DATUM. replace (memory_base + OBJECT_DATUM o - memory_base) with (OBJECT_DATUM o) by lia.
  rewrite ulong_small by (rewrite OBJECT_DATUM_mod; pose proof (mod58 o); lia). apply object_parts, H.
Qed.

Lemma unmoved_same m o : unmoved_p m = true -> is_ulong o -> FASLHDR_N_PRIMITIVES fh <= 2 ^ 29 -> relocatable (FASLHDR_N_PRIMITIVES fh) o ->
  relocated m o = o.
Proof using Type.
  unfold Fasl.unmoved_p. intros U. repeat (apply andb_prop in U as [U ?]). intros Uo N R.
  repeat match goal with H : (_ =? _) = true |- _ => apply Z.eqb_eq in H end. unfold relocated, relocatable in *.
  destruct (treatment_of o); auto.
  - assert (E : translate (old_address o) = old_address o).
    { unfold translate. destruct (within_space (old_address o) (FASLHDR_HEAP_START fh) (FASLHDR_HEAP_END fh)); [lia|].
      destruct (within_space (old_address o) (FASLHDR_CONSTANT_START fh) (FASLHDR_CONSTANT_END fh)) eqn:C; [|lia].
      apply andb_prop in C as [C1 C2]. apply Z.leb_le in C1. apply Z.ltb_lt in C2.
      match goal with H : (_ || (FASLHDR_CONSTANT_START fh =? FASLHDR_CONSTANT_END fh)) = true |- _ => apply orb_prop in H as [H | H]; apply Z.eqb_eq in H end; lia. }
    rewrite E. unfold old_address. replace (FASLHDR_MEMORY_BASE fh) with memory_base by congruence. apply new_address_same, Uo.
  - unfold Fasl.primitive_object. pose proof (mod58 o) as M. rewrite OBJECT_DATUM_mod in *.
    rewrite shiftr_div by lia. rewrite Z.div_small by lia. cbn [Z.eqb negb].
    match goal with H : primitive_numbers_unchanged_p _ _ _ = true |- _ => unfold primitive_numbers_unchanged_p in H; rewrite forallb_forall in H;
      specialize (H (Z.to_nat (o mod 2 ^ 58))); rewrite Z2Nat.id in H by lia; rename H into P end.
    assert (Pe : m (new_prim_table + o mod 2 ^ 58) = MAKE_PRIMITIVE_OBJECT (o mod 2 ^ 58)) by (apply Z.eqb_eq, P, in_seq; lia).
    rewrite Pe. unfold MAKE_OBJECT_FROM_OBJECTS. destruct (primitive_parts (o mod 2 ^ 58)) as [-> _]; [lia|].
    rewrite <- OBJECT_DATUM_mod. apply object_parts, Uo.
Qed.

Lemma map_item_same m n its : Forall (item_ok n) its -> (forall o, is_ulong o -> relocatable n o -> relocated m o = o) ->
  map (map_item (relocated m)) its = its.
Proof using Type.
  intros G H. induction G as [|i its [Gi Ri] G IH]; [reflexivity|]. cbn [map]. rewrite IH. f_equal.
  destruct i; cbn; [|reflexivity]. f_equal. apply H; [apply Gi | exact Ri].
Qed.

Lemma placed_pointwise m m' a ws : (forall x, m' x = m x) -> placed m a ws -> placed m' a ws.
Proof using Type. intros E P i w H. rewrite E. apply P, H. Qed.

Lemma relocate_image_run n m heap const : n = FASLHDR_N_PRIMITIVES fh -> n <= 2 ^ 29 ->
  let hl := Z.of_nat (length (image heap)) in let cl := Z.of_nat (length (image const)) in
  placed m new_heap_start (image heap) -> placed m new_constant_start (image const) ->
  Forall (item_ok n) heap -> Forall (item_ok n) const ->
  new_constant_start + cl <= new_heap_start -> new_heap_start + hl <= new_prim_table ->
  exists m', relocate_image m (new_heap_start + hl) (new_constant_start + cl) = Ok m'
    /\ placed m' new_heap_start (image (map (map_item (relocated m)) heap))
    /\ placed m' new_constant_start (image (map (map_item (relocated m)) const))
    /\ forall x, x < new_constant_start \/ new_constant_start + cl <= x < new_heap_start \/ new_heap_start + hl <= x -> m' x = m x.
Proof using no_utilities base_nonzero.
  intros -> N hl cl Ph Pc Gh Gc D1 D2. unfold Fasl.relocate_image. destruct (unmoved_p m) eqn:U; cbn [negb].
  - exists m. split; [reflexivity|]. rewrite !(map_item_same m _ _ Gh), !(map_item_same m _ _ Gc) by (intros; apply unmoved_same; auto). auto.
  - destruct (scan_run _ heap N m new_heap_start (Z.to_nat (new_heap_start + hl - new_heap_start)) Ph Gh) as (m1 & E1 & C1); [lia | lia |].
    unfold Fasl.gc_scan_oldspace at 1. fold hl in E1. rewrite E1. cbn [lbind Ok].
    assert (Pc1 : placed m1 new_constant_start (image const)).
    { eapply placed_kept; [|exact Pc]. intros x Hx. rewrite C1. apply store_words_other. left. fold cl in Hx. lia. }
    destruct (scan_run _ const N m1 new_constant_start (Z.to_nat (new_constant_start + cl - new_constant_start)) Pc1 Gc) as (m2 & E2 & C2); [lia | lia |].
    exists m2. unfold Fasl.gc_scan_oldspace. fold cl in E2. split; [exact E2|].
    assert (Rs : map (map_item (relocated m1)) const = map (map_item (relocated m)) const).
    { apply map_ext_in. intros i Hi. rewrite Forall_forall in Gc. destruct (Gc i Hi) as [_ Ri]. destruct i; cbn; [|reflexivity]. f_equal.
      apply (relocated_kept (FASLHDR_N_PRIMITIVES fh)); auto. intros x Hx. rewrite C1. apply store_words_other. rewrite image_length_map. fold hl. lia. }
    rewrite Rs in C2.
    assert (O : forall x, x < new_constant_start \/ new_constant_start + cl <= x -> m2 x = m1 x).
    { intros x Hx. rewrite C2. apply store_words_other. rewrite image_length_map. fold cl. lia. }
    split; [|split].
    + eapply placed_kept; [|eapply placed_pointwise; [exact C1 | apply placed_stored]].
      rewrite image_length_map. fold hl. intros x Hx. apply O. lia.
    + eapply placed_pointwise; [exact C2 | apply placed_stored].
    + intros x Hx. rewrite O by lia. rewrite C1. apply store_words_other. rewrite image_length_map. fold hl. lia.
Qed.
End Scan.
