(* ===== verification/FaslBand.v ===== *)
(** * The round trip of a band (for Fasl.v)

    What DUMP-BAND writes, LOAD-BAND turns into the same world: every object
    of the heap and the constant space, with its addresses translated to the
    new spaces and its primitives known by name. *)

From Stdlib Require Import ZArith List Lia Bool.
From S2P Require Import Prelude.
From S2P Require Import Object.
From S2P Require Import Memory.
From S2P Require Import Gc.
From S2P Require Import GcSpec.
From S2P Require Import Heap.
From S2P Require Import Collect.
From S2P Require Import CollectProps.
From S2P Require Import AvlTree.
From S2P Require Import Symbol.
From S2P Require Import Bytes.
From S2P Require Import PrimTable.
From S2P Require Import PrimTableProps.
From S2P Require Import Fasl.
From S2P Require Import FaslProps.
Import ListNotations.
Local Open Scope Z_scope.
Local Open Scope list_scope.

#[local] Opaque MAKE_OBJECT OBJECT_DATUM OBJECT_TYPE.

(** ** A table of primitives at another place *)

Lemma byte_at_moved m m' d p : m' (d + p / 8) = m (p / 8) -> byte_at m' (8 * d + p) = byte_at m p.
Proof.
  intros E. unfold byte_at. replace (8 * d + p) with (p + d * 8) by lia. rewrite Z.div_add, Z_mod_plus_full by lia.
  replace (p / 8 + d) with (d + p / 8) by lia. rewrite E. reflexivity.
Qed.

Lemma bytes_at_moved m m' d p n : (forall q, p <= q < p + n -> m' (d + q / 8) = m (q / 8)) -> bytes_at m' (8 * d + p) n = bytes_at m p n.
Proof.
  intros E. unfold bytes_at. apply map_ext_in. intros i I. apply in_seq in I.
  replace (8 * d + p + Z.of_nat i) with (8 * d + (p + Z.of_nat i)) by lia. apply byte_at_moved, E. lia.
Qed.

Lemma entry_at_moved m m' d a nm arity : (forall x, a <= x < a + entry_size nm -> m' (d + x) = m x) ->
  entry_at m a nm arity -> entry_at m' (d + a) nm arity.
Proof.
  intros E [A H B]. pose proof (entry_size_pos nm). assert (L : 0 <= name_length nm) by (unfold name_length; lia). constructor.
  - rewrite E by lia. exact A.
  - replace (d + a + 1) with (d + (a + 1)) by lia. rewrite E by lia. exact H.
  - rewrite <- B. replace (8 * (d + a + 3)) with (8 * d + 8 * (a + 3)) by lia. apply bytes_at_moved. intros q Hq. apply E.
    rewrite name_words by exact L.
    assert (a + 3 <= q / 8) by (apply Z.div_le_lower_bound; lia).
    assert (q / 8 <= a + 3 + name_length nm / 8); [|lia].
    replace (a + 3 + name_length nm / 8) with ((name_length nm + (a + 3) * 8) / 8) by (rewrite Z.div_add; lia).
    apply Z.div_le_mono; lia.
Qed.

Lemma table_at_moved m m' d es : forall a, (forall x, a <= x < a + table_size es -> m' (d + x) = m x) -> table_at m a es -> table_at m' (d + a) es.
Proof.
  induction es as [|[nm arity] es IH]; intros a E T; [constructor|]. inversion T as [|? ? ? ? En T']; subst.
  cbn [table_size fold_right fst] in E. fold (table_size es) in E. pose proof (table_size_nonneg es). pose proof (entry_size_pos nm).
  constructor.
  - apply (entry_at_moved m); [intros x Hx; apply E; lia | exact En].
  - replace (d + a + entry_size nm) with (d + (a + entry_size nm)) by lia. apply IH; [intros x Hx; apply E; lia | exact T'].
Qed.

(** ** A system whose image can be dumped *)

Definition in_spaces (s : system) (heap_top a : Z) : Prop :=
  heap_start (sp s) <= a < heap_top \/ constant_start (sp s) <= a < constant_alloc_next (sp s) \/ stack_start (sp s) <= a < stack_end (sp s).

Definition object_ok (s : system) (o : Z) : Prop :=
  match treatment_of o with
  | Moved => in_spaces s (Free (sp s)) (OBJECT_ADDRESS (base_of s) o)
  | Renamed => OBJECT_DATUM o < MAX_PRIMITIVE (tables (ps s))
  | _ => True
  end.

Definition item_in (s : system) (i : item) : Prop := good_item i /\ match i with Object o => object_ok s o | Words _ _ => True end.

Definition image_size (its : list item) : Z := Z.of_nat (length (image its)).

Record good_system (fuel : nat) (s : system) (heap const : list item) : Prop := {
  gs_tables : wf_tables (tables (ps s));
  gs_readable : readable_tables fuel (tables (ps s));
  gs_primitives : MAX_PRIMITIVE (tables (ps s)) <= 2 ^ 29;
  gs_base : 0 < base_of s;
  gs_block : memory_block_end (sp s) < base_of s + 2 ^ 58;
  gs_stack : stack_start (sp s) = base_of s /\ stack_start (sp s) <= stack_end (sp s) <= constant_start (sp s);
  gs_limits : constant_alloc_next (sp s) <= heap_start (sp s) /\ heap_end (sp s) <= memory_block_end (sp s);
  gs_reserved : 0 <= heap_reserved (sp s) < 2 ^ 58;
  gs_count : 0 <= ephemeron_count s < 2 ^ 58;
  gs_free : Free (sp s) = heap_start (sp s) + image_size heap;
  gs_next : constant_alloc_next (sp s) = constant_start (sp s) + image_size const;
  gs_heap : placed (smem s) (heap_start (sp s)) (image heap);
  gs_constant : placed (smem s) (constant_start (sp s)) (image const);
  gs_items : Forall (item_in s) (heap ++ const)
}.

(** The items that DUMP-BAND adds. *)
Definition root_items (s : system) (procedure : Z) : list item := map Object (band_root (base_of s) (Free (sp s)) procedure).

Lemma image_objects os : image (map Object os) = os.
Proof. induction os as [|o os IH]; [reflexivity|]. cbn in *. f_equal. exact IH. Qed.

Lemma image_app its its' : image (its ++ its') = image its ++ image its'.
Proof. unfold image. rewrite map_app, concat_app. reflexivity. Qed.

Lemma placed_join m a ws ws' : placed m a ws -> placed m (a + Z.of_nat (length ws)) ws' -> placed m a (ws ++ ws').
Proof.
  intros P P' i w H. destruct (Nat.lt_ge_cases i (length ws)) as [L | L].
  - apply P. rewrite nth_error_app1 in H by exact L. exact H.
  - rewrite nth_error_app2 in H by exact L. apply P' in H. rewrite <- H. f_equal. lia.
Qed.

(** The header of a band. *)
Definition band_header (s : system) (h : fasl_header) : fasl_header :=
  finalize_fasl_header (ephemeron_count s)
    (set_band_fields (initialize_fasl_header true true s h) (Free (sp s) + 5) (heap_start (sp s)) (Free (sp s) + 6)
       (constant_start (sp s)) (constant_alloc_next (sp s)) (MAX_PRIMITIVE (tables (ps s)))
       (primitive_table_export_length (tables (ps s)))).

Definition table_entries (t : prim_tables) : list (name * Z) := map (entry_of t) (all_codes t).

Section Dump.
Variable fuel : nat.
Variable s : system.
Variable heap const : list item.
Hypothesis G : good_system fuel s heap const.
Variable procedure : Z.
Hypothesis procedure_ok : is_ulong procedure /\ treatment_of procedure <> Header /\ treatment_of procedure <> Refused /\ object_ok s procedure.
Variable h : fasl_header.
Hypothesis fits : Free (sp s) + 6 + primitive_table_export_length (tables (ps s)) <= heap_end (sp s).

Notation t := (tables (ps s)).
Notation size := (primitive_table_export_length t).
Notation to := (Free (sp s)).

Lemma table_size_length : size = table_size (table_entries t).
Proof using Type. apply export_length_size. Qed.

Lemma in_all_codes i : In i (all_codes t) <-> 0 <= i < MAX_PRIMITIVE t.
Proof using Type.
  unfold all_codes. rewrite in_map_iff. split.
  - intros (k & <- & I). apply in_seq in I. lia.
  - intros H. exists (Z.to_nat i). split; [lia|]. apply in_seq. lia.
Qed.

Lemma dump_run_words : exists m,
  Prim_band_dump procedure h s = Dumped (words_at (encode_fasl_header (base_of s) (band_header s h)) 0 50
      ++ image (heap ++ root_items s procedure) ++ image const ++ words_at m (Free (sp s) + 6) size)
    (mk_system (sp s) (mk_prim_state t m) (ephemeron_array s) (ephemeron_count s))
  /\ table_at m (Free (sp s) + 6) (table_entries t).
Proof using G fits.
  unfold Prim_band_dump. set (m0 := store_words (smem s) to (band_root (base_of s) to procedure)).
  destruct (Z.ltb_spec (heap_end (sp s)) (to + 6 + size)); [lia|].
  destruct (export_entries_run (all_codes t) (to + 6) (mk_prim_state t m0)) as (m & E & T & O).
  { apply Forall_forall. intros i Hi. apply in_all_codes in Hi. apply source_name_at; [apply G | exact Hi]. }
  exists m. unfold export_primitive_table, PrimTable.bind, PrimTable.get. cbn [tables] in *. rewrite E. cbn [pmem tables] in *. split; [|exact T].
  assert (Ln : length (band_root (base_of s) to procedure) = 6%nat) by reflexivity.
  pose proof (gs_free _ _ _ _ G) as Fr. pose proof (gs_next _ _ _ _ G) as Nx. pose proof (gs_limits _ _ _ _ G) as Lm.
  unfold image_size in *.
  f_equal. change (finalize_fasl_header (ephemeron_count s) _) with (band_header s h). unfold write_fasl_file. f_equal.
  assert (F1 : FASLHDR_HEAP_START (band_header s h) = heap_start (sp s) /\ FASLHDR_HEAP_END (band_header s h) = to + 6
    /\ FASLHDR_CONSTANT_START (band_header s h) = constant_start (sp s) /\ FASLHDR_CONSTANT_END (band_header s h) = constant_alloc_next (sp s)
    /\ FASLHDR_PRIMITIVE_TABLE_SIZE (band_header s h) = size).
  { unfold band_header, finalize_fasl_header. destruct (ephemeron_count s =? 0); auto. }
  destruct F1 as (F1 & F2 & F3 & F4 & F5).
  unfold FASLHDR_HEAP_SIZE, FASLHDR_CONSTANT_SIZE. rewrite F1, F2, F3, F4, F5.
  pose proof (gs_block _ _ _ _ G). pose proof (gs_stack _ _ _ _ G). pose proof (gs_base _ _ _ _ G).
  assert (0 <= size) by (rewrite table_size_length; apply table_size_nonneg).
  rewrite !ulong_small by lia. f_equal; [|f_equal].
  - rewrite <- (words_placed m (heap_start (sp s)) (image (heap ++ root_items s procedure))).
    + f_equal. unfold root_items. rewrite image_app, image_objects, length_app, Ln. lia.
    + unfold root_items. rewrite image_app, image_objects. apply (placed_kept m0).
      * rewrite length_app, Ln. intros x Hx. apply O. lia.
      * apply placed_join.
        -- apply (placed_kept (smem s)); [|apply G]. intros x Hx. apply store_words_other. lia.
        -- rewrite <- Fr. apply placed_stored.
  - rewrite <- (words_placed m (constant_start (sp s)) (image const)).
    + f_equal. lia.
    + apply (placed_kept (smem s)); [|apply G]. intros x Hx. rewrite O by lia. apply store_words_other. lia.
Qed.
(** ** The header is read *)

Definition loaded_header (h' : fasl_header) : fasl_header := read_back (band_header s h) h'.

Lemma band_header_valid : valid_header (band_header s h) /\ FASLHDR_MEMORY_BASE (band_header s h) = base_of s.
Proof using G fits.
  pose proof (gs_free _ _ _ _ G). pose proof (gs_next _ _ _ _ G). pose proof (gs_limits _ _ _ _ G). pose proof (gs_block _ _ _ _ G).
  pose proof (gs_stack _ _ _ _ G). pose proof (gs_base _ _ _ _ G). pose proof (gs_reserved _ _ _ _ G). pose proof (gs_count _ _ _ _ G).
  pose proof (gs_primitives _ _ _ _ G). pose proof (wf_size _ (gs_tables _ _ _ _ G)). unfold image_size in *.
  assert (0 <= size) by (rewrite table_size_length; apply table_size_nonneg).
  unfold band_header, finalize_fasl_header. destruct (Z.eqb_spec (ephemeron_count s) 0); cbn [negb]; (split; [constructor | reflexivity]);
    cbn; change (memory_block_start (sp s)) with (base_of s); intros; lia.
Qed.

Lemma init_run base' h' rest :
  init_fasl_file base' true h' (words_at (encode_fasl_header (base_of s) (band_header s h)) 0 50 ++ rest) = Ok (loaded_header h', rest).
Proof using G fits.
  destruct band_header_valid as [V B]. unfold init_fasl_file, read_from_fasl_file.
  set (ws := words_at _ 0 50). assert (L : length ws = 50%nat) by apply file_words_length.
  destruct (Z.leb_spec FASL_HEADER_LENGTH (Z.of_nat (length (ws ++ rest)))); [|rewrite length_app in *; lia].
  change (Z.to_nat FASL_HEADER_LENGTH) with 50%nat. rewrite <- L, firstn_app, firstn_all, Nat.sub_diag, firstn_O, app_nil_r.
  rewrite skipn_app, skipn_all, Nat.sub_diag. cbn [skipn app].
  rewrite (decode_ext base' (encode_fasl_header (base_of s) (band_header s h))) by (intros i Hi; apply file_array, Hi).
  rewrite (decode_encode (base_of s) base' _ h' V B). fold (loaded_header h').
  unfold loaded_header, read_back, band_header, finalize_fasl_header. destruct (ephemeron_count s =? 0); reflexivity.
Qed.

(** What the loader uses of the header. *)
Lemma loaded_fields h' : let fh := loaded_header h' in
  FASLHDR_BAND_P fh = true /\ FASLHDR_ARCH fh = CURRENT_FASL_ARCH /\ FASLHDR_MEMORY_BASE fh = base_of s
  /\ FASLHDR_ROOT_POINTER fh = to + 5 /\ FASLHDR_HEAP_START fh = heap_start (sp s) /\ FASLHDR_HEAP_END fh = to + 6
  /\ FASLHDR_HEAP_RESERVED fh = heap_reserved (sp s)
  /\ FASLHDR_CONSTANT_START fh = constant_start (sp s) /\ FASLHDR_CONSTANT_END fh = constant_alloc_next (sp s)
  /\ FASLHDR_STACK_START fh = stack_start (sp s) /\ FASLHDR_STACK_END fh = stack_end (sp s)
  /\ FASLHDR_N_PRIMITIVES fh = MAX_PRIMITIVE t /\ FASLHDR_PRIMITIVE_TABLE_SIZE fh = size
  /\ (FASLHDR_UTILITIES_VECTOR fh = SHARP_F /\ FASLHDR_UTILITIES_START fh = 0 /\ __FASLHDR_UTILITIES_END fh = 0)
  /\ (FASLHDR_VERSION fh = if ephemeron_count s =? 0 then FASL_VERSION_STACK_END else FASL_VERSION_EPHEMERONS)
  /\ (ephemeron_count s <> 0 -> FASLHDR_EPHEMERON_COUNT fh = ephemeron_count s).
Proof using Type.
  cbn zeta. unfold loaded_header, read_back, band_header, finalize_fasl_header.
  destruct (Z.eqb_spec (ephemeron_count s) 0); cbn [negb]; repeat split; intros; try contradiction; reflexivity.
Qed.
End Dump.

(** ** The same world at other addresses *)

Definition moved_to (s s' : system) (a : Z) : Z :=
  if within_space a (heap_start (sp s)) (Free (sp s) + 6) then heap_start (sp s') + (a - heap_start (sp s))
  else if within_space a (constant_start (sp s)) (constant_alloc_next (sp s)) then constant_start (sp s') + (a - constant_start (sp s))
  else a - stack_end (sp s) + stack_end (sp s').

(** [o'] stands in [s'] for what [o] stands for in [s]. *)
Definition same_object (s s' : system) (o o' : Z) : Prop :=
  OBJECT_TYPE o' = OBJECT_TYPE o
  /\ match treatment_of o with
     | Moved => OBJECT_ADDRESS (base_of s') o' = moved_to s s' (OBJECT_ADDRESS (base_of s) o)
     | Renamed =>
         let nm := source_name (tables (ps s)) (OBJECT_DATUM o) in
         let arity := Primitive_Arity_Table (tables (ps s)) (OBJECT_DATUM o) in
         index_of (tables (ps s')) nm = Some (OBJECT_DATUM o')
         /\ (arity <> UNKNOWN_PRIMITIVE_ARITY -> Primitive_Arity_Table (tables (ps s')) (OBJECT_DATUM o') = arity)
     | _ => o' = o
     end.

Definition same_item (s s' : system) (i i' : item) : Prop :=
  match i, i' with
  | Object o, Object o' => same_object s s' o o'
  | Words h ws, Words h' ws' => h' = h /\ ws' = ws
  | _, _ => False
  end.

(** The images [heap] and [const] of [s] are in [s']; [root] is the last
    object of the heap. *)
Record reloaded (s s' : system) (heap const : list item) (root : Z) : Prop := {
  rl_heap : exists heap', Forall2 (same_item s s') heap heap' /\ placed (smem s') (heap_start (sp s')) (image heap')
    /\ last (image heap') 0 = root;
  rl_constant : exists const', Forall2 (same_item s s') const const' /\ placed (smem s') (constant_start (sp s')) (image const');
  rl_free : heap_start (sp s') + image_size heap <= Free (sp s') <= heap_alloc_limit (sp s');
  rl_next : constant_alloc_next (sp s') = constant_start (sp s') + image_size const;
  rl_tables : wf_tables (tables (ps s'))
}.

Lemma lbind_Ok {A B} (a : A) (k : A -> B + load_error) : lbind (Ok a) k = k a.
Proof. reflexivity. Qed.

Lemma read_from_file_run m p ws rest : read_from_file m p (Z.of_nat (length ws)) (ws ++ rest) = Ok (store_words m p ws, p + Z.of_nat (length ws), rest).
Proof.
  unfold read_from_file, read_from_fasl_file. rewrite length_app.
  destruct (Z.leb_spec (Z.of_nat (length ws)) (Z.of_nat (length ws + length rest))); [|lia].
  rewrite Nat2Z.id, firstn_app, firstn_all, Nat.sub_diag, firstn_O, app_nil_r, skipn_app, skipn_all, Nat.sub_diag. reflexivity.
Qed.

(** The room for the table of ephemerons. *)
Definition ephemeron_room (n : Z) : Z :=
  if n =? 0 then 0 else match compute_ephemeron_array_length n with Some l => 1 + l | None => 0 end.

Lemma ephemeron_length n : exists l, compute_ephemeron_array_length n = Some l /\ 0 <= l < 2 ^ 31.
Proof.
  destruct (ephemeron_array_length_first n) as (k & -> & Hk & _). exists (prime_at k). split; [reflexivity|].
  assert (F : Forall (fun p => 0 <= p < 2 ^ 31) primes) by (repeat constructor; cbv; discriminate).
  rewrite Forall_forall in F. apply F. unfold prime_at. apply nth_In. cbn. lia.
Qed.

Lemma ephemeron_room_nonneg n : 0 <= ephemeron_room n < 2 ^ 32.
Proof. unfold ephemeron_room. destruct (n =? 0); [lia|]. destruct (ephemeron_length n) as (l & -> & H). lia. Qed.

Lemma extra_space_run n s : exists extra, compute_extra_ephemeron_space n s = Ok extra /\ 0 <= extra <= ephemeron_room n.
Proof.
  unfold compute_extra_ephemeron_space, ephemeron_room, ephemeron_array_big_enough_p. destruct (ephemeron_length n) as (l & -> & H).
  destruct (n =? 0); cbn [orb].
  - exists 0. split; [reflexivity | lia].
  - destruct (match ephemeron_array s with Some _ => _ | None => _ end).
    + exists 0. split; [reflexivity | lia].
    + exists (VECTOR_DATA + l). split; [reflexivity | lia].
Qed.

Lemma guarantee_ephemerons_run n s : ephemeron_array s = None -> heap_start (sp s) <= Free (sp s) ->
  Free (sp s) + ephemeron_room n <= heap_alloc_limit (sp s) -> Free (sp s) < heap_alloc_limit (sp s) ->
  exists s', guarantee_extra_ephemeron_space n s = Ok s' /\ (forall x, x < Free (sp s) -> smem s' x = smem s x)
    /\ tables (ps s') = tables (ps s) /\ Free (sp s) <= Free (sp s') <= heap_alloc_limit (sp s)
    /\ exists f c, sp s' = set_free (sp s) f c /\ c = constant_alloc_next (sp s).
Proof.
  intros A F R L. unfold guarantee_extra_ephemeron_space. cbn [sp ps Fasl.ephemeron_array]. rewrite A.
  unfold ephemeron_array_big_enough_p, ephemeron_room in *. destruct (n =? 0); cbn [orb].
  - eexists. split; [reflexivity|]. cbn. split; [auto|]. split; [auto|]. split; [lia|].
    exists (Free (sp s)), (constant_alloc_next (sp s)). split; [destruct (sp s); reflexivity | reflexivity].
  - destruct (ephemeron_length n) as (l & El & H). rewrite El in *. unfold HEAP_AVAILABLE_P, FREE_OK_P, machine_of. cbn [sp ps smem].
    cbn [Memory.Free Memory.heap_start Memory.heap_alloc_limit].
    destruct (Z.leb_spec (heap_start (sp s)) (Free (sp s))); [|lia]. destruct (Z.ltb_spec (Free (sp s)) (heap_alloc_limit (sp s))); [|lia].
    destruct (Z.leb_spec (Free (sp s) + (VECTOR_DATA + l)) (heap_alloc_limit (sp s))); [|lia]. cbn [andb negb].
    unfold fill_vector. cbn [Memory.Free mem]. eexists. split; [reflexivity|]. cbn [sp ps smem set_smem pmem tables Fasl.Free set_free].
    split; [|split; [reflexivity | split; [cbn; lia | eauto]]].
    intros x Hx. unfold smem. cbn. rewrite fill_spec. destruct (Z.leb_spec (Free (sp s) + 1) x); [lia|]. cbn [andb].
    apply store_other. lia.
Qed.

Section LoadImage.
Variable malloc : nat -> bool.
Variable Prim_unimplemented : Z.
Variable fuel : nat.
Variable s : system.
Variable heap const : list item.
Hypothesis G : good_system fuel s heap const.
Variable procedure : Z.
Hypothesis procedure_ok : is_ulong procedure /\ treatment_of procedure <> Header /\ treatment_of procedure <> Refused /\ object_ok s procedure.
Hypothesis fits : Free (sp s) + 6 + primitive_table_export_length (tables (ps s)) <= heap_end (sp s).
Variable h h' : fasl_header.
(** The memory of the dump. *)
Variable m1 : memory.
Hypothesis table1 : table_at m1 (Free (sp s) + 6) (table_entries (tables (ps s))).

Notation t := (tables (ps s)).
Notation size := (primitive_table_export_length t).
Notation to := (Free (sp s)).
Notation N := (MAX_PRIMITIVE t).
Notation fh := (loaded_header s h h').
Notation full := (heap ++ root_items s procedure).

(** The system into which the band is loaded, after its spaces are reset. *)
Variable s2 : system.
Hypothesis base2 : 0 < base_of s2.
Hypothesis block2 : memory_block_end (sp s2) <= base_of s2 + 2 ^ 58.
Hypothesis tables2 : wf_tables (tables (ps s2)).
Hypothesis primitives2 : MAX_PRIMITIVE (tables (ps s2)) < 2 ^ 57.
Hypothesis stack2 : base_of s2 <= stack_end (sp s2) - (stack_end (sp s) - stack_start (sp s)) /\ stack_end (sp s2) <= constant_start (sp s2).
Hypothesis constant2 : constant_alloc_next (sp s2) = constant_start (sp s2) /\ constant_start (sp s2) + image_size const <= heap_start (sp s2).
Hypothesis heap2 : Free (sp s2) = heap_start (sp s2)
  /\ heap_start (sp s2) + image_size full + N + size + ephemeron_room (ephemeron_count s) <= heap_alloc_limit (sp s2)
  /\ heap_alloc_limit (sp s2) < memory_block_end (sp s2).
Hypothesis array2 : ephemeron_array s2 = None.

Notation Hs := (heap_start (sp s2)).
Notation Cs := (constant_start (sp s2)).
Notation pt := (Hs + image_size full).
Notation relocated := (relocated (base_of s2) fh Hs Cs (stack_end (sp s2)) pt).

Lemma full_size : image_size full = to + 6 - heap_start (sp s).
Proof using G.
  pose proof (gs_free _ _ _ _ G). unfold image_size, root_items in *. rewrite image_app, image_objects, length_app.
  change (length (band_root (base_of s) to procedure)) with 6%nat. lia.
Qed.

Lemma sizes_nonneg : 0 <= image_size heap /\ 0 <= image_size const /\ 10 <= N /\ 0 <= size /\ N <= 2 ^ 29.
Proof using G.
  pose proof (wf_size _ (gs_tables _ _ _ _ G)). pose proof (gs_primitives _ _ _ _ G). unfold image_size.
  rewrite table_size_length. pose proof (table_size_nonneg (table_entries t)). lia.
Qed.

Lemma pointer_datum type a : 0 <= type < 64 -> base_of s <= a < base_of s + 2 ^ 58 ->
  OBJECT_TYPE (MAKE_POINTER_OBJECT (base_of s) type a) = type /\ OBJECT_ADDRESS (base_of s) (MAKE_POINTER_OBJECT (base_of s) type a) = a
  /\ is_ulong (MAKE_POINTER_OBJECT (base_of s) type a).
Proof using Type.
  intros T A. unfold MAKE_POINTER_OBJECT, OBJECT_ADDRESS, DATUM_TO_ADDRESS, ADDRESS_TO_DATUM. rewrite ulong_small by lia.
  destruct (MAKE_OBJECT_parts type (a - base_of s) T ltac:(lia)) as [-> ->]. split; [reflexivity|]. split; [lia|].
  rewrite MAKE_OBJECT_add by lia. unfold is_ulong. lia.
Qed.

Lemma in_image_spaces a : in_spaces s (to + 6) a <-> in_image fh a.
Proof using Type.
  destruct (loaded_fields s h h') as (_ & _ & _ & _ & F1 & F2 & _ & F3 & F4 & F5 & F6 & _).
  unfold in_image, in_spaces, within_space. rewrite F1, F2, F3, F4, F5, F6. rewrite !orb_true_iff, !andb_true_iff, !Z.leb_le, !Z.ltb_lt.
  clear. tauto.
Qed.

Lemma full_ok : Forall (item_ok fh N) full /\ Forall (item_ok fh N) const.
Proof using G procedure_ok fits.
  destruct (loaded_fields s h h') as (_ & _ & Fb & _).
  assert (Ok_ : forall o, object_ok s o -> relocatable fh N o).
  { intros o. unfold object_ok, relocatable. destruct (treatment_of o); auto. intros S. apply in_image_spaces. unfold old_address. rewrite Fb.
    unfold OBJECT_ADDRESS, DATUM_TO_ADDRESS in S. rewrite Z.add_comm. unfold in_spaces in *. lia. }
  assert (It : forall i, item_in s i -> item_ok fh N i) by (intros [o | w ws] [Gi Oi]; split; auto).
  pose proof (gs_items _ _ _ _ G) as Al. apply Forall_app in Al as [A1 A2].
  split; [|eapply Forall_impl; [|exact A2]; exact It]. apply Forall_app. split; [eapply Forall_impl; [|exact A1]; exact It|].
  pose proof (gs_free _ _ _ _ G). pose proof (gs_limits _ _ _ _ G). pose proof (gs_block _ _ _ _ G). pose proof (gs_stack _ _ _ _ G).
  pose proof (gs_next _ _ _ _ G). pose proof sizes_nonneg.
  destruct procedure_ok as (P1 & P2 & P3 & P4).
  assert (Zr : item_ok fh N (Object SHARP_F)).
  { split; [|exact I]. split; [red; lia|]. split; intros E; vm_compute in E; discriminate. }
  assert (Pt : forall type a, 0 <= type < 64 -> relocate_block_table type = Some (gc gc_handle_unaligned_vector)
     \/ relocate_block_table type = Some (gc gc_handle_pair) ->
    heap_start (sp s) <= a < to + 6 -> item_ok fh N (Object (MAKE_POINTER_OBJECT (base_of s) type a))).
  { intros type a T R A. destruct (pointer_datum type a T) as (E1 & E2 & E3); [lia|].
    assert (Tr : treatment_of (MAKE_POINTER_OBJECT (base_of s) type a) = Moved) by (unfold treatment_of; rewrite E1; destruct R as [-> | ->]; reflexivity).
    split; [split; [exact E3 | rewrite Tr; split; discriminate]|]. unfold relocatable. rewrite Tr. apply in_image_spaces. left.
    unfold old_address. rewrite Fb. unfold OBJECT_ADDRESS, DATUM_TO_ADDRESS in E2. lia. }
  unfold root_items, band_root. cbn [map]. repeat apply Forall_cons; auto using Forall_nil.
  - assert (E : MAKE_OBJECT TC_MANIFEST_VECTOR 2 = 2) by reflexivity. rewrite E.
    split; [|exact I]. split; [red; lia|]. split; intros X; vm_compute in X; discriminate.
  - split; [split; auto | apply Ok_, P4].
  - apply Pt; [lia | left; reflexivity | lia].
  - apply Pt; [lia | right; reflexivity | lia].
Qed.

(** The vector of primitives [m4] has what the table says. *)
Variable m4 : memory.
Variable t4 : prim_tables.
Hypothesis imported4 : imported t4 (table_entries t) m4 pt.

Lemma entry_nth i : 0 <= i < N -> nth_error (table_entries t) (Z.to_nat i) = Some (entry_of t i).
Proof using Type.
  intros Hi. unfold table_entries, all_codes. rewrite map_map, nth_error_map.
  rewrite (nth_error_nth' _ O) by (rewrite length_seq; lia). cbn [option_map]. rewrite seq_nth by lia.
  rewrite Nat.add_0_l, Z2Nat.id by lia. reflexivity.
Qed.

(** The system after the load. *)
Variable s5 : system.
Hypothesis base5 : base_of s5 = base_of s2.
Hypothesis tables5 : tables (ps s5) = t4.
Hypothesis max4 : MAX_PRIMITIVE t4 < 2 ^ 58.
Hypothesis spaces5 : heap_start (sp s5) = Hs /\ constant_start (sp s5) = Cs /\ stack_end (sp s5) = stack_end (sp s2).

Lemma relocated_same i : item_ok fh N i -> same_item s s5 i (map_item (relocated m4) i).
Proof using G fits base2 block2 stack2 constant2 heap2 imported4 base5 tables5 max4 spaces5.
  intros [Gi Ri]. destruct i as [o | w ws]; cbn [map_item same_item]; [|auto]. destruct Gi as (Uo & Nh & Nr).
  destruct (loaded_fields s h h') as (_ & _ & Fb & _ & F1 & F2 & _ & F3 & F4 & F5 & F6 & _).
  pose proof (gs_free _ _ _ _ G). pose proof (gs_limits _ _ _ _ G). pose proof (gs_stack _ _ _ _ G). pose proof (gs_next _ _ _ _ G).
  pose proof sizes_nonneg. pose proof full_size. pose proof (ephemeron_room_nonneg (ephemeron_count s)).
  destruct spaces5 as (S1 & S2 & S3). unfold same_object, FaslProps.relocated, relocatable in *. rewrite base5, tables5.
  assert (Ty : 0 <= OBJECT_TYPE o < 64) by (rewrite OBJECT_TYPE_div; unfold is_ulong in Uo; split; [apply Z.div_pos; lia | apply Z.div_lt_upper_bound; lia]).
  destruct (treatment_of o); try contradiction; auto.
  - assert (Tr : translate fh Hs Cs (stack_end (sp s2)) (old_address fh o) = moved_to s s5 (OBJECT_ADDRESS (base_of s) o)).
    { unfold translate, moved_to, old_address, OBJECT_ADDRESS, DATUM_TO_ADDRESS. rewrite Fb, F1, F2, F3, F4, F6, S1, S2, S3, (Z.add_comm (base_of s)). reflexivity. }
    rewrite Tr. apply in_image_spaces in Ri. unfold old_address in Ri. rewrite Fb in Ri.
    assert (B : base_of s2 <= moved_to s s5 (OBJECT_ADDRESS (base_of s) o) < base_of s2 + 2 ^ 58).
    { unfold moved_to, OBJECT_ADDRESS, DATUM_TO_ADDRESS, within_space. rewrite S1, S2, S3. unfold in_spaces in Ri.
      rewrite (Z.add_comm (base_of s)) in Ri.
      destruct (Z.leb_spec (heap_start (sp s)) (OBJECT_DATUM o + base_of s)), (Z.ltb_spec (OBJECT_DATUM o + base_of s) (to + 6)),
        (Z.leb_spec (constant_start (sp s)) (OBJECT_DATUM o + base_of s)), (Z.ltb_spec (OBJECT_DATUM o + base_of s) (constant_alloc_next (sp s)));
        cbn [andb]; lia. }
    unfold OBJECT_NEW_ADDRESS, OBJECT_NEW_DATUM, OBJECT_ADDRESS, DATUM_TO_ADDRESS, ADDRESS_TO_DATUM in *. rewrite ulong_small by lia.
    destruct (MAKE_OBJECT_parts (OBJECT_TYPE o) (moved_to s s5 (OBJECT_DATUM o + base_of s) - base_of s2) Ty) as [-> ->]; [lia|].
    split; [reflexivity | lia].
  - assert (D : 0 <= OBJECT_DATUM o) by (rewrite OBJECT_DATUM_mod; apply mod58).
    destruct (imported4 _ _ _ (entry_nth (OBJECT_DATUM o) ltac:(lia))) as (i & Pi & Ii & Ri' & Ai). rewrite Z2Nat.id in Pi by lia.
    unfold primitive_object. rewrite shiftr_div by lia. rewrite Z.div_small by lia. cbn [Z.eqb negb]. rewrite Pi.
    unfold MAKE_OBJECT_FROM_OBJECTS. destruct (primitive_parts i) as [-> _]; [lia|].
    destruct (MAKE_OBJECT_parts (OBJECT_TYPE o) i Ty) as [-> ->]; [lia|]. auto.
Qed.
End LoadImage.

(** ** Loading *)

(** What the load of a band of [s] in [s2] gives. *)
Definition load_result (malloc : nat -> bool) (s s2 : system) (heap const : list item) (r : (Z * system) + load_error) : Prop :=
  match r with
  | inl (root, s') => reloaded s s' heap const root /\ extends (tables (ps s2)) (tables (ps s'))
  | inr (Bad_primitives (Wrong_arity_primitives _)) => arity_conflict (tables (ps s2)) (table_entries (tables (ps s)))
  | inr (Bad_primitives (Not_enough_space _)) =>
      (exists i, 0 <= i < MAX_PRIMITIVE (tables (ps s)) /\ index_of (tables (ps s2)) (source_name (tables (ps s)) i) = None)
      /\ exists n, malloc n = false
  | inr _ => False
  end.

Lemma Forall2_mapped {A B} (P : A -> Prop) (Q : A -> B -> Prop) (f : A -> B) l : Forall P l -> (forall i, P i -> Q i (f i)) -> Forall2 Q l (map f l).
Proof. intros H E. induction H; cbn [map]; constructor; auto. Qed.

Lemma last_word_nth (l : list Z) : last l 0 = nth (length l - 1) l 0.
Proof.
  induction l as [|x l IH]; [reflexivity|]. destruct l as [|y l]; [reflexivity|]. change (last (x :: y :: l) 0) with (last (y :: l) 0).
  rewrite IH. cbn [length]. replace (S (S (length l)) - 1)%nat with (S (S (length l) - 1)) by lia. reflexivity.
Qed.

Section LoadFile.
Variable malloc : nat -> bool.
Variable Prim_unimplemented : Z.
Variable fuel : nat.
Variable s : system.
Variable heap const : list item.
Hypothesis G : good_system fuel s heap const.
Variable procedure : Z.
Hypothesis procedure_ok : is_ulong procedure /\ treatment_of procedure <> Header /\ treatment_of procedure <> Refused /\ object_ok s procedure.
Hypothesis fits : Free (sp s) + 6 + primitive_table_export_length (tables (ps s)) <= heap_end (sp s).
Variable h h' : fasl_header.
Variable m1 : memory.
Hypothesis table1 : table_at m1 (Free (sp s) + 6) (table_entries (tables (ps s))).

Notation t := (tables (ps s)).
Notation size := (primitive_table_export_length t).
Notation N := (MAX_PRIMITIVE t).
Notation fh := (loaded_header s h h').
Notation full := (heap ++ root_items s procedure).

Variable s2 : system.
Hypothesis base2 : 0 < base_of s2.
Hypothesis block2 : memory_block_end (sp s2) <= base_of s2 + 2 ^ 58.
Hypothesis tables2 : wf_tables (tables (ps s2)).
Hypothesis primitives2 : MAX_PRIMITIVE (tables (ps s2)) < 2 ^ 57.
Hypothesis stack2 : base_of s2 <= stack_end (sp s2) - (stack_end (sp s) - stack_start (sp s)) /\ stack_end (sp s2) <= constant_start (sp s2).
Hypothesis constant2 : constant_alloc_next (sp s2) = constant_start (sp s2) /\ constant_start (sp s2) + image_size const <= heap_start (sp s2).
Hypothesis heap2 : Free (sp s2) = heap_start (sp s2)
  /\ heap_start (sp s2) + image_size full + N + size + ephemeron_room (ephemeron_count s) <= heap_alloc_limit (sp s2)
  /\ heap_alloc_limit (sp s2) < memory_block_end (sp s2).
Hypothesis array2 : ephemeron_array s2 = None.

Notation Hs := (heap_start (sp s2)).
Notation Cs := (constant_start (sp s2)).
Notation hw := (image full).
Notation cw := (image const).
Notation tw := (words_at m1 (Free (sp s) + 6) size).
Notation m3 := (store_words (store_words (store_words (smem s2) Hs hw) Cs cw) (Hs + image_size full + N) tw).

Lemma m3_placed : placed m3 Hs hw /\ placed m3 Cs cw /\ table_at m3 (Hs + image_size full + N) (table_entries t).
Proof using G table1 constant2 fits.
  pose proof (sizes_nonneg fuel s heap const G) as Sz. pose proof (full_size fuel s heap const G procedure) as Fs.
  assert (Lt : Z.of_nat (length tw) = size) by (rewrite file_words_length; lia).
  assert (L1 : Z.of_nat (length hw) = image_size full) by reflexivity. assert (L2 : Z.of_nat (length cw) = image_size const) by reflexivity.
  assert (0 <= image_size full) by (unfold image_size; lia).
  split; [|split].
  - apply (placed_kept (store_words (smem s2) Hs hw)); [|apply placed_stored].
    rewrite L1. intros x Hx. rewrite !store_words_other by lia. reflexivity.
  - apply (placed_kept (store_words (store_words (smem s2) Hs hw) Cs cw)); [|apply placed_stored].
    rewrite L2. intros x Hx. rewrite store_words_other by lia. reflexivity.
  - replace (Hs + image_size full + N) with (Hs + image_size full + N - (Free (sp s) + 6) + (Free (sp s) + 6)) at 2 by lia.
    apply (table_at_moved m1); [|exact table1]. intros x Hx. rewrite <- table_size_length in Hx.
    replace (Hs + image_size full + N - (Free (sp s) + 6) + x) with (Hs + image_size full + N + (x - (Free (sp s) + 6))) by lia.
    rewrite words_at_copy by lia. f_equal. lia.
Qed.

Lemma load_file_run : load_result malloc s s2 full const
  (load_file malloc Prim_unimplemented fuel fh (hw ++ cw ++ tw) 0 s2).
Proof using G procedure_ok fits table1 base2 block2 tables2 primitives2 stack2 constant2 heap2 array2.
  pose proof (sizes_nonneg fuel s heap const G) as Sz. pose proof (full_size fuel s heap const G procedure) as Fs.
  pose proof (ephemeron_room_nonneg (ephemeron_count s)) as Er.
  destruct (loaded_fields s h h') as (Fband & Farch & Fb & Froot & F1 & F2 & _ & F3 & F4 & F5 & F6 & Fn & Fsz & Fut & Fv & Fe).
  pose proof (gs_next _ _ _ _ G) as Nx. pose proof (gs_limits _ _ _ _ G) as Lm. pose proof (gs_block _ _ _ _ G). pose proof (gs_stack _ _ _ _ G).
  pose proof (gs_free _ _ _ _ G). pose proof (gs_base _ _ _ _ G).
  assert (Lt : Z.of_nat (length tw) = size) by (rewrite file_words_length; lia).
  unfold load_file. rewrite (proj1 heap2), (proj1 constant2).
  assert (E1 : FASLHDR_HEAP_SIZE fh = Z.of_nat (length hw)).
  { unfold FASLHDR_HEAP_SIZE. rewrite F1, F2, ulong_small by lia. fold (image_size full). lia. }
  assert (E2 : FASLHDR_CONSTANT_SIZE fh = Z.of_nat (length cw)).
  { unfold FASLHDR_CONSTANT_SIZE. rewrite F3, F4, ulong_small by lia. fold (image_size const). lia. }
  rewrite E1, read_from_file_run. rewrite lbind_Ok. cbv beta iota. rewrite E2, read_from_file_run. rewrite lbind_Ok. cbv beta iota.
  rewrite Fsz, Fn. pose proof (read_from_file_run (store_words (store_words (smem s2) Hs hw) Cs cw) (Hs + image_size full + N) tw []) as R3.
  rewrite app_nil_r, Lt in R3. fold (image_size full). rewrite R3. rewrite lbind_Ok. cbv beta iota. clear R3.
  destruct m3_placed as (Ph & Pc & Tb).
  assert (Ln : length (table_entries t) = Z.to_nat N) by (unfold table_entries, all_codes; rewrite !length_map, length_seq; reflexivity).
  pose proof (import_entries_run malloc Prim_unimplemented fuel (table_entries t) (Hs + image_size full + N) (Hs + image_size full)
    (mk_prim_state (tables (ps s2)) m3) tables2) as I.
  cbn [tables pmem] in I. rewrite Ln in I. unfold import_primitive_table.
  assert (I' := I Tb). clear I.
  assert (Rd : Forall (readable fuel) (table_entries t)).
  { apply Forall_forall. intros e He. unfold table_entries in He. apply in_map_iff in He as (i & <- & Hi). apply in_all_codes in Hi.
    apply (gs_readable _ _ _ _ G), Hi. }
  specialize (I' Rd ltac:(lia) ltac:(lia)).
  destruct (import_entries _ _ _ _ _ _ _) as [u p4 | | q | q |]; cbn [import_result tables pmem load_result] in I' |- *; try contradiction.
  2:{ destruct I' as [(nm & arity & He & Nn) Mf]. split; [|exact Mf]. unfold table_entries in He. apply in_map_iff in He as (i & Ei & Hi).
      apply in_all_codes in Hi. exists i. split; [exact Hi|]. injection Ei as <- _. exact Nn. }
  2:{ exact I'. }
  destruct I' as (W4 & X4 & I4 & M4 & O4 & _).
  destruct (full_ok fuel s heap const G procedure procedure_ok fits h h') as [Ofull Oconst].
  assert (Ph4 : placed (pmem p4) Hs hw) by (apply (placed_kept m3); [intros x Hx; apply O4; fold (image_size full) in Hx; lia | exact Ph]).
  assert (Pc4 : placed (pmem p4) Cs cw) by (apply (placed_kept m3); [intros x Hx; apply O4; fold (image_size const) in Hx; lia | exact Pc]).
  destruct (relocate_image_run (base_of s2) fh Hs Cs (stack_start (sp s2)) (stack_end (sp s2)) 0 (Hs + image_size full) Fut ltac:(lia)
    N (pmem p4) full const (eq_sym Fn) ltac:(lia) Ph4 Pc4 Ofull Oconst) as (m5 & E5 & P5 & Q5 & O5);
    [fold (image_size const); lia | fold (image_size full); lia |].
  fold (image_size full) in E5. fold (image_size const) in E5. fold (image_size const). rewrite E5. rewrite lbind_Ok. cbv beta iota.
  set (s3 := mk_system _ _ _ _).
  assert (Fr3 : Free (sp s3) = Hs + image_size full /\ heap_start (sp s3) = Hs /\ heap_alloc_limit (sp s3) = heap_alloc_limit (sp s2)) by auto.
  destruct Fr3 as (Fr3 & Hs3 & Lm3).
  assert (Gu : exists s4, (if FASL_VERSION_EPHEMERONS <=? FASLHDR_VERSION fh
       then guarantee_extra_ephemeron_space (0 + FASLHDR_EPHEMERON_COUNT fh) s3 else Ok s3) = Ok s4
     /\ (forall x, x < Hs + image_size full -> smem s4 x = m5 x) /\ tables (ps s4) = tables p4
     /\ Hs + image_size full <= Free (sp s4) <= heap_alloc_limit (sp s2)
     /\ exists f c, sp s4 = set_free (sp s2) f c /\ c = Cs + image_size const).
  { rewrite Fv. destruct (Z.eqb_spec (ephemeron_count s) 0) as [E0 | N0].
    - exists s3. split; [reflexivity|]. split; [reflexivity|]. split; [reflexivity|]. split; [change (Free (sp s3)) with (Hs + image_size full); lia|].
      exists (Hs + image_size full), (Cs + image_size const). split; reflexivity.
    - rewrite (Fe N0), Z.add_0_l. destruct (guarantee_ephemerons_run (ephemeron_count s) s3) as (s4 & E4 & K4 & T4 & R4 & f & c & S4 & C4).
      + exact array2.
      + lia.
      + lia.
      + lia.
      + exists s4. split; [exact E4|]. split; [exact K4|]. split; [exact T4|]. split; [lia|].
        exists f, c. split; [rewrite S4; reflexivity | rewrite C4; reflexivity]. }
  destruct Gu as (s4 & E4 & K4 & T4 & R4 & f & c & S4 & C4). rewrite E4. rewrite lbind_Ok. cbv beta iota.
  assert (Rt : in_image fh (Free (sp s) + 5)) by (apply in_image_spaces; left; lia).
  assert (B4 : base_of s4 = base_of s2) by (unfold base_of; rewrite S4; reflexivity).
  rewrite B4, Froot, (relocate_address_run (base_of s2) fh Hs Cs (stack_start (sp s2)) (stack_end (sp s2)) 0 Fut) by exact Rt.
  rewrite lbind_Ok. cbv beta iota. unfold load_result, Ok. cbv iota beta.
  assert (Tr : translate fh Hs Cs (stack_end (sp s2)) (Free (sp s) + 5) = Hs + (image_size full - 1)).
  { unfold translate, within_space. rewrite F1, F2. destruct (Z.leb_spec (heap_start (sp s)) (Free (sp s) + 5)); [|lia].
    destruct (Z.ltb_spec (Free (sp s) + 5) (Free (sp s) + 6)); [|lia]. cbn [andb]. lia. }
  rewrite Tr, K4, T4 by lia.
  set (R := map_item (relocated (base_of s2) fh Hs Cs (stack_end (sp s2)) (Hs + image_size full) (pmem p4))) in *.
  assert (Same : forall i, item_ok fh N i -> same_item s s4 i (R i)).
  { intros i Hi. unfold R. apply (relocated_same fuel s heap const G procedure fits h h' s2 base2 block2 stack2 constant2 heap2 (pmem p4) (tables p4)); auto.
    - pose proof (wf_size _ W4). lia.
    - rewrite S4. cbn. auto. }
  assert (Lm5 : length (image (map R full)) = length hw)
    by apply image_length_map.
  split; [|exact X4]. constructor.
  - exists (map R full).
    split; [|split].
    + exact (Forall2_mapped _ _ _ _ Ofull Same).
    + replace (heap_start (sp s4)) with Hs by (rewrite S4; reflexivity). apply (placed_kept m5); [|exact P5].
      rewrite Lm5. intros x Hx. apply K4. fold (image_size full) in Hx. lia.
    + rewrite last_word_nth, Lm5. symmetry. rewrite <- (P5 (length hw - 1)%nat (nth (length hw - 1) (image (map R full)) 0)).
      * f_equal. unfold image_size in *. lia.
      * apply nth_error_nth'. rewrite Lm5. unfold image_size in *. lia.
  - exists (map R const).
    split.
    + exact (Forall2_mapped _ _ _ _ Oconst Same).
    + replace (constant_start (sp s4)) with Cs by (rewrite S4; reflexivity). apply (placed_kept m5); [|exact Q5].
      unfold R. rewrite image_length_map. intros x Hx. apply K4. fold (image_size const) in Hx. lia.
  - rewrite S4 in R4 |- *. exact R4.
  - rewrite S4, C4. reflexivity.
  - rewrite T4. exact W4.
Qed.
End LoadFile.

(** ** The round trip *)

(** The space that is asked for the table of ephemerons. *)
Lemma extra_run s h h' s2 : let fh := loaded_header s h h' in
  exists extra, (if FASL_VERSION_EPHEMERONS <=? FASLHDR_VERSION fh
      then compute_extra_ephemeron_space (FASLHDR_EPHEMERON_COUNT fh) s2 else Ok 0) = Ok extra
    /\ 0 <= extra <= ephemeron_room (ephemeron_count s).
Proof.
  cbn zeta. destruct (loaded_fields s h h') as (_ & _ & _ & _ & _ & _ & _ & _ & _ & _ & _ & _ & _ & _ & Fv & Fe). rewrite Fv.
  destruct (Z.eqb_spec (ephemeron_count s) 0) as [E | N].
  - exists 0. split; [reflexivity|]. pose proof (ephemeron_room_nonneg (ephemeron_count s)). lia.
  - rewrite (Fe N). apply extra_space_run.
Qed.

(** [s2] has room for the image of [s], its table of primitives and its
    ephemerons, next to its stack. *)
Record room_for (s s2 : system) (full const : list item) : Prop := {
  rf_base : 0 < base_of s2;
  rf_block : memory_block_end (sp s2) <= base_of s2 + 2 ^ 58;
  rf_tables : wf_tables (tables (ps s2));
  rf_primitives : MAX_PRIMITIVE (tables (ps s2)) < 2 ^ 57;
  rf_stack : stack_end (sp s) - stack_start (sp s) <= saved_stack_size (sp s2);
  rf_all : base_of s2 + saved_stack_size (sp s2) + image_size const + CONSTANT_SPACE_FUDGE
    + (image_size full + MAX_PRIMITIVE (tables (ps s)) + primitive_table_export_length (tables (ps s)) + ephemeron_room (ephemeron_count s))
    + reserved_or_default (heap_reserved (sp s)) < memory_block_end (sp s2)
}.

Lemma reserved_pos n : 0 <= n -> 0 < reserved_or_default n.
Proof. intros H. unfold reserved_or_default. destruct (Z.eqb_spec n 0); lia. Qed.

(** C4: a band survives a dump by one microcode and a load by another: when
    the heap of a system and its constant space are made of objects that do
    not point outside its spaces, DUMP-BAND writes a file, and LOAD-BAND in a
    system with room for it either gives the same world - the objects of both
    spaces in their order, with their types, every address moved with the
    space it points into, every primitive known by its name and its arity,
    and the vectors of raw words unchanged - with the pair that DUMP-BAND
    added as the result, and keeps the primitives that the system had; or it
    reports an arity that really disagrees; or an allocation failed for a
    primitive whose name is new. *)
Theorem band_round_trip malloc Prim_unimplemented fuel s heap const procedure h h' s2 :
  good_system fuel s heap const ->
  is_ulong procedure /\ treatment_of procedure <> Header /\ treatment_of procedure <> Refused /\ object_ok s procedure ->
  Free (sp s) + 6 + primitive_table_export_length (tables (ps s)) <= heap_end (sp s) ->
  room_for s s2 (heap ++ root_items s procedure) const ->
  exists file m, Prim_band_dump procedure h s = Dumped file (set_smem s m)
    /\ load_result malloc s s2 (heap ++ root_items s procedure) const (read_band_file malloc Prim_unimplemented fuel file h' s2).
Proof.
  intros G Pr Fi R. destruct (dump_run_words fuel s heap const G procedure h Fi) as (m & Ed & T).
  eexists _, m. split; [exact Ed|].
  pose proof (sizes_nonneg fuel s heap const G) as Sz. pose proof (full_size fuel s heap const G procedure) as Fs.
  destruct (loaded_fields s h h') as (_ & _ & _ & _ & F1 & F2 & Fr & F3 & F4 & _ & _ & Fn & Fz & _).
  pose proof (gs_free _ _ _ _ G). pose proof (gs_next _ _ _ _ G). pose proof (gs_limits _ _ _ _ G). pose proof (gs_block _ _ _ _ G).
  pose proof (gs_stack _ _ _ _ G). pose proof (gs_base _ _ _ _ G).
  pose proof (reserved_pos (heap_reserved (sp s)) (proj1 (gs_reserved _ _ _ _ G))) as Rp.
  pose proof (ephemeron_room_nonneg (ephemeron_count s)) as Er.
  destruct R as [B2 Bl2 T2 P2 St2 Al2]. unfold base_of in B2, Bl2, Al2.
  assert (Hz : FASLHDR_HEAP_SIZE (loaded_header s h h') = image_size (heap ++ root_items s procedure))
    by (unfold FASLHDR_HEAP_SIZE; rewrite F1, F2, ulong_small; lia).
  assert (Cz : FASLHDR_CONSTANT_SIZE (loaded_header s h h') = image_size const)
    by (unfold FASLHDR_CONSTANT_SIZE; rewrite F3, F4, ulong_small; lia).
  unfold read_band_file. rewrite (init_run fuel s heap const G h Fi), lbind_Ok. cbv beta iota.
  assert (X : exists extra, (if FASL_VERSION_EPHEMERONS <=? FASLHDR_VERSION (loaded_header s h h')
      then compute_extra_ephemeron_space (FASLHDR_EPHEMERON_COUNT (loaded_header s h h')) s2 else Ok 0) = Ok extra
    /\ 0 <= extra <= ephemeron_room (ephemeron_count s)) by apply extra_run.
  destruct X as (extra & -> & Ex). rewrite lbind_Ok. cbv beta iota.
  unfold REQUIRED_HEAP. rewrite Hz, Cz, Fn, Fz, Fr, !ulong_small by (rewrite ?ulong_small by lia; lia).
  unfold allocations_ok_p.
  match goal with |- context [?a <? ?b] => destruct (Z.ltb_spec a b) as [_ | C]; [cbn [negb] | exfalso; lia] end.
  match goal with |- context [load_file _ _ _ _ _ _ ?x] => change (load_result malloc s x (heap ++ root_items s procedure) const
    (load_file malloc Prim_unimplemented fuel (loaded_header s h h') (image (heap ++ root_items s procedure) ++ image const
       ++ words_at m (Free (sp s) + 6) (primitive_table_export_length (tables (ps s)))) 0 x)) end.
  apply (load_file_run malloc Prim_unimplemented fuel s heap const G procedure Pr Fi h h' m T); unfold reset_allocator_parameters, reset_spaces, base_of;
    cbn [sp ps set_sp set_smem tables memory_block_start memory_block_end stack_end stack_start constant_start constant_alloc_next
      heap_start Free heap_alloc_limit Fasl.ephemeron_array]; try lia; auto.
Qed.

(** ** A small band *)

(** A pair of a primitive and a cell of the constant space, in a list that is
    its own tail, and two raw words; the type of a cell is 54. *)
Definition sample_heap : list item :=
  [Object (MAKE_PRIMITIVE_OBJECT 7); Object (MAKE_POINTER_OBJECT 1000 54 1100);
   Object (MAKE_POINTER_OBJECT 1000 TC_LIST 1300); Object (MAKE_POINTER_OBJECT 1000 TC_LIST 1302);
   Words (MAKE_OBJECT TC_MANIFEST_NM_VECTOR 2) [5; 6]].

Definition sample_constant : list item := [Object (MAKE_POINTER_OBJECT 1000 TC_LIST 1302)].

Definition sample_system : system :=
  mk_system (mk_spaces 1000 5000 100 1000 1100 1100 1050 1100 1101 1300 1300 1307 5000 200 4800)
    (mk_prim_state (tables_from 0) (store_words (store_words (fun _ => 0) 1300 (image sample_heap)) 1100 (image sample_constant))) None 2.

Definition other_system : system :=
  mk_system (mk_spaces 70000 90000 120 0 0 0 0 0 0 0 0 0 0 0 0) (mk_prim_state (tables_from 3) (fun _ => 0)) None 0.

(** The header before a dump or a load. *)
Definition empty_header : fasl_header := mk_fasl_header 0 0 0 0 true 0 0 0 0 0 0 0 0 0 0 0 0 0 0 0 0 0.

Lemma sample_system_good : good_system 5 sample_system sample_heap sample_constant.
Proof.
  constructor.
  - apply tables_from_wf, statics_from_0.
  - exact tables_from_0_readable.
  - vm_compute. discriminate.
  - reflexivity.
  - reflexivity.
  - repeat split; vm_compute; discriminate.
  - repeat split; vm_compute; discriminate.
  - repeat split; vm_compute; discriminate.
  - repeat split; vm_compute; discriminate.
  - reflexivity.
  - reflexivity.
  - apply (placed_kept (store_words (fun _ => 0) 1300 (image sample_heap))); [|apply placed_stored].
    change (Z.of_nat (length (image sample_heap))) with 7. intros x Hx. apply store_words_other. right.
    change (heap_start (sp sample_system)) with 1300 in Hx. change (1100 + Z.of_nat (length (image sample_constant))) with 1101. lia.
  - apply placed_stored.
  - repeat (apply Forall_cons; [vm_compute; intuition discriminate|]). apply Forall_nil.
Qed.

Lemma band_round_trip_witness :
  exists file m, Prim_band_dump (MAKE_PRIMITIVE_OBJECT 3) empty_header sample_system
      = Dumped file (set_smem sample_system m)
    /\ load_result (fun _ => true) sample_system other_system (sample_heap ++ root_items sample_system (MAKE_PRIMITIVE_OBJECT 3)) sample_constant
         (read_band_file (fun _ => true) 0 5 file empty_header other_system).
Proof.
  apply (band_round_trip (fun _ => true) 0 5).
  - exact sample_system_good.
  - vm_compute. intuition discriminate.
  - vm_compute. discriminate.
  - constructor; [reflexivity | vm_compute; discriminate | apply tables_from_wf, statics_from_3 | reflexivity | vm_compute; discriminate | reflexivity].
Defined.

(** The primitive 7 is 4 there, and the addresses are those of the other
    spaces: its stack of 120 words is at 70000. *)
Example sample_band_loads :
  match Prim_band_dump (MAKE_PRIMITIVE_OBJECT 3) empty_header sample_system with
  | Dumped file _ =>
      match read_band_file (fun _ => true) 0 5 file empty_header other_system with
      | inl (root, s) =>
          words_at (smem s) (heap_start (sp s)) 13
          = [MAKE_PRIMITIVE_OBJECT 4; MAKE_POINTER_OBJECT 70000 54 70120;
             MAKE_POINTER_OBJECT 70000 TC_LIST 70249; MAKE_POINTER_OBJECT 70000 TC_LIST 70251;
             MAKE_OBJECT TC_MANIFEST_NM_VECTOR 2; 5; 6;
             MAKE_OBJECT TC_MANIFEST_VECTOR 2; MAKE_PRIMITIVE_OBJECT 0; SHARP_F;
             MAKE_POINTER_OBJECT 70000 TC_COMBINATION 70256; SHARP_F; root]
          /\ words_at (smem s) (constant_start (sp s)) 1 = [MAKE_POINTER_OBJECT 70000 TC_LIST 70251]
      | inr _ => False
      end
  | _ => False
  end.
Proof. vm_compute. split; reflexivity. Qed.
